(* ===== verification/_CoqProject ===== *)
-Q . S2P
Prelude.v
Errors.v
Unicode.v
Parcel.v
ParcelFacts.v
Codec.v
ObjectCodec.v
Fields.v
ParcelInv.v
ParcelProps.v
Slices.v
Value.v
ValueProps.v
Status.v
Refs.v
Death.v
Stability.v
Dispatch.v
DispatchProps.v
RpcConn.v
RpcServe.v
RpcProps.v
RpcObjects.v
RpcCall.v
Record.v
Driver.v
KernelTransact.v
KernelFacts.v
KernelProps.v
KernelReply.v
Workers.v
Conn.v
ConnProps.v
Services.v
Registry.v
RegistryProps.v
Managers.v
ManagerProps.v
KernelServices.v
Aidl.v
AidlGrammar.v
AidlSound.v
AidlComplete.v
TextScanner.v
TextScannerFacts.v
AidlProps.v
GoText.v
AidlExpr.v
AidlResolve.v
AidlResolveProps.v
AidlNames.v
AidlLower.v
AidlLowerProps.v
Codegen.v
CodegenExpr.v
CodegenLower.v
CodegenProps.v
GeneratedCode.v
GeneratedWire.v
GeneratedProps.v
GeneratedRpc.v
GeneratedLink.v
AidlGen.v
AidlGenProps.v
BinderDebug.v
Tools.v
Dumpsys.v
DumpsysProps.v
ServiceTool.v
ServiceToolProps.v
Shell.v
ShellProps.v
ShellFiles.v
