(* ===== verification/Prelude.v ===== *)
(** * A verification library for libbinder-go

    libbinder-go is a Go implementation of Android's Binder: the Parcel wire
    format, the client and server sides of the kernel driver, and a transport of
    its own over sockets (RPC).  This library models its core as executable
    definitions and proves what makes it correct.  This file opens the library: it
    describes it, and holds what the other files share (machine integers,
    little-endian bytes, results and the error-and-state monad, tactics).

    ** How the program fits together

    A transaction is a code, flags and a Parcel: a byte buffer with a cursor and
    a table of the Binder objects and file descriptors in it
    (src/binder/parcel.go).  Scalars, strings, slices, maps and dynamically tagged
    values are written with the codecs of src/binder/codec_helpers.go and
    src/binder/value.go; a reply starts with a status (src/binder/status_codec.go,
    decoded again in src/internal/protocol/).  On the serving side
    DispatchLocalHandler (src/binder/dispatch.go) answers the reserved codes and
    calls the service's handler; services are registered as nodes
    (src/internal/kernel/local_nodes.go), carry stability labels
    (src/binder/stability_labels.go) and may be created lazily
    (src/binder/lazy.go).  On the client side the process counts its references
    to each kernel handle (src/internal/runtime/refs.go) and multiplexes death
    notifications (src/internal/kernel/death_registry.go).  The RPC transport
    (src/rpc_conn.go, src/rpc_binder.go, src/rpc_death.go) carries the same
    transactions as frames between two processes.

    The kernel transport is layered: the commands of the binder device
    (src/internal/kernel/uapi_64.go, driver_uapi_64.go), transactions and the
    driver's responses (transact.go, backend_transact.go), the threads that wait
    for them (looper_worker.go, client_worker.go, worker_manager.go), and the
    Binders of src/conn.go, src/remote_binder.go and src/local_binder.go that the
    program holds.  Services are found by name: a kernel connection asks Android's
    service manager (src/service_manager_impl.go), an RPC server keeps a registry
    of its own and serves it to its peer (src/rpc_service_manager.go).  A recording
    Binder writes down what passes through it and a replaying one answers from
    that (src/binder/record_replay.go).  Interfaces are described in AIDL, which
    src/internal/aidl/parser/ reads, src/internal/aidl/resolve/ checks,
    src/internal/aidl/gomodel/ lowers to a model of Go declarations and
    src/internal/aidl/codegen/ turns into Go: a client and a handler per interface, a
    writer and a reader per type; src/cmd/aidlgen/ loads the files and drives all of
    this.  The other tools under src/cmd/ talk to services: service calls one with
    typed arguments, dumpsys collects dumps and reads the driver's logs
    (src/internal/binderdebug/), cmd runs a service's shell command, sending along a
    callback that opens files and a receiver of the result
    (src/demo/cmdinputproto/ is such a service).

    ** Files

    - Prelude: integers at their width ([u32], [i32], ...), [result] (a value, an
      error or a panic) and the monad [ST], arithmetic tactics, the hint database
      [binder].
    - Errors: src/binder/errors.go, errors.Is and errors.As over wrapped errors,
      src/internal/kernel/status.go, mapRuntimeError of src/conn.go.  An [error] is a
      chain: an error with what it wraps by %w.  The trees of errors.Join are not
      values of it; where the code joins errors (clean-up in Close methods), a
      definition keeps the list of the joined ones or the fact that there is one.
    - Unicode: the UTF-8 and UTF-16 conversions of Go's standard library that
      strings go through.
    - Parcel: every operation of src/binder/parcel.go and src/binder/fd.go.  A
      Parcel pointer is an option (nil is [None]); operations run in [PM], with the
      world the binder resolvers and system calls act on.
    - ParcelFacts, Codec, ObjectCodec, Fields: what an operation that appends or
      consumes bytes promises ([emits], [consumes]), the interface [Codec] that
      packages a writer and a reader with that promise, and its instances.
      ParcelInv and ParcelProps: the Parcel's invariant and theorems.
    - Slices: src/binder/codec_helpers.go.  Value, ValueProps: src/binder/value.go.
    - Status: the two encoders and two decoders of the reply status.
    - Refs: src/internal/runtime/refs.go, each method one step under its lock,
      and what src/conn.go and the client worker do with it as a step relation:
      retains and releases, acquires that are answered or whose callers give up,
      Parcels that arrive with the handle and Binders read from them.
    - Death: src/internal/kernel/death_registry.go, likewise: a Watch opens or joins
      a watch, and its request succeeds or is rolled back; deaths, removals and
      clears in any order.
    - Stability: labels, transaction codes, call contexts.
    - Dispatch, DispatchProps: handlers, reserved transactions, dumps, the node
      registry, lazy handlers.
    - RpcConn, RpcServe: the RPC connection, with the objects its goroutines
      share (recycled frames, reply channels) explicit.  RpcProps, RpcObjects and
      RpcCall: its theorems.
    - Record: src/binder/record_replay.go.
    - Driver: the structures and commands of the binder device, over the class
      [BinderDevice] that stands for the kernel.  KernelTransact: transactions,
      the driver's response stream, incoming calls.  KernelFacts, KernelProps and
      KernelReply: their theorems.  Workers: the looper and client threads, their
      manager and the life of the backend.
    - Conn: the Binders of a kernel connection, on Refs, Death, Dispatch and
      Driver.  ConnProps: their theorems.
    - Services: registration options, transaction codes and codecs of the service
      managers.  Registry: the registry of an RPC server, over the class
      [ServiceBinder].  Managers: the handler that serves it, the managers of both
      sides, their caches and the callback handlers.  KernelServices: the client of
      Android's service manager.  RegistryProps and ManagerProps: their theorems.
    - Aidl: the syntax tree and the parser, over the class [TokenSource].
      AidlGrammar: the language as relations on tokens.  AidlSound and
      AidlComplete: the parser against the grammar.  TextScanner and
      TextScannerFacts: Go's text/scanner as the parser configures it.  AidlProps:
      the theorems.
    - GoText: Go's strings, strconv and path/filepath as the AIDL files and the tools
      use them.
    - AidlExpr: src/internal/aidl/expr/expr.go, over the class [GoFrontEnd] for Go's
      expression parser, with go/constant's operators.  AidlResolve:
      src/internal/aidl/resolve/resolve.go, in a monad that collects diagnostics.
      AidlResolveProps: their theorems.
    - AidlNames, AidlLower: src/internal/aidl/gomodel/ (names, types, declarations,
      values, type mappings), in a monad with the set of symbols and the diagnostics.
      AidlLowerProps: their theorems.
    - Codegen: what src/internal/aidl/codegen/go.go decides (validation, imports, type
      expressions, which values need a registrar).  CodegenExpr: the code it writes, as
      syntax ([wexpr], [rexpr], [gdecl], [gproxy], [gcase]).  CodegenLower: what the
      types that the lowering builds guarantee to the generator.  CodegenProps: theorems
      on all three.  GeneratedCode: what that code does, on the Parcel model, over the class
      [Linked] for the code it is linked with.  GeneratedWire: the wire format it is
      held to, with the class [Contract] for linked code.  GeneratedProps,
      GeneratedRpc and GeneratedLink: writers against readers, clients against
      handlers, packages against each other.
    - AidlGen: src/cmd/aidlgen/main.go and src/internal/aidl/ir/ir.go, over the class
      [FileSystem].  AidlGenProps: their theorems.
    - BinderDebug: src/internal/binderdebug/debug.go, over the class [LogFiles], with
      its theorems.
    - Tools: the output of a tool, its Binders ([ToolBinder]) and service manager.
      Dumpsys, ServiceTool: src/cmd/dumpsys/run.go and src/cmd/service/run.go.
      DumpsysProps and ServiceToolProps: their theorems.
    - Shell: src/cmd/cmd/run.go, src/cmd/cmd/interfaces.go and
      src/demo/cmdinputproto/protocol.go.  ShellProps: the command and the service together,
      in two processes with a driver between them.  ShellFiles: the callback's methods as
      steps of threads, over the class [DescriptorTable] for the system's descriptors.

    ** What the theorems show

    - Parcel: no sequence of calls panics or breaks the bounds, alignment and object table
      of a Parcel ([parcel_invariant]); any record of fields, slices, descriptors and
      dynamic values reads back as it was written ([record_roundtrip], [slice_roundtrip],
      [file_descriptor_roundtrip], and [dynamic_value_roundtrip] for the values that
      [dyn_ok] describes); Binders resolve to what was written ([handle_resolved],
      [local_resolved]); received descriptors are closed on every path that does not hand
      them out.
    - Status: the two decoders agree on every input ([status_decoders_agree]),
      statuses round-trip, the writer's cases.
    - References: in every interleaving the kernel's count is what the process
      answers for, with the leaked and the missing references written down; in an
      orderly program, in which callers wait for their acquires and a received
      Binder is read once, nothing leaks and nothing is missing ([refs_balanced]).
      What is not orderly does leak ([second_receipt_leaks], [reread_releases_twice],
      [cancelled_acquire_leaks], [received_during_acquire_leaks]).  Deaths: until
      the registry is closed, a subscription that was handed out is finished or
      covered by a watch, or its watch was rolled back
      ([no_subscription_forgotten], [rollback_forgets_joined]); Close forgets the ones
      that are being cleared ([registry_close_forgets_closing]).
    - Dispatch: metadata, user transactions, dumps and lazy handlers reach the
      service and come back; labels are enforced on every user transaction.
    - RPC: a call is a dispatch on the peer ([rpc_call_dispatches]), arguments,
      errors and Binders keep their meaning, channels are used safely in every
      interleaving ([rpc_calls_safe]).
    - Kernel: a two-way call gets exactly one reply and its buffer is freed once
      ([incoming_settled_once], [answer_reaches_caller]); the response stream is interpreted
      as it was encoded and makes the process panic only through a payload that cannot be
      allocated or lies outside the mapping ([driver_stream_interpreted],
      [driver_never_panics]); every call to the client thread is answered
      ([calls_answered]); a start that returns an error has left no thread and no descriptor
      behind, and no mapping unless munmap fails ([backend_all_or_nothing]), but it may wait
      for a looper that never ends ([failed_start_waits_for_read]); closing a proxy gives
      its reference back once ([close_releases_once]).
    - Record and replay: a replay answers as the recorded run did
      ([replay_reproduces]).
    - Service managers: the peer's manager answers the listing and metadata queries as
      the owner's does and registers like it ([remote_query_agrees],
      [remote_add_registers]); CheckService may differ, the owner answering from its
      cache ([owner_cache_goes_stale]); no waiter and no watch
      misses a registration in any interleaving ([no_lost_wakeup],
      [no_missed_registration]).
    - AIDL: the parser accepts exactly the grammar, from tokens and from source
      text, and builds the tree it describes ([Parse_grammar],
      [Parse_source_grammar], [Parse_typed]); a file the validator accepts is well
      formed ([accepted_file_wellformed]), and its check of fixed-size types
      terminates and decides the property meant ([fixed_size_decides]).
      Lowering without diagnostics loses no declaration ([lower_emits_all]), numbers
      the methods ([transaction_codes]) and gives enum members the values the resolver
      computes ([enum_values_agree]).
    - Generated code: every value reads back as it was written, in the wire format of
      its type, also across packages ([generated_roundtrip], [linked_roundtrip], for the
      values [sendable] describes); a call through a generated client and handler, with
      Binders and interfaces among its arguments and results, is the call of the
      implementation ([stub_transparent]); in a lowered file the client declares its
      registrar exactly when it uses it ([registrar_declared_iff_used]), the analysis
      behind it being exact ([registrar_analysis_exact]).
    - Tools: aidlgen loads exactly the files reachable through imports and references, each
      once ([loadAIDLGraph_spec]), and writes nothing unless every file could be generated
      ([writes_all_or_nothing]); the log reader finds the clients of a service, or fails
      when the caller refers to a dead node ([client_pids_found]); dumpsys accepts exactly
      its option language ([dumpsys_arguments]); what is typed after service call is what
      the service reads ([service_call_arguments]); the exit code of cmd is the verdict of
      the service, whether its writes and messages succeed, however the threads are
      scheduled and unless the context is cancelled ([cmd_exit_code]), a file opened for the
      service arrives there ([callback_opens]), and every file the callback opens has one
      owner, in every interleaving ([shell_files_safe]).
    - Some theorems exhibit defects of the code: their comments say so, and they
      are stated on the same definitions.

    ** Modelling choices and bounds

    Go's int is 64 bits wide.  Maps are [gmap]s, or association lists where
    iteration order or duplicates show.  A panic is a result, not a failure of the
    model.  Concurrency is modelled at the critical sections: a definition per
    section, a step relation per component, invariants by induction on
    reachability.  Recursions that are not structural take fuel, and a theorem
    says how much is enough: ReadDynamicValue takes a depth, bounded by the bytes
    left ([ReadDynamicValue_depth]); the response loops run on the number of bytes
    read from the device, since every response takes at least four; the AIDL parser
    takes more fuel than there are tokens, each of its loops consuming one; the
    scanner takes the bytes left plus two; the fixed-size check takes twice the number of
    declared fields ([fixed_fuel]); the search for a registrar takes the number of
    parcelables and unions, each entered once on a path; generated functions take the
    depth of their nested calls, which [sendable] counts in the value; aidlgen's visits
    take a depth above the number of readable files.  An ioctl that a signal interrupts is
    retried: the device bounds the number of signals in a row ([dev_signals]).
    Loops over counts read from the wire run on the count itself.

    Parameters, with what is assumed of them in the statements: the binder resolvers a
    Parcel is given, the write and close system calls, the service handlers, the
    sync.Pool's choice of a frame, the encoder's errors, the kernel ([BinderDevice] with
    its laws), the transport between two service managers (which delivers Parcels), Go's
    expression parser and literals ([GoFrontEnd]), the code that generated code is linked
    with ([Linked], [Contract]), the files and descriptors of the tools ([FileSystem],
    [LogFiles], [FileOps], [ShellOS]), what lies between cmd and its service (Parcels and
    messages cross with their bytes, a one-way message is queued or refused),
    floating-point literals, and the order of events a select statement sees (an argument
    of the definitions).  The gob stream delivers frames as they were written.
    Floating-point constants are rationals.  text/scanner is modelled for ASCII input.

    ** Not modelled

    The version and thread-count ioctls and the stubs for other systems in
    src/internal/kernel/, the debug snapshots, the sockets of
    src/rpc_transport.go; of the AIDL backend, the printing of Go text, its signatures and
    the lookup helpers it adds to an interface, and round trips of Binders and
    descriptors inside generated values; of the tools, the printing of JSON, the
    goroutine of a dump beside its reader, and the opening of the default connection;
    src/cmd/input/, which needs a package that is not in the repository, the echo demo,
    generated fixtures and tests. *)

From stdpp Require Import base list numbers strings pretty sorting.

(** stdpp's solvers clear hypotheses that they may have cleared before. *)
#[export] Set Warnings "-clear-no-such-hyp".

Open Scope Z_scope.

(** ** Machine integers

    Go's sized integers are [Z] values kept at their width.  [wrapu w z] is the
    conversion to an unsigned [w]-bit type, [wraps w z] the conversion to a
    signed (two's complement) one. *)

Definition wrapu (w z : Z) : Z := z mod 2 ^ w.

Definition wraps (w z : Z) : Z := (z + 2 ^ (w - 1)) mod 2 ^ w - 2 ^ (w - 1).

Definition u8 (z : Z) : Z := wrapu 8 z.
Definition u16 (z : Z) : Z := wrapu 16 z.
Definition u32 (z : Z) : Z := wrapu 32 z.
Definition u64 (z : Z) : Z := wrapu 64 z.
Definition i8 (z : Z) : Z := wraps 8 z.
Definition i16 (z : Z) : Z := wraps 16 z.
Definition i32 (z : Z) : Z := wraps 32 z.
Definition i64 (z : Z) : Z := wraps 64 z.

Definition in_u (w z : Z) : Prop := 0 <= z < 2 ^ w.
Definition in_s (w z : Z) : Prop := - 2 ^ (w - 1) <= z < 2 ^ (w - 1).

(** The largest value of Go's [int] on the 64-bit targets, and of [int32]. *)
Definition maxInt : Z := 2 ^ 63 - 1.
Definition maxInt32 : Z := 2 ^ 31 - 1.

(** ** Lists indexed by [Z] *)

Abbreviation len l := (Z.of_nat (length l)).

(** Go's [s[i:j]] for [0 <= i <= j <= len s]. *)
Definition slice {A} (l : list A) (i j : Z) : list A :=
  take (Z.to_nat (j - i)) (drop (Z.to_nat i) l).

(** [copy(s[o:], bs)] where [bs] fits: the bytes from [o] on are overwritten. *)
Definition put {A} (l : list A) (o : Z) (bs : list A) : list A :=
  take (Z.to_nat o) l ++ bs ++ drop (Z.to_nat o + length bs) l.

(** [make([]byte, n)]. *)
Definition zeros (n : Z) : list Z := replicate (Z.to_nat n) 0.

(** ** Sorted strings *)

Definition string_le (a b : string) : Prop := String.leb a b = true.
#[global] Instance string_le_dec a b : Decision (string_le a b).
Proof. unfold string_le. apply _. Defined.

(** slices.Sort and sort.Strings: bytewise order. *)
Definition sort_strings : list string → list string := merge_sort string_le.

Lemma string_le_total : Total string_le.
Proof. intros a b. unfold string_le, String.leb. rewrite String.compare_antisym. destruct (String.compare b a); auto. Qed.

(** ** encoding/binary.LittleEndian *)

Fixpoint le_bytes (n : nat) (z : Z) : list Z :=
  match n with
  | O => []
  | S n' => z mod 256 :: le_bytes n' (z / 256)
  end.

Fixpoint le_num (bs : list Z) : Z :=
  match bs with
  | [] => 0
  | b :: bs' => b + 256 * le_num bs'
  end.

Definition is_byte (b : Z) : Prop := 0 <= b < 256.

(** ** Results, and a state monad whose computations may fail

    A Go function that returns [(T, error)] is a computation whose result is
    [Ok] or [Err]; [Panic] is a run-time panic, which no Go code of this
    repository recovers from. *)

Inductive result (E A : Type) : Type :=
| Ok (a : A)
| Err (e : E)
| Panic (why : string).
Arguments Ok {E A} a.
Arguments Err {E A} e.
Arguments Panic {E A} why.

Definition result_map {E A B} (f : A → B) (r : result E A) : result E B :=
  match r with
  | Ok a => Ok (f a)
  | Err e => Err e
  | Panic w => Panic w
  end.

Definition is_ok {E A} (r : result E A) : bool :=
  match r with Ok _ => true | _ => false end.

Definition ST (E S A : Type) : Type := S → result E A * S.

Global Instance ST_ret E S : MRet (ST E S) := λ A a s, (Ok a, s).

Global Instance ST_bind E S : MBind (ST E S) := λ A B k m s,
  match m s with
  | (Ok a, s') => k a s'
  | (Err e, s') => (Err e, s')
  | (Panic w, s') => (Panic w, s')
  end.

Definition fail {E S A} (e : E) : ST E S A := λ s, (Err e, s).
Definition panic {E S A} (w : string) : ST E S A := λ s, (Panic w, s).
Definition get {E S} : ST E S S := λ s, (Ok s, s).
Definition lift {E S A} (r : result E A) : ST E S A := λ s, (r, s).

Section ST.
Context {E S : Type}.
Implicit Types s : S.

Lemma bind_ok {A B} (m : ST E S A) (k : A → ST E S B) s s' a :
  m s = (Ok a, s') → (m ≫= k) s = k a s'.
Proof. intros H. unfold mbind, ST_bind. by rewrite H. Qed.

Lemma bind_err {A B} (m : ST E S A) (k : A → ST E S B) s s' e :
  m s = (Err e, s') → (m ≫= k) s = (Err e, s').
Proof. intros H. unfold mbind, ST_bind. by rewrite H. Qed.

Lemma bind_panic {A B} (m : ST E S A) (k : A → ST E S B) s s' w :
  m s = (Panic w, s') → (m ≫= k) s = (Panic w, s').
Proof. intros H. unfold mbind, ST_bind. by rewrite H. Qed.

Lemma bind_ret {A B} (a : A) (k : A → ST E S B) s : (mret a ≫= k) s = k a s.
Proof. done. Qed.

Lemma bind_assoc {A B C} (m : ST E S A) (k : A → ST E S B) (h : B → ST E S C) s :
  ((m ≫= k) ≫= h) s = (m ≫= (λ a, k a ≫= h)) s.
Proof. unfold mbind, ST_bind. by destruct (m s) as [[a|e|w] s']. Qed.

Lemma bind_inv {A B} (m : ST E S A) (k : A → ST E S B) s r s' :
  (m ≫= k) s = (r, s') →
  (∃ a s1, m s = (Ok a, s1) ∧ k a s1 = (r, s')) ∨
  (∃ e, m s = (Err e, s') ∧ r = Err e) ∨
  (∃ w, m s = (Panic w, s') ∧ r = Panic w).
Proof.
  unfold mbind, ST_bind. destruct (m s) as [[a|e|w] s1]; intros ?; simplify_eq; eauto 10.
Qed.

Lemma bind_ok_inv {A B} (m : ST E S A) (k : A → ST E S B) s b s' :
  (m ≫= k) s = (Ok b, s') → ∃ a s1, m s = (Ok a, s1) ∧ k a s1 = (Ok b, s').
Proof. intros [?|[(? & _ & ?)|(? & _ & ?)]]%bind_inv; done. Qed.
End ST.

(** Boolean range tests to arithmetic. *)
Ltac bools :=
  repeat match goal with
  | H : andb _ _ = true |- _ => apply andb_prop in H; destruct H
  | H : orb _ _ = true |- _ => apply orb_prop in H
  | H : orb _ _ = false |- _ => apply orb_false_iff in H; destruct H
  | H : negb _ = true |- _ => apply negb_true_iff in H
  | H : negb _ = false |- _ => apply negb_false_iff in H
  | H : (_ <? _) = true |- _ => apply Z.ltb_lt in H
  | H : (_ <? _) = false |- _ => apply Z.ltb_ge in H
  | H : (_ <=? _) = true |- _ => apply Z.leb_le in H
  | H : (_ <=? _) = false |- _ => apply Z.leb_gt in H
  | H : (_ >? _) = _ |- _ => rewrite Z.gtb_ltb in H
  | H : (_ >=? _) = _ |- _ => rewrite Z.geb_leb in H
  | H : (_ =? _) = true |- _ => apply Z.eqb_eq in H
  | H : (_ =? _) = false |- _ => apply Z.eqb_neq in H
  end.

Lemma ltb_false a b : b <= a → (a <? b) = false.
Proof. apply Z.ltb_ge. Qed.
Lemma ltb_true a b : a < b → (a <? b) = true.
Proof. apply Z.ltb_lt. Qed.
Lemma leb_false a b : b < a → (a <=? b) = false.
Proof. apply Z.leb_gt. Qed.
Lemma leb_true a b : a <= b → (a <=? b) = true.
Proof. apply Z.leb_le. Qed.
Lemma eqb_false a b : a ≠ b → (a =? b) = false.
Proof. apply Z.eqb_neq. Qed.
Lemma eqb_true a b : a = b → (a =? b) = true.
Proof. apply Z.eqb_eq. Qed.

(** Decide the boolean arithmetic tests of the goal with [lia] and reduce the
    connectives on them. *)
Ltac zif :=
  rewrite ?Z.gtb_ltb, ?Z.geb_leb;
  repeat match goal with
  | |- context [?a <? ?b] => first [rewrite (ltb_true a b) by lia | rewrite (ltb_false a b) by lia]
  | |- context [?a <=? ?b] => first [rewrite (leb_true a b) by lia | rewrite (leb_false a b) by lia]
  | |- context [?a =? ?b] => first [rewrite (eqb_true a b) by lia | rewrite (eqb_false a b) by lia]
  end; cbn [andb orb negb].

(** ** Arithmetic of the conversions *)

Ltac width := unfold in_u, in_s, is_byte, maxInt, maxInt32 in *; lia.

Lemma wrapu_id w z : in_u w z → wrapu w z = z.
Proof. intros H. apply Z.mod_small, H. Qed.

Lemma wrapu_range w z : 0 <= w → in_u w (wrapu w z).
Proof. intros H. apply Z.mod_pos_bound. lia. Qed.

Lemma wraps_id w z : 0 < w → in_s w z → wraps w z = z.
Proof.
  unfold in_s, wraps. intros Hw H.
  replace (2 ^ w) with (2 * 2 ^ (w - 1)).
  - rewrite Z.mod_small; lia.
  - rewrite <- Z.pow_succ_r by lia. f_equal. lia.
Qed.

Lemma wraps_range w z : 0 < w → in_s w (wraps w z).
Proof.
  unfold in_s, wraps. intros Hw.
  assert (E : 2 ^ w = 2 * 2 ^ (w - 1)) by (rewrite <- Z.pow_succ_r by lia; f_equal; lia).
  pose proof (Z.mod_pos_bound (z + 2 ^ (w - 1)) (2 ^ w)). lia.
Qed.

Lemma wraps_wrapu w z : 0 < w → wraps w (wrapu w z) = wraps w z.
Proof.
  intros Hw. unfold wraps, wrapu. by rewrite Zplus_mod_idemp_l.
Qed.

(** Reading back the unsigned image of a signed value restores it. *)
Lemma i_of_u w z : 0 < w → in_s w z → wraps w (wrapu w z) = z.
Proof. intros. rewrite wraps_wrapu by done. by apply wraps_id. Qed.

(** ** Little-endian lemmas *)

Lemma length_le_bytes n z : length (le_bytes n z) = n.
Proof. revert z. induction n as [|n IH]; intros z; simpl; [done|]. by rewrite IH. Qed.

Lemma le_bytes_byte n z : Forall is_byte (le_bytes n z).
Proof.
  revert z. induction n as [|n IH]; intros z; simpl; constructor; [|done].
  unfold is_byte. pose proof (Z.mod_pos_bound z 256). lia.
Qed.

Lemma le_num_bytes n z : le_num (le_bytes n z) = wrapu (8 * Z.of_nat n) z.
Proof.
  unfold wrapu. revert z. induction n as [|n IH]; intros z; simpl.
  - by rewrite Z.mod_1_r.
  - rewrite IH. replace (8 * Z.of_nat (S n)) with (8 + 8 * Z.of_nat n) by lia.
    rewrite Z.pow_add_r by lia. change (2 ^ 8) with 256.
    rewrite Z.rem_mul_r; lia.
Qed.

Lemma le_num_range bs : Forall is_byte bs → in_u (8 * len bs) (le_num bs).
Proof.
  unfold in_u. induction 1 as [|b bs Hb _ IH]; simpl; [lia|].
  replace (8 * Z.of_nat (S (length bs))) with (8 + 8 * len bs) by lia.
  rewrite Z.pow_add_r by lia. unfold is_byte in Hb. lia.
Qed.

Lemma le_bytes_num bs : Forall is_byte bs → le_bytes (length bs) (le_num bs) = bs.
Proof.
  induction 1 as [|b bs Hb _ IH]; simpl; [done|]. unfold is_byte in Hb.
  replace ((b + 256 * le_num bs) mod 256) with b.
  - replace ((b + 256 * le_num bs) / 256) with (le_num bs); [by rewrite IH|].
    rewrite Z.mul_comm, Z.div_add by lia. rewrite Z.div_small; lia.
  - rewrite Z.mul_comm, Z.mod_add by lia. rewrite Z.mod_small; lia.
Qed.

Lemma le_num_app a b : le_num (a ++ b) = le_num a + 2 ^ (8 * len a) * le_num b.
Proof.
  induction a as [|x a IH].
  - simpl length. change (2 ^ (8 * 0)) with 1. cbn [app le_num]. lia.
  - cbn [app le_num length]. rewrite IH.
    replace (8 * Z.of_nat (S (length a))) with (8 + 8 * len a) by lia.
    rewrite Z.pow_add_r by lia. change (2 ^ 8) with 256. lia.
Qed.

Lemma le_num_zeros n : le_num (zeros n) = 0.
Proof. unfold zeros. induction (Z.to_nat n) as [|k IH]; simpl; [done|]. by rewrite IH. Qed.

(** ** List lemmas on [slice], [put] and [zeros] *)

Lemma length_zeros n : length (zeros n) = Z.to_nat n.
Proof. apply length_replicate. Qed.

Lemma zeros_byte n : Forall is_byte (zeros n).
Proof. apply Forall_replicate. unfold is_byte. lia. Qed.

Lemma length_put {A} (l : list A) o bs :
  0 <= o → o + len bs <= len l → length (put l o bs) = length l.
Proof.
  intros. unfold put. rewrite !length_app, length_take, length_drop. lia.
Qed.

Lemma put_0 {A} (l bs : list A) : put l 0 bs = bs ++ drop (length bs) l.
Proof. done. Qed.

Lemma put_app {A} (a b c bs : list A) o :
  o = len a → length bs = length b → put (a ++ b ++ c) o bs = a ++ bs ++ c.
Proof.
  intros -> Hl. unfold put. rewrite Nat2Z.id.
  rewrite take_app_length. f_equal. f_equal.
  rewrite <- drop_drop, drop_app_length, Hl. by rewrite drop_app_length.
Qed.

Lemma slice_app {A} (a b c : list A) i j :
  i = len a → j = len a + len b → slice (a ++ b ++ c) i j = b.
Proof.
  intros -> ->. unfold slice. rewrite Nat2Z.id, drop_app_length.
  replace (Z.to_nat _) with (length b) by lia. by rewrite take_app_length.
Qed.

Lemma length_slice {A} (l : list A) i j :
  0 <= i → i <= j → j <= len l → len (slice l i j) = j - i.
Proof. intros. unfold slice. rewrite length_take, length_drop. lia. Qed.

Lemma Forall_slice {A} (P : A → Prop) l i j : Forall P l → Forall P (slice l i j).
Proof. intros. unfold slice. by apply Forall_take, Forall_drop. Qed.

Lemma Forall_put {A} (P : A → Prop) l o bs :
  Forall P l → Forall P bs → Forall P (put l o bs).
Proof. intros. unfold put. rewrite !Forall_app; auto using Forall_take, Forall_drop. Qed.

(** Splitting a list at two [Z] positions. *)
Lemma split_at {A} (l : list A) i : 0 <= i <= len l →
  ∃ a b, l = a ++ b ∧ len a = i.
Proof.
  intros H. exists (take (Z.to_nat i) l), (drop (Z.to_nat i) l).
  rewrite take_drop, length_take. split; [done|lia].
Qed.

Create HintDb binder.
#[export] Hint Resolve le_bytes_byte zeros_byte Forall_slice Forall_put : binder.
Create Rewrite HintDb len.
#[export] Hint Rewrite @length_app @length_cons @length_nil length_le_bytes length_zeros
  @length_take @length_drop @length_replicate : len.

(** Length goals: push [length] through the list operations, then [lia]. *)
Ltac len_lia := autorewrite with len in *; unfold maxInt, maxInt32 in *; lia.
