(* ===== verification/Errors.v ===== *)
(** * Errors: the error values of the runtime

    Models src/binder/errors.go (the sentinel errors, [StatusCodeError],
    [RemoteException], [ServiceSpecificError]), the kernel's sentinels of
    src/internal/kernel/driver.go, the parts of the standard library's [errors]
    package the code relies on ([errors.Is], [errors.As], [%w] wrapping), and
    src/internal/kernel/status.go, which turns an error into a transport status
    code and a status reply back into an error. *)

From stdpp Require Import base list numbers strings pretty.
From S2P Require Import Prelude.

Open Scope Z_scope.

(** ** Sentinels: the [errors.New] variables compared by identity *)

Inductive sentinel :=
(* src/binder/errors.go *)
| ErrDeadObject | ErrFailedTxn | ErrBadType | ErrBadParcelable
| ErrPermissionDenied | ErrUnsupported | ErrNoService | ErrClosed
| ErrUnknownTransaction
(* src/internal/kernel/driver.go *)
| ErrDriverClosed | ErrUnsupportedPlatform | ErrNoClientWorker
| ErrParcelObjects | ErrDeadReply | ErrFailedReply
(* the standard library: io, net, context *)
| ErrUnexpectedEOF | ErrEOF | ErrNetClosed | ErrCanceled | ErrDeadlineExceeded.

Global Instance sentinel_eq_dec : EqDecision sentinel.
Proof. solve_decision. Defined.

Definition sentinel_text (s : sentinel) : string :=
  match s with
  | ErrDeadObject => "binder: dead object"
  | ErrFailedTxn => "binder: failed transaction"
  | ErrBadType => "binder: bad type"
  | ErrBadParcelable => "binder: bad parcelable"
  | ErrPermissionDenied => "binder: permission denied"
  | ErrUnsupported => "binder: unsupported operation"
  | ErrNoService => "binder: service not found"
  | ErrClosed => "binder: binder is closed"
  | ErrUnknownTransaction => "binder: unknown transaction"
  | ErrDriverClosed => "kernel: binder driver is not open"
  | ErrUnsupportedPlatform => "kernel: binder backend is unsupported on this platform"
  | ErrNoClientWorker => "kernel: no client worker is available"
  | ErrParcelObjects => "kernel: parcel object transport is not implemented yet"
  | ErrDeadReply => "kernel: binder dead reply"
  | ErrFailedReply => "kernel: binder failed reply"
  | ErrUnexpectedEOF => "unexpected EOF"
  | ErrEOF => "EOF"
  | ErrNetClosed => "use of closed network connection"
  | ErrCanceled => "context canceled"
  | ErrDeadlineExceeded => "context deadline exceeded"
  end.

(** ** Status codes (int32) *)

Definition StatusUnknownError : Z := -2147483648.
Definition StatusBadType : Z := StatusUnknownError + 1.
Definition StatusFailedTransaction : Z := StatusUnknownError + 2.
Definition StatusFdsNotAllowed : Z := StatusUnknownError + 7.
Definition StatusUnexpectedNull : Z := StatusUnknownError + 8.
Definition StatusPermissionDenied : Z := -1.
Definition StatusNameNotFound : Z := -2.
Definition StatusNoMemory : Z := -12.
Definition StatusBadValue : Z := -22.
Definition StatusDeadObject : Z := -32.
Definition StatusInvalidOperation : Z := -38.
Definition StatusUnknownTransaction : Z := -74.

(** ** Exception codes (int32) *)

Definition ExceptionNone : Z := 0.
Definition ExceptionSecurity : Z := -1.
Definition ExceptionBadParcelable : Z := -2.
Definition ExceptionIllegalArgument : Z := -3.
Definition ExceptionNullPointer : Z := -4.
Definition ExceptionIllegalState : Z := -5.
Definition ExceptionNetworkMainThread : Z := -6.
Definition ExceptionUnsupportedOperation : Z := -7.
Definition ExceptionServiceSpecific : Z := -8.
Definition ExceptionParcelable : Z := -9.

Record RemoteException := mkRemoteException {
  re_Code : Z;
  re_Message : string;
  re_ServiceCode : Z;
}.

(** ** Error values *)

Inductive error :=
| ESentinel (s : sentinel)                 (* one of the variables above *)
| EStatusCode (code : Z)                   (* *StatusCodeError *)
| ERemote (r : RemoteException)            (* *RemoteException *)
| EServiceSpecific (code : Z) (msg : string)  (* *ServiceSpecificError *)
| EWrap (e : error) (msg : string)         (* fmt.Errorf of a %w verb, a colon and msg *)
| EText (msg : string).                    (* errors.New / fmt.Errorf without %w *)

Abbreviation res := (result error).

Coercion ESentinel : sentinel >-> error.

(** [fmt.Errorf] of a wrapped sentinel: the form every wrapped error of the
    runtime has (the [%w] verb, a colon, the detail). *)
Definition Errorf_w (s : sentinel) (msg : string) : error := EWrap s msg.

(** [return ..., err]. *)
Definition throw {S A} (e : error) : ST error S A := fail e.

Definition hex_digit (d : Z) : string :=
  nth (Z.to_nat d) ["0"; "1"; "2"; "3"; "4"; "5"; "6"; "7"; "8"; "9";
                    "a"; "b"; "c"; "d"; "e"; "f"]%string "0"%string.

Fixpoint hex_go (fuel : nat) (z : Z) (acc : string) : string :=
  match fuel with
  | O => acc
  | S f => let acc' := (hex_digit (z mod 16) +:+ acc)%string in
           if z <? 16 then acc' else hex_go f (z / 16) acc'
  end.

(** The [%#x] verb on an unsigned value of at most 64 bits. *)
Definition hex (z : Z) : string := ("0x" +:+ hex_go 16 z "")%string.

(** [err.Error()]. *)
Fixpoint Error_string (e : error) : string :=
  match e with
  | ESentinel s => sentinel_text s
  | EStatusCode c => "binder: transport status " +:+ pretty c
  | ERemote r =>
      if decide (re_Message r = "") then "binder: remote exception " +:+ pretty (re_Code r)
      else "binder: remote exception " +:+ pretty (re_Code r) +:+ ": " +:+ re_Message r
  | EServiceSpecific c m =>
      if decide (m = "") then "binder: service-specific error " +:+ pretty c
      else "binder: service-specific error " +:+ pretty c +:+ ": " +:+ m
  | EWrap e' m => Error_string e' +:+ ": " +:+ m
  | EText m => m
  end%string.

(** [( *StatusCodeError).Is]: a status code stands for the sentinel it encodes. *)
Definition StatusCodeError_Is (code : Z) (target : sentinel) : bool :=
  match target with
  | ErrDeadObject => code =? StatusDeadObject
  | ErrFailedTxn => code =? StatusFailedTransaction
  | ErrBadType => code =? StatusBadType
  | ErrPermissionDenied => code =? StatusPermissionDenied
  | ErrUnknownTransaction => code =? StatusUnknownTransaction
  | _ => false
  end.

(** [errors.Is(err, target)] for a sentinel target: walk the [%w] chain. *)
Fixpoint errors_Is (e : error) (target : sentinel) : bool :=
  match e with
  | ESentinel s => bool_decide (s = target)
  | EStatusCode c => StatusCodeError_Is c target
  | EWrap e' _ => errors_Is e' target
  | ERemote _ | EServiceSpecific _ _ | EText _ => false
  end.

(** [errors.As] for the three error types the code looks for. *)
Fixpoint errors_As_StatusCode (e : error) : option Z :=
  match e with
  | EStatusCode c => Some c
  | EWrap e' _ => errors_As_StatusCode e'
  | _ => None
  end.

Fixpoint errors_As_Remote (e : error) : option RemoteException :=
  match e with
  | ERemote r => Some r
  | EWrap e' _ => errors_As_Remote e'
  | _ => None
  end.

Fixpoint errors_As_ServiceSpecific (e : error) : option (Z * string) :=
  match e with
  | EServiceSpecific c m => Some (c, m)
  | EWrap e' _ => errors_As_ServiceSpecific e'
  | _ => None
  end.

(** ** src/internal/kernel/status.go *)

(** [statusCodeFromError]: [None] is Go's nil error. *)
Definition statusCodeFromError (err : option error) : Z :=
  match err with
  | None => 0
  | Some e =>
      match errors_As_StatusCode e with
      | Some c => c
      | None =>
          if errors_Is e ErrUnknownTransaction then StatusUnknownTransaction
          else if errors_Is e ErrPermissionDenied then StatusPermissionDenied
          else if errors_Is e ErrDeadObject then StatusDeadObject
          else if errors_Is e ErrBadParcelable then StatusBadValue
          else if errors_Is e ErrUnsupported then StatusInvalidOperation
          else if errors_Is e ErrFailedTxn then StatusFailedTransaction
          else StatusFailedTransaction
      end
  end.

(** [statusReplyError]: the error a TF_STATUS reply stands for. *)
Definition statusReplyError (payload : list Z) : error :=
  match payload with
  | b0 :: b1 :: b2 :: b3 :: _ =>
      EStatusCode (i32 (Z.lor (Z.lor (Z.lor b0 (Z.shiftl b1 8)) (Z.shiftl b2 16))
                              (Z.shiftl b3 24)))
  | _ => ESentinel ErrFailedReply
  end.

(** src/conn.go [mapRuntimeError]. *)
Definition mapRuntimeError (err : option error) : option error :=
  match err with
  | None => None
  | Some e => if errors_Is e ErrDeadReply then Some (ESentinel ErrDeadObject)
              else if errors_Is e ErrFailedReply then Some (ESentinel ErrFailedTxn)
              else Some e
  end.

(** ** Lemmas *)

(** The bitwise assembly of four bytes is their little-endian value. *)
Lemma lor_le4 b0 b1 b2 b3 :
  is_byte b0 → is_byte b1 → is_byte b2 → is_byte b3 →
  Z.lor (Z.lor (Z.lor b0 (Z.shiftl b1 8)) (Z.shiftl b2 16)) (Z.shiftl b3 24)
  = le_num [b0; b1; b2; b3].
Proof.
  unfold is_byte. intros H0 H1 H2 H3.
  assert (L : ∀ k a b, 0 <= k → 0 <= a < 2 ^ k → 0 <= b →
                Z.lor a (Z.shiftl b k) = a + b * 2 ^ k).
  { intros k a b Hk Ha Hb. rewrite Z.shiftl_mul_pow2 by lia.
    rewrite <- Z.lxor_lor, Z.add_nocarry_lxor; [done| |].
    all: apply Z.bits_inj'; intros n Hn; rewrite Z.land_spec, Z.bits_0;
      rewrite <- Z.shiftl_mul_pow2, Z.shiftl_spec by lia;
      destruct (Z.lt_ge_cases n k) as [Hlt|Hge];
      [rewrite (Z.testbit_neg_r b) by lia; apply andb_false_r|];
      destruct (decide (a = 0)) as [->|]; [by rewrite Z.bits_0|];
      rewrite (Z.bits_above_log2 a); [done|lia|];
      apply Z.log2_lt_pow2; [lia|]; eapply Z.lt_le_trans; [apply Ha|];
      apply Z.pow_le_mono_r; lia. }
  rewrite (L 8 b0 b1), (L 16 _ b2), (L 24 _ b3) by lia. simpl le_num. lia.
Qed.

Lemma errors_Is_wrap e m t : errors_Is (EWrap e m) t = errors_Is e t.
Proof. done. Qed.

(** A status code sent as a TF_STATUS reply is the code the caller's error
    carries. *)
Lemma statusReplyError_le_bytes c rest :
  in_s 32 c → statusReplyError (le_bytes 4 (u32 c) ++ rest) = EStatusCode c.
Proof.
  intros Hc. pose proof (le_bytes_byte 4 (u32 c)) as Hb.
  pose proof (le_num_bytes 4 (u32 c)) as Hn.
  cbn [le_bytes] in *. rewrite !Forall_cons in Hb. destruct_and!.
  cbn [app statusReplyError]. rewrite lor_le4 by done. rewrite Hn.
  change (8 * Z.of_nat 4) with 32. f_equal.
  unfold i32, u32. rewrite !wraps_wrapu by lia. by apply wraps_id.
Qed.
