(* ===== verification/Unicode.v ===== *)
(** * Unicode: the text conversions of the Parcel string codecs

    Models what src/binder/parcel.go uses of Go's language and standard library
    for strings: the conversions [[]rune(s)] and [string(runes)], [utf8.Valid],
    [utf16.Encode], [utf16.Decode]; and the repository's own [validateUTF16].

    A Go string is its bytes, a [string] here; a rune, a byte and a UTF-16 code
    unit are [Z] values.  Surrogate code points and values above 0x10FFFF are
    not scalar values: the conversions replace them by U+FFFD. *)

From stdpp Require Import base list numbers strings pretty.
From Stdlib Require Import Ascii.
From S2P Require Import Prelude Errors.

Open Scope Z_scope.

(** ** Bytes of a Go string *)

Definition byte_of_ascii (c : ascii) : Z := Z.of_N (N_of_ascii c).
Definition ascii_of_byte (b : Z) : ascii := ascii_of_N (Z.to_N b).

(** [[]byte(s)]. *)
Fixpoint bytes_of (s : string) : list Z :=
  match s with
  | EmptyString => []
  | String c s' => byte_of_ascii c :: bytes_of s'
  end.

(** [string(b)] for a byte slice [b]. *)
Fixpoint of_bytes (bs : list Z) : string :=
  match bs with
  | [] => EmptyString
  | b :: bs' => String (ascii_of_byte b) (of_bytes bs')
  end.

(** ** Scalar values *)

Definition RuneError : Z := 65533. (* U+FFFD *)
Definition MaxRune : Z := 1114111. (* 0x10FFFF *)

Definition is_scalar (r : Z) : bool :=
  ((0 <=? r) && (r <? 55296)) || ((57344 <=? r) && (r <=? MaxRune)).

(** ** UTF-8 *)

(** A continuation byte 0x80..0xBF. *)
Definition cont (b : Z) : bool := (128 <=? b) && (b <=? 191).

(** The accept ranges of the second byte for each leading byte. *)
Definition second_ok (b0 b1 : Z) : bool :=
  if b0 =? 224 then (160 <=? b1) && (b1 <=? 191)
  else if b0 =? 237 then (128 <=? b1) && (b1 <=? 159)
  else if b0 =? 240 then (144 <=? b1) && (b1 <=? 191)
  else if b0 =? 244 then (128 <=? b1) && (b1 <=? 143)
  else cont b1.

Definition lead2 (b0 : Z) : bool := (194 <=? b0) && (b0 <=? 223).
Definition lead3 (b0 : Z) : bool := (224 <=? b0) && (b0 <=? 239).
Definition lead4 (b0 : Z) : bool := (240 <=? b0) && (b0 <=? 244).

(** [utf8.DecodeRune]: the rune at the head of the bytes and its width; an
    invalid or short sequence is U+FFFD of width 1. *)
Definition DecodeRune (bs : list Z) : Z * nat :=
  match bs with
  | [] => (RuneError, 0%nat)
  | b0 :: t =>
      if b0 <? 128 then (b0, 1%nat) else
      match t with
      | b1 :: t1 =>
          if lead2 b0 && second_ok b0 b1 then ((b0 - 192) * 64 + (b1 - 128), 2%nat) else
          match t1 with
          | b2 :: t2 =>
              if lead3 b0 && second_ok b0 b1 && cont b2
              then ((b0 - 224) * 4096 + (b1 - 128) * 64 + (b2 - 128), 3%nat) else
              match t2 with
              | b3 :: _ =>
                  if lead4 b0 && second_ok b0 b1 && cont b2 && cont b3
                  then ((b0 - 240) * 262144 + (b1 - 128) * 4096 + (b2 - 128) * 64
                        + (b3 - 128), 4%nat)
                  else (RuneError, 1%nat)
              | [] => (RuneError, 1%nat)
              end
          | [] => (RuneError, 1%nat)
          end
      | [] => (RuneError, 1%nat)
      end
  end.

(** [[]rune(s)]: [fuel] bounds the number of runes; the number of bytes is
    enough, since every decoded rune takes at least one. *)
Fixpoint runes_go (fuel : nat) (bs : list Z) : list Z :=
  match fuel, bs with
  | O, _ | _, [] => []
  | S f, _ => let '(r, n) := DecodeRune bs in r :: runes_go f (drop n bs)
  end.

Definition runes_of_bytes (bs : list Z) : list Z := runes_go (length bs) bs.

(** [utf8.Valid] / [utf8.ValidString]: no U+FFFD of width 1 is produced. *)
Fixpoint valid_go (fuel : nat) (bs : list Z) : bool :=
  match fuel, bs with
  | O, _ | _, [] => true
  | S f, _ => let '(r, n) := DecodeRune bs in
              negb ((r =? RuneError) && (n =? 1)%nat) && valid_go f (drop n bs)
  end.

Definition utf8_valid (bs : list Z) : bool := valid_go (length bs) bs.

(** [utf8.EncodeRune]: a value that is not a scalar is encoded as U+FFFD. *)
Definition EncodeRune (r0 : Z) : list Z :=
  let r := if is_scalar r0 then r0 else RuneError in
  if r <? 128 then [r]
  else if r <? 2048 then [192 + r / 64; 128 + r mod 64]
  else if r <? 65536 then [224 + r / 4096; 128 + r / 64 mod 64; 128 + r mod 64]
  else [240 + r / 262144; 128 + r / 4096 mod 64; 128 + r / 64 mod 64; 128 + r mod 64].

(** [string(runes)]. *)
Definition bytes_of_runes (rs : list Z) : list Z := rs ≫= EncodeRune.

(** ** UTF-16 *)

(** [utf16.Encode] of one rune. *)
Definition utf16_encode_rune (r : Z) : list Z :=
  if is_scalar r then
    if r <? 65536 then [r]
    else [55296 + (r - 65536) / 1024; 56320 + (r - 65536) mod 1024]
  else [RuneError].

Definition utf16_Encode (rs : list Z) : list Z := rs ≫= utf16_encode_rune.

Definition is_surr1 (u : Z) : bool := (55296 <=? u) && (u <=? 56319).
Definition is_surr2 (u : Z) : bool := (56320 <=? u) && (u <=? 57343).

(** [utf16.Decode]: an unpaired surrogate is U+FFFD. *)
Fixpoint utf16_Decode (us : list Z) : list Z :=
  match us with
  | [] => []
  | u :: t =>
      if is_surr1 u then
        match t with
        | v :: t' => if is_surr2 v then (u - 55296) * 1024 + (v - 56320) + 65536 :: utf16_Decode t'
                     else RuneError :: utf16_Decode t
        | [] => [RuneError]
        end
      else if is_surr2 u then RuneError :: utf16_Decode t
      else u :: utf16_Decode t
  end.

(** [validateUTF16] of src/binder/parcel.go. *)
Fixpoint validateUTF16 (units : list Z) : option error :=
  match units with
  | [] => None
  | unit :: rest =>
      if is_surr1 unit then
        match rest with
        | [] => Some (Errorf_w ErrBadParcelable "unterminated UTF-16 surrogate pair")
        | next :: rest' =>
            if (next <? 56320) || (next >? 57343)
            then Some (Errorf_w ErrBadParcelable "invalid UTF-16 surrogate pair")
            else validateUTF16 rest'
        end
      else if is_surr2 unit
      then Some (Errorf_w ErrBadParcelable "unexpected UTF-16 low surrogate")
      else validateUTF16 rest
  end.

(** ** Go strings through the two codecs *)

(** [utf16.Encode([]rune(s))], the code units [WriteNullableString] writes. *)
Definition units_of_string (s : string) : list Z := utf16_Encode (runes_of_bytes (bytes_of s)).

(** [string(utf16.Decode(units))], the string [ReadNullableString] returns. *)
Definition string_of_units (us : list Z) : string := of_bytes (bytes_of_runes (utf16_Decode us)).

(** [string([]rune(s))]: what is left of a Go string after its invalid bytes
    became U+FFFD. *)
Definition sanitize (s : string) : string :=
  of_bytes (bytes_of_runes (runes_of_bytes (bytes_of s))).

Definition valid_string (s : string) : bool := utf8_valid (bytes_of s).

(** ** Lemmas: bytes and strings *)

Lemma byte_of_ascii_byte c : is_byte (byte_of_ascii c).
Proof.
  unfold byte_of_ascii, is_byte. pose proof (N_ascii_bounded c). lia.
Qed.

Lemma ascii_of_byte_of_ascii c : ascii_of_byte (byte_of_ascii c) = c.
Proof. unfold ascii_of_byte, byte_of_ascii. rewrite N2Z.id. apply ascii_N_embedding. Qed.

Lemma byte_of_ascii_of_byte b : is_byte b → byte_of_ascii (ascii_of_byte b) = b.
Proof.
  unfold is_byte, byte_of_ascii, ascii_of_byte. intros H.
  rewrite N_ascii_embedding; lia.
Qed.

Lemma of_bytes_of s : of_bytes (bytes_of s) = s.
Proof. induction s as [|c s IH]; simpl; [done|]. by rewrite ascii_of_byte_of_ascii, IH. Qed.

Lemma bytes_of_of_bytes bs : Forall is_byte bs → bytes_of (of_bytes bs) = bs.
Proof.
  induction 1 as [|b bs Hb _ IH]; simpl; [done|]. by rewrite byte_of_ascii_of_byte, IH.
Qed.

Lemma bytes_of_byte s : Forall is_byte (bytes_of s).
Proof. induction s; simpl; constructor; auto using byte_of_ascii_byte. Qed.

Lemma length_bytes_of s : length (bytes_of s) = String.length s.
Proof. induction s; simpl; auto. Qed.

#[export] Hint Resolve byte_of_ascii_byte bytes_of_byte : binder.

Lemma is_scalar_spec r :
  is_scalar r = true ↔ 0 <= r < 55296 ∨ 57344 <= r <= MaxRune.
Proof. unfold is_scalar, MaxRune. rewrite orb_true_iff, !andb_true_iff. lia. Qed.

(** ** Lemmas: UTF-16 *)

Lemma is_surr_scalar u : is_scalar u = true → is_surr1 u = false ∧ is_surr2 u = false.
Proof.
  rewrite is_scalar_spec. unfold is_surr1, is_surr2, MaxRune. intros H.
  split; apply andb_false_iff; rewrite !Z.leb_gt; lia.
Qed.

Lemma surr_pair_ok r : 65536 <= r <= MaxRune →
  is_surr1 (55296 + (r - 65536) / 1024) = true ∧
  is_surr2 (56320 + (r - 65536) mod 1024) = true.
Proof.
  unfold MaxRune, is_surr1, is_surr2. intros H.
  pose proof (Z.mod_pos_bound (r - 65536) 1024).
  assert (0 <= (r - 65536) / 1024 < 1024).
  { split; [apply Z.div_pos; lia | apply Z.div_lt_upper_bound; lia]. }
  rewrite !andb_true_iff, !Z.leb_le. lia.
Qed.

(** A case split on the width of a scalar value in UTF-16. *)
Lemma utf16_encode_rune_cases r : is_scalar r = true →
  (utf16_encode_rune r = [r] ∧ is_surr1 r = false ∧ is_surr2 r = false) ∨
  (∃ u v, utf16_encode_rune r = [u; v] ∧ is_surr1 u = true ∧ is_surr2 v = true ∧
          (u - 55296) * 1024 + (v - 56320) + 65536 = r).
Proof.
  intros Hs. unfold utf16_encode_rune. rewrite Hs.
  destruct (r <? 65536) eqn:E; bools.
  - left. by destruct (is_surr_scalar r Hs).
  - right. apply is_scalar_spec in Hs.
    destruct (surr_pair_ok r) as [H1 H2]; [unfold MaxRune in *; lia|].
    eexists _, _. split_and!; [done|done|done|].
    pose proof (Z.div_mod (r - 65536) 1024). lia.
Qed.

Lemma utf16_decode_encode rs :
  Forall (λ r, is_scalar r = true) rs → utf16_Decode (utf16_Encode rs) = rs.
Proof.
  unfold utf16_Encode. induction 1 as [|r rs Hr _ IH]; [done|].
  rewrite bind_cons.
  destruct (utf16_encode_rune_cases r Hr) as [(-> & H1 & H2)|(u & v & -> & H1 & H2 & Hd)].
  - cbn [app utf16_Decode]. rewrite H1, H2. by rewrite IH.
  - cbn [app utf16_Decode]. rewrite H1, H2, Hd. by rewrite IH.
Qed.

(** [is_surr2] is the range test [validateUTF16] writes out. *)
Lemma not_surr2_test v : (v <? 56320) || (v >? 57343) = negb (is_surr2 v).
Proof.
  unfold is_surr2. rewrite Z.gtb_ltb, negb_andb, <- Z.ltb_antisym, <- Z.ltb_antisym. done.
Qed.

Lemma validate_encode rs :
  Forall (λ r, is_scalar r = true) rs → validateUTF16 (utf16_Encode rs) = None.
Proof.
  unfold utf16_Encode. induction 1 as [|r rs Hr _ IH]; [done|].
  rewrite bind_cons.
  destruct (utf16_encode_rune_cases r Hr) as [(-> & H1 & H2)|(u & v & -> & H1 & H2 & Hd)].
  - cbn [app validateUTF16]. by rewrite H1, H2.
  - cbn [app validateUTF16]. by rewrite H1, not_surr2_test, H2.
Qed.

(** [validateUTF16] accepts exactly the sequences [utf16.Decode] decodes
    without loss: re-encoding the decoded runes gives the units back. *)
Lemma validate_decode_encode us :
  Forall (λ u, 0 <= u < 65536) us → validateUTF16 us = None →
  utf16_Encode (utf16_Decode us) = us ∧ Forall (λ r, is_scalar r = true) (utf16_Decode us).
Proof.
  remember (length us) as n eqn:Hn. revert us Hn.
  induction (lt_wf n) as [n _ IH]. intros us -> Hr Hv.
  destruct us as [|u t]; [by split|]. inversion Hr as [|? ? Hu Ht]; subst.
  cbn [validateUTF16 utf16_Decode] in *.
  destruct (is_surr1 u) eqn:E1.
  - destruct t as [|v t']; [done|]. inversion Ht as [|? ? Hv' Ht']; subst.
    rewrite not_surr2_test in Hv. destruct (is_surr2 v) eqn:E2; [|done].
    cbn [negb] in Hv.
    destruct (IH (length t') ltac:(simpl; lia) t' eq_refl Ht' Hv) as [IHa IHb].
    unfold is_surr1, is_surr2 in E1, E2. bools.
    set (r := (u - 55296) * 1024 + (v - 56320) + 65536).
    assert (Hs : is_scalar r = true) by (apply is_scalar_spec; unfold r, MaxRune; lia).
    split; [|by constructor]. unfold utf16_Encode. rewrite bind_cons.
    fold (utf16_Encode (utf16_Decode t')). rewrite IHa.
    unfold utf16_encode_rune. rewrite Hs.
    rewrite (proj2 (Z.ltb_ge r 65536)) by (unfold r; lia). cbn [app].
    replace (r - 65536) with ((v - 56320) + (u - 55296) * 1024) by (unfold r; lia).
    rewrite Z.div_add, Z.mod_add, Z.div_small, Z.mod_small by lia.
    repeat f_equal; lia.
  - destruct (is_surr2 u) eqn:E2; [done|].
    destruct (IH (length t) ltac:(simpl; lia) t eq_refl Ht Hv) as [IHa IHb].
    unfold is_surr1, is_surr2 in E1, E2.
    assert (Hs : is_scalar u = true).
    { apply is_scalar_spec. unfold MaxRune.
      apply andb_false_iff in E1, E2. rewrite !Z.leb_gt in E1, E2. lia. }
    split; [|by constructor]. unfold utf16_Encode. rewrite bind_cons.
    fold (utf16_Encode (utf16_Decode t)). rewrite IHa.
    unfold utf16_encode_rune. rewrite Hs. by zif.
Qed.

Lemma utf16_encode_units rs : Forall (λ u, 0 <= u < 65536) (utf16_Encode rs).
Proof.
  unfold utf16_Encode. induction rs as [|r rs IH]; [constructor|].
  rewrite bind_cons. apply Forall_app. split; [|done].
  unfold utf16_encode_rune. destruct (is_scalar r) eqn:Hs.
  - apply is_scalar_spec in Hs. destruct (r <? 65536) eqn:E; bools.
    + constructor; [lia|done].
    + destruct (surr_pair_ok r) as [H1 H2]; [unfold MaxRune in *; lia|].
      unfold is_surr1, is_surr2 in *. bools. repeat constructor; lia.
  - repeat constructor; unfold RuneError; lia.
Qed.

(** ** Lemmas: UTF-8 *)

Lemma div_mod_split a b c : 0 <= b < c → (a * c + b) / c = a ∧ (a * c + b) mod c = b.
Proof.
  intros H. rewrite Z.add_comm, Z.div_add, Z.mod_add by lia.
  rewrite Z.div_small, Z.mod_small by lia. lia.
Qed.

(** The second byte's range, for leads of three and of four bytes. *)
Lemma second_ok_spec b0 b1 : second_ok b0 b1 = true ↔
  128 <= b1 <= 191 ∧ (b0 = 224 → 160 <= b1) ∧ (b0 = 237 → b1 <= 159) ∧
  (b0 = 240 → 144 <= b1) ∧ (b0 = 244 → b1 <= 143).
Proof.
  unfold second_ok, cont.
  destruct (b0 =? 224) eqn:?; [|destruct (b0 =? 237) eqn:?; [|destruct (b0 =? 240) eqn:?;
    [|destruct (b0 =? 244) eqn:?]]]; rewrite andb_true_iff, !Z.leb_le; bools; lia.
Qed.

(** The value of a sequence of each width, and that encoding it gives the
    sequence back. *)
Definition val2 (b0 b1 : Z) : Z := (b0 - 192) * 64 + (b1 - 128).
Definition val3 (b0 b1 b2 : Z) : Z := (b0 - 224) * 4096 + (b1 - 128) * 64 + (b2 - 128).
Definition val4 (b0 b1 b2 b3 : Z) : Z :=
  (b0 - 240) * 262144 + (b1 - 128) * 4096 + (b2 - 128) * 64 + (b3 - 128).

Lemma encode_val1 b0 : 0 <= b0 < 128 → is_scalar b0 = true ∧ EncodeRune b0 = [b0].
Proof.
  intros. assert (Hs : is_scalar b0 = true) by (apply is_scalar_spec; lia).
  split; [done|]. unfold EncodeRune. rewrite Hs. by zif.
Qed.

Lemma encode_val2 b0 b1 : 194 <= b0 <= 223 → 128 <= b1 <= 191 →
  let r := val2 b0 b1 in 128 <= r < 2048 ∧ is_scalar r = true ∧ EncodeRune r = [b0; b1].
Proof.
  intros H0 H1 r. assert (Hr : 128 <= r < 2048) by (unfold r, val2; lia).
  assert (Hs : is_scalar r = true) by (apply is_scalar_spec; lia).
  split_and!; [lia..|done|]. unfold EncodeRune. rewrite Hs. zif.
  destruct (div_mod_split (b0 - 192) (b1 - 128) 64) as [D1 D2]; [lia|].
  fold (val2 b0 b1) in D1, D2. fold r in D1, D2. rewrite D1, D2. repeat f_equal; lia.
Qed.

Lemma encode_val3 b0 b1 b2 :
  224 <= b0 <= 239 → second_ok b0 b1 = true → 128 <= b2 <= 191 →
  let r := val3 b0 b1 b2 in
  2048 <= r < 65536 ∧ is_scalar r = true ∧ EncodeRune r = [b0; b1; b2].
Proof.
  intros H0 (H1 & H224 & H237 & _ & _)%second_ok_spec H2 r.
  assert (Hr : 2048 <= r < 65536) by (unfold r, val3; lia).
  assert (Hs : is_scalar r = true) by (apply is_scalar_spec; unfold r, val3, MaxRune; lia).
  split_and!; [lia..|done|]. unfold EncodeRune. rewrite Hs. zif.
  destruct (div_mod_split ((b0 - 224) * 64 + (b1 - 128)) (b2 - 128) 64) as [D1 D2]; [lia|].
  destruct (div_mod_split (b0 - 224) (b1 - 128) 64) as [D3 D4]; [lia|].
  replace (((b0 - 224) * 64 + (b1 - 128)) * 64 + (b2 - 128)) with r in D1, D2
    by (unfold r, val3; lia).
  replace 4096 with (64 * 64) by lia. rewrite <- Z.div_div by lia.
  rewrite D1, D2, D3, D4. repeat f_equal; lia.
Qed.

Lemma encode_val4 b0 b1 b2 b3 :
  240 <= b0 <= 244 → second_ok b0 b1 = true → 128 <= b2 <= 191 → 128 <= b3 <= 191 →
  let r := val4 b0 b1 b2 b3 in
  65536 <= r <= MaxRune ∧ is_scalar r = true ∧ EncodeRune r = [b0; b1; b2; b3].
Proof.
  intros H0 (H1 & _ & _ & H240 & H244)%second_ok_spec H2 H3 r.
  assert (Hr : 65536 <= r <= MaxRune) by (unfold r, val4, MaxRune; lia).
  assert (Hs : is_scalar r = true) by (apply is_scalar_spec; unfold MaxRune in *; lia).
  split_and!; [lia..|done|]. unfold EncodeRune. rewrite Hs.
  destruct (div_mod_split (((b0 - 240) * 64 + (b1 - 128)) * 64 + (b2 - 128)) (b3 - 128) 64)
    as [D1 D2]; [lia|].
  destruct (div_mod_split ((b0 - 240) * 64 + (b1 - 128)) (b2 - 128) 64) as [D3 D4]; [lia|].
  destruct (div_mod_split (b0 - 240) (b1 - 128) 64) as [D5 D6]; [lia|].
  replace ((((b0 - 240) * 64 + (b1 - 128)) * 64 + (b2 - 128)) * 64 + (b3 - 128)) with r
    in D1, D2 by (unfold r, val4; lia).
  zif. replace 262144 with (64 * 64 * 64) by lia. replace 4096 with (64 * 64) by lia.
  rewrite <- !Z.div_div by lia. rewrite D1, D2, D3, D4, D5, D6. repeat f_equal; lia.
Qed.

(** One decoding step: either an invalid byte (U+FFFD of width 1) or a scalar
    whose encoding is exactly the bytes read. *)
Definition decoded (bs : list Z) (r : Z) (n : nat) : Prop :=
  (r = RuneError ∧ n = 1%nat ∧ (1 <= length bs)%nat) ∨
  (is_scalar r = true ∧ EncodeRune r = take n bs ∧ n = length (EncodeRune r) ∧
   (r = RuneError → n ≠ 1%nat)).

Lemma DecodeRune_cases b0 t : Forall is_byte (b0 :: t) →
  decoded (b0 :: t) (DecodeRune (b0 :: t)).1 (DecodeRune (b0 :: t)).2.
Proof.
  intros Hb. inversion Hb as [|? ? Hb0 Ht]; subst. unfold is_byte in Hb0.
  assert (Hinv : decoded (b0 :: t) RuneError 1) by (left; simpl; split_and!; [done|done|lia]).
  unfold DecodeRune. destruct (b0 <? 128) eqn:E0; bools.
  { right. cbn [fst snd]. destruct (encode_val1 b0) as [Hs ->]; [lia|].
    split_and!; [done|done|done|unfold RuneError; lia]. }
  destruct t as [|b1 t1]; [done|].
  destruct (lead2 b0 && second_ok b0 b1) eqn:E1.
  { right. cbn [fst snd]. unfold lead2 in E1. bools. apply second_ok_spec in H0 as (? & _).
    destruct (encode_val2 b0 b1) as (Hr & Hs & He); [lia..|].
    unfold val2 in *. rewrite He. split_and!; [done..|]. by intros _. }
  destruct t1 as [|b2 t2]; [done|].
  destruct (lead3 b0 && second_ok b0 b1 && cont b2) eqn:E2.
  { right. cbn [fst snd]. unfold lead3, cont in E2. bools.
    destruct (encode_val3 b0 b1 b2) as (Hr & Hs & He); [lia|done|lia|].
    unfold val3 in *. rewrite He. split_and!; [done..|]. by intros _. }
  destruct t2 as [|b3 t3]; [done|].
  destruct (lead4 b0 && second_ok b0 b1 && cont b2 && cont b3) eqn:E3; [|done].
  right. cbn [fst snd]. unfold lead4, cont in E3. bools.
  destruct (encode_val4 b0 b1 b2 b3) as (Hr & Hs & He); [lia|done|lia|lia|].
  unfold val4 in *. rewrite He. split_and!; [done..|]. by intros _.
Qed.

Lemma decoded_width bs r n : decoded bs r n → (1 <= n <= length bs)%nat.
Proof.
  intros [(_ & -> & ?)|(_ & He & Hn & _)]; [lia|]. rewrite He in Hn.
  rewrite length_take in Hn. split; [|lia].
  assert (n ≠ 0%nat) as ?; [|lia]. intros ->. rewrite take_0 in He.
  unfold EncodeRune in He. repeat case_match; discriminate.
Qed.

Lemma decoded_scalar bs r n : decoded bs r n → is_scalar r = true.
Proof. by intros [(-> & _ & _)|(? & _)]. Qed.

(** Encoding a scalar and decoding at the same place returns it with the width
    of its encoding. *)
Lemma DecodeRune_encode r rest : is_scalar r = true →
  DecodeRune (EncodeRune r ++ rest) = (r, length (EncodeRune r)).
Proof.
  intros Hs. apply is_scalar_spec in Hs as Hr. unfold MaxRune in Hr.
  unfold EncodeRune. rewrite Hs.
  pose proof (Z.mod_pos_bound r 64). pose proof (Z.div_mod r 64).
  pose proof (Z.mod_pos_bound (r / 64) 64). pose proof (Z.div_mod (r / 64) 64).
  pose proof (Z.mod_pos_bound (r / 64 / 64) 64). pose proof (Z.div_mod (r / 64 / 64) 64).
  replace (r / 4096) with (r / 64 / 64) by (by rewrite Z.div_div by lia).
  replace (r / 262144) with (r / 64 / 64 / 64) by (by rewrite !Z.div_div by lia).
  destruct (r <? 128) eqn:E1; bools.
  { cbn [app DecodeRune length]. by zif. }
  destruct (r <? 2048) eqn:E2; bools.
  { cbn [app DecodeRune length]. unfold lead2, second_ok, cont. zif. f_equal. lia. }
  destruct (r <? 65536) eqn:E3; bools.
  { cbn [app DecodeRune length].
    assert (S2 : second_ok (224 + r / 64 / 64) (128 + r / 64 mod 64) = true)
      by (apply second_ok_spec; lia).
    rewrite S2. unfold lead2, lead3, cont. zif. f_equal. lia. }
  cbn [app DecodeRune length].
  assert (S2 : second_ok (240 + r / 64 / 64 / 64) (128 + r / 64 / 64 mod 64) = true)
    by (apply second_ok_spec; lia).
  rewrite S2. unfold lead2, lead3, lead4, cont. zif. f_equal. lia.
Qed.

Lemma EncodeRune_byte r : Forall is_byte (EncodeRune r).
Proof.
  assert (H : is_scalar (if is_scalar r then r else RuneError) = true)
    by (by destruct (is_scalar r) eqn:E).
  unfold EncodeRune. set (x := if is_scalar r then r else RuneError) in *.
  apply is_scalar_spec in H. unfold MaxRune, is_byte in *.
  pose proof (Z.mod_pos_bound x 64). pose proof (Z.mod_pos_bound (x / 64) 64).
  pose proof (Z.mod_pos_bound (x / 4096) 64).
  assert (0 <= x / 64 /\ 0 <= x / 4096 ∧ 0 <= x / 262144 <= 4) as (? & ? & ?).
  { split_and!; try (apply Z.div_pos; lia). apply Z.lt_succ_r, Z.div_lt_upper_bound; lia. }
  repeat case_match; bools.
  - repeat constructor; lia.
  - assert (x / 64 < 32) by (apply Z.div_lt_upper_bound; lia). repeat constructor; lia.
  - assert (x / 4096 < 16) by (apply Z.div_lt_upper_bound; lia). repeat constructor; lia.
  - repeat constructor; lia.
Qed.

Lemma bytes_of_runes_byte rs : Forall is_byte (bytes_of_runes rs).
Proof.
  unfold bytes_of_runes. induction rs as [|r rs IH]; [constructor|].
  rewrite bind_cons. apply Forall_app. split; [apply EncodeRune_byte|done].
Qed.

#[export] Hint Resolve EncodeRune_byte bytes_of_runes_byte : binder.

(** The decoding loop: more fuel than bytes changes nothing, and one step
    peels one rune. *)
Lemma runes_go_fuel f g bs : Forall is_byte bs →
  (length bs <= f)%nat → (length bs <= g)%nat → runes_go f bs = runes_go g bs.
Proof.
  revert g bs. induction f as [|f IH]; intros g bs Hb Hf Hg.
  { by destruct bs; [destruct g|simpl in Hf; lia]. }
  destruct bs as [|b t]; [by destruct g|]. destruct g as [|g]; [simpl in Hg; lia|].
  cbn [runes_go]. pose proof (DecodeRune_cases b t Hb) as Hd.
  destruct (DecodeRune (b :: t)) as [r n]. apply decoded_width in Hd. cbn [fst snd] in Hd.
  f_equal. apply IH; [by apply Forall_drop|rewrite length_drop; simpl in *; lia..].
Qed.

Lemma runes_step b t : Forall is_byte (b :: t) →
  runes_of_bytes (b :: t) =
  (DecodeRune (b :: t)).1 :: runes_of_bytes (drop (DecodeRune (b :: t)).2 (b :: t)).
Proof.
  intros Hb. unfold runes_of_bytes at 1. cbn [length runes_go].
  pose proof (DecodeRune_cases b t Hb) as Hd.
  destruct (DecodeRune (b :: t)) as [r n]. apply decoded_width in Hd. cbn [fst snd] in *.
  f_equal. apply runes_go_fuel; [by apply Forall_drop|rewrite length_drop; simpl in *; lia..].
Qed.

Lemma valid_go_fuel f g bs : Forall is_byte bs →
  (length bs <= f)%nat → (length bs <= g)%nat → valid_go f bs = valid_go g bs.
Proof.
  revert g bs. induction f as [|f IH]; intros g bs Hb Hf Hg.
  { by destruct bs; [destruct g|simpl in Hf; lia]. }
  destruct bs as [|b t]; [by destruct g|]. destruct g as [|g]; [simpl in Hg; lia|].
  cbn [valid_go]. pose proof (DecodeRune_cases b t Hb) as Hd.
  destruct (DecodeRune (b :: t)) as [r n]. apply decoded_width in Hd. cbn [fst snd] in Hd.
  f_equal. apply IH; [by apply Forall_drop|rewrite length_drop; simpl in *; lia..].
Qed.

Lemma valid_step b t : Forall is_byte (b :: t) →
  utf8_valid (b :: t) =
  negb (((DecodeRune (b :: t)).1 =? RuneError) && ((DecodeRune (b :: t)).2 =? 1)%nat)
  && utf8_valid (drop (DecodeRune (b :: t)).2 (b :: t)).
Proof.
  intros Hb. unfold utf8_valid at 1. cbn [length valid_go].
  pose proof (DecodeRune_cases b t Hb) as Hd.
  destruct (DecodeRune (b :: t)) as [r n]. apply decoded_width in Hd. cbn [fst snd] in *.
  f_equal. apply valid_go_fuel; [by apply Forall_drop|rewrite length_drop; simpl in *; lia..].
Qed.

(** Induction on a byte string by decoding steps. *)
Lemma utf8_ind (P : list Z → Prop) :
  P [] →
  (∀ b t, Forall is_byte (b :: t) → P (drop (DecodeRune (b :: t)).2 (b :: t)) → P (b :: t)) →
  ∀ bs, Forall is_byte bs → P bs.
Proof.
  intros H0 HS bs. remember (length bs) as n eqn:Hn. revert bs Hn.
  induction (lt_wf n) as [n _ IH]. intros [|b t] -> Hb; [done|].
  apply HS; [done|]. pose proof (decoded_width _ _ _ (DecodeRune_cases b t Hb)) as Hw.
  eapply IH; [|done|by apply Forall_drop]. rewrite length_drop. simpl in *. lia.
Qed.

Lemma runes_scalar bs : Forall is_byte bs →
  Forall (λ r, is_scalar r = true) (runes_of_bytes bs).
Proof.
  revert bs. apply utf8_ind; [constructor|]. intros b t Hb IH.
  rewrite runes_step by done. constructor; [|done].
  eapply decoded_scalar, DecodeRune_cases, Hb.
Qed.

Lemma runes_bytes_roundtrip rs : Forall (λ r, is_scalar r = true) rs →
  runes_of_bytes (bytes_of_runes rs) = rs.
Proof.
  induction 1 as [|r rs Hr _ IH]; [done|].
  change (bytes_of_runes (r :: rs)) with (EncodeRune r ++ bytes_of_runes rs).
  pose proof (DecodeRune_encode r (bytes_of_runes rs) Hr) as Hd.
  destruct (EncodeRune r ++ bytes_of_runes rs) as [|b t] eqn:E.
  { apply app_nil in E as [E _]. exfalso. revert E. unfold EncodeRune.
    repeat case_match; discriminate. }
  rewrite runes_step by (rewrite <- E; apply Forall_app; auto with binder).
  rewrite Hd. cbn [fst snd]. rewrite <- E, drop_app_length. by rewrite IH.
Qed.

Lemma valid_bytes_roundtrip bs : Forall is_byte bs → utf8_valid bs = true →
  bytes_of_runes (runes_of_bytes bs) = bs.
Proof.
  revert bs. refine (utf8_ind _ _ _); [done|]. intros b t Hb IH Hv.
  rewrite valid_step in Hv by done. rewrite runes_step by done.
  pose proof (DecodeRune_cases b t Hb) as Hd.
  destruct (DecodeRune (b :: t)) as [r n]. cbn [fst snd] in *.
  apply andb_prop in Hv as [Hne Hv].
  destruct Hd as [(-> & -> & _)|(Hs & He & _)]; [done|].
  change (bytes_of_runes (r :: ?x)) with (EncodeRune r ++ bytes_of_runes x).
  rewrite (IH Hv), He. apply take_drop.
Qed.

Lemma valid_bytes_of_runes rs : Forall (λ r, is_scalar r = true) rs →
  utf8_valid (bytes_of_runes rs) = true.
Proof.
  induction 1 as [|r rs Hr _ IH]; [done|].
  change (bytes_of_runes (r :: rs)) with (EncodeRune r ++ bytes_of_runes rs).
  pose proof (DecodeRune_encode r (bytes_of_runes rs) Hr) as Hd.
  destruct (EncodeRune r ++ bytes_of_runes rs) as [|b t] eqn:E; [done|].
  assert (Hb : Forall is_byte (b :: t)) by (rewrite <- E; apply Forall_app; auto with binder).
  rewrite valid_step by done. pose proof (DecodeRune_cases b t Hb) as Hc.
  rewrite Hd in *. cbn [fst snd] in *. rewrite <- E, drop_app_length, IH, andb_true_r.
  destruct (r =? RuneError) eqn:Er; [|done]. bools. subst. by vm_compute.
Qed.

(** ** Strings through the UTF-16 codec *)

Lemma units_range s : Forall (λ u, 0 <= u < 65536) (units_of_string s).
Proof. apply utf16_encode_units. Qed.

Lemma units_valid s : validateUTF16 (units_of_string s) = None.
Proof. apply validate_encode, runes_scalar, bytes_of_byte. Qed.

Lemma string_units_sanitize s : string_of_units (units_of_string s) = sanitize s.
Proof.
  unfold string_of_units, units_of_string, sanitize.
  by rewrite utf16_decode_encode by apply runes_scalar, bytes_of_byte.
Qed.

Lemma sanitize_valid_id s : valid_string s = true → sanitize s = s.
Proof.
  intros Hv. unfold sanitize. rewrite valid_bytes_roundtrip; auto with binder.
  apply of_bytes_of.
Qed.

Lemma sanitize_is_valid s : valid_string (sanitize s) = true.
Proof.
  unfold valid_string, sanitize. rewrite bytes_of_of_bytes by auto with binder.
  apply valid_bytes_of_runes, runes_scalar, bytes_of_byte.
Qed.
