(* ===== verification/Parcel.v ===== *)
(** * Parcel: the payload container of Binder transactions

    Models src/binder/parcel.go and src/binder/fd.go: the byte buffer with its
    cursor, the object table, every read and write operation, and the flattened
    Binder objects of the kernel wire format.

    A [*Parcel] receiver is [option Parcel] ([None] is Go's nil pointer), and
    the code that runs beside the Parcel (the resolvers that turn a wire object
    into a Binder, which retain handles) acts on a world [W]; [B] is the type of
    Binder references.  Both are parameters: [pst] is the pair of the pointer and
    the world, and every operation is a computation over it. *)

From stdpp Require Import base list numbers strings pretty.
From S2P Require Import Prelude Errors Unicode.

Open Scope Z_scope.

(** ** Constants *)

Definition parcelAlignment : Z := 4.
Definition flatObjectSize : Z := 24.

(** [uint32(c1)<<24 | uint32(c2)<<16 | uint32(c3)<<8 | uint32(c4)]. *)
Definition packChars (c1 c2 c3 c4 : Z) : Z :=
  Z.lor (Z.lor (Z.lor (Z.shiftl c1 24) (Z.shiftl c2 16)) (Z.shiftl c3 8)) c4.

Definition flatTypeBinder : Z := packChars 115 98 42 133.   (* 's' 'b' '*' 0x85 *)
Definition flatTypeWBinder : Z := packChars 119 98 42 133.  (* 'w' 'b' '*' 0x85 *)
Definition flatTypeHandle : Z := packChars 115 104 42 133.  (* 's' 'h' '*' 0x85 *)
Definition flatTypeFD : Z := packChars 102 100 42 133.      (* 'f' 'd' '*' 0x85 *)

Definition flatBinderFlagAcceptsFDs : Z := 256.
Definition localBinderSchedBits : Z := 19.
Definition flatBinderObjectWireSize : Z := flatObjectSize + 4.

Definition parcelFlagAllowFDs : Z := 1.
Definition parcelFlagSensitive : Z := 2.

Definition StabilityUndeclared : Z := 0.
Definition StabilityVendor : Z := 3.    (* 0b000011 *)
Definition StabilitySystem : Z := 12.   (* 0b001100 *)
Definition StabilityVINTF : Z := 63.    (* 0b111111 *)
Definition systemStabilityLevel : Z := StabilitySystem.

(** ** Data *)

Inductive parcelMode := parcelModeKernel | parcelModeRPC.

Inductive parcelObjectKind := parcelObjectBinder | parcelObjectFD.

Inductive ObjectKind :=
| ObjectNullBinder | ObjectStrongBinder | ObjectWeakBinder | ObjectFileDescriptor.

Global Instance ObjectKind_eq_dec : EqDecision ObjectKind.
Proof. solve_decision. Defined.

(** The numeric value of the [iota] constant. *)
Definition kind_num (k : ObjectKind) : Z :=
  match k with
  | ObjectNullBinder => 0 | ObjectStrongBinder => 1
  | ObjectWeakBinder => 2 | ObjectFileDescriptor => 3
  end.

Global Instance parcelObjectKind_eq_dec : EqDecision parcelObjectKind.
Proof. solve_decision. Defined.

Record parcelObjectRef := mkRef {
  ref_Kind : parcelObjectKind;
  ref_ObjectKind : ObjectKind;
  ref_Offset : Z;
  ref_Length : Z;
  ref_Handle : Z;
  ref_Stability : Z;
}.

Record ParcelObject := mkObject {
  obj_Kind : ObjectKind;
  obj_Offset : Z;
  obj_Length : Z;
  obj_Handle : Z;
  obj_Stability : Z;
}.

Global Instance ParcelObject_eq_dec : EqDecision ParcelObject.
Proof. solve_decision. Defined.

Record Parcel (W B : Type) := mkParcel {
  buf : list Z;
  pos : Z;
  objects : list parcelObjectRef;
  mode : parcelMode;
  flags : Z;
  binderResolver : option (Z → W → option B * W);
  localBinderResolve : option (Z → W → option B * W);
  binderObjectResolve : option (ParcelObject → W → option B * W);
  localBinderObjectResolve : option (ParcelObject → Z → W → option B * W);
  wireFDsOwned : bool;
}.
Arguments mkParcel {W B} _ _ _ _ _ _ _ _ _ _.
Arguments buf {W B} _.
Arguments pos {W B} _.
Arguments objects {W B} _.
Arguments mode {W B} _.
Arguments flags {W B} _.
Arguments binderResolver {W B} _.
Arguments localBinderResolve {W B} _.
Arguments binderObjectResolve {W B} _.
Arguments localBinderObjectResolve {W B} _.
Arguments wireFDsOwned {W B} _.

(** The receiver pointer and the world its resolvers act on. *)
Record pst (W B : Type) := mkst { ptr : option (Parcel W B); world : W }.
Arguments mkst {W B} _ _.
Arguments ptr {W B} _.
Arguments world {W B} _.

Abbreviation PM W B := (ST error (pst W B)).

(** ** Interfaces the Parcel relies on

    A Binder value's type assertions: [None] where the implementation does not
    have the method set. *)
Class BinderMarshal (W B : Type) := {
  as_StabilityMarshaler : B → option (Z → PM W B unit);
  as_Marshaler : B → option (PM W B unit);
  as_StabilityProvider : B → option (W → Z);
  type_name : B → string;
}.

(** The system calls on file descriptors: [syscall.Write] gives the count and
    the error, [syscall.Close] changes the world only. *)
Class FDSys (W : Type) := {
  sys_Write : Z → list Z → W → (Z * option error) * W;
  sys_Close : Z → W → W;
}.

(** ** src/binder/fd.go *)

Record FileDescriptor := mkFD { fd_fd : Z; fd_owned : bool }.

Definition NewFileDescriptor (fd : Z) : FileDescriptor := mkFD fd false.
Definition NewOwnedFileDescriptor (fd : Z) : FileDescriptor := mkFD fd true.

(** [( *FileDescriptor).Close]: the new value of the descriptor and the
    descriptor [syscall.Close] is called on, if any. *)
Definition FileDescriptor_Close (f : FileDescriptor) : FileDescriptor * option Z :=
  if negb (fd_owned f) || (fd_fd f <? 0) then (f, None)
  else (mkFD (-1) false, Some (fd_fd f)).

Section Ops.
Context {W B : Type}.
Implicit Types p : Parcel W B.

(** ** Record updates *)

Definition set_buf (b : list Z) p : Parcel W B :=
  mkParcel b (pos p) (objects p) (mode p) (flags p) (binderResolver p)
    (localBinderResolve p) (binderObjectResolve p) (localBinderObjectResolve p)
    (wireFDsOwned p).

Definition set_pos (n : Z) p : Parcel W B :=
  mkParcel (buf p) n (objects p) (mode p) (flags p) (binderResolver p)
    (localBinderResolve p) (binderObjectResolve p) (localBinderObjectResolve p)
    (wireFDsOwned p).

Definition set_objects (o : list parcelObjectRef) p : Parcel W B :=
  mkParcel (buf p) (pos p) o (mode p) (flags p) (binderResolver p)
    (localBinderResolve p) (binderObjectResolve p) (localBinderObjectResolve p)
    (wireFDsOwned p).

Definition set_owned (o : bool) p : Parcel W B :=
  mkParcel (buf p) (pos p) (objects p) (mode p) (flags p) (binderResolver p)
    (localBinderResolve p) (binderObjectResolve p) (localBinderObjectResolve p) o.

(** ** Construction and whole-buffer operations *)

Definition NewParcel : Parcel W B :=
  mkParcel [] 0 [] parcelModeKernel parcelFlagAllowFDs None None None None false.

Definition objectKindToRef (kind : ObjectKind) : parcelObjectKind :=
  match kind with
  | ObjectStrongBinder | ObjectWeakBinder | ObjectNullBinder => parcelObjectBinder
  | ObjectFileDescriptor => parcelObjectFD
  end.

Definition wireObjectLength (kind : ObjectKind) (length : Z) : Z :=
  match kind with
  | ObjectStrongBinder | ObjectWeakBinder | ObjectNullBinder =>
      if length <? flatBinderObjectWireSize then flatBinderObjectWireSize else length
  | ObjectFileDescriptor => length
  end.

(** [(p *Parcel).Reset], [SetBytes] and [SetWireData] on the receiver. *)
Definition Reset (s : option (Parcel W B)) : option (Parcel W B) :=
  match s with
  | None => None
  | Some p => Some (set_owned false (set_objects [] (set_pos 0 (set_buf [] p))))
  end.

Definition SetBytes (b : list Z) (s : option (Parcel W B)) : option (Parcel W B) :=
  match s with
  | None => None
  | Some p => Some (set_owned false (set_objects [] (set_pos 0 (set_buf b p))))
  end.

Definition refOfObject (obj : ParcelObject) : parcelObjectRef :=
  mkRef (objectKindToRef (obj_Kind obj)) (obj_Kind obj) (obj_Offset obj)
    (wireObjectLength (obj_Kind obj) (obj_Length obj)) (obj_Handle obj) (obj_Stability obj).

Definition SetWireData (b : list Z) (objs : list ParcelObject) (s : option (Parcel W B))
  : option (Parcel W B) :=
  match s with
  | None => None
  | Some p => Some (set_owned true (set_objects (refOfObject <$> objs) (set_pos 0 (set_buf b p))))
  end.

Definition NewParcelBytes (b : list Z) : option (Parcel W B) := SetBytes b (Some NewParcel).

Definition NewParcelWire (b : list Z) (objs : list ParcelObject) : option (Parcel W B) :=
  SetWireData b objs (Some NewParcel).

Definition SetBinderResolvers (h l : option (Z → W → option B * W)) (s : option (Parcel W B))
  : option (Parcel W B) :=
  match s with
  | None => None
  | Some p => Some (mkParcel (buf p) (pos p) (objects p) (mode p) (flags p) h l
                      (binderObjectResolve p) (localBinderObjectResolve p) (wireFDsOwned p))
  end.

Definition SetBinderObjectResolvers (h : option (ParcelObject → W → option B * W))
    (l : option (ParcelObject → Z → W → option B * W)) (s : option (Parcel W B))
  : option (Parcel W B) :=
  match s with
  | None => None
  | Some p => Some (mkParcel (buf p) (pos p) (objects p) (mode p) (flags p)
                      (binderResolver p) (localBinderResolve p) h l (wireFDsOwned p))
  end.

(** [append([]byte(nil), b...)] is nil when [b] is empty. *)
Definition clone_bytes (b : list Z) : option (list Z) :=
  match b with [] => None | _ => Some b end.

Definition Bytes (s : option (Parcel W B)) : option (list Z) :=
  match s with None => None | Some p => clone_bytes (buf p) end.

Definition KernelWireData (s : option (Parcel W B)) : option (list Z) * option (list Z) :=
  match s with
  | None => (None, None)
  | Some p =>
      let payload := clone_bytes (buf p) in
      match objects p with
      | [] => (payload, None)
      | _ => (payload, Some ((λ obj, u64 (ref_Offset obj)) <$> objects p))
      end
  end.

Definition objectOfRef (obj : parcelObjectRef) : ParcelObject :=
  mkObject (ref_ObjectKind obj) (ref_Offset obj)
    (wireObjectLength (ref_ObjectKind obj) (ref_Length obj)) (ref_Handle obj)
    (ref_Stability obj).

Definition Objects (s : option (Parcel W B)) : option (list ParcelObject) :=
  match s with
  | None => None
  | Some p => match objects p with [] => None | os => Some (objectOfRef <$> os) end
  end.

Definition Len (s : option (Parcel W B)) : Z :=
  match s with None => 0 | Some p => len (buf p) end.

Definition Position (s : option (Parcel W B)) : Z :=
  match s with None => 0 | Some p => pos p end.

Definition Remaining (s : option (Parcel W B)) : Z :=
  match s with
  | None => 0
  | Some p =>
      if pos p >=? len (buf p) then 0
      else if pos p <? 0 then len (buf p)
      else len (buf p) - pos p
  end.

(** Reading and replacing the receiver inside a computation. *)
Definition receiver : PM W B (option (Parcel W B)) := λ s, (Ok (ptr s), s).

Definition store p : PM W B unit := λ s, (Ok tt, mkst (Some p) (world s)).

Definition position : PM W B Z := s ← receiver; mret (Position s).

Definition SetPosition (n : Z) : PM W B unit :=
  s ← receiver;
  match s with
  | None => throw ErrBadParcelable
  | Some p =>
      if (n <? 0) || (n >? len (buf p))
      then throw (Errorf_w ErrBadParcelable ("invalid parcel position " +:+ pretty n)%string)
      else store (set_pos n p)
  end.

(** ** The block primitives *)

(** [padSize]: [(n + 3) &^ 3]. *)
Definition padSize (n : Z) : res Z :=
  if n <? 0 then Err (Errorf_w ErrBadParcelable ("negative size " +:+ pretty n)%string)
  else if n >? maxInt - (parcelAlignment - 1)
  then Err (Errorf_w ErrBadParcelable "parcel size overflow")
  else Ok (Z.ldiff (n + parcelAlignment - 1) (parcelAlignment - 1)).

(** [reserve]: the block is the window [p.buf[pos:end]], given by its bounds. *)
Definition reserve (n : Z) : PM W B (Z * Z) :=
  s ← receiver;
  match s with
  | None => throw ErrBadParcelable
  | Some p =>
      if n <? 0
      then throw (Errorf_w ErrBadParcelable ("negative reserve size " +:+ pretty n)%string)
      else if (pos p <? 0) || (pos p >? len (buf p))
      then throw (Errorf_w ErrBadParcelable ("invalid parcel position " +:+ pretty (pos p))%string)
      else if pos p >? maxInt - n
      then throw (Errorf_w ErrBadParcelable "parcel size overflow")
      else
        let end_ := pos p + n in
        let buf' := if end_ >? len (buf p) then buf p ++ zeros (end_ - len (buf p)) else buf p in
        store (set_pos end_ (set_buf buf' p));; mret (pos p, end_)
  end.

(** [writeBlock]: [fill] writes into the first [payloadLen] bytes of the
    reserved block, which keep what they held where [fill] does not write; the
    padding is cleared. *)
Definition writeBlock (payloadLen : Z) (fill : list Z → list Z) : PM W B unit :=
  paddedLen ← lift (padSize payloadLen);
  '(start, end_) ← reserve paddedLen;
  s ← receiver;
  match s with
  | None => throw ErrBadParcelable
  | Some p =>
      let payload := slice (buf p) start (start + payloadLen) in
      let payload' := if payloadLen >? 0 then fill payload else payload in
      store (set_buf (put (buf p) start (payload' ++ zeros (paddedLen - payloadLen))) p)
  end.

Definition readBlock (payloadLen : Z) : PM W B (list Z) :=
  s ← receiver;
  match s with
  | None => throw ErrBadParcelable
  | Some p =>
      if payloadLen <? 0
      then throw (Errorf_w ErrBadParcelable ("negative read size " +:+ pretty payloadLen)%string)
      else if (pos p <? 0) || (pos p >? len (buf p))
      then throw (Errorf_w ErrBadParcelable ("invalid parcel position " +:+ pretty (pos p))%string)
      else
        paddedLen ← lift (padSize payloadLen);
        if pos p >? len (buf p) - paddedLen then throw ErrUnexpectedEOF
        else store (set_pos (pos p + paddedLen) p);;
             mret (slice (buf p) (pos p) (pos p + payloadLen))
  end.

(** ** Scalars *)

(** [binary.LittleEndian.PutUintN(dst[o:], v)]. *)
Definition PutUint16 (o : Z) (v : Z) (dst : list Z) : list Z := put dst o (le_bytes 2 v).
Definition PutUint32 (o : Z) (v : Z) (dst : list Z) : list Z := put dst o (le_bytes 4 v).
Definition PutUint64 (o : Z) (v : Z) (dst : list Z) : list Z := put dst o (le_bytes 8 v).

Definition WriteInt32 (v : Z) : PM W B unit := writeBlock 4 (PutUint32 0 (u32 v)).
Definition WriteUint32 (v : Z) : PM W B unit := writeBlock 4 (PutUint32 0 v).
Definition WriteInt64 (v : Z) : PM W B unit := writeBlock 8 (PutUint64 0 (u64 v)).
Definition WriteUint64 (v : Z) : PM W B unit := writeBlock 8 (PutUint64 0 v).
Definition WriteBool (v : bool) : PM W B unit := if v then WriteInt32 1 else WriteInt32 0.
Definition WriteByte (v : Z) : PM W B unit := writeBlock 1 (λ dst, put dst 0 [u8 v]).
Definition WriteChar (v : Z) : PM W B unit := writeBlock 2 (PutUint16 0 v).
(** A float is the bit pattern [math.Float32bits] / [Float64bits] gives. *)
Definition WriteFloat32 (bits : Z) : PM W B unit := writeBlock 4 (PutUint32 0 bits).
Definition WriteFloat64 (bits : Z) : PM W B unit := writeBlock 8 (PutUint64 0 bits).

Definition ReadInt32 : PM W B Z := block ← readBlock 4; mret (i32 (le_num block)).
Definition ReadUint32 : PM W B Z := block ← readBlock 4; mret (le_num block).
Definition ReadInt64 : PM W B Z := block ← readBlock 8; mret (i64 (le_num block)).
Definition ReadUint64 : PM W B Z := block ← readBlock 8; mret (le_num block).
Definition ReadBool : PM W B bool := v ← ReadInt32; mret (negb (v =? 0)).
Definition ReadByte : PM W B Z := block ← readBlock 1; mret (i8 (le_num block)).
Definition ReadChar : PM W B Z := block ← readBlock 2; mret (le_num block).
Definition ReadFloat32 : PM W B Z := block ← readBlock 4; mret (le_num block).
Definition ReadFloat64 : PM W B Z := block ← readBlock 8; mret (le_num block).

(** ** Strings and byte slices *)

(** The loop of [PutUint16(dst[i*2:], unit)] calls. *)
Fixpoint put_units (i : Z) (units : list Z) (dst : list Z) : list Z :=
  match units with
  | [] => dst
  | unit :: rest => put_units (i + 1) rest (PutUint16 (i * 2) unit dst)
  end.

Definition WriteNullableString (v : option string) : PM W B unit :=
  match v with
  | None => WriteInt32 (-1)
  | Some s =>
      let units := units_of_string s in
      if len units >? maxInt32
      then throw (Errorf_w ErrBadParcelable ("string too large: " +:+ pretty (len units)
                                              +:+ " code units")%string)
      else if len units >? maxInt / 2 - 1
      then throw (Errorf_w ErrBadParcelable "string payload overflow")
      else
        WriteInt32 (i32 (len units));;
        writeBlock ((len units + 1) * 2)
          (λ dst, PutUint16 (len units * 2) 0 (put_units 0 units dst))
  end.

Definition WriteString (v : string) : PM W B unit := WriteNullableString (Some v).

Definition WriteNullableString8 (v : option string) : PM W B unit :=
  match v with
  | None => WriteInt32 (-1)
  | Some s =>
      let bs := bytes_of s in
      if negb (utf8_valid bs)
      then throw (Errorf_w ErrBadParcelable "invalid utf-8 string")
      else if len bs >? maxInt32
      then throw (Errorf_w ErrBadParcelable ("string8 too large: " +:+ pretty (len bs)
                                              +:+ " bytes")%string)
      else if len bs >? maxInt - 1
      then throw (Errorf_w ErrBadParcelable "string8 payload overflow")
      else
        WriteInt32 (i32 (len bs));;
        writeBlock (len bs + 1) (λ dst, put (put dst 0 bs) (len bs) [0])
  end.

Definition WriteString8 (v : string) : PM W B unit := WriteNullableString8 (Some v).

Definition WriteBytes (b : option (list Z)) : PM W B unit :=
  match b with
  | None => WriteInt32 (-1)
  | Some bs =>
      if len bs >? maxInt32
      then throw (Errorf_w ErrBadParcelable ("byte slice too large: " +:+ pretty (len bs))%string)
      else WriteInt32 (i32 (len bs));; writeBlock (len bs) (λ dst, put dst 0 bs)
  end.

Definition WriteRawBytes (b : option (list Z)) : PM W B unit :=
  match b with
  | None => writeBlock 0 (λ dst, dst)
  | Some bs => writeBlock (len bs) (λ dst, put dst 0 bs)
  end.

(** The loop [units[i] = Uint16(block[i*2:])] over [n] units. *)
Fixpoint get_units (n : nat) (block : list Z) : list Z :=
  match n with
  | O => []
  | S n' => le_num (take 2 block) :: get_units n' (drop 2 block)
  end.

Definition ReadNullableString : PM W B (option string) :=
  size ← ReadInt32;
  if size <? 0 then mret None
  else if size >? maxInt / 2 - 1
  then throw (Errorf_w ErrBadParcelable "string payload overflow")
  else
    block ← readBlock ((size + 1) * 2);
    if negb (le_num (slice block (size * 2) (size * 2 + 2)) =? 0)
    then throw (Errorf_w ErrBadParcelable "unterminated UTF-16 string")
    else
      let units := get_units (Z.to_nat size) block in
      match validateUTF16 units with
      | Some err => throw err
      | None => mret (Some (string_of_units units))
      end.

Definition ReadString : PM W B string :=
  s ← ReadNullableString;
  match s with
  | None => throw (Errorf_w ErrBadParcelable "unexpected null string")
  | Some v => mret v
  end.

Definition ReadNullableString8 : PM W B (option string) :=
  size ← ReadInt32;
  if size <? 0 then mret None
  else if size >? maxInt32
  then throw (Errorf_w ErrBadParcelable ("string8 too large: " +:+ pretty size +:+ " bytes")%string)
  else if size >? maxInt - 1
  then throw (Errorf_w ErrBadParcelable "string8 payload overflow")
  else
    block ← readBlock (size + 1);
    if (len block =? 0) || negb (le_num (slice block (len block - 1) (len block)) =? 0)
    then throw (Errorf_w ErrBadParcelable "unterminated string8")
    else
      let raw := slice block 0 (len block - 1) in
      if negb (utf8_valid raw)
      then throw (Errorf_w ErrBadParcelable "invalid utf-8 string8 payload")
      else mret (Some (of_bytes raw)).

Definition ReadString8 : PM W B string :=
  s ← ReadNullableString8;
  match s with
  | None => throw (Errorf_w ErrBadParcelable "unexpected null string8")
  | Some v => mret v
  end.

Definition ReadBytes : PM W B (option (list Z)) :=
  size ← ReadInt32;
  if size <? 0 then mret None else block ← readBlock size; mret (Some block).

Definition ReadRawBytes (n : Z) : PM W B (list Z) := readBlock n.

(** ** Interface tokens *)

Definition tokenHeader : Z := packChars 83 89 83 84. (* 'S' 'Y' 'S' 'T' *)

Definition WriteInterfaceToken (descriptor : string) : PM W B unit :=
  WriteUint32 (Z.shiftl 1 31);; WriteInt32 (-1);; WriteUint32 tokenHeader;;
  WriteString descriptor.

Definition ReadInterfaceToken : PM W B string :=
  _ ← ReadUint32; _ ← ReadInt32; header ← ReadUint32;
  if negb (header =? tokenHeader)
  then throw (Errorf_w ErrBadParcelable ("invalid interface token header " +:+ hex header)%string)
  else ReadString.
End Ops.

(** ** Flattened Binder objects *)

Section Objects.
Context {W B : Type}.
Implicit Types p : Parcel W B.

(** [p.objects = append(p.objects, ref)]. *)
Definition appendObject (ref : parcelObjectRef) : PM W B unit :=
  s ← receiver;
  match s with
  | None => throw ErrBadParcelable
  | Some p => store (set_objects (objects p ++ [ref]) p)
  end.

Definition objectAt p (offset : Z) : option parcelObjectRef :=
  list_find (λ obj, ref_Offset obj = offset) (objects p) ≫= λ '(_, obj), Some obj.

Definition WriteStrongBinderLocalWithStability (binder cookie stability : Z) : PM W B unit :=
  s ← receiver;
  match s with
  | None => throw ErrBadParcelable
  | Some p =>
      let start := pos p in
      writeBlock flatObjectSize (λ dst,
        PutUint64 16 (u64 cookie) (PutUint64 8 (u64 binder)
          (PutUint32 4 (Z.lor flatBinderFlagAcceptsFDs localBinderSchedBits)
            (PutUint32 0 flatTypeBinder dst))));;
      WriteInt32 (i32 stability);;
      appendObject (mkRef parcelObjectBinder ObjectStrongBinder start
                      flatBinderObjectWireSize 0 stability)
  end.

Definition WriteStrongBinderLocal (binder cookie : Z) : PM W B unit :=
  WriteStrongBinderLocalWithStability binder cookie systemStabilityLevel.

Definition WriteStrongBinderHandleWithStability (handle stability : Z) : PM W B unit :=
  s ← receiver;
  match s with
  | None => throw ErrBadParcelable
  | Some p =>
      let start := pos p in
      writeBlock flatObjectSize (λ dst,
        PutUint32 8 handle (PutUint32 4 0 (PutUint32 0 flatTypeHandle dst)));;
      WriteInt32 (i32 stability);;
      appendObject (mkRef parcelObjectBinder ObjectStrongBinder start
                      flatBinderObjectWireSize handle stability)
  end.

Definition WriteStrongBinderHandle (handle : Z) : PM W B unit :=
  WriteStrongBinderHandleWithStability handle systemStabilityLevel.

Definition WriteNullStrongBinder : PM W B unit :=
  s ← receiver;
  match s with
  | None => throw ErrBadParcelable
  | Some _ =>
      writeBlock flatObjectSize (PutUint32 0 flatTypeBinder);;
      WriteInt32 (i32 StabilityUndeclared)
  end.

Definition WriteFileDescriptor (fd : FileDescriptor) : PM W B unit :=
  s ← receiver;
  match s with
  | None => throw ErrBadParcelable
  | Some p =>
      if Z.land (flags p) parcelFlagAllowFDs =? 0
      then throw (Errorf_w ErrUnsupported "file descriptors not allowed in parcel")
      else if fd_fd fd <? 0
      then throw (Errorf_w ErrBadParcelable ("invalid file descriptor " +:+ pretty (fd_fd fd))%string)
      else
        let start := pos p in
        writeBlock flatObjectSize (λ dst,
          PutUint32 8 (u32 (fd_fd fd)) (PutUint32 4 0 (PutUint32 0 flatTypeFD dst)));;
        appendObject (mkRef parcelObjectFD ObjectFileDescriptor start
                        flatObjectSize (u32 (fd_fd fd)) 0)
  end.

(** A [ParcelFileDescriptor] is its embedded [FileDescriptor]. *)
Definition WriteParcelFileDescriptor (fd : FileDescriptor) : PM W B unit :=
  WriteInt32 0;; WriteFileDescriptor fd.

Definition isNullBinderBlock (block : list Z) : bool :=
  if negb (len block =? flatObjectSize) then false
  else
    let typ := le_num (slice block 0 4) in
    if negb (typ =? flatTypeBinder) && negb (typ =? flatTypeWBinder) then false
    else (le_num (slice block 8 16) =? 0) && (le_num (slice block 16 24) =? 0).

Definition isStrongHandleBlock (block : list Z) : bool :=
  (len block =? flatObjectSize) && (le_num (slice block 0 4) =? flatTypeHandle).

Definition ReadObject : PM W B ParcelObject :=
  s ← receiver;
  match s with
  | None => throw ErrBadParcelable
  | Some p =>
      let start := pos p in
      match objectAt p start with
      | Some ref =>
          let length := wireObjectLength (ref_ObjectKind ref) (ref_Length ref) in
          block ← readBlock length;
          let stability :=
            if bool_decide (ref_ObjectKind ref = ObjectStrongBinder)
               && (length >=? flatBinderObjectWireSize)
            then i32 (le_num (slice block flatObjectSize (flatObjectSize + 4)))
            else ref_Stability ref in
          mret (mkObject (ref_ObjectKind ref) (ref_Offset ref) length (ref_Handle ref) stability)
      | None =>
          block ← readBlock flatObjectSize;
          if negb (isNullBinderBlock block)
          then throw (Errorf_w ErrBadParcelable ("expected parcel object at offset "
                                                  +:+ pretty start)%string)
          else
            stability ← ReadInt32;
            mret (mkObject ObjectNullBinder start flatBinderObjectWireSize 0 stability)
      end
  end.

(** The object, its type word and, for a local node, its cookie. *)
Definition readStrongBinderObject : PM W B (ParcelObject * Z * Z) :=
  s ← receiver;
  match s with
  | None => throw ErrBadParcelable
  | Some p =>
      let start := pos p in
      block ← readBlock flatObjectSize;
      let typ := le_num (slice block 0 4) in
      let tail :=
        match objectAt p start with
        | None => throw (Errorf_w ErrBadParcelable
                           ("missing binder object table entry at offset " +:+ pretty start)%string)
        | Some ref =>
            if negb (bool_decide (ref_ObjectKind ref = ObjectStrongBinder))
            then throw (Errorf_w ErrBadParcelable ("expected strong binder object, got "
                                                    +:+ pretty (kind_num (ref_ObjectKind ref)))%string)
            else
              stability ← ReadInt32;
              let handle := if typ =? flatTypeHandle then le_num (slice block 8 12)
                            else ref_Handle ref in
              mret (mkObject (ref_ObjectKind ref) (ref_Offset ref)
                      (wireObjectLength (ref_ObjectKind ref) (ref_Length ref)) handle stability,
                    typ, le_num (slice block 16 24))
        end in
      if typ =? flatTypeBinder then
        if isNullBinderBlock block then
          stability ← ReadInt32;
          mret (mkObject ObjectNullBinder start flatBinderObjectWireSize 0 stability, typ, 0)
        else tail
      else if typ =? flatTypeHandle then tail
      else throw (Errorf_w ErrBadParcelable ("expected strong binder object at offset "
                                              +:+ pretty start)%string)
  end.

Definition ReadStrongBinderHandle : PM W B (option Z) :=
  '(obj, _, _) ← readStrongBinderObject;
  if bool_decide (obj_Kind obj = ObjectNullBinder) then mret None
  else mret (Some (obj_Handle obj)).

(** Running a resolver on the world. *)
Definition resolve (f : W → option B * W) : PM W B (option B) := λ s,
  let '(b, w) := f (world s) in (Ok b, mkst (ptr s) w).

Definition ReadStrongBinder : PM W B (option B) :=
  '(obj, typ, cookie) ← readStrongBinderObject;
  if bool_decide (obj_Kind obj = ObjectNullBinder) then mret None
  else
    s ← receiver;
    match s with
    | None => throw ErrBadParcelable
    | Some p =>
        if typ =? flatTypeHandle then
          match binderObjectResolve p with
          | Some f => resolve (f obj)
          | None =>
              match binderResolver p with
              | None => throw (Errorf_w ErrUnsupported "no binder handle resolver configured")
              | Some f => resolve (f (obj_Handle obj))
              end
          end
        else if typ =? flatTypeBinder then
          match localBinderObjectResolve p with
          | Some f => resolve (f obj cookie)
          | None =>
              match localBinderResolve p with
              | None => throw (Errorf_w ErrUnsupported "no local binder resolver configured")
              | Some f => resolve (f cookie)
              end
          end
        else throw (Errorf_w ErrBadParcelable ("unsupported binder object type " +:+ hex typ)%string)
    end.

Definition readFileDescriptorObject : PM W B Z :=
  s ← receiver;
  match s with
  | None => throw ErrBadParcelable
  | Some p =>
      let start := pos p in
      block ← readBlock flatObjectSize;
      if negb (le_num (slice block 0 4) =? flatTypeFD)
      then throw (Errorf_w ErrBadParcelable ("expected file descriptor object at offset "
                                              +:+ pretty start)%string)
      else
        match objectAt p start with
        | None => throw (Errorf_w ErrBadParcelable
                           ("missing file descriptor object table entry at offset "
                            +:+ pretty start)%string)
        | Some ref =>
            if negb (bool_decide (ref_ObjectKind ref = ObjectFileDescriptor))
            then throw (Errorf_w ErrBadParcelable ("expected file descriptor object, got "
                                                    +:+ pretty (kind_num (ref_ObjectKind ref)))%string)
            else mret (i32 (le_num (slice block 8 12)))
        end
  end.

Definition ReadFileDescriptor : PM W B FileDescriptor :=
  fd ← readFileDescriptorObject;
  s ← receiver;
  match s with
  | None => throw ErrBadParcelable
  | Some p => mret (if wireFDsOwned p then NewOwnedFileDescriptor fd else NewFileDescriptor fd)
  end.
End Objects.

(** ** Operations that go through an interface *)

Section Interfaces.
Context {W B : Type}.

(** src/binder/stability_labels.go [BinderStability]. *)
Definition BinderStability `{BinderMarshal W B} (b : B) (w : W) : Z :=
  match as_StabilityProvider b with
  | Some level => if level w =? StabilityUndeclared then StabilitySystem else level w
  | None => StabilitySystem
  end.

Definition WriteStrongBinder `{BinderMarshal W B} (b : option B) : PM W B unit :=
  match b with
  | None => WriteNullStrongBinder
  | Some b =>
      match as_StabilityMarshaler b with
      | Some m => s ← get; m (BinderStability b (world s))
      | None =>
          match as_Marshaler b with
          | Some m => m
          | None => throw (Errorf_w ErrUnsupported
                             ("binder " +:+ type_name b +:+ " does not support parcel marshaling")%string)
          end
      end
  end.

Context `{FDSys W}.

(** [_ = fd.Close()] for an owned descriptor. *)
Definition closeFD (fd : FileDescriptor) : PM W B unit := λ s,
  match FileDescriptor_Close fd with
  | (_, Some n) => (Ok tt, mkst (ptr s) (sys_Close n (world s)))
  | (_, None) => (Ok tt, s)
  end.

Definition acknowledgeDetachedParcelFileDescriptor (comm : FileDescriptor)
  : PM W B (option error) := λ s,
  if fd_fd comm <? 0
  then (Ok (Some (Errorf_w ErrBadParcelable ("invalid ParcelFileDescriptor comm fd "
                                              +:+ pretty (fd_fd comm))%string)), s)
  else
    let '((written, err), w) := sys_Write (fd_fd comm) [0; 0; 0; 2] (world s) in
    let s' := mkst (ptr s) w in
    match err with
    | Some e => (Ok (Some (Errorf_w ErrBadParcelable
                             ("failed to acknowledge detached ParcelFileDescriptor: "
                              +:+ Error_string e)%string)), s')
    | None =>
        if negb (written =? 4)
        then (Ok (Some (Errorf_w ErrBadParcelable ("short detached ParcelFileDescriptor ack "
                                                    +:+ pretty written)%string)), s')
        else (Ok None, s')
    end.

(** [comm, commErr := p.ReadFileDescriptor()]: the error is a value the caller
    inspects. *)
Definition try_ {A} (m : PM W B A) : PM W B (A + error) := λ s,
  match m s with
  | (Ok a, s') => (Ok (inl a), s')
  | (Err e, s') => (Ok (inr e), s')
  | (Panic w, s') => (Panic w, s')
  end.

Definition ReadParcelFileDescriptor : PM W B FileDescriptor :=
  hasComm ← ReadInt32;
  fd ← ReadFileDescriptor;
  if negb (hasComm =? 0) then
    comm ← try_ ReadFileDescriptor;
    match comm with
    | inr commErr => (if fd_owned fd then closeFD fd else mret tt);; throw commErr
    | inl comm =>
        ackErr ← acknowledgeDetachedParcelFileDescriptor comm;
        (if fd_owned comm then closeFD comm else mret tt);;
        match ackErr with
        | Some e => (if fd_owned fd then closeFD fd else mret tt);; throw e
        | None => mret fd
        end
    end
  else mret fd.
End Interfaces.
