(* ===== verification/ParcelFacts.v ===== *)
(** * ParcelFacts: how the Parcel operations act on the buffer

    The library the codec theorems stand on.  [emits m a bs objs] says that the
    computation [m], run with the cursor at the end of the buffer, appends the
    bytes [bs] and the object-table entries [objs] (offsets relative to the
    start) and returns [a]; [consumes m a bs objs] says that [m], run with the
    cursor in front of [bs] and with the entries [objs] registered, returns [a]
    and moves the cursor past [bs].  Both compose along [≫=], so the codec of a
    composite value is the concatenation of the codecs of its parts. *)

From stdpp Require Import base list numbers strings pretty.
From S2P Require Import Prelude Errors Unicode Parcel.

Open Scope Z_scope.

(** The size of a block of [n] payload bytes. *)
Definition pad (n : Z) : Z := 4 * ((n + 3) / 4).

Lemma pad_bounds n : 0 <= n → n <= pad n < n + 4.
Proof.
  unfold pad. intros. pose proof (Z.div_mod (n + 3) 4).
  pose proof (Z.mod_pos_bound (n + 3) 4). lia.
Qed.

Lemma pad_div4 n : (pad n) mod 4 = 0.
Proof. unfold pad. rewrite Z.mul_comm. by apply Z.mod_mul. Qed.

Lemma pad_id n : n mod 4 = 0 → pad n = n.
Proof.
  unfold pad. intros H. pose proof (Z.div_mod n 4). pose proof (Z.div_mod (n + 3) 4).
  pose proof (Z.mod_pos_bound (n + 3) 4). lia.
Qed.

Lemma padSize_ok n : 0 <= n <= maxInt - 3 → padSize n = Ok (pad n).
Proof.
  unfold padSize, parcelAlignment, pad. intros H.
  rewrite (proj2 (Z.ltb_ge _ _)) by lia. rewrite Z.gtb_ltb, (proj2 (Z.ltb_ge _ _)) by lia.
  f_equal. replace (4 - 1) with (Z.ones 2) by done.
  rewrite Z.ldiff_ones_r, Z.shiftr_div_pow2, Z.shiftl_mul_pow2 by lia.
  change (2 ^ 2) with 4. rewrite Z.mul_comm. do 2 f_equal. lia.
Qed.

(** Every size [padSize] accepts is padded to a multiple of four. *)
Lemma padSize_inv n m : padSize n = Ok m → 0 <= n <= maxInt - 3 ∧ m = pad n.
Proof.
  intros H. assert (Hn : 0 <= n <= maxInt - 3).
  { unfold padSize, parcelAlignment in H. repeat case_match; simplify_eq.
    rewrite Z.gtb_ltb in *. bools. lia. }
  rewrite padSize_ok in H by done. by simplify_eq.
Qed.

Definition shift_ref (d : Z) (r : parcelObjectRef) : parcelObjectRef :=
  mkRef (ref_Kind r) (ref_ObjectKind r) (ref_Offset r + d) (ref_Length r) (ref_Handle r)
    (ref_Stability r).

Lemma shift_ref_0 r : shift_ref 0 r = r.
Proof. destruct r. unfold shift_ref; simpl. by rewrite Z.add_0_r. Qed.

Lemma shift_shift a b r : shift_ref a (shift_ref b r) = shift_ref (a + b) r.
Proof. destruct r. unfold shift_ref; simpl. f_equal. lia. Qed.

Section Facts.
Context {W B : Type}.
Implicit Types p : Parcel W B.
Implicit Types w : W.

Lemma bind_receiver {A} (k : option (Parcel W B) → PM W B A) s :
  (receiver ≫= k) s = k (ptr s) s.
Proof. done. Qed.

Lemma bind_lift {A C} (a : A) (k : A → PM W B C) s : (lift (Ok a) ≫= k) s = k a s.
Proof. done. Qed.

(** The Parcel after bytes and objects have been appended at the cursor. *)
Definition p_emit p (bs : list Z) (objs : list parcelObjectRef) : Parcel W B :=
  set_objects (objects p ++ (shift_ref (len (buf p)) <$> objs))
    (set_pos (len (buf p) + len bs) (set_buf (buf p ++ bs) p)).

Definition emits {A} (m : PM W B A) (a : A) (bs : list Z) (objs : list parcelObjectRef)
  : Prop :=
  ∀ p w, pos p = len (buf p) → len (buf p) + len bs <= maxInt →
    m (mkst (Some p) w) = (Ok a, mkst (Some (p_emit p bs objs)) w).

Definition registered p (base : Z) (objs : list parcelObjectRef) : Prop :=
  Forall (λ o, objectAt p (base + ref_Offset o) = Some (shift_ref base o)) objs.

Definition consumes {A} (m : PM W B A) (a : A) (bs : list Z) (objs : list parcelObjectRef)
  : Prop :=
  ∀ p w pre post, buf p = pre ++ bs ++ post → pos p = len pre → len (buf p) <= maxInt →
    registered p (len pre) objs →
    m (mkst (Some p) w) = (Ok a, mkst (Some (set_pos (len pre + len bs) p)) w).

(** *** Composition *)

Lemma p_emit_app p b1 o1 b2 o2 :
  p_emit (p_emit p b1 o1) b2 o2 = p_emit p (b1 ++ b2) (o1 ++ (shift_ref (len b1) <$> o2)).
Proof.
  unfold p_emit, set_objects, set_pos, set_buf; cbn. f_equal.
  - by rewrite app_assoc.
  - rewrite !length_app. lia.
  - rewrite <- app_assoc. f_equal. rewrite fmap_app. f_equal.
    rewrite <- list_fmap_compose. apply list_fmap_ext. intros _ x _. unfold compose.
    rewrite shift_shift, length_app. f_equal. lia.
Qed.

Lemma emits_ret {A} (a : A) : emits (mret a) a [] [].
Proof.
  intros p w Hp _. unfold p_emit. cbn. rewrite app_nil_r, app_nil_r, Z.add_0_r, <- Hp.
  by destruct p.
Qed.

Lemma emits_bind {A C} (m : PM W B A) (k : A → PM W B C) a c b1 o1 b2 o2 :
  emits m a b1 o1 → emits (k a) c b2 o2 →
  emits (m ≫= k) c (b1 ++ b2) (o1 ++ (shift_ref (len b1) <$> o2)).
Proof.
  intros H1 H2 p w Hp Hl. rewrite length_app in Hl.
  rewrite (bind_ok _ _ _ _ _ (H1 p w Hp ltac:(lia))).
  rewrite H2; [by rewrite p_emit_app| |]; cbn; rewrite length_app; lia.
Qed.

Lemma emits_bind_nil {A C} (m : PM W B A) (k : A → PM W B C) a c b1 b2 :
  emits m a b1 [] → emits (k a) c b2 [] → emits (m ≫= k) c (b1 ++ b2) [].
Proof. intros H1 H2. exact (emits_bind m k a c b1 [] b2 [] H1 H2). Qed.

Lemma consumes_ret {A} (a : A) : consumes (mret a) a [] [].
Proof.
  intros p w pre post _ Hp _ _. cbn. rewrite Z.add_0_r, <- Hp. by destruct p.
Qed.

Lemma objectAt_set_pos p n o : objectAt (set_pos n p) o = objectAt p o.
Proof. done. Qed.

Lemma registered_shift p base d objs :
  registered p base (shift_ref d <$> objs) ↔ registered p (base + d) objs.
Proof.
  unfold registered. rewrite Forall_fmap. apply Forall_proper; [|done].
  intros o. unfold compose. rewrite shift_shift. cbn [shift_ref ref_Offset].
  by replace (base + (ref_Offset o + d)) with (base + d + ref_Offset o) by lia.
Qed.

Lemma consumes_bind {A C} (m : PM W B A) (k : A → PM W B C) a c b1 o1 b2 o2 :
  consumes m a b1 o1 → consumes (k a) c b2 o2 →
  consumes (m ≫= k) c (b1 ++ b2) (o1 ++ (shift_ref (len b1) <$> o2)).
Proof.
  intros H1 H2 p w pre post Hb Hp Hl Hr. apply Forall_app in Hr as [Hr1 Hr2].
  rewrite <- app_assoc in Hb. rewrite (bind_ok _ _ _ _ _ (H1 p w pre _ Hb Hp Hl Hr1)).
  rewrite (H2 (set_pos (len pre + len b1) p) w (pre ++ b1) post).
  - cbn. do 3 f_equal. rewrite !length_app. unfold set_pos; cbn. f_equal. lia.
  - cbn. by rewrite Hb, <- app_assoc.
  - cbn. rewrite length_app. lia.
  - done.
  - rewrite length_app, Nat2Z.inj_add. by apply registered_shift.
Qed.

Lemma consumes_bind_nil {A C} (m : PM W B A) (k : A → PM W B C) a c b1 b2 :
  consumes m a b1 [] → consumes (k a) c b2 [] → consumes (m ≫= k) c (b1 ++ b2) [].
Proof. intros H1 H2. exact (consumes_bind m k a c b1 [] b2 [] H1 H2). Qed.

(** A pure function of what was read. *)
Lemma consumes_fmap {A C} (m : PM W B A) (f : A → C) a c bs objs :
  consumes m a bs objs → f a = c → consumes (x ← m; mret (f x)) c bs objs.
Proof.
  intros H <- p w pre post Hb Hp Hl Hr.
  by rewrite (bind_ok _ _ _ _ _ (H p w pre post Hb Hp Hl Hr)).
Qed.

(** *** Writing at the end and reading from the start *)

Lemma p_emit_new bs objs : (p_emit NewParcel bs objs : Parcel W B) =
  mkParcel bs (len bs) objs parcelModeKernel parcelFlagAllowFDs None None None None false.
Proof.
  unfold p_emit, set_objects, set_pos, set_buf; cbn. f_equal.
  rewrite <- (list_fmap_id objs) at 2. apply list_fmap_ext. intros _ x _. apply shift_ref_0.
Qed.

(** *** The block primitives *)

Lemma reserve_ok n p w : 0 <= n → 0 <= pos p <= len (buf p) → pos p + n <= maxInt →
  reserve n (mkst (Some p) w) =
    (Ok (pos p, pos p + n),
     mkst (Some (set_pos (pos p + n)
                  (set_buf (buf p ++ zeros (pos p + n - len (buf p))) p))) w).
Proof.
  intros Hn Hp Hl. unfold reserve. rewrite bind_receiver. cbn [ptr].
  zif.
  cbn zeta. destruct (len (buf p) <? pos p + n) eqn:E; bools; [done|].
  unfold zeros. replace (Z.to_nat _) with O by lia. cbn. by rewrite app_nil_r.
Qed.

(** Writing a block over the bytes [old] (possibly the zeros a growing buffer
    got): the first [n] go through [fill], the padding is cleared. *)
Lemma writeBlock_ok n fill p w pre old post :
  0 <= n → pos p = len pre → pos p + pad n <= maxInt →
  0 <= pos p <= len (buf p) →
  buf p ++ zeros (pos p + pad n - len (buf p)) = pre ++ old ++ post → len old = pad n →
  (n = 0 → fill [] = []) → length (fill (take (Z.to_nat n) old)) = Z.to_nat n →
  writeBlock n fill (mkst (Some p) w) =
    (Ok tt, mkst (Some (set_buf (pre ++ (fill (take (Z.to_nat n) old) ++ zeros (pad n - n)) ++ post)
                        (set_pos (pos p + pad n) p))) w).
Proof.
  intros Hn Hp Hl Hpos Hb Ho Hf0 Hf. pose proof (pad_bounds n Hn). pose proof (pad_div4 n).
  unfold writeBlock.
  assert (Hpad : 0 <= n <= maxInt - 3).
  { unfold maxInt in *. pose proof (Z.div_mod (pad n) 4). lia. }
  rewrite padSize_ok, bind_lift by done.
  rewrite (bind_ok _ _ _ _ _ (reserve_ok (pad n) p w ltac:(lia) Hpos Hl)).
  rewrite bind_receiver. cbn [ptr]. unfold store. do 3 f_equal.
  unfold set_buf, set_pos; cbn. f_equal. rewrite Hb.
  assert (Hs : slice (pre ++ old ++ post) (pos p) (pos p + n) = take (Z.to_nat n) old).
  { unfold slice. rewrite Hp, Nat2Z.id, drop_app_length.
    replace (Z.to_nat _) with (Z.to_nat n) by lia. rewrite take_app_le; [done|lia]. }
  rewrite Hs. replace (if n >? 0 then _ else _) with (fill (take (Z.to_nat n) old)).
  - apply put_app; [done|]. rewrite length_app, length_zeros. lia.
  - rewrite Z.gtb_ltb. destruct (0 <? n) eqn:E; bools; [done|].
    replace n with 0 in * by lia. rewrite take_0. by apply Hf0.
Qed.

(** The same with [fill] applied also to an empty payload (the code skips the
    call, the theorem's [fill [] = []] makes the two agree). *)
Lemma emits_writeBlock n fill bs : 0 <= n → fill (zeros n) = bs → len bs = n →
  emits (writeBlock n fill) tt (bs ++ zeros (pad n - n)) [].
Proof.
  intros Hn Hf Hl p w Hp Hmax. pose proof (pad_bounds n Hn).
  assert (Ht : take (Z.to_nat n) (zeros (pad n)) = zeros n).
  { unfold zeros. rewrite take_replicate. f_equal. lia. }
  rewrite length_app, length_zeros in Hmax.
  rewrite (writeBlock_ok n fill p w (buf p) (zeros (pad n)) []); rewrite ?Ht, ?Hf.
  - rewrite app_nil_r. unfold p_emit, set_buf, set_pos, set_objects; cbn.
    rewrite app_nil_r. do 4 f_equal. rewrite length_app, length_zeros. lia.
  - done.
  - done.
  - lia.
  - lia.
  - rewrite app_nil_r. do 2 f_equal. lia.
  - rewrite length_zeros. lia.
  - intros ->. revert Hf. by destruct bs.
  - lia.
Qed.

Lemma readBlock_ok n p w pre bs post :
  0 <= n → buf p = pre ++ bs ++ post → pos p = len pre → len (buf p) <= maxInt →
  len bs = pad n →
  readBlock n (mkst (Some p) w) =
    (Ok (take (Z.to_nat n) bs), mkst (Some (set_pos (len pre + len bs) p)) w).
Proof.
  intros Hn Hb Hp Hl Hbs. pose proof (pad_bounds n Hn). pose proof (pad_div4 n).
  assert (Hlen : len (buf p) = len pre + len bs + len post) by (rewrite Hb, !length_app; lia).
  assert (Hpad : 0 <= n <= maxInt - 3).
  { unfold maxInt in *. pose proof (Z.div_mod (pad n) 4). lia. }
  unfold readBlock. rewrite bind_receiver. cbn [ptr].
  rewrite !Z.gtb_ltb, !(proj2 (Z.ltb_ge _ _)) by lia. cbn [orb].
  rewrite padSize_ok, bind_lift by done.
  rewrite Z.gtb_ltb, (proj2 (Z.ltb_ge _ _)) by lia. unfold store, mret, ST_ret.
  unfold mbind, ST_bind. do 2 f_equal; [|do 3 f_equal; lia].
  unfold slice. rewrite Hb, Hp, Nat2Z.id, drop_app_length.
  replace (Z.to_nat _) with (Z.to_nat n) by lia. rewrite take_app_le; [done|lia].
Qed.

Lemma consumes_readBlock n bs padding : 0 <= n → len bs = n → len padding = pad n - n →
  consumes (readBlock n) bs (bs ++ padding) [].
Proof.
  intros Hn Hl Hpd p w pre post Hb Hp Hm _.
  rewrite (readBlock_ok n p w pre (bs ++ padding) post); [|done..|rewrite length_app; lia].
  do 2 f_equal. rewrite take_app_le by lia. apply take_ge. lia.
Qed.
End Facts.
