(* ===== verification/Codec.v ===== *)
(** * Codec: the round-trip interface and the Parcel's scalar and string codecs

    [Codec W B A] is the promise a pair of Parcel operations makes to its
    clients: writing a valid value appends fixed bytes and object entries, and
    reading in front of them returns the value.  The instances below discharge
    it for the scalar, string and byte-slice operations of src/binder/parcel.go;
    the slice, map and dynamic-value codecs build on the interface, not on the
    operations. *)

From stdpp Require Import base list numbers strings pretty.
From Stdlib Require Import Sorting.Sorted.
From S2P Require Import Prelude Errors Unicode Parcel ParcelFacts.

Open Scope Z_scope.

(** ** Object tables laid out in order *)

Definition objs_wf (objs : list parcelObjectRef) (n : Z) : Prop :=
  StronglySorted (λ a b, ref_Offset a < ref_Offset b) objs ∧
  Forall (λ o, 0 <= ref_Offset o < n) objs.

Lemma objs_wf_nil n : objs_wf [] n.
Proof. split; constructor. Qed.

Lemma objs_wf_app o1 n1 o2 n2 : 0 <= n1 → 0 <= n2 → objs_wf o1 n1 → objs_wf o2 n2 →
  objs_wf (o1 ++ (shift_ref n1 <$> o2)) (n1 + n2).
Proof.
  intros Hn1 Hn2 [S1 F1] [S2 F2].
  assert (F2' : Forall (λ o, n1 <= ref_Offset o < n1 + n2) (shift_ref n1 <$> o2)).
  { apply Forall_fmap. eapply Forall_impl; [exact F2|]. intros o ?. cbn in *. lia. }
  split.
  - clear F2. induction S1 as [|a o1 S1 IH Ha].
    + cbn. clear F2' F1. induction S2 as [|b o2 S2 IH Hb]; cbn; constructor; [done|].
      apply Forall_fmap. eapply Forall_impl; [exact Hb|]. intros o ?. cbn in *. lia.
    + inversion F1; subst. cbn. constructor; [by apply IH|]. apply Forall_app. split; [done|].
      eapply Forall_impl; [exact F2'|]. intros o ?. cbn in *. lia.
  - apply Forall_app; split; (eapply Forall_impl; [eassumption|]); intros o ?; cbn in *; lia.
Qed.

Lemma list_find_sorted (l : list parcelObjectRef) o :
  StronglySorted (λ a b, ref_Offset a < ref_Offset b) l → o ∈ l →
  ∃ i, list_find (λ x, ref_Offset x = ref_Offset o) l = Some (i, o).
Proof.
  induction 1 as [|a l Hs IH Ha]; intros Hin; [by apply not_elem_of_nil in Hin|].
  cbn. apply elem_of_cons in Hin as [->|Hin].
  - rewrite decide_True by done. eauto.
  - rewrite Forall_forall in Ha. specialize (Ha o Hin).
    rewrite decide_False by lia. destruct (IH Hin) as [i ->]. cbn. eauto.
Qed.

Section Codec.
Context {W B : Type}.
Implicit Types p : Parcel W B.

(** What a codec promises. *)
Class Codec (A : Type) := {
  c_write : A → PM W B unit;
  c_read : PM W B A;
  c_valid : A → Prop;
  c_bytes : A → list Z;
  c_objs : A → list parcelObjectRef;
  c_write_ok a : c_valid a → emits (c_write a) tt (c_bytes a) (c_objs a);
  c_read_ok a : c_valid a → consumes c_read a (c_bytes a) (c_objs a);
  c_objs_ok a : c_valid a → objs_wf (c_objs a) (len (c_bytes a));
}.

(** A Parcel only appended to: the cursor at the end, every object inside. *)
Definition append_ok p : Prop :=
  pos p = len (buf p) ∧ Forall (λ o, ref_Offset o < len (buf p)) (objects p).

Lemma append_ok_new : append_ok NewParcel.
Proof. split; [done|constructor]. Qed.

Lemma registered_emit p bs objs : append_ok p → objs_wf objs (len bs) →
  registered (p_emit p bs objs) (len (buf p)) objs.
Proof.
  intros [_ Hold] [Hs Hr]. apply Forall_forall. intros o Hin. unfold objectAt. cbn.
  destruct (list_find_sorted _ _ Hs Hin) as [i Hi].
  rewrite list_find_app_r.
  - rewrite list_find_fmap.
    rewrite (list_find_ext _ (λ x, ref_Offset x = ref_Offset o)).
    + rewrite Hi. done.
    + intros x. cbn. lia.
  - apply list_find_None. eapply Forall_impl; [exact Hold|]. intros x ?. cbn.
    rewrite Forall_forall in Hr. specialize (Hr o Hin). cbn in *. lia.
Qed.

(** The generic round trip: append a value to a Parcel, rewind the cursor to
    where it was, read. *)
Lemma codec_roundtrip_at `{Codec A} (a : A) p w :
  c_valid a → append_ok p → len (buf p) + len (c_bytes a) <= maxInt →
  (c_write a;; SetPosition (pos p);; c_read) (mkst (Some p) w) =
    (Ok a, mkst (Some (p_emit p (c_bytes a) (c_objs a))) w).
Proof.
  intros Hv Hp Hl. pose proof Hp as [Hpos _].
  rewrite (bind_ok _ _ _ _ _ (c_write_ok a Hv p w Hpos Hl)).
  assert (Hset : SetPosition (pos p) (mkst (Some (p_emit p (c_bytes a) (c_objs a))) w) =
          (Ok tt, mkst (Some (set_pos (pos p) (p_emit p (c_bytes a) (c_objs a)))) w)).
  { unfold SetPosition. rewrite bind_receiver. cbn [ptr]. rewrite Z.gtb_ltb.
    rewrite !(proj2 (Z.ltb_ge _ _)); [done|..]; cbn; rewrite ?length_app; lia. }
  rewrite (bind_ok _ _ _ _ _ Hset).
  rewrite (c_read_ok a Hv _ w (buf p) []).
  - do 3 f_equal.
  - cbn. by rewrite app_nil_r.
  - done.
  - cbn. rewrite length_app. lia.
  - rewrite Hpos. by apply registered_emit, c_objs_ok.
Qed.
End Codec.
Arguments Codec W B A : clear implicits.

(** ** Pointwise facts on [put] *)

Lemma put_full {A} (l bs : list A) : length bs = length l → put l 0 bs = bs.
Proof.
  intros H. rewrite put_0, H, drop_ge by done.
  by rewrite app_nil_r.
Qed.

Lemma put_zeros_prefix n bs : len bs <= n → put (zeros n) 0 bs = bs ++ zeros (n - len bs).
Proof.
  intros H. rewrite put_0. f_equal. unfold zeros.
  rewrite drop_replicate. f_equal. lia.
Qed.

Lemma put_app_zeros a n bs : len bs <= n →
  put (a ++ zeros n) (len a) bs = a ++ bs ++ zeros (n - len bs).
Proof.
  intros H. replace (zeros n) with (zeros (len bs) ++ zeros (n - len bs)).
  - apply put_app; [done|]. rewrite length_zeros. lia.
  - unfold zeros. rewrite <- replicate_add. f_equal. lia.
Qed.

(** ** Scalar operations *)

Section Scalars.
Context {W B : Type}.

(** A block whose whole payload is overwritten by one integer. *)
Lemma zeros_nil n : n <= 0 → zeros n = [].
Proof. intros H. unfold zeros. by replace (Z.to_nat n) with O by lia. Qed.

Lemma emits_int (k : nat) v : pad (Z.of_nat k) = Z.of_nat k →
  @emits W B unit (writeBlock (Z.of_nat k) (λ dst, put dst 0 (le_bytes k v))) tt (le_bytes k v) [].
Proof.
  intros Hpad.
  assert (H := emits_writeBlock (W := W) (B := B) (Z.of_nat k)
                 (λ dst, put dst 0 (le_bytes k v)) (le_bytes k v)).
  rewrite (zeros_nil (pad _ - _)), app_nil_r in H by lia. apply H; [lia| |by rewrite length_le_bytes].
  apply put_full. rewrite length_zeros, length_le_bytes. lia.
Qed.

Lemma emits_WriteInt32 v : @emits W B unit (WriteInt32 v) tt (le_bytes 4 (u32 v)) [].
Proof. apply (emits_int 4). done. Qed.

Lemma emits_WriteUint32 v : @emits W B unit (WriteUint32 v) tt (le_bytes 4 v) [].
Proof. apply (emits_int 4). done. Qed.

Lemma emits_WriteInt64 v : @emits W B unit (WriteInt64 v) tt (le_bytes 8 (u64 v)) [].
Proof. apply (emits_int 8). done. Qed.

Lemma emits_WriteUint64 v : @emits W B unit (WriteUint64 v) tt (le_bytes 8 v) [].
Proof. apply (emits_int 8). done. Qed.

Lemma consumes_block (k : nat) bs padding : length bs = k →
  len padding = pad (Z.of_nat k) - Z.of_nat k →
  @consumes W B _ (readBlock (Z.of_nat k)) bs (bs ++ padding) [].
Proof. intros H1 H2. apply consumes_readBlock; lia. Qed.

Lemma consumes_int {A} (k : nat) v (f : Z → A) a : pad (Z.of_nat k) = Z.of_nat k →
  f (wrapu (8 * Z.of_nat k) v) = a →
  @consumes W B _ (block ← readBlock (Z.of_nat k); mret (f (le_num block))) a (le_bytes k v) [].
Proof.
  intros Hp Hf. apply consumes_fmap with (f := λ b, f (le_num b)) (a := le_bytes k v).
  - assert (H := consumes_block k (le_bytes k v) []). rewrite app_nil_r in H.
    apply H; [apply length_le_bytes|cbn; lia].
  - by rewrite le_num_bytes.
Qed.

Lemma consumes_ReadInt32 v : in_s 32 v →
  @consumes W B _ ReadInt32 v (le_bytes 4 (u32 v)) [].
Proof.
  intros H. apply (consumes_int 4); [done|]. change (8 * Z.of_nat 4) with 32.
  unfold u32, i32. rewrite !wraps_wrapu by lia. by apply wraps_id.
Qed.

Lemma consumes_ReadUint32 v : in_u 32 v → @consumes W B _ ReadUint32 v (le_bytes 4 v) [].
Proof. intros H. apply (consumes_int 4 v id); [done|]. by apply wrapu_id. Qed.

Lemma consumes_ReadInt64 v : in_s 64 v →
  @consumes W B _ ReadInt64 v (le_bytes 8 (u64 v)) [].
Proof.
  intros H. apply (consumes_int 8); [done|]. change (8 * Z.of_nat 8) with 64.
  unfold u64, i64. rewrite !wraps_wrapu by lia. by apply wraps_id.
Qed.

Lemma consumes_ReadUint64 v : in_u 64 v → @consumes W B _ ReadUint64 v (le_bytes 8 v) [].
Proof. intros H. apply (consumes_int 8 v id); [done|]. by apply wrapu_id. Qed.
End Scalars.

#[export] Hint Resolve emits_WriteInt32 emits_WriteUint32 emits_WriteInt64 emits_WriteUint64
  consumes_ReadInt32 consumes_ReadUint32 consumes_ReadInt64 consumes_ReadUint64 : binder.

(** ** Strings and byte slices *)

Section Text.
Context {W B : Type}.

(** The wire image of a length-prefixed block. *)
Definition prefixed (n : Z) (payload : list Z) : list Z :=
  le_bytes 4 (u32 n) ++ payload ++ zeros (pad (len payload) - len payload).

Definition unit_bytes (us : list Z) : list Z := us ≫= le_bytes 2.

Definition string_bytes (s : string) : list Z :=
  prefixed (len (units_of_string s)) (unit_bytes (units_of_string s) ++ [0; 0]).

Definition string8_bytes (s : string) : list Z :=
  prefixed (len (bytes_of s)) (bytes_of s ++ [0]).

Lemma length_unit_bytes us : len (unit_bytes us) = 2 * len us.
Proof.
  unfold unit_bytes. induction us as [|u us IH]; [done|].
  rewrite bind_cons, length_app, length_le_bytes. cbn [length]. lia.
Qed.

Lemma put_units_app a us n : 2 * len us <= n →
  put_units (len a / 2) us (a ++ zeros n) = a ++ unit_bytes us ++ zeros (n - 2 * len us)
  ∨ len a mod 2 ≠ 0.
Proof.
  revert a n. induction us as [|u us IH]; intros a n Hn.
  { left. cbn. do 2 f_equal. lia. }
  destruct (decide (len a mod 2 = 0)) as [He|]; [|by right]. left.
  assert (Hd : len a / 2 * 2 = len a) by (pose proof (Z.div_mod (len a) 2); lia).
  cbn [put_units]. unfold PutUint16. rewrite Hd. cbn [length] in Hn.
  rewrite put_app_zeros by (rewrite length_le_bytes; lia).
  rewrite length_le_bytes, app_assoc.
  destruct (IH (a ++ le_bytes 2 u) (n - Z.of_nat 2) ltac:(lia)) as [IH'|IH'].
  - replace (len (a ++ le_bytes 2 u) / 2) with (len a / 2 + 1) in IH'.
    + rewrite IH'. unfold unit_bytes. rewrite bind_cons, <- !app_assoc. do 4 f_equal.
      cbn [length]. lia.
    + rewrite length_app, length_le_bytes.
      replace (Z.of_nat (length a + 2)) with (len a + 1 * 2) by lia.
      by rewrite Z.div_add by lia.
  - exfalso. apply IH'. rewrite length_app, length_le_bytes.
    replace (Z.of_nat (length a + 2)) with (len a + 1 * 2) by lia.
    by rewrite Z.mod_add by lia.
Qed.

Lemma fill_units us : let n := len us in
  PutUint16 (n * 2) 0 (put_units 0 us (zeros ((n + 1) * 2))) = unit_bytes us ++ [0; 0].
Proof.
  intros n. destruct (put_units_app [] us ((n + 1) * 2) ltac:(unfold n; lia)) as [H|H]; [|done].
  cbn [app length] in H. change (Z.of_nat 0 / 2) with 0 in H. rewrite H.
  unfold PutUint16. replace (n * 2) with (len (unit_bytes us)) by (rewrite length_unit_bytes; unfold n; lia).
  rewrite put_app_zeros by (cbn; unfold n; lia). rewrite zeros_nil by (cbn; unfold n; lia).
  done.
Qed.

Lemma get_units_bytes us rest : Forall (λ u, 0 <= u < 65536) us →
  get_units (length us) (unit_bytes us ++ rest) = us.
Proof.
  unfold unit_bytes. induction 1 as [|u us Hu _ IH]; [done|].
  rewrite bind_cons, <- app_assoc. cbn [length get_units].
  rewrite take_app_length', drop_app_length', IH by (by rewrite length_le_bytes).
  f_equal. rewrite le_num_bytes. apply wrapu_id. unfold in_u. change (2 ^ (8 * Z.of_nat 2)) with 65536. lia.
Qed.

(** A string [WriteString] writes without error. *)
Definition string_fits (s : string) : Prop := len (units_of_string s) <= maxInt32.

Lemma emits_WriteString s : string_fits s →
  @emits W B unit (WriteString s) tt (string_bytes s) [].
Proof.
  unfold string_fits. intros Hf. unfold WriteString, WriteNullableString.
  set (us := units_of_string s) in *.
  assert (Hm : maxInt32 <= maxInt / 2 - 1) by done. zif.
  unfold string_bytes, prefixed. fold us. apply emits_bind_nil with (a := tt).
  - replace (u32 (len us)) with (u32 (i32 (len us))); [apply emits_WriteInt32|].
    unfold i32. rewrite wraps_id; [done|lia|]. unfold in_s, maxInt32 in *. lia.
  - assert (Hl : len (unit_bytes us ++ [0; 0]) = (len us + 1) * 2)
      by (rewrite length_app, Nat2Z.inj_add, length_unit_bytes; cbn; lia).
    rewrite Hl. apply emits_writeBlock; [lia|apply fill_units|done].
Qed.

Lemma consumes_ReadNullableString s : string_fits s →
  @consumes W B _ ReadNullableString (Some (sanitize s)) (string_bytes s) [].
Proof.
  unfold string_fits. intros Hf. unfold ReadNullableString, string_bytes, prefixed.
  set (us := units_of_string s) in *.
  eapply consumes_bind_nil; [apply consumes_ReadInt32; unfold in_s, maxInt32 in *; lia|].
  assert (Hm : maxInt32 <= maxInt / 2 - 1) by done. zif.
  assert (Hl : len (unit_bytes us ++ [0; 0]) = (len us + 1) * 2)
    by (rewrite length_app, Nat2Z.inj_add, length_unit_bytes; cbn; lia).
  rewrite <- (app_nil_r ((unit_bytes us ++ [0; 0]) ++ _)).
  eapply consumes_bind_nil.
  - apply consumes_readBlock; [lia|done|]. rewrite length_zeros, Hl.
    pose proof (pad_bounds ((len us + 1) * 2)). lia.
  - rewrite <- (app_nil_r [0; 0]), slice_app
      by (rewrite length_unit_bytes; cbn; lia).
    cbn [app negb le_num Z.eqb]. rewrite Nat2Z.id, get_units_bytes by apply units_range.
    cbn. unfold us. rewrite units_valid, string_units_sanitize. apply consumes_ret.
Qed.

Lemma consumes_ReadString s : string_fits s →
  @consumes W B _ ReadString (sanitize s) (string_bytes s) [].
Proof.
  intros Hf. unfold ReadString. rewrite <- (app_nil_r (string_bytes s)).
  eapply consumes_bind_nil; [by apply consumes_ReadNullableString|]. apply consumes_ret.
Qed.

(** A counted block: the length, then the payload padded. *)
Lemma emits_prefixed n fill payload : 0 <= n <= maxInt32 →
  fill (zeros (len payload)) = payload →
  @emits W B unit (WriteInt32 (i32 n);; writeBlock (len payload) fill) tt (prefixed n payload) [].
Proof.
  intros Hn Hf. unfold prefixed. apply emits_bind_nil with (a := tt).
  - unfold i32. rewrite wraps_id; [apply emits_WriteInt32|lia|width].
  - apply emits_writeBlock; [lia|done|done].
Qed.

Lemma consumes_prefixed {A} n payload (k : Z → PM W B A) (h : list Z → PM W B A) a :
  0 <= n <= maxInt32 → k n = (readBlock (len payload) ≫= h) →
  consumes (h payload) a [] [] →
  consumes (ReadInt32 ≫= k) a (prefixed n payload) [].
Proof.
  intros Hn Hk Hh. unfold prefixed. eapply consumes_bind_nil.
  - apply consumes_ReadInt32. width.
  - rewrite Hk, <- (app_nil_r (payload ++ _)). eapply consumes_bind_nil; [|exact Hh].
    apply consumes_readBlock; [lia|done|]. rewrite length_zeros.
    pose proof (pad_bounds (len payload)). lia.
Qed.

(** A string [WriteString8] writes without error. *)
Definition string8_fits (s : string) : Prop :=
  valid_string s = true ∧ len (bytes_of s) <= maxInt32.

Lemma emits_WriteString8 s : string8_fits s →
  @emits W B unit (WriteString8 s) tt (string8_bytes s) [].
Proof.
  intros [Hv Hl]. unfold WriteString8, WriteNullableString8.
  unfold valid_string in Hv. rewrite Hv. cbn [negb].
  assert (Hm : maxInt32 <= maxInt - 1) by done. zif.
  unfold string8_bytes.
  replace (len (bytes_of s) + 1) with (len (bytes_of s ++ [0])) by len_lia.
  apply emits_prefixed; [lia|]. rewrite put_zeros_prefix by len_lia.
  rewrite put_app_zeros by len_lia. rewrite zeros_nil by len_lia. by rewrite app_nil_r.
Qed.

Lemma consumes_ReadNullableString8 s : string8_fits s →
  @consumes W B _ ReadNullableString8 (Some s) (string8_bytes s) [].
Proof.
  intros [Hv Hl]. unfold ReadNullableString8, string8_bytes.
  apply consumes_prefixed with (h := λ block,
    if (len block =? 0) || negb (le_num (slice block (len block - 1) (len block)) =? 0)
    then throw (Errorf_w ErrBadParcelable "unterminated string8")
    else let raw := slice block 0 (len block - 1) in
         if negb (utf8_valid raw)
         then throw (Errorf_w ErrBadParcelable "invalid utf-8 string8 payload")
         else mret (Some (of_bytes raw))); [lia| |].
  - assert (Hm : maxInt32 <= maxInt - 1) by done. zif.
    by replace (len (bytes_of s ++ [0])) with (len (bytes_of s) + 1) by len_lia.
  - cbn zeta. rewrite (eqb_false (len (bytes_of s ++ [0]))) by len_lia.
    rewrite <- (app_nil_r [0]) at 1. rewrite slice_app by len_lia. cbn [le_num].
    rewrite eqb_true by lia. cbn [orb negb].
    rewrite <- (app_nil_l (bytes_of s ++ [0])), slice_app by len_lia.
    unfold valid_string in Hv. rewrite Hv, of_bytes_of. apply consumes_ret.
Qed.

Lemma consumes_ReadString8 s : string8_fits s →
  @consumes W B _ ReadString8 s (string8_bytes s) [].
Proof.
  intros Hf. unfold ReadString8. rewrite <- (app_nil_r (string8_bytes s)).
  eapply consumes_bind_nil; [by apply consumes_ReadNullableString8|]. apply consumes_ret.
Qed.

Lemma emits_WriteBytes bs : len bs <= maxInt32 →
  @emits W B unit (WriteBytes (Some bs)) tt (prefixed (len bs) bs) [].
Proof.
  intros Hl. unfold WriteBytes. zif. apply emits_prefixed; [lia|].
  apply put_full. rewrite length_zeros. lia.
Qed.

Lemma consumes_ReadBytes bs : len bs <= maxInt32 →
  @consumes W B _ ReadBytes (Some bs) (prefixed (len bs) bs) [].
Proof.
  intros Hl. unfold ReadBytes. apply consumes_prefixed with (h := λ block, mret (Some block)).
  - lia.
  - by zif.
  - apply consumes_ret.
Qed.

Lemma emits_null_length : @emits W B unit (WriteInt32 (-1)) tt (le_bytes 4 (u32 (-1))) [].
Proof. apply emits_WriteInt32. Qed.
End Text.
