(* ===== verification/ObjectCodec.v ===== *)
(** * ObjectCodec: the flattened Binder objects on the wire

    What the object writers of src/binder/parcel.go append, and what the object
    readers return in front of it.  A handle, a local node and a null Binder are
    28 bytes (24 of flat object, 4 of stability); a file descriptor is 24. *)

From stdpp Require Import base list numbers strings pretty.
From Stdlib Require Import Sorting.Sorted.
From S2P Require Import Prelude Errors Unicode Parcel ParcelFacts Codec.

Open Scope Z_scope.

Definition handle_flat (h : Z) : list Z :=
  le_bytes 4 flatTypeHandle ++ le_bytes 4 0 ++ le_bytes 4 h ++ zeros 12.

Definition handle_bytes (h stability : Z) : list Z :=
  handle_flat h ++ le_bytes 4 (u32 stability).

Definition local_flat (binder cookie : Z) : list Z :=
  le_bytes 4 flatTypeBinder ++ le_bytes 4 (Z.lor flatBinderFlagAcceptsFDs localBinderSchedBits)
  ++ le_bytes 8 binder ++ le_bytes 8 cookie.

Definition local_bytes (binder cookie stability : Z) : list Z :=
  local_flat binder cookie ++ le_bytes 4 (u32 stability).

Definition null_bytes : list Z :=
  (le_bytes 4 flatTypeBinder ++ zeros 20) ++ le_bytes 4 (u32 StabilityUndeclared).

Definition fd_bytes (fd : Z) : list Z :=
  le_bytes 4 flatTypeFD ++ le_bytes 4 0 ++ le_bytes 4 fd ++ zeros 12.

Definition strong_ref (h stability : Z) : parcelObjectRef :=
  mkRef parcelObjectBinder ObjectStrongBinder 0 flatBinderObjectWireSize h stability.

Lemma length_handle_flat h : length (handle_flat h) = 24%nat.
Proof. unfold handle_flat. by autorewrite with len. Qed.

Lemma length_local_flat b c : length (local_flat b c) = 24%nat.
Proof. unfold local_flat. by autorewrite with len. Qed.

#[export] Hint Rewrite length_handle_flat length_local_flat : len.

(** The fills of the writers on a fresh (zeroed) block. *)
Lemma fill_handle h typ :
  PutUint32 8 h (PutUint32 4 0 (PutUint32 0 typ (zeros 24))) =
  le_bytes 4 typ ++ le_bytes 4 0 ++ le_bytes 4 h ++ zeros 12.
Proof. done. Qed.

Lemma fill_local b c :
  PutUint64 16 c (PutUint64 8 b
    (PutUint32 4 (Z.lor flatBinderFlagAcceptsFDs localBinderSchedBits)
      (PutUint32 0 flatTypeBinder (zeros 24)))) = local_flat b c.
Proof. done. Qed.

(** Reading a field of a flat object. *)
Lemma slice_handle_type h : le_num (slice (handle_flat h) 0 4) = flatTypeHandle.
Proof. done. Qed.

Lemma slice_handle h : in_u 32 h → le_num (slice (handle_flat h) 8 12) = h.
Proof.
  intros Hh. change (slice (handle_flat h) 8 12) with (le_bytes 4 h).
  rewrite le_num_bytes. by apply wrapu_id.
Qed.

Lemma slice_local_type b c : le_num (slice (local_flat b c) 0 4) = flatTypeBinder.
Proof. done. Qed.

Lemma slice_local_ptr b c : in_u 64 b → le_num (slice (local_flat b c) 8 16) = b.
Proof.
  intros Hh. change (slice (local_flat b c) 8 16) with (le_bytes 8 b).
  rewrite le_num_bytes. by apply wrapu_id.
Qed.

Lemma slice_local_cookie b c : in_u 64 c → le_num (slice (local_flat b c) 16 24) = c.
Proof.
  intros Hh. change (slice (local_flat b c) 16 24) with (le_bytes 8 c).
  rewrite le_num_bytes. by apply wrapu_id.
Qed.

Lemma isNull_local b c : in_u 64 b → in_u 64 c →
  isNullBinderBlock (local_flat b c) = (b =? 0) && (c =? 0).
Proof.
  intros Hb Hc. unfold isNullBinderBlock. rewrite length_local_flat, slice_local_type.
  cbn [negb]. by rewrite slice_local_ptr, slice_local_cookie by done.
Qed.

Section Objects.
Context {W B : Type}.
Implicit Types p : Parcel W B.

(** A 24-byte flat object, its stability word and its table entry. *)
Lemma emits_object fill flat stability ref :
  fill (zeros 24) = flat → length flat = 24%nat → ref_Offset ref = 0 →
  @emits W B unit
    (s ← receiver;
     match s with
     | None => throw ErrBadParcelable
     | Some p => writeBlock flatObjectSize fill;; WriteInt32 stability;;
                 appendObject (shift_ref (pos p) ref)
     end) tt (flat ++ le_bytes 4 (u32 stability)) [ref].
Proof.
  intros Hf Hl Ho p w Hp Hm. rewrite bind_receiver. cbn [ptr].
  assert (E : @emits W B unit (writeBlock flatObjectSize fill) tt flat []).
  { assert (E := emits_writeBlock (W := W) (B := B) 24 fill flat).
    rewrite (zeros_nil (pad 24 - 24)), app_nil_r in E by done. apply E; [lia|done|lia]. }
  assert (E2 := emits_bind_nil _ (λ _, WriteInt32 stability) tt tt _ _ E
                  (emits_WriteInt32 stability)).
  rewrite <- (bind_assoc (writeBlock flatObjectSize fill) (λ _, WriteInt32 stability)
                (λ _, appendObject (shift_ref (pos p) ref))).
  rewrite (bind_ok _ _ _ _ _ (E2 p w Hp Hm)).
  unfold appendObject. rewrite bind_receiver. cbn [ptr]. unfold store.
  do 3 f_equal. unfold p_emit, set_objects; cbn. by rewrite app_nil_r, Hp.
Qed.

Lemma emits_WriteStrongBinderHandle h stability : in_s 32 stability →
  @emits W B unit (WriteStrongBinderHandleWithStability h stability) tt
    (handle_bytes h stability) [strong_ref h stability].
Proof.
  intros Hs. unfold WriteStrongBinderHandleWithStability.
  replace (i32 stability) with stability by (unfold i32; by rewrite wraps_id).
  intros p w. apply (emits_object _ _ stability (strong_ref h stability));
    [apply fill_handle|apply length_handle_flat|done].
Qed.

Lemma emits_WriteStrongBinderLocal b c stability : in_s 32 stability → in_u 64 b → in_u 64 c →
  @emits W B unit (WriteStrongBinderLocalWithStability b c stability) tt
    (local_bytes b c stability) [strong_ref 0 stability].
Proof.
  intros Hs Hb Hc. unfold WriteStrongBinderLocalWithStability.
  replace (i32 stability) with stability by (unfold i32; by rewrite wraps_id).
  unfold u64. rewrite !wrapu_id by done.
  intros p w. apply (emits_object _ _ stability (strong_ref 0 stability));
    [apply fill_local|apply length_local_flat|done].
Qed.

Lemma emits_WriteNullStrongBinder :
  @emits W B unit WriteNullStrongBinder tt null_bytes [].
Proof.
  intros p w Hp Hm. unfold WriteNullStrongBinder. rewrite bind_receiver. cbn [ptr].
  apply (emits_bind_nil (W := W) (B := B)) with (a := tt); [| |done|done].
  - assert (E := emits_writeBlock (W := W) (B := B) 24 (PutUint32 0 flatTypeBinder)
                   (le_bytes 4 flatTypeBinder ++ zeros 20)).
    rewrite (zeros_nil (pad 24 - 24)), app_nil_r in E by done. by apply E.
  - apply emits_WriteInt32.
Qed.

(** *** Reading an object back *)

(** The flat block, then the stability word, at a registered entry. *)
Lemma consumes_strong flat stability s0 h h' ref :
  length flat = 24%nat → in_s 32 stability →
  ref = strong_ref h s0 →
  (le_num (slice flat 0 4) = flatTypeHandle ∧ le_num (slice flat 8 12) = h' ∨
   le_num (slice flat 0 4) = flatTypeBinder ∧ isNullBinderBlock flat = false ∧ h' = h) →
  ∀ p w pre post, buf p = pre ++ (flat ++ le_bytes 4 (u32 stability)) ++ post →
    pos p = len pre → len (buf p) <= maxInt → registered p (len pre) [ref] →
    readStrongBinderObject (mkst (Some p) w) =
      (Ok (mkObject ObjectStrongBinder (len pre) flatBinderObjectWireSize h' stability,
           le_num (slice flat 0 4), le_num (slice flat 16 24)),
       mkst (Some (set_pos (len pre + 28) p)) w).
Proof.
  intros Hl Hs -> Hk p w pre post Hb Hp Hm Hr.
  unfold readStrongBinderObject. rewrite bind_receiver. cbn [ptr].
  unfold registered in Hr. rewrite Forall_singleton in Hr. cbn [strong_ref ref_Offset] in Hr.
  rewrite Z.add_0_r, <- Hp in Hr.
  rewrite <- app_assoc in Hb.
  assert (Hbl := readBlock_ok flatObjectSize p w pre flat (le_bytes 4 (u32 stability) ++ post)
                   ltac:(done) Hb Hp Hm ltac:(by rewrite Hl)).
  rewrite (bind_ok _ _ _ _ _ Hbl). rewrite (take_ge flat) by (rewrite Hl; done). cbn zeta.
  assert (Hst : ReadInt32 (mkst (Some (set_pos (len pre + len flat) p)) w) =
                (Ok stability, mkst (Some (set_pos (len pre + 28) p)) w)).
  { rewrite (consumes_ReadInt32 (W := W) (B := B) stability Hs
               (set_pos (len pre + len flat) p) w (pre ++ flat) post).
    - do 3 f_equal. unfold set_pos; cbn. f_equal. rewrite length_app, Hl. lia.
    - cbn. by rewrite Hb, <- !app_assoc.
    - cbn. rewrite length_app. lia.
    - done.
    - constructor. }
  rewrite Hr. cbn [shift_ref ref_ObjectKind ref_Offset ref_Length ref_Handle strong_ref].
  rewrite bool_decide_true by done. cbn [negb].
  destruct Hk as [[-> ->]|(-> & -> & ->)].
  - change (flatTypeHandle =? flatTypeBinder) with false. rewrite Z.eqb_refl.
    rewrite (bind_ok _ _ _ _ _ Hst). by rewrite Hp.
  - rewrite Z.eqb_refl. change (flatTypeBinder =? flatTypeHandle) with false.
    rewrite (bind_ok _ _ _ _ _ Hst). by rewrite Hp.
Qed.

(** In front of a written null Binder. *)
Lemma consumes_null p w pre post : buf p = pre ++ null_bytes ++ post →
  pos p = len pre → len (buf p) <= maxInt →
  readStrongBinderObject (mkst (Some p) w) =
    (Ok (mkObject ObjectNullBinder (len pre) flatBinderObjectWireSize 0 StabilityUndeclared,
         flatTypeBinder, 0), mkst (Some (set_pos (len pre + 28) p)) w).
Proof.
  intros Hb Hp Hm. unfold readStrongBinderObject. rewrite bind_receiver. cbn [ptr].
  unfold null_bytes in Hb. rewrite <- (app_assoc (_ ++ zeros 20)) in Hb.
  rewrite (bind_ok _ _ _ _ _ (readBlock_ok flatObjectSize p w _ _ _ ltac:(done) Hb Hp Hm eq_refl)).
  rewrite take_ge by done. cbn zeta.
  change (le_num (slice _ 0 4)) with flatTypeBinder.
  change (isNullBinderBlock _) with true. rewrite Z.eqb_refl. cbv iota.
  rewrite (bind_ok _ _ _ (mkst (Some (set_pos (len pre + 28) p)) w) StabilityUndeclared).
  - by rewrite Hp.
  - change (len (le_bytes 4 flatTypeBinder ++ zeros 20)) with 24.
    rewrite (consumes_ReadInt32 (W := W) (B := B) StabilityUndeclared ltac:(done)
               (set_pos (len pre + 24) p) w (pre ++ (le_bytes 4 flatTypeBinder ++ zeros 20)) post).
    + do 3 f_equal. unfold set_pos; cbn [pos buf objects]. f_equal. len_lia.
    + cbn [buf set_pos]. by rewrite Hb, <- !app_assoc.
    + cbn [pos set_pos]. len_lia.
    + done.
    + constructor.
Qed.

Lemma consumes_ReadStrongBinderHandle h stability : in_u 32 h → in_s 32 stability →
  @consumes W B _ ReadStrongBinderHandle (Some h) (handle_bytes h stability)
    [strong_ref h stability].
Proof.
  intros Hh Hs p w pre post Hb Hp Hm Hr. unfold ReadStrongBinderHandle.
  rewrite (bind_ok _ _ _ _ _ (consumes_strong (handle_flat h) stability _ h h _ (length_handle_flat h)
             Hs eq_refl (or_introl (conj (slice_handle_type h) (slice_handle h Hh)))
             p w pre post Hb Hp Hm Hr)).
  unfold handle_bytes. by rewrite length_app, length_handle_flat.
Qed.

Lemma consumes_ReadStrongBinderHandle_null :
  @consumes W B _ ReadStrongBinderHandle None null_bytes [].
Proof.
  intros p w pre post Hb Hp Hm _. unfold ReadStrongBinderHandle.
  by rewrite (bind_ok _ _ _ _ _ (consumes_null p w pre post Hb Hp Hm)).
Qed.
End Objects.
