(* ===== verification/Fields.v ===== *)
(** * Fields: every Parcel field type is a codec, and so is every record of them

    The [Codec] instances of the scalar, string, byte-slice, interface-token and
    Binder-handle operations of src/binder/parcel.go, and the codec of a record:
    the sequence of writes and reads that a parcelable or a transaction's
    argument list is.  The round trip of a whole record is the theorem the
    generated code relies on. *)

From stdpp Require Import base list numbers strings pretty.
From Stdlib Require Import Sorting.Sorted.
From S2P Require Import Prelude Errors Unicode Parcel ParcelFacts Codec ObjectCodec.

Open Scope Z_scope.

Section Instances.
Context {W B : Type}.

(** Codecs without object entries. *)
Definition plain_codec {A} (wr : A → PM W B unit) (rd : PM W B A) (valid : A → Prop)
    (bytes : A → list Z)
    (Hw : ∀ a, valid a → emits (wr a) tt (bytes a) [])
    (Hr : ∀ a, valid a → consumes rd a (bytes a) []) : Codec W B A :=
  {| c_write := wr; c_read := rd; c_valid := valid; c_bytes := bytes; c_objs := λ _, [];
     c_write_ok := Hw; c_read_ok := Hr; c_objs_ok := λ a _, objs_wf_nil _ |}.

Definition int32_codec : Codec W B Z :=
  plain_codec WriteInt32 ReadInt32 (in_s 32) (λ v, le_bytes 4 (u32 v))
    (λ v _, emits_WriteInt32 v) consumes_ReadInt32.

Definition uint32_codec : Codec W B Z :=
  plain_codec WriteUint32 ReadUint32 (in_u 32) (le_bytes 4)
    (λ v _, emits_WriteUint32 v) consumes_ReadUint32.

Definition int64_codec : Codec W B Z :=
  plain_codec WriteInt64 ReadInt64 (in_s 64) (λ v, le_bytes 8 (u64 v))
    (λ v _, emits_WriteInt64 v) consumes_ReadInt64.

Definition uint64_codec : Codec W B Z :=
  plain_codec WriteUint64 ReadUint64 (in_u 64) (le_bytes 8)
    (λ v _, emits_WriteUint64 v) consumes_ReadUint64.

Definition float32_codec : Codec W B Z :=
  plain_codec WriteFloat32 ReadFloat32 (in_u 32) (le_bytes 4)
    (λ v _, emits_WriteUint32 v) consumes_ReadUint32.

Definition float64_codec : Codec W B Z :=
  plain_codec WriteFloat64 ReadFloat64 (in_u 64) (le_bytes 8)
    (λ v _, emits_WriteUint64 v) consumes_ReadUint64.

Lemma emits_WriteBool b : @emits W B unit (WriteBool b) tt (le_bytes 4 (Z.b2z b)) [].
Proof. destruct b; apply emits_WriteInt32. Qed.

Lemma consumes_ReadBool b : @consumes W B _ ReadBool b (le_bytes 4 (Z.b2z b)) [].
Proof.
  unfold ReadBool. apply consumes_fmap with (f := λ v, negb (v =? 0)) (a := Z.b2z b); [|by destruct b].
  replace (Z.b2z b) with (u32 (Z.b2z b)) at 2 by (by destruct b).
  apply consumes_ReadInt32. by destruct b.
Qed.

Definition bool_codec : Codec W B bool :=
  plain_codec WriteBool ReadBool (λ _, True) (λ b, le_bytes 4 (Z.b2z b))
    (λ v _, emits_WriteBool v) (λ v _, consumes_ReadBool v).

(** The one- and two-byte scalars are padded to four bytes. *)
Lemma emits_WriteByte v : @emits W B unit (WriteByte v) tt ([u8 v] ++ zeros 3) [].
Proof. apply (emits_writeBlock 1 (λ dst, put dst 0 [u8 v])); [lia|done|done]. Qed.

Lemma consumes_ReadByte v : in_s 8 v → @consumes W B _ ReadByte v ([u8 v] ++ zeros 3) [].
Proof.
  intros H. apply consumes_fmap with (f := λ b, i8 (le_num b)) (a := [u8 v]).
  - by apply (consumes_readBlock 1).
  - cbn [le_num]. rewrite Z.mul_0_r, Z.add_0_r. unfold i8, u8. by apply i_of_u.
Qed.

Lemma emits_WriteChar v : @emits W B unit (WriteChar v) tt (le_bytes 2 v ++ zeros 2) [].
Proof. apply (emits_writeBlock 2 (PutUint16 0 v)); [lia|done|done]. Qed.

Lemma consumes_ReadChar v : in_u 16 v → @consumes W B _ ReadChar v (le_bytes 2 v ++ zeros 2) [].
Proof.
  intros H. apply consumes_fmap with (f := le_num) (a := le_bytes 2 v).
  - by apply (consumes_readBlock 2).
  - rewrite le_num_bytes. by apply wrapu_id.
Qed.

Definition byte_codec : Codec W B Z :=
  plain_codec WriteByte ReadByte (in_s 8) _ (λ v _, emits_WriteByte v) consumes_ReadByte.

Definition char_codec : Codec W B Z :=
  plain_codec WriteChar ReadChar (in_u 16) _ (λ v _, emits_WriteChar v) consumes_ReadChar.

(** *** Text *)

(** A UTF-16 string that is valid UTF-8 (what the writer does not repair). *)
Definition string_ok (s : string) : Prop := valid_string s = true ∧ string_fits s.

Lemma consumes_ReadString_id s : string_ok s →
  @consumes W B _ ReadString s (string_bytes s) [].
Proof.
  intros [Hv Hf]. rewrite <- (sanitize_valid_id s Hv) at 1. by apply consumes_ReadString.
Qed.

Definition string_codec : Codec W B string :=
  plain_codec WriteString ReadString string_ok string_bytes
    (λ s H, emits_WriteString s (proj2 H)) consumes_ReadString_id.

(** Nullable values share the length word [-1] for nil. *)
Definition opt_bytes {A} (f : A → list Z) (o : option A) : list Z :=
  match o with None => le_bytes 4 (u32 (-1)) | Some a => f a end.

Definition opt_ok {A} (P : A → Prop) (o : option A) : Prop :=
  match o with None => True | Some a => P a end.

Lemma emits_WriteNullableString o : opt_ok string_ok o →
  @emits W B unit (WriteNullableString o) tt (opt_bytes string_bytes o) [].
Proof. destruct o as [s|]; cbn; [intros [_ H]; by apply emits_WriteString|intros _; apply emits_WriteInt32]. Qed.

(** A reader that inspects the length word first, in front of [-1]. *)
Lemma consumes_null_length {A} (k : Z → PM W B (option A)) : k (-1) = mret None →
  consumes (ReadInt32 ≫= k) None (le_bytes 4 (u32 (-1))) [].
Proof.
  intros Hk. rewrite <- (app_nil_r (le_bytes 4 _)).
  eapply consumes_bind_nil; [by apply consumes_ReadInt32|]. rewrite Hk. apply consumes_ret.
Qed.

Lemma consumes_nullable_string o : opt_ok string_ok o →
  @consumes W B _ ReadNullableString o (opt_bytes string_bytes o) [].
Proof.
  destruct o as [s|]; cbn; intros H; [|by apply consumes_null_length].
  destruct H as [Hv Hf]. rewrite <- (sanitize_valid_id s Hv) at 1.
  by apply consumes_ReadNullableString.
Qed.

Definition nullable_string_codec : Codec W B (option string) :=
  plain_codec WriteNullableString ReadNullableString (opt_ok string_ok) _
    emits_WriteNullableString consumes_nullable_string.

Definition string8_codec : Codec W B string :=
  plain_codec WriteString8 ReadString8 string8_fits string8_bytes
    emits_WriteString8 consumes_ReadString8.

Lemma emits_WriteNullableString8 o : opt_ok string8_fits o →
  @emits W B unit (WriteNullableString8 o) tt (opt_bytes string8_bytes o) [].
Proof. destruct o as [s|]; cbn; [apply emits_WriteString8|intros _; apply emits_WriteInt32]. Qed.

Lemma consumes_nullable_string8 o : opt_ok string8_fits o →
  @consumes W B _ ReadNullableString8 o (opt_bytes string8_bytes o) [].
Proof.
  destruct o as [s|]; cbn; [apply consumes_ReadNullableString8|].
  intros _. by apply consumes_null_length.
Qed.

Definition nullable_string8_codec : Codec W B (option string) :=
  plain_codec WriteNullableString8 ReadNullableString8 (opt_ok string8_fits) _
    emits_WriteNullableString8 consumes_nullable_string8.

Definition blob_ok (bs : list Z) : Prop := len bs <= maxInt32.
Definition blob_bytes (bs : list Z) : list Z := prefixed (len bs) bs.

Lemma emits_blob o : opt_ok blob_ok o →
  @emits W B unit (WriteBytes o) tt (opt_bytes blob_bytes o) [].
Proof. destruct o as [s|]; cbn; [apply emits_WriteBytes|intros _; apply emits_WriteInt32]. Qed.

Lemma consumes_blob o : opt_ok blob_ok o →
  @consumes W B _ ReadBytes o (opt_bytes blob_bytes o) [].
Proof.
  destruct o as [s|]; cbn; [apply consumes_ReadBytes|].
  intros _. by apply consumes_null_length.
Qed.

Definition bytes_codec : Codec W B (option (list Z)) :=
  plain_codec WriteBytes ReadBytes (opt_ok blob_ok) _ emits_blob consumes_blob.

(** *** Interface tokens: strict-mode word, work source, "SYST", descriptor *)

Definition token_bytes (s : string) : list Z :=
  le_bytes 4 (2 ^ 31) ++ le_bytes 4 (u32 (-1)) ++ le_bytes 4 tokenHeader ++ string_bytes s.

Lemma emits_WriteInterfaceToken s : string_ok s →
  @emits W B unit (WriteInterfaceToken s) tt (token_bytes s) [].
Proof.
  intros [_ H]. unfold WriteInterfaceToken, token_bytes.
  eapply emits_bind_nil; [apply (emits_WriteUint32 (2 ^ 31))|].
  eapply emits_bind_nil; [apply emits_WriteInt32|].
  eapply emits_bind_nil; [apply emits_WriteUint32|]. by apply emits_WriteString.
Qed.

Lemma consumes_ReadInterfaceToken s : string_ok s →
  @consumes W B _ ReadInterfaceToken s (token_bytes s) [].
Proof.
  intros H. unfold ReadInterfaceToken, token_bytes.
  eapply consumes_bind_nil; [by apply consumes_ReadUint32|].
  eapply consumes_bind_nil; [by apply consumes_ReadInt32|].
  eapply consumes_bind_nil; [by apply consumes_ReadUint32|].
  rewrite Z.eqb_refl. cbn [negb]. by apply consumes_ReadString_id.
Qed.

Definition token_codec : Codec W B string :=
  plain_codec WriteInterfaceToken ReadInterfaceToken string_ok _
    emits_WriteInterfaceToken consumes_ReadInterfaceToken.

(** *** Binder handles, nil included *)

Definition write_handle (o : option Z) : PM W B unit :=
  match o with None => WriteNullStrongBinder | Some h => WriteStrongBinderHandle h end.

Definition handle_wire (o : option Z) : list Z :=
  match o with None => null_bytes | Some h => handle_bytes h systemStabilityLevel end.

Definition handle_refs (o : option Z) : list parcelObjectRef :=
  match o with None => [] | Some h => [strong_ref h systemStabilityLevel] end.

Program Definition handle_codec : Codec W B (option Z) :=
  {| c_write := write_handle; c_read := ReadStrongBinderHandle; c_valid := opt_ok (in_u 32);
     c_bytes := handle_wire; c_objs := handle_refs |}.
Next Obligation.
  intros [h|] H; [by apply emits_WriteStrongBinderHandle|apply emits_WriteNullStrongBinder].
Qed.
Next Obligation.
  intros [h|] H; [by apply consumes_ReadStrongBinderHandle|].
  apply consumes_ReadStrongBinderHandle_null.
Qed.
Next Obligation.
  intros [h|] _; [|apply objs_wf_nil].
  split; cbn; repeat constructor; cbn; rewrite ?length_app, ?length_handle_flat; lia.
Qed.

(** ** Records *)

Program Definition unit_codec : Codec W B unit :=
  plain_codec (λ _, mret tt) (mret tt) (λ _, True) (λ _, []) _ _.
Next Obligation. intros [] _. apply emits_ret. Qed.
Next Obligation. intros [] _. apply consumes_ret. Qed.

(** One value after another: the second's object offsets are shifted. *)
Program Definition pair_codec {A C} (ca : Codec W B A) (cc : Codec W B C) : Codec W B (A * C) :=
  {| c_write := λ x, c_write x.1;; c_write x.2;
     c_read := (a ← c_read; c ← c_read; mret (a, c));
     c_valid := λ x, c_valid x.1 ∧ c_valid x.2;
     c_bytes := λ x, c_bytes x.1 ++ c_bytes x.2;
     c_objs := λ x, c_objs x.1 ++ (shift_ref (len (c_bytes x.1)) <$> c_objs x.2) |}.
Next Obligation.
  intros A C ca cc [a c] [Ha Hc]. eapply emits_bind; by apply c_write_ok.
Qed.
Next Obligation.
  intros A C ca cc [a c] [Ha Hc]. eapply consumes_bind; [by apply c_read_ok|].
  apply consumes_fmap with (f := λ y, (a, y)) (a := c); [by apply c_read_ok|done].
Qed.
Next Obligation.
  intros A C ca cc [a c] [Ha Hc]. cbn. rewrite length_app, Nat2Z.inj_add.
  apply objs_wf_app; [lia|lia|by apply c_objs_ok|by apply c_objs_ok].
Qed.
End Instances.

(** The field types of a record. *)
Inductive field :=
| FInt32 | FUint32 | FInt64 | FUint64 | FFloat32 | FFloat64 | FBool | FByte | FChar
| FString | FNullableString | FString8 | FNullableString8 | FBytes | FToken | FHandle.

Definition field_type (f : field) : Type :=
  match f with
  | FInt32 | FUint32 | FInt64 | FUint64 | FFloat32 | FFloat64 | FByte | FChar => Z
  | FBool => bool
  | FString | FString8 | FToken => string
  | FNullableString | FNullableString8 => option string
  | FBytes => option (list Z)
  | FHandle => option Z
  end.

Definition field_codec {W B} (f : field) : Codec W B (field_type f) :=
  match f with
  | FInt32 => int32_codec | FUint32 => uint32_codec
  | FInt64 => int64_codec | FUint64 => uint64_codec
  | FFloat32 => float32_codec | FFloat64 => float64_codec
  | FBool => bool_codec | FByte => byte_codec | FChar => char_codec
  | FString => string_codec | FNullableString => nullable_string_codec
  | FString8 => string8_codec | FNullableString8 => nullable_string8_codec
  | FBytes => bytes_codec | FToken => token_codec | FHandle => handle_codec
  end.

Fixpoint record_type (fs : list field) : Type :=
  match fs with
  | [] => unit
  | f :: fs' => (field_type f * record_type fs')%type
  end.

Fixpoint record_codec {W B} (fs : list field) : Codec W B (record_type fs) :=
  match fs with
  | [] => unit_codec
  | f :: fs' => pair_codec (field_codec f) (record_codec fs')
  end.

Definition write_record {W B} (fs : list field) : record_type fs → PM W B unit :=
  @c_write _ _ _ (record_codec fs).
Definition read_record {W B} (fs : list field) : PM W B (record_type fs) :=
  @c_read _ _ _ (record_codec fs).
Definition record_ok (W B : Type) (fs : list field) : record_type fs → Prop :=
  @c_valid _ _ _ (@record_codec W B fs).
Definition record_wire (W B : Type) (fs : list field) : record_type fs → list Z :=
  @c_bytes _ _ _ (@record_codec W B fs).
Definition record_objects (W B : Type) (fs : list field) : record_type fs → list parcelObjectRef :=
  @c_objs _ _ _ (@record_codec W B fs).

(** C2: whatever fields a record has, in whatever order (scalars of every width,
    UTF-16 and UTF-8 strings, byte slices, interface tokens, Binder handles),
    writing its values to a Parcel that was only appended to, moving the cursor
    back and reading the fields in the same order returns the same values,
    leaves the cursor at the end, and adds exactly the record's bytes and object
    table entries. *)
Theorem record_roundtrip W B (fs : list field) (v : record_type fs) (p : Parcel W B) (w : W) :
  record_ok W B fs v → append_ok p → len (buf p) + len (record_wire W B fs v) <= maxInt →
  (write_record fs v;; SetPosition (pos p);; read_record fs) (mkst (Some p) w) =
    (Ok v, mkst (Some (p_emit p (record_wire W B fs v) (record_objects W B fs v))) w).
Proof. apply (@codec_roundtrip_at W B _ (record_codec fs) v p w). Qed.

Definition demo_fields : list field := [FInt32; FHandle; FString; FBool; FBytes; FHandle].
Definition demo_values : record_type demo_fields :=
  (-7, (Some 5, ("h", (true, (Some [1; 2; 3], (None, tt)))))).

Lemma record_roundtrip_witness :
  (write_record demo_fields demo_values;; SetPosition 0;; read_record demo_fields)
    (mkst (Some (@NewParcel unit unit)) tt) =
  (Ok demo_values,
   mkst (Some (p_emit NewParcel (record_wire unit unit demo_fields demo_values)
                 (record_objects unit unit demo_fields demo_values))) tt).
Proof.
  apply (record_roundtrip unit unit demo_fields demo_values NewParcel tt).
  - vm_compute. repeat split; discriminate.
  - split; [reflexivity|constructor].
  - vm_compute. discriminate.
Defined.
