(* ===== verification/ParcelInv.v ===== *)
(** * ParcelInv: the Parcel's well-formedness invariant

    Whatever operations run on a Parcel, in whatever order and with whatever
    outcome, its cursor stays inside the buffer, the buffer holds bytes and never
    shrinks, every object table entry points at 24 bytes of the buffer, and no
    operation panics.  With aligned cursor moves, everything stays 4-byte
    aligned, as the Binder driver requires of object offsets. *)

From stdpp Require Import base list numbers strings pretty.
From S2P Require Import Prelude Errors Unicode Parcel ParcelFacts.

Open Scope Z_scope.

Definition al4 (al : bool) (n : Z) : Prop := al = true → n mod 4 = 0.

Lemma al4_add al a b : al4 al a → al4 al b → al4 al (a + b).
Proof. intros Ha Hb H. rewrite Z.add_mod, Ha, Hb by done. done. Qed.

Lemma al4_pad al n : al4 al (pad n).
Proof. intros _. apply pad_div4. Qed.

#[export] Hint Resolve al4_add al4_pad : binder.

Section Inv.
Context {W B : Type}.
Context (al : bool).
Implicit Types p : Parcel W B.

(** An entry of the object table covers a flat object inside the buffer. *)
Definition entry_ok (n : Z) (o : parcelObjectRef) : Prop :=
  0 <= ref_Offset o ∧ ref_Offset o + flatObjectSize <= n ∧ al4 al (ref_Offset o).

Record parcel_wf p : Prop := {
  wf_pos : 0 <= pos p <= len (buf p);
  wf_max : len (buf p) <= maxInt;
  wf_bytes : Forall is_byte (buf p);
  wf_objects : Forall (entry_ok (len (buf p))) (objects p);
  wf_al_pos : al4 al (pos p);
  wf_al_len : al4 al (len (buf p));
}.

Lemma parcel_wf_new : parcel_wf NewParcel.
Proof. split; cbn; try done; try constructor. Qed.

(** A Parcel over received bytes, the cursor at their start. *)
Lemma parcel_wf_raw b : Forall is_byte b → len b <= maxInt → al4 al (len b) →
  parcel_wf (set_buf b NewParcel).
Proof. intros. split; cbn; try done; lia. Qed.

(** How a computation started on [p] ends: not in a panic, in a well-formed
    Parcel whose buffer did not shrink, a result satisfying [Q]. *)
Definition outcome {A} (p : Parcel W B) (Q : A → Parcel W B → Prop)
    (x : res A * pst W B) : Prop :=
  ∃ p', ptr x.2 = Some p' ∧ parcel_wf p' ∧ len (buf p) <= len (buf p') ∧
    match x.1 with Ok a => Q a p' | Err _ => True | Panic _ => False end.

Definition safe {A} (P : Parcel W B → Prop) (m : PM W B A)
    (Q : Parcel W B → A → Parcel W B → Prop) : Prop :=
  ∀ p w, parcel_wf p → P p → outcome p (Q p) (m (mkst (Some p) w)).

Definition safe_ {A} (m : PM W B A) : Prop := safe (λ _, True) m (λ _ _ _, True).

Lemma outcome_throw {A} p w e (Q : A → Parcel W B → Prop) : parcel_wf p →
  outcome p Q (throw e (mkst (Some p) w)).
Proof. intros Hp. exists p. split_and!; [done|done|cbn; lia|done]. Qed.

Lemma outcome_ok {A} p p' w a (Q : A → Parcel W B → Prop) : parcel_wf p' →
  len (buf p) <= len (buf p') → Q a p' → outcome p Q (Ok a, mkst (Some p') w).
Proof. intros. exists p'. by split_and!. Qed.

Hint Resolve outcome_throw outcome_ok : binder.

Lemma safe_ret {A} (a : A) P (Q : Parcel W B → A → Parcel W B → Prop) :
  (∀ p, parcel_wf p → P p → Q p a p) → safe P (mret a) Q.
Proof. intros HQ p w Hp HP. apply outcome_ok; [done|lia|by apply HQ]. Qed.

Lemma safe_throw {A} e P Q : safe P (throw e : PM W B A) Q.
Proof. intros p w Hp _. by apply outcome_throw. Qed.

Lemma safe_weaken {A} (P P' : Parcel W B → Prop) (m : PM W B A)
    (Q Q' : Parcel W B → A → Parcel W B → Prop) :
  safe P m Q → (∀ p, P' p → P p) → (∀ p a p', P' p → Q p a p' → Q' p a p') → safe P' m Q'.
Proof.
  intros H HP HQ p w Hp Hp'. destruct (H p w Hp (HP p Hp')) as (p' & ? & ? & ? & Hr). exists p'.
  split_and!; try done. revert Hr. case_match; auto.
Qed.

(** Sequencing: the continuation starts where the first part may end. *)
Lemma safe_bind {A C} P (m : PM W B A) (k : A → PM W B C)
    (Q : Parcel W B → A → Parcel W B → Prop) (R : Parcel W B → C → Parcel W B → Prop) :
  safe P m Q →
  (∀ p0 a, parcel_wf p0 → P p0 →
     safe (λ p1, len (buf p0) <= len (buf p1) ∧ Q p0 a p1) (k a) (λ _ c p2, R p0 c p2)) →
  safe P (m ≫= k) R.
Proof.
  intros Hm Hk p w Hp HP. destruct (Hm p w Hp HP) as (p1 & Ho & Hp1 & Hl & HQ).
  unfold mbind, ST_bind. destruct (m _) as [[a|e|y] [o w']]; cbn in Ho, HQ; subst o.
  - destruct (Hk p a Hp HP p1 w' Hp1 (conj Hl HQ)) as (p2 & ? & ? & ? & Hr). exists p2.
    split_and!; try done; lia.
  - by exists p1.
  - done.
Qed.

Lemma safe_of_ {A} P (m : PM W B A) : safe_ m → safe P m (λ _ _ _, True).
Proof. intros H. eapply safe_weaken; [exact H|done|done]. Qed.

(** The common case: nothing to remember. *)
Lemma safe_bind_ {A C} (m : PM W B A) (k : A → PM W B C) :
  safe_ m → (∀ a, safe_ (k a)) → safe_ (m ≫= k).
Proof. intros Hm Hk. eapply safe_bind; [exact Hm|]. intros p0 a _ _. by apply safe_of_. Qed.

Lemma safe_receiver {A} P (k : option (Parcel W B) → PM W B A) Q :
  (∀ p w, parcel_wf p → P p → outcome p (Q p) (k (Some p) (mkst (Some p) w))) →
  safe P (receiver ≫= k) Q.
Proof. intros H p w Hp HP. rewrite bind_receiver. by apply H. Qed.

(** Inside a handler, on the Parcel it looked at. *)
Lemma outcome_safe {A} p w (m : PM W B A) (Q : A → Parcel W B → Prop) : parcel_wf p →
  safe (λ p0, p0 = p) m (λ _, Q) → outcome p Q (m (mkst (Some p) w)).
Proof. intros Hp H. by apply H. Qed.

Lemma safe_lift_padSize {A} n P (k : Z → PM W B A) Q :
  (0 <= n <= maxInt - 3 → safe P (k (pad n)) Q) → safe P (lift (padSize n) ≫= k) Q.
Proof.
  intros H p w Hp HP. destruct (padSize n) as [m|e|y] eqn:E.
  - apply padSize_inv in E as [Hn ->]. rewrite bind_lift. by apply H.
  - by apply outcome_throw.
  - unfold padSize in E. repeat case_match; done.
Qed.

Lemma entries_grow n m os : n <= m → Forall (entry_ok n) os → Forall (entry_ok m) os.
Proof. intros H F. eapply Forall_impl; [exact F|]. intros o (? & ? & ?). split_and!; [done|lia|done]. Qed.

Lemma wf_set_pos p n : parcel_wf p → 0 <= n <= len (buf p) → al4 al n → parcel_wf (set_pos n p).
Proof. intros [] ? ?. by split. Qed.

Lemma safe_SetPosition n : al4 al n → safe_ (SetPosition n).
Proof.
  intros Hn. apply safe_receiver. intros p w Hp _.
  case_match; [by apply outcome_throw|]. bools.
  apply outcome_ok; [apply wf_set_pos; by auto with lia|cbn; lia|done].
Qed.

Lemma wf_grow p n : parcel_wf p → 0 <= n → pos p + n <= maxInt → al4 al n →
  parcel_wf (set_pos (pos p + n) (set_buf
    (if pos p + n >? len (buf p) then buf p ++ zeros (pos p + n - len (buf p)) else buf p) p)) ∧
  pos p + n <= len (if pos p + n >? len (buf p)
                    then buf p ++ zeros (pos p + n - len (buf p)) else buf p) ∧
  len (buf p) <= len (if pos p + n >? len (buf p)
                      then buf p ++ zeros (pos p + n - len (buf p)) else buf p).
Proof.
  intros [[Hp1 Hp2] Hm Hb Ho Ha Hl] Hn Hmax Hal.
  case_match; bools; (split; [|len_lia]); split; cbn [buf pos objects set_pos set_buf];
    try done; try len_lia; auto with binder.
  - apply Forall_app; auto with binder.
  - eapply entries_grow; [|done]. len_lia.
  - replace (len (buf p ++ _)) with (pos p + n) by len_lia. auto with binder.
Qed.

(** The reserved window lies inside the grown buffer. *)
Lemma safe_reserve n : al4 al n →
  safe (λ _, True) (reserve n) (λ p x p', x = (pos p, pos p + n) ∧ 0 <= n ∧ 0 <= pos p ∧
                              pos p + n <= len (buf p') ∧ pos p' = pos p + n).
Proof.
  intros Hn. apply safe_receiver. intros p w Hp _. cbn zeta.
  do 3 (case_match; [by apply outcome_throw|]). bools.
  destruct (wf_grow p n) as (Hw & Hr & Hg); [done|lia|lia|done|].
  apply outcome_ok; [done|done|]. destruct Hp. cbn. split_and!; [done|lia|lia|done|done].
Qed.

Definition fill_ok (n : Z) (fill : list Z → list Z) : Prop :=
  ∀ l, len l = n → Forall is_byte l → len (fill l) = n ∧ Forall is_byte (fill l).

Lemma wf_put p o bs : parcel_wf p → 0 <= o → o + len bs <= len (buf p) → Forall is_byte bs →
  parcel_wf (set_buf (put (buf p) o bs) p).
Proof.
  intros [] Ho Hl Hb. assert (E : length (put (buf p) o bs) = length (buf p)) by (by apply length_put).
  split; cbn; rewrite ?E; auto with binder.
Qed.

Lemma safe_writeBlock n fill : fill_ok n fill →
  safe (λ _, True) (writeBlock n fill)
    (λ p _ p', pos p + n <= len (buf p') ∧ pos p' = pos p + pad n).
Proof.
  intros Hf. apply safe_lift_padSize. intros Hn. pose proof (pad_bounds n).
  eapply safe_bind; [apply safe_reserve; auto with binder|]. intros p0 [st en] Hp0 _.
  apply safe_receiver. intros p w Hp (Hg & [= -> ->] & Hn' & Hpos & Hr & Hend).
  set (payload := slice (buf p) (pos p0) (pos p0 + n)).
  assert (Hl : len payload = n) by (unfold payload; rewrite length_slice; lia).
  destruct (Hf payload Hl) as [Hl' Hb']; [apply Forall_slice, Hp|].
  set (payload' := if n >? 0 then fill payload else payload).
  assert (Hl2 : len (payload' ++ zeros (pad n - n)) = pad n).
  { unfold payload'. rewrite length_app, length_zeros. case_match; lia. }
  assert (Hb2 : Forall is_byte (payload' ++ zeros (pad n - n))).
  { apply Forall_app. split; [|apply zeros_byte].
    unfold payload'. case_match; [done|]. apply Forall_slice, Hp. }
  assert (E : len (put (buf p) (pos p0) (payload' ++ zeros (pad n - n))) = len (buf p))
    by (rewrite length_put; lia).
  apply (outcome_ok p (set_buf (put (buf p) (pos p0) (payload' ++ zeros (pad n - n))) p)).
  - apply wf_put; [done|lia|lia|done].
  - cbn [buf set_buf]. lia.
  - cbn [buf pos set_buf]. lia.
Qed.

Lemma safe_readBlock n :
  safe (λ _, True) (readBlock n)
    (λ p bs p', len bs = n ∧ pos p' = pos p + pad n ∧ buf p' = buf p ∧ objects p' = objects p).
Proof.
  apply safe_receiver. intros p w Hp _. do 2 (case_match; [by apply outcome_throw|]). bools.
  apply outcome_safe; [done|]. apply safe_lift_padSize.
  intros Hn p0 w0 _ ->. pose proof (pad_bounds n).
  case_match; [by apply outcome_throw|]. bools.
  apply outcome_ok; [|cbn; lia|cbn [pos buf objects set_pos]; split_and!;
    [rewrite length_slice by lia; lia|done|done|done]].
  apply wf_set_pos; [done|lia|]. destruct Hp. auto with binder.
Qed.

(** *** Fills *)

Lemma fill_put n o bs : 0 <= o → o + len bs <= n → Forall is_byte bs →
  fill_ok n (λ dst, put dst o bs).
Proof. intros Ho Hb Hbs l Hl Hf. split; [rewrite length_put; lia|auto with binder]. Qed.

Lemma fill_step n o bs g : 0 <= o → o + len bs <= n → Forall is_byte bs → fill_ok n g →
  fill_ok n (λ dst, put (g dst) o bs).
Proof. intros Ho Hb Hbs Hg l Hl Hf. destruct (Hg l Hl Hf). by apply (fill_put n o bs). Qed.

Lemma fill_id n : fill_ok n (λ dst, dst).
Proof. by intros l. Qed.

Lemma fill_put_units n i us : 0 <= i → (i + len us) * 2 <= n → fill_ok n (put_units i us).
Proof.
  revert i. induction us as [|u us IH]; intros i Hi Hn l Hl Hb; [done|].
  cbn [put_units]. cbn [length] in Hn. apply IH; [lia|lia| |].
  - unfold PutUint16. rewrite length_put; [done|lia|]. rewrite length_le_bytes. lia.
  - apply Forall_put; auto with binder.
Qed.

(** *** Every operation *)

Lemma safe_write_ n fill : fill_ok n fill → safe_ (writeBlock n fill).
Proof. intros H. eapply safe_weaken; [by apply safe_writeBlock|done|done]. Qed.

Lemma safe_read_ n : safe_ (readBlock n).
Proof. eapply safe_weaken; [apply safe_readBlock|done|done]. Qed.

Lemma safe_ret_ {A} (a : A) : safe_ (mret a).
Proof. by apply safe_ret. Qed.

Lemma safe_throw_ {A} e : safe_ (throw e : PM W B A).
Proof. apply safe_throw. Qed.

Lemma safe_if {A} (b : bool) (m1 m2 : PM W B A) : safe_ m1 → safe_ m2 → safe_ (if b then m1 else m2).
Proof. by destruct b. Qed.
End Inv.

#[export] Hint Resolve safe_write_ safe_read_ safe_ret_ safe_throw_ safe_if
  fill_id : binder.

(** A write block whose fill is a chain of [put]s of encoded words. *)
Ltac fill_tac :=
  unfold PutUint16, PutUint32, PutUint64, flatObjectSize;
  repeat first
    [ apply fill_put; [lia|rewrite ?length_le_bytes; lia|auto with binder]
    | apply fill_step; [lia|rewrite ?length_le_bytes; lia|auto with binder|] ].

(** A handler made of reads, tests and errors. *)
Ltac safe_tac :=
  repeat match goal with
  | |- safe_ _ (_ ≫= _) => apply safe_bind_; [|intros ?]
  | |- safe_ _ (mret _) => apply safe_ret_
  | |- safe_ _ (throw _) => apply safe_throw_
  | |- safe_ _ (readBlock _) => apply safe_read_
  | |- safe_ _ _ => progress auto with binder
  | |- safe_ _ (match _ with _ => _ end) => case_match
  end.

Section Ops.
Context {W B : Type} (al : bool).
Abbreviation ok := (@safe_ W B al _).

Lemma safe_word v : ok (WriteInt32 v).
Proof. apply safe_write_. fill_tac. Qed.
Lemma safe_WriteUint32 v : ok (WriteUint32 v).
Proof. apply safe_write_. fill_tac. Qed.
Lemma safe_WriteInt64 v : ok (WriteInt64 v).
Proof. apply safe_write_. fill_tac. Qed.
Lemma safe_WriteUint64 v : ok (WriteUint64 v).
Proof. apply safe_write_. fill_tac. Qed.
Lemma safe_WriteByte v : ok (WriteByte v).
Proof.
  apply safe_write_, fill_put; [lia|cbn; lia|]. constructor; [|done].
  unfold u8, wrapu, is_byte. change (2 ^ 8) with 256. apply Z.mod_pos_bound. lia.
Qed.
Lemma safe_WriteChar v : ok (WriteChar v).
Proof. apply safe_write_. fill_tac. Qed.


Lemma safe_ReadInt32 : ok ReadInt32.
Proof. unfold ReadInt32. safe_tac. Qed.
Lemma safe_ReadUint32 : ok ReadUint32.
Proof. unfold ReadUint32. safe_tac. Qed.
Hint Resolve safe_word safe_WriteUint32 safe_ReadInt32 safe_ReadUint32 : binder.

Lemma safe_WriteNullableString v : ok (WriteNullableString v).
Proof.
  unfold WriteNullableString. destruct v as [s|]; [|apply safe_word]. cbn zeta. safe_tac.
  apply safe_write_. apply fill_step; [lia|rewrite length_le_bytes; lia|auto with binder|].
  apply fill_put_units; lia.
Qed.

Lemma safe_WriteNullableString8 v : ok (WriteNullableString8 v).
Proof.
  unfold WriteNullableString8. destruct v as [s|]; [|apply safe_word]. cbn zeta. safe_tac.
  apply safe_write_. apply fill_step; [lia|cbn; lia|repeat constructor; lia|].
  apply fill_put; [lia|lia|apply bytes_of_byte].
Qed.

Definition blob_byte (b : option (list Z)) : Prop :=
  match b with None => True | Some bs => Forall is_byte bs end.

Lemma safe_WriteBytes b : blob_byte b → ok (WriteBytes b).
Proof.
  intros Hb. unfold WriteBytes. destruct b as [bs|]; safe_tac.
  apply safe_write_, fill_put; [lia|lia|done].
Qed.

Lemma safe_WriteRawBytes b : blob_byte b → ok (WriteRawBytes b).
Proof.
  intros Hb. unfold WriteRawBytes. destruct b as [bs|]; safe_tac.
  apply safe_write_, fill_put; [lia|lia|done].
Qed.

Lemma safe_ReadNullableString : ok ReadNullableString.
Proof. unfold ReadNullableString. safe_tac. Qed.
Lemma safe_ReadNullableString8 : ok ReadNullableString8.
Proof. unfold ReadNullableString8. safe_tac. Qed.
Lemma safe_ReadBytes : ok ReadBytes.
Proof. unfold ReadBytes. safe_tac. Qed.
Hint Resolve safe_ReadNullableString safe_ReadNullableString8 safe_WriteNullableString : binder.

Lemma safe_ReadString : ok ReadString.
Proof. unfold ReadString. safe_tac. Qed.
Lemma safe_ReadString8 : ok ReadString8.
Proof. unfold ReadString8. safe_tac. Qed.
Lemma safe_ReadInterfaceToken : ok ReadInterfaceToken.
Proof. unfold ReadInterfaceToken. safe_tac. apply safe_ReadString. Qed.
Lemma safe_WriteInterfaceToken s : ok (WriteInterfaceToken s).
Proof. unfold WriteInterfaceToken, WriteString. safe_tac. Qed.

(** *** Objects *)

(** The entry of an object whose 24 bytes are in the buffer. *)
Lemma safe_appendObject ref n : 0 <= n → al4 al n → ref_Offset ref = n →
  safe al (λ p, n + flatObjectSize <= len (buf p)) (@appendObject W B ref) (λ _ _ _, True).
Proof.
  intros Hn Ha Hr. apply safe_receiver. intros p w Hp Hl.
  apply outcome_ok; [|cbn; lia|done]. destruct Hp. split; cbn; try done.
  apply Forall_app. split; [done|]. constructor; [|done]. split_and!; rewrite Hr; [lia|lia|done].
Qed.

(** Writing 24 bytes at the cursor, then what needs them there. *)
Lemma safe_register fill (k : PM W B unit) p w :
  fill_ok flatObjectSize fill → parcel_wf al p →
  safe al (λ p1, pos p + flatObjectSize <= len (buf p1)) k (λ _ _ _, True) →
  outcome al p (λ _ _, True) ((writeBlock flatObjectSize fill;; k) (mkst (Some p) w)).
Proof.
  intros Hf Hp Hk. apply outcome_safe; [done|].
  eapply safe_bind with (Q := λ p0 _ p1, pos p0 + flatObjectSize <= len (buf p1)).
  { eapply safe_weaken; [by apply safe_writeBlock|done|]. by intros p0 a p1 _ [H _]. }
  intros p0 [] Hp0 ->. eapply safe_weaken; [exact Hk|by intros p1 [_ H]|done].
Qed.

Lemma safe_word_then v n ref : 0 <= n → al4 al n → ref_Offset ref = n →
  safe al (λ p, n + flatObjectSize <= len (buf p))
    ((WriteInt32 v;; appendObject ref) : PM W B unit) (λ _ _ _, True).
Proof.
  intros Hn Ha Hr. eapply safe_bind; [apply safe_of_, safe_word|].
  intros p0 [] Hp0 Hl. eapply safe_weaken; [by apply (safe_appendObject ref n)| |done].
  intros p1 [? _]. lia.
Qed.

Lemma safe_WriteStrongBinderHandle h s : ok (WriteStrongBinderHandleWithStability h s).
Proof.
  apply safe_receiver. intros p w Hp _. apply safe_register; [fill_tac|done|].
  destruct Hp. apply safe_word_then; [lia|done|done].
Qed.

Lemma safe_WriteStrongBinderLocal b c s : ok (WriteStrongBinderLocalWithStability b c s).
Proof.
  apply safe_receiver. intros p w Hp _. apply safe_register; [fill_tac|done|].
  destruct Hp. apply safe_word_then; [lia|done|done].
Qed.

Lemma safe_WriteNullStrongBinder : ok WriteNullStrongBinder.
Proof.
  apply safe_receiver. intros p w Hp _. apply outcome_safe; [done|]. apply safe_of_.
  apply safe_bind_; [|intros; apply safe_word]. apply safe_write_. fill_tac.
Qed.

Lemma safe_WriteFileDescriptor fd : ok (WriteFileDescriptor fd).
Proof.
  apply safe_receiver. intros p w Hp _. do 2 (case_match; [by apply outcome_throw|]). cbn zeta.
  apply safe_register; [fill_tac|done|].
  destruct Hp. apply safe_appendObject; [lia|done|done].
Qed.

Lemma safe_ReadObject : ok ReadObject.
Proof.
  apply safe_receiver. intros p w Hp _. apply outcome_safe; [done|]. apply safe_of_.
  cbn zeta. safe_tac.
Qed.

Lemma safe_readStrongBinderObject : ok readStrongBinderObject.
Proof.
  apply safe_receiver. intros p w Hp _. apply outcome_safe; [done|]. apply safe_of_.
  cbn zeta. safe_tac.
Qed.
Hint Resolve safe_readStrongBinderObject : binder.

Lemma safe_ReadStrongBinderHandle : ok ReadStrongBinderHandle.
Proof. unfold ReadStrongBinderHandle. safe_tac. Qed.

Lemma safe_resolve f : ok (resolve f).
Proof.
  intros p w Hp _. unfold resolve. cbn [world]. destruct (f w) as [b w'].
  apply outcome_ok; [done|lia|done].
Qed.
Hint Resolve safe_resolve : binder.

Lemma safe_ReadStrongBinder : ok ReadStrongBinder.
Proof.
  unfold ReadStrongBinder. apply safe_bind_; [apply safe_readStrongBinderObject|].
  intros [[obj typ] cookie]. case_match; [apply safe_ret_|].
  apply safe_receiver. intros p w Hp _. apply outcome_safe; [done|]. apply safe_of_.
  safe_tac.
Qed.

Lemma safe_readFileDescriptorObject : ok readFileDescriptorObject.
Proof.
  apply safe_receiver. intros p w Hp _. apply outcome_safe; [done|]. apply safe_of_.
  cbn zeta. safe_tac.
Qed.

Lemma safe_ReadFileDescriptor : ok ReadFileDescriptor.
Proof.
  apply safe_bind_; [apply safe_readFileDescriptorObject|]. intros fd.
  apply safe_receiver. intros p w Hp _. apply outcome_ok; [done|lia|done].
Qed.
Hint Resolve safe_ReadFileDescriptor : binder.

Context `{FDSys W}.

Lemma safe_try {A} (m : PM W B A) : ok m → ok (try_ m).
Proof.
  intros Hm p w Hp _. destruct (Hm p w Hp I) as (p' & ? & ? & ? & Hr). exists p'.
  unfold try_. destruct (m _) as [[a|e|y] s]; cbn in *; by split_and!.
Qed.

Lemma safe_closeFD fd : ok (closeFD fd).
Proof.
  intros p w Hp _. unfold closeFD. destruct (FileDescriptor_Close fd) as [f [n|]];
    apply outcome_ok; by try lia.
Qed.

Lemma safe_acknowledge comm : ok (acknowledgeDetachedParcelFileDescriptor comm).
Proof.
  intros p w Hp _. unfold acknowledgeDetachedParcelFileDescriptor.
  case_match; [apply outcome_ok; by try lia|]. cbn [world].
  destruct (sys_Write _ _ _) as [[n [e|]] w']; cbn [ptr].
  - apply outcome_ok; by try lia.
  - case_match; apply outcome_ok; by try lia.
Qed.
Hint Resolve safe_try safe_closeFD safe_acknowledge : binder.

Lemma safe_ReadParcelFileDescriptor : ok ReadParcelFileDescriptor.
Proof. unfold ReadParcelFileDescriptor. safe_tac. Qed.
End Ops.

#[export] Hint Resolve safe_SetPosition safe_word safe_WriteUint32 safe_WriteInt64 safe_WriteUint64
  safe_WriteByte safe_WriteChar safe_WriteNullableString safe_WriteNullableString8
  safe_WriteBytes safe_WriteRawBytes safe_WriteInterfaceToken safe_WriteStrongBinderHandle
  safe_WriteStrongBinderLocal safe_WriteNullStrongBinder safe_WriteFileDescriptor
  safe_ReadInt32 safe_ReadUint32 safe_ReadNullableString safe_ReadNullableString8
  safe_ReadString safe_ReadString8 safe_ReadBytes safe_ReadInterfaceToken safe_ReadObject
  safe_ReadStrongBinderHandle safe_ReadStrongBinder safe_ReadFileDescriptor
  safe_ReadParcelFileDescriptor : binder.
