(* ===== verification/ParcelProps.v ===== *)
(** * ParcelProps: theorems of the Parcel component

    The invariant over arbitrary operation sequences, the behaviour of the block
    primitives on every branch, the objects that go through a resolver, file
    descriptors and their ownership, and what the writers do when they overwrite
    an earlier part of the buffer. *)

From stdpp Require Import base list numbers strings pretty.
From Stdlib Require Import Sorting.Sorted.
From S2P Require Import Prelude Errors Unicode Parcel ParcelFacts Codec ObjectCodec Fields ParcelInv.

Open Scope Z_scope.

(** ** Operation sequences *)

(** A call on a Parcel, its result discarded by the caller. *)
Inductive parcel_call :=
| CallSetPosition (n : Z)
| CallWriteInt32 (v : Z) | CallWriteUint32 (v : Z) | CallWriteInt64 (v : Z) | CallWriteUint64 (v : Z)
| CallWriteBool (b : bool) | CallWriteByte (v : Z) | CallWriteChar (v : Z)
| CallWriteFloat32 (v : Z) | CallWriteFloat64 (v : Z)
| CallWriteString (s : string) | CallWriteNullableString (s : option string)
| CallWriteString8 (s : string) | CallWriteNullableString8 (s : option string)
| CallWriteBytes (b : option (list Z)) | CallWriteRawBytes (b : option (list Z))
| CallWriteInterfaceToken (s : string)
| CallWriteHandle (h stability : Z) | CallWriteLocal (b c stability : Z) | CallWriteNull
| CallWriteFD (fd : Z) | CallWriteParcelFD (fd : Z)
| CallReadInt32 | CallReadUint32 | CallReadInt64 | CallReadUint64
| CallReadBool | CallReadByte | CallReadChar | CallReadFloat32 | CallReadFloat64
| CallReadString | CallReadNullableString | CallReadString8 | CallReadNullableString8
| CallReadBytes | CallReadRawBytes (n : Z) | CallReadInterfaceToken
| CallReadObject | CallReadHandle | CallReadStrongBinder | CallReadFD | CallReadParcelFD.

(** The arguments Go's types admit: bytes are bytes; with [al], the cursor is
    moved to aligned positions only. *)
Definition call_ok (al : bool) (c : parcel_call) : Prop :=
  match c with
  | CallSetPosition n => al4 al n
  | CallWriteBytes b | CallWriteRawBytes b => blob_byte b
  | _ => True
  end.

Definition discard {W B A} (m : PM W B A) : PM W B unit := _ ← m; mret tt.

Section Calls.
Context {W B : Type} `{FDSys W}.

Definition run_call (c : parcel_call) : PM W B unit :=
  match c with
  | CallSetPosition n => SetPosition n
  | CallWriteInt32 v => WriteInt32 v | CallWriteUint32 v => WriteUint32 v
  | CallWriteInt64 v => WriteInt64 v | CallWriteUint64 v => WriteUint64 v
  | CallWriteBool b => WriteBool b | CallWriteByte v => WriteByte v
  | CallWriteChar v => WriteChar v
  | CallWriteFloat32 v => WriteFloat32 v | CallWriteFloat64 v => WriteFloat64 v
  | CallWriteString s => WriteString s | CallWriteNullableString s => WriteNullableString s
  | CallWriteString8 s => WriteString8 s | CallWriteNullableString8 s => WriteNullableString8 s
  | CallWriteBytes b => WriteBytes b | CallWriteRawBytes b => WriteRawBytes b
  | CallWriteInterfaceToken s => WriteInterfaceToken s
  | CallWriteHandle h st => WriteStrongBinderHandleWithStability h st
  | CallWriteLocal b c st => WriteStrongBinderLocalWithStability b c st
  | CallWriteNull => WriteNullStrongBinder
  | CallWriteFD fd => WriteFileDescriptor (NewFileDescriptor fd)
  | CallWriteParcelFD fd => WriteParcelFileDescriptor (NewFileDescriptor fd)
  | CallReadInt32 => discard ReadInt32 | CallReadUint32 => discard ReadUint32
  | CallReadInt64 => discard ReadInt64 | CallReadUint64 => discard ReadUint64
  | CallReadBool => discard ReadBool | CallReadByte => discard ReadByte
  | CallReadChar => discard ReadChar
  | CallReadFloat32 => discard ReadFloat32 | CallReadFloat64 => discard ReadFloat64
  | CallReadString => discard ReadString | CallReadNullableString => discard ReadNullableString
  | CallReadString8 => discard ReadString8 | CallReadNullableString8 => discard ReadNullableString8
  | CallReadBytes => discard ReadBytes | CallReadRawBytes n => discard (ReadRawBytes n)
  | CallReadInterfaceToken => discard ReadInterfaceToken
  | CallReadObject => discard ReadObject | CallReadHandle => discard ReadStrongBinderHandle
  | CallReadStrongBinder => discard ReadStrongBinder
  | CallReadFD => discard ReadFileDescriptor | CallReadParcelFD => discard ReadParcelFileDescriptor
  end.

(** A caller that goes on whatever each call returns. *)
Fixpoint run_calls (cs : list parcel_call) (s : pst W B) : pst W B :=
  match cs with
  | [] => s
  | c :: cs' => run_calls cs' (run_call c s).2
  end.

Lemma safe_discard {A} al (m : PM W B A) : safe_ al m → safe_ al (discard m).
Proof. intros Hm. unfold discard. safe_tac. Qed.

Lemma run_call_safe al c : call_ok al c → safe_ al (run_call c).
Proof.
  destruct c; cbn [run_call call_ok]; intros Hc; try apply safe_discard;
    unfold WriteFloat32, WriteFloat64, WriteBool, ReadRawBytes, ReadInt64, ReadUint64, ReadBool,
      ReadByte, ReadChar, ReadFloat32, ReadFloat64, WriteString, WriteString8,
      WriteParcelFileDescriptor; safe_tac.
  all: [> apply safe_WriteUint32 | apply safe_WriteUint64].
Qed.
End Calls.

(** C1: from a well-formed Parcel, any sequence of calls (writes, reads, cursor
    moves, object operations), each succeeding or failing, leaves a well-formed
    Parcel: the cursor inside the buffer, the buffer a list of bytes that never
    shrank, every object table entry on 24 bytes of the buffer, and, when cursor
    moves are aligned, cursor, length and object offsets multiples of four. *)
Theorem parcel_invariant W B `{FDSys W} al (cs : list parcel_call) (p : Parcel W B) (w : W) :
  parcel_wf al p → Forall (call_ok al) cs →
  ∃ p', ptr (run_calls cs (mkst (Some p) w)) = Some p' ∧ parcel_wf al p' ∧
        len (buf p) <= len (buf p').
Proof.
  intros Hp Hcs. revert p w Hp. induction Hcs as [|c cs Hc _ IH]; intros p w Hp.
  - exists p. split_and!; [done|done|lia].
  - cbn [run_calls]. destruct (run_call_safe al c Hc p w Hp I) as (p1 & Ho & Hp1 & Hl & _).
    destruct (run_call c _).2 as [o w1] eqn:E. cbn in Ho. subst o.
    destruct (IH p1 w1 Hp1) as (p2 & ? & ? & ?). exists p2. split_and!; [done|done|lia].
Qed.

Global Instance unit_FDSys : FDSys unit :=
  {| sys_Write := λ _ bs w, (len bs, None, w); sys_Close := λ _ w, w |}.

Lemma parcel_invariant_witness :
  ∃ p', ptr (run_calls [CallWriteString "ab"; CallWriteHandle 3 12; CallSetPosition 12;
                        CallReadHandle; CallReadInt32]
               (mkst (Some (@NewParcel unit unit)) tt)) = Some p' ∧ parcel_wf true p' ∧
        0 <= len (buf p').
Proof.
  apply (parcel_invariant unit unit true
    [CallWriteString "ab"; CallWriteHandle 3 12; CallSetPosition 12; CallReadHandle; CallReadInt32]
    NewParcel tt).
  - split; cbn; try constructor; try reflexivity; try discriminate; try (intros _; reflexivity).
  - repeat constructor.
Defined.

(** ** The block primitives *)

(** C38: a block read succeeds exactly when the size is non-negative and the
    padded block fits between the cursor and the end; it then returns the bytes
    at the cursor and moves the cursor by the padded size.  A read that fails
    leaves the Parcel and the cursor as they were. *)
Theorem readBlock_exact W B al (p : Parcel W B) w n : parcel_wf al p →
  if bool_decide (0 <= n ∧ pos p + pad n <= len (buf p)) then
    readBlock n (mkst (Some p) w) =
      (Ok (slice (buf p) (pos p) (pos p + n)), mkst (Some (set_pos (pos p + pad n) p)) w)
  else ∃ e, readBlock n (mkst (Some p) w) = (Err e, mkst (Some p) w).
Proof.
  intros [Hp Hm _ _ _ _]. unfold readBlock. rewrite bind_receiver. cbn [ptr].
  case_bool_decide as Hd.
  - destruct Hd as [Hn Hf]. pose proof (pad_bounds n Hn). pose proof (pad_div4 n).
    assert (Hmax : 0 <= n <= maxInt - 3).
    { unfold maxInt in *. pose proof (Z.div_mod (pad n) 4). lia. }
    zif. rewrite padSize_ok, bind_lift by done. by zif.
  - destruct (n <? 0) eqn:En; [by eexists|]. bools. zif.
    destruct (padSize n) as [m|e|y] eqn:E; [|by eexists|unfold padSize in E; by repeat case_match].
    apply padSize_inv in E as [Hn ->]. rewrite bind_lift.
    assert (len (buf p) - pad n < pos p) by lia. zif. by eexists.
Qed.

Lemma readBlock_exact_witness :
  ∃ e, readBlock 5 (mkst (Some (set_pos 0 (set_buf [1; 2; 3; 4] (@NewParcel unit unit)))) tt) =
       (Err e, mkst (Some (set_pos 0 (set_buf [1; 2; 3; 4] NewParcel))) tt).
Proof.
  apply (readBlock_exact unit unit true (set_pos 0 (set_buf [1; 2; 3; 4] NewParcel)) tt 5).
  split; cbn; try constructor; try reflexivity; try discriminate; try (intros _; reflexivity);
    repeat constructor; discriminate.
Defined.

(** ** Binders through the resolvers *)

Section Resolvers.
Context {W B : Type}.
Implicit Types p : Parcel W B.

(** Rewinding to where an append-only Parcel ended before a write. *)
Lemma rewind_ok p bs objs w : append_ok p → len (buf p) + len bs <= maxInt →
  SetPosition (pos p) (mkst (Some (p_emit p bs objs)) w) =
    (Ok tt, mkst (Some (set_pos (pos p) (p_emit p bs objs))) w).
Proof.
  intros [Hp _] Hl. unfold SetPosition. rewrite bind_receiver. cbn [ptr]. rewrite Z.gtb_ltb.
  rewrite !(proj2 (Z.ltb_ge _ _)); [done|..]; cbn; rewrite ?length_app; lia.
Qed.

Lemma objs_wf_strong h s n : 0 < n → objs_wf [strong_ref h s] n.
Proof. intros Hn. split; repeat constructor; cbn; lia. Qed.

Lemma p_emit_pos p bs objs n : n = len (buf p) + len bs → ∀ m,
  set_pos n (set_pos m (p_emit p bs objs)) = p_emit p bs objs.
Proof. by intros ->. Qed.

(** Reading the strong object that was just appended. *)
Lemma reread_object p w flat stability h h' :
  length flat = 24%nat → in_s 32 stability →
  (le_num (slice flat 0 4) = flatTypeHandle ∧ le_num (slice flat 8 12) = h' ∨
   le_num (slice flat 0 4) = flatTypeBinder ∧ isNullBinderBlock flat = false ∧ h' = h) →
  append_ok p → len (buf p) + 28 <= maxInt →
  let p1 := p_emit p (flat ++ le_bytes 4 (u32 stability)) [strong_ref h stability] in
  readStrongBinderObject (mkst (Some (set_pos (pos p) p1)) w) =
    (Ok (mkObject ObjectStrongBinder (pos p) flatBinderObjectWireSize h' stability,
         le_num (slice flat 0 4), le_num (slice flat 16 24)), mkst (Some p1) w).
Proof.
  intros Hl Hs Hk Hp Hm p1. pose proof Hp as [Hpos _].
  assert (Hn : len (flat ++ le_bytes 4 (u32 stability)) = 28)
    by (by rewrite length_app, Hl, length_le_bytes).
  rewrite (consumes_strong flat stability stability h h' _ Hl Hs eq_refl Hk (set_pos (pos p) p1) w (buf p) []).
  - unfold p1. rewrite p_emit_pos by lia. by rewrite Hpos.
  - unfold p1. cbn [buf set_pos p_emit set_objects set_buf]. by rewrite app_nil_r.
  - done.
  - unfold p1. cbn [buf set_pos p_emit set_objects set_buf]. rewrite length_app. lia.
  - apply registered_emit; [done|]. apply objs_wf_strong. lia.
Qed.
End Resolvers.

(** A Binder handle written with a stability level reaches the configured
    object resolver with that handle and that stability, for any handle; the
    Binder the resolver makes (and the references it takes) is what the reader
    returns. *)
Theorem handle_resolved W B (p : Parcel W B) w h stability f :
  in_u 32 h → in_s 32 stability → append_ok p → len (buf p) + 28 <= maxInt →
  binderObjectResolve p = Some f →
  (WriteStrongBinderHandleWithStability h stability;; SetPosition (pos p);; ReadStrongBinder)
    (mkst (Some p) w) =
  let obj := mkObject ObjectStrongBinder (pos p) flatBinderObjectWireSize h stability in
  (Ok (f obj w).1,
   mkst (Some (p_emit p (handle_bytes h stability) [strong_ref h stability])) (f obj w).2).
Proof.
  intros Hh Hs Hp Hl Hf. pose proof Hp as [Hpos _].
  assert (Hn : len (handle_bytes h stability) = 28).
  { unfold handle_bytes. by rewrite length_app, length_handle_flat, length_le_bytes. }
  rewrite (bind_ok _ _ _ _ _ (emits_WriteStrongBinderHandle h stability Hs p w Hpos ltac:(lia))).
  rewrite (bind_ok _ _ _ _ _ (rewind_ok p (handle_bytes h stability) _ w Hp ltac:(lia))).
  unfold ReadStrongBinder.
  rewrite (bind_ok _ _ _ _ _ (reread_object p w (handle_flat h) stability h h (length_handle_flat h) Hs
             (or_introl (conj (slice_handle_type h) (slice_handle h Hh))) Hp Hl)).
  cbn [obj_Kind]. rewrite bool_decide_false by done. rewrite bind_receiver. cbn [ptr].
  rewrite slice_handle_type, Z.eqb_refl.
  change (binderObjectResolve (p_emit p _ _)) with (binderObjectResolve p). rewrite Hf.
  unfold resolve. cbn [world ptr]. by destruct (f _ w).
Qed.

Lemma handle_resolved_witness :
  let p := set_objects [] (mkParcel [] 0 [] parcelModeKernel parcelFlagAllowFDs None None
             (Some (λ obj w, (Some (obj_Handle obj, obj_Stability obj), w + 1))) None false) in
  ((WriteStrongBinderHandleWithStability 9 63;; SetPosition 0;; ReadStrongBinder)
    (mkst (Some p) 0)).1 = Ok (Some (9, 63)).
Proof.
  intros p. refine (f_equal fst (handle_resolved Z (Z * Z) p 0 9 63
                       (λ obj w, (Some (obj_Handle obj, obj_Stability obj), w + 1)) _ _ _ _ _)).
  - split; [discriminate|reflexivity].
  - split; [discriminate|reflexivity].
  - split; [reflexivity|constructor].
  - discriminate.
  - reflexivity.
Defined.

(** A local node written with its pointer, cookie and stability reaches the
    local object resolver with that cookie and that stability, when the two words
    are not both zero (which is the wire form of a null Binder). *)
Theorem local_resolved W B (p : Parcel W B) w b c stability f :
  in_u 64 b → in_u 64 c → in_s 32 stability → append_ok p → len (buf p) + 28 <= maxInt →
  localBinderObjectResolve p = Some f → (b, c) ≠ (0, 0) →
  (WriteStrongBinderLocalWithStability b c stability;; SetPosition (pos p);; ReadStrongBinder)
    (mkst (Some p) w) =
  let obj := mkObject ObjectStrongBinder (pos p) flatBinderObjectWireSize 0 stability in
  (Ok (f obj c w).1,
   mkst (Some (p_emit p (local_bytes b c stability) [strong_ref 0 stability])) (f obj c w).2).
Proof.
  intros Hb Hc Hs Hp Hl Hf Hbc. pose proof Hp as [Hpos _].
  assert (Hn : len (local_bytes b c stability) = 28).
  { unfold local_bytes. by rewrite length_app, length_local_flat, length_le_bytes. }
  assert (Hnull : isNullBinderBlock (local_flat b c) = false).
  { rewrite isNull_local by done. apply andb_false_iff.
    destruct (decide (b = 0)) as [->|]; [right|left]; apply Z.eqb_neq; congruence. }
  rewrite (bind_ok _ _ _ _ _ (emits_WriteStrongBinderLocal b c stability Hs Hb Hc p w Hpos ltac:(lia))).
  rewrite (bind_ok _ _ _ _ _ (rewind_ok p (local_bytes b c stability) _ w Hp ltac:(lia))).
  unfold ReadStrongBinder.
  rewrite (bind_ok _ _ _ _ _ (reread_object p w (local_flat b c) stability 0 0 (length_local_flat b c) Hs
             (or_intror (conj (slice_local_type b c) (conj Hnull eq_refl))) Hp Hl)).
  cbn [obj_Kind]. rewrite bool_decide_false by done. rewrite bind_receiver. cbn [ptr].
  rewrite slice_local_type, slice_local_cookie by done.
  change (flatTypeBinder =? flatTypeHandle) with false. rewrite Z.eqb_refl.
  change (localBinderObjectResolve (p_emit p _ _)) with (localBinderObjectResolve p). rewrite Hf.
  unfold resolve. cbn [world ptr]. by destruct (f _ c w).
Qed.

Lemma local_resolved_witness :
  let f := λ obj cookie w, (Some (cookie, obj_Stability obj), w) in
  let p := mkParcel [] 0 [] parcelModeKernel parcelFlagAllowFDs None None None (Some f) false in
  ((WriteStrongBinderLocalWithStability 4096 77 12;; SetPosition 0;; ReadStrongBinder)
    (mkst (Some p) tt)).1 = Ok (Some (77, 12)).
Proof.
  intros f p. refine (f_equal fst (local_resolved unit (Z * Z) p tt 4096 77 12 f _ _ _ _ _ _ _)).
  - split; [discriminate|reflexivity].
  - split; [discriminate|reflexivity].
  - split; [discriminate|reflexivity].
  - split; [reflexivity|constructor].
  - discriminate.
  - reflexivity.
  - discriminate.
Defined.

(** ** File descriptors *)

Definition fd_ref (fd : Z) : parcelObjectRef :=
  mkRef parcelObjectFD ObjectFileDescriptor 0 flatObjectSize fd 0.

Section FDs.
Context {W B : Type}.
Implicit Types p : Parcel W B.

Lemma write_fd_at p w fd owned : pos p = len (buf p) → in_u 31 fd → len (buf p) + 24 <= maxInt →
  Z.land (flags p) parcelFlagAllowFDs ≠ 0 →
  WriteFileDescriptor (mkFD fd owned) (mkst (Some p) w) =
    (Ok tt, mkst (Some (p_emit p (fd_bytes fd) [fd_ref fd])) w).
Proof.
  intros Hp Hfd Hl Hfl. unfold WriteFileDescriptor. rewrite bind_receiver. cbn [ptr fd_fd].
  assert (Hu : u32 fd = fd) by (apply wrapu_id; width). rewrite Hu.
  rewrite eqb_false by done. rewrite ltb_false by width.
  assert (E : @emits W B unit (writeBlock flatObjectSize
    (λ dst, PutUint32 8 fd (PutUint32 4 0 (PutUint32 0 flatTypeFD dst)))) tt (fd_bytes fd) []).
  { assert (E := emits_writeBlock (W := W) (B := B) 24
      (λ dst, PutUint32 8 fd (PutUint32 4 0 (PutUint32 0 flatTypeFD dst))) (fd_bytes fd)).
    rewrite (zeros_nil (pad 24 - 24)), app_nil_r in E by done. by apply E. }
  rewrite (bind_ok _ _ _ _ _ (E p w Hp Hl)). unfold appendObject. rewrite bind_receiver. cbn [ptr].
  unfold store. do 3 f_equal. unfold p_emit, set_objects; cbn. rewrite app_nil_r, Hp.
  done.
Qed.

Lemma write_fd_ok p w fd owned : append_ok p → in_u 31 fd → len (buf p) + 24 <= maxInt →
  Z.land (flags p) parcelFlagAllowFDs ≠ 0 →
  WriteFileDescriptor (mkFD fd owned) (mkst (Some p) w) =
    (Ok tt, mkst (Some (p_emit p (fd_bytes fd) [fd_ref fd])) w).
Proof. intros [Hp _]. by apply write_fd_at. Qed.

Lemma read_fd_ok p w pre post fd : in_u 31 fd → buf p = pre ++ fd_bytes fd ++ post →
  pos p = len pre → len (buf p) <= maxInt → registered p (len pre) [fd_ref fd] →
  ReadFileDescriptor (mkst (Some p) w) =
    (Ok (mkFD fd (wireFDsOwned p)), mkst (Some (set_pos (len pre + 24) p)) w).
Proof.
  intros Hfd Hb Hp Hl Hr. unfold registered in Hr. rewrite Forall_singleton in Hr.
  cbn [fd_ref ref_Offset] in Hr. rewrite Z.add_0_r, <- Hp in Hr.
  unfold ReadFileDescriptor, readFileDescriptorObject. rewrite bind_assoc, bind_receiver. cbn [ptr].
  rewrite bind_assoc.
  rewrite (bind_ok _ _ _ _ _ (readBlock_ok flatObjectSize p w pre (fd_bytes fd) post
             ltac:(done) Hb Hp Hl eq_refl)).
  rewrite take_ge by done. change (le_num (slice (fd_bytes fd) 0 4)) with flatTypeFD.
  rewrite Z.eqb_refl, Hr. cbn [negb shift_ref ref_ObjectKind fd_ref].
  rewrite bool_decide_true by done. cbn [negb].
  change (slice (fd_bytes fd) 8 12) with (le_bytes 4 fd). rewrite le_num_bytes.
  rewrite (wrapu_id _ fd) by width.
  replace (i32 fd) with fd by (unfold i32; rewrite wraps_id; width).
  unfold mbind, ST_bind; cbn. by destruct (wireFDsOwned p).
Qed.
End FDs.

(** A file descriptor written to a Parcel that allows descriptors reads back
    with the same number; it is owned by the reader exactly when the Parcel's
    descriptors came off the wire. *)
Theorem file_descriptor_roundtrip W B (p : Parcel W B) w fd owned :
  append_ok p → in_u 31 fd → len (buf p) + 24 <= maxInt →
  Z.land (flags p) parcelFlagAllowFDs ≠ 0 →
  (WriteFileDescriptor (mkFD fd owned);; SetPosition (pos p);; ReadFileDescriptor)
    (mkst (Some p) w) =
  (Ok (mkFD fd (wireFDsOwned p)), mkst (Some (p_emit p (fd_bytes fd) [fd_ref fd])) w).
Proof.
  intros Hp Hfd Hl Hfl. pose proof Hp as [Hpos _].
  rewrite (bind_ok _ _ _ _ _ (write_fd_ok p w fd owned Hp Hfd Hl Hfl)).
  rewrite (bind_ok _ _ _ _ _ (rewind_ok p (fd_bytes fd) _ w Hp Hl)).
  rewrite (read_fd_ok _ w (buf p) [] fd); [|done| |done| |].
  - by rewrite p_emit_pos.
  - cbn [buf set_pos p_emit set_objects set_buf]. by rewrite app_nil_r.
  - cbn [buf set_pos p_emit set_objects set_buf]. rewrite length_app.
    change (length (fd_bytes fd)) with 24%nat. lia.
  - apply registered_emit; [done|]. split; repeat constructor; cbn; lia.
Qed.

Lemma file_descriptor_roundtrip_witness :
  ((WriteFileDescriptor (mkFD 7 true);; SetPosition 0;; ReadFileDescriptor)
    (mkst (Some (@NewParcel unit unit)) tt)).1 = Ok (mkFD 7 false).
Proof.
  refine (f_equal fst (file_descriptor_roundtrip unit unit NewParcel tt 7 true _ _ _ _)).
  - split; [reflexivity|constructor].
  - split; [discriminate|reflexivity].
  - discriminate.
  - discriminate.
Defined.

(** A world that records the system calls made on descriptors; the outcome of
    the acknowledgement write is part of it. *)
Inductive fd_event := EvWrite (fd : Z) | EvClose (fd : Z).

Record fd_world := mkFDWorld { fd_log : list fd_event; fd_write_result : Z * option error }.

Global Instance log_FDSys : FDSys fd_world :=
  {| sys_Write := λ fd _ w, (fd_write_result w, mkFDWorld (fd_log w ++ [EvWrite fd]) (fd_write_result w));
     sys_Close := λ fd w, mkFDWorld (fd_log w ++ [EvClose fd]) (fd_write_result w) |}.

Definition pfd_wire (fd comm : Z) : list Z :=
  le_bytes 4 (u32 1) ++ fd_bytes fd ++ fd_bytes comm.

(** Reading a ParcelFileDescriptor with a communication channel off the wire
    leaks no descriptor, whatever the acknowledgement write returns: the channel
    is always closed, and the descriptor itself is closed exactly when the read
    fails; when the write sends its four bytes the descriptor is returned, owned. *)
Theorem ReadParcelFileDescriptor_closes B (p : Parcel fd_world B) fd comm n err :
  in_u 31 fd → in_u 31 comm → wireFDsOwned p = true →
  buf p = pfd_wire fd comm → pos p = 0 →
  registered p 4 [fd_ref fd] → registered p 28 [fd_ref comm] →
  let '(r, s) := ReadParcelFileDescriptor (mkst (Some p) (mkFDWorld [] (n, err))) in
  if bool_decide (err = None ∧ n = 4) then
    r = Ok (mkFD fd true) ∧ fd_log (world s) = [EvWrite comm; EvClose comm]
  else (∃ e, r = Err e) ∧ fd_log (world s) = [EvWrite comm; EvClose comm; EvClose fd].
Proof.
  intros Hfd Hco Ho Hb Hp Hr1 Hr2. set (w := mkFDWorld [] (n, err)).
  assert (Hl : len (buf p) <= maxInt) by (by rewrite Hb).
  unfold ReadParcelFileDescriptor.
  rewrite (bind_ok _ _ _ _ _ (consumes_ReadInt32 (W := fd_world) (B := B) 1 ltac:(done) p w []
             (fd_bytes fd ++ fd_bytes comm) Hb Hp Hl ltac:(constructor))).
  set (p1 := set_pos _ p).
  rewrite (bind_ok _ _ _ _ _ (read_fd_ok p1 w (le_bytes 4 (u32 1)) (fd_bytes comm) fd Hfd Hb
             eq_refl Hl Hr1)).
  cbn [negb Z.eqb]. set (p2 := set_pos _ p1).
  assert (Hc := read_fd_ok p2 w (le_bytes 4 (u32 1) ++ fd_bytes fd) [] comm Hco
             ltac:(by rewrite app_nil_r) eq_refl Hl Hr2).
  replace (wireFDsOwned p2) with true in Hc by done. replace (wireFDsOwned p1) with true by done.
  unfold mbind at 1, ST_bind at 1, try_. rewrite Hc.
  unfold acknowledgeDetachedParcelFileDescriptor, mbind, ST_bind. cbn [fd_fd].
  rewrite (ltb_false comm) by width. cbn.
  assert (Hcl : ∀ k (s0 : pst fd_world B), in_u 31 k →
    closeFD (mkFD k true) s0 = (Ok tt, mkst (ptr s0) (sys_Close k (world s0)))).
  { intros k s0 Hk. unfold closeFD, FileDescriptor_Close. cbn [fd_owned fd_fd].
    by rewrite ltb_false by width. }
  destruct err as [e|]; [rewrite bool_decide_false by (by intros [[=] _])|].
  - rewrite !Hcl by done. cbn. eauto.
  - destruct (decide (n = 4)) as [->|Hn].
    + rewrite bool_decide_true by done. cbn [Z.eqb negb Pos.eqb]. rewrite Hcl by done. done.
    + rewrite bool_decide_false by (by intros [_ ?]). rewrite (eqb_false n) by done. cbn [negb].
      rewrite !Hcl by done. cbn. eauto.
Qed.

Lemma ReadParcelFileDescriptor_closes_witness :
  let p := mkParcel (pfd_wire 5 6) 0 [shift_ref 4 (fd_ref 5); shift_ref 28 (fd_ref 6)]
             parcelModeKernel parcelFlagAllowFDs None None None None true in
  let '(r, s) := ReadParcelFileDescriptor
                   (mkst (Some (p : Parcel fd_world unit)) (mkFDWorld [] (2, None))) in
  (∃ e, r = Err e) ∧ fd_log (world s) = [EvWrite 6; EvClose 6; EvClose 5].
Proof.
  refine (ReadParcelFileDescriptor_closes unit
    (mkParcel (pfd_wire 5 6) 0 [shift_ref 4 (fd_ref 5); shift_ref 28 (fd_ref 6)]
       parcelModeKernel parcelFlagAllowFDs None None None None true) 5 6 2 None _ _ _ _ _ _ _).
  - split; [discriminate|reflexivity].
  - split; [discriminate|reflexivity].
  - reflexivity.
  - reflexivity.
  - reflexivity.
  - repeat constructor.
  - repeat constructor.
Defined.

(** ** Overwriting *)

(** A null Binder written over an earlier handle does not read back as null:
    only the type word is rewritten, the handle's bytes and its object table
    entry stay, and the reader returns the old handle. *)
Theorem null_overwrite_keeps_handle W B (w : W) h :
  in_u 32 h → h ≠ 0 →
  ((WriteStrongBinderHandle h;; SetPosition 0;; WriteNullStrongBinder;;
    SetPosition 0;; ReadStrongBinderHandle) (mkst (Some (@NewParcel W B)) w)).1 = Ok (Some h).
Proof.
  intros Hh Hh0. set (flat := le_bytes 4 flatTypeBinder ++ le_bytes 4 0 ++ le_bytes 4 h ++ zeros 12).
  set (p1 := p_emit (@NewParcel W B) (handle_bytes h systemStabilityLevel)
               [strong_ref h systemStabilityLevel]).
  rewrite (bind_ok _ _ _ (mkst (Some p1) w) tt)
    by (by apply emits_WriteStrongBinderHandle).
  rewrite (bind_ok _ _ _ (mkst (Some (set_pos 0 p1)) w) tt) by done.
  set (p2 := set_pos 28 (set_buf (flat ++ le_bytes 4 0) p1)).
  rewrite (bind_ok _ _ _ (mkst (Some p2) w) tt).
  2: { unfold WriteNullStrongBinder. rewrite bind_receiver. cbn [ptr].
       rewrite (bind_ok _ _ _ _ _ (writeBlock_ok flatObjectSize (PutUint32 0 flatTypeBinder)
                  (set_pos 0 p1) w [] (handle_flat h) (le_bytes 4 (u32 systemStabilityLevel))
                  ltac:(done) eq_refl ltac:(done) ltac:(done) ltac:(done) eq_refl ltac:(done) eq_refl)).
       unfold WriteInt32. rewrite (writeBlock_ok 4 (PutUint32 0 (u32 (i32 StabilityUndeclared))) _ w flat
                  (le_bytes 4 (u32 systemStabilityLevel)) []); done. }
  rewrite (bind_ok _ _ _ (mkst (Some (set_pos 0 p2)) w) tt) by done.
  unfold ReadStrongBinderHandle.
  assert (Hnn : isNullBinderBlock flat = false).
  { unfold isNullBinderBlock. cbn [negb andb]. apply andb_false_iff. left.
    change (slice flat 8 16) with (le_bytes 4 h ++ zeros 4).
    rewrite le_num_app, le_num_zeros, le_num_bytes, wrapu_id, Z.mul_0_r, Z.add_0_r by done.
    by apply Z.eqb_neq. }
  rewrite (bind_ok _ _ _ _ _ (consumes_strong flat StabilityUndeclared systemStabilityLevel h h
             (strong_ref h systemStabilityLevel) eq_refl ltac:(done) eq_refl
             (or_intror (conj eq_refl (conj Hnn eq_refl)))
             (set_pos 0 p2) w [] [] eq_refl eq_refl ltac:(done) ltac:(repeat constructor))).
  done.
Qed.

Lemma null_overwrite_keeps_handle_witness :
  ((WriteStrongBinderHandle 5;; SetPosition 0;; WriteNullStrongBinder;;
    SetPosition 0;; ReadStrongBinderHandle) (mkst (Some (@NewParcel unit unit)) tt)).1 = Ok (Some 5).
Proof.
  apply (null_overwrite_keeps_handle unit unit tt 5); [split; [discriminate|reflexivity]|discriminate].
Defined.
