(* ===== verification/Slices.v ===== *)
(** * Slices: lists, fixed arrays and maps of Parcel values

    Models src/binder/codec_helpers.go (WriteSlice, ReadSlice and their
    fixed-size variants) and WriteMap / ReadMap of src/binder/value.go.  They are
    generic in the element functions, as in the source; given codecs of the
    elements they are codecs again. *)

From stdpp Require Import base list numbers strings pretty.
From Stdlib Require Import Sorting.Sorted.
From S2P Require Import Prelude Errors Unicode Parcel ParcelFacts Codec Fields ParcelInv.

Open Scope Z_scope.

(** Go's comparison of map keys: whether a key can be hashed at run time (an
    interface key may hold a value that cannot) and [==] on keys. *)
Class GoKey (K : Type) := { hashable : K → bool; key_eqb : K → K → bool }.

Section Loops.
Context {W B A : Type}.

Definition write_elems (writeElem : A → PM W B unit) : list A → PM W B unit :=
  fix go l := match l with [] => mret tt | v :: l' => writeElem v;; go l' end.

Fixpoint read_elems (readElem : PM W B A) (n : nat) : PM W B (list A) :=
  match n with
  | O => mret []
  | S n' => v ← readElem; vs ← read_elems readElem n'; mret (v :: vs)
  end.

(** A nil slice, a nil map and a nil function are [None]. *)
Definition WriteSlice (values : option (list A)) (writeElem : option (A → PM W B unit))
  : PM W B unit :=
  s ← receiver;
  match s, writeElem with
  | None, _ => throw ErrBadParcelable
  | Some _, None => throw (Errorf_w ErrBadParcelable "nil element writer")
  | Some _, Some wr =>
      match values with
      | None => WriteInt32 (-1)
      | Some vs =>
          if len vs >? maxInt32
          then throw (Errorf_w ErrBadParcelable ("slice too large: " +:+ pretty (len vs))%string)
          else WriteInt32 (i32 (len vs));; write_elems wr vs
      end
  end.

Definition ReadSlice (readElem : option (PM W B A)) : PM W B (option (list A)) :=
  s ← receiver;
  match s, readElem with
  | None, _ => throw ErrBadParcelable
  | Some _, None => throw (Errorf_w ErrBadParcelable "nil element reader")
  | Some _, Some rd =>
      size ← ReadInt32;
      if size <? 0 then mret None
      else vs ← read_elems rd (Z.to_nat size); mret (Some vs)
  end.

Definition WriteFixedSlice (values : option (list A)) (size : Z)
    (writeElem : option (A → PM W B unit)) : PM W B unit :=
  match values with
  | None => throw (Errorf_w ErrBadParcelable "fixed slice is null")
  | Some vs =>
      if negb (len vs =? size)
      then throw (Errorf_w ErrBadParcelable ("fixed slice length " +:+ pretty (len vs)
                                              +:+ ", want " +:+ pretty size)%string)
      else WriteSlice values writeElem
  end.

Definition ReadFixedSlice (size : Z) (readElem : option (PM W B A)) : PM W B (list A) :=
  values ← ReadSlice readElem;
  match values with
  | None => throw (Errorf_w ErrBadParcelable "fixed slice is null")
  | Some vs =>
      if negb (len vs =? size)
      then throw (Errorf_w ErrBadParcelable ("fixed slice length " +:+ pretty (len vs)
                                              +:+ ", want " +:+ pretty size)%string)
      else mret vs
  end.
End Loops.

Section Maps.
Context {W B K V : Type}.

(** A map in the order one iteration visits it. *)
Definition write_pairs (writeKey : K → PM W B unit) (writeValue : V → PM W B unit)
  : list (K * V) → PM W B unit :=
  fix go l :=
    match l with [] => mret tt | (k, v) :: l' => writeKey k;; writeValue v;; go l' end.

Definition WriteMap (values : option (list (K * V)))
    (codec : option ((K → PM W B unit) * (V → PM W B unit))) : PM W B unit :=
  s ← receiver;
  match s, codec with
  | None, _ => throw ErrBadParcelable
  | Some _, None => throw (Errorf_w ErrBadParcelable "nil map codec")
  | Some _, Some (writeKey, writeValue) =>
      match values with
      | None => WriteInt32 (-1)
      | Some kvs =>
          if len kvs >? maxInt32
          then throw (Errorf_w ErrBadParcelable ("map too large: " +:+ pretty (len kvs))%string)
          else WriteInt32 (i32 (len kvs));; write_pairs writeKey writeValue kvs
      end
  end.

Context `{GoKey K}.

(** [values[key] = value]: replace the entry of an equal key (the stored key
    stays), add one otherwise; hashing the key may panic. *)
Fixpoint map_put (kvs : list (K * V)) (k : K) (v : V) : list (K * V) :=
  match kvs with
  | [] => [(k, v)]
  | (k', v') :: kvs' => if key_eqb k' k then (k', v) :: kvs' else (k', v') :: map_put kvs' k v
  end.

Definition map_assign (kvs : list (K * V)) (k : K) (v : V) : PM W B (list (K * V)) :=
  if hashable k then mret (map_put kvs k v)
  else panic "runtime error: hash of unhashable type".

Fixpoint read_pairs (readKey : PM W B K) (readValue : PM W B V) (n : nat) (acc : list (K * V))
  : PM W B (list (K * V)) :=
  match n with
  | O => mret acc
  | S n' => key ← readKey; value ← readValue; acc' ← map_assign acc key value;
            read_pairs readKey readValue n' acc'
  end.

Definition ReadMap (codec : option (PM W B K * PM W B V)) : PM W B (option (list (K * V))) :=
  s ← receiver;
  match s, codec with
  | None, _ => throw ErrBadParcelable
  | Some _, None => throw (Errorf_w ErrBadParcelable "nil map codec")
  | Some _, Some (readKey, readValue) =>
      size ← ReadInt32;
      if size <? 0 then mret None
      else kvs ← read_pairs readKey readValue (Z.to_nat size) []; mret (Some kvs)
  end.
End Maps.

(** ** What the loops append and consume *)

Section Seq.
Context {W B A C : Type}.

(** The bytes and the object entries of elements written one after another. *)
Definition cat_bytes (bytes : A → list Z) (l : list A) : list Z := l ≫= bytes.

Fixpoint cat_objs (bytes : A → list Z) (objs : A → list parcelObjectRef) (l : list A)
  : list parcelObjectRef :=
  match l with
  | [] => []
  | a :: l' => objs a ++ (shift_ref (len (bytes a)) <$> cat_objs bytes objs l')
  end.

Lemma cat_objs_nil bytes l : cat_objs bytes (λ _, []) l = [].
Proof. induction l as [|a l IH]; [done|]. cbn. by rewrite IH. Qed.

Lemma emits_elems (wr : A → PM W B unit) bytes objs l :
  Forall (λ a, emits (wr a) tt (bytes a) (objs a)) l →
  emits (write_elems wr l) tt (cat_bytes bytes l) (cat_objs bytes objs l).
Proof.
  induction 1 as [|a l Ha _ IH]; [apply emits_ret|].
  exact (emits_bind (wr a) (λ _, write_elems wr l) tt tt _ _ _ _ Ha IH).
Qed.

Lemma consumes_elems (rd : PM W B C) (val : A → C) bytes objs l :
  Forall (λ a, consumes rd (val a) (bytes a) (objs a)) l →
  consumes (read_elems rd (length l)) (val <$> l) (cat_bytes bytes l) (cat_objs bytes objs l).
Proof.
  induction 1 as [|a l Ha _ IH]; [apply consumes_ret|].
  cbn [read_elems length]. eapply consumes_bind; [exact Ha|].
  apply consumes_fmap with (f := λ vs, val a :: vs) (a := val <$> l); [exact IH|done].
Qed.

Lemma objs_wf_elems bytes objs l : Forall (λ a, objs_wf (objs a) (len (bytes a))) l →
  objs_wf (cat_objs bytes objs l) (len (cat_bytes bytes l)).
Proof.
  induction 1 as [|a l Ha _ IH]; [apply objs_wf_nil|].
  cbn. rewrite length_app, Nat2Z.inj_add. apply objs_wf_app; [lia|lia|done|done].
Qed.
End Seq.

Section SliceCodec.
Context {W B A : Type}.

(** Reads that go through the receiver check. *)
Lemma emits_receiver {C} (k : option (Parcel W B) → PM W B C) c bs objs :
  (∀ p, emits (k (Some p)) c bs objs) → emits (receiver ≫= k) c bs objs.
Proof. intros H p w Hp Hl. rewrite bind_receiver. by apply H. Qed.

Lemma consumes_receiver {C} (k : option (Parcel W B) → PM W B C) c bs objs :
  (∀ p, consumes (k (Some p)) c bs objs) → consumes (receiver ≫= k) c bs objs.
Proof. intros H p w pre post Hb Hp Hl Hr. rewrite bind_receiver. eapply H; eauto. Qed.

Definition slice_bytes (bytes : A → list Z) (l : list A) : list Z :=
  le_bytes 4 (u32 (len l)) ++ cat_bytes bytes l.

Definition slice_objs (bytes : A → list Z) objs (l : list A) : list parcelObjectRef :=
  shift_ref 4 <$> cat_objs bytes objs l.

Lemma emits_counted (m : PM W B unit) n bs objs : 0 <= n <= maxInt32 → emits m tt bs objs →
  emits (WriteInt32 (i32 n);; m) tt (le_bytes 4 (u32 n) ++ bs) (shift_ref 4 <$> objs).
Proof.
  intros Hn Hm. unfold i32. rewrite wraps_id by width.
  exact (emits_bind (WriteInt32 n) (λ _, m) tt tt _ _ _ _ (emits_WriteInt32 n) Hm).
Qed.

Lemma consumes_counted {C} (k : Z → PM W B C) c n bs objs : 0 <= n <= maxInt32 →
  consumes (k n) c bs objs →
  consumes (ReadInt32 ≫= k) c (le_bytes 4 (u32 n) ++ bs) (shift_ref 4 <$> objs).
Proof.
  intros Hn Hk. refine (consumes_bind ReadInt32 k n c (le_bytes 4 (u32 n)) [] bs objs _ Hk).
  apply consumes_ReadInt32. width.
Qed.

Lemma emits_WriteSlice (wr : A → PM W B unit) bytes objs l :
  len l <= maxInt32 → Forall (λ a, emits (wr a) tt (bytes a) (objs a)) l →
  emits (WriteSlice (Some l) (Some wr)) tt (slice_bytes bytes l) (slice_objs bytes objs l).
Proof.
  intros Hl Hf. apply emits_receiver. intros p. zif.
  apply emits_counted; [lia|]. by apply emits_elems.
Qed.

Lemma emits_WriteSlice_nil (wr : A → PM W B unit) :
  emits (WriteSlice None (Some wr)) tt (le_bytes 4 (u32 (-1))) [].
Proof. apply emits_receiver. intros p. apply emits_WriteInt32. Qed.

Lemma consumes_ReadSlice {C} (rd : PM W B C) (val : A → C) bytes objs l :
  len l <= maxInt32 → Forall (λ a, consumes rd (val a) (bytes a) (objs a)) l →
  consumes (ReadSlice (Some rd)) (Some (val <$> l)) (slice_bytes bytes l) (slice_objs bytes objs l).
Proof.
  intros Hl Hf. apply consumes_receiver. intros p. apply consumes_counted; [lia|].
  zif. rewrite Nat2Z.id. eapply consumes_fmap; [by apply consumes_elems|done].
Qed.

Lemma consumes_ReadSlice_nil {C} (rd : PM W B C) :
  consumes (ReadSlice (Some rd)) None (le_bytes 4 (u32 (-1))) [].
Proof. apply consumes_receiver. intros p. by apply consumes_null_length. Qed.

(** Slices of a codec's values are a codec. *)
Definition slice_ok (c : Codec W B A) (o : option (list A)) : Prop :=
  match o with None => True | Some l => len l <= maxInt32 ∧ Forall c_valid l end.

Program Definition slice_codec (c : Codec W B A) : Codec W B (option (list A)) :=
  {| c_write := λ o, WriteSlice o (Some c_write);
     c_read := ReadSlice (Some c_read);
     c_valid := slice_ok c;
     c_bytes := opt_bytes (slice_bytes c_bytes);
     c_objs := λ o, match o with None => [] | Some l => slice_objs c_bytes c_objs l end |}.
Next Obligation.
  intros c [l|] Hv; [|apply emits_WriteSlice_nil]. destruct Hv as [Hl Hf].
  apply emits_WriteSlice; [done|]. eapply Forall_impl; [exact Hf|]. apply c_write_ok.
Qed.
Next Obligation.
  intros c [l|] Hv; [|apply consumes_ReadSlice_nil]. destruct Hv as [Hl Hf].
  assert (H := consumes_ReadSlice c_read id c_bytes c_objs l Hl).
  rewrite list_fmap_id in H. apply H. eapply Forall_impl; [exact Hf|]. apply c_read_ok.
Qed.
Next Obligation.
  intros c [l|] Hv; [|apply objs_wf_nil]. destruct Hv as [Hl Hf].
  unfold opt_bytes, slice_bytes, slice_objs. rewrite length_app, length_le_bytes, Nat2Z.inj_add.
  apply (objs_wf_app [] (Z.of_nat 4)); [lia|lia|apply objs_wf_nil|].
  apply objs_wf_elems. eapply Forall_impl; [exact Hf|]. apply c_objs_ok.
Qed.
End SliceCodec.

(** ** Maps *)

Section MapFacts.
Context {W B K V K' V' : Type} `{GoKey K'}.

Definition pair_bytes (kb : K → list Z) (vb : V → list Z) (kv : K * V) : list Z :=
  kb kv.1 ++ vb kv.2.

(** The keys of a written map, as read back: hashable and pairwise different. *)
Fixpoint keys_distinct (ks : list K') : Prop :=
  match ks with
  | [] => True
  | k :: ks' => hashable k = true ∧ Forall (λ k', key_eqb k k' = false) ks' ∧ keys_distinct ks'
  end.

Lemma map_put_fresh (acc : list (K' * V')) k v :
  Forall (λ kv, key_eqb kv.1 k = false) acc → map_put acc k v = acc ++ [(k, v)].
Proof.
  induction 1 as [|[k0 v0] acc Hk _ IH]; [done|]. cbn in *. by rewrite Hk, IH.
Qed.

Lemma emits_pairs (wk : K → PM W B unit) (wv : V → PM W B unit) kb vb l :
  Forall (λ kv, emits (wk kv.1) tt (kb kv.1) [] ∧ emits (wv kv.2) tt (vb kv.2) []) l →
  emits (write_pairs wk wv l) tt (cat_bytes (pair_bytes kb vb) l) [].
Proof.
  induction 1 as [|[k v] l [Hk Hv] _ IH]; [apply emits_ret|]. cbn in Hk, Hv.
  unfold cat_bytes, pair_bytes. cbn [mbind list_bind]. rewrite <- app_assoc.
  eapply emits_bind_nil; [exact Hk|]. eapply emits_bind_nil; [exact Hv|exact IH].
Qed.

Lemma consumes_pairs (rk : PM W B K') (rv : PM W B V') (fk : K → K') (fv : V → V') kb vb l acc :
  Forall (λ kv, consumes rk (fk kv.1) (kb kv.1) [] ∧ consumes rv (fv kv.2) (vb kv.2) []) l →
  keys_distinct (fk <$> l.*1) →
  Forall (λ kv, Forall (λ k, key_eqb kv.1 k = false) (fk <$> l.*1)) acc →
  consumes (read_pairs rk rv (length l) acc) (acc ++ (prod_map fk fv <$> l))
    (cat_bytes (pair_bytes kb vb) l) [].
Proof.
  intros Hf. revert acc. induction Hf as [|[k v] l [Hk Hv] _ IH]; intros acc Hd Hacc.
  { rewrite app_nil_r. apply consumes_ret. }
  cbn in Hk, Hv, Hd. destruct Hd as (Hh & Hnew & Hd).
  unfold cat_bytes, pair_bytes. cbn [mbind list_bind read_pairs length]. rewrite <- app_assoc.
  eapply consumes_bind_nil; [exact Hk|]. eapply consumes_bind_nil; [exact Hv|].
  unfold map_assign. rewrite Hh, map_put_fresh.
  - intros p w pre post Hb Hp Hl Hr. rewrite bind_ret.
    rewrite (IH (acc ++ [(fk k, fv v)]) Hd) with (pre := pre) (post := post); [|..|done|done|done|done].
    + by rewrite <- app_assoc.
    + apply Forall_app. split; [|by constructor]. eapply Forall_impl; [exact Hacc|].
      intros kv Hkv. by inversion Hkv.
  - eapply Forall_impl; [exact Hacc|]. intros kv Hkv. by inversion Hkv.
Qed.

Definition map_bytes (kb : K → list Z) (vb : V → list Z) (l : list (K * V)) : list Z :=
  le_bytes 4 (u32 (len l)) ++ cat_bytes (pair_bytes kb vb) l.

Lemma emits_WriteMap (wk : K → PM W B unit) (wv : V → PM W B unit) kb vb l :
  len l <= maxInt32 →
  Forall (λ kv, emits (wk kv.1) tt (kb kv.1) [] ∧ emits (wv kv.2) tt (vb kv.2) []) l →
  emits (WriteMap (Some l) (Some (wk, wv))) tt (map_bytes kb vb l) [].
Proof.
  intros Hl Hf. apply emits_receiver. intros p. zif.
  apply (emits_counted _ (len l) _ []); [lia|]. by apply emits_pairs.
Qed.

Lemma consumes_ReadMap (rk : PM W B K') (rv : PM W B V') (fk : K → K') (fv : V → V') kb vb l :
  len l <= maxInt32 →
  Forall (λ kv, consumes rk (fk kv.1) (kb kv.1) [] ∧ consumes rv (fv kv.2) (vb kv.2) []) l →
  keys_distinct (fk <$> l.*1) →
  consumes (ReadMap (Some (rk, rv))) (Some (prod_map fk fv <$> l)) (map_bytes kb vb l) [].
Proof.
  intros Hl Hf Hd. apply consumes_receiver. intros p. apply (consumes_counted _ _ (len l) _ []); [lia|].
  zif. rewrite Nat2Z.id.
  apply consumes_fmap with (f := Some) (a := prod_map fk fv <$> l); [|done].
  by apply (consumes_pairs rk rv fk fv kb vb l []).
Qed.
End MapFacts.

(** ** Theorems *)

(** For any element type with a codec, a slice (nil, empty or filled, which
    stay distinguishable) written to an append-only Parcel reads back equal, the
    cursor ending after it. *)
Theorem slice_roundtrip W B A (c : Codec W B A) (o : option (list A)) (p : Parcel W B) w :
  slice_ok c o → append_ok p →
  len (buf p) + len (opt_bytes (slice_bytes c_bytes) o) <= maxInt →
  ∃ p', (WriteSlice o (Some c_write);; SetPosition (pos p);; ReadSlice (Some c_read))
          (mkst (Some p) w) = (Ok o, mkst (Some p') w) ∧
        buf p' = buf p ++ opt_bytes (slice_bytes c_bytes) o ∧ pos p' = len (buf p').
Proof.
  intros Hv Hp Hl. eexists. split; [exact (@codec_roundtrip_at W B _ (slice_codec c) o p w Hv Hp Hl)|].
  split; [done|]. cbn [c_bytes slice_codec p_emit buf pos set_objects set_pos set_buf].
  rewrite length_app. lia.
Qed.

Lemma slice_roundtrip_witness :
  ∃ p', (WriteSlice (Some [Some [1; 2]; None; Some []])
           (Some (@c_write unit unit _ (slice_codec int32_codec)));;
         SetPosition 0;; ReadSlice (Some (@c_read unit unit _ (slice_codec int32_codec))))
          (mkst (Some NewParcel) tt) =
        (Ok (Some [Some [1; 2]; None; Some []]), mkst (Some p') tt) ∧
        buf p' = [] ++ opt_bytes (slice_bytes (@c_bytes unit unit _ (slice_codec int32_codec)))
                         (Some [Some [1; 2]; None; Some []]) ∧
        pos p' = len (buf p').
Proof.
  apply (slice_roundtrip unit unit _ (slice_codec int32_codec) (Some [Some [1; 2]; None; Some []])
           NewParcel tt).
  - split; [discriminate|]. repeat constructor; discriminate.
  - split; [reflexivity|constructor].
  - discriminate.
Defined.

(** An array written as a fixed-size array of [n] elements is accepted by a
    reader of [n] elements, which returns it, and rejected as a bad parcelable
    by a reader of any other size; the writer itself refuses an array whose
    length is not the declared one without touching the Parcel. *)
Theorem fixed_slice_sizes W B A (c : Codec W B A) (l : list A) n m (p : Parcel W B) w :
  slice_ok c (Some l) → append_ok p →
  len (buf p) + len (opt_bytes (slice_bytes c_bytes) (Some l)) <= maxInt →
  if len l =? n then
    let r := (WriteFixedSlice (Some l) n (Some c_write);; SetPosition (pos p);;
              ReadFixedSlice m (Some c_read)) (mkst (Some p) w) in
    if m =? n then r.1 = Ok l else ∃ e, r.1 = Err e ∧ errors_Is e ErrBadParcelable = true
  else ∃ e, WriteFixedSlice (Some l) n (Some c_write) (mkst (Some p) w) =
              (Err e, mkst (Some p) w) ∧ errors_Is e ErrBadParcelable = true.
Proof.
  intros Hv Hp Hl. unfold WriteFixedSlice. destruct (len l =? n) eqn:E; cbn [negb]; [|by eexists].
  bools. cbn zeta.
  assert (H := @codec_roundtrip_at W B _ (slice_codec c) (Some l) p w Hv Hp Hl).
  change (c_write (Some l)) with (WriteSlice (Some l) (Some c_write)) in H.
  change (c_read) with (ReadSlice (Some (@c_read W B A c))) in H.
  apply bind_inv in H as [([] & s1 & H1 & H)|[(? & _ & ?)|(? & _ & ?)]]; [|done..].
  apply bind_inv in H as [([] & s2 & H2 & H)|[(? & _ & ?)|(? & _ & ?)]]; [|done..].
  rewrite (bind_ok _ _ _ _ _ H1), (bind_ok _ _ _ _ _ H2).
  unfold ReadFixedSlice, mbind, ST_bind. rewrite H. rewrite E.
  destruct (m =? n) eqn:E2; bools.
  - subst m. by rewrite Z.eqb_refl.
  - rewrite eqb_false by done. by eexists.
Qed.

Lemma fixed_slice_sizes_witness :
  ((WriteFixedSlice (Some [4; 5]) 2 (Some (@c_write unit unit _ int32_codec));; SetPosition 0;;
    ReadFixedSlice 2 (Some (@c_read unit unit _ int32_codec))) (mkst (Some NewParcel) tt)).1 = Ok [4; 5] ∧
  ∃ e, ((WriteFixedSlice (Some [4; 5]) 2 (Some (@c_write unit unit _ int32_codec));; SetPosition 0;;
    ReadFixedSlice 3 (Some (@c_read unit unit _ int32_codec))) (mkst (Some NewParcel) tt)).1 = Err e ∧
    errors_Is e ErrBadParcelable = true.
Proof.
  assert (Hv : slice_ok (@int32_codec unit unit) (Some [4; 5])).
  { split; [discriminate|]. repeat constructor; discriminate. }
  assert (Hp : append_ok (@NewParcel unit unit)) by (split; [reflexivity|constructor]).
  split.
  - refine (fixed_slice_sizes unit unit Z int32_codec [4; 5] 2 2 NewParcel tt Hv Hp _). discriminate.
  - refine (fixed_slice_sizes unit unit Z int32_codec [4; 5] 2 3 NewParcel tt Hv Hp _). discriminate.
Defined.
