(* ===== verification/Value.v ===== *)
(** * Value: dynamically typed values

    Models src/binder/value.go: the android.os.Parcel writeValue / readValue
    subset that raw maps use.  [gval] is the Go [any] the code switches on, one
    constructor per case of the type switch and of the reflection fallback. *)

From stdpp Require Import base list numbers strings pretty.
From Stdlib Require Import Ascii.
From S2P Require Import Prelude Errors Unicode Parcel ParcelFacts Codec ObjectCodec Fields ParcelInv Slices.

Open Scope Z_scope.

(** ** Tags *)

Definition ValueNull : Z := -1.
Definition ValueString : Z := 0.
Definition ValueInteger : Z := 1.
Definition ValueMap : Z := 2.
Definition ValueParcelable : Z := 4.
Definition ValueShort : Z := 5.
Definition ValueLong : Z := 6.
Definition ValueFloat : Z := 7.
Definition ValueDouble : Z := 8.
Definition ValueBoolean : Z := 9.
Definition ValueList : Z := 11.
Definition ValueByteArray : Z := 13.
Definition ValueStringArray : Z := 14.
Definition ValueIBinder : Z := 15.
Definition ValueIntArray : Z := 18.
Definition ValueLongArray : Z := 19.
Definition ValueByte : Z := 20.
Definition ValueDoubleArray : Z := 28.
Definition ValueChar : Z := 29.
Definition ValueShortArray : Z := 30.
Definition ValueCharArray : Z := 31.
Definition ValueFloatArray : Z := 32.

(** ** Go values *)

Inductive gval (B : Type) : Type :=
| VNil
| VString (s : string)
| VStringPtr (s : option string)
| VInt (n : Z)
| VInt32 (n : Z) | VInt16 (n : Z) | VInt8 (n : Z) | VInt64 (n : Z) | VUint16 (n : Z)
| VBool (b : bool)
| VFloat32 (bits : Z) | VFloat64 (bits : Z)
| VBytes (bs : option (list Z))
| VStrings (l : option (list string))
| VInt32s (l : option (list Z)) | VInt64s (l : option (list Z))
| VInt16s (l : option (list Z)) | VUint16s (l : option (list Z))
| VFloat32s (l : option (list Z)) | VFloat64s (l : option (list Z))
| VBinder (b : B)
| VMapAny (m : option (list (gval B * gval B)))  (* map[any]any, in iteration order *)
| VMapOther (m : option (list (gval B * gval B))) (* another map type, through reflect *)
| VNamedBytes (bs : option (list Z))             (* another slice type of uint8 kind *)
| VSlice (l : option (list (gval B)))            (* another slice type, []any included *)
| VArray (l : list (gval B))
| VPtr (v : option (gval B))                     (* a pointer other than *string *)
| VOther (type : string).                        (* any other kind *)
Arguments VNil {B}.
Arguments VString {B} s.
Arguments VStringPtr {B} s.
Arguments VInt {B} n.
Arguments VInt32 {B} n.
Arguments VInt16 {B} n.
Arguments VInt8 {B} n.
Arguments VInt64 {B} n.
Arguments VUint16 {B} n.
Arguments VBool {B} b.
Arguments VFloat32 {B} bits.
Arguments VFloat64 {B} bits.
Arguments VBytes {B} bs.
Arguments VStrings {B} l.
Arguments VInt32s {B} l.
Arguments VInt64s {B} l.
Arguments VInt16s {B} l.
Arguments VUint16s {B} l.
Arguments VFloat32s {B} l.
Arguments VFloat64s {B} l.
Arguments VBinder {B} b.
Arguments VMapAny {B} m.
Arguments VMapOther {B} m.
Arguments VNamedBytes {B} bs.
Arguments VSlice {B} l.
Arguments VArray {B} l.
Arguments VPtr {B} v.
Arguments VOther {B} type.

(** *** [==] on interface values that hold what the reader produces *)

(** IEEE 754 equality on bit patterns: a NaN equals nothing, the two zeros are
    equal.  [e] is the exponent mask, [m] the mantissa mask. *)
Definition float_eqb (e m : Z) (a b : Z) : bool :=
  let nan x := (Z.land x e =? e) && negb (Z.land x m =? 0) in
  let mag x := Z.land x (Z.lor e m) in
  negb (nan a) && negb (nan b) && ((a =? b) || ((mag a =? 0) && (mag b =? 0))).

Definition float32_eqb : Z → Z → bool := float_eqb 2139095040 8388607.
Definition float64_eqb : Z → Z → bool := float_eqb 9218868437227405312 4503599627370495.

Class BinderEq (B : Type) := binder_eqb : B → B → bool.

Definition gval_hashable {B} (v : gval B) : bool :=
  match v with
  | VBytes _ | VStrings _ | VInt32s _ | VInt64s _ | VInt16s _ | VUint16s _ | VFloat32s _
  | VFloat64s _ | VMapAny _ | VMapOther _ | VNamedBytes _ | VSlice _ => false
  | _ => true
  end.

Definition gval_eqb {B} `{BinderEq B} (a b : gval B) : bool :=
  match a, b with
  | VNil, VNil => true
  | VString s, VString t => String.eqb s t
  | VInt m, VInt n | VInt32 m, VInt32 n | VInt16 m, VInt16 n | VInt8 m, VInt8 n
  | VInt64 m, VInt64 n | VUint16 m, VUint16 n => m =? n
  | VBool x, VBool y => Bool.eqb x y
  | VFloat32 x, VFloat32 y => float32_eqb x y
  | VFloat64 x, VFloat64 y => float64_eqb x y
  | VBinder x, VBinder y => binder_eqb x y
  | _, _ => false
  end.

Global Instance gval_GoKey {B} `{BinderEq B} : GoKey (gval B) :=
  {| hashable := gval_hashable; key_eqb := gval_eqb |}.

(** ** Writing *)

Definition dynamicValueLengthPrefixed (tag : Z) : bool :=
  (tag =? ValueMap) || (tag =? ValueParcelable) || (tag =? ValueList).

Section Ops.
Context {W B : Type} `{!BinderMarshal W B} `{!BinderEq B}.

Definition writeDynamicTagged (tag : Z) (body : PM W B unit) : PM W B unit :=
  WriteInt32 tag;;
  if dynamicValueLengthPrefixed tag then
    start ← position;
    WriteInt32 0;;
    bodyStart ← position;
    body;;
    bodyEnd ← position;
    SetPosition start;;
    WriteInt32 (i32 (bodyEnd - bodyStart));;
    SetPosition bodyEnd
  else body.

Definition writeStringArray (l : option (list string)) : PM W B unit := WriteSlice l (Some WriteString).
Definition writeInt32Array (l : option (list Z)) : PM W B unit := WriteSlice l (Some WriteInt32).
Definition writeInt64Array (l : option (list Z)) : PM W B unit := WriteSlice l (Some WriteInt64).
Definition writeInt16Array (l : option (list Z)) : PM W B unit := WriteSlice l (Some WriteInt32).
Definition writeUint16Array (l : option (list Z)) : PM W B unit := WriteSlice l (Some WriteInt32).
Definition writeFloat32Array (l : option (list Z)) : PM W B unit := WriteSlice l (Some WriteFloat32).
Definition writeFloat64Array (l : option (list Z)) : PM W B unit := WriteSlice l (Some WriteFloat64).

Definition readStringArray : PM W B (option (list string)) := ReadSlice (Some ReadString).
Definition readInt32Array : PM W B (option (list Z)) := ReadSlice (Some ReadInt32).
Definition readInt64Array : PM W B (option (list Z)) := ReadSlice (Some ReadInt64).
Definition readInt16Array : PM W B (option (list Z)) :=
  ReadSlice (Some (v ← ReadInt32; mret (i16 v))).
Definition readUint16Array : PM W B (option (list Z)) :=
  ReadSlice (Some (v ← ReadInt32; mret (u16 v))).
Definition readFloat32Array : PM W B (option (list Z)) := ReadSlice (Some ReadFloat32).
Definition readFloat64Array : PM W B (option (list Z)) := ReadSlice (Some ReadFloat64).

Definition write_null : PM W B unit := WriteInt32 ValueNull.

(** The [%q] verb on a name without characters to escape. *)
Definition quoted (s : string) : string :=
  String (ascii_of_nat 34) (s +:+ String (ascii_of_nat 34) EmptyString)%string.

(** A counted body of the reflection branches. *)
Definition write_counted (what : string) (n : Z) (body : PM W B unit) : PM W B unit :=
  if n >? maxInt32
  then throw (Errorf_w ErrBadParcelable (what +:+ " too large: " +:+ pretty n)%string)
  else WriteInt32 (i32 n);; body.

Fixpoint WriteDynamicValue (value : gval B) : PM W B unit :=
  s ← receiver;
  match s with
  | None => throw ErrBadParcelable
  | Some _ =>
      match value with
      | VNil => write_null
      | VString v => writeDynamicTagged ValueString (WriteString v)
      | VStringPtr None => write_null
      | VStringPtr (Some v) => writeDynamicTagged ValueString (WriteString v)
      | VInt v =>
          if (v >=? -2147483648) && (v <=? 2147483647)
          then writeDynamicTagged ValueInteger (WriteInt32 (i32 v))
          else writeDynamicTagged ValueLong (WriteInt64 v)
      | VInt32 v => writeDynamicTagged ValueInteger (WriteInt32 v)
      | VInt16 v => writeDynamicTagged ValueShort (WriteInt32 v)
      | VInt8 v => writeDynamicTagged ValueByte (WriteInt32 v)
      | VInt64 v => writeDynamicTagged ValueLong (WriteInt64 v)
      | VUint16 v => writeDynamicTagged ValueChar (WriteInt32 v)
      | VBool v => writeDynamicTagged ValueBoolean (WriteBool v)
      | VFloat32 v => writeDynamicTagged ValueFloat (WriteFloat32 v)
      | VFloat64 v => writeDynamicTagged ValueDouble (WriteFloat64 v)
      | VBytes v => writeDynamicTagged ValueByteArray (WriteBytes v)
      | VStrings v => writeDynamicTagged ValueStringArray (writeStringArray v)
      | VInt32s v => writeDynamicTagged ValueIntArray (writeInt32Array v)
      | VInt64s v => writeDynamicTagged ValueLongArray (writeInt64Array v)
      | VInt16s v => writeDynamicTagged ValueShortArray (writeInt16Array v)
      | VUint16s v => writeDynamicTagged ValueCharArray (writeUint16Array v)
      | VFloat32s v => writeDynamicTagged ValueFloatArray (writeFloat32Array v)
      | VFloat64s v => writeDynamicTagged ValueDoubleArray (writeFloat64Array v)
      | VBinder b => writeDynamicTagged ValueIBinder (WriteStrongBinder (Some b))
      | VMapAny m =>
          writeDynamicTagged ValueMap
            (WriteMap m (Some (λ k, WriteDynamicValue k, λ v, WriteDynamicValue v)))
      | VMapOther None => write_null
      | VMapOther (Some m) =>
          writeDynamicTagged ValueMap
            (write_counted "map" (len m)
               (write_pairs (λ k, WriteDynamicValue k) (λ v, WriteDynamicValue v) m))
      | VNamedBytes None => write_null
      | VNamedBytes (Some bs) => writeDynamicTagged ValueByteArray (WriteBytes (Some bs))
      | VSlice None => write_null
      | VSlice (Some l) =>
          writeDynamicTagged ValueList
            (write_counted "list" (len l) (write_elems (λ v, WriteDynamicValue v) l))
      | VArray l =>
          writeDynamicTagged ValueList
            (write_counted "list" (len l) (write_elems (λ v, WriteDynamicValue v) l))
      | VPtr None => write_null
      | VPtr (Some v) => WriteDynamicValue v
      | VOther t => throw (Errorf_w ErrUnsupported ("unsupported dynamic value type " +:+ t)%string)
      end
  end.

(** ** Reading *)

Definition readDynamicLengthPrefix : PM W B Z :=
  size ← ReadInt32;
  if size <? 0
  then throw (Errorf_w ErrBadParcelable ("negative dynamic value length " +:+ pretty size)%string)
  else start ← position; mret (start + size).

Definition finishDynamicLengthPrefix (end_ : Z) : PM W B unit :=
  pos ← position;
  if pos >? end_
  then throw (Errorf_w ErrBadParcelable ("dynamic value length overrun: pos=" +:+ pretty pos
                                          +:+ " end=" +:+ pretty end_)%string)
  else if pos =? end_ then mret tt
  else SetPosition end_.

(** The part of a length-prefixed value between its prefix and its end. *)
Definition prefixed_body {A} (body : PM W B A) : PM W B A :=
  end_ ← readDynamicLengthPrefix; value ← body; finishDynamicLengthPrefix end_;; mret value.

(** [depth] is the number of nested calls the goroutine's stack has room for. *)
Fixpoint ReadDynamicValue (depth : nat) : PM W B (gval B) :=
  match depth with
  | O => panic "stack overflow"
  | S depth' =>
      s ← receiver;
      match s with
      | None => throw ErrBadParcelable
      | Some _ =>
          tag ← ReadInt32;
          if tag =? ValueNull then mret VNil
          else if tag =? ValueString then v ← ReadString; mret (VString v)
          else if tag =? ValueInteger then v ← ReadInt32; mret (VInt32 v)
          else if tag =? ValueMap then
            m ← prefixed_body (ReadMap (Some (ReadDynamicValue depth', ReadDynamicValue depth')));
            mret (VMapAny m)
          else if tag =? ValueParcelable then
            name ← prefixed_body ReadString;
            throw (Errorf_w ErrUnsupported ("dynamic parcelable " +:+ quoted name
                                             +:+ " requires a typed codec")%string)
          else if tag =? ValueShort then v ← ReadInt32; mret (VInt16 (i16 v))
          else if tag =? ValueLong then v ← ReadInt64; mret (VInt64 v)
          else if tag =? ValueFloat then v ← ReadFloat32; mret (VFloat32 v)
          else if tag =? ValueDouble then v ← ReadFloat64; mret (VFloat64 v)
          else if tag =? ValueBoolean then v ← ReadBool; mret (VBool v)
          else if tag =? ValueList then
            l ← prefixed_body (ReadSlice (Some (ReadDynamicValue depth')));
            mret (VSlice l)
          else if tag =? ValueByteArray then v ← ReadBytes; mret (VBytes v)
          else if tag =? ValueStringArray then v ← readStringArray; mret (VStrings v)
          else if tag =? ValueIBinder then
            b ← ReadStrongBinder; mret (match b with None => VNil | Some b => VBinder b end)
          else if tag =? ValueIntArray then v ← readInt32Array; mret (VInt32s v)
          else if tag =? ValueLongArray then v ← readInt64Array; mret (VInt64s v)
          else if tag =? ValueByte then v ← ReadInt32; mret (VInt8 (i8 v))
          else if tag =? ValueDoubleArray then v ← readFloat64Array; mret (VFloat64s v)
          else if tag =? ValueChar then v ← ReadInt32; mret (VUint16 (u16 v))
          else if tag =? ValueShortArray then v ← readInt16Array; mret (VInt16s v)
          else if tag =? ValueCharArray then v ← readUint16Array; mret (VUint16s v)
          else if tag =? ValueFloatArray then v ← readFloat32Array; mret (VFloat32s v)
          else throw (Errorf_w ErrUnsupported ("unsupported dynamic value tag " +:+ pretty tag)%string)
      end
  end.
End Ops.

(** ** The wire image of a value, what it reads back as, and when it fits *)

Definition tagged (tag : Z) (bs : list Z) : list Z :=
  le_bytes 4 (u32 tag) ++
  (if dynamicValueLengthPrefixed tag then le_bytes 4 (u32 (len bs)) ++ bs else bs).

Definition all {A} (P : A → Prop) : list A → Prop :=
  fix go l := match l with [] => True | a :: l' => P a ∧ go l' end.

Lemma all_Forall {A} (P : A → Prop) l : all P l ↔ Forall P l.
Proof. induction l as [|a l IH]; cbn; [by split|]. by rewrite IH, Forall_cons. Qed.

Definition max_of {A} (f : A → nat) : list A → nat :=
  fix go l := match l with [] => O | a :: l' => Nat.max (f a) (go l') end.

Lemma max_of_le {A} (f : A → nat) l d : (max_of f l <= d)%nat ↔ Forall (λ a, (f a <= d)%nat) l.
Proof.
  induction l as [|a l IH]; cbn; [split; [constructor|lia]|].
  rewrite Forall_cons, <- IH. lia.
Qed.

Section Wire.
Context {B : Type} `{!BinderEq B}.

Definition null_word : list Z := le_bytes 4 (u32 ValueNull).

Definition is_int32 (v : Z) : bool := (v >=? -2147483648) && (v <=? 2147483647).

Fixpoint dyn_bytes (v : gval B) : list Z :=
  match v with
  | VNil | VStringPtr None | VMapOther None | VNamedBytes None | VSlice None | VPtr None => null_word
  | VString s | VStringPtr (Some s) => tagged ValueString (string_bytes s)
  | VInt n => if is_int32 n then tagged ValueInteger (le_bytes 4 (u32 n))
              else tagged ValueLong (le_bytes 8 (u64 n))
  | VInt32 n => tagged ValueInteger (le_bytes 4 (u32 n))
  | VInt16 n => tagged ValueShort (le_bytes 4 (u32 n))
  | VInt8 n => tagged ValueByte (le_bytes 4 (u32 n))
  | VInt64 n => tagged ValueLong (le_bytes 8 (u64 n))
  | VUint16 n => tagged ValueChar (le_bytes 4 (u32 n))
  | VBool b => tagged ValueBoolean (le_bytes 4 (Z.b2z b))
  | VFloat32 n => tagged ValueFloat (le_bytes 4 n)
  | VFloat64 n => tagged ValueDouble (le_bytes 8 n)
  | VBytes o => tagged ValueByteArray (opt_bytes blob_bytes o)
  | VNamedBytes (Some bs) => tagged ValueByteArray (blob_bytes bs)
  | VStrings o => tagged ValueStringArray (opt_bytes (slice_bytes string_bytes) o)
  | VInt32s o => tagged ValueIntArray (opt_bytes (slice_bytes (λ n, le_bytes 4 (u32 n))) o)
  | VInt64s o => tagged ValueLongArray (opt_bytes (slice_bytes (λ n, le_bytes 8 (u64 n))) o)
  | VInt16s o => tagged ValueShortArray (opt_bytes (slice_bytes (λ n, le_bytes 4 (u32 n))) o)
  | VUint16s o => tagged ValueCharArray (opt_bytes (slice_bytes (λ n, le_bytes 4 (u32 n))) o)
  | VFloat32s o => tagged ValueFloatArray (opt_bytes (slice_bytes (le_bytes 4)) o)
  | VFloat64s o => tagged ValueDoubleArray (opt_bytes (slice_bytes (le_bytes 8)) o)
  | VMapAny None => tagged ValueMap (le_bytes 4 (u32 (-1)))
  | VMapAny (Some m) | VMapOther (Some m) => tagged ValueMap (map_bytes dyn_bytes dyn_bytes m)
  | VSlice (Some l) | VArray l => tagged ValueList (slice_bytes dyn_bytes l)
  | VPtr (Some v) => dyn_bytes v
  | VBinder _ | VOther _ => []
  end.

(** The value the reader returns for it: pointers are followed, [int] takes the
    width it was sent at, every map is a [map[any]any], every list a [[]any]. *)
Fixpoint norm (v : gval B) : gval B :=
  match v with
  | VStringPtr None | VMapOther None | VNamedBytes None | VSlice None | VPtr None => VNil
  | VStringPtr (Some s) => VString s
  | VInt n => if is_int32 n then VInt32 n else VInt64 n
  | VNamedBytes (Some bs) => VBytes (Some bs)
  | VMapAny (Some m) | VMapOther (Some m) => VMapAny (Some (prod_map norm norm <$> m))
  | VSlice (Some l) | VArray l => VSlice (Some (norm <$> l))
  | VPtr (Some v) => norm v
  | _ => v
  end.

Fixpoint depth (v : gval B) : nat :=
  match v with
  | VMapAny (Some m) | VMapOther (Some m) => S (max_of (λ kv, Nat.max (depth kv.1) (depth kv.2)) m)
  | VSlice (Some l) | VArray l => S (max_of depth l)
  | VPtr (Some v) => S (depth v)
  | _ => O
  end.

Definition fits {A} (P : A → Prop) (o : option (list A)) : Prop :=
  match o with None => True | Some l => len l <= maxInt32 ∧ all P l end.

(** The values of Go's types, with valid UTF-8 strings, distinct hashable keys
    and bodies below 2 GiB; Binders go through a resolver and are treated apart. *)
Fixpoint dyn_ok (v : gval B) : Prop :=
  match v with
  | VString s | VStringPtr (Some s) => string_ok s
  | VInt n | VInt64 n => in_s 64 n
  | VInt32 n => in_s 32 n
  | VInt16 n => in_s 16 n
  | VInt8 n => in_s 8 n
  | VUint16 n => in_u 16 n
  | VFloat32 n => in_u 32 n
  | VFloat64 n => in_u 64 n
  | VBytes (Some bs) | VNamedBytes (Some bs) => blob_ok bs
  | VStrings o => fits string_ok o
  | VInt32s o => fits (in_s 32) o
  | VInt64s o => fits (in_s 64) o
  | VInt16s o => fits (in_s 16) o
  | VUint16s o => fits (in_u 16) o
  | VFloat32s o => fits (in_u 32) o
  | VFloat64s o => fits (in_u 64) o
  | VMapAny (Some m) | VMapOther (Some m) =>
      len m <= maxInt32 ∧ all (λ kv, dyn_ok kv.1 ∧ dyn_ok kv.2) m ∧
      keys_distinct (norm <$> m.*1) ∧ len (map_bytes dyn_bytes dyn_bytes m) <= maxInt32
  | VSlice (Some l) | VArray l =>
      len l <= maxInt32 ∧ all dyn_ok l ∧ len (slice_bytes dyn_bytes l) <= maxInt32
  | VPtr (Some v) => dyn_ok v
  | VBinder _ | VOther _ => False
  | _ => True
  end.
End Wire.
