(* ===== verification/ValueProps.v ===== *)
(** * ValueProps: theorems on dynamically typed values

    The round trip of src/binder/value.go, the bound on the reader's recursion,
    and the panic of the map reader on keys that cannot be hashed. *)

From stdpp Require Import base list numbers strings pretty.
From S2P Require Import Prelude Errors Unicode Parcel ParcelFacts Codec ObjectCodec Fields ParcelInv Slices Value.

Open Scope Z_scope.

Section Write.
Context {W B : Type} `{!BinderMarshal W B} `{!BinderEq B}.

Lemma position_at (p : Parcel W B) w :
  position (mkst (Some p) w) = (Ok (pos p), mkst (Some p) w).
Proof. done. Qed.

Lemma SetPosition_ok (p : Parcel W B) w n : 0 <= n <= len (buf p) →
  SetPosition n (mkst (Some p) w) = (Ok tt, mkst (Some (set_pos n p)) w).
Proof. intros H. unfold SetPosition. rewrite bind_receiver. cbn [ptr]. zif. done. Qed.

(** A word written as zero and patched after the body behind it. *)
Lemma patch_word (p : Parcel W B) w bs v : pos p = len (buf p) → len (buf p) + 4 + len bs <= maxInt →
  let p3 := p_emit (p_emit p (le_bytes 4 (u32 0)) []) bs [] in
  (SetPosition (pos p);; WriteInt32 v;; SetPosition (pos p3)) (mkst (Some p3) w) =
    (Ok tt, mkst (Some (p_emit p (le_bytes 4 (u32 v) ++ bs) [])) w).
Proof.
  intros Hp Hm p3. set (p2 := p_emit p (le_bytes 4 (u32 0)) []).
  assert (Hb2 : len (buf p2) = len (buf p) + 4)
    by (unfold p2; cbn [p_emit pos buf set_pos set_buf set_objects]; len_lia).
  assert (Hb3 : len (buf p3) = len (buf p) + 4 + len bs)
    by (unfold p3; cbn [p_emit pos buf set_pos set_buf set_objects]; len_lia).
  rewrite (bind_ok _ _ _ _ _ (SetPosition_ok p3 w (pos p) ltac:(lia))).
  assert (Hp3 : pos p3 = len (buf p2) + len bs) by done.
  assert (E := writeBlock_ok 4 (PutUint32 0 (u32 v)) (set_pos (pos p) p3) w (buf p)
                 (le_bytes 4 (u32 0)) bs ltac:(lia) Hp).
  rewrite (bind_ok _ _ _ _ _ (E ltac:(cbn [pos set_pos]; change (pad 4) with 4; lia)
     ltac:(cbn [pos set_pos buf]; lia)
     ltac:(cbn [pos set_pos buf]; change (pad 4) with 4; rewrite zeros_nil, app_nil_r by lia;
           unfold p3; cbn [p_emit buf set_pos set_buf set_objects]; by rewrite <- app_assoc)
     eq_refl ltac:(done) eq_refl)).
  set (p4 := set_buf _ _).
  assert (Hb4 : buf p4 = buf p ++ le_bytes 4 (u32 v) ++ bs) by done.
  rewrite (SetPosition_ok p4 w (pos p3) ltac:(rewrite Hb4, Hp3, !length_app, length_le_bytes; lia)).
  do 3 f_equal. unfold p_emit, set_pos, set_buf, set_objects. cbn [fmap list_fmap].
  rewrite app_nil_r, Hb4, Hp3, Hb2.
  cbn [p4 p3 p_emit objects mode flags binderResolver localBinderResolve binderObjectResolve
       localBinderObjectResolve wireFDsOwned set_pos set_buf set_objects buf pos].
  f_equal; [len_lia|by rewrite !app_nil_r].
Qed.

(** A length word that counts itself, patched once the body is written. *)
Lemma emits_backpatch (body : PM W B unit) bs : emits body tt bs [] → 4 + len bs <= maxInt32 →
  emits (start ← position; WriteInt32 0;; body;; end_ ← position;
         SetPosition start;; WriteInt32 (i32 (end_ - start));; SetPosition end_) tt
    (le_bytes 4 (u32 (4 + len bs)) ++ bs) [].
Proof.
  intros Hb Hl p w Hp Hm. rewrite length_app, length_le_bytes in Hm.
  rewrite (bind_ok _ _ _ _ _ (position_at p w)).
  rewrite (bind_ok _ _ _ _ _ (emits_WriteInt32 0 p w Hp ltac:(rewrite length_le_bytes; lia))).
  set (p2 := p_emit p (le_bytes 4 (u32 0)) []).
  assert (Hp2 : pos p2 = len (buf p2)) by (unfold p2; cbn [p_emit pos buf set_pos set_buf set_objects]; len_lia).
  assert (Hb2 : len (buf p2) = len (buf p) + 4)
    by (unfold p2; cbn [p_emit pos buf set_pos set_buf set_objects]; len_lia).
  rewrite (bind_ok _ _ _ _ _ (Hb p2 w Hp2 ltac:(lia))).
  rewrite (bind_ok _ _ _ _ _ (position_at (p_emit p2 bs []) w)).
  replace (i32 (pos (p_emit p2 bs []) - pos p)) with (4 + len bs)
    by (change (pos (p_emit p2 bs [])) with (len (buf p2) + len bs); rewrite Hp, Hb2; unfold i32; rewrite wraps_id; width).
  apply (patch_word p w bs (4 + len bs) Hp). lia.
Qed.

(** The length word is written as zero and patched after the body. *)
Lemma emits_tagged tag (body : PM W B unit) bs : emits body tt bs [] → len bs <= maxInt32 ∨
  dynamicValueLengthPrefixed tag = false →
  emits (writeDynamicTagged tag body) tt (tagged tag bs) [].
Proof.
  intros Hb Hl. unfold writeDynamicTagged, tagged.
  apply emits_bind_nil with (a := tt); [apply emits_WriteInt32|].
  destruct (dynamicValueLengthPrefixed tag); [|done]. destruct Hl as [Hl|]; [|done].
  intros p w Hp Hm. rewrite !length_app, !length_le_bytes in Hm.
  rewrite (bind_ok _ _ _ _ _ (position_at p w)).
  rewrite (bind_ok _ _ _ _ _ (emits_WriteInt32 0 p w Hp ltac:(rewrite length_le_bytes; lia))).
  set (p2 := p_emit p (le_bytes 4 (u32 0)) []).
  assert (Hp2 : pos p2 = len (buf p2)) by (unfold p2; cbn [p_emit pos buf set_pos set_buf set_objects]; len_lia).
  assert (Hb2 : len (buf p2) = len (buf p) + 4)
    by (unfold p2; cbn [p_emit pos buf set_pos set_buf set_objects]; len_lia).
  rewrite (bind_ok _ _ _ _ _ (position_at p2 w)).
  rewrite (bind_ok _ _ _ _ _ (Hb p2 w Hp2 ltac:(lia))).
  rewrite (bind_ok _ _ _ _ _ (position_at (p_emit p2 bs []) w)).
  replace (i32 (pos (p_emit p2 bs []) - pos p2)) with (len bs)
    by (change (pos (p_emit p2 bs [])) with (len (buf p2) + len bs); rewrite Hp2; unfold i32; rewrite wraps_id; width).
  apply (patch_word p w bs (len bs) Hp). lia.
Qed.

Lemma emits_slice_plain {A} (wr : A → PM W B unit) (P : A → Prop) bytes o :
  (∀ a, P a → emits (wr a) tt (bytes a) []) → fits P o →
  emits (WriteSlice o (Some wr)) tt (opt_bytes (slice_bytes bytes) o) [].
Proof.
  intros H Hf. destruct o as [l|]; [|apply emits_WriteSlice_nil]. destruct Hf as [Hl Ha].
  assert (E := emits_WriteSlice wr bytes (λ _, []) l Hl).
  unfold slice_objs in E. rewrite cat_objs_nil in E. apply E.
  apply all_Forall in Ha. eapply Forall_impl; [exact Ha|done].
Qed.

Lemma emits_list (wr : gval B → PM W B unit) l : len l <= maxInt32 →
  Forall (λ a, emits (wr a) tt (dyn_bytes a) []) l →
  emits (write_counted "list" (len l) (write_elems wr l)) tt (slice_bytes dyn_bytes l) [].
Proof.
  intros Hl Hf. unfold write_counted. zif.
  apply (emits_counted _ (len l) _ []); [lia|].
  assert (E := emits_elems wr dyn_bytes (λ _, []) l). rewrite cat_objs_nil in E. by apply E.
Qed.

Lemma emits_map (wr : gval B → PM W B unit) m : len m <= maxInt32 →
  Forall (λ kv, emits (wr kv.1) tt (dyn_bytes kv.1) [] ∧ emits (wr kv.2) tt (dyn_bytes kv.2) []) m →
  emits (write_counted "map" (len m) (write_pairs wr wr m)) tt (map_bytes dyn_bytes dyn_bytes m) [].
Proof.
  intros Hl Hf. unfold write_counted. zif.
  apply (emits_counted _ (len m) _ []); [lia|]. by apply emits_pairs.
Qed.

(** The recursive writer on the elements of a container. *)
Lemma elems_IH (P : gval B → Prop) d l : (∀ v, (depth v <= d)%nat → dyn_ok v → P v) →
  (max_of depth l <= d)%nat → all dyn_ok l → Forall P l.
Proof.
  intros IH Hd Ha. apply max_of_le in Hd. apply all_Forall in Ha.
  rewrite Forall_forall in Hd, Ha |- *. intros v Hv. apply IH; [by apply Hd|by apply Ha].
Qed.

Lemma pairs_IH (P : gval B → Prop) d m : (∀ v, (depth v <= d)%nat → dyn_ok v → P v) →
  (max_of (λ kv, Nat.max (depth kv.1) (depth kv.2)) m <= d)%nat →
  all (λ kv, dyn_ok kv.1 ∧ dyn_ok kv.2) m → Forall (λ kv, P kv.1 ∧ P kv.2) m.
Proof.
  intros IH Hd Ha. apply max_of_le in Hd. apply all_Forall in Ha.
  rewrite Forall_forall in Hd, Ha |- *. intros v Hv. specialize (Hd v Hv). destruct (Ha v Hv).
  split; apply IH; (lia || done).
Qed.

Lemma emits_leaf tag (body : PM W B unit) bs : dynamicValueLengthPrefixed tag = false →
  emits body tt bs [] → emits (writeDynamicTagged tag body) tt (tagged tag bs) [].
Proof. intros Ht Hb. apply emits_tagged; [exact Hb|by right]. Qed.

Lemma emits_i32 n : in_s 32 n → @emits W B unit (WriteInt32 (i32 n)) tt (le_bytes 4 (u32 n)) [].
Proof. intros H. unfold i32. rewrite wraps_id by (done || lia). apply emits_WriteInt32. Qed.

Definition written (v : gval B) : Prop := emits (WriteDynamicValue v) tt (dyn_bytes v) [].

(** The writer of a scalar, a string or bytes. *)
Ltac emits_prim :=
  lazymatch goal with
  | |- emits (WriteInt32 _) _ _ _ => apply emits_WriteInt32
  | |- emits write_null _ _ _ => apply emits_WriteInt32
  | |- emits (WriteInt64 _) _ _ _ => apply emits_WriteInt64
  | |- emits (WriteUint32 _) _ _ _ => apply emits_WriteUint32
  | |- emits (WriteUint64 _) _ _ _ => apply emits_WriteUint64
  | |- emits (WriteFloat32 _) _ _ _ => apply emits_WriteUint32
  | |- emits (WriteFloat64 _) _ _ _ => apply emits_WriteUint64
  | |- emits (WriteBool _) _ _ _ => apply emits_WriteBool
  | H : string_ok ?s |- emits (WriteString ?s) _ _ _ => apply emits_WriteString, H
  | |- emits (WriteBytes _) _ _ _ => by apply emits_WriteBytes
  end.

(** The body of a leaf: one of these, or a slice of them. *)
Ltac emits_leaf_body Hv :=
  first [ emits_prim | eapply emits_slice_plain; [|exact Hv]; intros; emits_prim ].

(** One level of the writer, given the elements. *)
Lemma emits_dyn_step v :
  (∀ v', (depth v' < depth v)%nat → dyn_ok v' → emits (WriteDynamicValue v') tt (dyn_bytes v') []) →
  dyn_ok v → emits (WriteDynamicValue v) tt (dyn_bytes v) [].
Proof.
  intros IH Hv. assert (IH' : ∀ v', (depth v' <= Nat.pred (depth v))%nat → (0 < depth v)%nat →
    dyn_ok v' → emits (WriteDynamicValue v') tt (dyn_bytes v') []).
  { intros v' H1 H2. apply IH. lia. }
  destruct v as [|s|[s|]|n|n|n|n|n|n|b|n|n|o|o|o|o|o|o|o|o|b|[m|]|[m|]|[bs|]|[l|]|l|[v|]|t];
    apply emits_receiver; intros _; cbn [dyn_bytes];
    cbn [dyn_ok] in Hv;
    try solve [destruct Hv | emits_prim | apply emits_leaf; [reflexivity|]; emits_leaf_body Hv].
  - change ((n >=? -2147483648) && (n <=? 2147483647)) with (is_int32 n).
    destruct (is_int32 n) eqn:E; apply emits_leaf; try reflexivity; [|apply emits_WriteInt64].
    apply emits_i32. unfold is_int32 in E. bools. unfold in_s. lia.
  - apply emits_leaf; [reflexivity|]. apply emits_blob. destruct o; [exact Hv|exact I].
  - destruct Hv as (Hl & Ha & _ & Hb). apply emits_tagged; [|by left].
    apply emits_WriteMap; [exact Hl|].
    refine (pairs_IH written (Nat.pred (depth (VMapAny (Some m)))) m _ (le_n _) Ha).
    intros v' Hd. apply IH'; [exact Hd|apply Nat.lt_0_succ].
  - apply emits_tagged; [|by left]. apply emits_receiver. intros _. apply emits_WriteInt32.
  - destruct Hv as (Hl & Ha & _ & Hb). apply emits_tagged; [|by left]. apply emits_map; [exact Hl|].
    refine (pairs_IH written (Nat.pred (depth (VMapOther (Some m)))) m _ (le_n _) Ha).
    intros v' Hd. apply IH'; [exact Hd|apply Nat.lt_0_succ].
  - destruct Hv as (Hl & Ha & Hb). apply emits_tagged; [|by left]. apply emits_list; [exact Hl|].
    refine (elems_IH written (Nat.pred (depth (VSlice (Some l)))) l _ (le_n _) Ha).
    intros v' Hd. apply IH'; [exact Hd|apply Nat.lt_0_succ].
  - destruct Hv as (Hl & Ha & Hb). apply emits_tagged; [|by left]. apply emits_list; [exact Hl|].
    refine (elems_IH written (Nat.pred (depth (VArray l))) l _ (le_n _) Ha).
    intros v' Hd. apply IH'; [exact Hd|apply Nat.lt_0_succ].
  - apply IH; [apply Nat.lt_succ_diag_r|exact Hv].
Qed.

Lemma emits_dyn v : dyn_ok v → emits (WriteDynamicValue v) tt (dyn_bytes v) [].
Proof.
  intros Hv. assert (H : ∀ d v', depth v' = d → dyn_ok v' →
                         emits (WriteDynamicValue v') tt (dyn_bytes v') []); [|by eapply H].
  induction d as [d IH] using lt_wf_ind; intros v' <- Hv'.
  apply emits_dyn_step; [|done]. intros v2 Hd. by eapply IH.
Qed.
End Write.

(** ** Reading back *)

Section Read.
Context {W B : Type} `{!BinderMarshal W B} `{!BinderEq B}.

Lemma consumes_slice_plain {A} (rd : PM W B A) (P : A → Prop) bytes o :
  (∀ a, P a → consumes rd a (bytes a) []) → fits P o →
  consumes (ReadSlice (Some rd)) o (opt_bytes (slice_bytes bytes) o) [].
Proof.
  intros H Hf. destruct o as [l|]; [|apply consumes_ReadSlice_nil]. destruct Hf as [Hl Ha].
  assert (E := consumes_ReadSlice rd id bytes (λ _, []) l Hl).
  unfold slice_objs in E. rewrite cat_objs_nil, list_fmap_id in E. apply E.
  apply all_Forall in Ha. eapply Forall_impl; [exact Ha|done].
Qed.

(** The int32 word of a narrower integer, converted back. *)
Lemma consumes_narrow (f : Z → Z) n : in_s 32 n → f n = n →
  @consumes W B _ (v ← ReadInt32; mret (f v)) n (le_bytes 4 (u32 n)) [].
Proof. intros Hn Hf. eapply consumes_fmap; [by apply consumes_ReadInt32|done]. Qed.

(** A body read after its length prefix, in front of exactly that many bytes. *)
Lemma consumes_prefixed_body {A} (body : PM W B A) a bs : len bs <= maxInt32 →
  consumes body a bs [] →
  consumes (prefixed_body body) a (le_bytes 4 (u32 (len bs)) ++ bs) [].
Proof.
  intros Hl Hb p w pre post Hbuf Hp Hm Hr. unfold prefixed_body, readDynamicLengthPrefix.
  rewrite bind_assoc. rewrite <- app_assoc in Hbuf.
  rewrite (bind_ok _ _ _ _ _ (consumes_ReadInt32 (W := W) (B := B) (len bs) ltac:(width) p w pre
             (bs ++ post) Hbuf Hp Hm ltac:(constructor))).
  rewrite ltb_false by lia. rewrite bind_assoc, (bind_ok _ _ _ _ _ (position_at _ w)), bind_ret.
  set (p1 := set_pos _ p).
  assert (Hp1 : pos p1 = len pre + 4) by (unfold p1; cbn [pos set_pos]; rewrite length_le_bytes; lia).
  assert (Hb1 : buf p1 = (pre ++ le_bytes 4 (u32 (len bs))) ++ bs ++ post)
    by (unfold p1; cbn [buf set_pos]; by rewrite Hbuf, <- app_assoc).
  rewrite (bind_ok _ _ _ _ _ (Hb p1 w _ post Hb1 ltac:(rewrite Hp1; len_lia) Hm ltac:(constructor))).
  set (p2 := set_pos _ p1).
  assert (Hp2 : pos p2 = pos p1 + len bs) by (rewrite Hp1; unfold p2; cbn [pos set_pos]; len_lia).
  unfold finishDynamicLengthPrefix. rewrite bind_assoc, (bind_ok _ _ _ _ _ (position_at _ w)).
  rewrite Hp2. zif. rewrite bind_ret. unfold mret, ST_ret. do 3 f_equal.
  unfold p2, p1, set_pos; cbn [pos buf objects mode flags binderResolver localBinderResolve
    binderObjectResolve localBinderObjectResolve wireFDsOwned]. f_equal. len_lia.
Qed.

(** A value with its tag: dispatch on the tag, then the body. *)
Lemma consumes_leaf {A} tag bs (k : Z → PM W B A) a : in_s 32 tag →
  dynamicValueLengthPrefixed tag = false → consumes (k tag) a bs [] →
  consumes (ReadInt32 ≫= k) a (tagged tag bs) [].
Proof.
  intros Ht Hp Hk. unfold tagged. rewrite Hp.
  eapply consumes_bind_nil; [by apply consumes_ReadInt32|done].
Qed.

Lemma consumes_container {A} tag bs (k : Z → PM W B A) a : in_s 32 tag →
  dynamicValueLengthPrefixed tag = true →
  consumes (k tag) a (le_bytes 4 (u32 (len bs)) ++ bs) [] →
  consumes (ReadInt32 ≫= k) a (tagged tag bs) [].
Proof.
  intros Ht Hp Hk. unfold tagged. rewrite Hp.
  eapply consumes_bind_nil; [by apply consumes_ReadInt32|done].
Qed.

(** The reader in front of a tagged value without a length prefix. *)
Local Ltac leaf := apply consumes_receiver; intros _; (apply consumes_leaf; [done|done|]).

Definition rereads (d : nat) (v : gval B) : Prop :=
  consumes (ReadDynamicValue d : PM W B _) (norm v) (dyn_bytes v) [].

Lemma consumes_null_word d : consumes (ReadDynamicValue (S d) : PM W B _) VNil null_word [].
Proof.
  apply consumes_receiver. intros _. rewrite <- (app_nil_r null_word).
  eapply consumes_bind_nil; [by apply consumes_ReadInt32|]. apply consumes_ret.
Qed.

Lemma consumes_dyn_list d l : len l <= maxInt32 → len (slice_bytes dyn_bytes l) <= maxInt32 →
  Forall (rereads d) l →
  consumes (ReadDynamicValue (S d) : PM W B _) (VSlice (Some (norm <$> l)))
    (tagged ValueList (slice_bytes dyn_bytes l)) [].
Proof.
  intros Hl Hb Hf. apply consumes_receiver. intros _. apply consumes_container; [done|done|].
  eapply consumes_fmap with (f := VSlice); [|reflexivity].
  apply consumes_prefixed_body; [done|].
  assert (E := consumes_ReadSlice (ReadDynamicValue d) norm dyn_bytes (λ _, []) l Hl Hf).
  unfold slice_objs in E. by rewrite cat_objs_nil in E.
Qed.

Lemma consumes_dyn_map d m : len m <= maxInt32 →
  len (map_bytes dyn_bytes dyn_bytes m) <= maxInt32 → keys_distinct (norm <$> m.*1) →
  Forall (λ kv, rereads d kv.1 ∧ rereads d kv.2) m →
  consumes (ReadDynamicValue (S d) : PM W B _) (VMapAny (Some (prod_map norm norm <$> m)))
    (tagged ValueMap (map_bytes dyn_bytes dyn_bytes m)) [].
Proof.
  intros Hl Hb Hk Hf. apply consumes_receiver. intros _. apply consumes_container; [done|done|].
  eapply consumes_fmap with (f := VMapAny); [|reflexivity].
  apply consumes_prefixed_body; [done|]. by apply consumes_ReadMap.
Qed.

(** The body of a leaf, read. *)
Ltac consumes_leaf_body Hv :=
  eapply consumes_fmap; [|reflexivity];
  first [ apply consumes_ReadString_id; exact Hv | apply consumes_ReadInt32; exact Hv
        | apply consumes_ReadInt64; exact Hv | apply consumes_ReadUint32; exact Hv
        | apply consumes_ReadUint64; exact Hv | apply consumes_ReadBool
        | apply consumes_ReadBytes; exact Hv
        | eapply consumes_slice_plain; [|exact Hv];
          first [ apply consumes_ReadString_id | apply consumes_ReadInt32 | apply consumes_ReadInt64
                | apply consumes_ReadUint32 | apply consumes_ReadUint64 ] ].

(** One level of the reader, given the elements. *)
Lemma rereads_step d v : dyn_ok v →
  (∀ v', (depth v' < depth v)%nat → dyn_ok v' → rereads d v') →
  (∀ v', v = VPtr (Some v') → rereads (S d) v') → rereads (S d) v.
Proof.
  intros Hv IH Hptr. unfold rereads.
  assert (IHl : ∀ l, (max_of depth l < depth v)%nat → all dyn_ok l → Forall (rereads d) l).
  { intros l Hd. apply (elems_IH (rereads d) (max_of depth l)); [|lia].
    intros v' Hd'. apply IH. lia. }
  assert (IHm : ∀ m, (max_of (λ kv, Nat.max (depth kv.1) (depth kv.2)) m < depth v)%nat →
    all (λ kv, dyn_ok kv.1 ∧ dyn_ok kv.2) m → Forall (λ kv, rereads d kv.1 ∧ rereads d kv.2) m).
  { intros m Hd. apply (pairs_IH (rereads d) (max_of (λ kv, Nat.max (depth kv.1) (depth kv.2)) m)); [|lia].
    intros v' Hd'. apply IH. lia. }
  destruct v as [|s|[s|]|n|n|n|n|n|n|b|n|n|o|o|o|o|o|o|o|o|b|[m|]|[m|]|[bs|]|[l|]|l|[v|]|t];
    cbn [dyn_bytes norm]; cbn [dyn_ok] in Hv;
    try solve [destruct Hv | apply consumes_null_word | leaf; consumes_leaf_body Hv].
  - destruct (is_int32 n) eqn:E; leaf; [|consumes_leaf_body Hv]. unfold is_int32 in E. bools.
    eapply consumes_fmap; [apply consumes_ReadInt32; unfold in_s; lia|done].
  - leaf. eapply consumes_fmap with (f := λ v, VInt16 (i16 v)); [apply consumes_ReadInt32; width|].
    f_equal. by apply wraps_id.
  - leaf. eapply consumes_fmap with (f := λ v, VInt8 (i8 v)); [apply consumes_ReadInt32; width|].
    f_equal. by apply wraps_id.
  - leaf. eapply consumes_fmap with (f := λ v, VUint16 (u16 v)); [apply consumes_ReadInt32; width|].
    f_equal. by apply wrapu_id.
  - leaf. eapply consumes_fmap; [apply consumes_blob; by destruct o|done].
  - leaf. eapply consumes_fmap; [eapply consumes_slice_plain; [|exact Hv]|done].
    intros a Ha. apply consumes_narrow; [width|by apply wraps_id].
  - leaf. eapply consumes_fmap; [eapply consumes_slice_plain; [|exact Hv]|done].
    intros a Ha. apply consumes_narrow; [width|by apply wrapu_id].
  - destruct Hv as (? & ? & ? & ?). apply consumes_dyn_map; [done..|]. apply IHm; [cbn; lia|done].
  - apply consumes_receiver; intros _. apply consumes_container; [done|done|].
    eapply consumes_fmap with (f := VMapAny); [|reflexivity].
    apply consumes_prefixed_body; [done|]. apply consumes_receiver. intros _.
    by apply consumes_null_length.
  - destruct Hv as (? & ? & ? & ?). apply consumes_dyn_map; [done..|]. apply IHm; [cbn; lia|done].
  - destruct Hv as (? & ? & ?). apply consumes_dyn_list; [done..|]. apply IHl; [cbn; lia|done].
  - destruct Hv as (? & ? & ?). apply consumes_dyn_list; [done..|]. apply IHl; [cbn; lia|done].
  - exact (Hptr v eq_refl).
Qed.

Lemma rereads_dyn n : ∀ d v, depth v = n → dyn_ok v → (n < d)%nat → rereads d v.
Proof.
  induction n as [n IH] using lt_wf_ind; intros [|d] v <- Hv Hd; [lia|].
  apply rereads_step; [done| |].
  - intros v' Hd' Hv'. eapply IH; [exact Hd'|done|done|lia].
  - intros v' ->. eapply (IH (depth v')); [cbn; lia|done|done|cbn in Hd; lia].
Qed.
End Read.

(** C3: a dynamic value (nested maps and lists, scalars of every width, strings,
    typed arrays, pointers) is read back as the value it was sent as, provided that
    it contains no Binder and no value of a type the codec refuses, its numbers are
    in the range of their types, its strings are valid UTF-8, the keys of each map
    still differ in the reader's representation (int(1) and int32(1) do not), and
    every list, map and encoded body is at most 2^31-1 long ([dyn_ok]).  Writing it to
    an append-only Parcel, rewinding and reading returns it in the reader's
    representation (pointers followed, [int] at the width it was sent, maps as
    map[any]any, lists as []any), consumes exactly its bytes, and needs no more
    nested calls than it has levels. *)
Theorem dynamic_value_roundtrip W B `{!BinderMarshal W B} `{!BinderEq B}
    (v : gval B) (d : nat) (p : Parcel W B) w :
  dyn_ok v → (depth v < d)%nat → append_ok p → len (buf p) + len (dyn_bytes v) <= maxInt →
  (WriteDynamicValue v;; SetPosition (pos p);; ReadDynamicValue d) (mkst (Some p) w) =
    (Ok (norm v), mkst (Some (p_emit p (dyn_bytes v) [])) w).
Proof.
  intros Hv Hd [Hp Ho] Hl.
  rewrite (bind_ok _ _ _ _ _ (emits_dyn v Hv p w Hp Hl)).
  rewrite (bind_ok _ _ _ _ _ (SetPosition_ok (p_emit p (dyn_bytes v) []) w (pos p)
             ltac:(cbn [p_emit buf set_pos set_buf set_objects]; rewrite length_app; lia))).
  rewrite (rereads_dyn _ d v eq_refl Hv Hd _ w (buf p) []).
  - done.
  - cbn [p_emit buf set_pos set_buf set_objects]. by rewrite app_nil_r.
  - done.
  - cbn [p_emit buf set_pos set_buf set_objects]. rewrite length_app. lia.
  - constructor.
Qed.

Global Instance unit_BinderMarshal : BinderMarshal unit unit :=
  {| as_StabilityMarshaler := λ _, None; as_Marshaler := λ _, None;
     as_StabilityProvider := λ _, None; type_name := λ _, "unit"%string |}.
Global Instance unit_BinderEq : BinderEq unit := λ _ _, true.

Definition demo_value : gval unit :=
  VMapOther (Some [(VString "a", VArray [VInt 5; VPtr (Some (VBool true)); VInt 4294967296]);
                   (VInt32 1, VMapAny (Some [(VNil, VInt16s (Some [-3]))]))]).

Lemma dynamic_value_roundtrip_witness :
  ((WriteDynamicValue demo_value;; SetPosition 0;; ReadDynamicValue 4)
     (mkst (Some (@NewParcel unit unit)) tt)).1 =
  Ok (VMapAny (Some [(VString "a", VSlice (Some [VInt32 5; VBool true; VInt64 4294967296]));
                     (VInt32 1, VMapAny (Some [(VNil, VInt16s (Some [-3]))]))])).
Proof.
  refine (f_equal fst (dynamic_value_roundtrip unit unit demo_value 4 NewParcel tt _ _ _ _)).
  - vm_compute. repeat split; try discriminate; repeat constructor.
  - vm_compute. repeat constructor.
  - split; [reflexivity|constructor].
  - vm_compute. discriminate.
Defined.

(** ** The reader's recursion *)

Section Progress.
Context {W B : Type} `{!BinderMarshal W B} `{!BinderEq B}.

(** Run with fewer than [n] bytes in front of the cursor, [m] leaves the buffer
    as it is and, when it returns, has moved the cursor on by at least [k]; it
    does not exhaust the stack. *)
Definition advances {A} (n k : Z) (m : PM W B A) : Prop :=
  ∀ p w, parcel_wf false p → len (buf p) - pos p < n →
    match m (mkst (Some p) w) with
    | (Ok _, s') => ∃ p', ptr s' = Some p' ∧ parcel_wf false p' ∧ buf p' = buf p ∧ pos p + k <= pos p'
    | (Err _, _) => True
    | (Panic y, _) => y ≠ "stack overflow"%string
    end.

Lemma advances_ret {A} n (a : A) : advances n 0 (mret a).
Proof. intros p w Hp _. exists p. split_and!; [done|done|done|lia]. Qed.

Lemma advances_throw {A} n k e : advances n k (throw e : PM W B A).
Proof. done. Qed.

Lemma advances_weaken {A} n k k' (m : PM W B A) : k' <= k → advances n k m → advances n k' m.
Proof.
  intros Hk H p w Hp Hn. specialize (H p w Hp Hn). destruct (m _) as [[a|e|y] s']; [|done..].
  destruct H as (p' & ? & ? & ? & ?). exists p'. split_and!; try done. lia.
Qed.

Lemma advances_bind {A C} n k k' (m : PM W B A) (f : A → PM W B C) :
  advances n k m → (∀ a, advances (n - k) k' (f a)) → advances n (k + k') (m ≫= f).
Proof.
  intros Hm Hf p w Hp Hn. specialize (Hm p w Hp Hn). unfold mbind, ST_bind.
  destruct (m _) as [[a|e|y] [o w']]; [|done..].
  destruct Hm as (p1 & Ho & Hp1 & Hb1 & Hk). cbn in Ho. subst o.
  assert (Hn1 : len (buf p1) - pos p1 < n - k) by (rewrite Hb1; lia).
  specialize (Hf a p1 w' Hp1 Hn1). destruct (f a _) as [[c|e|y] s2]; [|done..].
  destruct Hf as (p2 & ? & ? & Hb2 & ?). exists p2. split_and!; [done|done|congruence|lia].
Qed.

(** Sequencing in the middle of a value: no more progress is asked for. *)
Lemma advances_then {A C} n k (m : PM W B A) (f : A → PM W B C) : 0 <= k →
  advances n k m → (∀ a, advances (n - k) 0 (f a)) → advances n k (m ≫= f).
Proof. intros Hk Hm Hf. replace k with (k + 0) by lia. by apply advances_bind. Qed.

Lemma advances_any {A} n n' k (m : PM W B A) : n' <= n → advances n k m → advances n' k m.
Proof. intros Hn H p w Hp Hl. apply H; [done|lia]. Qed.

Lemma advances_block n k : advances n (if 0 <? k then pad k else 0) (readBlock k).
Proof.
  intros p w Hp _. destruct (safe_readBlock (W := W) (B := B) false k p w Hp I) as (p' & Ho & Hp' & _ & Hr).
  destruct (readBlock k _) as [[a|e|y] s']; cbn in *; [|done..].
  destruct Hr as (Hl & Hpos & Hb & _). exists p'. split_and!; [done|done|done|].
  rewrite Hpos. destruct (0 <? k) eqn:E; [lia|]. pose proof (pad_bounds k). lia.
Qed.

Lemma advances_read0 n k : advances n 0 (readBlock k).
Proof.
  eapply advances_weaken; [|apply advances_block]. destruct (0 <? k) eqn:E; bools; [|lia].
  pose proof (pad_bounds k). lia.
Qed.

Lemma advances_receiver {A} n k (f : option (Parcel W B) → PM W B A) :
  (∀ p, advances n k (f (Some p))) → advances n k (receiver ≫= f).
Proof. intros H p w Hp Hn. rewrite bind_receiver. by apply H. Qed.

Lemma advances_ReadInt32 n : advances n 4 (ReadInt32 : PM W B Z).
Proof.
  apply advances_then; [lia|apply (advances_block n 4)|]. intros a. apply advances_ret.
Qed.

Lemma advances_resolve n f : advances n 0 (resolve f : PM W B (option B)).
Proof.
  intros p w Hp _. unfold resolve. cbn [world]. destruct (f w) as [b w'].
  exists p. split_and!; [done|done|done|lia].
Qed.

(** [position] gives the cursor; a later [SetPosition] to a point not before it
    moves forward. *)
Lemma advances_finish n e : advances n 0 (finishDynamicLengthPrefix e : PM W B unit).
Proof.
  intros p w Hp Hn. unfold finishDynamicLengthPrefix. rewrite (bind_ok _ _ _ _ _ (position_at p w)).
  destruct (pos p >? e) eqn:E1; [done|]. destruct (pos p =? e) eqn:E2; bools.
  { exists p. split_and!; [done|done|done|lia]. }
  unfold SetPosition. rewrite bind_receiver. cbn [ptr].
  destruct ((e <? 0) || (e >? len (buf p))) eqn:E3; [done|]. bools.
  exists (set_pos e p). split_and!; [done| |done|cbn; lia].
  apply wf_set_pos; [done|lia|done].
Qed.

Lemma advances_prefixed {A} n (body : PM W B A) : advances (n - 4) 0 body →
  advances n 4 (prefixed_body body).
Proof.
  intros Hb. unfold prefixed_body. apply advances_then; [lia| |].
  - unfold readDynamicLengthPrefix. apply advances_then; [lia|apply advances_ReadInt32|].
    intros size. case_match; [done|]. intros p w Hp _.
    exists p. split_and!; [done|done|done|lia].
  - intros e. apply advances_then; [lia|exact Hb|]. intros a.
    apply advances_then; [lia|apply advances_finish|]. intros _. apply advances_ret.
Qed.

Lemma advances_elems {A} n (rd : PM W B A) k : advances n 0 rd → advances n 0 (read_elems rd k).
Proof.
  intros H. induction k as [|k IH]; [apply advances_ret|]. cbn [read_elems].
  apply advances_then; [lia|done|]. intros a. rewrite Z.sub_0_r.
  apply advances_then; [lia|done|]. intros l. apply advances_ret.
Qed.

Lemma advances_pairs {K V} `{GoKey K} n (rk : PM W B K) (rv : PM W B V) k acc :
  advances n 0 rk → advances n 0 rv → advances n 0 (read_pairs rk rv k acc).
Proof.
  intros Hk Hv. revert acc. induction k as [|k IH]; intros acc; [apply advances_ret|].
  cbn [read_pairs]. apply advances_then; [lia|done|]. intros a. rewrite Z.sub_0_r.
  apply advances_then; [lia|done|]. intros v. rewrite Z.sub_0_r.
  apply advances_then; [lia| |].
  - unfold map_assign. case_match; [apply advances_ret|done].
  - intros acc'. rewrite Z.sub_0_r. apply IH.
Qed.

Lemma advances_ReadSlice {A} n (rd : PM W B A) : advances (n - 4) 0 rd →
  advances n 4 (ReadSlice (Some rd)).
Proof.
  intros H. apply advances_receiver. intros _. apply advances_then; [lia|apply advances_ReadInt32|].
  intros size. case_match; [apply advances_ret|].
  apply advances_then; [lia|by apply advances_elems|]. intros l. apply advances_ret.
Qed.

Lemma advances_ReadMap {K V} `{GoKey K} n (rk : PM W B K) (rv : PM W B V) :
  advances (n - 4) 0 rk → advances (n - 4) 0 rv → advances n 4 (ReadMap (Some (rk, rv))).
Proof.
  intros Hk Hv. apply advances_receiver. intros _. apply advances_then; [lia|apply advances_ReadInt32|].
  intros size. case_match; [apply advances_ret|].
  apply advances_then; [lia|by apply advances_pairs|]. intros l. apply advances_ret.
Qed.

(** Readers made of block reads, tests and errors advance. *)
Ltac adv :=
  repeat match goal with
  | |- advances _ 0 (readBlock _) => apply advances_read0
  | |- advances _ 0 (mret _) => apply advances_ret
  | |- advances _ _ (throw _) => apply advances_throw
  | |- advances _ 0 ReadInt32 => eapply advances_weaken; [|apply advances_ReadInt32]; lia
  | |- advances _ 0 (resolve _) => apply advances_resolve
  | |- advances _ 0 (receiver ≫= _) => apply advances_receiver; intros ?
  | |- advances _ 0 (_ ≫= _) => apply advances_then; [lia| |intros ?]
  | |- advances _ 0 (ReadSlice (Some _)) => eapply advances_weaken; [|apply advances_ReadSlice]; [lia|]
  | |- advances _ 0 (match _ with _ => _ end) => case_match
  end.

Lemma advances_ReadNullableString n : advances n 0 (ReadNullableString : PM W B _).
Proof. unfold ReadNullableString. adv. Qed.

Lemma advances_ReadString n : advances n 0 (ReadString : PM W B _).
Proof. unfold ReadString. apply advances_then; [lia|apply advances_ReadNullableString|intros]. adv. Qed.

Lemma advances_ReadStrongBinder n : advances n 0 (ReadStrongBinder : PM W B _).
Proof.
  unfold ReadStrongBinder. apply advances_then; [lia| |].
  - unfold readStrongBinderObject. adv.
  - intros [[obj typ] cookie]. adv.
Qed.

(** Every level of nesting costs at least four bytes. *)
Lemma advances_dyn d : advances (4 * Z.of_nat d) 0 (ReadDynamicValue d : PM W B (gval B)).
Proof.
  induction d as [|d IH].
  { intros p w [Hp _ _ _ _ _] Hn. lia. }
  assert (IH' : ∀ n, n <= 4 * Z.of_nat d → advances n 0 (ReadDynamicValue d : PM W B (gval B)))
    by (intros n Hn; by eapply advances_any).
  cbn [ReadDynamicValue]. apply advances_receiver. intros _.
  eapply advances_weaken; [|apply advances_then; [|apply advances_ReadInt32|]]; [lia|lia|].
  intros tag. unfold ReadInt64, ReadFloat32, ReadFloat64, ReadBool, ReadBytes, readStringArray,
    readInt32Array, readInt64Array, readInt16Array, readUint16Array, readFloat32Array, readFloat64Array.
  repeat case_match; adv;
    unfold ReadInt64, ReadFloat32, ReadFloat64; adv;
    try apply advances_ReadString; try apply advances_ReadStrongBinder.
  - eapply advances_weaken; [|apply advances_prefixed]; [lia|].
    eapply advances_weaken; [|apply advances_ReadMap]; [lia|apply IH'; lia|apply IH'; lia].
  - eapply advances_weaken; [|apply advances_prefixed]; [lia|]. apply advances_ReadString.
  - eapply advances_weaken; [|apply advances_prefixed]; [lia|].
    eapply advances_weaken; [|apply advances_ReadSlice]; [lia|apply IH'; lia].
Qed.
End Progress.

Definition overflows {E A} (r : result E A) : bool :=
  match r with Panic y => String.eqb y "stack overflow" | _ => false end.

(** The recursion of the dynamic-value reader is bounded by the data: on a
    Parcel with fewer than [4 * d] unread bytes (from a peer, well-formed or
    not), [d] nested calls are enough, so the reader returns a value or an error
    (or panics on an unhashable key), never a stack overflow. *)
Theorem ReadDynamicValue_depth W B `{!BinderMarshal W B} `{!BinderEq B} (d : nat) (p : Parcel W B) w :
  parcel_wf false p → len (buf p) - pos p < 4 * Z.of_nat d →
  overflows (ReadDynamicValue d (mkst (Some p) w)).1 = false.
Proof.
  intros Hp Hn. pose proof (advances_dyn d p w Hp Hn) as H.
  destruct (ReadDynamicValue d _) as [[v|e|y] s]; [done|done|]. cbn. by apply String.eqb_neq.
Qed.

Definition nested_wire (n : nat) : list Z :=
  Nat.iter n (λ bs, tagged ValueList (le_bytes 4 1 ++ bs)) null_word.

Lemma ReadDynamicValue_depth_witness :
  overflows (ReadDynamicValue 20 (mkst (Some (set_buf (nested_wire 5) (@NewParcel unit unit))) tt)).1
  = false.
Proof.
  apply (ReadDynamicValue_depth unit unit 20 (set_buf (nested_wire 5) NewParcel) tt).
  - apply parcel_wf_raw; [|discriminate|discriminate].
    vm_compute. repeat constructor; discriminate.
  - reflexivity.
Defined.

(** ** Keys that cannot be hashed *)

Section Panics.
Context {W B : Type} `{!BinderMarshal W B} `{!BinderEq B}.

(** [m], run in front of [bs], panics with [y]. *)
Definition panics {A} (m : PM W B A) (y : string) (bs : list Z) : Prop :=
  ∀ p w pre post, buf p = pre ++ bs ++ post → pos p = len pre → len (buf p) <= maxInt →
    ∃ s, m (mkst (Some p) w) = (Panic y, s).

Lemma panics_here {A} y : panics (panic y : PM W B A) y [].
Proof. intros p w pre post _ _ _. by eexists. Qed.

Lemma panics_first {A C} (m : PM W B A) (k : A → PM W B C) y bs :
  panics m y bs → panics (m ≫= k) y bs.
Proof.
  intros H p w pre post Hb Hp Hl. destruct (H p w pre post Hb Hp Hl) as [s Hs].
  exists s. by apply bind_panic.
Qed.

Lemma panics_after {A C} (m : PM W B A) (k : A → PM W B C) a y b1 b2 :
  consumes m a b1 [] → panics (k a) y b2 → panics (m ≫= k) y (b1 ++ b2).
Proof.
  intros H1 H2 p w pre post Hb Hp Hl. rewrite <- app_assoc in Hb.
  rewrite (bind_ok _ _ _ _ _ (H1 p w pre _ Hb Hp Hl ltac:(constructor))).
  apply (H2 _ w (pre ++ b1) post); [|cbn [pos set_pos]; len_lia|done].
  cbn [buf set_pos]. by rewrite Hb, <- app_assoc.
Qed.

Lemma panics_receiver {A} (k : option (Parcel W B) → PM W B A) y bs :
  (∀ p, panics (k (Some p)) y bs) → panics (receiver ≫= k) y bs.
Proof. intros H p w pre post Hb Hp Hl. rewrite bind_receiver. by eapply H. Qed.

Lemma panics_prefixed {A} (body : PM W B A) n y bs : 0 <= n <= maxInt32 → panics body y bs →
  panics (prefixed_body body) y (le_bytes 4 (u32 n) ++ bs).
Proof.
  intros Hn Hb p w pre post Hbuf Hp Hl. unfold prefixed_body, readDynamicLengthPrefix.
  rewrite bind_assoc. revert p w pre post Hbuf Hp Hl.
  apply panics_after with (a := n); [apply consumes_ReadInt32; width|].
  intros p w pre post Hbuf Hp Hl. rewrite ltb_false by lia.
  rewrite bind_assoc, (bind_ok _ _ _ _ _ (position_at p w)), bind_ret.
  by eapply (panics_first body).
Qed.
End Panics.

(** The bytes a peer sends for a one-entry map with key [v] and a null value. *)
Definition map_of_key {B} (v : gval B) : list Z := dyn_bytes (VMapAny (Some [(v, VNil)])).

(** A received map whose key is a list, a map, a byte array or a typed array
    makes the reader panic instead of returning an error: the decoded key is
    used as a Go map key, which cannot be hashed.  The bytes are well formed and
    no local misuse is involved. *)
Theorem ReadDynamicValue_unhashable_panics W B `{!BinderMarshal W B} `{!BinderEq B}
    (v : gval B) (d : nat) (p : Parcel W B) w :
  dyn_ok v → gval_hashable (norm v) = false → (S (depth v) < d)%nat →
  buf p = map_of_key v → pos p = 0 → len (buf p) <= maxInt32 →
  ∃ s, ReadDynamicValue d (mkst (Some p) w) =
         (Panic "runtime error: hash of unhashable type", s).
Proof.
  intros Hv Hh Hd Hb Hp Hl. destruct d as [|[|d]]; [lia|lia|].
  assert (Hm : len (buf p) <= maxInt) by (unfold maxInt, maxInt32 in *; lia).
  assert (Hlb : len (map_bytes dyn_bytes dyn_bytes [(v, @VNil B)]) <= maxInt32).
  { assert (Hs : ∀ bs, tagged ValueMap bs =
      le_bytes 4 (u32 ValueMap) ++ le_bytes 4 (u32 (len bs)) ++ bs) by done.
    rewrite Hb in Hl. unfold map_of_key in Hl. cbn [dyn_bytes] in Hl.
    rewrite Hs, !length_app in Hl. lia. }
  assert (Hpan : panics (W := W) (ReadDynamicValue (S (S d)))
                   "runtime error: hash of unhashable type" (map_of_key v)).
  { apply panics_receiver. intros _.
    apply panics_after with (a := ValueMap); [by apply consumes_ReadInt32|].
    apply panics_first, (panics_prefixed _ (len (map_bytes dyn_bytes dyn_bytes [(v, @VNil B)])));
      [lia|]. apply panics_receiver. intros _.
    unfold map_bytes. apply panics_after with (a := 1); [by apply consumes_ReadInt32|].
    apply panics_first. cbn [Z.to_nat Pos.to_nat Pos.iter_op read_pairs Z.ltb Z.compare].
    unfold cat_bytes, pair_bytes. cbn [mbind list_bind]. rewrite app_nil_r.
    apply panics_after with (a := norm v); [exact (rereads_dyn (depth v) (S d) v eq_refl Hv ltac:(lia))|].
    cbn [snd dyn_bytes]. rewrite <- (app_nil_r null_word).
    apply panics_after with (a := VNil); [exact (consumes_null_word d)|].
    apply panics_first. unfold map_assign. change (hashable (norm v)) with (gval_hashable (norm v)).
    rewrite Hh. apply panics_here. }
  apply (Hpan p w [] []); [by rewrite app_nil_r|done|done].
Qed.

Lemma ReadDynamicValue_unhashable_panics_witness :
  ∃ s, ReadDynamicValue 3 (mkst (Some (set_buf (map_of_key (@VSlice unit (Some [])))
                                         (@NewParcel unit unit))) tt) =
         (Panic "runtime error: hash of unhashable type", s).
Proof.
  apply (ReadDynamicValue_unhashable_panics unit unit (VSlice (Some [])) 3).
  - vm_compute. repeat split; discriminate.
  - reflexivity.
  - repeat constructor.
  - reflexivity.
  - reflexivity.
  - discriminate.
Defined.
