(* ===== verification/Status.v ===== *)
(** * Status: the reply status header

    Models src/binder/status_codec.go (ReadException, WriteNoException,
    TryWriteException), src/internal/protocol/status.go and
    src/internal/protocol/status_codec.go (Status, ReadStatus, WriteStatus): the
    exception code, message, stack-trace header and payload in front of every
    reply, implemented twice in the repository. *)

From stdpp Require Import base list numbers strings pretty.
From S2P Require Import Prelude Errors Unicode Parcel ParcelFacts Codec Fields ParcelInv Value.

Open Scope Z_scope.

Definition exceptionHasNotedAppOpsReplyHeader : Z := -127.
Definition exceptionHasReplyHeader : Z := -128.
Definition exceptionTransactionFailed : Z := -129.

(** src/internal/protocol/status.go *)
Record Status := mkStatus { TransportErr : option error; Remote : option RemoteException }.

Definition Status_IsOK (s : Status) : bool :=
  match TransportErr s, Remote s with None, None => true | _, _ => false end.

Section Ops.
Context {W B : Type}.

Definition remaining : PM W B Z := s ← receiver; mret (Remaining s).

(** ** src/binder/status_codec.go *)

Definition skipExceptionHeader : PM W B unit :=
  headerStart ← position;
  headerAvail ← remaining;
  headerSize ← ReadInt32;
  if (headerSize <? 0) || (headerSize >? headerAvail)
  then throw (Errorf_w ErrBadParcelable ("invalid status header size " +:+ pretty headerSize)%string)
  else SetPosition (headerStart + headerSize).

(** The message, the stack trace header and the payload after the code; what is
    returned is always an error, a [*RemoteException] when all was read. *)
Definition readRemoteBody (exception : Z) : PM W B unit :=
  msg ← ReadNullableString;
  stackTraceStart ← position;
  stackTraceAvail ← remaining;
  stackTraceHeaderSize ← ReadInt32;
  if (stackTraceHeaderSize <? 0) || (stackTraceHeaderSize >? stackTraceAvail)
  then throw (Errorf_w ErrBadParcelable ("invalid remote stack trace header size "
                                          +:+ pretty stackTraceHeaderSize)%string)
  else
    (if negb (stackTraceHeaderSize =? 0) then SetPosition (stackTraceStart + stackTraceHeaderSize)
     else mret tt);;
    let message := match msg with Some m => m | None => ""%string end in
    if exception =? ExceptionServiceSpecific then
      serviceCode ← ReadInt32;
      throw (ERemote (mkRemoteException exception message serviceCode))
    else if exception =? ExceptionParcelable then
      skipExceptionHeader;;
      throw (ERemote (mkRemoteException exception message 0))
    else throw (ERemote (mkRemoteException exception message 0)).

(** A nil return is [Ok tt]. *)
Definition ReadException : PM W B unit :=
  s ← receiver;
  match s with
  | None => throw ErrBadParcelable
  | Some _ =>
      code ← ReadInt32;
      exception ← (if code =? exceptionHasNotedAppOpsReplyHeader
                   then skipExceptionHeader;; ReadInt32 else mret code);
      if exception =? exceptionHasReplyHeader then skipExceptionHeader
      else if exception =? exceptionTransactionFailed then throw ErrFailedTxn
      else if exception =? ExceptionNone then mret tt
      else readRemoteBody exception
  end.

Definition WriteNoException : PM W B unit :=
  s ← receiver;
  match s with None => throw ErrBadParcelable | Some _ => WriteInt32 ExceptionNone end.

Definition writeRemoteException (remote : option RemoteException) : PM W B unit :=
  s ← receiver;
  match s, remote with
  | None, _ => throw ErrBadParcelable
  | Some _, None => WriteNoException
  | Some _, Some r =>
      WriteInt32 (re_Code r);; WriteString (re_Message r);; WriteInt32 0;;
      if re_Code r =? ExceptionServiceSpecific then WriteInt32 (re_ServiceCode r)
      else if re_Code r =? ExceptionParcelable then WriteInt32 0
      else mret tt
  end.

(** [handled] and the write error. *)
Definition TryWriteException (err : option error) : PM W B (bool * option error) :=
  match err with
  | None => mret (false, None)
  | Some e =>
      s ← receiver;
      match s with
      | None => mret (false, Some (ESentinel ErrBadParcelable))
      | Some _ =>
          match errors_As_Remote e with
          | Some remote =>
              r ← try_ (writeRemoteException (Some remote));
              mret (true, match r with inl _ => None | inr we => Some we end)
          | None =>
              match errors_As_ServiceSpecific e with
              | Some (code, msg) =>
                  r ← try_ (writeRemoteException
                              (Some (mkRemoteException ExceptionServiceSpecific msg code)));
                  mret (true, match r with inl _ => None | inr we => Some we end)
              | None => mret (false, None)
              end
          end
      end
  end.

(** ** src/internal/protocol/status_codec.go *)

Definition skipUnusedHeader : PM W B unit :=
  headerStart ← position;
  headerAvail ← remaining;
  headerSize ← ReadInt32;
  if (headerSize <? 0) || (headerSize >? headerAvail)
  then throw (Errorf_w ErrBadParcelable ("invalid status header size " +:+ pretty headerSize)%string)
  else SetPosition (headerStart + headerSize).

(** The body of [ReadStatus]: an early [return Status{TransportErr: err}, err]
    is a thrown error. *)
Definition readStatusBody : PM W B Status :=
  code ← ReadInt32;
  exception ← (if code =? exceptionHasNotedAppOpsReplyHeader
               then skipUnusedHeader;; ReadInt32 else mret code);
  if exception =? exceptionHasReplyHeader then skipUnusedHeader;; mret (mkStatus None None)
  else if exception =? exceptionTransactionFailed then throw ErrFailedTxn
  else if exception =? ExceptionNone then mret (mkStatus None None)
  else
    msg ← ReadNullableString;
    stackTraceStart ← position;
    stackTraceAvail ← remaining;
    stackTraceHeaderSize ← ReadInt32;
    if (stackTraceHeaderSize <? 0) || (stackTraceHeaderSize >? stackTraceAvail)
    then throw (Errorf_w ErrBadParcelable ("invalid remote stack trace header size "
                                            +:+ pretty stackTraceHeaderSize)%string)
    else
      (if negb (stackTraceHeaderSize =? 0) then SetPosition (stackTraceStart + stackTraceHeaderSize)
       else mret tt);;
      let message := match msg with Some m => m | None => ""%string end in
      if exception =? ExceptionServiceSpecific then
        serviceCode ← ReadInt32;
        mret (mkStatus None (Some (mkRemoteException exception message serviceCode)))
      else if exception =? ExceptionParcelable then
        skipUnusedHeader;;
        mret (mkStatus None (Some (mkRemoteException exception message 0)))
      else mret (mkStatus None (Some (mkRemoteException exception message 0))).

(** The pair [ReadStatus] returns; a failure is in both components. *)
Definition ReadStatus : PM W B (Status * option error) :=
  s ← receiver;
  match s with
  | None => mret (mkStatus (Some (ESentinel ErrBadParcelable)) None, Some (ESentinel ErrBadParcelable))
  | Some _ =>
      r ← try_ readStatusBody;
      mret (match r with inl st => (st, None) | inr e => (mkStatus (Some e) None, Some e) end)
  end.

Definition WriteStatus (st : Status) : PM W B unit :=
  s ← receiver;
  match s with
  | None => throw ErrBadParcelable
  | Some _ =>
      match TransportErr st with
      | Some e => throw e
      | None =>
          match Remote st with
          | None => WriteInt32 ExceptionNone
          | Some r =>
              if re_Code r =? exceptionTransactionFailed then throw ErrFailedTxn
              else
                WriteInt32 (re_Code r);; WriteString (re_Message r);; WriteInt32 0;;
                if re_Code r =? ExceptionServiceSpecific then WriteInt32 (re_ServiceCode r)
                else if re_Code r =? ExceptionParcelable then WriteInt32 0
                else mret tt
          end
      end
  end.
End Ops.

(** ** Lemmas *)

Definition remote_of (st : Status) : res unit :=
  match TransportErr st, Remote st with
  | Some e, _ => Err e
  | None, Some r => Err (ERemote r)
  | None, None => Ok tt
  end.

(** The codes that are framing, not exceptions. *)
Definition exception_code (c : Z) : Prop :=
  in_s 32 c ∧ c ≠ ExceptionNone ∧ c ≠ exceptionHasNotedAppOpsReplyHeader ∧
  c ≠ exceptionHasReplyHeader ∧ c ≠ exceptionTransactionFailed.

Definition remote_ok (r : RemoteException) : Prop :=
  string_ok (re_Message r) ∧ in_s 32 (re_ServiceCode r).

(** What a reader sees: only a service-specific exception carries its code. *)
Definition remote_seen (r : RemoteException) : RemoteException :=
  mkRemoteException (re_Code r) (re_Message r)
    (if re_Code r =? ExceptionServiceSpecific then re_ServiceCode r else 0).

Definition remote_payload (r : RemoteException) : list Z :=
  if re_Code r =? ExceptionServiceSpecific then le_bytes 4 (u32 (re_ServiceCode r))
  else if re_Code r =? ExceptionParcelable then le_bytes 4 (u32 0) else [].

Definition remote_bytes (r : RemoteException) : list Z :=
  le_bytes 4 (u32 (re_Code r)) ++ string_bytes (re_Message r) ++ le_bytes 4 (u32 0) ++ remote_payload r.

Section Facts.
Context {W B : Type}.

Lemma emits_payload r : @emits W B unit
  (if re_Code r =? ExceptionServiceSpecific then WriteInt32 (re_ServiceCode r)
   else if re_Code r =? ExceptionParcelable then WriteInt32 0 else mret tt) tt (remote_payload r) [].
Proof.
  unfold remote_payload. repeat case_match; [apply emits_WriteInt32..|apply emits_ret].
Qed.

Lemma emits_remote r : remote_ok r → @emits W B unit
  (WriteInt32 (re_Code r);; WriteString (re_Message r);; WriteInt32 0;;
   if re_Code r =? ExceptionServiceSpecific then WriteInt32 (re_ServiceCode r)
   else if re_Code r =? ExceptionParcelable then WriteInt32 0 else mret tt) tt (remote_bytes r) [].
Proof.
  intros [[_ Hm] _]. unfold remote_bytes.
  eapply emits_bind_nil; [apply emits_WriteInt32|].
  eapply emits_bind_nil; [by apply emits_WriteString|].
  eapply emits_bind_nil; [apply emits_WriteInt32|]. apply emits_payload.
Qed.

(** The two decoders are the same program up to the shape of the result. *)
Definition agree (x : res unit * pst W B) (y : res Status * pst W B) : Prop :=
  x.2 = y.2 ∧
  match y.1 with
  | Ok st => x.1 = remote_of st ∧ TransportErr st = None
  | Err e => x.1 = Err e
  | Panic z => x.1 = Panic z
  end.

Lemma agree_ret s : agree ((mret tt : PM W B unit) s) ((mret (mkStatus None None) : PM W B Status) s).
Proof. done. Qed.

Lemma agree_throw e s : agree (throw e s) (throw e s).
Proof. done. Qed.

Lemma agree_remote r s : agree (throw (ERemote r) s) ((mret (mkStatus None (Some r)) : PM W B Status) s).
Proof. done. Qed.

Lemma agree_bind {A} (m : PM W B A) (k : A → PM W B unit) (k' : A → PM W B Status) s :
  (∀ a s', agree (k a s') (k' a s')) → agree ((m ≫= k) s) ((m ≫= k') s).
Proof. intros H. unfold mbind, ST_bind. destruct (m s) as [[a|e|y] s']; [apply H|done..]. Qed.

Lemma agree_if (b : bool) (m1 m2 : PM W B unit) (m1' m2' : PM W B Status) s :
  (b = true → agree (m1 s) (m1' s)) → (b = false → agree (m2 s) (m2' s)) →
  agree ((if b then m1 else m2) s) ((if b then m1' else m2') s).
Proof. destruct b; auto. Qed.

Lemma agree_skip s : agree (skipExceptionHeader s) ((skipUnusedHeader;; mret (mkStatus None None)) s).
Proof.
  change (skipUnusedHeader (W := W) (B := B)) with (skipExceptionHeader (W := W) (B := B)).
  unfold mbind, ST_bind. by destruct (skipExceptionHeader s) as [[[]|e|y] s'].
Qed.
(** Continuing after a consumed prefix. *)
Lemma consumes_run {A C} (m : PM W B A) (k : A → PM W B C) a bs p w pre post :
  consumes m a bs [] → buf p = pre ++ bs ++ post → pos p = len pre → len (buf p) <= maxInt →
  ∃ p', p' = set_pos (len pre + len bs) p ∧ buf p' = (pre ++ bs) ++ post ∧ pos p' = len (pre ++ bs) ∧
        (m ≫= k) (mkst (Some p) w) = k a (mkst (Some p') w).
Proof.
  intros Hm Hb Hp Hl. eexists. split; [done|]. split; [by cbn; rewrite <- app_assoc|].
  split; [cbn [pos set_pos]; len_lia|].
  by rewrite (bind_ok _ _ _ _ _ (Hm p w pre post Hb Hp Hl ltac:(constructor))).
Qed.

Lemma remaining_at (p : Parcel W B) w : 0 <= pos p <= len (buf p) →
  remaining (mkst (Some p) w) = (Ok (len (buf p) - pos p), mkst (Some p) w).
Proof.
  intros H. unfold remaining. rewrite bind_receiver. cbn [ptr Remaining]. unfold mret, ST_ret.
  do 2 f_equal. rewrite Z.geb_leb. destruct (len (buf p) <=? pos p) eqn:E; bools; [lia|]. by zif.
Qed.

Definition status_tail (r : RemoteException) : PM W B Status :=
  if re_Code r =? ExceptionServiceSpecific then
    serviceCode ← ReadInt32;
    mret (mkStatus None (Some (mkRemoteException (re_Code r) (re_Message r) serviceCode)))
  else if re_Code r =? ExceptionParcelable then
    skipUnusedHeader;;
    mret (mkStatus None (Some (mkRemoteException (re_Code r) (re_Message r) 0)))
  else mret (mkStatus None (Some (mkRemoteException (re_Code r) (re_Message r) 0))).

(** The decoder in front of code, message and empty stack trace. *)
Lemma readStatus_prefix r p w pre post :
  exception_code (re_Code r) → remote_ok r →
  buf p = pre ++ (le_bytes 4 (u32 (re_Code r)) ++ string_bytes (re_Message r) ++ le_bytes 4 (u32 0)) ++ post →
  pos p = len pre → len (buf p) <= maxInt →
  readStatusBody (mkst (Some p) w) =
    status_tail r (mkst (Some (set_pos (len (buf p) - len post) p)) w).
Proof.
  intros (Hc & H0 & H1 & H2 & H3) [Hm Hs] Hb Hp Hl. unfold readStatusBody. rewrite <- !app_assoc in Hb.
  edestruct (consumes_run (C := Status) ReadInt32) as (p1 & E1 & Hb1 & Hp1 & ->);
    [exact (consumes_ReadInt32 _ Hc)|exact Hb|exact Hp|exact Hl|].
  rewrite (eqb_false _ _ H1), bind_ret.
  rewrite (eqb_false _ _ H2), (eqb_false _ _ H3), (eqb_false _ _ H0).
  assert (Hl1 : len (buf p1) = len (buf p)) by (by rewrite E1).
  edestruct (consumes_run (C := Status) ReadNullableString) as (p2 & E2 & Hb2 & Hp2 & ->);
    [apply (consumes_nullable_string (Some (re_Message r))); exact Hm|exact Hb1|exact Hp1|lia|].
  assert (Hl2 : len (buf p2) = len (buf p)) by (by rewrite E2).
  rewrite (bind_ok _ _ _ (mkst (Some p2) w) (pos p2)) by done.
  rewrite (bind_ok _ _ _ _ _ (remaining_at p2 w ltac:(rewrite Hb2, Hp2; len_lia))).
  edestruct (consumes_run (C := Status) ReadInt32) as (p3 & E3 & Hb3 & Hp3 & ->);
    [apply (consumes_ReadInt32 0); done|exact Hb2|exact Hp2|lia|].
  assert (Ha : 0 <= len (buf p2) - pos p2) by (rewrite Hb2, Hp2; len_lia).
  zif. cbn [Z.eqb negb]. rewrite bind_ret. cbn zeta. unfold status_tail.
  replace p3 with (set_pos (len (buf p) - len post) p); [done|].
  rewrite E3, E2, E1. unfold set_pos; cbn [buf pos objects mode flags binderResolver localBinderResolve
    binderObjectResolve localBinderObjectResolve wireFDsOwned]. f_equal.
  change (opt_bytes string_bytes (Some (re_Message r))) with (string_bytes (re_Message r)).
  rewrite Hb, !length_app, !length_le_bytes. lia.
Qed.

Lemma skip_empty_header (p : Parcel W B) w pre post : buf p = pre ++ le_bytes 4 (u32 0) ++ post →
  pos p = len pre → len (buf p) <= maxInt →
  skipUnusedHeader (mkst (Some p) w) = (Ok tt, mkst (Some p) w).
Proof.
  intros Hb Hp Hl. unfold skipUnusedHeader.
  assert (Hlen : len (buf p) = len pre + 4 + len post) by (rewrite Hb; len_lia).
  rewrite (bind_ok _ _ _ (mkst (Some p) w) (pos p)) by done.
  rewrite (bind_ok _ _ _ _ _ (remaining_at p w ltac:(lia))).
  edestruct (consumes_run (C := unit) ReadInt32) as (p1 & E1 & Hb1 & Hp1 & ->);
    [apply (consumes_ReadInt32 0); done|exact Hb|exact Hp|exact Hl|].
  zif. unfold SetPosition. rewrite bind_receiver. cbn [ptr].
  assert (Hl1 : len (buf p1) = len (buf p)) by (by rewrite E1). zif.
  unfold store. do 3 f_equal. rewrite E1. unfold set_pos; destruct p; cbn in *. f_equal. lia.
Qed.

(** The decoder in front of a written exception and nothing else. *)
Lemma readStatus_remote r (p : Parcel W B) (w : W) pre : exception_code (re_Code r) → remote_ok r →
  buf p = pre ++ remote_bytes r → pos p = len pre → len (buf p) <= maxInt →
  readStatusBody (mkst (Some p) w) =
    (Ok (mkStatus None (Some (remote_seen r))),
     mkst (Some (set_pos (if re_Code r =? ExceptionParcelable then len (buf p) - 4 else len (buf p)) p)) w).
Proof.
  intros Hc Hr Hb Hp Hl.
  rewrite (readStatus_prefix r p w pre (remote_payload r) Hc Hr
             ltac:(rewrite Hb; unfold remote_bytes; by rewrite <- !app_assoc) Hp Hl).
  assert (Hsp : ∃ front, buf p = front ++ remote_payload r).
  { exists (pre ++ le_bytes 4 (u32 (re_Code r)) ++ string_bytes (re_Message r) ++ le_bytes 4 (u32 0)).
    rewrite Hb. unfold remote_bytes. by rewrite <- !app_assoc. }
  destruct Hsp as [front Hfront].
  assert (Hfl : len front = len (buf p) - len (remote_payload r)) by (rewrite Hfront; len_lia).
  set (end_ := len (buf p)) in *. revert Hfront Hfl. unfold status_tail, remote_seen, remote_payload.
  destruct (re_Code r =? ExceptionServiceSpecific) eqn:Es; intros Hfront Hfl.
  - assert ((re_Code r =? ExceptionParcelable) = false) as -> by (bools; rewrite Es; done).
    rewrite (bind_ok _ _ _ _ _ (consumes_ReadInt32 (W := W) (B := B) (re_ServiceCode r) (proj2 Hr)
               (set_pos (end_ - len (le_bytes 4 (u32 (re_ServiceCode r)))) p) w front []
               ltac:(cbn [buf set_pos]; by rewrite app_nil_r) ltac:(cbn [pos set_pos]; lia) Hl ltac:(constructor))).
    cbn. do 3 f_equal. unfold set_pos; cbn. f_equal. rewrite Hfl. cbn. lia.
  - destruct (re_Code r =? ExceptionParcelable) eqn:Ep.
    + rewrite (bind_ok _ _ _ _ _ (skip_empty_header (set_pos (end_ - len (le_bytes 4 (u32 0))) p) w front []
                 ltac:(cbn [buf set_pos]; by rewrite app_nil_r) ltac:(cbn [pos set_pos]; lia) Hl)).
      done.
    + cbn. do 3 f_equal. unfold set_pos; cbn. f_equal. lia.
Qed.

(** On any Parcel, the exception decoder is the status decoder. *)
Lemma ReadException_status (p : Parcel W B) (w : W) :
  agree (ReadException (mkst (Some p) w)) (readStatusBody (mkst (Some p) w)).
Proof.
  unfold ReadException. rewrite bind_receiver. cbn [ptr]. unfold readStatusBody, readRemoteBody.
  change (skipUnusedHeader (W := W) (B := B)) with (skipExceptionHeader (W := W) (B := B)).
  repeat first [ apply agree_throw | apply agree_ret | apply agree_remote | apply agree_skip
               | apply agree_if; intros _ | apply agree_bind; intros ? ? ].
Qed.

Lemma ReadException_remote r (p : Parcel W B) w pre : exception_code (re_Code r) → remote_ok r →
  buf p = pre ++ remote_bytes r → pos p = len pre → len (buf p) <= maxInt →
  ∃ p', ReadException (mkst (Some p) w) = (Err (ERemote (remote_seen r)), mkst (Some p') w).
Proof.
  intros Hc Hr Hb Hp Hl. destruct (ReadException_status p w) as [H2 H1].
  rewrite (readStatus_remote r p w pre Hc Hr Hb Hp Hl) in H1, H2. destruct (ReadException _) as [r' s']. cbn in *.
  destruct H1 as [-> _]. subst s'. by eexists.
Qed.
End Facts.

(** ** Theorems *)

(** C4: the two independent decoders of the reply status agree on every Parcel,
    well-formed or not, at every cursor: ReadException succeeds exactly when
    ReadStatus reports success, returns the same remote exception or the same
    transport error, and leaves the Parcel in the same state. *)
Theorem status_decoders_agree W B (s : pst W B) :
  let '(r, s1) := ReadException s in
  let '(q, s2) := ReadStatus s in
  s1 = s2 ∧
  match q with
  | Ok (st, None) => r = remote_of st ∧ TransportErr st = None
  | Ok (st, Some e) => r = Err e ∧ st = mkStatus (Some e) None
  | Err _ => False
  | Panic y => r = Panic y
  end.
Proof.
  destruct s as [[p|] w]; [|done]. pose proof (ReadException_status p w) as H.
  unfold ReadStatus. rewrite bind_receiver. cbn [ptr].
  destruct H as [H2 H1].
  match type of H2 with (?x.2 = ?y.2) => set (X := x) in *; set (Y := y) in * end.
  assert (E : (r ← try_ readStatusBody;
               mret match r with inl st => (st, None) | inr e => (mkStatus (Some e) None, Some e) end)
              (mkst (Some p) w) =
              match Y with
              | (Ok st, s') => (Ok (st, None), s')
              | (Err e, s') => (Ok (mkStatus (Some e) None, Some e), s')
              | (Panic z, s') => (Panic z, s')
              end).
  { unfold mbind, ST_bind, try_. fold Y. by destruct Y as [[st|e|y] s']. }
  rewrite E. destruct X as [r s1], Y as [[st|e|y] s2]; cbn in *; subst; split; try done.
Qed.

(** C5: a remote exception written as a reply status reads back as the same
    code, message and (for service-specific errors) service code, by both decoders:
    ReadStatus returns it in the status, ReadException as the error, and both leave
    the cursor behind the status, except that behind a parcelable exception it is
    left four bytes short, on the empty payload header the writer put there, which
    the reader rewinds over.  The code is any 32-bit number but 0 (no exception) and
    -127, -128 and -129, which frame a status instead of naming an exception
    ([exception_code]); the message is valid UTF-8 and fits the wire, the service code
    is 32 bits ([remote_ok]). *)
Theorem remote_status_roundtrip W B (p : Parcel W B) w r :
  exception_code (re_Code r) → remote_ok r → append_ok p →
  len (buf p) + len (remote_bytes r) <= maxInt →
  let end_ := len (buf p) + len (remote_bytes r) in
  let s' := mkst (Some (set_pos (if re_Code r =? ExceptionParcelable then end_ - 4 else end_) (p_emit p (remote_bytes r) []))) w in
  (WriteStatus (mkStatus None (Some r));; SetPosition (pos p);; ReadStatus) (mkst (Some p) w) =
    (Ok (mkStatus None (Some (remote_seen r)), None), s') ∧
  (WriteStatus (mkStatus None (Some r));; SetPosition (pos p);; ReadException) (mkst (Some p) w) =
    (Err (ERemote (remote_seen r)), s').
Proof.
  intros Hc Hr Hp Hl end_ s'. pose proof Hp as [Hpos _]. pose proof Hc as (_ & _ & _ & _ & H3).
  set (p' := p_emit p (remote_bytes r) []).
  assert (Hw : WriteStatus (mkStatus None (Some r)) (mkst (Some p) w) = (Ok tt, mkst (Some p') w)).
  { unfold WriteStatus. rewrite bind_receiver. cbn [ptr TransportErr Remote].
    rewrite (eqb_false _ _ H3). by apply emits_remote. }
  assert (Hb' : buf p' = buf p ++ remote_bytes r) by done.
  assert (Hl' : len (buf p') <= maxInt) by (rewrite Hb', length_app; lia).
  assert (Hset : SetPosition (pos p) (mkst (Some p') w) = (Ok tt, mkst (Some (set_pos (pos p) p')) w)).
  { unfold SetPosition. rewrite bind_receiver. cbn [ptr]. rewrite Hb', length_app. by zif. }
  assert (Hread : readStatusBody (mkst (Some (set_pos (pos p) p')) w) = (Ok (mkStatus None (Some (remote_seen r))), s')).
  { rewrite (readStatus_remote r (set_pos (pos p) p') w (buf p) Hc Hr Hb' Hpos Hl').
    assert (Hlr : len (buf (set_pos (pos p) p')) = end_) by (cbn [buf set_pos]; rewrite Hb', length_app; unfold end_; lia).
    by rewrite Hlr. }
  rewrite !(bind_ok _ _ _ _ _ Hw), !(bind_ok _ _ _ _ _ Hset). split.
  - unfold ReadStatus. rewrite bind_receiver. cbn [ptr]. unfold mbind, ST_bind, try_. by rewrite Hread.
  - destruct (ReadException_status (set_pos (pos p) p') w) as [H2 H1]. rewrite Hread in H1, H2.
    destruct (ReadException _) as [r' s1]. cbn in H1, H2. destruct H1 as [-> _]. by subst s1.
Qed.

Definition demo_remote : RemoteException := mkRemoteException ExceptionServiceSpecific "no" 7.

Lemma remote_status_roundtrip_witness :
  ((WriteStatus (mkStatus None (Some demo_remote));; SetPosition 0;; ReadStatus)
     (mkst (Some (@NewParcel unit unit)) tt)).1 = Ok (mkStatus None (Some demo_remote), None) ∧
  ((WriteStatus (mkStatus None (Some demo_remote));; SetPosition 0;; ReadException)
     (mkst (Some (@NewParcel unit unit)) tt)).1 = Err (ERemote demo_remote).
Proof.
  destruct (remote_status_roundtrip unit unit NewParcel tt demo_remote) as [H1 H2].
  - repeat split; discriminate.
  - repeat split; vm_compute; discriminate.
  - split; [reflexivity|constructor].
  - vm_compute. discriminate.
  - split; [exact (f_equal fst H1)|exact (f_equal fst H2)].
Defined.

(** TryWriteException handles exactly the errors that carry a remote
    exception or a service-specific error (however deeply wrapped), and then
    writes it; any other error is left to the transport and the Parcel untouched. *)
Theorem TryWriteException_spec W B (p : Parcel W B) w e :
  let remote := match errors_As_Remote e with
                | Some r => Some r
                | None => match errors_As_ServiceSpecific e with
                          | Some (code, msg) => Some (mkRemoteException ExceptionServiceSpecific msg code)
                          | None => None
                          end
                end in
  match remote with
  | Some r =>
      remote_ok r → append_ok p → len (buf p) + len (remote_bytes r) <= maxInt →
      TryWriteException (Some e) (mkst (Some p) w) =
        (Ok (true, None), mkst (Some (p_emit p (remote_bytes r) [])) w)
  | None => TryWriteException (Some e) (mkst (Some p) w) = (Ok (false, None), mkst (Some p) w)
  end.
Proof.
  assert (H : ∀ r, remote_ok r → append_ok p → len (buf p) + len (remote_bytes r) <= maxInt →
    (r0 ← try_ (writeRemoteException (Some r));
     mret (true, match r0 with inl _ => None | inr we => Some we end)) (mkst (Some p) w) =
    (Ok (true, None), mkst (Some (p_emit p (remote_bytes r) [])) w)).
  { intros r Hr [Hp _] Hl. unfold mbind at 1, ST_bind at 1, try_.
    assert (E : writeRemoteException (Some r) (mkst (Some p) w) =
                (Ok tt, mkst (Some (p_emit p (remote_bytes r) [])) w)).
    { unfold writeRemoteException. rewrite bind_receiver. by apply emits_remote. }
    by rewrite E. }
  cbn zeta. unfold TryWriteException.
  destruct (errors_As_Remote e) as [r|] eqn:Er; [intros; rewrite bind_receiver; cbn [ptr]; by apply H|].
  destruct (errors_As_ServiceSpecific e) as [[c m]|] eqn:Es.
  - intros. rewrite bind_receiver. cbn [ptr]. by apply H.
  - by rewrite bind_receiver.
Qed.

(** An error that carries a remote exception with code zero is lost: the
    handler reports it as handled, yet the caller decodes the reply as success. *)
Theorem exception_code_zero_lost W B (w : W) msg code :
  string_ok msg → len (remote_bytes (mkRemoteException 0 msg code)) <= maxInt → in_s 32 code →
  ((h ← TryWriteException (Some (EWrap (ERemote (mkRemoteException 0 msg code)) "call failed"));
    SetPosition 0;; ReadException;; mret h) (mkst (Some (@NewParcel W B)) w)).1 = Ok (true, None).
Proof.
  intros Hm Hl Hc. set (r := mkRemoteException 0 msg code).
  assert (Hw : TryWriteException (Some (EWrap (ERemote r) "call failed")) (mkst (Some (@NewParcel W B)) w)
               = (Ok (true, None), mkst (Some (p_emit NewParcel (remote_bytes r) [])) w)).
  { unfold TryWriteException. rewrite bind_receiver. cbn [ptr errors_As_Remote].
    unfold mbind at 1, ST_bind at 1, try_, writeRemoteException. rewrite bind_receiver. cbn [ptr].
    rewrite (emits_remote r (conj Hm Hc) NewParcel w eq_refl Hl). done. }
  rewrite (bind_ok _ _ _ _ _ Hw).
  assert (Hb : buf (p_emit (@NewParcel W B) (remote_bytes r) []) = remote_bytes r) by done.
  rewrite (bind_ok _ _ _ (mkst (Some (set_pos 0 (p_emit NewParcel (remote_bytes r) []))) w) tt).
  2: { unfold SetPosition. rewrite bind_receiver. cbn [ptr]. rewrite Hb. by zif. }
  unfold ReadException. rewrite bind_assoc, bind_receiver. cbn [ptr].
  rewrite bind_assoc.
  rewrite (bind_ok _ _ _ _ _ (consumes_ReadInt32 (W := W) (B := B) 0 ltac:(done)
             (set_pos 0 (p_emit NewParcel (remote_bytes r) [])) w []
             (string_bytes msg ++ le_bytes 4 (u32 0) ++ remote_payload r) eq_refl eq_refl
             ltac:(cbn [buf set_pos]; rewrite Hb; exact Hl) ltac:(constructor))).
  done.
Qed.

Lemma exception_code_zero_lost_witness :
  ((h ← TryWriteException (Some (EWrap (ERemote (mkRemoteException 0 "x" 0)) "call failed"));
    SetPosition 0;; ReadException;; mret h) (mkst (Some (@NewParcel unit unit)) tt)).1 = Ok (true, None).
Proof.
  apply (exception_code_zero_lost unit unit tt "x" 0).
  - vm_compute. repeat split; discriminate.
  - vm_compute. discriminate.
  - vm_compute. repeat split; discriminate.
Defined.

Lemma safe_position W B : safe_ false (position : PM W B Z).
Proof. apply safe_receiver. intros p w Hp _. apply outcome_ok; [done|lia|done]. Qed.

Lemma safe_remaining W B : safe_ false (remaining : PM W B Z).
Proof. apply safe_receiver. intros p w Hp _. apply outcome_ok; [done|lia|done]. Qed.

Lemma safe_SetPosition_any W B n : safe_ false (SetPosition n : PM W B unit).
Proof. by apply safe_SetPosition. Qed.

#[export] Hint Resolve safe_position safe_remaining safe_SetPosition_any : binder.

Lemma safe_skipExceptionHeader W B : safe_ false (skipExceptionHeader : PM W B unit).
Proof. unfold skipExceptionHeader. safe_tac. Qed.

#[export] Hint Resolve safe_skipExceptionHeader : binder.

(** Decoding a status off arbitrary received bytes never panics and keeps
    the Parcel well-formed: the cursor stays inside the buffer whatever header
    sizes the peer announced. *)
Theorem ReadException_safe W B (p : Parcel W B) w : parcel_wf false p →
  let '(r, s) := ReadException (mkst (Some p) w) in
  (∃ p', ptr s = Some p' ∧ parcel_wf false p') ∧ ∀ y, r ≠ Panic y.
Proof.
  intros Hp. assert (H : safe_ false (ReadException : PM W B unit)).
  { apply safe_receiver. intros p0 w0 Hp0 _. apply outcome_safe; [done|]. apply safe_of_.
    unfold readRemoteBody. cbn zeta. safe_tac. }
  destruct (H p w Hp I) as (p' & ? & ? & _ & Hr). destruct (ReadException _) as [r s].
  split; [by exists p'|]. by intros y ->.
Qed.

Lemma ReadException_safe_witness :
  let '(r, s) := ReadException (mkst (Some (set_buf [129; 255; 255; 255; 255; 255; 0; 0] (@NewParcel unit unit))) tt) in
  (∃ p', ptr s = Some p' ∧ parcel_wf false p') ∧ ∀ y, r ≠ Panic y.
Proof.
  apply (ReadException_safe unit unit (set_buf [129; 255; 255; 255; 255; 255; 0; 0] NewParcel) tt).
  apply parcel_wf_raw; [repeat constructor; discriminate|discriminate|discriminate].
Defined.

(** ** The status of success *)

Section Success.
Context {W B : Type}.

Lemma emits_ok_status : @emits W B unit (WriteStatus (mkStatus None None)) tt (le_bytes 4 (u32 0)) [].
Proof. intros p w Hp Hl. unfold WriteStatus. rewrite bind_receiver. cbn. by apply emits_WriteInt32. Qed.

Lemma consumes_ok_ReadStatus : @consumes W B _ ReadStatus (mkStatus None None, None) (le_bytes 4 (u32 0)) [].
Proof.
  intros p w pre post Hb Hp Hl Hr. unfold ReadStatus. rewrite bind_receiver. cbn [ptr].
  assert (E : try_ readStatusBody (mkst (Some p) w) = (Ok (inl (mkStatus None None)), mkst (Some (set_pos (len pre + 4) p)) w)).
  { unfold try_, readStatusBody.
    rewrite (bind_ok _ _ _ _ _ (consumes_ReadInt32 (W := W) (B := B) 0 ltac:(done) p w pre post Hb Hp Hl Hr)). done. }
  by rewrite (bind_ok _ _ _ _ _ E).
Qed.
End Success.
