(* ===== verification/Refs.v ===== *)
(** * Refs: reference counting of remote Binder handles

    Models src/internal/runtime/refs.go (RefTracker) and the part of src/conn.go
    that drives it (ensureHandleAcquired, releaseBinder, releaseWatch,
    markHandleAcquired, releaseKernelHandle).  Every method of the tracker runs
    under its mutex, so a method is one atomic function on the tracker; the
    goroutines that call them interleave, which [ref_step] describes, with the
    kernel's own count of the references this process holds. *)

From stdpp Require Import base list numbers gmap relations.
From S2P Require Import Prelude.

Open Scope Z_scope.

(** ** The tracker *)

(** A channel is its number of creation; [Wait = None] is a nil channel. *)
Record HandleRef := mkHandleRef {
  BinderRefs : Z;
  WatchRefs : Z;
  Acquired : bool;
  Acquiring : bool;
  ReleaseAfterAcquire : bool;
  Wait : option nat;
}.

(** [nextChan] numbers the channels [make] creates, [closedChans] lists the
    channels closed so far, the last one first. *)
Record RefTracker := mkRefTracker {
  handles : gmap Z HandleRef;
  nextChan : nat;
  closedChans : list nat;
}.

Definition NewRefTracker : RefTracker := mkRefTracker ∅ 0 [].

Definition emptyRef : HandleRef := mkHandleRef 0 0 false false false None.

(** [ensure] without the insertion: the entry, a zero one if there is none. *)
Definition ensure (r : RefTracker) (h : Z) : HandleRef := default emptyRef (handles r !! h).

Definition set_ref (h : Z) (ref : HandleRef) (r : RefTracker) : RefTracker :=
  mkRefTracker (<[h := ref]> (handles r)) (nextChan r) (closedChans r).

Definition del_ref (h : Z) (r : RefTracker) : RefTracker :=
  mkRefTracker (delete h (handles r)) (nextChan r) (closedChans r).

(** [if wait != nil { close(wait) }]. *)
Definition close_chan (wait : option nat) (r : RefTracker) : RefTracker :=
  match wait with
  | None => r
  | Some c => mkRefTracker (handles r) (nextChan r) (c :: closedChans r)
  end.

Definition RetainBinder (h : Z) (r : RefTracker) : RefTracker :=
  if h =? 0 then r
  else let ref := ensure r h in
       set_ref h (mkHandleRef (BinderRefs ref + 1) (WatchRefs ref) (Acquired ref) (Acquiring ref)
                    false (Wait ref)) r.

Definition RetainWatch (h : Z) (r : RefTracker) : RefTracker :=
  if h =? 0 then r
  else let ref := ensure r h in
       set_ref h (mkHandleRef (BinderRefs ref) (WatchRefs ref + 1) (Acquired ref) (Acquiring ref)
                    false (Wait ref)) r.

(** Whether the caller must acquire, and the channel to wait on otherwise. *)
Definition BeginAcquire (h : Z) (r : RefTracker) : (bool * option nat) * RefTracker :=
  if h =? 0 then ((false, None), r)
  else
    let ref := ensure r h in
    let r := set_ref h ref r in
    if Acquired ref then ((false, None), r)
    else if Acquiring ref then ((false, Wait ref), r)
    else
      let c := nextChan r in
      ((true, None),
       mkRefTracker
         (<[h := mkHandleRef (BinderRefs ref) (WatchRefs ref) (Acquired ref) true
                   (ReleaseAfterAcquire ref) (Some c)]> (handles r)) (S c) (closedChans r)).

Definition FinishAcquire (h : Z) (ok : bool) (r : RefTracker) : bool * RefTracker :=
  if h =? 0 then (false, r)
  else
    match handles r !! h with
    | None => (false, r)
    | Some ref =>
        let ref' := mkHandleRef (BinderRefs ref) (WatchRefs ref) (Acquired ref || ok) false
                      (ReleaseAfterAcquire ref) None in
        let '(shouldRelease, r') :=
          if ReleaseAfterAcquire ref && (BinderRefs ref + WatchRefs ref =? 0)
          then (ok, del_ref h r)
          else if negb (Acquired ref') && (BinderRefs ref + WatchRefs ref =? 0)
          then (false, del_ref h r)
          else (false, set_ref h ref' r) in
        (shouldRelease, close_chan (Wait ref) r')
    end.

Definition MarkAcquired (h : Z) (r : RefTracker) : RefTracker :=
  if h =? 0 then r
  else
    let ref := ensure r h in
    if Acquiring ref
    then close_chan (Wait ref)
           (set_ref h (mkHandleRef (BinderRefs ref) (WatchRefs ref) true false
                         (ReleaseAfterAcquire ref) None) r)
    else set_ref h (mkHandleRef (BinderRefs ref) (WatchRefs ref) true false
                      (ReleaseAfterAcquire ref) (Wait ref)) r.

Definition release (h : Z) (binder : bool) (r : RefTracker) : bool * RefTracker :=
  if h =? 0 then (false, r)
  else
    match handles r !! h with
    | None => (false, r)
    | Some ref =>
        let b := if binder then (if BinderRefs ref >? 0 then BinderRefs ref - 1 else BinderRefs ref)
                 else BinderRefs ref in
        let w := if binder then WatchRefs ref
                 else (if WatchRefs ref >? 0 then WatchRefs ref - 1 else WatchRefs ref) in
        if b + w >? 0
        then (false, set_ref h (mkHandleRef b w (Acquired ref) (Acquiring ref)
                                  (ReleaseAfterAcquire ref) (Wait ref)) r)
        else if Acquiring ref
        then (false, set_ref h (mkHandleRef b w (Acquired ref) (Acquiring ref) true (Wait ref)) r)
        else (Acquired ref, del_ref h r)
    end.

Definition ReleaseBinder (h : Z) (r : RefTracker) : bool * RefTracker := release h true r.
Definition ReleaseWatch (h : Z) (r : RefTracker) : bool * RefTracker := release h false r.

(** *** Snapshot *)

Record HandleRefSnapshot := mkHandleRefSnapshot {
  snap_Handle : Z; snap_BinderRefs : Z; snap_WatchRefs : Z;
  snap_Acquired : bool; snap_Acquiring : bool; snap_ReleaseAfterAcquire : bool;
}.

Record RefSnapshot := mkRefSnapshot {
  sn_Handles : list HandleRefSnapshot;
  sn_HandleCount : Z;
  sn_BinderRefs : Z;
  sn_WatchRefs : Z;
  sn_AcquiredCount : Z;
  sn_AcquiringCount : Z;
}.

Definition snap_of (kv : Z * HandleRef) : HandleRefSnapshot :=
  mkHandleRefSnapshot kv.1 (BinderRefs kv.2) (WatchRefs kv.2) (Acquired kv.2) (Acquiring kv.2)
    (ReleaseAfterAcquire kv.2).

Definition snap_add (out : RefSnapshot) (kv : Z * HandleRef) : RefSnapshot :=
  mkRefSnapshot (sn_Handles out ++ [snap_of kv]) (sn_HandleCount out)
    (sn_BinderRefs out + BinderRefs kv.2) (sn_WatchRefs out + WatchRefs kv.2)
    (if Acquired kv.2 then sn_AcquiredCount out + 1 else sn_AcquiredCount out)
    (if Acquiring kv.2 then sn_AcquiringCount out + 1 else sn_AcquiringCount out).

(** A nil tracker gives the zero snapshot; the map is visited in some order. *)
Definition Snapshot (r : option RefTracker) : RefSnapshot :=
  match r with
  | None => mkRefSnapshot [] 0 0 0 0 0
  | Some r =>
      let kvs := map_to_list (handles r) in
      foldl snap_add (mkRefSnapshot [] (Z.of_nat (size (handles r))) 0 0 0 0) kvs
  end.

(** ** Interleavings

    One handle, its tracker entry, and what the goroutines using it have in
    flight: acquires sent and not answered, answered and not yet reported to the
    tracker, and releases owed to the kernel.  [kernel] is the driver's count of
    the strong references this process holds on the handle; [delivered] counts
    the ones the transport took for a received Parcel (acquireParcelObjects)
    whose Binder has not been read yet.  Two counters are the ledger of what goes
    wrong: [leaked] references that nothing will release any more, [overdrawn]
    references the tracker believes in and the kernel does not hold. *)
Record refsys := mkSys {
  tracker : RefTracker;
  requested : nat;   (* BeginAcquire said true; the worker has not answered *)
  granted : nat;     (* the kernel acquired; FinishAcquire(_, true) is due *)
  refused : nat;     (* the acquire failed or was cancelled; FinishAcquire(_, false) is due *)
  orphaned : nat;    (* acquires queued at the worker whose caller has gone *)
  owed : nat;        (* ReleaseHandle calls due *)
  delivered : nat;   (* received in a Parcel, MarkAcquired not yet called *)
  leaked : nat;
  overdrawn : nat;
  kernel : Z;
}.

Definition idle_sys : refsys := mkSys NewRefTracker 0 0 0 0 0 0 0 0 0.

(** [releaseBinder] / [releaseWatch] of src/conn.go: a release the tracker asks
    for is a kernel release owed. *)
Definition owe (b : bool) (n : nat) : nat := if b then S n else n.

Definition entry_acquired (o : option HandleRef) : bool :=
  match o with Some ref => Acquired ref | None => false end.

Definition entry_acquiring (o : option HandleRef) : bool :=
  match o with Some ref => Acquiring ref | None => false end.

(** A granted acquire finds no entry, or one that MarkAcquired has completed:
    its reference is nobody's. *)
Definition finish_ok_leaks (o : option HandleRef) : bool :=
  match o with Some ref => Acquired ref | None => true end.

(** A failed acquire removes an entry that MarkAcquired has completed. *)
Definition finish_fail_leaks (o : option HandleRef) : bool :=
  match o with
  | Some ref => Acquired ref && ReleaseAfterAcquire ref && (BinderRefs ref + WatchRefs ref =? 0)
  | None => false
  end.

(** [markHandleAcquired] of src/conn.go, called for every Binder read from a
    Parcel.  The transport's reference becomes the entry's, or is surplus when
    the entry has one; reading the Binder again claims no new reference, and
    claims one that is not there when the entry has none. *)
Definition mark (h : Z) (s : refsys) : refsys :=
  let had := entry_acquired (handles (tracker s) !! h) in
  match delivered s with
  | S n => mkSys (MarkAcquired h (tracker s)) (requested s) (granted s) (refused s) (orphaned s) (owed s) n
             (owe had (leaked s)) (overdrawn s) (kernel s)
  | O => mkSys (MarkAcquired h (tracker s)) (requested s) (granted s) (refused s) (orphaned s) (owed s) 0
           (leaked s) (owe (negb had) (overdrawn s)) (kernel s)
  end.

(** The steps of an orderly program: acquires are answered to a caller that
    still waits, releases reach the kernel, and a Binder is read from a received
    Parcel once, while the tracker has no reference to the handle and none on
    its way. *)
Inductive orderly_step (h : Z) : refsys → refsys → Prop :=
| StepRetainBinder s :
    orderly_step h s (mkSys (RetainBinder h (tracker s)) (requested s) (granted s) (refused s) (orphaned s)
                        (owed s) (delivered s) (leaked s) (overdrawn s) (kernel s))
| StepRetainWatch s :
    orderly_step h s (mkSys (RetainWatch h (tracker s)) (requested s) (granted s) (refused s) (orphaned s)
                        (owed s) (delivered s) (leaked s) (overdrawn s) (kernel s))
| StepRelease s binder rel tr :
    release h binder (tracker s) = (rel, tr) →
    orderly_step h s (mkSys tr (requested s) (granted s) (refused s) (orphaned s) (owe rel (owed s))
                        (delivered s) (leaked s) (overdrawn s) (kernel s))
| StepBegin s need wait tr :
    BeginAcquire h (tracker s) = ((need, wait), tr) →
    orderly_step h s (mkSys tr (owe need (requested s)) (granted s) (refused s) (orphaned s) (owed s)
                        (delivered s) (leaked s) (overdrawn s) (kernel s))
| StepKernelAcquire s n :
    requested s = S n →
    orderly_step h s (mkSys (tracker s) n (S (granted s)) (refused s) (orphaned s) (owed s)
                        (delivered s) (leaked s) (overdrawn s) (kernel s + 1))
| StepKernelRefuse s n :
    requested s = S n →
    orderly_step h s (mkSys (tracker s) n (granted s) (S (refused s)) (orphaned s) (owed s)
                        (delivered s) (leaked s) (overdrawn s) (kernel s))
| StepFinishOk s n rel tr :
    granted s = S n → FinishAcquire h true (tracker s) = (rel, tr) →
    orderly_step h s (mkSys tr (requested s) n (refused s) (orphaned s) (owe rel (owed s)) (delivered s)
                        (owe (finish_ok_leaks (handles (tracker s) !! h)) (leaked s)) (overdrawn s) (kernel s))
| StepFinishFail s n rel tr :
    refused s = S n → FinishAcquire h false (tracker s) = (rel, tr) →
    orderly_step h s (mkSys tr (requested s) (granted s) n (orphaned s) (owe rel (owed s)) (delivered s)
                        (owe (finish_fail_leaks (handles (tracker s) !! h)) (leaked s)) (overdrawn s) (kernel s))
| StepKernelRelease s n :
    owed s = S n →
    orderly_step h s (mkSys (tracker s) (requested s) (granted s) (refused s) (orphaned s) n
                        (delivered s) (leaked s) (overdrawn s) (kernel s - 1))
| StepReceive s :
    orderly_step h s (mkSys (tracker s) (requested s) (granted s) (refused s) (orphaned s) (owed s)
                        (S (delivered s)) (leaked s) (overdrawn s) (kernel s + 1))
| StepMarkFirst s n :
    delivered s = S n → entry_acquired (handles (tracker s) !! h) = false →
    entry_acquiring (handles (tracker s) !! h) = false →
    orderly_step h s (mark h s).

(** Everything the process can do.  [Do] of src/internal/kernel/client_worker.go
    lets the caller of an acquire give up: FinishAcquire(_, false) is due at
    once, and the task stays with the worker, which runs it later (nobody is
    told) or not at all; it may also have run when the caller gives up.  A
    Binder may be read at any time and again; releaseKernelHandle gives up after
    two seconds, and a release that no worker runs is lost. *)
Inductive ref_step (h : Z) : refsys → refsys → Prop :=
| StepOrderly s s' : orderly_step h s s' → ref_step h s s'
| StepMark s : ref_step h s (mark h s)
| StepCancel s n :
    requested s = S n →
    ref_step h s (mkSys (tracker s) n (granted s) (S (refused s)) (S (orphaned s)) (owed s)
                    (delivered s) (leaked s) (overdrawn s) (kernel s))
| StepCancelGranted s n :
    granted s = S n →
    ref_step h s (mkSys (tracker s) (requested s) n (S (refused s)) (orphaned s) (owed s)
                    (delivered s) (S (leaked s)) (overdrawn s) (kernel s))
| StepOrphanAcquire s n :
    orphaned s = S n →
    ref_step h s (mkSys (tracker s) (requested s) (granted s) (refused s) n (owed s)
                    (delivered s) (S (leaked s)) (overdrawn s) (kernel s + 1))
| StepOrphanDrop s n :
    orphaned s = S n →
    ref_step h s (mkSys (tracker s) (requested s) (granted s) (refused s) n (owed s)
                    (delivered s) (leaked s) (overdrawn s) (kernel s))
| StepReleaseLost s n :
    owed s = S n →
    ref_step h s (mkSys (tracker s) (requested s) (granted s) (refused s) (orphaned s) n
                    (delivered s) (S (leaked s)) (overdrawn s) (kernel s)).

(** ** The kernel's count is balanced *)

Definition inflight (s : refsys) : nat := (requested s + granted s + refused s)%nat.

(** The ledger: what the kernel holds against who answers for it. *)
Definition ledger (h : Z) (s : refsys) : Prop :=
  kernel s + Z.of_nat (overdrawn s) =
  Z.of_nat (owed s) + Z.of_nat (granted s) + Z.b2z (entry_acquired (handles (tracker s) !! h))
  + Z.of_nat (delivered s) + Z.of_nat (leaked s).

Record ref_inv (h : Z) (s : refsys) : Prop := {
  ri_some ref : handles (tracker s) !! h = Some ref →
    0 <= BinderRefs ref ∧ 0 <= WatchRefs ref ∧ (Acquired ref = true → Acquiring ref = false);
  ri_kernel : ledger h s;
}.

(** In an orderly program an entry is being acquired exactly while one acquire
    is in flight, and nothing is leaked or overdrawn. *)
Record orderly_inv (h : Z) (s : refsys) : Prop := {
  oi_none : handles (tracker s) !! h = None → inflight s = 0%nat;
  oi_some ref : handles (tracker s) !! h = Some ref →
    inflight s = (if Acquiring ref then 1 else 0)%nat ∧
    (ReleaseAfterAcquire ref = true → Acquiring ref = true ∧ BinderRefs ref + WatchRefs ref = 0);
  oi_clean : leaked s = 0%nat ∧ overdrawn s = 0%nat ∧ orphaned s = 0%nat;
}.

Lemma close_chan_handles c r : handles (close_chan c r) = handles r.
Proof. by destruct c. Qed.

(** Case analysis of a step on the entry of the handle. *)
Ltac entry s h Hi :=
  destruct (handles (tracker s) !! h) as [[b w aq ag raa wt]|] eqn:E;
  [destruct (ri_some _ _ Hi _ E) as (? & ? & Hag);
   destruct aq, ag; try (discriminate (Hag eq_refl)); destruct raa|];
  pose proof (ri_kernel _ _ Hi) as Hk; unfold ledger in Hk; rewrite E in Hk;
  cbn [entry_acquired entry_acquiring finish_ok_leaks finish_fail_leaks Acquired Acquiring BinderRefs
       WatchRefs ReleaseAfterAcquire andb negb] in *.

(** The invariant of the state after a step, from the facts before it. *)
Ltac ref_fin E :=
  split; unfold ledger;
  cbn [tracker requested granted refused orphaned owed delivered leaked overdrawn kernel];
  rewrite ?close_chan_handles;
  cbn [handles set_ref del_ref]; rewrite ?lookup_insert_eq, ?lookup_delete_eq, ?E;
  intros; simplify_eq; cbn in *; bools; split_and?; try done; try lia;
  repeat match goal with |- context [owe ?x _] => destruct x; cbn in *; try lia end.

Lemma mark_inv h s : h ≠ 0 → ref_inv h s → ref_inv h (mark h s).
Proof.
  intros Hh Hi. assert (H0 : (h =? 0) = false) by (by apply Z.eqb_neq).
  unfold mark, MarkAcquired, ensure. rewrite H0. destruct (delivered s) as [|n] eqn:Ed;
    entry s h Hi; cbn [default from_option id emptyRef Acquiring negb]; ref_fin E.
Qed.

Lemma orderly_step_inv h s s' : h ≠ 0 → ref_inv h s → orderly_step h s s' → ref_inv h s'.
Proof.
  intros Hh Hi Hs. assert (H0 : (h =? 0) = false) by (by apply Z.eqb_neq).
  destruct Hs as [s|s|s bi rel tr Hr|s need wait tr Hb|s n Hn|s n Hn|s n rel tr Hn Hf|s n rel tr Hn Hf|s n Hn
                 |s|s n Hn].
  - unfold RetainBinder, ensure. rewrite H0. entry s h Hi; ref_fin E.
  - unfold RetainWatch, ensure. rewrite H0. entry s h Hi; ref_fin E.
  - unfold release in Hr. rewrite H0 in Hr. entry s h Hi; cbn in Hr;
      destruct bi; repeat case_match; simplify_eq; ref_fin E.
  - unfold BeginAcquire, ensure in Hb. rewrite H0 in Hb. entry s h Hi; cbn in Hb;
      repeat case_match; simplify_eq; ref_fin E.
  - entry s h Hi; ref_fin E.
  - entry s h Hi; ref_fin E.
  - unfold FinishAcquire in Hf. rewrite H0 in Hf. entry s h Hi; cbn in Hf;
      repeat case_match; simplify_eq; ref_fin E.
  - unfold FinishAcquire in Hf. rewrite H0 in Hf. entry s h Hi; cbn in Hf;
      repeat case_match; simplify_eq; ref_fin E.
  - entry s h Hi; ref_fin E.
  - entry s h Hi; ref_fin E.
  - by apply mark_inv.
Qed.
Lemma ref_step_inv h s s' : h ≠ 0 → ref_inv h s → ref_step h s s' → ref_inv h s'.
Proof.
  intros Hh Hi Hs. destruct Hs as [s s' Hs|s|s n Hn|s n Hn|s n Hn|s n Hn|s n Hn];
    [by eapply orderly_step_inv|by apply mark_inv| | | | |];
    (split; [intros ref E; apply (ri_some _ _ Hi ref E)|]);
    pose proof (ri_kernel _ _ Hi) as Hk; unfold ledger in *; cbn; lia.
Qed.

(** The same for the orderly part. *)
Ltac orderly_fin E :=
  split; unfold inflight in *;
  cbn [tracker requested granted refused orphaned owed delivered leaked overdrawn kernel];
  rewrite ?close_chan_handles;
  cbn [handles set_ref del_ref]; rewrite ?lookup_insert_eq, ?lookup_delete_eq, ?E;
  intros; simplify_eq; cbn in *; bools; split_and?; try done; try lia.

Ltac orderly_entry s h Hi Ho :=
  destruct (oi_clean _ _ Ho) as (? & ? & ?);
  destruct (handles (tracker s) !! h) as [[b w aq ag raa wt]|] eqn:E;
  [destruct (ri_some _ _ Hi _ E) as (? & ? & Hag); destruct (oi_some _ _ Ho _ E) as (? & Hraa);
   destruct aq, ag; try (discriminate (Hag eq_refl)); destruct raa;
   try (destruct (Hraa eq_refl); done); try (destruct (Hraa eq_refl) as [_ Hz]; cbn in Hz)
  |pose proof (oi_none _ _ Ho E)];
  cbn [entry_acquired entry_acquiring finish_ok_leaks finish_fail_leaks Acquired Acquiring BinderRefs
       WatchRefs ReleaseAfterAcquire andb negb owe] in *; try done.

Lemma orderly_step_clean h s s' : h ≠ 0 → ref_inv h s → orderly_inv h s → orderly_step h s s' →
  orderly_inv h s'.
Proof.
  intros Hh Hi Ho Hs. assert (H0 : (h =? 0) = false) by (by apply Z.eqb_neq).
  destruct Hs as [s|s|s bi rel tr Hr|s need wait tr Hb|s n Hn|s n Hn|s n rel tr Hn Hf|s n rel tr Hn Hf|s n Hn
                 |s|s n Hn Ha Hg].
  - unfold RetainBinder, ensure. rewrite H0. orderly_entry s h Hi Ho; orderly_fin E.
  - unfold RetainWatch, ensure. rewrite H0. orderly_entry s h Hi Ho; orderly_fin E.
  - unfold release in Hr. rewrite H0 in Hr. orderly_entry s h Hi Ho; cbn in Hr;
      destruct bi; repeat case_match; simplify_eq; orderly_fin E.
  - unfold BeginAcquire, ensure in Hb. rewrite H0 in Hb. orderly_entry s h Hi Ho; cbn in Hb;
      repeat case_match; simplify_eq; orderly_fin E.
  - orderly_entry s h Hi Ho; orderly_fin E.
  - orderly_entry s h Hi Ho; orderly_fin E.
  - unfold FinishAcquire in Hf. rewrite H0 in Hf. orderly_entry s h Hi Ho; cbn in Hf;
      repeat case_match; simplify_eq; orderly_fin E.
  - unfold FinishAcquire in Hf. rewrite H0 in Hf. orderly_entry s h Hi Ho; cbn in Hf;
      repeat case_match; simplify_eq; orderly_fin E.
  - orderly_entry s h Hi Ho; orderly_fin E.
  - orderly_entry s h Hi Ho; orderly_fin E.
  - unfold mark, MarkAcquired, ensure. rewrite H0, Hn. orderly_entry s h Hi Ho;
      cbn [default from_option id emptyRef Acquiring negb owe]; orderly_fin E.
Qed.

Lemma ref_inv_reach h s : h ≠ 0 → rtc (ref_step h) idle_sys s → ref_inv h s.
Proof.
  intros Hh Hr. assert (H0 : ref_inv h idle_sys) by (by split). revert H0.
  induction Hr as [|s1 s2 s3 Hs _ IH]; [done|]. intros Hi. apply IH. by eapply ref_step_inv.
Qed.

Lemma orderly_inv_reach h s : h ≠ 0 → rtc (orderly_step h) idle_sys s → orderly_inv h s.
Proof.
  intros Hh Hr. cut (ref_inv h s ∧ orderly_inv h s); [by intros [? ?]|].
  assert (H0 : ref_inv h idle_sys ∧ orderly_inv h idle_sys) by (by split). revert H0.
  induction Hr as [|s1 s2 s3 Hs _ IH]; [done|]. intros [Hi Ho]. apply IH.
  split; [by eapply orderly_step_inv|by eapply orderly_step_clean].
Qed.

(** C39: however the goroutines of the process interleave their retains,
    releases, acquires (cancelled ones too), the worker's and the kernel's
    answers, the receipt of Parcels and the reads of Binders from them on a
    handle, every reference the kernel holds is accounted for: one if the entry
    is marked acquired, one for each acquire granted and not yet reported, one
    for each release owed, one for each received and not yet read, and one for
    each leak, where the leaks are exactly the cases [ref_step] counts (an
    acquire that runs after its caller gave up, a Binder read while the handle
    already has a reference or is being acquired, a release no worker runs); the
    tracker believes in a reference the kernel does not hold once for each
    Binder read again after its handle was released.  If none of those happens
    (every acquire is answered to its waiting caller, every release runs, a
    received Binder is read once and while the handle has no reference), nothing
    leaks and nothing is overdrawn, and a handle without an entry has no acquire
    in flight and only owed and unread references. *)
Theorem refs_balanced h s : h ≠ 0 →
  (rtc (ref_step h) idle_sys s → ledger h s) ∧
  (rtc (orderly_step h) idle_sys s →
     leaked s = 0%nat ∧ overdrawn s = 0%nat ∧
     (handles (tracker s) !! h = None →
        inflight s = 0%nat ∧ kernel s = Z.of_nat (owed s) + Z.of_nat (delivered s))).
Proof.
  intros Hh. split; [intros Hr; apply (ri_kernel _ _ (ref_inv_reach h s Hh Hr))|].
  intros Hr. pose proof (orderly_inv_reach h s Hh Hr) as [Hn _ (Hl & Hov & _)].
  split_and!; [done|done|]. intros E. split; [by apply Hn|].
  assert (Hl' : ledger h s).
  { apply (ri_kernel _ _ (ref_inv_reach h s Hh (rtc_subrel (orderly_step h) (ref_step h) _ _
      (λ _ _, StepOrderly h _ _) Hr))). }
  unfold ledger in Hl'. specialize (Hn E). unfold inflight in Hn. rewrite E, Hl, Hov in Hl'. cbn in Hl'. lia.
Qed.

Definition after_acquire : refsys :=
  mkSys (FinishAcquire 7 true (BeginAcquire 7 (RetainBinder 7 NewRefTracker)).2).2 0 0 0 0 0 0 0 0 1.

Definition after_release : refsys :=
  mkSys (release 7 true (tracker after_acquire)).2 0 0 0 0 1 0 0 0 1.

(** One step of a run between concrete states, the state reached evaluated. *)
Ltac run_by tac :=
  eapply rtc_l; [tac|];
  match goal with |- rtc ?R ?s ?t => let s' := eval vm_compute in s in change (rtc R s' t) end.
Ltac run_orderly step := run_by ltac:(eapply step; reflexivity).
Ltac run_step step := run_by ltac:(apply StepOrderly; eapply step; reflexivity).
Ltac run_mark := run_by ltac:(apply StepMark).
Ltac run_close := run_by ltac:(apply StepOrderly; eapply (StepRelease 7 _ true); reflexivity).

Lemma refs_balanced_witness : ledger 7 after_release ∧ leaked after_release = 0%nat ∧
  inflight after_release = 0%nat ∧ kernel after_release = 1.
Proof.
  destruct (refs_balanced 7 after_release) as [H1 H2]; [discriminate|].
  assert (H : rtc (orderly_step 7) idle_sys after_release).
  { run_orderly StepRetainBinder. run_orderly StepBegin. run_orderly StepKernelAcquire.
    run_orderly StepFinishOk. run_by ltac:(eapply (StepRelease 7 _ true); reflexivity). apply rtc_refl. }
  destruct (H2 H) as (L & _ & N). destruct N as [I K]; [reflexivity|].
  split; [|split; [exact L|split; [exact I|exact K]]].
  apply H1, (rtc_subrel (orderly_step 7) (ref_step 7) _ _ (λ _ _, StepOrderly 7 _ _) H).
Defined.

(** *** The ways it goes wrong *)

(** A handle received in two Parcels (two lookups of one service, say) leaks a
    kernel reference: the transport acquires it twice, the tracker keeps one
    flag, and when both proxies are closed it asks for one release. *)
Theorem second_receipt_leaks :
  ∃ s, rtc (ref_step 7) idle_sys s ∧ handles (tracker s) !! 7 = None ∧
       inflight s = 0%nat ∧ owed s = 0%nat ∧ delivered s = 0%nat ∧ kernel s = 1.
Proof.
  exists (mkSys NewRefTracker 0 0 0 0 0 0 1 0 1). split.
  - run_step StepReceive. run_mark.
    run_step StepRetainBinder.
    run_step StepReceive. run_mark.
    run_step StepRetainBinder.
    run_close.
    run_close.
    run_step StepKernelRelease. apply rtc_refl.
  - repeat split.
Qed.

(** A Binder read again from its Parcel after the first proxy was closed is
    recorded as acquired although the kernel's reference is gone: closing the
    second proxy releases a reference the process does not hold. *)
Theorem reread_releases_twice :
  ∃ s, rtc (ref_step 7) idle_sys s ∧ owed s = 0%nat ∧ overdrawn s = 1%nat ∧ kernel s = -1.
Proof.
  exists (mkSys NewRefTracker 0 0 0 0 0 0 0 1 (-1)). split.
  - run_step StepReceive. run_mark.
    run_step StepRetainBinder.
    run_close.
    run_step StepKernelRelease. run_mark.
    run_step StepRetainBinder.
    run_close.
    run_step StepKernelRelease. apply rtc_refl.
  - repeat split.
Qed.

(** An acquire whose caller gives up after the task was queued leaks the
    reference the worker takes later. *)
Theorem cancelled_acquire_leaks :
  ∃ s, rtc (ref_step 7) idle_sys s ∧ handles (tracker s) !! 7 = None ∧
       inflight s = 0%nat ∧ owed s = 0%nat ∧ kernel s = 1.
Proof.
  exists (mkSys (mkRefTracker ∅ 1 [0%nat]) 0 0 0 0 0 0 1 0 1). split.
  - run_step StepRetainBinder. run_step StepBegin.
    run_by ltac:(eapply StepCancel; reflexivity). run_step StepFinishFail.
    run_by ltac:(eapply StepOrphanAcquire; reflexivity).
    run_close. apply rtc_refl.
  - repeat split.
Qed.

(** A handle received while an acquire of it is in flight leaks a kernel
    reference: MarkAcquired ends the acquire in the tracker's books, both kernel
    references are then covered by one flag, and after every user has released
    the handle the tracker has no entry, nothing is in flight or owed, and the
    kernel still counts one. *)
Theorem received_during_acquire_leaks :
  ∃ s, rtc (ref_step 7) idle_sys s ∧ handles (tracker s) !! 7 = None ∧
       inflight s = 0%nat ∧ owed s = 0%nat ∧ delivered s = 0%nat ∧ kernel s = 1.
Proof.
  exists (mkSys (mkRefTracker ∅ 1 [0%nat]) 0 0 0 0 0 0 1 0 1). split.
  - run_step StepRetainBinder. run_step StepBegin.
    run_step StepReceive. run_mark.
    run_step StepKernelAcquire. run_step StepFinishOk.
    run_close.
    run_step StepKernelRelease. apply rtc_refl.
  - repeat split.
Qed.

(** An acquire that starts after the last reference was released (a call
    that passed its open check before the proxy was closed) leaves the handle
    acquired with no user, in an orderly run: nothing is in flight or owed, no
    reference is counted for the entry, and no release will ever be asked for it. *)
Theorem acquire_after_close_leaks :
  ∃ s, rtc (orderly_step 7) idle_sys s ∧ inflight s = 0%nat ∧ owed s = 0%nat ∧ kernel s = 1 ∧
       ∃ ref, handles (tracker s) !! 7 = Some ref ∧ BinderRefs ref = 0 ∧ WatchRefs ref = 0.
Proof.
  exists (mkSys (mkRefTracker {[7 := mkHandleRef 0 0 true false false None]} 1 [0%nat]) 0 0 0 0 0 0 0 0 1). split.
  - run_orderly StepRetainBinder.
    run_by ltac:(eapply (StepRelease 7 _ true); reflexivity).
    run_orderly StepBegin. run_orderly StepKernelAcquire. run_orderly StepFinishOk. apply rtc_refl.
  - repeat split. exists (mkHandleRef 0 0 true false false None). repeat split.
Qed.

(** ** Wait channels *)

Definition wait_at (r : RefTracker) (h : Z) : option nat := handles r !! h ≫= Wait.

Record chan_ok (r : RefTracker) : Prop := {
  co_once : NoDup (closedChans r);
  co_closed c : c ∈ closedChans r → (c < nextChan r)%nat;
  co_open h c : wait_at r h = Some c → (c < nextChan r)%nat ∧ c ∉ closedChans r;
  co_inj h1 h2 c : wait_at r h1 = Some c → wait_at r h2 = Some c → h1 = h2;
  co_all c : (c < nextChan r)%nat → c ∈ closedChans r ∨ ∃ h, wait_at r h = Some c;
  co_flag h ref : handles r !! h = Some ref → Acquiring ref = true ↔ is_Some (Wait ref);
}.

Lemma chan_ok_new : chan_ok NewRefTracker.
Proof.
  split; cbn.
  - constructor.
  - intros c Hc. by apply not_elem_of_nil in Hc.
  - done.
  - done.
  - intros c Hc. lia.
  - intros h ref. by rewrite lookup_empty.
Qed.

(** An update of one entry that keeps its channel. *)
Lemma chan_ok_set h ref r : chan_ok r → Wait ref = wait_at r h →
  (Acquiring ref = true ↔ is_Some (Wait ref)) → chan_ok (set_ref h ref r).
Proof.
  intros [H1 H2 H3 H4 H5 H6] Hw Hf.
  assert (E : ∀ h', wait_at (set_ref h ref r) h' = wait_at r h').
  { intros h'. unfold wait_at, set_ref. cbn. destruct (decide (h' = h)) as [->|Hn].
    - rewrite lookup_insert_eq. cbn. by rewrite Hw.
    - by rewrite lookup_insert_ne by done. }
  split; cbn.
  - done.
  - done.
  - intros h' c. rewrite E. apply H3.
  - intros h1 h2 c. rewrite !E. apply H4.
  - intros c Hc. destruct (H5 c Hc) as [?|[h' ?]]; [by left|right]. exists h'. by rewrite E.
  - intros h' ref'. rewrite lookup_insert_Some. intros [[_ <-]|[_ ?]]; [done|by eapply H6].
Qed.

(** The entry is replaced by one without a channel, or removed, and the channel
    it had is closed. *)
Lemma chan_ok_close h o r : chan_ok r →
  (∀ ref, o = Some ref → Wait ref = None ∧ Acquiring ref = false) →
  chan_ok (close_chan (wait_at r h)
             (mkRefTracker (partial_alter (λ _, o) h (handles r)) (nextChan r) (closedChans r))).
Proof.
  intros [H1 H2 H3 H4 H5 H6] Ho. set (r' := close_chan _ _).
  assert (Hh : handles r' = partial_alter (λ _, o) h (handles r)) by (apply close_chan_handles).
  assert (E : ∀ h', wait_at r' h' = if decide (h' = h) then None else wait_at r h').
  { intros h'. unfold wait_at. rewrite Hh. case_decide as Hd.
    - subst. rewrite lookup_partial_alter_eq. destruct o as [ref|]; [|done]. cbn. by apply Ho.
    - by rewrite lookup_partial_alter_ne by done. }
  assert (Hn : nextChan r' = nextChan r) by (unfold r'; by destruct (wait_at r h)).
  assert (Hc : ∀ c, c ∈ closedChans r' ↔ c ∈ closedChans r ∨ wait_at r h = Some c).
  { intros c. unfold r'. destruct (wait_at r h) as [c0|]; cbn.
    - rewrite elem_of_cons. split; [intros [->|?]; auto|intros [?|[= ->]]; auto].
    - split; [auto|by intros [?|?]]. }
  split.
  - unfold r'. destruct (wait_at r h) as [c0|] eqn:Ew; cbn; [|done].
    constructor; [by apply (H3 h)|done].
  - intros c. rewrite Hc, Hn. intros [?|?]; [by apply H2|by apply (H3 h)].
  - intros h' c. rewrite E, Hn, Hc. case_decide as Hd; [done|]. intros Hw.
    destruct (H3 _ _ Hw). split; [done|]. intros [?|Hw']; [done|]. by destruct Hd; eapply H4.
  - intros h1 h2 c. rewrite !E. do 2 (case_decide; [done|]). apply H4.
  - intros c. rewrite Hn, Hc. intros Hl. destruct (H5 c Hl) as [?|[h' Hw]]; [auto|].
    destruct (decide (h' = h)) as [->|Hd]; [auto|]. right. exists h'. by rewrite E, decide_False.
  - intros h' ref. rewrite Hh. rewrite lookup_partial_alter_Some. intros [[_ Hr]|[_ Hr]]; [|by eapply H6].
    destruct (Ho _ Hr) as [-> ->]. split; [done|by intros [? ?]].
Qed.

Lemma wait_ensure r h : Wait (ensure r h) = wait_at r h.
Proof. unfold ensure, wait_at. by destruct (handles r !! h). Qed.

Lemma flag_ensure r h : chan_ok r → Acquiring (ensure r h) = true ↔ is_Some (Wait (ensure r h)).
Proof.
  intros H. unfold ensure. destruct (handles r !! h) as [ref|] eqn:E; [by apply (co_flag _ H h)|].
  split; [done|by intros [? ?]].
Qed.

(** A call of one of the tracker's methods. *)
Inductive tracker_call :=
| TRetainBinder (h : Z) | TRetainWatch (h : Z) | TBeginAcquire (h : Z)
| TFinishAcquire (h : Z) (ok : bool) | TMarkAcquired (h : Z)
| TReleaseBinder (h : Z) | TReleaseWatch (h : Z).

Definition run_tracker (c : tracker_call) (r : RefTracker) : RefTracker :=
  match c with
  | TRetainBinder h => RetainBinder h r
  | TRetainWatch h => RetainWatch h r
  | TBeginAcquire h => (BeginAcquire h r).2
  | TFinishAcquire h ok => (FinishAcquire h ok r).2
  | TMarkAcquired h => MarkAcquired h r
  | TReleaseBinder h => (ReleaseBinder h r).2
  | TReleaseWatch h => (ReleaseWatch h r).2
  end.

Lemma chan_ok_begin h r : chan_ok r → chan_ok (BeginAcquire h r).2.
Proof.
  intros H. unfold BeginAcquire. destruct (h =? 0); [done|]. cbn zeta.
  assert (Hs : chan_ok (set_ref h (ensure r h) r))
    by (apply chan_ok_set; [done|apply wait_ensure|by apply flag_ensure]).
  destruct (Acquired (ensure r h)); [done|]. destruct (Acquiring (ensure r h)) eqn:Ea; [done|].
  assert (Hw : wait_at r h = None).
  { rewrite <- wait_ensure. destruct (Wait (ensure r h)) as [c|] eqn:Ew; [|done].
    pose proof (flag_ensure r h H) as Hf. rewrite Ew, Ea in Hf. by destruct Hf as [_ Hf]; discriminate Hf. }
  clear Hs. destruct H as [H1 H2 H3 H4 H5 H6]. cbn [snd set_ref handles nextChan closedChans].
  set (r' := mkRefTracker _ _ _).
  assert (E : ∀ h', wait_at r' h' = if decide (h' = h) then Some (nextChan r) else wait_at r h').
  { intros h'. unfold r', wait_at. cbn. case_decide; subst.
    - by rewrite lookup_insert_eq.
    - by rewrite !lookup_insert_ne by done. }
  split; cbn.
  - done.
  - intros c Hc. specialize (H2 c Hc). lia.
  - intros h' c. rewrite E. case_decide.
    + intros [= <-]. split; [lia|]. intros Hc. specialize (H2 _ Hc). lia.
    + intros Hw'. destruct (H3 _ _ Hw'). split; [lia|done].
  - intros h1 h2 c. rewrite !E. repeat case_decide; intros; simplify_eq; try done;
      try (by eapply H4); exfalso;
      match goal with Hx : wait_at r _ = Some _ |- _ => destruct (H3 _ _ Hx); lia end.
  - intros c Hc. destruct (decide (c = nextChan r)) as [->|Hd].
    + right. exists h. by rewrite E, decide_True.
    + destruct (H5 c ltac:(lia)) as [?|[h' Hw']]; [by left|right]. exists h'.
      rewrite E, decide_False; [done|]. intros ->. congruence.
  - intros h' ref. rewrite insert_insert_eq, lookup_insert_Some.
    intros [[_ <-]|[_ ?]]; [cbn; split; [eauto|done]|by eapply H6].
Qed.

Lemma chan_ok_release h b r : chan_ok r → chan_ok (release h b r).2.
Proof.
  intros H. unfold release. destruct (h =? 0); [done|].
  destruct (handles r !! h) as [ref|] eqn:E; [|done]. cbn zeta.
  assert (Hw : Wait ref = wait_at r h) by (unfold wait_at; by rewrite E).
  case_match; [apply chan_ok_set; [done|done|exact (co_flag _ H h ref E)]|].
  destruct (Acquiring ref) eqn:Ea; [apply chan_ok_set; [done|done|pose proof (co_flag _ H h ref E) as Hf;
    rewrite Ea in Hf; exact Hf]|].
  assert (Hn : wait_at r h = None).
  { destruct (wait_at r h) as [c|] eqn:Ew; [|done]. pose proof (co_flag _ H h ref E) as [_ Hf].
    rewrite Hw in Hf. rewrite Hf in Ea by eauto. done. }
  pose proof (chan_ok_close h None r H ltac:(done)) as Hc. by rewrite Hn in Hc.
Qed.

Lemma chan_ok_run c r : chan_ok r → chan_ok (run_tracker c r).
Proof.
  intros H. destruct c as [h|h|h|h ok|h|h|h]; cbn [run_tracker].
  - unfold RetainBinder. destruct (h =? 0); [done|].
    apply chan_ok_set; [done|apply wait_ensure|by apply flag_ensure].
  - unfold RetainWatch. destruct (h =? 0); [done|].
    apply chan_ok_set; [done|apply wait_ensure|by apply flag_ensure].
  - by apply chan_ok_begin.
  - unfold FinishAcquire. destruct (h =? 0); [done|].
    destruct (handles r !! h) as [ref|] eqn:E; [|done].
    assert (Hw : Wait ref = wait_at r h) by (unfold wait_at; by rewrite E). rewrite Hw.
    repeat case_match; simplify_eq; cbn [snd].
    + by apply (chan_ok_close h None r).
    + by apply (chan_ok_close h None r).
    + apply (chan_ok_close h (Some _) r); [done|]. by intros ? [= <-].
  - unfold MarkAcquired. destruct (h =? 0); [done|]. cbn zeta.
    destruct (Acquiring (ensure r h)) eqn:Ea.
    + rewrite wait_ensure. apply (chan_ok_close h (Some _) r); [done|]. by intros ? [= <-].
    + apply chan_ok_set; [done|apply wait_ensure|]. cbn. rewrite <- Ea. by apply flag_ensure.
  - by apply chan_ok_release.
  - by apply chan_ok_release.
Qed.

(** Over any sequence of tracker calls on any handles, a wait channel is
    closed at most once (closing twice would panic), every channel a waiter may
    hold is either still the channel of exactly one handle with an acquire in
    flight or has been closed, so no waiter is forgotten, and an entry has a
    channel exactly while its acquire is in flight. *)
Theorem wait_channels_closed_once (cs : list tracker_call) :
  chan_ok (foldl (λ r c, run_tracker c r) NewRefTracker cs).
Proof.
  assert (H : ∀ r, chan_ok r → chan_ok (foldl (λ r c, run_tracker c r) r cs)).
  { induction cs as [|c cs IH]; intros r Hr; [done|]. cbn. by apply IH, chan_ok_run. }
  apply H, chan_ok_new.
Qed.
