(* ===== verification/Death.v ===== *)
(** * Death: death notifications of remote Binders

    Models src/internal/kernel/death_registry.go: one kernel death request per
    watched handle, shared by any number of subscriptions, cleared when the last
    subscription is closed.  Registry methods hold the mutex while they change
    the tables and finish the subscriptions after releasing it; [dstep] lets
    those calls, the answers to the kernel requests of Watch, the rollback of a
    request that failed, the kernel's notifications and the finishes interleave. *)

From stdpp Require Import base list numbers strings gmap relations.
From S2P Require Import Prelude Errors.

Open Scope Z_scope.

(** ** Data *)

(** A pointer is the index of the object in the order of allocation.  The two
    sets are Go maps, nil once the watch is torn down. *)
Record deathWatch := mkWatch {
  w_handle : Z;
  w_cookie : Z;
  w_subs : option (gset nat);
  w_closingSubs : option (gset nat);
}.

(** [sub_done]: the channel is closed (under [once]); [sub_err]: its error. *)
Record deathSubscription := mkSub {
  sub_watch : nat;
  sub_done : bool;
  sub_err : option error;
}.

(** [byHandle] and [byCookie] are nil after Close; reads and deletes on a nil
    map are those on an empty one. *)
Record deathRegistry := mkRegistry {
  nextCookie : Z;
  closed : bool;
  byHandle : gmap Z nat;
  byCookie : gmap Z nat;
  watches : list deathWatch;
  subscriptions : list deathSubscription;
}.

Definition newDeathRegistry : deathRegistry := mkRegistry 0 false ∅ ∅ [] [].

Definition elems (o : option (gset nat)) : list nat :=
  match o with Some s => elements s | None => [] end.

Definition in_set (i : nat) (o : option (gset nat)) : Prop :=
  match o with Some s => i ∈ s | None => False end.

(** ** Updates *)

Definition set_tables (h c : gmap Z nat) (r : deathRegistry) : deathRegistry :=
  mkRegistry (nextCookie r) (closed r) h c (watches r) (subscriptions r).

Definition set_watch (i : nat) (w : deathWatch) (r : deathRegistry) : deathRegistry :=
  mkRegistry (nextCookie r) (closed r) (byHandle r) (byCookie r) (<[i := w]> (watches r))
    (subscriptions r).

(** [if current := r.byHandle[watch.handle]; current == watch { delete }]. *)
Definition delete_if (m : gmap Z nat) (k : Z) (i : nat) : gmap Z nat :=
  if decide (m !! k = Some i) then delete k m else m.

(** ** Methods

    A method gives its result and the [finish] calls it makes after unlocking. *)

Definition finishes := list (nat * option error).

(** [attach]: the subscription and whether the kernel must be asked. *)
Definition attach (handle : Z) (r : deathRegistry) : res (nat * bool) * deathRegistry :=
  if closed r then (Err (ESentinel ErrDriverClosed), r)
  else
    let sub := length (subscriptions r) in
    match byHandle r !! handle ≫= λ i, pair i <$> watches r !! i with
    | Some (i, w) =>
        match w_subs w with
        | None => (Panic "assignment to entry in nil map", r)
        | Some s =>
            (Ok (sub, false),
             mkRegistry (nextCookie r) (closed r) (byHandle r) (byCookie r)
               (<[i := mkWatch (w_handle w) (w_cookie w) (Some ({[sub]} ∪ s)) (w_closingSubs w)]> (watches r))
               (subscriptions r ++ [mkSub i false None]))
        end
    | None =>
        let cookie := nextCookie r + 1 in
        let i := length (watches r) in
        (Ok (sub, true),
         mkRegistry cookie (closed r) (<[handle := i]> (byHandle r)) (<[cookie := i]> (byCookie r))
           (watches r ++ [mkWatch handle cookie (Some {[sub]}) (Some ∅)])
           (subscriptions r ++ [mkSub i false None]))
    end.

Definition rollback (i : nat) (r : deathRegistry) : deathRegistry :=
  match watches r !! i with
  | None => r
  | Some w => set_tables (delete_if (byHandle r) (w_handle w) i)
                (delete_if (byCookie r) (w_cookie w) i) r
  end.

Definition finish (sub : nat) (err : option error) (r : deathRegistry) : deathRegistry :=
  match subscriptions r !! sub with
  | Some s =>
      if sub_done s then r
      else mkRegistry (nextCookie r) (closed r) (byHandle r) (byCookie r) (watches r)
             (<[sub := mkSub (sub_watch s) true err]> (subscriptions r))
  | None => r
  end.

(** [Watch] when nothing interleaves: [ctxErr] is the context's error on entry,
    [request] the kernel's answer to the death request. *)
Definition Watch (ctxErr : option error) (request : Z → Z → option error) (handle : Z)
    (r : deathRegistry) : res nat * deathRegistry :=
  match ctxErr with
  | Some e => (Err e, r)
  | None =>
      match attach handle r with
      | (Ok (sub, needsRequest), r') =>
          if needsRequest then
            let i := length (watches r) in
            match request handle (nextCookie r') with
            | Some e => (Err e, rollback i r')
            | None => (Ok sub, r')
            end
          else (Ok sub, r')
      | (Err e, r') => (Err e, r')
      | (Panic y, r') => (Panic y, r')
      end
  end.

(** The locked part of [removeSub]: the kernel clear to issue, if any. *)
Definition removeSub (sub : nat) (r : deathRegistry)
  : res (option (Z * Z)) * finishes * deathRegistry :=
  match subscriptions r !! sub ≫= λ s, pair (sub_watch s) <$> watches r !! sub_watch s with
  | None => (Ok None, [(sub, None)], r)
  | Some (i, w) =>
      if negb (bool_decide (byHandle r !! w_handle w = Some i)) then (Ok None, [(sub, None)], r)
      else
        let subs := (λ s, s ∖ {[sub]}) <$> w_subs w in
        if negb (bool_decide (elems subs = []))
        then (Ok None, [(sub, None)],
              set_watch i (mkWatch (w_handle w) (w_cookie w) subs (w_closingSubs w)) r)
        else
          match w_closingSubs w with
          | None => (Panic "assignment to entry in nil map", [], r)
          | Some cs =>
              (Ok (Some (w_handle w, w_cookie w)), [],
               set_tables (delete_if (byHandle r) (w_handle w) i) (byCookie r)
                 (set_watch i (mkWatch (w_handle w) (w_cookie w) subs (Some ({[sub]} ∪ cs))) r))
          end
  end.

Definition NotifyDead (cookie : Z) (r : deathRegistry) : finishes * deathRegistry :=
  match byCookie r !! cookie ≫= λ i, pair i <$> watches r !! i with
  | None => ([], r)
  | Some (i, w) =>
      ((λ sub, (sub, Some (ESentinel ErrDeadObject))) <$> (elems (w_subs w) ++ elems (w_closingSubs w)),
       set_watch i (mkWatch (w_handle w) (w_cookie w) None None)
         (set_tables (delete_if (byHandle r) (w_handle w) i) (delete cookie (byCookie r)) r))
  end.

Definition finishClearing (cookie : Z) (err : option error) (r : deathRegistry)
  : finishes * deathRegistry :=
  match byCookie r !! cookie ≫= λ i, pair i <$> watches r !! i with
  | None => ([], r)
  | Some (i, w) =>
      ((λ sub, (sub, err)) <$> elems (w_closingSubs w),
       set_watch i (mkWatch (w_handle w) (w_cookie w) (w_subs w) None)
         (set_tables (delete_if (byHandle r) (w_handle w) i) (delete cookie (byCookie r)) r))
  end.

Definition NotifyCleared (cookie : Z) (r : deathRegistry) : finishes * deathRegistry :=
  finishClearing cookie None r.

Definition watch_subs (ws : list deathWatch) (i : nat) : list nat :=
  match ws !! i with Some w => elems (w_subs w) ++ elems (w_closingSubs w) | None => [] end.

Definition Close (r : deathRegistry) : finishes * deathRegistry :=
  if closed r then ([], r)
  else
    ((λ sub, (sub, None)) <$> (map_to_list (byHandle r) ≫= λ kv, watch_subs (watches r) kv.2),
     mkRegistry (nextCookie r) true ∅ ∅ (watches r) (subscriptions r)).

(** ** Interleavings

    [due] are the [finish] calls of methods that have unlocked; [clearing] the
    cookies whose kernel clear was requested and is not yet settled. *)
Record dsys := mkD {
  reg : deathRegistry;
  due : finishes;
  clearing : gset Z;
}.

Definition idle_d : dsys := mkD newDeathRegistry [] ∅.

Definition clear_issued (o : option (Z * Z)) (c : gset Z) : gset Z :=
  match o with Some (_, cookie) => {[cookie]} ∪ c | None => c end.

(** A Watch that opens a watch asks the kernel between two critical sections:
    [requesting] are the watches whose request is not answered, each with the
    subscription of the Watch that asked, [failed] the subscriptions of Watch
    calls that returned an error (their watch is rolled back), [rolled] the
    watches rolled back, [joinedEarly] the subscriptions that joined a watch
    while its request was not answered, with that watch. *)
Record dstate := mkDs {
  sys : dsys;
  requesting : list (nat * nat);
  failed : list nat;
  rolled : list nat;
  joinedEarly : list (nat * nat);
}.

Definition idle_ds : dstate := mkDs idle_d [] [] [] [].

Definition watch_of (r : deathRegistry) (sub : nat) : nat :=
  match subscriptions r !! sub with Some s => sub_watch s | None => 0%nat end.

(** [Watch] has returned the subscription to its caller. *)
Definition handed_out (s : dstate) (sub : nat) : Prop :=
  (sub < length (subscriptions (reg (sys s))))%nat ∧ (sub ∉ failed s) ∧ sub ∉ (snd <$> requesting s).

Definition set_sys (d : dsys) (s : dstate) : dstate :=
  mkDs d (requesting s) (failed s) (rolled s) (joinedEarly s).

Inductive dstep : dstate → dstate → Prop :=
| DOpen s h sub r : attach h (reg (sys s)) = (Ok (sub, true), r) →
    dstep s (mkDs (mkD r (due (sys s)) (clearing (sys s)))
               ((watch_of r sub, sub) :: requesting s) (failed s) (rolled s) (joinedEarly s))
| DJoin s h sub r : attach h (reg (sys s)) = (Ok (sub, false), r) →
    dstep s (mkDs (mkD r (due (sys s)) (clearing (sys s))) (requesting s) (failed s) (rolled s)
               (if decide (watch_of r sub ∈ (fst <$> requesting s))
                then (sub, watch_of r sub) :: joinedEarly s else joinedEarly s))
| DRequestOk s i sub q1 q2 : requesting s = q1 ++ (i, sub) :: q2 →
    dstep s (mkDs (sys s) (q1 ++ q2) (failed s) (rolled s) (joinedEarly s))
| DRequestFail s i sub q1 q2 : requesting s = q1 ++ (i, sub) :: q2 →
    dstep s (mkDs (mkD (rollback i (reg (sys s))) (due (sys s)) (clearing (sys s)))
               (q1 ++ q2) (sub :: failed s) (i :: rolled s) (joinedEarly s))
| DRemove s sub clr fs r : handed_out s sub → removeSub sub (reg (sys s)) = (Ok clr, fs, r) →
    dstep s (set_sys (mkD r (fs ++ due (sys s)) (clear_issued clr (clearing (sys s)))) s)
| DDead s cookie fs r : NotifyDead cookie (reg (sys s)) = (fs, r) →
    dstep s (set_sys (mkD r (fs ++ due (sys s)) (clearing (sys s))) s)
| DCleared s cookie fs r : cookie ∈ clearing (sys s) → NotifyCleared cookie (reg (sys s)) = (fs, r) →
    dstep s (set_sys (mkD r (fs ++ due (sys s)) (clearing (sys s) ∖ {[cookie]})) s)
| DFinish s sub err fs1 fs2 : due (sys s) = fs1 ++ (sub, err) :: fs2 →
    dstep s (set_sys (mkD (finish sub err (reg (sys s))) (fs1 ++ fs2) (clearing (sys s))) s).

(** With the registry's Close. *)
Inductive dstep_close : dstate → dstate → Prop :=
| DStep s s' : dstep s s' → dstep_close s s'
| DClose s fs r : Close (reg (sys s)) = (fs, r) →
    dstep_close s (set_sys (mkD r (fs ++ due (sys s)) (clearing (sys s))) s).

(** ** The invariant *)

Definition holds (w : deathWatch) (sub : nat) : Prop :=
  in_set sub (w_subs w) ∨ in_set sub (w_closingSubs w).

Definition is_done (r : deathRegistry) (sub : nat) : Prop :=
  ∃ s, subscriptions r !! sub = Some s ∧ sub_done s = true.

(** Somebody will finish the subscription, or it is finished. *)
Definition covered (s : dsys) (sub : nat) : Prop :=
  is_done (reg s) sub ∨ sub ∈ (due s).*1 ∨
  ∃ c i w, byCookie (reg s) !! c = Some i ∧ watches (reg s) !! i = Some w ∧ holds w sub.

(** [P]: the subscriptions that have to be covered. *)
Record d_inv (P : nat → Prop) (s : dsys) : Prop := {
  di_handle h i : byHandle (reg s) !! h = Some i →
    ∃ w, watches (reg s) !! i = Some w ∧ w_handle w = h ∧
         byCookie (reg s) !! w_cookie w = Some i ∧ w_cookie w ∉ clearing s;
  di_cookie c i : byCookie (reg s) !! c = Some i →
    ∃ w, watches (reg s) !! i = Some w ∧ w_cookie w = c ∧ c <= nextCookie (reg s) ∧
         is_Some (w_subs w) ∧ is_Some (w_closingSubs w) ∧
         (byHandle (reg s) !! w_handle w = Some i ∨ w_subs w = Some ∅);
  di_clearing c : c ∈ clearing s → c <= nextCookie (reg s);
  di_covered sub : P sub → (sub < length (subscriptions (reg s)))%nat → covered s sub;
}.

Lemma d_inv_idle P : d_inv P idle_d.
Proof. split; cbn; [done|done|set_solver|lia]. Qed.

Lemma d_inv_mono (P Q : nat → Prop) s : (∀ x, Q x → P x) → d_inv P s → d_inv Q s.
Proof. intros H [? ? ? Hc]. split; auto. Qed.

Lemma in_elems o i : i ∈ elems o ↔ in_set i o.
Proof. destruct o as [s|]; cbn; [by rewrite elem_of_elements|by rewrite elem_of_nil]. Qed.

Lemma delete_if_Some m k i k' j : delete_if m k i !! k' = Some j → m !! k' = Some j ∧ (k' = k → j ≠ i).
Proof.
  unfold delete_if. case_decide as Hd.
  - rewrite lookup_delete_Some. intros [Hn Hl]. split; [done|]. by intros <-.
  - intros Hl. split; [done|]. intros -> ->. done.
Qed.

Lemma delete_if_keep m k i k' j : m !! k' = Some j → j ≠ i → delete_if m k i !! k' = Some j.
Proof.
  intros Hl Hj. unfold delete_if. case_decide as Hd; [|done].
  rewrite lookup_delete_ne; [done|]. intros <-. congruence.
Qed.

(** Coverage by a watch that is not touched. *)
Lemma covered_mono s s' sub : covered s sub →
  (is_done (reg s) sub → is_done (reg s') sub) →
  (sub ∈ (due s).*1 → covered s' sub) →
  (∀ c i w, byCookie (reg s) !! c = Some i → watches (reg s) !! i = Some w → holds w sub →
     covered s' sub) →
  covered s' sub.
Proof. intros [H|[H|(c & i & w & Hc & Hw & Hh)]] H1 H2 H3; [left; auto|auto|eauto]. Qed.

(** A subscription joins the live watch of its handle. *)
Lemma join_inv P b s h i w ss : d_inv P s → byHandle (reg s) !! h = Some i →
  watches (reg s) !! i = Some w → w_subs w = Some ss →
  d_inv P (mkD (mkRegistry (nextCookie (reg s)) b (byHandle (reg s)) (byCookie (reg s))
                (<[i := mkWatch (w_handle w) (w_cookie w)
                          (Some ({[length (subscriptions (reg s))]} ∪ ss)) (w_closingSubs w)]> (watches (reg s)))
                (subscriptions (reg s) ++ [mkSub i false None])) (due s) (clearing s)).
Proof.
  intros [Hh Hc Hcl Hcov] Eh Hw Es. set (w' := mkWatch _ _ _ _).
  destruct (Hh h i Eh) as (w0 & Hw0 & Hwh & Hwc & Hncl). simplify_eq.
  assert (Hi : <[i:=w']> (watches (reg s)) !! i = Some w')
    by (apply list_lookup_insert_eq; by eapply lookup_lt_Some).
  assert (Hlk : ∀ j v, watches (reg s) !! j = Some v → j = i ∧ v = w ∨
                  <[i:=w']> (watches (reg s)) !! j = Some v).
  { intros j v Hj. destruct (decide (j = i)) as [->|Hne]; [left; by simplify_eq|right].
    by rewrite list_lookup_insert_ne. }
  split; cbn.
  - intros h' j Hj. destruct (Hh h' j Hj) as (v & Hv & Hvh & Hvc & Hnc).
    destruct (Hlk j v Hv) as [[-> ->]|?]; eauto.
  - intros c j Hj. destruct (Hc c j Hj) as (v & Hv & Hvc & Hle & Hs1 & Hs2 & Hor).
    destruct (Hlk j v Hv) as [[-> ->]|?]; [|by exists v].
    exists w'. split_and!; [done|done|done|eauto|done|by left].
  - done.
  - intros x HP. rewrite length_app. cbn. intros Hx.
    destruct (decide (x = length (subscriptions (reg s)))) as [->|Hne].
    + right; right. exists (w_cookie w), i, w'. split_and!; [done|done|]. left. cbn. set_solver.
    + eapply covered_mono; [apply (Hcov x); [done|lia]| | |].
      * intros (v & Hv & Hd). exists v. cbn. by rewrite lookup_app_l by (by eapply lookup_lt_Some).
      * intros Hx'. by right; left.
      * intros c j v Hj Hv Hho. right; right. destruct (Hlk j v Hv) as [[-> ->]|?]; [|by exists c, j, v].
        exists c, i, w'. split_and!; [done|done|]. unfold holds, w' in *. rewrite Es in Hho. cbn in *.
        destruct Hho as [?|?]; [left; set_solver|by right].
Qed.

(** A subscription opens the watch of its handle. *)
Lemma open_inv P b s h : d_inv P s → byHandle (reg s) !! h = None →
  let i := length (watches (reg s)) in
  let sub := length (subscriptions (reg s)) in
  let cookie := nextCookie (reg s) + 1 in
  d_inv P (mkD (mkRegistry cookie b (<[h := i]> (byHandle (reg s)))
                (<[cookie := i]> (byCookie (reg s)))
                (watches (reg s) ++ [mkWatch h cookie (Some {[sub]}) (Some ∅)])
                (subscriptions (reg s) ++ [mkSub i false None])) (due s) (clearing s)).
Proof.
  intros [Hh Hc Hcl Hcov] Eh i sub cookie. set (w' := mkWatch _ _ _ _).
  assert (Hlk : ∀ j v, watches (reg s) !! j = Some v → (watches (reg s) ++ [w']) !! j = Some v).
  { intros j v Hj. by rewrite lookup_app_l by (by eapply lookup_lt_Some). }
  assert (Hni : (watches (reg s) ++ [w']) !! i = Some w') by (by apply list_lookup_middle).
  split; cbn.
  - intros h' j. rewrite lookup_insert_Some. intros [[<- <-]|[Hne Hj]].
    + exists w'. cbn. rewrite lookup_insert_eq. split_and!; [done|done|done|].
      intros Hin. specialize (Hcl _ Hin). unfold cookie in Hcl. lia.
    + destruct (Hh h' j Hj) as (v & Hv & Hvh & Hvc & Hnc). exists v.
      destruct (Hc _ _ Hvc) as (v2 & _ & _ & Hle & _).
      rewrite lookup_insert_ne by (unfold cookie; lia). auto.
  - intros c j. rewrite lookup_insert_Some. intros [[<- <-]|[Hne Hj]].
    + exists w'. cbn. rewrite lookup_insert_eq. split_and!; [done|done|lia|eauto|eauto|by left].
    + destruct (Hc c j Hj) as (v & Hv & Hvc & Hle & Hs1 & Hs2 & Hor). exists v.
      split_and!; auto; [unfold cookie; lia|]. destruct Hor as [Hor|]; [left|by right].
      rewrite lookup_insert_ne; [done|]. intros E. rewrite E in Eh. congruence.
  - intros c Hin. specialize (Hcl _ Hin). unfold cookie. lia.
  - intros x HP. rewrite length_app. cbn. intros Hx. destruct (decide (x = sub)) as [->|Hne].
    + right; right. exists cookie, i, w'. cbn. rewrite lookup_insert_eq.
      split_and!; [done|done|]. left. cbn. set_solver.
    + eapply covered_mono; [apply (Hcov x); [done|unfold sub in *; lia]| | |].
      * intros (v & Hv & Hd). exists v. cbn. by rewrite lookup_app_l by (by eapply lookup_lt_Some).
      * intros Hx'. by right; left.
      * intros c j v Hj Hv Hho. right; right. exists c, j, v. cbn.
        destruct (Hc c j Hj) as (v2 & _ & _ & Hle & _).
        rewrite lookup_insert_ne by (unfold cookie; lia). auto.
Qed.

Lemma attach_inv P s h sub req r : d_inv P s → attach h (reg s) = (Ok (sub, req), r) →
  d_inv P (mkD r (due s) (clearing s)).
Proof.
  intros Hi Ha. unfold attach in Ha. destruct (closed (reg s)); [done|].
  destruct (byHandle (reg s) !! h) as [i|] eqn:Eh; cbn in Ha.
  - destruct (di_handle _ _ Hi h i Eh) as (w & Hw & _). rewrite Hw in Ha. cbn in Ha.
    destruct (w_subs w) as [ss|] eqn:Es; [|done]. simplify_eq. by eapply join_inv.
  - simplify_eq. by apply open_inv.
Qed.

(** A watch that leaves [byCookie] with every subscription it held due. *)
Lemma drop_inv P s c i w w' fs cl : d_inv P s → byCookie (reg s) !! c = Some i →
  watches (reg s) !! i = Some w → w_handle w' = w_handle w → w_cookie w' = w_cookie w →
  (∀ x, holds w x → x ∈ fs.*1) → cl ⊆ clearing s →
  d_inv P (mkD (set_watch i w' (set_tables (delete_if (byHandle (reg s)) (w_handle w) i)
                                (delete c (byCookie (reg s))) (reg s))) (fs ++ due s) cl).
Proof.
  intros [Hh Hc Hcl Hcov] Ec Hw Ewh Ewc Hfs Hsub.
  destruct (Hc c i Ec) as (w0 & Hw0 & Hwc & _). simplify_eq.
  split; cbn.
  - intros h j Hj. apply delete_if_Some in Hj as [Hj Hne].
    destruct (Hh h j Hj) as (v & Hv & Hvh & Hvc & Hnc).
    assert (j ≠ i) by (intros ->; simplify_eq; by apply Hne).
    exists v. rewrite list_lookup_insert_ne by done.
    split_and!; [done|done| |set_solver]. rewrite lookup_delete_ne; [done|]. intros E. rewrite <- E in Hvc.
    congruence.
  - intros c' j. rewrite lookup_delete_Some. intros [Hne Hj].
    destruct (Hc c' j Hj) as (v & Hv & Hvc & Hle & Hs1 & Hs2 & Hor).
    assert (j ≠ i) by (intros ->; simplify_eq).
    exists v. rewrite list_lookup_insert_ne by done. split_and!; try done.
    destruct Hor as [Hor|]; [left|by right]. by apply delete_if_keep.
  - intros c' Hin. apply Hcl. set_solver.
  - intros x HP Hx. eapply covered_mono; [by apply (Hcov x)| | |].
    + done.
    + intros Hd. right; left. cbn. rewrite fmap_app. apply elem_of_app. by right.
    + intros c' j v Hj Hv Hho. destruct (decide (j = i)) as [->|Hne].
      * simplify_eq. right; left. cbn. rewrite fmap_app. apply elem_of_app. left. by apply Hfs.
      * right; right. exists c', j, v. cbn. rewrite list_lookup_insert_ne by done.
        split_and!; [|done|done]. rewrite lookup_delete_ne; [done|]. intros E. rewrite E in Ec. congruence.
Qed.

Lemma dead_inv P s cookie fs r : d_inv P s → NotifyDead cookie (reg s) = (fs, r) →
  d_inv P (mkD r (fs ++ due s) (clearing s)).
Proof.
  intros Hi Hd. unfold NotifyDead in Hd.
  destruct (byCookie (reg s) !! cookie) as [i|] eqn:Ec; cbn in Hd; [|simplify_eq; by destruct s].
  destruct (di_cookie _ _ Hi _ _ Ec) as (w & Hw & _). rewrite Hw in Hd. cbn in Hd. simplify_eq.
  eapply drop_inv; [done|done|done|done|done| |done]. intros x Hx.
  rewrite <- list_fmap_compose. apply list_elem_of_fmap. exists x. split; [done|].
  apply elem_of_app. rewrite !in_elems. exact Hx.
Qed.

Lemma cleared_inv P s cookie fs r : d_inv P s → cookie ∈ clearing s →
  NotifyCleared cookie (reg s) = (fs, r) →
  d_inv P (mkD r (fs ++ due s) (clearing s ∖ {[cookie]})).
Proof.
  intros Hi Hcl Hd. unfold NotifyCleared, finishClearing in Hd.
  destruct (byCookie (reg s) !! cookie) as [i|] eqn:Ec; cbn in Hd.
  - destruct (di_cookie _ _ Hi _ _ Ec) as (w & Hw & Hwc & _ & _ & _ & Hor). rewrite Hw in Hd. cbn in Hd.
    simplify_eq. eapply drop_inv; [done|done|done|done|done| |apply subseteq_difference_l; done]. intros x Hx.
    rewrite <- list_fmap_compose. apply list_elem_of_fmap. exists x. split; [done|].
    rewrite in_elems. destruct Hx as [Hx|]; [|done]. exfalso. destruct Hor as [Hor|Hor].
    + destruct (di_handle _ _ Hi _ _ Hor) as (v & Hv & _ & _ & Hn). simplify_eq. done.
    + rewrite Hor in Hx. cbn in Hx. set_solver.
  - simplify_eq. destruct Hi as [Hh Hc Hl Hcov]. split; cbn; [|done| |done].
    + intros h i Hj. destruct (Hh h i Hj) as (w & ? & ? & ? & Hn). exists w. split_and!; try done.
      intros Hin. apply Hn. by apply elem_of_difference in Hin as [? _].
    + intros c Hin. apply Hl. by apply elem_of_difference in Hin as [? _].
Qed.

Lemma finish_inv P s sub err fs1 fs2 : d_inv P s → due s = fs1 ++ (sub, err) :: fs2 →
  d_inv P (mkD (finish sub err (reg s)) (fs1 ++ fs2) (clearing s)).
Proof.
  intros [Hh Hc Hl Hcov] Hd.
  assert (Hdone : (sub < length (subscriptions (reg s)))%nat → is_done (finish sub err (reg s)) sub).
  { intros Hsub. destruct (lookup_lt_is_Some_2 _ _ Hsub) as [v Hv].
    unfold is_done, finish. rewrite Hv. destruct (sub_done v) eqn:E; [by exists v|]. cbn.
    rewrite list_lookup_insert_eq by done. eauto. }
  assert (Hsame : byHandle (finish sub err (reg s)) = byHandle (reg s) ∧
                  byCookie (finish sub err (reg s)) = byCookie (reg s) ∧
                  watches (finish sub err (reg s)) = watches (reg s) ∧
                  nextCookie (finish sub err (reg s)) = nextCookie (reg s) ∧
                  length (subscriptions (finish sub err (reg s))) = length (subscriptions (reg s)) ∧
                  ∀ x, is_done (reg s) x → is_done (finish sub err (reg s)) x).
  { unfold is_done, finish. destruct (subscriptions (reg s) !! sub) as [v|] eqn:Hv; [|done].
    destruct (sub_done v) eqn:E; cbn; [done|].
    split_and!; try done; [apply length_insert|]. intros x (u & Hu & Hud).
    destruct (decide (x = sub)) as [->|Hne]; [simplify_eq; congruence|].
    rewrite list_lookup_insert_ne by done. eauto. }
  destruct Hsame as (E1 & E2 & E3 & E4 & E5 & E6).
  split; cbn; rewrite ?E1, ?E2, ?E3, ?E4, ?E5; [done|done|done|].
  intros x HP Hx. destruct (decide (x = sub)) as [->|Hne]; [left; by apply Hdone|].
  eapply covered_mono; [by apply (Hcov x)|apply E6| |].
  - intros Hin. right; left. cbn. rewrite Hd, fmap_app, fmap_cons in Hin. rewrite fmap_app.
    apply elem_of_app in Hin as [?|Hin]; apply elem_of_app; [by left|].
    apply elem_of_cons in Hin as [?|?]; [done|by right].
  - intros c i w Hi Hw Hho. right; right. exists c, i, w. cbn. by rewrite E2, E3.
Qed.

Lemma due_inv P s fs : d_inv P s → d_inv P (mkD (reg s) (fs ++ due s) (clearing s)).
Proof.
  intros [Hh Hc Hl Hcov]. split; cbn; [done|done|done|]. intros x HP Hx.
  eapply covered_mono; [by apply (Hcov x)|done| |].
  - intros Hin. right; left. cbn. rewrite fmap_app. apply elem_of_app. by right.
  - intros c i w ? ? ?. right; right. by exists c, i, w.
Qed.

(** A subscription leaves its live watch, others remain. *)
Lemma leave_inv P s i w ss sub : d_inv P s → watches (reg s) !! i = Some w →
  byHandle (reg s) !! w_handle w = Some i → w_subs w = Some ss →
  d_inv P (mkD (set_watch i (mkWatch (w_handle w) (w_cookie w) (Some (ss ∖ {[sub]})) (w_closingSubs w))
                (reg s)) ([(sub, None)] ++ due s) (clearing s)).
Proof.
  intros [Hh Hc Hl Hcov] Hw Eh Es. set (w' := mkWatch _ _ _ _).
  assert (Hi : <[i:=w']> (watches (reg s)) !! i = Some w')
    by (apply list_lookup_insert_eq; by eapply lookup_lt_Some).
  assert (Hlk : ∀ j v, watches (reg s) !! j = Some v → j = i ∧ v = w ∨
                  <[i:=w']> (watches (reg s)) !! j = Some v).
  { intros j v Hj. destruct (decide (j = i)) as [->|Hne]; [left; by simplify_eq|right].
    by rewrite list_lookup_insert_ne. }
  split; cbn.
  - intros h' j Hj. destruct (Hh h' j Hj) as (v & Hv & Hvh & Hvc & Hnc).
    destruct (Hlk j v Hv) as [[-> ->]|?]; eauto.
  - intros c j Hj. destruct (Hc c j Hj) as (v & Hv & Hvc & Hle & Hs1 & Hs2 & Hor).
    destruct (Hlk j v Hv) as [[-> ->]|?]; [|by exists v].
    exists w'. split_and!; [done|done|done|by eexists|done|by left].
  - done.
  - intros x HP Hx. destruct (decide (x = sub)) as [->|Hne]; [right; left; cbn; left|].
    eapply covered_mono; [by apply (Hcov x)|done| |].
    + intros Hin. right; left. cbn. by right.
    + intros c j v Hj Hv Hho. right; right. destruct (Hlk j v Hv) as [[-> ->]|?]; [|by exists c, j, v].
      exists c, i, w'. split_and!; [done|done|]. unfold holds, w' in *. rewrite Es in Hho. cbn in *.
      destruct Hho as [?|?]; [left; set_solver|by right].
Qed.

(** The last subscription leaves: the watch waits for the kernel's clear. *)
Lemma last_inv P s i w ss cs sub : d_inv P s → watches (reg s) !! i = Some w →
  byHandle (reg s) !! w_handle w = Some i → w_subs w = Some ss → ss ∖ {[sub]} = ∅ →
  w_closingSubs w = Some cs →
  d_inv P (mkD (set_tables (delete_if (byHandle (reg s)) (w_handle w) i) (byCookie (reg s))
                (set_watch i (mkWatch (w_handle w) (w_cookie w) (Some (ss ∖ {[sub]})) (Some ({[sub]} ∪ cs)))
                   (reg s))) (due s) ({[w_cookie w]} ∪ clearing s)).
Proof.
  intros [Hh Hc Hl Hcov] Hw Eh Es Hempty Ecs. set (w' := mkWatch _ _ _ _).
  destruct (Hh _ _ Eh) as (w0 & Hw0 & _ & Hwc & Hncl). simplify_eq.
  destruct (Hc _ _ Hwc) as (w0 & Hw0 & _ & Hle & _). simplify_eq.
  assert (Hi : <[i:=w']> (watches (reg s)) !! i = Some w')
    by (apply list_lookup_insert_eq; by eapply lookup_lt_Some).
  split; cbn.
  - intros h j Hj. apply delete_if_Some in Hj as [Hj Hne].
    destruct (Hh h j Hj) as (v & Hv & Hvh & Hvc & Hnc).
    assert (j ≠ i) by (intros ->; simplify_eq; by apply Hne).
    exists v. rewrite list_lookup_insert_ne by done. split_and!; [done|done|done|].
    apply not_elem_of_union. split; [|done]. apply not_elem_of_singleton. intros E.
    rewrite E in Hvc. congruence.
  - intros c j Hj. destruct (Hc c j Hj) as (v & Hv & Hvc & Hle' & Hs1 & Hs2 & Hor).
    destruct (decide (j = i)) as [->|Hne].
    + simplify_eq. exists w'. split_and!; [done|done|done|by eexists|by eexists|right].
      unfold w'. cbn. by rewrite Hempty.
    + exists v. rewrite list_lookup_insert_ne by done. split_and!; try done.
      destruct Hor as [Hor|]; [left|by right]. by apply delete_if_keep.
  - intros c [->%elem_of_singleton|Hin]%elem_of_union; [done|by apply Hl].
  - intros x HP Hx. eapply covered_mono; [by apply (Hcov x)|done| |].
    + intros Hin. by right; left.
    + intros c j v Hj Hv Hho. right; right. destruct (decide (j = i)) as [->|Hne].
      * simplify_eq. exists c, i, w'. split_and!; [done|done|]. unfold holds, w' in *.
        rewrite Es, Ecs in Hho. cbn [w_subs w_closingSubs in_set] in *. right.
        destruct (decide (x = sub)) as [->|Hxs]; [by apply elem_of_union_l, elem_of_singleton|].
        apply elem_of_union_r. destruct Hho as [Hs|]; [exfalso|done].
        apply (not_elem_of_empty (C := gset nat) x). rewrite <- Hempty.
        apply elem_of_difference. split; [done|]. by apply not_elem_of_singleton.
      * exists c, j, v. cbn. by rewrite list_lookup_insert_ne.
Qed.

Lemma remove_inv P s sub clr fs r : d_inv P s → removeSub sub (reg s) = (Ok clr, fs, r) →
  d_inv P (mkD r (fs ++ due s) (clear_issued clr (clearing s))).
Proof.
  intros Hi Hr. unfold removeSub in Hr.
  destruct (subscriptions (reg s) !! sub ≫= _) as [[i w]|] eqn:E; [|simplify_eq; by apply due_inv].
  apply bind_Some in E as (v & Hv & E). apply fmap_Some in E as (w0 & Hw & [= -> <-]).
  destruct (bool_decide (byHandle (reg s) !! w_handle w = Some (sub_watch v))) eqn:Ecur; cbn [negb] in Hr;
    [|simplify_eq; by apply due_inv].
  apply bool_decide_eq_true in Ecur.
  destruct (di_handle _ _ Hi _ _ Ecur) as (w1 & Hw1 & _ & Hwc & _). simplify_eq.
  destruct (di_cookie _ _ Hi _ _ Hwc) as (w1 & Hw1 & _ & _ & [ss Es] & [cs Ecs] & _). simplify_eq.
  rewrite Es in Hr. cbn [fmap option_fmap option_map elems] in Hr.
  case_bool_decide as Hemp; cbn [negb] in Hr.
  - rewrite Ecs in Hr. simplify_eq. apply last_inv; try done.
    by apply leibniz_equiv, elements_empty_iff.
  - simplify_eq. by apply leave_inv.
Qed.

Lemma rollback_inv P s i : d_inv P s →
  (∀ w x, watches (reg s) !! i = Some w → P x → ¬ holds w x) →
  d_inv P (mkD (rollback i (reg s)) (due s) (clearing s)).
Proof.
  intros Hi Hno. unfold rollback.
  destruct (watches (reg s) !! i) as [w|] eqn:Hw; [|by destruct s]. destruct Hi as [Hh Hc Hl Hcov].
  split; cbn.
  - intros h j Hj. apply delete_if_Some in Hj as [Hj Hne].
    destruct (Hh h j Hj) as (v & Hv & Hvh & Hvc & Hnc).
    assert (j ≠ i) by (intros ->; simplify_eq; by apply Hne).
    exists v. split_and!; [done|done|by apply delete_if_keep|done].
  - intros c j Hj. apply delete_if_Some in Hj as [Hj Hne].
    destruct (Hc c j Hj) as (v & Hv & Hvc & Hle & Hs1 & Hs2 & Hor).
    assert (j ≠ i) by (intros ->; simplify_eq; by apply Hne).
    exists v. split_and!; try done. destruct Hor as [Hor|]; [left|by right]. by apply delete_if_keep.
  - done.
  - intros x HP Hx. eapply covered_mono; [by apply (Hcov x)|done| |].
    + intros Hin. by right; left.
    + intros c j v Hj Hv Hho. right; right. exists c, j, v.
      assert (j ≠ i) by (intros ->; simplify_eq; by eapply Hno).
      split_and!; [by apply delete_if_keep|done|done].
Qed.

(** *** Who is on a watch whose request is not answered *)

(** A call that adds nobody to a watch but subscriptions made for it. *)
Definition keeps (r r' : deathRegistry) : Prop :=
  length (watches r') = length (watches r) ∧
  (∀ x v', subscriptions r' !! x = Some v' →
     ∃ v, subscriptions r !! x = Some v ∧ sub_watch v = sub_watch v') ∧
  ∀ i w', watches r' !! i = Some w' → ∃ w, watches r !! i = Some w ∧
    ∀ x, holds w' x → holds w x ∨ ∃ v, subscriptions r !! x = Some v ∧ sub_watch v = i.

Lemma keeps_refl r : keeps r r.
Proof. split_and!; [done|eauto|eauto]. Qed.

Lemma keeps_watch r h c i w w' : watches r !! i = Some w →
  (∀ x, holds w' x → holds w x ∨ ∃ v, subscriptions r !! x = Some v ∧ sub_watch v = i) →
  keeps r (set_watch i w' (set_tables h c r)).
Proof.
  intros Hw H. split_and!; cbn; [by rewrite length_insert|eauto|].
  intros j u. destruct (decide (j = i)) as [->|Hne].
  - rewrite list_lookup_insert_eq by (by eapply lookup_lt_Some). intros [= <-]. eauto.
  - rewrite list_lookup_insert_ne by done. eauto.
Qed.

Lemma keeps_dead cookie r : keeps r (NotifyDead cookie r).2.
Proof.
  unfold NotifyDead. destruct (byCookie r !! cookie ≫= _) as [[i w]|] eqn:E; [|apply keeps_refl].
  apply bind_Some in E as (j & _ & E). apply fmap_Some in E as (w0 & Hw & [= -> <-]).
  eapply keeps_watch; [done|]. by intros x [[]|[]].
Qed.

Lemma keeps_clearing cookie err r : keeps r (finishClearing cookie err r).2.
Proof.
  unfold finishClearing. destruct (byCookie r !! cookie ≫= _) as [[i w]|] eqn:E; [|apply keeps_refl].
  apply bind_Some in E as (j & _ & E). apply fmap_Some in E as (w0 & Hw & [= -> <-]).
  eapply keeps_watch; [done|]. intros x [?|[]]. by left; left.
Qed.

Lemma in_set_minus sub x o : in_set x ((λ s, s ∖ {[sub]}) <$> o) → in_set x o.
Proof. destruct o as [s|]; cbn; [|done]. set_solver. Qed.

Lemma keeps_remove sub r : keeps r (removeSub sub r).2.
Proof.
  unfold removeSub. destruct (subscriptions r !! sub ≫= _) as [[i w]|] eqn:E; [|apply keeps_refl].
  apply bind_Some in E as (v & Hv & E). apply fmap_Some in E as (w0 & Hw & [= -> <-]).
  case_bool_decide; [|apply keeps_refl]. cbn [negb]. case_bool_decide; cbn [negb].
  - destruct (w_closingSubs w) as [cs|] eqn:Ec; [|apply keeps_refl]. cbn [snd].
    eapply keeps_watch; [done|]. intros x [Hx|Hx]; cbn in Hx.
    + left; left. by eapply in_set_minus.
    + destruct (decide (x = sub)) as [->|Hne]; [right; eauto|]. left; right. rewrite Ec. cbn. set_solver.
  - apply (keeps_watch r (byHandle r) (byCookie r) _ w); [done|].
    intros x [Hx|Hx]; left; [left; by eapply in_set_minus|by right].
Qed.

Lemma keeps_finish sub err r : keeps r (finish sub err r).
Proof.
  unfold finish. destruct (subscriptions r !! sub) as [v|] eqn:Hv; [|apply keeps_refl].
  destruct (sub_done v); [apply keeps_refl|]. split_and!; cbn; [done| |eauto].
  intros x v'. destruct (decide (x = sub)) as [->|Hne].
  - rewrite list_lookup_insert_eq by (by eapply lookup_lt_Some). intros [= <-]. eauto.
  - rewrite list_lookup_insert_ne by done. eauto.
Qed.

Lemma keeps_rollback i r : keeps r (rollback i r).
Proof. unfold rollback. destruct (watches r !! i); [|apply keeps_refl]. split_and!; cbn; eauto. Qed.

(** Everybody on a watch whose request is not answered, and everybody made for
    it, is the subscription of the Watch that asks or joined early. *)
Definition awaited (r : deathRegistry) (early : list (nat * nat)) (io : nat * nat) : Prop :=
  let '(i, o) := io in
  (i < length (watches r))%nat ∧
  (∀ w x, watches r !! i = Some w → holds w x → x = o ∨ (x, i) ∈ early) ∧
  (∀ x v, subscriptions r !! x = Some v → sub_watch v = i → x = o ∨ (x, i) ∈ early).

Lemma keeps_awaited r r' early io : keeps r r' → awaited r early io → awaited r' early io.
Proof.
  destruct io as [i o]. intros (Hl & Hs & Hw) (H1 & H2 & H3). split_and!; [lia| |].
  - intros w' x Hw' Hho. destruct (Hw _ _ Hw') as (w & Hi & Hor).
    destruct (Hor x Hho) as [?|(v & Hv & Hvw)]; eauto.
  - intros x v' Hv' Hi. destruct (Hs _ _ Hv') as (v & Hv & E). apply (H3 x v Hv). congruence.
Qed.

(** What attach leaves: a new subscription on a new watch, or on an old one. *)
Lemma attach_shape h r sub req r' : attach h r = (Ok (sub, req), r') →
  ∃ i, sub = length (subscriptions r) ∧ subscriptions r' = subscriptions r ++ [mkSub i false None] ∧
       (req = true → i = length (watches r)) ∧
       (length (watches r) <= length (watches r'))%nat ∧ (i < length (watches r'))%nat ∧
       ∀ j w', watches r' !! j = Some w' → ∀ x, holds w' x → (x = sub ∧ j = i) ∨
         ∃ w, watches r !! j = Some w ∧ holds w x.
Proof.
  unfold attach. destruct (closed r); [done|].
  destruct (byHandle r !! h ≫= _) as [[i w]|] eqn:E.
  - apply bind_Some in E as (i0 & _ & E). apply fmap_Some in E as (w0 & Hw & [= -> <-]).
    destruct (w_subs w) as [ss|] eqn:Es; [|done]. intros [= <- <- <-]. exists i0.
    apply lookup_lt_Some in Hw as Hlt. cbn. rewrite length_insert. split_and!; try done.
    intros j w'. destruct (decide (j = i0)) as [->|Hne].
    + rewrite list_lookup_insert_eq by done. intros [= <-] x [Hx|Hx]; cbn in Hx.
      * destruct (decide (x = length (subscriptions r))) as [->|]; [by left|right]. exists w. split; [done|].
        left. rewrite Es. cbn. set_solver.
      * right. exists w. split; [done|by right].
    + rewrite list_lookup_insert_ne by done. intros Hj x Hx. right; eauto.
  - intros [= <- <- <-]. exists (length (watches r)). cbn. rewrite length_app. cbn.
    split_and!; try done; [lia|lia|]. intros j w' Hj x Hx.
    apply lookup_app_Some in Hj as [Hj|[Hle Hj]]; [right; eauto|].
    apply list_lookup_singleton_Some in Hj as [Hj <-]. left.
    destruct Hx as [Hx|Hx]; cbn in Hx; [|set_solver]. split; [set_solver|lia].
Qed.

Lemma watch_of_attach h r sub req r' i : attach h r = (Ok (sub, req), r') →
  subscriptions r' = subscriptions r ++ [mkSub i false None] → sub = length (subscriptions r) →
  watch_of r' sub = i.
Proof. intros _ E ->. unfold watch_of. by rewrite E, list_lookup_middle. Qed.

(** A Watch that is waiting for its answer sees a new subscription join. *)
Lemma attach_awaited h r sub req r' early io : attach h r = (Ok (sub, req), r') →
  awaited r early io → (watch_of r' sub = io.1 → (sub, io.1) ∈ early) → awaited r' early io.
Proof.
  destruct io as [i o]. cbn. intros Ha (H1 & H2 & H3) He.
  destruct (attach_shape _ _ _ _ _ Ha) as (j & -> & Es & _ & Hlen & _ & Hw).
  rewrite (watch_of_attach _ _ _ _ _ _ Ha Es eq_refl) in He. split_and!; [lia| |].
  - intros w' x Hi Hho. destruct (Hw _ _ Hi _ Hho) as [[-> <-]|(w & Hi' & Hho')]; [|eauto].
    right. by apply He.
  - intros x v. rewrite Es. intros Hv Hi. apply lookup_app_Some in Hv as [Hv|[Hle Hv]]; [eauto|].
    apply list_lookup_singleton_Some in Hv as [Hv <-]. cbn in Hi. subst j.
    assert (x = length (subscriptions r)) as -> by lia. right. by apply He.
Qed.

(** ** Theorems *)

(** The subscription joined a watch before the kernel request of that watch was
    answered, and the request failed. *)
Definition dropped (s : dstate) (sub : nat) : Prop :=
  Exists (λ e, e.1 = sub ∧ e.2 ∈ rolled s) (joinedEarly s).

#[global] Instance dropped_dec s sub : Decision (dropped s sub).
Proof. unfold dropped. apply _. Defined.

Record ds_inv (s : dstate) : Prop := {
  dsi_sys : d_inv (λ x, (x ∉ failed s) ∧ ¬ dropped s x) (sys s);
  dsi_sub x v : subscriptions (reg (sys s)) !! x = Some v → (sub_watch v < length (watches (reg (sys s))))%nat;
  dsi_req io : io ∈ requesting s → awaited (reg (sys s)) (joinedEarly s) io;
}.

Lemma awaited_early r e early io : awaited r early io → awaited r (e :: early) io.
Proof.
  destruct io as [i o]. intros (H1 & H2 & H3). split_and!; [done| |]; intros.
  - edestruct H2 as [?|?]; [done|done|by left|right; by apply elem_of_cons; right].
  - edestruct H3 as [?|?]; [done|done|by left|right; by apply elem_of_cons; right].
Qed.

Lemma attach_sub h r sub req r' : attach h r = (Ok (sub, req), r') →
  (∀ x v, subscriptions r !! x = Some v → (sub_watch v < length (watches r))%nat) →
  ∀ x v, subscriptions r' !! x = Some v → (sub_watch v < length (watches r'))%nat.
Proof.
  intros Ha H x v. destruct (attach_shape _ _ _ _ _ Ha) as (i & _ & -> & _ & Hlen & Hlt & _).
  intros [Hv|[_ Hv]]%lookup_app_Some; [specialize (H x v Hv); lia|].
  by apply list_lookup_singleton_Some in Hv as [_ <-].
Qed.

Lemma open_step h s sub r : ds_inv s → attach h (reg (sys s)) = (Ok (sub, true), r) →
  ds_inv (mkDs (mkD r (due (sys s)) (clearing (sys s)))
            ((watch_of r sub, sub) :: requesting s) (failed s) (rolled s) (joinedEarly s)).
Proof.
  intros [Hi Hs Hq] Ha. split; cbn; [by eapply attach_inv|by eapply attach_sub|].
  destruct (attach_shape _ _ _ _ _ Ha) as (i & Hsub & Es & Hreq & Hlen & Hlt & Hw).
  pose proof (Hreq eq_refl) as Hie. pose proof (watch_of_attach _ _ _ _ _ _ Ha Es Hsub) as Hwo.
  intros io [-> | Hio]%elem_of_cons.
  - rewrite Hwo. split_and!; [done| |].
    + intros w' x Hj Hho. destruct (Hw _ _ Hj _ Hho) as [[-> _]|(w & Hj' & _)]; [by left|].
      apply lookup_lt_Some in Hj'. lia.
    + intros x v. rewrite Es. intros Hv Hvi. apply lookup_app_Some in Hv as [Hv|[Hle Hv]].
      * specialize (Hs _ _ Hv). lia.
      * apply list_lookup_singleton_Some in Hv as [Hv _]. left. lia.
  - eapply attach_awaited; [done|by apply Hq|]. rewrite Hwo. intros ->. exfalso.
    destruct io as [j o], (Hq _ Hio) as (Hj & _). cbn in *. lia.
Qed.

Lemma join_step h s sub r : ds_inv s → attach h (reg (sys s)) = (Ok (sub, false), r) →
  ds_inv (mkDs (mkD r (due (sys s)) (clearing (sys s))) (requesting s) (failed s) (rolled s)
            (if decide (watch_of r sub ∈ (fst <$> requesting s))
             then (sub, watch_of r sub) :: joinedEarly s else joinedEarly s)).
Proof.
  intros [Hi Hs Hq] Ha. split; cbn; [|by eapply attach_sub|].
  - eapply attach_inv; [|done]. eapply d_inv_mono; [|done]. cbn. intros x [Hf Hd]. split; [done|].
    contradict Hd. unfold dropped in *. cbn. case_decide; [by apply Exists_cons; right|done].
  - intros io Hio. eapply attach_awaited; [done| |].
    + case_decide; [apply awaited_early|]; by apply Hq.
    + intros E. rewrite decide_True; [rewrite E; apply elem_of_cons; by left|].
      rewrite E. apply list_elem_of_fmap. eauto.
Qed.

(** A step that changes the registry by a call that adds nobody. *)
Lemma keeps_step s d : ds_inv s → keeps (reg (sys s)) (reg d) →
  d_inv (λ x, (x ∉ failed s) ∧ ¬ dropped s x) d → ds_inv (set_sys d s).
Proof.
  intros [Hi Hs Hq] Hk Hd. split; cbn; [done| |].
  - intros x v' Hv. destruct Hk as (-> & Hk & _). destruct (Hk _ _ Hv) as (v & Hv' & <-). eauto.
  - intros io Hio. eapply keeps_awaited; [done|by apply Hq].
Qed.

Lemma answered_step s q i sub q1 q2 : requesting s = q1 ++ (i, sub) :: q2 → q ∈ q1 ++ q2 → q ∈ requesting s.
Proof. intros ->. rewrite !elem_of_app, elem_of_cons. tauto. Qed.

Lemma fail_step s i sub q1 q2 : ds_inv s → requesting s = q1 ++ (i, sub) :: q2 →
  ds_inv (mkDs (mkD (rollback i (reg (sys s))) (due (sys s)) (clearing (sys s)))
            (q1 ++ q2) (sub :: failed s) (i :: rolled s) (joinedEarly s)).
Proof.
  intros Hi Hq.
  assert (Hio : (i, sub) ∈ requesting s) by (rewrite Hq; apply elem_of_app; right; by left).
  destruct Hi as [Hi Hs Hr]. destruct (Hr _ Hio) as (_ & Hho & _). split; cbn.
  - apply rollback_inv.
    + eapply d_inv_mono; [|done]. cbn. intros x [Hf Hd]. split; [set_solver|].
      contradict Hd. unfold dropped in *. eapply Exists_impl; [done|]. cbn. intros ? [? ?].
      split; [done|by right].
    + cbn. intros w x Hw [Hf Hd] Hx. destruct (Hho _ _ Hw Hx) as [-> | He]; [apply Hf; by left|].
      apply Hd, Exists_exists. exists (x, i). cbn. split_and!; [done|done|by left].
  - intros x v Hv. destruct (keeps_rollback i (reg (sys s))) as (-> & Hk & _).
    destruct (Hk _ _ Hv) as (v' & Hv' & <-). eauto.
  - intros io Hin. eapply keeps_awaited; [apply keeps_rollback|]. apply Hr. by eapply answered_step.
Qed.

Lemma dstep_inv s s' : ds_inv s → dstep s s' → ds_inv s'.
Proof.
  intros Hi Hs. destruct Hs as [s h sub r Ha|s h sub r Ha|s i sub q1 q2 Hq|s i sub q1 q2 Hq
    |s sub clr fs r Hh Hr|s c fs r Hr|s c fs r Hc Hr|s sub err fs1 fs2 Hd].
  - by eapply open_step.
  - by eapply join_step.
  - destruct Hi as [Hi Hs Hr]. split; cbn; [done|done|]. intros io Hin. apply Hr. by eapply answered_step.
  - by apply fail_step.
  - apply keeps_step; [done| |eapply remove_inv; [apply Hi|done]].
    pose proof (keeps_remove sub (reg (sys s))) as Hk. by rewrite Hr in Hk.
  - apply keeps_step; [done| |eapply dead_inv; [apply Hi|done]].
    pose proof (keeps_dead c (reg (sys s))) as Hk. by rewrite Hr in Hk.
  - apply keeps_step; [done| |eapply cleared_inv; [apply Hi|done|done]].
    pose proof (keeps_clearing c None (reg (sys s))) as Hk. unfold NotifyCleared in Hr. by rewrite Hr in Hk.
  - apply keeps_step; [done|apply keeps_finish|eapply finish_inv; [apply Hi|done]].
Qed.

Lemma reach_inv s : rtc dstep idle_ds s → ds_inv s.
Proof.
  intros Hr. assert (H0 : ds_inv idle_ds).
  { split; cbn; [apply d_inv_idle|done|]. intros io Hio. by apply not_elem_of_nil in Hio. }
  revert H0. induction Hr as [|s1 s2 s3 Hs _ IH]; [done|]. intros H0. apply IH. by eapply dstep_inv.
Qed.

(** C40: no subscription is forgotten, but for one case.  However attaches, the
    answers to the kernel's death requests, the rollbacks of failed ones, closes,
    kernel death and clear notifications and the finishes interleave (until the
    registry is closed), every subscription that Watch has handed out is
    finished, about to be finished, or held by a watch that a kernel notification
    still reaches through its cookie; unless it joined a watch while another
    Watch call was still waiting for the kernel to accept the request of that
    watch, and that request then failed (which drops the watch, see
    [rollback_forgets_joined]). *)
Theorem no_subscription_forgotten s sub : rtc dstep idle_ds s → handed_out s sub →
  covered (sys s) sub ∨ dropped s sub.
Proof.
  intros Hr (Hlen & Hf & _). pose proof (reach_inv s Hr) as [Hi _ _].
  destruct (decide (dropped s sub)) as [|Hd]; [by right|left]. by apply (di_covered _ _ Hi).
Qed.

(** Two subscriptions on handle 5, the first closed. *)
Definition two_subs : dstate :=
  let r1 := (attach 5 newDeathRegistry).2 in
  let r2 := (attach 5 r1).2 in
  mkDs (mkD (removeSub 0 r2).2 [(0%nat, None)] ∅) [] [] [] [].

Lemma two_subs_reached : rtc dstep idle_ds two_subs.
Proof.
  eapply rtc_l; [eapply (DOpen idle_ds 5); reflexivity|].
  eapply rtc_l; [eapply (DRequestOk _ 0 0 [] []); reflexivity|].
  eapply rtc_l; [eapply (DJoin _ 5); reflexivity|].
  eapply rtc_l; [eapply (DRemove _ 0); [|reflexivity]|].
  - split; [vm_compute; repeat constructor|]. cbn. split; apply not_elem_of_nil.
  - apply rtc_refl.
Qed.

Lemma no_subscription_forgotten_witness : covered (sys two_subs) 1 ∨ dropped two_subs 1.
Proof.
  apply (no_subscription_forgotten two_subs 1 two_subs_reached).
  split; [vm_compute; repeat constructor|]. cbn. split; apply not_elem_of_nil.
Defined.

(** A Watch whose kernel request fails (its context may just have been
    cancelled) drops the watch that another Watch has joined meanwhile and
    returned: the second subscription is handed out, not done, no finish is due,
    and no death or clear notification reaches it any more. *)
Theorem rollback_forgets_joined :
  ∃ s, rtc dstep idle_ds s ∧ handed_out s 1 ∧ due (sys s) = [] ∧
       subscriptions (reg (sys s)) !! 1%nat = Some (mkSub 0 false None) ∧
       ∀ c, NotifyDead c (reg (sys s)) = ([], reg (sys s)) ∧ NotifyCleared c (reg (sys s)) = ([], reg (sys s)).
Proof.
  set (r1 := (attach 5 newDeathRegistry).2). set (r2 := (attach 5 r1).2).
  exists (mkDs (mkD (rollback 0 r2) [] ∅) [] [0%nat] [0%nat] [(1%nat, 0%nat)]). split_and!.
  - eapply rtc_l; [eapply (DOpen idle_ds 5); reflexivity|].
    eapply rtc_l; [eapply (DJoin _ 5); reflexivity|].
    eapply rtc_l; [eapply (DRequestFail _ 0 0 [] []); reflexivity|].
    apply rtc_refl.
  - split; [vm_compute; repeat constructor|]. cbn. split; [|apply not_elem_of_nil]. by apply not_elem_of_cons; split; [|apply not_elem_of_nil].
  - done.
  - done.
  - done.
Qed.

Definition panicked {A} (r : res A) : bool := match r with Panic _ => true | _ => false end.

(** No reachable interleaving makes attach or removeSub write into one of
    the maps a torn-down watch has set to nil (which would panic). *)
Theorem death_registry_no_nil_map s h sub : rtc dstep idle_ds s →
  panicked (attach h (reg (sys s))).1 = false ∧ panicked (removeSub sub (reg (sys s))).1.1 = false.
Proof.
  intros Hr. apply reach_inv in Hr as [Hi _ _]. destruct s as [s ? ? ? ?]. cbn [sys] in *. split.
  - unfold attach. destruct (closed (reg s)); [done|].
    destruct (byHandle (reg s) !! h) as [i|] eqn:Eh; [|done]. cbn.
    destruct (di_handle _ _ Hi _ _ Eh) as (w & Hw & _ & Hc & _). rewrite Hw. cbn.
    destruct (di_cookie _ _ Hi _ _ Hc) as (w1 & Hw1 & _ & _ & [ss Es] & _). simplify_eq. by rewrite Es.
  - unfold removeSub.
    destruct (subscriptions (reg s) !! sub ≫= _) as [[i w]|] eqn:E; [|done].
    apply bind_Some in E as (v & Hv & E). apply fmap_Some in E as (w0 & Hw & [= -> <-]).
    case_bool_decide as Ecur; cbn [negb]; [|done].
    destruct (di_handle _ _ Hi _ _ Ecur) as (w1 & Hw1 & _ & Hwc & _). simplify_eq.
    destruct (di_cookie _ _ Hi _ _ Hwc) as (w1 & Hw1 & _ & _ & _ & [cs Ecs] & _). simplify_eq.
    case_match; [done|]. by rewrite Ecs.
Qed.

Lemma death_registry_no_nil_map_witness :
  panicked (attach 5 (reg (sys two_subs))).1 = false ∧ panicked (removeSub 1 (reg (sys two_subs))).1.1 = false.
Proof.
  apply (death_registry_no_nil_map two_subs 5 1 two_subs_reached).
Defined.

(** A death notification reaches every subscription of the watch, open or
    being closed: finishing the reported list leaves each of them done with
    ErrDeadObject unless it was done before, and a second notification for the
    cookie does nothing. *)
Theorem NotifyDead_delivers r cookie i w sub v :
  byCookie r !! cookie = Some i → watches r !! i = Some w → holds w sub →
  subscriptions r !! sub = Some v →
  let '(fs, r') := NotifyDead cookie r in
  subscriptions (foldl (λ q f, finish f.1 f.2 q) r' fs) !! sub =
    Some (if sub_done v then v else mkSub (sub_watch v) true (Some (ESentinel ErrDeadObject))) ∧
  NotifyDead cookie r' = ([], r').
Proof.
  intros Hc Hw Hh Hv. unfold NotifyDead at 1. rewrite Hc. cbn. rewrite Hw. cbn [fmap option_fmap option_map].
  split.
  2: { unfold NotifyDead. cbn. by rewrite lookup_delete_eq. }
  set (r' := set_watch _ _ _).
  assert (Hv' : subscriptions r' !! sub = Some v) by done.
  assert (Hin : sub ∈ elems (w_subs w) ++ elems (w_closingSubs w))
    by (apply elem_of_app; by rewrite !in_elems).
  revert Hin Hv'. generalize (elems (w_subs w) ++ elems (w_closingSubs w)). clearbody r'. clear.
  intros l. revert r' v. induction l as [|x l IH]; intros r' v Hin Hv; [by apply not_elem_of_nil in Hin|].
  cbn [fmap list_fmap foldl fst snd].
  assert (Hstable : ∀ l (q : deathRegistry) u, subscriptions q !! sub = Some u → sub_done u = true →
    subscriptions (foldl (λ q f, finish f.1 f.2 q) q
      ((λ s0 : nat, (s0, Some (ESentinel ErrDeadObject))) <$> l)) !! sub = Some u).
  { intros l'. induction l' as [|y l' IHl]; intros q u Hq Hd; [done|]. cbn [fmap list_fmap foldl fst snd].
    apply IHl; [|done]. unfold finish. destruct (subscriptions q !! y) as [vy|] eqn:Ey; [|done].
    destruct (sub_done vy) eqn:Edy; [done|]. cbn. rewrite list_lookup_insert_ne; [done|]. intros ->. congruence. }
  destruct (decide (x = sub)) as [->|Hne].
  - unfold finish at 2. rewrite Hv. destruct (sub_done v) eqn:Ed; [by apply Hstable|].
    apply Hstable; [|done]. cbn. apply list_lookup_insert_eq. by eapply lookup_lt_Some.
  - apply elem_of_cons in Hin as [?|Hin]; [done|]. apply IH; [done|].
    unfold finish. destruct (subscriptions r' !! x) as [vx|] eqn:Ex; [|done].
    destruct (sub_done vx); [done|]. cbn. by rewrite list_lookup_insert_ne.
Qed.

Lemma NotifyDead_delivers_witness :
  let '(fs, r') := NotifyDead 1 (reg (sys two_subs)) in
  subscriptions (foldl (λ q f, finish f.1 f.2 q) r' fs) !! 1%nat =
    Some (mkSub 0 true (Some (ESentinel ErrDeadObject))) ∧ NotifyDead 1 r' = ([], r').
Proof.
  refine (NotifyDead_delivers (reg (sys two_subs)) 1 0 (mkWatch 5 1 (Some {[1%nat]}) (Some ∅)) 1
            (mkSub 0 false None) _ _ _ _).
  - reflexivity.
  - reflexivity.
  - left. cbn. apply elem_of_singleton. reflexivity.
  - reflexivity.
Defined.

(** Closing the registry forgets a subscription whose kernel clear is in
    flight: its watch has already left byHandle, which is all that Close walks,
    and Close drops byCookie.  In the state reached no finish is due, the
    subscription is not done, and no death or clear notification can finish it. *)
Theorem registry_close_forgets_closing :
  ∃ s, rtc dstep_close idle_ds s ∧ closed (reg (sys s)) = true ∧ due (sys s) = [] ∧
       subscriptions (reg (sys s)) !! 0%nat = Some (mkSub 0 false None) ∧
       ∀ c, NotifyDead c (reg (sys s)) = ([], reg (sys s)) ∧ NotifyCleared c (reg (sys s)) = ([], reg (sys s)).
Proof.
  set (r1 := (attach 5 newDeathRegistry).2). set (r2 := (removeSub 0 r1).2). set (r3 := (Close r2).2).
  exists (mkDs (mkD r3 [] {[1]}) [] [] [] []). split_and!; [|done|done|done|].
  - eapply rtc_l; [apply DStep; eapply (DOpen idle_ds 5); reflexivity|].
    eapply rtc_l; [apply DStep; eapply (DRequestOk _ 0 0 [] []); reflexivity|].
    eapply rtc_l; [apply DStep; eapply (DRemove _ 0); [|reflexivity]|].
    { split; [vm_compute; repeat constructor|]. cbn. split; apply not_elem_of_nil. }
    eapply rtc_l; [eapply DClose; reflexivity|].
    apply rtc_refl.
  - done.
Qed.
