(* ===== verification/Stability.v ===== *)
(** * Stability: Binder stability labels and call contexts

    Models src/binder/stability_labels.go up to its handler wrappers (which are in
    Dispatch), the flags of src/binder/binder.go, the transaction codes of
    src/binder/transactions.go and src/binder/transaction_context.go. *)

From stdpp Require Import base list numbers strings pretty.
From S2P Require Import Prelude Errors Unicode Parcel.

Open Scope Z_scope.

(** ** Flags and transaction codes *)

Definition FlagNone : Z := 0.
Definition FlagOneway : Z := 1.
Definition FlagPrivateVendor : Z := 268435456. (* 0x10000000 *)

Definition FirstCallTransaction : Z := 1.
Definition LastCallTransaction : Z := 16777215.            (* 0x00ffffff *)
Definition PingTransaction : Z := packChars 95 80 78 71.    (* _PNG *)
Definition DumpTransaction : Z := packChars 95 68 77 80.    (* _DMP *)
Definition InterfaceTransaction : Z := packChars 95 78 84 70. (* _NTF *)
Definition DebugPIDTransaction : Z := packChars 95 80 73 68. (* _PID *)
Definition GetInterfaceHashTransaction : Z := 16777213.     (* 0x00fffffd *)
Definition GetInterfaceVersionTransaction : Z := 16777214.  (* 0x00fffffe *)

(** ** Contexts: the two values this package stores in a context *)

Record TransactionContext := mkTx {
  tx_Code : Z; tx_Flags : Z; tx_CallingPID : Z; tx_CallingUID : Z; tx_Local : bool;
}.

Record context := mkCtx {
  ctx_required : option Z;             (* requiredStabilityContextKey *)
  ctx_tx : option TransactionContext;  (* transactionContextKey *)
}.

Definition Background : context := mkCtx None None.

(** A nil context is [None]. *)
Definition WithTransactionContext (ctx : option context) (tx : TransactionContext) : context :=
  let c := default Background ctx in mkCtx (ctx_required c) (Some tx).

Definition TransactionContextFromContext (ctx : option context) : option TransactionContext :=
  ctx ≫= ctx_tx.

Definition CallingPID (ctx : option context) : option Z :=
  tx_CallingPID <$> TransactionContextFromContext ctx.

Definition CallingUID (ctx : option context) : option Z :=
  tx_CallingUID <$> TransactionContextFromContext ctx.

Definition WithRequiredStability (ctx : option context) (level : Z) : context :=
  let c := default Background ctx in mkCtx (Some level) (ctx_tx c).

Definition RequiredStabilityFromContext (ctx : option context) : option Z := ctx ≫= ctx_required.

(** ** Levels *)

Definition DefaultLocalStability : Z := StabilitySystem.

Definition Stability_String (l : Z) : string :=
  if l =? StabilityUndeclared then "undeclared"
  else if l =? StabilityVendor then "vendor"
  else if l =? StabilitySystem then "system"
  else if l =? StabilityVINTF then "vintf"
  else "unknown".

Definition IsDeclared (l : Z) : bool :=
  (l =? StabilityVendor) || (l =? StabilitySystem) || (l =? StabilityVINTF).

Definition CheckStability (provided required : Z) : bool :=
  if required =? StabilityUndeclared then true
  else if negb (IsDeclared required) || negb (IsDeclared provided) then false
  else Z.land provided required =? required.

Definition RequiredStabilityForTransact (ctx : option context) (flags defaultLevel : Z) : Z :=
  if negb (Z.land flags FlagPrivateVendor =? 0) then StabilityVendor
  else
    match RequiredStabilityFromContext ctx with
    | Some level =>
        if negb (level =? StabilityUndeclared) then level
        else if defaultLevel =? StabilityUndeclared then DefaultLocalStability else defaultLevel
    | None => if defaultLevel =? StabilityUndeclared then DefaultLocalStability else defaultLevel
    end.

(** [flags &^ FlagPrivateVendor]. *)
Definition PrepareTransactFlags (flags : Z) : Z := Z.ldiff flags FlagPrivateVendor.

Definition EnforceTransactStability {W B} `{BinderMarshal W B} (ctx : option context) (target : B)
    (code flags defaultLevel : Z) (w : W) : option error :=
  if (code <? FirstCallTransaction) || (code >? LastCallTransaction) then None
  else
    let required := RequiredStabilityForTransact ctx flags defaultLevel in
    if required =? StabilityUndeclared then None
    else
      let provided := BinderStability target w in
      if CheckStability provided required then None
      else Some (EWrap (EStatusCode StatusBadType)
                   ("binder stability " +:+ Stability_String provided +:+ " does not satisfy required "
                    +:+ Stability_String required)%string).

Definition RequiresVINTFDeclaration (level : Z) : bool := CheckStability level StabilityVINTF.

(** ** Theorems *)

Lemma IsDeclared_spec l : IsDeclared l = true ↔
  l = StabilityVendor ∨ l = StabilitySystem ∨ l = StabilityVINTF.
Proof. unfold IsDeclared. rewrite !orb_true_iff, !Z.eqb_eq. tauto. Qed.

(** The bit-mask test implements the intended order on stability levels:
    anything satisfies "undeclared"; otherwise both labels must be declared and
    either be equal or the provided one be VINTF, which satisfies every level,
    while vendor and system satisfy neither each other nor VINTF. *)
Theorem CheckStability_order provided required :
  CheckStability provided required = true ↔
  required = StabilityUndeclared ∨
  IsDeclared provided = true ∧ IsDeclared required = true ∧
    (provided = required ∨ provided = StabilityVINTF).
Proof.
  unfold CheckStability. destruct (required =? StabilityUndeclared) eqn:E; bools; [tauto|].
  destruct (IsDeclared required) eqn:Er; cbn [negb orb]; [|naive_solver].
  destruct (IsDeclared provided) eqn:Ep; cbn [negb orb]; [|naive_solver].
  apply IsDeclared_spec in Er, Ep.
  destruct Er as [-> | [-> | ->]], Ep as [-> | [-> | ->]]; vm_compute; naive_solver.
Qed.

Lemma required_declared ctx flags level :
  RequiredStabilityForTransact ctx flags level ≠ StabilityUndeclared.
Proof.
  unfold RequiredStabilityForTransact. repeat case_match; bools; done.
Qed.

(** Every user transaction is checked against a declared requirement,
    whatever the context, the flags and the connection's default: it is let
    through exactly when the target's label satisfies the requirement and refused
    with the BAD_TYPE status otherwise; reserved codes outside the user range are
    never refused. *)
Theorem EnforceTransactStability_spec W B `{BinderMarshal W B} ctx (target : B) code flags level w :
  let required := RequiredStabilityForTransact ctx flags level in
  required ≠ StabilityUndeclared ∧
  match EnforceTransactStability ctx target code flags level w with
  | None => ¬ (FirstCallTransaction <= code <= LastCallTransaction) ∨
            CheckStability (BinderStability target w) required = true
  | Some e => FirstCallTransaction <= code <= LastCallTransaction ∧
              CheckStability (BinderStability target w) required = false ∧
              errors_As_StatusCode e = Some StatusBadType ∧ errors_Is e ErrBadType = true
  end.
Proof.
  intros required. split; [apply required_declared|]. unfold EnforceTransactStability. fold required.
  destruct ((code <? FirstCallTransaction) || (code >? LastCallTransaction)) eqn:Ec.
  { left. apply orb_true_iff in Ec. rewrite Z.gtb_ltb, !Z.ltb_lt in Ec. lia. }
  bools. rewrite eqb_false by apply required_declared.
  destruct (CheckStability (BinderStability target w) required) eqn:E; [by right|].
  split_and!; [lia|lia|done|done|done].
Qed.
