(* ===== verification/Dispatch.v ===== *)
(** * Dispatch: local handlers and the reserved transactions

    Models src/binder/dispatch.go, src/binder/dump.go, src/binder/stable.go,
    src/binder/lazy.go, the handler wrappers of src/binder/stability_labels.go and
    src/internal/kernel/local_nodes.go.  A Handler is a Go interface value: its
    two methods, and the optional interfaces its dynamic type implements. *)

From stdpp Require Import base list numbers strings pretty gmap.
From S2P Require Import Prelude Errors Unicode Parcel ParcelFacts Codec ObjectCodec Fields ParcelInv Slices Stability.

Open Scope Z_scope.

(** ** Handlers and Binders *)

Section Handlers.
Context {W B : Type}.

Definition Reply := option (Parcel W B).

(** A computation of a handler on the world, returning a value or an error. *)
Definition HM (A : Type) : Type := W → res A * W.

(** A computation on a Parcel for its effect on the world, and the other way round. *)
Definition on_parcel {A} (p : Reply) (m : PM W B A) : ST error W (A * Reply) := λ w,
  match m (mkst p w) with
  | (Ok a, s) => (Ok (a, ptr s), world s)
  | (Err e, s) => (Err e, world s)
  | (Panic y, s) => (Panic y, world s)
  end.

Definition in_world {A} (m : ST error W A) : PM W B A := λ s, let '(r, w') := m (world s) in (r, mkst (ptr s) w').

Record Handler := mkHandler {
  h_Descriptor : string;
  h_HandleTransact : context → Z → Parcel W B → HM Reply;
  h_InterfaceVersion : option Z;                      (* InterfaceVersionProvider *)
  h_InterfaceHash : option string;                    (* InterfaceHashProvider *)
  h_Dump : option (context → Z → list string → HM unit);  (* DumpHandler *)
  h_DebugPID : option Z;                              (* DebugPIDHandler *)
  h_StabilityLevel : option Z;                        (* StabilityProvider *)
}.

(** A nil [Handle] function is [None]; calling it panics. *)
Definition StaticHandler (name : string) (handle : option (context → Z → Parcel W B → HM Reply)) : Handler :=
  mkHandler name
    (λ ctx code data w, match handle with
                        | Some f => f ctx code data w
                        | None => (Panic "nil pointer dereference", w)
                        end)
    None None None None None.

(** src/binder/stability_labels.go. *)
Definition HandlerStability (h : Handler) : Z :=
  match h_StabilityLevel h with
  | Some level => if level =? StabilityUndeclared then DefaultLocalStability else level
  | None => DefaultLocalStability
  end.

Inductive stable_wrapper := StableHandler | StableVersionHandler | StableHashHandler
  | StableVersionHashHandler.

(** The method set of each wrapper struct. *)
Definition stableHandler (wr : stable_wrapper) (h : Handler) (level : Z) : Handler :=
  mkHandler (h_Descriptor h) (h_HandleTransact h)
    (match wr with StableVersionHandler | StableVersionHashHandler => h_InterfaceVersion h | _ => None end)
    (match wr with StableHashHandler | StableVersionHashHandler => h_InterfaceHash h | _ => None end)
    None None (Some level).

Definition WithStability (handler : option Handler) (level : Z) : option Handler :=
  match handler with
  | None => None
  | Some h =>
      Some (match h_InterfaceVersion h, h_InterfaceHash h with
            | Some _, Some _ => stableHandler StableVersionHashHandler h level
            | Some _, None => stableHandler StableVersionHandler h level
            | None, Some _ => stableHandler StableHashHandler h level
            | None, None => stableHandler StableHandler h level
            end)
  end.

Definition ForceDowngradeToLocalStability (h : option Handler) : option Handler :=
  WithStability h DefaultLocalStability.
Definition ForceDowngradeToSystemStability (h : option Handler) : option Handler :=
  WithStability h StabilitySystem.
Definition ForceDowngradeToVendorStability (h : option Handler) : option Handler :=
  WithStability h StabilityVendor.

(** ** src/binder/dispatch.go *)

(** A reply written into a fresh Parcel and rewound. *)
Definition reply_with (write : PM W B unit) : HM Reply := λ w,
  match (write;; SetPosition 0) (mkst (Some NewParcel) w) with
  | (Ok _, s) => (Ok (ptr s), world s)
  | (Err e, s) => (Err e, world s)
  | (Panic y, s) => (Panic y, world s)
  end.

Definition readDumpRequest : PM W B (FileDescriptor * list string) :=
  fd ← ReadFileDescriptor;
  count ← ReadInt32;
  if count <? 0
  then throw (Errorf_w ErrBadParcelable ("invalid dump arg count " +:+ pretty count)%string)
  else args ← read_elems ReadString (Z.to_nat count); mret (fd, args).

(** [pid] is the process's own id.  The serial lock of the source only orders
    calls on one node and is left to the caller. *)
Definition DispatchLocalHandler (pid : Z) (ctx : option context) (handler : option Handler)
    (code : Z) (data : option (Parcel W B)) (flags : Z) (tx : TransactionContext) : HM Reply := λ w,
  match handler with
  | None => (Err (ESentinel ErrUnsupported), w)
  | Some h =>
      let p := default NewParcel data in
      let tx' := mkTx code flags (tx_CallingPID tx) (tx_CallingUID tx) (tx_Local tx) in
      let ctx' := WithTransactionContext ctx tx' in
      if code =? InterfaceTransaction then reply_with (WriteString (h_Descriptor h)) w
      else if code =? PingTransaction then (Ok (Some NewParcel), w)
      else if code =? DumpTransaction then
        match readDumpRequest (mkst (Some p) w) with
        | (Ok (fd, args), s) =>
            match h_Dump h with
            | Some dump =>
                match dump ctx' (fd_fd fd) args (world s) with
                | (Ok _, w') => (Ok (Some NewParcel), w')
                | (Err e, w') => (Err e, w')
                | (Panic y, w') => (Panic y, w')
                end
            | None => (Ok (Some NewParcel), world s)
            end
        | (Err e, s) => (Err e, world s)
        | (Panic y, s) => (Panic y, world s)
        end
      else if code =? DebugPIDTransaction then
        reply_with (WriteInt32 (default (i32 pid) (h_DebugPID h))) w
      else if code =? GetInterfaceVersionTransaction then
        match h_InterfaceVersion h with
        | None => (Err (ESentinel ErrUnknownTransaction), w)
        | Some v => reply_with (WriteInt32 v) w
        end
      else if code =? GetInterfaceHashTransaction then
        match h_InterfaceHash h with
        | None => (Err (ESentinel ErrUnknownTransaction), w)
        | Some s => reply_with (WriteString s) w
        end
      else
        match h_HandleTransact h ctx' code p w with
        | (Err e, w') => (Err e, w')
        | (Panic y, w') => (Panic y, w')
        | (Ok reply, w') =>
            if negb (Z.land flags FlagOneway =? 0) then (Ok None, w')
            else
              match reply with
              | None => (Ok (Some NewParcel), w')
              | Some _ =>
                  match SetPosition 0 (mkst reply w') with
                  | (Ok _, s) => (Ok (ptr s), world s)
                  | (Err e, s) => (Err e, world s)
                  | (Panic y, s) => (Panic y, world s)
                  end
              end
        end
  end.

(** ** The callers' side: src/binder/stable.go, src/binder/dump.go

    A Binder is given by its Transact method and the optional interfaces. *)
Definition Transactor := option context → Z → option (Parcel W B) → Z → HM Reply.

Definition read_reply {A} (m : PM W B A) (r : res Reply * W) : res A * W :=
  match r with
  | (Err e, w) => (Err e, w)
  | (Panic y, w) => (Panic y, w)
  | (Ok None, w) => (Err (ESentinel ErrBadParcelable), w)
  | (Ok (Some p), w) => let '(a, s) := m (mkst (Some p) w) in (a, world s)
  end.

Definition GetInterfaceVersion (ctx : option context) (b : option Transactor) (provider : option Z)
  : HM Z := λ w,
  match b with
  | None => (Err (ESentinel ErrUnsupported), w)
  | Some transact =>
      match provider with
      | Some v => (Ok v, w)
      | None => read_reply ReadInt32 (transact ctx GetInterfaceVersionTransaction (Some NewParcel) FlagNone w)
      end
  end.

Definition GetInterfaceHash (ctx : option context) (b : option Transactor) (provider : option string)
  : HM string := λ w,
  match b with
  | None => (Err (ESentinel ErrUnsupported), w)
  | Some transact =>
      match provider with
      | Some v => (Ok v, w)
      | None => read_reply ReadString (transact ctx GetInterfaceHashTransaction (Some NewParcel) FlagNone w)
      end
  end.

Definition GetDebugPID (ctx : option context) (b : option Transactor) : HM Z := λ w,
  match b with
  | None => (Err (ESentinel ErrUnsupported), w)
  | Some transact => read_reply ReadInt32 (transact ctx DebugPIDTransaction (Some NewParcel) FlagNone w)
  end.

Definition writeDumpRequest (fd : FileDescriptor) (args : list string) : PM W B unit :=
  WriteFileDescriptor fd;; WriteInt32 (i32 (len args));; write_elems WriteString args;; SetPosition 0.

Definition DumpBinder (ctx : option context) (b : option Transactor) (fd : FileDescriptor)
    (args : list string) : HM unit := λ w,
  match b with
  | None => (Err (ESentinel ErrUnsupported), w)
  | Some transact =>
      if fd_fd fd <? 0
      then (Err (Errorf_w ErrBadParcelable ("invalid dump fd " +:+ pretty (fd_fd fd))%string), w)
      else
        match writeDumpRequest fd args (mkst (Some NewParcel) w) with
        | (Err e, s) => (Err e, world s)
        | (Panic y, s) => (Panic y, world s)
        | (Ok _, s) =>
            match transact ctx DumpTransaction (ptr s) FlagNone (world s) with
            | (Ok _, w') => (Ok tt, w')
            | (Err e, w') => (Err e, w')
            | (Panic y, w') => (Panic y, w')
            end
        end
  end.

(** ** src/internal/kernel/local_nodes.go *)

Record LocalNode := mkNode {
  node_ID : Z; node_Handler : Handler; node_Serial : bool; node_Stability : Z;
}.

Record localRegistry := mkLocals { locals_next : Z; locals_nodes : gmap Z LocalNode }.

Definition newLocalRegistry : localRegistry := mkLocals 1 ∅.

Definition RegisterLocalNode (handler : option Handler) (serial : bool) (l : localRegistry)
  : res LocalNode * localRegistry :=
  match handler with
  | None => (Err (Errorf_w ErrUnsupported "nil handler"), l)
  | Some h =>
      let id := u64 (locals_next l) in
      let node := mkNode id h serial (HandlerStability h) in
      (Ok node, mkLocals (u64 (locals_next l + 1)) (<[id := node]> (locals_nodes l)))
  end.

Definition UnregisterLocalNode (id : Z) (l : localRegistry) : localRegistry :=
  if id =? 0 then l else mkLocals (locals_next l) (delete id (locals_nodes l)).

Definition localNodeByID (id : Z) (l : localRegistry) : option LocalNode :=
  if id =? 0 then None else locals_nodes l !! id.

Definition publicFlags (flags : Z) : Z :=
  if negb (Z.land flags FlagOneway =? 0) then FlagOneway else 0.

Definition dispatchLocalTransaction (pid : Z) (l : localRegistry) (ctx : option context) (nodeID code : Z)
    (data : option (Parcel W B)) (flags : Z) (meta : TransactionContext) : HM Reply := λ w,
  match localNodeByID nodeID l with
  | None => (Err (Errorf_w ErrUnsupported ("unknown local binder node " +:+ pretty nodeID)%string), w)
  | Some node =>
      let tx := mkTx (tx_Code meta) (publicFlags (tx_Flags meta)) (tx_CallingPID meta)
                  (tx_CallingUID meta) (tx_Local meta) in
      DispatchLocalHandler pid (Some (WithTransactionContext ctx tx)) (Some (node_Handler node)) code
        data (publicFlags (tx_Flags meta)) tx w
  end.

Definition DispatchLocalTransaction (pid euid : Z) (l : localRegistry) (ctx : option context)
    (nodeID code : Z) (data : option (Parcel W B)) (flags : Z) : HM Reply :=
  dispatchLocalTransaction pid l ctx nodeID code data flags
    (mkTx code flags (i32 pid) (u32 euid) true).

(** ** src/binder/lazy.go *)

(** What the factory returns: the handler (nil or not) and the error. *)
Definition Factory := W → (option Handler * option error) * W.

Record lazyCore := mkLazy {
  lazy_descriptor : string;
  lazy_factory : option Factory;
  lazy_once : bool;
  lazy_handler : option Handler;
  lazy_err : option error;
}.

Definition newLazyCore (descriptor : string) (factory : option Factory) : lazyCore :=
  mkLazy descriptor factory false None None.

(** [sync.Once] runs its body on the first call only. *)
Definition instance (c : lazyCore) (w : W) : (option Handler * option error) * lazyCore * W :=
  if lazy_once c then ((lazy_handler c, lazy_err c), c, w)
  else
    match lazy_factory c with
    | None =>
        let c' := mkLazy (lazy_descriptor c) (lazy_factory c) true (lazy_handler c)
                    (Some (ESentinel ErrUnsupported)) in
        ((lazy_handler c', lazy_err c'), c', w)
    | Some f =>
        let '((h, e), w') := f w in
        let e' := match h, e with None, None => Some (ESentinel ErrUnsupported) | _, _ => e end in
        let c' := mkLazy (lazy_descriptor c) (lazy_factory c) true h e' in
        ((lazy_handler c', lazy_err c'), c', w')
    end.

(** [lazyHandlerCore.HandleTransact]. *)
Definition lazy_HandleTransact (c : lazyCore) (ctx : context) (code : Z) (data : Parcel W B) (w : W)
  : (res Reply * lazyCore) * W :=
  let '((h, e), c', w') := instance c w in
  match e, h with
  | Some err, _ => ((Err err, c'), w')
  | None, Some h => let '(r, w2) := h_HandleTransact h ctx code data w' in ((r, c'), w2)
  | None, None => ((Panic "nil pointer dereference", c'), w')
  end.

(** The four handler structs that share a core, and their constructors. *)
Inductive lazyHandlerStruct :=
| lazyHandler (core : lazyCore)
| lazyVersionHandler (core : lazyCore) (version : Z)
| lazyHashHandler (core : lazyCore) (hash : string)
| lazyVersionHashHandler (core : lazyCore) (version : Z) (hash : string).

Record LazyHandlerConfig := mkLazyConfig {
  cfg_Descriptor : string; cfg_Version : option Z; cfg_Hash : option string;
}.

Definition NewLazyHandler (descriptor : string) (factory : option Factory) : lazyHandlerStruct :=
  lazyHandler (newLazyCore descriptor factory).

Definition NewLazyHandlerWithMetadata (cfg : LazyHandlerConfig) (factory : option Factory)
  : lazyHandlerStruct :=
  let core := newLazyCore (cfg_Descriptor cfg) factory in
  match cfg_Version cfg, cfg_Hash cfg with
  | Some v, Some h => lazyVersionHashHandler core v h
  | Some v, None => lazyVersionHandler core v
  | None, Some h => lazyHashHandler core h
  | None, None => lazyHandler core
  end.

Definition lazy_core (h : lazyHandlerStruct) : lazyCore :=
  match h with
  | lazyHandler c | lazyVersionHandler c _ | lazyHashHandler c _ | lazyVersionHashHandler c _ _ => c
  end.

(** The optional interfaces the four structs implement. *)
Definition lazy_InterfaceVersion (h : lazyHandlerStruct) : option Z :=
  match h with lazyVersionHandler _ v | lazyVersionHashHandler _ v _ => Some v | _ => None end.
Definition lazy_InterfaceHash (h : lazyHandlerStruct) : option string :=
  match h with lazyHashHandler _ s | lazyVersionHashHandler _ _ s => Some s | _ => None end.
End Handlers.
Arguments Handler W B : clear implicits.
Arguments Transactor W B : clear implicits.
Arguments lazyCore W B : clear implicits.
Arguments localRegistry W B : clear implicits.
Arguments lazyHandlerStruct W B : clear implicits.
