(* ===== verification/DispatchProps.v ===== *)
(** * DispatchProps: what a local service promises its callers

    Theorems on Dispatch: the reserved transactions answer with the handler's own
    metadata all the way from a caller's query through the node registry, user
    transactions see the caller's identity, dumps deliver descriptor and
    arguments, and a lazy handler is an eager one created on first use. *)

From stdpp Require Import base list numbers strings pretty gmap.
From S2P Require Import Prelude Errors Unicode Parcel ParcelFacts Codec ObjectCodec Fields ParcelInv ParcelProps Slices Stability Dispatch.

Open Scope Z_scope.

Section Facts.
Context {W B : Type}.
Implicit Types (h : Handler W B) (l : localRegistry W B) (w : W).

(** A reply built from a codec's value and the read of its consumer. *)
Lemma reply_roundtrip {A} (c : Codec W B A) (a : A) w : c_valid a → len (c_bytes a) <= maxInt →
  ∃ p, reply_with (c_write a) w = (Ok (Some p), w) ∧ pos p = 0 ∧
       read_reply c_read (Ok (Some p), w) = (Ok a, w).
Proof.
  intros Hv Hl. assert (H := codec_roundtrip_at a NewParcel w Hv append_ok_new Hl).
  cbn [pos NewParcel] in H.
  assert (Hw := c_write_ok a Hv NewParcel w eq_refl Hl).
  assert (Hs := rewind_ok (B:=B) NewParcel (c_bytes a) (c_objs a) w append_ok_new Hl).
  cbn [pos NewParcel] in Hs.
  rewrite (bind_ok _ _ _ _ _ Hw), (bind_ok _ _ _ _ _ Hs) in H.
  eexists. split_and!.
  - unfold reply_with. rewrite (bind_ok _ _ _ _ _ Hw), Hs. cbn. done.
  - done.
  - cbn [read_reply]. rewrite H. done.
Qed.

(** The Transact method of a local Binder. *)
Definition local_transactor (pid euid : Z) l (id : Z) : Transactor W B :=
  λ ctx code data flags, DispatchLocalTransaction pid euid l ctx id code data flags.

Lemma dispatch_registered pid euid l h serial node l' ctx code data flags w :
  RegisterLocalNode (Some h) serial l = (Ok node, l') → locals_next l `mod` 2 ^ 64 ≠ 0 →
  local_transactor pid euid l' (node_ID node) ctx code data flags w =
  DispatchLocalHandler pid
    (Some (WithTransactionContext ctx (mkTx code (publicFlags flags) (i32 pid) (u32 euid) true)))
    (Some h) code data (publicFlags flags)
    (mkTx code (publicFlags flags) (i32 pid) (u32 euid) true) w.
Proof.
  unfold RegisterLocalNode. intros ? Hn. simplify_eq.
  unfold local_transactor, DispatchLocalTransaction, dispatchLocalTransaction, localNodeByID.
  cbn [node_ID locals_nodes]. rewrite eqb_false by done. rewrite lookup_insert_eq. done.
Qed.

Lemma local_lookup l id node : localNodeByID id l = Some node ↔
  id ≠ 0 ∧ locals_nodes l !! id = Some node.
Proof.
  unfold localNodeByID. destruct (id =? 0) eqn:E; bools; naive_solver.
Qed.

(** ** The reserved queries *)

Definition answers {A} (o : option A) (w : W) : res A * W :=
  match o with Some a => (Ok a, w) | None => (Err (ESentinel ErrUnknownTransaction), w) end.

Lemma query_answers {A} (c : Codec W B A) (o : option A) w : opt_ok c_valid o →
  len (opt_bytes c_bytes o) <= maxInt →
  read_reply c_read (match o with
                     | None => (Err (ESentinel ErrUnknownTransaction), w)
                     | Some a => reply_with (c_write a) w
                     end) = answers o w.
Proof.
  destruct o as [a|]; intros Hv Hl; [|done]. destruct (reply_roundtrip c a w Hv Hl) as (p & -> & _ & H).
  exact H.
Qed.
End Facts.

Lemma string_bytes_fit s : string_fits s → len (string_bytes s) <= maxInt.
Proof.
  unfold string_fits, string_bytes, prefixed. intros H.
  rewrite !length_app, length_le_bytes, length_zeros.
  pose proof (length_unit_bytes (units_of_string s)).
  pose proof (pad_bounds (len (unit_bytes (units_of_string s) ++ [0; 0])) ltac:(lia)) as Hp.
  rewrite length_app in Hp. cbn [length] in *. width.
Qed.

(** The metadata a handler may publish: what fits the wire. *)
Definition metadata_ok {W B} (h : Handler W B) : Prop :=
  string_ok (h_Descriptor h) ∧ opt_ok (in_s 32) (h_InterfaceVersion h) ∧
  opt_ok string_ok (h_InterfaceHash h) ∧ opt_ok (in_s 32) (h_DebugPID h).

Section Queries.
Context {W B : Type} (pid euid : Z).
Implicit Types (h : Handler W B) (w : W).

Lemma string_query (o : option string) w : opt_ok string_ok o →
  read_reply ReadString (match o with
                         | None => (Err (ESentinel ErrUnknownTransaction), w)
                         | Some s => reply_with (B := B) (WriteString s) w
                         end) = answers o w.
Proof.
  intros Ho. apply (query_answers string_codec o w Ho).
  destruct o; [|done]. by apply string_bytes_fit, (proj2 Ho).
Qed.

Lemma int_query (o : option Z) w : opt_ok (in_s 32) o →
  read_reply ReadInt32 (match o with
                        | None => (Err (ESentinel ErrUnknownTransaction), w)
                        | Some v => reply_with (B := B) (WriteInt32 v) w
                        end) = answers o w.
Proof. intros Ho. apply (query_answers int32_codec o w Ho). by destruct o. Qed.

(** The answers of the reserved transactions, before the registry. *)
Lemma handler_answers h ctx data flags tx w : metadata_ok h → 
  let ask code := DispatchLocalHandler pid ctx (Some h) code data flags tx w in
  read_reply ReadString (ask InterfaceTransaction) = (Ok (h_Descriptor h), w) ∧
  read_reply ReadInt32 (ask GetInterfaceVersionTransaction) = answers (h_InterfaceVersion h) w ∧
  read_reply ReadString (ask GetInterfaceHashTransaction) = answers (h_InterfaceHash h) w ∧
  read_reply ReadInt32 (ask DebugPIDTransaction) = (Ok (default (i32 pid) (h_DebugPID h)), w).
Proof.
  intros (Hd & Hv & Hh & Hp) ask. split_and!.
  - exact (string_query (Some (h_Descriptor h)) w Hd).
  - exact (int_query (h_InterfaceVersion h) w Hv).
  - exact (string_query (h_InterfaceHash h) w Hh).
  - apply (int_query (Some (default (i32 pid) (h_DebugPID h))) w). cbn.
    destruct (h_DebugPID h); [exact Hp|]. unfold default, i32. apply wraps_range; lia.
Qed.
End Queries.

Lemma WithStability_metadata W B (h : Handler W B) level : metadata_ok h →
  ∃ h', WithStability (Some h) level = Some h' ∧ metadata_ok h' ∧
    h_Descriptor h' = h_Descriptor h ∧ h_HandleTransact h' = h_HandleTransact h ∧
    h_InterfaceVersion h' = h_InterfaceVersion h ∧ h_InterfaceHash h' = h_InterfaceHash h ∧
    h_StabilityLevel h' = Some level ∧ h_Dump h' = None ∧ h_DebugPID h' = None.
Proof.
  intros (Hd & Hv & Hh & Hp). unfold WithStability.
  destruct (h_InterfaceVersion h) as [v|] eqn:Ev, (h_InterfaceHash h) as [s|] eqn:Eh;
    (eexists; split; [done|]); unfold metadata_ok; cbn; rewrite ?Ev, ?Eh; split_and!; done.
Qed.

(** Publishing a handler under a stability label keeps its stable-AIDL
    metadata: the registered node carries the label (system for an undeclared
    one), and a caller's version and hash queries, sent as reserved transactions
    through the node registry, return the handler's own version and hash, or the
    unknown-transaction error where it has none; the interface transaction
    returns its descriptor. *)
Theorem published_metadata W B pid euid (l : localRegistry W B) (h : Handler W B) level serial ctx w :
  metadata_ok h → locals_next l `mod` 2 ^ 64 ≠ 0 →
  ∃ node l', RegisterLocalNode (WithStability (Some h) level) serial l = (Ok node, l') ∧
    let b := local_transactor pid euid l' (node_ID node) in
    node_Stability node = (if level =? StabilityUndeclared then StabilitySystem else level) ∧
    GetInterfaceVersion ctx (Some b) None w = answers (h_InterfaceVersion h) w ∧
    GetInterfaceHash ctx (Some b) None w = answers (h_InterfaceHash h) w ∧
    read_reply ReadString (b ctx InterfaceTransaction None FlagNone w) = (Ok (h_Descriptor h), w).
Proof.
  intros Hm Hn.
  destruct (WithStability_metadata W B h level Hm) as (h' & -> & Hm' & Ed & _ & Ev & Eh & Es & _).
  eexists _, _. split; [reflexivity|]. cbn zeta. unfold GetInterfaceVersion, GetInterfaceHash.
  split; [cbn [node_Stability]; unfold HandlerStability; by rewrite Es|].
  rewrite !(dispatch_registered pid euid l h' serial _ _ ctx _ _ _ w eq_refl Hn).
  rewrite <- Ed, <- Ev, <- Eh.
  by split_and!; apply handler_answers.
Qed.

Definition demo_handler : Handler Z unit :=
  mkHandler "demo.IEcho" (λ _ _ p w, (Ok (Some p), w + 1)) (Some 3) (Some "abc"%string)
    (Some (λ _ fd args w, (Ok tt, w + fd + 100 * len args))) (Some 77) None.

Lemma demo_handler_ok : metadata_ok demo_handler.
Proof. vm_compute. repeat split; discriminate. Defined.

Lemma published_metadata_witness :
  ∃ node l', RegisterLocalNode (WithStability (Some demo_handler) StabilityVINTF) false newLocalRegistry
               = (Ok node, l') ∧
    let b := local_transactor 5 0 l' (node_ID node) in
    node_Stability node = StabilityVINTF ∧
    GetInterfaceVersion None (Some b) None 0 = (Ok 3, 0) ∧
    GetInterfaceHash None (Some b) None 0 = (Ok "abc"%string, 0) ∧
    read_reply ReadString (b None InterfaceTransaction None FlagNone 0) = (Ok "demo.IEcho"%string, 0).
Proof.
  apply (published_metadata Z unit 5 0 newLocalRegistry demo_handler StabilityVINTF false None 0).
  - vm_compute. repeat split; discriminate.
  - discriminate.
Defined.

(** ** User transactions *)

Definition reserved (code : Z) : bool :=
  bool_decide (code ∈ [InterfaceTransaction; PingTransaction; DumpTransaction; DebugPIDTransaction;
                       GetInterfaceVersionTransaction; GetInterfaceHashTransaction]).

Lemma SetPosition_0 W B (p : Parcel W B) w :
  SetPosition 0 (mkst (Some p) w) = (Ok tt, mkst (Some (set_pos 0 p)) w).
Proof.
  unfold SetPosition. rewrite bind_receiver. cbn [ptr].
  rewrite Z.gtb_ltb, !(proj2 (Z.ltb_ge _ _)) by lia. done.
Qed.

(** A [switch] on a code that is none of the reserved ones. *)
Lemma reserved_false code : reserved code = false →
  (code =? InterfaceTransaction) = false ∧ (code =? PingTransaction) = false ∧
  (code =? DumpTransaction) = false ∧ (code =? DebugPIDTransaction) = false ∧
  (code =? GetInterfaceVersionTransaction) = false ∧ (code =? GetInterfaceHashTransaction) = false.
Proof.
  intros H. apply bool_decide_eq_false in H. rewrite !elem_of_cons in H.
  rewrite !Z.eqb_neq. tauto.
Qed.

Lemma oneway_bit flags : negb (Z.land flags FlagOneway =? 0) = Z.testbit flags 0.
Proof.
  change FlagOneway with (Z.ones 1). rewrite Z.land_ones, Z.pow_1_r, Zmod_odd, <- Z.bit0_odd by lia.
  by destruct (Z.testbit flags 0).
Qed.

Lemma oneway_public flags :
  negb (Z.land (publicFlags flags) FlagOneway =? 0) = Z.testbit flags 0.
Proof. rewrite oneway_bit. unfold publicFlags. rewrite oneway_bit. by destruct (Z.testbit flags 0). Qed.

(** A transaction to a registered node with a code that is not reserved runs
    the handler's HandleTransact exactly once, on the caller's data (a fresh
    Parcel for nil), under a context that carries the code, the public flags and
    the calling process's identity and keeps the caller's stability requirement;
    an error is returned as it is, a oneway call returns no reply, and every
    other call returns a reply rewound to its start, an empty one for nil. *)
Theorem user_transaction_spec W B pid euid (l : localRegistry W B) id node ctx code data flags w :
  localNodeByID id l = Some node → reserved code = false →
  let r := DispatchLocalTransaction pid euid l ctx id code data flags w in
  ∃ c, TransactionContextFromContext (Some c) =
         Some (mkTx code (publicFlags flags) (i32 pid) (u32 euid) true) ∧
       RequiredStabilityFromContext (Some c) = RequiredStabilityFromContext ctx ∧
    match h_HandleTransact (node_Handler node) c code (default NewParcel data) w with
    | (Err e, w') => r = (Err e, w')
    | (Panic y, w') => r = (Panic y, w')
    | (Ok reply, w') =>
        if Z.testbit flags 0 then r = (Ok None, w')
        else ∃ p, r = (Ok (Some p), w') ∧ pos p = 0 ∧ buf p = buf (default NewParcel reply) ∧
                  objects p = objects (default NewParcel reply)
    end.
Proof.
  intros Hid Hc r. destruct (reserved_false _ Hc) as (E1 & E2 & E3 & E4 & E5 & E6).
  set (tx := mkTx code (publicFlags flags) (i32 pid) (u32 euid) true).
  exists (WithTransactionContext (Some (WithTransactionContext ctx tx)) tx).
  split; [done|]. split; [by destruct ctx|].
  subst r. unfold DispatchLocalTransaction, dispatchLocalTransaction. rewrite Hid.
  unfold DispatchLocalHandler. rewrite E1, E2, E3, E4, E5, E6. cbn [tx_Code tx_Flags tx_CallingPID tx_CallingUID tx_Local].
  fold tx.
  destruct (h_HandleTransact _ _ _ _ _) as [[reply|e|y] w']; [|done..].
  rewrite oneway_public. destruct (Z.testbit flags 0); [done|].
  destruct reply as [p|]; [rewrite SetPosition_0|]; (eexists; split_and!; reflexivity).
Qed.

Lemma user_transaction_spec_witness :
  ∃ p, DispatchLocalTransaction 5 0 (mkLocals 2 {[ 1 := mkNode 1 demo_handler false 0 ]}) None 1 9
         (NewParcelBytes [1; 2; 3; 4]) 0 0 = (Ok (Some p), 1) ∧ pos p = 0 ∧ buf p = [1; 2; 3; 4].
Proof.
  destruct (user_transaction_spec Z unit 5 0 (mkLocals 2 {[ 1 := mkNode 1 demo_handler false 0 ]})
    1 (mkNode 1 demo_handler false 0) None 9 (NewParcelBytes [1; 2; 3; 4]) 0 0
    (lookup_singleton_eq _ _) eq_refl) as (c & _ & _ & p & H & Hp & Hb & _).
  exists p. split; [exact H|]. split; [exact Hp|exact Hb].
Defined.

(** ** Dumps *)

Section Dumps.
Context {W B : Type}.

Definition args_ok (args : list string) : Prop :=
  len args <= maxInt32 ∧ Forall string_ok args ∧ len (cat_bytes string_bytes args) + 28 <= maxInt.

(** The Parcel a dump request writes. *)
Definition dump_parcel (fd : Z) (args : list string) : Parcel W B :=
  p_emit (p_emit NewParcel (fd_bytes fd) [fd_ref fd])
    (le_bytes 4 (u32 (len args)) ++ cat_bytes string_bytes args) [].

Lemma write_dump_ok fd owned args (w : W) : in_u 31 fd → args_ok args →
  writeDumpRequest (mkFD fd owned) args (mkst (Some NewParcel) w) =
    (Ok tt, mkst (Some (set_pos 0 (dump_parcel fd args))) w).
Proof.
  intros Hfd (Hl & Hs & Hb). unfold writeDumpRequest.
  rewrite (bind_ok _ _ _ _ _ (write_fd_ok NewParcel w fd owned append_ok_new Hfd
    ltac:(unfold maxInt; cbn; lia) ltac:(done))).
  assert (E : @emits W B unit (WriteInt32 (i32 (len args));; write_elems WriteString args) tt
    (le_bytes 4 (u32 (len args)) ++ cat_bytes string_bytes args) []).
  { apply (emits_counted (write_elems WriteString args) (len args) _ []); [lia|].
    rewrite <- (cat_objs_nil string_bytes args). apply emits_elems.
    eapply Forall_impl; [exact Hs|]. intros s [_ Hf]. by apply emits_WriteString. }
  rewrite <- bind_assoc.
  rewrite (bind_ok _ _ _ _ _ (E (p_emit NewParcel (fd_bytes fd) [fd_ref fd]) w eq_refl
    ltac:(rewrite length_app, length_le_bytes; cbn [p_emit buf set_objects set_pos set_buf app NewParcel];
          change (length (fd_bytes fd)) with 24%nat; lia))).
  apply SetPosition_0.
Qed.

Lemma read_dump_ok fd args (w : W) : in_u 31 fd → args_ok args →
  ∃ s, readDumpRequest (mkst (Some (set_pos 0 (dump_parcel fd args))) w) =
    (Ok (mkFD fd false, args), s) ∧ world s = w.
Proof.
  intros Hfd (Hl & Hs & Hb). eexists. unfold readDumpRequest.
  assert (Hlen : len (buf (dump_parcel fd args)) <= maxInt).
  { cbn [dump_parcel p_emit buf set_objects set_pos set_buf app NewParcel].
    rewrite !length_app, length_le_bytes. change (length (fd_bytes fd)) with 24%nat. lia. }
  rewrite (bind_ok _ _ _ _ _ (read_fd_ok (set_pos 0 (dump_parcel fd args)) w []
    (le_bytes 4 (u32 (len args)) ++ cat_bytes string_bytes args) fd Hfd eq_refl eq_refl Hlen
    ltac:(by constructor))).
  assert (E : @consumes W B _ (count ← ReadInt32;
      if count <? 0
      then throw (Errorf_w ErrBadParcelable ("invalid dump arg count " +:+ pretty count)%string)
      else args ← read_elems ReadString (Z.to_nat count); mret (mkFD fd false, args))
    (mkFD fd false, args) (le_bytes 4 (u32 (len args)) ++ cat_bytes string_bytes args) []).
  { apply (consumes_counted _ _ (len args) _ []); [lia|]. zif. rewrite Nat2Z.id.
    apply consumes_fmap with (f := λ l, (mkFD fd false, l)) (a := args); [|done].
    assert (H := consumes_elems (W:=W) (B:=B) ReadString id string_bytes (λ _, []) args).
    rewrite list_fmap_id, cat_objs_nil in H. apply H. eapply Forall_impl; [exact Hs|]. intros s Hf. by apply consumes_ReadString_id. }
  split; [apply (E _ w (fd_bytes fd) []); [by rewrite app_nil_r|done|exact Hlen|constructor]|done].
Qed.

Lemma dispatch_dump pid ctx (h : Handler W B) flags tx fd args (w : W) : in_u 31 fd → args_ok args →
  DispatchLocalHandler pid ctx (Some h) DumpTransaction (Some (set_pos 0 (dump_parcel fd args))) flags tx w =
  match h_Dump h with
  | Some dump =>
      match dump (WithTransactionContext ctx (mkTx DumpTransaction flags (tx_CallingPID tx)
                    (tx_CallingUID tx) (tx_Local tx))) fd args w with
      | (Ok _, w') => (Ok (Some NewParcel), w')
      | (Err e, w') => (Err e, w')
      | (Panic y, w') => (Panic y, w')
      end
  | None => (Ok (Some NewParcel), w)
  end.
Proof.
  intros Hfd Ha. unfold DispatchLocalHandler.
  rewrite Z.eqb_refl. change (DumpTransaction =? InterfaceTransaction) with false.
  change (DumpTransaction =? PingTransaction) with false. cbv iota zeta. cbn [from_option id].
  by destruct (read_dump_ok fd args w Hfd Ha) as (s & -> & ->).
Qed.

Lemma DumpBinder_sends ctx (transact : Transactor W B) fd owned args (w : W) : in_u 31 fd → args_ok args →
  DumpBinder ctx (Some transact) (mkFD fd owned) args w =
  match transact ctx DumpTransaction (Some (set_pos 0 (dump_parcel fd args))) FlagNone w with
  | (Ok _, w') => (Ok tt, w')
  | (Err e, w') => (Err e, w')
  | (Panic y, w') => (Panic y, w')
  end.
Proof.
  intros Hfd Ha. unfold DumpBinder. cbn [fd_fd]. rewrite ltb_false by width. by rewrite write_dump_ok.
Qed.
End Dumps.

(** A dump request made on a local Binder reaches the handler: its Dump method
    is called once with the caller's descriptor number and exactly the caller's
    arguments, and its error is the caller's error. *)
Theorem dump_delivered W B pid euid (l : localRegistry W B) id node dump ctx fd owned args w :
  localNodeByID id l = Some node → h_Dump (node_Handler node) = Some dump →
  in_u 31 fd → args_ok args →
  ∃ c, TransactionContextFromContext (Some c) =
         Some (mkTx DumpTransaction 0 (i32 pid) (u32 euid) true) ∧
    DumpBinder ctx (Some (local_transactor pid euid l id)) (mkFD fd owned) args w = dump c fd args w.
Proof.
  intros Hid Hd Hfd Ha. set (tx := mkTx DumpTransaction 0 (i32 pid) (u32 euid) true).
  exists (WithTransactionContext (Some (WithTransactionContext ctx tx)) tx). split; [done|].
  rewrite DumpBinder_sends by done.
  unfold local_transactor, DispatchLocalTransaction, dispatchLocalTransaction.
  rewrite Hid, dispatch_dump, Hd by done. cbn [tx_CallingPID tx_CallingUID tx_Local].
  change (publicFlags _) with 0. fold tx. by destruct (dump _ fd args w) as [[[]|e|y] w'].
Qed.

Definition demo_locals : localRegistry Z unit :=
  mkLocals 2 {[ 1 := mkNode 1 demo_handler false StabilitySystem ]}.

Lemma dump_delivered_witness :
  DumpBinder None (Some (local_transactor 5 0 demo_locals 1)) (mkFD 4 false) ["-a"%string; "x"%string] 0
    = (Ok tt, 204).
Proof.
  destruct (dump_delivered Z unit 5 0 demo_locals 1 (mkNode 1 demo_handler false StabilitySystem) _ None 4
    false ["-a"%string; "x"%string] 0 (lookup_singleton_eq _ _) eq_refl) as (c & _ & H).
  - split; [discriminate|reflexivity].
  - split; [discriminate|]. split; [|discriminate]. repeat constructor; vm_compute; discriminate.
  - exact H.
Defined.

(** Putting a handler behind a stability label drops its optional dump and
    debug-PID interfaces: a dump of the published service succeeds without ever
    calling the handler, and the debug-PID query returns the process's own id
    where the handler names another. *)
Theorem stability_wrapper_hides_dump W B pid euid (h : Handler W B) level serial (l l' : localRegistry W B)
    node ctx fd owned args w :
  metadata_ok h → locals_next l `mod` 2 ^ 64 ≠ 0 → in_u 31 fd → args_ok args →
  RegisterLocalNode (WithStability (Some h) level) serial l = (Ok node, l') →
  let b := local_transactor pid euid l' (node_ID node) in
  DumpBinder ctx (Some b) (mkFD fd owned) args w = (Ok tt, w) ∧
  GetDebugPID ctx (Some b) w = (Ok (i32 pid), w).
Proof.
  intros Hm Hn Hfd Ha.
  destruct (WithStability_metadata W B h level Hm) as (h' & -> & Hm' & _ & _ & _ & _ & _ & Ed & Ep).
  intros Hr b. split.
  - rewrite DumpBinder_sends by done. unfold b.
    rewrite (dispatch_registered _ _ _ _ _ _ _ _ _ _ _ _ Hr Hn). by rewrite dispatch_dump, Ed.
  - unfold GetDebugPID, b. rewrite (dispatch_registered _ _ _ _ _ _ _ _ _ _ _ _ Hr Hn).
    rewrite (proj2 (proj2 (proj2 (handler_answers pid h' _ _ _ _ w Hm')))). by rewrite Ep.
Qed.

Lemma stability_wrapper_hides_dump_witness :
  DumpBinder None (Some (local_transactor 5 0
     (RegisterLocalNode (WithStability (Some demo_handler) StabilityVendor) false newLocalRegistry).2 1))
     (mkFD 4 false) [] 0 = (Ok tt, 0) ∧
  GetDebugPID None (Some (local_transactor 5 0
     (RegisterLocalNode (WithStability (Some demo_handler) StabilityVendor) false newLocalRegistry).2 1)) 0
    = (Ok 5, 0).
Proof.
  refine (stability_wrapper_hides_dump Z unit 5 0 demo_handler StabilityVendor false newLocalRegistry _ _
    None 4 false [] 0 _ _ _ _ eq_refl).
  - vm_compute. repeat split; discriminate.
  - discriminate.
  - split; [discriminate|reflexivity].
  - split; [discriminate|]. split; [constructor|discriminate].
Defined.

(** ** Lazy handlers *)

Section Lazy.
Context {W B : Type}.

Definition lazy_call : Type := context * Z * Parcel W B.

(** A sequence of transactions on a lazy handler. *)
Fixpoint run_lazy (c : lazyCore W B) (calls : list lazy_call) (w : W)
  : list (res (option (Parcel W B))) * lazyCore W B * W :=
  match calls with
  | [] => ([], c, w)
  | (ctx, code, data) :: calls' =>
      let '((r, c'), w') := lazy_HandleTransact c ctx code data w in
      let '(rs, c2, w2) := run_lazy c' calls' w' in (r :: rs, c2, w2)
  end.

(** The same transactions on a handler that exists. *)
Fixpoint run_eager (handle : lazy_call → HM (option (Parcel W B))) (calls : list lazy_call) (w : W)
  : list (res (option (Parcel W B))) * W :=
  match calls with
  | [] => ([], w)
  | call :: calls' =>
      let '(r, w') := handle call w in
      let '(rs, w2) := run_eager handle calls' w' in (r :: rs, w2)
  end.

Definition outcome_handle (o : option (Handler W B) * option error) (call : lazy_call) : HM (option (Parcel W B)) :=
  match o with
  | (_, Some e) => λ w, (Err e, w)
  | (Some h, None) => h_HandleTransact h call.1.1 call.1.2 call.2
  | (None, None) => λ w, (Err (ESentinel ErrUnsupported), w)
  end.

Definition done_core (c : lazyCore W B) (o : option (Handler W B) * option error) : Prop :=
  lazy_once c = true ∧
  match o with
  | (_, Some e) => lazy_err c = Some e
  | (Some h, None) => lazy_handler c = Some h ∧ lazy_err c = None
  | (None, None) => lazy_err c = Some (ESentinel ErrUnsupported)
  end.

Lemma lazy_done c o call w : done_core c o →
  lazy_HandleTransact c call.1.1 call.1.2 call.2 w =
    let '(r, w') := outcome_handle o call w in ((r, c), w').
Proof.
  intros [H1 H]. unfold lazy_HandleTransact, instance. rewrite H1.
  destruct o as [[h|] [e|]]; cbn in H |- *; [by rewrite H|destruct H as [-> ->]|by rewrite H..].
  by destruct (h_HandleTransact _ _ _ _ _).
Qed.

Lemma run_lazy_done c o calls w : done_core c o →
  run_lazy c calls w = let '(rs, w') := run_eager (outcome_handle o) calls w in (rs, c, w').
Proof.
  intros Hd. revert w. induction calls as [|[[ctx code] data] calls IH]; intros w; [done|].
  cbn [run_lazy run_eager]. pose proof (lazy_done c o (ctx, code, data) w Hd) as E. cbn [fst snd] in E.
  rewrite E. destruct (outcome_handle o _ w) as [r w']. rewrite IH.
  by destruct (run_eager _ calls w').
Qed.

Lemma lazy_first d f call w : let '(o, w1) := f w in
  ∃ c', done_core c' o ∧ lazy_descriptor c' = d ∧
    lazy_HandleTransact (newLazyCore d (Some f)) call.1.1 call.1.2 call.2 w =
    lazy_HandleTransact c' call.1.1 call.1.2 call.2 w1.
Proof.
  destruct (f w) as [[h e] w1] eqn:E. unfold lazy_HandleTransact at 1, instance. cbn. rewrite E.
  eexists (mkLazy d (Some f) true h _). split; [|split; [reflexivity|]].
  2:{ unfold lazy_HandleTransact, instance. cbn. reflexivity. }
  split; [done|]. by destruct h, e.
Qed.
End Lazy.

(** A lazy handler is the handler its factory builds, created on the first
    transaction: for any non-empty sequence of transactions the results and the
    final state are those of running the factory once, first, and then every
    transaction on the handler it returned (or answering each with the factory's
    error, unsupported when it returned neither); the version and hash given at
    construction and the descriptor need no factory call. *)
Theorem lazy_handler_once W B (cfg : LazyHandlerConfig) (f : Factory (W := W) (B := B)) call calls w :
  let h := NewLazyHandlerWithMetadata cfg (Some f) in
  let '(o, w1) := f w in
  let '(rs, w2) := run_eager (outcome_handle o) (call :: calls) w1 in
  (∃ c, run_lazy (lazy_core h) (call :: calls) w = (rs, c, w2) ∧ lazy_descriptor c = cfg_Descriptor cfg) ∧
  lazy_InterfaceVersion h = cfg_Version cfg ∧ lazy_InterfaceHash h = cfg_Hash cfg ∧
  lazy_descriptor (lazy_core h) = cfg_Descriptor cfg.
Proof.
  intros h. assert (Hc : lazy_core h = newLazyCore (cfg_Descriptor cfg) (Some f)).
  { unfold h, NewLazyHandlerWithMetadata. by destruct (cfg_Version cfg), (cfg_Hash cfg). }
  assert (Hm : lazy_InterfaceVersion h = cfg_Version cfg ∧ lazy_InterfaceHash h = cfg_Hash cfg).
  { unfold h, NewLazyHandlerWithMetadata. by destruct (cfg_Version cfg), (cfg_Hash cfg). }
  rewrite Hc. pose proof (lazy_first (cfg_Descriptor cfg) f call w) as E.
  destruct (f w) as [o w1]. destruct E as (c' & Hd & Hdesc & E).
  pose proof (run_lazy_done c' o (call :: calls) w1 Hd) as R. destruct call as [[ctx code] data].
  destruct (run_eager _ _ w1) as [rs w2] eqn:Er. split; [|by destruct Hm].
  exists c'. split; [|done]. rewrite <- R. cbn [run_lazy]. cbn [fst snd] in E.
  exact (f_equal (λ x, let '(r, c0, w') := x in let '(rs0, c2, w0) := run_lazy c0 calls w' in
                       (r :: rs0, c2, w0)) E).
Qed.

(** ** The node registry over time *)

Inductive local_op (W B : Type) := LRegister (h : Handler W B) (serial : bool) | LUnregister (id : Z).
Arguments LRegister {W B}. Arguments LUnregister {W B}.

Section Registry.
Context {W B : Type}.
Implicit Types (l : localRegistry W B) (ops : list (local_op W B)).

(** The nodes registered by a sequence of calls, oldest first, and the final state. *)
Fixpoint run_locals ops l : list (LocalNode) * localRegistry W B :=
  match ops with
  | [] => ([], l)
  | LUnregister id :: ops' => run_locals ops' (UnregisterLocalNode id l)
  | LRegister h serial :: ops' =>
      match RegisterLocalNode (Some h) serial l with
      | (Ok n, l') => let '(ns, l2) := run_locals ops' l' in (n :: ns, l2)
      | (_, l') => run_locals ops' l'
      end
  end.

Definition locals_wf l : Prop :=
  1 <= locals_next l < 2 ^ 64 ∧
  map_Forall (λ id n, 1 <= id < locals_next l ∧ node_ID n = id) (locals_nodes l).

Lemma register_wf l h serial : locals_wf l → locals_next l + 1 < 2 ^ 64 →
  let n := mkNode (locals_next l) h serial (HandlerStability h) in
  RegisterLocalNode (Some h) serial l =
    (Ok n, mkLocals (locals_next l + 1) (<[locals_next l := n]> (locals_nodes l))) ∧
  locals_wf (mkLocals (locals_next l + 1) (<[locals_next l := n]> (locals_nodes l))).
Proof.
  intros [Hn Hm] Hl n. unfold RegisterLocalNode, u64. rewrite !wrapu_id by width.
  split; [done|]. split; cbn [locals_next locals_nodes]; [lia|]. apply map_Forall_insert_2.
  - cbn. lia.
  - eapply map_Forall_impl; [exact Hm|]. intros id m. cbn. lia.
Qed.

Lemma unregister_wf l id : locals_wf l → locals_wf (UnregisterLocalNode id l).
Proof.
  intros [Hn Hm]. unfold UnregisterLocalNode. destruct (id =? 0); [done|]. split; [done|].
  cbn [locals_nodes locals_next]. by apply map_Forall_delete.
Qed.

Lemma unregister_lookup l id k : locals_wf l →
  locals_nodes (UnregisterLocalNode id l) !! k = if decide (id = k) then None else locals_nodes l !! k.
Proof.
  intros [_ Hm]. unfold UnregisterLocalNode. destruct (id =? 0) eqn:E; bools.
  - subst. destruct (decide (0 = k)) as [<-|]; [|done].
    destruct (locals_nodes l !! 0) eqn:E0; [|done]. apply Hm in E0. cbn in E0. lia.
  - cbn. destruct (decide (id = k)) as [<-|]; [by rewrite lookup_delete_eq|by rewrite lookup_delete_ne].
Qed.

Lemma run_locals_spec ops l ns l' : locals_wf l → locals_next l + len ops < 2 ^ 64 →
  run_locals ops l = (ns, l') →
  locals_wf l' ∧ NoDup (node_ID <$> ns) ∧ Forall (λ n, locals_next l <= node_ID n) ns ∧
  (∀ n, n ∈ ns ∨ locals_nodes l !! node_ID n = Some n → LUnregister (node_ID n) ∉ ops →
     locals_nodes l' !! node_ID n = Some n) ∧
  (∀ id n, locals_nodes l' !! id = Some n → n ∈ ns ∨ locals_nodes l !! id = Some n).
Proof.
  revert l ns. induction ops as [|[h serial|id] ops IH]; intros l ns Hwf Hl Hr; cbn [run_locals] in Hr.
  - simplify_eq. split_and!; [done|constructor|constructor| |naive_solver].
    intros n [Hn|]; [by apply not_elem_of_nil in Hn|done].
  - cbn [length] in Hl. destruct (register_wf l h serial Hwf ltac:(lia)) as [E Hwf1].
    set (n0 := mkNode (locals_next l) h serial (HandlerStability h)) in *. rewrite E in Hr.
    destruct (run_locals ops _) as [ns1 l1] eqn:Er. simplify_eq.
    destruct (IH _ ns1 Hwf1 ltac:(cbn; lia) Er) as (Hwf2 & Hnd & Hge & Hlive & Honly).
    cbn [locals_next locals_nodes] in *. split_and!; [done| | | |].
    + cbn. constructor; [|done]. rewrite list_elem_of_fmap. intros (n & En & Hn).
      rewrite Forall_forall in Hge. specialize (Hge n Hn). cbn in *. lia.
    + constructor; [cbn; lia|]. eapply Forall_impl; [exact Hge|]. cbn. lia.
    + intros n Hn Hun. apply Hlive; [|by rewrite not_elem_of_cons in Hun; destruct Hun].
      rewrite elem_of_cons in Hn. destruct Hn as [[->|]|Hn]; [right; by rewrite lookup_insert_eq|by left|].
      right. rewrite lookup_insert_ne; [done|]. apply Hwf in Hn. cbn in Hn. lia.
    + intros id n Hn. apply Honly in Hn as [|Hn]; [left; by apply elem_of_cons; right|].
      apply lookup_insert_Some in Hn as [[_ <-]|[_ ?]]; [left; by apply elem_of_cons; left|by right].
  - cbn [length] in Hl.
    assert (En : locals_next (UnregisterLocalNode id l) = locals_next l).
    { unfold UnregisterLocalNode. by destruct (id =? 0). }
    destruct (IH _ ns (unregister_wf l id Hwf) ltac:(lia) Hr) as (Hwf2 & Hnd & Hge & Hlive & Honly).
    rewrite En in Hge. split_and!; [done..| |].
    + intros n Hn Hun. rewrite not_elem_of_cons in Hun. destruct Hun as [Hne Hun]. apply Hlive; [|done].
      destruct Hn as [|Hn]; [by left|right]. rewrite unregister_lookup by done.
      rewrite decide_False; [done|]. congruence.
    + intros k n Hn. apply Honly in Hn as [|Hn]; [by left|right].
      rewrite unregister_lookup in Hn by done. by destruct (decide (id = k)).
Qed.
End Registry.

(** Over any sequence of registrations and unregistrations (short of 2^64),
    local Binder nodes get pairwise distinct non-zero ids, a node stays reachable
    under its id for as long as it is not unregistered, and an id only ever
    resolves to the node that was registered under it. *)
Theorem local_nodes_stable W B (ops : list (local_op W B)) : len ops < 2 ^ 64 - 1 →
  let '(ns, l) := run_locals ops newLocalRegistry in
  NoDup (node_ID <$> ns) ∧ Forall (λ n, node_ID n ≠ 0) ns ∧
  (∀ n, n ∈ ns → LUnregister (node_ID n) ∉ ops → localNodeByID (node_ID n) l = Some n) ∧
  (∀ id n, localNodeByID id l = Some n → n ∈ ns ∧ node_ID n = id).
Proof.
  intros Hl. destruct (run_locals ops newLocalRegistry) as [ns l] eqn:Er.
  destruct (run_locals_spec ops newLocalRegistry ns l) as (Hwf & Hnd & Hge & Hlive & Honly);
    [by split; [cbn; lia|apply map_Forall_empty]|cbn; lia|done|].
  assert (Hnz : Forall (λ n, node_ID n ≠ 0) ns).
  { eapply Forall_impl; [exact Hge|]. cbn. lia. }
  split_and!; [done|done| |].
  - intros n Hn Hun. apply local_lookup. rewrite Forall_forall in Hnz. split; [by apply Hnz|]. auto.
  - intros id n Hn. apply local_lookup in Hn as [_ Hn]. split.
    + by destruct (Honly id n Hn).
    + by apply Hwf in Hn as [_ ?].
Qed.

Lemma local_nodes_stable_witness :
  localNodeByID 2 (run_locals [LRegister demo_handler false; LRegister demo_handler true; LUnregister 1]
                     newLocalRegistry).2 = Some (mkNode 2 demo_handler true StabilitySystem).
Proof.
  pose proof (local_nodes_stable Z unit
    [LRegister demo_handler false; LRegister demo_handler true; LUnregister 1] ltac:(reflexivity)) as H.
  cbn in H. destruct H as (_ & _ & H & _). apply (H (mkNode 2 demo_handler true StabilitySystem)).
  - right. left.
  - intros Hin. apply list_elem_of_In in Hin. cbn in Hin. destruct Hin as [?|[?|[?|[]]]]; discriminate.
Defined.
