(* ===== verification/RpcConn.v ===== *)
(** * RpcConn: the RPC connection

    Models src/rpc_conn.go, src/rpc_binder.go, src/rpc_death.go and the
    managedSubscription of src/service_manager_support.go.

    A connection is shared by the goroutines that call through it, its read loop
    and the goroutines that serve the peer's calls.  Everything they share is in
    [RPCConn]: the frame objects and the pool they are recycled through (a frame
    pointer is an index into [rc_frames]), the channels of the pending calls, the
    tables of exported and imported objects, the death subscriptions.  The
    operations below are the code's critical sections; a function of the source
    that blocks or releases a lock in its middle is one definition per section.
    The gob stream carries frames: encoding one appends it to [rc_out]. *)

From stdpp Require Import base list numbers strings pretty gmap.
From S2P Require Import Prelude Errors Unicode Parcel ParcelFacts Codec Fields Stability Dispatch.

Open Scope Z_scope.

(** ** Frames *)

Inductive rpcRole := rpcRoleClient | rpcRoleServer.

Definition rpcServerServiceManagerHandle : Z := 1.
Definition rpcClientExportStart : Z := 2.
Definition rpcServerExportStart : Z := 3.

Inductive rpcFrameKind := rpcFrameTransact | rpcFrameReply | rpcFrameObituary
  | rpcFrameUnknown (kind : string).

Record rpcFrameError := mkFrameError {
  fe_Kind : string; fe_Message : string; fe_StatusCode : Z; fe_ExceptionCode : Z;
}.

Record rpcFrame := mkFrame {
  frame_Kind : rpcFrameKind;
  frame_ID : Z;
  frame_Handle : Z;
  frame_Code : Z;
  frame_Flags : Z;
  frame_Payload : option (list Z);
  frame_Objects : option (list ParcelObject);
  frame_Err : option rpcFrameError;
}.

(** [rpcFrame{}]. *)
Definition zeroFrame : rpcFrame := mkFrame (rpcFrameUnknown "") 0 0 0 0 None None None.

Definition kind_error (kind : string) : rpcFrameError := mkFrameError kind "" 0 0.

Definition captureRPCFrameError (err : option error) : option rpcFrameError :=
  match err with
  | None => None
  | Some e =>
      Some (match errors_As_StatusCode e with
      | Some code => mkFrameError "status_code" "" code 0
      | None =>
      match errors_As_Remote e with
      | Some r => mkFrameError "remote_exception" (re_Message r) 0 (re_Code r)
      | None =>
          if errors_Is e ErrDeadObject then kind_error "err_dead_object"
          else if errors_Is e ErrFailedTxn then kind_error "err_failed_txn"
          else if errors_Is e ErrBadParcelable then kind_error "err_bad_parcelable"
          else if errors_Is e ErrPermissionDenied then kind_error "err_permission_denied"
          else if errors_Is e ErrUnsupported then kind_error "err_unsupported"
          else if errors_Is e ErrNoService then kind_error "err_no_service"
          else if errors_Is e ErrClosed then kind_error "err_closed"
          else if errors_Is e ErrUnknownTransaction then kind_error "err_unknown_transaction"
          else mkFrameError "text" (Error_string e) 0 0
      end end)
  end.

Definition replay (fe : option rpcFrameError) : option error :=
  match fe with
  | None => None
  | Some e =>
      let kind_is k := String.eqb (fe_Kind e) k in
      Some (if kind_is "status_code" then EStatusCode (fe_StatusCode e)
      else if kind_is "remote_exception" then ERemote (mkRemoteException (fe_ExceptionCode e) (fe_Message e) 0)
      else if kind_is "err_dead_object" then ESentinel ErrDeadObject
      else if kind_is "err_failed_txn" then ESentinel ErrFailedTxn
      else if kind_is "err_bad_parcelable" then ESentinel ErrBadParcelable
      else if kind_is "err_permission_denied" then ESentinel ErrPermissionDenied
      else if kind_is "err_unsupported" then ESentinel ErrUnsupported
      else if kind_is "err_no_service" then ESentinel ErrNoService
      else if kind_is "err_closed" then ESentinel ErrClosed
      else if kind_is "err_unknown_transaction" then ESentinel ErrUnknownTransaction
      else EText (fe_Message e))%string
  end.

(** ** The connection's state *)

(** A channel of capacity one.  [ch_for] is not in the source: the id of the
    request the channel was made for. *)
Record rpcChan := mkChan { ch_for : Z; ch_buf : option rpcFrame; ch_closed : bool }.

Record rpcCalls := mkCalls {
  rc_frames : list rpcFrame;
  rc_pool : list nat;
  rc_gets : Z;
  rc_puts : Z;
  rc_next : Z;                (* nextRequest *)
  rc_pending : gmap Z nat;
  rc_chans : list rpcChan;
  rc_out : list rpcFrame;
}.

Record rpcRemoteBinder := mkRemote {
  rb_handle : Z; rb_stability : Z; rb_closed : bool; rb_dead : bool; rb_descriptor : option string;
}.

(** [ms_done] is the done channel, closed or not; [once] and [active] follow it. *)
Record managedSubscription := mkManaged { ms_handle : Z; ms_done : bool; ms_err : option error }.

Section Conn.
Context {Hd : Type}.

(** A handler is referred to by a value of [Hd]. *)
Record rpcExport := mkExport {
  ex_handle : Z; ex_handler : Hd; ex_stability : Z; ex_serial : bool;
}.

Record RPCConn := mkConn {
  conn_role : rpcRole;
  conn_required : Z;
  conn_phase : nat;           (* of closeOnce's function: 0 not started .. 3 done *)
  conn_closeErr : option error;
  conn_calls : rpcCalls;
  conn_exports : gmap Z rpcExport;
  conn_imports : gmap Z nat;
  conn_remotes : list rpcRemoteBinder;
  conn_nextExportID : Z;
  conn_watches : gmap Z (gset nat);
  conn_subs : list managedSubscription;
}.

(** Whether the channel [closed] is closed. *)
Definition conn_closed (c : RPCConn) : bool := bool_decide (2 <= conn_phase c)%nat.

Definition set_calls (cs : rpcCalls) (c : RPCConn) : RPCConn :=
  mkConn (conn_role c) (conn_required c) (conn_phase c) (conn_closeErr c) cs (conn_exports c)
    (conn_imports c) (conn_remotes c) (conn_nextExportID c) (conn_watches c) (conn_subs c).
Definition set_objs (ex : gmap Z rpcExport) (im : gmap Z nat) (rs : list rpcRemoteBinder) (next : Z)
    (c : RPCConn) : RPCConn :=
  mkConn (conn_role c) (conn_required c) (conn_phase c) (conn_closeErr c) (conn_calls c) ex
    im rs next (conn_watches c) (conn_subs c).
Definition set_deaths (ws : gmap Z (gset nat)) (ss : list managedSubscription) (c : RPCConn) : RPCConn :=
  mkConn (conn_role c) (conn_required c) (conn_phase c) (conn_closeErr c) (conn_calls c)
    (conn_exports c) (conn_imports c) (conn_remotes c) (conn_nextExportID c) ws ss.
Definition set_phase (ph : nat) (err : option error) (c : RPCConn) : RPCConn :=
  mkConn (conn_role c) (conn_required c) ph err (conn_calls c) (conn_exports c)
    (conn_imports c) (conn_remotes c) (conn_nextExportID c) (conn_watches c) (conn_subs c).

(** A computation on the connection. *)
Definition CM (A : Type) : Type := ST error RPCConn A.
Definition modify (f : RPCConn → RPCConn) : CM unit := λ c, (Ok tt, f c).
Definition calls : CM rpcCalls := λ c, (Ok (conn_calls c), c).
Definition put_calls (cs : rpcCalls) : CM unit := λ c, (Ok tt, set_calls cs c).

(** ** Frames, channels and pending calls *)

(** [framePool.Get] returns some pooled frame or a new one; which, is up to the
    pool: [pick] is its choice. *)
Definition getFrame (pick : option nat) : CM nat :=
  cs ← calls;
  match pick ≫= λ i, (λ cell, (i, cell)) <$> rc_pool cs !! i with
  | Some (i, cell) =>
      put_calls (mkCalls (rc_frames cs) (delete i (rc_pool cs)) (u64 (rc_gets cs + 1))
                   (rc_puts cs) (rc_next cs) (rc_pending cs) (rc_chans cs) (rc_out cs));;
      mret cell
  | None =>
      put_calls (mkCalls (rc_frames cs ++ [zeroFrame]) (rc_pool cs) (u64 (rc_gets cs + 1)) (rc_puts cs)
                   (rc_next cs) (rc_pending cs) (rc_chans cs) (rc_out cs));;
      mret (length (rc_frames cs))
  end.

Definition setFrame (cell : nat) (f : rpcFrame) : CM unit :=
  cs ← calls;
  put_calls (mkCalls (<[cell := f]> (rc_frames cs)) (rc_pool cs) (rc_gets cs) (rc_puts cs) (rc_next cs)
               (rc_pending cs) (rc_chans cs) (rc_out cs)).

(** The frame a pointer points to now. *)
Definition frameAt (cell : nat) : CM rpcFrame :=
  cs ← calls; mret (default zeroFrame (rc_frames cs !! cell)).

Definition putFrame (cell : nat) : CM unit :=
  setFrame cell zeroFrame;;
  cs ← calls;
  put_calls (mkCalls (rc_frames cs) (cell :: rc_pool cs) (rc_gets cs) (u64 (rc_puts cs + 1)) (rc_next cs)
               (rc_pending cs) (rc_chans cs) (rc_out cs)).

(** [ch <- f] on the buffered channel: a second frame would block for ever. *)
Definition chan_send (ch : nat) (f : rpcFrame) : CM unit :=
  cs ← calls;
  match rc_chans cs !! ch with
  | None => mret tt
  | Some x =>
      if ch_closed x then panic "send on closed channel"
      else match ch_buf x with
           | Some _ => panic "blocked send"
           | None =>
               put_calls (mkCalls (rc_frames cs) (rc_pool cs) (rc_gets cs) (rc_puts cs) (rc_next cs)
                            (rc_pending cs) (<[ch := mkChan (ch_for x) (Some f) false]> (rc_chans cs))
                            (rc_out cs))
           end
  end.

Definition chan_close (ch : nat) : CM unit :=
  cs ← calls;
  match rc_chans cs !! ch with
  | None => mret tt
  | Some x =>
      if ch_closed x then panic "close of closed channel"
      else put_calls (mkCalls (rc_frames cs) (rc_pool cs) (rc_gets cs) (rc_puts cs) (rc_next cs)
                        (rc_pending cs) (<[ch := mkChan (ch_for x) (ch_buf x) true]> (rc_chans cs))
                        (rc_out cs))
  end.

(** Looks an id up in [pending] and deletes it. *)
Definition takePending (id : Z) : CM (option nat) :=
  cs ← calls;
  put_calls (mkCalls (rc_frames cs) (rc_pool cs) (rc_gets cs) (rc_puts cs) (rc_next cs)
               (delete id (rc_pending cs)) (rc_chans cs) (rc_out cs));;
  mret (rc_pending cs !! id).

Definition clearPending (id : Z) : CM unit :=
  if id =? 0 then mret tt
  else
    o ← takePending id;
    match o with Some ch => chan_close ch | None => mret tt end.

Definition connectionError : CM error := λ c,
  (Ok (match conn_closeErr c with
       | None => ESentinel ErrClosed
       | Some e => if errors_Is e ErrEOF || errors_Is e ErrNetClosed then ESentinel ErrClosed else e
       end), c).

(** ** Deaths: src/rpc_death.go *)

(** [finish]: only the first call has an effect. *)
Definition finishSub (err : option error) (i : nat) (ss : list managedSubscription)
  : list managedSubscription :=
  alter (λ s, if ms_done s then s else mkManaged (ms_handle s) true err) i ss.

Definition finishSubs (err : option error) (ids : list nat) (ss : list managedSubscription)
  : list managedSubscription := foldr (finishSub err) ss ids.

(** [watchDeath]: the check of [closed], then the insertion. *)
Definition watchDeath_new (handle : Z) : CM nat := λ c,
  if handle =? 0 then (Err (ESentinel ErrUnsupported), c)
  else
    let i := length (conn_subs c) in
    (Ok i, set_deaths (conn_watches c)
             (conn_subs c ++ [mkManaged handle (conn_closed c)
                                (if conn_closed c then Some (ESentinel ErrDeadObject) else None)]) c).

Definition watchDeath_add (handle : Z) (i : nat) : CM unit := λ c,
  (Ok tt, set_deaths (<[handle := {[i]} ∪ default ∅ (conn_watches c !! handle)]> (conn_watches c))
            (conn_subs c) c).

Definition watchDeath (handle : Z) : CM nat := λ c,
  match watchDeath_new handle c with
  | (Ok i, c') => if conn_closed c then (Ok i, c')
                  else let '(_, c2) := watchDeath_add handle i c' in (Ok i, c2)
  | r => r
  end.

(** [Close] of a subscription: its closeFn and the end of the once. *)
Definition closeSub (i : nat) : CM unit := λ c,
  match conn_subs c !! i with
  | None => (Ok tt, c)
  | Some s =>
      if ms_done s then (Ok tt, c)
      else
        let set := default ∅ (conn_watches c !! ms_handle s) ∖ {[i]} in
        (Ok tt, set_deaths (if decide (set = ∅) then delete (ms_handle s) (conn_watches c)
                            else <[ms_handle s := set]> (conn_watches c))
                  (finishSub None i (conn_subs c)) c)
  end.

Definition set_dead (r : rpcRemoteBinder) : rpcRemoteBinder :=
  mkRemote (rb_handle r) (rb_stability r) (rb_closed r) true (rb_descriptor r).

Definition noteRemoteDeath (handle : Z) : CM unit := λ c,
  if handle =? 0 then (Ok tt, c)
  else
    let rs := match conn_imports c !! handle with
              | Some i => alter set_dead i (conn_remotes c)
              | None => conn_remotes c
              end in
    let c1 := set_objs (conn_exports c) (delete handle (conn_imports c)) rs (conn_nextExportID c) c in
    (Ok tt, set_deaths (delete handle (conn_watches c))
              (finishSubs (Some (ESentinel ErrDeadObject))
                 (elements (default ∅ (conn_watches c !! handle))) (conn_subs c)) c1).

(** Every watcher of a table of watches. *)
Definition all_watchers (ws : gmap Z (gset nat)) : list nat :=
  (map_to_list ws).*2 ≫= elements.

Definition noteAllRemoteDeaths : CM unit := λ c,
  let rs := foldr (λ i rs, alter set_dead i rs) (conn_remotes c) (map_to_list (conn_imports c)).*2 in
  let c1 := set_objs (conn_exports c) ∅ rs (conn_nextExportID c) c in
  (Ok tt, set_deaths ∅ (finishSubs (Some (ESentinel ErrDeadObject)) (all_watchers (conn_watches c))
                          (conn_subs c)) c1).

(** ** Shutdown: the three parts of closeOnce's function

    The service manager's own cleanup, between the first and the second, does not
    touch this state. *)
Definition shutdown_deaths : CM unit := λ c,
  if decide (conn_phase c = O)
  then ((noteAllRemoteDeaths;; modify (λ c', set_phase 1 (conn_closeErr c') c')) : CM unit) c
  else (Ok tt, c).

Definition shutdown_close (err : error) : CM unit := λ c,
  if decide (conn_phase c = 1%nat) then (Ok tt, set_phase 2 (Some err) c) else (Ok tt, c).

Fixpoint close_all (chs : list nat) : CM unit :=
  match chs with
  | [] => mret tt
  | ch :: chs' => chan_close ch;; close_all chs'
  end.

Definition shutdown_pending : CM unit := λ c,
  if decide (conn_phase c = 2%nat) then
    (cs ← calls;
     put_calls (mkCalls (rc_frames cs) (rc_pool cs) (rc_gets cs) (rc_puts cs) (rc_next cs)
                  ∅ (rc_chans cs) (rc_out cs));;
     close_all (map_to_list (rc_pending cs)).*2 : CM unit) (set_phase 3 (conn_closeErr c) c)
  else (Ok tt, c).

(** [closeOnce.Do]: the first call runs the function; a later one returns when
    the first has (in phase 3; before that it waits). *)
Definition shutdown (err : error) : CM unit := λ c,
  if decide (conn_phase c = O) then (shutdown_deaths;; shutdown_close err;; shutdown_pending : CM unit) c
  else (Ok tt, c).

(** [enc] is the error the encoder returns for this frame, if any. *)
Definition writeFrame (enc : option error) (cell : nat) : CM unit := λ c,
  if conn_closed c then (e ← connectionError; fail e : CM unit) c
  else
    match enc with
    | Some e => (shutdown e;; e' ← connectionError; fail e' : CM unit) c
    | None =>
        (f ← frameAt cell; cs ← calls;
         put_calls (mkCalls (rc_frames cs) (rc_pool cs) (rc_gets cs) (rc_puts cs) (rc_next cs)
                      (rc_pending cs) (rc_chans cs) (rc_out cs ++ [f])) : CM unit) c
    end.

(** ** Exported and imported objects *)

Definition lookupExport (handle : Z) (c : RPCConn) : option rpcExport := conn_exports c !! handle.

(** The Binders of an RPC session: rpcLocalBinder by its fields, rpcRemoteBinder
    by its identity. *)
Inductive rpcBinder := RLocal (handle stability : Z) | RRemote (id : nat).

Definition exportWithHandle (handle : Z) (handler : Hd) (stability : Z) (serial : bool) : CM unit := λ c,
  (Ok tt, set_objs (<[handle := mkExport handle handler stability serial]> (conn_exports c))
            (conn_imports c) (conn_remotes c) (conn_nextExportID c) c).

(** [stability] is [HandlerStability handler]. *)
Definition registerLocalHandler (handler : option Hd) (stability : Hd → Z) (serial : bool)
  : CM rpcBinder := λ c,
  match handler with
  | None => (Err (ESentinel ErrUnsupported), c)
  | Some h =>
      let handle := conn_nextExportID c in
      (Ok (RLocal handle (stability h)),
       set_objs (<[handle := mkExport handle h (stability h) serial]> (conn_exports c))
         (conn_imports c) (conn_remotes c) (u32 (handle + 2)) c)
  end.

(** Writes a frame and gives it back to the pool, whatever the outcome. *)
Definition writeFrame_put (enc : option error) (cell : nat) : CM unit := λ c,
  let '(r, c') := writeFrame enc cell c in
  let '(_, c2) := putFrame cell c' in (r, c2).

Definition unregisterLocalHandle (pick : option nat) (enc : option error) (handle : Z) : CM unit := λ c,
  if (handle =? 0) || (handle =? rpcServerServiceManagerHandle) then (Ok tt, c)
  else
    let c1 := set_objs (delete handle (conn_exports c)) (conn_imports c) (conn_remotes c)
                (conn_nextExportID c) c in
    (cell ← getFrame pick;
     setFrame cell (mkFrame rpcFrameObituary 0 handle 0 0 None None None);;
     writeFrame_put enc cell : CM unit) c1.

Definition remoteBinder (handle stability : Z) (c : RPCConn) : nat * RPCConn :=
  match conn_imports c !! handle with
  | Some i =>
      (i, if stability =? StabilityUndeclared then c
          else set_objs (conn_exports c) (conn_imports c)
                 (alter (λ r, mkRemote (rb_handle r) stability (rb_closed r) (rb_dead r) (rb_descriptor r))
                    i (conn_remotes c)) (conn_nextExportID c) c)
  | None =>
      let i := length (conn_remotes c) in
      (i, set_objs (conn_exports c) (<[handle := i]> (conn_imports c))
            (conn_remotes c ++ [mkRemote handle stability false false None]) (conn_nextExportID c) c)
  end.

Definition resolveRPCObject (obj : ParcelObject) (c : RPCConn) : option rpcBinder * RPCConn :=
  match lookupExport (obj_Handle obj) c with
  | Some ex => (Some (RLocal (ex_handle ex) (ex_stability ex)), c)
  | None => let '(i, c') := remoteBinder (obj_Handle obj) (obj_Stability obj) c in (Some (RRemote i), c')
  end.

(** [prepareRPCParcel]'s loop over the objects. *)
Fixpoint check_objects (c : RPCConn) (objs : list ParcelObject) : option error :=
  match objs with
  | [] => None
  | obj :: objs' =>
      match obj_Kind obj with
      | ObjectFileDescriptor =>
          Some (Errorf_w ErrUnsupported "file descriptors are not supported over RPC")
      | ObjectStrongBinder =>
          if obj_Handle obj =? 0
          then Some (Errorf_w ErrUnsupported "kernel-local binder objects are not supported over RPC")
          else
            match lookupExport (obj_Handle obj) c, conn_imports c !! obj_Handle obj with
            | None, None =>
                Some (Errorf_w ErrUnsupported
                  ("binder handle " +:+ pretty (obj_Handle obj) +:+ " does not belong to this RPC session")%string)
            | _, _ => check_objects c objs'
            end
      | _ => check_objects c objs'
      end
  end.

Definition prepareRPCParcel {W B} (parcel : option (Parcel W B)) (c : RPCConn)
  : res (option (list Z) * option (list ParcelObject)) :=
  match parcel with
  | None => Ok (None, None)
  | Some p =>
      match check_objects c (default [] (Objects (Some p))) with
      | Some e => Err e
      | None => Ok (Bytes (Some p), Objects (Some p))
      end
  end.

(** ** The caller's side of a call *)

(** A two-way call that was sent: its frame pointer, its channel and the id it
    was sent with. *)
Record rpcCall := mkCall { call_cell : nat; call_chan : nat; call_id : Z }.

Definition oneway (flags : Z) : bool := negb (Z.land flags FlagOneway =? 0).

(** [transactRemote] up to [writeFrame]. *)
Definition transact_begin (pick : option nat) (handle code flags : Z)
    (payload : option (list Z)) (objects : option (list ParcelObject)) : CM rpcCall :=
  cell ← getFrame pick;
  cs ← calls;
  let id := u64 (rc_next cs + 1) in
  put_calls (mkCalls (rc_frames cs) (rc_pool cs) (rc_gets cs) (rc_puts cs) id (rc_pending cs)
               (rc_chans cs) (rc_out cs));;
  setFrame cell (mkFrame rpcFrameTransact id handle code flags payload objects None);;
  if oneway flags then mret (mkCall cell 0 id)
  else
    cs ← calls;
    let ch := length (rc_chans cs) in
    put_calls (mkCalls (rc_frames cs) (rc_pool cs) (rc_gets cs) (rc_puts cs) (rc_next cs)
                 (<[id := ch]> (rc_pending cs)) (rc_chans cs ++ [mkChan id None false]) (rc_out cs));;
    mret (mkCall cell ch id).

(** [writeFrame] and what follows it up to the select. *)
Definition transact_write (enc : option error) (call : rpcCall) : CM unit := λ c,
  match writeFrame enc (call_cell call) c with
  | (Ok _, c') => putFrame (call_cell call) c'
  | (Err e, c') =>
      (f ← frameAt (call_cell call); clearPending (frame_ID f);; putFrame (call_cell call);; fail e : CM unit) c'
  | r => r
  end.

(** The three cases of the select.  The first is ready when the channel holds a
    frame or is closed. *)
Definition chan_ready (c : RPCConn) (ch : nat) : bool :=
  match rc_chans (conn_calls c) !! ch with
  | Some x => ch_closed x || bool_decide (is_Some (ch_buf x))
  | None => false
  end.

Definition wait_reply (call : rpcCall) : CM rpcFrame :=
  cs ← calls;
  match rc_chans cs !! call_chan call with
  | Some (mkChan id (Some f) cl) =>
      put_calls (mkCalls (rc_frames cs) (rc_pool cs) (rc_gets cs) (rc_puts cs) (rc_next cs) (rc_pending cs)
                   (<[call_chan call := mkChan id None cl]> (rc_chans cs)) (rc_out cs));;
      match replay (frame_Err f) with
      | Some e => fail e
      | None => mret f
      end
  | _ => e ← connectionError; fail e
  end.

Definition wait_cancelled (ctxErr : error) (call : rpcCall) : CM rpcFrame :=
  f ← frameAt (call_cell call); clearPending (frame_ID f);; fail ctxErr.

Definition wait_closed (call : rpcCall) : CM rpcFrame :=
  f ← frameAt (call_cell call); clearPending (frame_ID f);; e ← connectionError; fail e.

(** The [%q] verb on a printable string. *)
Definition quote (s : string) : string :=
  let q := String (Ascii.ascii_of_nat 34) EmptyString in (q +:+ s +:+ q)%string.

(** ** The read loop's treatment of one frame; a transact frame is handed to a new
    goroutine, which runs [handleTransactFrame]. *)
Definition read_reply_frame (f : rpcFrame) : CM unit :=
  o ← takePending (frame_ID f);
  match o with
  | Some ch => chan_send ch f;; chan_close ch
  | None => mret tt
  end.

Definition readLoop (decoded : res rpcFrame) : CM (option rpcFrame) :=
  match decoded with
  | Ok f =>
      match frame_Kind f with
      | rpcFrameReply => read_reply_frame f;; mret None
      | rpcFrameTransact => mret (Some f)
      | rpcFrameObituary => noteRemoteDeath (frame_Handle f);; mret None
      | rpcFrameUnknown k =>
          shutdown (Errorf_w ErrBadParcelable ("unknown rpc frame kind " +:+ quote k)%string);; mret None
      end
  | Err e => shutdown e;; mret None
  | Panic y => panic y
  end.

(** ** Remote Binders: src/rpc_binder.go *)

Definition checkOpen (id : nat) (c : RPCConn) : option error :=
  match conn_remotes c !! id with
  | None => Some (ESentinel ErrUnsupported)
  | Some b =>
      if rb_closed b then Some (ESentinel ErrClosed)
      else if rb_dead b then Some (ESentinel ErrDeadObject)
      else if conn_closed c then Some (ESentinel ErrClosed)
      else None
  end.

Definition remote_Close (id : nat) : CM unit := λ c,
  (Ok tt, set_objs (conn_exports c) (conn_imports c)
            (alter (λ r, mkRemote (rb_handle r) (rb_stability r) true (rb_dead r) (rb_descriptor r)) id
               (conn_remotes c)) (conn_nextExportID c) c).

Definition rpc_StabilityLevel (b : rpcBinder) (c : RPCConn) : Z :=
  match b with
  | RLocal _ s => s
  | RRemote id => match conn_remotes c !! id with Some r => rb_stability r | None => StabilityUndeclared end
  end.

(** [newRPCConn]; [sm] is the server's own service manager handler. *)
Definition newRPCConn (role : rpcRole) (required : Z) (sm : Hd) : RPCConn :=
  let c := mkConn role (if required =? StabilityUndeclared then DefaultLocalStability else required)
             0 None (mkCalls [] [] 0 0 0 ∅ [] []) ∅ ∅ [] 0 ∅ [] in
  match role with
  | rpcRoleServer =>
      (exportWithHandle rpcServerServiceManagerHandle sm DefaultLocalStability false
         (set_objs (conn_exports c) (conn_imports c) (conn_remotes c) rpcServerExportStart c)).2
  | rpcRoleClient =>
      set_objs (conn_exports c) (conn_imports c)
        [mkRemote rpcServerServiceManagerHandle DefaultLocalStability false false None]
        rpcClientExportStart c
  end.
End Conn.
Arguments rpcExport : clear implicits.
Arguments RPCConn : clear implicits.
