(* ===== verification/RpcServe.v ===== *)
(** * RpcServe: serving the peer's calls, and a whole call

    The rest of src/rpc_conn.go and src/rpc_binder.go: what needs the exported
    handlers.  A handler runs in a world that holds the connection, so it may
    register objects and resolve the Binders it receives. *)

From stdpp Require Import base list numbers strings pretty gmap.
From S2P Require Import Prelude Errors Unicode Parcel ParcelFacts Codec Fields Stability Dispatch RpcConn.

Open Scope Z_scope.

Section Serve.
Context {Hd U : Type}.

Definition rpcWorld : Type := RPCConn Hd * U.
Abbreviation P := (Parcel rpcWorld rpcBinder).

(** A computation on the connection, in the world. *)
Definition on_conn {A} (m : CM (Hd := Hd) A) : rpcWorld → res A * rpcWorld := λ w,
  let '(r, c) := m w.1 in (r, (c, w.2)).

Definition rpc_resolver (obj : ParcelObject) (w : rpcWorld) : option rpcBinder * rpcWorld :=
  let '(b, c) := resolveRPCObject obj w.1 in (b, (c, w.2)).

(** A Parcel made of a frame's payload and objects. *)
Definition wireParcel (f : rpcFrame) : option P :=
  SetBinderObjectResolvers (Some rpc_resolver) None
    (NewParcelWire (default [] (frame_Payload f)) (default [] (frame_Objects f))).

Definition WriteBinderToParcelWithStability (b : rpcBinder) (level : Z) : PM rpcWorld rpcBinder unit :=
  match b with
  | RLocal handle _ => WriteStrongBinderHandleWithStability handle level
  | RRemote id =>
      s ← get;
      match checkOpen id (world s).1, conn_remotes (world s).1 !! id with
      | None, Some r => WriteStrongBinderHandleWithStability (rb_handle r) level
      | Some e, _ => throw e
      | None, None => panic "nil pointer dereference"
      end
  end.

Definition WriteBinderToParcel (b : rpcBinder) : PM rpcWorld rpcBinder unit :=
  s ← get; WriteBinderToParcelWithStability b (rpc_StabilityLevel b (world s).1).

Global Instance rpc_marshal : BinderMarshal rpcWorld rpcBinder := {
  as_StabilityMarshaler := λ b, Some (WriteBinderToParcelWithStability b);
  as_Marshaler := λ b, Some (WriteBinderToParcel b);
  as_StabilityProvider := λ b, Some (λ w, rpc_StabilityLevel b w.1);
  type_name := λ b, match b with RLocal _ _ => "*libbinder.rpcLocalBinder"
                               | RRemote _ => "*libbinder.rpcRemoteBinder" end%string;
}.

Context (pid : Z) (handlers : Hd → Handler rpcWorld rpcBinder).

Definition dispatchExport (ctx : option context) (handle code : Z) (data : option P) (flags : Z)
    (local : bool) : rpcWorld → res (option P) * rpcWorld := λ w,
  match lookupExport handle w.1 with
  | None => (Err (ESentinel ErrNoService), w)
  | Some ex =>
      let p := SetBinderObjectResolvers (Some rpc_resolver) None (Some (default NewParcel data)) in
      DispatchLocalHandler pid (Some (default Background ctx)) (Some (handlers (ex_handler ex))) code p flags
        (mkTx code flags 0 0 local) w
  end.

(** [rpcLocalBinder.Transact]. *)
Definition local_Transact (b : rpcBinder) (handle : Z) (ctx : option context) (code : Z) (data : option P)
    (flags : Z) : rpcWorld → res (option P) * rpcWorld := λ w,
  match EnforceTransactStability ctx b code flags (conn_required w.1) w with
  | Some e => (Err e, w)
  | None => dispatchExport ctx handle code data (PrepareTransactFlags flags) true w
  end.

(** The frame [handleTransactFrame] answers with. *)
Definition replyFrame (id : Z) (c : RPCConn Hd) (r : option P + error) : rpcFrame :=
  match r with
  | inr e => mkFrame rpcFrameReply id 0 0 0 None None (captureRPCFrameError (Some e))
  | inl reply =>
      match prepareRPCParcel reply c with
      | Ok (payload, objs) => mkFrame rpcFrameReply id 0 0 0 payload objs None
      | Err e => mkFrame rpcFrameReply id 0 0 0 None None (captureRPCFrameError (Some e))
      | Panic _ => zeroFrame
      end
  end.

Definition send_reply (pick : option nat) (enc : option error) (f : rpcFrame) : CM (Hd := Hd) unit :=
  cell ← getFrame pick; setFrame cell f;; writeFrame_put enc cell.

Definition handleTransactFrame (pick : option nat) (enc : option error) (f : rpcFrame)
  : rpcWorld → res unit * rpcWorld := λ w,
  match dispatchExport (Some Background) (frame_Handle f) (frame_Code f) (wireParcel f) (frame_Flags f)
          false w with
  | (Panic y, w') => (Panic y, w')
  | (r, w') =>
      if oneway (frame_Flags f) then (Ok tt, w')
      else
        let g := replyFrame (frame_ID f) w'.1
                   (match r with Ok reply => inl reply | Err e => inr e | Panic _ => inl None end) in
        let '(_, w2) := on_conn (send_reply pick enc g) w' in (Ok tt, w2)
  end.

(** [rpcRemoteBinder.Transact] up to the frame on the wire: the call in progress,
    or nil for a oneway call that is done. *)
Definition remote_send (pick : option nat) (enc : option error) (id : nat) (ctx : option context)
    (code : Z) (data : option P) (flags : Z) : rpcWorld → res (option rpcCall) * rpcWorld := λ w,
  match checkOpen id w.1, conn_remotes w.1 !! id with
  | Some e, _ => (Err e, w)
  | None, None => (Panic "nil pointer dereference", w)
  | None, Some r =>
      match EnforceTransactStability ctx (RRemote id) code flags (conn_required w.1) w with
      | Some e => (Err e, w)
      | None =>
          let flags' := PrepareTransactFlags flags in
          if conn_closed w.1 then (Err (ESentinel ErrClosed), w)
          else
            match prepareRPCParcel data w.1 with
            | Err e => (Err e, w)
            | Panic y => (Panic y, w)
            | Ok (payload, objs) =>
                on_conn (call ← transact_begin pick (rb_handle r) code flags' payload objs;
                         transact_write enc call;;
                         mret (if oneway flags' then None else Some call)) w
            end
      end
  end.

(** The reply's Parcel, at the end of [transactRemote]. *)
Definition remote_receive (call : rpcCall) : rpcWorld → res (option P) * rpcWorld := λ w,
  match on_conn (wait_reply call) w with
  | (Ok f, w') => (Ok (wireParcel f), w')
  | (Err e, w') => (Err e, w')
  | (Panic y, w') => (Panic y, w')
  end.

(** [rpcRemoteBinder.Descriptor]: [transact] is the Binder's Transact method. *)
Definition remote_Descriptor (id : nat)
    (transact : Z → option P → Z → rpcWorld → res (option P) * rpcWorld)
  : rpcWorld → res string * rpcWorld := λ w,
  match checkOpen id w.1, conn_remotes w.1 !! id with
  | Some e, _ => (Err e, w)
  | None, None => (Panic "nil pointer dereference", w)
  | None, Some r =>
      match rb_descriptor r with
      | Some d => (Ok d, w)
      | None =>
          match transact InterfaceTransaction (Some NewParcel) FlagNone w with
          | (Err e, w') => (Err e, w')
          | (Panic y, w') => (Panic y, w')
          | (Ok None, w') => (Err (Errorf_w ErrBadParcelable "interface descriptor reply was nil"), w')
          | (Ok (Some p), w') =>
              match ReadString (mkst (Some p) w') with
              | (Ok desc, s) =>
                  let c := (world s).1 in
                  let cached := conn_remotes c !! id ≫= rb_descriptor in
                  let desc' := default desc cached in
                  (Ok desc', (set_objs (conn_exports c) (conn_imports c)
                     (alter (λ r, mkRemote (rb_handle r) (rb_stability r) (rb_closed r) (rb_dead r)
                                    (Some desc')) id (conn_remotes c)) (conn_nextExportID c) c, (world s).2))
              | (Err e, s) => (Err e, world s)
              | (Panic y, s) => (Panic y, world s)
              end
          end
      end
  end.
End Serve.
Arguments rpcWorld : clear implicits.
