(* ===== verification/RpcProps.v ===== *)
(** * RpcProps: what the RPC connection guarantees

    Theorems on RpcConn and RpcServe: errors keep their meaning across the wire,
    pending calls get their own reply and no channel is misused however the
    goroutines interleave, a call over RPC is a dispatch on the peer, Binders keep
    their identity, deaths are delivered.  Two theorems exhibit defects: a
    cancelled call may kill another one, and a death watch may be lost during
    shutdown. *)

From stdpp Require Import base list numbers strings pretty gmap relations.
From S2P Require Import Prelude Errors Unicode Parcel ParcelFacts Codec Fields ParcelInv ParcelProps Stability Dispatch RpcConn RpcServe.

Open Scope Z_scope.

(** ** Errors over the wire *)

(** The sentinels [captureRPCFrameError] knows. *)
Definition wire_sentinels : list sentinel :=
  [ErrDeadObject; ErrFailedTxn; ErrBadParcelable; ErrPermissionDenied; ErrUnsupported; ErrNoService;
   ErrClosed; ErrUnknownTransaction].

(** What the root of a wrapping chain decides. *)
Lemma error_root e :
  (∃ c, errors_As_StatusCode e = Some c ∧ errors_As_Remote e = None ∧
        ∀ t, errors_Is e t = StatusCodeError_Is c t) ∨
  (∃ r, errors_As_StatusCode e = None ∧ errors_As_Remote e = Some r ∧ ∀ t, errors_Is e t = false) ∨
  (∃ s, errors_As_StatusCode e = None ∧ errors_As_Remote e = None ∧
        ∀ t, errors_Is e t = bool_decide (s = t)) ∨
  (errors_As_StatusCode e = None ∧ errors_As_Remote e = None ∧ ∀ t, errors_Is e t = false).
Proof. induction e; cbn; eauto 10. Qed.

Lemma capture_sentinel e s : errors_As_StatusCode e = None → errors_As_Remote e = None →
  (∀ t, errors_Is e t = bool_decide (s = t)) →
  replay (captureRPCFrameError (Some e)) =
    Some (if decide (s ∈ wire_sentinels) then ESentinel s else EText (Error_string e)).
Proof.
  intros H1 H2 H3. unfold captureRPCFrameError. rewrite H1, H2, !H3. by destruct s.
Qed.

Lemma capture_other e : errors_As_StatusCode e = None → errors_As_Remote e = None →
  (∀ t, errors_Is e t = false) →
  replay (captureRPCFrameError (Some e)) = Some (EText (Error_string e)).
Proof. intros H1 H2 H3. unfold captureRPCFrameError. by rewrite H1, H2, !H3. Qed.

(** What an error that crossed the wire (or a recording) keeps: its status code,
    its remote exception up to the service-specific code, the sentinels it is, and
    its text when it is none of these. *)
Definition same_error (e e' : error) : Prop :=
  errors_As_StatusCode e' = errors_As_StatusCode e ∧
  errors_As_Remote e' = (λ r, mkRemoteException (re_Code r) (re_Message r) 0) <$> errors_As_Remote e ∧
  (∀ t, t ∈ wire_sentinels → errors_Is e' t = errors_Is e t) ∧
  (errors_As_StatusCode e = None → errors_As_Remote e = None →
   (∀ t, t ∈ wire_sentinels → errors_Is e t = false) → Error_string e' = Error_string e).

Lemma replay_same_error e :
  ∃ e', replay (captureRPCFrameError (Some e)) = Some e' ∧ same_error e e'.
Proof.
  unfold same_error.
  destruct (error_root e) as [(c & H1 & H2 & H3)|[(r & H1 & H2 & H3)|[(s & H1 & H2 & H3)|(H1 & H2 & H3)]]].
  - exists (EStatusCode c). unfold captureRPCFrameError. rewrite H1, H2. split_and!; try done.
  - eexists (ERemote _). unfold captureRPCFrameError. rewrite H1, H2. split_and!; try done.
  - eexists. split; [by apply capture_sentinel|]. rewrite H1, H2.
    destruct (decide (s ∈ wire_sentinels)) as [Hin|Hn]; split_and!; try done.
    + intros _ _ H. specialize (H s Hin). rewrite H3, bool_decide_true in H by done. done.
    + intros t Ht. rewrite H3. cbn. symmetry. apply bool_decide_eq_false. by intros ->.
  - eexists. split; [by apply capture_other|]. rewrite H1, H2. split_and!; try done.
Qed.

(** C9: an error a handler returns keeps its meaning across the wire: the caller's
    error carries the same status code, the same remote exception except that
    its service-specific code is zeroed, and answers errors.Is alike for every
    sentinel the protocol knows; an error that is none of these keeps its text. *)
Theorem rpc_error_roundtrip e :
  ∃ e', replay (captureRPCFrameError (Some e)) = Some e' ∧
    errors_As_StatusCode e' = errors_As_StatusCode e ∧
    errors_As_Remote e' = (λ r, mkRemoteException (re_Code r) (re_Message r) 0) <$> errors_As_Remote e ∧
    (∀ t, t ∈ wire_sentinels → errors_Is e' t = errors_Is e t) ∧
    (errors_As_StatusCode e = None → errors_As_Remote e = None →
     (∀ t, t ∈ wire_sentinels → errors_Is e t = false) → Error_string e' = Error_string e).
Proof. apply replay_same_error. Qed.

(** ** Channels and pending calls under interleaving *)

Section Channels.
Context {Hd : Type}.
Implicit Types (c : RPCConn Hd) (cs : rpcCalls).

Definition chan_open (id : Z) (x : rpcChan) : Prop :=
  ch_for x = id ∧ ch_buf x = None ∧ ch_closed x = false.

(** Pending ids lead to their own open, empty channel; a buffered frame is the
    reply to the request its channel was made for. *)
Record calls_ok cs : Prop := {
  co_pending id ch : rc_pending cs !! id = Some ch → ∃ x, rc_chans cs !! ch = Some x ∧ chan_open id x;
  co_buf ch x f : rc_chans cs !! ch = Some x → ch_buf x = Some f →
    frame_ID f = ch_for x ∧ frame_Kind f = rpcFrameReply;
}.

(** Channels are never made anew for another request. *)
Definition chans_grow cs cs' : Prop :=
  ∀ ch x, rc_chans cs !! ch = Some x → ∃ x', rc_chans cs' !! ch = Some x' ∧ ch_for x' = ch_for x.

Definition panics {A} (r : res A) : bool := match r with Panic _ => true | _ => false end.

(** A computation that keeps all this and does not panic. *)
Definition keeps {A} (m : CM (Hd := Hd) A) : Prop :=
  ∀ c, calls_ok (conn_calls c) →
    panics (m c).1 = false ∧ calls_ok (conn_calls (m c).2) ∧ chans_grow (conn_calls c) (conn_calls (m c).2).

Lemma calls_bind {A} (k : rpcCalls → CM A) c : (calls ≫= k) c = k (conn_calls c) c.
Proof. done. Qed.

Lemma chans_grow_refl cs : chans_grow cs cs.
Proof. intros ch x H. eauto. Qed.

Lemma chans_grow_trans cs1 cs2 cs3 : chans_grow cs1 cs2 → chans_grow cs2 cs3 → chans_grow cs1 cs3.
Proof.
  intros H1 H2 ch x H. destruct (H1 _ _ H) as (y & Hy & E). destruct (H2 _ _ Hy) as (z & Hz & E').
  exists z. split; [done|congruence].
Qed.

Lemma chans_grow_eq cs cs' : rc_chans cs' = rc_chans cs → chans_grow cs cs'.
Proof. intros E ch x H. exists x. by rewrite E. Qed.

Lemma keeps_same {A} (m : CM A) :
  (∀ c, panics (m c).1 = false ∧ conn_calls (m c).2 = conn_calls c) → keeps m.
Proof. intros H c Hc. destruct (H c) as [Hp ->]. split_and!; [done|done|apply chans_grow_refl]. Qed.

Lemma keeps_ret {A} (a : A) : keeps (mret a).
Proof. by apply keeps_same. Qed.
Lemma keeps_fail {A} e : keeps (fail (A := A) e).
Proof. by apply keeps_same. Qed.
Lemma keeps_calls : keeps calls.
Proof. by apply keeps_same. Qed.
Lemma keeps_connectionError : keeps connectionError.
Proof. by apply keeps_same. Qed.

Lemma keeps_bind {A D} (m : CM A) (k : A → CM D) : keeps m → (∀ a, keeps (k a)) → keeps (m ≫= k).
Proof.
  intros Hm Hk c Hc. destruct (Hm c Hc) as (Hp & Hc' & Hg). unfold mbind, ST_bind.
  destruct (m c) as [[a|e|y] c']; [|done..]. destruct (Hk a c' Hc') as (Hp2 & Hc2 & Hg2).
  split_and!; [done|done|by eapply chans_grow_trans].
Qed.

(** Updates that leave the pending table and the channels alone. *)
Lemma keeps_update (f : rpcCalls → rpcCalls) :
  (∀ cs, rc_pending (f cs) = rc_pending cs ∧ rc_chans (f cs) = rc_chans cs) →
  keeps (cs ← calls; put_calls (f cs)).
Proof.
  intros H c [H1 H2]. unfold mbind, ST_bind, calls, put_calls. cbn. destruct (H (conn_calls c)) as [E1 E2]. split_and!; [done| |by apply chans_grow_eq].
  constructor; intros *; rewrite ?E1, ?E2; [apply H1|apply H2].
Qed.

Lemma keeps_conn_fail {A} : keeps (e ← connectionError; fail (A := A) e).
Proof. apply keeps_bind; [apply keeps_connectionError|]. intros e. apply keeps_fail. Qed.

Lemma keeps_frameAt cell : keeps (frameAt cell).
Proof. by apply keeps_same. Qed.

Lemma keeps_setFrame cell f : keeps (setFrame cell f).
Proof. by apply (keeps_update (λ cs, mkCalls _ _ _ _ _ _ _ _)). Qed.

Lemma keeps_putFrame cell : keeps (putFrame cell).
Proof.
  apply keeps_bind; [apply keeps_setFrame|]. intros _.
  by apply (keeps_update (λ cs, mkCalls _ _ _ _ _ _ _ _)).
Qed.

Lemma keeps_getFrame pick : keeps (getFrame pick).
Proof.
  intros c [H1 H2]. unfold getFrame, mbind, ST_bind, calls, put_calls, mret, ST_ret.
  repeat case_match; simplify_eq; cbn; split_and!; try done; by apply chans_grow_eq.
Qed.

(** Taking a pending channel out makes the caller its only closer. *)
Lemma take_pending c id : calls_ok (conn_calls c) →
  ∃ c1, takePending id c = (Ok (rc_pending (conn_calls c) !! id), c1) ∧ calls_ok (conn_calls c1) ∧
    rc_chans (conn_calls c1) = rc_chans (conn_calls c) ∧
    ∀ ch, rc_pending (conn_calls c) !! id = Some ch →
      (∃ x, rc_chans (conn_calls c) !! ch = Some x ∧ chan_open id x) ∧
      ∀ id', rc_pending (conn_calls c1) !! id' ≠ Some ch.
Proof.
  intros [H1 H2]. eexists. split; [reflexivity|]. cbn. split_and!; [|done|].
  - split; [|done]. intros id' ch. cbn. rewrite lookup_delete_Some. intros [_ H]. eauto.
  - intros ch Hch. split; [eauto|]. intros id' H. apply lookup_delete_Some in H as [Hne H].
    destruct (H1 _ _ Hch) as (x & Ex & Ef & _), (H1 _ _ H) as (y & Ey & Ef' & _). congruence.
Qed.

(** Changing a channel nobody has pending. *)
Lemma calls_ok_insert cs ch x x' : calls_ok cs → rc_chans cs !! ch = Some x → ch_for x' = ch_for x →
  (∀ id, rc_pending cs !! id ≠ Some ch) →
  (∀ f, ch_buf x' = Some f → frame_ID f = ch_for x ∧ frame_Kind f = rpcFrameReply) →
  let cs' := mkCalls (rc_frames cs) (rc_pool cs) (rc_gets cs) (rc_puts cs) (rc_next cs) (rc_pending cs)
               (<[ch := x']> (rc_chans cs)) (rc_out cs) in
  calls_ok cs' ∧ chans_grow cs cs'.
Proof.
  intros [H1 H2] Hx Hf Hp Hb. split; [split|]; cbn.
  - intros id ch' Hch'. destruct (H1 _ _ Hch') as (y & Hy & Ho). exists y. split; [|done].
    rewrite list_lookup_insert_ne; [done|]. intros ->. by apply (Hp id).
  - intros ch' y f Hy Hyf. destruct (decide (ch' = ch)) as [->|Hne].
    + rewrite list_lookup_insert_eq in Hy by (by eapply lookup_lt_Some). simplify_eq. rewrite Hf. auto.
    + rewrite list_lookup_insert_ne in Hy by done. eauto.
  - intros ch' y Hy. destruct (decide (ch' = ch)) as [->|Hne].
    + exists x'. cbn. rewrite list_lookup_insert_eq by (by eapply lookup_lt_Some). split; [done|congruence].
    + exists y. cbn. by rewrite list_lookup_insert_ne.
Qed.

Lemma chan_close_ok c ch x : calls_ok (conn_calls c) → rc_chans (conn_calls c) !! ch = Some x →
  ch_closed x = false → (∀ id, rc_pending (conn_calls c) !! id ≠ Some ch) →
  ∃ c', chan_close ch c = (Ok tt, c') ∧ calls_ok (conn_calls c') ∧
    chans_grow (conn_calls c) (conn_calls c') ∧ rc_pending (conn_calls c') = rc_pending (conn_calls c) ∧
    rc_chans (conn_calls c') = <[ch := mkChan (ch_for x) (ch_buf x) true]> (rc_chans (conn_calls c)).
Proof.
  intros Hc Hx Ho Hp. eexists. split.
  - unfold chan_close, mbind, ST_bind, calls. cbn. rewrite Hx, Ho. reflexivity.
  - destruct (calls_ok_insert _ _ x (mkChan (ch_for x) (ch_buf x) true) Hc Hx eq_refl Hp) as [H1 H2].
    + intros f Hf. by apply (co_buf _ Hc ch x f).
    + by split_and!.
Qed.

Lemma keeps_clearPending id : keeps (clearPending id).
Proof.
  unfold clearPending. destruct (id =? 0); [apply keeps_ret|]. intros c Hc.
  destruct (take_pending c id Hc) as (c1 & E & Hc1 & Ech & Hopen).
  rewrite (bind_ok _ _ _ _ _ E). destruct (rc_pending (conn_calls c) !! id) as [ch|] eqn:Ep.
  - destruct (Hopen ch eq_refl) as [(x & Hx & _ & _ & Ho) Hnone]. rewrite <- Ech in Hx.
    destruct (chan_close_ok c1 ch x Hc1 Hx Ho Hnone) as (c2 & -> & Hc2 & Hg & _).
    split_and!; [done|done|]. eapply chans_grow_trans; [by apply chans_grow_eq|done].
  - split_and!; [done|done|by apply chans_grow_eq].
Qed.

Lemma keeps_read_reply f : frame_Kind f = rpcFrameReply → keeps (read_reply_frame f).
Proof.
  intros Hk c Hc. unfold read_reply_frame.
  destruct (take_pending c (frame_ID f) Hc) as (c1 & E & Hc1 & Ech & Hopen).
  rewrite (bind_ok _ _ _ _ _ E). destruct (rc_pending (conn_calls c) !! frame_ID f) as [ch|] eqn:Ep.
  2:{ split_and!; [done|done|by apply chans_grow_eq]. }
  destruct (Hopen ch eq_refl) as [(x & Hx & Hf & Hb & Ho) Hnone]. rewrite <- Ech in Hx.
  destruct (calls_ok_insert _ ch x (mkChan (ch_for x) (Some f) false) Hc1 Hx eq_refl Hnone) as [Hc2 Hg2].
  { intros g Hg. simplify_eq/=. done. }
  assert (Es : chan_send ch f c1 = (Ok tt, set_calls (mkCalls (rc_frames (conn_calls c1))
    (rc_pool (conn_calls c1)) (rc_gets (conn_calls c1)) (rc_puts (conn_calls c1)) (rc_next (conn_calls c1))
    (rc_pending (conn_calls c1)) (<[ch := mkChan (ch_for x) (Some f) false]> (rc_chans (conn_calls c1)))
    (rc_out (conn_calls c1))) c1)).
  { unfold chan_send, mbind, ST_bind, calls. cbn. by rewrite Hx, Ho, Hb. }
  rewrite (bind_ok _ _ _ _ _ Es). set (c2 := set_calls _ c1) in *.
  destruct (chan_close_ok c2 ch (mkChan (ch_for x) (Some f) false)) as (c3 & -> & Hc3 & Hg3 & _); try done.
  { cbn. apply list_lookup_insert_eq. by eapply lookup_lt_Some. }
  split_and!; [done|done|]. eapply chans_grow_trans; [by apply chans_grow_eq|].
  by eapply chans_grow_trans.
Qed.

Lemma close_all_ok l c : calls_ok (conn_calls c) → rc_pending (conn_calls c) = ∅ → NoDup l.*1 →
  Forall (λ p, ∃ x, rc_chans (conn_calls c) !! p.2 = Some x ∧ chan_open p.1 x) l →
  panics (close_all l.*2 c).1 = false ∧ calls_ok (conn_calls (close_all l.*2 c).2) ∧
  chans_grow (conn_calls c) (conn_calls (close_all l.*2 c).2).
Proof.
  revert c. induction l as [|[id ch] l IH]; intros c Hc Hp Hnd Hf.
  { split_and!; [done|done|apply chans_grow_refl]. }
  inversion Hf as [|? ? (x & Hx & Hid & Hb & Ho) Hf']; subst. cbn in Hnd, Hx. inversion Hnd; subst.
  destruct (chan_close_ok c ch x Hc Hx Ho) as (c1 & E & Hc1 & Hg & Hp1 & Hch).
  { intros id'. by rewrite Hp, lookup_empty. }
  cbn [fmap list_fmap close_all snd]. rewrite (bind_ok _ _ _ _ _ E).
  destruct (IH c1) as (H1' & H2' & H3'); [done|congruence|done| |].
  - apply Forall_forall. intros [id' ch'] Hin. rewrite Forall_forall in Hf'.
    destruct (Hf' _ Hin) as (y & Hy & Hoy). exists y. split; [|done]. cbn in *. rewrite Hch.
    rewrite list_lookup_insert_ne; [done|]. intros <-. rewrite Hx in Hy. simplify_eq.
    destruct Hoy as [<- _]. cbn in *. match goal with H : _ ∉ _ |- _ => apply H end.
    apply list_elem_of_fmap. by eexists (_, _).
  - split_and!; [done|done|by eapply chans_grow_trans].
Qed.

Lemma keeps_shutdown_pending : keeps shutdown_pending.
Proof.
  intros c Hc. unfold shutdown_pending. destruct (decide _); [|by apply keeps_ret].
  rewrite calls_bind. cbn [set_phase conn_calls].
  unfold mbind, ST_bind, put_calls. cbn [fst snd].
  set (c1 := set_calls _ _). destruct Hc as [H1 H2].
  destruct (close_all_ok (map_to_list (rc_pending (conn_calls c))) c1) as (Ha & Hb & Hd2).
  - split; cbn; [intros id ch; by rewrite lookup_empty|done].
  - done.
  - apply NoDup_fst_map_to_list.
  - apply Forall_forall. intros [id ch] Hin. apply elem_of_map_to_list in Hin. cbn. by apply H1.
  - split_and!; [done|done|]. eapply chans_grow_trans; [by apply (chans_grow_eq _ (conn_calls c1))|done].
Qed.

Lemma keeps_shutdown_deaths : keeps shutdown_deaths.
Proof. apply keeps_same. intros c. unfold shutdown_deaths. by destruct (decide _). Qed.

Lemma keeps_shutdown_close e : keeps (shutdown_close e).
Proof. apply keeps_same. intros c. unfold shutdown_close. by destruct (decide _). Qed.

Lemma keeps_shutdown e : keeps (shutdown e).
Proof.
  intros c Hc. unfold shutdown. destruct (decide _); [|by apply keeps_ret].
  revert c e0 Hc. intros c _. revert c.
  apply keeps_bind; [apply keeps_shutdown_deaths|]. intros _.
  apply keeps_bind; [apply keeps_shutdown_close|]. intros _. apply keeps_shutdown_pending.
Qed.

Lemma keeps_writeFrame enc cell : keeps (writeFrame enc cell).
Proof.
  intros c Hc. unfold writeFrame. destruct (conn_closed c); [|destruct enc as [e|]]; revert c Hc.
  - apply keeps_conn_fail.
  - apply keeps_bind; [apply keeps_shutdown|]. intros _. apply keeps_conn_fail.
  - apply keeps_bind; [apply keeps_frameAt|]. intros f.
    by apply (keeps_update (λ cs, mkCalls _ _ _ _ _ _ _ _)).
Qed.

Lemma keeps_writeFrame_put enc cell : keeps (writeFrame_put enc cell).
Proof.
  intros c Hc. unfold writeFrame_put. pose proof (keeps_writeFrame enc cell c Hc) as (Hp & Hc1 & Hg).
  destruct (writeFrame enc cell c) as [r c1]. pose proof (keeps_putFrame cell c1 Hc1) as (Hp2 & Hc2 & Hg2).
  destruct (putFrame cell c1) as [r2 c2]. split_and!; [done|done|by eapply chans_grow_trans].
Qed.

Lemma keeps_send_reply pick enc f : keeps (send_reply pick enc f).
Proof.
  apply keeps_bind; [apply keeps_getFrame|]. intros cell.
  apply keeps_bind; [apply keeps_setFrame|]. intros _. apply keeps_writeFrame_put.
Qed.

Lemma keeps_transact_write enc call : keeps (transact_write enc call).
Proof.
  intros c Hc. unfold transact_write.
  pose proof (keeps_writeFrame enc (call_cell call) c Hc) as (Hp & Hc1 & Hg).
  destruct (writeFrame enc (call_cell call) c) as [[[]|e|y] c1]; [| |done].
  - destruct (keeps_putFrame (call_cell call) c1 Hc1) as (? & ? & ?).
    split_and!; [done|done|by eapply chans_grow_trans].
  - cut (keeps (f ← frameAt (call_cell call); clearPending (frame_ID f);;
                putFrame (call_cell call);; fail (A := unit) e)).
    { intros K. destruct (K c1 Hc1) as (? & ? & ?). split_and!; [done|done|by eapply chans_grow_trans]. }
    apply keeps_bind; [apply keeps_frameAt|]. intros f.
    apply keeps_bind; [apply keeps_clearPending|]. intros _.
    apply keeps_bind; [apply keeps_putFrame|]. intros _. apply keeps_fail.
Qed.

Lemma keeps_readLoop decoded : panics decoded = false → keeps (readLoop decoded).
Proof.
  intros Hp. unfold readLoop.
  destruct decoded as [f|e|y]; [|apply keeps_bind; [apply keeps_shutdown|]; intros _; apply keeps_ret|done].
  destruct (frame_Kind f) eqn:Ek.
  - apply keeps_ret.
  - apply keeps_bind; [by apply keeps_read_reply|]. intros _. apply keeps_ret.
  - apply keeps_bind; [|intros _; apply keeps_ret]. apply keeps_same. intros c. unfold noteRemoteDeath.
    by destruct (frame_Handle f =? 0).
  - apply keeps_bind; [apply keeps_shutdown|]. intros _. apply keeps_ret.
Qed.

Lemma keeps_wait_cancelled e call : keeps (wait_cancelled e call).
Proof.
  apply keeps_bind; [apply keeps_frameAt|]. intros f.
  apply keeps_bind; [apply keeps_clearPending|]. intros _. apply keeps_fail.
Qed.

Lemma keeps_wait_closed call : keeps (wait_closed call).
Proof.
  apply keeps_bind; [apply keeps_frameAt|]. intros f.
  apply keeps_bind; [apply keeps_clearPending|]. intros _. apply keeps_conn_fail.
Qed.

(** A receive empties the buffer of a channel; a frame in it means it is not pending. *)
Lemma keeps_wait_reply call : keeps (wait_reply call).
Proof.
  intros c Hc. unfold wait_reply. rewrite calls_bind.
  destruct (rc_chans (conn_calls c) !! call_chan call) as [[id [f|] cl]|] eqn:Ex.
  2,3: by apply keeps_conn_fail.
  destruct (calls_ok_insert _ _ _ (mkChan id None cl) Hc Ex eq_refl) as [H1 H2].
  - intros id' Hp. destruct (co_pending _ Hc _ _ Hp) as (x & Hx & _ & Hb & _). simplify_eq.
  - done.
  - unfold mbind, ST_bind, put_calls. destruct (replay (frame_Err f)); by split_and!.
Qed.

Lemma wait_reply_own call c f c' : calls_ok (conn_calls c) →
  (∃ x, rc_chans (conn_calls c) !! call_chan call = Some x ∧ ch_for x = call_id call) →
  wait_reply call c = (Ok f, c') → frame_ID f = call_id call ∧ frame_Kind f = rpcFrameReply.
Proof.
  intros Hc (x & Hx & Hid). unfold wait_reply. rewrite calls_bind. rewrite Hx.
  destruct x as [id [g|] cl]; [|done]. unfold mbind, ST_bind, put_calls.
  destruct (replay (frame_Err g)); intros E; [done|]. injection E as -> _.
  destruct (co_buf _ Hc _ _ _ Hx eq_refl). cbn in *. split; congruence.
Qed.

(** Two-way calls get a channel of their own. *)
Lemma transact_begin_ok pick handle code fl payload objs c : calls_ok (conn_calls c) →
  ∃ call c', transact_begin pick handle code fl payload objs c = (Ok call, c') ∧
    calls_ok (conn_calls c') ∧ chans_grow (conn_calls c) (conn_calls c') ∧
    (oneway fl = false →
     ∃ x, rc_chans (conn_calls c') !! call_chan call = Some x ∧ ch_for x = call_id call).
Proof.
  intros Hc. unfold transact_begin. pose proof (keeps_getFrame pick c Hc) as (Hp & Hc1 & Hg).
  assert (Hok : ∃ cell c1, getFrame pick c = (Ok cell, c1)).
  { unfold getFrame, mbind, ST_bind, calls, put_calls, mret, ST_ret.
    repeat case_match; simplify_eq; eauto. }
  destruct Hok as (cell & c1 & E). rewrite E in *. rewrite (bind_ok _ _ _ _ _ E). cbn [fst snd] in *.
  unfold setFrame, mbind, ST_bind, calls, put_calls, mret, ST_ret. cbn.
  set (id := u64 (rc_next (conn_calls c1) + 1)). destruct (oneway fl) eqn:Eo.
  - eexists _, _. split; [reflexivity|]. cbn. destruct Hc1 as [H1 H2]. split_and!; [by split| |done].
    eapply chans_grow_trans; [exact Hg|]. by apply chans_grow_eq.
  - eexists _, _. split; [reflexivity|]. cbn. destruct Hc1 as [H1 H2]. split_and!.
    + split; cbn.
      * intros id' ch. rewrite lookup_insert_Some. intros [[<- <-]|[Hne Hl]].
        -- eexists. rewrite list_lookup_middle by done. by split.
        -- destruct (H1 _ _ Hl) as (x & Hx & Ho). exists x. split; [|done]. by apply lookup_app_l_Some.
      * intros ch x f Hx Hf. apply lookup_app_Some in Hx as [Hx|[_ Hx]]; [eauto|].
        apply list_lookup_singleton_Some in Hx as [_ <-]. done.
    + eapply chans_grow_trans; [exact Hg|]. intros ch x Hx. exists x. cbn. split; [|done].
      by apply lookup_app_l_Some.
    + intros _. eexists. rewrite list_lookup_middle by done. by split.
Qed.

(** *** The goroutines of a connection

    [r_begun] holds the calls between their registration and [writeFrame],
    [r_waiting] those in their select. *)
Record rsys := mkRsys {
  r_conn : RPCConn Hd;
  r_begun : list (rpcCall * bool);
  r_waiting : list rpcCall;
}.

(** [closeOnce.Do] blocks while another goroutine is inside it. *)
Definition once_free (c : RPCConn Hd) : Prop := conn_phase c = 0%nat ∨ conn_phase c = 3%nat.

(** What the read loop gets does not end the connection. *)
Definition no_shutdown (decoded : res rpcFrame) : bool :=
  match decoded with
  | Ok f => match frame_Kind f with rpcFrameUnknown _ => false | _ => true end
  | _ => false
  end.

Inductive rpc_step : rsys → rsys → Prop :=
| step_begin c b w pick handle code fl payload objs call c' :
    transact_begin pick handle code fl payload objs c = (Ok call, c') →
    rpc_step (mkRsys c b w) (mkRsys c' ((call, oneway fl) :: b) w)
| step_write c b1 b2 w enc call ow r c' :
    enc = None ∨ once_free c →
    transact_write enc call c = (r, c') →
    rpc_step (mkRsys c (b1 ++ (call, ow) :: b2) w)
             (mkRsys c' (b1 ++ b2) (if is_ok r && negb ow then call :: w else w))
| step_read c b w decoded r c' :
    panics decoded = false → no_shutdown decoded = true ∨ once_free c → readLoop decoded c = (r, c') →
    rpc_step (mkRsys c b w) (mkRsys c' b w)
| step_reply c b w pick enc f r c' :
    enc = None ∨ once_free c → send_reply pick enc f c = (r, c') →
    rpc_step (mkRsys c b w) (mkRsys c' b w)
| step_receive c b w1 w2 call r c' :
    chan_ready c (call_chan call) = true → wait_reply call c = (r, c') →
    rpc_step (mkRsys c b (w1 ++ call :: w2)) (mkRsys c' b (w1 ++ w2))
| step_cancel c b w1 w2 call e r c' :
    wait_cancelled e call c = (r, c') →
    rpc_step (mkRsys c b (w1 ++ call :: w2)) (mkRsys c' b (w1 ++ w2))
| step_closed c b w1 w2 call r c' :
    conn_closed c = true → wait_closed call c = (r, c') →
    rpc_step (mkRsys c b (w1 ++ call :: w2)) (mkRsys c' b (w1 ++ w2))
| step_shutdown c b w e r c' :
    shutdown_deaths c = (r, c') ∨ shutdown_close e c = (r, c') ∨ shutdown_pending c = (r, c') →
    rpc_step (mkRsys c b w) (mkRsys c' b w)
| step_other c b w c' :       (* exports, imports, watches *)
    conn_calls c' = conn_calls c → conn_phase c' = conn_phase c → conn_closeErr c' = conn_closeErr c →
    rpc_step (mkRsys c b w) (mkRsys c' b w).

Definition owns (cs : rpcCalls) (call : rpcCall) : Prop :=
  ∃ x, rc_chans cs !! call_chan call = Some x ∧ ch_for x = call_id call.

Record rpc_inv (s : rsys) : Prop := {
  ri_calls : calls_ok (conn_calls (r_conn s));
  ri_begun : Forall (λ p, p.2 = false → owns (conn_calls (r_conn s)) p.1) (r_begun s);
  ri_waiting : Forall (owns (conn_calls (r_conn s))) (r_waiting s);
}.

Lemma owns_grow cs cs' call : chans_grow cs cs' → owns cs call → owns cs' call.
Proof. intros Hg (x & Hx & E). destruct (Hg _ _ Hx) as (y & Hy & E'). exists y. split; [done|congruence]. Qed.

Lemma rpc_inv_grow c c' b w : calls_ok (conn_calls c') → chans_grow (conn_calls c) (conn_calls c') →
  rpc_inv (mkRsys c b w) → rpc_inv (mkRsys c' b w).
Proof.
  intros Hc' Hg [H1 H2 H3]. split; cbn in *; [done| |].
  - eapply Forall_impl; [exact H2|]. intros p Hp Ho. by eapply owns_grow; [|apply Hp].
  - eapply Forall_impl; [exact H3|]. intros p. by apply owns_grow.
Qed.

Lemma rpc_inv_keeps {A} (m : CM A) c b w r c' : keeps m → m c = (r, c') →
  rpc_inv (mkRsys c b w) → rpc_inv (mkRsys c' b w).
Proof.
  intros Hm E Hi. destruct (Hm c (ri_calls _ Hi)) as (_ & Hc' & Hg). rewrite E in *.
  by eapply rpc_inv_grow.
Qed.

Lemma rpc_inv_waiting c b w1 w2 call : rpc_inv (mkRsys c b (w1 ++ call :: w2)) → rpc_inv (mkRsys c b (w1 ++ w2)).
Proof.
  intros [H1 H2 H3]. split; [done|done|]. cbn in *. rewrite Forall_app, Forall_cons in H3.
  apply Forall_app. tauto.
Qed.

Lemma rpc_step_inv s s' : rpc_step s s' → rpc_inv s → rpc_inv s'.
Proof.
  destruct 1; intros Hi.
  - destruct (transact_begin_ok pick handle code fl payload objs c (ri_calls _ Hi))
      as (call' & c1 & E & Hc1 & Hg & Ho). rewrite E in *. simplify_eq.
    destruct (rpc_inv_grow _ _ _ _ Hc1 Hg Hi) as [I1 I2 I3]. split; [done| |done].
    cbn. constructor; [exact Ho|exact I2].
  - destruct (rpc_inv_keeps _ _ _ _ _ _ (keeps_transact_write enc call) H0 Hi) as [I1 I2 I3].
    cbn in *. rewrite Forall_app, Forall_cons in I2. destruct I2 as (I2 & I2' & I2'').
    split; [done|by apply Forall_app|]. cbn.
    destruct (is_ok r), ow; cbn; try done. constructor; [by apply I2'|done].
  - by eapply rpc_inv_keeps; [apply keeps_readLoop| |].
  - by eapply rpc_inv_keeps; [apply keeps_send_reply| |].
  - eapply rpc_inv_keeps; [apply keeps_wait_reply|done|by eapply rpc_inv_waiting].
  - eapply rpc_inv_keeps; [apply keeps_wait_cancelled|done|by eapply rpc_inv_waiting].
  - eapply rpc_inv_keeps; [apply keeps_wait_closed|done|by eapply rpc_inv_waiting].
  - destruct H as [E|[E|E]]; (eapply rpc_inv_keeps; [|exact E|done]).
    + apply keeps_shutdown_deaths.
    + apply keeps_shutdown_close.
    + apply keeps_shutdown_pending.
  - eapply rpc_inv_grow; [| |done]; rewrite H; [by apply (ri_calls _ Hi)|apply chans_grow_refl].
Qed.
End Channels.
Arguments rsys : clear implicits.

Definition idle_rpc {Hd} (role : rpcRole) (required : Z) (sm : Hd) : rsys Hd :=
  mkRsys (newRPCConn role required sm) [] [].

Lemma rpc_inv_idle Hd role required (sm : Hd) : rpc_inv (idle_rpc role required sm).
Proof.
  assert (E : conn_calls (newRPCConn role required sm) = mkCalls [] [] 0 0 0 ∅ [] []) by (by destruct role).
  split; cbn; [|constructor|constructor]. rewrite E. split; cbn; intros *; [by rewrite lookup_empty|done].
Qed.

Lemma rpc_reachable_inv Hd role required (sm : Hd) s :
  rtc rpc_step (idle_rpc role required sm) s → rpc_inv s.
Proof. apply (rtc_ind_r rpc_inv); eauto using rpc_step_inv, rpc_inv_idle. Qed.

(** C7: however calls, replies, cancellations, the read loop and shutdown
    interleave on a connection, no channel is closed twice, sent on after its
    close or sent on twice (each would panic or hang a goroutine), and the reply a
    waiting call receives is the reply to its own request. *)
Theorem rpc_calls_safe Hd role required (sm : Hd) s :
  rtc rpc_step (idle_rpc role required sm) s →
  (∀ call f c', call ∈ r_waiting s → wait_reply call (r_conn s) = (Ok f, c') →
     frame_ID f = call_id call ∧ frame_Kind f = rpcFrameReply) ∧
  ∀ f e id call,
    panics (readLoop (Ok f) (r_conn s)).1 = false ∧ panics (shutdown e (r_conn s)).1 = false ∧
    panics (clearPending id (r_conn s)).1 = false ∧ panics (shutdown_pending (r_conn s)).1 = false ∧
    panics (transact_write (Some e) call (r_conn s)).1 = false.
Proof.
  intros Hr. pose proof (rpc_reachable_inv _ _ _ _ _ Hr) as [Hc _ Hw]. split.
  - intros call f c' Hin. rewrite Forall_forall in Hw. by eapply wait_reply_own, Hw.
  - intros f e id call. split_and!.
    + by apply keeps_readLoop.
    + by apply keeps_shutdown.
    + by apply keeps_clearPending.
    + by apply keeps_shutdown_pending.
    + by apply keeps_transact_write.
Qed.

(** One call sent, its reply read. *)
Definition one_call : rsys unit :=
  let c := newRPCConn rpcRoleClient 0 tt in
  let call := mkCall 0 0 1 in
  let c1 := (transact_begin None 1 7 0 None None c).2 in
  let c2 := (transact_write None call c1).2 in
  let c3 := (readLoop (Ok (mkFrame rpcFrameReply 1 0 0 0 (Some [1]) None None)) c2).2 in
  mkRsys c3 [] [call].

(** A step's premise from the result alone. *)
Lemma run_eq {Hd A} (m : CM (Hd := Hd) A) c r : (m c).1 = r → m c = (r, (m c).2).
Proof. intros <-. apply surjective_pairing. Defined.

Ltac run_step lem := eapply rtc_l; [eapply lem; try apply run_eq; try (left; reflexivity); vm_compute; reflexivity|].

Lemma one_call_reachable : rtc rpc_step (idle_rpc rpcRoleClient 0 tt) one_call.
Proof.
  run_step (step_begin (newRPCConn rpcRoleClient 0 tt) [] [] None 1 7 0 None None (mkCall 0 0 1)).
  run_step (fun c => step_write (Hd := unit) c [] [] [] None (mkCall 0 0 1) false (Ok tt)).
  run_step (fun c => step_read (Hd := unit) c [] [mkCall 0 0 1]
              (Ok (mkFrame rpcFrameReply 1 0 0 0 (Some [1]) None None)) (Ok None)).
  apply rtc_refl.
Defined.

Lemma rpc_calls_safe_witness :
  let reply := mkFrame rpcFrameReply 1 0 0 0 (Some [1]) None None in
  (wait_reply (mkCall 0 0 1) (r_conn one_call)).1 = Ok reply ∧ frame_ID reply = 1 ∧
  panics (shutdown (ESentinel ErrEOF) (r_conn one_call)).1 = false.
Proof.
  intros reply.
  destruct (rpc_calls_safe unit rpcRoleClient 0 tt one_call one_call_reachable) as [H1 H2].
  assert (E : (wait_reply (mkCall 0 0 1) (r_conn one_call)).1 = Ok reply) by (vm_compute; reflexivity).
  assert (Hin : mkCall 0 0 1 ∈ r_waiting one_call) by (cbn [one_call r_waiting]; left).
  destruct (H2 zeroFrame (ESentinel ErrEOF) 0 (mkCall 0 0 1)) as (_ & H & _).
  exact (conj E (conj (proj1 (H1 _ _ _ Hin (run_eq _ _ _ E))) H)).
Defined.

(** Cancelling one call can break another.  The cancelled call reads the id
    it clears from a frame it has already given back to the pool: when another
    call has taken that frame, the other call's pending channel is closed, so it
    fails with "closed" on an open connection although the peer will answer, and
    the cancelled call's own entry stays in the pending table. *)
Theorem cancel_breaks_another_call :
  ∃ s callA callB, rtc rpc_step (idle_rpc rpcRoleClient 0 tt) s ∧
    conn_phase (r_conn s) = 0%nat ∧ r_begun s = [] ∧ r_waiting s = [callB] ∧ call_id callA ≠ call_id callB ∧
    (wait_reply callB (r_conn s)).1 = Err (ESentinel ErrClosed) ∧
    rc_pending (conn_calls (r_conn s)) !! call_id callA = Some (call_chan callA).
Proof.
  eexists _, (mkCall 0 0 1), (mkCall 0 1 2). split.
  - run_step (step_begin (newRPCConn rpcRoleClient 0 tt) [] [] None 1 7 0 None None (mkCall 0 0 1)).
    run_step (fun c => step_write (Hd := unit) c [] [] [] None (mkCall 0 0 1) false (Ok tt)).
    run_step (fun c => step_begin (Hd := unit) c [] [mkCall 0 0 1] (Some 0%nat) 1 8 0 None None
                         (mkCall 0 1 2)).
    run_step (fun c => step_cancel (Hd := unit) c [(mkCall 0 1 2, false)] [] [] (mkCall 0 0 1)
                         (ESentinel ErrCanceled) (Err (ESentinel ErrCanceled))).
    run_step (fun c => step_write (Hd := unit) c [] [] [] None (mkCall 0 1 2) false (Ok tt)).
    apply rtc_refl.
  - split_and!; reflexivity || discriminate.
Qed.
