(* ===== verification/RpcObjects.v ===== *)
(** * RpcObjects: exported and imported objects over a connection's life

    Theorems on the object tables and death watches of RpcConn: the two sides
    number their exports apart, so a Binder is recognised by its owner when it
    comes back and never mistaken for a local object by the peer; a death reaches
    every watcher, except one that starts watching while the connection shuts
    down. *)

From stdpp Require Import base list numbers strings pretty gmap relations.
From S2P Require Import Prelude Errors Unicode Parcel Stability Dispatch RpcConn.

Open Scope Z_scope.

Section Objects.
Context {Hd : Type}.
Implicit Types c : RPCConn Hd.

(** What changes the object tables. *)
Inductive objs_step : RPCConn Hd → RPCConn Hd → Prop :=
| os_register c h stability serial b c' :
    registerLocalHandler (Some h) stability serial c = (Ok b, c') → objs_step c c'
| os_unregister c pick enc handle r c' :
    unregisterLocalHandle pick enc handle c = (r, c') → objs_step c c'
| os_resolve c obj b c' : resolveRPCObject obj c = (b, c') → objs_step c c'
| os_obituary c handle r c' : noteRemoteDeath handle c = (r, c') → objs_step c c'
| os_deaths c r c' : noteAllRemoteDeaths c = (r, c') → objs_step c c'
| os_close c id r c' : remote_Close id c = (r, c') → objs_step c c'
| os_other c c' :
    conn_role c' = conn_role c → conn_exports c' = conn_exports c → conn_imports c' = conn_imports c →
    conn_remotes c' = conn_remotes c → conn_nextExportID c' = conn_nextExportID c → objs_step c c'.

Definition own_parity (role : rpcRole) (h : Z) : Prop :=
  Z.odd h = match role with rpcRoleServer => true | rpcRoleClient => false end.

Record objs_ok c : Prop := {
  oo_next : own_parity (conn_role c) (conn_nextExportID c);
  oo_exports h ex : conn_exports c !! h = Some ex → ex_handle ex = h ∧ own_parity (conn_role c) h;
  oo_imports h i : conn_imports c !! h = Some i → ∃ r, conn_remotes c !! i = Some r ∧ rb_handle r = h;
}.

(** Tables with the same exports and imports inside, remotes keeping their handle. *)
Definition remotes_keep (rs rs' : list rpcRemoteBinder) : Prop :=
  ∀ i r, rs !! i = Some r → ∃ r', rs' !! i = Some r' ∧ rb_handle r' = rb_handle r.

Lemma remotes_keep_refl rs : remotes_keep rs rs.
Proof. intros i r H. eauto. Qed.

Lemma remotes_keep_alter f k rs : (∀ r, rb_handle (f r) = rb_handle r) → remotes_keep rs (alter f k rs).
Proof.
  intros Hf i r H. destruct (decide (i = k)) as [->|].
  - exists (f r). rewrite list_lookup_alter_eq, H. auto.
  - exists r. by rewrite list_lookup_alter_ne.
Qed.

Lemma remotes_keep_alters f ks rs : (∀ r, rb_handle (f r) = rb_handle r) →
  remotes_keep rs (foldr (λ i rs, alter f i rs) rs ks).
Proof.
  intros Hf. induction ks as [|k ks IH]; cbn; [apply remotes_keep_refl|].
  intros i r H. destruct (IH i r H) as (r1 & H1 & E1).
  destruct (remotes_keep_alter f k _ Hf i r1 H1) as (r2 & H2 & E2). exists r2. split; [done|congruence].
Qed.

Lemma objs_ok_shrink c c' : objs_ok c → conn_role c' = conn_role c →
  conn_nextExportID c' = conn_nextExportID c → conn_exports c' ⊆ conn_exports c →
  conn_imports c' ⊆ conn_imports c → remotes_keep (conn_remotes c) (conn_remotes c') → objs_ok c'.
Proof.
  intros [H1 H2 H3] E1 E2 Hx Hi Hr. split; rewrite ?E1, ?E2; [done| |].
  - intros h ex H. apply H2. by eapply lookup_weaken.
  - intros h i H. destruct (H3 h i) as (r & Hl & E); [by eapply lookup_weaken|].
    destruct (Hr _ _ Hl) as (r' & Hl' & E'). exists r'. split; [done|congruence].
Qed.

(** The parts of the frame and shutdown code leave the tables or clear imports. *)
Definition tables_shrink c c' : Prop :=
  conn_role c' = conn_role c ∧ conn_nextExportID c' = conn_nextExportID c ∧
  conn_exports c' = conn_exports c ∧ conn_imports c' ⊆ conn_imports c ∧
  remotes_keep (conn_remotes c) (conn_remotes c').

Lemma tables_shrink_refl c : tables_shrink c c.
Proof. split_and!; try done. apply remotes_keep_refl. Qed.

Lemma tables_shrink_trans c1 c2 c3 : tables_shrink c1 c2 → tables_shrink c2 c3 → tables_shrink c1 c3.
Proof.
  intros (A1 & A2 & A3 & A4 & A5) (B1 & B2 & B3 & B4 & B5). split_and!; try congruence; [by etrans|].
  intros i r H. destruct (A5 _ _ H) as (r1 & H1 & E1), (B5 i r1) as (r2 & H2 & E2); [done|].
  exists r2. split; [done|congruence].
Qed.

Definition shrinks {A} (m : CM (Hd := Hd) A) : Prop := ∀ c, tables_shrink c (m c).2.

Lemma shrinks_bind {A D} (m : CM A) (k : A → CM D) : shrinks m → (∀ a, shrinks (k a)) → shrinks (m ≫= k).
Proof.
  intros Hm Hk c. specialize (Hm c). unfold mbind, ST_bind. destruct (m c) as [[a|e|y] c']; cbn in *; try done.
  eapply tables_shrink_trans; [done|apply Hk].
Qed.

Lemma shrinks_ret {A} (a : A) : shrinks (mret a).
Proof. intros c. apply tables_shrink_refl. Qed.
Lemma shrinks_fail {A} e : shrinks (fail (A := A) e).
Proof. intros c. apply tables_shrink_refl. Qed.
Lemma shrinks_panic {A} y : shrinks (panic (A := A) y).
Proof. intros c. apply tables_shrink_refl. Qed.
Lemma shrinks_calls : shrinks calls.
Proof. intros c. apply tables_shrink_refl. Qed.
Lemma shrinks_put cs : shrinks (put_calls cs).
Proof. intros c. split_and!; try done. apply remotes_keep_refl. Qed.
Lemma shrinks_connectionError : shrinks connectionError.
Proof. intros c. apply tables_shrink_refl. Qed.

Create HintDb shrinks.
Hint Resolve shrinks_ret shrinks_fail shrinks_panic shrinks_calls shrinks_put shrinks_connectionError : shrinks.

Ltac shrink := repeat first
  [ progress eauto with shrinks nocore
  | apply shrinks_bind; [|intros]
  | case_match ].

Lemma shrinks_getFrame pick : shrinks (getFrame pick).
Proof. unfold getFrame. shrink. Qed.
Lemma shrinks_setFrame cell f : shrinks (setFrame cell f).
Proof. unfold setFrame. shrink. Qed.
Lemma shrinks_frameAt cell : shrinks (frameAt cell).
Proof. unfold frameAt. shrink. Qed.
Lemma shrinks_putFrame cell : shrinks (putFrame cell).
Proof. unfold putFrame, setFrame. shrink. Qed.
Lemma shrinks_chan_close ch : shrinks (chan_close ch).
Proof. unfold chan_close. shrink. Qed.
Lemma shrinks_close_all chs : shrinks (close_all chs).
Proof. induction chs; cbn; shrink; auto using shrinks_chan_close. Qed.

Lemma shrinks_noteAll : shrinks noteAllRemoteDeaths.
Proof. intros c. split_and!; try done; [apply map_empty_subseteq|by apply remotes_keep_alters]. Qed.

Lemma shrinks_shutdown e : shrinks (shutdown e).
Proof.
  intros c. unfold shutdown. destruct (decide _); [|apply tables_shrink_refl].
  cut (shrinks (shutdown_deaths;; shutdown_close e;; shutdown_pending)); [intros K; apply K|].
  apply shrinks_bind; [|intros; apply shrinks_bind; [|intros]].
  - intros c1. unfold shutdown_deaths. destruct (decide _); [|apply tables_shrink_refl].
    apply shrinks_bind; [apply shrinks_noteAll|]. intros _ c2. split_and!; try done. apply remotes_keep_refl.
  - intros c1. unfold shutdown_close. destruct (decide _); split_and!; try done; apply remotes_keep_refl.
  - intros c1. unfold shutdown_pending. destruct (decide _); [|apply tables_shrink_refl].
    eapply tables_shrink_trans; [|apply shrinks_bind; [apply shrinks_calls|]; intros cs;
      apply shrinks_bind; [apply shrinks_put|]; intros _; apply shrinks_close_all].
    split_and!; try done. apply remotes_keep_refl.
Qed.

Lemma shrinks_writeFrame enc cell : shrinks (writeFrame enc cell).
Proof.
  intros c. unfold writeFrame. destruct (conn_closed c); [|destruct enc as [e|]].
  - apply shrinks_bind; [apply shrinks_connectionError|]. intros. apply shrinks_fail.
  - apply shrinks_bind; [apply shrinks_shutdown|]. intros.
    apply shrinks_bind; [apply shrinks_connectionError|]. intros. apply shrinks_fail.
  - apply shrinks_bind; [apply shrinks_frameAt|]. intros.
    apply shrinks_bind; [apply shrinks_calls|]. intros. apply shrinks_put.
Qed.

Lemma unregister_shrinks pick enc handle c : let c' := (unregisterLocalHandle pick enc handle c).2 in
  conn_role c' = conn_role c ∧ conn_nextExportID c' = conn_nextExportID c ∧
  conn_exports c' ⊆ conn_exports c ∧ conn_imports c' ⊆ conn_imports c ∧
  remotes_keep (conn_remotes c) (conn_remotes c').
Proof.
  unfold unregisterLocalHandle. destruct (_ || _); [split_and!; try done; apply remotes_keep_refl|].
  set (c1 := set_objs (delete handle (conn_exports c)) _ _ _ c).
  assert (K : shrinks (cell ← getFrame pick;
    setFrame cell (mkFrame rpcFrameObituary 0 handle 0 0 None None None);; writeFrame_put enc cell)).
  { apply shrinks_bind; [apply shrinks_getFrame|]. intros cell.
    apply shrinks_bind; [apply shrinks_setFrame|]. intros _ c2. unfold writeFrame_put.
    pose proof (shrinks_writeFrame enc cell c2) as W. destruct (writeFrame enc cell c2) as [r c3].
    pose proof (shrinks_putFrame cell c3) as P. destruct (putFrame cell c3) as [r2 c4].
    by eapply tables_shrink_trans. }
  destruct (K c1) as (A1 & A2 & A3 & A4 & A5). cbn zeta. rewrite A1, A2, A3.
  split_and!; try done. apply delete_subseteq.
Qed.

Lemma parity_next role h : own_parity role h → own_parity role (u32 (h + 2)).
Proof.
  unfold own_parity, u32, wrapu. intros <-. rewrite <- !Z.bit0_odd.
  change (2 ^ 32) with (2 ^ (32)). rewrite Z.mod_pow2_bits_low by lia. rewrite !Z.bit0_odd.
  rewrite Z.odd_add. by rewrite xorb_false_r.
Qed.

Lemma resolve_cases obj c : resolveRPCObject obj c =
  match conn_exports c !! obj_Handle obj with
  | Some ex => (Some (RLocal (ex_handle ex) (ex_stability ex)), c)
  | None => let '(i, c') := remoteBinder (obj_Handle obj) (obj_Stability obj) c in (Some (RRemote i), c')
  end.
Proof. done. Qed.

Lemma remoteBinder_ok handle stability c : objs_ok c →
  let '(i, c') := remoteBinder handle stability c in
  objs_ok c' ∧ conn_imports c' !! handle = Some i ∧ conn_exports c' = conn_exports c ∧
  ∃ r, conn_remotes c' !! i = Some r ∧ rb_handle r = handle.
Proof.
  intros Hc. unfold remoteBinder. destruct (conn_imports c !! handle) as [i|] eqn:E.
  - assert (Hk : objs_ok c → objs_ok (if stability =? StabilityUndeclared then c else
        set_objs (conn_exports c) (conn_imports c) (alter (λ r, mkRemote (rb_handle r) stability (rb_closed r)
          (rb_dead r) (rb_descriptor r)) i (conn_remotes c)) (conn_nextExportID c) c)).
    { intros _. destruct (_ =? _); [done|]. eapply objs_ok_shrink; try done. by apply remotes_keep_alter. }
    specialize (Hk Hc). split; [exact Hk|].
    assert (E' : conn_imports (if stability =? StabilityUndeclared then c else
        set_objs (conn_exports c) (conn_imports c) (alter (λ r, mkRemote (rb_handle r) stability (rb_closed r)
          (rb_dead r) (rb_descriptor r)) i (conn_remotes c)) (conn_nextExportID c) c) !! handle = Some i)
      by (by destruct (_ =? _)).
    split; [done|]. split; [by destruct (_ =? _)|]. by apply (oo_imports _ Hk).
  - split_and!; [|cbn; by rewrite lookup_insert_eq|done|].
    + destruct Hc as [H1 H2 H3]. split; cbn; [done|done|]. intros h i.
      rewrite lookup_insert_Some. intros [[<- <-]|[_ Hi]].
      * eexists. rewrite list_lookup_middle by done. done.
      * destruct (H3 _ _ Hi) as (r & Hr & Eh). exists r. split; [by apply lookup_app_l_Some|done].
    + eexists. cbn. rewrite list_lookup_middle by done. done.
Qed.

Lemma register_ok h stability serial c : objs_ok c →
  let '(_, c') := registerLocalHandler (Some h) stability serial c in objs_ok c'.
Proof.
  intros [H1 H2 H3]. split; cbn; [by apply parity_next| |done].
  intros k ex. rewrite lookup_insert_Some. intros [[<- <-]|[_ Hx]]; [done|eauto].
Qed.

Lemma objs_step_role c c' : objs_step c c' → conn_role c' = conn_role c.
Proof.
  destruct 1 as [c h st se b c' E|c pick enc handle r c' E|c obj b c' E|c handle r c' E|c r c' E|c id r c' E
    |c c' E1 E2 E3 E4 E5]; try done; try (by injection E as <- <-).
  - pose proof (unregister_shrinks pick enc handle c) as (K & _). by rewrite E in K.
  - rewrite resolve_cases in E. unfold remoteBinder in E. repeat case_match; by simplify_eq/=.
  - unfold noteRemoteDeath in E. case_match; by simplify_eq/=.
Qed.

Lemma objs_step_ok c c' : objs_step c c' → objs_ok c → objs_ok c'.
Proof.
  destruct 1 as [c h st se b c' E|c pick enc handle r c' E|c obj b c' E|c handle r c' E|c r c' E|c id r c' E
    |c c' E1 E2 E3 E4 E5]; intros Hc.
  - pose proof (register_ok h st se c Hc) as K. by rewrite E in K.
  - destruct (unregister_shrinks pick enc handle c) as (A1 & A2 & A3 & A4 & A5). rewrite E in *.
    by eapply objs_ok_shrink.
  - rewrite resolve_cases in E. destruct (conn_exports c !! _); [by simplify_eq|].
    pose proof (remoteBinder_ok (obj_Handle obj) (obj_Stability obj) c Hc) as K.
    destruct (remoteBinder _ _ c). simplify_eq. by destruct K.
  - unfold noteRemoteDeath in E. destruct (handle =? 0); simplify_eq; [done|].
    eapply objs_ok_shrink; try done; cbn; [apply delete_subseteq|].
    destruct (conn_imports c !! handle); [by apply remotes_keep_alter|apply remotes_keep_refl].
  - destruct (shrinks_noteAll c) as (A1 & A2 & A3 & A4 & A5). rewrite E in *. cbn in *.
    eapply objs_ok_shrink; try done. by rewrite A3.
  - injection E as <- <-. eapply objs_ok_shrink; try done. by apply remotes_keep_alter.
  - eapply objs_ok_shrink; try done; rewrite ?E2, ?E3, ?E4; try done. apply remotes_keep_refl.
Qed.

Lemma objs_ok_new role required sm : objs_ok (newRPCConn role required sm).
Proof.
  destruct role; split; cbn; try done; intros h x; rewrite ?lookup_empty; try done.
  rewrite lookup_insert_Some, lookup_empty. by intros [[<- <-]|[_ ?]].
Qed.

Lemma objs_reachable role required sm c : rtc objs_step (newRPCConn role required sm) c →
  objs_ok c ∧ conn_role c = role.
Proof.
  revert c. apply (rtc_ind_r (λ c, objs_ok c ∧ conn_role c = role)).
  - split; [apply objs_ok_new|by destruct role].
  - intros y z _ Hs [Hok Hrole]. split; [by eapply objs_step_ok|]. rewrite <- Hrole. by apply objs_step_role.
Qed.
End Objects.

(** C10: Binders keep their identity across an RPC connection.  Whatever the two
    sides, one client and one server, have exported, imported and dropped
    before, an object one side registers resolves, when it comes back, to the
    local object it is, and on the other side never to a local object but to a
    remote Binder of that handle, the same one each time. *)
Theorem rpc_binder_identity H1 H2 ra rb qa qb (sa : H1) (sb : H2) a b h stability serial offset level :
  ra ≠ rb → rtc objs_step (newRPCConn ra qa sa) a → rtc objs_step (newRPCConn rb qb sb) b →
  ∃ handle a', registerLocalHandler (Some h) stability serial a = (Ok (RLocal handle (stability h)), a') ∧
    let obj := mkObject ObjectStrongBinder offset flatBinderObjectWireSize handle level in
    resolveRPCObject obj a' = (Some (RLocal handle (stability h)), a') ∧
    ∃ i b' r b2, resolveRPCObject obj b = (Some (RRemote i), b') ∧
      conn_remotes b' !! i = Some r ∧ rb_handle r = handle ∧
      resolveRPCObject obj b' = (Some (RRemote i), b2).
Proof.
  intros Hne Ha Hb. apply objs_reachable in Ha as [Hoka Hra], Hb as [Hokb Hrb].
  eexists _, _. split; [reflexivity|]. cbn zeta. set (handle := conn_nextExportID a).
  split; [rewrite resolve_cases; cbn; by rewrite lookup_insert_eq|].
  assert (Hnone : conn_exports b !! handle = None).
  { destruct (conn_exports b !! handle) as [ex|] eqn:E; [|done]. apply (oo_exports _ Hokb) in E as [_ E].
    pose proof (oo_next _ Hoka) as E'. rewrite Hrb in E. rewrite Hra in E'. unfold own_parity in *.
    fold handle in E'. rewrite E in E'. by destruct ra, rb. }
  pose proof (remoteBinder_ok handle level b Hokb) as K. destruct (remoteBinder handle level b) as [i b'] eqn:E.
  destruct K as (Hok' & Hi & Hex & r & Hr & Eh). exists i, b', r.
  destruct (remoteBinder handle level b') as [j b2] eqn:E2. exists b2.
  rewrite !resolve_cases. cbn [obj_Handle obj_Stability]. rewrite Hnone, Hex, Hnone, E, E2.
  unfold remoteBinder in E2. rewrite Hi in E2. injection E2 as <- <-. by split_and!.
Qed.

Lemma rpc_binder_identity_witness :
  ∃ i b' r b2,
    resolveRPCObject (mkObject ObjectStrongBinder 0 flatBinderObjectWireSize 2 0)
      (newRPCConn rpcRoleServer 0 tt) = (Some (RRemote i), b') ∧
    conn_remotes b' !! i = Some r ∧ rb_handle r = 2 ∧
    resolveRPCObject (mkObject ObjectStrongBinder 0 flatBinderObjectWireSize 2 0) b' = (Some (RRemote i), b2).
Proof.
  destruct (rpc_binder_identity unit unit rpcRoleClient rpcRoleServer 0 0 tt tt _ _ tt
    (λ _, StabilitySystem) false 0 0 ltac:(discriminate) (rtc_refl _ _) (rtc_refl _ _))
    as (handle & a' & E & _ & H).
  injection E as <- _. exact H.
Defined.

(** ** Deaths *)

Lemma finishSubs_lookup err ids ss i s : ss !! i = Some s → ms_done s = false →
  finishSubs err ids ss !! i =
    Some (if decide (i ∈ ids) then mkManaged (ms_handle s) true err else s).
Proof.
  intros Hs Hd. induction ids as [|k ids IH]; cbn [finishSubs foldr].
  { rewrite decide_False; [done|]. apply not_elem_of_nil. }
  fold (finishSubs err ids ss). unfold finishSub at 1. destruct (decide (k = i)) as [->|Hne].
  - rewrite list_lookup_alter_eq, IH. rewrite (decide_True (P := i ∈ i :: ids)) by (by left). cbn.
    destruct (decide (i ∈ ids)); cbn; [done|]. by rewrite Hd.
  - rewrite list_lookup_alter_ne, IH by done. do 2 f_equal.
    destruct (decide (i ∈ ids)) as [Hin|Hn].
    + by rewrite decide_True by (by right).
    + rewrite decide_False; [done|]. rewrite not_elem_of_cons. by split.
Qed.

Lemma elem_of_all_watchers ws h set i : ws !! h = Some set → i ∈ set → i ∈ all_watchers ws.
Proof.
  intros Hw Hi. unfold all_watchers. apply list_elem_of_bind. exists set. split; [by apply elem_of_elements|].
  apply list_elem_of_fmap. exists (h, set). split; [done|]. by apply elem_of_map_to_list.
Qed.

Lemma chan_close_frame Hd ch (c : RPCConn Hd) : ∃ cs, (chan_close ch c).2 = set_calls cs c.
Proof.
  exists (conn_calls (chan_close ch c).2). unfold chan_close, mbind, ST_bind, calls, put_calls, mret, ST_ret, panic.
  destruct (rc_chans (conn_calls c) !! ch) as [x|]; [destruct (ch_closed x)|]; cbn; by destruct c.
Qed.

Lemma close_all_frame Hd chs (c : RPCConn Hd) : ∃ cs, (close_all chs c).2 = set_calls cs c.
Proof.
  revert c. induction chs as [|ch chs IH]; intros c; cbn [close_all].
  { exists (conn_calls c). by destruct c. }
  destruct (chan_close_frame Hd ch c) as [cs E]. unfold mbind, ST_bind.
  destruct (chan_close ch c) as [[[]|e|y] c']; cbn in E |- *; subst; [|by eexists..].
  destruct (IH (set_calls cs c)) as [cs' ->]. by eexists.
Qed.

(** The last two parts of shutdown do not touch objects and subscriptions. *)
Lemma shutdown_pending_frame Hd (c : RPCConn Hd) : conn_phase c = 2%nat →
  ∃ cs, (shutdown_pending c).2 = set_calls cs (set_phase 3 (conn_closeErr c) c).
Proof.
  intros Hp. unfold shutdown_pending. rewrite decide_True by done. unfold mbind, ST_bind, calls, put_calls.
  cbn [conn_calls set_phase]. set (cs0 := mkCalls _ _ _ _ _ _ _ _).
  destruct (close_all_frame Hd (map_to_list (rc_pending (conn_calls c))).*2
    (set_calls cs0 (set_phase 3 (conn_closeErr c) c))) as [cs ->]. by exists cs.
Qed.

Lemma shutdown_frame Hd e (c : RPCConn Hd) : conn_phase c = 0%nat →
  conn_subs (shutdown e c).2 = conn_subs (noteAllRemoteDeaths c).2 ∧
  conn_remotes (shutdown e c).2 = conn_remotes (noteAllRemoteDeaths c).2.
Proof.
  intros Hp. unfold shutdown. rewrite decide_True by done.
  set (c1 := set_phase 1 (conn_closeErr c) (noteAllRemoteDeaths c).2).
  assert (E1 : shutdown_deaths c = (Ok tt, c1)) by (unfold shutdown_deaths; by rewrite decide_True).
  assert (E2 : shutdown_close e c1 = (Ok tt, set_phase 2 (Some e) c1)) by done.
  rewrite (bind_ok _ _ _ _ _ E1), (bind_ok _ _ _ _ _ E2).
  destruct (shutdown_pending_frame Hd (set_phase 2 (Some e) c1) eq_refl) as [cs ->]. done.
Qed.

Lemma set_dead_alters (ids : list nat) (rs : list rpcRemoteBinder) (j : nat) r : rs !! j = Some r → j ∈ ids →
  ∃ r', foldr (λ i rs, alter set_dead i rs) rs ids !! j = Some r' ∧ rb_dead r' = true ∧
    rb_closed r' = rb_closed r.
Proof.
  intros Hr Hin. assert (K : ∃ r', foldr (λ i rs, alter set_dead i rs) rs ids !! j = Some r' ∧
    (j ∈ ids → rb_dead r' = true) ∧ rb_closed r' = rb_closed r).
  { clear Hin. induction ids as [|k ids (r' & E & Hd & Hc)]; [exists r; split_and!; [done|by intros ?%not_elem_of_nil|done]|].
    cbn. destruct (decide (k = j)) as [->|Hne].
    - exists (set_dead r'). by rewrite list_lookup_alter_eq, E.
    - exists r'. rewrite list_lookup_alter_ne by done. split_and!; [done| |done].
      rewrite elem_of_cons. intros [->|]; [done|auto]. }
  destruct K as (r' & E & Hd & Hc). eauto.
Qed.

(** C11: when the peer reports the death of an object, or the connection shuts
    down, every registered watcher of the object is finished with the
    dead-object error, and the remote Binder imported for it, unless it was
    closed, refuses calls with that error. *)
Theorem rpc_death_delivered Hd (c : RPCConn Hd) h i s set :
  h ≠ 0 → conn_watches c !! h = Some set → i ∈ set → conn_subs c !! i = Some s → ms_done s = false →
  let delivered c' :=
    conn_subs c' !! i = Some (mkManaged (ms_handle s) true (Some (ESentinel ErrDeadObject))) ∧
    ∀ j r, conn_imports c !! h = Some j → conn_remotes c !! j = Some r → rb_closed r = false →
      checkOpen j c' = Some (ESentinel ErrDeadObject) in
  delivered (noteRemoteDeath h c).2 ∧ (conn_phase c = 0%nat → ∀ e, delivered (shutdown e c).2).
Proof.
  intros Hh Hw Hi Hs Hnd delivered. unfold delivered. split.
  - unfold noteRemoteDeath. rewrite eqb_false by done. rewrite Hw. split.
    + cbn. rewrite (finishSubs_lookup _ _ _ _ s) by done. rewrite decide_True; [done|].
      by apply elem_of_elements.
    + intros j r Hj Hr Hcl. unfold checkOpen. cbn. rewrite Hj, list_lookup_alter_eq, Hr. cbn. by rewrite Hcl.
  - intros Hp e. destruct (shutdown_frame Hd e c Hp) as [Es Er]. split.
    + rewrite Es. cbn. rewrite (finishSubs_lookup _ _ _ _ s) by done. rewrite decide_True; [done|].
      by eapply elem_of_all_watchers.
    + intros j r Hj Hr Hcl. unfold checkOpen. rewrite Er. cbn.
      assert (Hin : j ∈ (map_to_list (conn_imports c)).*2).
      { apply list_elem_of_fmap. exists (h, j). split; [done|]. by apply elem_of_map_to_list. }
      destruct (set_dead_alters _ _ j r Hr Hin) as (r' & -> & Hdead & ->). by rewrite Hcl, Hdead.
Qed.

Lemma rpc_death_delivered_witness :
  let c := (watchDeath 5 (newRPCConn rpcRoleClient 0 tt)).2 in
  conn_subs (noteRemoteDeath 5 c).2 !! 0%nat = Some (mkManaged 5 true (Some (ESentinel ErrDeadObject))).
Proof.
  intros c. destruct (rpc_death_delivered unit c 5 0 (mkManaged 5 false None) {[0%nat]}) as [[H _] _].
  - discriminate.
  - vm_compute. reflexivity.
  - by apply elem_of_singleton.
  - reflexivity.
  - reflexivity.
  - exact H.
Defined.

(** A death watch that starts while the connection shuts down is lost: the
    shutdown has already finished the watchers it knew and has not yet marked the
    connection closed, so the new subscription is accepted, and neither the rest
    of this shutdown nor any later one ever finishes it. *)
Theorem watch_lost_in_shutdown Hd (c : RPCConn Hd) h e : h ≠ 0 → conn_phase c = 0%nat →
  let c1 := (shutdown_deaths c).2 in
  ∃ i c2, watchDeath h c1 = (Ok i, c2) ∧
    let c3 := (shutdown_close e c2).2 in
    let c4 := (shutdown_pending c3).2 in
    conn_closed c4 = true ∧ conn_subs c4 !! i = Some (mkManaged h false None) ∧
    ∀ e', shutdown e' c4 = (Ok tt, c4).
Proof.
  intros Hh Hp c1.
  assert (E1 : c1 = set_phase 1 (conn_closeErr c) (noteAllRemoteDeaths c).2).
  { unfold c1, shutdown_deaths. by rewrite decide_True. }
  rewrite E1. clear c1 E1. set (c1 := set_phase 1 _ _).
  eexists _, _. split.
  { unfold watchDeath, watchDeath_new. rewrite eqb_false by done. reflexivity. }
  cbn zeta. set (c2 := set_deaths _ _ _).
  assert (E3 : (shutdown_close e c2).2 = set_phase 2 (Some e) c2) by done. rewrite E3.
  destruct (shutdown_pending_frame Hd (set_phase 2 (Some e) c2) eq_refl) as [cs ->].
  split_and!; [done| |done]. cbn. by rewrite list_lookup_middle.
Qed.

Lemma watch_lost_in_shutdown_witness :
  let c1 := (shutdown_deaths (newRPCConn rpcRoleClient 0 tt)).2 in
  ∃ i c2, watchDeath 5 c1 = (Ok i, c2) ∧
    let c4 := (shutdown_pending (shutdown_close (ESentinel ErrEOF) c2).2).2 in
    conn_closed c4 = true ∧ conn_subs c4 !! i = Some (mkManaged 5 false None) ∧
    ∀ e', shutdown e' c4 = (Ok tt, c4).
Proof.
  apply (watch_lost_in_shutdown unit (newRPCConn rpcRoleClient 0 tt) 5 (ESentinel ErrEOF)).
  - discriminate.
  - reflexivity.
Defined.
