(* ===== verification/RpcCall.v ===== *)
(** * RpcCall: a whole call over RPC, the identity of Binders, deaths

    Theorems on RpcServe: a synchronous call through an RPC connection is a
    dispatch on the peer's exported handler, arguments and Binders arrive as they
    were sent; and on the death watches of RpcConn. *)

From stdpp Require Import base list numbers strings pretty gmap relations.
From S2P Require Import Prelude Errors Unicode Parcel ParcelFacts Codec ObjectCodec Fields ParcelInv ParcelProps Stability Dispatch RpcConn RpcServe RpcProps.

Open Scope Z_scope.

(** ** One synchronous call *)

Section Exchange.
Context {H1 U1 H2 U2 : Type} (pid : Z) (handlers : H2 → Handler (rpcWorld H2 U2) rpcBinder).
Abbreviation client := (rpcWorld H1 U1).
Abbreviation server := (rpcWorld H2 U2).

(** The last frame a side has written. *)
Definition last_frame {H U} (w : rpcWorld H U) : rpcFrame :=
  default zeroFrame (last (rc_out (conn_calls w.1))).

(** A call on remote Binder [id] of the client: its frame, the server's treatment
    of it, the client's read loop and the end of the wait. *)
Definition exchange (id : nat) (ctx : option context) (code : Z)
    (data : option (Parcel client rpcBinder)) (fl : Z) (wc : client) (ws : server)
  : res (option (Parcel client rpcBinder)) :=
  match remote_send None None id ctx code data fl wc with
  | (Ok (Some call), wc1) =>
      match handleTransactFrame pid handlers None None (last_frame wc1) ws with
      | (Ok _, ws1) =>
          let '(_, wc2) := on_conn (readLoop (Ok (last_frame ws1))) wc1 in
          (remote_receive call wc2).1
      | (Err e, _) => Err e
      | (Panic y, _) => Panic y
      end
  | (Ok None, _) => Ok None
  | (Err e, _) => Err e
  | (Panic y, _) => Panic y
  end.

(** The frame carrying a payload and objects. *)
Definition carrier (payload : option (list Z)) (objs : option (list ParcelObject)) : rpcFrame :=
  mkFrame rpcFrameTransact 0 0 0 0 payload objs None.

(** What an error becomes on the other side. *)
Definition carried_error (e : error) : error :=
  default e (replay (captureRPCFrameError (Some e))).

Lemma begin_facts handle code fl payload objs (c : RPCConn H1) : oneway fl = false →
  let cs := conn_calls c in let id := u64 (rc_next cs + 1) in
  let call := mkCall (length (rc_frames cs)) (length (rc_chans cs)) id in
  ∃ c1, transact_begin None handle code fl payload objs c = (Ok call, c1) ∧
    conn_closed c1 = conn_closed c ∧ rc_out (conn_calls c1) = rc_out cs ∧
    rc_pending (conn_calls c1) !! id = Some (call_chan call) ∧
    rc_frames (conn_calls c1) !! call_cell call =
      Some (mkFrame rpcFrameTransact id handle code fl payload objs None).
Proof.
  intros Ho cs id call. eexists. split.
  { unfold transact_begin, getFrame, setFrame, mbind, ST_bind, calls, put_calls, mret, ST_ret.
    cbn. rewrite Ho. reflexivity. }
  cbn. split_and!; [done|done|by rewrite lookup_insert_eq|].
  rewrite list_lookup_insert_eq; [done|]. rewrite length_app. cbn. lia.
Qed.

Lemma write_facts (call : rpcCall) f (c : RPCConn H1) : conn_closed c = false →
  rc_frames (conn_calls c) !! call_cell call = Some f →
  ∃ c1, transact_write None call c = (Ok tt, c1) ∧ conn_closed c1 = conn_closed c ∧
    rc_out (conn_calls c1) = rc_out (conn_calls c) ++ [f] ∧
    rc_pending (conn_calls c1) = rc_pending (conn_calls c).
Proof.
  intros Hcl Hf. eexists. split.
  { unfold transact_write, writeFrame. rewrite Hcl.
    unfold frameAt, putFrame, setFrame, mbind, ST_bind, calls, put_calls, mret, ST_ret. cbn. reflexivity. }
  cbn. rewrite Hf. by split_and!.
Qed.

Lemma begin_write handle code fl payload objs (c : RPCConn H1) : calls_ok (conn_calls c) →
  conn_closed c = false → oneway fl = false →
  let cs := conn_calls c in let id := u64 (rc_next cs + 1) in
  let call := mkCall (length (rc_frames cs)) (length (rc_chans cs)) id in
  ∃ c', (call ← transact_begin None handle code fl payload objs; transact_write None call;;
         mret (if oneway fl then None else Some call)) c = (Ok (Some call), c') ∧
    calls_ok (conn_calls c') ∧ rc_pending (conn_calls c') !! id = Some (call_chan call) ∧
    rc_out (conn_calls c') = rc_out cs ++ [mkFrame rpcFrameTransact id handle code fl payload objs None].
Proof.
  intros Hc Hcl Ho cs id call.
  destruct (begin_facts handle code fl payload objs c Ho) as (c1 & E1 & Hcl1 & Hout1 & Hp1 & Hf1).
  destruct (transact_begin_ok None handle code fl payload objs c Hc) as (? & ? & E1' & Hc1 & _ & _).
  rewrite E1 in E1'. injection E1' as <- <-.
  destruct (write_facts call _ c1 ltac:(congruence) Hf1) as (c2 & E2 & _ & Hout2 & Hp2).
  pose proof (keeps_transact_write None call c1 Hc1) as (_ & Hc2 & _). rewrite E2 in Hc2.
  exists c2. rewrite (bind_ok _ _ _ _ _ E1), (bind_ok _ _ _ _ _ E2), Ho.
  split; [done|]. split; [done|]. split; [by rewrite Hp2|]. by rewrite Hout2, Hout1.
Qed.

(** Writing the reply. *)
Lemma send_reply_out (g : rpcFrame) (c : RPCConn H2) : conn_closed c = false →
  ∃ c', send_reply None None g c = (Ok tt, c') ∧ rc_out (conn_calls c') = rc_out (conn_calls c) ++ [g].
Proof.
  intros Hcl. unfold send_reply, writeFrame_put. eexists. split.
  { unfold getFrame, setFrame, mbind, ST_bind, calls, put_calls, mret, ST_ret. cbn.
    unfold writeFrame. unfold conn_closed in *. cbn. rewrite Hcl.
    unfold frameAt, putFrame, setFrame, mbind, ST_bind, calls, put_calls, mret, ST_ret. cbn. reflexivity. }
  cbn. rewrite list_lookup_insert_eq; [done|]. rewrite length_app. cbn. lia.
Qed.

(** Reading the reply to a pending call and receiving it. *)
Lemma receive_own (g : rpcFrame) (call : rpcCall) (w : rpcWorld H1 U1) :
  calls_ok (conn_calls w.1) → frame_Kind g = rpcFrameReply → frame_ID g = call_id call →
  rc_pending (conn_calls w.1) !! call_id call = Some (call_chan call) →
  (remote_receive call (on_conn (readLoop (Ok g)) w).2).1 =
    match replay (frame_Err g) with Some e => Err e | None => Ok (wireParcel g) end.
Proof.
  intros Hc Hk Hid Hp. destruct (co_pending _ Hc _ _ Hp) as (x & Hx & Hf & Hb & Ho).
  unfold on_conn, readLoop. rewrite Hk. unfold read_reply_frame, takePending.
  unfold mbind, ST_bind, calls, put_calls, mret, ST_ret. cbn. rewrite Hid, Hp.
  unfold chan_send, mbind, ST_bind, calls, put_calls. cbn. rewrite Hx, Ho, Hb. cbn.
  assert (Hlt : (call_chan call < length (rc_chans (conn_calls w.1)))%nat) by (by eapply lookup_lt_Some).
  unfold chan_close, mbind, ST_bind, calls, put_calls. cbn. rewrite list_lookup_insert_eq by done. cbn.
  unfold remote_receive, on_conn, wait_reply, mbind, ST_bind, calls, put_calls, mret, ST_ret. cbn.
  rewrite list_lookup_insert_eq by (by rewrite length_insert). cbn.
  by destruct (replay (frame_Err g)).
Qed.

Lemma oneway_prepared fl : oneway (PrepareTransactFlags fl) = oneway fl.
Proof.
  unfold oneway, PrepareTransactFlags. do 2 f_equal. apply Z.bits_inj'. intros n Hn.
  rewrite !Z.land_spec, Z.ldiff_spec. change FlagOneway with (2 ^ 0).
  change FlagPrivateVendor with (2 ^ 28). rewrite !Z.pow2_bits_eqb by lia.
  destruct (0 =? n) eqn:E0; [|by rewrite !andb_false_r]. bools. subst. by rewrite !andb_true_r.
Qed.

Lemma checkOpen_open {H} id (c : RPCConn H) : checkOpen id c = None → conn_closed c = false.
Proof. unfold checkOpen. repeat case_match; done. Qed.

Lemma remote_send_ok id r ctx code data fl payload objs (wc : client) :
  conn_remotes wc.1 !! id = Some r → checkOpen id wc.1 = None →
  EnforceTransactStability ctx (RRemote id) code fl (conn_required wc.1) wc = None →
  prepareRPCParcel data wc.1 = Ok (payload, objs) → oneway fl = false → calls_ok (conn_calls wc.1) →
  ∃ call wc1, remote_send None None id ctx code data fl wc = (Ok (Some call), wc1) ∧
    calls_ok (conn_calls wc1.1) ∧ rc_pending (conn_calls wc1.1) !! call_id call = Some (call_chan call) ∧
    last_frame wc1 = mkFrame rpcFrameTransact (call_id call) (rb_handle r) code (PrepareTransactFlags fl)
                       payload objs None.
Proof.
  intros Hr Ho He Hp Hw Hc. unfold remote_send. rewrite Ho, Hr, He, (checkOpen_open _ _ Ho), Hp.
  destruct (begin_write (rb_handle r) code (PrepareTransactFlags fl) payload objs wc.1 Hc
    (checkOpen_open _ _ Ho)) as (c1 & E & Hc1 & Hp1 & Hout); [by rewrite oneway_prepared|].
  eexists _, (c1, wc.2). unfold on_conn. rewrite E. split; [reflexivity|].
  split_and!; [done|done|]. unfold last_frame. cbn [fst]. by rewrite Hout, last_snoc.
Qed.

Lemma replyFrame_kind {U} n (c : RPCConn H2) (r : option (Parcel (rpcWorld H2 U) rpcBinder) + error) :
  frame_Kind (replyFrame n c r) = rpcFrameReply ∧ frame_ID (replyFrame n c r) = n.
Proof.
  unfold replyFrame, prepareRPCParcel. repeat case_match; simplify_eq; done.
Qed.
End Exchange.

(** C6: a synchronous call through an RPC connection is a dispatch on the peer:
    for an accepted call on a live remote Binder, the caller's result is that of
    dispatching the transaction to the peer's export, with a request holding
    exactly the payload and objects sent; the caller gets a Parcel with exactly
    the reply's payload and objects, and where the peer has no such export, its
    handler fails or its reply cannot be carried, that error as the wire carries
    it. *)
Theorem rpc_call_dispatches H1 U1 H2 U2 pid (handlers : H2 → Handler (rpcWorld H2 U2) rpcBinder)
    id r ctx code data fl payload objs (wc : rpcWorld H1 U1) (ws : rpcWorld H2 U2) :
  conn_remotes wc.1 !! id = Some r → checkOpen id wc.1 = None →
  EnforceTransactStability ctx (RRemote id) code fl (conn_required wc.1) wc = None →
  prepareRPCParcel data wc.1 = Ok (payload, objs) → oneway fl = false → calls_ok (conn_calls wc.1) →
  let result := exchange pid handlers id ctx code data fl wc ws in
  match dispatchExport pid handlers (Some Background) (rb_handle r) code
          (wireParcel (carrier payload objs)) (PrepareTransactFlags fl) false ws with
  | (Ok reply, ws1) => conn_closed ws1.1 = false →
      result = match prepareRPCParcel reply ws1.1 with
               | Ok (pl, ob) => Ok (wireParcel (carrier pl ob))
               | Err e => Err (carried_error e)
               | Panic y => Panic y
               end
  | (Err e, ws1) => conn_closed ws1.1 = false → result = Err (carried_error e)
  | (Panic y, _) => result = Panic y
  end.
Proof.
  intros Hr Ho He Hp Hw Hc result. subst result. unfold exchange.
  destruct (remote_send_ok id r ctx code data fl payload objs wc Hr Ho He Hp Hw Hc)
    as (call & wc1 & -> & Hc1 & Hp1 & ->).
  unfold handleTransactFrame. cbn [frame_Handle frame_Code frame_Flags frame_ID].
  change (wireParcel (mkFrame _ _ _ _ _ payload objs None))
    with (wireParcel (Hd := H2) (U := U2) (carrier payload objs)).
  rewrite oneway_prepared, Hw.
  assert (K : ∀ (o : option (Parcel (rpcWorld H2 U2) rpcBinder) + error) (ws1 : rpcWorld H2 U2),
    conn_closed ws1.1 = false → let g := replyFrame (call_id call) ws1.1 o in
    ∃ ws2, on_conn (send_reply None None g) ws1 = (Ok tt, ws2) ∧
      (remote_receive call (on_conn (readLoop (Ok (last_frame ws2))) wc1).2).1 =
        match replay (frame_Err g) with Some e => Err e | None => Ok (wireParcel g) end).
  { intros o ws1 Hcl g. destruct (send_reply_out g ws1.1 Hcl) as (c2 & E & Hout).
    exists (c2, ws1.2). unfold on_conn at 1. rewrite E. split; [done|].
    unfold last_frame. cbn [fst]. rewrite Hout, last_snoc. cbn [from_option].
    apply receive_own; [done|apply replyFrame_kind|apply replyFrame_kind|done]. }
  destruct (dispatchExport _ _ _ _ _ _ _ _ ws) as [[reply|e|y] ws1]; [intros Hcl|intros Hcl|done].
  - destruct (K (inl reply) ws1 Hcl) as (ws2 & -> & E). destruct (on_conn _ wc1) as [? wc2].
    cbn [snd] in E. rewrite E. unfold replyFrame.
    destruct (prepareRPCParcel reply ws1.1) as [[pl ob]|e|y] eqn:Er; [done| |].
    + cbn [frame_Err]. unfold carried_error. by destruct (replay _) eqn:Ee.
    + exfalso. unfold prepareRPCParcel in Er. by repeat case_match.
  - destruct (K (inr e) ws1 Hcl) as (ws2 & -> & E). destruct (on_conn _ wc1) as [? wc2].
    cbn [snd] in E. rewrite E. cbn [frame_Err replyFrame]. unfold carried_error.
    by destruct (replay _) eqn:Ee.
Qed.

(** A server whose handle 1 echoes, and its client. *)
Definition echo_handlers (_ : unit) : Handler (rpcWorld unit unit) rpcBinder :=
  mkHandler "demo.IEcho" (λ _ _ p w, (Ok (Some p), w)) None None None None None.
Definition demo_client : rpcWorld unit unit := (newRPCConn rpcRoleClient 0 tt, tt).
Definition demo_server : rpcWorld unit unit := (newRPCConn rpcRoleServer 0 tt, tt).

Lemma demo_client_ok : calls_ok (conn_calls demo_client.1).
Proof. split; cbn; intros *; [by rewrite lookup_empty|done]. Defined.

Lemma rpc_call_dispatches_witness :
  exchange 5 echo_handlers 0 None 7 (NewParcelBytes [1; 2; 3; 4]) 0 demo_client demo_server =
    Ok (wireParcel (carrier (Some [1; 2; 3; 4]) None)).
Proof.
  refine (rpc_call_dispatches unit unit unit unit 5 echo_handlers 0
    (mkRemote 1 StabilitySystem false false None) None 7 (NewParcelBytes [1; 2; 3; 4]) 0
    (Some [1; 2; 3; 4]) None demo_client demo_server eq_refl eq_refl eq_refl eq_refl eq_refl demo_client_ok
    eq_refl).
Defined.

(** ** Arguments *)

Lemma wire_ref_id d h s : refOfObject (objectOfRef (shift_ref d (strong_ref h s))) = shift_ref d (strong_ref h s).
Proof. done. Qed.

(** The object table entries of a record survive the trip through ParcelObjects. *)
Definition wire_stable (r : parcelObjectRef) : Prop := ∀ d,
  refOfObject (objectOfRef (shift_ref d r)) = shift_ref d r.

Lemma record_objects_stable W B fs (v : record_type fs) : Forall wire_stable (record_objects W B fs v).
Proof.
  unfold record_objects. induction fs as [|f fs IH]; [constructor|]. destruct v as [x v].
  cbn [record_codec pair_codec c_objs fst snd]. apply Forall_app. split.
  - destruct f; cbn; try constructor. destruct x as [h|]; repeat constructor.
  - apply Forall_fmap. eapply Forall_impl; [apply IH|]. intros r Hr d. cbn. rewrite shift_shift. apply Hr.
Qed.

(** A record's wire image does not depend on the world it is written in. *)
Lemma record_world W B W' B' fs (v : record_type fs) :
  (record_ok W B fs v → record_ok W' B' fs v) ∧ record_wire W B fs v = record_wire W' B' fs v ∧
  record_objects W B fs v = record_objects W' B' fs v.
Proof.
  unfold record_ok, record_wire, record_objects. induction fs as [|f fs IH]; [done|]. destruct v as [x v].
  destruct (IH v) as (I1 & I2 & I3). cbn [record_codec pair_codec c_objs c_bytes c_valid fst snd].
  rewrite I2, I3. split_and!; [|by destruct f|by destruct f]. intros [Hx Hv]. split; [by destruct f|auto].
Qed.

Lemma default_clone {A} (l : list A) (o : option (list A)) :
  o = match l with [] => None | _ => Some l end → default [] o = l.
Proof. intros ->. by destruct l. Qed.

(** A Binder handle that belongs to a connection's session. *)
Definition session_handle {H} (c : RPCConn H) (r : parcelObjectRef) : Prop :=
  ref_Handle r ≠ 0 ∧
  (is_Some (conn_exports c !! ref_Handle r) ∨ is_Some (conn_imports c !! ref_Handle r)).

Lemma record_objects_strong W B fs (v : record_type fs) :
  Forall (λ r, ref_ObjectKind r = ObjectStrongBinder) (record_objects W B fs v).
Proof.
  unfold record_objects. induction fs as [|f fs IH]; [constructor|]. destruct v as [x v].
  cbn [record_codec pair_codec c_objs fst snd]. apply Forall_app. split.
  - destruct f; cbn; try constructor. destruct x as [h|]; by repeat constructor.
  - apply Forall_fmap. eapply Forall_impl; [apply IH|]. by intros r Hr.
Qed.

Lemma check_objects_session H (c : RPCConn H) os : Forall (session_handle c) os →
  Forall (λ r, ref_ObjectKind r = ObjectStrongBinder) os → check_objects c (objectOfRef <$> os) = None.
Proof.
  induction 1 as [|r os [Hnz Hin] _ IH]; [done|]. intros [Hk Hks]%Forall_cons. cbn. rewrite Hk.
  rewrite eqb_false by done. rewrite IH by done. unfold lookupExport.
  destruct (conn_exports c !! _), (conn_imports c !! _); try done. by destruct Hin as [[]|[]].
Qed.

(** C8: whatever record of arguments a caller writes, as long as the Binder
    handles in it belong to its session, it is accepted, and the frame that
    carries it makes a request on the other side from which the same record
    reads back, with the other side's resolver installed. *)
Theorem rpc_arguments_arrive H1 U1 H2 U2 (fs : list field) (v : record_type fs) (c : RPCConn H1)
    (w1 : rpcWorld H1 U1) (w2 : rpcWorld H2 U2) :
  record_ok (rpcWorld H1 U1) rpcBinder fs v → len (record_wire (rpcWorld H1 U1) rpcBinder fs v) <= maxInt →
  let written := write_record fs v (mkst (Some (NewParcel (W := rpcWorld H1 U1) (B := rpcBinder))) w1) in
  Forall (session_handle c) (record_objects (rpcWorld H1 U1) rpcBinder fs v) →
  ∃ payload objs p, written.1 = Ok tt ∧ prepareRPCParcel (ptr written.2) c = Ok (payload, objs) ∧
    wireParcel (Hd := H2) (U := U2) (carrier payload objs) = Some p ∧
    binderObjectResolve p = Some rpc_resolver ∧
    (read_record fs (mkst (Some p) w2)).1 = Ok v.
Proof.
  intros Hv Hl written Hck.
  apply check_objects_session in Hck; [|apply record_objects_strong].
  assert (Ew : written = (Ok tt, mkst (Some (p_emit NewParcel (record_wire (rpcWorld H1 U1) rpcBinder fs v)
                 (record_objects (rpcWorld H1 U1) rpcBinder fs v))) w1)).
  { unfold written. by apply (@c_write_ok _ _ _ (record_codec fs) v Hv NewParcel w1). }
  rewrite Ew. set (bs := record_wire _ _ fs v) in *. set (os := record_objects _ _ fs v) in *.
  assert (Eo : objects (p_emit (NewParcel (W := rpcWorld H1 U1) (B := rpcBinder)) bs os) = os).
  { cbn. rewrite <- (list_fmap_id os) at 2. apply list_fmap_ext. intros i r _. apply shift_ref_0. }
  cbn [ptr snd fst]. unfold prepareRPCParcel, Objects. rewrite Eo.
  rewrite (default_clone (objectOfRef <$> os)) by (by destruct os). rewrite Hck.
  eexists _, _, _. split; [done|]. split; [reflexivity|]. split; [reflexivity|]. split; [reflexivity|].
  cbn [frame_Payload frame_Objects carrier]. rewrite (default_clone bs) by done.
  rewrite (default_clone (objectOfRef <$> os)) by (by destruct os).
  cbn [set_owned set_objects set_pos set_buf NewParcel buf pos mode flags binderResolver localBinderResolve
       wireFDsOwned].
  destruct (record_world (rpcWorld H1 U1) rpcBinder (rpcWorld H2 U2) rpcBinder fs v) as (Rv & Rw & Ro).
  unfold read_record. rewrite (@c_read_ok _ _ _ (record_codec fs) v (Rv Hv) _ w2 [] []); try done.
  - cbn [buf app]. rewrite app_nil_r. exact Rw.
  - change (@c_objs _ _ _ (record_codec fs) v) with (record_objects (rpcWorld H2 U2) rpcBinder fs v).
    rewrite <- Ro. fold os. apply Forall_forall. intros r Hr. cbn [length]. change (Z.of_nat 0) with 0.
    rewrite Z.add_0_l, shift_ref_0. unfold objectAt. cbn [objects].
    destruct (@c_objs_ok _ _ _ (record_codec fs) v Hv) as [Hs _].
    assert (Er : refOfObject <$> (objectOfRef <$> os) = os).
    { rewrite <- list_fmap_compose. rewrite <- (list_fmap_id os) at 2. apply list_fmap_ext. intros i x Hx.
      cbn. pose proof (record_objects_stable (rpcWorld H1 U1) rpcBinder fs v) as St.
      rewrite Forall_lookup in St. specialize (St i x Hx 0). by rewrite shift_ref_0 in St. }
    change (objects (set_owned _ _)) with (refOfObject <$> (objectOfRef <$> os)). rewrite Er.
    destruct (list_find_sorted os r Hs Hr) as [i Hi]. by rewrite Hi.
Qed.

Definition rpc_demo_fields : list field := [FToken; FInt32; FHandle; FString].
Definition rpc_demo_values : record_type rpc_demo_fields := ("demo.IEcho"%string, (-7, (Some 1, ("h"%string, tt)))).

Lemma rpc_arguments_arrive_witness :
  ∃ payload objs p,
    (write_record (B := rpcBinder) rpc_demo_fields rpc_demo_values (mkst (Some NewParcel) demo_server)).1 = Ok tt ∧
    prepareRPCParcel (ptr (write_record (B := rpcBinder) rpc_demo_fields rpc_demo_values (mkst (Some NewParcel) demo_server)).2)
      demo_server.1 = Ok (payload, objs) ∧
    wireParcel (carrier payload objs) = Some p ∧ binderObjectResolve p = Some rpc_resolver ∧
    (read_record rpc_demo_fields (mkst (Some p) demo_client)).1 = Ok rpc_demo_values.
Proof.
  apply (rpc_arguments_arrive unit unit unit unit rpc_demo_fields rpc_demo_values demo_server.1 demo_server
           demo_client).
  - vm_compute. repeat split; discriminate.
  - vm_compute. discriminate.
  - apply Forall_cons. split; [|constructor]. split; [discriminate|]. left. eexists. reflexivity.
Defined.
