(* ===== verification/Record.v ===== *)
(** * Record: recording and replaying Binders

    Models src/binder/record_replay.go.  A Binder is given by its Transact and
    Descriptor methods; the recorder and the replaying Binder are state that the
    calls thread, each method being one critical section.  The main theorem is
    that a replay of a recording answers a client as the recorded run did. *)

From stdpp Require Import base list numbers strings pretty.
From S2P Require Import Prelude Errors Unicode Parcel ParcelFacts Codec Fields ParcelInv ParcelProps Stability Dispatch RpcConn RpcServe RpcProps RpcCall.

Open Scope Z_scope.

(** ** Records *)

Record RecordedError := mkRecordedError {
  rec_Kind : string; rec_Message : string; rec_StatusCode : Z; rec_ExceptionCode : Z;
}.

Record TransactionRecord := mkRecord {
  tr_Descriptor : string;
  tr_Code : Z;
  tr_Flags : Z;
  tr_RequestBytes : option (list Z);
  tr_RequestObjects : option (list ParcelObject);
  tr_ReplyBytes : option (list Z);
  tr_ReplyObjects : option (list ParcelObject);
  tr_Error : option RecordedError;
}.

Record TransactionRecorder := mkRecorder {
  recorder_descriptor : string; recorder_records : list TransactionRecord;
}.

Definition NewTransactionRecorder : TransactionRecorder := mkRecorder "" [].

(** ** Errors *)

Definition recorded_kind (kind : string) : RecordedError := mkRecordedError kind "" 0 0.

Definition captureRecordedError (err : option error) : option RecordedError :=
  match err with
  | None => None
  | Some e =>
      Some (match errors_As_StatusCode e with
      | Some code => mkRecordedError "status_code" "" code 0
      | None =>
      match errors_As_Remote e with
      | Some r => mkRecordedError "remote_exception" (re_Message r) 0 (re_Code r)
      | None =>
          if errors_Is e ErrDeadObject then recorded_kind "err_dead_object"
          else if errors_Is e ErrFailedTxn then recorded_kind "err_failed_txn"
          else if errors_Is e ErrBadParcelable then recorded_kind "err_bad_parcelable"
          else if errors_Is e ErrPermissionDenied then recorded_kind "err_permission_denied"
          else if errors_Is e ErrUnsupported then recorded_kind "err_unsupported"
          else if errors_Is e ErrNoService then recorded_kind "err_no_service"
          else if errors_Is e ErrClosed then recorded_kind "err_closed"
          else if errors_Is e ErrUnknownTransaction then recorded_kind "err_unknown_transaction"
          else mkRecordedError "text" (Error_string e) 0 0
      end end)
  end.

(** [RecordedError.replay]. *)
Definition recorded_replay (re : option RecordedError) : option error :=
  match re with
  | None => None
  | Some e =>
      let kind_is k := String.eqb (rec_Kind e) k in
      Some (if kind_is "status_code" then EStatusCode (rec_StatusCode e)
      else if kind_is "remote_exception" then ERemote (mkRemoteException (rec_ExceptionCode e) (rec_Message e) 0)
      else if kind_is "err_dead_object" then ESentinel ErrDeadObject
      else if kind_is "err_failed_txn" then ESentinel ErrFailedTxn
      else if kind_is "err_bad_parcelable" then ESentinel ErrBadParcelable
      else if kind_is "err_permission_denied" then ESentinel ErrPermissionDenied
      else if kind_is "err_unsupported" then ESentinel ErrUnsupported
      else if kind_is "err_no_service" then ESentinel ErrNoService
      else if kind_is "err_closed" then ESentinel ErrClosed
      else if kind_is "err_unknown_transaction" then ESentinel ErrUnknownTransaction
      else EText (rec_Message e))%string
  end.

(** ** Copies *)

Definition cloneRecordedError (err : option RecordedError) : option RecordedError := err.

Definition cloneParcelObjects (objs : option (list ParcelObject)) : option (list ParcelObject) :=
  match default [] objs with [] => None | os => Some os end.

(** [append([]byte(nil), b...)] of a slice that may be nil. *)
Definition cloneBytes (b : option (list Z)) : option (list Z) := clone_bytes (default [] b).

Definition cloneTransactionRecord (r : TransactionRecord) : TransactionRecord :=
  mkRecord (tr_Descriptor r) (tr_Code r) (tr_Flags r)
    (cloneBytes (tr_RequestBytes r)) (cloneParcelObjects (tr_RequestObjects r))
    (cloneBytes (tr_ReplyBytes r)) (cloneParcelObjects (tr_ReplyObjects r))
    (cloneRecordedError (tr_Error r)).

Definition Records (r : option TransactionRecorder) : list TransactionRecord :=
  match r with None => [] | Some r => cloneTransactionRecord <$> recorder_records r end.

Definition Recorder_Descriptor (r : option TransactionRecorder) : string :=
  match r with None => "" | Some r => recorder_descriptor r end.

(** ** Element by element comparison of slices *)

Fixpoint equal_from {A} `{EqDecision A} (a b : list A) : bool :=
  match a, b with
  | x :: a', y :: b' => if bool_decide (x ≠ y) then false else equal_from a' b'
  | _, _ => true
  end.

Definition equalParcelBytes (a b : option (list Z)) : bool :=
  if negb (len (default [] a) =? len (default [] b)) then false
  else equal_from (default [] a) (default [] b).

Definition equalParcelObjects (a b : option (list ParcelObject)) : bool :=
  if negb (len (default [] a) =? len (default [] b)) then false
  else equal_from (default [] a) (default [] b).

Section Binders.
Context {W B : Type}.
Implicit Types (w : W) (p : Parcel W B).

Definition cloneParcel (parcel : option (Parcel W B)) : option (list Z) * option (list ParcelObject) :=
  match parcel with None => (None, None) | Some _ => (Bytes parcel, Objects parcel) end.

(** The target's two methods the recorder calls. *)
Record Target := mkTarget {
  t_Transact : Transactor W B;
  t_Descriptor : option context → HM (W:=W) string;
}.

(** [recordingBinder]: the recorder is the one object its owner also reads. *)
Record recordingBinder := mkRecording { rb_target : option Target; rb_recorder : TransactionRecorder }.

Definition NewRecordingBinder (target : option Target) (recorder : option TransactionRecorder)
  : recordingBinder := mkRecording target (default NewTransactionRecorder recorder).

Definition setDescriptor (desc : string) (r : TransactionRecorder) : TransactionRecorder :=
  if String.eqb (recorder_descriptor r) "" then mkRecorder desc (recorder_records r) else r.

Definition recording_Descriptor (ctx : option context) (b : recordingBinder) (w : W)
  : res string * (recordingBinder * W) :=
  match rb_target b with
  | None => (Err (ESentinel ErrUnsupported), (b, w))
  | Some t =>
      let '(r, w') := t_Descriptor t ctx w in
      match r with
      | Ok desc => (Ok desc, (mkRecording (rb_target b) (setDescriptor desc (rb_recorder b)), w'))
      | _ => (r, (b, w'))
      end
  end.

(** The reply and the error of a Go call: exactly one of them is set. *)
Definition reply_of (r : res (Reply (W:=W) (B:=B))) : Reply (W:=W) (B:=B) :=
  match r with Ok x => x | _ => None end.
Definition error_of {A} (r : res A) : option error :=
  match r with Err e => Some e | _ => None end.

Definition recording_Transact (ctx : option context) (code : Z) (data : option (Parcel W B)) (fl : Z)
    (b : recordingBinder) (w : W) : res (Reply (W:=W) (B:=B)) * (recordingBinder * W) :=
  match rb_target b with
  | None => (Err (ESentinel ErrUnsupported), (b, w))
  | Some t =>
      let '(requestBytes, requestObjects) := cloneParcel data in
      let '(r, w1) := t_Transact t ctx code data fl w in
      match r with
      | Panic y => (Panic y, (b, w1))
      | _ =>
          let '(replyBytes, replyObjects) := cloneParcel (reply_of r) in
          let '(d, (b2, w2)) := recording_Descriptor (Some Background) b w1 in
          match d with
          | Panic y => (Panic y, (b2, w2))
          | _ =>
              let descriptor := match d with Ok s => s | _ => ""%string end in
              let rcd := setDescriptor descriptor (rb_recorder b2) in
              let record := mkRecord descriptor code fl requestBytes requestObjects replyBytes
                              replyObjects (captureRecordedError (error_of r)) in
              (r, (mkRecording (rb_target b2)
                     (mkRecorder (recorder_descriptor rcd) (recorder_records rcd ++ [record])), w2))
          end
      end
  end.

(** ** Replay *)

Record replayBinder := mkReplay {
  rp_descriptor : string; rp_records : list TransactionRecord; rp_index : Z;
}.

Definition NewReplayBinder (records : list TransactionRecord) : replayBinder :=
  let copied := cloneTransactionRecord <$> records in
  let descriptor := foldl (λ d r, if String.eqb d "" && negb (String.eqb (tr_Descriptor r) "")
                                  then tr_Descriptor r else d) ""%string copied in
  mkReplay (if String.eqb descriptor "" then "replay" else descriptor)%string copied 0.

Definition replay_Transact (code : Z) (data : option (Parcel W B)) (fl : Z) (b : replayBinder)
  : res (Reply (W:=W) (B:=B)) * replayBinder :=
  let '(requestBytes, requestObjects) := cloneParcel data in
  if rp_index b >=? len (rp_records b) then (Err (ESentinel ErrUnsupported), b)
  else
    match rp_records b !! Z.to_nat (rp_index b) with
    | None => (Panic "index out of range", b)
    | Some r =>
        let record := cloneTransactionRecord r in
        let b' := mkReplay (rp_descriptor b) (rp_records b) (rp_index b + 1) in
        if negb (tr_Code record =? code) || negb (tr_Flags record =? fl)
           || negb (equalParcelBytes (tr_RequestBytes record) requestBytes)
           || negb (equalParcelObjects (tr_RequestObjects record) requestObjects)
        then (Err (Errorf_w ErrBadParcelable
                ("replay mismatch for " +:+ rp_descriptor b +:+ " code=" +:+ pretty code)%string), b')
        else
          match recorded_replay (tr_Error record) with
          | Some e => (Err e, b')
          | None =>
              match tr_ReplyBytes record, tr_ReplyObjects record with
              | None, None => (Ok None, b')
              | _, _ => (Ok (NewParcelWire (default [] (tr_ReplyBytes record))
                               (default [] (tr_ReplyObjects record))), b')
              end
          end
    end.
End Binders.
Arguments Target W B : clear implicits.
Arguments recordingBinder W B : clear implicits.

(** ** Errors: recordings and RPC frames carry the same *)

Definition as_frame (r : RecordedError) : rpcFrameError :=
  mkFrameError (rec_Kind r) (rec_Message r) (rec_StatusCode r) (rec_ExceptionCode r).

Lemma capture_as_frame err : as_frame <$> captureRecordedError err = captureRPCFrameError err.
Proof.
  destruct err as [e|]; [|done]. cbn. f_equal. destruct (errors_As_StatusCode e); [done|].
  destruct (errors_As_Remote e); [done|]. by repeat case_match.
Qed.

Lemma replay_as_frame r : recorded_replay r = replay (as_frame <$> r).
Proof. by destruct r. Qed.

Lemma recorded_same_error e :
  ∃ e', recorded_replay (captureRecordedError (Some e)) = Some e' ∧ same_error e e'.
Proof. rewrite replay_as_frame, capture_as_frame. apply replay_same_error. Qed.

(** ** Copies *)

Lemma cloneBytes_idem b : cloneBytes (cloneBytes b) = cloneBytes b.
Proof. by destruct b as [[|]|]. Qed.

Lemma cloneParcelObjects_idem o : cloneParcelObjects (cloneParcelObjects o) = cloneParcelObjects o.
Proof. by destruct o as [[|]|]. Qed.

Lemma cloneTransactionRecord_idem r :
  cloneTransactionRecord (cloneTransactionRecord r) = cloneTransactionRecord r.
Proof.
  unfold cloneTransactionRecord. cbn. by rewrite !cloneBytes_idem, !cloneParcelObjects_idem.
Qed.

Lemma equal_from_spec {A} `{EqDecision A} (a b : list A) :
  length a = length b → equal_from a b = bool_decide (a = b).
Proof.
  revert b. induction a as [|x a IH]; intros [|y b]; try done. cbn. intros [= Hl].
  case_bool_decide as E; symmetry.
  - apply bool_decide_eq_false. congruence.
  - rewrite IH by done. apply bool_decide_ext. destruct (decide (x = y)); naive_solver.
Qed.

Lemma equal_slices {A} `{EqDecision A} (a b : list A) :
  (if negb (len a =? len b) then false else equal_from a b) = bool_decide (a = b).
Proof.
  destruct (len a =? len b) eqn:E; bools; cbn.
  - apply equal_from_spec. lia.
  - symmetry. apply bool_decide_eq_false. by intros ->.
Qed.

Lemma equalParcelBytes_spec a b : equalParcelBytes a b = bool_decide (default [] a = default [] b).
Proof. apply equal_slices. Qed.
Lemma equalParcelObjects_spec a b : equalParcelObjects a b = bool_decide (default [] a = default [] b).
Proof. apply equal_slices. Qed.

Section Replay.
Context {W B : Type}.
Implicit Types (w : W) (p : Parcel W B) (b : recordingBinder W B).

(** A clone of a Parcel's slices is not copied again. *)
Lemma cloneParcel_fixed (x : option (Parcel W B)) :
  cloneBytes (cloneParcel x).1 = (cloneParcel x).1 ∧
  cloneParcelObjects (cloneParcel x).2 = (cloneParcel x).2.
Proof.
  destruct x as [p|]; [|done]. cbn. unfold Bytes, Objects.
  split; [by destruct (buf p)|by destruct (objects p)].
Qed.

(** The wire length of an object does not change when it is taken again. *)
Lemma wireObjectLength_idem k n : wireObjectLength k (wireObjectLength k n) = wireObjectLength k n.
Proof. unfold wireObjectLength. destruct k; repeat case_match; bools; try done; lia. Qed.

(** What the replayed reply is built from. *)
Lemma wire_copy (b : option (list Z)) (o : option (list ParcelObject)) :
  Bytes (NewParcelWire (W:=W) (B:=B) (default [] b) (default [] o)) = cloneBytes b.
Proof. done. Qed.

Lemma Objects_wire_copy (bs : list Z) p :
  Objects (NewParcelWire (W:=W) (B:=B) bs (default [] (Objects (Some p)))) = Objects (Some p).
Proof.
  unfold NewParcelWire, SetWireData, Objects. cbn.
  destruct (objects p) as [|o os]; [done|]. cbn. f_equal. f_equal.
  - unfold objectOfRef, refOfObject. cbn. by rewrite !wireObjectLength_idem.
  - rewrite <- list_fmap_compose. rewrite <- list_fmap_compose. apply list_fmap_ext. intros i x _. cbn.
    unfold objectOfRef, refOfObject. cbn. by rewrite !wireObjectLength_idem.
Qed.

(** A client: the calls it makes, with or without a recorder between. *)
Definition recorded_call : Type := option context * Z * option (Parcel W B) * Z.

Fixpoint run_recording (calls : list recorded_call) b w
  : list (res (Reply (W:=W) (B:=B))) * (recordingBinder W B * W) :=
  match calls with
  | [] => ([], (b, w))
  | (ctx, code, data, fl) :: rest =>
      let '(r, (b1, w1)) := recording_Transact ctx code data fl b w in
      match r with
      | Panic _ => ([r], (b1, w1))
      | _ => let '(rs, s) := run_recording rest b1 w1 in (r :: rs, s)
      end
  end.

Fixpoint run_replay (calls : list recorded_call) (b : replayBinder)
  : list (res (Reply (W:=W) (B:=B))) * replayBinder :=
  match calls with
  | [] => ([], b)
  | (_, code, data, fl) :: rest =>
      let '(r, b1) := replay_Transact code data fl b in
      let '(rs, b2) := run_replay rest b1 in (r :: rs, b2)
  end.

(** The answers of a recorded and of a replayed call. *)
Definition answer_like (r r' : res (Reply (W:=W) (B:=B))) : Prop :=
  match r, r' with
  | Ok x, Ok x' => Bytes x' = Bytes x ∧ Objects x' = Objects x ∧ Position x' = 0
  | Err e, Err e' => same_error e e'
  | _, _ => False
  end.

(** The record one call leaves. *)
Definition record_of (desc : string) (c : recorded_call) (r : res (Reply (W:=W) (B:=B))) : TransactionRecord :=
  let '(_, code, data, fl) := c in
  mkRecord desc code fl (cloneParcel data).1 (cloneParcel data).2 (cloneParcel (reply_of r)).1
    (cloneParcel (reply_of r)).2 (captureRecordedError (error_of r)).

Definition not_panic {A} (r : res A) : Prop := match r with Panic _ => False | _ => True end.

Lemma recording_step ctx code data fl b w r b' w' :
  recording_Transact ctx code data fl b w = (r, (b', w')) → is_Some (rb_target b) → not_panic r →
  rb_target b' = rb_target b ∧
  ∃ desc, recorder_records (rb_recorder b') =
            recorder_records (rb_recorder b) ++ [record_of desc (ctx, code, data, fl) r].
Proof.
  unfold recording_Transact, recording_Descriptor. intros E [t Ht] Hp. rewrite Ht in E.
  destruct (cloneParcel data) as [rb ro] eqn:Ec.
  destruct (t_Transact t ctx code data fl w) as [r1 w1].
  destruct (cloneParcel (reply_of r1)) as [pb po] eqn:Ep.
  destruct (t_Descriptor t (Some Background) w1) as [d w2].
  destruct r1 as [x|e|y]; [| |by simplify_eq];
    destruct d as [desc|de|dy]; simplify_eq; try done; (split; [by rewrite ?Ht|]);
    eexists; cbn -[cloneParcel] in *; rewrite Ec, ?Ep; cbn; unfold setDescriptor; repeat case_match; try done; by simplify_eq/=.
Qed.

(** Answering a call from the record it left. *)
Lemma replay_step pre desc ctx code data fl r post d :
  not_panic r →
  ∃ r', replay_Transact code data fl
      (mkReplay d (pre ++ cloneTransactionRecord (record_of desc (ctx, code, data, fl) r) :: post)
         (len pre)) =
    (r', mkReplay d (pre ++ cloneTransactionRecord (record_of desc (ctx, code, data, fl) r) :: post)
           (len pre + 1)) ∧ answer_like r r'.
Proof.
  intros Hp. unfold replay_Transact. cbn [rp_index rp_records rp_descriptor].
  rewrite length_app, length_cons. zif. rewrite Nat2Z.id.
  rewrite list_lookup_middle by done. rewrite cloneTransactionRecord_idem.
  destruct (cloneParcel_fixed data) as [Eb Eo].
  destruct (cloneParcel_fixed (reply_of r)) as [Rb Ro].
  unfold cloneTransactionRecord, record_of.
  destruct (cloneParcel data) as [rb ro]. cbn in Eb, Eo |- *.
  rewrite Eb, Eo, Rb, Ro, equalParcelBytes_spec, equalParcelObjects_spec.
  rewrite !Z.eqb_refl, !bool_decide_true by done. cbn. unfold cloneRecordedError.
  destruct r as [x|e|y]; [| |done]; cbn.
  - destruct x as [p|]; cbn; [|by eexists].
    pose proof (Objects_wire_copy (buf p) p) as HO.
    destruct (buf p) as [|z zs] eqn:Hz; cbn in *.
    + destruct (objects p) as [|o os] eqn:Ho; cbn in *; eexists; (split; [done|]);
        cbn; rewrite ?Hz, ?Ho; done.
    + eexists. split; [done|]. cbn. rewrite ?Hz. by destruct (objects p).
  - destruct (recorded_same_error e) as (e' & He & Hs).
    unfold recorded_replay in He. cbn in He. simplify_eq. by eexists.
Qed.

(** A call that is not the recorded one is refused, and consumes the record. *)
Lemma replay_mismatch code (data : option (Parcel W B)) fl (b : replayBinder) r :
  0 <= rp_index b → rp_records b !! Z.to_nat (rp_index b) = Some r →
  (tr_Code r, tr_Flags r, default [] (tr_RequestBytes r), default [] (tr_RequestObjects r)) ≠
  (code, fl, default [] (cloneParcel data).1, default [] (cloneParcel data).2) →
  ∃ m, replay_Transact code data fl b =
    (Err (Errorf_w ErrBadParcelable m), mkReplay (rp_descriptor b) (rp_records b) (rp_index b + 1)).
Proof.
  intros H0 Hr Hne. unfold replay_Transact. destruct (cloneParcel data) as [rb ro]. cbn in Hne.
  pose proof (lookup_lt_Some _ _ _ Hr). zif. rewrite Hr. cbn.
  rewrite equalParcelBytes_spec, equalParcelObjects_spec.
  destruct (tr_Code r =? code) eqn:Ec; [|by eexists]. destruct (tr_Flags r =? fl) eqn:Ef; [|by eexists].
  cbn. unfold cloneBytes, cloneParcelObjects.
  case_bool_decide as E1; [|by eexists]. case_bool_decide as E2; [|by eexists].
  destruct Hne. bools. f_equal; [f_equal; [congruence|]|].
  - rewrite <- E1. by destruct (default [] (tr_RequestBytes r)).
  - rewrite <- E2. by destruct (default [] (tr_RequestObjects r)).
Qed.

Definition recorded (c : recorded_call) (r : res (Reply (W:=W) (B:=B))) (rec : TransactionRecord) : Prop :=
  ∃ desc, rec = record_of desc c r.

Lemma recording_run calls b w rs b' w' :
  run_recording calls b w = (rs, (b', w')) → is_Some (rb_target b) → Forall not_panic rs →
  ∃ recs, recorder_records (rb_recorder b') = recorder_records (rb_recorder b) ++ recs ∧
          Forall3 recorded calls rs recs.
Proof.
  revert b w rs. induction calls as [|[[[ctx code] data] fl] calls IH]; intros b w rs; cbn.
  { intros E _ _. simplify_eq. exists []. split; [by rewrite app_nil_r|constructor]. }
  destruct (recording_Transact ctx code data fl b w) as [r [b1 w1]] eqn:E. intros Hrun Ht Hp.
  assert (Hr : not_panic r).
  { destruct r; try done. simplify_eq. by inversion Hp. }
  destruct (recording_step _ _ _ _ _ _ _ _ _ E Ht Hr) as (Ht1 & desc & Hrec).
  destruct (run_recording calls b1 w1) as [rs1 [b2 w2]] eqn:E1.
  assert (rs = r :: rs1 ∧ b' = b2 ∧ w' = w2) as (-> & -> & ->) by (destruct r; by simplify_eq).
  inversion Hp; subst. destruct (IH _ _ _ E1) as (recs & -> & HF); [by rewrite Ht1|done|].
  eexists. rewrite Hrec, <- app_assoc. split; [done|]. constructor; [by eexists|done].
Qed.

Lemma replay_run calls rs recs : Forall3 recorded calls rs recs → Forall not_panic rs →
  ∀ pre d, let all := pre ++ (cloneTransactionRecord <$> recs) in
  ∃ rs', run_replay calls (mkReplay d all (len pre)) = (rs', mkReplay d all (len all)) ∧
         Forall2 answer_like rs rs'.
Proof.
  induction 1 as [|[[[ctx code] data] fl] r rec calls rs recs [desc ->] HF IH]; intros Hp pre d; cbn zeta.
  { rewrite fmap_nil, app_nil_r. by exists []. }
  inversion Hp; subst. rewrite fmap_cons. cbn [run_replay].
  destruct (replay_step pre desc ctx code data fl r (cloneTransactionRecord <$> recs) d) as (r' & -> & Hr);
    [done|].
  destruct (IH ltac:(done) (pre ++ [cloneTransactionRecord (record_of desc (ctx, code, data, fl) r)]) d)
    as (rs' & E & HF2).
  rewrite <- app_assoc in E. cbn [app] in E. rewrite length_app in E. cbn [length] in E.
  replace (len pre + 1) with (Z.of_nat (length pre + 1)) by lia. rewrite E.
  exists (r' :: rs'). split; [done|]. by constructor.
Qed.

(** C18: a recording replays: whatever calls a client made through a recording
    Binder (none of them panicking), the same calls on a replay of the records
    get the same answers in the same order, replies with the same bytes and
    objects ready to be read from the start, errors with the same meaning; one
    more call finds the recording used up and is refused. *)
Theorem replay_reproduces (t : Target W B) calls w rs b w' :
  run_recording calls (NewRecordingBinder (Some t) None) w = (rs, (b, w')) → Forall not_panic rs →
  ∃ rs' rb, run_replay calls (NewReplayBinder (Records (Some (rb_recorder b)))) = (rs', rb) ∧
    Forall2 answer_like rs rs' ∧
    ∀ code data fl, replay_Transact (W:=W) (B:=B) code data fl rb = (Err (ESentinel ErrUnsupported), rb).
Proof.
  intros E Hp. destruct (recording_run _ _ _ _ _ _ E) as (recs & Hrec & HF); [by eexists|done|].
  unfold NewReplayBinder, Records. rewrite <- list_fmap_compose.
  rewrite (list_fmap_ext _ cloneTransactionRecord)
    by (intros; apply cloneTransactionRecord_idem).
  rewrite Hrec. cbn [NewRecordingBinder rb_recorder default NewTransactionRecorder recorder_records app].
  match goal with |- context [mkReplay ?d _ _] => destruct (replay_run _ _ _ HF Hp [] d) as (rs' & Erun & HF2) end.
  cbn [app length] in Erun. change (Z.of_nat 0) with 0 in Erun. rewrite Erun.
  do 2 eexists. split; [done|]. split; [done|]. intros. unfold replay_Transact. cbn.
  destruct (cloneParcel data). by rewrite Z.geb_leb, Z.leb_refl.
Qed.
End Replay.

(** A target that echoes its request, refuses code 2 and answers code 3 with an
    empty reply. *)
Definition demo_target : Target unit unit :=
  mkTarget (λ _ code data _ w,
      if code =? 2 then (Err (Errorf_w ErrBadParcelable "refused"), w)
      else if code =? 3 then (Ok (Some NewParcel), w) else (Ok data, w))
    (λ _ w, (Ok "demo"%string, w)).

Definition demo_calls : list (recorded_call (W:=unit) (B:=unit)) :=
  [(None, 1, NewParcelBytes [1; 2; 3; 4], 0); (None, 2, None, 0); (None, 3, Some NewParcel, 0)].

Lemma replay_reproduces_witness : ∃ rs b w' rs' rb,
  run_recording demo_calls (NewRecordingBinder (Some demo_target) None) tt = (rs, (b, w')) ∧
  run_replay demo_calls (NewReplayBinder (Records (Some (rb_recorder b)))) = (rs', rb) ∧
  Forall2 answer_like rs rs'.
Proof.
  destruct (run_recording demo_calls (NewRecordingBinder (Some demo_target) None) tt) as [rs [b w']] eqn:E.
  destruct (replay_reproduces demo_target demo_calls tt rs b w' E) as (rs' & rb & H1 & H2 & _).
  - vm_compute in E. injection E as <- <- <-. repeat constructor.
  - by exists rs, b, w', rs', rb.
Defined.

(** The third answer of the demo: the empty reply of the recorded call is a nil
    reply when it is replayed. *)
Lemma empty_reply_replays_as_nil :
  let '(rs, (b, _)) := run_recording demo_calls (NewRecordingBinder (Some demo_target) None) tt in
  rs !! 2%nat = Some (Ok (Some NewParcel)) ∧
  (run_replay demo_calls (NewReplayBinder (Records (Some (rb_recorder b))))).1 !! 2%nat = Some (Ok None).
Proof. by vm_compute. Qed.
