(* ===== verification/Driver.v ===== *)
(** * Driver: commands of the binder device

    Models src/internal/kernel/uapi_64.go (the command numbers and the structures
    shared with the kernel on a 64-bit little-endian machine), driver.go,
    driver_linux.go and driver_uapi_64.go (the DriverManager and the commands it
    writes).  The kernel is a parameter, [BinderDevice]: the ioctl, the memory it
    shows to the process and the memory of the process it may read. *)

From stdpp Require Import base list numbers strings pretty.
From S2P Require Import Prelude Errors Parcel Death.

Open Scope Z_scope.

(** ** src/internal/kernel/uapi_64.go *)

Definition TFOneWay : Z := 1.
Definition TFRootObj : Z := 4.
Definition TFStatus : Z := 8.
Definition TFAcceptFD : Z := 16.
Definition TFClearBuf : Z := 32.
Definition TFUpdateTX : Z := 64.

Definition iocNRBits : Z := 8.
Definition iocTypeBits : Z := 8.
Definition iocSizeBits : Z := 14.
Definition iocNRShift : Z := 0.
Definition iocTypeShift : Z := iocNRShift + iocNRBits.
Definition iocSizeShift : Z := iocTypeShift + iocTypeBits.
Definition iocDirShift : Z := iocSizeShift + iocSizeBits.
Definition iocNone : Z := 0.
Definition iocWrite : Z := 1.
Definition iocRead : Z := 2.

(** Sizes of the structures, in bytes. *)
Definition binderTransactionDataSize : Z := 64.
Definition binderPtrCookieSize : Z := 16.
Definition binderHandleCookieSize : Z := 12.

Definition ioc (dir typ nr size : Z) : Z :=
  Z.lor (Z.lor (Z.lor (Z.shiftl dir iocDirShift) (Z.shiftl typ iocTypeShift))
    (Z.shiftl nr iocNRShift)) (Z.shiftl size iocSizeShift).

Definition BC (nr size : Z) : Z := ioc (if size =? 0 then iocNone else iocWrite) 99 nr size.  (* 'c' *)
Definition BR (nr size : Z) : Z := ioc (if size =? 0 then iocNone else iocRead) 114 nr size.  (* 'r' *)

Definition BCTransaction : Z := BC 0 binderTransactionDataSize.
Definition BCReply : Z := BC 1 binderTransactionDataSize.
Definition BCFreeBuffer : Z := BC 3 8.
Definition BCIncRefs : Z := BC 4 4.
Definition BCAcquire : Z := BC 5 4.
Definition BCRelease : Z := BC 6 4.
Definition BCDecRefs : Z := BC 7 4.
Definition BCIncRefsDone : Z := BC 8 binderPtrCookieSize.
Definition BCAcquireDone : Z := BC 9 binderPtrCookieSize.
Definition BCEnterLooper : Z := BC 12 0.
Definition BCRequestDeathNotification : Z := BC 14 binderHandleCookieSize.
Definition BCClearDeathNotification : Z := BC 15 binderHandleCookieSize.
Definition BCDeadBinderDone : Z := BC 16 8.

Definition BRError : Z := BR 0 4.
Definition BRTransaction : Z := BR 2 binderTransactionDataSize.
Definition BRReply : Z := BR 3 binderTransactionDataSize.
Definition BRDeadReply : Z := BR 5 0.
Definition BRTransactionComplete : Z := BR 6 0.
Definition BRIncRefs : Z := BR 7 binderPtrCookieSize.
Definition BRAcquire : Z := BR 8 binderPtrCookieSize.
Definition BRRelease : Z := BR 9 binderPtrCookieSize.
Definition BRDecRefs : Z := BR 10 binderPtrCookieSize.
Definition BRNoop : Z := BR 12 0.
Definition BRSpawnLooper : Z := BR 13 0.
Definition BRFinished : Z := BR 14 0.
Definition BRDeadBinder : Z := BR 15 8.
Definition BRClearDeathNotificationDone : Z := BR 16 8.
Definition BRFailedReply : Z := BR 17 0.

Definition BinderTypeBinder : Z := packChars 115 98 42 133.
Definition BinderTypeWeakBinder : Z := packChars 119 98 42 133.
Definition BinderTypeHandle : Z := packChars 115 104 42 133.
Definition BinderTypeWeakHandle : Z := packChars 119 104 42 133.
Definition BinderTypeFD : Z := packChars 102 100 42 133.

(** The buffers are what the pointers of the structure lead to. *)
Record BinderWriteRead := mkBWR {
  bwr_WriteSize : Z; bwr_WriteConsumed : Z; bwr_WriteBuffer : list Z;
  bwr_ReadSize : Z; bwr_ReadConsumed : Z; bwr_ReadBuffer : list Z;
}.

Record BinderTransactionData := mkTD {
  td_Target : Z; td_Cookie : Z; td_Code : Z; td_Flags : Z;
  td_SenderPID : Z; td_SenderEUID : Z; td_DataSize : Z; td_OffsetsSize : Z;
  td_DataBuffer : Z; td_DataOffsets : Z;
}.

Record BinderPtrCookie := mkPtrCookie { pc_Ptr : Z; pc_Cookie : Z }.

Definition zeroTD : BinderTransactionData := mkTD 0 0 0 0 0 0 0 0 0 0.

Definition SetTargetHandle (handle : Z) (t : BinderTransactionData) : BinderTransactionData :=
  mkTD handle (td_Cookie t) (td_Code t) (td_Flags t) (td_SenderPID t) (td_SenderEUID t)
    (td_DataSize t) (td_OffsetsSize t) (td_DataBuffer t) (td_DataOffsets t).

Definition TargetHandle (t : BinderTransactionData) : Z := u32 (td_Target t).

(** [MarshalBinary] copies the structure out of memory. *)
Definition MarshalBinary (t : BinderTransactionData) : list Z :=
  le_bytes 8 (td_Target t) ++ le_bytes 8 (td_Cookie t) ++ le_bytes 4 (td_Code t) ++
  le_bytes 4 (td_Flags t) ++ le_bytes 4 (u32 (td_SenderPID t)) ++ le_bytes 4 (td_SenderEUID t) ++
  le_bytes 8 (td_DataSize t) ++ le_bytes 8 (td_OffsetsSize t) ++ le_bytes 8 (td_DataBuffer t) ++
  le_bytes 8 (td_DataOffsets t).

Definition UnmarshalBinary (data : list Z) : res BinderTransactionData :=
  if len data <? binderTransactionDataSize
  then Err (EText ("kernel: short binder transaction data: have " +:+ pretty (len data) +:+ " want 64")%string)
  else
    let at_ o n := le_num (slice data o (o + n)) in
    Ok (mkTD (at_ 0 8) (at_ 8 8) (at_ 16 4) (at_ 20 4) (i32 (at_ 24 4)) (at_ 28 4)
          (at_ 32 8) (at_ 40 8) (at_ 48 8) (at_ 56 8)).

(** ** The device *)

Inductive ioctl_result := IoOK | IoEINTR | IoErr (e : error).

(** The kernel and the memory it shares with the process: [dev_ioctl] is
    BINDER_WRITE_READ, [dev_peek] the bytes at an address ([None] where the memory is not
    mapped), [dev_pin] the address of a Go slice handed to the kernel, [dev_signals] bounds the interruptions of
    a system call still to come. *)
Class BinderDevice (K : Type) := {
  dev_ioctl : BinderWriteRead → K → ioctl_result * BinderWriteRead * K;
  dev_peek : Z → Z → K → option (list Z);
  dev_pin : list Z → K → Z * K;
  dev_signals : K → nat;
}.

Class BinderDeviceLaws (K : Type) `{BinderDevice K} := {
  dev_eintr b k b' k' : dev_ioctl b k = (IoEINTR, b', k') → (dev_signals k' < dev_signals k)%nat;
  dev_read b k b' k' : dev_ioctl b k = (IoOK, b', k') →
    0 <= bwr_ReadConsumed b' <= Z.max 0 (bwr_ReadSize b) ∧
    length (bwr_ReadBuffer b') = length (bwr_ReadBuffer b);
  dev_eintr_read b k b' k' : dev_ioctl b k = (IoEINTR, b', k') →
    bwr_ReadSize b' = bwr_ReadSize b ∧ length (bwr_ReadBuffer b') = length (bwr_ReadBuffer b);
  dev_pin_addr bs k : in_u 64 (dev_pin bs k).1;
}.

Section Driver.
Context {K W : Type} `{!BinderDevice K}.

(** The DriverManager ([file] is set or nil), the device, the death registry it
    notifies and the world of the user's handlers.  [kw_log] is not in the
    source: the buffers written to the device, oldest first. *)
Record KW := mkKW {
  kw_opened : bool; kw_file : bool; kw_mmap : bool; kw_deaths : option deathRegistry;
  kw_dev : K; kw_user : W; kw_log : list (list Z);
}.

Definition KM (A : Type) : Type := ST error KW A.

Definition set_dev (k : K) (s : KW) : KW :=
  mkKW (kw_opened s) (kw_file s) (kw_mmap s) (kw_deaths s) k (kw_user s) (kw_log s).
Definition set_deaths (d : deathRegistry) (s : KW) : KW :=
  mkKW (kw_opened s) (kw_file s) (kw_mmap s) (Some d) (kw_dev s) (kw_user s) (kw_log s).
Definition set_user (w : W) (s : KW) : KW :=
  mkKW (kw_opened s) (kw_file s) (kw_mmap s) (kw_deaths s) (kw_dev s) w (kw_log s).
Definition log_write (bs : list Z) (s : KW) : KW :=
  mkKW (kw_opened s) (kw_file s) (kw_mmap s) (kw_deaths s) (kw_dev s) (kw_user s)
    (kw_log s ++ [bs]).

(** ** Opening and closing

    What the process holds of the device: open descriptors and mappings.  On
    Linux close(2) releases the descriptor whatever it answers; a munmap that
    fails leaves the mapping. *)
Record OS := mkOS { os_files : nat; os_maps : nat }.

Definition os_close (os : OS) : OS := mkOS (pred (os_files os)) (os_maps os).

(** [opened] and [mapped] are the answers of the open and mmap system calls; the
    file is open between them. *)
Definition openPlatform (opened mapped : option error) (os : OS) (s : KW) : option error * OS * KW :=
  match opened with
  | Some e => (Some e, os, s)
  | None =>
      let os := mkOS (S (os_files os)) (os_maps os) in
      match mapped with
      | Some e => (Some e, os_close os, s)
      | None => (None, mkOS (os_files os) (S (os_maps os)),
                 mkKW true true true (kw_deaths s) (kw_dev s) (kw_user s) (kw_log s))
      end
  end.

Definition Open (opened mapped : option error) (os : OS) (s : KW) : option error * OS * KW :=
  if kw_opened s then (None, os, s) else openPlatform opened mapped os s.

(** [unmapped] and [closed] are the answers of munmap and close. *)
Definition closePlatform (unmapped closed : option error) (os : OS) (s : KW) : option error * OS * KW :=
  let '(e1, os1) :=
    if kw_mmap s
    then (unmapped, match unmapped with Some _ => os | None => mkOS (os_files os) (pred (os_maps os)) end)
    else (None, os) in
  let '(e2, os2) :=
    if kw_file s then (match e1 with Some _ => e1 | None => closed end, os_close os1) else (e1, os1) in
  (e2, os2, mkKW false false false (kw_deaths s) (kw_dev s) (kw_user s) (kw_log s)).

Definition Driver_Close (unmapped closed : option error) (os : OS) (s : KW) : option error * OS * KW :=
  if negb (kw_opened s) then (None, os, s) else closePlatform unmapped closed os s.

Definition closed_driver (s : KW) : bool := negb (kw_opened s) || negb (kw_file s).

(** ** src/internal/kernel/driver_uapi_64.go *)

Definition Ioctl (bwr : BinderWriteRead) (s : KW) : ioctl_result * BinderWriteRead * KW :=
  if closed_driver s then (IoErr (ESentinel ErrDriverClosed), bwr, s)
  else let '(r, b, k) := dev_ioctl bwr (kw_dev s) in (r, b, set_dev k s).

(** The retry loop of [WriteRead], at most once per interruption to come. *)
Fixpoint write_read (fuel : nat) (bwr : BinderWriteRead) : KM BinderWriteRead := λ s,
  match fuel with
  | O => (Panic "interrupted forever", s)
  | S f =>
      match Ioctl bwr s with
      | (IoEINTR, b, s') => write_read f b s'
      | (IoErr e, b, s') => (Err e, s')
      | (IoOK, b, s') => (Ok b, s')
      end
  end.

Definition WriteRead (bwr : BinderWriteRead) : KM BinderWriteRead := λ s,
  write_read (S (dev_signals (kw_dev s))) bwr s.

Definition WriteCommand (cmd : Z) (payload : list Z) (readLen : Z) : KM BinderWriteRead := λ s,
  if closed_driver s then (Err (ESentinel ErrDriverClosed), s)
  else
    let writeBuf := le_bytes 4 cmd ++ payload in
    let bwr := mkBWR (len writeBuf) 0 writeBuf readLen 0 (zeros readLen) in
    WriteRead bwr (log_write writeBuf s).

Definition Read (readLen : Z) : KM BinderWriteRead := λ s,
  if closed_driver s then (Err (ESentinel ErrDriverClosed), s)
  else if readLen =? 0 then (Err (EText "kernel: empty read buffer"), s)
  else WriteRead (mkBWR 0 0 [] readLen 0 (zeros readLen)) s.

(** [readBuf[:bwr.ReadConsumed]]. *)
Definition consumed (bwr : BinderWriteRead) : KM (list Z) :=
  if (bwr_ReadConsumed bwr <? 0) || (len (bwr_ReadBuffer bwr) <? bwr_ReadConsumed bwr)
  then panic "slice bounds out of range"
  else mret (slice (bwr_ReadBuffer bwr) 0 (bwr_ReadConsumed bwr)).

(** A command without a read buffer whose whole encoding must be consumed. *)
Definition write_exactly (what : string) (cmd : Z) (payload : list Z) : KM unit :=
  bwr ← WriteCommand cmd payload 0;
  let want := 4 + len payload in
  if negb (bwr_WriteConsumed bwr =? want)
  then throw (EText ("kernel: " +:+ what +:+ " consumed " +:+ pretty (bwr_WriteConsumed bwr) +:+
                     " bytes, want " +:+ pretty want)%string)
  else mret tt.

Definition EnterLooper : KM unit :=
  bwr ← WriteCommand BCEnterLooper [] 0;
  if negb (bwr_WriteConsumed bwr =? 0) && negb (bwr_WriteConsumed bwr =? 4)
  then throw (EText ("kernel: BC_ENTER_LOOPER consumed " +:+ pretty (bwr_WriteConsumed bwr) +:+
                     " bytes, want 0 or 4")%string)
  else mret tt.

Definition FreeBuffer (ptr : Z) : KM unit := write_exactly "BC_FREE_BUFFER" BCFreeBuffer (le_bytes 8 ptr).

Definition WriteHandleCommand (cmd handle : Z) : KM unit :=
  write_exactly ("handle command " +:+ hex cmd) cmd (le_bytes 4 handle).

Definition AcquireHandle (handle : Z) : KM unit :=
  WriteHandleCommand BCIncRefs handle;; WriteHandleCommand BCAcquire handle.

Definition ReleaseHandle (handle : Z) : KM unit :=
  WriteHandleCommand BCRelease handle;; WriteHandleCommand BCDecRefs handle.

Definition WriteHandleCookieCommand (cmd handle cookie : Z) : KM unit :=
  write_exactly ("handle/cookie command " +:+ hex cmd) cmd (le_bytes 4 handle ++ le_bytes 8 cookie).

Definition RequestDeathNotification (handle cookie : Z) : KM unit :=
  WriteHandleCookieCommand BCRequestDeathNotification handle cookie.

Definition ClearDeathNotification (handle cookie : Z) : KM unit :=
  WriteHandleCookieCommand BCClearDeathNotification handle cookie.

Definition WritePtrCookieCommand (cmd ptr cookie : Z) : KM unit :=
  write_exactly ("ptr/cookie command " +:+ hex cmd) cmd (le_bytes 8 ptr ++ le_bytes 8 cookie).

Definition WriteCookieCommand (cmd cookie : Z) : KM unit :=
  write_exactly ("cookie command " +:+ hex cmd) cmd (le_bytes 8 cookie).

Definition DeadBinderDone (cookie : Z) : KM unit := WriteCookieCommand BCDeadBinderDone cookie.

(** The death registry's notifications with the finishes they end with; a nil
    registry is skipped. *)
Definition run_finishes (fs : finishes) (d : deathRegistry) : deathRegistry :=
  foldl (λ d '(sub, e), finish sub e d) d fs.

Definition notify (f : deathRegistry → finishes * deathRegistry) : KM unit := λ s,
  match kw_deaths s with
  | None => (Ok tt, s)
  | Some d => let '(fs, d') := f d in (Ok tt, set_deaths (run_finishes fs d') s)
  end.

(** The commands that acknowledge one notification of the kernel. *)
Definition answer_refs (cmd ptr cookie : Z) : KM unit :=
  if cmd =? BRIncRefs then WritePtrCookieCommand BCIncRefsDone ptr cookie
  else if cmd =? BRAcquire then WritePtrCookieCommand BCAcquireDone ptr cookie
  else mret tt.

Definition answer_death (cmd cookie : Z) : KM unit :=
  if cmd =? BRDeadBinder then notify (NotifyDead cookie);; DeadBinderDone cookie
  else if cmd =? BRClearDeathNotificationDone then notify (NotifyCleared cookie)
  else mret tt.
End Driver.
Arguments KW K W : clear implicits.
