(* ===== verification/KernelTransact.v ===== *)
(** * KernelTransact: transactions over the binder device

    Models src/internal/kernel/transact.go, backend_transact.go and the command
    handling of looper_worker.go: outgoing transactions with the loop that reads
    their reply, the interpretation of the driver's responses, and incoming
    transactions dispatched to a local node and answered. *)

From stdpp Require Import base list numbers strings pretty.
From S2P Require Import Prelude Errors Unicode Parcel ParcelFacts Codec ObjectCodec Fields Slices Stability Dispatch Death Driver.

Open Scope Z_scope.

Definition binderFlatObjectSize : Z := 24.

(** ** Payloads *)

(** [parseTransactionObject].  [int(offset)] is [i64 offset]. *)
Definition parseTransactionObject (payload : list Z) (offset : Z) : res ParcelObject :=
  let start := i64 offset in
  if negb (u64 start =? offset)
  then Err (EText ("kernel: reply object offset out of range: " +:+ pretty offset)%string)
  else if (start <? 0) || (len payload - binderFlatObjectSize <? start)
  then Err (EText ("kernel: reply object offset " +:+ pretty offset +:+ " out of bounds")%string)
  else
    let typ := le_num (slice payload start (start + 4)) in
    let handle := le_num (slice payload (start + 8) (start + 12)) in
    let obj kind := Ok (mkObject kind start binderFlatObjectSize handle 0) in
    if typ =? BinderTypeBinder then obj ObjectStrongBinder
    else if typ =? BinderTypeWeakBinder then obj ObjectWeakBinder
    else if typ =? BinderTypeHandle then obj ObjectStrongBinder
    else if typ =? BinderTypeWeakHandle then obj ObjectWeakBinder
    else if typ =? BinderTypeFD then obj ObjectFileDescriptor
    else Err (Errorf_w ErrParcelObjects ("unsupported binder object type " +:+ hex typ)%string).

(** The largest allocation of the Go runtime on 64-bit Linux, and the size of a
    ParcelObject there. *)
Definition maxAlloc : Z := 2 ^ 48.
Definition parcelObjectSize : Z := 32.

(** A read of memory that is not mapped ends the process. *)
Definition fault : string := "unexpected fault address".

Section Transact.
Context {K W B : Type} `{!BinderDevice K}.

(** [unsafe.Slice] on a pointer of the transaction data: the slice is its address and
    length, nothing is read yet. *)
Definition unsafe_Slice (addr size : Z) : KM (K:=K) (W:=W) unit :=
  if (size <? 0) || (2 ^ 64 <? addr + size) then panic "unsafe.Slice: len out of range" else mret tt.

(** [make] of [n] elements of [elem] bytes. *)
Definition make_slice (what : string) (elem n : Z) : KM (K:=K) (W:=W) unit :=
  if maxAlloc <? elem * n then panic ("makeslice: " +:+ what +:+ " out of range") else mret tt.

Definition read_memory (addr size : Z) : KM (K:=K) (W:=W) (list Z) := λ s,
  (match dev_peek addr size (kw_dev s) with Some bs => Ok bs | None => Panic fault end, s).

(** The loop over the offsets array, eight bytes at a time. *)
Fixpoint parse_offsets (n : nat) (payload : list Z) (offsetSrc : Z) : KM (K:=K) (W:=W) (list ParcelObject) :=
  match n with
  | O => mret []
  | S n' =>
      offset ← read_memory offsetSrc 8;
      obj ← lift (parseTransactionObject payload (le_num offset));
      objs ← parse_offsets n' payload (offsetSrc + 8);
      mret (obj :: objs)
  end.

Definition parseTransactionObjects (payload : list Z) (tx : BinderTransactionData)
  : KM (K:=K) (W:=W) (list ParcelObject) :=
  if td_OffsetsSize tx =? 0 then mret []
  else if td_DataOffsets tx =? 0
  then throw (EText ("kernel: transaction offsets pointer is nil for " +:+ pretty (td_OffsetsSize tx) +:+ " bytes")%string)
  else if negb (td_OffsetsSize tx mod 8 =? 0)
  then throw (EText ("kernel: invalid transaction offsets size " +:+ pretty (td_OffsetsSize tx))%string)
  else
    let offsetsSize := i64 (td_OffsetsSize tx) in
    if negb (u64 offsetsSize =? td_OffsetsSize tx)
    then throw (EText ("kernel: transaction offsets too large: " +:+ pretty (td_OffsetsSize tx))%string)
    else unsafe_Slice (td_DataOffsets tx) offsetsSize;;
         make_slice "cap" parcelObjectSize (offsetsSize / 8);;
         parse_offsets (Z.to_nat (offsetsSize / 8)) payload (td_DataOffsets tx).

(** The bytes are nil when the transaction has none. *)
Definition copyTransactionPayload (tx : BinderTransactionData)
  : KM (K:=K) (W:=W) (option (list Z) * list ParcelObject) :=
  if td_DataSize tx =? 0 then mret (None, [])
  else if td_DataBuffer tx =? 0
  then throw (EText ("kernel: transaction buffer pointer is nil for " +:+ pretty (td_DataSize tx) +:+ " bytes")%string)
  else
    let size := i64 (td_DataSize tx) in
    if negb (u64 size =? td_DataSize tx)
    then throw (EText ("kernel: transaction payload too large: " +:+ pretty (td_DataSize tx))%string)
    else unsafe_Slice (td_DataBuffer tx) size;;
         make_slice "len" 1 size;;
         out ← read_memory (td_DataBuffer tx) size;
         if td_OffsetsSize tx =? 0 then mret (Some out, [])
         else objs ← parseTransactionObjects out tx; mret (Some out, objs).

Definition pin (bs : list Z) : KM (K:=K) (W:=W) Z := λ s,
  let '(a, k) := dev_pin bs (kw_dev s) in (Ok a, set_dev k s).

Definition setTransactionPayload (tx : BinderTransactionData) (payload offsets : option (list Z))
  : KM (K:=K) (W:=W) BinderTransactionData :=
  let p := default [] payload in
  let o := default [] offsets in
  tx1 ← (if 0 <? len p
         then a ← pin p;
              mret (mkTD (td_Target tx) (td_Cookie tx) (td_Code tx) (td_Flags tx) (td_SenderPID tx)
                      (td_SenderEUID tx) (len p) (td_OffsetsSize tx) a (td_DataOffsets tx))
         else mret tx);
  if 0 <? len o
  then a ← pin (o ≫= le_bytes 8);
       mret (mkTD (td_Target tx1) (td_Cookie tx1) (td_Code tx1) (td_Flags tx1) (td_SenderPID tx1)
               (td_SenderEUID tx1) (td_DataSize tx1) (len o * 8) (td_DataBuffer tx1) a)
  else mret tx1.

Definition acquire_object (obj : ParcelObject) : KM (K:=K) (W:=W) unit :=
  match obj_Kind obj with
  | ObjectStrongBinder => AcquireHandle (obj_Handle obj)
  | _ => mret tt
  end.

Fixpoint acquireParcelObjects (objs : list ParcelObject) : KM (K:=K) (W:=W) unit :=
  match objs with
  | [] => mret tt
  | obj :: rest => acquire_object obj;; acquireParcelObjects rest
  end.

Definition containsCommand (commands : list Z) (want : Z) : bool :=
  existsb (λ cmd, cmd =? want) commands.

Definition commandName (cmd : Z) : string :=
  if cmd =? BRNoop then "BR_NOOP"
  else if cmd =? BRTransactionComplete then "BR_TRANSACTION_COMPLETE"
  else if cmd =? BRIncRefs then "BR_INCREFS"
  else if cmd =? BRAcquire then "BR_ACQUIRE"
  else if cmd =? BRRelease then "BR_RELEASE"
  else if cmd =? BRDecRefs then "BR_DECREFS"
  else if cmd =? BRSpawnLooper then "BR_SPAWN_LOOPER"
  else if cmd =? BRFinished then "BR_FINISHED"
  else if cmd =? BRDeadBinder then "BR_DEAD_BINDER"
  else if cmd =? BRClearDeathNotificationDone then "BR_CLEAR_DEATH_NOTIFICATION_DONE"
  else if cmd =? BRReply then "BR_REPLY"
  else if cmd =? BRError then "BR_ERROR"
  else if cmd =? BRDeadReply then "BR_DEAD_REPLY"
  else if cmd =? BRFailedReply then "BR_FAILED_REPLY"
  else hex cmd.

Definition commandNames (commands : list Z) : list string := commandName <$> commands.

(** ** Answers to incoming transactions *)

Definition with_flags (fl : Z) (tx : BinderTransactionData) : BinderTransactionData :=
  mkTD (td_Target tx) (td_Cookie tx) (td_Code tx) fl (td_SenderPID tx) (td_SenderEUID tx)
    (td_DataSize tx) (td_OffsetsSize tx) (td_DataBuffer tx) (td_DataOffsets tx).

Definition maxUint32 : Z := 4294967295.

Definition sendReply (reply : option (Parcel W B)) (fl : Z) : KM (K:=K) (W:=W) unit :=
  let tx := with_flags fl (SetTargetHandle maxUint32 zeroTD) in
  let '(payload, offsets) := KernelWireData reply in
  tx' ← setTransactionPayload tx payload offsets;
  write_exactly "BC_REPLY" BCReply (MarshalBinary tx').

Definition sendStatusReply (code fl : Z) : KM (K:=K) (W:=W) unit :=
  let payload := le_bytes 4 (u32 code) in
  let tx := with_flags (Z.lor TFStatus (Z.land fl TFClearBuf)) (SetTargetHandle maxUint32 zeroTD) in
  tx' ← setTransactionPayload tx (Some payload) None;
  write_exactly "BC_REPLY(status)" BCReply (MarshalBinary tx').

(** ** Incoming transactions: [handleTransaction] of the looper; the function of
    the client thread is the same. *)

Context (pid : Z) (locals : localRegistry W B).
Context (binderResolver localResolver : option (Z → W → option B * W)).
Context (binderObjectResolver : option (ParcelObject → W → option B * W))
        (localObjectResolver : option (ParcelObject → Z → W → option B * W)).

(** Run a handler on the user's world. *)
Definition on_user {A} (m : W → res A * W) : KM (K:=K) (W:=W) (res A) := λ s,
  let '(r, w) := m (kw_user s) in
  match r with
  | Panic y => (Panic y, set_user w s)
  | _ => (Ok r, set_user w s)
  end.

(** [defer func() { _ = FreeBuffer(...) }()]. *)
Definition defer_free (tx : BinderTransactionData) (m : KM (K:=K) (W:=W) unit) : KM (K:=K) (W:=W) unit :=
  if td_DataBuffer tx =? 0 then m
  else λ s, let '(r, s1) := m s in
            let '(_, s2) := FreeBuffer (td_DataBuffer tx) s1 in (r, s2).

(** A computation's error as a value. *)
Definition try_k {A} (m : KM (K:=K) (W:=W) A) : KM (K:=K) (W:=W) (A + error) := λ s,
  match m s with
  | (Ok a, s') => (Ok (inl a), s')
  | (Err e, s') => (Ok (inr e), s')
  | (Panic y, s') => (Panic y, s')
  end.

Definition oneway_tx (tx : BinderTransactionData) : bool := negb (Z.land (td_Flags tx) TFOneWay =? 0).

(** The request was refused before it was dispatched. *)
Definition refuse (tx : BinderTransactionData) (err : error) : KM (K:=K) (W:=W) unit :=
  if oneway_tx tx then throw err
  else sendStatusReply (statusCodeFromError (Some err)) (Z.land (td_Flags tx) TFClearBuf).

Definition request_parcel (bytes : option (list Z)) (objs : list ParcelObject) : option (Parcel W B) :=
  SetBinderObjectResolvers binderObjectResolver localObjectResolver
    (SetBinderResolvers binderResolver localResolver (NewParcelWire (default [] bytes) objs)).

Definition handleTransaction (ctx : option context) (tx : BinderTransactionData) : KM (K:=K) (W:=W) unit :=
  defer_free tx (
    payload ← try_k (copyTransactionPayload tx);
    match payload with
    | inr e => refuse tx e
    | inl (requestBytes, requestObjects) =>
        acquired ← try_k (acquireParcelObjects requestObjects);
        match acquired with
        | inr e => refuse tx e
        | inl _ =>
            r ← on_user (dispatchLocalTransaction pid locals ctx (td_Cookie tx) (td_Code tx)
                  (request_parcel requestBytes requestObjects) (td_Flags tx)
                  (mkTx (td_Code tx) (td_Flags tx) (td_SenderPID tx) (td_SenderEUID tx) false));
            if oneway_tx tx then mret tt
            else match r with
                 | Ok reply => sendReply reply (Z.land (td_Flags tx) TFClearBuf)
                 | Err e => sendStatusReply (statusCodeFromError (Some e)) (Z.land (td_Flags tx) TFClearBuf)
                 | Panic y => panic y
                 end
        end
    end).

(** The client thread's copy of the function. *)
Definition handleIncomingTransaction := handleTransaction.

(** ** The driver's responses *)

Definition short_tail (n : Z) : error := EText ("kernel: short command buffer tail: " +:+ pretty n)%string.
Definition short_payload (what : string) (cmd : Z) : error :=
  EText ("kernel: short " +:+ what +:+ " payload for " +:+ hex cmd)%string.
Definition short_tx (what : string) (have : Z) : error :=
  EText ("kernel: short " +:+ what +:+ " payload: have " +:+ pretty have +:+ " want 64")%string.

Definition is_quiet (cmd : Z) : bool :=
  (cmd =? BRNoop) || (cmd =? BRTransactionComplete) || (cmd =? BRSpawnLooper) || (cmd =? BRFinished).
Definition is_refs (cmd : Z) : bool :=
  (cmd =? BRIncRefs) || (cmd =? BRAcquire) || (cmd =? BRRelease) || (cmd =? BRDecRefs).
Definition is_death (cmd : Z) : bool := (cmd =? BRDeadBinder) || (cmd =? BRClearDeathNotificationDone).

(** One response: [cmd] has been read, [rest] is [buf[pos:]] after it and [again]
    the rest of the loop.  [handleDriverResponses] is given the context of its
    call ([incoming = Some ctx]); [parseDriverResponses] has no case for
    BR_TRANSACTION ([None]). *)
Definition driver_command
    (again : list Z → list Z → option BinderTransactionData →
             KM (K:=K) (W:=W) (list Z * option BinderTransactionData))
    (incoming : option (option context)) (cmd : Z) (rest : list Z) (commands : list Z)
    (reply : option BinderTransactionData) : KM (K:=K) (W:=W) (list Z * option BinderTransactionData) :=
  if is_quiet cmd then again rest commands reply
  else if cmd =? BRError then
    if len rest <? 4 then throw (EText "kernel: short BR_ERROR payload")
    else throw (EText ("kernel: BR_ERROR " +:+ pretty (i32 (le_num (take 4 rest))))%string)
  else if is_refs cmd then
    if len rest <? 16 then throw (short_payload "ptr/cookie" cmd)
    else answer_refs cmd (le_num (take 8 rest)) (le_num (take 8 (drop 8 rest)));;
         again (drop 16 rest) commands reply
  else if is_death cmd then
    if len rest <? 8 then throw (short_payload "cookie" cmd)
    else answer_death cmd (le_num (take 8 rest));; again (drop 8 rest) commands reply
  else if cmd =? BRReply then
    if len rest <? binderTransactionDataSize then throw (short_tx "BR_REPLY" (len rest))
    else tx ← lift (UnmarshalBinary (slice rest 0 binderTransactionDataSize));
         again (drop 64 rest) commands (Some tx)
  else if (cmd =? BRTransaction) && bool_decide (is_Some incoming) then
    if len rest <? binderTransactionDataSize then throw (short_tx "BR_TRANSACTION" (len rest))
    else tx ← lift (UnmarshalBinary (slice rest 0 binderTransactionDataSize));
         handleIncomingTransaction (default None incoming) tx;;
         again (drop 64 rest) commands reply
  else if cmd =? BRDeadReply then throw ErrDeadReply
  else if cmd =? BRFailedReply then throw ErrFailedReply
  else throw (EText ("kernel: unsupported binder response command " +:+ hex cmd)%string).

(** The loop.  Each turn consumes four bytes, so the number of bytes is fuel
    enough. *)
Fixpoint driver_responses (fuel : nat) (incoming : option (option context)) (rest : list Z)
    (commands : list Z) (reply : option BinderTransactionData)
  : KM (K:=K) (W:=W) (list Z * option BinderTransactionData) :=
  match rest, fuel with
  | [], _ => mret (commands, reply)
  | _, O => panic "out of fuel"
  | _, S f =>
      if len rest <? 4 then throw (short_tail (len rest))
      else
        let cmd := le_num (take 4 rest) in
        driver_command (driver_responses f incoming) incoming cmd (drop 4 rest) (commands ++ [cmd]) reply
  end.

Definition handleDriverResponses (ctx : option context) (buf : list Z) :=
  driver_responses (length buf) (Some ctx) buf [] None.
Definition parseDriverResponses (buf : list Z) := driver_responses (length buf) None buf [] None.

(** The looper's [handleCommands], likewise. *)
Definition looper_command (again : list Z → KM (K:=K) (W:=W) unit) (ctx : option context) (cmd : Z)
    (rest : list Z) : KM (K:=K) (W:=W) unit :=
  if is_quiet cmd then again rest
  else if is_refs cmd then
    if len rest <? 16 then throw (short_payload "ptr/cookie" cmd)
    else answer_refs cmd (le_num (take 8 rest)) (le_num (take 8 (drop 8 rest)));; again (drop 16 rest)
  else if is_death cmd then
    if len rest <? 8 then throw (short_payload "cookie" cmd)
    else answer_death cmd (le_num (take 8 rest));; again (drop 8 rest)
  else if cmd =? BRTransaction then
    if len rest <? binderTransactionDataSize then throw (short_tx "BR_TRANSACTION" (len rest))
    else tx ← lift (UnmarshalBinary (slice rest 0 binderTransactionDataSize));
         handleTransaction ctx tx;; again (drop 64 rest)
  else throw (EText ("kernel: unsupported looper command " +:+ hex cmd)%string).

Fixpoint looper_commands (fuel : nat) (ctx : option context) (rest : list Z) : KM (K:=K) (W:=W) unit :=
  match rest, fuel with
  | [], _ => mret tt
  | _, O => panic "out of fuel"
  | _, S f =>
      if len rest <? 4 then throw (EText ("kernel: short looper command buffer tail: " +:+ pretty (len rest))%string)
      else looper_command (looper_commands f ctx) ctx (le_num (take 4 rest)) (drop 4 rest)
  end.

Definition handleCommands (ctx : option context) (buf : list Z) := looper_commands (length buf) ctx buf.

(** ** Outgoing transactions *)

(** The read loop: at most [n] more reads while no reply has come. *)
Fixpoint await_reply (n : nat) (incoming : option (option context)) (commands : list Z)
    (reply : option BinderTransactionData) : KM (K:=K) (W:=W) (list Z * option BinderTransactionData) :=
  match n, reply with
  | S n', None =>
      next ← Read 256;
      got ← consumed next;
      r ← driver_responses (length got) incoming got [] None;
      await_reply n' incoming (commands ++ r.1) r.2
  | _, _ => mret (commands, reply)
  end.

(** What the two transact functions do with the reply. *)
Definition free_reply (reply : BinderTransactionData) : KM (K:=K) (W:=W) unit :=
  if td_DataBuffer reply =? 0 then mret tt else FreeBuffer (td_DataBuffer reply).

Definition finish_reply (reply : BinderTransactionData)
  : KM (K:=K) (W:=W) (option (list Z) * list ParcelObject) :=
  r ← copyTransactionPayload reply;
  if negb (Z.land (td_Flags reply) TFStatus =? 0)
  then free_reply reply;; throw (statusReplyError (default [] r.1))
  else acquireParcelObjects r.2;; free_reply reply;; mret r.

(** [transactHandleParcel] of the backend ([incoming = Some ctx], eight reads)
    and of the driver ([None], three reads). *)
Definition transact_parcel (incoming : option (option context)) (reads : nat) (handle code : Z)
    (payload offsets : option (list Z)) (fl : Z)
  : KM (K:=K) (W:=W) (option (list Z) * list ParcelObject) :=
  let oneway := negb (Z.land fl FlagOneway =? 0) in
  let tx := mkTD handle 0 code (if oneway then Z.lor TFAcceptFD TFOneWay else TFAcceptFD) 0 0 0 0 0 0 in
  tx' ← setTransactionPayload tx payload offsets;
  bwr ← WriteCommand BCTransaction (MarshalBinary tx') 256;
  got ← consumed bwr;
  first ← driver_responses (length got) incoming got [] None;
  if oneway then mret (None, [])
  else
    last ← await_reply reads incoming first.1 first.2;
    match last.2 with
    | None => throw (EText ("kernel: did not receive BR_REPLY, commands=[" +:+
                            String.concat " " (commandNames last.1) +:+ "]")%string)
    | Some reply => finish_reply reply
    end.

Definition transactHandleParcel (ctx : option context) := transact_parcel (Some ctx) 8.
Definition TransactHandleParcel := transact_parcel None 3.

Definition TransactHandle (handle code : Z) (payload : option (list Z)) (fl : Z)
  : KM (K:=K) (W:=W) (option (list Z)) :=
  r ← TransactHandleParcel handle code payload None fl; mret r.1.

(** [Backend.TransactHandle], the part its client worker runs. *)
Definition Backend_TransactHandle (ctx : option context) (handle code : Z) (data : option (Parcel W B))
    (fl : Z) : KM (K:=K) (W:=W) (option (Parcel W B)) :=
  let '(request, requestOffsets) := KernelWireData data in
  r ← transactHandleParcel ctx handle code request requestOffsets fl;
  if negb (Z.land fl FlagOneway =? 0) then mret None
  else mret (request_parcel r.1 r.2).
End Transact.
