(* ===== verification/KernelFacts.v ===== *)
(** * KernelFacts: what the commands write, and when they panic

    The specification style of the kernel theorems: [writes m P] says which
    buffers [m] hands to the device of an open driver, with the result it
    returns.  The lemmas hold of every device that obeys [BinderDeviceLaws]. *)

From stdpp Require Import base list numbers strings pretty.
From S2P Require Import Prelude Errors Unicode Parcel ParcelFacts Codec ObjectCodec Fields Slices Stability Dispatch Death Driver KernelTransact.

Open Scope Z_scope.

(** ** Structures *)

Record td_ok (t : BinderTransactionData) : Prop := {
  td_ok_Target : in_u 64 (td_Target t);
  td_ok_Cookie : in_u 64 (td_Cookie t);
  td_ok_Code : in_u 32 (td_Code t);
  td_ok_Flags : in_u 32 (td_Flags t);
  td_ok_PID : in_s 32 (td_SenderPID t);
  td_ok_EUID : in_u 32 (td_SenderEUID t);
  td_ok_DataSize : in_u 64 (td_DataSize t);
  td_ok_OffsetsSize : in_u 64 (td_OffsetsSize t);
  td_ok_DataBuffer : in_u 64 (td_DataBuffer t);
  td_ok_DataOffsets : in_u 64 (td_DataOffsets t);
}.

Lemma length_MarshalBinary t : len (MarshalBinary t) = 64.
Proof. unfold MarshalBinary. rewrite !length_app, !length_le_bytes. done. Qed.

(** One field of a structure laid out as a list of fields. *)
Lemma field_skip k z (l : list Z) o n : Z.of_nat k <= o →
  slice (le_bytes k z ++ l) o (o + n) = slice l (o - Z.of_nat k) (o - Z.of_nat k + n).
Proof.
  intros H. unfold slice.
  replace (Z.to_nat o) with (length (le_bytes k z) + Z.to_nat (o - Z.of_nat k))%nat
    by (rewrite length_le_bytes; lia).
  rewrite <- drop_drop, drop_app_length. f_equal. lia.
Qed.

Lemma field_here k z (l : list Z) o n : in_u (8 * Z.of_nat k) z → o = 0 → n = Z.of_nat k →
  le_num (slice (le_bytes k z ++ l) o (o + n)) = z.
Proof.
  intros Hz -> ->. rewrite (slice_app [] (le_bytes k z) l) by (rewrite ?length_le_bytes; cbn; lia).
  rewrite le_num_bytes. by apply wrapu_id.
Qed.

Lemma UnmarshalBinary_app t rest : td_ok t → UnmarshalBinary (MarshalBinary t ++ rest) = Ok t.
Proof.
  intros [H1 H2 H3 H4 H5 H6 H7 H8 H9 H10]. unfold UnmarshalBinary.
  rewrite length_app, Nat2Z.inj_add, length_MarshalBinary. unfold binderTransactionDataSize. zif.
  destruct t as [a b c d e f g h i j]. unfold MarshalBinary. cbn -[le_bytes slice le_num Z.add] in *.
  rewrite <- !app_assoc. f_equal.
  assert (He : in_u 32 (u32 e)) by (by apply wrapu_range).
  assert (Hi : i32 (u32 e) = e) by (apply i_of_u; [lia|done]).
  f_equal; [| | | |etrans; [|exact Hi]; f_equal| | | | |];
    repeat (rewrite field_skip by lia); by apply field_here.
Qed.

(** The transaction structure crosses the device unchanged: unmarshalling what
    MarshalBinary wrote, whatever bytes follow, gives back every field. *)
Theorem transaction_data_roundtrip t rest :
  td_ok t → UnmarshalBinary (MarshalBinary t ++ rest) = Ok t.
Proof. apply UnmarshalBinary_app. Qed.

Definition demo_td : BinderTransactionData := mkTD 7 9 1 16 (-4) 1000 12 8 4096 8192.

Lemma transaction_data_roundtrip_witness : td_ok demo_td ∧
  UnmarshalBinary (MarshalBinary demo_td ++ [1; 2]) = Ok demo_td.
Proof.
  assert (H : td_ok demo_td) by (split; cbn; width).
  split; [exact H|exact (transaction_data_roundtrip demo_td [1; 2] H)].
Defined.

(** ** Buffers written *)

Section Writes.
Context {K W : Type} `{HD : !BinderDevice K} `{HL : !BinderDeviceLaws K}.
Implicit Types s : KW K W.

Definition writes {A} (m : KM (K:=K) (W:=W) A) (P : res A → list (list Z) → Prop) : Prop :=
  ∀ s, closed_driver s = false →
  ∃ l, kw_log (m s).2 = kw_log s ++ l ∧ closed_driver (m s).2 = false ∧ P (m s).1 l.

Lemma writes_mono {A} (m : KM A) (P Q : res A → list (list Z) → Prop) :
  writes m P → (∀ r l, P r l → Q r l) → writes m Q.
Proof. intros Hm HPQ s Hs. destruct (Hm s Hs) as (l & ? & ? & ?). exists l. auto. Qed.

Lemma writes_pure {A} (m : KM (K:=K) (W:=W) A) (P : res A → list (list Z) → Prop) :
  (∀ s, kw_log (m s).2 = kw_log s ∧ closed_driver (m s).2 = closed_driver s ∧ P (m s).1 []) → writes m P.
Proof.
  intros Hm s Hs. destruct (Hm s) as (H1 & H2 & H3). exists []. rewrite app_nil_r. by split_and!; congruence || done.
Qed.

Lemma writes_ret {A} (a : A) (P : res A → list (list Z) → Prop) : P (Ok a) [] → writes (mret a) P.
Proof. intros H. by apply writes_pure. Qed.
Lemma writes_throw {A} e (P : res A → list (list Z) → Prop) : P (Err e) [] → writes (throw e) P.
Proof. intros H. by apply writes_pure. Qed.
Lemma writes_lift {A} (r : res A) (P : res A → list (list Z) → Prop) : P r [] → writes (lift r) P.
Proof. intros H. by apply writes_pure. Qed.

Lemma writes_bind {A C} (m : KM (K:=K) (W:=W) A) (k : A → KM (K:=K) (W:=W) C) P
    (Q : res C → list (list Z) → Prop) :
  writes m P →
  (∀ a l1, P (Ok a) l1 → writes (k a) (λ r l2, Q r (l1 ++ l2))) →
  (∀ e l, P (Err e) l → Q (Err e) l) → (∀ y l, P (Panic y) l → Q (Panic y) l) →
  writes (m ≫= k) Q.
Proof.
  intros Hm Hk He Hp s Hs. destruct (Hm s Hs) as (l1 & Hl1 & Ho1 & H1).
  unfold mbind, ST_bind. destruct (m s) as [[a|e|y] s1]; cbn in *; [|exists l1; eauto..].
  destruct (Hk a l1 H1 s1 Ho1) as (l2 & Hl2 & Ho2 & H2). exists (l1 ++ l2).
  rewrite Hl2, Hl1, <- app_assoc. auto.
Qed.

Lemma writes_try {A} (m : KM (K:=K) (W:=W) A) P (Q : res (A + error) → list (list Z) → Prop) :
  writes m P → (∀ a l, P (Ok a) l → Q (Ok (inl a)) l) → (∀ e l, P (Err e) l → Q (Ok (inr e)) l) →
  (∀ y l, P (Panic y) l → Q (Panic y) l) → writes (try_k m) Q.
Proof.
  intros Hm Ha He Hp s Hs. destruct (Hm s Hs) as (l & Hl & Ho & H). unfold try_k.
  destruct (m s) as [[a|e|y] s1]; cbn in *; exists l; auto.
Qed.

(** The device answers in as many tries as there are interruptions. *)
Lemma write_read_spec fuel bwr s : closed_driver s = false → (dev_signals (kw_dev s) < fuel)%nat →
  kw_log (write_read fuel bwr s).2 = kw_log s ∧ closed_driver (write_read fuel bwr s).2 = false ∧
  match (write_read fuel bwr s).1 with
  | Ok b => 0 <= bwr_ReadConsumed b <= Z.max 0 (bwr_ReadSize bwr) ∧
            length (bwr_ReadBuffer b) = length (bwr_ReadBuffer bwr)
  | Err _ => True
  | Panic _ => False
  end.
Proof.
  revert bwr s. induction fuel as [|fuel IH]; intros bwr s Hs Hf; [lia|]. cbn [write_read].
  unfold Ioctl. rewrite Hs. destruct (dev_ioctl bwr (kw_dev s)) as [[[| |e] b] k] eqn:E; cbn.
  - pose proof (dev_read _ _ _ _ E). auto.
  - destruct (dev_eintr_read _ _ _ _ E) as [Hr Hl]. pose proof (dev_eintr _ _ _ _ E) as Hd.
    destruct (IH b (set_dev k s)) as (H1 & H2 & H3); [done|cbn; lia|].
    rewrite H1, H2. split_and!; [done|done|]. rewrite <- Hr, <- Hl. done.
  - done.
Qed.

Definition answers (n : Z) (r : res BinderWriteRead) : Prop :=
  match r with
  | Ok b => 0 <= bwr_ReadConsumed b <= Z.max 0 n ∧ length (bwr_ReadBuffer b) = Z.to_nat n
  | Err _ => True
  | Panic _ => False
  end.

Lemma writes_WriteCommand cmd payload n :
  writes (WriteCommand cmd payload n) (λ r l, l = [le_bytes 4 cmd ++ payload] ∧ answers n r).
Proof.
  intros s Hs. unfold WriteCommand. rewrite Hs. unfold WriteRead.
  set (s1 := log_write _ s).
  destruct (write_read_spec (S (dev_signals (kw_dev s1)))
    (mkBWR (len (le_bytes 4 cmd ++ payload)) 0 (le_bytes 4 cmd ++ payload) n 0 (zeros n)) s1)
    as (H1 & H2 & H3); [done|lia|].
  eexists. split_and!; [exact H1|exact H2|done|]. unfold answers.
  cbn [bwr_ReadSize bwr_ReadBuffer] in H3.
  destruct (write_read _ _ _) as [[b|e|y] s2]; cbn in *; [|done..]. by rewrite length_zeros in H3.
Qed.

Lemma writes_Read n : n ≠ 0 → writes (Read n) (λ r l, l = [] ∧ answers n r).
Proof.
  intros Hn s Hs. unfold Read. rewrite Hs, (eqb_false n 0) by done. unfold WriteRead.
  destruct (write_read_spec (S (dev_signals (kw_dev s))) (mkBWR 0 0 [] n 0 (zeros n)) s)
    as (H1 & H2 & H3); [done|lia|].
  exists []. rewrite app_nil_r. split_and!; [exact H1|exact H2|done|]. unfold answers.
  cbn [bwr_ReadSize bwr_ReadBuffer] in H3.
  destruct (write_read _ _ _) as [[b|e|y] s2]; cbn in *; [|done..]. by rewrite length_zeros in H3.
Qed.

(** The bytes read are a prefix of the buffer: no slice panic. *)
Lemma writes_consumed b n : answers n (Ok b) →
  writes (consumed b) (λ r l, l = [] ∧ ∃ got, r = Ok got).
Proof.
  cbn. intros [Hc Hl]. unfold consumed. zif. apply writes_ret. eauto.
Qed.

Definition no_panic {A} (r : res A) : Prop := match r with Panic _ => False | _ => True end.

Lemma writes_exactly what cmd payload :
  writes (write_exactly what cmd payload) (λ r l, l = [le_bytes 4 cmd ++ payload] ∧ no_panic r).
Proof.
  eapply writes_bind; [apply writes_WriteCommand| |by intros ? ? [-> _]|by intros ? ? [_ []]].
  intros b l1 [-> _]. cbn. destruct (negb _); [by apply writes_throw|by apply writes_ret].
Qed.

(** The buffers that take references on a list of handles. *)
Definition acquire_cmd (bs : list Z) : Prop :=
  ∃ h, bs = le_bytes 4 BCIncRefs ++ le_bytes 4 h ∨ bs = le_bytes 4 BCAcquire ++ le_bytes 4 h.

Lemma writes_AcquireHandle h :
  writes (AcquireHandle h) (λ r l, Forall acquire_cmd l ∧ no_panic r).
Proof.
  eapply writes_bind; [apply writes_exactly| | |by intros ? ? [_ []]].
  - intros _ l1 [-> _]. eapply writes_mono; [apply writes_exactly|]. intros r l [-> Hr].
    split; [|done]. repeat constructor; eexists; eauto.
  - intros e l [-> _]. split; [|done]. repeat constructor; eexists; eauto.
Qed.

Lemma writes_acquireParcelObjects objs :
  writes (acquireParcelObjects objs) (λ r l, Forall acquire_cmd l ∧ no_panic r).
Proof.
  induction objs as [|o objs IH]; cbn [acquireParcelObjects]; [by apply writes_ret|].
  eapply (writes_bind _ _ (λ r l, Forall acquire_cmd l ∧ no_panic r)); [| |done|done].
  - unfold acquire_object. destruct (obj_Kind o); try (by apply writes_ret). apply writes_AcquireHandle.
  - intros _ l1 [H1 _]. eapply writes_mono; [apply IH|]. intros r l [H2 H3].
    split; [by apply Forall_app|done].
Qed.

(** Reading payloads writes nothing; the panics are on a size that no slice has and on
    memory that is not mapped. *)
Definition memory_panics : list string :=
  ["unsafe.Slice: len out of range"; "makeslice: len out of range"; "makeslice: cap out of range"; fault].

Definition memory_panic {A} (r : res A) : Prop := match r with Panic y => y ∈ memory_panics | _ => True end.

Definition only_reads {A} (m : KM (K:=K) (W:=W) A) : Prop := ∀ s, (m s).2 = s ∧ memory_panic (m s).1.

Lemma only_reads_ret {A} (a : A) : only_reads (mret a).
Proof. done. Qed.
Lemma only_reads_throw {A} e : only_reads (A := A) (throw e).
Proof. done. Qed.

Lemma only_reads_bind {A C} (m : KM (K:=K) (W:=W) A) (k : A → KM (K:=K) (W:=W) C) :
  only_reads m → (∀ a, only_reads (k a)) → only_reads (m ≫= k).
Proof.
  intros Hm Hk s. destruct (Hm s) as [H1 H2]. unfold mbind, ST_bind. destruct (m s) as [[a|e|y] s1]; cbn in *; subst; [apply Hk|done..].
Qed.

Lemma writes_only_reads {A} (m : KM (K:=K) (W:=W) A) : only_reads m → writes m (λ r l, l = [] ∧ memory_panic r).
Proof. intros H. apply writes_pure. intros s. destruct (H s) as [-> Hp]. done. Qed.

Lemma only_reads_unsafe_Slice a n : only_reads (unsafe_Slice a n).
Proof. unfold unsafe_Slice. case_match; [|done]. intros s. split; [done|]. cbn. unfold memory_panics. repeat first [by left | right]. Qed.

Lemma only_reads_make what elem n : what = "len"%string ∨ what = "cap"%string → only_reads (make_slice what elem n).
Proof. unfold make_slice. case_match; [|done]. intros Hw s. split; [done|]. cbn. unfold memory_panics. destruct Hw as [-> | ->]; repeat first [by left | right]. Qed.

Lemma only_reads_memory a n : only_reads (read_memory a n).
Proof. intros s. unfold read_memory. split; [done|]. cbn. case_match; [done|]. cbn. unfold memory_panics. repeat first [by left | right]. Qed.

Lemma parse_object_no_panic payload o : no_panic (parseTransactionObject payload o).
Proof. unfold parseTransactionObject. by repeat case_match. Qed.

Lemma only_reads_parse_offsets n payload src : only_reads (parse_offsets n payload src).
Proof.
  revert src. induction n as [|n IH]; intros src; [done|]. cbn [parse_offsets].
  apply only_reads_bind; [apply only_reads_memory|]. intros bs. apply only_reads_bind.
  - intros s. split; [done|]. assert (H := parse_object_no_panic payload (le_num bs)). cbn. by destruct (parseTransactionObject _ _).
  - intros obj. apply only_reads_bind; [apply IH|done].
Qed.

Lemma only_reads_parseTransactionObjects payload tx : only_reads (parseTransactionObjects payload tx).
Proof.
  unfold parseTransactionObjects. repeat case_match; try done.
  apply only_reads_bind; [apply only_reads_unsafe_Slice|]. intros _.
  apply only_reads_bind; [apply only_reads_make; auto|]. intros _. apply only_reads_parse_offsets.
Qed.

Lemma only_reads_copy tx : only_reads (copyTransactionPayload tx).
Proof.
  unfold copyTransactionPayload. repeat (case_match; try done).
  all: repeat first [apply only_reads_unsafe_Slice | apply only_reads_memory | apply only_reads_parseTransactionObjects | done
    | apply only_reads_make; auto; fail | apply only_reads_bind; [|intros ?] ].
Qed.

Lemma writes_copyTransactionPayload tx :
  writes (copyTransactionPayload tx) (λ r l, l = [] ∧ memory_panic r).
Proof. apply writes_only_reads, only_reads_copy. Qed.

(** The transaction data point into mapped memory, and claim no more of it than a
    slice can hold. *)
Definition readable (tx : BinderTransactionData) (k : K) : Prop :=
  (td_DataBuffer tx ≠ 0 → td_DataSize tx <= maxAlloc ∧ td_DataBuffer tx + td_DataSize tx <= 2 ^ 64 ∧
     is_Some (dev_peek (td_DataBuffer tx) (td_DataSize tx) k)) ∧
  (td_DataOffsets tx ≠ 0 → parcelObjectSize * (td_OffsetsSize tx / 8) <= maxAlloc ∧ td_DataOffsets tx + td_OffsetsSize tx <= 2 ^ 64 ∧
     ∀ i : nat, (i < Z.to_nat (td_OffsetsSize tx / 8))%nat → is_Some (dev_peek (td_DataOffsets tx + 8 * Z.of_nat i) 8 k)).

Lemma parse_offsets_readable n payload src s :
  (∀ i : nat, (i < n)%nat → is_Some (dev_peek (src + 8 * Z.of_nat i) 8 (kw_dev s))) → no_panic (parse_offsets n payload src s).1.
Proof.
  revert src. induction n as [|n IH]; intros src H; [done|]. cbn [parse_offsets]. unfold mbind at 1, ST_bind at 1, read_memory.
  destruct (H 0%nat ltac:(lia)) as [bs Hb]. rewrite Z.add_0_r in Hb. rewrite Hb. unfold mbind at 1, ST_bind at 1, lift.
  assert (Hp := parse_object_no_panic payload (le_num bs)). destruct (parseTransactionObject payload (le_num bs)) as [obj|e|y]; [|done..].
  assert (Hn : no_panic (parse_offsets n payload (src + 8) s).1).
  { apply IH. intros i Hi. replace (src + 8 + 8 * Z.of_nat i) with (src + 8 * Z.of_nat (S i)) by lia. apply H. lia. }
  unfold mbind, ST_bind. by destruct (parse_offsets n payload (src + 8) s) as [[l|e|y] s'].
Qed.

Lemma unsafe_Slice_ok a n s : 0 <= n → a + n <= 2 ^ 64 → unsafe_Slice (K:=K) (W:=W) a n s = (Ok tt, s).
Proof. intros H1 H2. unfold unsafe_Slice. by rewrite (ltb_false n 0), (ltb_false (2 ^ 64) (a + n)) by done. Qed.

Lemma make_slice_ok what elem n s : elem * n <= maxAlloc → make_slice (K:=K) (W:=W) what elem n s = (Ok tt, s).
Proof. intros H. unfold make_slice. by rewrite ltb_false by done. Qed.

Lemma read_memory_ok a n bs s : dev_peek a n (kw_dev s) = Some bs → read_memory (K:=K) (W:=W) a n s = (Ok bs, s).
Proof. intros H. unfold read_memory. by rewrite H. Qed.

Lemma int_size n : 0 <= n <= maxAlloc → i64 n = n ∧ u64 n = n.
Proof. unfold maxAlloc. intros H. split; [apply wraps_id; [lia|]|apply wrapu_id]; unfold in_s, in_u; lia. Qed.

Lemma parse_objects_readable payload tx s : 0 <= td_OffsetsSize tx → readable tx (kw_dev s) →
  no_panic (parseTransactionObjects payload tx s).1.
Proof.
  intros Ho [_ Hf]. unfold parseTransactionObjects. destruct (td_OffsetsSize tx =? 0); [done|].
  destruct (Z.eqb_spec (td_DataOffsets tx) 0) as [|Hne]; [done|]. destruct (Hf Hne) as (Hm & Ha & Hp).
  destruct (Z.eqb_spec (td_OffsetsSize tx mod 8) 0) as [Hmod|]; cbn [negb]; [|done].
  assert (Hb : 0 <= td_OffsetsSize tx <= maxAlloc).
  { split; [done|]. rewrite (Z.div_mod (td_OffsetsSize tx) 8), Hmod by lia. unfold parcelObjectSize in Hm.
    assert (0 <= td_OffsetsSize tx / 8) by (apply Z.div_pos; lia). lia. }
  destruct (int_size _ Hb) as [-> ->]. rewrite Z.eqb_refl. cbn [negb].
  rewrite (bind_ok _ _ _ _ _ (unsafe_Slice_ok _ _ s Ho Ha)), (bind_ok _ _ _ _ _ (make_slice_ok _ _ _ s Hm)).
  by apply parse_offsets_readable.
Qed.

Lemma copy_readable tx s : 0 <= td_DataSize tx → 0 <= td_OffsetsSize tx → readable tx (kw_dev s) →
  no_panic (copyTransactionPayload tx s).1.
Proof.
  intros Hs Ho Hr. unfold copyTransactionPayload. destruct (td_DataSize tx =? 0); [done|].
  destruct (Z.eqb_spec (td_DataBuffer tx) 0) as [|Hne]; [done|]. destruct (proj1 Hr Hne) as (Hm & Ha & bs & Hp).
  destruct (int_size _ (conj Hs Hm)) as [-> ->]. rewrite Z.eqb_refl. cbn [negb].
  rewrite (bind_ok _ _ _ _ _ (unsafe_Slice_ok _ _ s Hs Ha)), (bind_ok _ _ _ _ _ (make_slice_ok "len" 1 (td_DataSize tx) s ltac:(lia))),
    (bind_ok _ _ _ _ _ (read_memory_ok _ _ _ s Hp)).
  case_match; [done|]. assert (Hq := parse_objects_readable bs tx s Ho Hr). unfold mbind, ST_bind.
  by destruct (parseTransactionObjects bs tx s) as [[l|e|y] s'].
Qed.

Lemma writes_setTransactionPayload tx payload offsets :
  writes (setTransactionPayload tx payload offsets) (λ r l, l = [] ∧ ∃ tx', r = Ok tx').
Proof.
  unfold setTransactionPayload, pin.
  eapply (writes_bind _ _ (λ r l, l = [] ∧ ∃ tx', r = Ok tx')).
  - apply writes_pure. intros s. case_match; [|by eauto]. unfold mbind, ST_bind.
    destruct (dev_pin _ _). cbn. eauto.
  - intros tx1 l1 [-> _]. apply writes_pure. intros s. case_match; [|by eauto].
    unfold mbind, ST_bind. destruct (dev_pin _ _). cbn. eauto.
  - by intros e l (_ & ? & ?).
  - by intros e l (_ & ? & ?).
Qed.
End Writes.

(** ** A scripted device

    A concrete [BinderDevice] for examples: it takes every command, hands out a
    script of read buffers one per read, interrupts the first [sc_intr] calls and
    remembers the memory it is shown. *)

Record script := mkScript {
  sc_reads : list (list Z); sc_intr : nat; sc_next : Z; sc_mem : list (Z * list Z);
}.

Definition script_ioctl (b : BinderWriteRead) (k : script) : ioctl_result * BinderWriteRead * script :=
  match sc_intr k with
  | S n => (IoEINTR, b, mkScript (sc_reads k) n (sc_next k) (sc_mem k))
  | O =>
      let chunk := if bwr_ReadSize b <=? 0 then []
                   else take (Z.to_nat (bwr_ReadSize b) `min` length (bwr_ReadBuffer b)) (default [] (head (sc_reads k))) in
      (IoOK,
       mkBWR (bwr_WriteSize b) (bwr_WriteSize b) (bwr_WriteBuffer b) (bwr_ReadSize b) (len chunk)
         (chunk ++ drop (length chunk) (bwr_ReadBuffer b)),
       if bwr_ReadSize b <=? 0 then k else mkScript (tail (sc_reads k)) 0 (sc_next k) (sc_mem k))
  end.

Definition script_peek (a n : Z) (k : script) : option (list Z) :=
  '(_, bs) ← head (filter (λ m, m.1 = a) (sc_mem k));
  if n <=? len bs then Some (take (Z.to_nat n) bs) else None.

Definition script_pin (bs : list Z) (k : script) : Z * script :=
  (u64 (sc_next k),
   mkScript (sc_reads k) (sc_intr k) (sc_next k + len bs + 16) ((u64 (sc_next k), bs) :: sc_mem k)).

#[export] Instance script_device : BinderDevice script := {
  dev_ioctl := script_ioctl; dev_peek := script_peek; dev_pin := script_pin; dev_signals := sc_intr;
}.

#[export] Instance script_laws : BinderDeviceLaws script.
Proof.
  split; cbn.
  - intros b k b' k' H. unfold script_ioctl in H. destruct (sc_intr k) eqn:E; simplify_eq. cbn. lia.
  - intros b k b' k' H. unfold script_ioctl in H. destruct (sc_intr k); [|done]. simplify_eq. cbn.
    destruct (bwr_ReadSize b <=? 0) eqn:Er; bools; cbn.
    + split; [lia|done].
    + rewrite length_app, length_drop, !length_take. lia.
  - intros b k b' k' H. unfold script_ioctl in H. by destruct (sc_intr k); simplify_eq.
  - intros bs k. apply wrapu_range. lia.
Qed.

(** An open driver over a script. *)
Definition scripted {W} (k : script) (w : W) : KW script W := mkKW true true true None k w [].
