(* ===== verification/KernelReply.v ===== *)
(** * KernelReply: answers that cross the kernel

    The composition of a server thread and the client that waits for it: the
    reply of a handler, or the status code of its error, is what the caller's
    transaction returns.  What the kernel does between them is the hypothesis
    [delivered]: the flags and sizes are the sender's and the receiver's buffer
    holds the bytes that were pinned. *)

From stdpp Require Import base list numbers strings pretty gmap.
From S2P Require Import Prelude Errors Unicode Parcel ParcelFacts Codec ObjectCodec Fields Slices Stability Dispatch Death Driver KernelTransact KernelFacts KernelProps.

Open Scope Z_scope.

Section Sender.
Context {K W B : Type} `{HD : !BinderDevice K} `{HL : !BinderDeviceLaws K}.
Context (pid : Z) (locals : localRegistry W B).
Context (bR lR : option (Z → W → option B * W)).
Context (bO : option (ParcelObject → W → option B * W)) (lO : option (ParcelObject → Z → W → option B * W)).
Implicit Types (s : KW K W) (tx : BinderTransactionData).

(** [tx'] announces the payload and the offsets of [tx]. *)
Record carries tx (payload offsets : list Z) (tx' : BinderTransactionData) : Prop := {
  carries_flags : td_Flags tx' = td_Flags tx;
  carries_size : td_DataSize tx' = if decide (payload = []) then td_DataSize tx else len payload;
  carries_buffer : payload ≠ [] → ∃ k, td_DataBuffer tx' = (dev_pin payload k).1;
  carries_offsets_size : td_OffsetsSize tx' = if decide (offsets = []) then td_OffsetsSize tx else len offsets * 8;
  carries_offsets : offsets ≠ [] → ∃ k, td_DataOffsets tx' = (dev_pin (offsets ≫= le_bytes 8) k).1;
}.

Lemma setTransactionPayload_spec tx payload offsets s :
  ∃ tx' k, setTransactionPayload tx payload offsets s = (Ok tx', set_dev k s) ∧
    carries tx (default [] payload) (default [] offsets) tx'.
Proof.
  assert (H0 : (0 <? len (@nil Z)) = false) by done.
  assert (H1 : ∀ (x : Z) l, (0 <? len (x :: l)) = true) by (intros; apply ltb_true; cbn [length]; lia).
  unfold setTransactionPayload, pin. destruct s as [so sf sm sd k su sl]. unfold set_dev. cbn [kw_dev].
  destruct (default [] payload) as [|x p]; destruct (default [] offsets) as [|y o];
    rewrite ?H0, ?H1; unfold mbind, ST_bind; cbn [kw_dev mret ST_ret].
  - do 2 eexists. split; [done|]. by split.
  - destruct (dev_pin _ k) as [a k1] eqn:E1.
    do 2 eexists. split; [done|]. split; [done|done|done|done|]. intros _. exists k. exact (f_equal fst (eq_sym E1)).
  - destruct (dev_pin _ k) as [a k1] eqn:E1.
    do 2 eexists. split; [done|]. split; [done|done| |done|done]. intros _. exists k. exact (f_equal fst (eq_sym E1)).
  - destruct (dev_pin _ k) as [a k1] eqn:E1. cbn [kw_dev mret ST_ret].
    destruct (dev_pin _ k1) as [a2 k2] eqn:E2.
    do 2 eexists. split; [done|].
    split; [done|done| |done|]; intros _; [exists k; exact (f_equal fst (eq_sym E1))|exists k1; exact (f_equal fst (eq_sym E2))].
Qed.

(** What the answer of a handler puts on the wire: flags and payload. *)
Definition answer_payload (r : res (option (Parcel W B))) : list Z :=
  match r with
  | Ok reply => default [] (Bytes reply)
  | Err e => le_bytes 4 (u32 (statusCodeFromError (Some e)))
  | Panic _ => []
  end.

Definition answer_flags tx (r : res (option (Parcel W B))) : Z :=
  let f := Z.land (td_Flags tx) TFClearBuf in
  match r with Err _ => Z.lor TFStatus (Z.land f TFClearBuf) | _ => f end.

Definition no_objects (reply : option (Parcel W B)) : Prop :=
  match reply with Some p => objects p = [] | None => True end.

(** The reply transaction is logged, then the buffer is freed. *)
Definition replied tx rtx s1 s' : Prop :=
  kw_log s' = kw_log s1 ++ (le_bytes 4 BCReply ++ MarshalBinary rtx) :: freed tx.

Lemma sent_spec what tx0 payload offsets s : closed_driver s = false →
  ∃ rtx, carries tx0 (default [] payload) (default [] offsets) rtx ∧
    let m := tx' ← setTransactionPayload tx0 payload offsets; write_exactly what BCReply (MarshalBinary tx') in
    kw_log (m s).2 = kw_log s ++ [le_bytes 4 BCReply ++ MarshalBinary rtx] ∧ closed_driver (m s).2 = false.
Proof.
  intros Hs. destruct (setTransactionPayload_spec tx0 payload offsets s) as (rtx & k & E & Hc).
  exists rtx. split; [done|]. cbv zeta. unfold mbind, ST_bind. rewrite E.
  destruct (writes_exactly what BCReply (MarshalBinary rtx) (set_dev k s) Hs) as (l & Hl & Ho & -> & _).
  by destruct (write_exactly what BCReply (MarshalBinary rtx) (set_dev k s)) as [r s'].
Qed.

Lemma answer_logged ctx tx s bytes objs s1 r w' :
  closed_driver s = false → oneway_tx tx = false →
  copyTransactionPayload tx s = (Ok (bytes, objs), s) → acquireParcelObjects objs s = (Ok tt, s1) →
  dispatchLocalTransaction pid locals ctx (td_Cookie tx) (td_Code tx) (request_parcel bR lR bO lO bytes objs)
    (td_Flags tx) (mkTx (td_Code tx) (td_Flags tx) (td_SenderPID tx) (td_SenderEUID tx) false)
    (kw_user s1) = (r, w') → no_panic r → (∀ reply, r = Ok reply → no_objects reply) →
  ∃ rtx, replied tx rtx s1 (handleTransaction pid locals bR lR bO lO ctx tx s).2 ∧
    carries (with_flags (answer_flags tx r) zeroTD) (answer_payload r) [] rtx.
Proof.
  intros Hs Ho Hc Ha Hd Hn Hno.
  assert (Hs1 : closed_driver s1 = false).
  { destruct (writes_acquireParcelObjects objs s Hs) as (l & _ & H & _). by rewrite Ha in H. }
  assert (Hbody : ∀ m : KM (K:=K) (W:=W) unit,
    (∃ rtx, carries (with_flags (answer_flags tx r) zeroTD) (answer_payload r) [] rtx ∧
       kw_log (m s).2 = kw_log s1 ++ [le_bytes 4 BCReply ++ MarshalBinary rtx] ∧ closed_driver (m s).2 = false) →
    ∃ rtx, replied tx rtx s1 (defer_free tx m s).2 ∧
      carries (with_flags (answer_flags tx r) zeroTD) (answer_payload r) [] rtx).
  { intros m (rtx & Hcar & Hlog & Hcl). exists rtx. split; [|done]. unfold replied, defer_free, freed.
    destruct (td_DataBuffer tx =? 0); [done|]. destruct (m s) as [rm sm]. cbn in Hlog, Hcl.
    destruct (writes_exactly "BC_FREE_BUFFER" BCFreeBuffer (le_bytes 8 (td_DataBuffer tx)) sm Hcl)
      as (l2 & Hl2 & _ & -> & _).
    unfold FreeBuffer. destruct (write_exactly _ _ _ sm) as [r2 s2]. cbn in *.
    by rewrite Hl2, Hlog, <- app_assoc. }
  apply Hbody. clear Hbody. unfold mbind, ST_bind, try_k, on_user. rewrite Hc, Ha, Hd, Ho.
  destruct r as [reply|e|y]; [| |done].
  - unfold sendReply. pose proof (Hno reply eq_refl) as Hobj.
    assert (KernelWireData reply = (Bytes reply, None)) as ->.
    { destruct reply as [p|]; [|done]. cbn in *. by rewrite Hobj. }
    destruct (sent_spec "BC_REPLY" (with_flags (answer_flags tx (Ok reply)) (SetTargetHandle maxUint32 zeroTD))
      (Bytes reply) None (set_user w' s1) Hs1) as (rtx & Hcar & Hlog).
    exists rtx. split; [destruct Hcar; by split|exact Hlog].
  - unfold sendStatusReply.
    destruct (sent_spec "BC_REPLY(status)" (with_flags (answer_flags tx (Err e)) (SetTargetHandle maxUint32 zeroTD))
      (Some (le_bytes 4 (u32 (statusCodeFromError (Some e))))) None (set_user w' s1) Hs1) as (rtx & Hcar & Hlog).
    exists rtx. split; [destruct Hcar; by split|exact Hlog].
Qed.
End Sender.

(** The reply transaction as the receiver sees it. *)
Record delivered {K W : Type} `{!BinderDevice K} (rtx : BinderTransactionData) (payload : list Z)
    (tx : BinderTransactionData) (c : KW K W) : Prop := {
  delivered_flags : td_Flags tx = td_Flags rtx;
  delivered_size : td_DataSize tx = td_DataSize rtx;
  delivered_offsets : td_OffsetsSize tx = td_OffsetsSize rtx;
  delivered_bytes : payload ≠ [] → td_DataBuffer tx ≠ 0 ∧
    td_DataBuffer tx + td_DataSize tx <= 2 ^ 64 ∧ td_DataSize tx <= maxAlloc ∧
    dev_peek (td_DataBuffer tx) (td_DataSize tx) (kw_dev c) = Some payload;
}.

Section Receiver.
Context {K W : Type} `{HD : !BinderDevice K}.

Lemma copy_delivered rtx payload tx (c : KW K W) : delivered rtx payload tx c →
  td_DataSize rtx = len payload → td_OffsetsSize rtx = 0 → len payload <= maxInt →
  copyTransactionPayload tx c = (Ok (clone_bytes payload, []), c).
Proof.
  intros [Hf Hs Ho Hb] Hsz Hoff Hmax. unfold copyTransactionPayload. rewrite Hs, Hsz, Ho, Hoff.
  destruct payload as [|x p]; [done|]. destruct (Hb ltac:(done)) as (Hne & Ha & Hm & Hpeek).
  rewrite Hs, Hsz in Ha, Hm, Hpeek. set (l := x :: p) in *.
  assert (0 < len l) by (subst l; cbn [length]; lia).
  assert (i64 (len l) = len l) as -> by (apply wraps_id; [lia|width]).
  assert (u64 (len l) = len l) as -> by (apply wrapu_id; width).
  rewrite (eqb_false (len l) 0), (eqb_false (td_DataBuffer tx) 0), Z.eqb_refl by lia. cbn [negb Z.eqb].
  rewrite (bind_ok _ _ _ _ _ (unsafe_Slice_ok _ (len l) c ltac:(lia) Ha)), (bind_ok _ _ _ _ _ (make_slice_ok "len" 1 (len l) c ltac:(lia))).
  by rewrite (bind_ok _ _ _ _ _ (read_memory_ok _ _ _ c Hpeek)).
Qed.

Lemma finish_delivered rtx payload tx (c : KW K W) c' : delivered rtx payload tx c →
  td_DataSize rtx = len payload → td_OffsetsSize rtx = 0 → len payload <= maxInt →
  free_reply tx c = (Ok tt, c') →
  finish_reply tx c =
    (if Z.land (td_Flags rtx) TFStatus =? 0 then Ok (clone_bytes payload, [])
     else Err (statusReplyError payload), c').
Proof.
  intros Hd H1 H2 H3 Hfree. unfold finish_reply, mbind, ST_bind.
  rewrite (copy_delivered rtx payload tx c) by done. rewrite (delivered_flags _ _ _ _ Hd).
  destruct (Z.land (td_Flags rtx) TFStatus =? 0); cbn [negb acquireParcelObjects fst snd];
    unfold mret, ST_ret; rewrite Hfree; [done|]. by destruct payload.
Qed.
End Receiver.

(** What the caller's transaction returns for the answer of the handler. *)
Definition caller_sees {W B} (r : res (option (Parcel W B))) : res (option (list Z) * list ParcelObject) :=
  match r with
  | Ok reply => Ok (Bytes reply, [])
  | Err e => Err (EStatusCode (statusCodeFromError (Some e)))
  | Panic y => Panic y
  end.

Section Exchange.
Context {K W B K2 W2 : Type} `{HD : !BinderDevice K} `{HL : !BinderDeviceLaws K} `{HD2 : !BinderDevice K2}.
Context (pid : Z) (locals : localRegistry W B).
Context (bR lR : option (Z → W → option B * W)).
Context (bO : option (ParcelObject → W → option B * W)) (lO : option (ParcelObject → Z → W → option B * W)).

(** C13: a handler's answer reaches its caller in another process: when a two-way
    transaction is dispatched and answered with data (no embedded objects) or an
    error, the server's only reply, delivered by the kernel with its flags, sizes
    and bytes to the caller, makes the caller's transaction return the same bytes,
    or the status code that stands for the error. *)
Theorem answer_reaches_caller ctx tx (s : KW K W) bytes objs s1 r w' :
  closed_driver s = false → oneway_tx tx = false →
  copyTransactionPayload tx s = (Ok (bytes, objs), s) → acquireParcelObjects objs s = (Ok tt, s1) →
  dispatchLocalTransaction pid locals ctx (td_Cookie tx) (td_Code tx) (request_parcel bR lR bO lO bytes objs)
    (td_Flags tx) (mkTx (td_Code tx) (td_Flags tx) (td_SenderPID tx) (td_SenderEUID tx) false)
    (kw_user s1) = (r, w') → no_panic r →
  (∀ reply, r = Ok reply → no_objects reply ∧ len (answer_payload r) <= maxInt) →
  (∀ e, r = Err e → in_s 32 (statusCodeFromError (Some e))) →
  ∃ rtx, replied tx rtx s1 (handleTransaction pid locals bR lR bO lO ctx tx s).2 ∧
    td_Flags rtx = answer_flags tx r ∧ td_DataSize rtx = len (answer_payload r) ∧ td_OffsetsSize rtx = 0 ∧
    ∀ (c : KW K2 W2) tx' c', delivered rtx (answer_payload r) tx' c → free_reply tx' c = (Ok tt, c') →
      finish_reply tx' c = (caller_sees r, c').
Proof.
  intros Hs Ho Hc Ha Hd Hn Hok Herr.
  destruct (answer_logged pid locals bR lR bO lO ctx tx s bytes objs s1 r w')
    as (rtx & Hrep & [Hf Hsz _ Hoff _]); try done; [by intros reply Hr; apply Hok|].
  assert (Hsize : td_DataSize rtx = len (answer_payload r)).
  { rewrite Hsz. by destruct (answer_payload r). }
  exists rtx. split_and!; [done|done|done|done|]. intros c tx' c' Hdel Hfree.
  assert (Hmax : len (answer_payload r) <= maxInt).
  { destruct r as [reply|e|y]; [by eapply Hok| |done]. cbn [answer_payload]. rewrite length_le_bytes.
    unfold maxInt. lia. }
  rewrite (finish_delivered rtx (answer_payload r) tx' c c') by done. rewrite Hf. cbn [with_flags td_Flags].
  f_equal. destruct r as [reply|e|y]; [| |done]; cbn [answer_flags caller_sees answer_payload].
  - rewrite <- Z.land_assoc. change (Z.land TFClearBuf TFStatus) with 0. rewrite Z.land_0_r. cbn.
    f_equal. f_equal. destruct reply as [p|]; [|done]. cbn. unfold Bytes. by destruct (buf p).
  - rewrite Z.land_lor_distr_l, <- Z.land_assoc. change (Z.land TFClearBuf TFStatus) with 0.
    rewrite Z.land_0_r. cbn [Z.lor]. change (Z.land TFStatus TFStatus) with 8. cbn [Z.eqb].
    f_equal. rewrite <- (app_nil_r (le_bytes 4 _)). apply statusReplyError_le_bytes. by apply Herr.
Qed.
End Exchange.

(** ** The example: the echo service's answers *)

Definition echo_client : KW script unit :=
  scripted (mkScript [] 0 65536 [(8192, le_bytes 4 (u32 StatusPermissionDenied))]) tt.

Definition denied_tx : BinderTransactionData := mkTD 0 0 0 TFStatus 0 0 4 0 8192 0.

Lemma answer_reaches_caller_witness :
  let s' := handleTransaction 1 echo_locals None None None None None (echo_tx 2) echo_state in
  ∃ rtx, replied (echo_tx 2) rtx echo_state s'.2 ∧
    (finish_reply denied_tx echo_client).1 = Err (EStatusCode StatusPermissionDenied).
Proof.
  destruct (answer_reaches_caller (K2:=script) (W2:=unit) 1 echo_locals None None None None None (echo_tx 2)
    echo_state (Some [1; 2; 3; 4]) [] echo_state (Err (ESentinel ErrPermissionDenied)) tt)
    as (rtx & Hrep & Hfl & Hsz & Hoff & Hfin); try reflexivity; try done.
  - intros e [= <-]. by vm_compute.
  - exists rtx. split; [exact Hrep|].
    rewrite (Hfin echo_client denied_tx (free_reply denied_tx echo_client).2); [reflexivity| |vm_compute; reflexivity].
    split; [by rewrite Hfl|by rewrite Hsz|by rewrite Hoff|by vm_compute].
Defined.
