(* ===== verification/Workers.v ===== *)
(** * Workers: the threads of the kernel backend

    Models the looper loop of src/internal/kernel/looper_worker.go,
    client_worker.go (the single thread outgoing calls run on), worker_manager.go,
    process_state.go and the life cycle of backend.go.  A client worker and its
    callers are a step relation: every call is answered once the environment is
    quiet, unless a task waits for a call of its own, which never ends. *)

From stdpp Require Import base list numbers strings pretty gmap relations.
From S2P Require Import Prelude Errors Unicode Parcel ParcelFacts Codec ObjectCodec Fields Slices Stability Dispatch Death Driver KernelTransact KernelFacts KernelProps.

Open Scope Z_scope.

(** ** The looper *)

Inductive looper_next := LooperContinue | LooperExit (lastErr : option error).

(** [errors.Is(err, syscall.EBADF)]: a system call error is its text. *)
Definition is_EBADF (e : error) : bool :=
  match e with EText m => String.eqb m "bad file descriptor" | _ => false end.

Definition shouldExitOnReadError (stopping : bool) (e : error) : bool :=
  if stopping then true else errors_Is e ErrDriverClosed || is_EBADF e.

Section Looper.
Context {K W B : Type} `{HD : !BinderDevice K}.
Context (pid : Z) (locals : localRegistry W B).
Context (bR lR : option (Z → W → option B * W)).
Context (bO : option (ParcelObject → W → option B * W)) (lO : option (ParcelObject → Z → W → option B * W)).

(** One turn of the loop of [Start]: [stop] and [stopping] say whether the stop
    channel is closed at the top of the turn and when an error is handled. *)
Definition looper_turn (stop stopping : bool) : KM (K:=K) (W:=W) looper_next :=
  if stop then mret (LooperExit None)
  else
    read ← try_k (Read 4096);
    match read with
    | inr e => mret (LooperExit (if shouldExitOnReadError stopping e then None else Some e))
    | inl bwr =>
        if bwr_ReadConsumed bwr =? 0 then mret LooperContinue
        else
          got ← consumed bwr;
          handled ← try_k (handleCommands pid locals bR lR bO lO (Some Background) got);
          match handled with
          | inr e => mret (LooperExit (if stopping then None else Some e))
          | inl _ => mret LooperContinue
          end
    end.

(** The thread: it enters the looper state, then turns until it leaves.  The list
    gives the stop channel's state at each turn. *)
Fixpoint looper_loop (turns : list (bool * bool)) : KM (K:=K) (W:=W) looper_next :=
  match turns with
  | [] => mret LooperContinue
  | (stop, stopping) :: rest =>
      next ← looper_turn stop stopping;
      match next with
      | LooperContinue => looper_loop rest
      | LooperExit e => mret (LooperExit e)
      end
  end.

Definition looper_start (turns : list (bool * bool)) : KM (K:=K) (W:=W) looper_next :=
  entered ← try_k EnterLooper;
  match entered with
  | inr e => mret (LooperExit (Some e))
  | inl _ => looper_loop turns
  end.
End Looper.

(** ** A client worker and its callers *)

Inductive worker := Idle | Running (task : nat) | Exited.

(** A call of [Do]: it offers its task, waits for the answer, has returned. *)
Inductive do_state := Sending | Waiting | Returned (err : option error).

(** [cw_calls] has the calls with the task whose run made them, if any;
    [cw_done] the buffered done channels that have been written. *)
Record client := mkClient {
  cw_worker : worker;
  cw_stop : bool;
  cw_calls : gmap nat (option nat * do_state);
  cw_done : gmap nat (option error);
}.

Definition NewClientWorker : client := mkClient Idle false ∅ ∅.

Definition has_returned (d : do_state) : bool := match d with Returned _ => true | _ => false end.

(** The calls the run of [task] is waiting for have returned. *)
Definition children_returned (task : nat) (c : client) : Prop :=
  ∀ j d, cw_calls c !! j = Some (Some task, d) → has_returned d = true.

Definition set_call (i : nat) (p : option nat) (d : do_state) (c : client) : client :=
  mkClient (cw_worker c) (cw_stop c) (<[i := (p, d)]> (cw_calls c)) (cw_done c).

(** Steps the system takes by itself. *)
Inductive cstep : client → client → Prop :=
| CAccept c i p : cw_worker c = Idle → cw_calls c !! i = Some (p, Sending) →
    cstep c (mkClient (Running i) (cw_stop c) (<[i := (p, Waiting)]> (cw_calls c)) (cw_done c))
| CFinish c i err : cw_worker c = Running i → children_returned i c →
    cstep c (mkClient Idle (cw_stop c) (cw_calls c) (<[i := err]> (cw_done c)))
| CReply c i p err : cw_calls c !! i = Some (p, Waiting) → cw_done c !! i = Some err →
    cstep c (set_call i p (Returned err) c)
| CExit c : cw_worker c = Idle → cw_stop c = true →
    cstep c (mkClient Exited (cw_stop c) (cw_calls c) (cw_done c))
| CGone c i p d : cw_worker c = Exited → cw_calls c !! i = Some (p, d) → has_returned d = false →
    cstep c (set_call i p (Returned (Some (ESentinel ErrNoClientWorker))) c).

(** Steps of the environment: a call is made (by the run of the current task or
    from outside), its context is cancelled, the worker is closed. *)
Inductive estep : client → client → Prop :=
| ECall c i p : cw_calls c !! i = None → cw_done c !! i = None →
    match p with Some t => cw_worker c = Running t | None => True end →
    estep c (set_call i p Sending c)
| ECancel c i p d e : cw_calls c !! i = Some (p, d) → has_returned d = false →
    estep c (set_call i p (Returned (Some e)) c)
| EClose c : estep c (mkClient (cw_worker c) true (cw_calls c) (cw_done c)).

Definition anystep (c c' : client) : Prop := cstep c c' ∨ estep c c'.

(** ** What holds in every state *)

Record client_inv (c : client) : Prop := {
  ci_running t : cw_worker c = Running t →
    cw_done c !! t = None ∧ ∃ p d, cw_calls c !! t = Some (p, d) ∧ d ≠ Sending;
  ci_waiting i p : cw_calls c !! i = Some (p, Waiting) →
    cw_worker c = Running i ∨ is_Some (cw_done c !! i);
  ci_sending i p : cw_calls c !! i = Some (p, Sending) → cw_done c !! i = None;
  ci_exited : cw_worker c = Exited → cw_stop c = true;
}.

Lemma client_inv_new : client_inv NewClientWorker.
Proof. split; cbn; [done|intros i p; by rewrite lookup_empty..|done]. Qed.

Lemma client_inv_step c c' : anystep c c' → client_inv c → client_inv c'.
Proof.
  intros Hstep [Hrun Hwait Hsend Hexit]. destruct Hstep as [Hstep|Hstep]; destruct Hstep; unfold set_call.
  - split; cbn; try by eauto.
    + intros t [= <-]. split; [by eapply Hsend|]. rewrite lookup_insert_eq. by do 2 eexists.
    + intros j q. rewrite lookup_insert_Some. intros [[<- _]|[Hne Hj]]; [by left|].
      destruct (Hwait j q Hj) as [E|?]; [congruence|by right].
    + intros j q. rewrite lookup_insert_Some. intros [[_ ?]|[Hne Hj]]; [done|by eapply Hsend].
  - split; cbn; [done| | |done].
    + intros j q Hj. rewrite lookup_insert. case_decide; [right; eauto|].
      destruct (Hwait j q Hj) as [E|?]; [congruence|by right].
    + intros j q Hj. destruct (Hrun i) as (_ & p & d & Hi & Hd); [done|].
      rewrite lookup_insert_ne; [by eapply Hsend|]. intros ->. congruence.
  - split; cbn; try by eauto.
    + intros t Ht. destruct (Hrun t Ht) as (Hd & q & d & Hi & Hn). split; [done|].
      rewrite lookup_insert. case_decide; [by do 2 eexists|eauto].
    + intros j q. rewrite lookup_insert_Some. intros [[_ ?]|[_ Hj]]; [done|by eapply Hwait].
    + intros j q. rewrite lookup_insert_Some. intros [[_ ?]|[_ Hj]]; [done|by eapply Hsend].
  - split; cbn; [done| |done|done]. intros j q Hj. destruct (Hwait j q Hj); [congruence|by right].
  - split; cbn; try by eauto.
    + intros t Ht. congruence.
    + intros j q. rewrite lookup_insert_Some. intros [[_ ?]|[_ Hj]]; [done|by eapply Hwait].
    + intros j q. rewrite lookup_insert_Some. intros [[_ ?]|[_ Hj]]; [done|by eapply Hsend].
  - split; cbn; try by eauto.
    + intros t Ht. destruct (Hrun t Ht) as (Hd & q & d & Hi & Hn). split; [done|].
      rewrite lookup_insert_ne by congruence. eauto.
    + intros j q. rewrite lookup_insert_Some. intros [[_ ?]|[_ Hj]]; [done|by eapply Hwait].
    + intros j q. rewrite lookup_insert_Some. intros [[<- _]|[_ Hj]]; [done|by eapply Hsend].
  - split; cbn; try by eauto.
    + intros t Ht. destruct (Hrun t Ht) as (Hd & q & d' & Hi & Hn). split; [done|].
      rewrite lookup_insert. case_decide; [by do 2 eexists|eauto].
    + intros j q. rewrite lookup_insert_Some. intros [[_ ?]|[_ Hj]]; [done|by eapply Hwait].
    + intros j q. rewrite lookup_insert_Some. intros [[_ ?]|[_ Hj]]; [done|by eapply Hsend].
  - split; cbn; eauto.
Qed.

Lemma client_inv_reachable c : rtc anystep NewClientWorker c → client_inv c.
Proof.
  intros H. remember NewClientWorker as c0 eqn:E. assert (Hinv : client_inv c0) by (subst; apply client_inv_new).
  clear E. induction H as [|x y z Hs _ IH]; [done|]. apply IH. by eapply client_inv_step.
Qed.

(** ** Every call is answered *)

Definition do_weight (d : do_state) : nat :=
  match d with Sending => 3 | Waiting => 1 | Returned _ => 0 end.

Definition worker_weight (w : worker) : nat :=
  match w with Running _ => 2 | Idle => 1 | Exited => 0 end.

(** An upper bound on the steps the system can still take by itself. *)
Definition calls_weight (m : gmap nat (option nat * do_state)) : nat :=
  map_fold (λ _ x acc, do_weight x.2 + acc)%nat 0%nat m.

Definition pending_work (c : client) : nat := (worker_weight (cw_worker c) + calls_weight (cw_calls c))%nat.

Lemma calls_weight_update m i p d p' d' : m !! i = Some (p, d) →
  (calls_weight (<[i := (p', d')]> m) + do_weight d = calls_weight m + do_weight d')%nat.
Proof.
  intros Hi. unfold calls_weight. rewrite <- insert_delete_eq.
  rewrite (map_fold_delete_L _ _ i _ m) by (intros; lia || done).
  rewrite map_fold_insert_L; [cbn; lia|intros; lia|by rewrite lookup_delete_eq].
Qed.

Lemma cstep_work c c' : cstep c c' → (pending_work c' < pending_work c)%nat.
Proof.
  unfold pending_work. destruct 1; unfold set_call; cbn [cw_worker cw_calls];
    try match goal with H : cw_calls _ !! _ = Some (?p, ?d) |- context [<[?i := (_, ?d')]> (cw_calls _)] =>
      pose proof (calls_weight_update _ _ _ _ p d' H) end;
    repeat match goal with H : cw_worker _ = _ |- _ => rewrite H in * end; cbn in *; try lia.
  match goal with H : has_returned ?d = false |- _ => destruct d; cbn in *; lia || done end.
Qed.

(** No run waits for a call of its own. *)
Definition no_nested (c : client) : Prop :=
  ∀ j t d, cw_calls c !! j = Some (Some t, d) → has_returned d = true.

Lemma no_nested_step c c' : cstep c c' → no_nested c → no_nested c'.
Proof.
  intros Hs Hn j t d. destruct Hs; unfold set_call; cbn; try apply Hn.
  all: rewrite lookup_insert_Some; intros [[<- ?]|[_ Hj]]; simplify_eq; try done; try (by eapply Hn).
  match goal with H : cw_calls c !! _ = Some (Some t, Sending) |- _ => by specialize (Hn _ _ _ H) end.
Qed.

Lemma cstep_progress c i p d : client_inv c → no_nested c → cw_calls c !! i = Some (p, d) →
  has_returned d = false → ∃ c', cstep c c'.
Proof.
  intros [Hrun Hwait _ _] Hn Hi Hd. destruct (cw_worker c) as [|t|] eqn:Ew.
  - destruct d; [eexists; by eapply CAccept| |done].
    destruct (Hwait i p Hi) as [?|[e He]]; [done|]. eexists. by eapply CReply.
  - eexists. eapply (CFinish c t None); [done|]. intros j d' Hj. by eapply Hn.
  - eexists. by eapply CGone.
Qed.

(** What the system's own steps make of a call that has not returned. *)
Definition served (c' : client) (i : nat) (p : option nat) : Prop :=
  ∃ d, cw_calls c' !! i = Some (p, d) ∧
    match d with Returned e => cw_done c' !! i = Some e | _ => True end.

Lemma served_step c c' i p : client_inv c → cw_stop c = false → cstep c c' → served c i p → served c' i p.
Proof.
  intros [Hrun _ _ Hexit] Hst Hs (d & Hi & Hd). unfold served.
  destruct Hs as [c k q Hw Hk|c k e Hw Hch|c k q e Hk Hdk|c Hw Hs|c k q dk Hw Hk Hr]; unfold set_call; cbn.
  - rewrite lookup_insert. case_decide; simplify_eq; eauto.
  - destruct (Hrun k Hw) as (Hnone & _). exists d. split; [done|]. destruct d as [| |e']; [done..|].
    rewrite lookup_insert_ne; [done|]. intros ->. congruence.
  - rewrite lookup_insert. case_decide; simplify_eq; eauto.
  - eauto.
  - exfalso. specialize (Hexit Hw). congruence.
Qed.

Lemma cstep_stop c c' : cstep c c' → cw_stop c' = cw_stop c.
Proof. by destruct 1. Qed.

(** C16: every call is answered, by the run of its own task: from any reachable
    state of a client worker that is not being closed, where no task waits for a
    call of its own, the worker and its callers stop after a bounded number of
    steps, and when no step is left every call that was pending has returned the
    error its own task ended with. *)
Theorem calls_answered c : rtc anystep NewClientWorker c → no_nested c → cw_stop c = false →
  (∀ n c', nsteps cstep n c c' → (n <= pending_work c)%nat) ∧
  ∀ c', rtc cstep c c' → nf cstep c' →
    ∀ i p d, cw_calls c !! i = Some (p, d) → has_returned d = false →
      ∃ e, cw_calls c' !! i = Some (p, Returned e) ∧ cw_done c' !! i = Some e.
Proof.
  intros Hreach Hn Hst. pose proof (client_inv_reachable c Hreach) as Hinv. split.
  - intros n c' H. clear -H. induction H as [|n x y z Hs _ IH]; [lia|]. apply cstep_work in Hs. lia.
  - intros c' Hrun Hnf i p d Hi Hd.
    assert (H : client_inv c' ∧ no_nested c' ∧ cw_stop c' = false ∧ served c' i p).
    { assert (Hser : served c i p) by (exists d; by destruct d). clear Hi Hd Hnf Hreach.
      induction Hrun as [|x y z Hs _ IH]; [done|].
      apply IH; [by eapply no_nested_step|by rewrite (cstep_stop _ _ Hs)| |by eapply served_step].
      eapply client_inv_step; [by left|done]. }
    destruct H as (Hinv' & Hn' & _ & d' & Hi' & Hd').
    destruct d' as [| |e]; [..|eauto]; destruct Hnf; by eapply cstep_progress.
Qed.

(** A task that calls back into its own worker hangs: once the run of the
    current task has made a call through the same client worker, no step of the
    system, no other call and not even closing the worker gets either of them
    anywhere; only cancelling the call's context does. *)
Theorem nested_call_deadlocks c t j : rtc anystep NewClientWorker c →
  cw_worker c = Running t → cw_calls c !! j = Some (Some t, Sending) →
  ∀ c', rtc (λ a b, cstep a b ∨ (estep a b ∧ cw_calls b !! j = cw_calls a !! j)) c c' →
    cw_worker c' = Running t ∧ cw_calls c' !! j = Some (Some t, Sending).
Proof.
  intros _ Hw Hj c' H. induction H as [|x y z Hs _ IH]; [done|]. apply IH.
  - destruct Hs as [Hs|[Hs _]].
    + destruct Hs as [x k q Hk|x k e Hk Hch| |x Hk _|x k q d Hk]; unfold set_call; cbn; try congruence.
      assert (k = t) as -> by congruence. by specialize (Hch j Sending Hj).
    + by destruct Hs.
  - destruct Hs as [Hs|[Hs ->]]; [|done].
    destruct Hs as [x k q Hk|x k e Hk Hch|x k q e Hk Hd|x Hk _|x k q d Hk]; unfold set_call; cbn; try congruence.
    rewrite lookup_insert_ne; [done|]. intros ->. congruence.
Qed.

Definition one_call : client := set_call 0%nat None Sending NewClientWorker.
Definition one_running : client :=
  mkClient (Running 0) false (<[0%nat := (None, Waiting)]> (cw_calls one_call)) ∅.
Definition nested_call : client := set_call 1%nat (Some 0%nat) Sending one_running.

Lemma one_task_reachable : rtc anystep NewClientWorker one_call.
Proof. apply rtc_once. right. by apply (ECall NewClientWorker 0%nat None). Qed.

Lemma nested_call_reachable : rtc anystep NewClientWorker nested_call.
Proof.
  etrans; [apply one_task_reachable|].
  eapply rtc_l; [left; by apply (CAccept one_call 0%nat None)|].
  apply rtc_once. right. by apply (ECall one_running 1%nat (Some 0%nat)).
Qed.

Lemma calls_answered_witness : rtc anystep NewClientWorker one_call ∧
  ∀ n c', nsteps cstep n one_call c' → (n <= 4)%nat.
Proof.
  split; [exact one_task_reachable|].
  apply (calls_answered one_call one_task_reachable); [|reflexivity].
  intros j t d. unfold one_call, set_call. cbn. rewrite lookup_insert_Some.
  intros [[_ ?]|[_ H]]; [done|by rewrite lookup_empty in H].
Defined.

Lemma nested_call_deadlocks_witness : rtc anystep NewClientWorker nested_call ∧
  ∀ c', rtc (λ a b, cstep a b ∨ (estep a b ∧ cw_calls b !! 1%nat = cw_calls a !! 1%nat)) nested_call c' →
    cw_worker c' = Running 0 ∧ cw_calls c' !! 1%nat = Some (Some 0%nat, Sending).
Proof.
  split; [exact nested_call_reachable|].
  exact (nested_call_deadlocks nested_call 0 1 nested_call_reachable eq_refl eq_refl).
Defined.

(** ** The manager and the process *)

Record StartOptions := mkOptions { opt_LooperWorkers : Z; opt_ClientWorkers : Z }.

Definition DefaultStartOptions : StartOptions := mkOptions 1 1.

(** Workers are known by name. *)
Record WorkerManager := mkManager {
  wm_Loopers : list string; wm_Clients : list string; wm_started : bool;
}.

Definition NewWorkerManager : WorkerManager := mkManager [] [] false.

(** [close(w.stop); <-w.done] of every worker, in turn: [ends] says whether a
    worker that is told to stop ends; Close waits for one that does not, and
    never returns ([None]). *)
Definition Workers_Close (ends : string → bool) (m : WorkerManager) : option WorkerManager :=
  if forallb ends (wm_Loopers m ++ wm_Clients m) then Some (mkManager [] [] false) else None.

Definition worker_name (kind : string) (i : nat) : string :=
  ("binder-" +:+ kind +:+ "-" +:+ pretty i)%string.

(** The loop that starts [n] workers; [start i] is the error of the i-th one.
    The workers started, and the error the loop stops at. *)
Fixpoint start_workers (kind : string) (start : nat → option error) (i n : nat) (acc : list string)
  : list string * option error :=
  match n with
  | O => (acc, None)
  | S n' =>
      match start i with
      | Some e => (acc, Some e)
      | None => start_workers kind start (S i) n' (acc ++ [worker_name kind i])
      end
  end.

Definition worker_count (n : Z) : nat := if n <=? 0 then 1 else Z.to_nat n.

(** [looper i] is the error of EnterLooper on the i-th looper thread; a client
    worker's Start has none.  A start that fails closes the workers it has
    started, and waits for them. *)
Definition Workers_Start (opts : StartOptions) (looper : nat → option error) (ends : string → bool)
    (m : WorkerManager) : option (option error * WorkerManager) :=
  if wm_started m then Some (None, m)
  else
    match start_workers "looper" looper 0 (worker_count (opt_LooperWorkers opts)) [] with
    | (loopers, Some e) => (λ m', (Some e, m')) <$> Workers_Close ends (mkManager loopers (wm_Clients m) false)
    | (loopers, None) =>
        match start_workers "client" (λ _, None) 0 (worker_count (opt_ClientWorkers opts)) [] with
        | (clients, Some e) => (λ m', (Some e, m')) <$> Workers_Close ends (mkManager loopers clients false)
        | (clients, None) => Some (None, mkManager loopers clients true)
        end
    end.

Definition Client (m : WorkerManager) : res string :=
  match wm_Clients m with [] => Err (ESentinel ErrNoClientWorker) | c :: _ => Ok c end.

(** The backend's calls on the device: each runs on the first client worker, here
    to its end (a cancelled context only changes who hears of the result). *)
Section OnClient.
Context {K W B : Type} `{HD : !BinderDevice K}.
Implicit Types m : WorkerManager.

Definition on_client {A} m (run : KM (K:=K) (W:=W) A) : KM (K:=K) (W:=W) A :=
  match Client m with Ok _ => run | Err e => throw e | Panic y => panic y end.

Definition Backend_AcquireHandle m (handle : Z) : KM (K:=K) (W:=W) unit :=
  if handle =? 0 then mret tt else on_client m (AcquireHandle handle).

Definition Backend_ReleaseHandle m (handle : Z) : KM (K:=K) (W:=W) unit :=
  if handle =? 0 then mret tt else on_client m (ReleaseHandle handle).

Definition requestDeathNotification m (handle cookie : Z) : KM (K:=K) (W:=W) unit :=
  on_client m (RequestDeathNotification handle cookie).

Definition clearDeathNotification m (handle cookie : Z) : KM (K:=K) (W:=W) unit :=
  on_client m (ClearDeathNotification handle cookie).
End OnClient.

Record ProcessState := mkProcess {
  ps_DriverPath : string; ps_Started : bool; ps_LooperWorkers : Z; ps_ClientWorkers : Z;
}.

Definition NewProcessState (path : string) : ProcessState := mkProcess path false 0 0.
Definition MarkStarted (opts : StartOptions) (p : ProcessState) : ProcessState :=
  mkProcess (ps_DriverPath p) true (opt_LooperWorkers opts) (opt_ClientWorkers opts).
Definition MarkStopped (p : ProcessState) : ProcessState := mkProcess (ps_DriverPath p) false 0 0.

(** ** The backend's life cycle *)

(** [be_os]: what the process holds of the device; [be_threads]: the worker
    threads that run. *)
Record Backend (K W : Type) := mkBackend {
  be_driver : KW K W; be_process : ProcessState; be_workers : WorkerManager;
  be_os : OS; be_threads : list string;
}.
Arguments mkBackend {K W} _ _ _ _ _.
Arguments be_driver {K W} _.
Arguments be_process {K W} _.
Arguments be_workers {K W} _.
Arguments be_os {K W} _.
Arguments be_threads {K W} _.

Definition DefaultDriverPath : string := "/dev/binder".

Section Backend.
Context {K W : Type}.

Definition NewBackend (path : string) (dev : K) (w : W) : Backend K W :=
  let path := if String.eqb path "" then DefaultDriverPath else path in
  mkBackend (mkKW false false false (Some newDeathRegistry) dev w []) (NewProcessState path) NewWorkerManager
    (mkOS 0 0) [].

(** The answers of the system calls, and which workers end when they are told to
    stop: [ends_open] while the driver is open, when a looper may sit in a read
    the kernel does not answer, [ends_closed] once it is closed. *)
Record LifeWorld := mkLife {
  lw_open : option error; lw_mmap : option error; lw_munmap : option error; lw_close : option error;
  lw_looper : nat → option error; lw_ends_open : string → bool; lw_ends_closed : string → bool;
}.

(** The threads that run after the manager has gone from [m] to [m']: the ones it
    started are new, the ones it has waited for have ended. *)
Definition threads_after (m m' : WorkerManager) (ts : list string) : list string :=
  if wm_started m' then (if wm_started m then ts else ts ++ wm_Loopers m' ++ wm_Clients m')
  else list_difference ts (wm_Loopers m ++ wm_Clients m).

Definition Backend_Start (opts : StartOptions) (lw : LifeWorld) (b : Backend K W)
  : option (option error * Backend K W) :=
  match Open (lw_open lw) (lw_mmap lw) (be_os b) (be_driver b) with
  | (Some e, os, d) => Some (Some e, mkBackend d (be_process b) (be_workers b) os (be_threads b))
  | (None, os, d) =>
      r ← Workers_Start opts (lw_looper lw) (lw_ends_open lw) (be_workers b);
      let ts := threads_after (be_workers b) r.2 (be_threads b) in
      match r with
      | (Some e, m) =>
          let '(_, os', d') := Driver_Close (lw_munmap lw) (lw_close lw) os d in
          Some (Some e, mkBackend d' (be_process b) m os' ts)
      | (None, m) => Some (None, mkBackend d (MarkStarted opts (be_process b)) m os ts)
      end
  end.

Definition Backend_Close (lw : LifeWorld) (b : Backend K W) : option (option error * Backend K W) :=
  let d0 := be_driver b in
  let d1 := match kw_deaths d0 with
            | Some r => let '(fs, r') := Close r in set_deaths (run_finishes fs r') d0
            | None => d0
            end in
  let '(driverErr, os, d2) := Driver_Close (lw_munmap lw) (lw_close lw) (be_os b) d1 in
  m ← Workers_Close (lw_ends_closed lw) (be_workers b);
  Some (driverErr, mkBackend d2 (MarkStopped (be_process b)) m os
                     (threads_after (be_workers b) m (be_threads b))).

(** The backend is either wholly up (the device open once and mapped, at least
    one looper and one client, no other thread, process marked started) or wholly
    down (no descriptor, no worker, no thread); [n] mappings are left over from
    munmaps that failed. *)
Definition up (n : nat) (b : Backend K W) : Prop :=
  kw_opened (be_driver b) = true ∧ kw_file (be_driver b) = true ∧ kw_mmap (be_driver b) = true ∧
  be_os b = mkOS 1 (S n) ∧ wm_started (be_workers b) = true ∧
  wm_Loopers (be_workers b) ≠ [] ∧ wm_Clients (be_workers b) ≠ [] ∧
  be_threads b ⊆ wm_Loopers (be_workers b) ++ wm_Clients (be_workers b) ∧
  ps_Started (be_process b) = true.

Definition down (n : nat) (b : Backend K W) : Prop :=
  kw_opened (be_driver b) = false ∧ kw_file (be_driver b) = false ∧ kw_mmap (be_driver b) = false ∧
  be_os b = mkOS 0 n ∧ be_workers b = NewWorkerManager ∧ be_threads b = [] ∧
  ps_Started (be_process b) = false.

(** The mappings left over after a munmap. *)
Definition after_munmap (lw : LifeWorld) (n : nat) : nat := match lw_munmap lw with Some _ => S n | None => n end.

Lemma start_workers_ok kind start i n acc ws : start_workers kind start i n acc = (ws, None) →
  length ws = (length acc + n)%nat.
Proof.
  revert i acc. induction n as [|n IH]; intros i acc; cbn; [intros [= <-]; lia|].
  destruct (start i); [done|]. intros H%IH. rewrite length_app in H. cbn in H. lia.
Qed.

Lemma start_clients_ok n ws e i acc : start_workers "client" (λ _, None) i n acc = (ws, e) → e = None.
Proof. revert i acc. induction n as [|n IH]; intros i acc; cbn; [by intros [= _ <-]|apply IH]. Qed.

Lemma worker_count_pos n : (0 < worker_count n)%nat.
Proof. unfold worker_count. case_match; bools; lia. Qed.

Lemma list_difference_nil (ts ws : list string) : ts ⊆ ws → list_difference ts ws = [].
Proof.
  intros H. apply elem_of_nil_inv. intros x Hx. apply list_elem_of_difference in Hx as [Hx Hn]. by apply Hn, H.
Qed.

(** A worker that does not end when told to stop. *)
Definition stuck_worker (ends : string → bool) (ws : list string) : Prop := ∃ w, w ∈ ws ∧ ends w = false.

Lemma Workers_Close_spec ends m :
  match Workers_Close ends m with
  | Some m' => m' = NewWorkerManager
  | None => stuck_worker ends (wm_Loopers m ++ wm_Clients m)
  end.
Proof.
  unfold Workers_Close. destruct (forallb ends _) eqn:E; [done|].
  revert E. generalize (wm_Loopers m ++ wm_Clients m). intros ws. induction ws as [|w ws IH]; cbn; [done|].
  destruct (ends w) eqn:Ew; cbn; [|by exists w; split; [left|]].
  intros (v & Hv & He)%IH. exists v. split; [by right|done].
Qed.

(** The loopers a Start has running when it stops. *)
Definition started_loopers (opts : StartOptions) (lw : LifeWorld) : list string :=
  (start_workers "looper" (lw_looper lw) 0 (worker_count (opt_LooperWorkers opts)) []).1.

Lemma Workers_Start_spec opts lw :
  match Workers_Start opts (lw_looper lw) (lw_ends_open lw) NewWorkerManager with
  | Some (Some _, m') => m' = NewWorkerManager
  | Some (None, m') => wm_started m' = true ∧ length (wm_Loopers m') = worker_count (opt_LooperWorkers opts) ∧
                       length (wm_Clients m') = worker_count (opt_ClientWorkers opts)
  | None => stuck_worker (lw_ends_open lw) (started_loopers opts lw)
  end.
Proof.
  unfold Workers_Start, started_loopers. cbn [wm_started NewWorkerManager].
  destruct (start_workers "looper" _ _ _ _) as [ls [e|]] eqn:E1; cbn [fst].
  - pose proof (Workers_Close_spec (lw_ends_open lw) (mkManager ls [] false)) as Hc.
    cbn [wm_Clients]. destruct (Workers_Close _ _); [done|]. cbn in Hc. by rewrite app_nil_r in Hc.
  - destruct (start_workers "client" _ _ _ _) as [cs ec] eqn:E2.
    apply start_clients_ok in E2 as Ec. subst ec. apply start_workers_ok in E1, E2. done.
Qed.

Lemma Driver_Close_spec lw n (d : KW K W) :
  kw_opened d = true → kw_file d = true → kw_mmap d = true →
  (Driver_Close (lw_munmap lw) (lw_close lw) (mkOS 1 (S n)) d).1.2 = mkOS 0 (after_munmap lw n) ∧
  (Driver_Close (lw_munmap lw) (lw_close lw) (mkOS 1 (S n)) d).2 =
    mkKW false false false (kw_deaths d) (kw_dev d) (kw_user d) (kw_log d).
Proof.
  intros Ho Hf Hm. unfold Driver_Close, closePlatform, after_munmap. rewrite Ho, Hf, Hm.
  by destruct (lw_munmap lw).
Qed.

(** Starting from the state that is down. *)
Lemma start_down n opts lw (b : Backend K W) : down n b →
  match Backend_Start opts lw b with
  | Some (Some _, b') => down n b' ∨ down (after_munmap lw n) b'
  | Some (None, b') =>
      up n b' ∧ length (wm_Loopers (be_workers b')) = worker_count (opt_LooperWorkers opts) ∧
      length (wm_Clients (be_workers b')) = worker_count (opt_ClientWorkers opts) ∧
      be_threads b' = wm_Loopers (be_workers b') ++ wm_Clients (be_workers b')
  | None => stuck_worker (lw_ends_open lw) (started_loopers opts lw)
  end.
Proof.
  intros (Ho & Hf & Hm & Hos & Hw & Ht & Hp). unfold Backend_Start, Open, openPlatform.
  rewrite Ho, Hos, Hw, Ht. destruct (lw_open lw); [by left; split_and!|].
  destruct (lw_mmap lw); [by left; split_and!|].
  pose proof (Workers_Start_spec opts lw) as Hs.
  destruct (Workers_Start opts _ _ _) as [[[e|] m]|]; cbn [mbind option_bind snd]; [| |done].
  - subst m. unfold Driver_Close. cbn [kw_opened negb os_files os_maps].
    destruct (Driver_Close_spec lw n (mkKW true true true (kw_deaths (be_driver b)) (kw_dev (be_driver b))
      (kw_user (be_driver b)) (kw_log (be_driver b)))) as [E1 E2]; [done..|].
    unfold Driver_Close in E1, E2. cbn [kw_opened negb] in E1, E2.
    destruct (closePlatform _ _ _ _) as [[e' os'] d']. cbn in E1, E2. subst. right. by split_and!.
  - destruct Hs as (H1 & H2 & H3). unfold threads_after. rewrite H1. cbn [wm_started NewWorkerManager].
    pose proof (worker_count_pos (opt_LooperWorkers opts)).
    pose proof (worker_count_pos (opt_ClientWorkers opts)).
    split; [|done]. split_and!; try done; cbn; intros E; rewrite E in *; cbn in *; lia.
Qed.

Lemma close_spec n lw (b : Backend K W) : up n b ∨ down n b →
  match Backend_Close lw b with
  | Some (_, b') => down n b' ∨ down (after_munmap lw n) b'
  | None => up n b ∧ stuck_worker (lw_ends_closed lw) (wm_Loopers (be_workers b) ++ wm_Clients (be_workers b))
  end.
Proof.
  intros Hb. unfold Backend_Close. set (d1 := match kw_deaths _ with Some _ => _ | None => _ end).
  assert (Hd1 : kw_opened d1 = kw_opened (be_driver b) ∧ kw_file d1 = kw_file (be_driver b) ∧
                kw_mmap d1 = kw_mmap (be_driver b)).
  { unfold d1. destruct (kw_deaths (be_driver b)) as [r|]; [destruct (Close r)|]; done. }
  clearbody d1. destruct Hd1 as (E1 & E2 & E3).
  destruct Hb as [Hu|(Ho & Hf & Hm & Hos & Hw & Ht & Hp)].
  - destruct Hu as (Ho & Hf & Hm & Hos & Hw & Hl & Hc & Ht & Hp).
    rewrite Hos. destruct (Driver_Close_spec lw n d1) as [F1 F2]; [congruence..|].
    destruct (Driver_Close _ _ _ _) as [[e os] d2]. cbn in F1, F2. subst.
    pose proof (Workers_Close_spec (lw_ends_closed lw) (be_workers b)) as Hcl.
    destruct (Workers_Close _ _) as [m|]; cbn [mbind option_bind]; [|by split; [split_and!|]].
    subst m. right. split_and!; try done. cbn. by apply list_difference_nil.
  - unfold Driver_Close. rewrite E1, Ho, Hw. cbn. left. split_and!; try done; cbn; [congruence..|].
    by rewrite Ht.
Qed.

(** C17: starting and closing the backend is all or nothing.  After any sequence
    of Start and Close calls that returned, whatever system calls failed in them,
    the backend is wholly up (one descriptor of the device open and mapped, at
    least one looper and one client, process marked started) or wholly down (no
    descriptor, no worker, no thread, process not started).  A Start that returns
    an error leaves it down, however many workers it had started; one that
    succeeds leaves it up, with the number of threads asked for (one of each at
    least) all running when it was down; Close leaves it down.  A mapping is left
    over only where a munmap fails.  Start returns
    unless a looper it has started does not end when told to stop while the driver
    is still open (it may sit in a read, see [failed_start_waits_for_read]); Close
    returns unless a worker does not end once the driver is closed. *)
Theorem backend_all_or_nothing (n : nat) (b : Backend K W) opts lw : up n b ∨ down n b →
  match Backend_Start opts lw b with
  | Some (Some _, b') => down n b ∧ (down n b' ∨ down (after_munmap lw n) b')
  | Some (None, b') =>
      up n b' ∧ (down n b → length (wm_Loopers (be_workers b')) = worker_count (opt_LooperWorkers opts) ∧
                            length (wm_Clients (be_workers b')) = worker_count (opt_ClientWorkers opts) ∧
                            be_threads b' = wm_Loopers (be_workers b') ++ wm_Clients (be_workers b'))
  | None => down n b ∧ stuck_worker (lw_ends_open lw) (started_loopers opts lw)
  end ∧
  match Backend_Close lw b with
  | Some (_, b') => down n b' ∨ down (after_munmap lw n) b'
  | None => up n b ∧ stuck_worker (lw_ends_closed lw) (wm_Loopers (be_workers b) ++ wm_Clients (be_workers b))
  end.
Proof.
  intros Hb. split; [|by apply close_spec]. destruct Hb as [Hu|Hd].
  - pose proof Hu as (Ho & Hf & Hm & Hos & Hw & Hl & Hc & Ht & Hp).
    unfold Backend_Start, Open, Workers_Start, threads_after. rewrite Ho, Hw.
    cbn [mbind option_bind snd]. rewrite Hw. split; [by split_and!|]. intros (Hd & _). cbn in Hd. congruence.
  - pose proof (start_down n opts lw b Hd) as H. destruct (Backend_Start opts lw b) as [[[e|] b']|]; auto.
    destruct H. split; [done|]. by intros _.
Qed.
End Backend.

Definition calm : LifeWorld := mkLife None None None None (λ _, None) (λ _, true) (λ _, true).
(** The second looper cannot enter the looper state. *)
Definition second_fails : LifeWorld :=
  mkLife None None None None (λ i, if (i =? 1)%nat then Some (EText "invalid argument") else None)
    (λ _, true) (λ _, true).

Lemma backend_all_or_nothing_witness :
  let b := NewBackend "" (mkScript [] 0 0 []) tt in
  (∃ b', Backend_Start (mkOptions 2 0) calm b = Some (None, b') ∧ up 0 b') ∧
  (∃ e b', Backend_Start (mkOptions 2 0) second_fails b = Some (Some e, b') ∧ down 0 b').
Proof.
  intros b. assert (Hd : down 0 b) by (vm_compute; tauto). split.
  - pose proof (backend_all_or_nothing 0 b (mkOptions 2 0) calm (or_intror Hd)) as [H _].
    eexists. split; [vm_compute; reflexivity|]. exact (proj1 H).
  - pose proof (backend_all_or_nothing 0 b (mkOptions 2 0) second_fails (or_intror Hd)) as [H _].
    do 2 eexists. split; [vm_compute; reflexivity|]. destruct (proj2 H) as [H'|H']; exact H'.
Defined.

(** A Start that fails on its second looper waits for the first, which nothing
    wakes from its read: the driver is closed only after the wait (a defect, where
    the kernel brings the process no work). *)
Theorem failed_start_waits_for_read :
  Backend_Start (mkOptions 2 1)
    (mkLife None None None None (λ i, if (i =? 1)%nat then Some (EText "invalid argument") else None)
       (λ _, false) (λ _, true)) (NewBackend "" (mkScript [] 0 0 []) tt) = None.
Proof. vm_compute. reflexivity. Qed.

(** The process state repeats the options, not the threads: asked for no client
    thread the manager starts one, and the process says none. *)
Lemma process_state_misreports :
  ∃ b, Backend_Start (mkOptions 2 0) calm (NewBackend "" (mkScript [] 0 0 []) tt) = Some (None, b) ∧
       length (wm_Clients (be_workers b)) = 1%nat ∧ ps_ClientWorkers (be_process b) = 0.
Proof. eexists. split; [vm_compute; reflexivity|]. by vm_compute. Qed.

(** ** Defects of the command loops *)

Section Defects.
Context {K W B : Type} `{HD : !BinderDevice K}.
Context (pid : Z) (locals : localRegistry W B).
Context (bR lR : option (Z → W → option B * W)).
Context (bO : option (ParcelObject → W → option B * W)) (lO : option (ParcelObject → Z → W → option B * W)).

Definition reply_errors : list Z := [BRDeadReply; BRFailedReply; BRError].

Lemma looper_command_error cmd rest (s : KW K W) : cmd ∈ reply_errors →
  handleCommands pid locals bR lR bO lO (Some Background) (le_bytes 4 cmd ++ rest) s =
  (Err (EText ("kernel: unsupported looper command " +:+ hex cmd)%string), s).
Proof.
  intros Hc. unfold handleCommands. rewrite length_app, length_le_bytes.
  change (4 + length rest)%nat with (S (3 + length rest)). cbn [looper_commands].
  destruct (le_bytes 4 cmd ++ rest) as [|b l] eqn:E; [done|]. rewrite <- E.
  rewrite length_app, length_le_bytes. zif. clear E b l.
  unfold reply_errors in Hc. rewrite !elem_of_cons, elem_of_nil in Hc.
  destruct Hc as [->|[->|[->|[]]]]; rewrite take_field by done; reflexivity.
Qed.

(** A failed reply kills the looper (a defect): when the kernel tells a looper
    thread that the reply it sent could not be delivered (BR_DEAD_REPLY because the
    client died, BR_FAILED_REPLY or BR_ERROR), the thread does not go on serving:
    the turn ends with an error and the thread exits, with every command of the
    same buffer unread, though the driver is open and nobody asked it to stop. *)
Theorem failed_reply_kills_looper cmd rest (s : KW K W) bwr s1 :
  cmd ∈ reply_errors → Read 4096 s = (Ok bwr, s1) → bwr_ReadConsumed bwr ≠ 0 →
  consumed bwr s1 = (Ok (le_bytes 4 cmd ++ rest), s1) →
  looper_turn pid locals bR lR bO lO false false s =
    (Ok (LooperExit (Some (EText ("kernel: unsupported looper command " +:+ hex cmd)%string))), s1).
Proof.
  intros Hc Hr Hne Hgot. unfold looper_turn, mbind, ST_bind, try_k. rewrite Hr.
  rewrite (eqb_false (bwr_ReadConsumed bwr) 0) by done. rewrite Hgot.
  by rewrite (looper_command_error cmd rest s1 Hc).
Qed.

(** A one-way transaction that cannot be decoded ends the thread that got it. *)
Lemma undecodable_oneway ctx tx (s : KW K W) e : oneway_tx tx = true →
  copyTransactionPayload tx s = (Err e, s) →
  (handleTransaction pid locals bR lR bO lO ctx tx s).1 = Err e.
Proof.
  intros Ho Hc.
  assert (Hb : ∀ m : KM (K:=K) (W:=W) unit, (m s).1 = Err e → (defer_free tx m s).1 = Err e).
  { intros m Hm. unfold defer_free. case_match; [done|]. destruct (m s), (FreeBuffer _ _). done. }
  apply Hb. unfold mbind, ST_bind, try_k. rewrite Hc. unfold refuse. by rewrite Ho.
Qed.

(** A caller leaks the kernel's buffer when it cannot decode a reply (a
    defect): if copying the payload fails, the transaction returns the error
    and writes nothing to the device, so the buffer of the reply is never freed. *)
Theorem undecodable_reply_leaks tx (s : KW K W) e :
  copyTransactionPayload tx s = (Err e, s) → finish_reply tx s = (Err e, s).
Proof. intros Hc. unfold finish_reply, mbind, ST_bind. by rewrite Hc. Qed.
End Defects.

Definition dead_reply_state : KW script unit :=
  scripted (mkScript [le_bytes 4 BRDeadReply ++ le_bytes 4 BRNoop] 0 65536 []) tt.

Lemma failed_reply_kills_looper_witness :
  (looper_turn 1 echo_locals None None None None false false dead_reply_state).1 =
  Ok (LooperExit (Some (EText "kernel: unsupported looper command 0x7205"))).
Proof.
  destruct (Read 4096 dead_reply_state) as [[bwr|e|y] s1] eqn:E; vm_compute in E; [|done..].
  injection E as <- <-.
  rewrite (failed_reply_kills_looper 1 echo_locals None None None None BRDeadReply (le_bytes 4 BRNoop)
    dead_reply_state (mkBWR 0 0 [] 4096 8 (le_bytes 4 BRDeadReply ++ le_bytes 4 BRNoop ++ zeros 4088))
    (scripted (mkScript [] 0 65536 []) tt)).
  - vm_compute. reflexivity.
  - by left.
  - vm_compute. reflexivity.
  - done.
  - vm_compute. reflexivity.
Defined.

(** A reply that holds an object of a type the client does not know. *)
Definition odd_reply : BinderTransactionData := mkTD 0 0 0 0 0 0 24 8 4096 8192.
Definition odd_state : KW script unit :=
  scripted (mkScript [] 0 65536 [(4096, zeros 24); (8192, zeros 8)]) tt.

Lemma undecodable_reply_leaks_witness :
  finish_reply odd_reply odd_state =
  (Err (Errorf_w ErrParcelObjects "unsupported binder object type 0x0"), odd_state).
Proof. apply undecodable_reply_leaks. vm_compute. reflexivity. Defined.

(** A call that gives up leaves its reply to the next one: [quiet] reads bring
    nothing, then the reply to the first call arrives with the second. *)
Definition quiet : list Z := le_bytes 4 BRNoop ++ le_bytes 4 BRTransactionComplete.
Definition late_state : KW script unit :=
  scripted (mkScript (replicate 9 quiet ++ [quiet ++ le_bytes 4 BRReply ++ MarshalBinary (echo_tx 0)])
    0 65536 [(4096, [1; 2; 3; 4])]) tt.

(** The reply of an abandoned call answers the next one (a defect): a call
    whose first nine reads bring no reply (deaths, reference requests or nested
    calls may fill them) returns an error while its transaction is still
    outstanding; the reply, when it comes, is returned to the next call, to
    another handle and with another code, as its own. *)
Theorem late_reply_answers_next_call :
  let call := transactHandleParcel (B:=unit) 1 echo_locals None None None None None in
  let '(first, s1) := call 7 1 (Some [1; 0; 0; 0]) None 0 late_state in
  let '(second, s2) := call 8 2 (Some [2; 0; 0; 0]) None 0 s1 in
  is_ok first = false ∧ second = Ok (Some [1; 2; 3; 4], []) ∧
  kw_log s2 !! 0%nat = Some (le_bytes 4 BCTransaction ++ MarshalBinary (mkTD 7 0 1 16 0 0 4 0 65536 0)) ∧
  kw_log s2 !! 1%nat = Some (le_bytes 4 BCTransaction ++ MarshalBinary (mkTD 8 0 2 16 0 0 4 0 65556 0)).
Proof. vm_compute. auto. Qed.
