(* ===== verification/Conn.v ===== *)
(** * Conn: the Binders of a kernel connection

    Models src/conn.go, src/remote_binder.go, src/local_binder.go,
    src/subscription_wrapper.go and the forwarding functions of
    src/internal/runtime: proxies for remote handles that share the reference
    tracker of Refs, the device of Driver and the death registry of Death, and
    Binders for local nodes that go straight to Dispatch.  Each method runs to
    its end here; Refs and Death treat the interleavings. *)

From stdpp Require Import base list numbers strings pretty gmap.
From S2P Require Import Prelude Errors Unicode Parcel ParcelFacts Codec ObjectCodec Fields Slices Stability Dispatch Refs Death Driver KernelTransact KernelFacts KernelProps Workers.

Open Scope Z_scope.

Definition contextManagerHandle : Z := 0.

(** [kernelRemoteBinder]: [rmt_descriptor] is the cached descriptor. *)
Record kernelRemoteBinder := mkRemoteBinder {
  rmt_handle : Z; rmt_stability : Z; rmt_closed : bool; rmt_descriptor : option string;
}.

(** What the Binders of a connection share: the tracker, the proxies made so far
    (a proxy is its index) and the user's own world. *)
Record conn_world (U : Type) := mkCW {
  cn_refs : RefTracker; cn_remotes : list kernelRemoteBinder; cn_user : U;
}.
Arguments mkCW {U} _ _ _.
Arguments cn_refs {U} _.
Arguments cn_remotes {U} _.
Arguments cn_user {U} _.

Inductive kbinder := KRemote (i : nat) | KLocal (nodeID stability : Z).

Section Conn.
Context {K U : Type} `{HD : !BinderDevice K}.
Abbreviation CW := (conn_world U).
Implicit Types (w : CW) (s : KW K CW).

Record Conn := mkConn {
  conn_locals : localRegistry CW kbinder;
  conn_workers : WorkerManager;
  conn_requiredStability : Z;
  conn_pid : Z;
  conn_euid : Z;
}.

Definition set_refs (r : RefTracker) w : CW := mkCW r (cn_remotes w) (cn_user w).
Definition set_remotes (l : list kernelRemoteBinder) w : CW := mkCW (cn_refs w) l (cn_user w).

(** ** Making Binders *)

Definition retainBinder (handle : Z) w : CW :=
  if handle =? 0 then w else set_refs (RetainBinder handle (cn_refs w)) w.
Definition markHandleAcquired (handle : Z) w : CW :=
  if handle =? 0 then w else set_refs (MarkAcquired handle (cn_refs w)) w.

Definition newRemoteBinderWithStability (handle stability : Z) w : kbinder * CW :=
  let w' := set_remotes (cn_remotes w ++ [mkRemoteBinder handle stability false None]) w in
  (KRemote (length (cn_remotes w)), if handle =? 0 then w' else retainBinder handle w').

Definition newRemoteBinder (handle : Z) w : kbinder * CW :=
  newRemoteBinderWithStability handle DefaultLocalStability w.

Definition Conn_Handle (handle : Z) w : kbinder * CW := newRemoteBinder handle w.
Definition ContextManager w : kbinder * CW := Conn_Handle contextManagerHandle w.

Definition resolveBinderHandle (handle : Z) w : option kbinder * CW :=
  let '(b, w') := newRemoteBinder handle (markHandleAcquired handle w) in (Some b, w').

Definition resolveBinderObject (obj : ParcelObject) w : option kbinder * CW :=
  let '(b, w') := newRemoteBinderWithStability (obj_Handle obj) (obj_Stability obj)
                    (markHandleAcquired (obj_Handle obj) w) in (Some b, w').

Definition resolveLocalBinder (nodeID : Z) w : option kbinder * CW :=
  (if nodeID =? 0 then None else Some (KLocal nodeID DefaultLocalStability), w).

Definition resolveLocalBinderObject (c : Conn) (obj : ParcelObject) (nodeID : Z) w : option kbinder * CW :=
  if nodeID =? 0 then (None, w)
  else
    let level := if obj_Stability obj =? StabilityUndeclared
                 then match localNodeByID nodeID (conn_locals c) with
                      | Some node => node_Stability node
                      | None => StabilityUndeclared
                      end
                 else obj_Stability obj in
    (Some (KLocal nodeID (if level =? StabilityUndeclared then DefaultLocalStability else level)), w).

Definition conn_registerLocalHandler (h : option (Handler CW kbinder)) (c : Conn) : res kbinder * Conn :=
  let '(r, l) := RegisterLocalNode h false (conn_locals c) in
  (result_map (λ node, KLocal (node_ID node) DefaultLocalStability) r,
   mkConn l (conn_workers c) (conn_requiredStability c) (conn_pid c) (conn_euid c)).

Definition conn_unregisterLocalNode (id : Z) (c : Conn) : Conn :=
  if id =? 0 then c
  else mkConn (UnregisterLocalNode id (conn_locals c)) (conn_workers c) (conn_requiredStability c)
         (conn_pid c) (conn_euid c).

(** ** References *)

Abbreviation CM := (KM (K:=K) (W:=CW)).

Definition modify (f : CW → CW) : CM unit := λ s, (Ok tt, set_user (f (kw_user s)) s).

Definition on_refs {A} (f : RefTracker → A * RefTracker) : CM A := λ s,
  let '(a, r) := f (cn_refs (kw_user s)) in (Ok a, set_user (set_refs r (kw_user s)) s).

(** [mapRuntimeError] around a call. *)
Definition mapped {A} (m : CM A) : CM A := λ s,
  let '(r, s') := m s in
  (match r with Err e => Err (default e (mapRuntimeError (Some e))) | _ => r end, s').

Definition releaseKernelHandle (c : Conn) (handle : Z) : CM unit :=
  if handle =? 0 then mret tt
  else
    r ← try_k (mapped (Backend_ReleaseHandle (conn_workers c) handle));
    match r with
    | inr e => if errors_Is e ErrDriverClosed then mret tt else throw e
    | inl _ => mret tt
    end.

Definition releaseBinder (c : Conn) (handle : Z) : CM unit :=
  if handle =? 0 then mret tt
  else rel ← on_refs (ReleaseBinder handle);
       if (rel : bool) then releaseKernelHandle c handle else mret tt.

Definition releaseWatch (c : Conn) (handle : Z) : CM unit :=
  if handle =? 0 then mret tt
  else rel ← on_refs (ReleaseWatch handle);
       if (rel : bool) then releaseKernelHandle c handle else mret tt.

(** The loop of [ensureHandleAcquired]: each element of [waits] is what other
    goroutines do to the tracker until the wait channel closes; after the last
    one the context is done with [ctxErr]. *)
Fixpoint ensureHandleAcquired (c : Conn) (ctxErr : error) (waits : list (RefTracker → RefTracker)) (handle : Z)
  : CM unit :=
  if handle =? 0 then mret tt
  else
    begin ← on_refs (BeginAcquire handle);
    match begin.2 with
    | Some _ =>
        match waits with
        | [] => throw ctxErr
        | f :: waits' => on_refs (λ r, (tt, f r));; ensureHandleAcquired c ctxErr waits' handle
        end
    | None =>
        if negb begin.1 then mret tt
        else
          r ← try_k (mapped (Backend_AcquireHandle (conn_workers c) handle));
          shouldRelease ← on_refs (FinishAcquire handle (match r with inl _ => true | inr _ => false end));
          match r with
          | inr e => throw e
          | inl _ => if (shouldRelease : bool) then releaseKernelHandle c handle else mret tt
          end
    end.

(** ** Remote Binders *)

Definition remote_at (i : nat) : CM kernelRemoteBinder := λ s,
  match cn_remotes (kw_user s) !! i with
  | Some b => (Ok b, s)
  | None => (Panic "nil pointer dereference", s)
  end.

Definition put_remote (i : nat) (b : kernelRemoteBinder) : CM unit :=
  modify (λ w, set_remotes (<[i := b]> (cn_remotes w)) w).

Definition rmt_checkOpen (b : kernelRemoteBinder) : option error :=
  if rmt_closed b then Some (ESentinel ErrClosed) else None.

(** The Binder's marshalling and label: the type assertions of src/binder. *)
Global Instance kbinder_marshal : BinderMarshal CW kbinder := {
  as_StabilityMarshaler b := Some (λ level,
    match b with
    | KRemote i => s ← get;
        match cn_remotes (world s) !! i with
        | Some rb => match rmt_checkOpen rb with
                     | Some e => throw e
                     | None => WriteStrongBinderHandleWithStability (rmt_handle rb) level
                     end
        | None => panic "nil pointer dereference"
        end
    | KLocal id _ => if id =? 0 then throw ErrUnsupported
                     else WriteStrongBinderLocalWithStability id id level
    end);
  as_Marshaler b := None;
  as_StabilityProvider b := Some (λ w,
    match b with
    | KRemote i => match cn_remotes w !! i with Some rb => rmt_stability rb | None => StabilityUndeclared end
    | KLocal _ level => level
    end);
  type_name b := match b with KRemote _ => "*libbinder.remoteBinder" | KLocal _ _ => "*libbinder.localBinder" end;
}.

Definition conn_resolvers (c : Conn) (p : option (Parcel CW kbinder)) : option (Parcel CW kbinder) :=
  SetBinderObjectResolvers (Some resolveBinderObject) (Some (resolveLocalBinderObject c))
    (SetBinderResolvers (Some resolveBinderHandle) (Some resolveLocalBinder) p).

Definition enforce (c : Conn) (ctx : option context) (b : kbinder) (code fl : Z) : CM unit := λ s,
  match EnforceTransactStability ctx b code fl (conn_requiredStability c) (kw_user s) with
  | Some e => (Err e, s)
  | None => (Ok tt, s)
  end.

Definition conn_TransactHandle (c : Conn) (ctx : option context) (handle code : Z)
    (data : option (Parcel CW kbinder)) (fl : Z) : CM (option (Parcel CW kbinder)) :=
  on_client (conn_workers c)
    (Backend_TransactHandle (conn_pid c) (conn_locals c) (Some resolveBinderHandle) (Some resolveLocalBinder)
       (Some resolveBinderObject) (Some (resolveLocalBinderObject c)) ctx handle code data fl).

Definition rmt_Transact (c : Conn) (ctx : option context) (ctxErr : error)
    (waits : list (RefTracker → RefTracker)) (i : nat) (code : Z) (data : option (Parcel CW kbinder)) (fl : Z)
  : CM (option (Parcel CW kbinder)) :=
  b ← remote_at i;
  match rmt_checkOpen b with
  | Some e => throw e
  | None =>
      enforce c ctx (KRemote i) code fl;;
      ensureHandleAcquired c ctxErr waits (rmt_handle b);;
      mapped (conn_TransactHandle c ctx (rmt_handle b) code data (PrepareTransactFlags fl))
  end.

(** Reading from a reply Parcel. *)
Definition read_parcel {A} (p : option (Parcel CW kbinder)) (m : PM CW kbinder A) : CM A := λ s,
  let '(r, st) := m (mkst p (kw_user s)) in (r, set_user (world st) s).

Definition nil_descriptor : error := Errorf_w ErrBadParcelable "interface descriptor reply was nil".

Definition rmt_Descriptor (c : Conn) (ctx : option context) (ctxErr : error)
    (waits : list (RefTracker → RefTracker)) (i : nat) : CM string :=
  b ← remote_at i;
  match rmt_checkOpen b with
  | Some e => throw e
  | None =>
      match rmt_descriptor b with
      | Some d => mret d
      | None =>
          reply ← rmt_Transact c ctx ctxErr waits i InterfaceTransaction (Some NewParcel) FlagNone;
          match reply with
          | None => throw nil_descriptor
          | Some _ =>
              desc ← read_parcel reply ReadString;
              b' ← remote_at i;
              let desc' := default desc (rmt_descriptor b') in
              put_remote i (mkRemoteBinder (rmt_handle b') (rmt_stability b') (rmt_closed b') (Some desc'));;
              mret desc'
          end
      end
  end.

(** [close]: the finalizer's and the explicit Close. *)
Definition rmt_close (c : Conn) (i : nat) : CM unit :=
  b ← remote_at i;
  if rmt_closed b then mret tt
  else
    put_remote i (mkRemoteBinder (rmt_handle b) (rmt_stability b) true (rmt_descriptor b));;
    if rmt_handle b =? 0 then mret tt
    else
      r ← try_k (releaseBinder c (rmt_handle b));
      match r with
      | inr e => if errors_Is e ErrDriverClosed then mret tt else throw e
      | inl _ => mret tt
      end.

(** ** Deaths *)

(** [deathRegistry.Watch] with the device's answer to the request. *)
Definition kernel_Watch (c : Conn) (ctxErr : option error) (handle : Z) : CM nat := λ s,
  match kw_deaths s with
  | None => (Err (ESentinel ErrUnsupportedPlatform), s)
  | Some d =>
      match ctxErr with
      | Some e => (Err e, s)
      | None =>
          match attach handle d with
          | (Ok (sub, false), d') => (Ok sub, set_deaths d' s)
          | (Ok (sub, true), d') =>
              match requestDeathNotification (conn_workers c) handle (nextCookie d') (set_deaths d' s) with
              | (Ok _, s2) => (Ok sub, s2)
              | (Err e, s2) => (Err e, match kw_deaths s2 with
                                       | Some d2 => set_deaths (rollback (length (watches d)) d2) s2
                                       | None => s2
                                       end)
              | (Panic y, s2) => (Panic y, s2)
              end
          | (Err e, d') => (Err e, set_deaths d' s)
          | (Panic y, d') => (Panic y, s)
          end
      end
  end.

(** [trackedSubscription]: the inner subscription, the handle it keeps retained
    and whether that was released. *)
Record trackedSubscription := mkTracked { ts_inner : nat; ts_handle : Z; ts_released : bool }.

Definition conn_watchDeath (c : Conn) (ctxErr : error) (waits : list (RefTracker → RefTracker))
    (ctxDone : option error) (handle : Z) : CM trackedSubscription :=
  ensureHandleAcquired c ctxErr waits handle;;
  modify (λ w, if handle =? 0 then w else set_refs (RetainWatch handle (cn_refs w)) w);;
  r ← try_k (kernel_Watch c ctxDone handle);
  match r with
  | inl sub => mret (mkTracked sub handle false)
  | inr e => try_k (releaseWatch c handle);; throw (default e (mapRuntimeError (Some e)))
  end.

(** [release], called when the inner subscription is done: sync.Once runs the
    release once, whatever it returned. *)
Definition tracked_release (c : Conn) (t : trackedSubscription) : CM (option error * trackedSubscription) :=
  if ts_released t then mret (None, t)
  else
    r ← try_k (releaseWatch c (ts_handle t));
    mret (match r with inl _ => None | inr e => Some e end, mkTracked (ts_inner t) (ts_handle t) true).

Definition rmt_WatchDeath (c : Conn) (ctxErr : error) (waits : list (RefTracker → RefTracker))
    (ctxDone : option error) (i : nat) : CM trackedSubscription :=
  b ← remote_at i;
  match rmt_checkOpen b with
  | Some e => throw e
  | None => conn_watchDeath c ctxErr waits ctxDone (rmt_handle b)
  end.

(** ** Local Binders *)

Definition local_conn_Transact (c : Conn) (ctx : option context) (nodeID stability code : Z)
    (data : option (Parcel CW kbinder)) (fl : Z) : CM (option (Parcel CW kbinder)) :=
  if nodeID =? 0 then throw ErrUnsupported
  else
    enforce c ctx (KLocal nodeID stability) code fl;;
    let p := conn_resolvers c (Some (default NewParcel data)) in
    r ← on_user (λ w,
      match SetPosition 0 (mkst p w) with
      | (Ok _, st) =>
          DispatchLocalTransaction (conn_pid c) (conn_euid c) (conn_locals c)
            (Some (default Background ctx)) nodeID code (ptr st) (PrepareTransactFlags fl) (world st)
      | (Err e, st) => (Err e, world st)
      | (Panic y, st) => (Panic y, world st)
      end);
    match r with
    | Ok reply => mret (conn_resolvers c reply)
    | Err e => throw (default e (mapRuntimeError (Some e)))
    | Panic y => panic y
    end.

Definition local_conn_Descriptor (c : Conn) (ctx : option context) (nodeID stability : Z) : CM string :=
  reply ← local_conn_Transact c ctx nodeID stability InterfaceTransaction (Some NewParcel) FlagNone;
  match reply with
  | None => throw nil_descriptor
  | Some _ => read_parcel reply ReadString
  end.
End Conn.
Arguments Conn U : clear implicits.
