(* ===== verification/ConnProps.v ===== *)
(** * ConnProps: the life of a remote Binder

    Theorems on Conn: closing a proxy gives its reference back exactly once and
    only when nobody else uses the handle, a closed proxy and a Binder of the
    wrong stability never reach the device, and a handle that is received twice
    keeps a kernel reference for ever (a defect). *)

From stdpp Require Import base list numbers strings pretty gmap.
From S2P Require Import Prelude Errors Unicode Parcel ParcelFacts Codec ObjectCodec Fields Slices Stability Dispatch Refs Death Driver KernelTransact KernelFacts KernelProps Workers Conn.

Open Scope Z_scope.

(** A device that takes every command. *)
Class AcceptingDevice (K : Type) `{!BinderDevice K} := {
  dev_accepts W what cmd payload (s : KW K W) : closed_driver s = false →
    (write_exactly what cmd payload s).1 = Ok tt;
}.

#[export] Instance script_accepts : AcceptingDevice script.
Proof.
  split. intros W what cmd payload s Hs. unfold write_exactly, WriteCommand, mbind, ST_bind. rewrite Hs.
  unfold WriteRead. set (bwr := mkBWR _ _ _ _ _ _).
  assert (H : ∀ n s0, sc_intr (kw_dev s0) = n → closed_driver s0 = false →
    ∃ b s1, write_read (W:=W) (S n) bwr s0 = (Ok b, s1) ∧ bwr_WriteConsumed b = bwr_WriteSize bwr).
  { induction n as [|n IH]; intros s0 Hn Hs0; cbn [write_read]; unfold Ioctl; rewrite Hs0; cbn [dev_ioctl script_device];
      unfold script_ioctl; rewrite Hn; [by do 2 eexists|]. by apply IH. }
  cbn [dev_signals script_device].
  destruct (H (sc_intr (kw_dev (log_write (le_bytes 4 cmd ++ payload) s)))
    (log_write (le_bytes 4 cmd ++ payload) s) eq_refl Hs) as (b & s1 & -> & ->).
  cbn [bwr_WriteSize bwr]. rewrite length_app, length_le_bytes.
  assert (Z.of_nat (4 + length payload) = 4 + len payload) as -> by lia. rewrite Z.eqb_refl. done.
Qed.

Section Close.
Context {K U : Type} `{HD : !BinderDevice K} `{HL : !BinderDeviceLaws K} `{HA : !AcceptingDevice K}.
Implicit Types (s : KW K (conn_world U)) (c : Conn U).

Definition handle_cmd (cmd h : Z) : list Z := le_bytes 4 cmd ++ le_bytes 4 h.

(** What a command leaves: the log, and nothing else but the device. *)
Lemma handle_command cmd h s : closed_driver s = false →
  ∃ k, WriteHandleCommand cmd h s = (Ok tt, set_dev k (log_write (handle_cmd cmd h) s)).
Proof.
  intros Hs. pose proof (dev_accepts _ ("handle command " +:+ hex cmd)%string cmd (le_bytes 4 h) s Hs) as H.
  unfold WriteHandleCommand. unfold write_exactly, WriteCommand, WriteRead, mbind, ST_bind in *. rewrite Hs in *.
  fold (handle_cmd cmd h) in *. set (s0 := log_write _ s) in *. set (bwr := mkBWR _ _ _ _ _ _) in *.
  assert (G : ∀ n b s1, ∃ k, (write_read n b s1).2 = set_dev k s1).
  { clear. induction n as [|n IH]; intros b s1; cbn [write_read]; [exists (kw_dev s1); by destruct s1|].
    unfold Ioctl. destruct (closed_driver s1); [exists (kw_dev s1); by destruct s1|].
    destruct (dev_ioctl b (kw_dev s1)) as [[[| |e] b'] k]; [by exists k| |by exists k].
    destruct (IH b' (set_dev k s1)) as [k' ->]. by exists k'. }
  destruct (G (S (dev_signals (kw_dev s0))) bwr s0) as [k Hk].
  destruct (write_read (S (dev_signals (kw_dev s0))) bwr s0) as [[b|e|y] s1]; [|done..]. cbn in *. subst.
  exists k. by destruct (negb _).
Qed.

Lemma release_commands c h s : closed_driver s = false → h ≠ 0 → is_ok (Client (conn_workers c)) = true →
  ∃ k, releaseKernelHandle c h s =
    (Ok tt, set_dev k (log_write (handle_cmd BCDecRefs h) (log_write (handle_cmd BCRelease h) s))).
Proof.
  intros Hs Hh Hc. unfold releaseKernelHandle, try_k, mapped, Backend_ReleaseHandle, on_client.
  rewrite (eqb_false h 0) by done. destruct (Client (conn_workers c)) as [n|e|y]; [|done..].
  unfold ReleaseHandle, mbind, ST_bind.
  destruct (handle_command BCRelease h s Hs) as [k1 ->].
  destruct (handle_command BCDecRefs h (set_dev k1 (log_write (handle_cmd BCRelease h) s)) Hs) as [k2 ->].
  by exists k2.
Qed.

(** Closing a proxy gives its handle back exactly once: when the handle is
    acquired, Close releases it on the device (BC_RELEASE, BC_DECREFS) if and only
    if no other proxy or death watch uses it; the tracker forgets the handle then,
    a second Close does nothing, and every later transaction is refused with
    ErrClosed without touching the device or the tracker. *)
Theorem close_releases_once c i b ref s :
  closed_driver s = false → is_ok (Client (conn_workers c)) = true →
  cn_remotes (kw_user s) !! i = Some b → rmt_closed b = false → rmt_handle b ≠ 0 →
  handles (cn_refs (kw_user s)) !! rmt_handle b = Some ref →
  Acquired ref = true → Acquiring ref = false → 0 < BinderRefs ref → 0 <= WatchRefs ref →
  let last := BinderRefs ref + WatchRefs ref =? 1 in
  ∃ s', rmt_close c i s = (Ok tt, s') ∧
    kw_log s' = kw_log s ++
      (if last then [handle_cmd BCRelease (rmt_handle b); handle_cmd BCDecRefs (rmt_handle b)] else []) ∧
    (handles (cn_refs (kw_user s')) !! rmt_handle b = None ↔ last = true) ∧
    rmt_close c i s' = (Ok tt, s') ∧
    ∀ ctx e ws code data fl, rmt_Transact c ctx e ws i code data fl s' = (Err (ESentinel ErrClosed), s').
Proof.
  intros Hs Hc Hi Hcl Hh Hr Haq Hag Hb Hw last.
  set (b' := mkRemoteBinder (rmt_handle b) (rmt_stability b) true (rmt_descriptor b)).
  assert (Hshut : ∀ s', cn_remotes (kw_user s') !! i = Some b' →
    rmt_close c i s' = (Ok tt, s') ∧
    ∀ ctx e ws code data fl, rmt_Transact c ctx e ws i code data fl s' = (Err (ESentinel ErrClosed), s')).
  { intros s' H. unfold rmt_close, rmt_Transact, remote_at, mbind, ST_bind. rewrite H. done. }
  assert (Hput : ∀ l : list kernelRemoteBinder, l !! i = Some b → <[i := b']> l !! i = Some b').
  { intros l Hl. apply list_lookup_insert_eq. by eapply lookup_lt_Some. }
  assert (Hclose : rmt_close c i s =
    let s1 := set_user (set_remotes (<[i := b']> (cn_remotes (kw_user s))) (kw_user s)) s in
    let '(r, s2) := releaseBinder c (rmt_handle b) s1 in
    match r with
    | Ok _ => (Ok tt, s2)
    | Err e => if errors_Is e ErrDriverClosed then (Ok tt, s2) else (Err e, s2)
    | Panic y => (Panic y, s2)
    end).
  { unfold rmt_close, remote_at, mbind, ST_bind. rewrite Hi, Hcl. unfold put_remote, modify.
    rewrite (eqb_false (rmt_handle b) 0) by done. unfold try_k. fold b'. cbv zeta.
    destruct (releaseBinder _ _ _) as [[?|e|?] s2]; [done| |done]. by destruct (errors_Is e ErrDriverClosed). }
  rewrite Hclose. clear Hclose. set (s1 := set_user _ s). cbv zeta.
  unfold releaseBinder, on_refs, ReleaseBinder, release, mbind, ST_bind.
  rewrite (eqb_false (rmt_handle b) 0) by done. cbn [kw_user s1 set_user set_remotes cn_refs]. rewrite Hr.
  rewrite !Z.gtb_ltb, (ltb_true 0 (BinderRefs ref)) by done. rewrite Hag, Haq.
  subst last. destruct (0 <? BinderRefs ref - 1 + WatchRefs ref) eqn:E; bools.
  - eexists. split; [done|]. rewrite (eqb_false (BinderRefs ref + WatchRefs ref) 1) by lia.
    split; [by rewrite app_nil_r|]. split; [|apply Hshut; by apply Hput].
    cbn. by rewrite lookup_insert_eq.
  - rewrite (eqb_true (BinderRefs ref + WatchRefs ref) 1) by lia.
    match goal with |- context [releaseKernelHandle c ?h ?x] =>
      destruct (release_commands c h x Hs Hh Hc) as [k ->] end.
    eexists. split; [done|]. split; [cbn; by rewrite <- app_assoc|].
    split; [cbn; by rewrite lookup_delete_eq|]. apply Hshut. by apply Hput.
Qed.
End Close.

(** ** A connection over the scripted device *)

Definition demo_conn : Conn unit :=
  mkConn newLocalRegistry (mkManager ["l"] ["c"] true) StabilitySystem 1 1000.

Definition demo_world : conn_world unit := (Conn_Handle 5 (mkCW NewRefTracker [] tt)).2.

(** The proxy of handle 5, acquired. *)
Definition acquired_state : KW script (conn_world unit) :=
  (ensureHandleAcquired demo_conn ErrCanceled [] 5 (scripted (mkScript [] 0 65536 []) demo_world)).2.

Lemma close_releases_once_witness :
  kw_log acquired_state = [handle_cmd BCIncRefs 5; handle_cmd BCAcquire 5] ∧
  ∃ s', rmt_close demo_conn 0 acquired_state = (Ok tt, s') ∧
    kw_log s' = kw_log acquired_state ++ [handle_cmd BCRelease 5; handle_cmd BCDecRefs 5].
Proof.
  split; [vm_compute; reflexivity|].
  destruct (close_releases_once demo_conn 0 (mkRemoteBinder 5 StabilitySystem false None)
    (mkHandleRef 1 0 true false false None) acquired_state) as (s' & H1 & H2 & _);
    [reflexivity|reflexivity|vm_compute; reflexivity|reflexivity|discriminate|vm_compute; reflexivity
    |reflexivity|reflexivity|reflexivity|discriminate|].
  exists s'. split; [exact H1|exact H2].
Defined.

(** *** A handle received twice *)

(** Replies that carry a strong reference to handle 5. *)
Definition handle_payload : list Z :=
  le_bytes 4 BinderTypeHandle ++ le_bytes 4 0 ++ le_bytes 4 5 ++ zeros 12 ++ le_bytes 4 StabilitySystem.
Definition handle_reply : list Z :=
  le_bytes 4 BRNoop ++ le_bytes 4 BRTransactionComplete ++ le_bytes 4 BRReply ++
  MarshalBinary (mkTD 0 0 0 0 0 0 (len handle_payload) 8 4096 8192).

Definition two_replies : KW script (conn_world unit) :=
  scripted (mkScript [handle_reply; handle_reply] 0 65536 [(4096, handle_payload); (8192, zeros 8)])
    (Conn_Handle 1 (mkCW NewRefTracker [] tt)).2.

Definition count_cmd (cmd h : Z) (log : list (list Z)) : nat :=
  length (filter (λ bs, bs = handle_cmd cmd h) log).

(** Ask the first Binder for handle 5 twice, read it from both replies, close
    both proxies. *)
Definition receive_twice : KM (K:=script) (W:=conn_world unit) (option kbinder * option kbinder) :=
  let ask := reply ← rmt_Transact demo_conn None ErrCanceled [] 0 1 None 0; read_parcel reply ReadStrongBinder in
  x ← ask;
  y ← ask;
  rmt_close demo_conn 1;; rmt_close demo_conn 2;; mret (x, y).

(** A handle that is received twice is never given back (a defect): each
    reply that carries the handle takes a reference on the device, the tracker
    keeps a flag and not a count, so after both proxies are closed and the tracker
    has forgotten the handle the device was asked for two references and given
    back one. *)
Theorem received_twice_leaks :
  let '(r, s) := receive_twice two_replies in
  r = Ok (Some (KRemote 1), Some (KRemote 2)) ∧
  handles (cn_refs (kw_user s)) !! 5 = None ∧
  count_cmd BCAcquire 5 (kw_log s) = 2%nat ∧ count_cmd BCRelease 5 (kw_log s) = 1%nat.
Proof. vm_compute. auto. Qed.
