(* ===== verification/Services.v ===== *)
(** * Services: what the service managers exchange

    Models src/binder/service_manager.go (registration options and metadata) and
    the codecs of src/service_manager_support.go and src/rpc_service_manager.go:
    the transaction codes of the three generations of IServiceManager, string
    lists, sized parcelables for ConnectionInfo and ServiceDebugInfo, the metadata
    of a registration, and the status header of a reply. *)

From stdpp Require Import base list numbers strings pretty.
From S2P Require Import Prelude Errors Unicode Parcel ParcelFacts Codec ObjectCodec Fields Slices Value ValueProps Status Stability Dispatch.

Open Scope Z_scope.

(** ** src/binder/service_manager.go *)

Definition DumpPriorityCritical : Z := 1.
Definition DumpPriorityHigh : Z := 2.
Definition DumpPriorityNormal : Z := 4.
Definition DumpPriorityDefault : Z := 8.
Definition DumpProto : Z := 16.
Definition DumpPriorityAll : Z :=
  Z.lor (Z.lor (Z.lor DumpPriorityCritical DumpPriorityHigh) DumpPriorityNormal) DumpPriorityDefault.
Definition DumpFlagLazyService : Z := Z.shiftl 1 30.

Record ConnectionInfo := mkConnectionInfo { ci_IPAddress : string; ci_Port : Z }.
Record ServiceDebugInfo := mkServiceDebugInfo { sdi_Name : string; sdi_DebugPID : Z }.

Record ServiceMetadata := mkServiceMetadata {
  sm_Declared : bool; sm_UpdatableViaApex : string; sm_ConnectionInfo : option ConnectionInfo; sm_DebugPID : Z;
}.
Definition no_metadata : ServiceMetadata := mkServiceMetadata false "" None 0.

Record AddServiceOptions := mkAddServiceOptions {
  aso_AllowIsolated : bool; aso_DumpFlags : Z; aso_Serial : bool; aso_Lazy : bool; aso_Metadata : ServiceMetadata;
}.

(** An [AddServiceOption] is the function it applies; a nil one is skipped. *)
Definition AddServiceOption : Type := AddServiceOptions → AddServiceOptions.

Definition WithAllowIsolated (v : bool) : AddServiceOption := λ o,
  mkAddServiceOptions v (aso_DumpFlags o) (aso_Serial o) (aso_Lazy o) (aso_Metadata o).
Definition WithDumpFlags (flags : Z) : AddServiceOption := λ o,
  mkAddServiceOptions (aso_AllowIsolated o) flags (aso_Serial o) (aso_Lazy o) (aso_Metadata o).
Definition WithLazyService (v : bool) : AddServiceOption := λ o,
  mkAddServiceOptions (aso_AllowIsolated o) (aso_DumpFlags o) (aso_Serial o) v (aso_Metadata o).
Definition WithSerialHandler (v : bool) : AddServiceOption := λ o,
  mkAddServiceOptions (aso_AllowIsolated o) (aso_DumpFlags o) v (aso_Lazy o) (aso_Metadata o).
Definition WithServiceMetadata (m : ServiceMetadata) : AddServiceOption := λ o,
  mkAddServiceOptions (aso_AllowIsolated o) (aso_DumpFlags o) (aso_Serial o) (aso_Lazy o) m.
Definition WithDeclaredService (v : bool) : AddServiceOption := λ o,
  let m := aso_Metadata o in
  WithServiceMetadata (mkServiceMetadata v (sm_UpdatableViaApex m) (sm_ConnectionInfo m) (sm_DebugPID m)) o.
Definition WithUpdatableViaApex (name : string) : AddServiceOption := λ o,
  let m := aso_Metadata o in
  WithServiceMetadata (mkServiceMetadata (sm_Declared m) name (sm_ConnectionInfo m) (sm_DebugPID m)) o.
Definition WithConnectionInfo (info : ConnectionInfo) : AddServiceOption := λ o,
  let m := aso_Metadata o in
  WithServiceMetadata (mkServiceMetadata (sm_Declared m) (sm_UpdatableViaApex m) (Some info) (sm_DebugPID m)) o.
Definition WithDebugPID (pid : Z) : AddServiceOption := λ o,
  let m := aso_Metadata o in
  WithServiceMetadata (mkServiceMetadata (sm_Declared m) (sm_UpdatableViaApex m) (sm_ConnectionInfo m) pid) o.

Definition DefaultAddServiceOptions : AddServiceOptions :=
  mkAddServiceOptions false DumpPriorityDefault false false no_metadata.

Definition ResolveAddServiceOptions (opts : list (option AddServiceOption)) : AddServiceOptions :=
  fold_left (λ o opt, match opt with Some f => f o | None => o end) opts DefaultAddServiceOptions.

Definition EffectiveDumpFlags (o : AddServiceOptions) : Z :=
  if aso_Lazy o then Z.lor (aso_DumpFlags o) DumpFlagLazyService else aso_DumpFlags o.

(** ** src/service_manager_support.go: names and codes *)

Definition serviceManagerDescriptor : string := "android.os.IServiceManager".
Definition serviceCallbackDescriptor : string := "android.os.IServiceCallback".
Definition clientCallbackDescriptor : string := "android.os.IClientCallback".

(** The codes of one generation of the interface; 0 where it has no such method. *)
Record serviceManagerTransactions := mkTransactions {
  tx_checkService : Z; tx_addService : Z; tx_listServices : Z; tx_registerNotify : Z; tx_unregisterNotify : Z;
  tx_isDeclared : Z; tx_declaredInstances : Z; tx_updatableViaApex : Z; tx_updatableNames : Z;
  tx_connectionInfo : Z; tx_registerClientCallback : Z; tx_tryUnregister : Z; tx_debugInfo : Z;
}.

Definition transaction (n : Z) : Z := FirstCallTransaction + n.

Definition serviceManagerTransactionsCurrent : serviceManagerTransactions :=
  mkTransactions (transaction 2) (transaction 4) (transaction 5) (transaction 6) (transaction 7) (transaction 8)
    (transaction 9) (transaction 10) (transaction 11) (transaction 12) (transaction 13) (transaction 14) (transaction 15).
Definition serviceManagerTransactionsLegacy13 : serviceManagerTransactions :=
  mkTransactions (transaction 1) (transaction 2) (transaction 3) (transaction 4) (transaction 5) (transaction 6)
    (transaction 7) (transaction 8) 0 (transaction 9) (transaction 10) (transaction 11) (transaction 12).
Definition serviceManagerTransactionsLegacy12 : serviceManagerTransactions :=
  mkTransactions (transaction 1) (transaction 2) (transaction 3) (transaction 4) (transaction 5) (transaction 6)
    (transaction 7) (transaction 8) 0 0 (transaction 9) (transaction 10) (transaction 11).

(** ** Codecs *)

Section Codecs.
Context {W B : Type}.

Definition writeStringSliceToParcel (values : option (list string)) : PM W B unit := WriteSlice values (Some WriteString).
Definition readStringSliceFromParcel : PM W B (option (list string)) := ReadSlice (Some ReadString).

(** The size word counts itself. *)
Definition writeSizedParcelable (writeBody : PM W B unit) : PM W B unit :=
  start ← position;
  WriteInt32 0;;
  writeBody;;
  end_ ← position;
  SetPosition start;;
  WriteInt32 (i32 (end_ - start));;
  SetPosition end_.

Definition parcelableEnd (start size total : Z) : res Z :=
  if size <? 4 then Err (Errorf_w ErrBadParcelable ("invalid parcelable size " +:+ pretty size)%string)
  else
    let end_ := i64 (start + size) in
    if (end_ <? start) || (total <? end_) then Err (ESentinel ErrUnexpectedEOF) else Ok end_.

Definition total_len : PM W B Z := s ← receiver; mret (Len s).

(** A field that is read only when the parcelable is not over. *)
Definition field_before {A} (end_ : Z) (dflt : A) (rd : PM W B A) : PM W B A :=
  at_ ← position; if at_ <? end_ then rd else mret dflt.

Definition read_sized {A} (body : Z → PM W B A) : PM W B A :=
  start ← position;
  size ← ReadInt32;
  total ← total_len;
  end_ ← lift (parcelableEnd start size total);
  value ← body end_;
  SetPosition end_;;
  mret value.

Definition writeNullableConnectionInfoToParcel (info : option ConnectionInfo) : PM W B unit :=
  match info with
  | None => WriteInt32 0
  | Some info =>
      WriteInt32 1;;
      writeSizedParcelable (
        WriteString (ci_IPAddress info);;
        if ci_Port info >? maxInt32
        then throw (Errorf_w ErrBadParcelable ("connection info port " +:+ pretty (ci_Port info) +:+ " out of range")%string)
        else WriteInt32 (i32 (ci_Port info)))
  end.

Definition readNullableConnectionInfoFromParcel : PM W B (option ConnectionInfo) :=
  present ← ReadInt32;
  if present =? 0 then mret None
  else read_sized (λ end_,
    ip ← field_before end_ "" ReadString;
    port ← field_before end_ 0 (v ← ReadInt32; mret (u32 v));
    mret (Some (mkConnectionInfo ip port))).

Definition write_debug_info (value : ServiceDebugInfo) : PM W B unit :=
  WriteInt32 1;; writeSizedParcelable (WriteString (sdi_Name value);; WriteInt32 (sdi_DebugPID value)).

Definition writeServiceDebugInfoSliceToParcel (values : option (list ServiceDebugInfo)) : PM W B unit :=
  WriteSlice values (Some write_debug_info).

Definition read_debug_info : PM W B ServiceDebugInfo :=
  present ← ReadInt32;
  if present =? 0 then throw (Errorf_w ErrBadParcelable "unexpected null service debug info")
  else read_sized (λ end_,
    name ← field_before end_ "" ReadString;
    pid ← field_before end_ 0 ReadInt32;
    mret (mkServiceDebugInfo name pid)).

Definition readServiceDebugInfoSliceFromParcel : PM W B (option (list ServiceDebugInfo)) :=
  ReadSlice (Some read_debug_info).

(** *** src/rpc_service_manager.go: metadata *)

Definition nullableString (v : string) : option string := if bool_decide (v = "") then None else Some v.

Definition writeRPCServiceMetadataToParcel (m : ServiceMetadata) : PM W B unit :=
  WriteBool (sm_Declared m);;
  WriteNullableString (nullableString (sm_UpdatableViaApex m));;
  writeNullableConnectionInfoToParcel (sm_ConnectionInfo m);;
  WriteInt32 (sm_DebugPID m).

Definition readRPCServiceMetadataFromParcel : PM W B ServiceMetadata :=
  s ← receiver;
  match s with
  | None => mret no_metadata
  | Some _ =>
      if Remaining s =? 0 then mret no_metadata
      else
        declared ← ReadBool;
        updatable ← ReadNullableString;
        info ← readNullableConnectionInfoFromParcel;
        pid ← ReadInt32;
        mret (mkServiceMetadata declared (default "" updatable) info pid)
  end.

(** *** The status of a reply *)

(** [decodeStatusReply] on the receiver; the code of a service specific exception
    is not kept. *)
Definition decodeStatusReply : PM W B unit :=
  s ← receiver;
  match s with
  | None => throw ErrBadParcelable
  | Some _ =>
      '(st, err) ← ReadStatus;
      match err, TransportErr st, Remote st with
      | Some e, _, _ => throw (default e (mapRuntimeError (Some e)))
      | None, Some e, _ => throw (default e (mapRuntimeError (Some e)))
      | None, None, Some r => throw (ERemote (mkRemoteException (re_Code r) (re_Message r) 0))
      | None, None, None => mret tt
      end
  end.
End Codecs.

(** ** Round trips *)

Section Roundtrip.
Context {W B : Type}.

Definition sized (bs : list Z) : list Z := le_bytes 4 (u32 (4 + len bs)) ++ bs.

Lemma emits_sized (body : PM W B unit) bs : emits body tt bs [] → 4 + len bs <= maxInt32 →
  emits (writeSizedParcelable body) tt (sized bs) [].
Proof. apply emits_backpatch. Qed.

(** [body end_] reads [bs], which ends at [end_]. *)
Definition consumes_within {A} (body : Z → PM W B A) (a : A) (bs : list Z) : Prop :=
  ∀ p w pre post, buf p = pre ++ bs ++ post → pos p = len pre → len (buf p) <= maxInt →
    body (len pre + len bs) (mkst (Some p) w) = (Ok a, mkst (Some (set_pos (len pre + len bs) p)) w).

Lemma consumes_sized {A} (body : Z → PM W B A) a bs : 4 + len bs <= maxInt32 → consumes_within body a bs →
  consumes (read_sized body) a (sized bs) [].
Proof.
  intros Hl Hb p w pre post Hbuf Hp Hm Hr. unfold sized in *. rewrite <- app_assoc in Hbuf. unfold read_sized.
  rewrite (bind_ok _ _ _ _ _ (position_at p w)).
  rewrite (bind_ok _ _ _ _ _ (consumes_ReadInt32 (W := W) (B := B) (4 + len bs) ltac:(width) p w pre (bs ++ post)
             Hbuf Hp Hm ltac:(constructor))).
  set (p1 := set_pos _ p). unfold total_len. rewrite bind_assoc.
  rewrite (bind_ok receiver _ (mkst (Some p1) w) (mkst (Some p1) w) (Some p1) eq_refl), bind_ret. cbn [Len].
  assert (Hb1 : buf p1 = (pre ++ le_bytes 4 (u32 (4 + len bs))) ++ bs ++ post)
    by (unfold p1; cbn [buf set_pos]; by rewrite Hbuf, <- app_assoc).
  assert (Hlen : len (buf p1) = len pre + 4 + len bs + len post) by (rewrite Hb1; len_lia).
  assert (Hend0 : parcelableEnd (pos p) (4 + len bs) (len (buf p1)) = Ok (len pre + (4 + len bs))).
  { change (len (buf p)) with (len (buf p1)) in Hm. unfold parcelableEnd. rewrite ltb_false by lia. unfold i64.
    rewrite wraps_id by (rewrite ?Hp; unfold in_s, maxInt in *; lia). rewrite Hp, !ltb_false by lia. done. }
  rewrite Hend0.
  rewrite (bind_ok (lift _) _ (mkst (Some p1) w) (mkst (Some p1) w) (len pre + (4 + len bs)) eq_refl).
  assert (Hp1 : pos p1 = len (pre ++ le_bytes 4 (u32 (4 + len bs)))) by (unfold p1; cbn [pos set_pos]; len_lia).
  pose proof (Hb p1 w _ post Hb1 Hp1 Hm) as E.
  assert (Hend : len (pre ++ le_bytes 4 (u32 (4 + len bs))) + len bs = len pre + (4 + len bs)) by len_lia.
  rewrite Hend in E. rewrite (bind_ok _ _ _ _ _ E).
  set (p2 := set_pos (len pre + (4 + len bs)) p1).
  rewrite (bind_ok _ _ _ _ _ (SetPosition_ok p2 w (len pre + (4 + len bs)) ltac:(change (len (buf p2)) with (len (buf p1)); lia))).
  unfold mret, ST_ret. do 3 f_equal. unfold p2, p1, set_pos. cbn. f_equal. len_lia.
Qed.

(** A field of the body. *)
Lemma within_field {A C} (dflt : A) (rd : PM W B A) (k : A → Z → PM W B C) a c b1 b2 :
  consumes rd a b1 [] → b1 ≠ [] → consumes_within (k a) c b2 →
  consumes_within (λ end_, x ← field_before end_ dflt rd; k x end_) c (b1 ++ b2).
Proof.
  intros H1 Hne H2 p w pre post Hb Hp Hm. rewrite length_app. unfold field_before. rewrite bind_assoc.
  rewrite (bind_ok _ _ _ _ _ (position_at p w)), Hp.
  assert (0 < len b1) by (destruct b1; [done|cbn; lia]). rewrite ltb_true by lia.
  rewrite <- app_assoc in Hb.
  rewrite (bind_ok _ _ _ _ _ (H1 p w pre (b2 ++ post) Hb Hp Hm ltac:(constructor))).
  set (p1 := set_pos _ p).
  pose proof (H2 p1 w (pre ++ b1) post) as E. rewrite length_app in E.
  replace (len pre + Z.of_nat (length b1 + length b2)) with (Z.of_nat (length pre + length b1) + len b2) by lia.
  rewrite E; [|unfold p1; cbn [buf set_pos]; by rewrite Hb, <- app_assoc|unfold p1; cbn [pos set_pos]; lia|done].
  unfold p1, set_pos. done.
Qed.

Lemma within_ret {A} (a : A) : consumes_within (λ _, mret a) a [].
Proof.
  intros p w pre post Hb Hp Hm. cbn. unfold mret, ST_ret. do 3 f_equal. rewrite Z.add_0_r, <- Hp. by destruct p.
Qed.

(** *** Connection infos, debug infos, metadata *)

Definition info_ok (i : ConnectionInfo) : Prop :=
  string_ok (ci_IPAddress i) ∧ 0 <= ci_Port i <= maxInt32 ∧ 8 + len (string_bytes (ci_IPAddress i)) <= maxInt32.
Definition info_body (i : ConnectionInfo) : list Z := string_bytes (ci_IPAddress i) ++ le_bytes 4 (u32 (ci_Port i)).
Definition info_bytes (o : option ConnectionInfo) : list Z :=
  match o with None => le_bytes 4 (u32 0) | Some i => le_bytes 4 (u32 1) ++ sized (info_body i) end.

Lemma len_info_body i : info_ok i → 4 + len (info_body i) <= maxInt32.
Proof. intros (_ & _ & H). unfold info_body. rewrite length_app, length_le_bytes. lia. Qed.

Lemma emits_connection_info o : opt_ok info_ok o →
  @emits W B unit (writeNullableConnectionInfoToParcel o) tt (info_bytes o) [].
Proof.
  destruct o as [i|]; intros Hi; [|apply emits_WriteInt32]. cbn [writeNullableConnectionInfoToParcel info_bytes].
  apply emits_bind_nil with (a := tt); [apply emits_WriteInt32|]. apply emits_sized; [|by apply len_info_body].
  destruct Hi as (Hs & Hp & _). apply emits_bind_nil with (a := tt); [by apply emits_WriteString, Hs|].
  rewrite Z.gtb_ltb, ltb_false by lia. apply emits_i32. width.
Qed.

Lemma string_bytes_ne s : string_bytes s ≠ [].
Proof. unfold string_bytes, prefixed. intros H%(f_equal length). rewrite !length_app, length_le_bytes in H. cbn in H. lia. Qed.

Lemma consumes_connection_info o : opt_ok info_ok o →
  @consumes W B _ readNullableConnectionInfoFromParcel o (info_bytes o) [].
Proof.
  destruct o as [i|]; intros Hi; unfold readNullableConnectionInfoFromParcel; cbn [info_bytes].
  - apply consumes_bind_nil with (a := 1); [apply consumes_ReadInt32; width|]. cbn [Z.eqb].
    apply consumes_sized; [by apply len_info_body|]. destruct Hi as (Hs & Hp & _). unfold info_body.
    apply (within_field _ _ (λ ip end_, port ← field_before end_ 0 (v ← ReadInt32; mret (u32 v)); mret (Some (mkConnectionInfo ip port)))
             (ci_IPAddress i)); [by apply consumes_ReadString_id|apply string_bytes_ne|].
    rewrite <- (app_nil_r (le_bytes 4 _)).
    apply (within_field _ _ (λ port _, mret (Some (mkConnectionInfo (ci_IPAddress i) port))) (ci_Port i)); [|done|].
    + eapply consumes_fmap; [apply consumes_ReadInt32; width|]. unfold u32. apply wrapu_id. width.
    + destruct i. apply within_ret.
  - rewrite <- (app_nil_r (le_bytes 4 _)). apply consumes_bind_nil with (a := 0); [apply consumes_ReadInt32; width|].
    apply consumes_ret.
Qed.

Definition debug_ok (i : ServiceDebugInfo) : Prop :=
  string_ok (sdi_Name i) ∧ in_s 32 (sdi_DebugPID i) ∧ 8 + len (string_bytes (sdi_Name i)) <= maxInt32.
Definition debug_body (i : ServiceDebugInfo) : list Z := string_bytes (sdi_Name i) ++ le_bytes 4 (u32 (sdi_DebugPID i)).
Definition debug_bytes (i : ServiceDebugInfo) : list Z := le_bytes 4 (u32 1) ++ sized (debug_body i).

Lemma len_debug_body i : debug_ok i → 4 + len (debug_body i) <= maxInt32.
Proof. intros (_ & _ & H). unfold debug_body. rewrite length_app, length_le_bytes. lia. Qed.

Lemma emits_debug_info i : debug_ok i → @emits W B unit (write_debug_info i) tt (debug_bytes i) [].
Proof.
  intros Hi. apply emits_bind_nil with (a := tt); [apply emits_WriteInt32|]. apply emits_sized; [|by apply len_debug_body].
  destruct Hi as (Hs & Hp & _). apply emits_bind_nil with (a := tt); [by apply emits_WriteString, Hs|]. apply emits_WriteInt32.
Qed.

Lemma consumes_debug_info i : debug_ok i → @consumes W B _ read_debug_info i (debug_bytes i) [].
Proof.
  intros Hi. unfold read_debug_info, debug_bytes.
  apply consumes_bind_nil with (a := 1); [apply consumes_ReadInt32; width|]. cbn [Z.eqb].
  apply consumes_sized; [by apply len_debug_body|]. destruct Hi as (Hs & Hp & _). unfold debug_body.
  apply (within_field _ _ (λ name end_, pid ← field_before end_ 0 ReadInt32; mret (mkServiceDebugInfo name pid)) (sdi_Name i));
    [by apply consumes_ReadString_id|apply string_bytes_ne|].
  rewrite <- (app_nil_r (le_bytes 4 _)).
  apply (within_field _ _ (λ pid _, mret (mkServiceDebugInfo (sdi_Name i) pid)) (sdi_DebugPID i)); [by apply consumes_ReadInt32|done|].
  destruct i. apply within_ret.
Qed.

(** A list of values whose codec has no objects. *)
Lemma emits_list_plain {A} (wr : A → PM W B unit) (P : A → Prop) bytes l :
  (∀ a, P a → emits (wr a) tt (bytes a) []) → len l <= maxInt32 → Forall P l →
  emits (WriteSlice (Some l) (Some wr)) tt (slice_bytes bytes l) [].
Proof.
  intros H Hl Ha. pose proof (emits_WriteSlice wr bytes (λ _, []) l Hl) as E. unfold slice_objs in E.
  rewrite cat_objs_nil in E. apply E. eapply Forall_impl; [exact Ha|auto].
Qed.

Lemma consumes_list_plain {A} (rd : PM W B A) (P : A → Prop) bytes l :
  (∀ a, P a → consumes rd a (bytes a) []) → len l <= maxInt32 → Forall P l →
  consumes (ReadSlice (Some rd)) (Some l) (slice_bytes bytes l) [].
Proof.
  intros H Hl Ha. pose proof (consumes_ReadSlice rd (λ a, a) bytes (λ _, []) l Hl) as E. unfold slice_objs in E.
  rewrite cat_objs_nil, map_id in E. apply E. eapply Forall_impl; [exact Ha|auto].
Qed.

Definition metadata_ok (m : ServiceMetadata) : Prop :=
  string_ok (sm_UpdatableViaApex m) ∧ opt_ok info_ok (sm_ConnectionInfo m) ∧ in_s 32 (sm_DebugPID m).
Definition metadata_bytes (m : ServiceMetadata) : list Z :=
  le_bytes 4 (Z.b2z (sm_Declared m)) ++ opt_bytes string_bytes (nullableString (sm_UpdatableViaApex m)) ++
  info_bytes (sm_ConnectionInfo m) ++ le_bytes 4 (u32 (sm_DebugPID m)).

Lemma nullable_ok v : string_ok v → opt_ok string_ok (nullableString v).
Proof. intros H. unfold nullableString. by case_bool_decide. Qed.

Lemma nullable_default v : default "" (nullableString v) = v.
Proof. unfold nullableString. by case_bool_decide. Qed.

Lemma emits_metadata m : metadata_ok m →
  @emits W B unit (writeRPCServiceMetadataToParcel m) tt (metadata_bytes m) [].
Proof.
  intros (Hs & Hi & Hp). unfold writeRPCServiceMetadataToParcel, metadata_bytes.
  apply emits_bind_nil with (a := tt); [apply emits_WriteBool|].
  apply emits_bind_nil with (a := tt); [by apply emits_WriteNullableString, nullable_ok|].
  apply emits_bind_nil with (a := tt); [by apply emits_connection_info|]. apply emits_WriteInt32.
Qed.

Lemma consumes_metadata m : metadata_ok m →
  @consumes W B _ readRPCServiceMetadataFromParcel m (metadata_bytes m) [].
Proof.
  intros (Hs & Hi & Hp) p w pre post Hb Hpos Hm Hr. unfold readRPCServiceMetadataFromParcel.
  rewrite (bind_ok receiver _ (mkst (Some p) w) (mkst (Some p) w) (Some p) eq_refl).
  assert (Hrem : Remaining (Some p) ≠ 0).
  { cbn [Remaining]. rewrite Hb, Hpos. unfold metadata_bytes. rewrite !length_app, !length_le_bytes.
    repeat case_match; bools; lia. }
  rewrite (eqb_false _ _ Hrem). revert p w pre post Hb Hpos Hm Hr Hrem.
  enough (E : @consumes W B _ (declared ← ReadBool; updatable ← ReadNullableString;
    info ← readNullableConnectionInfoFromParcel; pid ← ReadInt32;
    mret (mkServiceMetadata declared (default "" updatable) info pid)) m (metadata_bytes m) []) by (intros p w pre post Hb Hpos Hm Hr _; exact (E p w pre post Hb Hpos Hm Hr)).
  unfold metadata_bytes. apply consumes_bind_nil with (a := sm_Declared m); [apply consumes_ReadBool|].
  apply consumes_bind_nil with (a := nullableString (sm_UpdatableViaApex m)); [by apply consumes_nullable_string, nullable_ok|].
  apply consumes_bind_nil with (a := sm_ConnectionInfo m); [by apply consumes_connection_info|].
  eapply consumes_fmap; [by apply consumes_ReadInt32|]. rewrite nullable_default. by destruct m.
Qed.
End Roundtrip.
