(* ===== verification/Registry.v ===== *)
(** * Registry: the services of an RPC server

    Models [rpcServiceRegistry] of src/rpc_service_manager.go.  A method is its
    critical section, a function on the registry; the channels it closes and the
    callbacks it runs after unlocking are part of its result, in no particular
    order where Go iterates over a map.  [wait] blocks, so it is three steps:
    enqueue, wake and cancel.  The theorems are about every interleaving of these
    steps. *)

From stdpp Require Import base list numbers strings pretty gmap sorting.
From S2P Require Import Prelude Errors Parcel Stability Services.

Open Scope Z_scope.

(** ** State *)

(** What the registry needs of a Binder: the identity of src/service_manager_support.go
    ([binderKey], [None] for a foreign implementation) and its stability. *)
Class ServiceBinder (B : Type) := {
  bkey : Type;
  bkey_eq : EqDecision bkey;
  bkey_countable : Countable bkey;
  binderKey : B → option bkey;
  binder_stability : B → Z;
}.
#[export] Existing Instances bkey_eq bkey_countable.

(** The implementations of this module; an owner is the address of a connection. *)
Record binderIdentity := mkIdentity { bi_owner : Z; bi_kind : Z; bi_id : Z }.
#[global] Instance binderIdentity_eq : EqDecision binderIdentity.
Proof. solve_decision. Defined.
#[global] Program Instance binderIdentity_countable : Countable binderIdentity :=
  inj_countable' (λ i, (bi_owner i, bi_kind i, bi_id i)) (λ t, mkIdentity t.1.1 t.1.2 t.2) _.
Next Obligation. by intros []. Qed.

Inductive api_binder :=
| api_remoteBinder (conn handle stability : Z)
| api_localBinder (conn nodeID stability : Z)
| api_rpcRemoteBinder (conn handle stability : Z)
| api_rpcLocalBinder (conn handle stability : Z)
| api_foreignBinder (stability : Z).

Definition api_binderKey (b : api_binder) : option binderIdentity :=
  match b with
  | api_remoteBinder conn handle _ => Some (mkIdentity conn 1 handle)
  | api_localBinder conn nodeID _ => Some (mkIdentity conn 2 nodeID)
  | api_rpcRemoteBinder conn handle _ => Some (mkIdentity conn 3 handle)
  | api_rpcLocalBinder conn handle _ => Some (mkIdentity conn 4 handle)
  | api_foreignBinder _ => None
  end.

#[global] Instance api_service_binder : ServiceBinder api_binder := {
  bkey := binderIdentity;
  binderKey := api_binderKey;
  binder_stability b := match b with
    api_remoteBinder _ _ s | api_localBinder _ _ s | api_rpcRemoteBinder _ _ s | api_rpcLocalBinder _ _ s | api_foreignBinder s => s end;
}.

Section Registry.
Context {B : Type} `{HB : !ServiceBinder B} (getpid : Z).

Record rpcServiceEntry := mkEntry { e_service : B; e_opts : AddServiceOptions; e_hasClients : bool }.

(** A watch is its identifier; the key of the service is kept with a client watch. *)
Record rpcServiceRegistry := mkRegistry {
  services : gmap string rpcServiceEntry;
  waiters : gmap string (list nat);
  registrationWatchers : gmap string (gset Z);
  clientWatchers : gmap string (gmap Z bkey);
  nextWatchID : Z;
}.

Definition newRPCServiceRegistry : rpcServiceRegistry := mkRegistry ∅ ∅ ∅ ∅ 0.

Implicit Types r : rpcServiceRegistry.

(** What a method does after it has unlocked. *)
Inductive effect :=
| CloseWaiter (c : nat)
| Registered (watch : Z) (name : string) (service : B)
| ClientUpdate (watch : Z) (name : string) (service : B) (hasClients : bool).

(** ** Queries *)

Definition check (name : string) r : option B := e_service <$> services r !! name.

Definition entry_names (p : string → rpcServiceEntry → bool) r : list string :=
  omap (λ '(name, e), if p name e then Some name else None) (map_to_list (services r)).

Definition dump_match (dumpFlags : Z) (e : rpcServiceEntry) : bool :=
  let filter := Z.land dumpFlags DumpPriorityAll in
  if filter =? 0 then true
  else
    let flags := Z.land (EffectiveDumpFlags (e_opts e)) DumpPriorityAll in
    let flags := if flags =? 0 then DumpPriorityDefault else flags in
    negb (Z.land flags filter =? 0).

Definition list_services (dumpFlags : Z) r : list string :=
  sort_strings (entry_names (λ _, dump_match dumpFlags) r).

Definition isDeclared (name : string) r : bool :=
  match services r !! name with
  | None => false
  | Some e => sm_Declared (aso_Metadata (e_opts e)) || true (* the service of an entry is never nil *)
  end.

(** The instance of [iface] that [name] is, if any. *)
Definition instance_of (iface name : string) : option string :=
  let prefix := iface +:+ "/" in
  if String.prefix prefix name then Some (String.substring (String.length prefix) (String.length name - String.length prefix) name)
  else if bool_decide (name = iface) then Some "" else None.

Definition declaredInstances (iface : string) r : list string :=
  sort_strings (omap (λ '(name, _), instance_of iface name) (map_to_list (services r))).

Definition updatableViaApex (name : string) r : option string :=
  match services r !! name with
  | None => None
  | Some e => nullableString (sm_UpdatableViaApex (aso_Metadata (e_opts e)))
  end.

(** A slice that is nil until the first append. *)
Definition updatableNames (apexName : string) r : option (list string) :=
  match sort_strings (entry_names (λ _ e, bool_decide (sm_UpdatableViaApex (aso_Metadata (e_opts e)) = apexName)) r) with
  | [] => None
  | l => Some l
  end.

Definition connectionInfo (name : string) r : option ConnectionInfo :=
  services r !! name ≫= λ e, sm_ConnectionInfo (aso_Metadata (e_opts e)).

Definition debugInfo r : list ServiceDebugInfo :=
  let names := sort_strings (entry_names (λ _ _, true) r) in
  map (λ name, mkServiceDebugInfo name
         (default 0 ((λ e, sm_DebugPID (aso_Metadata (e_opts e))) <$> services r !! name))) names.

(** ** Registrations *)

Definition with_pid (o : AddServiceOptions) : AddServiceOptions :=
  let m := aso_Metadata o in
  if sm_DebugPID m =? 0 then WithDebugPID (i32 getpid) o else o.

Definition undeclared_vintf (name : string) : error :=
  EWrap (EStatusCode StatusBadType) ("vintf service " +:+ name +:+ " must be declared").

Definition add (name : string) (service : option B) (opts : AddServiceOptions) r
  : res unit * list effect * rpcServiceRegistry :=
  match service with
  | None => (Ok tt, [], r)
  | Some service =>
      if bool_decide (name = "") then (Ok tt, [], r)
      else if (binder_stability service =? StabilityVINTF) && negb (sm_Declared (aso_Metadata opts))
      then (Err (undeclared_vintf name), [], r)
      else
        let wake := CloseWaiter <$> default [] (waiters r !! name) in
        let notify := (λ id, Registered id name service) <$> elements (default ∅ (registrationWatchers r !! name)) in
        (Ok tt, wake ++ notify,
         mkRegistry (<[name := mkEntry service (with_pid opts) false]> (services r)) (delete name (waiters r))
           (registrationWatchers r) (clientWatchers r) (nextWatchID r))
  end.

Definition tryUnregister (name : string) (service : B) r : res unit * rpcServiceRegistry :=
  match binderKey service with
  | None => (Err (ESentinel ErrUnsupported), r)
  | Some key =>
      match services r !! name with
      | None => (Err (ESentinel ErrNoService), r)
      | Some e =>
          if negb (bool_decide (binderKey (e_service e) = Some key)) then (Err (ESentinel ErrUnsupported), r)
          else if e_hasClients e then (Err (EStatusCode StatusInvalidOperation), r)
          else (Ok tt, mkRegistry (delete name (services r)) (waiters r) (registrationWatchers r) (clientWatchers r)
                         (nextWatchID r))
      end
  end.

(** ** Waiting *)

(** The second check and the enqueueing of [wait], under the lock; [c] is the new
    channel. *)
Definition wait_enqueue (name : string) (c : nat) r : option B * rpcServiceRegistry :=
  match services r !! name with
  | Some e => (Some (e_service e), r)
  | None =>
      (None, mkRegistry (services r) (<[name := default [] (waiters r !! name) ++ [c]]> (waiters r))
               (registrationWatchers r) (clientWatchers r) (nextWatchID r))
  end.

Fixpoint remove_first (c : nat) (l : list nat) : list nat :=
  match l with
  | [] => []
  | d :: l' => if bool_decide (d = c) then l' else d :: remove_first c l'
  end.

Definition removeWaiter (name : string) (c : nat) r : rpcServiceRegistry :=
  let l := remove_first c (default [] (waiters r !! name)) in
  mkRegistry (services r) (match l with [] => delete name (waiters r) | _ => <[name := l]> (waiters r) end)
    (registrationWatchers r) (clientWatchers r) (nextWatchID r).

(** ** Watches *)

Definition watchRegistrations (name : string) r : Z * list effect * rpcServiceRegistry :=
  let id := u64 (nextWatchID r + 1) in
  (id, match services r !! name with Some e => [Registered id name (e_service e)] | None => [] end,
   mkRegistry (services r) (waiters r)
     (<[name := {[id]} ∪ default ∅ (registrationWatchers r !! name)]> (registrationWatchers r)) (clientWatchers r) id).

Definition unwatchRegistrations (name : string) (id : Z) r : rpcServiceRegistry :=
  let l := default ∅ (registrationWatchers r !! name) ∖ {[id]} in
  mkRegistry (services r) (waiters r)
    (if bool_decide (l = ∅) then delete name (registrationWatchers r) else <[name := l]> (registrationWatchers r))
    (clientWatchers r) (nextWatchID r).

Definition watchClients (name : string) (service : B) r : res (Z * list effect) * rpcServiceRegistry :=
  match binderKey service with
  | None => (Err (ESentinel ErrUnsupported), r)
  | Some key =>
      match services r !! name with
      | None => (Err (ESentinel ErrNoService), r)
      | Some e =>
          if negb (bool_decide (binderKey (e_service e) = Some key)) then (Err (ESentinel ErrUnsupported), r)
          else
            let id := u64 (nextWatchID r + 1) in
            (Ok (id, if e_hasClients e then [ClientUpdate id name service true] else []),
             mkRegistry (services r) (waiters r) (registrationWatchers r)
               (<[name := <[id := key]> (default ∅ (clientWatchers r !! name))]> (clientWatchers r)) id)
      end
  end.

Definition unwatchClients (name : string) (id : Z) r : rpcServiceRegistry :=
  let l := delete id (default ∅ (clientWatchers r !! name)) in
  mkRegistry (services r) (waiters r) (registrationWatchers r)
    (if bool_decide (l = ∅) then delete name (clientWatchers r) else <[name := l]> (clientWatchers r)) (nextWatchID r).

Definition client_updates (name : string) (service : B) (has : bool) r : list effect :=
  (λ '(id, _), ClientUpdate id name service has) <$> map_to_list (default ∅ (clientWatchers r !! name)).

Definition set_clients (has : bool) (e : rpcServiceEntry) : rpcServiceEntry := mkEntry (e_service e) (e_opts e) has.

Definition markClientActive (name : string) r : list effect * rpcServiceRegistry :=
  match services r !! name with
  | Some e =>
      if bool_decide (name = "") || e_hasClients e then ([], r)
      else (client_updates name (e_service e) true r,
            mkRegistry (<[name := set_clients true e]> (services r)) (waiters r) (registrationWatchers r)
              (clientWatchers r) (nextWatchID r))
  | None => ([], r)
  end.

Definition clearClientState r : list effect * rpcServiceRegistry :=
  (map_to_list (services r) ≫= (λ '(name, e), if e_hasClients e then client_updates name (e_service e) false r else []),
   mkRegistry (set_clients false <$> services r) (waiters r) (registrationWatchers r) (clientWatchers r) (nextWatchID r)).
End Registry.
Arguments rpcServiceRegistry B {HB} : assert.
Arguments rpcServiceEntry B : assert.
Arguments effect B : clear implicits.
