(* ===== verification/RegistryProps.v ===== *)
(** * RegistryProps: waiting for services and watching them

    Theorems on Registry over every interleaving of its critical sections: a
    goroutine that waits for a service is woken exactly once and never forgotten, a
    watcher always knows the current registration, listing is sorted and complete;
    and two defects of the client callbacks. *)

From stdpp Require Import base list numbers strings pretty gmap sorting.
From S2P Require Import Prelude Errors Parcel Stability Services Registry.

Open Scope Z_scope.

Section Props.
Context {B : Type} `{HB : !ServiceBinder B} (getpid : Z).
Implicit Types r : rpcServiceRegistry B.

(** ** Interleavings *)

Inductive action :=
| Add (name : string) (service : option B) (opts : AddServiceOptions)
| TryUnregister (name : string) (service : B)
| Enqueue (name : string)
| Cancel (name : string) (c : nat)
| WatchReg (name : string)
| UnwatchReg (name : string) (id : Z)
| WatchCli (name : string) (service : B)
| UnwatchCli (name : string) (id : Z)
| MarkActive (name : string)
| ClearClients.

(** The registry with what the goroutines around it know: the channels made by
    [wait] and the name each waits for, those whose wait was cancelled, and all
    effects so far, oldest first. *)
Record sys := mkSys {
  s_reg : rpcServiceRegistry B; s_chans : gmap nat string; s_cancelled : gset nat; s_log : list (effect B);
}.

Definition init_sys : sys := mkSys newRPCServiceRegistry ∅ ∅ [].

Definition do (a : action) (s : sys) : sys :=
  let r := s_reg s in
  match a with
  | Add name b o =>
      let '(_, eff, r') := add getpid name b o r in mkSys r' (s_chans s) (s_cancelled s) (s_log s ++ eff)
  | TryUnregister name b => mkSys (tryUnregister name b r).2 (s_chans s) (s_cancelled s) (s_log s)
  | Enqueue name =>
      let c := fresh (dom (s_chans s)) in
      let '(found, r') := wait_enqueue name c r in
      mkSys r' (match found with Some _ => s_chans s | None => <[c := name]> (s_chans s) end) (s_cancelled s) (s_log s)
  | Cancel name c =>
      mkSys (removeWaiter name c r) (s_chans s)
        (if bool_decide (c ∈ default [] (waiters r !! name)) then {[c]} ∪ s_cancelled s else s_cancelled s) (s_log s)
  | WatchReg name =>
      let '(_, eff, r') := watchRegistrations name r in mkSys r' (s_chans s) (s_cancelled s) (s_log s ++ eff)
  | UnwatchReg name id => mkSys (unwatchRegistrations name id r) (s_chans s) (s_cancelled s) (s_log s)
  | WatchCli name b =>
      let '(res, r') := watchClients name b r in
      mkSys r' (s_chans s) (s_cancelled s) (s_log s ++ match res with Ok (_, eff) => eff | _ => [] end)
  | UnwatchCli name id => mkSys (unwatchClients name id r) (s_chans s) (s_cancelled s) (s_log s)
  | MarkActive name => let '(eff, r') := markClientActive name r in mkSys r' (s_chans s) (s_cancelled s) (s_log s ++ eff)
  | ClearClients => let '(eff, r') := clearClientState r in mkSys r' (s_chans s) (s_cancelled s) (s_log s ++ eff)
  end.

Definition run_actions (l : list action) : sys := fold_left (λ s a, do a s) l init_sys.

Lemma run_ind (P : sys → Prop) : P init_sys → (∀ a s, P s → P (do a s)) → ∀ l, P (run_actions l).
Proof.
  intros H0 HS l. unfold run_actions. revert H0. generalize init_sys. induction l as [|a l IH]; intros s H0; cbn; [done|].
  apply IH. by apply HS.
Qed.

(** ** Waiters *)

Definition waiting (s : sys) (name : string) : list nat := default [] (waiters (s_reg s) !! name).
(** How often [c] was closed. *)
Fixpoint closes (log : list (effect B)) (c : nat) : nat :=
  match log with
  | [] => 0
  | CloseWaiter d :: l => (if bool_decide (d = c) then 1 else 0) + closes l c
  | _ :: l => closes l c
  end%nat.

(** A channel is in exactly one of three places. *)
Definition placed (s : sys) (c : nat) (name : string) : Prop :=
  (c ∈ waiting s name ∧ closes (s_log s) c = 0%nat ∧ c ∉ s_cancelled s) ∨
  ((c ∉ waiting s name) ∧ closes (s_log s) c = 1%nat ∧ c ∉ s_cancelled s) ∨
  ((c ∉ waiting s name) ∧ closes (s_log s) c = 0%nat ∧ c ∈ s_cancelled s).

Definition wait_inv (s : sys) : Prop :=
  (∀ name l, waiters (s_reg s) !! name = Some l →
     l ≠ [] ∧ NoDup l ∧ services (s_reg s) !! name = None ∧ ∀ c, c ∈ l → s_chans s !! c = Some name) ∧
  (∀ c name, s_chans s !! c = Some name → placed s c name) ∧
  (∀ c, s_chans s !! c = None → closes (s_log s) c = 0%nat ∧ c ∉ s_cancelled s).

Lemma closes_app l1 l2 c : closes (l1 ++ l2) c = (closes l1 c + closes l2 c)%nat.
Proof. induction l1 as [|[d| |] l1 IH]; cbn; rewrite ?IH; lia. Qed.

(** Effects that close nothing. *)
Definition quiet (l : list (effect B)) : Prop := ∀ c, closes l c = 0%nat.

Lemma quiet_all l : Forall (λ e, match e with CloseWaiter _ => False | _ => True end) l → quiet l.
Proof.
  intros H c. induction H as [|[d| |] l He Hl IH]; done.
Qed.

Lemma closes_waiters l c : NoDup l → closes (CloseWaiter <$> l) c = if bool_decide (c ∈ l) then 1%nat else 0%nat.
Proof.
  induction 1 as [|d l Hd Hl IH]; [done|]. cbn. rewrite IH. repeat case_bool_decide; set_solver.
Qed.

(** A step that leaves the waiters alone and closes nothing. *)
Lemma wait_inv_same s r' eff : wait_inv s → waiters r' = waiters (s_reg s) →
  (∀ name, services (s_reg s) !! name = None → waiters (s_reg s) !! name ≠ None → services r' !! name = None) →
  quiet eff → wait_inv (mkSys r' (s_chans s) (s_cancelled s) (s_log s ++ eff)).
Proof.
  intros (H1 & H2 & H3) Hw Hs Hq. split_and!; cbn.
  - intros name l Hl. rewrite Hw in Hl. destruct (H1 _ _ Hl) as (? & ? & Hn & ?). split_and!; auto.
    apply Hs; [done|]. by rewrite Hl.
  - intros c name Hc. specialize (H2 _ _ Hc). unfold placed, waiting in *. cbn. by rewrite Hw, closes_app, (Hq c), Nat.add_0_r.
  - intros c Hc. destruct (H3 _ Hc) as [? ?]. rewrite closes_app, (Hq c), Nat.add_0_r. done.
Qed.

Lemma nil_quiet : quiet []. Proof. done. Qed.

Lemma wait_inv_add s name b o eff r' res : wait_inv s → add getpid name b o (s_reg s) = (res, eff, r') →
  wait_inv (mkSys r' (s_chans s) (s_cancelled s) (s_log s ++ eff)).
Proof.
  intros H E. unfold add in E.
  destruct b as [b|]; [|injection E as <- <- <-; by apply wait_inv_same; [..|apply nil_quiet]].
  case_bool_decide; [injection E as <- <- <-; by apply wait_inv_same; [..|apply nil_quiet]|].
  destruct (_ && _); [injection E as <- <- <-; by apply wait_inv_same; [..|apply nil_quiet]|].
  injection E as _ <- <-. destruct H as (H1 & H2 & H3).
  set (l := default [] (waiters (s_reg s) !! name)).
  assert (Hl : NoDup l ∧ ∀ c, c ∈ l → s_chans s !! c = Some name).
  { unfold l. destruct (waiters (s_reg s) !! name) as [l'|] eqn:E; cbn; [by destruct (H1 _ _ E) as (_ & ? & _ & ?)|].
    split; [constructor|]. intros c Hc. by apply elem_of_nil in Hc. }
  assert (Hq : ∀ c, closes ((λ id, Registered id name b) <$> elements (default ∅ (registrationWatchers (s_reg s) !! name))) c = 0%nat).
  { apply quiet_all, Forall_fmap, Forall_true. done. }
  destruct Hl as [Hnd Hch]. split_and!; cbn.
  - intros x lx Hx. apply lookup_delete_Some in Hx as [Hne Hx]. destruct (H1 _ _ Hx) as (? & ? & Hn & ?).
    split_and!; auto. by rewrite lookup_insert_ne.
  - intros c x Hc. specialize (H2 _ _ Hc). unfold placed, waiting in *. cbn.
    rewrite !closes_app, (closes_waiters l c Hnd), Hq, Nat.add_0_r. destruct (decide (x = name)) as [->|Hne].
    + rewrite lookup_delete_eq. cbn. fold l in H2.
      destruct H2 as [(Hin & Hz & Hcn)|[(Hin & Hz & Hcn)|(Hin & Hz & Hcn)]].
      * right; left. rewrite bool_decide_eq_true_2, Hz by done. split_and!; [apply not_elem_of_nil|done|done].
      * right; left. rewrite bool_decide_eq_false_2, Hz by done. split_and!; [apply not_elem_of_nil|done|done].
      * right; right. rewrite bool_decide_eq_false_2, Hz by done. split_and!; [apply not_elem_of_nil|done|done].
    + rewrite lookup_delete_ne by done. rewrite bool_decide_eq_false_2, Nat.add_0_r; [done|].
      intros Hin. apply Hch in Hin. congruence.
  - intros c Hc. destruct (H3 _ Hc) as [Hz Hcn]. rewrite !closes_app, (closes_waiters l c Hnd), Hq, Hz.
    rewrite bool_decide_eq_false_2; [done|]. intros Hin. apply Hch in Hin. congruence.
Qed.

Lemma wait_inv_enqueue s name : wait_inv s → wait_inv (do (Enqueue name) s).
Proof.
  intros (H1 & H2 & H3). cbn. unfold wait_enqueue. destruct (services (s_reg s) !! name) as [e|] eqn:En; [by split_and!|].
  set (c := fresh (dom (s_chans s))).
  assert (Hc : s_chans s !! c = None) by (apply not_elem_of_dom, is_fresh).
  destruct (H3 _ Hc) as [Hz Hcn]. split_and!; cbn.
  - intros x l Hl. destruct (decide (x = name)) as [->|Hne].
    + rewrite lookup_insert_eq in Hl. injection Hl as <-. split_and!; [by destruct (default [] _)| |done|].
      * apply NoDup_app. split_and!; [| |apply NoDup_singleton].
        { destruct (waiters (s_reg s) !! name) as [l'|] eqn:E; [by apply (H1 _ _ E)|constructor]. }
        intros d Hd ->%list_elem_of_singleton. destruct (waiters (s_reg s) !! name) as [l'|] eqn:E; cbn in Hd;
          [|by apply elem_of_nil in Hd]. destruct (H1 _ _ E) as (_ & _ & _ & Hin). apply Hin in Hd. congruence.
      * intros d [Hd| ->%list_elem_of_singleton]%elem_of_app; [|by rewrite lookup_insert_eq].
        destruct (waiters (s_reg s) !! name) as [l'|] eqn:E; cbn in Hd; [|by apply elem_of_nil in Hd].
        destruct (H1 _ _ E) as (_ & _ & _ & Hin). apply Hin in Hd. rewrite lookup_insert_ne by congruence. done.
    + rewrite lookup_insert_ne in Hl by done. destruct (H1 _ _ Hl) as (? & ? & ? & Hin). split_and!; auto.
      intros d Hd. apply Hin in Hd. rewrite lookup_insert_ne by congruence. done.
  - intros d x Hd. unfold placed, waiting in *. cbn. destruct (decide (d = c)) as [->|Hne].
    + rewrite lookup_insert_eq in Hd. injection Hd as <-. left. rewrite lookup_insert_eq. cbn.
      split_and!; [|done|done]. apply elem_of_app. right. by apply list_elem_of_singleton.
    + rewrite lookup_insert_ne in Hd by done. specialize (H2 _ _ Hd). destruct (decide (x = name)) as [->|Hx].
      * rewrite lookup_insert_eq. cbn. rewrite elem_of_app, list_elem_of_singleton. naive_solver.
      * by rewrite lookup_insert_ne.
  - intros d Hd. apply lookup_insert_None in Hd as [Hd _]. by apply H3.
Qed.

Lemma elem_of_remove_first c d l : NoDup l → d ∈ remove_first c l ↔ d ∈ l ∧ d ≠ c.
Proof.
  induction 1 as [|x l Hx Hl IH]; cbn; [split; [intros H%elem_of_nil|intros [H%elem_of_nil _]]; done|].
  case_bool_decide as E; [subst|]; rewrite ?elem_of_cons, ?IH; split; [|naive_solver..].
  intros Hd. split; [by right|]. by intros ->.
Qed.

Lemma NoDup_remove_first c l : NoDup l → NoDup (remove_first c l).
Proof.
  induction 1 as [|x l Hx Hl IH]; cbn; [constructor|]. case_bool_decide; [done|]. constructor; [|done].
  rewrite elem_of_remove_first by done. naive_solver.
Qed.

Lemma wait_inv_cancel s name c : wait_inv s → wait_inv (do (Cancel name c) s).
Proof.
  intros (H1 & H2 & H3). cbn. unfold removeWaiter. set (l := default [] (waiters (s_reg s) !! name)).
  assert (Hl : NoDup l ∧ (∀ d, d ∈ l → s_chans s !! d = Some name) ∧ (l ≠ [] → services (s_reg s) !! name = None)).
  { unfold l. destruct (waiters (s_reg s) !! name) as [l'|] eqn:E; cbn; [by destruct (H1 _ _ E) as (_ & ? & ? & ?)|].
    split_and!; [constructor| |done]. intros d Hd. by apply elem_of_nil in Hd. }
  destruct Hl as (Hnd & Hch & Hsv). set (m := match remove_first c l with [] => _ | _ => _ end).
  assert (Hm : ∀ x, default [] (m !! x) = if decide (x = name) then remove_first c l else default [] (waiters (s_reg s) !! x)).
  { intros x. unfold m. destruct (decide (x = name)) as [->|Hne]; destruct (remove_first c l) as [|d l'];
      rewrite ?lookup_delete_eq, ?lookup_insert_eq, ?lookup_delete_ne, ?lookup_insert_ne by done; done. }
  split_and!; cbn.
  - intros x lx Hx. destruct (decide (x = name)) as [->|Hne].
    + unfold m in Hx. destruct (remove_first c l) as [|d l'] eqn:E; [by rewrite lookup_delete_eq in Hx|].
      rewrite lookup_insert_eq in Hx. injection Hx as <-. rewrite <- E. split_and!.
      * by rewrite E.
      * by apply NoDup_remove_first.
      * apply Hsv. intros El. by rewrite El in E.
      * intros y [Hy _]%elem_of_remove_first; [|done]. by apply Hch.
    + apply H1. unfold m in Hx. destruct (remove_first c l); by rewrite ?lookup_delete_ne, ?lookup_insert_ne in Hx by done.
  - intros d x Hd. specialize (H2 _ _ Hd). unfold placed, waiting in *. cbn. rewrite Hm.
    assert (Hcd : c ∈ l → s_chans s !! c = Some name) by auto.
    destruct (decide (x = name)) as [->|Hne].
    + fold l in H2. rewrite elem_of_remove_first by done. destruct (decide (d = c)) as [->|Hdc].
      * destruct H2 as [(Hin & Hz & Hcn)|[(Hin & Hz & Hcn)|(Hin & Hz & Hcn)]].
        { right; right. rewrite bool_decide_eq_true_2 by done. split_and!; [tauto|done|apply elem_of_union; left; by apply elem_of_singleton]. }
        { right; left. rewrite bool_decide_eq_false_2 by done. split_and!; [tauto|done|done]. }
        { right; right. rewrite bool_decide_eq_false_2 by done. split_and!; [tauto|done|done]. }
      * assert (Hsame : d ∈ (if bool_decide (c ∈ l) then {[c]} ∪ s_cancelled s else s_cancelled s) ↔ d ∈ s_cancelled s)
          by (case_bool_decide; [rewrite elem_of_union, elem_of_singleton; split; [intros [?|?]; [congruence|done]|auto]|done]).
        rewrite Hsame. tauto.
    + assert (Hsame : d ∈ (if bool_decide (c ∈ l) then {[c]} ∪ s_cancelled s else s_cancelled s) ↔ d ∈ s_cancelled s).
      { case_bool_decide as Hin; [|done]. apply Hcd in Hin. rewrite elem_of_union, elem_of_singleton. split; [|auto].
        intros [->|?]; [congruence|done]. }
      rewrite Hsame. done.
  - intros d Hd. destruct (H3 _ Hd) as [? ?]. split; [done|]. case_bool_decide as Hin; [|done].
    rewrite elem_of_union, elem_of_singleton. intros [->|?]; [|done]. apply Hch in Hin. congruence.
Qed.

Lemma updates_quiet name b has r : quiet (client_updates name b has r).
Proof. apply quiet_all, Forall_fmap, Forall_forall. by intros [id key] _. Qed.

Lemma wait_inv_do a s : wait_inv s → wait_inv (do a s).
Proof.
  intros H. destruct a as [name b o|name b|name|name c|name|name id|name b|name id|name|];
    [|shelve|by apply wait_inv_enqueue|by apply wait_inv_cancel|shelve..].
  { cbn. destruct (add getpid name b o (s_reg s)) as [[res eff] r'] eqn:E. by eapply wait_inv_add. }
  Unshelve. all: cbn.
  - rewrite <- (app_nil_r (s_log s)). apply wait_inv_same; [done| | |apply nil_quiet]; unfold tryUnregister;
      repeat case_match; try done; cbn; intros x Hx _; rewrite lookup_delete_None; auto.
  - unfold watchRegistrations. apply wait_inv_same; [done..|]. apply quiet_all. case_match; repeat constructor.
  - rewrite <- (app_nil_r (s_log s)). by apply wait_inv_same; [..|apply nil_quiet].
  - unfold watchClients. repeat case_match; simplify_eq; (apply wait_inv_same; [done..|]; apply quiet_all; repeat constructor);
      repeat case_match; repeat constructor.
  - rewrite <- (app_nil_r (s_log s)). by apply wait_inv_same; [..|apply nil_quiet].
  - unfold markClientActive. destruct (services (s_reg s) !! name) as [e|] eqn:E; [|by apply wait_inv_same; [..|apply nil_quiet]].
    destruct (_ || _); [by apply wait_inv_same; [..|apply nil_quiet]|]. apply wait_inv_same; [done..| |apply updates_quiet].
    cbn. intros x Hx Hw. rewrite lookup_insert_ne; [done|]. intros ->. congruence.
  - apply wait_inv_same; [done..| |].
    + cbn. intros x Hx _. by rewrite lookup_fmap, Hx.
    + intros c. induction (map_to_list (services (s_reg s))) as [|[x e] l IH]; [done|]. cbn. rewrite closes_app, IH, Nat.add_0_r.
      destruct (e_hasClients e); [apply updates_quiet|done].
Qed.

Lemma wait_inv_run l : wait_inv (run_actions l).
Proof.
  apply run_ind; [|apply wait_inv_do]. unfold wait_inv, init_sys, newRPCServiceRegistry. cbn.
  split_and!; [intros name x Hx|intros c name Hc|intros c _]; [by rewrite lookup_empty in Hx|by rewrite lookup_empty in Hc|].
  split; [done|apply not_elem_of_empty].
Qed.
End Props.

(** C21: no wake-up is lost: however registrations, removals, waits, cancellations,
    watches and client updates interleave, a goroutine in [wait] is in exactly one
    of three states: still queued, and then its service is not registered; woken,
    its channel closed exactly once; or cancelled, and then its channel is never
    closed.  So registering a service wakes every goroutine that waits for it, and
    no channel is closed twice. *)
Theorem no_lost_wakeup {B} `{HB : !ServiceBinder B} (pid : Z) (l : list (action (B:=B))) c name :
  let s := run_actions pid l in
  s_chans s !! c = Some name →
  placed s c name ∧ (c ∈ waiting s name → check name (s_reg s) = None).
Proof.
  intros s Hc. destruct (wait_inv_run pid l) as (H1 & H2 & _). fold s in H1, H2. split; [by apply H2|].
  unfold waiting. intros Hin. destruct (waiters (s_reg s) !! name) as [w|] eqn:E; cbn in Hin; [|by apply elem_of_nil in Hin].
  destruct (H1 _ _ E) as (_ & _ & Hs & _). unfold check. by rewrite Hs.
Qed.

(** ** Watches *)

Section Watches.
Context {B : Type} `{HB : !ServiceBinder B} (getpid : Z).

Definition told (s : sys (B:=B)) : Prop := ∀ name id e,
  id ∈ default ∅ (registrationWatchers (s_reg s) !! name) → services (s_reg s) !! name = Some e →
  Registered id name (e_service e) ∈ s_log s.

(** A step that adds no watch and registers nothing. *)
Lemma told_same s r' chans cancelled eff : told s →
  (∀ name, default ∅ (registrationWatchers r' !! name) ⊆ default ∅ (registrationWatchers (s_reg s) !! name)) →
  (∀ name e, services r' !! name = Some e → ∃ e0, services (s_reg s) !! name = Some e0 ∧ e_service e = e_service e0) →
  told (mkSys r' chans cancelled (s_log s ++ eff)).
Proof.
  intros H Hw Hs name id e Hin He. cbn in *. destruct (Hs _ _ He) as (e0 & He0 & ->).
  apply elem_of_app. left. eapply H; [|done]. by apply Hw.
Qed.

Lemma told_add s name b o : told s → told (do getpid (Add name b o) s).
Proof.
  intros H. cbn. unfold add. destruct b as [b|]; [|apply told_same; eauto].
  case_bool_decide; [apply told_same; eauto|]. destruct (_ && _); [apply told_same; eauto|].
  intros x id e Hin He. cbn in *. apply elem_of_app. destruct (decide (x = name)) as [->|Hne].
  - rewrite lookup_insert_eq in He. injection He as <-. right. apply elem_of_app. right. cbn.
    apply list_elem_of_fmap. exists id. split; [done|]. by apply elem_of_elements.
  - rewrite lookup_insert_ne in He by done. left. by eapply H.
Qed.

Lemma told_watch s name : told s → told (do getpid (WatchReg name) s).
Proof.
  intros H. cbn. intros x id e Hin He. cbn in *. apply elem_of_app. destruct (decide (x = name)) as [->|Hne].
  - rewrite lookup_insert_eq in Hin. cbn in Hin. apply elem_of_union in Hin as [->%elem_of_singleton|Hin].
    + right. rewrite He. by apply list_elem_of_singleton.
    + left. by eapply H.
  - rewrite lookup_insert_ne in Hin by done. left. by eapply H.
Qed.

Lemma told_do a s : told s → told (do getpid a s).
Proof.
  intros H. destruct a as [name b o|name b|name|name c|name|name id|name b|name id|name|];
    [by apply told_add|shelve|shelve|shelve|by apply told_watch|shelve..].
  Unshelve. all: cbn.
  - rewrite <- (app_nil_r (s_log s)). apply told_same; [done| |]; unfold tryUnregister; repeat case_match; cbn; eauto.
    all: intros x e He; apply lookup_delete_Some in He as [_ He]; eauto.
  - unfold wait_enqueue. destruct (_ !! name); rewrite <- (app_nil_r (s_log s)); apply told_same; eauto.
  - rewrite <- (app_nil_r (s_log s)). apply told_same; eauto.
  - rewrite <- (app_nil_r (s_log s)). apply told_same; [done| |eauto]. intros x y. cbn. case_bool_decide as E.
    + destruct (decide (x = name)) as [->|Hne]; [by rewrite lookup_delete_eq; intros ?%not_elem_of_empty|].
      by rewrite lookup_delete_ne.
    + destruct (decide (x = name)) as [->|Hne]; [rewrite lookup_insert_eq; cbn; by intros [? _]%elem_of_difference|].
      by rewrite lookup_insert_ne.
  - unfold watchClients. repeat case_match; simplify_eq; cbn; apply told_same; eauto.
  - rewrite <- (app_nil_r (s_log s)). apply told_same; eauto.
  - unfold markClientActive. destruct (services (s_reg s) !! name) as [e0|] eqn:E0; [|apply told_same; eauto].
    destruct (_ || _); [apply told_same; eauto|]. apply told_same; [done|done|]. cbn. intros x e He.
    destruct (decide (x = name)) as [->|Hne]; [|rewrite lookup_insert_ne in He by done; eauto].
    rewrite lookup_insert_eq in He. injection He as <-. eauto.
  - apply told_same; [done|done|]. cbn. intros x e He. rewrite lookup_fmap in He.
    apply fmap_Some in He as (e0 & He0 & ->). eauto.
Qed.
End Watches.

(** C22: no registration is missed: whatever happened in between and in whatever
    order, every watch on a name that has a service was sent that service, by the
    registration or, when the watch came later, by the call that made it. *)
Theorem no_missed_registration {B} `{HB : !ServiceBinder B} (pid : Z) (l : list (action (B:=B))) name id b :
  let s := run_actions pid l in
  id ∈ default ∅ (registrationWatchers (s_reg s) !! name) → check name (s_reg s) = Some b →
  Registered id name b ∈ s_log s.
Proof.
  intros s Hin Hb. unfold check in Hb. apply fmap_Some in Hb as (e & He & ->).
  enough (told s) as H by by eapply H. unfold s. apply run_ind; [|apply told_do].
  intros x y e' H. cbn in H. rewrite lookup_empty in H. by apply not_elem_of_empty in H.
Qed.

(** ** Listing *)

(** Listing is complete and sorted: the names [list] returns are exactly the
    registered services whose dump priority meets the filter (all of them when the
    filter is empty), in order. *)
Theorem list_services_spec {B} `{HB : !ServiceBinder B} dumpFlags (r : rpcServiceRegistry B) :
  Sorted string_le (list_services dumpFlags r) ∧
  ∀ name, name ∈ list_services dumpFlags r ↔
    ∃ e, services r !! name = Some e ∧ dump_match dumpFlags e = true.
Proof.
  split; [apply Sorted_merge_sort, string_le_total|]. intros name. unfold list_services, sort_strings, entry_names.
  rewrite merge_sort_Permutation, list_elem_of_omap. split.
  - intros ([x e] & Hin & Hx). apply elem_of_map_to_list in Hin. destruct (dump_match dumpFlags e) eqn:E; [|done].
    injection Hx as <-. eauto.
  - intros (e & He & Hm). exists (name, e). rewrite Hm. split; [by apply elem_of_map_to_list|done].
Qed.

(** ** A registry of numbered Binders *)

#[export] Instance nat_binder : ServiceBinder nat :=
  { bkey := nat; binderKey := Some; binder_stability := λ _, StabilitySystem }.

Definition options : AddServiceOptions := DefaultAddServiceOptions.

(** Two goroutines wait, one gives up, then the service appears. *)
Definition waited : list (action (B:=nat)) := [Enqueue "svc"; Enqueue "svc"; Cancel "svc" 0; Add "svc" (Some 7%nat) options].

Lemma no_lost_wakeup_witness : let s := run_actions 1 waited in
  s_chans s !! 1%nat = Some "svc" ∧ placed s 1 "svc" ∧ closes (s_log s) 1 = 1%nat ∧ closes (s_log s) 0 = 0%nat.
Proof.
  split; [vm_compute; reflexivity|]. split; [|split; vm_compute; reflexivity].
  apply (no_lost_wakeup 1 waited 1 "svc"). vm_compute. reflexivity.
Defined.

Definition watched : list (action (B:=nat)) := [Add "svc" (Some 7%nat) options; WatchReg "svc"; Add "svc" (Some 8%nat) options].

Lemma no_missed_registration_witness : Registered 1 "svc" 8%nat ∈ s_log (run_actions 1 watched).
Proof.
  apply (no_missed_registration 1 watched "svc" 1 8%nat); [|vm_compute; reflexivity].
  apply (bool_decide_unpack _). vm_compute. exact I.
Defined.

(** *** Client callbacks *)

(** The updates a client watch received, in order. *)
Definition updates_of (id : Z) (log : list (effect nat)) : list (nat * bool) :=
  omap (λ e, match e with ClientUpdate i _ b has => if bool_decide (i = id) then Some (b, has) else None | _ => None end) log.

(** A watch on service 7; a client; service 8 takes the name; another client. *)
Definition replaced : list (action (B:=nat)) :=
  [Add "svc" (Some 7%nat) options; WatchCli "svc" 7%nat; MarkActive "svc"; Add "svc" (Some 8%nat) options; MarkActive "svc"].

(** Replacing a registration forgets that the old service had clients without
    telling its watchers, and they then receive the updates of the new service: the
    watch on 7 is told twice that there are clients, never that there are none, and
    the second time for 8. *)
Lemma replaced_service_confuses_watch :
  updates_of 1 (s_log (run_actions 1 replaced)) = [(7%nat, true); (8%nat, true)].
Proof. vm_compute. reflexivity. Qed.
