(* ===== verification/Managers.v ===== *)
(** * Managers: the service managers of an RPC connection

    Models src/rpc_service_manager.go around the registry: the handler that serves
    it to the peer ([rpcServiceManagerHandler]), the manager of the process that
    owns it ([rpcLocalServiceManager]), the manager of the peer
    ([rpcRemoteServiceManager]) and the name cache both managers keep; and the
    callback handlers of src/service_manager_support.go. *)

From stdpp Require Import base list numbers strings pretty gmap.
From S2P Require Import Prelude Errors Unicode Parcel Slices Value Status Stability Dispatch Services Registry.

Open Scope Z_scope.

(** ** State *)

Section State.
Context {B : Type} `{HB : !ServiceBinder B}.

(** Who a watch of the registry reports to: a callback of this process, or a
    Binder of the peer. *)
Inductive watcher := UserWatch | RemoteWatch (callback : B).

(** The registry with [rpcServiceManagerHandler]'s subscriptions; a subscription is
    the watch it closes, and the callback a watch was made with is kept beside it. *)
Record managerState := mkManager {
  m_registry : rpcServiceRegistry B;
  m_watchers : gmap Z watcher;
  registrationSubs : gmap string (gmap bkey Z);
  clientSubs : gmap bkey (string * Z);
}.

Definition newRPCServiceManagerHandler : managerState := mkManager newRPCServiceRegistry ∅ ∅ ∅.

Record rpcServiceManagerCache := mkCache { cache : gmap string B; cacheHits : Z; cacheMisses : Z }.

Definition cachedService (name : string) (c : rpcServiceManagerCache) : option B * rpcServiceManagerCache :=
  if bool_decide (name = "") then (None, c)
  else
    match cache c !! name with
    | Some service => (Some service, mkCache (cache c) (i64 (cacheHits c + 1)) (cacheMisses c))
    | None => (None, mkCache (cache c) (cacheHits c) (i64 (cacheMisses c + 1)))
    end.

Definition storeService (name : string) (service : option B) (c : rpcServiceManagerCache) : rpcServiceManagerCache :=
  match service with
  | Some b => if bool_decide (name = "") then c else mkCache (<[name := b]> (cache c)) (cacheHits c) (cacheMisses c)
  | None => c
  end.

Definition deleteService (name : string) (c : rpcServiceManagerCache) : rpcServiceManagerCache :=
  if bool_decide (name = "") then c else mkCache (delete name (cache c)) (cacheHits c) (cacheMisses c).

(** The names come in the order Go iterates over the map. *)
Definition debugSnapshot (c : rpcServiceManagerCache) : Z * Z * Z * list string :=
  (Z.of_nat (size (cache c)), cacheHits c, cacheMisses c, (map_to_list (cache c)).*1).
End State.
Arguments watcher B : clear implicits.
Arguments managerState B {HB} : assert.
Arguments rpcServiceManagerCache B : clear implicits.

(** A world that holds the served registry. *)
Class ManagerWorld (W B : Type) `{!ServiceBinder B} := {
  manager : W → managerState B;
  set_manager : managerState B → W → W;
  manager_set m w : manager (set_manager m w) = m;
}.

(** A world that holds a manager's cache. *)
Class CacheWorld (W B : Type) := {
  cache_of : W → rpcServiceManagerCache B;
  set_cache : rpcServiceManagerCache B → W → W;
  cache_set c w : cache_of (set_cache c w) = c;
}.

(** ** Computations on the world *)

Section Ops.
Context {W B : Type}.

Abbreviation WM := (ST error W).
Abbreviation Rep := (option (Parcel W B)).

(** A Parcel written from empty. *)
Definition written (write : PM W B unit) : WM Rep :=
  '(_, p) ← on_parcel (Some NewParcel) write; mret p.

Definition read_from {A} (p : Rep) (m : PM W B A) : WM A := '(a, _) ← on_parcel p m; mret a.

Definition modify_world (f : W → W) : WM unit := λ w, (Ok tt, f w).

Context `{HB : !ServiceBinder B, !BinderMarshal W B, !ManagerWorld W B}.
(** The Transact method of a Binder, the callbacks of this process, and its pid. *)
Context (transact : B → Transactor W B) (user_callback : effect B → W → W) (getpid : Z).

(** *** Callbacks *)

Definition registration_message (name : string) (service : B) : PM W B unit :=
  WriteInterfaceToken serviceCallbackDescriptor;; WriteString name;; WriteStrongBinder (Some service).

Definition client_message (service : B) (hasClients : bool) : PM W B unit :=
  WriteInterfaceToken clientCallbackDescriptor;; WriteStrongBinder (Some service);; WriteBool hasClients.

(** A oneway call whose outcome is ignored. *)
Definition post (callback : B) (message : PM W B unit) : WM unit := λ w,
  match written message w with
  | (Ok data, w1) =>
      match transact callback None FirstCallTransaction data FlagOneway w1 with
      | (Panic y, w2) => (Panic y, w2)
      | (_, w2) => (Ok tt, w2)
      end
  | (Err _, w1) => (Ok tt, w1)
  | (Panic y, w1) => (Panic y, w1)
  end.

Definition run_effect (e : effect B) : WM unit := λ w,
  match e with
  | CloseWaiter _ => (Ok tt, user_callback e w)
  | Registered id name service =>
      match m_watchers (manager w) !! id with
      | Some (RemoteWatch cb) => post cb (registration_message name service) w
      | _ => (Ok tt, user_callback e w)
      end
  | ClientUpdate id name service has =>
      match m_watchers (manager w) !! id with
      | Some (RemoteWatch cb) => post cb (client_message service has) w
      | _ => (Ok tt, user_callback e w)
      end
  end.

Fixpoint run_effects (l : list (effect B)) : WM unit :=
  match l with
  | [] => mret tt
  | e :: l' => run_effect e;; run_effects l'
  end.

(** *** The registry in the world *)

Definition registry_get {A} (f : rpcServiceRegistry B → A) : WM A := λ w, (Ok (f (m_registry (manager w))), w).

Definition set_registry (r : rpcServiceRegistry B) (m : managerState B) : managerState B :=
  mkManager r (m_watchers m) (registrationSubs m) (clientSubs m).

Definition put_registry (r : rpcServiceRegistry B) : WM unit := modify_world (λ w, set_manager (set_registry r (manager w)) w).

Definition registry_add (name : string) (service : option B) (opts : AddServiceOptions) : WM unit :=
  '(r, effects, reg) ← registry_get (add getpid name service opts);
  put_registry reg;; run_effects effects;; lift r.

Definition registry_markClientActive (name : string) : WM unit :=
  '(effects, reg) ← registry_get (markClientActive name); put_registry reg;; run_effects effects.

Definition registry_tryUnregister (name : string) (service : B) : WM unit :=
  '(r, reg) ← registry_get (tryUnregister name service); put_registry reg;; lift r.

Definition add_watcher (id : Z) (who : watcher B) : WM unit := modify_world (λ w,
  let m := manager w in set_manager (mkManager (m_registry m) (<[id := who]> (m_watchers m)) (registrationSubs m) (clientSubs m)) w).

Definition registry_watchRegistrations (name : string) (who : watcher B) : WM Z :=
  '(id, effects, reg) ← registry_get (watchRegistrations name);
  put_registry reg;; add_watcher id who;; run_effects effects;; mret id.

Definition registry_watchClients (name : string) (service : B) (who : watcher B) : WM Z :=
  '(r, reg) ← registry_get (watchClients name service);
  put_registry reg;;
  '(id, effects) ← lift r;
  add_watcher id who;; run_effects effects;; mret id.

(** ** [rpcServiceManagerHandler] *)

Definition okReply (write : PM W B unit) : WM Rep := written (WriteStatus (mkStatus None None);; write).

(** An answer, rewound. *)
Definition answer (write : PM W B unit) : PM W B Rep := in_world (okReply (write;; SetPosition 0)).
Definition ok_done : PM W B Rep := in_world (okReply (mret tt)).

Definition replyWithService (name : string) : WM Rep :=
  service ← registry_get (check name);
  match service with
  | None => okReply (WriteNullStrongBinder;; SetPosition 0)
  | Some b => registry_markClientActive name;; okReply (WriteStrongBinder (Some b);; SetPosition 0)
  end.

Definition registerNotificationCallback (name : string) (callback : B) : WM unit :=
  match binderKey callback with
  | None => λ w, (Err (ESentinel ErrUnsupported), w)
  | Some key =>
      id ← registry_watchRegistrations name (RemoteWatch callback);
      modify_world (λ w,
        let m := manager w in
        let subs := default ∅ (registrationSubs m !! name) in
        let reg := match subs !! key with Some old => unwatchRegistrations name old (m_registry m) | None => m_registry m end in
        set_manager (mkManager reg (m_watchers m) (<[name := <[key := id]> subs]> (registrationSubs m)) (clientSubs m)) w)
  end.

Definition unregisterNotificationCallback (name : string) (callback : B) : WM unit :=
  match binderKey callback with
  | None => mret tt
  | Some key =>
      modify_world (λ w,
        let m := manager w in
        let subs := default ∅ (registrationSubs m !! name) in
        let subs' := delete key subs in
        let reg := match subs !! key with Some old => unwatchRegistrations name old (m_registry m) | None => m_registry m end in
        set_manager (mkManager reg (m_watchers m)
          (if bool_decide (subs' = ∅) then delete name (registrationSubs m) else <[name := subs']> (registrationSubs m))
          (clientSubs m)) w)
  end.

Definition registerClientCallback (name : string) (service callback : B) : WM unit :=
  match binderKey callback with
  | None => λ w, (Err (ESentinel ErrUnsupported), w)
  | Some key =>
      id ← registry_watchClients name service (RemoteWatch callback);
      modify_world (λ w,
        let m := manager w in
        let reg := match clientSubs m !! key with Some (n, old) => unwatchClients n old (m_registry m) | None => m_registry m end in
        set_manager (mkManager reg (m_watchers m) (registrationSubs m) (<[key := (name, id)]> (clientSubs m))) w)
  end.

(** Run when the connection is over. *)
Definition closeAllRemoteSubscriptions : WM unit := modify_world (λ w,
  let m := manager w in
  let reg := map_fold (λ name subs r, map_fold (λ _ id r, unwatchRegistrations name id r) r subs) (m_registry m) (registrationSubs m) in
  let reg := map_fold (λ _ sub r, unwatchClients sub.1 sub.2 r) reg (clientSubs m) in
  set_manager (mkManager reg (m_watchers m) ∅ ∅) w).

Definition not_nil (b : option B) : PM W B B :=
  match b with Some b => mret b | None => throw ErrBadParcelable end.

(** Bits of a uint32 the other mask does not have: Go's [&^]. *)
Definition andnot (a b : Z) : Z := Z.land a (Z.lxor b (2 ^ 32 - 1)).

Definition read_add_options : PM W B AddServiceOptions :=
  allowIsolated ← ReadBool;
  dumpFlags ← ReadInt32;
  metadata ← readRPCServiceMetadataFromParcel;
  mret (mkAddServiceOptions allowIsolated (andnot (u32 dumpFlags) DumpFlagLazyService) false
          (negb (Z.land (u32 dumpFlags) DumpFlagLazyService =? 0)) metadata).

(** The body of [HandleTransact] after the interface token: the cases from
    isDeclared on. *)
Definition handle_late_code (code : Z) : PM W B Rep :=
  let tx := serviceManagerTransactionsCurrent in
  if code =? tx_isDeclared tx then
    name ← ReadString; v ← in_world (registry_get (isDeclared name)); answer (WriteBool v)
  else if code =? tx_declaredInstances tx then
    iface ← ReadString; l ← in_world (registry_get (declaredInstances iface)); answer (writeStringSliceToParcel (Some l))
  else if code =? tx_updatableViaApex tx then
    name ← ReadString;
    v ← in_world (registry_get (updatableViaApex name));
    answer (match v with Some v => WriteString v | None => WriteNullableString None end)
  else if code =? tx_updatableNames tx then
    apex ← ReadString; l ← in_world (registry_get (updatableNames apex)); answer (writeStringSliceToParcel l)
  else if code =? tx_connectionInfo tx then
    name ← ReadString;
    info ← in_world (registry_get (connectionInfo name));
    answer (writeNullableConnectionInfoToParcel info)
  else if code =? tx_registerClientCallback tx then
    name ← ReadString;
    service ← ReadStrongBinder;
    callback ← ReadStrongBinder;
    service ← not_nil service;
    callback ← not_nil callback;
    in_world (registerClientCallback name service callback);;
    ok_done
  else if code =? tx_tryUnregister tx then
    name ← ReadString;
    service ← ReadStrongBinder;
    (* binderKey(nil) finds no implementation *)
    match service with
    | None => throw ErrUnsupported
    | Some service => in_world (registry_tryUnregister name service);; ok_done
    end
  else if code =? tx_debugInfo tx then
    l ← in_world (registry_get debugInfo); answer (writeServiceDebugInfoSliceToParcel (Some l))
  else throw ErrUnknownTransaction.

(** The cases up to unregisterNotify, then the others. *)
Definition handle_code (code : Z) : PM W B Rep :=
  let tx := serviceManagerTransactionsCurrent in
  if code =? tx_checkService tx then name ← ReadString; in_world (replyWithService name)
  else if code =? tx_addService tx then
    name ← ReadString;
    service ← ReadStrongBinder;
    service ← not_nil service;
    opts ← read_add_options;
    in_world (registry_add name (Some service) opts);;
    ok_done
  else if code =? tx_listServices tx then
    dumpFlags ← ReadInt32;
    names ← in_world (registry_get (list_services (u32 dumpFlags)));
    answer (writeStringSliceToParcel (Some names))
  else if code =? tx_registerNotify tx then
    name ← ReadString;
    callback ← ReadStrongBinder;
    callback ← not_nil callback;
    in_world (registerNotificationCallback name callback);;
    ok_done
  else if code =? tx_unregisterNotify tx then
    name ← ReadString;
    callback ← ReadStrongBinder;
    callback ← not_nil callback;
    in_world (unregisterNotificationCallback name callback);;
    ok_done
  else handle_late_code code.

Definition manager_HandleTransact (ctx : context) (code : Z) (data : Parcel W B) : WM Rep :=
  read_from (Some data) (
    descriptor ← ReadInterfaceToken;
    if negb (bool_decide (descriptor = serviceManagerDescriptor)) then throw ErrBadParcelable
    else handle_code code).

Definition manager_handler : Handler W B :=
  mkHandler serviceManagerDescriptor manager_HandleTransact None None None None None.

(** ** The callback handlers of src/service_manager_support.go *)

Definition wrong_descriptor (got want : string) : error :=
  Errorf_w ErrBadParcelable ("descriptor " +:+ got +:+ ", want " +:+ want)%string.

(** [active] is the state of the handler's subscription. *)
Definition registration_callback_HandleTransact (active : bool) (callback : string → option B → W → W)
    (code : Z) (data : Parcel W B) : WM Rep :=
  read_from (Some data) (
    descriptor ← ReadInterfaceToken;
    if negb (bool_decide (descriptor = serviceCallbackDescriptor))
    then throw (wrong_descriptor descriptor serviceCallbackDescriptor)
    else if negb (code =? FirstCallTransaction) then throw ErrUnknownTransaction
    else
      name ← ReadString;
      binder ← ReadStrongBinder;
      (if active then in_world (modify_world (callback name binder)) else mret tt);;
      mret None).

Definition client_callback_HandleTransact (active : bool) (callback : option B → bool → W → W)
    (code : Z) (data : Parcel W B) : WM Rep :=
  read_from (Some data) (
    descriptor ← ReadInterfaceToken;
    if negb (bool_decide (descriptor = clientCallbackDescriptor))
    then throw (wrong_descriptor descriptor clientCallbackDescriptor)
    else if negb (code =? FirstCallTransaction) then throw ErrUnknownTransaction
    else
      service ← ReadStrongBinder;
      hasClients ← ReadBool;
      (if active then in_world (modify_world (callback service hasClients)) else mret tt);;
      mret None).

(** ** The managers *)

Context `{!CacheWorld W B}.

Definition cached (name : string) : WM (option B) := λ w,
  let '(found, c) := cachedService name (cache_of w) in (Ok found, set_cache c w).
Definition store (name : string) (service : option B) : WM unit :=
  modify_world (λ w, set_cache (storeService name service (cache_of w)) w).
Definition forget (name : string) : WM unit := modify_world (λ w, set_cache (deleteService name (cache_of w)) w).

(** *** [rpcLocalServiceManager] *)

Definition local_CheckService (name : string) : WM B :=
  found ← cached name;
  match found with
  | Some b => mret b
  | None =>
      service ← registry_get (check name);
      match service with
      | None => throw ErrNoService
      | Some b => store name (Some b);; mret b
      end
  end.

(** After [registerLocalHandler], which made [service]. *)
Definition local_AddService (name : string) (service : B) (opts : AddServiceOptions) : WM unit :=
  registry_add name (Some service) opts;; store name (Some service).

Definition local_TryUnregisterService (name : string) (service : B) : WM unit :=
  forget name;; registry_tryUnregister name service.

Definition local_WatchServiceRegistrations (name : string) : WM Z := registry_watchRegistrations name UserWatch.
Definition local_WatchClients (name : string) (service : B) : WM Z := registry_watchClients name service UserWatch.

(** The questions both managers answer, and their answers. *)
Inductive query :=
| ListServices (dumpFlags : Z)
| IsDeclared (name : string)
| DeclaredInstances (iface : string)
| UpdatableViaApex (name : string)
| UpdatableNames (apexName : string)
| GetConnectionInfo (name : string)
| DebugInfo.

Definition answer_type (q : query) : Type :=
  match q with
  | ListServices _ | DeclaredInstances _ | UpdatableNames _ => option (list string)
  | IsDeclared _ => bool
  | UpdatableViaApex _ => option string
  | GetConnectionInfo _ => option ConnectionInfo
  | DebugInfo => option (list ServiceDebugInfo)
  end.

Definition local_query (q : query) : WM (answer_type q) :=
  match q with
  | ListServices flags => registry_get (λ r, Some (list_services flags r))
  | IsDeclared name => registry_get (isDeclared name)
  | DeclaredInstances iface => registry_get (λ r, Some (declaredInstances iface r))
  | UpdatableViaApex name => registry_get (updatableViaApex name)
  | UpdatableNames apex => registry_get (updatableNames apex)
  | GetConnectionInfo name => registry_get (connectionInfo name)
  | DebugInfo => registry_get (λ r, Some (debugInfo r))
  end.

(** *** [rpcRemoteServiceManager] *)

Section Remote.
Context (target : Transactor W B) (ctx : option context).

(** A call to the manager: the reply, its status read. *)
Definition call (code : Z) (write : PM W B unit) : WM Rep :=
  data ← written (WriteInterfaceToken serviceManagerDescriptor;; write);
  reply ← (target ctx code data FlagNone : WM Rep);
  match reply with
  | None => throw ErrBadParcelable
  | Some _ => '(_, p) ← on_parcel reply decodeStatusReply; mret p
  end.

Definition callName (code : Z) (name : string) : WM Rep := call code (WriteString name).

Definition callNotificationUnregister (code : Z) (name : string) (callback : option B) : WM unit :=
  call code (WriteString name;; WriteStrongBinder callback);; mret tt.

Definition remote_CheckService (name : string) : WM B :=
  found ← cached name;
  match found with
  | Some b => mret b
  | None =>
      reply ← callName (tx_checkService serviceManagerTransactionsCurrent) name;
      service ← read_from reply ReadStrongBinder;
      match service with
      | None => throw ErrNoService
      | Some b => store name (Some b);; mret b
      end
  end.

Definition write_add_options (o : AddServiceOptions) : PM W B unit :=
  WriteBool (aso_AllowIsolated o);;
  WriteInt32 (i32 (EffectiveDumpFlags o));;
  writeRPCServiceMetadataToParcel (aso_Metadata o).

(** After [registerLocalHandler], which made [service]. *)
Definition remote_AddService (name : string) (service : B) (opts : AddServiceOptions) : WM unit :=
  call (tx_addService serviceManagerTransactionsCurrent)
    (WriteString name;; WriteStrongBinder (Some service);; write_add_options opts);;
  store name (Some service).

Definition remote_ListServices (flags : Z) : WM (option (list string)) :=
  reply ← call (tx_listServices serviceManagerTransactionsCurrent) (WriteInt32 (i32 flags));
  read_from reply readStringSliceFromParcel.

Definition remote_DebugInfo : WM (option (list ServiceDebugInfo)) :=
  reply ← call (tx_debugInfo serviceManagerTransactionsCurrent) (mret tt);
  read_from reply readServiceDebugInfoSliceFromParcel.

Definition remote_query (q : query) : WM (answer_type q) :=
  let tx := serviceManagerTransactionsCurrent in
  match q with
  | ListServices flags => remote_ListServices flags
  | IsDeclared name => reply ← callName (tx_isDeclared tx) name; read_from reply ReadBool
  | DeclaredInstances iface => reply ← callName (tx_declaredInstances tx) iface; read_from reply readStringSliceFromParcel
  | UpdatableViaApex name => reply ← callName (tx_updatableViaApex tx) name; read_from reply ReadNullableString
  | UpdatableNames apex => reply ← callName (tx_updatableNames tx) apex; read_from reply readStringSliceFromParcel
  | GetConnectionInfo name => reply ← callName (tx_connectionInfo tx) name; read_from reply readNullableConnectionInfoFromParcel
  | DebugInfo => remote_DebugInfo
  end.

(** [unregister] is [unregisterLocalHandle] of the callback's handle, [callback] the
    Binder of [registerLocalHandler]. *)
Definition or_unregister (unregister : WM unit) (m : WM unit) : WM unit := λ w,
  match m w with
  | (Err e, w') => match unregister w' with (Panic y, w2) => (Panic y, w2) | (_, w2) => (Err e, w2) end
  | r => r
  end.

Definition remote_WatchServiceRegistrations (unregister : WM unit) (name : string) (callback : B) : WM unit :=
  or_unregister unregister (
    call (tx_registerNotify serviceManagerTransactionsCurrent) (WriteString name;; WriteStrongBinder (Some callback));; mret tt).

(** The close function of that subscription. *)
Definition remote_UnwatchServiceRegistrations (unregister : WM unit) (name : string) (callback : B) : WM unit := λ w,
  match callNotificationUnregister (tx_unregisterNotify serviceManagerTransactionsCurrent) name (Some callback) w with
  | (Panic y, w1) => (Panic y, w1)
  | (Err e, w1) => match unregister w1 with (Panic y, w2) => (Panic y, w2) | (_, w2) => (Err e, w2) end
  | (Ok _, w1) => unregister w1
  end.

Definition remote_WatchClients (unregister : WM unit) (name : string) (service callback : B) : WM unit :=
  or_unregister unregister (
    call (tx_registerClientCallback serviceManagerTransactionsCurrent)
      (WriteString name;; WriteStrongBinder (Some service);; WriteStrongBinder (Some callback));; mret tt).

Definition remote_TryUnregisterService (name : string) (service : option B) : WM unit :=
  match service with
  | None => throw ErrUnsupported
  | Some _ =>
      call (tx_tryUnregister serviceManagerTransactionsCurrent) (WriteString name;; WriteStrongBinder service);; forget name
  end.
End Remote.

(** ** [waitForServiceWithNotifications] *)

(** [_ = m()]. *)
Definition ignoring (m : WM unit) : WM unit := λ w, match m w with (Err _, w') => (Ok tt, w') | r => r end.

(** Up to the point where it blocks: a service, or the subscription to wait on. *)
Definition wait_start {S} (check_service : WM B) (watch : WM S) (close : S → WM unit) : WM (B + S) := λ w,
  match check_service w with
  | (Ok b, w1) => (Ok (inl b), w1)
  | (Err e, w1) =>
      if negb (errors_Is e ErrNoService) then (Err e, w1)
      else
        match watch w1 with
        | (Ok sub, w2) =>
            match check_service w2 with
            | (Ok b, w3) => (ignoring (close sub);; mret (inl b)) w3
            | (Err e, w3) => if negb (errors_Is e ErrNoService) then (ignoring (close sub);; throw e) w3 else (Ok (inr sub), w3)
            | (Panic y, w3) => (Panic y, w3)
            end
        | (Err e, w2) => (Err e, w2)
        | (Panic y, w2) => (Panic y, w2)
        end
  | (Panic y, w1) => (Panic y, w1)
  end.
End Ops.
