(* ===== verification/ManagerProps.v ===== *)
(** * ManagerProps: a remote service manager answers like the local one

    Theorems on Managers: the peer's manager, talking to the handler over a
    connection that delivers Parcels, returns what the owner's manager returns; a
    registration made over the connection has the options it was made with; and
    where the caches of the managers stop being true to the registry. *)

From stdpp Require Import base list numbers strings pretty gmap.
From S2P Require Import Prelude Errors Unicode Parcel ParcelFacts Codec ObjectCodec Fields Slices Value ValueProps Status Stability Dispatch DispatchProps RpcConn RpcProps RpcCall Services Registry RegistryProps Managers.

Open Scope Z_scope.

(** A flag word sent as a signed integer. *)
Lemma u32_i32 z : u32 (i32 z) = u32 z.
Proof. unfold u32, i32, wraps, wrapu. rewrite Zminus_mod_idemp_l. f_equal. lia. Qed.

(** Sequencing on the world. *)
Lemma bind_elsewhere {E S A C} (m m' : ST E S A) (k : A → ST E S C) s s' : m s = m' s' → (m ≫= k) s = (m' ≫= k) s'.
Proof. intros H. unfold mbind, ST_bind. by rewrite H. Qed.

Lemma then_unit {E S A C} (m : ST E S A) (k : ST E S C) s : (m;; k) s = ((m;; mret tt);; k) s.
Proof. unfold mbind, ST_bind. by destruct (m s) as [[a|e|y] s']. Qed.

Section Facts.
Context {W B : Type}.

Lemma consumes_ok_status : @consumes W B unit decodeStatusReply tt (le_bytes 4 (u32 0)) [].
Proof.
  intros p w pre post Hb Hp Hl Hr. unfold decodeStatusReply. rewrite bind_receiver. cbn [ptr].
  by rewrite (bind_ok _ _ _ _ _ (consumes_ok_ReadStatus p w pre post Hb Hp Hl Hr)).
Qed.

Lemma on_parcel_ok {A} p (m : PM W B A) a p' w : m (mkst p w) = (Ok a, mkst p' w) → on_parcel p m w = (Ok (a, p'), w).
Proof. intros H. unfold on_parcel. by rewrite H. Qed.

Lemma written_ok (m : PM W B unit) bs objs w : emits m tt bs objs → len bs <= maxInt →
  written m w = (Ok (Some (p_emit NewParcel bs objs)), w).
Proof.
  intros H Hl. unfold written. by rewrite (bind_ok _ _ _ _ _ (on_parcel_ok _ _ _ _ _ (H NewParcel w eq_refl Hl))).
Qed.
End Facts.

(** ** A connection *)

Section Connection.
Context {W B : Type} `{HB : !ServiceBinder B, !BinderMarshal W B, !ManagerWorld W B}.
Context (transact : B → Transactor W B) (user_callback : effect B → W → W) (getpid : Z).

(** What the transport does to a Parcel: the bytes and objects arrive, the cursor at
    the start; the resolvers are those of the receiving end. *)
Definition carries (arrive : Parcel W B → Parcel W B) : Prop :=
  ∀ p, buf (arrive p) = buf p ∧ pos (arrive p) = 0 ∧ objects (arrive p) = objects p.

(** The manager's handler at the other end of a connection: its request and reply
    travel as Parcels, its error as the frame error that [serveTransact] captures
    and the caller's Transact replays ([carried_error], RpcCall). *)
Definition served (arrive back : Parcel W B → Parcel W B) (tx : TransactionContext) : Transactor W B :=
  λ ctx code data flags w,
    match DispatchLocalHandler getpid ctx (Some (manager_handler transact user_callback getpid)) code (arrive <$> data) flags tx w with
    | (Ok reply, w') => (Ok (back <$> reply), w')
    | (Err e, w') => (Err (carried_error e), w')
    | (Panic y, w') => (Panic y, w')
    end.

(** What the caller at the other end sees of an action of the handler. *)
Definition over_wire {A} (act : ST error W A) : ST error W A := λ w,
  match act w with (Err e, w') => (Err (carried_error e), w') | r => r end.

Context (arrive back : Parcel W B → Parcel W B) (tx : TransactionContext).
Hypothesis (Harrive : carries arrive) (Hback : carries back).

Lemma smd_ok : string_ok serviceManagerDescriptor.
Proof. vm_compute. split; [reflexivity|discriminate]. Qed.

Abbreviation token := (token_bytes serviceManagerDescriptor).

Lemma len_token : len token = 72.
Proof. vm_compute. reflexivity. Qed.

Definition ok_bytes (pb : list Z) : list Z := le_bytes 4 (u32 0) ++ pb.

Lemma answer_ok (write : PM W B unit) pb s w : emits write tt pb [] → 4 + len pb <= maxInt →
  answer write (mkst s w) = (Ok (Some (set_pos 0 (p_emit NewParcel (ok_bytes pb) []))), mkst s w).
Proof.
  intros H Hl. unfold answer, in_world, okReply, written. cbn [world ptr].
  assert (E : (WriteStatus (mkStatus None None);; write;; SetPosition 0) (mkst (Some NewParcel) w) =
    (Ok tt, mkst (Some (set_pos 0 (p_emit (NewParcel : Parcel W B) (ok_bytes pb) []))) w)).
  { rewrite <- bind_assoc.
    pose proof (emits_bind_nil _ (λ _, write) _ _ _ _ emits_ok_status H) as Hb.
    rewrite (bind_ok _ _ _ _ _ (Hb NewParcel w eq_refl ltac:(change (len (buf NewParcel)) with 0; rewrite length_app, length_le_bytes; lia))).
    apply SetPosition_0. }
  by rewrite (bind_ok _ _ _ _ _ (on_parcel_ok _ _ _ _ _ E)).
Qed.

(** The handler finds a query's arguments after the token. *)
Lemma manager_answers c code p bs write pb w :
  emits write tt pb [] → 4 + len pb <= maxInt → len bs + 1024 <= maxInt → buf p = token ++ bs → pos p = 0 →
  (∀ p, buf p = token ++ bs → pos p = len token →
    ∃ s, handle_code transact user_callback getpid code (mkst (Some p) w) = answer write (mkst s w)) →
  manager_HandleTransact transact user_callback getpid c code p w =
    (Ok (Some (set_pos 0 (p_emit NewParcel (ok_bytes pb) []))), w).
Proof.
  intros Hw Hpb Hbs Hb Hp Hh. unfold manager_HandleTransact, read_from, mbind, ST_bind, on_parcel.
  pose proof (consumes_ReadInterfaceToken (W := W) (B := B) _ smd_ok p w [] bs Hb Hp
    ltac:(rewrite Hb, length_app; pose proof len_token; lia) ltac:(constructor)) as E.
  rewrite E. cbn [negb]. rewrite bool_decide_eq_true_2 by done. cbn [negb].
  destruct (Hh (set_pos (len (@nil Z) + len token) p)) as [s ->]; [done|done|].
  by rewrite (answer_ok write pb) by done.
Qed.

Lemma served_call ctx code wr bs write pb w : reserved code = false →
  emits wr tt bs [] → emits write tt pb [] → len bs + 1024 <= maxInt → 4 + len pb <= maxInt →
  (∀ p, buf p = token ++ bs → pos p = len token →
    ∃ s, handle_code transact user_callback getpid code (mkst (Some p) w) = answer write (mkst s w)) →
  ∃ p, call (served arrive back tx) ctx code wr w = (Ok (Some p), w) ∧ buf p = ok_bytes pb ∧ pos p = 4.
Proof.
  intros Hc Hwr Hw Hbs Hpb Hh. unfold call. pose proof len_token as Ht.
  pose proof (emits_bind_nil _ (λ _, wr) _ _ _ _ (emits_WriteInterfaceToken (W := W) (B := B) _ smd_ok) Hwr) as Hreq.
  rewrite (bind_ok _ _ _ _ _ (written_ok _ _ _ w Hreq ltac:(rewrite length_app; lia))).
  set (data := p_emit NewParcel (token ++ bs) []).
  assert (E : served arrive back tx ctx code (Some data) FlagNone w =
    (Ok (Some (back (set_pos 0 (p_emit NewParcel (ok_bytes pb) [])))), w)).
  { unfold served, DispatchLocalHandler. destruct (reserved_false _ Hc) as (E1 & E2 & E3 & E4 & E5 & E6).
    rewrite E1, E2, E3, E4, E5, E6. cbn [fmap option_fmap option_map default h_HandleTransact manager_handler].
    destruct (Harrive data) as (Hb1 & Hp1 & _).
    rewrite (manager_answers _ _ _ bs write pb) by done. rewrite SetPosition_0. done. }
  rewrite (bind_ok _ _ _ _ _ E). set (reply := back _). destruct (Hback (set_pos 0 (p_emit NewParcel (ok_bytes pb) []))) as (Hb & Hp & _).
  fold reply in Hb, Hp. change (buf reply = ok_bytes pb) in Hb.
  pose proof (consumes_ok_status (W := W) (B := B) reply w [] pb Hb Hp
    ltac:(rewrite Hb; unfold ok_bytes; rewrite length_app, length_le_bytes; lia) ltac:(constructor)) as Hs.
  rewrite (bind_ok _ _ _ _ _ (on_parcel_ok _ _ _ _ _ Hs)). eexists. split; [done|]. split; [exact Hb|done].
Qed.

(** Reading what the handler wrote. *)
Lemma served_query {A} ctx code wr bs write pb (rd : PM W B A) a w : reserved code = false →
  emits wr tt bs [] → emits write tt pb [] → consumes rd a pb [] → len bs + 1024 <= maxInt → 4 + len pb <= maxInt →
  (∀ p, buf p = token ++ bs → pos p = len token →
    ∃ s, handle_code transact user_callback getpid code (mkst (Some p) w) = answer write (mkst s w)) →
  (reply ← call (served arrive back tx) ctx code wr; read_from reply rd) w = (Ok a, w).
Proof.
  intros Hc Hwr Hw Hrd Hbs Hpb Hh. destruct (served_call ctx code wr bs write pb w) as (p & E & Hb & Hp); [done..|].
  rewrite (bind_ok _ _ _ _ _ E). unfold ok_bytes in Hb.
  pose proof (Hrd p w (le_bytes 4 (u32 0)) [] ltac:(by rewrite app_nil_r) Hp
    ltac:(rewrite Hb, length_app, length_le_bytes; lia) ltac:(constructor)) as Hr.
  unfold read_from. by rewrite (bind_ok _ _ _ _ _ (on_parcel_ok _ _ _ _ _ Hr)).
Qed.

(** *** Every question *)

Definition strings_ok (o : option (list string)) : Prop :=
  opt_ok (λ l, len l <= maxInt32 ∧ Forall string_ok l ∧ 8 + len (cat_bytes string_bytes l) <= maxInt) o.

(** A question and an answer that fit the wire. *)
Definition query_ok (q : query) : Prop :=
  match q with
  | ListServices flags => in_u 32 flags
  | IsDeclared s | DeclaredInstances s | UpdatableViaApex s | UpdatableNames s | GetConnectionInfo s =>
      string_ok s ∧ len (string_bytes s) + 1024 <= maxInt
  | DebugInfo => True
  end.

Definition answer_fits (q : query) : answer_type q → Prop :=
  match q with
  | ListServices _ | DeclaredInstances _ | UpdatableNames _ => strings_ok
  | IsDeclared _ => λ _, True
  | UpdatableViaApex _ => λ o, opt_ok (λ s, string_ok s ∧ 4 + len (string_bytes s) <= maxInt) o
  | GetConnectionInfo _ => λ o, opt_ok info_ok o
  | DebugInfo => λ o, opt_ok (λ l, len l <= maxInt32 ∧ Forall debug_ok l ∧ 8 + len (cat_bytes debug_bytes l) <= maxInt) o
  end.

Definition query_code (q : query) : Z :=
  let tx := serviceManagerTransactionsCurrent in
  match q with
  | ListServices _ => tx_listServices tx
  | IsDeclared _ => tx_isDeclared tx
  | DeclaredInstances _ => tx_declaredInstances tx
  | UpdatableViaApex _ => tx_updatableViaApex tx
  | UpdatableNames _ => tx_updatableNames tx
  | GetConnectionInfo _ => tx_connectionInfo tx
  | DebugInfo => tx_debugInfo tx
  end.

Definition query_write (q : query) : PM W B unit :=
  match q with
  | ListServices flags => WriteInt32 (i32 flags)
  | IsDeclared s | DeclaredInstances s | UpdatableViaApex s | UpdatableNames s | GetConnectionInfo s => WriteString s
  | DebugInfo => mret tt
  end.

Definition query_bytes (q : query) : list Z :=
  match q with
  | ListServices flags => le_bytes 4 (u32 (i32 flags))
  | IsDeclared s | DeclaredInstances s | UpdatableViaApex s | UpdatableNames s | GetConnectionInfo s => string_bytes s
  | DebugInfo => []
  end.

Definition answer_write (q : query) : answer_type q → PM W B unit :=
  match q with
  | ListServices _ | DeclaredInstances _ | UpdatableNames _ => writeStringSliceToParcel
  | IsDeclared _ => WriteBool
  | UpdatableViaApex _ => λ v, match v with Some v => WriteString v | None => WriteNullableString None end
  | GetConnectionInfo _ => writeNullableConnectionInfoToParcel
  | DebugInfo => writeServiceDebugInfoSliceToParcel
  end.

Definition answer_read (q : query) : PM W B (answer_type q) :=
  match q with
  | ListServices _ | DeclaredInstances _ | UpdatableNames _ => readStringSliceFromParcel
  | IsDeclared _ => ReadBool
  | UpdatableViaApex _ => ReadNullableString
  | GetConnectionInfo _ => readNullableConnectionInfoFromParcel
  | DebugInfo => readServiceDebugInfoSliceFromParcel
  end.

Definition answer_bytes (q : query) : answer_type q → list Z :=
  match q with
  | ListServices _ | DeclaredInstances _ | UpdatableNames _ => opt_bytes (slice_bytes string_bytes)
  | IsDeclared _ => λ b, le_bytes 4 (Z.b2z b)
  | UpdatableViaApex _ => opt_bytes string_bytes
  | GetConnectionInfo _ => info_bytes
  | DebugInfo => opt_bytes (slice_bytes debug_bytes)
  end.

Lemma remote_query_calls target ctx q :
  remote_query target ctx q = (reply ← call target ctx (query_code q) (query_write q); read_from reply (answer_read q)).
Proof. by destruct q. Qed.

Lemma query_emits q : query_ok q → emits (query_write q) tt (query_bytes q) [].
Proof. destruct q; cbn; intros H; [apply emits_WriteInt32|destruct H as [[_ H] _]; by apply emits_WriteString..|apply emits_ret]. Qed.

Lemma strings_emit o : strings_ok o → @emits W B unit (writeStringSliceToParcel o) tt (opt_bytes (slice_bytes string_bytes) o) [].
Proof.
  destruct o as [l|]; [|intros _; apply emits_WriteSlice_nil]. intros (Hl & Hs & _).
  apply (emits_list_plain _ string_ok); [|done..]. intros a [_ H]. by apply emits_WriteString.
Qed.

Lemma strings_consume o : strings_ok o → @consumes W B _ readStringSliceFromParcel o (opt_bytes (slice_bytes string_bytes) o) [].
Proof.
  destruct o as [l|]; [|intros _; apply consumes_ReadSlice_nil]. intros (Hl & Hs & _).
  apply (consumes_list_plain _ string_ok); [|done..]. intros a H. by apply consumes_ReadString_id.
Qed.

Lemma answer_emits q a : answer_fits q a → emits (answer_write q a) tt (answer_bytes q a) [].
Proof.
  destruct q; cbn; intros H; try by apply strings_emit.
  - apply emits_WriteBool.
  - destruct a as [s|]; [destruct H as [[_ H] _]; by apply emits_WriteString|apply emits_WriteInt32].
  - by apply emits_connection_info.
  - destruct a as [l|]; [|apply emits_WriteSlice_nil]. destruct H as (Hl & Hs & _).
    apply (emits_list_plain _ debug_ok); [|done..]. apply emits_debug_info.
Qed.

Lemma answer_consumes q a : answer_fits q a → consumes (answer_read q) a (answer_bytes q a) [].
Proof.
  destruct q; cbn; intros H; try by apply strings_consume.
  - apply consumes_ReadBool.
  - apply consumes_nullable_string. destruct a as [s|]; [by destruct H|done].
  - by apply consumes_connection_info.
  - destruct a as [l|]; [|apply consumes_ReadSlice_nil]. destruct H as (Hl & Hs & _).
    apply (consumes_list_plain _ debug_ok); [|done..]. apply consumes_debug_info.
Qed.

Lemma answer_length q a : answer_fits q a → 4 + len (answer_bytes q a) <= maxInt.
Proof.
  assert (Hs : ∀ o, strings_ok o → 4 + len (opt_bytes (slice_bytes string_bytes) o) <= maxInt).
  { intros [l|] H; [|done]. destruct H as (_ & _ & H). cbn [opt_bytes]. unfold slice_bytes. len_lia. }
  destruct q; intros H; cbn [answer_bytes answer_fits] in *; auto; [done|..].
  - destruct a as [s|]; [by destruct H|done].
  - destruct a as [i|]; [|done]. pose proof (len_info_body i H). cbn [info_bytes]. unfold sized, maxInt32, maxInt in *. len_lia.
  - destruct a as [l|]; [|done]. destruct H as (_ & _ & H). cbn [opt_bytes]. unfold slice_bytes. len_lia.
Qed.

Definition local_answer (q : query) (w : W) : answer_type q :=
  let r := m_registry (manager w) in
  match q with
  | ListServices flags => Some (list_services flags r)
  | IsDeclared name => isDeclared name r
  | DeclaredInstances iface => Some (declaredInstances iface r)
  | UpdatableViaApex name => updatableViaApex name r
  | UpdatableNames apex => updatableNames apex r
  | GetConnectionInfo name => connectionInfo name r
  | DebugInfo => Some (debugInfo r)
  end.

Lemma local_query_answer q w : local_query q w = (Ok (local_answer q w), w).
Proof. by destruct q. Qed.

(** The name first, then the registry. *)
Lemma named_query {A} code name (f : string → rpcServiceRegistry B → A) (write : A → PM W B unit) s s' w :
  handle_code transact user_callback getpid code =
    (name ← ReadString; a ← in_world (registry_get (f name)); answer (write a)) →
  ReadString (mkst s w) = (Ok name, mkst s' w) →
  ∃ s2, handle_code transact user_callback getpid code (mkst s w) = answer (write (f name (m_registry (manager w)))) (mkst s2 w).
Proof. intros -> E. exists s'. by rewrite (bind_ok _ _ _ _ _ E). Qed.

Lemma manager_answers_query q w p : query_ok q → buf p = token ++ query_bytes q → pos p = len token →
  ∃ s, handle_code transact user_callback getpid (query_code q) (mkst (Some p) w) =
       answer (answer_write q (local_answer q w)) (mkst s w).
Proof.
  intros Hq Hb Hp.
  assert (Hl : len (buf p) <= maxInt).
  { rewrite Hb, length_app. pose proof len_token.
    destruct q; cbn [query_ok query_bytes] in *; rewrite ?length_le_bytes; cbn [length]; unfold maxInt in *; lia. }
  rewrite <- (app_nil_r (query_bytes q)) in Hb.
  assert (Hstr : ∀ x, string_ok x → query_bytes q = string_bytes x →
    (ReadString : PM W B _) (mkst (Some p) w) = (Ok x, mkst (Some (set_pos (len token + len (query_bytes q)) p)) w)).
  { intros x Hx E. rewrite E in *. by apply (consumes_ReadString_id (W := W) (B := B) x Hx p w token [] Hb Hp Hl); constructor. }
  destruct q as [flags|x|x|x|x|x|]; cbn [query_ok] in Hq; cbn [query_code].
  - assert (E : (ReadInt32 : PM W B _) (mkst (Some p) w) = (Ok (i32 flags), mkst (Some (set_pos (len token + 4) p)) w))
      by (apply (consumes_ReadInt32 (W := W) (B := B) (i32 flags) ltac:(apply wraps_range; lia) p w token [] Hb Hp Hl); constructor).
    exists (Some (set_pos (len token + 4) p)).
    etrans; [apply (bind_ok _ _ _ _ _ E)|]. by replace (u32 (i32 flags)) with flags by (rewrite u32_i32; symmetry; by apply wrapu_id).
  - apply (named_query (query_code (IsDeclared x)) x isDeclared (answer_write (IsDeclared x)) _ _ _ eq_refl (Hstr x (proj1 Hq) eq_refl)).
  - apply (named_query (query_code (DeclaredInstances x)) x declaredInstances (λ l, writeStringSliceToParcel (Some l)) _ _ _ eq_refl (Hstr x (proj1 Hq) eq_refl)).
  - apply (named_query (query_code (UpdatableViaApex x)) x updatableViaApex (answer_write (UpdatableViaApex x)) _ _ _ eq_refl (Hstr x (proj1 Hq) eq_refl)).
  - apply (named_query (query_code (UpdatableNames x)) x updatableNames (answer_write (UpdatableNames x)) _ _ _ eq_refl (Hstr x (proj1 Hq) eq_refl)).
  - apply (named_query (query_code (GetConnectionInfo x)) x connectionInfo (answer_write (GetConnectionInfo x)) _ _ _ eq_refl (Hstr x (proj1 Hq) eq_refl)).
  - by exists (Some p).
Qed.

(** *** Registering over the connection *)

Definition received_options (o : AddServiceOptions) : AddServiceOptions :=
  let flags := EffectiveDumpFlags o in
  mkAddServiceOptions (aso_AllowIsolated o) (andnot flags DumpFlagLazyService) false
    (negb (Z.land flags DumpFlagLazyService =? 0)) (aso_Metadata o).

Lemma received_effective o : in_u 32 (EffectiveDumpFlags o) → EffectiveDumpFlags (received_options o) = EffectiveDumpFlags o.
Proof.
  intros Hf. unfold EffectiveDumpFlags at 1, received_options. cbn. set (f := EffectiveDumpFlags o) in *.
  unfold andnot, DumpFlagLazyService. rewrite Z.shiftl_1_l.
  assert (Hlow : Z.land f (2 ^ 32 - 1) = f).
  { change (2 ^ 32 - 1) with (Z.ones 32). rewrite Z.land_ones by lia. apply Z.mod_small. unfold in_u in Hf. lia. }
  destruct (Z.land f (2 ^ 30) =? 0) eqn:E; cbn [negb].
  - apply Z.eqb_eq in E. rewrite <- Hlow at 2. apply Z.bits_inj'. intros n Hn. apply (f_equal (λ z, Z.testbit z n)) in E.
    rewrite Z.land_spec, Z.bits_0 in E. rewrite !Z.land_spec, Z.lxor_spec.
    destruct (Z.testbit f n); [|done]. cbn in *. by rewrite E.
  - rewrite <- Hlow at 2. apply Z.bits_inj'. intros n Hn.
    rewrite Z.lor_spec, !Z.land_spec, Z.lxor_spec. destruct (Z.testbit (2 ^ 30) n) eqn:En.
    + assert (n = 30) as -> by (rewrite Z.pow2_bits_eqb in En by lia; apply Z.eqb_eq in En; lia).
      rewrite orb_true_r. change (Z.testbit (2 ^ 32 - 1) 30) with true. rewrite andb_true_r. symmetry.
      destruct (Z.testbit f 30) eqn:Eb; [done|]. exfalso. apply Z.eqb_neq in E. apply E, Z.bits_inj'. intros m Hm.
      rewrite Z.land_spec, Z.pow2_bits_eqb, Z.bits_0 by lia. destruct (Z.eqb_spec 30 m) as [<-|]; [by rewrite Eb|apply andb_false_r].
    + by rewrite orb_false_r, xorb_false_l.
Qed.

Definition options_ok (o : AddServiceOptions) : Prop := in_u 32 (EffectiveDumpFlags o) ∧ metadata_ok (aso_Metadata o).
Definition options_bytes (o : AddServiceOptions) : list Z :=
  le_bytes 4 (Z.b2z (aso_AllowIsolated o)) ++ le_bytes 4 (u32 (i32 (EffectiveDumpFlags o))) ++ metadata_bytes (aso_Metadata o).

Lemma emits_options o : options_ok o → @emits W B unit (write_add_options o) tt (options_bytes o) [].
Proof.
  intros [_ Hm]. unfold write_add_options, options_bytes.
  apply emits_bind_nil with (a := tt); [apply emits_WriteBool|].
  apply emits_bind_nil with (a := tt); [apply emits_WriteInt32|]. by apply emits_metadata.
Qed.

Lemma consumes_options o : options_ok o → @consumes W B _ read_add_options (received_options o) (options_bytes o) [].
Proof.
  intros [Hf Hm]. unfold read_add_options, options_bytes.
  apply consumes_bind_nil with (a := aso_AllowIsolated o); [apply consumes_ReadBool|].
  apply consumes_bind_nil with (a := i32 (EffectiveDumpFlags o)); [apply consumes_ReadInt32, wraps_range; lia|].
  eapply consumes_fmap; [by apply consumes_metadata|]. unfold received_options.
  replace (u32 (i32 (EffectiveDumpFlags o))) with (EffectiveDumpFlags o); [done|].
  rewrite u32_i32. symmetry. by apply wrapu_id.
Qed.

Context `{!CacheWorld W B}.

(** The Binder travels as a handle that the receiving connection resolves. *)
Definition travels (b : B) (h stability : Z) (b' : B) (w w' : W) : Prop :=
  in_u 32 h ∧ in_s 32 stability ∧
  WriteStrongBinder (Some b) = WriteStrongBinderHandleWithStability h stability ∧
  ∀ p, ∃ f, binderObjectResolve (arrive p) = Some f ∧
    ∀ off, f (mkObject ObjectStrongBinder off flatBinderObjectWireSize h stability) w = (Some b', w').

Definition add_bytes (name : string) (h stability : Z) (o : AddServiceOptions) : list Z :=
  string_bytes name ++ handle_bytes h stability ++ options_bytes o.

Definition add_objs (name : string) (h stability : Z) : list parcelObjectRef :=
  [shift_ref (len (string_bytes name)) (strong_ref h stability)].

Lemma emits_add name b h stability b' o w w' : string_ok name → options_ok o → travels b h stability b' w w' →
  emits (WriteString name;; WriteStrongBinder (Some b);; write_add_options o) tt
    (add_bytes name h stability o) (add_objs name h stability).
Proof.
  intros [_ Hn] Ho (_ & Hs & E & _). rewrite E. unfold add_bytes, add_objs.
  refine (emits_bind (WriteString name) _ tt tt _ [] _ [strong_ref h stability] (emits_WriteString name Hn) _).
  refine (emits_bind _ (λ _, write_add_options o) tt tt _ [strong_ref h stability] _ [] _ (emits_options o Ho)).
  by apply emits_WriteStrongBinderHandle.
Qed.

Lemma len_handle_bytes h stability : len (handle_bytes h stability) = 28.
Proof. unfold handle_bytes. by rewrite length_app, length_handle_flat, length_le_bytes. Qed.

Lemma add_objs_wf name h stability o : objs_wf (add_objs name h stability) (len (add_bytes name h stability o)).
Proof.
  pose proof (len_handle_bytes h stability). unfold add_bytes, add_objs. rewrite !length_app.
  split; repeat constructor; cbn [shift_ref strong_ref ref_Offset]; lia.
Qed.

(** Reading the handle back at the receiving end. *)
Lemma read_traveller b h stability b' w w' p0 p pre post : travels b h stability b' w w' →
  binderObjectResolve p = binderObjectResolve (arrive p0) →
  buf p = pre ++ handle_bytes h stability ++ post → pos p = len pre → len (buf p) <= maxInt →
  registered p (len pre) [strong_ref h stability] →
  ReadStrongBinder (mkst (Some p) w) = (Ok (Some b'), mkst (Some (set_pos (len pre + 28) p)) w').
Proof.
  intros (Hh & Hs & _ & Hf) Hres Hb Hp Hl Hr. unfold ReadStrongBinder.
  rewrite (bind_ok _ _ _ _ _ (consumes_strong (handle_flat h) stability stability h h _ (length_handle_flat h) Hs eq_refl
    (or_introl (conj (slice_handle_type h) (slice_handle h Hh))) p w pre post Hb Hp Hl Hr)).
  cbn [obj_Kind]. rewrite bool_decide_false by done. rewrite bind_receiver. cbn [ptr].
  rewrite slice_handle_type, Z.eqb_refl. change (binderObjectResolve (set_pos _ p)) with (binderObjectResolve p).
  destruct (Hf p0) as (f & Ef & Hobj). rewrite Hres, Ef. unfold resolve. cbn [world ptr]. by rewrite Hobj.
Qed.

(** The handler's side of a registration. *)
Lemma handle_add name b h stability b' o p p0 w w' : string_ok name → options_ok o → travels b h stability b' w w' →
  binderObjectResolve p = binderObjectResolve (arrive p0) →
  buf p = token ++ add_bytes name h stability o → pos p = len token → len (buf p) <= maxInt →
  registered p (len token) (add_objs name h stability) →
  ∃ s, handle_code transact user_callback getpid (tx_addService serviceManagerTransactionsCurrent) (mkst (Some p) w) =
    (in_world (registry_add transact user_callback getpid name (Some b') (received_options o));; ok_done) (mkst s w').
Proof.
  intros Hn Ho Ht Hres Hb Hp Hl Hr. unfold add_bytes in Hb.
  set (p1 := set_pos (len token + len (string_bytes name)) p).
  assert (E1 : (ReadString : PM W B _) (mkst (Some p) w) = (Ok name, mkst (Some p1) w))
    by (apply (consumes_ReadString_id (W := W) (B := B) name Hn p w token _ Hb Hp Hl); constructor).
  set (p2 := set_pos (len (token ++ string_bytes name) + 28) p1).
  assert (E2 : ReadStrongBinder (mkst (Some p1) w) = (Ok (Some b'), mkst (Some p2) w')).
  { apply (read_traveller b h stability b' w w' p0 p1 (token ++ string_bytes name) (options_bytes o));
      [done|done|by rewrite <- app_assoc|unfold p1; cbn [pos set_pos]; len_lia|done|].
    unfold add_objs in Hr. change [shift_ref _ _] with (shift_ref (len (string_bytes name)) <$> [strong_ref h stability]) in Hr.
    rewrite registered_shift in Hr. rewrite length_app, Nat2Z.inj_add. exact Hr. }
  assert (E3 : read_add_options (mkst (Some p2) w') = (Ok (received_options o),
    mkst (Some (set_pos (len ((token ++ string_bytes name) ++ handle_bytes h stability) + len (options_bytes o)) p2)) w')).
  { apply (consumes_options o Ho p2 w' ((token ++ string_bytes name) ++ handle_bytes h stability) []);
      [unfold p2, p1; cbn [buf set_pos]; by rewrite Hb, app_nil_r, <- !app_assoc| |done|constructor].
    unfold p2. cbn [pos set_pos]. pose proof (len_handle_bytes h stability). rewrite !length_app in *. lia. }
  eexists. etrans; [apply (bind_ok _ _ _ _ _ E1)|]. etrans; [apply (bind_ok _ _ _ _ _ E2)|].
  etrans; [apply (bind_ok (not_nil (Some b')) _ _ (mkst (Some p2) w') b' eq_refl)|].
  etrans; [apply (bind_ok _ _ _ _ _ E3)|]. reflexivity.
Qed.

(** What the handler makes of a Parcel it was sent, when it acts on the world and
    says that it is done. *)
Definition acted (act : ST error W unit) (w : W) : res (option (Parcel W B)) * W :=
  match act w with
  | (Ok _, w2) => (Ok (Some (set_pos 0 (p_emit NewParcel (ok_bytes []) []))), w2)
  | (Err e, w2) => (Err e, w2)
  | (Panic y, w2) => (Panic y, w2)
  end.

Lemma dispatch_acts ctx code p bs w w' (act : ST error W unit) : reserved code = false →
  buf p = token ++ bs → pos p = 0 → len bs + 1024 <= maxInt →
  (∃ s, handle_code transact user_callback getpid code (mkst (Some (set_pos (len token) p)) w) =
    (in_world act;; ok_done) (mkst s w')) →
  DispatchLocalHandler getpid ctx (Some (manager_handler transact user_callback getpid)) code (Some p) FlagNone tx w = acted act w'.
Proof.
  intros Hc Hb Hp Hl [s Hs]. unfold DispatchLocalHandler, acted.
  destruct (reserved_false _ Hc) as (F1 & F2 & F3 & F4 & F5 & F6).
  rewrite F1, F2, F3, F4, F5, F6. cbn [default id h_HandleTransact manager_handler].
  unfold manager_HandleTransact, read_from, mbind, ST_bind, on_parcel.
  rewrite (consumes_ReadInterfaceToken (W := W) (B := B) _ smd_ok p w [] bs Hb Hp
    ltac:(rewrite Hb, length_app; pose proof len_token; lia) ltac:(constructor)).
  rewrite bool_decide_eq_true_2 by done. cbn [negb]. change (len [] + len token) with (len token).
  rewrite Hs. unfold mbind, ST_bind, in_world. cbn [world ptr].
  destruct (act w') as [[[]|e|y] w2]; [|done..]. unfold ok_done, in_world, okReply. cbn [world ptr].
  rewrite (written_ok _ (ok_bytes []) [] w2 (emits_bind_nil _ (λ _, mret tt) _ _ _ _ emits_ok_status (emits_ret tt)) ltac:(done)).
  unfold mret, ST_ret. cbn [ptr world]. change (negb _) with false. by rewrite SetPosition_0.
Qed.

Lemma served_done ctx code wr bs objs w w' (act : ST error W unit) : reserved code = false →
  emits wr tt bs objs → objs_wf objs (len bs) → len bs + 1024 <= maxInt →
  (∀ p, buf p = token ++ bs → pos p = len token → registered p (len token) objs →
    (∃ p0, binderObjectResolve p = binderObjectResolve (arrive p0)) →
    ∃ s, handle_code transact user_callback getpid code (mkst (Some p) w) = (in_world act;; ok_done) (mkst s w')) →
  (call (served arrive back tx) ctx code wr;; mret tt) w = over_wire act w'.
Proof.
  intros Hc Hwr Hwf Hbs Hh. unfold call. pose proof len_token as Ht.
  pose proof (emits_bind _ (λ _, wr) _ _ _ _ _ _ (emits_WriteInterfaceToken (W := W) (B := B) _ smd_ok) Hwr) as Hreq.
  cbn [app] in Hreq. set (objs' := shift_ref (len token) <$> objs) in Hreq.
  assert (Hbytes : len (token ++ bs) <= maxInt) by (rewrite length_app; lia).
  assert (Hwf' : objs_wf objs' (len (token ++ bs))).
  { rewrite length_app, Nat2Z.inj_add. apply (objs_wf_app [] (len token)); [lia|lia|apply objs_wf_nil|done]. }
  rewrite !bind_assoc.
  rewrite (bind_ok _ _ _ _ _ (written_ok _ _ _ w Hreq Hbytes)).
  set (data := p_emit NewParcel (token ++ bs) objs' : Parcel W B). destruct (Harrive data) as (Hb & Hp & Hob).
  rewrite bind_assoc. unfold mbind at 1, ST_bind at 1. unfold served. cbn [fmap option_fmap option_map].
  rewrite (dispatch_acts ctx code (arrive data) bs w w' act Hc Hb Hp Hbs).
  2:{ apply Hh; [done|done| |by exists data]. apply (registered_shift _ 0).
    pose proof (registered_emit (W := W) (B := B) NewParcel (token ++ bs) objs' append_ok_new Hwf') as Hr.
    unfold registered in *. eapply Forall_impl; [exact Hr|]. intros o. unfold objectAt. cbn [objects set_pos]. by rewrite Hob. }
  unfold acted, over_wire. destruct (act w') as [[[]|e|y] w2]; [|done..]. cbn [fmap option_fmap option_map].
  set (reply := back _). destruct (Hback (set_pos 0 (p_emit NewParcel (ok_bytes []) []))) as (Hb2 & Hp2 & _). fold reply in Hb2, Hp2.
  rewrite bind_assoc, (bind_ok _ _ _ _ _ (on_parcel_ok _ _ _ _ _ (consumes_ok_status reply w2 [] [] Hb2 Hp2 ltac:(by rewrite Hb2) ltac:(constructor)))).
  done.
Qed.
End Connection.

(** ** The theorems *)

(** C19: refinement: over a connection that delivers Parcels, each question of
    [query] (ListServices, IsDeclared, DeclaredInstances, UpdatableViaApex,
    UpdatableNames, GetConnectionInfo, DebugInfo) that the peer puts to its manager
    is answered exactly as the owner's manager answers it, and changes nothing, as
    long as the question and the answer fit the wire.  CheckService and WaitService
    are not such questions: asked over the connection they mark the service's
    clients active, and the owner answers them from its cache, which may be stale
    ([owner_cache_goes_stale]). *)
Theorem remote_query_agrees {W B} `{!ServiceBinder B, !BinderMarshal W B, !ManagerWorld W B}
    (transact : B → Transactor W B) user_callback getpid arrive back tx ctx q w :
  carries arrive → carries back → query_ok q → answer_fits q (local_answer q w) →
  remote_query (served transact user_callback getpid arrive back tx) ctx q w = local_query q w.
Proof.
  intros Ha Hb Hq Hf. rewrite remote_query_calls, local_query_answer.
  apply (served_query transact user_callback getpid arrive back tx Ha Hb ctx _ _ (query_bytes q)
           (answer_write q (local_answer q w)) (answer_bytes q (local_answer q w)));
    [by destruct q|by apply query_emits|by apply answer_emits|by apply answer_consumes| |by apply answer_length|].
  - destruct q; cbn [query_bytes query_ok] in *; rewrite ?length_le_bytes; cbn [length]; try (unfold maxInt; lia); by destruct Hq.
  - intros p Hbuf Hp. by apply manager_answers_query.
Qed.

(** C20: a registration made over the connection is the owner's registration: the
    handler adds the service, as the owner's connection sees it, under the same
    name, with the same isolation, metadata and effective dump flags; the caller
    gets the handler's error as the connection captures and replays it, which keeps
    its meaning ([same_error]), and caches the service only when there is none.
    The name and the options are valid UTF-8 and, with the rest of the request, within
    the sizes of the wire ([options_ok]); the connection delivers Parcels ([carries])
    and shows the owner's side a Binder for the one sent ([travels]). *)
Theorem remote_add_registers {W B} `{!ServiceBinder B, !BinderMarshal W B, !ManagerWorld W B, !CacheWorld W B}
    (transact : B → Transactor W B) user_callback getpid arrive back tx ctx name b h stability b' opts w w' :
  carries arrive → carries back → string_ok name → options_ok opts →
  len (add_bytes name h stability opts) + 1024 <= maxInt → travels arrive b h stability b' w w' →
  ∃ opts', aso_AllowIsolated opts' = aso_AllowIsolated opts ∧ aso_Metadata opts' = aso_Metadata opts ∧
    EffectiveDumpFlags opts' = EffectiveDumpFlags opts ∧
    remote_AddService (served transact user_callback getpid arrive back tx) ctx name b opts w =
    (over_wire (registry_add transact user_callback getpid name (Some b') opts');; store name (Some b)) w' ∧
    ∀ e w2, registry_add transact user_callback getpid name (Some b') opts' w' = (Err e, w2) →
      same_error e (carried_error e).
Proof.
  intros Ha Hb Hn Ho Hl Ht. exists (received_options opts). split; [done|]. split; [done|].
  split; [apply received_effective, Ho|].
  assert (E : (call (served transact user_callback getpid arrive back tx) ctx (tx_addService serviceManagerTransactionsCurrent)
      (WriteString name;; WriteStrongBinder (Some b);; write_add_options opts);; mret tt) w =
    over_wire (registry_add transact user_callback getpid name (Some b') (received_options opts)) w').
  { apply (served_done transact user_callback getpid arrive back tx Ha Hb ctx _ _ (add_bytes name h stability opts)
      (add_objs name h stability)); [done|by eapply emits_add| |done|].
    - apply add_objs_wf.
    - intros p Hbuf Hp Hr [p0 Hres]. eapply handle_add; try done. rewrite Hbuf, length_app. pose proof len_token. lia. }
  split; [unfold remote_AddService; rewrite then_unit; by apply bind_elsewhere|].
  intros e w2 _. destruct (replay_same_error e) as (e' & He & Hs). unfold carried_error. by rewrite He.
Qed.

(** ** A world of numbered Binders *)

Definition office : Type := managerState nat * rpcServiceManagerCache nat.

#[export] Instance office_manager : ManagerWorld office nat :=
  {| manager := fst; set_manager := λ m w, (m, w.2); manager_set := λ _ _, eq_refl |}.
#[export] Instance office_cache : CacheWorld office nat :=
  {| cache_of := snd; set_cache := λ c w, (w.1, c); cache_set := λ _ _, eq_refl |}.
(** Binder [n] is sent as handle [n]. *)
#[export] Instance office_marshal : BinderMarshal office nat :=
  {| as_StabilityMarshaler := λ _, None;
     as_Marshaler := λ n, Some (WriteStrongBinderHandleWithStability (Z.of_nat n) StabilitySystem);
     as_StabilityProvider := λ _, None; type_name := λ _, "binder" |}.

(** The receiving end numbers the Binders of its peer from 100. *)
Definition office_arrive (p : Parcel office nat) : Parcel office nat :=
  mkParcel (buf p) 0 (objects p) (mode p) (flags p) None None
    (Some (λ obj w, (Some (Z.to_nat (obj_Handle obj + 100)), w))) None false.

Lemma office_carries : carries office_arrive.
Proof. intros p. split_and!; reflexivity. Qed.

Definition no_transact : nat → Transactor office nat := λ _ _ _ _ _ w, (Ok None, w).
Definition no_callback : effect nat → office → office := λ _ w, w.
Definition office_server : Transactor office nat :=
  served no_transact no_callback 42 office_arrive office_arrive (mkTx 0 0 0 0 false).

Definition empty_office : office := (newRPCServiceManagerHandler, mkCache ∅ 0 0).
Definition lazy_options : AddServiceOptions :=
  ResolveAddServiceOptions [Some (WithLazyService true); Some (WithConnectionInfo (mkConnectionInfo "10.0.0.2" 5555));
                            Some (WithUpdatableViaApex "com.android.x")].

(** The peer registers its service 7; here it is 107. *)
Definition registered_office : office := (remote_AddService office_server None "demo.IFoo/default" 7%nat lazy_options empty_office).2.

Lemma remote_query_agrees_witness :
  remote_query office_server None (GetConnectionInfo "demo.IFoo/default") registered_office =
    (Ok (Some (mkConnectionInfo "10.0.0.2" 5555)), registered_office).
Proof.
  destruct (remote_query_agrees no_transact no_callback 42 office_arrive office_arrive (mkTx 0 0 0 0 false) None
    (GetConnectionInfo "demo.IFoo/default") registered_office office_carries office_carries) as [];
    [vm_compute; repeat split; discriminate|vm_compute; repeat split; discriminate|].
  vm_compute. reflexivity.
Defined.

Lemma remote_add_registers_witness : ∃ opts', aso_Metadata opts' = aso_Metadata lazy_options ∧
  EffectiveDumpFlags opts' = EffectiveDumpFlags lazy_options ∧
  registered_office =
    ((over_wire (registry_add no_transact no_callback 42 "demo.IFoo/default" (Some 107%nat) opts');; store "demo.IFoo/default" (Some 7%nat))
       empty_office).2.
Proof.
  destruct (remote_add_registers no_transact no_callback 42 office_arrive office_arrive (mkTx 0 0 0 0 false) None
    "demo.IFoo/default" 7%nat 7 StabilitySystem 107%nat lazy_options empty_office empty_office office_carries office_carries)
    as (o & _ & Hm & Hf & E & _).
  - vm_compute. split; [reflexivity|discriminate].
  - split; [vm_compute; split; [discriminate|reflexivity]|]. vm_compute. repeat split; discriminate.
  - vm_compute. discriminate.
  - split; [vm_compute; split; [discriminate|reflexivity]|]. split; [vm_compute; split; [discriminate|reflexivity]|].
    split; [reflexivity|]. intros p. eexists. split; [reflexivity|]. intros off. vm_compute. reflexivity.
  - exists o. split; [exact Hm|]. split; [exact Hf|]. exact (f_equal snd E).
Defined.

(** The owner registers 5 and the peer takes the name over with 107, or the peer
    unregisters it: the owner's manager keeps returning 5. *)
Definition owned : office := (local_AddService no_transact no_callback 42 "svc" 5%nat options empty_office).2.
Definition taken_over : office := (registry_add no_transact no_callback 42 "svc" (Some 107%nat) options owned).2.
Definition unregistered : office := (registry_tryUnregister "svc" 5%nat owned).2.

Lemma owner_cache_goes_stale :
  (check "svc" (m_registry taken_over.1), (local_CheckService "svc" taken_over).1) = (Some 107%nat, Ok 5%nat) ∧
  (check "svc" (m_registry unregistered.1), (local_CheckService "svc" unregistered).1) = (None, Ok 5%nat).
Proof. split; vm_compute; reflexivity. Qed.

(** A service hosted by the peer and registered without a pid is listed with the pid
    of the server that keeps the registry. *)
Lemma remote_debug_pid_is_the_servers :
  (remote_query office_server None DebugInfo registered_office).1 =
    Ok (Some [mkServiceDebugInfo "demo.IFoo/default" 42]).
Proof. vm_compute. reflexivity. Qed.
