(* ===== verification/KernelServices.v ===== *)
(** * KernelServices: the client of the system's service manager

    Models src/service_manager_impl.go: [serviceManager], which talks to Android's
    own service manager over the kernel driver.  Android has renumbered the
    interface twice, so the first call probes the target and the profile found is
    kept.  The cache is the one of Managers; the world also holds the profile. *)

From stdpp Require Import base list numbers strings pretty gmap.
From S2P Require Import Prelude Errors Unicode Parcel Slices Value Status Stability Dispatch Services Registry Managers.

Open Scope Z_scope.

(** [txProfile], nil while [txKnown] is false. *)
Class ProfileWorld (W : Type) := {
  profile_of : W → option serviceManagerTransactions;
  set_profile : option serviceManagerTransactions → W → W;
  profile_set t w : profile_of (set_profile t w) = t;
}.

Section Client.
Context {W B : Type} `{!BinderMarshal W B, !CacheWorld W B, !ProfileWorld W}.
Abbreviation WM := (ST error W).
Abbreviation Rep := (option (Parcel W B)).

Section Target.
Context (target : Transactor W B) (ctx : option context).

Definition kernel_callName (code : Z) (name : string) : WM Rep :=
  if code =? 0 then throw ErrUnsupported else callName target ctx code name.

(** ** Finding the profile *)

Definition probe_name : string := "github.com/wdsgyj/libbinder-go.__smprobe__".

Definition callNameDirect (code : Z) (name : string) : WM Rep :=
  if code =? 0 then throw ErrUnsupported else callName target ctx code name.

Definition probeCheckService (code : Z) : WM unit :=
  reply ← callNameDirect code probe_name; read_from reply ReadStrongBinder;; mret tt.

Definition probeConnectionInfo (code : Z) : WM unit :=
  reply ← callNameDirect code probe_name; read_from reply readNullableConnectionInfoFromParcel;; mret tt.

(** [if err := m(); err == nil]. *)
Definition on_error {A} (m : WM unit) (yes no : WM A) : WM A := λ w,
  match m w with
  | (Ok _, w') => yes w'
  | (Err _, w') => no w'
  | (Panic y, w') => (Panic y, w')
  end.

Definition detectTransactions : WM serviceManagerTransactions :=
  on_error (probeCheckService (tx_checkService serviceManagerTransactionsCurrent)) (mret serviceManagerTransactionsCurrent)
    (on_error (probeCheckService (tx_checkService serviceManagerTransactionsLegacy13))
       (on_error (probeConnectionInfo (tx_connectionInfo serviceManagerTransactionsLegacy13))
          (mret serviceManagerTransactionsLegacy13) (mret serviceManagerTransactionsLegacy12))
       (mret serviceManagerTransactionsCurrent)).

Definition transactions : WM serviceManagerTransactions := λ w,
  match profile_of w with
  | Some tx => (Ok tx, w)
  | None =>
      match detectTransactions w with
      | (Ok tx, w1) =>
          match profile_of w1 with
          | Some tx => (Ok tx, w1)
          | None => (Ok tx, set_profile (Some tx) w1)
          end
      | r => r
      end
  end.

(** ** Methods *)

(** A call with a code the profile may not have. *)
Definition kernel_call (code : Z) (write : PM W B unit) : WM Rep :=
  if code =? 0 then throw ErrUnsupported else call target ctx code write.

(** [watch] is [watchCachedService]: it starts the death watch of the service. *)
Definition CheckService (watch : string → B → WM unit) (name : string) : WM B :=
  found ← cached name;
  match found with
  | Some b => mret b
  | None =>
      tx ← transactions;
      reply ← kernel_callName (tx_checkService tx) name;
      service ← read_from reply ReadStrongBinder;
      match service with
      | None => throw ErrNoService
      | Some b => store name (Some b);; watch name b;; mret b
      end
  end.

(** The end of that watch: the name is dropped if it still names the service. *)
Definition cached_service_died `{!EqDecision B} (name : string) (service : B) : WM unit := modify_world (λ w,
  let c := cache_of w in
  if bool_decide (cache c !! name = Some service)
  then set_cache (mkCache (delete name (cache c)) (cacheHits c) (cacheMisses c)) w else w).

(** After [registerLocalNode], which gave [node] and [stability]; [service] is the
    local Binder of the node. *)
Definition AddService (name : string) (node stability : Z) (service : B) (opts : AddServiceOptions) : WM unit :=
  data ← written (
    WriteInterfaceToken serviceManagerDescriptor;;
    WriteString name;;
    WriteStrongBinderLocalWithStability node node stability;;
    WriteBool (aso_AllowIsolated opts);;
    WriteInt32 (i32 (EffectiveDumpFlags opts)));
  tx ← transactions;
  reply ← (target ctx (tx_addService tx) data FlagNone : WM Rep);
  read_from reply decodeStatusReply;;
  store name (Some service).

Definition kernel_ListServices (tx : serviceManagerTransactions) (flags : Z) : WM (option (list string)) :=
  reply ← kernel_call (tx_listServices tx) (WriteInt32 (i32 flags)); read_from reply readStringSliceFromParcel.

Definition kernel_DebugInfo (tx : serviceManagerTransactions) : WM (option (list ServiceDebugInfo)) :=
  reply ← kernel_call (tx_debugInfo tx) (mret tt); read_from reply readServiceDebugInfoSliceFromParcel.

Definition kernel_query (q : query) : WM (answer_type q) :=
  tx ← transactions;
  match q return WM (answer_type q) with
  | ListServices flags => kernel_ListServices tx flags
  | IsDeclared name => reply ← kernel_callName (tx_isDeclared tx) name; read_from reply ReadBool
  | DeclaredInstances iface => reply ← kernel_callName (tx_declaredInstances tx) iface; read_from reply readStringSliceFromParcel
  | UpdatableViaApex name => reply ← kernel_callName (tx_updatableViaApex tx) name; read_from reply ReadNullableString
  | UpdatableNames apex => reply ← kernel_callName (tx_updatableNames tx) apex; read_from reply readStringSliceFromParcel
  | GetConnectionInfo name => reply ← kernel_callName (tx_connectionInfo tx) name; read_from reply readNullableConnectionInfoFromParcel
  | DebugInfo => kernel_DebugInfo tx
  end.

(** [callback] is the local Binder of the node the handler was registered as, and
    [unregister] unregisters that node.  The request is written before the profile
    is asked for. *)
Definition watch_call (code : serviceManagerTransactions → Z) (write : PM W B unit) : WM serviceManagerTransactions :=
  data ← written (WriteInterfaceToken serviceManagerDescriptor;; write);
  tx ← transactions;
  if code tx =? 0 then throw ErrUnsupported
  else
    reply ← (target ctx (code tx) data FlagNone : WM Rep);
    read_from reply decodeStatusReply;;
    mret tx.

Definition or_cleanup {A} (unregister : WM unit) (m : WM A) : WM A := λ w,
  match m w with
  | (Err e, w') => match unregister w' with (Panic y, w2) => (Panic y, w2) | (_, w2) => (Err e, w2) end
  | r => r
  end.

Definition WatchServiceRegistrations (unregister : WM unit) (name : string) (callback : B) : WM serviceManagerTransactions :=
  or_cleanup unregister (watch_call tx_registerNotify (WriteString name;; WriteStrongBinder (Some callback))).

Definition kernel_callNotificationUnregister (code : Z) (name : string) (callback : B) : WM unit :=
  kernel_call code (WriteString name;; WriteStrongBinder (Some callback));; mret tt.

(** The close function of that subscription; [tx] is the profile it was made with. *)
Definition UnwatchServiceRegistrations (tx : serviceManagerTransactions) (unregister : WM unit) (name : string) (callback : B)
  : WM unit := λ w,
  match kernel_callNotificationUnregister (tx_unregisterNotify tx) name callback w with
  | (Panic y, w1) => (Panic y, w1)
  | (Err e, w1) => match unregister w1 with (Panic y, w2) => (Panic y, w2) | (_, w2) => (Err e, w2) end
  | (Ok _, w1) => unregister w1
  end.

Definition WatchClients (unregister : WM unit) (name : string) (service callback : B) : WM serviceManagerTransactions :=
  or_cleanup unregister (
    watch_call tx_registerClientCallback (WriteString name;; WriteStrongBinder (Some service);; WriteStrongBinder (Some callback))).

Definition TryUnregisterService (name : string) (service : option B) : WM unit :=
  match service with
  | None => throw ErrUnsupported
  | Some _ =>
      tx ← transactions;
      kernel_call (tx_tryUnregister tx) (WriteString name;; WriteStrongBinder service);;
      modify_world (λ w, let c := cache_of w in set_cache (mkCache (delete name (cache c)) (cacheHits c) (cacheMisses c)) w)
  end.
End Target.

(** ** Theorems *)

(** The code a question is sent with. *)
Definition query_tx (tx : serviceManagerTransactions) (q : query) : Z :=
  match q with
  | ListServices _ => tx_listServices tx
  | IsDeclared _ => tx_isDeclared tx
  | DeclaredInstances _ => tx_declaredInstances tx
  | UpdatableViaApex _ => tx_updatableViaApex tx
  | UpdatableNames _ => tx_updatableNames tx
  | GetConnectionInfo _ => tx_connectionInfo tx
  | DebugInfo => tx_debugInfo tx
  end.

Lemma transactions_known target ctx tx w : profile_of w = Some tx → transactions target ctx w = (Ok tx, w).
Proof. intros H. unfold transactions. by rewrite H. Qed.

(** A question the system's generation does not have is refused without a call. *)
Lemma kernel_query_unsupported target ctx q tx w : profile_of w = Some tx → query_tx tx q = 0 →
  kernel_query target ctx q w = (Err (ESentinel ErrUnsupported), w).
Proof.
  intros Hp Hq. unfold kernel_query. rewrite (bind_ok _ _ _ _ _ (transactions_known target ctx tx w Hp)).
  destruct q; cbn [query_tx] in Hq; unfold kernel_ListServices, kernel_DebugInfo, kernel_call, kernel_callName; rewrite Hq; reflexivity.
Qed.

Lemma supported {A} (code : Z) (no yes : A) : code ≠ 0 → (if code =? 0 then no else yes) = yes.
Proof. intros H. by rewrite eqb_false. Qed.

(** On a system of the current generation, and on an RPC server, the client asks
    exactly what the RPC client asks. *)
Lemma kernel_query_current target ctx q w : profile_of w = Some serviceManagerTransactionsCurrent →
  kernel_query target ctx q w = remote_query target ctx q w.
Proof.
  intros Hp. unfold kernel_query. rewrite (bind_ok _ _ _ _ _ (transactions_known target ctx _ w Hp)).
  destruct q; unfold remote_query, remote_ListServices, remote_DebugInfo, kernel_ListServices, kernel_DebugInfo, kernel_call, kernel_callName; rewrite supported by (vm_compute; discriminate); reflexivity.
Qed.
End Client.

(** A failed probe is remembered as an answer: when both probes of the first call
    fail, whatever the reason (a cancelled context, a manager that is not up yet),
    the client keeps the current codes for every later call, and a target that
    would answer the probes of another generation is never asked. *)
Theorem failed_probe_pins_profile {W B} `{!BinderMarshal W B, !ProfileWorld W} (target : Transactor W B) ctx w e1 w1 e2 w2 :
  profile_of w = None → profile_of w2 = None →
  probeCheckService target ctx (tx_checkService serviceManagerTransactionsCurrent) w = (Err e1, w1) →
  probeCheckService target ctx (tx_checkService serviceManagerTransactionsLegacy13) w1 = (Err e2, w2) →
  ∃ w3, transactions target ctx w = (Ok serviceManagerTransactionsCurrent, w3) ∧
    ∀ (target' : Transactor W B) ctx', transactions target' ctx' w3 = (Ok serviceManagerTransactionsCurrent, w3).
Proof.
  intros Hp Hp2 E1 E2. exists (set_profile (Some serviceManagerTransactionsCurrent) w2).
  split; [|intros target' ctx'; apply transactions_known, profile_set].
  unfold transactions. rewrite Hp. unfold detectTransactions, on_error. rewrite E1, E2. unfold mret, ST_ret. by rewrite Hp2.
Qed.

(** A client that has not called yet, and a target that is down, then up. *)
#[export] Instance lone_profile : ProfileWorld (option serviceManagerTransactions) :=
  {| profile_of := id; set_profile := λ t _, t; profile_set := λ _ _, eq_refl |}.
#[export] Instance lone_marshal : BinderMarshal (option serviceManagerTransactions) nat :=
  {| as_StabilityMarshaler := λ _, None; as_Marshaler := λ _, None; as_StabilityProvider := λ _, None; type_name := λ _, "binder" |}.

Definition down : Transactor (option serviceManagerTransactions) nat := λ _ _ _ _ w, (Err (ESentinel ErrCanceled), w).

(** An Android 13 manager: no service, no connection info, and its own codes. *)
Definition android13 : Transactor (option serviceManagerTransactions) nat := λ _ code _ _ w,
  if code =? tx_checkService serviceManagerTransactionsLegacy13 then
    reply_with (WriteInt32 0;; WriteNullStrongBinder) w
  else if code =? tx_connectionInfo serviceManagerTransactionsLegacy13 then reply_with (WriteInt32 0;; WriteInt32 0) w
  else (Err (ESentinel ErrUnknownTransaction), w).

Lemma failed_probe_pins_profile_witness :
  (∃ w3, transactions down None None = (Ok serviceManagerTransactionsCurrent, w3) ∧
    transactions android13 None w3 = (Ok serviceManagerTransactionsCurrent, w3)) ∧
  transactions android13 None None = (Ok serviceManagerTransactionsLegacy13, Some serviceManagerTransactionsLegacy13).
Proof.
  split; [|vm_compute; reflexivity].
  destruct (failed_probe_pins_profile down None None (ESentinel ErrCanceled) None (ESentinel ErrCanceled) None)
    as (w3 & E & H); [reflexivity|reflexivity|vm_compute; reflexivity|vm_compute; reflexivity|].
  exists w3. split; [exact E|exact (H android13 None)].
Defined.
