(* ===== verification/Aidl.v ===== *)
(** * Aidl: syntax trees and the parser of AIDL files

    Models src/internal/aidl/ast/types.go and src/internal/aidl/parser/parser.go.
    The parser pulls tokens from a text/scanner.Scanner; [TokenSource] is that
    interface, with the part of a scanner that [peek] copies (a Go struct) kept
    apart from the reader that every copy shares.  Loops and recursions take fuel;
    AidlGrammar shows that more fuel than there are tokens is enough. *)

From stdpp Require Import base list numbers strings pretty.
From S2P Require Import Prelude.

Open Scope Z_scope.

(** ** Syntax trees (ast/types.go) *)

Record Import := mkImport { imp_Path : string }.

Record AnnotationArg := mkAnnotationArg { aarg_Name : string; aarg_Value : string }.
Record Annotation := mkAnnotation { ann_Name : string; ann_Args : list AnnotationArg }.

Inductive Direction := DirectionNone | DirectionIn | DirectionOut | DirectionInOut.

Inductive TypeRef := mkTypeRef {
  tr_Annotations : list Annotation; tr_Name : string; tr_TypeArgs : list TypeRef;
  tr_Array : bool; tr_FixedArrayLen : option Z; tr_Nullable : bool;
}.

Record Field := mkField {
  fld_Annotations : list Annotation; fld_Direction : Direction; fld_Type : TypeRef;
  fld_Name : string; fld_DefaultValue : string;
}.

Record MethodDecl := mkMethodDecl {
  md_Annotations : list Annotation; md_Oneway : bool; md_Return : TypeRef; md_Name : string;
  md_Args : list Field; md_Transaction : string;
}.

Record ConstDecl := mkConstDecl {
  cd_Annotations : list Annotation; cd_Type : TypeRef; cd_Name : string; cd_Value : string;
}.

Record EnumMember := mkEnumMember { em_Name : string; em_Value : string }.
Record EnumDecl := mkEnumDecl {
  ed_Annotations : list Annotation; ed_Name : string; ed_Members : list EnumMember;
}.

Record UnionDecl := mkUnionDecl {
  ud_Annotations : list Annotation; ud_Name : string; ud_Fields : list Field;
}.

(** [Decl] and [InterfaceMember] are Go interfaces; their constructors are the
    pointer types that implement them. *)
Inductive Decl : Type :=
| DInterface (d : InterfaceDecl)
| DParcelable (d : ParcelableDecl)
| DEnum (d : EnumDecl)
| DUnion (d : UnionDecl)
with InterfaceDecl : Type := mkInterfaceDecl
    (id_Annotations : list Annotation) (id_Oneway : bool) (id_Name : string) (id_Members : list InterfaceMember)
with InterfaceMember : Type :=
| MMethod (m : MethodDecl)
| MConst (c : ConstDecl)
| MParcelable (d : ParcelableDecl)
| MEnum (d : EnumDecl)
| MUnion (d : UnionDecl)
with ParcelableDecl : Type := mkParcelableDecl
    (pd_Annotations : list Annotation) (pd_Name : string) (pd_TypeParams : list string) (pd_Structured : bool)
    (pd_Consts : list ConstDecl) (pd_Fields : list Field) (pd_Decls : list Decl).

Record File := mkFile { file_PackageName : string; file_Imports : list Import; file_Decls : list Decl }.

(** ** Tokens *)

(** The runes [Scan] returns: the token classes of text/scanner, or the
    character itself. *)
Inductive kind := KIdent | KInt | KFloat | KString | KEOF | KChar (c : Z).
Global Instance kind_eq_dec : EqDecision kind.
Proof. solve_decision. Defined.

(** [tok_pos] is the Offset of the scanner.Position. *)
Record token := mkToken { tok_text : string; tok_kind : kind; tok_pos : Z }.

(** A scanner is a value [O] that can be copied and a reader [R] that its copies
    share. *)
Class TokenSource (O R : Type) := {
  Scan : O → R → token * O * R;
}.

(** [parser.Error]: a position and a message, kept as what the format verbs
    receive.  [OutOfFuel] is no value of the program. *)
Inductive perror :=
| Unexpected (pos : Z) (text want : string)
| InvalidInteger (pos : Z) (value : string)
| OutOfFuel.

(** ** Library functions *)

(** The white space of strings.TrimSpace (ASCII). *)
Definition is_space (c : Ascii.ascii) : bool :=
  let n := Ascii.nat_of_ascii c in (9 <=? n)%nat && (n <=? 13)%nat || (n =? 32)%nat.

Fixpoint trim_left (s : string) : string :=
  match s with
  | EmptyString => EmptyString
  | String c s' => if is_space c then trim_left s' else s
  end.
Fixpoint trim_right (s : string) : string :=
  match s with
  | EmptyString => EmptyString
  | String c s' =>
      match trim_right s' with
      | EmptyString => if is_space c then EmptyString else String c EmptyString
      | r => String c r
      end
  end.
Definition TrimSpace (s : string) : string := trim_right (trim_left s).

(** strings.Join. *)
Fixpoint Join (parts : list string) (sep : string) : string :=
  match parts with
  | [] => ""
  | [x] => x
  | x :: rest => x +:+ sep +:+ Join rest sep
  end.

(** strconv.ParseInt(s, 0, 64); [None] is an error. *)
Definition bytes_of (s : string) : list Z := map (λ c, Z.of_nat (Ascii.nat_of_ascii c)) (String.list_ascii_of_string s).
Definition lower_byte (c : Z) : Z := Z.lor c 32.

Definition digit_of (c : Z) : option Z :=
  if (48 <=? c) && (c <=? 57) then Some (c - 48)
  else if (97 <=? lower_byte c) && (lower_byte c <=? 122) then Some (lower_byte c - 97 + 10)
  else None.

Fixpoint parse_digits (base acc : Z) (s : list Z) : option Z :=
  match s with
  | [] => Some acc
  | c :: s' =>
      if c =? 95 then parse_digits base acc s'
      else match digit_of c with
           | Some d => if base <=? d then None else parse_digits base (acc * base + d) s'
           | None => None
           end
  end.

(** The class of the character before, in [underscoreOK]. *)
Inductive sep_class := SepBegin | SepDigit | SepUnderscore | SepOther.

Fixpoint underscores_ok (hex : bool) (last : sep_class) (s : list Z) : bool :=
  match s with
  | [] => match last with SepUnderscore => false | _ => true end
  | c :: s' =>
      if ((48 <=? c) && (c <=? 57)) || (hex && (97 <=? lower_byte c) && (lower_byte c <=? 102))
      then underscores_ok hex SepDigit s'
      else if c =? 95 then match last with SepDigit => underscores_ok hex SepUnderscore s' | _ => false end
      else match last with SepUnderscore => false | _ => underscores_ok hex SepOther s' end
  end.

Definition is_prefix_char (c : Z) : bool := (lower_byte c =? 98) || (lower_byte c =? 111) || (lower_byte c =? 120).

Definition underscoreOK (s : list Z) : bool :=
  match s with
  | z :: c :: s' => if (z =? 48) && is_prefix_char c then underscores_ok (lower_byte c =? 120) SepDigit s'
                    else underscores_ok false SepBegin s
  | _ => underscores_ok false SepBegin s
  end.

(** The base and the digits of a literal; a prefix needs a digit after it. *)
Definition base_of (s : list Z) : Z * list Z :=
  match s with
  | z :: s1 =>
      if z =? 48 then
        match s1 with
        | c :: _ :: _ => if lower_byte c =? 98 then (2, tail s1) else if lower_byte c =? 111 then (8, tail s1)
                                 else if lower_byte c =? 120 then (16, tail s1) else (8, s1)
        | _ => (8, s1)
        end
      else (10, s)
  | [] => (10, [])
  end.

Definition ParseUint0 (s : list Z) : option Z :=
  match s with
  | [] => None
  | _ => if underscoreOK s then parse_digits (base_of s).1 0 (base_of s).2 else None
  end.

Definition split_sign (s : list Z) : bool * list Z :=
  match s with
  | c :: r => if c =? 45 then (true, r) else if c =? 43 then (false, r) else (false, s)
  | [] => (false, [])
  end.

Definition ParseInt0 (s : string) : option Z :=
  let '(neg, digits) := split_sign (bytes_of s) in
  match ParseUint0 digits with
  | Some n => if neg then (if n <=? 2 ^ 63 then Some (- n) else None)
              else (if n <? 2 ^ 63 then Some n else None)
  | None => None
  end.

(** ** The parser *)

Section Parser.
Context {O R : Type} `{TS : !TokenSource O R}.

Record Parser := mkParser { p_s : O; p_reader : R; p_tok : token }.

Abbreviation P := (ST perror Parser).

Definition out_of_fuel {A} : P A := fail OutOfFuel.

Definition tok : P token := λ p, (Ok (p_tok p), p).

Definition next : P unit := λ p,
  let '(t, s, r) := Scan (p_s p) (p_reader p) in (Ok tt, mkParser s r t).

(** The scanner is copied; its reader is not. *)
Definition peek : P token := λ p,
  let '(t, _, r) := Scan (p_s p) (p_reader p) in (Ok t, mkParser (p_s p) r (p_tok p)).

Definition text_is (text : string) (t : token) : bool := bool_decide (tok_text t = text).
Definition ident_is (text : string) (t : token) : bool := bool_decide (tok_kind t = KIdent) && text_is text t.

Definition match_ (text : string) : P bool := t ← tok; mret (text_is text t).
Definition matchIdent (text : string) : P bool := t ← tok; mret (ident_is text t).

Definition unexpected {A} (want : string) : P A := t ← tok; fail (Unexpected (tok_pos t) (tok_text t) want).

Definition expect (text : string) : P unit :=
  m ← match_ text; if (m : bool) then next else unexpected text.

Definition parseName : P string :=
  t ← tok;
  if bool_decide (tok_kind t = KIdent) then next;; mret (tok_text t) else unexpected "identifier".

Fixpoint name_parts (n : nat) : P (list string) :=
  match n with
  | 0%nat => out_of_fuel
  | S n' =>
      dot ← match_ ".";
      if (dot : bool) then next;; part ← parseName; rest ← name_parts n'; mret (part :: rest) else mret []
  end.

Definition parseQualifiedName (n : nat) : P string :=
  name ← parseName; parts ← name_parts n; mret (Join (name :: parts) ".").

(** The depths of the three kinds of bracket. *)
Record depths := mkDepths { depthParen : Z; depthBracket : Z; depthBrace : Z }.

Definition at_top (d : depths) : bool := (depthParen d =? 0) && (depthBracket d =? 0) && (depthBrace d =? 0).

(** The switch on the token's text; [None] is the error. *)
Definition track (text : string) (d : depths) : option depths :=
  let '(mkDepths p k b) := d in
  if bool_decide (text = "(") then Some (mkDepths (p + 1) k b)
  else if bool_decide (text = ")") then (if p =? 0 then None else Some (mkDepths (p - 1) k b))
  else if bool_decide (text = "[") then Some (mkDepths p (k + 1) b)
  else if bool_decide (text = "]") then (if k =? 0 then None else Some (mkDepths p (k - 1) b))
  else if bool_decide (text = "{") then Some (mkDepths p k (b + 1))
  else if bool_decide (text = "}") then (if b =? 0 then None else Some (mkDepths p k (b - 1)))
  else Some d.

(** The loop: the texts read, in order. *)
Fixpoint expression_tokens (n : nat) (stoppers : list string) (d : depths) : P (list string) :=
  match n with
  | 0%nat => out_of_fuel
  | S n' =>
      t ← tok;
      if bool_decide (tok_kind t = KEOF) then mret []
      else if at_top d && bool_decide (tok_text t ∈ stoppers) then mret []
      else match track (tok_text t) d with
           | None => unexpected "expression"
           | Some d' => next;; rest ← expression_tokens n' stoppers d'; mret (tok_text t :: rest)
           end
  end.

Definition parseExpression (n : nat) (stoppers : list string) : P string :=
  texts ← expression_tokens n stoppers (mkDepths 0 0 0);
  match texts with
  | [] => unexpected "expression"
  | _ => mret (TrimSpace (Join texts ""))
  end.

(** [= expression] where it is optional. *)
Definition parse_assign (n : nat) (stoppers : list string) : P string :=
  eq ← match_ "=";
  if (eq : bool) then next;; parseExpression n stoppers else mret "".

Definition parseIntLiteral (n : nat) : P Z :=
  value ← parseExpression n ["]"];
  match ParseInt0 value with
  | Some z => mret z
  | None => t ← tok; fail (InvalidInteger (tok_pos t) value)
  end.

(** *** Annotations *)

Definition parse_arg_name : P string :=
  t ← tok;
  if bool_decide (tok_kind t = KIdent) then
    after ← peek;
    if text_is "=" after then next;; next;; mret (tok_text t) else mret ""
  else mret "".

Fixpoint annotation_args (n : nat) : P (list AnnotationArg) :=
  match n with
  | 0%nat => out_of_fuel
  | S n' =>
      name ← parse_arg_name;
      value ← parseExpression n [","; ")"];
      close ← match_ ")";
      if (close : bool) then mret [mkAnnotationArg name value]
      else expect ",";; rest ← annotation_args n'; mret (mkAnnotationArg name value :: rest)
  end.

Definition parse_annotation (n : nat) : P Annotation :=
  next;;
  name ← parseQualifiedName n;
  open ← match_ "(";
  if (open : bool) then
    next;;
    empty ← match_ ")";
    args ← (if (empty : bool) then mret [] else annotation_args n);
    expect ")";; mret (mkAnnotation name args)
  else mret (mkAnnotation name []).

Fixpoint parseAnnotations (n : nat) : P (list Annotation) :=
  match n with
  | 0%nat => out_of_fuel
  | S n' =>
      at_ ← match_ "@";
      if (at_ : bool) then a ← parse_annotation n; rest ← parseAnnotations n'; mret (a :: rest) else mret []
  end.

(** *** Types *)

Definition has_nullable (l : list Annotation) : bool := existsb (λ a, bool_decide (ann_Name a = "nullable")) l.

Definition parse_array (n : nat) : P (bool * option Z) :=
  open ← match_ "[";
  if (open : bool) then
    next;;
    empty ← match_ "]";
    len ← (if (empty : bool) then mret None else z ← parseIntLiteral n; mret (Some z));
    expect "]";; mret (true, len)
  else mret (false, None).

Fixpoint parseTypeRef (n : nat) : P TypeRef :=
  match n with
  | 0%nat => out_of_fuel
  | S n' =>
      annotations ← parseAnnotations n;
      name ← parseQualifiedName n;
      open ← match_ "<";
      args ← (if (open : bool) then next;; args ← type_args n'; expect ">";; mret args else mret []);
      arr ← parse_array n;
      mret (mkTypeRef annotations name args arr.1 arr.2 (has_nullable annotations))
  end
with type_args (n : nat) : P (list TypeRef) :=
  match n with
  | 0%nat => out_of_fuel
  | S n' =>
      arg ← parseTypeRef n';
      close ← match_ ">";
      if (close : bool) then mret [arg]
      else expect ",";; rest ← type_args n'; mret (arg :: rest)
  end.

(** *** Fields, constants and methods *)

Definition parse_direction : P Direction :=
  t ← tok;
  if ident_is "in" t then next;; mret DirectionIn
  else if ident_is "out" t then next;; mret DirectionOut
  else if ident_is "inout" t then next;; mret DirectionInOut
  else mret DirectionNone.

Definition parseFieldWithAnnotations (n : nat) (annotations : list Annotation)
    (allowDirection allowDefault : bool) : P Field :=
  dir ← (if allowDirection then parse_direction else mret DirectionNone);
  typ ← parseTypeRef n;
  name ← parseName;
  default ← (if allowDefault then parse_assign n [";"] else mret "");
  mret (mkField annotations dir typ name default).

Definition parseField (n : nat) (allowDirection allowDefault : bool) : P Field :=
  annotations ← parseAnnotations n;
  parseFieldWithAnnotations n annotations allowDirection allowDefault.

Definition parseConstDecl (n : nat) (annotations : list Annotation) : P ConstDecl :=
  next;;
  typ ← parseTypeRef n;
  name ← parseName;
  expect "=";;
  value ← parseExpression n [";"];
  expect ";";;
  mret (mkConstDecl annotations typ name value).

Fixpoint method_args (n : nat) : P (list Field) :=
  match n with
  | 0%nat => out_of_fuel
  | S n' =>
      arg ← parseField n true false;
      close ← match_ ")";
      if (close : bool) then mret [arg]
      else expect ",";; rest ← method_args n'; mret (arg :: rest)
  end.

Definition parse_args (n : nat) : P (list Field) :=
  empty ← match_ ")";
  if (empty : bool) then mret [] else method_args n.

Definition parse_oneway : P bool :=
  oneway ← matchIdent "oneway";
  if (oneway : bool) then next;; mret true else mret false.

Definition parseMethodDecl (n : nat) (annotations : list Annotation) : P MethodDecl :=
  oneway ← parse_oneway;
  ret ← parseTypeRef n;
  name ← parseName;
  expect "(";;
  args ← parse_args n;
  expect ")";;
  transaction ← parse_assign n [";"];
  expect ";";;
  mret (mkMethodDecl annotations oneway ret name args transaction).

(** *** Declarations *)

Fixpoint type_param_names (n : nat) : P (list string) :=
  match n with
  | 0%nat => out_of_fuel
  | S n' =>
      name ← parseName;
      close ← match_ ">";
      if (close : bool) then mret [name]
      else expect ",";; rest ← type_param_names n'; mret (name :: rest)
  end.

Definition parseTypeParamNames (n : nat) : P (list string) :=
  expect "<";; params ← type_param_names n; expect ">";; mret params.

Fixpoint enum_members (n : nat) : P (list EnumMember) :=
  match n with
  | 0%nat => out_of_fuel
  | S n' =>
      close ← match_ "}";
      if (close : bool) then mret []
      else
        name ← parseName;
        value ← parse_assign n [","; "}"];
        last ← match_ "}";
        if (last : bool) then mret [mkEnumMember name value]
        else expect ",";; rest ← enum_members n'; mret (mkEnumMember name value :: rest)
  end.

Definition parseEnumDecl (n : nat) (annotations : list Annotation) : P EnumDecl :=
  next;; name ← parseName; expect "{";; members ← enum_members n; expect "}";;
  mret (mkEnumDecl annotations name members).

Fixpoint union_fields (n : nat) : P (list Field) :=
  match n with
  | 0%nat => out_of_fuel
  | S n' =>
      close ← match_ "}";
      if (close : bool) then mret []
      else field ← parseField n false false; expect ";";; rest ← union_fields n'; mret (field :: rest)
  end.

Definition parseUnionDecl (n : nat) (annotations : list Annotation) : P UnionDecl :=
  next;; name ← parseName; expect "{";; fields ← union_fields n; expect "}";;
  mret (mkUnionDecl annotations name fields).

(** What one turn of the loop over a parcelable's body appends. *)
Inductive body_item := BConst (c : ConstDecl) | BDecl (d : Decl) | BField (f : Field).

Definition body_consts (l : list body_item) : list ConstDecl :=
  omap (λ i, match i with BConst c => Some c | _ => None end) l.
Definition body_fields (l : list body_item) : list Field :=
  omap (λ i, match i with BField f => Some f | _ => None end) l.
Definition body_decls (l : list body_item) : list Decl :=
  omap (λ i, match i with BDecl d => Some d | _ => None end) l.

(** Whatever stands between a parcelable's name and its body, unread. *)
Definition skip_header (n : nat) : P unit :=
  t ← tok;
  if text_is ";" t || text_is "{" t then mret tt else parseExpression n [";"; "{"];; mret tt.

Definition parse_type_params (n : nat) : P (list string) :=
  open ← match_ "<"; if (open : bool) then parseTypeParamNames n else mret [].

Fixpoint parseParcelableDecl (n : nat) (annotations : list Annotation) : P ParcelableDecl :=
  match n with
  | 0%nat => out_of_fuel
  | S n' =>
      next;;
      name ← parseQualifiedName n;
      params ← parse_type_params n;
      skip_header n;;
      semi ← match_ ";";
      if (semi : bool) then next;; mret (mkParcelableDecl annotations name params false [] [] [])
      else
        expect "{";;
        body ← parcelable_body n';
        expect "}";;
        mret (mkParcelableDecl annotations name params true (body_consts body) (body_fields body) (body_decls body))
  end
with parcelable_body (n : nat) : P (list body_item) :=
  match n with
  | 0%nat => out_of_fuel
  | S n' =>
      close ← match_ "}";
      if (close : bool) then mret []
      else
        annotations ← parseAnnotations n;
        t ← tok;
        item ← (if ident_is "const" t then c ← parseConstDecl n annotations; mret (BConst c)
                else if ident_is "parcelable" t then d ← parseParcelableDecl n' annotations; mret (BDecl (DParcelable d))
                else if ident_is "enum" t then d ← parseEnumDecl n annotations; mret (BDecl (DEnum d))
                else if ident_is "union" t then d ← parseUnionDecl n annotations; mret (BDecl (DUnion d))
                else f ← parseFieldWithAnnotations n annotations false true; expect ";";; mret (BField f));
        rest ← parcelable_body n';
        mret (item :: rest)
  end.

Definition parseInterfaceMember (n : nat) : P InterfaceMember :=
  annotations ← parseAnnotations n;
  t ← tok;
  if ident_is "const" t then c ← parseConstDecl n annotations; mret (MConst c)
  else if ident_is "parcelable" t then d ← parseParcelableDecl n annotations; mret (MParcelable d)
  else if ident_is "enum" t then d ← parseEnumDecl n annotations; mret (MEnum d)
  else if ident_is "union" t then d ← parseUnionDecl n annotations; mret (MUnion d)
  else m ← parseMethodDecl n annotations; mret (MMethod m).

Fixpoint interface_members (n : nat) : P (list InterfaceMember) :=
  match n with
  | 0%nat => out_of_fuel
  | S n' =>
      close ← match_ "}";
      if (close : bool) then mret []
      else member ← parseInterfaceMember n; rest ← interface_members n'; mret (member :: rest)
  end.

Definition parseInterfaceDecl (n : nat) (annotations : list Annotation) (oneway : bool) : P InterfaceDecl :=
  next;; name ← parseName; expect "{";; members ← interface_members n; expect "}";;
  mret (mkInterfaceDecl annotations oneway name members).

Definition parseTopDecl (n : nat) : P Decl :=
  annotations ← parseAnnotations n;
  oneway ← parse_oneway;
  t ← tok;
  if ident_is "interface" t then d ← parseInterfaceDecl n annotations oneway; mret (DInterface d)
  else if ident_is "parcelable" t then d ← parseParcelableDecl n annotations; mret (DParcelable d)
  else if ident_is "enum" t then d ← parseEnumDecl n annotations; mret (DEnum d)
  else if ident_is "union" t then d ← parseUnionDecl n annotations; mret (DUnion d)
  else unexpected "declaration".

Definition parse_package (n : nat) : P string :=
  package ← matchIdent "package";
  if (package : bool) then next;; name ← parseQualifiedName n; expect ";";; mret name else mret "".

Fixpoint parse_imports (n : nat) : P (list Import) :=
  match n with
  | 0%nat => out_of_fuel
  | S n' =>
      import ← matchIdent "import";
      if (import : bool) then
        next;; name ← parseQualifiedName n; expect ";";; rest ← parse_imports n'; mret (mkImport name :: rest)
      else mret []
  end.

Fixpoint top_decls (n : nat) : P (list Decl) :=
  match n with
  | 0%nat => out_of_fuel
  | S n' =>
      t ← tok;
      if bool_decide (tok_kind t = KEOF) then mret []
      else decl ← parseTopDecl n; rest ← top_decls n'; mret (decl :: rest)
  end.

Definition parseFile (n : nat) : P File :=
  package ← parse_package n;
  imports ← parse_imports n;
  decls ← top_decls n;
  mret (mkFile package imports decls).

(** [Parse]: the first [next] fills [p_tok]. *)
Definition Parse (n : nat) (s : O) (r : R) : result perror File :=
  ((next;; parseFile n) (mkParser s r (mkToken "" KEOF 0))).1.
End Parser.
Arguments Parser O R : clear implicits.
