(* ===== verification/AidlGrammar.v ===== *)
(** * AidlGrammar: the language of the AIDL parser

    A grammar of AIDL files over tokens, in the order the rules stand in the
    parser of Aidl, with its lookahead decisions as side conditions; and the
    weakest preconditions with which AidlSound shows that whatever the parser
    returns derives from the tokens it consumed. *)

From stdpp Require Import base list numbers strings pretty.
From S2P Require Import Prelude Aidl.

Open Scope Z_scope.

(** ** Tokens a scanner produces *)

Definition ident_start (c : Ascii.ascii) : bool :=
  let n := Ascii.nat_of_ascii c in
  ((65 <=? n) && (n <=? 90) || (97 <=? n) && (n <=? 122) || (n =? 95) || (128 <=? n))%nat.
Definition ident_char (c : Ascii.ascii) : bool :=
  let n := Ascii.nat_of_ascii c in ident_start c || ((48 <=? n) && (n <=? 57))%nat.

Definition is_identifier (s : string) : bool :=
  match s with
  | EmptyString => false
  | String c s' => ident_start c && forallb ident_char (String.list_ascii_of_string s')
  end.

(** A token other than the end, whose text is an identifier when its kind says so. *)
Definition real (t : token) : Prop :=
  tok_kind t ≠ KEOF ∧ (tok_kind t = KIdent → is_identifier (tok_text t) = true).

(** ** The grammar *)

Abbreviation tokens := (list token).

Definition sym (x : string) (t : token) : Prop := tok_text t = x ∧ tok_kind t ≠ KEOF.
Definition idt (x : string) (t : token) : Prop :=
  tok_text t = x ∧ tok_kind t = KIdent ∧ is_identifier x = true.

(** Does the first token open one of [words]? *)
Definition starts (words : list string) (ts : tokens) : Prop :=
  match ts with t :: _ => tok_kind t = KIdent ∧ tok_text t ∈ words | [] => False end.

Section Lists.
Context {A : Type} (g : tokens → A → Prop).

Inductive many : tokens → list A → Prop :=
| many_nil : many [] []
| many_cons ts a ts' l : g ts a → many ts' l → many (ts ++ ts') (a :: l).

(** One or more, separated by commas. *)
Inductive commas : tokens → list A → Prop :=
| commas_one ts a : g ts a → commas ts [a]
| commas_more ts a c ts' l : g ts a → sym "," c → commas ts' l → commas (ts ++ c :: ts') (a :: l).

(** Any number, separated by commas, with an optional one at the end. *)
Inductive trailing : tokens → list A → Prop :=
| trailing_nil : trailing [] []
| trailing_one ts a : g ts a → trailing ts [a]
| trailing_more ts a c ts' l : g ts a → sym "," c → trailing ts' l → trailing (ts ++ c :: ts') (a :: l).
End Lists.

Inductive dotted : tokens → list string → Prop :=
| dotted_one x t : idt x t → dotted [t] [x]
| dotted_more x t d ts l : idt x t → sym "." d → dotted ts l → dotted (t :: d :: ts) (x :: l).

Definition qname_g (ts : tokens) (name : string) : Prop := ∃ l, dotted ts l ∧ name = Join l ".".

(** An expression: tokens with the brackets closed and no stopper outside them. *)
Fixpoint expr_run (stops : list string) (d : depths) (ts : tokens) : option depths :=
  match ts with
  | [] => Some d
  | t :: ts' =>
      if bool_decide (tok_kind t = KEOF) then None
      else if at_top d && bool_decide (tok_text t ∈ stops) then None
      else match track (tok_text t) d with
           | Some d' => expr_run stops d' ts'
           | None => None
           end
  end.

Definition top : depths := mkDepths 0 0 0.

Definition expr_g (stops : list string) (ts : tokens) (v : string) : Prop :=
  ts ≠ [] ∧ (∃ d, expr_run stops top ts = Some d ∧ at_top d = true) ∧
  v = TrimSpace (Join (map tok_text ts) "").

(** [= expression], or nothing. *)
Inductive assign_g (stops : list string) : tokens → string → Prop :=
| assign_none : assign_g stops [] ""
| assign_some e ts v : sym "=" e → expr_g stops ts v → assign_g stops (e :: ts) v.

(** *** Annotations *)

Definition named_start (ts : tokens) : Prop :=
  match ts with t :: e :: _ => tok_kind t = KIdent ∧ tok_text e = "=" | _ => False end.

Inductive arg_g : tokens → AnnotationArg → Prop :=
| arg_named x t e ts v :
    idt x t → sym "=" e → expr_g [","; ")"] ts v → arg_g (t :: e :: ts) (mkAnnotationArg x v)
| arg_plain ts v :
    expr_g [","; ")"] ts v → ¬ named_start ts → arg_g ts (mkAnnotationArg "" v).

Inductive annotation_g : tokens → Annotation → Prop :=
| annotation_plain a tn name : sym "@" a → qname_g tn name → annotation_g (a :: tn) (mkAnnotation name [])
| annotation_empty a tn name o c : sym "@" a → qname_g tn name → sym "(" o → sym ")" c →
    annotation_g (a :: tn ++ [o; c]) (mkAnnotation name [])
| annotation_args_ a tn name o ts args c :
    sym "@" a → qname_g tn name → sym "(" o → commas arg_g ts args → sym ")" c →
    annotation_g (a :: tn ++ o :: ts ++ [c]) (mkAnnotation name args).

Abbreviation annotations_g := (many annotation_g).

(** *** Types *)

Inductive array_g : tokens → bool * option Z → Prop :=
| array_none : array_g [] (false, None)
| array_open o c : sym "[" o → sym "]" c → array_g [o; c] (true, None)
| array_fixed o ts v z c : sym "[" o → expr_g ["]"] ts v → ParseInt0 v = Some z → sym "]" c →
    array_g (o :: ts ++ [c]) (true, Some z).

Inductive type_g : tokens → TypeRef → Prop :=
| type_intro ta anns tn name tp args tr arr :
    annotations_g ta anns → qname_g tn name → type_args_g tp args → array_g tr arr →
    type_g (ta ++ tn ++ tp ++ tr) (mkTypeRef anns name args arr.1 arr.2 (has_nullable anns))
with type_args_g : tokens → list TypeRef → Prop :=
| type_args_none : type_args_g [] []
| type_args_some o ts l c : sym "<" o → commas type_g ts l → sym ">" c → type_args_g (o :: ts ++ [c]) l.

(** *** Fields, constants and methods *)

Inductive direction_g : tokens → Direction → Prop :=
| direction_none : direction_g [] DirectionNone
| direction_in t : idt "in" t → direction_g [t] DirectionIn
| direction_out t : idt "out" t → direction_g [t] DirectionOut
| direction_inout t : idt "inout" t → direction_g [t] DirectionInOut.

(** Annotations in front of a field belong to the field; those of its type can
    only follow a direction. *)
Inductive field_body_g (dirs dflt : bool) (anns : list Annotation) : tokens → Field → Prop :=
| field_body td dir tt typ x n te v :
    direction_g td dir → type_g tt typ → idt x n → assign_g [";"] te v →
    (dirs = false → dir = DirectionNone) → (dflt = false → te = []) →
    (dir = DirectionNone → tr_Annotations typ = []) →
    (dirs = true → dir = DirectionNone → ¬ starts ["in"; "out"; "inout"] tt) →
    field_body_g dirs dflt anns (td ++ tt ++ n :: te) (mkField anns dir typ x v).

Definition field_g (dirs dflt : bool) (ts : tokens) (f : Field) : Prop :=
  ∃ ta anns tb, annotations_g ta anns ∧ field_body_g dirs dflt anns tb f ∧ ts = ta ++ tb.

Inductive const_g (anns : list Annotation) : tokens → ConstDecl → Prop :=
| const_intro k tt typ x n e te v c :
    idt "const" k → type_g tt typ → idt x n → sym "=" e → expr_g [";"] te v → sym ";" c →
    const_g anns (k :: tt ++ n :: e :: te ++ [c]) (mkConstDecl anns typ x v).

Inductive oneway_g : tokens → bool → Prop :=
| oneway_no : oneway_g [] false
| oneway_yes t : idt "oneway" t → oneway_g [t] true.

Inductive args_g : tokens → list Field → Prop :=
| args_none : args_g [] []
| args_some ts l : commas (field_g true false) ts l → args_g ts l.

Definition decl_words : list string := ["const"; "parcelable"; "enum"; "union"].

Inductive method_g (anns : list Annotation) : tokens → MethodDecl → Prop :=
| method_intro tw oneway tt ret x n o ta args c te tr s :
    oneway_g tw oneway → type_g tt ret → idt x n → sym "(" o → args_g ta args → sym ")" c →
    assign_g [";"] te tr → sym ";" s →
    (oneway = false → tr_Annotations ret = [] ∧ ¬ starts ("oneway" :: decl_words) tt) →
    method_g anns (tw ++ tt ++ n :: o :: ta ++ c :: te ++ [s]) (mkMethodDecl anns oneway ret x args tr).

(** *** Declarations *)

Inductive enum_member_g : tokens → EnumMember → Prop :=
| enum_member x n te v : idt x n → assign_g [","; "}"] te v → enum_member_g (n :: te) (mkEnumMember x v).

Inductive enum_g (anns : list Annotation) : tokens → EnumDecl → Prop :=
| enum_intro k x n o tm l c :
    idt "enum" k → idt x n → sym "{" o → trailing enum_member_g tm l → sym "}" c →
    enum_g anns (k :: n :: o :: tm ++ [c]) (mkEnumDecl anns x l).

Definition union_item (ts : tokens) (f : Field) : Prop :=
  ∃ tf c, field_g false false tf f ∧ sym ";" c ∧ ts = tf ++ [c].

Inductive union_g (anns : list Annotation) : tokens → UnionDecl → Prop :=
| union_intro k x n o tf l c :
    idt "union" k → idt x n → sym "{" o → many union_item tf l → sym "}" c →
    union_g anns (k :: n :: o :: tf ++ [c]) (mkUnionDecl anns x l).

Definition name_g (ts : tokens) (x : string) : Prop := ∃ t, idt x t ∧ ts = [t].

Inductive params_g : tokens → list string → Prop :=
| params_none : params_g [] []
| params_some o ts l c : sym "<" o → commas name_g ts l → sym ">" c → params_g (o :: ts ++ [c]) l.

(** What may stand, unread, between a parcelable's name and its body. *)
Inductive header_g (tp : tokens) : tokens → Prop :=
| header_none : header_g tp []
| header_some t ts v : expr_g [";"; "{"] (t :: ts) v →
    (tp = [] → tok_text t ≠ "<" ∧ tok_text t ≠ ".") → header_g tp (t :: ts).

Inductive parcelable_g : list Annotation → tokens → ParcelableDecl → Prop :=
| parcelable_plain anns k tn name tp params th s :
    idt "parcelable" k → qname_g tn name → params_g tp params → header_g tp th → sym ";" s →
    parcelable_g anns (k :: tn ++ tp ++ th ++ [s]) (mkParcelableDecl anns name params false [] [] [])
| parcelable_structured anns k tn name tp params th o tb body c :
    idt "parcelable" k → qname_g tn name → params_g tp params → header_g tp th →
    sym "{" o → many item_g tb body → sym "}" c →
    parcelable_g anns (k :: tn ++ tp ++ th ++ o :: tb ++ [c])
      (mkParcelableDecl anns name params true (body_consts body) (body_fields body) (body_decls body))
with item_g : tokens → body_item → Prop :=
| item_const ta anns tc c : annotations_g ta anns → const_g anns tc c → item_g (ta ++ tc) (BConst c)
| item_parcelable ta anns td d :
    annotations_g ta anns → parcelable_g anns td d → item_g (ta ++ td) (BDecl (DParcelable d))
| item_enum ta anns td d : annotations_g ta anns → enum_g anns td d → item_g (ta ++ td) (BDecl (DEnum d))
| item_union ta anns td d : annotations_g ta anns → union_g anns td d → item_g (ta ++ td) (BDecl (DUnion d))
| item_field ta anns tf f s :
    annotations_g ta anns → field_body_g false true anns tf f → ¬ starts decl_words tf → sym ";" s →
    item_g (ta ++ tf ++ [s]) (BField f).

Inductive member_g : tokens → InterfaceMember → Prop :=
| member_const ta anns tc c : annotations_g ta anns → const_g anns tc c → member_g (ta ++ tc) (MConst c)
| member_parcelable ta anns td d :
    annotations_g ta anns → parcelable_g anns td d → member_g (ta ++ td) (MParcelable d)
| member_enum ta anns td d : annotations_g ta anns → enum_g anns td d → member_g (ta ++ td) (MEnum d)
| member_union ta anns td d : annotations_g ta anns → union_g anns td d → member_g (ta ++ td) (MUnion d)
| member_method ta anns tm m : annotations_g ta anns → method_g anns tm m → member_g (ta ++ tm) (MMethod m).

Inductive interface_g (anns : list Annotation) (oneway : bool) : tokens → InterfaceDecl → Prop :=
| interface_intro k x n o tm l c :
    idt "interface" k → idt x n → sym "{" o → many member_g tm l → sym "}" c →
    interface_g anns oneway (k :: n :: o :: tm ++ [c]) (mkInterfaceDecl anns oneway x l).

(** [oneway] in front of a parcelable, an enum or a union is accepted and lost. *)
Inductive decl_g (anns : list Annotation) (oneway : bool) : tokens → Decl → Prop :=
| decl_interface ts d : interface_g anns oneway ts d → decl_g anns oneway ts (DInterface d)
| decl_parcelable ts d : parcelable_g anns ts d → decl_g anns oneway ts (DParcelable d)
| decl_enum ts d : enum_g anns ts d → decl_g anns oneway ts (DEnum d)
| decl_union ts d : union_g anns ts d → decl_g anns oneway ts (DUnion d).

Inductive top_g : tokens → Decl → Prop :=
| top_intro ta anns tw oneway td d :
    annotations_g ta anns → oneway_g tw oneway → decl_g anns oneway td d → top_g (ta ++ tw ++ td) d.

Inductive package_g : tokens → string → Prop :=
| package_none : package_g [] ""
| package_some k tn name s : idt "package" k → qname_g tn name → sym ";" s → package_g (k :: tn ++ [s]) name.

Inductive import_g : tokens → Import → Prop :=
| import_intro k tn name s : idt "import" k → qname_g tn name → sym ";" s → import_g (k :: tn ++ [s]) (mkImport name).

Inductive file_g : tokens → File → Prop :=
| file_intro tp package ti imports td decls :
    package_g tp package → many import_g ti imports → many top_g td decls →
    file_g (tp ++ ti ++ td) (mkFile package imports decls).
