(* ===== verification/AidlSound.v ===== *)
(** * AidlSound: what the parser returns derives from what it read

    The parser of Aidl over a list of tokens: it never runs out of fuel when the
    fuel exceeds the number of tokens, never panics, and whatever it returns
    derives, by the grammar of AidlGrammar, from exactly the tokens it consumed. *)

From stdpp Require Import base list numbers strings pretty.
From S2P Require Import Prelude Aidl AidlGrammar.

Open Scope Z_scope.

(** A list of tokens as a scanner; the shared part is the position of the end. *)
#[export] Instance list_source : TokenSource tokens Z := {
  Scan ts eof := match ts with [] => (mkToken "" KEOF eof, [], eof) | t :: ts' => (t, ts', eof) end;
}.

Section Sound.
Context (eof : Z).
Abbreviation P := (ST perror (Parser tokens Z)).

Definition look (ts : tokens) : token := match ts with t :: _ => t | [] => mkToken "" KEOF eof end.

(** The parser whose current token and scanner together hold [ts]. *)
Definition st (ts : tokens) : Parser tokens Z := mkParser (tail ts) eof (look ts).

(** ** Weakest preconditions *)

Definition wp {A} (ts : tokens) (m : P A) (Q : A → tokens → Prop) : Prop :=
  match m (st ts) with
  | (Ok a, s) => ∃ ts', s = st ts' ∧ Q a ts'
  | (Err e, _) => e ≠ OutOfFuel
  | (Panic _, _) => False
  end.

Implicit Types ts : tokens.

Lemma wp_ret {A} (Q : A → tokens → Prop) ts a : Q a ts → wp ts (mret a) Q.
Proof. intros H. by exists ts. Qed.

Lemma wp_bind {A B} (m : P A) (k : A → P B) ts Q : wp ts m (λ a ts', wp ts' (k a) Q) → wp ts (m ≫= k) Q.
Proof.
  unfold wp, mbind, ST_bind. destruct (m (st ts)) as [[a|e|w] s]; [|done..]. by intros (ts' & -> & H).
Qed.

Lemma wp_mono {A} (m : P A) ts (Q Q' : A → tokens → Prop) :
  wp ts m Q' → (∀ a ts', Q' a ts' → Q a ts') → wp ts m Q.
Proof.
  unfold wp. destruct (m (st ts)) as [[a|e|w] s]; [|done..]. intros (ts' & -> & H) HQ. eauto.
Qed.

Lemma wp_use {A B} (m : P A) (k : A → P B) ts (Q : B → tokens → Prop) (Q' : A → tokens → Prop) :
  wp ts m Q' → (∀ a ts', Q' a ts' → wp ts' (k a) Q) → wp ts (m ≫= k) Q.
Proof. intros H HQ. by eapply wp_bind, wp_mono. Qed.

Lemma wp_assoc {A B C} (m : P A) (k : A → P C) (h : C → P B) ts Q :
  wp ts (m ≫= λ a, k a ≫= h) Q → wp ts ((m ≫= k) ≫= h) Q.
Proof. unfold wp. by rewrite bind_assoc. Qed.

Lemma wp_unexpected {A} want ts (Q : A → tokens → Prop) : wp ts (unexpected want) Q.
Proof. done. Qed.

Lemma wp_tok {B} (k : token → P B) ts Q : wp ts (k (look ts)) Q → wp ts (tok ≫= k) Q.
Proof. done. Qed.

Lemma wp_next {B} (k : unit → P B) t ts Q : wp ts (k tt) Q → wp (t :: ts) (next ≫= k) Q.
Proof. intros H. apply wp_bind. unfold wp at 1, next. cbn. destruct ts as [|u ts]; cbn; [exists []|exists (u :: ts)]; done. Qed.

Lemma look_sym ts x : Forall real ts → x ≠ "" → text_is x (look ts) = true → ∃ t ts', ts = t :: ts' ∧ sym x t.
Proof.
  unfold text_is. intros Hr Hx H%bool_decide_eq_true. destruct ts as [|t ts]; [by destruct x|].
  inversion Hr as [|?? [Hk _]]; subst. exists t, ts. done.
Qed.

Lemma look_idt ts x : Forall real ts → ident_is x (look ts) = true → ∃ t ts', ts = t :: ts' ∧ idt x t.
Proof.
  unfold ident_is, text_is. intros Hr [H1%bool_decide_eq_true H2%bool_decide_eq_true]%andb_true_iff.
  destruct ts as [|t ts]; [done|]. inversion Hr as [|?? [_ Hk]]; subst. exists t, ts. cbn in *.
  repeat split; auto.
Qed.

Section Steps.
Context {B : Type} (ts : tokens) (Hr : Forall real ts) (Q : B → tokens → Prop).

Lemma wp_match x (k : bool → P B) : x ≠ "" →
  (∀ t ts', ts = t :: ts' → sym x t → wp ts (k true) Q) →
  (text_is x (look ts) = false → wp ts (k false) Q) → wp ts (match_ x ≫= k) Q.
Proof.
  intros Hx H1 H2. apply wp_assoc, wp_tok. unfold wp. rewrite bind_ret.
  destruct (text_is x (look ts)) eqn:E; [|by apply H2].
  destruct (look_sym _ _ Hr Hx E) as (t & ts' & Hts & Hs). by eapply H1.
Qed.

Lemma wp_matchIdent x (k : bool → P B) :
  (∀ t ts', ts = t :: ts' → idt x t → wp ts (k true) Q) →
  (ident_is x (look ts) = false → wp ts (k false) Q) → wp ts (matchIdent x ≫= k) Q.
Proof.
  intros H1 H2. apply wp_assoc, wp_tok. unfold wp. rewrite bind_ret.
  destruct (ident_is x (look ts)) eqn:E; [|by apply H2].
  destruct (look_idt _ _ Hr E) as (t & ts' & Hts & Hs). by eapply H1.
Qed.

Lemma wp_expect x (k : unit → P B) : x ≠ "" →
  (∀ t ts', ts = t :: ts' → sym x t → wp ts' (k tt) Q) → wp ts (expect x ≫= k) Q.
Proof.
  intros Hx H. apply wp_assoc, wp_match; [done| |done].
  intros t ts' -> Hs. apply wp_next. by eapply H.
Qed.

Lemma wp_name (k : string → P B) :
  (∀ x t ts', ts = t :: ts' → idt x t → wp ts' (k x) Q) → wp ts (parseName ≫= k) Q.
Proof.
  intros H. apply wp_assoc, wp_tok. case_bool_decide as E; [|done].
  destruct ts as [|t ts']; [done|]. inversion Hr as [|?? [_ Hk]]; subst. cbn in *.
  apply wp_assoc, wp_next. unfold wp. rewrite bind_ret. eapply H; [done|]. repeat split; auto.
Qed.
End Steps.

(** ** Specifications: a derivation of the tokens consumed *)

Definition consumes {A} (g : tokens → A → Prop) (ts : tokens) (a : A) (ts' : tokens) : Prop :=
  ∃ used, ts = used ++ ts' ∧ g used a.

(** The same for a phrase that is complete only when some token follows. *)
Definition consumes' {A} (g : tokens → A → Prop) (ts : tokens) (a : A) (ts' : tokens) : Prop :=
  ∃ used, ts = used ++ ts' ∧ (ts' ≠ [] → g used a).

Lemma real_app (a b : tokens) : Forall real (a ++ b) → Forall real b.
Proof. by intros [_ ?]%Forall_app. Qed.

Lemma consumes_intro {A} (g : tokens → A → Prop) used ts a ts' :
  g used a → ts = used ++ ts' → consumes g ts a ts'.
Proof. by exists used. Qed.

Lemma consumes_ne {A} (g : tokens → A → Prop) ts a t ts' :
  consumes' g ts a (t :: ts') → ∃ used, ts = used ++ t :: ts' ∧ g used a.
Proof. intros (used & -> & H). exists used. auto. Qed.

End Sound.

(** [wstep]: run the next primitive operation of the goal's computation. *)
Ltac wreal :=
  match goal with
  | H : Forall real ?l |- Forall real ?l => exact H
  | H : Forall real (_ :: _) |- _ => apply Forall_inv_tail in H; wreal
  | H : Forall real (_ ++ _) |- _ => apply real_app in H; wreal
  end.
Ltac whead t u H :=
  let E := fresh in intros t u E H; first [injection E as <- <- | match type of E with ?l = _ => subst l end].
Ltac wstep :=
  match goal with
  | |- wp _ _ (mret _) _ => apply wp_ret
  | |- wp _ _ (unexpected _) _ => apply wp_unexpected
  | |- wp _ _ (fail _) _ => discriminate
  | |- wp _ _ (mret _ ≫= _) _ => apply wp_bind, wp_ret; cbv beta
  | |- wp _ _ (unexpected _ ≫= _) _ => apply wp_bind, wp_unexpected
  | |- wp _ _ ((_ ≫= _) ≫= _) _ => apply wp_assoc
  | |- wp _ _ (tok ≫= _) _ => apply wp_tok
  | |- wp _ (_ :: _) (next ≫= _) _ => apply wp_next
  | |- wp _ _ (match_ _ ≫= _) _ =>
      apply wp_match; [wreal|discriminate|let t := fresh "t" in let u := fresh "u" in let H := fresh "Ht" in whead t u H|let N := fresh "Hno" in intros N]; cbv beta match
  | |- wp _ _ (matchIdent _ ≫= _) _ =>
      apply wp_matchIdent; [wreal|let t := fresh "t" in let u := fresh "u" in let H := fresh "Ht" in whead t u H|let N := fresh "Hno" in intros N]; cbv beta match
  | |- wp _ _ (expect _ ≫= _) _ =>
      apply wp_expect; [wreal|discriminate|let t := fresh "t" in let u := fresh "u" in let H := fresh "Ht" in whead t u H]
  | |- wp _ _ (parseName ≫= _) _ =>
      apply wp_name; [wreal|let x := fresh "x" in let t := fresh "t" in let u := fresh "u" in let H := fresh "Hi" in intros x; whead t u H]
  end.
Ltac list_eq := repeat first [rewrite <- app_assoc | rewrite app_nil_r | progress cbn [app]]; reflexivity.
Ltac wlen :=
  repeat match goal with
  | H : context [length _] |- _ => progress (cbn [length app] in H; rewrite ?length_app in H)
  end;
  repeat progress (cbn [length app]; rewrite ?length_app); lia.
Ltac wuse H :=
  repeat match goal with |- wp _ _ ((_ ≫= _) ≫= _) _ => apply wp_assoc end;
  eapply wp_use; [apply H; [wreal|wlen]|cbn beta].
Ltac wdone := wstep; eapply consumes_intro; [econstructor; eauto|list_eq].

(** A declaration that its keyword selects. *)
Ltac keyword E spec :=
  let t := fresh "t" in let u := fresh "u" in let Ht := fresh "Hk" in let td := fresh "td" in
  apply look_idt in E as (t & u & -> & Ht); [|wreal];
  eapply wp_use; [apply spec; [exact Ht|wreal|wlen]|];
  let Hd := fresh "Hd" in let E' := fresh "Ek" in intros ?d ?r (td & E' & Hd); wstep.

Section Phrases.
Context (eof : Z).
Implicit Types (ts : tokens) (n : nat).

(** *** Names and expressions *)

Definition dot_tail ts (l : list string) : Prop := ∀ x t, idt x t → dotted (t :: ts) (x :: l).

Lemma name_parts_spec n ts : Forall real ts → (length ts < n)%nat →
  wp eof ts (name_parts n) (λ l ts', consumes dot_tail ts l ts' ∧ text_is "." (look eof ts') = false).
Proof.
  revert ts. induction n as [|n IH]; intros ts Hr Hn; [lia|]. cbn [name_parts]. wstep.
  - wstep. wstep. wuse IH. intros l ts' [(used & -> & H) ?]. wstep. split; [|done].
    exists (t :: t0 :: used). split; [done|]. intros y w Hw. constructor; auto.
  - wstep. split; [|done]. exists []. split; [done|]. by constructor.
Qed.

Lemma qname_dot_spec n ts : Forall real ts → (length ts < n)%nat →
  wp eof ts (parseQualifiedName n) (λ x ts', consumes qname_g ts x ts' ∧ text_is "." (look eof ts') = false).
Proof.
  intros Hr Hn. unfold parseQualifiedName. wstep. wuse name_parts_spec.
  intros l ts' [(used & -> & H) ?]. wstep. split; [|done]. exists (t :: used). split; [done|]. exists (x :: l). auto.
Qed.

Lemma qname_spec n ts : Forall real ts → (length ts < n)%nat →
  wp eof ts (parseQualifiedName n) (consumes qname_g ts).
Proof. intros Hr Hn. eapply wp_mono; [by apply qname_dot_spec|]. by intros ?? [? _]. Qed.

Lemma expression_tokens_spec n stops d ts : Forall real ts → (length ts < n)%nat →
  wp eof ts (expression_tokens n stops d) (λ l ts', ∃ used d', ts = used ++ ts' ∧ l = map tok_text used ∧
    expr_run stops d used = Some d' ∧ (ts' ≠ [] → at_top d' = true)).
Proof.
  revert d ts. induction n as [|n IH]; intros d ts Hr Hn; [lia|]. cbn [expression_tokens]. wstep.
  destruct ts as [|t ts]; [cbn [look tok_kind]; rewrite bool_decide_eq_true_2 by done; wstep; by exists [], d|]. cbn [look]. pose proof (Forall_inv Hr) as [Hk _].
  rewrite bool_decide_eq_false_2 by done.
  destruct (at_top d && bool_decide (tok_text t ∈ stops)) eqn:Hs.
  - wstep. exists [], d. apply andb_true_iff in Hs as [? _]. done.
  - destruct (track (tok_text t) d) as [d1|] eqn:Ht; [|wstep]. wstep. wuse IH.
    intros l ts' (used & d' & -> & -> & Hrun & Hd). wstep. exists (t :: used), d'. split_and!; [done|done| |done].
    cbn [expr_run]. rewrite bool_decide_eq_false_2, Hs, Ht by done. done.
Qed.

Lemma expression_spec n stops ts : Forall real ts → (length ts < n)%nat →
  wp eof ts (parseExpression n stops) (consumes' (expr_g stops) ts).
Proof.
  intros Hr Hn. unfold parseExpression. wuse expression_tokens_spec.
  intros l ts' (used & d & -> & -> & Hrun & Hd). destruct used as [|t used]; [cbn [map]; wstep|]. cbn [map]. wstep.
  exists (t :: used). split; [done|]. intros H. repeat split; [done|]. exists d. auto.
Qed.

Lemma assign_spec n stops ts : Forall real ts → (length ts < n)%nat →
  wp eof ts (parse_assign n stops) (consumes' (assign_g stops) ts).
Proof.
  intros Hr Hn. unfold parse_assign. wstep.
  - wstep. eapply wp_mono; [apply expression_spec; [wreal|wlen]|].
    intros v ts' (used & -> & H). exists (t :: used). split; [done|]. intros Hne. constructor; auto.
  - wstep. exists []. split; [done|]. constructor.
Qed.

Lemma int_spec n ts : Forall real ts → (length ts < n)%nat →
  wp eof ts (parseIntLiteral n) (consumes' (λ u z, ∃ v, expr_g ["]"] u v ∧ ParseInt0 v = Some z) ts).
Proof.
  intros Hr Hn. unfold parseIntLiteral. wuse expression_spec. intros v ts' (used & -> & H).
  destruct (ParseInt0 v) as [z|] eqn:E; [|wstep; wstep]. wstep. exists used. split; [done|]. eauto.
Qed.

(** *** Annotations and types *)

Lemma peek_spec {B} (k : token → ST perror (Parser tokens Z) B) t ts (Q : B → tokens → Prop) :
  wp eof (t :: ts) (k (look eof ts)) Q → wp eof (t :: ts) (peek ≫= k) Q.
Proof. intros H. apply wp_bind. unfold wp at 1, peek. cbn. destruct ts as [|u ts]; cbn; [exists [t]|exists (t :: u :: ts)]; done. Qed.

Lemma arg_name_spec ts : Forall real ts →
  wp eof ts parse_arg_name (λ x ts',
    (∃ t e, ts = t :: e :: ts' ∧ idt x t ∧ sym "=" e) ∨ (x = "" ∧ ts' = ts ∧ ¬ named_start ts)).
Proof.
  intros Hr. unfold parse_arg_name. wstep. case_bool_decide as Hk.
  - destruct ts as [|t ts]; [done|]. cbn [look] in *. apply peek_spec.
    destruct (text_is "=" (look eof ts)) eqn:E.
    + pose proof (Forall_inv Hr) as [_ Hi]. apply Forall_inv_tail in Hr.
      destruct (look_sym eof ts "=" Hr ltac:(discriminate) E) as (e & ts' & -> & He). do 2 wstep. wstep.
      left. exists t, e. repeat split; auto; apply He.
    + wstep. right. repeat split; [done..|]. destruct ts as [|e ts]; [tauto|]. intros [_ H].
      unfold text_is in E. apply bool_decide_eq_false in E. done.
  - wstep. right. repeat split; [done..|]. destruct ts as [|t [|e ts]]; [tauto..|]. intros [H _]. done.
Qed.

Lemma annotation_args_spec n ts : Forall real ts → (length ts < n)%nat →
  wp eof ts (annotation_args n) (consumes' (commas arg_g) ts).
Proof.
  revert ts. induction n as [|n IH]; intros ts Hr Hn; [lia|]. cbn [annotation_args].
  eapply wp_use; [by apply arg_name_spec|]. intros x ts1 Hx.
  assert (Hl : (length ts1 <= length ts)%nat) by (destruct Hx as [(?&?&->&_)|(_&->&_)]; cbn; lia).
  assert (Hr1 : Forall real ts1) by (destruct Hx as [(?&?&->&_)|(_&->&_)]; wreal).
  wuse expression_spec. intros v ts2 Hv.
  assert (Harg : ∀ t ts3, ts2 = t :: ts3 → ∃ used, ts = used ++ ts2 ∧ arg_g used (mkAnnotationArg x v)).
  { intros t ts3 ->. apply consumes_ne in Hv as (used & -> & Hv). destruct Hx as [(a & e & -> & Ha & He)|(-> & <- & Hns)].
    - exists (a :: e :: used). split; [done|]. by constructor.
    - exists used. split; [done|]. constructor; [done|]. intros Hn'. apply Hns.
      destruct used as [|a [|e used]]; [done..|]. apply Hn'. }
  assert (Hr2 : Forall real ts2) by (destruct Hv as (used & -> & _); wreal). wstep.
  - wstep. destruct (Harg _ _ eq_refl) as (used & -> & H). exists used. split; [done|]. by constructor.
  - wstep. destruct (Harg _ _ eq_refl) as (used & -> & H). wuse IH. intros l ts' (used' & -> & Hl'). wstep.
    exists (used ++ t :: used'). split; [list_eq|]. intros Hne. constructor; auto.
Qed.

Lemma annotation_spec n t ts : sym "@" t → Forall real ts → (length ts < n)%nat →
  wp eof (t :: ts) (parse_annotation n) (consumes annotation_g (t :: ts)).
Proof.
  intros Ht Hr Hn. unfold parse_annotation. wstep. wuse qname_spec. intros x ts' (used & -> & Hx). wstep.
  - wstep. wstep.
    + wstep. wstep. wdone.
    + wuse annotation_args_spec. intros args ts2 (ua & -> & Hargs). wstep.
      specialize (Hargs ltac:(done)). wdone.
  - wdone.
Qed.

Lemma annotations_spec n ts : Forall real ts → (length ts < n)%nat →
  wp eof ts (parseAnnotations n) (λ l ts', consumes annotations_g ts l ts' ∧ text_is "@" (look eof ts') = false).
Proof.
  revert ts. induction n as [|n IH]; intros ts Hr Hn; [lia|]. cbn [parseAnnotations]. wstep.
  - eapply wp_use; [apply annotation_spec; [done|wreal|wlen]|]. intros a ts1 (used & E & Ha).
    assert (Hl : (length ts1 < S (length u))%nat).
    { apply (f_equal length) in E. destruct Ha; wlen. }
    assert (Hr1 : Forall real ts1) by (rewrite E in Hr; wreal).
    wuse IH. intros l ts' [(used' & -> & Hl') ?]. wstep. split; [|done]. rewrite E.
    eapply consumes_intro; [by constructor|list_eq].
  - wstep. split; [|done]. exists []. split; [done|constructor].
Qed.

Lemma array_spec n ts : Forall real ts → (length ts < n)%nat →
  wp eof ts (parse_array n) (consumes array_g ts).
Proof.
  intros Hr Hn. unfold parse_array. wstep.
  - wstep. wstep.
    + wstep. wstep. wdone.
    + wstep. wuse int_spec. intros z ts' (used & -> & H). wstep. wstep.
      destruct (H ltac:(done)) as (v & Hv & Hz). wdone.
  - wdone.
Qed.

Lemma qname_length ts x : qname_g ts x → (1 <= length ts)%nat.
Proof. intros (? & [] & _); cbn; lia. Qed.

Lemma type_length ts a : type_g ts a → (1 <= length ts)%nat.
Proof. intros [???????? _ H%qname_length _ _]. wlen. Qed.

Lemma type_spec n :
  (∀ ts, Forall real ts → (length ts < n)%nat → wp eof ts (parseTypeRef n) (consumes type_g ts)) ∧
  (∀ ts, Forall real ts → (length ts + 1 < n)%nat → wp eof ts (type_args n) (consumes (commas type_g) ts)).
Proof.
  induction n as [|n [IHt IHa]]; [split; lia|]. split; intros ts Hr Hn; cbn [parseTypeRef type_args];
    fold (@parseTypeRef tokens Z list_source) (@type_args tokens Z list_source).
  - wuse annotations_spec. intros anns ts1 [(ta & -> & Ha) _]. wuse qname_spec. intros x ts2 (tn & -> & Hx).
    pose proof (qname_length _ _ Hx). wstep.
    + wstep. wstep. wuse IHa. intros args ts3 (tp & -> & Hargs). wstep. wstep. wstep. wuse array_spec.
      intros arr ts4 (tr & -> & Harr). wstep.
      eapply consumes_intro; [econstructor; eauto; by constructor|list_eq].
    + wstep. wuse array_spec. intros arr ts4 (tr & -> & Harr). wstep.
      eapply consumes_intro; [econstructor; eauto; by constructor|list_eq].
  - wuse IHt. intros a ts1 (tt & -> & Ha).
    pose proof (type_length _ _ Ha).
    wstep; [wdone|]. wstep. wuse IHa. intros l ts' (tl & -> & Hl). wdone.
Qed.

(** *** Fields, constants and methods *)

Lemma type_no_annotations tt typ r : type_g tt typ → text_is "@" (look eof (tt ++ r)) = false → tr_Annotations typ = [].
Proof.
  intros [ta anns tn x tp args tr arr Ha Hq _ _] H. cbn. destruct Ha as [|u a u' l Ha Hl]; [done|]. exfalso.
  destruct Ha as [a ?? [Hs _]|a ???? [Hs _]|a ?????? [Hs _]]; cbn in H; unfold text_is in H;
    by rewrite Hs in H.
Qed.

Lemma not_starts words ts r : (1 <= length ts)%nat → Forall (λ w, ident_is w (look eof (ts ++ r)) = false) words →
  ¬ starts words ts.
Proof.
  destruct ts as [|t ts]; cbn; [lia|]. intros _ H [Hk Hw]. rewrite Forall_forall in H. specialize (H _ Hw).
  unfold ident_is, text_is in H. by rewrite !bool_decide_eq_true_2 in H.
Qed.

Lemma direction_spec ts : Forall real ts →
  wp eof ts parse_direction (λ dir ts', ∃ td, ts = td ++ ts' ∧ direction_g td dir ∧
    (dir = DirectionNone → td = [] ∧ Forall (λ w, ident_is w (look eof ts) = false) ["in"; "out"; "inout"])).
Proof.
  intros Hr. unfold parse_direction. wstep.
  destruct (ident_is "in" (look eof ts)) eqn:E1; [|destruct (ident_is "out" (look eof ts)) eqn:E2;
    [|destruct (ident_is "inout" (look eof ts)) eqn:E3]]; [apply look_idt in E1 as (t & u & -> & Ht); [|done]
    |apply look_idt in E2 as (t & u & -> & Ht); [|done]|apply look_idt in E3 as (t & u & -> & Ht); [|done]|].
  1-3: wstep; wstep; exists [t]; repeat split; [by constructor|discriminate..].
  wstep. exists []. repeat split; [constructor|]. by repeat constructor.
Qed.

Lemma field_body_spec n anns dirs dflt ts : Forall real ts → (length ts < n)%nat →
  text_is "@" (look eof ts) = false →
  wp eof ts (parseFieldWithAnnotations n anns dirs dflt) (consumes' (field_body_g dirs dflt anns) ts).
Proof.
  intros Hr Hn Hat. unfold parseFieldWithAnnotations.
  eapply wp_use with (Q' := λ dir ts', ∃ td, ts = td ++ ts' ∧ direction_g td dir ∧
    (dirs = false → dir = DirectionNone) ∧
    (dir = DirectionNone → td = [] ∧ (dirs = true → Forall (λ w, ident_is w (look eof ts) = false) ["in"; "out"; "inout"]))).
  { destruct dirs.
    - eapply wp_mono; [by apply direction_spec|]. intros dir ts' (td & -> & Hd & Hno). exists td.
      split_and!; [done..|]. intros H. destruct (Hno H) as [Htd Hf]. auto.
    - wstep. exists []. repeat split; [constructor|discriminate]. }
  intros dir ts1 (td & -> & Hd & Hdirs & Hdn). eapply wp_use; [apply type_spec; [wreal|wlen]|].
  intros typ ts2 (tt & -> & Ht). wstep.
  eapply wp_use with (Q' := λ v ts', ∃ te, u = te ++ ts' ∧ (dflt = false → te = []) ∧ (ts' ≠ [] → assign_g [";"] te v)).
  { destruct dflt.
    - eapply wp_mono; [apply assign_spec; [wreal|wlen]|]. intros v ts' (te & -> & Hv). by exists te.
    - wstep. exists []. repeat split; constructor. }
  intros v ts' (te & -> & Hdflt & Hv). wstep. exists (td ++ tt ++ t :: te). split; [list_eq|]. intros Hne.
  constructor; auto.
  - intros H. destruct (Hdn H) as [-> _]. by eapply type_no_annotations.
  - intros Hb H. destruct (Hdn H) as [-> Hw]. eapply not_starts; [by eapply type_length|by apply Hw].
Qed.

Lemma field_spec n dirs dflt ts : Forall real ts → (length ts < n)%nat →
  wp eof ts (parseField n dirs dflt) (consumes' (field_g dirs dflt) ts).
Proof.
  intros Hr Hn. unfold parseField. wuse annotations_spec. intros anns ts1 [(ta & -> & Ha) Hat].
  eapply wp_mono; [apply field_body_spec; [wreal|wlen|done]|]. intros f ts' (tb & -> & Hf).
  exists (ta ++ tb). split; [list_eq|]. intros Hne. exists ta, anns, tb. auto.
Qed.

Lemma const_spec n anns t ts : idt "const" t → Forall real ts → (length ts < n)%nat →
  wp eof (t :: ts) (parseConstDecl n anns) (consumes (const_g anns) (t :: ts)).
Proof.
  intros Ht Hr Hn. unfold parseConstDecl. wstep. eapply wp_use; [apply type_spec; [wreal|wlen]|].
  intros typ ts1 (tt & -> & Htyp). wstep. wstep. wuse expression_spec. intros v ts2 (te & -> & Hv). wstep.
  specialize (Hv ltac:(done)). wdone.
Qed.

Lemma oneway_spec ts : Forall real ts →
  wp eof ts parse_oneway (λ b ts', ∃ tw, ts = tw ++ ts' ∧ oneway_g tw b ∧
    (b = false → tw = [] ∧ ident_is "oneway" (look eof ts) = false)).
Proof.
  intros Hr. unfold parse_oneway. wstep.
  - wstep. wstep. exists [t]. repeat split; [by constructor|discriminate..].
  - wstep. exists []. repeat split; [constructor|done].
Qed.

Lemma field_length dirs dflt ts f : field_g dirs dflt ts f → (1 <= length ts)%nat.
Proof. intros (ta & anns & tb & _ & [?????????? _ ?] & ->). wlen. Qed.

Lemma method_args_spec n ts : Forall real ts → (length ts < n)%nat →
  wp eof ts (method_args n) (consumes' (commas (field_g true false)) ts).
Proof.
  revert ts. induction n as [|n IH]; intros ts Hr Hn; [lia|]. cbn [method_args].
  wuse field_spec. intros f ts1 (tf & -> & Hf). wstep.
  - wstep. exists tf. split; [done|]. intros _. constructor. auto.
  - wstep. specialize (Hf ltac:(done)). pose proof (field_length _ _ _ _ Hf). wuse IH.
    intros l ts' (tl & -> & Hl). wstep. exists (tf ++ t :: tl). split; [list_eq|]. intros Hne. constructor; auto.
Qed.

Lemma parse_args_spec n ts : Forall real ts → (length ts < n)%nat →
  wp eof ts (parse_args n) (consumes' args_g ts).
Proof.
  intros Hr Hn. unfold parse_args. wstep; [wstep; exists []; split; [done|constructor]|].
  eapply wp_mono; [apply method_args_spec; [wreal|wlen]|]. intros l ts' (ta & -> & H). exists ta. split; [done|].
  intros. constructor. auto.
Qed.

Lemma method_spec n anns ts : Forall real ts → (length ts < n)%nat →
  text_is "@" (look eof ts) = false → Forall (λ w, ident_is w (look eof ts) = false) decl_words →
  wp eof ts (parseMethodDecl n anns) (consumes (method_g anns) ts).
Proof.
  intros Hr Hn Hat Hw. unfold parseMethodDecl. eapply wp_use; [by apply oneway_spec|].
  intros b ts1 (tw & -> & Hb & Hno). eapply wp_use; [apply type_spec; [wreal|wlen]|].
  intros typ ts2 (tt & -> & Htyp).
  assert (Hcond : b = false → tr_Annotations typ = [] ∧ ¬ starts ("oneway" :: decl_words) tt).
  { intros ->. destruct Hno as [-> Hno]; [done|]. split; [by eapply type_no_annotations|].
    eapply not_starts; [by eapply type_length|]. constructor; [exact Hno|exact Hw]. }
  wstep. wstep.
  wuse parse_args_spec. intros args ts3 (ta & -> & Hargs). wstep. wuse assign_spec.
  intros v ts4 (te & -> & Hv). wstep. specialize (Hargs ltac:(done)). specialize (Hv ltac:(done)). wdone.
Qed.

(** *** Enums and unions *)

Lemma enum_members_spec n ts : Forall real ts → (length ts < n)%nat →
  wp eof ts (enum_members n) (consumes' (trailing enum_member_g) ts).
Proof.
  revert ts. induction n as [|n IH]; intros ts Hr Hn; [lia|]. cbn [enum_members]. wstep.
  - wstep. exists []. split; [done|constructor].
  - wstep. wuse assign_spec. intros v ts1 (te & -> & Hv). wstep.
    + wstep. exists (t :: te). split; [done|]. intros Hne. constructor. constructor; auto.
    + wstep. wuse IH. intros l ts' (tl & -> & Hl). wstep. specialize (Hv ltac:(done)).
      exists (t :: te ++ t0 :: tl). split; [list_eq|]. intros Hne.
      apply (trailing_more _ (t :: te)); auto. by constructor.
Qed.

Lemma enum_spec n anns t ts : idt "enum" t → Forall real ts → (length ts < n)%nat →
  wp eof (t :: ts) (parseEnumDecl n anns) (consumes (enum_g anns) (t :: ts)).
Proof.
  intros Ht Hr Hn. unfold parseEnumDecl. wstep. wstep. wstep. wuse enum_members_spec.
  intros l ts' (tl & -> & Hl). wstep. specialize (Hl ltac:(done)). wdone.
Qed.

Lemma union_fields_spec n ts : Forall real ts → (length ts < n)%nat →
  wp eof ts (union_fields n) (consumes (many union_item) ts).
Proof.
  revert ts. induction n as [|n IH]; intros ts Hr Hn; [lia|]. cbn [union_fields]. wstep.
  - wstep. exists []. split; [done|constructor].
  - wuse field_spec. intros f ts1 (tf & -> & Hf). wstep. wuse IH. intros l ts' (tl & -> & Hl). wstep.
    specialize (Hf ltac:(done)). exists ((tf ++ [t]) ++ tl). split; [list_eq|]. constructor; [|done].
    exists tf, t. auto.
Qed.

Lemma union_spec n anns t ts : idt "union" t → Forall real ts → (length ts < n)%nat →
  wp eof (t :: ts) (parseUnionDecl n anns) (consumes (union_g anns) (t :: ts)).
Proof.
  intros Ht Hr Hn. unfold parseUnionDecl. wstep. wstep. wstep. wuse union_fields_spec.
  intros l ts' (tl & -> & Hl). wstep. wdone.
Qed.

(** *** Parcelables *)

Lemma type_param_names_spec n ts : Forall real ts → (length ts < n)%nat →
  wp eof ts (type_param_names n) (consumes (commas name_g) ts).
Proof.
  revert ts. induction n as [|n IH]; intros ts Hr Hn; [lia|]. cbn [type_param_names]. wstep.
  assert (Hx : name_g [t] x) by (exists t; auto). wstep.
  - wstep. eapply consumes_intro; [by constructor|done].
  - wstep. wuse IH. intros l ts' (tl & -> & Hl). wstep. eapply consumes_intro; [by constructor|list_eq].
Qed.

Lemma type_params_spec n ts : Forall real ts → (length ts < n)%nat →
  wp eof ts (parse_type_params n) (λ l ts', ∃ tp, ts = tp ++ ts' ∧ params_g tp l ∧
    (tp = [] → text_is "<" (look eof ts) = false)).
Proof.
  intros Hr Hn. unfold parse_type_params. wstep.
  - unfold parseTypeParamNames. wstep. wuse type_param_names_spec. intros l ts' (tl & -> & Hl). wstep. wstep.
    exists (t :: tl ++ [t0]). split; [list_eq|]. split; [by constructor|done].
  - wstep. exists []. repeat split; [constructor|done].
Qed.

Lemma skip_header_spec n ts : Forall real ts → (length ts < n)%nat →
  wp eof ts (skip_header n) (λ _ ts', ∃ th, ts = th ++ ts' ∧
    (ts' ≠ [] → th = [] ∨ ∃ v, expr_g [";"; "{"] th v)).
Proof.
  intros Hr Hn. unfold skip_header. wstep. destruct (_ || _); [wstep; exists []; auto|].
  wuse expression_spec. intros v ts' (th & -> & H). wstep. exists th. split; [done|]. eauto.
Qed.

Lemma header_intro tp th r : (th = [] ∨ ∃ v, expr_g [";"; "{"] th v) →
  (tp = [] → text_is "<" (look eof (th ++ r)) = false ∧ text_is "." (look eof (th ++ r)) = false) → header_g tp th.
Proof.
  intros [->|[v Hv]] H; [constructor|]. destruct th as [|t th]; [constructor|].
  eapply header_some; [done|]. intros Htp. destruct (H Htp) as [H1%bool_decide_eq_false H2%bool_decide_eq_false]. done.
Qed.

Lemma field_body_length dirs dflt anns ts f : field_body_g dirs dflt anns ts f → (1 <= length ts)%nat.
Proof. intros []. wlen. Qed.

Ltac item :=
  match goal with E : _ = ?td ++ _, H : _ ?td _ |- _ =>
    exists td; split_and!; [exact E|by econstructor|destruct H; cbn; lia] end.

Lemma parcelable_spec n :
  (∀ anns t ts, idt "parcelable" t → Forall real ts → (length ts + 1 < n)%nat →
    wp eof (t :: ts) (parseParcelableDecl n anns) (consumes (parcelable_g anns) (t :: ts))) ∧
  (∀ ts, Forall real ts → (length ts + 1 < n)%nat → wp eof ts (parcelable_body n) (consumes (many item_g) ts)).
Proof.
  induction n as [|n [IHp IHb]]; [split; lia|]. split.
  - intros anns t ts Ht Hr Hn. cbn [parseParcelableDecl parcelable_body];
      fold (@parseParcelableDecl tokens Z list_source) (@parcelable_body tokens Z list_source).
    wstep. wuse qname_dot_spec. intros x ts1 [(tn & -> & Hx) Hdot]. wuse type_params_spec.
    intros params ts2 (tp & -> & Hp & Hlt). wuse skip_header_spec. intros _ ts3 (th & -> & Hth).
    assert (Hh : ts3 ≠ [] → header_g tp th).
    { intros Hne. apply (header_intro _ _ ts3); [by apply Hth|]. intros ->. split; [by apply Hlt|exact Hdot]. }
    pose proof (qname_length _ _ Hx). wstep.
    + wstep. wstep. specialize (Hh ltac:(done)). eapply consumes_intro; [by apply parcelable_plain|list_eq].
    + wstep. specialize (Hh ltac:(done)). wuse IHb. intros body ts4 (tb & -> & Hb). wstep. wstep.
      eapply consumes_intro; [by apply parcelable_structured|list_eq].
  - intros ts Hr Hn. cbn [parseParcelableDecl parcelable_body];
      fold (@parseParcelableDecl tokens Z list_source) (@parcelable_body tokens Z list_source).
    wstep; [wstep; exists []; split; [done|constructor]|]. wuse annotations_spec.
    intros anns ts1 [(ta & -> & Ha) Hat]. wstep.
    eapply wp_use with (Q' := λ i ts', ∃ tc, ts1 = tc ++ ts' ∧ item_g (ta ++ tc) i ∧ (1 <= length tc)%nat).
    { assert (Hr1 : Forall real ts1) by wreal. assert (Hl : (length ts1 + 1 < S n)%nat) by wlen. clear Hr Hn Hno.
      destruct (ident_is "const" (look eof ts1)) eqn:E1; [keyword E1 const_spec; item|].
      destruct (ident_is "parcelable" (look eof ts1)) eqn:E2; [keyword E2 IHp; item|].
      destruct (ident_is "enum" (look eof ts1)) eqn:E3; [keyword E3 enum_spec; item|].
      destruct (ident_is "union" (look eof ts1)) eqn:E4; [keyword E4 union_spec; item|].
      eapply wp_use; [apply field_body_spec; [wreal|wlen|done]|]. intros f ts' (tf & -> & Hf). wstep. wstep.
      specialize (Hf ltac:(done)). pose proof (field_body_length _ _ _ _ _ Hf).
      exists (tf ++ [t]). split_and!; [list_eq| |wlen]. apply item_field with anns; [done..| |done].
      eapply not_starts; [done|]. by repeat constructor. }
    intros i ts' (tc & -> & Hi & Hlen). wuse IHb. intros l ts2 (tl & -> & Hl). wstep.
    eapply consumes_intro; [by constructor|list_eq].
Qed.

(** *** Interfaces and files *)

Lemma member_spec n ts : Forall real ts → (length ts < n)%nat →
  wp eof ts (parseInterfaceMember n) (λ m ts', consumes member_g ts m ts' ∧ (length ts' < length ts)%nat).
Proof.
  intros Hr Hn. unfold parseInterfaceMember. wuse annotations_spec. intros anns ts1 [(ta & -> & Ha) Hat]. wstep.
  assert (Hw : ∀ tc ts' m, ts1 = tc ++ ts' → member_g (ta ++ tc) m → (1 <= length tc)%nat →
    consumes member_g (ta ++ ts1) m ts' ∧ (length ts' < length (ta ++ ts1))%nat).
  { intros tc ts' m -> Hm Hl. split; [eapply consumes_intro; [done|list_eq]|wlen]. }
  destruct (ident_is "const" (look eof ts1)) eqn:E1;
    [keyword E1 const_spec; eapply Hw; [done|by econstructor|destruct Hd; cbn; lia]|].
  destruct (ident_is "parcelable" (look eof ts1)) eqn:E2;
    [keyword E2 (proj1 (parcelable_spec n)); eapply Hw; [done|by econstructor|destruct Hd; cbn; lia]|].
  destruct (ident_is "enum" (look eof ts1)) eqn:E3;
    [keyword E3 enum_spec; eapply Hw; [done|by econstructor|destruct Hd; cbn; lia]|].
  destruct (ident_is "union" (look eof ts1)) eqn:E4;
    [keyword E4 union_spec; eapply Hw; [done|by econstructor|destruct Hd; cbn; lia]|].
  eapply wp_use; [apply method_spec; [wreal|wlen|done|by repeat constructor]|].
  intros m ts' (tm & E & Hm). wstep. eapply Hw; [done|by econstructor|]. destruct Hm. wlen.
Qed.

Lemma interface_members_spec n ts : Forall real ts → (length ts < n)%nat →
  wp eof ts (interface_members n) (consumes (many member_g) ts).
Proof.
  revert ts. induction n as [|n IH]; intros ts Hr Hn; [lia|]. cbn [interface_members]. wstep.
  - wstep. exists []. split; [done|constructor].
  - wuse member_spec. intros m ts1 [(tm & -> & Hm) Hl]. wuse IH. intros l ts' (tl & -> & Hl'). wdone.
Qed.

Lemma interface_spec n anns oneway t ts : idt "interface" t → Forall real ts → (length ts < n)%nat →
  wp eof (t :: ts) (parseInterfaceDecl n anns oneway) (consumes (interface_g anns oneway) (t :: ts)).
Proof.
  intros Ht Hr Hn. unfold parseInterfaceDecl. wstep. wstep. wstep. wuse interface_members_spec.
  intros l ts' (tl & -> & Hl). wstep. wdone.
Qed.

Lemma top_spec n ts : Forall real ts → (length ts < n)%nat →
  wp eof ts (parseTopDecl n) (λ d ts', consumes top_g ts d ts' ∧ (length ts' < length ts)%nat).
Proof.
  intros Hr Hn. unfold parseTopDecl. wuse annotations_spec. intros anns ts1 [(ta & -> & Ha) _].
  eapply wp_use; [apply oneway_spec; wreal|]. intros b ts2 (tw & -> & Hb & _). wstep.
  assert (Hw : ∀ tc ts' d, ts2 = tc ++ ts' → decl_g anns b tc d → (1 <= length tc)%nat →
    consumes top_g (ta ++ tw ++ ts2) d ts' ∧ (length ts' < length (ta ++ tw ++ ts2))%nat).
  { intros tc ts' m -> Hm Hl. split; [eapply consumes_intro; [by econstructor|list_eq]|wlen]. }
  destruct (ident_is "interface" (look eof ts2)) eqn:E1;
    [keyword E1 interface_spec; eapply Hw; [done|by econstructor|destruct Hd; cbn; lia]|].
  destruct (ident_is "parcelable" (look eof ts2)) eqn:E2;
    [keyword E2 (proj1 (parcelable_spec n)); eapply Hw; [done|by econstructor|destruct Hd; cbn; lia]|].
  destruct (ident_is "enum" (look eof ts2)) eqn:E3;
    [keyword E3 enum_spec; eapply Hw; [done|by econstructor|destruct Hd; cbn; lia]|].
  destruct (ident_is "union" (look eof ts2)) eqn:E4;
    [keyword E4 union_spec; eapply Hw; [done|by econstructor|destruct Hd; cbn; lia]|].
  wstep.
Qed.

Lemma top_decls_spec n ts : Forall real ts → (length ts < n)%nat →
  wp eof ts (top_decls n) (λ l ts', many top_g ts l ∧ ts' = []).
Proof.
  revert ts. induction n as [|n IH]; intros ts Hr Hn; [lia|]. cbn [top_decls]. wstep. case_bool_decide as Hk.
  - wstep. destruct ts as [|t ts]; [split; [constructor|done]|]. by destruct (Forall_inv Hr) as [? _].
  - wuse top_spec. intros d ts1 [(td & -> & Hd) Hl]. wuse IH. intros l ts' [Htl ->]. wstep.
    split; [by constructor|done].
Qed.

Lemma package_spec n ts : Forall real ts → (length ts < n)%nat →
  wp eof ts (parse_package n) (consumes package_g ts).
Proof.
  intros Hr Hn. unfold parse_package. wstep; [|wdone]. wstep. wuse qname_spec. intros x ts1 (tn & -> & Hx). wstep.
  wdone.
Qed.

Lemma imports_spec n ts : Forall real ts → (length ts < n)%nat →
  wp eof ts (parse_imports n) (consumes (many import_g) ts).
Proof.
  revert ts. induction n as [|n IH]; intros ts Hr Hn; [lia|]. cbn [parse_imports]. wstep; [|wdone].
  wstep. wuse qname_spec. intros x ts1 (tn & -> & Hx). wstep. wuse IH. intros l ts' (tl & -> & Hl). wstep.
  eapply (consumes_intro _ ((t :: tn ++ [t0]) ++ tl)); [|list_eq]. constructor; [by constructor|done].
Qed.

Lemma file_spec n ts : Forall real ts → (length ts < n)%nat →
  wp eof ts (parseFile n) (λ f ts', file_g ts f ∧ ts' = []).
Proof.
  intros Hr Hn. unfold parseFile. wuse package_spec. intros x ts1 (tp & -> & Hp). wuse imports_spec.
  intros l ts2 (ti & -> & Hi). wuse top_decls_spec. intros ds ts3 [Hd ->]. wstep. split; [by constructor|done].
Qed.
End Phrases.
