(* ===== verification/AidlComplete.v ===== *)
(** * AidlComplete: every file of the grammar parses

    The converse of AidlSound: the parser of Aidl returns the tree of every
    derivation of AidlGrammar, so it accepts exactly the files of the grammar. *)

From stdpp Require Import base list numbers strings pretty.
From S2P Require Import Prelude Aidl AidlGrammar AidlSound.

Open Scope Z_scope.

Section Complete.
Context (eof : Z).
Abbreviation P := (ST perror (Parser tokens Z)).
Implicit Types (ts rest : tokens) (n : nat).

(** ** Runs *)

(** [m] reads the tokens up to [rest] and returns [a]. *)
Definition run {A} ts (m : P A) (a : A) rest : Prop := m (st eof ts) = (Ok a, st eof rest).

Lemma run_ret {A} ts (a : A) : run ts (mret a) a ts.
Proof. done. Qed.

Lemma run_bind {A B} ts (m : P A) (k : A → P B) a ts' b rest :
  run ts m a ts' → run ts' (k a) b rest → run ts (m ≫= k) b rest.
Proof. intros H1 H2. unfold run. by rewrite (bind_ok _ _ _ _ _ H1). Qed.

Lemma run_assoc {A B C} ts (m : P A) (k : A → P B) (h : B → P C) b rest :
  run ts (m ≫= λ a, k a ≫= h) b rest → run ts ((m ≫= k) ≫= h) b rest.
Proof. unfold run. by rewrite bind_assoc. Qed.

Lemma run_tok {B} ts (k : token → P B) b rest : run ts (k (look eof ts)) b rest → run ts (tok ≫= k) b rest.
Proof. done. Qed.

Lemma run_next t ts : run (t :: ts) next tt ts.
Proof. by destruct ts. Qed.

Lemma run_match_text x ts : tok_text (look eof ts) = x → run ts (match_ x) true ts.
Proof. intros H. unfold run, match_, text_is, mbind, ST_bind. cbn. by rewrite bool_decide_eq_true_2. Qed.

Lemma run_match_yes x t ts : sym x t → run (t :: ts) (match_ x) true (t :: ts).
Proof. intros [H _]. by apply run_match_text. Qed.

Lemma run_match_no x ts : text_is x (look eof ts) = false → run ts (match_ x) false ts.
Proof. intros H. unfold run, match_, mbind, ST_bind. cbn. by rewrite H. Qed.

Lemma run_expect x t ts : sym x t → run (t :: ts) (expect x) tt ts.
Proof. intros H. eapply run_bind; [by apply run_match_yes|]. apply run_next. Qed.

Lemma run_name x t ts : idt x t → run (t :: ts) parseName x ts.
Proof.
  intros (Ht & Hk & _). unfold parseName. apply run_tok. cbn [look]. rewrite bool_decide_eq_true_2 by done.
  eapply run_bind; [apply run_next|]. by rewrite Ht.
Qed.

(** ** First tokens *)

Lemma sym_not x y t : sym x t → x ≠ y → text_is y t = false.
Proof. intros [H _] Hxy. apply bool_decide_eq_false_2. by rewrite H. Qed.

Lemma idt_not x y t : idt x t → is_identifier y = false → text_is y t = false.
Proof. intros (H & _ & Hi) Hy. apply bool_decide_eq_false_2. rewrite H. by intros ->; rewrite Hi in Hy. Qed.

Lemma idt_is x t : idt x t → ident_is x t = true.
Proof. intros (H & Hk & _). unfold ident_is, text_is. by rewrite !bool_decide_eq_true_2. Qed.

Lemma idt_is_not x y t : idt x t → x ≠ y → ident_is y t = false.
Proof.
  intros (H & _ & _) Hxy. unfold ident_is, text_is. rewrite (bool_decide_eq_false_2 (tok_text t = y)) by (by rewrite H).
  apply andb_false_r.
Qed.

(** None of the punctuation [l] opens [ts]. *)
Definition free (l : list string) ts : Prop := Forall (λ x, text_is x (look eof ts) = false) l.

Lemma free_in l ts x : free l ts → x ∈ l → text_is x (look eof ts) = false.
Proof. unfold free. rewrite Forall_forall. auto. Qed.

End Complete.

Ltac tok_no :=
  cbn [look app]; first [assumption | eapply sym_not; [eassumption|discriminate] | eapply idt_not; [eassumption|reflexivity]].
Ltac solve_free := unfold free in *; repeat first [apply Forall_nil_2 | apply Forall_cons_2; [try tok_no|]]; try done.
(** Membership in a closed list. *)
Ltac inl := apply (bool_decide_unpack _); vm_compute; exact I.
Ltac rnorm := repeat first [rewrite <- app_assoc | progress cbn [app]].
(** One primitive operation of the goal's run. *)
Ltac rstep :=
  cbv beta match;
  match goal with
  | |- run _ _ (mret _) _ _ => apply run_ret
  | |- run _ _ ((_ ≫= _) ≫= _) _ _ => apply run_assoc
  | |- run _ _ (mret _ ≫= _) _ _ => eapply run_bind; [apply run_ret|]
  | |- run _ _ (tok ≫= _) _ _ => apply run_tok; cbn [look app]
  | |- run _ _ (next ≫= _) _ _ => eapply run_bind; [apply run_next|]
  | |- run _ _ (expect _ ≫= _) _ _ => eapply run_bind; [by apply run_expect|]
  | |- run _ _ (parseName ≫= _) _ _ => eapply run_bind; [by apply run_name|]
  | |- run _ _ (match_ _ ≫= _) _ _ =>
      eapply run_bind; [first [apply run_match_yes; eassumption | apply run_match_no; tok_no]|cbv beta match]
  end.

(** A match that fails, for the reason [tac] gives. *)
Tactic Notation "rno" tactic3(tac) := eapply run_bind; [apply run_match_no; tac|cbv beta match].

Section Phrases.
Context (eof : Z).
Implicit Types (ts rest : tokens) (n : nat).

(** *** Names and expressions *)

Lemma run_name_parts n ts l rest x t u : dotted ts l → ts = t :: u → l = x :: tail l →
  text_is "." (look eof rest) = false → (length (u ++ rest) < n)%nat → run eof (u ++ rest) (name_parts n) (tail l) rest.
Proof.
  intros H. revert n x t u. induction H as [y w Hy|y w d ts l Hy Hd Hl IH]; intros n x t u [= <- <-] _ Hdot Hn;
    (destruct n as [|n]; [lia|]); cbn [name_parts tail app].
  - rstep. rstep.
  - inversion Hl as [z v Hv|z v d' ts' l' Hv Hd' Hl']; subst; cbn [app]; do 2 rstep.
    + rstep. eapply run_bind; [eapply (IH n z v []); [done..|wlen]|]. rstep.
    + rstep. eapply run_bind; [eapply (IH n z v (d' :: ts')); [done..|wlen]|]. rstep.
Qed.

Lemma run_qname n ts x rest : qname_g ts x → text_is "." (look eof rest) = false → (length (ts ++ rest) < n)%nat →
  run eof (ts ++ rest) (parseQualifiedName n) x rest.
Proof.
  intros (l & Hl & ->) Hdot Hn. unfold parseQualifiedName.
  assert (∃ y t u, ts = t :: u ∧ l = y :: tail l ∧ idt y t) as (y & t & u & -> & Hl' & Hy)
    by (destruct Hl; eauto 10).
  cbn [app]. rstep. eapply run_bind; [by eapply run_name_parts; [..|wlen]|]. rewrite <- Hl'. rstep.
Qed.

Lemma run_expression_tokens n stops d d' ts rest : expr_run stops d ts = Some d' → at_top d' = true →
  tok_text (look eof rest) ∈ stops → (length (ts ++ rest) < n)%nat →
  run eof (ts ++ rest) (expression_tokens n stops d) (map tok_text ts) rest.
Proof.
  revert n d. induction ts as [|t ts IH]; intros n d Hd Htop Hin Hn; (destruct n as [|n]; [lia|]);
    cbn [expression_tokens expr_run app map] in *; rstep.
  - injection Hd as ->. case_bool_decide; [apply run_ret|]. rewrite Htop, bool_decide_eq_true_2 by done. apply run_ret.
  - case_bool_decide; [done|]. destruct (_ && _); [done|]. destruct (track _ d) as [d1|]; [|done].
    rstep. eapply run_bind; [apply IH; [done..|wlen]|]. rstep.
Qed.

Lemma run_expression n stops ts v rest : expr_g stops ts v → tok_text (look eof rest) ∈ stops →
  (length (ts ++ rest) < n)%nat → run eof (ts ++ rest) (parseExpression n stops) v rest.
Proof.
  intros (Hne & (d & Hd & Htop) & ->) Hin Hn. unfold parseExpression.
  eapply run_bind; [by eapply run_expression_tokens|]. by destruct ts.
Qed.

Lemma text_not x ts (stops : list string) : tok_text (look eof ts) ∈ stops → x ∉ stops → text_is x (look eof ts) = false.
Proof. intros H Hx. apply bool_decide_eq_false_2. by intros <-. Qed.

Lemma run_assign n stops ts v rest : assign_g stops ts v → tok_text (look eof rest) ∈ stops → "=" ∉ stops →
  (length (ts ++ rest) < n)%nat → run eof (ts ++ rest) (parse_assign n stops) v rest.
Proof.
  intros [|e u w He Hw] Hin Hx Hn; unfold parse_assign; cbn [app].
  - rno (by eapply text_not). rstep.
  - do 2 rstep. apply run_expression; [done..|wlen].
Qed.

Lemma sym_in x t u (stops : list string) : sym x t → x ∈ stops → tok_text (look eof (t :: u)) ∈ stops.
Proof. intros [E _] H. cbn. by rewrite E. Qed.

(** *** Annotations and types *)

Lemma run_peek {B} t ts (k : token → ST perror (Parser tokens Z) B) b rest :
  run eof (t :: ts) (k (look eof ts)) b rest → run eof (t :: ts) (peek ≫= k) b rest.
Proof. intros H. unfold run, peek, mbind, ST_bind. cbn. by destruct ts. Qed.

Lemma run_arg n ts a rest : arg_g ts a → tok_text (look eof rest) ∈ [","; ")"] → (length (ts ++ rest) < n)%nat →
  ∃ x ts1 v, run eof (ts ++ rest) parse_arg_name x ts1 ∧ run eof ts1 (parseExpression n [","; ")"]) v rest ∧
    a = mkAnnotationArg x v.
Proof.
  intros [x t e u v Hx He Hv|u v Hv Hns] Hin Hn.
  - exists x, (u ++ rest), v. split_and!; [|by apply run_expression; [..|wlen]|done].
    unfold parse_arg_name. cbn [app]. rstep. destruct Hx as (Hx & Hk & _). rewrite bool_decide_eq_true_2 by done.
    apply run_peek. cbn [look]. unfold text_is. rewrite bool_decide_eq_true_2 by apply He.
    do 2 rstep. rewrite Hx. rstep.
  - exists "", (u ++ rest), v. split_and!; [|by apply run_expression; [..|wlen]|done].
    destruct u as [|t u]; [by destruct Hv|]. unfold parse_arg_name. cbn [app]. rstep.
    case_bool_decide as Hk; [|rstep]. apply run_peek.
    replace (text_is "=" (look eof (u ++ rest))) with false; [rstep|]. symmetry. apply bool_decide_eq_false_2.
    intros E. destruct u as [|e u]; cbn in *; [rewrite E in Hin; by apply (bool_decide_pack _) in Hin|]. by apply Hns.
Qed.

Lemma run_annotation_args n ts l rest : commas arg_g ts l → tok_text (look eof rest) = ")" →
  (length (ts ++ rest) < n)%nat → run eof (ts ++ rest) (annotation_args n) l rest.
Proof.
  intros H Hc. revert n. induction H as [ts a Ha|ts a c ts' l Ha Hc' Hl IH]; intros n Hn;
    (destruct n as [|n]; [lia|]); cbn [annotation_args].
  - destruct (run_arg (S n) ts a rest Ha) as (x & ts1 & v & H1 & H2 & ->); [rewrite Hc; inl|done|].
    eapply run_bind; [done|]. eapply run_bind; [done|]. eapply run_bind; [by apply run_match_text|]. apply run_ret.
  - rnorm. destruct (run_arg (S n) ts a (c :: ts' ++ rest) Ha) as (x & ts1 & v & H1 & H2 & ->);
      [eapply sym_in; [eassumption|inl]|wlen|].
    eapply run_bind; [done|]. eapply run_bind; [done|]. rstep. rstep. eapply run_bind; [apply IH; wlen|]. rstep.
Qed.

Lemma expr_first stops ts v rest x : expr_g stops ts v → x ∈ stops → text_is x (look eof (ts ++ rest)) = false.
Proof.
  intros (Hne & (d & Hd & _) & _) Hx. apply bool_decide_eq_false_2. intros E.
  destruct ts as [|t ts]; [done|]. cbn in *. rewrite E in Hd.
  rewrite (bool_decide_eq_true_2 (x ∈ stops)) in Hd by done. by case_bool_decide.
Qed.

Lemma args_first ts l rest : commas arg_g ts l → text_is ")" (look eof (ts ++ rest)) = false.
Proof.
  assert (Ha : ∀ ts a rest, arg_g ts a → text_is ")" (look eof (ts ++ rest)) = false).
  { intros ts' a r [x t e u v Hx|u v Hv]; [tok_no|]. eapply expr_first; [eassumption|inl]. }
  intros []; rnorm; by eapply Ha.
Qed.

Lemma run_annotation n ts a rest : annotation_g ts a → free eof ["("; "."] rest → (length (ts ++ rest) < n)%nat →
  run eof (ts ++ rest) (parse_annotation n) a rest.
Proof.
  intros Ha Hf Hn. unfold parse_annotation.
  destruct Ha as [a tn x Ha Hx|a tn x o c Ha Hx Ho Hc|a tn x o u args c Ha Hx Ho Hargs Hc]; rnorm; rstep.
  - eapply run_bind; [apply run_qname; [done|eapply free_in; [eassumption|inl]|wlen]|].
    rno (eapply free_in; [eassumption|inl]). rstep.
  - eapply run_bind; [apply run_qname; [done|tok_no|wlen]|]. rstep. rstep. rstep. rstep. rstep. rstep.
  - eapply run_bind; [apply run_qname; [done|tok_no|wlen]|]. rstep. rstep.
    rno (by eapply args_first).
    eapply run_bind; [apply run_annotation_args; [done|apply Hc|wlen]|]. rstep. rstep.
Qed.

Lemma annotation_first ts a : annotation_g ts a → ∃ t u, ts = t :: u ∧ sym "@" t.
Proof. intros []; eauto. Qed.

Lemma run_annotations n ts l rest : annotations_g ts l → free eof ["@"; "("; "."] rest → (length (ts ++ rest) < n)%nat →
  run eof (ts ++ rest) (parseAnnotations n) l rest.
Proof.
  intros H Hf. revert n. induction H as [|ts a ts' l Ha Hl IH]; intros n Hn; (destruct n as [|n]; [lia|]);
    cbn [parseAnnotations].
  - rno (eapply free_in; [eassumption|inl]). rstep.
  - rnorm. destruct (annotation_first _ _ Ha) as (t & u & -> & Ht). cbn [app]. rstep.
    change (t :: u ++ ts' ++ rest) with ((t :: u) ++ ts' ++ rest).
    eapply run_bind; [apply run_annotation; [done| |wlen]|].
    { destruct Hl as [|ts1 b ts2 l' Hb _]; [solve_free; (eapply free_in; [eassumption|inl])|].
      destruct (annotation_first _ _ Hb) as (t' & u' & -> & Ht'). solve_free. }
    eapply run_bind; [apply IH; wlen|]. rstep.
Qed.

Lemma run_array n ts a rest : array_g ts a → free eof ["["] rest → (length (ts ++ rest) < n)%nat →
  run eof (ts ++ rest) (parse_array n) a rest.
Proof.
  intros [|o c Ho Hc|o u v z c Ho Hv Hz Hc] Hf Hn; unfold parse_array; rnorm.
  - rno (eapply free_in; [eassumption|inl]). rstep.
  - do 6 rstep.
  - rstep. rstep. rno (eapply expr_first; [eassumption|inl]).
    rstep. unfold parseIntLiteral. rstep.
    eapply run_bind; [apply run_expression; [done|eapply sym_in; [eassumption|inl]|wlen]|]. rewrite Hz. rstep. rstep. rstep. rstep.
Qed.

Lemma qname_first ts x : qname_g ts x → ∃ y t u, ts = t :: u ∧ idt y t.
Proof. intros (l & [] & _); eauto. Qed.

(** The first token of a type: an annotation's, or a name when there is none. *)
Lemma type_first ts typ : type_g ts typ →
  ∃ t u, ts = t :: u ∧ ((∃ y, idt y t) ∨ sym "@" t ∧ tr_Annotations typ ≠ []).
Proof.
  intros [ta anns tn x tp args tr arr Ha Hx _ _]. destruct Ha as [|u a u' l Ha Hl].
  - destruct (qname_first _ _ Hx) as (y & t & u & -> & Hy). cbn. eauto 10.
  - destruct (annotation_first _ _ Ha) as (t & v & -> & Ht). cbn. eauto 10.
Qed.

Lemma run_types n :
  (∀ ts typ rest, type_g ts typ → free eof ["."; "<"; "["] rest → (length (ts ++ rest) < n)%nat →
    run eof (ts ++ rest) (parseTypeRef n) typ rest) ∧
  (∀ ts l rest, commas type_g ts l → tok_text (look eof rest) = ">" → (length (ts ++ rest) + 1 < n)%nat →
    run eof (ts ++ rest) (type_args n) l rest).
Proof.
  induction n as [|n [IHt IHa]]; [split; lia|]. split.
  - intros ts typ rest [ta anns tn x tp args tr arr Ha Hx Hp Hr] Hf Hn. cbn [parseTypeRef type_args];
      fold (@parseTypeRef tokens Z list_source) (@type_args tokens Z list_source). rnorm.
    pose proof (qname_length _ _ Hx) as Hlen.
    eapply run_bind; [apply run_annotations; [done| |wlen]|].
    { destruct (qname_first _ _ Hx) as (y & t & u & -> & Hy). solve_free. }
    assert (Htr : free eof ["."; "<"] (tr ++ rest)).
    { destruct Hr; cbn [app]; solve_free; (eapply free_in; [eassumption|inl]). }
    eapply run_bind; [apply run_qname; [done| |wlen]|].
    { destruct Hp; rnorm; [eapply free_in; [eassumption|inl]|tok_no]. }
    destruct Hp as [|o u l c Ho Hl Hc]; rnorm.
    + rno (eapply free_in; [eassumption|inl]). rstep.
      eapply run_bind; [apply run_array; [done|solve_free; (eapply free_in; [eassumption|inl])|wlen]|]. rstep.
    + rstep. rstep. rstep. rstep. eapply run_bind; [apply IHa; [done|apply Hc|wlen]|]. repeat rstep.
      eapply run_bind; [apply run_array; [done|solve_free; (eapply free_in; [eassumption|inl])|wlen]|]. rstep.
  - intros ts l rest Hl Hgt Hn. cbn [parseTypeRef type_args];
      fold (@parseTypeRef tokens Z list_source) (@type_args tokens Z list_source).
    destruct Hl as [u a Ha|u a c u' l Ha Hc Hl]; rnorm.
    + eapply run_bind; [apply IHt; [done| |wlen]|].
      { solve_free; (eapply (text_not _ _ [">"]); [rewrite Hgt; inl|inl]). }
      eapply run_bind; [by apply run_match_text|]. rstep.
    + eapply run_bind; [apply IHt; [done|solve_free|wlen]|]. rstep. rstep.
      pose proof (type_length _ _ Ha). eapply run_bind; [apply IHa; [done..|wlen]|]. rstep.
Qed.

Lemma run_type n ts typ rest : type_g ts typ → free eof ["."; "<"; "["] rest → (length (ts ++ rest) < n)%nat →
  run eof (ts ++ rest) (parseTypeRef n) typ rest.
Proof. apply run_types. Qed.

(** *** Fields, constants and methods *)

Lemma not_ident ts rest words w : ¬ starts words ts → w ∈ words → ts ≠ [] → ident_is w (look eof (ts ++ rest)) = false.
Proof.
  intros H Hw. destruct ts as [|t ts]; [done|]. intros _. cbn in *. unfold ident_is, text_is.
  destruct (bool_decide_reflect (tok_kind t = KIdent)); [|done]. apply bool_decide_eq_false_2. intros E. apply H.
  by rewrite E.
Qed.

Lemma run_direction td dir tt typ rest : direction_g td dir → type_g tt typ →
  (dir = DirectionNone → ¬ starts ["in"; "out"; "inout"] tt) →
  run eof (td ++ tt ++ rest) parse_direction dir (tt ++ rest).
Proof.
  intros Hd Ht Hs. pose proof (type_length _ _ Ht). unfold parse_direction.
  destruct Hd as [|t Hi|t Hi|t Hi]; cbn [app]; rstep.
  - assert (Hw : ∀ w, w ∈ ["in"; "out"; "inout"] → ident_is w (look eof (tt ++ rest)) = false).
    { intros w Hw. eapply not_ident; [by apply Hs|done|]. by destruct tt; [cbn in *; lia|]. }
    rewrite !Hw by inl. rstep.
  - rewrite (idt_is _ _ Hi). do 2 rstep.
  - rewrite (idt_is_not _ "in" _ Hi), (idt_is _ _ Hi) by done. do 2 rstep.
  - rewrite (idt_is_not _ "in" _ Hi), (idt_is_not _ "out" _ Hi), (idt_is _ _ Hi) by done. do 2 rstep.
Qed.

Lemma run_field_body n dirs dflt anns ts f rest : field_body_g dirs dflt anns ts f →
  tok_text (look eof rest) ∈ [";"; ","; ")"] → (dflt = true → tok_text (look eof rest) ∈ [";"]) →
  (length (ts ++ rest) < n)%nat →
  run eof (ts ++ rest) (parseFieldWithAnnotations n anns dirs dflt) f rest.
Proof.
  intros [td dir tt typ x t te v Hd Ht Hx Hv Hdirs Hdflt Hann Hst] Hin Hin' Hn. unfold parseFieldWithAnnotations. rnorm.
  eapply run_bind with (ts' := tt ++ t :: te ++ rest).
  { destruct dirs; [apply (run_direction td dir tt typ); auto|]. rewrite Hdirs in * by done. inversion Hd. rstep. }
  eapply run_bind; [apply run_type; [done|solve_free|wlen]|]. rstep.
  eapply run_bind with (ts' := rest); [|rstep]. destruct dflt.
  - apply run_assign; [done|by apply Hin'|inl|wlen].
  - rewrite Hdflt in * by done. inversion Hv. rstep.
Qed.

(** The first token of a field or a member without a keyword. *)
Lemma field_body_first dirs dflt anns ts f : field_body_g dirs dflt anns ts f → ∃ y t u, ts = t :: u ∧ idt y t.
Proof.
  intros [td dir tt typ x t te v Hd Ht Hx _ _ _ Hann _]. destruct Hd; [|eauto..].
  destruct (type_first _ _ Ht) as (u & w & -> & [[y Hy]|[_ H]]); [cbn; eauto|]. by rewrite Hann in H.
Qed.

Lemma run_field n dirs dflt ts f rest : field_g dirs dflt ts f →
  tok_text (look eof rest) ∈ [";"; ","; ")"] → (dflt = true → tok_text (look eof rest) ∈ [";"]) →
  (length (ts ++ rest) < n)%nat → run eof (ts ++ rest) (parseField n dirs dflt) f rest.
Proof.
  intros (ta & anns & tb & Ha & Hf & ->) Hin Hin' Hn. unfold parseField. rnorm.
  eapply run_bind; [apply run_annotations; [done| |wlen]|apply run_field_body; [done..|wlen]].
  destruct (field_body_first _ _ _ _ _ Hf) as (y & t & u & -> & Hy). solve_free.
Qed.

Lemma run_const n anns ts c rest : const_g anns ts c → (length (ts ++ rest) < n)%nat →
  run eof (ts ++ rest) (parseConstDecl n anns) c rest.
Proof.
  intros [k tt typ x t e te v s Hk Ht Hx He Hv Hs] Hn. unfold parseConstDecl. rnorm. rstep.
  eapply run_bind; [apply run_type; [done|solve_free|wlen]|]. rstep. rstep.
  eapply run_bind; [apply run_expression; [done|eapply sym_in; [eassumption|inl]|wlen]|]. repeat rstep.
Qed.

Lemma run_method_args n ts l rest : commas (field_g true false) ts l → tok_text (look eof rest) = ")" →
  (length (ts ++ rest) < n)%nat → run eof (ts ++ rest) (method_args n) l rest.
Proof.
  intros H Hc. revert n. induction H as [ts a Ha|ts a c ts' l Ha Hc' Hl IH]; intros n Hn;
    (destruct n as [|n]; [lia|]); cbn [method_args].
  - eapply run_bind; [apply run_field; [done|rewrite Hc; inl|done|wlen]|].
    eapply run_bind; [by apply run_match_text|]. rstep.
  - rnorm. eapply run_bind; [apply run_field; [done|eapply sym_in; [eassumption|inl]|done|wlen]|]. rstep. rstep.
    pose proof (field_length _ _ _ _ Ha). eapply run_bind; [apply IH; wlen|]. rstep.
Qed.

Lemma fields_first ts l rest : commas (field_g true false) ts l → text_is ")" (look eof (ts ++ rest)) = false.
Proof.
  assert (Hf : ∀ ts f rest, field_g true false ts f → text_is ")" (look eof (ts ++ rest)) = false).
  { intros ? f r (ta & anns & tb & Ha & Hf & ->). rnorm. destruct Ha as [|u a u' l' Ha _].
    - destruct (field_body_first _ _ _ _ _ Hf) as (y & t & u & -> & Hy). tok_no.
    - destruct (annotation_first _ _ Ha) as (t & v & -> & Ht). tok_no. }
  intros []; rnorm; by eapply Hf.
Qed.

Lemma run_parse_args n ts l rest : args_g ts l → tok_text (look eof rest) = ")" → (length (ts ++ rest) < n)%nat →
  run eof (ts ++ rest) (parse_args n) l rest.
Proof.
  intros [|u l' Hl] Hc Hn; unfold parse_args.
  - eapply run_bind; [by apply run_match_text|]. rstep.
  - rno (by eapply fields_first). by apply run_method_args.
Qed.

Lemma run_oneway tw b ts rest : oneway_g tw b → (b = false → ident_is "oneway" (look eof (ts ++ rest)) = false) →
  run eof (tw ++ ts ++ rest) parse_oneway b (ts ++ rest).
Proof.
  intros [|t Ht] Hno; unfold parse_oneway, matchIdent; rstep; rstep; cbn [app].
  - rewrite Hno by done. do 2 rstep.
  - rewrite (idt_is _ _ Ht). do 3 rstep.
Qed.

Lemma run_method n anns ts m rest : method_g anns ts m → (length (ts ++ rest) < n)%nat →
  run eof (ts ++ rest) (parseMethodDecl n anns) m rest.
Proof.
  intros [tw b tt ret x t o ta args c te v s Hw Ht Hx Ho Hargs Hc Hv Hs Hcond] Hn. unfold parseMethodDecl. rnorm.
  eapply run_bind; [apply run_oneway; [done|]|].
  { intros ->. destruct (Hcond eq_refl) as [_ Hst]. eapply not_ident; [done|inl|].
    pose proof (type_length _ _ Ht). by destruct tt; [cbn in *; lia|]. }
  eapply run_bind; [apply run_type; [done|solve_free|wlen]|]. rstep. rstep.
  eapply run_bind; [apply run_parse_args; [done|apply Hc|wlen]|]. rstep.
  eapply run_bind; [apply run_assign; [done|eapply sym_in; [eassumption|inl]|inl|wlen]|]. repeat rstep.
Qed.

Lemma method_first anns ts m : method_g anns ts m →
  ∃ y t u, ts = t :: u ∧ idt y t ∧ y ∉ decl_words.
Proof.
  intros [tw b tt ret x t o ta args c te v s Hw Ht _ _ _ _ _ _ Hcond]. destruct Hw as [|w Hw].
  - destruct Hcond as [Hann Hst]; [done|]. destruct (type_first _ _ Ht) as (u & w & -> & [[y Hy]|[_ H]]); [|done].
    exists y, u. eexists. split; [done|]. split; [done|]. intros Hin. apply Hst. destruct Hy as (E & Hk & _).
    split; [done|]. rewrite E. by right.
  - exists "oneway", w. eexists. split; [done|]. split; [done|]. inl.
Qed.

(** *** Enums, unions and parcelables *)

Lemma run_enum_members n ts l rest : trailing enum_member_g ts l → tok_text (look eof rest) = "}" →
  (length (ts ++ rest) < n)%nat → run eof (ts ++ rest) (enum_members n) l rest.
Proof.
  intros H Hc. revert n. induction H as [|ts a [x t te v Hx Hv]|ts a c ts' l [x t te v Hx Hv] Hc' Hl IH]; intros n Hn;
    (destruct n as [|n]; [lia|]); cbn [enum_members]; rnorm.
  - eapply run_bind; [by apply run_match_text|]. rstep.
  - rstep. rstep. eapply run_bind; [apply run_assign; [done|rewrite Hc; inl|inl|wlen]|].
    eapply run_bind; [by apply run_match_text|]. rstep.
  - rstep. rstep. eapply run_bind; [apply run_assign; [done|eapply sym_in; [eassumption|inl]|inl|wlen]|].
    rstep. rstep. eapply run_bind; [apply IH; wlen|]. rstep.
Qed.

Lemma run_enum n anns ts d rest : enum_g anns ts d → (length (ts ++ rest) < n)%nat →
  run eof (ts ++ rest) (parseEnumDecl n anns) d rest.
Proof.
  intros [k x t o tm l c Hk Hx Ho Hl Hc] Hn. unfold parseEnumDecl. rnorm. do 3 rstep.
  eapply run_bind; [apply run_enum_members; [done|apply Hc|wlen]|]. repeat rstep.
Qed.

(** The first token of a member with its annotations. *)
Lemma member_first ta anns tb rest x : annotations_g ta anns → (∃ y t u, tb = t :: u ∧ idt y t) →
  is_identifier x = false → x ≠ "@" → text_is x (look eof (ta ++ tb ++ rest)) = false.
Proof.
  intros Ha (y & t & u & -> & Hy) Hx Hat. destruct Ha as [|u1 a u' l' Ha _]; [by eapply idt_not|].
  destruct (annotation_first _ _ Ha) as (t' & v & -> & Ht). cbn. eapply sym_not; [done|congruence].
Qed.

Lemma run_union_fields n ts l rest : many union_item ts l → tok_text (look eof rest) = "}" →
  (length (ts ++ rest) < n)%nat → run eof (ts ++ rest) (union_fields n) l rest.
Proof.
  intros H Hc. revert n. induction H as [|ts f ts' l (tf & c & Hf & Hc' & ->) Hl IH]; intros n Hn;
    (destruct n as [|n]; [lia|]); cbn [union_fields]; rnorm.
  - eapply run_bind; [by apply run_match_text|]. rstep.
  - rno (idtac).
    { destruct Hf as (ta & anns & tb & Ha & Hf & ->). rnorm. eapply member_first; [done| |done|done].
      by eapply field_body_first. }
    eapply run_bind; [apply run_field; [done|eapply sym_in; [eassumption|inl]|done|wlen]|]. rstep.
    eapply run_bind; [apply IH; wlen|]. rstep.
Qed.

Lemma run_union n anns ts d rest : union_g anns ts d → (length (ts ++ rest) < n)%nat →
  run eof (ts ++ rest) (parseUnionDecl n anns) d rest.
Proof.
  intros [k x t o tm l c Hk Hx Ho Hl Hc] Hn. unfold parseUnionDecl. rnorm. do 3 rstep.
  eapply run_bind; [apply run_union_fields; [done|apply Hc|wlen]|]. repeat rstep.
Qed.

Lemma run_type_param_names n ts l rest : commas name_g ts l → tok_text (look eof rest) = ">" →
  (length (ts ++ rest) < n)%nat → run eof (ts ++ rest) (type_param_names n) l rest.
Proof.
  intros H Hc. revert n. induction H as [ts a (t & Ht & ->)|ts a c ts' l (t & Ht & ->) Hc' Hl IH]; intros n Hn;
    (destruct n as [|n]; [lia|]); cbn [type_param_names]; rnorm; rstep.
  - eapply run_bind; [by apply run_match_text|]. rstep.
  - rstep. rstep. eapply run_bind; [apply IH; wlen|]. rstep.
Qed.

Lemma run_type_params n tp params rest : params_g tp params → (tp = [] → text_is "<" (look eof rest) = false) →
  (length (tp ++ rest) < n)%nat → run eof (tp ++ rest) (parse_type_params n) params rest.
Proof.
  intros [|o u l c Ho Hl Hc] Hno Hn; unfold parse_type_params; rnorm.
  - rno (by apply Hno). rstep.
  - rstep. unfold parseTypeParamNames. rstep.
    eapply run_bind; [apply run_type_param_names; [done|apply Hc|wlen]|]. repeat rstep.
Qed.

Lemma run_skip_header n tp th rest : header_g tp th → tok_text (look eof rest) ∈ [";"; "{"] →
  (length (th ++ rest) < n)%nat → run eof (th ++ rest) (skip_header n) tt rest.
Proof.
  intros [|t u v Hv Htp] Hin Hn; unfold skip_header; rstep.
  - replace (_ || _) with true; [rstep|]. symmetry. apply orb_true_iff. unfold text_is. rewrite !bool_decide_eq_true.
    apply elem_of_cons in Hin as [?|?%list_elem_of_singleton]; auto.
  - pose proof (expr_first _ _ _ rest ";" Hv ltac:(inl)) as E1. pose proof (expr_first _ _ _ rest "{" Hv ltac:(inl)) as E2.
    cbn [app look] in E1, E2. rewrite E1, E2. cbn [orb]. eapply run_bind; [by eapply (run_expression _ _ (t :: u))|]. rstep.
Qed.

(** A phrase that opens with the identifier [kw]. *)
Definition opens (kw : string) ts : Prop := ∃ t u, ts = t :: u ∧ idt kw t.

Lemma const_opens anns ts c : const_g anns ts c → opens "const" ts.
Proof. intros []. by do 2 eexists. Qed.
Lemma parcelable_opens anns ts d : parcelable_g anns ts d → opens "parcelable" ts.
Proof. intros []; by do 2 eexists. Qed.
Lemma enum_opens anns ts d : enum_g anns ts d → opens "enum" ts.
Proof. intros []. by do 2 eexists. Qed.
Lemma union_opens anns ts d : union_g anns ts d → opens "union" ts.
Proof. intros []. by do 2 eexists. Qed.
Lemma interface_opens anns b ts d : interface_g anns b ts d → opens "interface" ts.
Proof. intros []. by do 2 eexists. Qed.

Lemma opens_is kw ts rest y : opens kw ts → ident_is y (look eof (ts ++ rest)) = bool_decide (kw = y).
Proof.
  intros (t & u & -> & Ht). case_bool_decide; [subst; by apply idt_is|by eapply idt_is_not].
Qed.

Lemma opens_member kw ta anns tb rest x : annotations_g ta anns → opens kw tb →
  is_identifier x = false → x ≠ "@" → text_is x (look eof (ta ++ tb ++ rest)) = false.
Proof. intros Ha (t & u & -> & Ht). eapply member_first; eauto 10. Qed.

Lemma run_member_annotations n ta anns kw tb rest : annotations_g ta anns → opens kw tb →
  (length (ta ++ tb ++ rest) < n)%nat → run eof (ta ++ tb ++ rest) (parseAnnotations n) anns (tb ++ rest).
Proof. intros Ha (t & u & -> & Ht) Hn. apply run_annotations; [done|cbn; solve_free|done]. Qed.

Lemma item_first ts i rest : item_g ts i → text_is "}" (look eof (ts ++ rest)) = false.
Proof.
  intros H. inversion H as [ta anns tc c Ha Hc|ta anns tc c Ha Hc|ta anns tc c Ha Hc|ta anns tc c Ha Hc|ta anns tf f s Ha Hf]; subst; rnorm;
    [eapply opens_member; [done|by eapply const_opens|done|done]
    |eapply opens_member; [done|by eapply parcelable_opens|done|done]
    |eapply opens_member; [done|by eapply enum_opens|done|done]
    |eapply opens_member; [done|by eapply union_opens|done|done]|].
  eapply member_first; [done|by eapply field_body_first|done|done].
Qed.

(** What stands between the keyword and the body or the semicolon. *)
Lemma run_parcelable_head {B} n tn x tp params th o r (k : string → list string → ST perror (Parser tokens Z) B) b rest :
  qname_g tn x → params_g tp params → header_g tp th → tok_text o ∈ [";"; "{"] →
  (length (tn ++ tp ++ th ++ o :: r) < n)%nat → run eof (o :: r) (k x params) b rest →
  run eof (tn ++ tp ++ th ++ o :: r)
    (name ← parseQualifiedName n; params ← parse_type_params n; skip_header n;; k name params) b rest.
Proof.
  intros Hx Hp Hh Ho Hn Hk.
  assert (Hfree : ∀ y, y ∈ ["<"; "."] → tp = [] → text_is y (look eof (th ++ o :: r)) = false).
  { intros y Hy ->. destruct Hh as [|t u v _ H]; cbn; apply bool_decide_eq_false_2; [intros E; rewrite E in Ho|].
    - apply elem_of_cons in Hy as [Hy|Hy%list_elem_of_singleton]; subst y; by apply (bool_decide_pack _) in Ho.
    - destruct (H eq_refl). apply elem_of_cons in Hy as [Hy|Hy%list_elem_of_singleton]; by subst y. }
  eapply run_bind; [apply run_qname; [done| |done]|].
  { destruct tp as [|p tp]; [apply Hfree; [inl|done]|]. inversion Hp as [|? ? ? ? Hlt]; subst. tok_no. }
  eapply run_bind; [apply run_type_params; [done|intros; apply Hfree; [inl|done]|wlen]|].
  eapply run_bind; [eapply run_skip_header; [done..|wlen]|]. done.
Qed.

Ltac dispatch H :=
  rewrite !(opens_is _ _ _ _ H);
  repeat first [rewrite bool_decide_eq_true_2 by done | rewrite bool_decide_eq_false_2 by done].

Lemma run_parcelables n :
  (∀ anns ts d rest, parcelable_g anns ts d → (length (ts ++ rest) < n)%nat →
    run eof (ts ++ rest) (parseParcelableDecl n anns) d rest) ∧
  (∀ ts l rest, many item_g ts l → tok_text (look eof rest) = "}" → (length (ts ++ rest) + 1 < n)%nat →
    run eof (ts ++ rest) (parcelable_body n) l rest).
Proof.
  induction n as [|n [IHp IHb]]; [split; lia|]. split.
  - intros anns ts d rest Hd Hn. cbn [parseParcelableDecl parcelable_body];
      fold (@parseParcelableDecl tokens Z list_source) (@parcelable_body tokens Z list_source).
    inversion Hd as [? k tn x tp params th s Hk Hx Hp Hh Hs|? k tn x tp params th o tb body c Hk Hx Hp Hh Ho Hb Hc];
      subst; rnorm; rstep; pose proof (qname_length _ _ Hx).
    + eapply run_parcelable_head; [exact Hx|exact Hp|exact Hh|destruct Hs as [-> _]; inl|wlen|]. repeat rstep.
    + eapply run_parcelable_head; [exact Hx|exact Hp|exact Hh|destruct Ho as [-> _]; inl|wlen|]. rstep. rstep.
      eapply run_bind; [apply IHb; [done|apply Hc|wlen]|]. repeat rstep.
  - intros ts l rest Hl Hc Hn. cbn [parseParcelableDecl parcelable_body];
      fold (@parseParcelableDecl tokens Z list_source) (@parcelable_body tokens Z list_source).
    inversion Hl as [|u i u' l' Hi Hl']; subst; rnorm.
    { eapply run_bind; [by apply run_match_text|]. rstep. }
    rno (by eapply item_first).
    assert (Hrest : ∀ ta tc, u = ta ++ tc → (1 <= length tc)%nat → run eof (u' ++ rest) (parcelable_body n) l' rest).
    { intros ta tc -> Hlen. apply IHb; [done..|wlen]. }
    inversion Hi as [ta anns tc c' Ha Hk|ta anns tc c' Ha Hk|ta anns tc c' Ha Hk|ta anns tc c' Ha Hk|ta anns tf f s Ha Hf Hst Hs];
      subst; rnorm.
    + pose proof (const_opens _ _ _ Hk) as Ho. eapply run_bind; [by eapply run_member_annotations; [..|wlen]|]. rstep.
      dispatch Ho. rstep. eapply run_bind; [by eapply run_const; [..|wlen]|]. rstep.
      eapply run_bind; [eapply Hrest; [done|destruct Hk; wlen]|]. rstep.
    + pose proof (parcelable_opens _ _ _ Hk) as Ho. eapply run_bind; [by eapply run_member_annotations; [..|wlen]|]. rstep.
      dispatch Ho. rstep. eapply run_bind; [by eapply IHp; [..|wlen]|]. rstep.
      eapply run_bind; [eapply Hrest; [done|destruct Hk; wlen]|]. rstep.
    + pose proof (enum_opens _ _ _ Hk) as Ho. eapply run_bind; [by eapply run_member_annotations; [..|wlen]|]. rstep.
      dispatch Ho. rstep. eapply run_bind; [by eapply run_enum; [..|wlen]|]. rstep.
      eapply run_bind; [eapply Hrest; [done|destruct Hk; wlen]|]. rstep.
    + pose proof (union_opens _ _ _ Hk) as Ho. eapply run_bind; [by eapply run_member_annotations; [..|wlen]|]. rstep.
      dispatch Ho. rstep. eapply run_bind; [by eapply run_union; [..|wlen]|]. rstep.
      eapply run_bind; [eapply Hrest; [done|destruct Hk; wlen]|]. rstep.
    + destruct (field_body_first _ _ _ _ _ Hf) as (y & t & v & -> & Hy).
      eapply run_bind; [apply run_annotations; [done|cbn; solve_free|wlen]|]. rstep.
      assert (Hw : ∀ w, w ∈ decl_words → ident_is w t = false).
      { intros w Hw. by apply (not_ident (t :: v) [] decl_words). }
      rewrite !Hw by inl. rstep. change (t :: v ++ s :: u' ++ rest) with ((t :: v) ++ s :: u' ++ rest).
      eapply run_bind; [apply run_field_body; [done|eapply sym_in; [eassumption|inl]|intros _; eapply sym_in; [eassumption|inl]|wlen]|].
      repeat rstep. eapply run_bind; [eapply (Hrest ta); [done|wlen]|]. rstep.
Qed.

(** *** Interfaces and files *)

Lemma run_member n ts m rest : member_g ts m → (length (ts ++ rest) < n)%nat →
  run eof (ts ++ rest) (parseInterfaceMember n) m rest.
Proof.
  intros H Hn. unfold parseInterfaceMember.
  destruct H as [ta anns tc c Ha Hk|ta anns tc c Ha Hk|ta anns tc c Ha Hk|ta anns tc c Ha Hk|ta anns tc c Ha Hk]; rnorm.
  - pose proof (const_opens _ _ _ Hk) as Ho. eapply run_bind; [by eapply run_member_annotations; [..|wlen]|]. rstep.
    dispatch Ho. eapply run_bind; [by eapply run_const; [..|wlen]|]. rstep.
  - pose proof (parcelable_opens _ _ _ Hk) as Ho. eapply run_bind; [by eapply run_member_annotations; [..|wlen]|]. rstep.
    dispatch Ho. eapply run_bind; [by eapply run_parcelables; [..|wlen]|]. rstep.
  - pose proof (enum_opens _ _ _ Hk) as Ho. eapply run_bind; [by eapply run_member_annotations; [..|wlen]|]. rstep.
    dispatch Ho. eapply run_bind; [by eapply run_enum; [..|wlen]|]. rstep.
  - pose proof (union_opens _ _ _ Hk) as Ho. eapply run_bind; [by eapply run_member_annotations; [..|wlen]|]. rstep.
    dispatch Ho. eapply run_bind; [by eapply run_union; [..|wlen]|]. rstep.
  - destruct (method_first _ _ _ Hk) as (y & t & u & -> & Hy & Hno). 
    eapply run_bind; [apply run_annotations; [done|cbn; solve_free|wlen]|]. rstep.
    assert (Hw : ∀ w, w ∈ decl_words → ident_is w t = false).
    { intros w Hw. eapply idt_is_not; [done|]. by intros <-. }
    rewrite !Hw by inl. change (t :: u ++ rest) with ((t :: u) ++ rest).
    eapply run_bind; [by eapply run_method; [..|wlen]|]. rstep.
Qed.

Lemma member_brace ts m rest : member_g ts m → text_is "}" (look eof (ts ++ rest)) = false.
Proof.
  intros [ta anns tc c Ha Hk|ta anns tc c Ha Hk|ta anns tc c Ha Hk|ta anns tc c Ha Hk|ta anns tc c Ha Hk]; rnorm;
    [eapply opens_member; [done|by eapply const_opens|done|done]
    |eapply opens_member; [done|by eapply parcelable_opens|done|done]
    |eapply opens_member; [done|by eapply enum_opens|done|done]
    |eapply opens_member; [done|by eapply union_opens|done|done]|].
  eapply member_first; [done| |done|done]. destruct (method_first _ _ _ Hk) as (y & t & u & -> & Hy & _). eauto.
Qed.

Lemma run_interface_members n ts l rest : many member_g ts l → tok_text (look eof rest) = "}" →
  (length (ts ++ rest) < n)%nat → run eof (ts ++ rest) (interface_members n) l rest.
Proof.
  intros H Hc. revert n. induction H as [|ts m ts' l Hm Hl IH]; intros n Hn;
    (destruct n as [|n]; [lia|]); cbn [interface_members]; rnorm.
  - eapply run_bind; [by apply run_match_text|]. rstep.
  - rno (by eapply member_brace). eapply run_bind; [apply run_member; [done|wlen]|].
    assert (1 <= length ts)%nat.
    { pose proof (member_brace _ _ [mkToken "}" KIdent 0] Hm) as E. destruct ts; [done|]. cbn. lia. }
    eapply run_bind; [apply IH; wlen|]. rstep.
Qed.

Lemma run_interface n anns b ts d rest : interface_g anns b ts d → (length (ts ++ rest) < n)%nat →
  run eof (ts ++ rest) (parseInterfaceDecl n anns b) d rest.
Proof.
  intros [k x t o tm l c Hk Hx Ho Hl Hc] Hn. unfold parseInterfaceDecl. rnorm. do 3 rstep.
  eapply run_bind; [apply run_interface_members; [done|apply Hc|wlen]|]. repeat rstep.
Qed.

Lemma decl_opens anns b ts d : decl_g anns b ts d → ∃ kw, opens kw ts ∧ kw ∈ ["interface"; "parcelable"; "enum"; "union"].
Proof.
  intros [? ? H|? ? H|? ? H|? ? H]; eexists; (split; [first [by eapply interface_opens|by eapply parcelable_opens
    |by eapply enum_opens|by eapply union_opens]|inl]).
Qed.

Lemma run_top n ts d rest : top_g ts d → (length (ts ++ rest) < n)%nat → run eof (ts ++ rest) (parseTopDecl n) d rest.
Proof.
  intros [ta anns tw b td d' Ha Hw Hd] Hn. unfold parseTopDecl. rnorm.
  destruct (decl_opens _ _ _ _ Hd) as (kw & Ho & Hkw).
  eapply run_bind; [apply run_annotations; [done| |wlen]|].
  { destruct Hw as [|t Ht]; cbn [app]; [|solve_free]. destruct Ho as (t & u & -> & Ht). cbn. solve_free. }
  eapply run_bind; [apply run_oneway; [done|]|].
  { intros _. rewrite (opens_is _ _ _ _ Ho). apply bool_decide_eq_false_2. intros ->.
    by apply (bool_decide_pack _) in Hkw. }
  rstep. clear Ho Hkw kw. destruct Hd as [td e Hk|td e Hk|td e Hk|td e Hk].
  - pose proof (interface_opens _ _ _ _ Hk) as Ho. dispatch Ho.
    eapply run_bind; [by eapply run_interface; [..|wlen]|]. rstep.
  - pose proof (parcelable_opens _ _ _ Hk) as Ho. dispatch Ho.
    eapply run_bind; [by eapply run_parcelables; [..|wlen]|]. rstep.
  - pose proof (enum_opens _ _ _ Hk) as Ho. dispatch Ho.
    eapply run_bind; [by eapply run_enum; [..|wlen]|]. rstep.
  - pose proof (union_opens _ _ _ Hk) as Ho. dispatch Ho.
    eapply run_bind; [by eapply run_union; [..|wlen]|]. rstep.
Qed.

(** The first token of a declaration: none of the words that open the parts before it. *)
Lemma top_first ts d : top_g ts d → ∃ t u, ts = t :: u ∧ tok_kind t ≠ KEOF ∧
  ident_is "package" t = false ∧ ident_is "import" t = false.
Proof.
  intros [ta anns tw b td d' Ha Hw Hd]. destruct Ha as [|u a u' l' Ha _].
  - destruct Hw as [|t Ht].
    + destruct (decl_opens _ _ _ _ Hd) as (kw & (t & u & -> & Ht) & Hkw). exists t, u. split; [done|].
      assert (Hne : kw ≠ "package" ∧ kw ≠ "import") by (split; intros ->; by apply (bool_decide_pack _) in Hkw).
      destruct Hne. split_and!; [by destruct Ht as (_ & -> & _)|by eapply idt_is_not..].
    + exists t, td. split; [done|]. split_and!; [by destruct Ht as (_ & -> & _)|by eapply idt_is_not..].
  - destruct (annotation_first _ _ Ha) as (t & v & -> & [E Hk]). exists t. eexists. split; [done|].
    unfold ident_is, text_is. rewrite E. split_and!; [done|by destruct (bool_decide _)..].
Qed.

Lemma run_top_decls n ts l : many top_g ts l → (length ts < n)%nat → run eof ts (top_decls n) l [].
Proof.
  intros H. revert n. induction H as [|ts d ts' l Hd Hl IH]; intros n Hn; (destruct n as [|n]; [lia|]); cbn [top_decls].
  - rstep. rewrite bool_decide_eq_true_2 by done. rstep.
  - rstep. destruct (top_first _ _ Hd) as (t & u & E & Hk & _). rewrite E. cbn [app look].
    rewrite bool_decide_eq_false_2 by done. change (t :: u ++ ts') with ((t :: u) ++ ts'). rewrite <- E.
    eapply run_bind; [apply run_top; [done|wlen]|]. rewrite E in Hn. eapply run_bind; [apply IH; wlen|]. rstep.
Qed.

Lemma ident_no {B} x ts (k : bool → ST perror (Parser tokens Z) B) a r :
  ident_is x (look eof ts) = false → run eof ts (k false) a r → run eof ts (matchIdent x ≫= k) a r.
Proof. intros H Hk. apply run_assoc. apply run_tok. eapply run_bind; [apply run_ret|]. by rewrite H. Qed.

Lemma ident_yes {B} x t u (k : bool → ST perror (Parser tokens Z) B) a r :
  idt x t → run eof (t :: u) (k true) a r → run eof (t :: u) (matchIdent x ≫= k) a r.
Proof. intros H Hk. apply run_assoc. apply run_tok. eapply run_bind; [apply run_ret|]. cbn. by rewrite (idt_is _ _ H). Qed.

Lemma run_imports n ts l rest : many import_g ts l → ident_is "import" (look eof rest) = false →
  (length (ts ++ rest) < n)%nat → run eof (ts ++ rest) (parse_imports n) l rest.
Proof.
  intros H Hno. revert n. induction H as [|ts i ts' l [k tn x s Hk Hx Hs] Hl IH]; intros n Hn;
    (destruct n as [|n]; [lia|]); cbn [parse_imports]; rnorm.
  - apply ident_no; [done|]. rstep.
  - apply ident_yes; [done|]. rstep. eapply run_bind; [apply run_qname; [done|tok_no|wlen]|]. rstep.
    eapply run_bind; [apply IH; wlen|]. rstep.
Qed.

Lemma run_package n ts x rest : package_g ts x → ident_is "package" (look eof rest) = false →
  (length (ts ++ rest) < n)%nat → run eof (ts ++ rest) (parse_package n) x rest.
Proof.
  intros [|k tn y s Hk Hy Hs] Hno Hn; unfold parse_package; rnorm.
  - apply ident_no; [done|]. rstep.
  - apply ident_yes; [done|]. rstep. eapply run_bind; [apply run_qname; [done|tok_no|wlen]|]. repeat rstep.
Qed.

Lemma run_file n ts f : file_g ts f → (length ts < n)%nat → run eof ts (parseFile n) f [].
Proof.
  intros [tp x ti imports td decls Hp Hi Hd] Hn. unfold parseFile.
  assert (Htd : ident_is "package" (look eof td) = false ∧ ident_is "import" (look eof td) = false).
  { destruct Hd as [|u d u' l Hd _]; [done|]. by destruct (top_first _ _ Hd) as (t & v & -> & _ & ? & ?). }
  destruct Htd as [Htp Hti]. eapply run_bind; [apply run_package; [done| |done]|].
  { destruct Hi as [|u i u' l [k tn y s Hk _ _] _]; [done|]. by eapply idt_is_not. }
  eapply run_bind; [apply run_imports; [done..|wlen]|].
  eapply run_bind; [apply run_top_decls; [done|wlen]|]. rstep.
Qed.
End Phrases.

(** ** The parser and the grammar *)

Lemma Parse_file n ts eof :
  Parse (O:=tokens) (R:=Z) n ts eof = (parseFile n (st eof ts)).1.
Proof. unfold Parse, mbind, ST_bind, next. cbn. by destruct ts. Qed.

Lemma Parse_grammar_ok n ts eof : Forall real ts → (length ts < n)%nat →
  (∀ f, Parse n ts eof = Ok f ↔ file_g ts f) ∧
  match Parse n ts eof with Ok _ => True | Err e => e ≠ OutOfFuel | Panic _ => False end.
Proof.
  intros Hr Hn. rewrite Parse_file. pose proof (file_spec eof n ts Hr Hn) as H. unfold wp in H.
  split; [intros f; split|].
  - intros E. destruct (parseFile n (st eof ts)) as [[g|e|w] s]; cbn in *; [|done..].
    injection E as ->. by destruct H as (ts' & _ & ? & _).
  - intros Hf. by rewrite (run_file eof n ts f Hf Hn).
  - by destruct (parseFile n (st eof ts)) as [[g|e|w] s].
Qed.
