(* ===== verification/TextScanner.v ===== *)
(** * TextScanner: Go's text/scanner, as the AIDL parser configures it

    The token source of src/internal/aidl/parser/parser.go: a
    text/scanner.Scanner over a strings.Reader, with the Mode that [Parse] sets
    (identifiers, integers, floats, strings, comments skipped), for ASCII input.
    The scanner reads the source through a buffer of 1024 bytes; the bytes not yet
    buffered belong to the reader, which copies of the scanner share.  Scanning
    errors (an unterminated string, a malformed number) are only printed to
    standard error by the library, so they have no place here. *)

From stdpp Require Import base list numbers strings pretty.
From S2P Require Import Prelude Aidl AidlGrammar.

Open Scope Z_scope.

(** [sc_ch] is the character after the last token: -1 at the end of the source,
    -2 before the first read; [sc_buf] what the buffer still holds after it;
    [sc_read] the number of bytes taken from the buffer. *)
Record scanner := mkScanner { sc_buf : list Z; sc_ch : Z; sc_read : Z }.
Abbreviation reader := (list Z).

Definition bufLen : nat := 1024.

Definition eof_ch : Z := -1.

(** [Scanner.next]: the next character, refilling the buffer when it is empty. *)
Definition next_ch (s : scanner) (r : reader) : scanner * reader :=
  match sc_buf s with
  | c :: buf => (mkScanner buf c (sc_read s + 1), r)
  | [] =>
      match take bufLen r with
      | c :: buf => (mkScanner buf c (sc_read s + 1), drop bufLen r)
      | [] => (mkScanner [] eof_ch (sc_read s), r)
      end
  end.

(** A state, its reader, and the text collected for the token, reversed. *)
Definition scan_state : Type := scanner * reader * list Z.

Definition advance (x : scan_state) : scan_state :=
  let '(s, r, text) := x in let '(s', r') := next_ch s r in (s', r', sc_ch s :: text).
Definition discard (x : scan_state) : scan_state :=
  let '(s, r, text) := x in let '(s', r') := next_ch s r in (s', r', text).
Definition ch (x : scan_state) : Z := sc_ch x.1.1.
Definition collected (x : scan_state) : list Z := x.2.

(** Read characters while they satisfy [p]. *)
Fixpoint scan_while (n : nat) (p : Z → bool) (step : scan_state → scan_state) (x : scan_state) : scan_state :=
  match n with
  | 0%nat => x
  | S n' => if p (ch x) then scan_while n' p step (step x) else x
  end.

Definition between (a b c : Z) : bool := (a <=? c) && (c <=? b).
Definition isLetter (c : Z) : bool := between 65 90 c || between 97 122 c || (c =? 95).
Definition isDecimal (c : Z) : bool := between 48 57 c.
Definition isHex (c : Z) : bool := between 48 57 c || between 97 102 (Z.lor c 32).
Definition isWhite (c : Z) : bool := (c =? 9) || (c =? 10) || (c =? 13) || (c =? 32).

Definition isIdentPart (c : Z) : bool := isLetter c || isDecimal c.

Definition lower_ch (c : Z) : Z := if c <? 0 then c else Z.lor c 32.

(** [digits]: digits of the base and separators. *)
Definition scan_digits (n : nat) (hex : bool) (x : scan_state) : scan_state :=
  scan_while n (λ c, (if hex then isHex c else isDecimal c) || (c =? 95)) advance x.

(** [scanNumber]: the token's kind and the state after it. *)
Definition scan_number (n : nat) (seenDot : bool) (x : scan_state) : kind * scan_state :=
  let '(hex, x1, dot) :=
    if seenDot then (false, x, true)
    else
      let '(hex, x1) :=
        if ch x =? 48 then
          let x1 := advance x in
          if lower_ch (ch x1) =? 120 then (true, advance x1)
          else if (lower_ch (ch x1) =? 111) || (lower_ch (ch x1) =? 98) then (false, advance x1)
          else (false, x1)
        else (false, x) in
      let x2 := scan_digits n hex x1 in
      if ch x2 =? 46 then (hex, advance x2, true) else (hex, x2, false) in
  let x2 := if dot then scan_digits n hex x1 else x1 in
  let e := lower_ch (ch x2) in
  if (e =? 101) || (e =? 112) then
    let x3 := advance x2 in
    let x4 := if (ch x3 =? 43) || (ch x3 =? 45) then advance x3 else x3 in
    (KFloat, scan_digits n false x4)
  else (if dot then KFloat else KInt, x2).

(** [scanString]: up to the closing quote; a backslash keeps the quote or the
    backslash after it in the string (the other escapes are made of ordinary
    characters).  An unterminated string ends before the newline. *)
Fixpoint scan_string (n : nat) (x : scan_state) : scan_state :=
  match n with
  | 0%nat => x
  | S n' =>
      if (ch x =? 34) || (ch x =? 10) || (ch x <? 0) then x
      else if ch x =? 92 then
        let x1 := advance x in
        scan_string n' (if (ch x1 =? 92) || (ch x1 =? 34) then advance x1 else x1)
      else scan_string n' (advance x)
  end.

(** [scanComment], after the two opening characters; nothing is collected. *)
Fixpoint skip_block (n : nat) (x : scan_state) : scan_state :=
  match n with
  | 0%nat => x
  | S n' =>
      if ch x <? 0 then x
      else
        let x1 := discard x in
        if (ch x =? 42) && (ch x1 =? 47) then discard x1 else skip_block n' x1
  end.
Definition skip_comment (n : nat) (x : scan_state) : scan_state :=
  if ch x =? 47 then scan_while n (λ c, negb (c =? 10) && negb (c <? 0)) discard (discard x)
  else skip_block n (discard x).

(** One turn of [Scan] after white space: [None] when it skipped a comment. *)
Definition scan_token (n : nat) (x : scan_state) : option kind * scan_state :=
  let c := ch x in
  if isLetter c then (Some KIdent, scan_while n isIdentPart advance (advance x))
  else if isDecimal c then let '(k, x') := scan_number n false x in (Some k, x')
  else if c <? 0 then (Some KEOF, x)
  else if c =? 34 then
    let x1 := scan_string n (advance x) in
    (* the closing quote, or whatever ended the string *)
    (Some KString, if ch x1 <? 0 then x1 else advance x1)
  else if c =? 46 then
    let x1 := advance x in
    if isDecimal (ch x1) then let '(k, x') := scan_number n true x1 in (Some k, x') else (Some (KChar c), x1)
  else if c =? 47 then
    let x1 := advance x in
    if (ch x1 =? 47) || (ch x1 =? 42) then (None, skip_comment n x1) else (Some (KChar c), x1)
  else (Some (KChar c), advance x).

Fixpoint scan_loop (n : nat) (fuel : nat) (s : scanner) (r : reader) : option kind * scan_state :=
  match n with
  | 0%nat => (None, (s, r, []))
  | S n' =>
      let '(s1, r1, _) := scan_while fuel isWhite discard (s, r, []) in
      match scan_token fuel (s1, r1, []) with
      | (Some k, x) => (Some k, x)
      | (None, (s2, r2, _)) => scan_loop n' fuel s2 r2
      end
  end.

Definition string_of_bytes (l : list Z) : string :=
  String.string_of_list_ascii (map (λ z, Ascii.ascii_of_nat (Z.to_nat z)) l).

(** [Peek]: read the first character. *)
Definition prime (s : scanner) (r : reader) : scanner * reader :=
  if sc_ch s =? -2 then next_ch s r else (s, r).

(** Bytes left, one more than enough turns for every loop above. *)
Definition scan_fuel (s : scanner) (r : reader) : nat := (length (sc_buf s) + length r + 2)%nat.

(** [Pos().Offset]: what was read but for the character in [sc_ch]. *)
Definition offset (s : scanner) : Z := if sc_ch s <? 0 then sc_read s else sc_read s - 1.

Definition text_Scan (s : scanner) (r : reader) : token * scanner * reader :=
  let '(s0, r0) := prime s r in
  let n := scan_fuel s0 r0 in
  let '(k, (s', r', text)) := scan_loop n n s0 r0 in
  (mkToken (string_of_bytes (reverse text)) (default KEOF k) (offset s'), s', r').

#[export] Instance text_scanner : TokenSource scanner reader := { Scan := text_Scan }.

(** [Scanner.Init]. *)
Definition init_scanner : scanner := mkScanner [] (-2) 0.

(** [Parse] on a source text. *)
Definition Parse_source (src : string) : result perror File :=
  let bytes := bytes_of src in
  Parse (length bytes + 2) init_scanner bytes.
