(* ===== verification/TextScannerFacts.v ===== *)
(** * TextScannerFacts: the tokens of a source text

    Once the reader is exhausted, the scanner of TextScanner turns the rest of the
    source into finitely many real tokens and then reports its end for ever; and the
    parser of Aidl cannot tell such a scanner from the list of its tokens. *)

From stdpp Require Import base list numbers strings pretty.
From S2P Require Import Prelude Aidl AidlGrammar AidlSound AidlComplete TextScanner.

Open Scope Z_scope.

(** ** The scanner with everything in its buffer *)

(** [N] bytes in all; the end was reported only when nothing is left. *)
Definition inv (N : Z) (s : scanner) : Prop :=
  sc_read s + len (sc_buf s) = N ∧ Forall (λ c, 0 <= c) (sc_buf s) ∧
  (sc_ch s = eof_ch ∧ sc_buf s = [] ∨ 0 <= sc_ch s).

(** The characters that are still to come, the one in [sc_ch] included. *)
Definition size (s : scanner) : nat := (length (sc_buf s) + if (sc_ch s <? 0)%Z then 0 else 1)%nat.

Definition good (N : Z) (x : scan_state) : Prop := inv N x.1.1 ∧ x.1.2 = [].
Definition xsize (x : scan_state) : nat := size x.1.1.

Lemma next_ch_inv N s : inv N s → ∃ s', next_ch s [] = (s', []) ∧ inv N s' ∧ size s' = Nat.pred (size s).
Proof.
  intros (Hn & Hf & Hc). unfold next_ch. destruct (sc_buf s) as [|c buf] eqn:E; cbn.
  - eexists. split; [done|]. split; [by split_and!; [..|left]|]. unfold size. rewrite E. cbn. by destruct (_ <? 0).
  - apply Forall_cons in Hf as [H0 Hf]. destruct Hc as [[_ ?]|Hc]; [done|].
    eexists. split; [done|]. unfold inv, size. rewrite E. cbn [sc_read sc_buf sc_ch length].
    rewrite !(proj2 (Z.ltb_ge _ _)) by lia. cbn [length] in Hn. split; [split_and!; [lia|done|by right]|lia].
Qed.

Section Steps.
Context (N : Z).
Implicit Types x : scan_state.

(** [f] keeps the state good and reads at most to the end. *)
Definition reads (f : scan_state → scan_state) : Prop := ∀ x, good N x → good N (f x) ∧ (xsize (f x) <= xsize x)%nat.

Lemma advance_step x : good N x → good N (advance x) ∧ xsize (advance x) = Nat.pred (xsize x).
Proof.
  destruct x as [[s r] t]. intros [H Hr]. cbn in Hr. subst r. destruct (next_ch_inv N s H) as (s' & E & Hi & Hs).
  unfold advance, xsize. rewrite E. done.
Qed.
Lemma discard_step x : good N x → good N (discard x) ∧ xsize (discard x) = Nat.pred (xsize x).
Proof.
  destruct x as [[s r] t]. intros [H Hr]. cbn in Hr. subst r. destruct (next_ch_inv N s H) as (s' & E & Hi & Hs).
  unfold discard, xsize. rewrite E. done.
Qed.
Lemma advance_reads : reads advance.
Proof. intros x H. destruct (advance_step x H) as [? ->]. split; [done|lia]. Qed.
Lemma discard_reads : reads discard.
Proof. intros x H. destruct (discard_step x H) as [? ->]. split; [done|lia]. Qed.

Lemma compose_reads f g : reads f → reads g → reads (λ x, g (f x)).
Proof. intros Hf Hg x [H1 H2]%Hf. apply Hg in H1 as [H1 H3]. split; [done|lia]. Qed.

Lemma if_reads (b : scan_state → bool) f g : reads f → reads g → reads (λ x, if b x then f x else g x).
Proof. intros Hf Hg x Hx. destruct (b x); auto. Qed.

Lemma id_reads : reads (λ x, x).
Proof. intros x H. auto. Qed.

Lemma scan_while_reads n p step : reads step → reads (scan_while n p step).
Proof.
  intros Hs. induction n as [|n IH]; intros x Hx; cbn [scan_while]; [auto|]. destruct (p _); [|auto].
  apply Hs in Hx as [Hx ?]. apply IH in Hx as [? ?]. split; [done|lia].
Qed.

Lemma scan_string_reads n : reads (scan_string n).
Proof.
  induction n as [|n IH]; intros x Hx; cbn [scan_string]; [auto|]. destruct (_ || _); [auto|].
  apply advance_reads in Hx as [H1 ?]. destruct (ch x =? 92); [|apply IH in H1 as [? ?]; split; [done|lia]].
  destruct (_ || _); [apply advance_reads in H1 as [H1 ?]|]; apply IH in H1 as [? ?]; (split; [done|lia]).
Qed.

Lemma skip_block_reads n : reads (skip_block n).
Proof.
  induction n as [|n IH]; intros x Hx; cbn [skip_block]; [auto|]. destruct (_ <? 0); [auto|].
  apply discard_reads in Hx as [H1 ?]. destruct (_ && _); [apply discard_reads in H1 as [? ?]|apply IH in H1 as [? ?]];
    (split; [done|lia]).
Qed.

Lemma skip_comment_reads n : reads (skip_comment n).
Proof.
  apply (if_reads (λ x, ch x =? 47)).
  - apply (compose_reads discard); [apply discard_reads|]. apply scan_while_reads, discard_reads.
  - apply (compose_reads discard); [apply discard_reads|]. apply skip_block_reads.
Qed.

Lemma scan_digits_reads n hex : reads (scan_digits n hex).
Proof. apply scan_while_reads, advance_reads. Qed.

(** A digit in front is read. *)
Lemma scan_digits_first n hex x : good N x → isDecimal (ch x) = true → (0 < n)%nat →
  good N (scan_digits n hex x) ∧ (xsize (scan_digits n hex x) <= Nat.pred (xsize x))%nat.
Proof.
  intros Hx Hd Hn. destruct n as [|n]; [lia|]. unfold scan_digits. cbn [scan_while].
  replace (_ || _) with true; [|unfold isHex, isDecimal in *; destruct hex; by rewrite Hd].
  destruct (advance_step x Hx) as [H1 <-]. by apply (scan_while_reads n _ advance advance_reads).
Qed.

Lemma live x : good N x → 0 <= ch x → (0 < xsize x)%nat.
Proof. intros _ H. unfold xsize, size, ch in *. rewrite (proj2 (Z.ltb_ge _ _)) by done. lia. Qed.

(** [x'] is a good state with fewer characters to come than [x]. *)
Definition shrunk x x' : Prop := good N x' ∧ (xsize x' < xsize x)%nat.

Lemma consumed_reads f x x' : reads f → shrunk x x' → shrunk x (f x').
Proof. intros Hf [H1 H2]. apply Hf in H1 as [? ?]. split; [done|lia]. Qed.

Lemma advance_consumed x : good N x → 0 <= ch x → shrunk x (advance x).
Proof. intros Hx H. destruct (advance_step x Hx) as [? E]. split; [done|]. rewrite E. pose proof (live x Hx H). lia. Qed.

(** After the integer part, or after the dot. *)
Definition number_tail (n : nat) (hex dot : bool) (x : scan_state) : kind * scan_state :=
  let x2 := if dot then scan_digits n hex x else x in
  let e := lower_ch (ch x2) in
  if (e =? 101) || (e =? 112) then
    let x3 := advance x2 in
    let x4 := if (ch x3 =? 43) || (ch x3 =? 45) then advance x3 else x3 in
    (KFloat, scan_digits n false x4)
  else (if dot then KFloat else KInt, x2).

Lemma number_tail_reads n hex dot : reads (λ x, (number_tail n hex dot x).2).
Proof.
  intros x Hx. unfold number_tail.
  assert (H2 : good N (if dot then scan_digits n hex x else x) ∧
    (xsize (if dot then scan_digits n hex x else x) <= xsize x)%nat) by (destruct dot; [by apply scan_digits_reads|auto]).
  destruct H2 as [H2 ?]. destruct (_ || _); cbn; [|auto].
  apply advance_reads in H2 as [H3 ?]. destruct (_ || _); [apply advance_reads in H3 as [H3 ?]|];
    apply (scan_digits_reads n false) in H3 as [? ?]; (split; [done|lia]).
Qed.

Lemma number_kind n hex dot x : (number_tail n hex dot x).1 = KInt ∨ (number_tail n hex dot x).1 = KFloat.
Proof. unfold number_tail. destruct (_ || _), dot; auto. Qed.

Lemma scan_number_spec n x x0 seenDot : (0 < n)%nat → good N x → isDecimal (ch x) = true →
  (seenDot = true → shrunk x0 x) → (seenDot = false → x0 = x) →
  shrunk x0 (scan_number n seenDot x).2 ∧ ((scan_number n seenDot x).1 = KInt ∨ (scan_number n seenDot x).1 = KFloat).
Proof.
  intros Hn Hx Hd Hdot Hno.
  assert (0 <= ch x) by (unfold isDecimal, between in Hd; bools; lia).
  assert (∃ hex dot x1, scan_number n seenDot x = number_tail n hex dot x1 ∧ shrunk x0 x1) as (hex & dot & x1 & -> & H1).
  { unfold scan_number. destruct seenDot; [exists false, true, x; auto|]. rewrite Hno in * by done.
    destruct (ch x =? 48) eqn:E0.
    - pose proof (advance_consumed x Hx ltac:(done)) as Ha.
      destruct (lower_ch (ch (advance x)) =? 120).
      + apply (consumed_reads advance), (consumed_reads (scan_digits n true)) in Ha; [|apply scan_digits_reads|apply advance_reads].
        destruct (_ =? 46); [exists true, true|exists true, false]; eexists; (split; [done|]); [|done].
        by apply consumed_reads; [apply advance_reads|].
      + destruct (_ || _); [apply (consumed_reads advance) in Ha; [|apply advance_reads]|];
          (apply (consumed_reads (scan_digits n false)) in Ha; [|apply scan_digits_reads]);
          (destruct (_ =? 46); [exists false, true|exists false, false]; eexists; (split; [done|]); [|done]);
          (by apply consumed_reads; [apply advance_reads|]).
    - destruct (scan_digits_first n false x Hx Hd Hn) as [H1 H2].
      assert (Ha : shrunk x (scan_digits n false x)) by (split; [done|]; pose proof (live x Hx ltac:(done)); lia).
      destruct (_ =? 46); [exists false, true|exists false, false]; eexists; (split; [done|]); [|done].
      by apply consumed_reads; [apply advance_reads|]. }
  split; [|apply number_kind]. by apply (consumed_reads (λ x, (number_tail n hex dot x).2)); [apply number_tail_reads|].
Qed.

(** *** Identifiers *)

Lemma collected_while n p x : Forall (λ c, p c = true) (collected x) → Forall (λ c, p c = true) (collected (scan_while n p advance x)).
Proof.
  revert x. induction n as [|n IH]; intros x Hx; cbn [scan_while]; [done|]. destruct (p (ch x)) eqn:E; [|done].
  apply IH. destruct x as [[s r] t]. unfold advance, ch in *. destruct (next_ch s r). by constructor.
Qed.

Lemma while_suffix n p x : ∃ l, collected (scan_while n p advance x) = l ++ collected x.
Proof.
  revert x. induction n as [|n IH]; intros x; cbn [scan_while]; [by exists []|]. destruct (p _); [|by exists []].
  destruct (IH (advance x)) as [l ->]. destruct x as [[s r] t]. unfold advance. destruct (next_ch s r).
  exists (l ++ [sc_ch s]). cbn. by rewrite <- app_assoc.
Qed.

Lemma ident_byte c : isIdentPart c = true → ident_char (Ascii.ascii_of_nat (Z.to_nat c)) = true.
Proof.
  unfold isIdentPart, isLetter, isDecimal, between, ident_char, ident_start. intros H.
  assert (48 <= c <= 122) by (bools; lia). rewrite Ascii.nat_ascii_embedding by lia.
  rewrite !orb_true_iff, !andb_true_iff, !Nat.leb_le, Nat.eqb_eq. bools; lia.
Qed.

Lemma letter_byte c : isLetter c = true → ident_start (Ascii.ascii_of_nat (Z.to_nat c)) = true.
Proof.
  unfold isLetter, between, ident_start. intros H.
  assert (65 <= c <= 122) by (bools; lia). rewrite Ascii.nat_ascii_embedding by lia.
  rewrite !orb_true_iff, !andb_true_iff, !Nat.leb_le, Nat.eqb_eq. bools; lia.
Qed.

Lemma identifier_text n s r : isLetter (sc_ch s) = true →
  is_identifier (string_of_bytes (reverse (collected (scan_while n isIdentPart advance (advance (s, r, [])))))) = true.
Proof.
  intros Hl. set (x := advance (s, r, [])). assert (Hx : collected x = [sc_ch s]) by (unfold x, advance; by destruct (next_ch s r)).
  destruct (while_suffix n isIdentPart x) as [l El].
  pose proof (collected_while n isIdentPart x) as Hall. rewrite El, Hx in *. rewrite reverse_app. cbn.
  assert (Hl' : Forall (λ c, isIdentPart c = true) l).
  { apply Forall_app in Hall as [? _]; [done|]. constructor; [|done]. unfold isIdentPart. by rewrite Hl. }
  unfold string_of_bytes. cbn. rewrite letter_byte by done. cbn. rewrite String.list_ascii_of_string_of_list_ascii.
  apply forallb_forall. intros c. rewrite in_map_iff. intros (z & <- & Hz). apply ident_byte.
  rewrite List.Forall_forall in Hl'. apply Hl'. apply list_elem_of_In. apply elem_of_reverse. by apply list_elem_of_In.
Qed.

Lemma scan_token_spec n s : (0 < n)%nat → good N (s, [], []) →
  match scan_token n (s, [], []) with
  | (Some KEOF, x') => x' = (s, [], []) ∧ sc_ch s < 0
  | (Some k, x') => shrunk (s, [], []) x' ∧
      (k = KIdent → is_identifier (string_of_bytes (reverse (collected x'))) = true)
  | (None, x') => shrunk (s, [], []) x'
  end.
Proof.
  intros Hn Hx. unfold scan_token. set (x := (s, [], [])) in *. change (sc_ch s) with (ch x).
  destruct (isLetter (ch x)) eqn:E1.
  { assert (0 <= ch x) by (unfold isLetter, between in E1; bools; lia).
    split; [|intros _; by apply identifier_text].
    apply consumed_reads; [apply scan_while_reads, advance_reads|by apply advance_consumed]. }
  destruct (isDecimal (ch x)) eqn:E2.
  { destruct (scan_number_spec n x x false Hn Hx E2) as [H1 H2]; [done..|].
    destruct (scan_number n false x) as [k x']. cbn in *. destruct H2; subst; by split. }
  destruct (ch x <? 0) eqn:E3; [bools; done|]. assert (H0 : 0 <= ch x) by (bools; lia).
  pose proof (advance_consumed x Hx H0) as Ha. destruct (ch x =? 34).
  { split; [|done]. apply (consumed_reads (scan_string n)) in Ha; [|apply scan_string_reads].
    destruct (ch (scan_string n (advance x)) <? 0); [done|]. by apply consumed_reads; [apply advance_reads|]. }
  destruct (ch x =? 46).
  { destruct (isDecimal (ch (advance x))) eqn:E4; [|by split].
    destruct (scan_number_spec n (advance x) x true Hn ltac:(apply Ha) E4) as [H1 H2]; [done..|].
    destruct (scan_number n true (advance x)) as [k x']. cbn in *. destruct H2; subst; by split. }
  destruct (ch x =? 47); [|by split]. destruct (_ || _); [|by split].
  by apply (consumed_reads (skip_comment n)); [apply skip_comment_reads|].
Qed.
End Steps.

(** ** The whole token *)

Definition end_scanner (N : Z) : scanner := mkScanner [] eof_ch N.

Lemma inv_end N s : inv N s → sc_ch s < 0 → s = end_scanner N.
Proof.
  destruct s as [buf c k]. intros (Hn & _ & [[Hc Hb]|Hc]) H; cbn in *; [|lia]. subst. unfold end_scanner. f_equal. cbn. lia.
Qed.

Lemma scan_loop_spec N n fuel s : (0 < fuel)%nat → inv N s → (size s < n)%nat →
  match scan_loop n fuel s [] with
  | (Some KEOF, x) => x = (end_scanner N, [], [])
  | (Some k, x) => shrunk N (s, [], []) x ∧ (k = KIdent → is_identifier (string_of_bytes (reverse (collected x))) = true)
  | (None, _) => False
  end.
Proof.
  intros Hfuel. revert s. induction n as [|n IH]; intros s Hs Hn; [lia|]. cbn [scan_loop].
  pose proof (scan_while_reads N fuel isWhite discard (discard_reads N) (s, [], []) (conj Hs eq_refl)) as [[H1 H2] H3].
  destruct (scan_while fuel isWhite discard (s, [], [])) as [[s1 r1] t1]. cbn in H1, H2, H3. subst r1.
  assert (Hx : ∀ x, shrunk N (s1, [], []) x → shrunk N (s, [], []) x).
  { intros x [? ?]. split; [done|]. unfold xsize in *. cbn in *. lia. }
  pose proof (scan_token_spec N fuel s1 Hfuel (conj H1 eq_refl)) as Ht.
  destruct (scan_token fuel (s1, [], [])) as [[[| | | | |c]|] x] eqn:E;
    try (destruct Ht as [Ht ?]; split; [by apply Hx|done]).
  - destruct Ht as [-> Hc]. by rewrite (inv_end N s1).
  - destruct x as [[s2 r2] t2]. destruct Ht as [[H4 H5] H6]. cbn in H4, H5. unfold xsize in H6, H3. cbn in H6, H3. subst r2.
    specialize (IH s2 H4 ltac:(lia)). destruct (scan_loop n fuel s2 []) as [[[| | | | |c]|] y]; try done;
      (destruct IH as [[H7 H8] ?]; split; [|done]; split; [done|]; unfold xsize in *; cbn in *; lia).
Qed.

Lemma text_Scan_spec N s : inv N s → ∃ t s', text_Scan s [] = (t, s', []) ∧ inv N s' ∧
  (t = mkToken "" KEOF N ∧ s' = end_scanner N ∨ real t ∧ (size s' < size s)%nat).
Proof.
  intros Hs. unfold text_Scan, prime. rewrite (proj2 (Z.eqb_neq (sc_ch s) (-2))) by (destruct Hs as (_ & _ & [[Hc _]|]); unfold eof_ch in *; lia).
  set (n := scan_fuel s []). pose proof (scan_loop_spec N n n s) as H.
  assert (Hn0 : (0 < n)%nat) by (unfold n, scan_fuel; lia).
  assert (Hsz : (size s < n)%nat) by (unfold n, scan_fuel, size; cbn; destruct (_ <? _); lia).
  specialize (H ltac:(done) Hs ltac:(done)). destruct (scan_loop n n s []) as [[[| | | | |c]|] [[s' r'] text]]; cbn in H.
  5: { injection H as -> -> ->. eexists _, _. split; [done|]. split; [|by left].
       unfold inv, end_scanner. cbn. split_and!; [lia|done|by left]. }
  6: done.
  all: destruct H as [[[H1 H2] H3] Hi]; cbn in H2; subst r'; eexists _, _; (split; [done|]); (split; [done|]); right;
    (split; [|done]); (split; [done|]); cbn; intros Hk; by apply Hi.
Qed.

Lemma text_Scan_end N : text_Scan (end_scanner N) [] = (mkToken "" KEOF N, end_scanner N, []).
Proof. done. Qed.

(** The tokens of the buffer. *)
Fixpoint scan_all (n : nat) (s : scanner) : tokens :=
  match n with
  | 0%nat => []
  | S n' => let '(t, s', _) := text_Scan s [] in
            if bool_decide (tok_kind t = KEOF) then [] else t :: scan_all n' s'
  end.

(** ** Any source of the same tokens parses alike *)

Create HintDb alike.

Section Yields.
Context {O R : Type} `{TS : !TokenSource O R} (r : R) (eof : Z).

(** The scanner [o] with the shared reader [r] produces [ts] and then the end,
    without touching the reader. *)
Inductive yields : O → tokens → Prop :=
| yields_end o o' : Scan o r = (mkToken "" KEOF eof, o', r) → Scan o' r = (mkToken "" KEOF eof, o', r) → yields o []
| yields_tok o t o' ts : Scan o r = (t, o', r) → yields o' ts → yields o (t :: ts).

Lemma yields_scan o ts : yields o ts → ∃ o', Scan o r = (look eof ts, o', r) ∧ yields o' (tail ts).
Proof. intros [o1 o2 H1 H2|o1 t o2 u H1 H2]; eexists; (split; [done|]); [by apply (yields_end o2 o2)|done]. Qed.

Definition linked (p : Parser O R) (ts : tokens) : Prop :=
  p_tok p = look eof ts ∧ p_reader p = r ∧ yields (p_s p) (tail ts).

Definition alike {A} (m1 : ST perror (Parser O R) A) (m2 : ST perror (Parser tokens Z) A) : Prop :=
  ∀ p ts, linked p ts →
    match m1 p, m2 (st eof ts) with
    | (Ok a, p'), (Ok b, q) => a = b ∧ ∃ ts', q = st eof ts' ∧ linked p' ts'
    | (Err e, _), (Err e', _) => e = e'
    | (Panic w, _), (Panic w', _) => w = w'
    | _, _ => False
    end.

Lemma alike_ret {A} (a : A) : alike (mret a) (mret a).
Proof. intros p ts H. cbn. eauto. Qed.

Lemma alike_fail {A} e : alike (A:=A) (fail e) (fail e).
Proof. by intros p ts H. Qed.

Lemma alike_bind {A B} (m1 : ST perror (Parser O R) A) m2 (k1 : A → ST perror (Parser O R) B) k2 :
  alike m1 m2 → (∀ a, alike (k1 a) (k2 a)) → alike (m1 ≫= k1) (m2 ≫= k2).
Proof.
  intros Hm Hk p ts H. specialize (Hm p ts H). unfold mbind, ST_bind.
  destruct (m1 p) as [[a|e|w] p'], (m2 (st eof ts)) as [[b|e'|w'] q]; try done.
  destruct Hm as [<- (ts' & -> & Hl)]. by apply Hk.
Qed.

Lemma alike_tok : alike tok tok.
Proof. intros p ts H. cbn. split; [apply H|eauto]. Qed.

Lemma next_st ts : next (st eof ts) = (Ok tt, st eof (tail ts)).
Proof. by destruct ts as [|t [|u ts]]. Qed.

Lemma peek_st ts : peek (st eof ts) = (Ok (look eof (tail ts)), st eof ts).
Proof. by destruct ts as [|t [|u ts]]. Qed.

Lemma alike_next : alike next next.
Proof.
  intros p ts (H1 & H2 & H3). rewrite next_st. unfold next. destruct (yields_scan _ _ H3) as (o' & E & Ho).
  rewrite H2, E. split; [done|]. by exists (tail ts).
Qed.

Lemma alike_peek : alike peek peek.
Proof.
  intros p ts (H1 & H2 & H3). rewrite peek_st. unfold peek. destruct (yields_scan _ _ H3) as (o' & E & Ho).
  rewrite H2, E. split; [done|]. by exists ts.
Qed.

#[local] Hint Resolve alike_ret alike_fail alike_tok alike_next alike_peek : alike.

(** Both parsers run the same code: follow its structure. *)
Ltac alike :=
  repeat first
    [ solve [auto with alike]
    | apply alike_bind; [|intros ?]
    | match goal with
      | |- alike (if ?b then _ else _) _ => destruct b
      | |- alike (match ?x with _ => _ end) _ => destruct x
      end ].
(** The same for a definition, or for a loop by induction on its fuel. *)
Ltac alike_def f := intros; unfold f; alike.
Ltac alike_loop n := induction n as [|n IH]; [apply alike_fail|cbn; alike].

Lemma alike_match x : alike (match_ x) (match_ x). Proof. alike_def @match_. Qed.
Lemma alike_matchIdent x : alike (matchIdent x) (matchIdent x). Proof. alike_def @matchIdent. Qed.
Lemma alike_unexpected {A} x : alike (A:=A) (unexpected x) (unexpected x). Proof. alike_def @unexpected. Qed.
#[local] Hint Resolve alike_match alike_matchIdent alike_unexpected : alike.

Lemma alike_expect x : alike (expect x) (expect x). Proof. alike_def @expect. Qed.
Lemma alike_name : alike parseName parseName. Proof. alike_def @parseName. Qed.
#[local] Hint Resolve alike_expect alike_name : alike.

Lemma alike_name_parts n : alike (name_parts n) (name_parts n). Proof. alike_loop n. Qed.
#[local] Hint Resolve alike_name_parts : alike.
Lemma alike_qname n : alike (parseQualifiedName n) (parseQualifiedName n). Proof. alike_def @parseQualifiedName. Qed.

Lemma alike_expression_tokens n stops d : alike (expression_tokens n stops d) (expression_tokens n stops d).
Proof. revert d. induction n as [|n IH]; intros d; [apply alike_fail|cbn; alike]. Qed.
#[local] Hint Resolve alike_qname alike_expression_tokens : alike.
Lemma alike_expression n stops : alike (parseExpression n stops) (parseExpression n stops).
Proof. alike_def @parseExpression. Qed.
#[local] Hint Resolve alike_expression : alike.
Lemma alike_assign n stops : alike (parse_assign n stops) (parse_assign n stops). Proof. alike_def @parse_assign. Qed.
Lemma alike_int n : alike (parseIntLiteral n) (parseIntLiteral n). Proof. alike_def @parseIntLiteral. Qed.
Lemma alike_arg_name : alike parse_arg_name parse_arg_name. Proof. alike_def @parse_arg_name. Qed.
#[local] Hint Resolve alike_assign alike_int alike_arg_name : alike.

Lemma alike_annotation_args n : alike (annotation_args n) (annotation_args n).
Proof. induction n as [|n IH]; [apply alike_fail|]. cbn [annotation_args]. alike. Qed.
#[local] Hint Resolve alike_annotation_args : alike.
Lemma alike_annotation n : alike (parse_annotation n) (parse_annotation n). Proof. alike_def @parse_annotation. Qed.
#[local] Hint Resolve alike_annotation : alike.
Lemma alike_annotations n : alike (parseAnnotations n) (parseAnnotations n).
Proof. induction n as [|n IH]; [apply alike_fail|]. cbn [parseAnnotations]. alike. Qed.
Lemma alike_array n : alike (parse_array n) (parse_array n). Proof. alike_def @parse_array. Qed.
#[local] Hint Resolve alike_annotations alike_array : alike.

Lemma alike_types n : alike (parseTypeRef n) (parseTypeRef n) ∧ alike (type_args n) (type_args n).
Proof.
  induction n as [|n [IH1 IH2]]; [split; apply alike_fail|]. split; cbn [parseTypeRef type_args];
    fold (@parseTypeRef tokens Z list_source) (@type_args tokens Z list_source)
      (@parseTypeRef O R TS) (@type_args O R TS); alike.
Qed.
Lemma alike_type n : alike (parseTypeRef n) (parseTypeRef n). Proof. apply alike_types. Qed.
Lemma alike_direction : alike parse_direction parse_direction. Proof. alike_def @parse_direction. Qed.
#[local] Hint Resolve alike_type alike_direction : alike.

Lemma alike_field_body n a d f :
  alike (parseFieldWithAnnotations n a d f) (parseFieldWithAnnotations n a d f).
Proof. alike_def @parseFieldWithAnnotations. Qed.
#[local] Hint Resolve alike_field_body : alike.
Lemma alike_field n d f : alike (parseField n d f) (parseField n d f). Proof. alike_def @parseField. Qed.
Lemma alike_const n a : alike (parseConstDecl n a) (parseConstDecl n a). Proof. alike_def @parseConstDecl. Qed.
Lemma alike_oneway : alike parse_oneway parse_oneway. Proof. alike_def @parse_oneway. Qed.
#[local] Hint Resolve alike_field alike_const alike_oneway : alike.
Lemma alike_method_args n : alike (method_args n) (method_args n).
Proof. induction n as [|n IH]; [apply alike_fail|]. cbn [method_args]. alike. Qed.
#[local] Hint Resolve alike_method_args : alike.
Lemma alike_args n : alike (parse_args n) (parse_args n). Proof. alike_def @parse_args. Qed.
#[local] Hint Resolve alike_args : alike.
Lemma alike_method n a : alike (parseMethodDecl n a) (parseMethodDecl n a). Proof. alike_def @parseMethodDecl. Qed.
#[local] Hint Resolve alike_method : alike.

Lemma alike_enum_members n : alike (enum_members n) (enum_members n).
Proof. induction n as [|n IH]; [apply alike_fail|]. cbn [enum_members]. alike. Qed.
Lemma alike_union_fields n : alike (union_fields n) (union_fields n).
Proof. induction n as [|n IH]; [apply alike_fail|]. cbn [union_fields]. alike. Qed.
Lemma alike_param_names n : alike (type_param_names n) (type_param_names n).
Proof. induction n as [|n IH]; [apply alike_fail|]. cbn [type_param_names]. alike. Qed.
#[local] Hint Resolve alike_enum_members alike_union_fields alike_param_names : alike.
Lemma alike_enum n a : alike (parseEnumDecl n a) (parseEnumDecl n a). Proof. alike_def @parseEnumDecl. Qed.
Lemma alike_union n a : alike (parseUnionDecl n a) (parseUnionDecl n a). Proof. alike_def @parseUnionDecl. Qed.
Lemma alike_params n : alike (parse_type_params n) (parse_type_params n).
Proof. unfold parse_type_params, parseTypeParamNames. alike. Qed.
Lemma alike_header n : alike (skip_header n) (skip_header n). Proof. alike_def @skip_header. Qed.
#[local] Hint Resolve alike_enum alike_union alike_params alike_header : alike.

Lemma alike_parcelables n :
  (∀ a, alike (parseParcelableDecl n a) (parseParcelableDecl n a)) ∧ alike (parcelable_body n) (parcelable_body n).
Proof.
  induction n as [|n [IH1 IH2]]; [split; intros; apply alike_fail|]. split; intros; cbn [parseParcelableDecl parcelable_body];
    fold (@parseParcelableDecl tokens Z list_source) (@parcelable_body tokens Z list_source)
      (@parseParcelableDecl O R TS) (@parcelable_body O R TS); alike.
Qed.
Lemma alike_parcelable n a : alike (parseParcelableDecl n a) (parseParcelableDecl n a). Proof. apply alike_parcelables. Qed.
#[local] Hint Resolve alike_parcelable : alike.

Lemma alike_member n : alike (parseInterfaceMember n) (parseInterfaceMember n). Proof. alike_def @parseInterfaceMember. Qed.
#[local] Hint Resolve alike_member : alike.
Lemma alike_members n : alike (interface_members n) (interface_members n).
Proof. induction n as [|n IH]; [apply alike_fail|]. cbn [interface_members]. alike. Qed.
#[local] Hint Resolve alike_members : alike.
Lemma alike_interface n a b : alike (parseInterfaceDecl n a b) (parseInterfaceDecl n a b).
Proof. alike_def @parseInterfaceDecl. Qed.
#[local] Hint Resolve alike_interface : alike.
Lemma alike_top n : alike (parseTopDecl n) (parseTopDecl n). Proof. alike_def @parseTopDecl. Qed.
#[local] Hint Resolve alike_top : alike.
Lemma alike_top_decls n : alike (top_decls n) (top_decls n).
Proof. induction n as [|n IH]; [apply alike_fail|]. cbn [top_decls]. alike. Qed.
Lemma alike_package n : alike (parse_package n) (parse_package n). Proof. alike_def @parse_package. Qed.
Lemma alike_imports n : alike (parse_imports n) (parse_imports n).
Proof. induction n as [|n IH]; [apply alike_fail|]. cbn [parse_imports]. alike. Qed.
#[local] Hint Resolve alike_top_decls alike_package alike_imports : alike.
Lemma alike_file n : alike (parseFile n) (parseFile n). Proof. alike_def @parseFile. Qed.
End Yields.
