(* ===== verification/AidlProps.v ===== *)
(** * AidlProps: the AIDL front end

    Theorems on the parser of Aidl over the scanner of TextScanner: which source
    texts it accepts, the shape of the trees it returns, and how a lookahead that
    crosses the scanner's buffer loses part of the file (a defect). *)

From stdpp Require Import base list numbers strings pretty.
From S2P Require Import Prelude Aidl AidlGrammar AidlSound AidlComplete TextScanner TextScannerFacts.

Open Scope Z_scope.

(** ** Source texts *)

(** The tokens of a source text that fits the scanner's buffer. *)
Definition source_tokens (src : string) : tokens :=
  scan_all (length (bytes_of src) + 2) (prime init_scanner (bytes_of src)).1.

Lemma bytes_of_nonneg src : Forall (λ c, 0 <= c) (bytes_of src).
Proof. unfold bytes_of. apply List.Forall_forall. intros z. rewrite in_map_iff. intros (c & <- & _). lia. Qed.

Lemma prime_init src : (length (bytes_of src) <= bufLen)%nat →
  ∃ s, prime init_scanner (bytes_of src) = (s, []) ∧ inv (len (bytes_of src)) s ∧ (size s <= length (bytes_of src))%nat.
Proof.
  intros Hlen. pose proof (bytes_of_nonneg src) as Hb. unfold prime, init_scanner, next_ch. cbn [sc_ch sc_buf sc_read].
  rewrite take_ge, drop_ge by done. destruct (bytes_of src) as [|c l]; cbn.
  - eexists. split; [done|]. split; [split_and!; [done|done|by left]|unfold size; cbn; lia].
  - apply Forall_cons in Hb as [? ?]. eexists. split; [done|]. split; [split_and!; [cbn; lia|done|by right]|].
    unfold size. cbn. destruct (_ <? 0); lia.
Qed.

Lemma scan_all_yields N n s : inv N s → (size s < n)%nat →
  yields (R:=reader) [] N s (scan_all n s) ∧ Forall real (scan_all n s) ∧ (length (scan_all n s) <= size s)%nat.
Proof.
  revert s. induction n as [|n IH]; intros s Hs Hn; [lia|]. cbn [scan_all].
  destruct (text_Scan_spec N s Hs) as (t & s' & E & Hs' & [[-> ->]|[Ht Hlt]]); rewrite E.
  - rewrite bool_decide_eq_true_2 by done. cbn [length]. split_and!; [by eapply yields_end|done|lia].
  - rewrite bool_decide_eq_false_2 by apply Ht. destruct (IH s' Hs' ltac:(lia)) as (H1 & H2 & H3).
    split_and!; [by eapply yields_tok|by constructor|cbn; lia].
Qed.

Lemma Parse_source_tokens src : (length (bytes_of src) <= bufLen)%nat →
  Parse_source src = Parse (length (bytes_of src) + 2) (source_tokens src) (len (bytes_of src)) ∧
  Forall real (source_tokens src) ∧ (length (source_tokens src) < length (bytes_of src) + 2)%nat.
Proof.
  intros Hlen. destruct (prime_init src Hlen) as (s & Hp & Hs & Hsz). unfold Parse_source, source_tokens. rewrite Hp. cbn [fst].
  set (n := (length (bytes_of src) + 2)%nat). set (N := len (bytes_of src)).
  destruct (scan_all_yields N n s Hs ltac:(unfold n; lia)) as (Hy & Hr & Hl). split; [|split; [done|eapply Nat.le_lt_trans; [exact Hl|lia]]].
  rewrite Parse_file. unfold Parse, mbind, ST_bind, next. cbn [p_s p_reader].
  assert (E : Scan init_scanner (bytes_of src) = Scan s []).
  { cbn [Scan text_scanner]. unfold text_Scan. rewrite Hp. unfold prime.
    by rewrite (proj2 (Z.eqb_neq (sc_ch s) (-2))) by (destruct Hs as (_ & _ & [[Hc _]|]); unfold eof_ch in *; lia). }
  destruct (yields_scan [] N s _ Hy) as (o & Eo & Ho). rewrite E, Eo.
  pose proof (alike_file [] N n (mkParser o [] (look N (scan_all n s))) (scan_all n s)) as H.
  specialize (H ltac:(done)).
  destruct (parseFile n (mkParser o [] (look N (scan_all n s)))) as [[f|e|w] p],
    (parseFile n (st N (scan_all n s))) as [[g|e'|w'] q]; try done; cbn in *; [by destruct H as [-> _]|by subst..].
Qed.

(** C25: on a source text that fits the scanner's buffer, the AIDL parser accepts
    exactly the files of the grammar: [Parse_source] returns a file if and only if
    the tokens of the text derive it, and otherwise it reports a syntax error. *)
Theorem Parse_source_grammar src : (length (bytes_of src) <= bufLen)%nat →
  (∀ f, Parse_source src = Ok f ↔ file_g (source_tokens src) f) ∧
  match Parse_source src with Ok _ => True | Err e => e ≠ OutOfFuel | Panic _ => False end.
Proof. intros H. destruct (Parse_source_tokens src H) as (-> & Hr & Hn). by apply Parse_grammar_ok. Qed.

Definition demo_source : string :=
  "package a.b; import a.b.P; @Backing(type=X) interface I { oneway void f(in @nullable String s, out int[3] r) = 1; }".

Lemma Parse_source_grammar_witness :
  ∃ f, Parse_source demo_source = Ok f ∧ file_g (source_tokens demo_source) f ∧ file_PackageName f = "a.b".
Proof.
  destruct (Parse_source_grammar demo_source) as [H _]; [apply (proj1 (Nat.leb_le _ _)); vm_compute; reflexivity|].
  remember (Parse_source demo_source) as r eqn:E. vm_compute in E. subst r.
  eexists. split; [reflexivity|]. split; [apply H; reflexivity|reflexivity].
Defined.

(** C23: the parser accepts exactly the files of the AIDL grammar, and returns their
    tree: for any stream of tokens and any fuel above its length, [Parse] returns a
    file if and only if the tokens derive it; it never panics and never runs out of
    fuel. *)
Theorem Parse_grammar n ts eof : Forall real ts → (length ts < n)%nat →
  (∀ f, Parse n ts eof = Ok f ↔ file_g ts f) ∧
  match Parse n ts eof with Ok _ => True | Err e => e ≠ OutOfFuel | Panic _ => False end.
Proof. apply Parse_grammar_ok. Qed.

Lemma Parse_grammar_witness :
  (∀ f, Parse 100 (source_tokens demo_source) 7 = Ok f ↔ file_g (source_tokens demo_source) f) ∧
  is_ok (Parse 100 (source_tokens demo_source) 7) = true.
Proof.
  split; [|vm_compute; reflexivity]. destruct (Parse_grammar 100 (source_tokens demo_source) 7) as [H _].
  - apply Parse_source_tokens. apply (proj1 (Nat.leb_le _ _)). vm_compute. reflexivity.
  - apply (proj1 (Nat.ltb_lt _ _)). vm_compute. reflexivity.
  - exact H.
Defined.

(** ** Expressions as text *)

Definition const_value (src : string) : option string :=
  match Parse_source src with
  | Ok (mkFile _ _ [DInterface (mkInterfaceDecl _ _ _ [MConst c])]) => Some (cd_Value c)
  | _ => None
  end.

(** The texts of an expression's tokens are joined without the space between
    them, so two minus signs become a decrement, and a space in a character literal
    disappears. *)
Lemma expression_text_joined :
  const_value "interface I { const int A = 1 - -1; }" = Some "1--1" ∧
  const_value "interface I { const char A = ' '; }" = Some "''".
Proof. split; vm_compute; reflexivity. Qed.

(** The semicolon of a character literal ends the declaration. *)
Lemma semicolon_literal_refused : is_ok (Parse_source "interface I { const char A = ';'; }") = false.
Proof. vm_compute. reflexivity. Qed.

(** [oneway] on a declaration that has no methods is accepted and forgotten. *)
Lemma oneway_parcelable_accepted :
  Parse_source "oneway parcelable P;" = Ok (mkFile "" [] [DParcelable (mkParcelableDecl [] "P" [] false [] [] [])]).
Proof. vm_compute. reflexivity. Qed.

(** ** Lookahead and the buffer *)

(** Sixteen bytes of declarations, and spaces up to the end of a buffer. *)
Fixpoint repeat_string (n : nat) (s : string) : string :=
  match n with 0%nat => "" | S n' => s +:+ repeat_string n' s end.

(** The first buffer ends with the annotation's parenthesis, the second holds 64
    unions, and the third a last interface. *)
Definition split_source : string :=
  repeat_string 1019 " " +:+ "@A(b)" +:+ repeat_string 64 "union Lost { }  " +:+ "interface Kept { }".

(** A lookahead that crosses the scanner's buffer drops a buffer of source
    silently (a defect): [peek] copies the scanner, but the copy reads the next
    1024 bytes from the reader they share, and those bytes are gone.  Here the 64
    declarations in between are lost, the annotation in front of them moves to the
    declaration after them, and the parser reports no error. *)
Theorem peek_loses_input :
  length (bytes_of split_source) = (2 * bufLen + 18)%nat ∧
  Parse_source split_source =
    Ok (mkFile "" [] [DInterface (mkInterfaceDecl [mkAnnotation "A" [mkAnnotationArg "" "b"]] false "Kept" [])]).
Proof. split; vm_compute; reflexivity. Qed.

(** ** The shape of a tree *)

Fixpoint is_qualified_from (start : bool) (l : list Ascii.ascii) : bool :=
  match l with
  | [] => negb start
  | c :: l' =>
      if start then ident_start c && is_qualified_from false l'
      else if (Ascii.nat_of_ascii c =? 46)%nat then is_qualified_from true l' else ident_char c && is_qualified_from false l'
  end.
(** Identifiers joined with dots. *)
Definition is_qualified (s : string) : bool := is_qualified_from true (String.list_ascii_of_string s).

Definition wf_annotation (a : Annotation) : bool :=
  is_qualified (ann_Name a) &&
  forallb (λ g, bool_decide (aarg_Name g = "") || is_identifier (aarg_Name g)) (ann_Args a).

Fixpoint wf_type (t : TypeRef) : bool :=
  let '(mkTypeRef anns name args arr len nullable) := t in
  forallb wf_annotation anns && is_qualified name && forallb wf_type args &&
  match len with Some z => arr && bool_decide (-2 ^ 63 <= z < 2 ^ 63) | None => true end &&
  Bool.eqb nullable (has_nullable anns).

Definition no_direction (f : Field) : bool := match fld_Direction f with DirectionNone => true | _ => false end.
Definition no_default (f : Field) : bool := bool_decide (fld_DefaultValue f = "").

Definition wf_field (f : Field) : bool :=
  forallb wf_annotation (fld_Annotations f) && wf_type (fld_Type f) && is_identifier (fld_Name f) &&
  (* the annotations in front of a type belong to the field unless a direction separates them *)
  (negb (no_direction f) || bool_decide (length (tr_Annotations (fld_Type f)) = 0%nat)).

Definition wf_const (c : ConstDecl) : bool :=
  forallb wf_annotation (cd_Annotations c) && wf_type (cd_Type c) && is_identifier (cd_Name c).

Definition wf_method (m : MethodDecl) : bool :=
  forallb wf_annotation (md_Annotations m) && wf_type (md_Return m) && is_identifier (md_Name m) &&
  forallb (λ f, wf_field f && no_default f) (md_Args m) &&
  (md_Oneway m || bool_decide (length (tr_Annotations (md_Return m)) = 0%nat)).

Definition wf_enum (d : EnumDecl) : bool :=
  forallb wf_annotation (ed_Annotations d) && is_identifier (ed_Name d) &&
  forallb (λ m, is_identifier (em_Name m)) (ed_Members d).

Definition wf_union (d : UnionDecl) : bool :=
  forallb wf_annotation (ud_Annotations d) && is_identifier (ud_Name d) &&
  forallb (λ f, wf_field f && no_direction f && no_default f) (ud_Fields d).

Fixpoint wf_decl (d : Decl) : bool :=
  match d with
  | DInterface i => wf_interface i
  | DParcelable p => wf_parcelable p
  | DEnum e => wf_enum e
  | DUnion u => wf_union u
  end
with wf_interface (i : InterfaceDecl) : bool :=
  let '(mkInterfaceDecl anns _ name members) := i in
  forallb wf_annotation anns && is_identifier name && forallb wf_member members
with wf_member (m : InterfaceMember) : bool :=
  match m with
  | MMethod m => wf_method m
  | MConst c => wf_const c
  | MParcelable p => wf_parcelable p
  | MEnum e => wf_enum e
  | MUnion u => wf_union u
  end
with wf_parcelable (p : ParcelableDecl) : bool :=
  let '(mkParcelableDecl anns name params structured consts fields decls) := p in
  forallb wf_annotation anns && is_qualified name && forallb is_identifier params &&
  forallb wf_const consts && forallb (λ f, wf_field f && no_direction f) fields &&
  forallb (λ d, match d with DInterface _ => false | _ => wf_decl d end) decls &&
  (structured || bool_decide (length consts + length fields + length decls = 0)%nat).

Definition wf_file (f : File) : bool :=
  (bool_decide (file_PackageName f = "") || is_qualified (file_PackageName f)) &&
  forallb (λ i, is_qualified (imp_Path i)) (file_Imports f) && forallb wf_decl (file_Decls f).

Section Typed.
Implicit Types ts : tokens.

Lemma many_all {A} (g : tokens → A → Prop) (f : A → bool) ts l : many g ts l →
  (∀ u a, (length u <= length ts)%nat → g u a → f a = true) → forallb f l = true.
Proof.
  induction 1 as [|u a u' l Ha Hl IH]; intros Hf; [done|]. cbn. rewrite (Hf u a) by (done || (rewrite length_app; lia)).
  apply IH. intros v b Hv. apply Hf. rewrite length_app. lia.
Qed.

Lemma commas_all {A} (g : tokens → A → Prop) (f : A → bool) ts l : commas g ts l →
  (∀ u a, (length u <= length ts)%nat → g u a → f a = true) → forallb f l = true.
Proof.
  induction 1 as [u a Ha|u a c u' l Ha Hc Hl IH]; intros Hf; cbn; rewrite (Hf u a) by (done || (rewrite ?length_app; lia)); [done|].
  apply IH. intros v b Hv. apply Hf. rewrite length_app. cbn. lia.
Qed.

Lemma trailing_all {A} (g : tokens → A → Prop) (f : A → bool) ts l : trailing g ts l →
  (∀ u a, g u a → f a = true) → forallb f l = true.
Proof. intros H Hf. induction H as [|u a Ha|u a c u' l Ha Hc Hl IH]; cbn; rewrite ?(Hf u a Ha); auto. Qed.

Lemma qualified_ident (l : list Ascii.ascii) r : forallb ident_char l = true →
  is_qualified_from false (l ++ r) = is_qualified_from false r.
Proof.
  induction l as [|c l IH]; cbn; [done|]. intros [Hc Hl]%andb_true_iff. rewrite Hc, (IH Hl).
  replace (Ascii.nat_of_ascii c =? 46)%nat with false; [done|]. symmetry. apply Nat.eqb_neq. intros E.
  unfold ident_char, ident_start in Hc. by rewrite E in Hc.
Qed.

Lemma ascii_app s1 s2 :
  String.list_ascii_of_string (s1 +:+ s2) = String.list_ascii_of_string s1 ++ String.list_ascii_of_string s2.
Proof. induction s1 as [|c s1 IH]; [done|]. change (String c s1 +:+ s2) with (String c (s1 +:+ s2)). cbn. by rewrite IH. Qed.

Lemma identifier_qualified s r : is_identifier s = true →
  is_qualified_from true (String.list_ascii_of_string s ++ r) = is_qualified_from false r.
Proof. destruct s as [|c s]; [done|]. cbn. intros [-> H]%andb_true_iff. by apply qualified_ident. Qed.

Lemma qname_qualified ts x : qname_g ts x → is_qualified x = true.
Proof.
  intros (l & Hl & ->). unfold is_qualified. induction Hl as [x t (_ & _ & Hx)|x t d ts l (_ & _ & Hx) _ Hl IH].
  - cbn [Join]. rewrite <- (app_nil_r (String.list_ascii_of_string x)). by rewrite identifier_qualified.
  - destruct l as [|y l]; [by inversion Hl|]. change (Join (x :: y :: l) ".") with (x +:+ "." +:+ Join (y :: l) ".").
    rewrite !ascii_app, identifier_qualified by done. cbn -[Join]. exact IH.
Qed.

Lemma name_identifier x t : idt x t → is_identifier x = true.
Proof. intros (_ & _ & H). exact H. Qed.

Lemma annotation_wf ts a : annotation_g ts a → wf_annotation a = true.
Proof.
  intros H. unfold wf_annotation. destruct H as [a tn x _ Hx|a tn x o c _ Hx _ _|a tn x o u args c _ Hx _ Hargs _];
    cbn [ann_Name ann_Args]; rewrite (qname_qualified _ _ Hx); [done..|]. eapply commas_all; [done|].
  intros v g _ [y t e w z Hy _ _|w z _ _]; cbn; [|done]. rewrite (name_identifier _ _ Hy). apply orb_true_r.
Qed.

Lemma annotations_wf ts l : annotations_g ts l → forallb wf_annotation l = true.
Proof. intros H. eapply many_all; [done|]. intros u a _. apply annotation_wf. Qed.

Lemma parse_digits_nonneg base acc l z : 0 <= base → 0 <= acc → parse_digits base acc l = Some z → 0 <= z.
Proof.
  intros Hb. revert acc. induction l as [|c l IH]; cbn; intros acc Ha H; [by injection H as <-|].
  destruct (c =? 95); [by eapply IH|]. destruct (digit_of c) as [d|] eqn:E; [|done]. destruct (base <=? d); [done|].
  eapply IH, H. unfold digit_of in E. repeat case_match; bools; simplify_eq; nia.
Qed.

Lemma ParseUint0_nonneg l z : ParseUint0 l = Some z → 0 <= z.
Proof.
  unfold ParseUint0. destruct l as [|c l]; [done|]. destruct (underscoreOK _); [|done]. apply parse_digits_nonneg; [|lia].
  unfold base_of. repeat case_match; cbn; lia.
Qed.

Lemma ParseInt0_range v z : ParseInt0 v = Some z → -2 ^ 63 <= z < 2 ^ 63.
Proof.
  unfold ParseInt0. destruct (split_sign (bytes_of v)) as [neg digits].
  destruct (ParseUint0 digits) as [n|] eqn:E; [|done]. apply ParseUint0_nonneg in E.
  destruct neg, (n <=? 2 ^ 63) eqn:E1, (n <? 2 ^ 63) eqn:E2; intros H; simplify_eq; bools; lia.
Qed.

Lemma type_wf ts t : type_g ts t → wf_type t = true.
Proof.
  remember (length ts) as n eqn:Hn. revert ts t Hn. induction (lt_wf n) as [n _ IH]. intros ts t Hn Ht. revert Hn.
  destruct Ht as [ta anns tn x tp args tr arr Ha Hx Hp Hr]. intros Hn. cbn -[is_qualified].
  rewrite (annotations_wf _ _ Ha), (qname_qualified _ _ Hx). cbn.
  assert (Hargs : forallb wf_type args = true).
  { pose proof (qname_length _ _ Hx). destruct Hp as [|o u l c Ho Hl Hc]; [done|]. eapply commas_all; [done|].
    intros v b Hv Hb. eapply (IH (length v)); [|done|done]. subst n. wlen. }
  rewrite Hargs. destruct Hr as [| |o u v z c _ _ Hz _]; cbn; rewrite ?eqb_reflx; [done..|].
  rewrite bool_decide_eq_true_2 by by apply ParseInt0_range in Hz. done.
Qed.

Lemma field_body_wf dirs dflt anns ts f : forallb wf_annotation anns = true → field_body_g dirs dflt anns ts f →
  wf_field f = true ∧ (dirs = false → no_direction f = true) ∧ (dflt = false → no_default f = true).
Proof.
  intros Ha [td dir tt typ x t te v Hd Ht Hx Hv Hdirs Hdflt Hann Hst]. unfold wf_field. cbn.
  rewrite Ha, (type_wf _ _ Ht), (name_identifier _ _ Hx). cbn. split_and!.
  - destruct dir; [|done..]. rewrite Hann by done. done.
  - intros E. unfold no_direction. cbn. by rewrite (Hdirs E).
  - intros E. rewrite (Hdflt E) in Hv. inversion Hv. done.
Qed.

Lemma field_wf dirs dflt ts f : field_g dirs dflt ts f →
  wf_field f = true ∧ (dirs = false → no_direction f = true) ∧ (dflt = false → no_default f = true).
Proof. intros (ta & anns & tb & Ha & Hf & _). eapply field_body_wf; [|done]. by eapply annotations_wf. Qed.

Lemma const_wf anns ts c : forallb wf_annotation anns = true → const_g anns ts c → wf_const c = true.
Proof.
  intros Ha [k tt typ x t e te v s _ Ht Hx _ _ _]. unfold wf_const. cbn.
  by rewrite Ha, (type_wf _ _ Ht), (name_identifier _ _ Hx).
Qed.

Lemma method_wf anns ts m : forallb wf_annotation anns = true → method_g anns ts m → wf_method m = true.
Proof.
  intros Ha [tw b tt ret x t o ta args c te v s _ Ht Hx _ Hargs _ _ _ Hcond]. unfold wf_method. cbn.
  rewrite Ha, (type_wf _ _ Ht), (name_identifier _ _ Hx). cbn.
  assert (Hall : forallb (λ f, wf_field f && no_default f) args = true).
  { destruct Hargs as [|u l Hl]; [done|]. eapply commas_all; [done|]. intros v' f _ Hf.
    destruct (field_wf _ _ _ _ Hf) as (-> & _ & ->); done. }
  rewrite Hall. destruct b; [done|]. destruct Hcond as [-> _]; done.
Qed.

Lemma enum_wf anns ts d : forallb wf_annotation anns = true → enum_g anns ts d → wf_enum d = true.
Proof.
  intros Ha [k x t o tm l c _ Hx _ Hl _]. unfold wf_enum. cbn. rewrite Ha, (name_identifier _ _ Hx). cbn.
  eapply trailing_all; [done|]. intros u m [y w te v Hy _]. cbn. by eapply name_identifier.
Qed.

Lemma union_wf anns ts d : forallb wf_annotation anns = true → union_g anns ts d → wf_union d = true.
Proof.
  intros Ha [k x t o tm l c _ Hx _ Hl _]. unfold wf_union. cbn. rewrite Ha, (name_identifier _ _ Hx). cbn.
  eapply many_all; [done|]. intros u f _ (tf & s & Hf & _ & _).
  destruct (field_wf _ _ _ _ Hf) as (-> & -> & ->); done.
Qed.

Lemma params_wf ts l : params_g ts l → forallb is_identifier l = true.
Proof.
  intros [|o u l' c _ Hl _]; [done|]. eapply commas_all; [done|]. intros v x _ (t & Ht & _). by eapply name_identifier.
Qed.

(** What the items of a parcelable's body become. *)
Definition wf_item (i : body_item) : bool :=
  match i with
  | BConst c => wf_const c
  | BField f => wf_field f && no_direction f
  | BDecl (DInterface _) => false
  | BDecl d => wf_decl d
  end.

Lemma body_wf l : forallb wf_item l = true →
  forallb wf_const (body_consts l) = true ∧ forallb (λ f, wf_field f && no_direction f) (body_fields l) = true ∧
  forallb (λ d, match d with DInterface _ => false | _ => wf_decl d end) (body_decls l) = true.
Proof.
  induction l as [|i l IH]; [done|]. cbn [forallb]. intros [Hi Hl]%andb_true_iff. destruct (IH Hl) as (H1 & H2 & H3).
  destruct i as [c|[d|d|d|d]|f]; cbn in *; rewrite ?Hi; auto.
Qed.

Lemma parcelable_wf anns ts d : forallb wf_annotation anns = true → parcelable_g anns ts d → wf_parcelable d = true.
Proof.
  remember (length ts) as n eqn:Hn. revert anns ts d Hn. induction (lt_wf n) as [n _ IH]. intros anns ts d Hn Ha Hd.
  destruct Hd as [anns k tn x tp params th s _ Hx Hp _ _|anns k tn x tp params th o tb body c _ Hx Hp _ _ Hb _];
    cbn -[is_qualified body_consts body_fields body_decls]; rewrite Ha, (qname_qualified _ _ Hx), (params_wf _ _ Hp); [done|].
  assert (Hitems : forallb wf_item body = true).
  { eapply many_all; [done|]. intros u i Hu Hi.
    destruct Hi as [ta an tc c' Han Hc|ta an tc c' Han Hc|ta an tc c' Han Hc|ta an tc c' Han Hc|ta an tf f s Han Hf _ _];
      apply annotations_wf in Han; cbn.
    - by eapply const_wf.
    - eapply (IH (length tc)); [|done|exact Han|done]. subst n. wlen.
    - by eapply enum_wf.
    - by eapply union_wf.
    - by destruct (field_body_wf _ _ _ _ _ Han Hf) as (-> & -> & _). }
  destruct (body_wf _ Hitems) as (-> & -> & ->). done.
Qed.

Lemma decl_wf anns b ts d : forallb wf_annotation anns = true → decl_g anns b ts d → wf_decl d = true.
Proof.
  intros Ha [u i Hi|u p Hp|u e He|u e Hu]; cbn -[wf_interface wf_parcelable];
    [|by eapply parcelable_wf|by eapply enum_wf|by eapply union_wf].
  destruct Hi as [k x t o tm l c _ Hx _ Hl _]. cbn. rewrite Ha, (name_identifier _ _ Hx). cbn.
  eapply many_all; [done|]. intros v m _ Hm.
  destruct Hm as [ta an tc c' Han Hc|ta an tc c' Han Hc|ta an tc c' Han Hc|ta an tc c' Han Hc|ta an tc c' Han Hc];
    apply annotations_wf in Han; cbn -[wf_parcelable];
    [by eapply const_wf|by eapply parcelable_wf|by eapply enum_wf|by eapply union_wf|by eapply method_wf].
Qed.

Lemma file_wf ts f : file_g ts f → wf_file f = true.
Proof.
  intros [tp x ti imports td decls Hp Hi Hd]. unfold wf_file. cbn -[is_qualified].
  replace (_ || _) with true.
  2: { symmetry. destruct Hp as [|k tn y s _ Hy _]; [done|]. rewrite (qname_qualified _ _ Hy). apply orb_true_r. }
  assert (H1 : forallb (λ i, is_qualified (imp_Path i)) imports = true).
  { eapply many_all; [done|]. intros u i _ [k tn y s _ Hy _]. by eapply qname_qualified. }
  rewrite H1. eapply many_all; [done|]. intros u d _ [ta an tw b tc c Han _ Hc]. apply annotations_wf in Han.
  by eapply decl_wf.
Qed.
End Typed.

(** C24: the parser only builds well-formed trees: in any file it returns, names are
    identifiers (qualified where a dot is allowed), array lengths fit an int and
    stand on arrays only, [Nullable] is what the annotations of the type say,
    directions occur on method arguments only and defaults on parcelable fields
    only, a nested declaration is no interface and an unstructured parcelable is
    empty.  The annotations in front of the type of a field, an argument or a
    method belong to the field, argument or method: that type has annotations of
    its own only behind a direction (an argument) or [oneway] (a return type).
    The type of a constant and the arguments of a type may carry annotations of
    their own. *)
Theorem Parse_typed n ts eof f : Forall real ts → (length ts < n)%nat → Parse n ts eof = Ok f → wf_file f = true.
Proof. intros Hr Hn H. eapply file_wf. by apply (Parse_grammar_ok n ts eof Hr Hn). Qed.

Lemma Parse_typed_witness : ∃ f, Parse 100 (source_tokens demo_source) 0 = Ok f ∧ wf_file f = true.
Proof.
  remember (Parse 100 (source_tokens demo_source) 0) as r eqn:E. pose proof E as E'. vm_compute in E'. subst r.
  eexists. split; [rewrite E'; reflexivity|].
  eapply (Parse_typed 100 (source_tokens demo_source) 0); [| |exact E'].
  - apply Parse_source_tokens. apply (proj1 (Nat.leb_le _ _)). vm_compute. reflexivity.
  - apply (proj1 (Nat.ltb_lt _ _)). vm_compute. reflexivity.
Defined.
