(* ===== verification/GoText.v ===== *)
(** * GoText: strings, strconv and path/filepath

    The functions of Go's standard library on text that the AIDL tools and the
    command line tools use: splitting and trimming, decimal numbers, slash-separated
    paths, lines.  Characters are ASCII, as in TextScanner. *)

From stdpp Require Import base list numbers strings pretty.
From S2P Require Import Prelude Aidl.

Open Scope Z_scope.

Abbreviation chars := (list Ascii.ascii).
Abbreviation chars_of := String.list_ascii_of_string.
Abbreviation of_chars := String.string_of_list_ascii.

Definition code_of (c : Ascii.ascii) : Z := Z.of_nat (Ascii.nat_of_ascii c).

Definition dot : Ascii.ascii := Ascii.ascii_of_nat 46.
Definition slash : Ascii.ascii := Ascii.ascii_of_nat 47.

(** ** Splitting and trimming *)

(** strings.FieldsFunc: the maximal runs of characters that are no separators. *)
Fixpoint fields_func (sep : Ascii.ascii → bool) (cur s : chars) : list chars :=
  let flush := match cur with [] => [] | _ => [cur] end in
  match s with
  | [] => flush
  | c :: s => if sep c then flush ++ fields_func sep [] s else fields_func sep (cur ++ [c]) s
  end.

(** strings.Split at one character. *)
Fixpoint split_char (sep : Ascii.ascii) (s : string) : list string :=
  match s with
  | EmptyString => [""]
  | String c s' =>
      if bool_decide (c = sep) then "" :: split_char sep s'
      else match split_char sep s' with [] => [""] | part :: parts => String c part :: parts end
  end.

(** strings.LastIndexByte(s, '.'): what is before and after it. *)
Fixpoint last_dot (s : string) : option (string * string) :=
  match s with
  | EmptyString => None
  | String c s' =>
      match last_dot s' with
      | Some (before, after) => Some (String c before, after)
      | None => if bool_decide (c = dot) then Some ("", s') else None
      end
  end.

(** strings.HasSuffix; strings.HasPrefix is [String.prefix]. *)
Definition has_suffix (s suffix : string) : bool :=
  bool_decide (String.length suffix <= String.length s)%nat &&
  bool_decide (String.substring (String.length s - String.length suffix) (String.length suffix) s = suffix).

(** strings.TrimPrefix. *)
Definition trim_prefix (s prefix : string) : string :=
  if String.prefix prefix s then String.substring (String.length prefix) (String.length s - String.length prefix) s else s.

(** strings.TrimSuffix. *)
Definition trim_suffix (s suffix : string) : string :=
  let n := (String.length s - String.length suffix)%nat in
  if bool_decide (String.substring n (String.length suffix) s = suffix) && bool_decide (String.length suffix <= String.length s)%nat
  then String.substring 0 n s else s.

(** strings.Fields. *)
Definition Fields (s : string) : list string := of_chars <$> fields_func is_space [] (chars_of s).

(** strings.Cut at one character. *)
Fixpoint cut_char (sep : Ascii.ascii) (s : string) : option (string * string) :=
  match s with
  | EmptyString => None
  | String c s' =>
      if bool_decide (c = sep) then Some ("", s')
      else match cut_char sep s' with Some (before, after) => Some (String c before, after) | None => None end
  end.

(** ** Decimal numbers (strconv); [None] is an error *)

Definition is_digit_byte (c : Z) : bool := (48 <=? c) && (c <=? 57).

Fixpoint dec_digits (acc : Z) (s : list Z) : option Z :=
  match s with
  | [] => Some acc
  | c :: s => if is_digit_byte c then dec_digits (acc * 10 + (c - 48)) s else None
  end.

Definition unsigned_digits (s : list Z) : option Z := match s with [] => None | _ => dec_digits 0 s end.

(** strconv.ParseUint(s, 10, bits). *)
Definition ParseUint10 (bits : Z) (s : string) : option Z :=
  n ← unsigned_digits (bytes_of s); if n <? 2 ^ bits then Some n else None.

(** strconv.ParseInt(s, 10, bits). *)
Definition ParseInt10 (bits : Z) (s : string) : option Z :=
  let '(neg, digits) := split_sign (bytes_of s) in
  n ← unsigned_digits digits;
  if neg then (if n <=? 2 ^ (bits - 1) then Some (- n) else None) else (if n <? 2 ^ (bits - 1) then Some n else None).

Definition Atoi : string → option Z := ParseInt10 64.

(** ** Lines (bufio.Scanner) *)

Definition newline : Ascii.ascii := Ascii.ascii_of_nat 10.
Definition MaxScanTokenSize : nat := Z.to_nat 65536.

Definition drop_cr (s : string) : string := trim_suffix s (String (Ascii.ascii_of_nat 13) "").

(** The lines up to the first that does not fit the buffer, and whether there is one. *)
Fixpoint scan_tokens (parts : list string) : list string * bool :=
  match parts with
  | [] => ([], false)
  | [last] => if bool_decide (last = "") then ([], false)
              else if bool_decide (MaxScanTokenSize <= String.length last)%nat then ([], true) else ([drop_cr last], false)
  | part :: parts =>
      if bool_decide (MaxScanTokenSize <= String.length part)%nat then ([], true)
      else let '(lines, long) := scan_tokens parts in (drop_cr part :: lines, long)
  end.

Definition scan_lines (text : string) : list string * bool := scan_tokens (split_char newline text).

(** ** Paths (path/filepath) *)

Definition is_slash (c : Ascii.ascii) : bool := bool_decide (c = slash).

(** filepath.Clean, on the components between slashes: [seen] is the result so
    far, the last component first. *)
Fixpoint clean_parts (rooted : bool) (seen parts : list string) : list string :=
  match parts with
  | [] => reverse seen
  | part :: parts =>
      if bool_decide (part = "") || bool_decide (part = ".") then clean_parts rooted seen parts
      else if bool_decide (part = "..") then
        match seen with
        | [] => clean_parts rooted (if rooted then [] else [part]) parts
        | last :: rest => clean_parts rooted (if bool_decide (last = "..") then part :: seen else rest) parts
        end
      else clean_parts rooted (part :: seen) parts
  end.

Definition filepath_Clean (path : string) : string :=
  let rooted := match path with String c _ => is_slash c | EmptyString => false end in
  let body := Join (clean_parts rooted [] (split_char slash path)) "/" in
  if rooted then "/" +:+ body else if bool_decide (body = "") then "." else body.

(** What is before the last slash (with it) and after it. *)
Definition split_path (path : string) : string * string :=
  match reverse (split_char slash path) with
  | [] | [_] => ("", path)
  | file :: dirs => (Join (reverse dirs) "/" +:+ "/", file)
  end.

Definition filepath_Dir (path : string) : string := filepath_Clean (fst (split_path path)).

(** filepath.Base: trailing slashes are dropped first. *)
Fixpoint drop_slashes (s : chars) : chars := match s with c :: rest => if is_slash c then drop_slashes rest else s | [] => [] end.

Definition filepath_Base (path : string) : string :=
  if bool_decide (path = "") then "."
  else
    let s := of_chars (reverse (drop_slashes (reverse (chars_of path)))) in
    let base := snd (split_path s) in
    if bool_decide (base = "") then "/" else base.

(** filepath.Ext: the suffix from the last dot of the last component. *)
Definition filepath_Ext (path : string) : string :=
  match last_dot (snd (split_path path)) with Some (_, after) => "." +:+ after | None => "" end.

(** filepath.Join. *)
Definition filepath_Join (parts : list string) : string :=
  match filter (λ s, s ≠ "") parts with [] => "" | l => filepath_Clean (Join l "/") end.

(** ** Splitting *)

(** The separator does not occur. *)
Fixpoint no_char (sep : Ascii.ascii) (s : string) : bool :=
  match s with EmptyString => true | String c s => negb (bool_decide (c = sep)) && no_char sep s end.

Lemma split_no_char sep s : Forall (λ p, no_char sep p = true) (split_char sep s).
Proof.
  induction s as [|c s IH]; cbn; [by repeat constructor|]. case_bool_decide; [by constructor|].
  destruct (split_char sep s) as [|p ps]; [by repeat constructor|]. inversion_clear IH. constructor; [|done].
  cbn. by rewrite bool_decide_eq_false_2.
Qed.

Lemma split_single sep s : no_char sep s = true → split_char sep s = [s].
Proof. induction s as [|c s IH]; cbn; [done|]. case_bool_decide; [done|]. intros H'. by rewrite IH. Qed.

Lemma split_cons sep s t : no_char sep s = true → split_char sep (s +:+ String sep t) = s :: split_char sep t.
Proof.
  induction s as [|c s IH].
  - intros _. change (split_char sep (String sep t) = "" :: split_char sep t). cbn [split_char].
    by rewrite bool_decide_eq_true_2.
  - change (String c s +:+ String sep t) with (String c (s +:+ String sep t)).
    cbn [no_char split_char]. case_bool_decide; [done|]. intros H'. by rewrite IH.
Qed.

Lemma split_Join sep l : Forall (λ p, no_char sep p = true) l → l ≠ [] → split_char sep (Join l (String sep "")) = l.
Proof.
  induction 1 as [|p l Hp Hl IH]; [done|]. intros _. destruct l as [|q l]; [by apply split_single|].
  change (Join (p :: q :: l) (String sep "")) with (p +:+ String sep (Join (q :: l) (String sep ""))).
  rewrite split_cons by done. f_equal. by apply IH.
Qed.

(** ** filepath.Clean *)

Abbreviation no_slash := (no_char slash).

(** The components of a clean path: any ".." stands at the front, and not at all
    below the root directory. *)
Definition plain_part (p : string) : Prop := p ≠ "" ∧ p ≠ "." ∧ p ≠ ".." ∧ no_slash p = true.

Definition clean_list (rooted : bool) (l : list string) : Prop :=
  ∃ k ps, l = replicate k ".." ++ ps ∧ Forall plain_part ps ∧ (rooted = true → k = O).

Lemma clean_parts_clean rooted parts seen : Forall (λ p, no_slash p = true) parts → clean_list rooted (reverse seen) →
  clean_list rooted (clean_parts rooted seen parts).
Proof.
  intros Hp. revert seen. induction Hp as [|p parts Hp _ IH]; intros seen Hs; [done|]. cbn [clean_parts].
  destruct (bool_decide (p = "") || bool_decide (p = ".")) eqn:E; [by apply IH|].
  apply orb_false_iff in E as [E1%bool_decide_eq_false E2%bool_decide_eq_false].
  destruct Hs as (k & ps & Hs & Hps & Hk). case_bool_decide as E3.
  - subst p. destruct seen as [|last rest].
    + apply IH. destruct rooted; [exists O, []|exists 1%nat, []]; by repeat constructor.
    + apply IH. rewrite reverse_cons in Hs. destruct ps as [|q ps _] using rev_ind.
      * rewrite app_nil_r in Hs. destruct k as [|k]; [by destruct (reverse rest)|].
        replace (S k) with (k + 1)%nat in Hs by lia. rewrite replicate_add in Hs.
        apply app_inj_2 in Hs as [Hr [= ->]]; [|done]. rewrite bool_decide_eq_true_2 by done.
        exists (S (S k)), []. rewrite !reverse_cons, Hr, app_nil_r. split; [|split; [done|]].
        -- replace (S (S k)) with (k + 1 + 1)%nat by lia. by rewrite !replicate_add.
        -- intros Hb. by specialize (Hk Hb).
      * rewrite app_assoc in Hs. apply app_inj_2 in Hs as [Hr [= ->]]; [|done].
        apply Forall_app in Hps as [Hps Hq]. inversion_clear Hq as [|?? Hq' _]. destruct Hq' as (_ & _ & Hq & _).
        rewrite bool_decide_eq_false_2 by done. by exists k, ps.
  - apply IH. rewrite reverse_cons, Hs. exists k, (ps ++ [p]). split; [by rewrite app_assoc|]. split; [|done].
    apply Forall_app. by repeat constructor.
Qed.

Lemma clean_parts_plain rooted ps seen : Forall plain_part ps → clean_parts rooted seen ps = reverse seen ++ ps.
Proof.
  intros H. revert seen. induction H as [|p ps (H1 & H2 & H3 & _) _ IH]; intros seen; cbn [clean_parts].
  - by rewrite app_nil_r.
  - rewrite !bool_decide_eq_false_2 by done. cbn [orb]. rewrite IH, reverse_cons, <- app_assoc. done.
Qed.

Lemma clean_parts_fixed rooted l : clean_list rooted l → clean_parts rooted [] l = l.
Proof.
  intros (k & ps & -> & Hps & Hk).
  enough (∀ j, clean_parts rooted (replicate j "..") (replicate k ".." ++ ps) = replicate (j + k) ".." ++ ps) as H
    by apply (H O).
  destruct k as [|k].
  { intros j. rewrite Nat.add_0_r. cbn [replicate app]. rewrite clean_parts_plain by done. by rewrite reverse_replicate. }
  destruct rooted; [by specialize (Hk eq_refl)|]. clear Hk.
  generalize (S k) as m. clear k. induction m as [|m IH]; intros j.
  - rewrite Nat.add_0_r. cbn [replicate app]. rewrite clean_parts_plain by done. by rewrite reverse_replicate.
  - cbn [replicate app clean_parts]. rewrite bool_decide_eq_false_2, bool_decide_eq_false_2 by done. cbn [orb].
    rewrite bool_decide_eq_true_2 by done. replace (j + S m)%nat with (S j + m)%nat by lia. rewrite <- IH.
    by destruct j.
Qed.

Lemma clean_list_parts rooted l : clean_list rooted l → Forall (λ p, p ≠ "" ∧ no_slash p = true) l.
Proof.
  intros (k & ps & -> & Hps & _). apply Forall_app. split.
  - apply Forall_replicate. done.
  - eapply Forall_impl; [exact Hps|]. by intros p (? & _ & _ & ?).
Qed.

Lemma Join_head p l : p ≠ "" → ∃ c p' t, p = String c p' ∧ Join (p :: l) "/" = String c t.
Proof.
  destruct p as [|c p]; [done|]. intros _. exists c, p. destruct l as [|q l]; [by eexists|].
  by exists (p +:+ "/" +:+ Join (q :: l) "/").
Qed.

Lemma filepath_Clean_idem path : filepath_Clean (filepath_Clean path) = filepath_Clean path.
Proof.
  unfold filepath_Clean at 2 3. set (rooted := match path with String c _ => is_slash c | EmptyString => false end).
  assert (Hl : clean_list rooted (clean_parts rooted [] (split_char slash path)))
    by (apply clean_parts_clean; [apply split_no_char|by exists O, []]).
  set (l := clean_parts rooted [] (split_char slash path)) in *. clearbody l rooted.
  pose proof (clean_list_parts _ _ Hl) as Hp. pose proof (clean_parts_fixed _ _ Hl) as Hf. clear Hl.
  assert (Hs : l ≠ [] → split_char slash (Join l "/") = l)
    by (intros; apply split_Join; [eapply Forall_impl; [exact Hp|]; by intros ? []|done]).
  destruct rooted.
  - unfold filepath_Clean. change ("/" +:+ Join l "/") with (String slash (Join l "/")).
    cbn [split_char]. rewrite bool_decide_eq_true_2 by done. change (is_slash slash) with true. cbn iota.
    destruct l as [|p l]; [done|]. rewrite Hs by done.
    change (clean_parts true [] ("" :: p :: l)) with (clean_parts true [] (p :: l)). by rewrite Hf.
  - destruct l as [|p l]; [done|]. inversion_clear Hp as [|?? [Hne Hn] _].
    destruct (Join_head p l Hne) as (c & p' & t & -> & Hj).
    rewrite bool_decide_eq_false_2 by (by rewrite Hj). unfold filepath_Clean. rewrite Hs by done. rewrite Hj.
    cbn [no_char] in Hn. apply andb_true_iff in Hn as [Hc%negb_true_iff _]. unfold is_slash. rewrite Hc, Hf, Hj. done.
Qed.

Lemma filepath_Clean_nonempty path : filepath_Clean path ≠ "".
Proof. unfold filepath_Clean. destruct (match path with String c _ => _ | EmptyString => _ end); [done|]. by case_bool_decide. Qed.

(** ** Decimal numbers *)

Fixpoint all_chars (p : Ascii.ascii → bool) (s : string) : bool :=
  match s with EmptyString => true | String c s' => p c && all_chars p s' end.

Lemma all_chars_app p s t : all_chars p (s +:+ t) = all_chars p s && all_chars p t.
Proof.
  induction s as [|c s IH]; [done|]. change (p c && all_chars p (s +:+ t) = p c && all_chars p s && all_chars p t).
  by rewrite IH, andb_assoc.
Qed.

Definition is_decimal (c : Ascii.ascii) : bool := is_digit_byte (code_of c).

Lemma pretty_char x : (x < 10)%N → code_of (pretty_N_char x) = 48 + Z.of_N x.
Proof. intros H. destruct x as [|p]; [done|]. do 4 (destruct p as [p|p|]; try done; try lia). Qed.

Lemma pretty_N_go_digits x s : all_chars is_decimal s = true → all_chars is_decimal (pretty_N_go x s) = true.
Proof.
  revert s. induction (N.lt_wf_0 x) as [x _ IH]. intros s Hs.
  destruct (decide (0 < x)%N); [|by replace x with 0%N by lia]. rewrite pretty_N_go_step by done.
  apply IH; [by apply N.div_lt|]. change (is_decimal (pretty_N_char (x `mod` 10)) && all_chars is_decimal s = true).
  rewrite Hs, andb_true_r. assert (x `mod` 10 < 10)%N by by apply N.mod_lt.
  unfold is_decimal, is_digit_byte. rewrite pretty_char, andb_true_iff, !Z.leb_le by done.
  set (d := (x `mod` 10)%N) in *. clearbody d. lia.
Qed.

Lemma pretty_N_go_value x s : dec_digits 0 (bytes_of (pretty_N_go x s)) = dec_digits (Z.of_N x) (bytes_of s).
Proof.
  revert s. induction (N.lt_wf_0 x) as [x _ IH]. intros s.
  destruct (decide (0 < x)%N); [|by replace x with 0%N by lia]. rewrite pretty_N_go_step by done.
  rewrite IH by by apply N.div_lt. 
  change (bytes_of (String ?c s)) with (code_of c :: bytes_of s). cbn [dec_digits].
  assert (x `mod` 10 < 10)%N by by apply N.mod_lt.
  rewrite pretty_char by done.
  replace (is_digit_byte (48 + Z.of_N (x `mod` 10))) with true
    by (symmetry; unfold is_digit_byte; rewrite andb_true_iff, !Z.leb_le; set (d := (x `mod` 10)%N) in *; clearbody d; lia).
  f_equal. pose proof (N.div_mod x 10). lia.
Qed.

Lemma pretty_N_digits x : all_chars is_decimal (pretty x) = true ∧ unsigned_digits (bytes_of (pretty x)) = Some (Z.of_N x).
Proof.
  unfold pretty, pretty_N. case_decide as Hx; [by subst|]. split; [by apply pretty_N_go_digits|].
  pose proof (pretty_N_go_value x "") as Hv. unfold unsigned_digits.
  destruct (bytes_of (pretty_N_go x "")); [|done]. cbn in Hv. injection Hv as Hv. lia.
Qed.

(** A digit is no sign. *)
Lemma split_sign_digits s : all_chars is_decimal s = true → split_sign (bytes_of s) = (false, bytes_of s).
Proof.
  destruct s as [|c s]; [done|]. intros H. apply andb_true_iff in H as [Hc _].
  change (bytes_of (String c s)) with (code_of c :: bytes_of s). cbn [split_sign].
  unfold is_decimal, is_digit_byte in Hc. rewrite andb_true_iff, !Z.leb_le in Hc. rewrite !eqb_false by lia. done.
Qed.

(** strconv reads back what strconv.Itoa and %d print. *)
Lemma ParseInt10_pretty bits z : 0 < bits → in_s bits z → ParseInt10 bits (pretty z) = Some z.
Proof.
  intros Hb Hz. unfold in_s in Hz. assert (0 < 2 ^ (bits - 1)) by (apply Z.pow_pos_nonneg; lia). unfold ParseInt10.
  destruct z as [|p|p].
  - change (pretty Z0) with (pretty 0%N). destruct (pretty_N_digits 0) as [Hd Hv].
    rewrite split_sign_digits by done. rewrite Hv. cbn [mbind option_bind Z.of_N]. by rewrite ltb_true by lia.
  - change (pretty (Zpos p)) with (pretty (Npos p)). destruct (pretty_N_digits (Npos p)) as [Hd Hv].
    rewrite split_sign_digits by done. rewrite Hv. cbn [mbind option_bind Z.of_N]. by rewrite ltb_true by lia.
  - change (pretty (Zneg p)) with ("-" +:+ pretty (Npos p)). destruct (pretty_N_digits (Npos p)) as [Hd Hv].
    change (split_sign (bytes_of ("-" +:+ pretty (Npos p)))) with (true, bytes_of (pretty (Npos p))). cbn beta iota.
    rewrite Hv. cbn [mbind option_bind Z.of_N]. by rewrite leb_true by lia.
Qed.

Lemma ParseUint10_pretty bits z : in_u bits z → ParseUint10 bits (pretty z) = Some z.
Proof.
  intros Hz. unfold in_u in Hz. unfold ParseUint10. destruct z as [|p|p]; [| |lia].
  - change (pretty Z0) with (pretty 0%N). destruct (pretty_N_digits 0) as [Hd Hv].
    rewrite Hv. cbn [mbind option_bind Z.of_N]. by rewrite ltb_true by lia.
  - change (pretty (Zpos p)) with (pretty (Npos p)). destruct (pretty_N_digits (Npos p)) as [Hd Hv].
    rewrite Hv. cbn [mbind option_bind Z.of_N]. by rewrite ltb_true by lia.
Qed.

Lemma Atoi_pretty z : in_s 64 z → Atoi (pretty z) = Some z.
Proof. by apply ParseInt10_pretty. Qed.

Lemma ParseInt10_range bits s z : 0 < bits → ParseInt10 bits s = Some z → in_s bits z.
Proof.
  intros Hb. unfold ParseInt10, in_s. assert (0 < 2 ^ (bits - 1)) by (apply Z.pow_pos_nonneg; lia).
  destruct (split_sign (bytes_of s)) as [neg ds]. destruct (unsigned_digits ds) as [n|] eqn:E; [|done].
  assert (0 <= n).
  { assert (∀ acc l m, 0 <= acc → dec_digits acc l = Some m → 0 <= m) as Hd.
    { intros acc l. revert acc. induction l as [|c l IH]; cbn; intros acc m ? Hm; [by injection Hm as <-|].
      unfold is_digit_byte in Hm. destruct (_ && _) eqn:Ed in Hm; [|done].
      rewrite andb_true_iff, !Z.leb_le in Ed. eapply IH, Hm. lia. }
    unfold unsigned_digits in E. destruct ds; [done|]. by eapply Hd, E. }
  cbn [mbind option_bind]. destruct neg; case_match eqn:Ec; try done; intros [= <-]; (apply Z.leb_le in Ec || apply Z.ltb_lt in Ec); lia.
Qed.

(** ** Words *)

Definition blank_free (s : string) : Prop := s ≠ "" ∧ all_chars (λ c, negb (is_space c)) s = true.

Lemma fields_run cur s rest : all_chars (λ c, negb (is_space c)) s = true →
  fields_func is_space cur (chars_of s ++ rest) = fields_func is_space (cur ++ chars_of s) rest.
Proof.
  revert cur. induction s as [|c s IH]; intros cur H; [by rewrite app_nil_r|].
  apply andb_true_iff in H as [Hc%negb_true_iff Hs]. cbn [String.list_ascii_of_string app fields_func]. rewrite Hc, IH by done.
  by rewrite <- app_assoc.
Qed.

Lemma chars_of_app s t : chars_of (s +:+ t) = chars_of s ++ chars_of t.
Proof. induction s as [|c s IH]; [done|]. change (c :: chars_of (s +:+ t) = c :: (chars_of s ++ chars_of t)). by rewrite IH. Qed.

Lemma fields_flush cur rest : cur ≠ [] → fields_func is_space cur (Ascii.ascii_of_nat 32 :: rest) = cur :: fields_func is_space [] rest.
Proof. intros H. cbn. by destruct cur. Qed.

(** strings.Fields takes apart what was joined with blanks. *)
Lemma Fields_Join ws : Forall blank_free ws → Fields (Join ws " ") = ws.
Proof.
  intros H. unfold Fields.
  enough (fields_func is_space [] (chars_of (Join ws " ")) = chars_of <$> ws) as ->.
  { rewrite <- list_fmap_compose. rewrite <- (list_fmap_id ws) at 2. apply list_fmap_ext. intros i s _.
    apply String.string_of_list_ascii_of_string. }
  induction H as [|w ws [Hne Hw] Hws IH]; [done|].
  assert (Hc : chars_of w ≠ []) by by destruct w.
  destruct ws as [|w' ws].
  - cbn [Join fmap list_fmap]. rewrite <- (app_nil_r (chars_of w)), fields_run by done.
    cbn [app fields_func]. rewrite app_nil_r. by destruct (chars_of w).
  - change (Join (w :: w' :: ws) " ") with (w +:+ " " +:+ Join (w' :: ws) " "). rewrite !chars_of_app, fields_run by done.
    cbn [app]. change (chars_of " ") with [Ascii.ascii_of_nat 32]. cbn [app]. rewrite fields_flush by done.
    rewrite IH. done.
Qed.

Lemma decimal_not_space c : is_decimal c = true → is_space c = false.
Proof. destruct c as [[] [] [] [] [] [] [] []]; vm_compute; done. Qed.

Lemma all_chars_impl (p q : Ascii.ascii → bool) s : (∀ c, p c = true → q c = true) → all_chars p s = true → all_chars q s = true.
Proof. intros H. induction s as [|c s IH]; cbn; [done|]. intros [Hc Hs]%andb_true_iff. by rewrite (H _ Hc), IH. Qed.

Lemma pretty_word (z : Z) : blank_free (pretty z).
Proof.
  assert (Hn : ∀ n : N, blank_free (pretty n)).
  { intros n. destruct (pretty_N_digits n) as [Hd Hv]. split.
    - intros E. by rewrite E in Hv.
    - eapply all_chars_impl; [|exact Hd]. intros c ?%decimal_not_space. by apply negb_true_iff. }
  destruct z as [|p|p]; [done|apply (Hn (Npos p))|]. destruct (Hn (Npos p)) as [_ H]. split; [done|exact H].
Qed.

(** ** Ends of strings *)

Lemma append_assoc (s t u : string) : (s +:+ t) +:+ u = s +:+ (t +:+ u).
Proof. induction s as [|c s IH]; [done|]. change (String c ((s +:+ t) +:+ u) = String c (s +:+ (t +:+ u))). by rewrite IH. Qed.

Lemma append_nil_r (s : string) : s +:+ "" = s.
Proof. induction s as [|c s IH]; [done|]. change (String c (s +:+ "") = String c s). by rewrite IH. Qed.

Lemma prefix_append (s t : string) : String.prefix s (s +:+ t) = true.
Proof.
  induction s as [|c s IH]; [by destruct t|]. change (String c s +:+ t) with (String c (s +:+ t)). cbn [String.prefix].
  by destruct (Ascii.ascii_dec c c).
Qed.

Lemma length_append (s t : string) : String.length (s +:+ t) = (String.length s + String.length t)%nat.
Proof. induction s as [|c s IH]; [done|]. change (S (String.length (s +:+ t)) = S (String.length s + String.length t)). by rewrite IH. Qed.

Lemma substring_full (s : string) : String.substring 0 (String.length s) s = s.
Proof. induction s as [|c s IH]; [done|]. cbn. by rewrite IH. Qed.

Lemma substring_prefix (s t : string) : String.substring 0 (String.length s) (s +:+ t) = s.
Proof.
  induction s as [|c s IH]; [by destruct t|].
  change (String c (String.substring 0 (String.length s) (s +:+ t)) = String c s). by rewrite IH.
Qed.

Lemma substring_suffix (s t : string) : String.substring (String.length s) (String.length t) (s +:+ t) = t.
Proof. induction s as [|c s IH]; [apply substring_full|]. exact IH. Qed.

Lemma trim_suffix_append s t : trim_suffix (s +:+ t) t = s.
Proof.
  unfold trim_suffix. rewrite length_append, Nat.add_sub, substring_suffix.
  rewrite !bool_decide_eq_true_2 by (done || lia). apply substring_prefix.
Qed.

Lemma trim_suffix_other s c d : c ≠ d → trim_suffix (s +:+ String c "") (String d "") = s +:+ String c "".
Proof.
  intros Hc. unfold trim_suffix. rewrite length_append, Nat.add_sub.
  change (String.length (String d "")) with (String.length (String c "")). rewrite substring_suffix.
  rewrite (bool_decide_eq_false_2 (String c "" = String d "")); [done|congruence].
Qed.

Lemma no_char_append sep s t : no_char sep (s +:+ t) = no_char sep s && no_char sep t.
Proof.
  induction s as [|c s IH]; [done|].
  change (negb (bool_decide (c = sep)) && no_char sep (s +:+ t) = negb (bool_decide (c = sep)) && no_char sep s && no_char sep t).
  by rewrite IH, andb_assoc.
Qed.

Lemma blank_free_no_char sep w : is_space sep = true → blank_free w → no_char sep w = true.
Proof.
  intros Hs [_ H]. induction w as [|c w IH]; [done|]. cbn in H. apply andb_true_iff in H as [Hc Hw]. cbn.
  rewrite IH by done. rewrite bool_decide_eq_false_2; [done|]. intros ->. by rewrite Hs in Hc.
Qed.

(** The last character of a word is no blank. *)
Lemma blank_free_last w : blank_free w → ∃ s c, w = s +:+ String c "" ∧ is_space c = false.
Proof.
  intros [Hne H]. induction w as [|c w IH]; [done|]. apply andb_true_iff in H as [Hc%negb_true_iff Hw].
  destruct w as [|d w]; [by exists "", c|]. destruct IH as (s & e & E & He); [done..|].
  exists (String c s), e. split; [by rewrite E|done].
Qed.

Lemma trim_right_append s c : is_space c = false → trim_right (s +:+ String c "") = s +:+ String c "".
Proof.
  intros Hc. induction s as [|d s IH].
  { change (trim_right (String c "") = String c ""). cbn [trim_right]. by rewrite Hc. }
  change (String d s +:+ String c "") with (String d (s +:+ String c "")). cbn [trim_right]. rewrite IH. by destruct s.
Qed.

(** Words joined by blanks: the first and the last character. *)
Lemma Join_ends ws : Forall blank_free ws → ws ≠ [] →
  (∃ c t, Join ws " " = String c t ∧ is_space c = false) ∧ (∃ s c, Join ws " " = s +:+ String c "" ∧ is_space c = false).
Proof.
  intros H Hne. split.
  - destruct H as [|w ws [Hw Hb] _]; [done|]. destruct w as [|c w]; [done|].
    apply andb_true_iff in Hb as [Hc%negb_true_iff _].
    destruct ws as [|w' ws]; [by exists c, w|]. by exists c, (w +:+ " " +:+ Join (w' :: ws) " ").
  - induction H as [|w ws Hw Hws IH]; [done|]. destruct ws as [|w' ws]; [by apply blank_free_last|].
    destruct IH as (s & c & E & Hc); [done|]. exists (w +:+ " " +:+ s), c. split; [|done].
    change (Join (w :: w' :: ws) " ") with (w +:+ " " +:+ Join (w' :: ws) " "). by rewrite E, !append_assoc.
Qed.

Lemma TrimSpace_Join ws : Forall blank_free ws → ws ≠ [] → TrimSpace ("  " +:+ Join ws " ") = Join ws " ".
Proof.
  intros H Hne. destruct (Join_ends ws H Hne) as [(c & t & E & Hc) (s & d & E' & Hd)]. unfold TrimSpace.
  change (trim_left ("  " +:+ Join ws " ")) with (trim_left (Join ws " ")).
  replace (trim_left (Join ws " ")) with (Join ws " ") by (rewrite E; cbn; by rewrite Hc).
  rewrite E'. by apply trim_right_append.
Qed.

Lemma drop_cr_Join s ws : Forall blank_free ws → ws ≠ [] → drop_cr (s +:+ Join ws " ") = s +:+ Join ws " ".
Proof.
  intros H Hne. destruct (Join_ends ws H Hne) as [_ (t & c & -> & Hc)]. rewrite <- append_assoc.
  apply trim_suffix_other. intros ->. done.
Qed.

Lemma no_char_Join sep ws : is_space sep = true → sep ≠ Ascii.ascii_of_nat 32 → Forall blank_free ws →
  no_char sep (Join ws " ") = true.
Proof.
  intros Hs Hb. induction 1 as [|w ws Hw Hws IH]; [done|]. destruct ws as [|w' ws]; [by apply blank_free_no_char|].
  change (Join (w :: w' :: ws) " ") with (w +:+ " " +:+ Join (w' :: ws) " "). rewrite !no_char_append, IH.
  rewrite blank_free_no_char by done. cbn. rewrite bool_decide_eq_false_2; [done|]. intros E. by apply Hb.
Qed.
