(* ===== verification/AidlExpr.v ===== *)
(** * AidlExpr: constant expressions of AIDL

    Models src/internal/aidl/expr/expr.go: the normalisation of an expression's
    text and its evaluation.  The text goes to go/parser ([ParseExpr], a parameter,
    with the literal conversions of go/constant); the regular expression of
    [Normalize] and the arithmetic of go/constant are modelled.  A float is an
    exact rational; imaginary literals are left out.  Text is ASCII. *)

From stdpp Require Import base list numbers strings pretty gmap.
From Stdlib Require Import QArith.
From S2P Require Import Prelude Aidl GoText.

Open Scope Z_scope.

(** ** [Normalize] *)

(** A matcher gives the ways a pattern matches at the start of a text, preferred
    first: the text matched and the text after it. *)
Definition matcher : Type := string → list (string * string).

Definition one (p : Ascii.ascii → bool) : matcher := λ s,
  match s with
  | String c s' => if p c then [(String c "", s')] else []
  | EmptyString => []
  end.

(** [p+] and [p*], greedy. *)
Fixpoint some_of (p : Ascii.ascii → bool) (s : string) : list (string * string) :=
  match s with
  | String c s' =>
      if p c then map (λ '(a, r), (String c a, r)) (some_of p s') ++ [(String c "", s')] else []
  | EmptyString => []
  end.
Definition many_of (p : Ascii.ascii → bool) : matcher := λ s, some_of p s ++ [("", s)].

Definition seq (m n : matcher) : matcher := λ s,
  '(a, s1) ← m s; '(b, s2) ← n s1; [(a +:+ b, s2)].
Definition alt (m n : matcher) : matcher := λ s, m s ++ n s.
Definition maybe (m : matcher) : matcher := λ s, m s ++ [("", s)].

Definition is_char (chars : string) (c : Ascii.ascii) : bool := bool_decide (c ∈ String.list_ascii_of_string chars).
Definition is_digit (c : Ascii.ascii) : bool := (48 <=? code_of c) && (code_of c <=? 57).
Definition is_hex (c : Ascii.ascii) : bool :=
  is_digit c || (97 <=? lower_byte (code_of c)) && (lower_byte (code_of c) <=? 102).
Definition is_word (c : Ascii.ascii) : bool :=
  is_digit c || (97 <=? lower_byte (code_of c)) && (lower_byte (code_of c) <=? 122) && (65 <=? code_of c) || is_char "_" c.

(** [(?:\d+\.\d*|\.\d+|\d+)(?:[eE][+\-]?\d+)?|0[xX][0-9a-fA-F]+] *)
Definition number : matcher :=
  alt (seq (alt (seq (some_of is_digit) (seq (one (is_char ".")) (many_of is_digit)))
             (alt (seq (one (is_char ".")) (some_of is_digit)) (some_of is_digit)))
           (maybe (seq (one (is_char "eE")) (seq (maybe (one (is_char "+-"))) (some_of is_digit)))))
      (seq (one (is_char "0")) (seq (one (is_char "xX")) (some_of is_hex))).

Definition starts_word (s : string) : bool := match s with String c _ => is_word c | EmptyString => false end.

(** The whole expression at the start of [s], [before] telling whether a word
    character precedes: the group and the rest. *)
Definition literal_suffix (before : bool) (s : string) : option (string * string) :=
  if bool_decide (before = starts_word s) then None
  else head ('(group, s1) ← number s; '(_, s2) ← one (is_char "fFlLdD") s1;
             if starts_word s2 then [] else [(group, s2)]).

(** Replace every match by its group, from the left. *)
Fixpoint drop_suffixes (n : nat) (before : bool) (s : string) : string :=
  match n, s with
  | S n, String c s' =>
      match literal_suffix before s with
      | Some (group, rest) => group +:+ drop_suffixes n true rest
      | None => String c (drop_suffixes n (is_word c) s')
      end
  | _, _ => s
  end.

Fixpoint replace_tilde (s : string) : string :=
  match s with
  | EmptyString => EmptyString
  | String c s' => String (if is_char "~" c then Ascii.ascii_of_nat 94 else c) (replace_tilde s')
  end.

Definition Normalize (src : string) : string :=
  let src := TrimSpace src in
  if bool_decide (src = "") then ""
  else let src := replace_tilde src in drop_suffixes (String.length src) false src.

(** ** go/constant *)

Inductive constant := CUnknown | CBool (b : bool) | CString (s : string) | CInt (z : Z) | CFloat (q : Q).

(** The operators of go/token that go/constant computes, and any other by its text. *)
Inductive op := ADD | SUB | MUL | QUO | REM | AND | OR | XOR | AND_NOT | SHL | SHR | LAND | LOR | NOT | OTHER (text : string).
#[global] Instance op_eq : EqDecision op.
Proof. solve_decision. Defined.

(** A value, an error of this package, or a panic of go/constant. *)
Definition ceval (A : Type) : Type := result string A.

Definition invalid_operation {A} : ceval A := Panic "invalid operation".
Definition division_by_zero {A} : ceval A := Panic "division by zero".

Definition UnaryOp (o : op) (y : constant) : ceval constant :=
  match o, y with
  | ADD, (CUnknown | CInt _ | CFloat _) => Ok y
  | SUB, CUnknown => Ok y
  | SUB, CInt z => Ok (CInt (- z))
  | SUB, CFloat q => Ok (CFloat (- q))
  | XOR, CUnknown => Ok y
  | XOR, CInt z => Ok (CInt (Z.lnot z))
  | NOT, CUnknown => Ok y
  | NOT, CBool b => Ok (CBool (negb b))
  | _, _ => invalid_operation
  end.

(** The order of the kinds; [match_kinds] converts the lower one, or duplicates it
    when it cannot be converted. *)
Definition ord (x : constant) : Z :=
  match x with CUnknown => 0 | CBool _ | CString _ => 1 | CInt _ => 2 | CFloat _ => 4 end.

Definition match0 (x y : constant) : constant * constant :=
  match x, y with
  | CInt z, CFloat _ => (CFloat (inject_Z z), y)
  | _, _ => (x, x)
  end.

Definition match_kinds (x y : constant) : constant * constant :=
  if ord x <? ord y then match0 x y
  else if ord y <? ord x then let '(y', x') := match0 y x in (x', y')
  else (x, y).

Definition int_op (o : op) (a b : Z) : ceval constant :=
  match o with
  | ADD => Ok (CInt (a + b))
  | SUB => Ok (CInt (a - b))
  | MUL => Ok (CInt (a * b))
  | QUO => if b =? 0 then division_by_zero else Ok (CFloat (Qred (inject_Z a / inject_Z b)))
  | REM => if b =? 0 then division_by_zero else Ok (CInt (Z.rem a b))
  | AND => Ok (CInt (Z.land a b))
  | OR => Ok (CInt (Z.lor a b))
  | XOR => Ok (CInt (Z.lxor a b))
  | AND_NOT => Ok (CInt (Z.ldiff a b))
  | _ => invalid_operation
  end.

Definition float_op (o : op) (a b : Q) : ceval constant :=
  match o with
  | ADD => Ok (CFloat (Qred (a + b)))
  | SUB => Ok (CFloat (Qred (a - b)))
  | MUL => Ok (CFloat (Qred (a * b)))
  | QUO => if Qeq_bool b 0 then division_by_zero else Ok (CFloat (Qred (a / b)))
  | _ => invalid_operation
  end.

(** Two values of one ordinal but different types fail a type assertion. *)
Definition BinaryOp (x : constant) (o : op) (y : constant) : ceval constant :=
  match match_kinds x y with
  | (CUnknown, _) => Ok CUnknown
  | (CBool a, CBool b) =>
      match o with LAND => Ok (CBool (a && b)) | LOR => Ok (CBool (a || b)) | _ => invalid_operation end
  | (CString a, CString b) => if bool_decide (o = ADD) then Ok (CString (a +:+ b)) else invalid_operation
  | (CString _, _) => if bool_decide (o = ADD) then Panic "interface conversion" else invalid_operation
  | (CInt a, CInt b) => int_op o a b
  | (CFloat a, CFloat b) => float_op o a b
  | _ => Panic "interface conversion"
  end.

Definition Shift (x : constant) (o : op) (s : Z) : ceval constant :=
  match x, o with
  | CUnknown, _ => Ok x
  | CInt z, SHL => Ok (CInt (Z.shiftl z s))
  | CInt z, SHR => Ok (CInt (Z.shiftr z s))
  | _, _ => Panic "invalid shift"
  end.

(** [None] is [ok == false]. *)
Definition Uint64Val (x : constant) : ceval (option Z) :=
  match x with
  | CInt z => Ok (if (0 <=? z) && (z <? 2 ^ 64) then Some z else None)
  | CUnknown => Ok None
  | _ => Panic "not an Int"
  end.

(** ** Expressions (go/ast) *)

Inductive literal_kind := LitInt | LitFloat | LitChar | LitString.

Inductive goexpr :=
| BasicLit (kind : literal_kind) (value : string)
| Ident (name : string)
| SelectorExpr (x : goexpr) (sel : string)
| ParenExpr (x : goexpr)
| UnaryExpr (o : op) (x : goexpr)
| BinaryExpr (x : goexpr) (o : op) (y : goexpr)
| OtherExpr.

(** go/parser's [ParseExpr] and go/constant's [MakeFromLiteral]. *)
Class GoFrontEnd := {
  ParseExpr : string → goexpr + string;
  MakeFromLiteral : literal_kind → string → constant;
}.

Definition Env : Type := gmap string constant.

(** The names of a selector, from the left. *)
Fixpoint selector_parts (x : goexpr) : option (list string) :=
  match x with
  | Ident name => Some [name]
  | SelectorExpr x' sel => parts ← selector_parts x'; Some (parts ++ [sel])
  | _ => None
  end.

Definition selectorName (x : goexpr) (sel : string) : option string :=
  parts ← selector_parts x; Some (Join (parts ++ [sel]) ".").

Section Eval.
Context `{GoFrontEnd}.

Definition Expr_Parse (src : string) : ceval goexpr :=
  let src := Normalize src in
  if bool_decide (src = "") then Err "empty expression"
  else match ParseExpr src with inl e => Ok e | inr err => Err err end.

Definition cbind {A C} (k : A → ceval C) (m : ceval A) : ceval C :=
  match m with Ok a => k a | Err e => Err e | Panic y => Panic y end.

Fixpoint evalNode (node : goexpr) (env : Env) : ceval constant :=
  match node with
  | BasicLit kind value => Ok (MakeFromLiteral kind value)
  | Ident name =>
      if bool_decide (name = "true") then Ok (CBool true)
      else if bool_decide (name = "false") then Ok (CBool false)
      else match env !! name with Some v => Ok v | None => Err ("unresolved identifier " +:+ name)%string end
  | SelectorExpr x sel =>
      match selectorName x sel with
      | None => Err "unsupported selector expression"
      | Some name =>
          match env !! name with Some v => Ok v | None => Err ("unresolved selector " +:+ name)%string end
      end
  | ParenExpr x => evalNode x env
  | UnaryExpr o x => cbind (UnaryOp o) (evalNode x env)
  | BinaryExpr x o y =>
      cbind (λ vx,
        cbind (λ vy,
          if bool_decide (o = SHL) || bool_decide (o = SHR) then
            cbind (λ shift, match shift with None => Err "invalid shift count" | Some s => Shift vx o s end) (Uint64Val vy)
          else BinaryOp vx o vy) (evalNode y env)) (evalNode x env)
  | OtherExpr => Err "unsupported expression"
  end.

Definition Eval (src : string) (env : Env) : ceval constant := cbind (λ node, evalNode node env) (Expr_Parse src).

Definition EvalInt64 (src : string) (env : Env) : ceval Z :=
  cbind (λ v, match v with
              | CInt z => if bool_decide (in_s 64 z) then Ok z else Err "integer constant out of int64 range"
              | _ => Err "not an integer constant"
              end) (Eval src env).

Definition EvalBool (src : string) (env : Env) : ceval bool :=
  cbind (λ v, match v with CBool b => Ok b | _ => Err "not a boolean constant" end) (Eval src env).
End Eval.
