(* ===== verification/AidlResolve.v ===== *)
(** * AidlResolve: validation of AIDL files

    Models src/internal/aidl/resolve/resolve.go.  The validator collects the
    declarations of a file by name and reports diagnostics; here a computation is
    the diagnostics it adds with a value or a panic, and a diagnostic keeps the
    values its message is formatted from.  The map [isFixedSizeType] marks types in
    is threaded through its calls, as the code shares it. *)

From stdpp Require Import base list numbers strings pretty gmap.
From S2P Require Import Prelude Aidl GoText AidlExpr.

Open Scope Z_scope.

(** ** Diagnostics *)

Inductive Diagnostic :=
| NilFile
| DuplicateDeclaration (name : string)
| DuplicateMember (kind name owner : string)
| InvalidConst (location value err : string)
| InvalidEnumValue (enum member value err : string)
| MissingEnumValue (enum member : string)
| NotFixedSize (kind owner field : string)
| InvalidDefault (location value err : string)
| InvalidArrayLength (location : string) (length : Z)
| TakesNoArguments (annotation : string)
| NotValidOn (annotation kind : string)
| OnlyParcelableOrUnion (annotation : string)
| RequiresStructured (annotation : string)
| BackingNamedArgument (annotation : string)
| BackingRequired (annotation : string)
| UnsupportedBacking (enum backing : string)
| NonNullableType (location annotation type : string)
| InvalidNullableArgument (location annotation value err : string)
| UnsupportedNullableArgument (location annotation name : string).

(** A value (or a panic) with the diagnostics added on the way. *)
Definition VM (A : Type) : Type := result Empty_set A * list Diagnostic.

#[global] Instance VM_ret : MRet VM := λ A a, (Ok a, []).
#[global] Instance VM_bind : MBind VM := λ A C k m,
  match m with
  | (Ok a, l) => let '(r, l') := k a in (r, l ++ l')
  | (Err e, l) => (Err e, l)
  | (Panic y, l) => (Panic y, l)
  end.

Definition addf (d : Diagnostic) : VM unit := (Ok tt, [d]).
Definition addf_if (b : bool) (d : Diagnostic) : VM unit := if b then addf d else mret tt.

Fixpoint for_each {A} (f : A → VM unit) (l : list A) : VM unit :=
  match l with [] => mret tt | x :: l' => f x;; for_each f l' end.

(** The expressions' errors; a panic of go/constant is not recovered. *)
Definition evaluated {A} (m : ceval A) (bad : string → Diagnostic) : VM (option A) :=
  match m with
  | Ok a => mret (Some a)
  | Err e => addf (bad e);; mret None
  | Panic y => (Panic y, [])
  end.

(** ** Names *)

Definition declName (d : Decl) : string :=
  match d with
  | DInterface (mkInterfaceDecl _ _ name _) => name
  | DParcelable (mkParcelableDecl _ name _ _ _ _ _) => name
  | DEnum e => ed_Name e
  | DUnion u => ud_Name u
  end.

Definition interfaceMemberName (m : InterfaceMember) : string :=
  match m with
  | MMethod m => md_Name m
  | MConst c => cd_Name c
  | MParcelable (mkParcelableDecl _ name _ _ _ _ _) => name
  | MEnum e => ed_Name e
  | MUnion u => ud_Name u
  end.

Definition hasAnnotation (annotations : list Annotation) (names : list string) : bool :=
  existsb (λ ann, bool_decide (ann_Name ann ∈ names)) annotations.

Definition fixed_size_names : list string := ["FixedSize"; "android.annotation.FixedSize"].
Definition nullable_names : list string := ["nullable"; "android.annotation.Nullable"].
Definition vintf_names : list string := ["VintfStability"; "android.annotation.VintfStability"].
Definition backing_names : list string := ["Backing"; "android.annotation.Backing"].

Definition set_Nullable (b : bool) (ref : TypeRef) : TypeRef :=
  mkTypeRef (tr_Annotations ref) (tr_Name ref) (tr_TypeArgs ref) (tr_Array ref) (tr_FixedArrayLen ref) b.

Definition applyFieldAnnotations (field : Field) : TypeRef :=
  if hasAnnotation (fld_Annotations field) nullable_names then set_Nullable true (fld_Type field) else fld_Type field.

(** strings.Split at dots. *)
Fixpoint split_dots (s : string) : list string :=
  match s with
  | EmptyString => [""]
  | String c s' =>
      match split_dots s' with
      | [] => [""]
      | part :: parts => if bool_decide (c = dot) then "" :: part :: parts else String c part :: parts
      end
  end.

(** The suffixes of a qualified name, the longest first. *)
Fixpoint suffixes (parts : list string) : list string :=
  match parts with [] => [] | _ :: rest => Join parts "." :: suffixes rest end.

Definition registerNameAliases {A} (qname : string) (v : A) (dst : gmap string A) : gmap string A :=
  if bool_decide (qname = "") then dst
  else fold_left (λ dst alias, match dst !! alias with None => <[alias := v]> dst | Some _ => dst end)
         (suffixes (split_dots qname)) dst.

Definition contains_dot (s : string) : bool := bool_decide (dot ∈ String.list_ascii_of_string s).

Section Validator.
Context `{GoFrontEnd} (pkg : string).

Definition qualifiedName (scope : list string) (name : string) : string :=
  Join ((if bool_decide (pkg = "") then [] else [pkg]) ++ scope ++ [name]) ".".

(** The declarations of the file, by qualified name and by the shorter names. *)
Record declarations := mkDeclarations { declsByQName : gmap string Decl; declsByName : gmap string Decl }.

Definition register (scope : list string) (d : Decl) (ds : declarations) : declarations :=
  let qname := qualifiedName scope (declName d) in
  match declsByQName ds !! qname with
  | Some _ => ds
  | None => mkDeclarations (<[qname := d]> (declsByQName ds)) (registerNameAliases qname d (declsByName ds))
  end.

(** A declaration and the ones nested in it. *)
Fixpoint collect_decl (scope : list string) (d : Decl) (ds : declarations) : declarations :=
  if bool_decide (declName d = "") then ds
  else
    let ds := register scope d ds in
    match d with
    | DInterface (mkInterfaceDecl _ _ name members) =>
        (fix go ms ds :=
           match ms with
           | [] => ds
           | MParcelable p :: ms => go ms (collect_parcelable (scope ++ [name]) p ds)
           | MEnum e :: ms =>
               go ms (if bool_decide (ed_Name e = "") then ds else register (scope ++ [name]) (DEnum e) ds)
           | MUnion u :: ms =>
               go ms (if bool_decide (ud_Name u = "") then ds else register (scope ++ [name]) (DUnion u) ds)
           | _ :: ms => go ms ds
           end) members ds
    | DParcelable (mkParcelableDecl _ name _ _ _ _ decls) =>
        (fix go l ds := match l with [] => ds | x :: l => go l (collect_decl (scope ++ [name]) x ds) end) decls ds
    | _ => ds
    end
with collect_parcelable (scope : list string) (p : ParcelableDecl) (ds : declarations) : declarations :=
  match p with
  | mkParcelableDecl _ name _ _ _ _ decls =>
      if bool_decide (name = "") then ds
      else
        (fix go l ds := match l with [] => ds | x :: l => go l (collect_decl (scope ++ [name]) x ds) end)
          decls (register scope (DParcelable p) ds)
  end.

Definition collectDecls (decls : list Decl) : declarations :=
  fold_left (λ ds d, collect_decl [] d ds) decls (mkDeclarations ∅ ∅).

Context (ds : declarations).

Definition lookupType (name : string) : option Decl :=
  if bool_decide (name = "") then None
  else
    match declsByQName ds !! name with
    | Some d => Some d
    | None =>
        match (if bool_decide (pkg = "") then None else declsByQName ds !! (pkg +:+ "." +:+ name)%string) with
        | Some d => Some d
        | None => declsByName ds !! name
        end
    end.

Definition lookupQName (scope : list string) (name : string) : string :=
  if contains_dot name then
    match declsByQName ds !! name with
    | Some _ => name
    | None => if bool_decide (pkg = "") then name else (pkg +:+ "." +:+ name)%string
    end
  else qualifiedName scope name.

(** ** Types *)

Definition never_nullable : list string :=
  ["void"; "boolean"; "byte"; "char"; "int"; "long"; "float"; "double"; "FileDescriptor"].
Definition always_nullable : list string := ["String"; "IBinder"; "ParcelFileDescriptor"].

Definition isNullableType (ref : TypeRef) : bool :=
  if tr_Array ref || bool_decide (tr_Name ref = "List") then true
  else if bool_decide (tr_Name ref ∈ always_nullable) then true
  else if bool_decide (tr_Name ref ∈ never_nullable) then false
  else match lookupType (tr_Name ref) with Some (DEnum _) => false | _ => true end.

Definition primitives : list string := ["boolean"; "byte"; "char"; "int"; "long"; "float"; "double"].
Definition variable_size : list string := ["String"; "IBinder"; "FileDescriptor"; "ParcelFileDescriptor"].

(** The annotations and fields of a parcelable or union. *)
Definition composite (d : option Decl) : option (list Annotation * list Field) :=
  match d with
  | Some (DParcelable (mkParcelableDecl anns _ _ _ _ fields _)) => Some (anns, fields)
  | Some (DUnion u) => Some (ud_Annotations u, ud_Fields u)
  | _ => None
  end.

Definition array_base (ref : TypeRef) : TypeRef :=
  mkTypeRef (tr_Annotations ref) (tr_Name ref) (tr_TypeArgs ref) false None (tr_Nullable ref).

(** The loop over the fields. *)
Fixpoint all_fixed (check : TypeRef → gset string → option (bool * gset string)) (l : list Field) (seen : gset string)
  : option (bool * gset string) :=
  match l with
  | [] => Some (true, seen)
  | field :: l =>
      match check (applyFieldAnnotations field) seen with
      | Some (true, seen') => all_fixed check l seen'
      | r => r
      end
  end.

(** [None]: out of fuel.  The set is the map [seen]. *)
Fixpoint isFixedSizeType (n : nat) (scope : list string) (ref : TypeRef) (seen : gset string) : option (bool * gset string) :=
  match n with
  | O => None
  | S n =>
      if tr_Nullable ref then Some (false, seen)
      else if tr_Array ref then
        match tr_FixedArrayLen ref with
        | None => Some (false, seen)
        | Some _ =>
            isFixedSizeType n scope (array_base ref) seen
        end
      else if bool_decide (tr_Name ref = "List") then Some (false, seen)
      else if bool_decide (tr_Name ref ∈ primitives) then Some (true, seen)
      else if bool_decide (tr_Name ref ∈ variable_size) then Some (false, seen)
      else
        match lookupType (tr_Name ref) with
        | Some (DEnum _) => Some (true, seen)
        | d =>
            match composite d with
            | None => Some (false, seen)
            | Some (anns, fields) =>
                if negb (hasAnnotation anns fixed_size_names) then Some (false, seen)
                else
                  let qname := lookupQName scope (tr_Name ref) in
                  if bool_decide (qname ∈ seen) then Some (true, seen)
                  else
                    all_fixed (isFixedSizeType n scope) fields ({[qname]} ∪ seen)
            end
        end
  end.

(** Every marked name is the qualified name of a field's type; twice as many calls
    and two are enough. *)
Definition all_fields : list Field :=
  map_to_list (declsByQName ds) ≫= (λ '(_, d), match composite (Some d) with Some (_, fields) => fields | None => [] end).
Definition fixed_fuel : nat := 2 * length all_fields + 4.

Definition is_fixed (scope : list string) (ref : TypeRef) : bool :=
  match isFixedSizeType fixed_fuel scope ref ∅ with Some (b, _) => b | None => false end.

(** ** Annotations and fields *)

Definition validateDeclAnnotations (kind : string) (annotations : list Annotation) (structured : bool) : VM unit :=
  for_each (λ ann,
    let name := ann_Name ann in
    let no_args := addf_if (negb (bool_decide (ann_Args ann = []))) (TakesNoArguments name) in
    if bool_decide (name ∈ vintf_names) then
      no_args;;
      addf_if (negb (bool_decide (kind ∈ ["interface"; "parcelable"; "union"]))) (NotValidOn name kind)
    else if bool_decide (name ∈ fixed_size_names) then
      no_args;;
      addf_if (negb (bool_decide (kind ∈ ["parcelable"; "union"]))) (OnlyParcelableOrUnion name);;
      addf_if (bool_decide (kind = "parcelable") && negb structured) (RequiresStructured name)
    else addf_if (bool_decide (name ∈ nullable_names ++ backing_names)) (NotValidOn name (kind +:+ " declarations")%string))
  annotations.

(** strings.Trim with a double quote as cutset. *)
Definition double_quote : Ascii.ascii := Ascii.ascii_of_nat 34.
Fixpoint trim_quotes_left (s : string) : string :=
  match s with String c s' => if bool_decide (c = double_quote) then trim_quotes_left s' else s | EmptyString => s end.
Definition string_rev (s : string) : string := String.string_of_list_ascii (rev (String.list_ascii_of_string s)).
Definition trim_quotes (s : string) : string := string_rev (trim_quotes_left (string_rev (trim_quotes_left s))).

(** The last argument that names a backing type. *)
Definition backing_of (ann : Annotation) : string :=
  fold_left (λ backing arg, if bool_decide (aarg_Name arg = "") || bool_decide (aarg_Name arg = "type")
                            then trim_quotes (aarg_Value arg) else backing) (ann_Args ann) "".

Definition validateEnumAnnotations (d : EnumDecl) : VM unit :=
  for_each (λ ann,
    let name := ann_Name ann in
    if bool_decide (name ∈ backing_names) then
      for_each (λ arg, addf_if (negb (bool_decide (aarg_Name arg = "") || bool_decide (aarg_Name arg = "type")))
                         (BackingNamedArgument name)) (ann_Args ann);;
      let backing := backing_of ann in
      if bool_decide (backing = "") then addf (BackingRequired name)
      else addf_if (negb (bool_decide (backing ∈ ["byte"; "int"; "long"]))) (UnsupportedBacking (ed_Name d) backing)
    else addf_if (bool_decide (name ∈ vintf_names ++ nullable_names ++ fixed_size_names)) (NotValidOn name "enum declarations"))
  (ed_Annotations d).

Definition validateNullableAnnotation (annotations : list Annotation) (ref : TypeRef) (location : string) : VM unit :=
  for_each (λ ann,
    let name := ann_Name ann in
    if negb (bool_decide (name ∈ nullable_names)) then mret tt
    else
      addf_if (negb (isNullableType ref)) (NonNullableType location name (tr_Name ref));;
      for_each (λ arg,
        if bool_decide (aarg_Name arg = "heap") || bool_decide (aarg_Name arg = "") then
          evaluated (EvalBool (aarg_Value arg) ∅) (InvalidNullableArgument location name (aarg_Value arg));; mret tt
        else addf (UnsupportedNullableArgument location name (aarg_Name arg))) (ann_Args ann))
  annotations.

Fixpoint validateTypeRef (ref : TypeRef) (location : string) : VM unit :=
  validateNullableAnnotation (tr_Annotations ref) ref location;;
  (fix go l := match l with [] => mret tt | arg :: l => validateTypeRef arg location;; go l end) (tr_TypeArgs ref);;
  match tr_FixedArrayLen ref with
  | Some n => addf_if (tr_Array ref && (n <? 0)) (InvalidArrayLength location n)
  | None => mret tt
  end.

Definition validateField (field : Field) (location : string) : VM unit :=
  validateNullableAnnotation (fld_Annotations field) (fld_Type field) location;;
  validateTypeRef (fld_Type field) location;;
  if bool_decide (fld_DefaultValue field = "") then mret tt
  else evaluated (Expr_Parse (fld_DefaultValue field)) (InvalidDefault location (fld_DefaultValue field));; mret tt.

(** ** Members *)

Definition validateMethod (owner : string) (m : MethodDecl) : VM unit :=
  let location := ("method " +:+ owner +:+ "." +:+ md_Name m)%string in
  validateNullableAnnotation (md_Annotations m) (md_Return m) (location +:+ " return");;
  validateTypeRef (md_Return m) (location +:+ " return");;
  for_each (λ arg, validateField arg (location +:+ " argument " +:+ fld_Name arg)%string) (md_Args m).

(** [env] is the map of the values known so far; the code updates it in place. *)
Definition validate_const (location qname : string) (c : ConstDecl) (env : Env) : VM Env :=
  validateTypeRef (cd_Type c) location;;
  value ← evaluated (Eval (cd_Value c) env) (InvalidConst location (cd_Value c));
  mret (match value with Some v => registerNameAliases qname v env | None => env end).

Definition validateConst (owner : string) (c : ConstDecl) (env : Env) : VM Env :=
  validate_const ("const " +:+ owner +:+ "." +:+ cd_Name c)%string (qualifiedName [owner] (cd_Name c)) c env.

Definition validateParcelableConst (scope : list string) (owner : string) (c : ConstDecl) (env : Env) : VM Env :=
  validate_const ("parcelable " +:+ owner +:+ " const " +:+ cd_Name c)%string
    (qualifiedName (scope ++ [owner]) (cd_Name c)) c env.

(** [next] is unknown ([None]) after a value that could not be evaluated. *)
Fixpoint validate_members (enum qname : string) (members : list EnumMember) (env : Env) (next : option Z) : VM unit :=
  match members with
  | [] => mret tt
  | m :: members =>
      let name := (qname +:+ "." +:+ em_Name m)%string in
      if negb (bool_decide (em_Value m = "")) then
        value ← evaluated (EvalInt64 (em_Value m) env) (InvalidEnumValue enum (em_Name m) (em_Value m));
        match value with
        | Some v => validate_members enum qname members (registerNameAliases name (CInt v) env) (Some (i64 (v + 1)))
        | None => validate_members enum qname members env None
        end
      else
        match next with
        | None => addf (MissingEnumValue enum (em_Name m));; validate_members enum qname members env None
        | Some v => validate_members enum qname members (registerNameAliases name (CInt v) env) (Some (i64 (v + 1)))
        end
  end.

Definition validateEnum (scope : list string) (d : EnumDecl) : VM unit :=
  validateEnumAnnotations d;; validate_members (ed_Name d) (qualifiedName scope (ed_Name d)) (ed_Members d) ∅ (Some 0).

Definition check_fixed (kind owner : string) (scope : list string) (annotations : list Annotation) (fields : list Field) : VM unit :=
  if hasAnnotation annotations fixed_size_names then
    for_each (λ field, addf_if (negb (is_fixed scope (applyFieldAnnotations field))) (NotFixedSize kind owner (fld_Name field))) fields
  else mret tt.

Definition validateUnion (scope : list string) (d : UnionDecl) : VM unit :=
  validateDeclAnnotations "union" (ud_Annotations d) true;;
  for_each (λ field, validateField field ("union " +:+ ud_Name d +:+ " field " +:+ fld_Name field)%string) (ud_Fields d);;
  check_fixed "union" (ud_Name d) scope (ud_Annotations d) (ud_Fields d).

(** ** Declarations *)

Fixpoint validate_consts (scope : list string) (owner : string) (cs : list ConstDecl) (seen : gset string) (env : Env)
  : VM (gset string) :=
  match cs with
  | [] => mret seen
  | c :: cs =>
      if bool_decide (cd_Name c ∈ seen) then
        addf (DuplicateMember "parcelable" (cd_Name c) owner);; validate_consts scope owner cs seen env
      else
        env' ← validateParcelableConst scope owner c env;
        validate_consts scope owner cs ({[cd_Name c]} ∪ seen) env'
  end.

Fixpoint validate_fields (owner : string) (fs : list Field) (seen : gset string) : VM (gset string) :=
  match fs with
  | [] => mret seen
  | f :: fs =>
      if bool_decide (fld_Name f ∈ seen) then
        addf (DuplicateMember "parcelable" (fld_Name f) owner);; validate_fields owner fs seen
      else
        validateField f ("parcelable " +:+ owner +:+ " field " +:+ fld_Name f)%string;;
        validate_fields owner fs ({[fld_Name f]} ∪ seen)
  end.

(** Only the names of the nested declarations. *)
Fixpoint nested_names (owner : string) (decls : list Decl) (seen : gset string) : VM unit :=
  match decls with
  | [] => mret tt
  | d :: decls =>
      let name := declName d in
      if bool_decide (name = "") then nested_names owner decls seen
      else if bool_decide (name ∈ seen) then addf (DuplicateMember "parcelable" name owner);; nested_names owner decls seen
      else nested_names owner decls ({[name]} ∪ seen)
  end.

(** The loop of [validateDecls], over the check of one declaration. *)
Definition validate_list (check : Decl → VM unit) : list Decl → gset string → VM unit :=
  fix go l seen :=
    match l with
    | [] => mret tt
    | d :: l =>
        let n := declName d in
        if negb (bool_decide (n = "")) && bool_decide (n ∈ seen) then addf (DuplicateDeclaration n);; go l seen
        else check d;; go l (if bool_decide (n = "") then seen else {[n]} ∪ seen)
    end.

(** The loop of [validateInterface], over the check of one member. *)
Definition validate_interface_members (owner : string) (check : InterfaceMember → Env → VM Env)
  : list InterfaceMember → gset string → Env → VM unit :=
  fix go ms seen env :=
    match ms with
    | [] => mret tt
    | m :: ms =>
        let name := interfaceMemberName m in
        if negb (bool_decide (name = "")) && bool_decide (name ∈ seen) then
          addf (DuplicateMember "interface" name owner);; go ms seen env
        else
          env' ← check m env;
          go ms (if bool_decide (name = "") then seen else {[name]} ∪ seen) env'
    end.

Fixpoint validateDecl (scope : list string) (d : Decl) : VM unit :=
  match d with
  | DInterface i => validateInterface scope i
  | DParcelable p => validateParcelable scope p
  | DEnum e => validateEnum scope e
  | DUnion u => validateUnion scope u
  end
with validateInterface (scope : list string) (i : InterfaceDecl) : VM unit :=
  match i with
  | mkInterfaceDecl annotations _ owner members =>
      validateDeclAnnotations "interface" annotations true;;
      validate_interface_members owner (λ m env,
        match m with
        | MMethod m => validateMethod owner m;; mret env
        | MConst c => validateConst owner c env
        | MParcelable p => validateParcelable (scope ++ [owner]) p;; mret env
        | MEnum e => validateEnum (scope ++ [owner]) e;; mret env
        | MUnion u => validateUnion (scope ++ [owner]) u;; mret env
        end) members ∅ ∅
  end
with validateParcelable (scope : list string) (p : ParcelableDecl) : VM unit :=
  match p with
  | mkParcelableDecl annotations name _ structured consts fields decls =>
      validateDeclAnnotations "parcelable" annotations structured;;
      seen ← validate_consts scope name consts ∅ ∅;
      seen ← validate_fields name fields seen;
      nested_names name decls seen;;
      validate_list (validateDecl (scope ++ [name])) decls ∅;;
      check_fixed "parcelable" name (scope ++ [name]) annotations fields
  end.

Definition validateDecls (scope : list string) (decls : list Decl) : VM unit := validate_list (validateDecl scope) decls ∅.
End Validator.

Definition ValidateFile `{GoFrontEnd} (file : option File) : VM unit :=
  match file with
  | None => addf NilFile
  | Some f =>
      let pkg := file_PackageName f in
      validateDecls pkg (collectDecls pkg (file_Decls f)) [] (file_Decls f)
  end.
