(* ===== verification/AidlResolveProps.v ===== *)
(** * AidlResolveProps: what the AIDL validator guarantees

    Theorems on AidlExpr and AidlResolve: a parcelable is accepted as @FixedSize
    exactly when every type reachable from it has a fixed size (given that its type
    names resolve uniquely), the check ends, and accepted declarations have no
    duplicates; with the defects found in names and literals. *)

From stdpp Require Import base list numbers strings pretty gmap fin_sets.
From S2P Require Import Prelude Aidl GoText AidlExpr AidlResolve.

Open Scope Z_scope.

(** ** Fixed-size types *)

Section Fixed.
Context (pkg : string) (ds : declarations) (scope : list string).
Implicit Types (ref t : TypeRef) (seen : gset string).

Abbreviation lookup := (lookupType pkg ds).
Abbreviation qname := (lookupQName pkg ds scope).

(** A type name that is looked up in the file. *)
Definition user_type (name : string) : Prop := (name ≠ "List") ∧ (name ∉ primitives) ∧ (name ∉ variable_size).

(** The types a type is made of. *)
Inductive reaches : TypeRef → TypeRef → Prop :=
| reaches_refl ref : reaches ref ref
| reaches_base ref t : tr_Array ref = true → reaches (array_base ref) t → reaches ref t
| reaches_field ref anns fields f t : tr_Array ref = false → user_type (tr_Name ref) →
    composite (lookup (tr_Name ref)) = Some (anns, fields) → f ∈ fields →
    reaches (applyFieldAnnotations f) t → reaches ref t.

Definition enum_type (name : string) : Prop := ∃ e, lookup name = Some (DEnum e).
Definition fixed_composite (name : string) : Prop :=
  ∃ anns fields, composite (lookup name) = Some (anns, fields) ∧ hasAnnotation anns fixed_size_names = true.

(** Nothing in the type itself is of variable size. *)
Definition fixed_here t : Prop :=
  tr_Nullable t = false ∧
  if tr_Array t then tr_FixedArrayLen t ≠ None
  else tr_Name t ∈ primitives ∨ user_type (tr_Name t) ∧ (enum_type (tr_Name t) ∨ fixed_composite (tr_Name t)).

(** *** One call *)

Definition composite_type (name : string) (fields : list Field) : Prop :=
  user_type name ∧ ∃ anns, composite (lookup name) = Some (anns, fields) ∧ hasAnnotation anns fixed_size_names = true.

(** What a call does, by the kind of the type. *)
Inductive verdict (n : nat) ref seen : option (bool * gset string) → Prop :=
| v_no : ¬ fixed_here ref → verdict n ref seen (Some (false, seen))
| v_array : tr_Nullable ref = false → tr_Array ref = true → tr_FixedArrayLen ref ≠ None →
    verdict n ref seen (isFixedSizeType pkg ds n scope (array_base ref) seen)
| v_leaf : fixed_here ref → tr_Array ref = false → (∀ fields, ¬ composite_type (tr_Name ref) fields) →
    verdict n ref seen (Some (true, seen))
| v_seen fields : fixed_here ref → tr_Array ref = false → composite_type (tr_Name ref) fields → qname (tr_Name ref) ∈ seen →
    verdict n ref seen (Some (true, seen))
| v_fields fields : fixed_here ref → tr_Array ref = false → composite_type (tr_Name ref) fields → qname (tr_Name ref) ∉ seen →
    verdict n ref seen (all_fixed (isFixedSizeType pkg ds n scope) fields ({[qname (tr_Name ref)]} ∪ seen)).

(** The last part of a call. *)
Lemma named_verdict n ref seen d : tr_Nullable ref = false → tr_Array ref = false → user_type (tr_Name ref) →
  lookup (tr_Name ref) = Some d → (∀ e, d ≠ DEnum e) →
  verdict n ref seen
    match composite (Some d) with
    | None => Some (false, seen)
    | Some (anns, fields) =>
        if negb (hasAnnotation anns fixed_size_names) then Some (false, seen)
        else if bool_decide (qname (tr_Name ref) ∈ seen) then Some (true, seen)
        else all_fixed (isFixedSizeType pkg ds n scope) fields ({[qname (tr_Name ref)]} ∪ seen)
    end.
Proof.
  intros En Ea Hu Elk Hd.
  assert (Hno : ¬ fixed_composite (tr_Name ref) → ¬ fixed_here ref).
  { intros Hc [_ H]. rewrite Ea in H. destruct H as [H|(_ & [[e H]|H])]; [by apply (proj1 (proj2 Hu)) in H|rewrite Elk in H; injection H as ->; by eapply Hd|done]. }
  destruct (composite (Some d)) as [[anns fields]|] eqn:Ec.
  2:{ apply v_no, Hno. intros (anns & fs & H & _). rewrite Elk in H. congruence. }
  destruct (hasAnnotation anns fixed_size_names) eqn:Eh; cbn [negb].
  - assert (Hc : composite_type (tr_Name ref) fields) by (split; [done|]; exists anns; by rewrite Elk).
    assert (Hf : fixed_here ref) by (split; [done|]; rewrite Ea; right; split; [done|]; right; exists anns, fields; by rewrite Elk).
    case_bool_decide; [by eapply v_seen|by apply v_fields].
  - apply v_no, Hno. intros (anns' & fs & H & Ha). rewrite Elk in H. congruence.
Qed.

Lemma fixed_verdict n ref seen : verdict n ref seen (isFixedSizeType pkg ds (S n) scope ref seen).
Proof.
  cbn [isFixedSizeType]. destruct (tr_Nullable ref) eqn:En; [apply v_no; intros [? _]; congruence|].
  destruct (tr_Array ref) eqn:Ea.
  { destruct (tr_FixedArrayLen ref) eqn:El; [apply v_array; congruence|]. apply v_no. intros [_ H]. by rewrite Ea in H. }
  assert (Hno : tr_Name ref ∉ primitives → ¬ (user_type (tr_Name ref) ∧ (enum_type (tr_Name ref) ∨ fixed_composite (tr_Name ref))) →
    ¬ fixed_here ref) by (intros Hp Hu [_ H]; rewrite Ea in H; tauto).
  case_bool_decide as Hl.
  { apply v_no, Hno; [rewrite Hl; apply (bool_decide_unpack _); reflexivity|]. by intros [[? _] _]. }
  case_bool_decide as Hp.
  { apply v_leaf; [split; [done|rewrite Ea; auto]|done|]. by intros fields [(_ & ? & _) _]. }
  case_bool_decide as Hv; [apply v_no, Hno; [done|]; by intros [(_ & _ & ?) _]|].
  destruct (lookup (tr_Name ref)) as [[i|p|e|u]|] eqn:Elk; try by apply named_verdict.
  - apply v_leaf; [split; [done|]; rewrite Ea; right; split; [done|]; left; by exists e|done|].
    intros fields (_ & anns & H & _). rewrite Elk in H. discriminate.
  - apply v_no, Hno; [done|]. intros [_ [[e H]|(anns & fs & H & _)]]; rewrite Elk in H; discriminate.
Qed.

(** *** The check ends *)

Context (U : gset string).

(** Every type name that can be marked is in [U]. *)
Definition bounded : Prop := ∀ name fields f, composite_type name fields → f ∈ fields → qname (tr_Name (fld_Type f)) ∈ U.

Lemma applied_name f : tr_Name (applyFieldAnnotations f) = tr_Name (fld_Type f).
Proof. unfold applyFieldAnnotations. by destruct (hasAnnotation _ _). Qed.

Definition room (seen : gset string) : nat := size (U ∖ seen).

Lemma room_mono seen seen' : seen ⊆ seen' → (room seen' ≤ room seen)%nat.
Proof.
  intros H. unfold room. apply (subseteq_size (C := gset string)).
  intros x. rewrite !elem_of_difference. intros [? Hx]. split; [done|]. contradict Hx. by apply H.
Qed.

Lemma room_mark q seen : q ∈ U → q ∉ seen → (room ({[q]} ∪ seen) < room seen)%nat.
Proof.
  intros Hq Hs. unfold room. apply (subset_size (C := gset string)). split.
  - intros x. rewrite !elem_of_difference, not_elem_of_union. tauto.
  - intros H. assert (Hin : q ∈ U ∖ seen) by by apply elem_of_difference.
    apply H, elem_of_difference in Hin as [_ Hin]. apply Hin, elem_of_union. left. by apply elem_of_singleton.
Qed.

Definition terminates n ref seen : Prop := ∃ b seen', isFixedSizeType pkg ds n scope ref seen = Some (b, seen') ∧ seen ⊆ seen'.

Lemma all_fixed_ends check l seen (P : TypeRef → gset string → Prop) :
  (∀ ref seen, P ref seen → ∃ b seen', check ref seen = Some (b, seen') ∧ seen ⊆ seen') →
  (∀ f seen', f ∈ l → seen ⊆ seen' → P (applyFieldAnnotations f) seen') →
  ∃ b seen', all_fixed check l seen = Some (b, seen') ∧ seen ⊆ seen'.
Proof.
  intros Hc. revert seen. induction l as [|f l IH]; intros seen HP; [by exists true, seen|]. cbn [all_fixed].
  destruct (Hc (applyFieldAnnotations f) seen) as ([] & seen' & -> & Hs); [by apply HP; [left|]| |by exists false, seen'].
  destruct (IH seen') as (b & seen2 & -> & Hs2); [|exists b, seen2; split; [done|by etrans]].
  intros g s Hg Hss. apply HP; [by right|by etrans].
Qed.

Lemma fixed_terminates n ref seen : bounded → qname (tr_Name ref) ∈ U →
  (2 * room seen + (if tr_Array ref then 1 else 0) < n)%nat → terminates n ref seen.
Proof.
  intros HB. revert ref seen. induction n as [|n IH]; intros ref seen Hq Hn; [lia|].
  unfold terminates. destruct (fixed_verdict n ref seen) as [ |? Ha ?| | |fields ? Ha Hc Hns]; try by eexists _, _.
  - apply IH; [done|]. rewrite Ha in Hn. cbn. lia.
  - rewrite Ha in Hn. cbv iota in Hn. destruct (all_fixed_ends (isFixedSizeType pkg ds n scope) fields ({[qname (tr_Name ref)]} ∪ seen)
      (λ r s, qname (tr_Name r) ∈ U ∧ (2 * room s + (if tr_Array r then 1 else 0) < n)%nat)) as (b & s & -> & Hs).
    + intros r s [H1 H2]. by apply IH.
    + intros f s Hf Hss. rewrite applied_name. split; [by eapply HB|]. pose proof (room_mono _ _ Hss).
      pose proof (room_mark _ _ Hq Hns). destruct (tr_Array (applyFieldAnnotations f)); lia.
    + exists b, s. split; [done|set_solver].
Qed.

(** *** A positive answer *)

Context (N : gset string).

(** The type names that can be met, starting from a name of [N], are in [N]. *)
Definition names_closed : Prop := ∀ name fields f, name ∈ N → composite_type name fields → f ∈ fields → tr_Name (fld_Type f) ∈ N.

(** The type is fixed in itself, and a mark is left for the type it names. *)
Definition marked (M : gset string) t : Prop :=
  fixed_here t ∧ (tr_Array t = true → fixed_here (array_base t)) ∧
  (∀ fields, composite_type (tr_Name t) fields → qname (tr_Name t) ∈ M).

(** A mark stands for a type all of whose fields are marked. *)
Definition justified (M : gset string) (q : string) : Prop :=
  ∃ name fields, qname name = q ∧ name ∈ N ∧ composite_type name fields ∧ Forall (λ f, marked M (applyFieldAnnotations f)) fields.

Definition explained (seen seen' : gset string) : Prop :=
  seen ⊆ seen' ∧ ∀ q, q ∈ seen' → q ∈ seen ∨ justified seen' q.

Lemma marked_mono M M' t : M ⊆ M' → marked M t → marked M' t.
Proof. intros HM (H1 & H2 & H3). split; [done|]. split; [done|]. intros fields Hc. by eapply HM, H3. Qed.

Lemma justified_mono M M' q : M ⊆ M' → justified M q → justified M' q.
Proof.
  intros HM (name & fields & H1 & H2 & H3 & H4). exists name, fields. split_and!; [done..|].
  eapply Forall_impl; [exact H4|]. intros f. by apply marked_mono.
Qed.

Lemma explained_refl seen : explained seen seen.
Proof. split; auto. Qed.

Lemma explained_trans s1 s2 s3 : explained s1 s2 → explained s2 s3 → explained s1 s3.
Proof.
  intros [A1 A2] [B1 B2]. split; [by etrans|]. intros q [Hq|Hq]%B2; [|by right].
  destruct (A2 q Hq); [by left|right]. by eapply justified_mono.
Qed.

Lemma composite_type_inj name f1 f2 : composite_type name f1 → composite_type name f2 → f1 = f2.
Proof. intros (_ & a1 & H1 & _) (_ & a2 & H2 & _). congruence. Qed.

(** What a call promises. *)
Definition call_ok (check : TypeRef → gset string → option (bool * gset string)) : Prop :=
  ∀ ref seen seen', tr_Name ref ∈ N → check ref seen = Some (true, seen') → explained seen seen' ∧ marked seen' ref.

Lemma all_fixed_sound check l seen seen' : call_ok check → (∀ f, f ∈ l → tr_Name (fld_Type f) ∈ N) →
  all_fixed check l seen = Some (true, seen') →
  explained seen seen' ∧ Forall (λ f, marked seen' (applyFieldAnnotations f)) l.
Proof.
  intros Hc. revert seen. induction l as [|f l IH]; intros seen HN H; cbn [all_fixed] in H.
  { injection H as ->. split; [apply explained_refl|constructor]. }
  destruct (check _ seen) as [[[] s1]|] eqn:E; try discriminate.
  destruct (Hc (applyFieldAnnotations f) _ _ ltac:(rewrite applied_name; apply HN; left) E) as [He Hm].
  destruct (IH s1 ltac:(intros g Hg; apply HN; by right) H) as [He2 Hl].
  split; [by eapply explained_trans|]. constructor; [|done]. eapply marked_mono; [apply He2|done].
Qed.

Lemma fixed_sound n : names_closed → call_ok (isFixedSizeType pkg ds n scope).
Proof.
  intros HN. induction n as [|n IH]; intros ref seen seen' Hr H; [done|].
  destruct (fixed_verdict n ref seen) as [Hno|Hn Ha Hl|Hf Ha Hleaf|fields Hf Ha Hc Hs|fields Hf Ha Hc Hs]; simplify_eq.
  - destruct (IH (array_base ref) seen seen' Hr H) as [He (M1 & _ & M3)]. split; [done|]. split; [|split; [done|exact M3]].
    split; [done|]. by rewrite Ha.
  - split; [apply explained_refl|]. split; [done|]. split; [congruence|]. intros fields Hc. by destruct (Hleaf fields).
  - split; [apply explained_refl|]. split; [done|]. split; [congruence|done].
  - destruct (all_fixed_sound _ fields _ _ IH ltac:(intros f Hin; by eapply HN) H) as [[He1 He2] Hm].
    assert (Hq : qname (tr_Name ref) ∈ seen') by (apply He1, elem_of_union; left; by apply elem_of_singleton).
    split; [split|].
    + etrans; [|exact He1]. apply union_subseteq_r.
    + intros q [[->%elem_of_singleton|Hin]%elem_of_union|Hj]%He2; [right|by left|by right].
      by exists (tr_Name ref), fields.
    + split; [done|]. split; [congruence|done].
Qed.

(** Two names of [N] that share a mark are the same type. *)
Definition unambiguous : Prop :=
  ∀ n1 n2, n1 ∈ N → n2 ∈ N → qname n1 = qname n2 → lookup n1 = lookup n2.

Lemma marked_reaches M ref t : names_closed → unambiguous → (∀ q, q ∈ M → justified M q) →
  reaches ref t → tr_Name ref ∈ N → marked M ref → fixed_here t.
Proof.
  intros HN Hu HM. induction 1 as [ref|ref t Ha _ IH|ref anns fields f t Ha Hut Hc Hf _ IH]; intros Hr (M1 & M2 & M3); [done| |].
  - apply IH; [done|]. split; [auto|]. split; [done|exact M3].
  - assert (Hct : composite_type (tr_Name ref) fields).
    { split; [done|]. destruct M1 as [_ M1]. rewrite Ha in M1. destruct M1 as [M1|(_ & [[e M1]|(a & fs & M1 & Hann)])].
      - by destruct Hut as (_ & ? & _).
      - rewrite M1 in Hc. discriminate.
      - exists anns. split; [done|]. congruence. }
    destruct (HM _ (M3 _ Hct)) as (name & fields' & Hq & Hin & (_ & anns' & Hc' & _) & Hall).
    rewrite (Hu _ _ Hin Hr Hq), Hc in Hc'. injection Hc' as <- <-.
    apply IH; [rewrite applied_name; exact (HN _ _ _ Hr Hct Hf)|]. rewrite Forall_forall in Hall. by apply Hall.
Qed.

(** *** A negative answer *)

Lemma all_fixed_complete check l seen b seen' :
  (∀ f s b s', f ∈ l → check (applyFieldAnnotations f) s = Some (b, s') → b = true) →
  all_fixed check l seen = Some (b, seen') → b = true.
Proof.
  revert seen. induction l as [|f l IH]; intros seen Hc H; cbn [all_fixed] in H; [by injection H|].
  destruct (check _ seen) as [[b1 s1]|] eqn:E; [|discriminate].
  rewrite (Hc f seen b1 s1) in H by (done || left). eapply IH; [|done]. intros g s b' s' Hg. apply Hc. by right.
Qed.

Lemma fixed_complete n ref seen b seen' : (∀ t, reaches ref t → fixed_here t) →
  isFixedSizeType pkg ds n scope ref seen = Some (b, seen') → b = true.
Proof.
  revert ref seen b seen'. induction n as [|n IH]; intros ref seen b seen' Hall H; [done|].
  destruct (fixed_verdict n ref seen) as [Hno|Hn Ha Hl|Hf Ha Hleaf|fields Hf Ha Hc Hs|fields Hf Ha Hc Hs]; simplify_eq; try done.
  - destruct Hno. apply Hall, reaches_refl.
  - eapply IH; [|exact H]. intros t Ht. apply Hall. by eapply reaches_base.
  - eapply all_fixed_complete; [|exact H]. intros f s b' s' Hf' E. eapply IH; [|exact E]. intros t Ht. apply Hall.
    destruct Hc as (Hu & anns & Hc & _). by eapply reaches_field.
Qed.
End Fixed.

(** *** The declarations of a file *)

(** A short name stands for a declaration that also has a qualified name. *)
Definition known (ds : declarations) : Prop :=
  ∀ name d, declsByName ds !! name = Some d → ∃ q, declsByQName ds !! q = Some d.

Lemma aliases_from {A} qname (v : A) dst name w : registerNameAliases qname v dst !! name = Some w →
  w = v ∨ dst !! name = Some w.
Proof.
  unfold registerNameAliases. case_bool_decide; [auto|]. generalize (suffixes (split_dots qname)) as l. intros l.
  revert dst. induction l as [|a l IH]; intros dst; cbn [fold_left]; [auto|]. intros [->|Hw]%IH; [by left|].
  destruct (dst !! a) eqn:E; [by right|]. destruct (decide (a = name)) as [->|Hne].
  - rewrite lookup_insert_eq in Hw. injection Hw as ->. by left.
  - rewrite lookup_insert_ne in Hw by done. by right.
Qed.

Lemma known_register pkg scope d ds : known ds → known (register pkg scope d ds).
Proof.
  intros H. unfold register. destruct (_ !! _) eqn:E; [done|]. intros name d' Hd. cbn in *.
  destruct (aliases_from _ _ _ _ _ Hd) as [->|Hold]; [eexists; apply lookup_insert_eq|].
  destruct (H _ _ Hold) as [q Hq]. exists q. rewrite lookup_insert_ne; [done|]. congruence.
Qed.

(** Induction on declarations, the nested ones first. *)
Section Induction.
Context (P : Decl → Prop).

Definition on_member (m : InterfaceMember) : Prop :=
  match m with MParcelable p => P (DParcelable p) | MEnum e => P (DEnum e) | MUnion u => P (DUnion u) | _ => True end.

Hypothesis (Henum : ∀ e, P (DEnum e)) (Hunion : ∀ u, P (DUnion u)).
Hypothesis (Hparc : ∀ a n tp st cs fs ds, Forall P ds → P (DParcelable (mkParcelableDecl a n tp st cs fs ds))).
Hypothesis (Hiface : ∀ a o n ms, Forall on_member ms → P (DInterface (mkInterfaceDecl a o n ms))).

Lemma decl_nested_ind : ∀ d, P d.
Proof.
  fix IH 1. intros [[a o n ms]|[a n tp st cs fs ds]|e|u]; [apply Hiface|apply Hparc|apply Henum|apply Hunion].
  - induction ms as [|m ms IHms]; constructor; [|exact IHms].
    destruct m as [m|c|[a' n' tp' st' cs' fs' ds']|e|u]; [exact I|exact I|apply Hparc|apply Henum|apply Hunion].
    induction ds' as [|d ds' IHds]; constructor; [apply IH|exact IHds].
  - induction ds as [|d ds IHds]; constructor; [apply IH|exact IHds].
Qed.
End Induction.

Lemma collect_parcelable_decl pkg scope p ds : collect_parcelable pkg scope p ds = collect_decl pkg scope (DParcelable p) ds.
Proof. by destruct p. Qed.

Lemma known_collect_decl pkg d : ∀ scope ds, known ds → known (collect_decl pkg scope d ds).
Proof.
  induction d as [e|u|a n tp st cs fs decls IH|a o n ms IH] using decl_nested_ind; intros scope ds H; cbn [collect_decl];
    (case_bool_decide as Hn; [done|clear Hn]).
  - by apply known_register.
  - by apply known_register.
  - apply (known_register pkg scope (DParcelable (mkParcelableDecl a n tp st cs fs decls))) in H. revert H.
    generalize (register pkg scope (DParcelable (mkParcelableDecl a n tp st cs fs decls)) ds) as ds1.
    induction IH as [|d decls Hd _ IHl]; intros ds1 H; [done|]. by apply IHl, Hd.
  - apply (known_register pkg scope (DInterface (mkInterfaceDecl a o n ms))) in H. revert H.
    generalize (register pkg scope (DInterface (mkInterfaceDecl a o n ms)) ds) as ds1.
    induction IH as [|m ms Hm _ IHl]; intros ds1 H; [done|]. destruct m as [m|c|p|e|u]; cbn [on_member] in Hm.
    + by apply IHl.
    + by apply IHl.
    + rewrite collect_parcelable_decl. by apply IHl, Hm.
    + apply IHl. by apply (Hm (scope ++ [n]) ds1).
    + apply IHl. by apply (Hm (scope ++ [n]) ds1).
Qed.

Lemma known_collectDecls pkg decls : known (collectDecls pkg decls).
Proof.
  unfold collectDecls. assert (H : known (mkDeclarations ∅ ∅)) by (intros name d; cbn; by rewrite lookup_empty).
  revert H. generalize (mkDeclarations ∅ ∅) as ds. induction decls as [|d decls IH]; intros ds H; [done|].
  cbn [fold_left]. by apply IH, known_collect_decl.
Qed.

Section Bound.
Context (pkg : string) (ds : declarations) (scope : list string).
Hypothesis (Hknown : known ds).

Lemma lookup_known name d : lookupType pkg ds name = Some d → ∃ q, declsByQName ds !! q = Some d.
Proof.
  unfold lookupType. case_bool_decide; [done|]. destruct (declsByQName ds !! name) eqn:E1; [intros [= ->]; eauto|].
  case_bool_decide; [apply Hknown|].
  destruct (declsByQName ds !! (pkg +:+ "." +:+ name)%string) eqn:E2; [intros [= ->]; eauto|apply Hknown].
Qed.

Lemma fields_known name fields f : composite_type pkg ds name fields → f ∈ fields → f ∈ all_fields ds.
Proof.
  intros (_ & anns & Hc & _) Hf. destruct (lookupType pkg ds name) as [d|] eqn:E; [|done].
  destruct (lookup_known _ _ E) as [q Hq]. unfold all_fields. apply list_elem_of_bind. exists (q, d).
  split; [by rewrite Hc|by apply elem_of_map_to_list].
Qed.

(** The names that can be met from [ref]. *)
Definition names_from (ref : TypeRef) : list string := tr_Name ref :: ((λ f, tr_Name (fld_Type f)) <$> all_fields ds).
Definition marks_from (ref : TypeRef) : gset string := list_to_set (lookupQName pkg ds scope <$> names_from ref).

Lemma size_of_list (l : list string) : (size (list_to_set l : gset string) ≤ length l)%nat.
Proof.
  induction l as [|x l IH]; cbn [list_to_set length]; [by rewrite size_empty|]. rewrite size_union_alt, size_singleton.
  assert (size ((list_to_set l : gset string) ∖ {[x]}) ≤ size (list_to_set l : gset string))%nat
    by (apply (subseteq_size (C := gset string)), subseteq_difference_l; done). lia.
Qed.

Lemma field_name_in name fields f ref : composite_type pkg ds name fields → f ∈ fields → tr_Name (fld_Type f) ∈ names_from ref.
Proof.
  intros Hc Hf. right. apply list_elem_of_fmap. exists f. split; [done|]. by eapply fields_known.
Qed.

Lemma names_from_closed ref : names_closed pkg ds (list_to_set (names_from ref)).
Proof. intros name fields f _ Hc Hf. apply elem_of_list_to_set. by eapply field_name_in. Qed.

Lemma marks_bounded ref : bounded pkg ds scope (marks_from ref).
Proof.
  intros name fields f Hc Hf. apply elem_of_list_to_set, list_elem_of_fmap. eexists. split; [done|]. by eapply field_name_in.
Qed.

(** The fuel is enough. *)
Lemma fixed_fuel_enough ref : ∃ b seen, isFixedSizeType pkg ds (fixed_fuel ds) scope ref ∅ = Some (b, seen).
Proof.
  destruct (fixed_terminates pkg ds scope (marks_from ref) (fixed_fuel ds) ref ∅ (marks_bounded ref)) as (b & seen & E & _).
  - apply elem_of_list_to_set, list_elem_of_fmap. exists (tr_Name ref). split; [done|left].
  - pose proof (size_of_list (lookupQName pkg ds scope <$> names_from ref)) as Hs.
    unfold room, fixed_fuel. rewrite difference_empty_L. unfold marks_from. rewrite length_fmap in Hs. cbn [names_from length] in Hs.
    rewrite length_fmap in Hs. destruct (tr_Array ref); lia.
  - eauto.
Qed.
End Bound.

(** Decidable: no two names that the check of [ref] may meet share a mark without
    being the same declaration. *)
Definition names_distinct (pkg : string) (ds : declarations) (scope : list string) (ref : TypeRef) : Prop :=
  unambiguous pkg ds scope (list_to_set (names_from ds ref)).

(** C27: the @FixedSize check decides what it should, and always ends: for the
    declarations of any file, a type passes exactly when no type reachable from it
    through arrays and fields is nullable, of open length or of a kind without a
    fixed size, recursive types included, provided that no two of the names met
    share a mark without being the same declaration. *)
Theorem fixed_size_decides (pkg : string) (decls : list Decl) (scope : list string) (ref : TypeRef) :
  let ds := collectDecls pkg decls in
  names_distinct pkg ds scope ref →
  (∃ b seen, isFixedSizeType pkg ds (fixed_fuel ds) scope ref ∅ = Some (b, seen)) ∧
  (is_fixed pkg ds scope ref = true ↔ ∀ t, reaches pkg ds ref t → fixed_here pkg ds t).
Proof.
  intros ds Hu. pose proof (known_collectDecls pkg decls : known ds) as Hk.
  destruct (fixed_fuel_enough pkg ds scope Hk ref) as (b & seen & E). split; [eauto|]. unfold is_fixed. rewrite E. split.
  - intros -> t Ht.
    assert (Hin : tr_Name ref ∈ (list_to_set (names_from ds ref) : gset string)) by (apply elem_of_list_to_set; left).
    destruct (fixed_sound pkg ds scope _ _ (names_from_closed pkg ds Hk ref) ref ∅ seen Hin E) as [[_ He] Hm].
    eapply (marked_reaches pkg ds scope _ seen ref t (names_from_closed pkg ds Hk ref) Hu); try done.
    intros q [Hq|Hq]%He; [by apply not_elem_of_empty in Hq|done].
  - intros Hall. eapply fixed_complete; [exact Hall|exact E].
Qed.

(** ** Literals *)

Lemma app_nil_string s : (s +:+ "")%string = s.
Proof. induction s as [|c s IH]; [done|]. exact (f_equal (String c) IH). Qed.

(** A greedy match of a text all of whose characters match tries all but the last
    one second. *)
Lemma some_of_all p s c : s ≠ "" → all_chars p s = true → p c = true →
  ∃ rest, some_of p (s +:+ String c "") = (s +:+ String c "", "") :: (s, String c "") :: rest.
Proof.
  intros Hne Hs Hc. induction s as [|a s IH]; [done|]. cbn [all_chars] in Hs. apply andb_true_iff in Hs as [Ha Hs].
  change (String a s +:+ String c "") with (String a (s +:+ String c "")). cbn [some_of]. rewrite Ha. destruct s as [|b s].
  - change ("" +:+ String c "") with (String c ""). cbn [some_of]. rewrite Hc. by exists [].
  - destruct (IH ltac:(done) Hs) as [rest ->]. cbn [map app]. eauto.
Qed.

Definition hex_suffix : string := "fFdD".

Lemma hex_suffix_hex c : is_char hex_suffix c = true → is_hex c = true ∧ is_char "fFlLdD" c = true ∧ is_space c = false ∧ is_char "~" c = false.
Proof.
  unfold is_char at 1. rewrite bool_decide_eq_true. intros H. cbn [String.list_ascii_of_string hex_suffix] in H.
  rewrite !elem_of_cons, elem_of_nil in H.
  destruct H as [->|[->|[->|[->|[]]]]]; vm_compute; auto.
Qed.

Lemma hex_plain c : is_hex c = true → is_space c = false ∧ is_char "~" c = false.
Proof. destruct c as [[] [] [] [] [] [] [] []]; vm_compute; auto; discriminate. Qed.

Lemma trim_left_id c s : is_space c = false → trim_left (String c s) = String c s.
Proof. intros H. cbn. by rewrite H. Qed.

Lemma trim_right_id s c : is_space c = false → trim_right (s +:+ String c "") = s +:+ String c "".
Proof.
  intros H. induction s as [|a s IH].
  - change ("" +:+ String c "") with (String c ""). cbn. by rewrite H.
  - change (String a s +:+ String c "") with (String a (s +:+ String c "")). cbn [trim_right]. rewrite IH.
    by destruct s.
Qed.

Lemma replace_tilde_id s : all_chars (λ c, negb (is_char "~" c)) s = true → replace_tilde s = s.
Proof.
  induction s as [|c s IH]; cbn [all_chars replace_tilde]; [done|]. intros [Hc Hs]%andb_true_iff. apply negb_true_iff in Hc.
  rewrite Hc. by rewrite IH.
Qed.

Lemma seq_one p m c s : p c = true → seq (one p) m (String c s) = map (λ '(b, r), (String c b, r)) (m s).
Proof.
  intros H. unfold seq, one. rewrite H. cbn [mbind list_bind]. rewrite app_nil_r.
  induction (m s) as [|[b r] l IH]; [done|]. cbn [map mbind list_bind app]. by rewrite IH.
Qed.

(** The numbers at the start of a hexadecimal literal: "0" alone, then the literal,
    then the literal without its last digit. *)
Lemma number_hex ds c : ds ≠ "" → all_chars is_hex ds = true → is_hex c = true →
  ∃ rest, number ("0x" +:+ ds +:+ String c "") =
    ("0", "x" +:+ ds +:+ String c "") :: ("0x" +:+ ds +:+ String c "", "") :: ("0x" +:+ ds, String c "") :: rest.
Proof.
  intros Hne Hds Hc. destruct (some_of_all is_hex ds c Hne Hds Hc) as [rest E]. set (t := ds +:+ String c "") in *.
  set (s0 := "0x" +:+ t).
  assert (Hdec : seq (alt (seq (some_of is_digit) (seq (one (is_char ".")) (many_of is_digit)))
             (alt (seq (one (is_char ".")) (some_of is_digit)) (some_of is_digit)))
           (maybe (seq (one (is_char "eE")) (seq (maybe (one (is_char "+-"))) (some_of is_digit)))) s0 = [("0", "x" +:+ t)])
    by reflexivity.
  assert (Hhex : seq (one (is_char "0")) (seq (one (is_char "xX")) (some_of is_hex)) s0 =
    map (λ '(b, r), ("0x" +:+ b, r)) (some_of is_hex t)).
  { etrans; [exact (seq_one (is_char "0") _ (Ascii.ascii_of_nat 48) ("x" +:+ t) eq_refl)|].
    rewrite (seq_one (is_char "xX") (some_of is_hex) (Ascii.ascii_of_nat 120) t eq_refl : _ ("x" +:+ t) = _). rewrite map_map. apply map_ext. by intros []. }
  unfold number, alt at 1. rewrite Hdec, Hhex, E. cbn [map app]. eauto.
Qed.

(** A hexadecimal literal that ends in the digit D or F loses it: the pattern that
    strips the suffixes f, d and L of Java's numbers takes the digit for a suffix,
    so 0xFF is evaluated, and written into the generated code, as 0xF. *)
Theorem hex_literal_truncated (ds : string) (c : Ascii.ascii) : ds ≠ "" → all_chars is_hex ds = true →
  is_char hex_suffix c = true → Normalize ("0x" +:+ ds +:+ String c "") = "0x" +:+ ds.
Proof.
  intros Hne Hds Hc. destruct (hex_suffix_hex c Hc) as (Hh & Hf & Hsp & Ht).
  assert (Hplain : all_chars (λ c, negb (is_char "~" c)) ("0x" +:+ ds +:+ String c "") = true).
  { rewrite !all_chars_app. cbn [all_chars]. rewrite Ht. apply andb_true_iff. split; [done|]. apply andb_true_iff. split; [|done].
    eapply all_chars_impl; [|exact Hds]. intros a Ha. by destruct (hex_plain a Ha) as [_ ->]. }
  destruct (number_hex ds c Hne Hds Hh) as [rest E].
  unfold Normalize, TrimSpace. set (s := "0x" +:+ ds +:+ String c "") in *.
  assert (E1 : trim_left s = s) by reflexivity.
  assert (E2 : trim_right s = s) by exact (trim_right_id ("0x" +:+ ds) c Hsp).
  rewrite E1, E2, bool_decide_eq_false_2 by done. rewrite replace_tilde_id by done.
  change (String.length s) with (S (S (String.length (ds +:+ String c "")))).
  assert (E3 : literal_suffix false s = Some ("0x" +:+ ds, "")).
  { unfold literal_suffix. rewrite bool_decide_eq_false_2 by done. rewrite E. cbn [mbind list_bind app].
    cbn [one]. rewrite Hf. done. }
  assert (E4 : ∀ n, drop_suffixes (S n) false s =
    match literal_suffix false s with
    | Some (group, rest) => group +:+ drop_suffixes n true rest
    | None => String (Ascii.ascii_of_nat 48) (drop_suffixes n true ("x" +:+ ds +:+ String c ""))
    end) by reflexivity.
  rewrite E4, E3. cbn [drop_suffixes]. apply app_nil_string.
Qed.

Lemma hex_literal_truncated_witness : Normalize "0xFF" = "0xF" ∧ Normalize "0x10L" = "0x10".
Proof.
  split; [|vm_compute; reflexivity]. refine (hex_literal_truncated "F" (Ascii.ascii_of_nat 70) _ _ _); [discriminate|reflexivity|reflexivity].
Defined.

(** ** Accepted files *)

(** A computation that ends without a diagnostic. *)
Definition clean {A} (m : VM A) (a : A) : Prop := m = (Ok a, []).

Lemma clean_bind {A C} (m : VM A) (k : A → VM C) c : clean (m ≫= k) c ↔ ∃ a, clean m a ∧ clean (k a) c.
Proof.
  unfold clean, mbind, VM_bind. destruct m as [[a|[]|y] l].
  - destruct (k a) as [r l'] eqn:E. split.
    + intros [= -> [-> ->]%app_eq_nil]. eauto.
    + intros (a' & [= <- ->] & Hk). rewrite E in Hk. injection Hk as -> ->. done.
  - split; [discriminate|]. by intros (a & [=] & _).
Qed.

Lemma clean_then {A C} (m : VM A) (k : VM C) c : clean (m;; k) c → (∃ a, clean m a) ∧ clean k c.
Proof. intros (a & ? & ?)%clean_bind. eauto. Qed.

Lemma clean_ret {A} (a c : A) : clean (mret a) c ↔ a = c.
Proof. unfold clean, mret, VM_ret. split; [by intros [=]|by intros ->]. Qed.

Lemma clean_addf d u : ¬ clean (addf d) u.
Proof. discriminate. Qed.

Lemma clean_addf_if b d u : clean (addf_if b d) u → b = false.
Proof. destruct b; [by intros ?%clean_addf|done]. Qed.

Lemma clean_for_each {A} (f : A → VM unit) l u : clean (for_each f l) u → ∀ x, x ∈ l → clean (f x) tt.
Proof.
  induction l as [|y l IH]; intros H x; [by intros ?%not_elem_of_nil|]. cbn [for_each] in H.
  apply clean_bind in H as ([] & Hy & Hl). rewrite elem_of_cons. intros [->|Hx]; [done|by eapply IH].
Qed.

(** Names that have been given; anonymous declarations are not checked. *)
Definition given (names : list string) : list string := filter (λ n, n ≠ "") names.

(** The declarations of a declaration, at any depth, with their scopes. *)
Inductive within : list string → Decl → list string → Decl → Prop :=
| within_refl scope d : within scope d scope d
| within_parcelable scope a n tp st cs fs ds d scope' d' : d ∈ ds → within (scope ++ [n]) d scope' d' →
    within scope (DParcelable (mkParcelableDecl a n tp st cs fs ds)) scope' d'
| within_interface scope a o n ms d scope' d' : nested_member ms d → within (scope ++ [n]) d scope' d' →
    within scope (DInterface (mkInterfaceDecl a o n ms)) scope' d'
with nested_member : list InterfaceMember → Decl → Prop :=
| nested_parcelable ms p : MParcelable p ∈ ms → nested_member ms (DParcelable p)
| nested_enum ms e : MEnum e ∈ ms → nested_member ms (DEnum e)
| nested_union ms u : MUnion u ∈ ms → nested_member ms (DUnion u).

(** The names an interface or a parcelable gives to its members; the members of
    enums and unions are not compared with each other. *)
Definition checked_members (d : Decl) : option (list string) :=
  match d with
  | DInterface (mkInterfaceDecl _ _ _ ms) => Some (given (interfaceMemberName <$> ms))
  | DParcelable (mkParcelableDecl _ _ _ _ cs fs ds) =>
      Some ((cd_Name <$> cs) ++ (fld_Name <$> fs) ++ given (declName <$> ds))
  | DEnum _ | DUnion _ => None
  end.

Section Accepted.
Context `{GoFrontEnd} (pkg : string) (ds : declarations).

Lemma given_cons n names : given (n :: names) = if bool_decide (n = "") then given names else n :: given names.
Proof. unfold given. cbn. case_bool_decide; [rewrite decide_False by auto|rewrite decide_True by done]; done. Qed.

(** The step every loop over names takes. *)
Lemma fresh_names n names (seen : gset string) :
  (negb (bool_decide (n = "")) && bool_decide (n ∈ seen) = false) →
  NoDup (given names) → (∀ x, x ∈ given names → x ∉ (if bool_decide (n = "") then seen else {[n]} ∪ seen)) →
  NoDup (given (n :: names)) ∧ ∀ x, x ∈ given (n :: names) → x ∉ seen.
Proof.
  intros Hs Hd Hf. rewrite given_cons. case_bool_decide as Hn; [auto|]. cbn in Hs. apply bool_decide_eq_false in Hs. split.
  - constructor; [|done]. intros Hin. apply Hf in Hin. apply Hin, elem_of_union. left. by apply elem_of_singleton.
  - intros x. rewrite elem_of_cons. intros [->|Hx%Hf]; [done|]. contradict Hx. apply elem_of_union. by right.
Qed.

(** The loops over declarations and over members. *)
Lemma clean_validate_list check decls seen u : clean (validate_list check decls seen) u →
  (NoDup (given (declName <$> decls)) ∧ ∀ x, x ∈ given (declName <$> decls) → x ∉ seen) ∧
  ∀ d, d ∈ decls → clean (check d) tt.
Proof.
  revert seen. induction decls as [|d decls IH]; intros seen Hc; cbn [validate_list] in Hc.
  { split; [split; [constructor|by intros x ?%not_elem_of_nil]|by intros d ?%not_elem_of_nil]. }
  destruct (negb _ && _) eqn:E; [by apply clean_then in Hc as [[? ?%clean_addf] _]|].
  apply clean_bind in Hc as ([] & Hd & Hrest). destruct (IH _ Hrest) as [[H1 H2] H3].
  split; [by apply (fresh_names (declName d))|]. intros d'. rewrite elem_of_cons. intros [->|Hin]; auto.
Qed.

Lemma clean_members owner check ms seen env u : clean (validate_interface_members owner check ms seen env) u →
  (NoDup (given (interfaceMemberName <$> ms)) ∧ ∀ x, x ∈ given (interfaceMemberName <$> ms) → x ∉ seen) ∧
  ∀ m, m ∈ ms → ∃ env env', clean (check m env) env'.
Proof.
  revert seen env. induction ms as [|m ms IH]; intros seen env Hc; cbn [validate_interface_members] in Hc.
  { split; [split; [constructor|by intros x ?%not_elem_of_nil]|by intros m ?%not_elem_of_nil]. }
  destruct (negb _ && _) eqn:E; [by apply clean_then in Hc as [[? ?%clean_addf] _]|].
  apply clean_bind in Hc as (env' & Hd & Hrest). destruct (IH _ _ Hrest) as [[H1 H2] H3].
  split; [by apply (fresh_names (interfaceMemberName m))|]. intros m'. rewrite elem_of_cons. intros [->|Hin]; eauto.
Qed.

(** The loops over a parcelable share one set: [names] are new to [seen], pairwise
    different, and recorded in [seen']. *)
Definition adds (names : list string) (seen seen' : gset string) : Prop :=
  NoDup names ∧ (∀ x, x ∈ names → x ∉ seen) ∧ seen ⊆ seen' ∧ ∀ x, x ∈ names → x ∈ seen'.

Lemma adds_nil seen : adds [] seen seen.
Proof. split; [constructor|]. split_and!; [|done|]; by intros x ?%not_elem_of_nil. Qed.

Lemma adds_cons n names seen seen' : n ∉ seen → adds names ({[n]} ∪ seen) seen' → adds (n :: names) seen seen'.
Proof.
  intros Hn (H1 & H2 & H3 & H4). assert (Hin : n ∈ {[n]} ∪ seen) by (apply elem_of_union; left; by apply elem_of_singleton).
  split; [constructor; [intros Hx; by apply H2 in Hx|done]|]. split.
  { intros x. rewrite elem_of_cons. intros [->|Hx%H2]; [done|]. contradict Hx. apply elem_of_union. by right. }
  split; [etrans; [|exact H3]; apply union_subseteq_r|]. intros x. rewrite elem_of_cons. intros [->|Hx]; auto.
Qed.

Lemma adds_app l1 l2 s1 s2 s3 : adds l1 s1 s2 → adds l2 s2 s3 → adds (l1 ++ l2) s1 s3.
Proof.
  intros (A1 & A2 & A3 & A4) (B1 & B2 & B3 & B4). split; [|split; [|split]].
  - apply NoDup_app. split_and!; [done| |done]. intros x Hx%A4 Hy. by apply B2 in Hy.
  - intros x. rewrite elem_of_app. intros [Hx|Hx%B2]; [auto|]. contradict Hx. by apply A3.
  - by etrans.
  - intros x. rewrite elem_of_app. intros [Hx%A4|Hx]; auto.
Qed.

Lemma clean_consts scope owner cs seen env seen' : clean (validate_consts pkg ds scope owner cs seen env) seen' →
  adds (cd_Name <$> cs) seen seen'.
Proof.
  revert seen env. induction cs as [|c cs IH]; intros seen env Hc; cbn [validate_consts] in Hc.
  { apply clean_ret in Hc as ->. apply adds_nil. }
  case_bool_decide as Hs; [by apply clean_then in Hc as [[? ?%clean_addf] _]|].
  apply clean_bind in Hc as (env' & _ & Hrest). apply adds_cons; [done|]. by eapply IH.
Qed.

Lemma clean_fields owner fs seen seen' : clean (validate_fields pkg ds owner fs seen) seen' → adds (fld_Name <$> fs) seen seen'.
Proof.
  revert seen. induction fs as [|f fs IH]; intros seen Hc; cbn [validate_fields] in Hc.
  { apply clean_ret in Hc as ->. apply adds_nil. }
  case_bool_decide as Hs; [by apply clean_then in Hc as [[? ?%clean_addf] _]|].
  apply clean_then in Hc as [_ Hrest]. apply adds_cons; [done|]. by apply IH.
Qed.

Lemma clean_nested owner decls seen u : clean (nested_names owner decls seen) u → ∃ seen', adds (given (declName <$> decls)) seen seen'.
Proof.
  revert seen. induction decls as [|d decls IH]; intros seen Hc; cbn [nested_names fmap list_fmap] in *; [eexists; apply adds_nil|].
  rewrite given_cons. case_bool_decide; [by apply IH|].
  case_bool_decide as Hs; [by apply clean_then in Hc as [[? ?%clean_addf] _]|].
  destruct (IH _ Hc) as [seen' ?]. exists seen'. by apply adds_cons.
Qed.

(** *** What is accepted *)

Definition fixed_size (anns : list Annotation) : bool := hasAnnotation anns fixed_size_names.

(** The scope in which the fields of a declaration are looked up. *)
Definition field_scope (scope : list string) (d : Decl) : list string :=
  match d with DParcelable (mkParcelableDecl _ n _ _ _ _ _) => scope ++ [n] | _ => scope end.

Definition acceptable (scope : list string) (d : Decl) : Prop :=
  (∀ names, checked_members d = Some names → NoDup names) ∧
  ∀ anns fields f, composite (Some d) = Some (anns, fields) → fixed_size anns = true → f ∈ fields →
    is_fixed pkg ds (field_scope scope d) (applyFieldAnnotations f) = true.

Lemma clean_fixed kind owner scope anns fields u : clean (check_fixed pkg ds kind owner scope anns fields) u →
  fixed_size anns = true → ∀ f, f ∈ fields → is_fixed pkg ds scope (applyFieldAnnotations f) = true.
Proof.
  unfold check_fixed, fixed_size. intros Hc Ha f Hf. rewrite Ha in Hc. apply (clean_for_each _ _ _ Hc) in Hf.
  apply clean_addf_if, negb_false_iff in Hf. done.
Qed.

Lemma clean_acceptable scope d : clean (validateDecl pkg ds scope d) tt → acceptable scope d.
Proof.
  destruct d as [[a o n ms]|[a n tp st cs fs decls]|e|u]; cbn [validateDecl validateInterface validateParcelable].
  - intros [_ Hc]%clean_then. split; [|done]. intros names [= <-]. apply (clean_members _ _ _ _ _ _ Hc).
  - intros [_ Hc]%clean_then. apply clean_bind in Hc as (s1 & H1 & Hc). apply clean_bind in Hc as (s2 & H2 & Hc).
    apply clean_then in Hc as [[u3 H3] Hc]. apply clean_then in Hc as [_ H5]. split.
    + intros names [= <-]. apply clean_consts in H1. apply clean_fields in H2. apply clean_nested in H3 as [s3 H3].
      by destruct (adds_app _ _ _ _ _ H1 (adds_app _ _ _ _ _ H2 H3)).
    + intros anns fields f [= <- <-] Hs. by apply (clean_fixed _ _ _ _ _ _ H5).
  - intros _. split; done.
  - unfold validateUnion. intros Hc. apply clean_then in Hc as [_ Hc]. apply clean_then in Hc as [_ Hc].
    split; [done|]. intros anns fields f [= <- <-] Hs. by apply (clean_fixed _ _ _ _ _ _ Hc).
Qed.

Lemma clean_within scope d scope' d' : within scope d scope' d' → clean (validateDecl pkg ds scope d) tt →
  clean (validateDecl pkg ds scope' d') tt.
Proof.
  induction 1 as [|scope a n tp st cs fs decls d scope' d' Hin _ IH|scope a o n ms d scope' d' Hm _ IH]; [done|..];
    cbn [validateDecl validateInterface validateParcelable]; intros Hc; apply IH.
  - apply clean_then in Hc as [_ Hc]. apply clean_bind in Hc as (s1 & _ & Hc). apply clean_bind in Hc as (s2 & _ & Hc).
    apply clean_then in Hc as [_ Hc]. apply clean_then in Hc as [[u Hc] _]. by apply (clean_validate_list _ _ _ _ Hc).
  - apply clean_then in Hc as [_ Hc]. destruct (clean_members _ _ _ _ _ _ Hc) as [_ H'].
    destruct Hm as [ms p Hp|ms p Hp|ms p Hp]; destruct (H' _ Hp) as (env & env' & [[[] Hv] _]%clean_then); exact Hv.
Qed.
End Accepted.

(** C26: what the validator accepts is well formed: when a file gets no diagnostic, the
    names at its top level are pairwise different, and so are the members of every
    interface and of every parcelable (constants, fields and nested declarations
    together) at any depth; and every field of a parcelable or union annotated
    @FixedSize passes the fixed-size check.  The members of an enum and the fields
    of a union are not compared with each other ([enum_duplicates_accepted]). *)
Theorem accepted_file_wellformed `{GoFrontEnd} (f : File) :
  let pkg := file_PackageName f in
  let ds := collectDecls pkg (file_Decls f) in
  ValidateFile (Some f) = (Ok tt, []) →
  NoDup (given (declName <$> file_Decls f)) ∧
  ∀ d scope d', d ∈ file_Decls f → within [] d scope d' → acceptable pkg ds scope d'.
Proof.
  intros pkg ds Hc. destruct (clean_validate_list _ _ _ _ (Hc : clean _ tt)) as [[H1 _] H2]. split; [exact H1|].
  intros d scope d' Hd Hw. apply clean_acceptable. eapply clean_within; [exact Hw|by apply H2].
Qed.

(** ** Files *)

Definition named (name : string) : TypeRef := mkTypeRef [] name [] false None false.
Definition field (t : TypeRef) (name : string) : Field := mkField [] DirectionNone t name "".
Definition fixed : list Annotation := [mkAnnotation "FixedSize" []].

(** Decimal literals only. *)
Definition decimal_front_end : GoFrontEnd := {|
  ParseExpr s := inl (BasicLit LitInt s);
  MakeFromLiteral _ s := match parse_digits 10 0 (bytes_of s) with Some z => CInt z | None => CUnknown end;
|}.

(** Two fixed-size types that contain each other, and an interface around one. *)
Definition point : ParcelableDecl :=
  mkParcelableDecl fixed "Point" [] true [] [field (named "int") "x"; field (named "Size") "size"; field (named "Kind") "kind"] [].
Definition sizes : ParcelableDecl :=
  mkParcelableDecl fixed "Size" [] true [] [field (mkTypeRef [] "long" [] true (Some 4) false) "dims"; field (named "Point") "origin"] [].
Definition geometry : File := mkFile "geo" []
  [DParcelable sizes;
   DInterface (mkInterfaceDecl [] false "IGeo"
     [MConst (mkConstDecl [] (named "int") "LIMIT" "10");
      MMethod (mkMethodDecl [] false (named "Point") "get" [field (named "int") "index"] "");
      MEnum (mkEnumDecl [] "Kind" [mkEnumMember "A" "1"; mkEnumMember "B" ""]);
      MParcelable point])].

Lemma accepted_file_wellformed_witness :
  NoDup (given (declName <$> file_Decls geometry)) ∧
  acceptable "geo" (collectDecls "geo" (file_Decls geometry)) ["IGeo"] (DParcelable point).
Proof.
  destruct (accepted_file_wellformed (H := decimal_front_end) geometry) as [H1 H2]; [vm_compute; reflexivity|].
  split; [exact H1|]. refine (H2 _ _ _ _ (within_interface _ _ _ _ _ _ _ _ (nested_parcelable _ _ _) (within_refl _ _))).
  - right. left.
  - right. right. right. left.
Defined.

Lemma fixed_size_decides_witness :
  is_fixed "geo" (collectDecls "geo" (file_Decls geometry)) ["IGeo"; "Point"] (named "Point") = true ∧
  ∀ t, reaches "geo" (collectDecls "geo" (file_Decls geometry)) (named "Point") t →
    fixed_here "geo" (collectDecls "geo" (file_Decls geometry)) t.
Proof.
  split; [vm_compute; reflexivity|].
  apply (fixed_size_decides "geo" (file_Decls geometry) ["IGeo"; "Point"] (named "Point")); [|vm_compute; reflexivity].
  intros n1 n2 H1 H2 Hq. apply elem_of_list_to_set in H1, H2.
  change (names_from _ _) with ["Point"; "long"; "Point"; "int"; "Size"; "Kind"] in H1, H2.
  rewrite !elem_of_cons, elem_of_nil in H1, H2.
  destruct_or! H1; destruct_or! H2; subst; try done; vm_compute in Hq; discriminate.
Defined.

(** The field [a] of [Two] is of the nested type [Two.A], which holds a String; the
    validator looks [A] up in the whole file and finds [One.A]. *)
Definition shadowed : File := mkFile "" []
  [DParcelable (mkParcelableDecl [] "One" [] true [] []
     [DParcelable (mkParcelableDecl fixed "A" [] true [] [field (named "int") "x"] [])]);
   DParcelable (mkParcelableDecl fixed "Two" [] true [] [field (named "A") "a"]
     [DParcelable (mkParcelableDecl [] "A" [] true [] [field (named "String") "s"] [])])].

(** The validator compares no two enumerators and no two fields of a union, so a
    name may be given twice in them (a defect: the code generated for such a file
    declares a name twice). *)
Definition duplicated : File := mkFile "" []
  [DEnum (mkEnumDecl [] "E" [mkEnumMember "A" "1"; mkEnumMember "A" "2"]);
   DUnion (mkUnionDecl [] "U" [field (named "int") "a"; field (named "String") "a"])].

Lemma enum_duplicates_accepted : @ValidateFile decimal_front_end (Some duplicated) = (Ok tt, []).
Proof. vm_compute. reflexivity. Qed.

Lemma nested_name_resolved_in_another_type : @ValidateFile decimal_front_end (Some shadowed) = (Ok tt, []).
Proof. vm_compute. reflexivity. Qed.

(** Integer division in a constant has the kind of a float, so it is refused as the
    value of an enumerator; division by zero is a panic. *)
Definition division_front_end : GoFrontEnd := {|
  ParseExpr s := inl (BinaryExpr (BasicLit LitInt "4") QUO (BasicLit LitInt s));
  MakeFromLiteral _ s := match parse_digits 10 0 (bytes_of s) with Some z => CInt z | None => CUnknown end;
|}.

Definition dividing (by_ : string) : File := mkFile "" [] [DEnum (mkEnumDecl [] "E" [mkEnumMember "HALF" by_])].

Lemma division_refused_or_panics :
  @ValidateFile division_front_end (Some (dividing "2")) = (Ok tt, [InvalidEnumValue "E" "HALF" "2" "not an integer constant"]) ∧
  @ValidateFile division_front_end (Some (dividing "0")) = (Panic "division by zero", []).
Proof. split; vm_compute; reflexivity. Qed.
