(* ===== verification/AidlNames.v ===== *)
(** * AidlNames: the Go names made from AIDL names

    Models the naming functions of src/internal/aidl/gomodel/lower.go and
    custom.go: exported and local identifiers, package names, qualified names.
    Characters are ASCII, as in TextScanner. *)

From stdpp Require Import base list numbers strings.
From S2P Require Import Prelude Aidl GoText AidlExpr AidlResolve.

Open Scope Z_scope.

(** ** Characters and library functions *)

Definition is_upper (c : Ascii.ascii) : bool := (65 <=? code_of c) && (code_of c <=? 90).
Definition is_lower (c : Ascii.ascii) : bool := (97 <=? code_of c) && (code_of c <=? 122).
Definition is_alnum (c : Ascii.ascii) : bool := is_upper c || is_lower c || is_digit c.

Definition to_lower (c : Ascii.ascii) : Ascii.ascii :=
  if is_upper c then Ascii.ascii_of_nat (Ascii.nat_of_ascii c + 32) else c.
Definition to_upper (c : Ascii.ascii) : Ascii.ascii :=
  if is_lower c then Ascii.ascii_of_nat (Ascii.nat_of_ascii c - 32) else c.

Definition keywords : list string :=
  ["break"; "case"; "chan"; "const"; "continue"; "default"; "defer"; "else"; "fallthrough"; "for"; "func"; "go"; "goto";
   "if"; "import"; "interface"; "map"; "package"; "range"; "return"; "select"; "struct"; "switch"; "type"; "var"].

(** ** Identifiers *)

(** The inner loop of [splitIdentifier]. *)
Fixpoint split_words (current s : chars) : list chars :=
  match s with
  | [] => match current with [] => [] | _ => [to_lower <$> current] end
  | r :: s =>
      if is_upper r && bool_decide (current ≠ []) then (to_lower <$> current) :: split_words [r] s
      else split_words (current ++ [r]) s
  end.

Definition splitIdentifier (name : string) : list chars :=
  fields_func (λ c, negb (is_alnum c)) [] (chars_of name) ≫= λ field,
    if bool_decide (field = to_upper <$> field) then [to_lower <$> field] else split_words [] field.

Definition starts_with_digit (s : string) : bool := match s with String c _ => is_digit c | EmptyString => false end.

(** [part[:1]] of an empty part would panic; the parts are not empty. *)
Definition capitalize (part : chars) : chars := match part with [] => [] | c :: rest => to_upper c :: rest end.

Definition exportName (name : string) : string :=
  match splitIdentifier name with
  | [] => "X"
  | parts =>
      let out := of_chars (mjoin (capitalize <$> parts)) in
      let out := if bool_decide (out = "") then "X" else out in
      if starts_with_digit out then "X" +:+ out else out
  end.

Definition isReservedGeneratedIdentifier (name : string) : bool :=
  bool_decide (name ∈ ["binder"; "context"; "fmt"; "errors"; "sync"; "ctx"; "req"; "resp"; "reply"; "parcel"; "registrar"; "err"; "ret"]).

Definition lowerName (name : string) : string :=
  match exportName name with
  | EmptyString => "x"
  | String r rest =>
      let out := String (to_lower r) rest in
      if bool_decide (out ∈ keywords) || isReservedGeneratedIdentifier out then out +:+ "_" else out
  end.

(** ** Packages *)

Definition sanitizePackageName (name : string) : string :=
  let out := of_chars ((λ c, let r := to_lower c in if is_alnum r then r else Ascii.ascii_of_nat 95) <$> chars_of name) in
  let out := if bool_decide (out = "") then "aidl" else out in
  let out := if bool_decide (out ∈ keywords) then out +:+ "_aidl" else out in
  if starts_with_digit out then "aidl_" +:+ out else out.

Definition lastSegment (name : string) : string := match last_dot name with Some (_, after) => after | None => name end.

Definition packageName (name : string) : string := match last_dot name with Some (before, _) => before | None => "" end.

Definition descriptorName (pkg name : string) : string := if bool_decide (pkg = "") then name else pkg +:+ "." +:+ name.

(** strings.TrimSuffix(s, "/"). *)
Definition trim_slash (s : string) : string :=
  match reverse (chars_of s) with c :: rest => if bool_decide (c = slash) then of_chars (reverse rest) else s | [] => s end.

(** The case of no part does not arise: strings.Split gives at least one. *)
Definition customImportAlias (goPackage : string) : string :=
  match reverse (split_char slash (trim_slash goPackage)) with
  | [] => "customparcelable"
  | [part] => sanitizePackageName part
  | last :: prev :: _ => sanitizePackageName (prev +:+ "_" +:+ last)
  end.

Definition defaultGoPackageName (aidlPkg sourcePath : string) : string :=
  if negb (bool_decide (aidlPkg = "")) then sanitizePackageName (lastSegment aidlPkg)
  else if negb (bool_decide (sourcePath = "")) then
    let dir := filepath_Base (filepath_Dir sourcePath) in
    if negb (bool_decide (dir ∈ [""; "."; "/"])) then sanitizePackageName dir
    else
      let base := trim_suffix (filepath_Base sourcePath) (filepath_Ext sourcePath) in
      if negb (bool_decide (base = "")) then sanitizePackageName base else "aidl"
  else "aidl".
