(* ===== verification/AidlLower.v ===== *)
(** * AidlLower: from AIDL files to the model Go code is generated from

    Models src/internal/aidl/gomodel/model.go and lower.go.  A file and the files
    it depends on are first collected into a table of symbols ([symtab]); then its
    declarations are lowered one by one ([LM]), which adds to the output and to the
    diagnostics.  A nil pointer that the code dereferences is a panic. *)

From stdpp Require Import base list numbers strings pretty gmap.
From S2P Require Import Prelude Aidl AidlExpr AidlResolve GoText AidlNames.

Open Scope Z_scope.

(** ** The model (model.go) *)

Inductive TypeKind :=
| TypeVoid | TypeBool | TypeByte | TypeChar | TypeInt32 | TypeInt64 | TypeFloat32 | TypeFloat64 | TypeString
| TypeBinder | TypeFileDescriptor | TypeParcelFileDescriptor | TypeInterface | TypeParcelable | TypeEnum | TypeUnion
| TypeSlice | TypeArray | TypeMap | TypeExternal | TypeUnsupported.
#[global] Instance TypeKind_eq : EqDecision TypeKind.
Proof. solve_decision. Defined.

(** A pointer to a [Type] is an option; [FixedLen] is 0 when it is absent. *)
Inductive GoType := mkGoType {
  ty_Kind : TypeKind; ty_AIDLName : string; ty_DeclPackage : string; ty_GoExpr : string; ty_Nullable : bool;
  ty_FixedLen : Z; ty_Elem : option GoType; ty_Key : option GoType; ty_Value : option GoType; ty_NamedGo : string;
  ty_IsList : bool; ty_IsArray : bool; ty_IsBuiltin : bool;
}.

Record GoField := mkGoField {
  gf_Name : string; gf_GoName : string; gf_Direction : Direction; gf_Type : GoType; gf_DefaultValue : string;
}.

Record GoConst := mkGoConst { gc_Name : string; gc_GoName : string; gc_Type : GoType; gc_Value : string }.

Record GoMethod := mkGoMethod {
  gm_Name : string; gm_GoName : string; gm_TransactionCode : Z; gm_Oneway : bool;
  gm_Inputs : list GoField; gm_Return : option GoField; gm_Outputs : list GoField;
}.

Record GoInterface := mkGoInterface {
  gi_AIDLName : string; gi_GoName : string; gi_Descriptor : string; gi_Oneway : bool; gi_Stable : bool;
  gi_Version : Z; gi_Hash : string; gi_Consts : list GoConst; gi_Methods : list GoMethod;
}.

Record CustomParcelable := mkCustomParcelable {
  cp_GoPackage : string; cp_GoType : string; cp_WriteFunc : string; cp_ReadFunc : string; cp_Nullable : bool;
  cp_ImportAlias : string;
}.

Record GoParcelable := mkGoParcelable {
  gp_AIDLName : string; gp_GoName : string; gp_Structured : bool; gp_FixedSize : bool;
  gp_Custom : option CustomParcelable; gp_Consts : list GoConst; gp_Fields : list GoField;
}.

Record GoEnumMember := mkGoEnumMember { gem_Name : string; gem_GoName : string; gem_Value : string }.
Record GoEnum := mkGoEnum {
  ge_AIDLName : string; ge_GoName : string; ge_Underlying : GoType; ge_Members : list GoEnumMember;
}.

Record GoUnion := mkGoUnion { gu_AIDLName : string; gu_GoName : string; gu_FixedSize : bool; gu_Fields : list GoField }.

Record GoFile := mkGoFile {
  go_SourcePath : string; go_AIDLPackage : string; go_GoPackage : string; go_Imports : list Import;
  go_Interfaces : list GoInterface; go_Parcelables : list GoParcelable; go_Enums : list GoEnum;
  go_Unions : list GoUnion; go_ExternalRefs : list string;
}.

Record CustomParcelableConfig := mkCustomParcelableConfig {
  cc_AIDLName : string; cc_GoPackage : string; cc_GoType : string; cc_WriteFunc : string; cc_ReadFunc : string;
  cc_Nullable : bool;
}.

Record StableInterfaceConfig := mkStableInterfaceConfig { si_AIDLName : string; si_Version : Z; si_Hash : string }.

(** ** Symbols *)

Inductive namedKind := namedInterface | namedParcelable | namedEnum | namedUnion.
#[global] Instance namedKind_eq : EqDecision namedKind.
Proof. solve_decision. Defined.

(** A pointer to a scope: the identity of the scope, then those of the scopes
    around it; the root is [[0]].  (The fields [prefix] and [declaredIn] are never
    read.) *)
Definition scope : Type := list nat.
Definition root : scope := [0%nat].

Record namedSymbol := mkNamedSymbol {
  sym_kind : namedKind; sym_aidlName : string; sym_goName : string; sym_scope : option scope; sym_decl : Decl;
  sym_packageName : string;
}.

(** The scopes made so far with their symbols, and the symbols by qualified name. *)
Record symtab := mkSymtab {
  st_next : nat; st_scopes : gmap nat (gmap string namedSymbol); st_byQName : gmap string namedSymbol;
}.

Definition empty_symtab : symtab := mkSymtab 1 ∅ ∅.

(** current.symbols of a scope that is not nil. *)
Definition scope_symbols (st : symtab) (sc : scope) : gmap string namedSymbol :=
  match sc with [] => ∅ | id :: _ => default ∅ (st_scopes st !! id) end.

(** The loop over a scope and its parents. *)
Fixpoint lookup_scopes (st : symtab) (sc : scope) (name : string) : option namedSymbol :=
  match sc with
  | [] => None
  | id :: parents =>
      match default ∅ (st_scopes st !! id) !! name with Some sym => Some sym | None => lookup_scopes st parents name end
  end.

Section Collect.
Context (main_pkg : string).

(** Whether the symbol goes into its scope: not into the root of another package. *)
Definition in_scope (pkg : string) (current : scope) (owner : option namedSymbol) : bool :=
  negb (bool_decide (current = root)) || bool_decide (is_Some owner) || bool_decide (pkg = main_pkg).

(** [sc] is the scope the caller stores in the symbol right after. *)
Definition registerDecl (pkg : string) (current : scope) (owner : option namedSymbol) (name : string) (kind : namedKind)
    (decl : Decl) (sc : option scope) (st : symtab) : namedSymbol * symtab :=
  let qualified := match owner with Some o => sym_aidlName o +:+ "." +:+ name | None => name end in
  let qualified := if bool_decide (pkg = "") then qualified else pkg +:+ "." +:+ qualified in
  let goName := match owner with Some o => sym_goName o +:+ exportName name | None => exportName name end in
  let sym := mkNamedSymbol kind qualified goName sc decl pkg in
  let scopes :=
    match current with
    | id :: _ =>
        if in_scope pkg current owner then <[id := <[name := sym]> (default ∅ (st_scopes st !! id))]> (st_scopes st)
        else st_scopes st
    | [] => st_scopes st
    end in
  let byQName := <[qualified := sym]> (st_byQName st) in
  let byQName :=
    if bool_decide (pkg = "") then byQName else <[trim_prefix qualified (pkg +:+ ".") := sym]> byQName in
  (sym, mkSymtab (st_next st) scopes byQName).

(** A new scope inside [current]. *)
Definition new_scope (current : scope) (st : symtab) : scope * symtab :=
  (st_next st :: current, mkSymtab (S (st_next st)) (<[st_next st := ∅]> (st_scopes st)) (st_byQName st)).

(** Nothing below a nested declaration is collected. *)
Definition collectNestedDecl (pkg : string) (current : scope) (owner : namedSymbol) (m : InterfaceMember) (st : symtab) : symtab :=
  match m with
  | MParcelable (mkParcelableDecl _ name _ _ _ _ _ as p) =>
      snd (registerDecl pkg current (Some owner) name namedParcelable (DParcelable p) None st)
  | MEnum e => snd (registerDecl pkg current (Some owner) (ed_Name e) namedEnum (DEnum e) None st)
  | MUnion u => snd (registerDecl pkg current (Some owner) (ud_Name u) namedUnion (DUnion u) None st)
  | _ => st
  end.

Fixpoint collectDecl (pkg : string) (current : scope) (owner : option namedSymbol) (d : Decl) (st : symtab) : symtab :=
  match d with
  | DInterface (mkInterfaceDecl _ _ name members) =>
      let '(sc, st) := new_scope current st in
      let '(sym, st) := registerDecl pkg current owner name namedInterface d (Some sc) st in
      fold_left (λ st m, collectNestedDecl pkg sc sym m st) members st
  | DParcelable (mkParcelableDecl _ name _ _ _ _ decls) =>
      match decls with
      | [] => snd (registerDecl pkg current owner name namedParcelable d None st)
      | _ =>
          let '(sc, st) := new_scope current st in
          let '(sym, st) := registerDecl pkg current owner name namedParcelable d (Some sc) st in
          (fix go l st := match l with [] => st | x :: l => go l (collectDecl pkg sc (Some sym) x st) end) decls st
      end
  | DEnum e => snd (registerDecl pkg current owner (ed_Name e) namedEnum d None st)
  | DUnion u => snd (registerDecl pkg current owner (ud_Name u) namedUnion d None st)
  end.

Definition collectTopLevel (file : option File) (st : symtab) : symtab :=
  match file with
  | None => st
  | Some f => fold_left (λ st d, collectDecl (file_PackageName f) root None d st) (file_Decls f) st
  end.
End Collect.

(** ** Diagnostics and the state of a lowering *)

Inductive LowerDiagnostic :=
| LowerNilFile
| InvalidTransaction (iface method value err : string)
| NonPositiveTransaction (iface method value : string)
| OnewayReturns (iface method : string)
| OnewayOutputs (iface method : string)
| EnumValueRequired (enum member : string)
| UnsupportedEnumBacking (backing : string)
| EmptyType
| ListArguments (n : nat)
| MapArguments (n : nat)
| NullableFixedArray (name : string)
| UnresolvedType (name : string)
| NullableCustom (name : string)
| NullableUnsupported (kind : TypeKind) (name : string)
| InvalidExpression (src err : string)
| LowerExpression (src err : string).

Record lowered := mkLowered { low_out : GoFile; low_diags : list LowerDiagnostic }.
Definition LM : Type → Type := ST Empty_set lowered.

Definition diag (d : LowerDiagnostic) : LM unit := λ s, (Ok tt, mkLowered (low_out s) (low_diags s ++ [d])).
Definition diag_if (b : bool) (d : LowerDiagnostic) : LM unit := if b then diag d else mret tt.
Definition update_out (f : GoFile → GoFile) : LM unit := λ s, (Ok tt, mkLowered (f (low_out s)) (low_diags s)).

Definition add_interface (x : GoInterface) (f : GoFile) : GoFile :=
  mkGoFile (go_SourcePath f) (go_AIDLPackage f) (go_GoPackage f) (go_Imports f) (go_Interfaces f ++ [x]) (go_Parcelables f)
    (go_Enums f) (go_Unions f) (go_ExternalRefs f).
Definition add_parcelable (x : GoParcelable) (f : GoFile) : GoFile :=
  mkGoFile (go_SourcePath f) (go_AIDLPackage f) (go_GoPackage f) (go_Imports f) (go_Interfaces f) (go_Parcelables f ++ [x])
    (go_Enums f) (go_Unions f) (go_ExternalRefs f).
Definition add_enum (x : GoEnum) (f : GoFile) : GoFile :=
  mkGoFile (go_SourcePath f) (go_AIDLPackage f) (go_GoPackage f) (go_Imports f) (go_Interfaces f) (go_Parcelables f)
    (go_Enums f ++ [x]) (go_Unions f) (go_ExternalRefs f).
Definition add_union (x : GoUnion) (f : GoFile) : GoFile :=
  mkGoFile (go_SourcePath f) (go_AIDLPackage f) (go_GoPackage f) (go_Imports f) (go_Interfaces f) (go_Parcelables f)
    (go_Enums f) (go_Unions f ++ [x]) (go_ExternalRefs f).

Definition appendIfMissing (values : list string) (value : string) : list string :=
  if bool_decide (value ∈ values) then values else values ++ [value].
Definition add_external (x : string) (f : GoFile) : GoFile :=
  mkGoFile (go_SourcePath f) (go_AIDLPackage f) (go_GoPackage f) (go_Imports f) (go_Interfaces f) (go_Parcelables f)
    (go_Enums f) (go_Unions f) (appendIfMissing (go_ExternalRefs f) x).

(** ** Types *)

Definition hasNullableAnnotation (anns : list Annotation) : bool := hasAnnotation anns nullable_names.
Definition hasVintfStabilityAnnotation (anns : list Annotation) : bool := hasAnnotation anns vintf_names.
Definition hasFixedSizeAnnotation (anns : list Annotation) : bool := hasAnnotation anns fixed_size_names.

Definition applyFieldTypeAnnotations (field : Field) : TypeRef :=
  let ref := fld_Type field in
  if hasNullableAnnotation (fld_Annotations field) || hasNullableAnnotation (tr_Annotations ref)
  then set_Nullable true ref else ref.

Definition builtin (kind : TypeKind) (name go : string) (nullable : bool) : GoType :=
  mkGoType kind name "" go nullable 0 None None None "" false false true.

Definition unsupportedNullableBuiltin (name : string) : GoType := builtin TypeUnsupported name (exportName name) true.

(** The types that have no null. *)
Definition scalars : list (string * (TypeKind * string)) :=
  [("boolean", (TypeBool, "bool")); ("byte", (TypeByte, "int8")); ("char", (TypeChar, "uint16"));
   ("int", (TypeInt32, "int32")); ("long", (TypeInt64, "int64")); ("float", (TypeFloat32, "float32"));
   ("double", (TypeFloat64, "float64")); ("FileDescriptor", (TypeFileDescriptor, "binder.FileDescriptor"))].

Definition assoc {A} (key : string) (l : list (string * A)) : option A :=
  snd <$> List.find (λ p, bool_decide (p.1 = key)) l.

Definition builtinType (name : string) (nullable : bool) : option GoType :=
  if bool_decide (name = "void") then Some (mkGoType TypeVoid "void" "" "" false 0 None None None "" false false false)
  else if bool_decide (name = "String") then
    Some (builtin TypeString name (if nullable then "*string" else "string") nullable)
  else if bool_decide (name = "IBinder") then Some (builtin TypeBinder name "binder.Binder" true)
  else if bool_decide (name = "ParcelFileDescriptor") then
    Some (builtin TypeParcelFileDescriptor name (if nullable then "*binder.ParcelFileDescriptor" else "binder.ParcelFileDescriptor") nullable)
  else
    match assoc name scalars with
    | Some (kind, go) => Some (if nullable then unsupportedNullableBuiltin name else builtin kind name go false)
    | None => None
    end.

Definition importAliases (imports : list Import) : gmap string string :=
  fold_left (λ out imp, if bool_decide (imp_Path imp = "") then out else <[lastSegment (imp_Path imp) := imp_Path imp]> out) imports ∅.

Section Lower.
Context `{GoFrontEnd} (file : File) (st : symtab)
  (customParcelables : gmap string CustomParcelableConfig) (stableInterfaces : gmap string StableInterfaceConfig).

Abbreviation pkg := (file_PackageName file).

(** byQName of a name inside the file's package. *)
Definition lookup_in_package (name : string) : option namedSymbol :=
  if bool_decide (pkg = "") then None else st_byQName st !! (pkg +:+ "." +:+ name).

Fixpoint lookup_imports (imports : list Import) (name : string) : option namedSymbol :=
  match imports with
  | [] => None
  | imp :: imports =>
      if negb (bool_decide (lastSegment (imp_Path imp) = name)) then lookup_imports imports name
      else match st_byQName st !! imp_Path imp with Some sym => Some sym | None => lookup_imports imports name end
  end.

Definition lookup_symbol (current : scope) (name : string) : option namedSymbol :=
  if contains_dot name then
    match st_byQName st !! name with Some sym => Some sym | None => lookup_in_package name end
  else
    match importAliases (file_Imports file) !! name ≫= (st_byQName st !!.) with
    | Some sym => Some sym
    | None =>
        match lookup_scopes st current name with
        | Some sym => Some sym
        | None =>
            match lookup_in_package name with
            | Some sym => Some sym
            | None => lookup_imports (file_Imports file) name
            end
        end
    end.

Definition type_kind (k : namedKind) : TypeKind :=
  match k with
  | namedInterface => TypeInterface | namedParcelable => TypeParcelable | namedEnum => TypeEnum | namedUnion => TypeUnion
  end.

Definition named_type (kind : TypeKind) (sym : namedSymbol) (goExpr : string) (nullable : bool) : GoType :=
  mkGoType kind (sym_aidlName sym) (sym_packageName sym) goExpr nullable 0 None None None (sym_goName sym) false false false.

(** The configuration of a parcelable that is not structured. *)
Definition custom_of (sym : namedSymbol) : option CustomParcelableConfig :=
  match sym_kind sym, sym_decl sym with
  | namedParcelable, DParcelable (mkParcelableDecl _ _ _ false _ _ _) => customParcelables !! sym_aidlName sym
  | _, _ => None
  end.

(** The end of [lowerType]: neither List, Map nor array. *)
Definition lower_named (current : scope) (name : string) (nullable : bool) : LM (option GoType) :=
  match builtinType name nullable with
  | Some t => mret (Some t)
  | None =>
      match lookup_symbol current name with
      | None =>
          diag (UnresolvedType name);;
          update_out (add_external name);;
          let go := exportName (lastSegment name) in
          mret (Some (mkGoType TypeExternal name (packageName name) go nullable 0 None None None go false false false))
      | Some sym =>
          let kind := type_kind (sym_kind sym) in
          match custom_of sym with
          | Some cfg =>
              let goExpr := customImportAlias (cc_GoPackage cfg) +:+ "." +:+ cc_GoType cfg in
              diag_if (nullable && negb (cc_Nullable cfg)) (NullableCustom (sym_aidlName sym));;
              mret (Some (named_type kind sym (if nullable then "*" +:+ goExpr else goExpr) nullable))
          | None =>
              diag_if (nullable && bool_decide (kind = TypeEnum)) (NullableUnsupported kind (sym_aidlName sym));;
              let pointer := nullable && bool_decide (kind ∈ [TypeParcelable; TypeUnion]) in
              mret (Some (named_type kind sym (if pointer then "*" +:+ sym_goName sym else sym_goName sym) nullable))
          end
      end
  end.

Definition any_type : GoType := mkGoType TypeUnsupported "" "" "any" false 0 None None None "" false false false.

(** [None] is nil.  The call for the element of an array finds neither List nor Map
    nor array again, so it is [lower_named]. *)
Fixpoint lowerType (current : scope) (ref : TypeRef) : LM (option GoType) :=
  if bool_decide (tr_Name ref = "") then diag EmptyType;; mret None
  else if bool_decide (tr_Name ref = "List") then
    match tr_TypeArgs ref with
    | [a] =>
        elem ← lowerType current a;
        mret (elem ← elem;
              Some (mkGoType TypeSlice "" "" ("[]" +:+ ty_GoExpr elem) true 0 (Some elem) None None "" true false false))
    | l => diag (ListArguments (length l));; mret None
    end
  else if bool_decide (tr_Name ref = "Map") then
    match tr_TypeArgs ref with
    | [] => mret (Some (mkGoType TypeMap "" "" "map[any]any" true 0 None (Some any_type) (Some any_type) "" false false false))
    | [a; b] =>
        key ← lowerType current a;
        match key with
        | None => mret None
        | Some key =>
            value ← lowerType current b;
            mret (value ← value;
                  Some (mkGoType TypeMap "" "" ("map[" +:+ ty_GoExpr key +:+ "]" +:+ ty_GoExpr value) true 0 None (Some key)
                          (Some value) "" false false false))
        end
    | l => diag (MapArguments (length l));; mret None
    end
  else if tr_Array ref then
    elem ← lower_named current (tr_Name ref) false;
    match elem, tr_FixedArrayLen ref with
    | None, _ => mret None
    | Some elem, Some n =>
        diag_if (tr_Nullable ref) (NullableFixedArray (tr_Name ref));;
        mret (Some (mkGoType TypeArray "" "" ("[]" +:+ ty_GoExpr elem) (tr_Nullable ref) n (Some elem) None None "" false true false))
    | Some elem, None =>
        mret (Some (mkGoType TypeSlice "" "" ("[]" +:+ ty_GoExpr elem) true 0 (Some elem) None None "" false true false))
    end
  else lower_named current (tr_Name ref) (tr_Nullable ref).

(** ** Values *)

Fixpoint member_named (name : string) (members : list EnumMember) : bool :=
  match members with [] => false | m :: members => bool_decide (em_Name m = name) || member_named name members end.

Definition lookupEnumMemberGoName (current : scope) (qname : string) : option string :=
  match last_dot qname with
  | None => None
  | Some (typeName, memberName) =>
      match lookup_symbol current typeName with
      | Some (mkNamedSymbol namedEnum _ goName _ (DEnum e) _) =>
          if member_named memberName (ed_Members e) then Some (goName +:+ exportName memberName) else None
      | _ => None
      end
  end.

(** token.Token.String. *)
Definition op_string (o : op) : string :=
  match o with
  | ADD => "+" | SUB => "-" | MUL => "*" | QUO => "/" | REM => "%" | AND => "&" | OR => "|" | XOR => "^" | AND_NOT => "&^"
  | SHL => "<<" | SHR => ">>" | LAND => "&&" | LOR => "||" | NOT => "!" | OTHER text => text
  end.

(** The same code as [selectorName] of the evaluator. *)
Definition selectorQName (x : goexpr) (sel : string) : option string :=
  parts ← selector_parts x; Some (Join (parts ++ [sel]) ".").

(** An error is the text of the second result. *)
Fixpoint renderValueExpr (current : scope) (node : goexpr) (names : gmap string string) : string + string :=
  match node with
  | BasicLit _ value => inl value
  | Ident name =>
      if bool_decide (name ∈ ["true"; "false"; "nil"]) then inl name else inl (default name (names !! name))
  | SelectorExpr x sel =>
      match selectorQName x sel with
      | None => inr "unsupported selector"
      | Some full =>
          inl (match names !! full with
               | Some value => value
               | None => default full (lookupEnumMemberGoName current full)
               end)
      end
  | ParenExpr x => match renderValueExpr current x names with inl inner => inl ("(" +:+ inner +:+ ")") | inr e => inr e end
  | UnaryExpr o x => match renderValueExpr current x names with inl inner => inl (op_string o +:+ inner) | inr e => inr e end
  | BinaryExpr x o y =>
      match renderValueExpr current x names with
      | inr e => inr e
      | inl l =>
          match renderValueExpr current y names with
          | inr e => inr e
          | inl r => inl ("(" +:+ l +:+ op_string o +:+ r +:+ ")")
          end
      end
  | OtherExpr => inr "unsupported expression"
  end.

Definition lowerValueExpression (current : scope) (src : string) (names : gmap string string) : LM string :=
  if bool_decide (TrimSpace src = "") then mret ""
  else
    match Expr_Parse src with
    | Ok node =>
        match renderValueExpr current node names with
        | inl value => mret value
        | inr err => diag (LowerExpression src err);; mret ""
        end
    | Err err => diag (InvalidExpression src err);; mret ""
    | Panic y => panic y
    end.

(** A value, or the normalized source when it could not be lowered. *)
Definition lower_value (current : scope) (src : string) (names : gmap string string) : LM string :=
  value ← lowerValueExpression current src names;
  mret (if bool_decide (value = "") then Normalize src else value).

(** An expression that is evaluated for its value only: errors are dropped. *)
Definition try_eval {A} (m : ceval A) : LM (option A) :=
  match m with Ok a => mret (Some a) | Err _ => mret None | Panic y => panic y end.

(** The Go names and the values of the constants or enumerators so far. *)
Record known_consts := mkKnown { kc_names : gmap string string; kc_values : Env }.
Definition no_consts : known_consts := mkKnown ∅ ∅.

Definition know (full goName : string) (value : option constant) (k : known_consts) : known_consts :=
  mkKnown (registerNameAliases full goName (kc_names k))
    (match value with Some v => registerNameAliases full v (kc_values k) | None => kc_values k end).

(** A constant of an interface or parcelable; [None]: its type is nil. *)
Definition lower_const (current : scope) (sym : namedSymbol) (c : ConstDecl) (k : known_consts)
  : LM (option (GoConst * known_consts)) :=
  typ ← lowerType current (cd_Type c);
  match typ with
  | None => mret None
  | Some typ =>
      value ← lower_value current (cd_Value c) (kc_names k);
      let goName := sym_goName sym +:+ exportName (cd_Name c) in
      v ← try_eval (Eval (cd_Value c) (kc_values k));
      mret (Some (mkGoConst (cd_Name c) goName typ value, know (sym_aidlName sym +:+ "." +:+ cd_Name c) goName v k))
  end.

(** ** Enums and unions *)

(** current.symbols[name]: the scope must not be nil. *)
Definition symbol_of (current : option scope) (name : string) : LM (option namedSymbol) :=
  match current with
  | None => panic "nil pointer dereference"
  | Some sc => mret (scope_symbols st sc !! name)
  end.

(** A nil scope has no symbols and no parent. *)
Definition scope_or_nil (sc : option scope) : scope := default [] sc.

(** The last argument named type of a @Backing annotation. *)
Definition enum_backing (annotations : list Annotation) : string :=
  fold_left (λ backing ann,
    if bool_decide (ann_Name ann ∈ backing_names) then
      fold_left (λ backing arg, if bool_decide (aarg_Name arg = "type") then trim_quotes (aarg_Value arg) else backing)
        (ann_Args ann) backing
    else backing) annotations "int".

Definition int_type : GoType := builtin TypeInt32 "int" "int32" false.

Definition enumBackingType (annotations : list Annotation) : LM GoType :=
  let backing := enum_backing annotations in
  if bool_decide (backing ∈ ["byte"; "int"; "long"]) then mret (default int_type (builtinType backing false))
  else diag (UnsupportedEnumBacking backing);; mret int_type.

(** [next] is unknown ([None]) after a value that could not be evaluated. *)
Fixpoint lower_enum_members (current : scope) (sym : namedSymbol) (members : list EnumMember) (k : known_consts)
    (next : option Z) : LM (list GoEnumMember) :=
  match members with
  | [] => mret []
  | m :: members =>
      let goName := sym_goName sym +:+ exportName (em_Name m) in
      let full := sym_aidlName sym +:+ "." +:+ em_Name m in
      if negb (bool_decide (em_Value m = "")) then
        value ← lower_value current (em_Value m) (kc_names k);
        v ← try_eval (EvalInt64 (em_Value m) (kc_values k));
        rest ← lower_enum_members current sym members (know full goName (CInt <$> v) k) ((λ v, i64 (v + 1)) <$> v);
        mret (mkGoEnumMember (em_Name m) goName value :: rest)
      else
        match next with
        | None =>
            diag (EnumValueRequired (sym_goName sym) (em_Name m));;
            rest ← lower_enum_members current sym members (know full goName None k) None;
            mret (mkGoEnumMember (em_Name m) goName "0" :: rest)
        | Some v =>
            rest ← lower_enum_members current sym members (know full goName (Some (CInt v)) k) (Some (i64 (v + 1)));
            mret (mkGoEnumMember (em_Name m) goName (pretty v) :: rest)
        end
  end.

Definition lowerEnum (current : option scope) (d : EnumDecl) : LM unit :=
  sym ← symbol_of current (ed_Name d);
  match sym with
  | None => mret tt
  | Some sym =>
      underlying ← enumBackingType (ed_Annotations d);
      members ← lower_enum_members (scope_or_nil current) sym (ed_Members d) no_consts (Some 0);
      update_out (add_enum (mkGoEnum (sym_aidlName sym) (sym_goName sym) underlying members))
  end.

(** The fields of a union or parcelable, with [default] for their default values;
    [None]: the type of one is nil. *)
Fixpoint lower_fields (current : scope) (lower_default : Field → LM string) (fields : list Field) : LM (option (list GoField)) :=
  match fields with
  | [] => mret (Some [])
  | field :: fields =>
      typ ← lowerType current (applyFieldTypeAnnotations field);
      match typ with
      | None => mret None
      | Some typ =>
          value ← lower_default field;
          rest ← lower_fields current lower_default fields;
          mret (rest ← rest; Some (mkGoField (fld_Name field) (exportName (fld_Name field)) DirectionNone typ value :: rest))
      end
  end.

Definition lowerUnion (current : option scope) (d : UnionDecl) : LM unit :=
  sym ← symbol_of current (ud_Name d);
  match sym with
  | None => mret tt
  | Some sym =>
      fields ← lower_fields (scope_or_nil current) (λ _, mret "") (ud_Fields d);
      match fields with
      | None => mret tt
      | Some fields =>
          update_out (add_union (mkGoUnion (sym_aidlName sym) (sym_goName sym) (hasFixedSizeAnnotation (ud_Annotations d)) fields))
      end
  end.

(** ** Methods *)

(** The inputs and outputs of a method; [None]: the type of an argument is nil. *)
Fixpoint lower_args (current : scope) (args : list Field) : LM (option (list GoField * list GoField)) :=
  match args with
  | [] => mret (Some ([], []))
  | arg :: args =>
      typ ← lowerType current (applyFieldTypeAnnotations arg);
      match typ with
      | None => mret None
      | Some typ =>
          let field suffix := mkGoField (fld_Name arg) (lowerName (fld_Name arg) +:+ suffix) (fld_Direction arg) typ "" in
          rest ← lower_args current args;
          mret ('(ins, outs) ← rest;
                Some (match fld_Direction arg with
                      | DirectionOut => (ins, field "" :: outs)
                      | DirectionInOut => (field "" :: ins, field "Out" :: outs)
                      | _ => (field "" :: ins, outs)
                      end))
      end
  end.

(** The return value; [None]: its type is nil. *)
Definition lower_return (current : scope) (m : MethodDecl) : LM (option (option GoField)) :=
  let ref := if hasNullableAnnotation (md_Annotations m) then set_Nullable true (md_Return m) else md_Return m in
  if bool_decide (tr_Name ref = "void") then mret (Some None)
  else
    typ ← lowerType current ref;
    mret (typ ← typ; Some (Some (mkGoField "ret" "ret" DirectionNone typ ""))).

Definition lowerMethod (current : scope) (iface : string) (iface_oneway : bool) (m : MethodDecl) (txCode : Z) : LM (option GoMethod) :=
  ret ← lower_return current m;
  match ret with
  | None => mret None
  | Some ret =>
      args ← lower_args current (md_Args m);
      match args with
      | None => mret None
      | Some (ins, outs) =>
          let oneway := iface_oneway || md_Oneway m in
          let goName := exportName (md_Name m) in
          diag_if (oneway && bool_decide (is_Some ret)) (OnewayReturns iface goName);;
          diag_if (oneway && negb (match outs with [] => true | _ => false end)) (OnewayOutputs iface goName);;
          mret (Some (mkGoMethod (md_Name m) goName txCode oneway ins ret outs))
      end
  end.

(** ** Interfaces, parcelables, declarations *)

(** The transaction code of a method, and the next implicit one. *)
Definition method_code (current : scope) (iface : string) (m : MethodDecl) (k : known_consts) (txCode : Z) : LM (Z * Z) :=
  if bool_decide (md_Transaction m = "") then mret (txCode, txCode)
  else
    valueExpr ← lower_value current (md_Transaction m) (kc_names k);
    match EvalInt64 (md_Transaction m) (kc_values k) with
    | Panic y => panic y
    | Err err => diag (InvalidTransaction iface (md_Name m) (md_Transaction m) err);; mret (txCode, txCode)
    | Ok value =>
        if value <=? 0 then diag (NonPositiveTransaction iface (md_Name m) valueExpr);; mret (txCode, txCode)
        else
          let next := u32 (u32 value + 1) in
          mret (u32 value, if txCode <? next then next else txCode)
    end.

(** The loop of [lowerInterface] over the members; [nested] lowers a declaration
    inside the interface. *)
Definition lower_members (sym : namedSymbol) (oneway : bool) (nested : InterfaceMember → LM unit)
  : list InterfaceMember → known_consts → Z → LM (list GoConst * list GoMethod) :=
  fix go ms k txCode :=
    match ms with
    | [] => mret ([], [])
    | MConst c :: ms =>
        r ← lower_const (scope_or_nil (sym_scope sym)) sym c k;
        match r with
        | None => go ms k txCode
        | Some (gc, k) => '(cs, gms) ← go ms k txCode; mret (gc :: cs, gms)
        end
    | MMethod m :: ms =>
        '(code, txCode) ← method_code (scope_or_nil (sym_scope sym)) (sym_goName sym) m k txCode;
        method ← lowerMethod (scope_or_nil (sym_scope sym)) (sym_goName sym) oneway m code;
        match method with
        | None => go ms k txCode
        | Some gm =>
            '(cs, gms) ← go ms k (if bool_decide (md_Transaction m = "") then u32 (txCode + 1) else txCode);
            mret (cs, gm :: gms)
        end
    | m :: ms => nested m;; go ms k txCode
    end.

(** The constants of a parcelable; [None]: the type of one is nil. *)
Fixpoint lower_consts (current : scope) (sym : namedSymbol) (cs : list ConstDecl) (k : known_consts)
  : LM (option (list GoConst * known_consts)) :=
  match cs with
  | [] => mret (Some ([], k))
  | c :: cs =>
      r ← lower_const current sym c k;
      match r with
      | None => mret None
      | Some (gc, k) =>
          rest ← lower_consts current sym cs k;
          mret ('(gcs, k) ← rest; Some (gc :: gcs, k))
      end
  end.

Definition custom_parcelable (cfg : CustomParcelableConfig) : CustomParcelable :=
  mkCustomParcelable (cc_GoPackage cfg) (cc_GoType cfg) (cc_WriteFunc cfg) (cc_ReadFunc cfg) (cc_Nullable cfg)
    (customImportAlias (cc_GoPackage cfg)).

(** The version and hash of a stable interface. *)
Definition stability (stable : bool) (aidlName : string) : Z * string :=
  if stable then match stableInterfaces !! aidlName with Some cfg => (si_Version cfg, si_Hash cfg) | None => (0, "") end
  else (0, "").

Fixpoint lowerDecl (current : option scope) (d : Decl) : LM unit :=
  match d with
  | DInterface i => lowerInterface current i
  | DParcelable p => lowerParcelable current p
  | DEnum e => lowerEnum current e
  | DUnion u => lowerUnion current u
  end
with lowerInterface (current : option scope) (i : InterfaceDecl) : LM unit :=
  match i with
  | mkInterfaceDecl annotations oneway name members =>
      sym ← symbol_of current name;
      match sym with
      | None => mret tt
      | Some sym =>
          let stable := hasVintfStabilityAnnotation annotations in
          let '(version, hash) := stability stable (sym_aidlName sym) in
          '(consts, methods) ← lower_members sym oneway (λ m,
             match m with
             | MParcelable p => lowerParcelable (sym_scope sym) p
             | MEnum e => lowerEnum (sym_scope sym) e
             | MUnion u => lowerUnion (sym_scope sym) u
             | _ => mret tt
             end) members no_consts 1;
          update_out (add_interface (mkGoInterface (sym_aidlName sym) (sym_goName sym) (descriptorName pkg name) oneway
                                       stable version hash consts methods))
      end
  end
with lowerParcelable (current : option scope) (p : ParcelableDecl) : LM unit :=
  match p with
  | mkParcelableDecl annotations name _ structured consts fields decls =>
      sym ← symbol_of current name;
      match sym with
      | None => mret tt
      | Some sym =>
          let custom := if structured then None else custom_parcelable <$> customParcelables !! sym_aidlName sym in
          let fieldScope := match sym_scope sym with Some sc => Some sc | None => current end in
          let sc := scope_or_nil fieldScope in
          r ← lower_consts sc sym consts no_consts;
          match r with
          | None => mret tt
          | Some (gcs, k) =>
              r ← lower_fields sc (λ field, if bool_decide (fld_DefaultValue field = "") then mret ""
                                            else lower_value sc (fld_DefaultValue field) (kc_names k)) fields;
              match r with
              | None => mret tt
              | Some gfs =>
                  update_out (add_parcelable (mkGoParcelable (sym_aidlName sym) (sym_goName sym) structured
                                                (hasFixedSizeAnnotation annotations) custom gcs gfs));;
                  (fix go l := match l with [] => mret tt | d :: l => lowerDecl fieldScope d;; go l end) decls
              end
          end
      end
  end.

Definition lower_decls (decls : list Decl) : LM unit :=
  (fix go l := match l with [] => mret tt | d :: l => lowerDecl (Some root) d;; go l end) decls.
End Lower.

Record LowerOptions := mkLowerOptions {
  lo_SourcePath : string; lo_CustomParcelables : gmap string CustomParcelableConfig;
  lo_StableInterfaces : gmap string StableInterfaceConfig; lo_DependencyFiles : list (option File);
}.

(** The symbols of a file and of the files it depends on. *)
Definition symbols (file : File) (deps : list (option File)) : symtab :=
  fold_left (λ st dep, collectTopLevel (file_PackageName file) dep st) deps
    (collectTopLevel (file_PackageName file) (Some file) empty_symtab).

Definition empty_out (file : File) (sourcePath : string) : GoFile :=
  mkGoFile sourcePath (file_PackageName file) (defaultGoPackageName (file_PackageName file) sourcePath) (file_Imports file)
    [] [] [] [] [].

(** The file is nil ([None]) with a diagnostic when there is none to lower. *)
Definition Lower `{GoFrontEnd} (file : option File) (opts : LowerOptions)
  : result Empty_set (option GoFile * list LowerDiagnostic) :=
  match file with
  | None => Ok (None, [LowerNilFile])
  | Some f =>
      let '(r, s) := lower_decls f (symbols f (lo_DependencyFiles opts)) (lo_CustomParcelables opts)
                       (lo_StableInterfaces opts) (file_Decls f) (mkLowered (empty_out f (lo_SourcePath opts)) []) in
      result_map (λ _, (Some (low_out s), low_diags s)) r
  end.

(** ** Type mappings (custom.go) *)

Record TypeMappingFile := mkTypeMappingFile {
  tm_Version : Z; tm_Parcelables : list CustomParcelableConfig; tm_Interfaces : list StableInterfaceConfig;
}.

(** What is missing in an entry. *)
Definition check_parcelable_mapping (e : CustomParcelableConfig) : option string :=
  if bool_decide (cc_AIDLName e = "") then Some "custom parcelable aidl_name is required"
  else if bool_decide (cc_GoPackage e = "") then Some (cc_AIDLName e +:+ " go_package is required")
  else if bool_decide (cc_GoType e = "") then Some (cc_AIDLName e +:+ " go_type is required")
  else if bool_decide (cc_WriteFunc e = "") then Some (cc_AIDLName e +:+ " write_func is required")
  else if bool_decide (cc_ReadFunc e = "") then Some (cc_AIDLName e +:+ " read_func is required")
  else None.

Definition check_interface_mapping (e : StableInterfaceConfig) : option string :=
  if bool_decide (si_AIDLName e = "") then Some "stable interface aidl_name is required"
  else if si_Version e <=? 0 then Some (si_AIDLName e +:+ " version must be > 0")
  else if bool_decide (si_Hash e = "") then Some (si_AIDLName e +:+ " hash is required")
  else None.

(** The loop of both loaders. *)
Fixpoint load_mappings {A} (name : A → string) (check : A → option string) (what : string) (l : list A) (out : gmap string A)
  : gmap string A + string :=
  match l with
  | [] => inl out
  | e :: l =>
      match check e with
      | Some err => inr err
      | None =>
          if bool_decide (is_Some (out !! name e)) then inr ("duplicate " +:+ what +:+ " " +:+ name e)
          else load_mappings name check what l (<[name e := e]> out)
      end
  end.

Section Load.
(** os.ReadFile and json.Unmarshal: a file, or the text of the error. *)
Context (read_json : string → TypeMappingFile + string).

Definition LoadTypeMappingFile (path : string) : TypeMappingFile + string :=
  match read_json path with
  | inr err => inr err
  | inl f => if bool_decide (tm_Version f = 1) then inl f else inr ("unsupported version " +:+ pretty (tm_Version f))
  end.

Definition LoadCustomParcelableMappings (path : string) : gmap string CustomParcelableConfig + string :=
  match LoadTypeMappingFile path with
  | inr err => inr err
  | inl f => load_mappings cc_AIDLName check_parcelable_mapping "custom parcelable" (tm_Parcelables f) ∅
  end.

Definition LoadStableInterfaceMappings (path : string) : gmap string StableInterfaceConfig + string :=
  match LoadTypeMappingFile path with
  | inr err => inr err
  | inl f => load_mappings si_AIDLName check_interface_mapping "stable interface" (tm_Interfaces f) ∅
  end.
End Load.
