(* ===== verification/AidlLowerProps.v ===== *)
(** * AidlLowerProps: theorems on the lowering of AIDL files

    What a lowering that reports nothing has produced: every declaration under its
    Go name, transaction codes, enumerator values, types that the generator can use;
    and what the lowering of some accepted files gets wrong. *)

From stdpp Require Import base list numbers strings pretty gmap.
From S2P Require Import Prelude Aidl AidlExpr AidlResolve AidlResolveProps GoText AidlNames AidlLower.

Open Scope Z_scope.

(** ** Runs of a lowering *)

(** What a step may do to the state: diagnostics, interfaces and enums are only
    added. *)
Definition grows {A} (m : LM A) : Prop := ∀ s r s', m s = (r, s') →
  low_diags s `prefix_of` low_diags s' ∧ go_Interfaces (low_out s) `prefix_of` go_Interfaces (low_out s') ∧
  go_Enums (low_out s) `prefix_of` go_Enums (low_out s').

(** The declarations of an output. *)
Definition decls_of (f : GoFile) := (go_Interfaces f, go_Parcelables f, go_Enums f, go_Unions f).

(** A step that adds no declaration. *)
Definition silent {A} (m : LM A) : Prop := ∀ s r s', m s = (r, s') → decls_of (low_out s') = decls_of (low_out s).

(** A run that ends without a diagnostic. *)
Definition runs {A} (m : LM A) (s : lowered) (a : A) (s' : lowered) : Prop := m s = (Ok a, s') ∧ low_diags s' = [].

Create HintDb lower.

Lemma grows_ret {A} (a : A) : grows (mret a).
Proof. by intros s r s' [= <- <-]. Qed.

Lemma grows_panic {A} y : grows (panic y : LM A).
Proof. by intros s r s' [= <- <-]. Qed.

Lemma grows_diag d : grows (diag d).
Proof. intros s r s' [= <- <-]. split_and!; [by exists [d]|done|done]. Qed.

Lemma grows_add_interface x : grows (update_out (add_interface x)).
Proof. intros s r s' [= <- <-]. split_and!; [done|by exists [x]|done]. Qed.
Lemma grows_add_parcelable x : grows (update_out (add_parcelable x)).
Proof. by intros s r s' [= <- <-]. Qed.
Lemma grows_add_enum x : grows (update_out (add_enum x)).
Proof. intros s r s' [= <- <-]. split_and!; [done|done|by exists [x]]. Qed.
Lemma grows_add_union x : grows (update_out (add_union x)).
Proof. by intros s r s' [= <- <-]. Qed.
Lemma grows_external x : grows (update_out (add_external x)).
Proof. by intros s r s' [= <- <-]. Qed.

Lemma grows_bind {A B} (m : LM A) (k : A → LM B) : grows m → (∀ a, grows (k a)) → grows (m ≫= k).
Proof.
  intros Hm Hk s r s'. unfold mbind, ST_bind. destruct (m s) as [[a|[]|y] s1] eqn:E.
  - intros Ek. destruct (Hm _ _ _ E) as (? & ? & ?), (Hk _ _ _ _ Ek) as (? & ? & ?). split_and!; by etrans.
  - intros [= <- <-]. eauto.
Qed.

Lemma silent_ret {A} (a : A) : silent (mret a).
Proof. by intros s r s' [= <- <-]. Qed.

Lemma silent_panic {A} y : silent (panic y : LM A).
Proof. by intros s r s' [= <- <-]. Qed.

Lemma silent_diag d : silent (diag d).
Proof. by intros s r s' [= <- <-]. Qed.

Lemma silent_external x : silent (update_out (add_external x)).
Proof. by intros s r s' [= <- <-]. Qed.

Lemma silent_bind {A B} (m : LM A) (k : A → LM B) : silent m → (∀ a, silent (k a)) → silent (m ≫= k).
Proof.
  intros Hm Hk s r s'. unfold mbind, ST_bind. destruct (m s) as [[a|[]|y] s1] eqn:E.
  - intros Ek. rewrite (Hk _ _ _ _ Ek). eauto.
  - intros [= <- <-]. eauto.
Qed.

#[export] Hint Resolve grows_ret grows_panic grows_diag grows_add_interface grows_add_parcelable grows_add_enum
  grows_add_union grows_external grows_bind : lower.
#[export] Hint Resolve silent_ret silent_panic silent_diag silent_external silent_bind : lower.

(** Splits the choices of a step until the hints apply. *)
Ltac effects := repeat first [progress intros | progress eauto 1 with lower nocore | apply grows_bind | apply silent_bind | case_match].

Lemma runs_bind {A B} (m : LM A) (k : A → LM B) s b s' : (∀ a, grows (k a)) →
  runs (m ≫= k) s b s' ↔ ∃ a s1, runs m s a s1 ∧ runs (k a) s1 b s'.
Proof.
  intros Hk. unfold runs, mbind, ST_bind. split.
  - intros [E Hs]. destruct (m s) as [[a|[]|y] s1] eqn:Em; [|done]. exists a, s1. split_and!; try done.
    destruct (Hk _ _ _ _ E) as [Hp _]. rewrite Hs in Hp. by apply prefix_nil_inv in Hp.
  - intros (a & s1 & [-> _] & E & Hs). done.
Qed.

Lemma runs_ret {A} (a b : A) s s' : runs (mret a) s b s' ↔ a = b ∧ s' = s ∧ low_diags s = [].
Proof. unfold runs, mret, ST_ret. split; [intros [[= -> ->] ?]|intros (-> & -> & ?)]; done. Qed.

Lemma not_runs_diag d s u s' : ¬ runs (diag d) s u s'.
Proof. intros [[= _ <-] H]. cbn in H. by destruct (app_eq_nil _ _ H). Qed.

Lemma not_runs_diag_bind {A} d (k : unit → LM A) s a s' : (∀ u, grows (k u)) → ¬ runs (diag d ≫= k) s a s'.
Proof. intros Hk H. apply runs_bind in H as (u & s1 & H & _); [|done]. by eapply not_runs_diag. Qed.

Lemma runs_diag_if b d s u s' : runs (diag_if b d) s u s' ↔ b = false ∧ s' = s ∧ low_diags s = [].
Proof.
  destruct b; cbn [diag_if]; [split; [by intros ?%not_runs_diag|by intros (? & _)]|].
  rewrite runs_ret. destruct u. tauto.
Qed.

Lemma runs_update f s u s' : runs (update_out f) s u s' ↔ s' = mkLowered (f (low_out s)) [] ∧ low_diags s = [].
Proof.
  unfold runs, update_out. split.
  - intros [[= <- <-] H]. cbn in H. by rewrite H.
  - intros [-> H]. rewrite H. by destruct u.
Qed.

Section Steps.
Context `{GoFrontEnd} (file : File) (st : symtab)
  (custom : gmap string CustomParcelableConfig) (stable : gmap string StableInterfaceConfig).

Lemma grows_diag_if b d : grows (diag_if b d).
Proof. unfold diag_if. effects. Qed.
Lemma silent_diag_if b d : silent (diag_if b d).
Proof. unfold diag_if. effects. Qed.
#[local] Hint Resolve grows_diag_if silent_diag_if : lower.

Lemma grows_lower_named sc name n : grows (lower_named file st custom sc name n).
Proof. unfold lower_named. effects. Qed.
Lemma silent_lower_named sc name n : silent (lower_named file st custom sc name n).
Proof. unfold lower_named. effects. Qed.
#[local] Hint Resolve grows_lower_named silent_lower_named : lower.

Lemma effects_lowerType sc ref : grows (lowerType file st custom sc ref) ∧ silent (lowerType file st custom sc ref).
Proof.
  revert ref. fix IH 1. intros [anns name args arr len nullable]. cbn [lowerType tr_Name tr_TypeArgs tr_Array tr_FixedArrayLen tr_Nullable].
  case_bool_decide; [split; effects|]. case_bool_decide.
  { destruct args as [|a [|b args]]; [split; effects|destruct (IH a); split; effects|split; effects]. }
  case_bool_decide; [|split; effects].
  destruct args as [|a [|b [|c args]]]; [split; effects|split; effects| |split; effects].
  destruct (IH a), (IH b). split; effects.
Qed.
Lemma grows_lowerType sc ref : grows (lowerType file st custom sc ref).
Proof. apply effects_lowerType. Qed.
Lemma silent_lowerType sc ref : silent (lowerType file st custom sc ref).
Proof. apply effects_lowerType. Qed.
#[local] Hint Resolve grows_lowerType silent_lowerType : lower.

Lemma grows_lower_value sc src names : grows (lower_value file st sc src names).
Proof. unfold lower_value, lowerValueExpression. effects. Qed.
Lemma silent_lower_value sc src names : silent (lower_value file st sc src names).
Proof. unfold lower_value, lowerValueExpression. effects. Qed.
Lemma grows_try_eval {A} (m : ceval A) : grows (try_eval m).
Proof. unfold try_eval. effects. Qed.
Lemma silent_try_eval {A} (m : ceval A) : silent (try_eval m).
Proof. unfold try_eval. effects. Qed.
#[local] Hint Resolve grows_lower_value silent_lower_value grows_try_eval silent_try_eval : lower.

Lemma grows_lower_const sc sym c k : grows (lower_const file st custom sc sym c k).
Proof. unfold lower_const. effects. Qed.
Lemma silent_lower_const sc sym c k : silent (lower_const file st custom sc sym c k).
Proof. unfold lower_const. effects. Qed.
#[local] Hint Resolve grows_lower_const silent_lower_const : lower.

Lemma effects_lower_consts sc sym cs k :
  grows (lower_consts file st custom sc sym cs k) ∧ silent (lower_consts file st custom sc sym cs k).
Proof.
  revert k. induction cs as [|c cs IH]; intros k; cbn [lower_consts]; [split; effects|].
  split; (apply grows_bind || apply silent_bind; [eauto with lower|]); intros [[gc k']|]; try destruct (IH k'); effects.
Qed.

Lemma effects_lower_fields sc f fields : (∀ x, grows (f x)) → (∀ x, silent (f x)) →
  grows (lower_fields file st custom sc f fields) ∧ silent (lower_fields file st custom sc f fields).
Proof. intros Hg Hs. induction fields as [|x fields [IH1 IH2]]; cbn [lower_fields]; split; effects. Qed.

Lemma effects_lower_args sc args : grows (lower_args file st custom sc args) ∧ silent (lower_args file st custom sc args).
Proof. induction args as [|x args [IH1 IH2]]; cbn [lower_args]; split; effects. Qed.

Lemma grows_lowerMethod sc i o m c : grows (lowerMethod file st custom sc i o m c).
Proof.
  unfold lowerMethod, lower_return. pose proof (effects_lower_args sc (md_Args m)) as [? ?]. effects.
Qed.
Lemma silent_lowerMethod sc i o m c : silent (lowerMethod file st custom sc i o m c).
Proof.
  unfold lowerMethod, lower_return. pose proof (effects_lower_args sc (md_Args m)) as [? ?]. effects.
Qed.

Lemma grows_method_code sc i m k c : grows (method_code file st sc i m k c).
Proof. unfold method_code. effects. Qed.
Lemma silent_method_code sc i m k c : silent (method_code file st sc i m k c).
Proof. unfold method_code. effects. Qed.
#[local] Hint Resolve grows_lowerMethod silent_lowerMethod grows_method_code silent_method_code : lower.

Lemma effects_enum_members sc sym members k next :
  grows (lower_enum_members file st sc sym members k next) ∧ silent (lower_enum_members file st sc sym members k next).
Proof.
  revert k next. induction members as [|m members IH]; intros k next; cbn [lower_enum_members]; [split; effects|].
  assert (Hg : ∀ k next, grows (lower_enum_members file st sc sym members k next)) by apply IH.
  assert (Hs : ∀ k next, silent (lower_enum_members file st sc sym members k next)) by apply IH. split; effects.
Qed.

Lemma grows_enumBacking anns : grows (enumBackingType anns).
Proof. unfold enumBackingType. effects. Qed.
Lemma silent_enumBacking anns : silent (enumBackingType anns).
Proof. unfold enumBackingType. effects. Qed.
Lemma grows_symbol_of sc name : grows (symbol_of st sc name).
Proof. unfold symbol_of. effects. Qed.
Lemma silent_symbol_of sc name : silent (symbol_of st sc name).
Proof. unfold symbol_of. effects. Qed.
#[local] Hint Resolve grows_enumBacking silent_enumBacking grows_symbol_of silent_symbol_of : lower.

Lemma grows_lowerEnum sc d : grows (lowerEnum file st sc d).
Proof. unfold lowerEnum. effects. apply effects_enum_members. Qed.

Lemma grows_lowerUnion sc d : grows (lowerUnion file st custom sc d).
Proof.
  unfold lowerUnion. effects. apply effects_lower_fields; intros; [apply grows_ret|apply silent_ret].
Qed.
#[local] Hint Resolve grows_lowerEnum grows_lowerUnion : lower.

Lemma grows_members sym o nested ms k c : (∀ m, m ∈ ms → grows (nested m)) →
  grows (lower_members file st custom sym o nested ms k c).
Proof.
  revert k c. induction ms as [|m ms IH]; intros k c Hn; [effects|].
  assert (Hg : ∀ k c, grows (lower_members file st custom sym o nested ms k c)).
  { intros. apply IH. intros m' Hm'. apply Hn. by right. }
  assert (Hm : grows (nested m)) by (apply Hn; left).
  destruct m; cbn [lower_members]; fold (lower_members file st custom sym o nested); effects; apply Hg.
Qed.

Lemma grows_default sc k (x : Field) :
  grows (if bool_decide (fld_DefaultValue x = "") then mret "" else lower_value file st sc (fld_DefaultValue x) k : LM string) .
Proof. effects. Qed.
Lemma silent_default sc k (x : Field) :
  silent (if bool_decide (fld_DefaultValue x = "") then mret "" else lower_value file st sc (fld_DefaultValue x) k : LM string) .
Proof. effects. Qed.

(** The nested declarations of a parcelable, one after the other. *)
Definition lower_all (sc : option scope) : list Decl → LM unit :=
  fix go l := match l with [] => mret tt | d :: l => lowerDecl file st custom stable sc d;; go l end.

Lemma grows_lower_all sc ds : Forall (λ d, ∀ sc, grows (lowerDecl file st custom stable sc d)) ds → grows (lower_all sc ds).
Proof. induction 1 as [|d ds Hd _ IH]; cbn [lower_all]; effects. Qed.

Lemma grows_lowerDecl d sc : grows (lowerDecl file st custom stable sc d).
Proof.
  revert sc. induction d as [e|u|a n tp stt cs fs ds IH|a o n ms IH] using decl_nested_ind; intros sc; [cbn; effects..| |];
    cbn [lowerDecl lowerParcelable lowerInterface].
  - apply grows_bind; [effects|]. intros [sym|]; [|effects].
    apply grows_bind; [apply effects_lower_consts|]. intros [[gcs k]|]; [|effects].
    apply grows_bind; [apply effects_lower_fields; intros; [apply grows_default|apply silent_default]|]. intros [gfs|]; [|effects].
    apply grows_bind; [effects|]. intros _. by apply grows_lower_all.
  - apply grows_bind; [effects|]. intros [sym|]; [|effects]. destruct (stability _ _ _) as [v h].
    apply grows_bind; [|intros []; effects]. apply grows_members. intros m Hm. rewrite Forall_forall in IH. specialize (IH _ Hm).
    destruct m; effects.
Qed.

(** *** Nil results *)

(** A step gives nil only with a diagnostic. *)
Definition loud {A} (m : LM (option A)) : Prop := ∀ s s', ¬ runs m s None s'.

Lemma loud_ret {A} (a : A) : loud (mret (Some a)).
Proof. by intros s s' [? _]%runs_ret. Qed.

Lemma loud_diag {A} d : loud (diag d;; mret None : LM (option A)).
Proof. intros s s'. apply not_runs_diag_bind. effects. Qed.

Lemma loud_bind {A B} (m : LM (option A)) (k : option A → LM (option B)) :
  loud m → (∀ a, grows (k a)) → (∀ a, loud (k (Some a))) → loud (m ≫= k).
Proof. intros Hm Hg Hk s s' HR. apply runs_bind in HR as ([a|] & s1 & H1 & H2); [|by eapply Hm|done]. by eapply Hk. Qed.

Lemma loud_skip {A B} (m : LM A) (k : A → LM (option B)) : (∀ a, grows (k a)) → (∀ a, loud (k a)) → loud (m ≫= k).
Proof. intros Hg Hk s s' HR. apply runs_bind in HR as (a & s1 & H1 & H2); [|done]. by eapply Hk. Qed.

Lemma loud_lower_named sc name n : loud (lower_named file st custom sc name n).
Proof.
  unfold lower_named. case_match; [apply loud_ret|]. case_match; [|apply loud_skip; [effects|]; intros _; apply loud_skip; [effects|]; intros _; apply loud_ret].
  case_match; (apply loud_skip; [effects|]; intros _; apply loud_ret).
Qed.

Lemma loud_lowerType sc ref : loud (lowerType file st custom sc ref).
Proof.
  revert ref. fix IH 1. intros [anns name args arr len nullable]. cbn [lowerType tr_Name tr_TypeArgs tr_Array tr_FixedArrayLen tr_Nullable].
  case_bool_decide; [apply loud_diag|]. case_bool_decide.
  { destruct args as [|a [|b args]]; [apply loud_diag| |apply loud_diag].
    apply loud_bind; [apply IH|effects|]. intros t. apply loud_ret. }
  case_bool_decide.
  { destruct args as [|a [|b [|c args]]]; [apply loud_ret|apply loud_diag| |apply loud_diag].
    apply loud_bind; [apply IH|effects|]. intros key. apply loud_bind; [apply IH|effects|]. intros v. apply loud_ret. }
  destruct arr; [|apply loud_lower_named]. apply loud_bind; [apply loud_lower_named|effects|]. intros elem.
  destruct len; [apply loud_skip; [effects|intros _; apply loud_ret]|apply loud_ret].
Qed.

Lemma loud_lower_const sc sym c k : loud (lower_const file st custom sc sym c k).
Proof.
  unfold lower_const. apply loud_bind; [apply loud_lowerType|effects|]. intros t.
  apply loud_skip; [effects|]. intros v. apply loud_skip; [effects|]. intros w. apply loud_ret.
Qed.

Lemma loud_lower_consts sc sym cs k : loud (lower_consts file st custom sc sym cs k).
Proof.
  revert k. induction cs as [|c cs IH]; intros k; cbn [lower_consts]; [apply loud_ret|].
  apply loud_bind; [apply loud_lower_const| |].
  - intros [[gc k']|]; [|effects]. apply grows_bind; [apply effects_lower_consts|effects].
  - intros [gc k']. apply loud_bind; [apply IH|effects|]. intros [gcs k'']. apply loud_ret.
Qed.

Lemma loud_lower_fields sc f fields : (∀ x, grows (f x)) → (∀ x, silent (f x)) → loud (lower_fields file st custom sc f fields).
Proof.
  intros Hg Hs. induction fields as [|x fields IH]; cbn [lower_fields]; [apply loud_ret|].
  assert (Hf : grows (lower_fields file st custom sc f fields)) by by apply effects_lower_fields.
  apply loud_bind; [apply loud_lowerType|effects|]. intros t. apply loud_skip; [effects|]. intros v.
  apply loud_bind; [apply IH|effects|]. intros l. apply loud_ret.
Qed.

Lemma loud_lower_args sc args : loud (lower_args file st custom sc args).
Proof.
  induction args as [|x args IH]; cbn [lower_args]; [apply loud_ret|].
  pose proof (effects_lower_args sc args) as [Hf _].
  apply loud_bind; [apply loud_lowerType|effects|]. intros t. apply loud_bind; [apply IH|effects|]. intros [ins outs]. apply loud_ret.
Qed.

Lemma loud_lower_return sc m : loud (lower_return file st custom sc m).
Proof.
  unfold lower_return. case_bool_decide; [apply loud_ret|]. apply loud_bind; [apply loud_lowerType|effects|]. intros t. apply loud_ret.
Qed.

Lemma loud_lowerMethod sc i o m c : loud (lowerMethod file st custom sc i o m c).
Proof.
  pose proof (effects_lower_args sc (md_Args m)) as [Hf _].
  unfold lowerMethod. apply loud_bind; [apply loud_lower_return|effects|]. intros ret.
  apply loud_bind; [apply loud_lower_args|effects|]. intros [ins outs].
  apply loud_skip; [effects|]. intros _. apply loud_skip; [effects|]. intros _. apply loud_ret.
Qed.
End Steps.
#[export] Hint Resolve grows_diag_if silent_diag_if grows_lower_named silent_lower_named grows_lowerType silent_lowerType
  grows_lower_value silent_lower_value grows_try_eval silent_try_eval grows_lower_const silent_lower_const
  grows_lowerMethod silent_lowerMethod grows_method_code silent_method_code grows_enumBacking silent_enumBacking
  grows_symbol_of silent_symbol_of grows_lowerEnum grows_lowerUnion grows_lowerDecl : lower.

(** ** Collection *)

Definition sym_at (st : symtab) (id : nat) (name : string) : option namedSymbol := default ∅ (st_scopes st !! id) !! name.

(** A registration in the scope [current] that the guard of [registerDecl] lets through. *)
Definition stored (main pkg : string) (current : scope) (owner : option namedSymbol) : Prop :=
  current ≠ root ∨ is_Some owner ∨ pkg = main.

(** From [st] to [st'], of the scopes of [st] only the name [name] of the scope [id]
    has changed, and only if [P]. *)
Definition frame (st st' : symtab) (id : nat) (name : string) (P : Prop) : Prop :=
  (st_next st ≤ st_next st')%nat ∧
  ∀ id' n, (id' < st_next st)%nat → (id' = id → n = name → ¬ P) → sym_at st' id' n = sym_at st id' n.

Lemma frame_trans st1 st2 st3 id name P id' name' P' :
  frame st1 st2 id name P → frame st2 st3 id' name' P' → ((st_next st1 ≤ id')%nat ∨ id' = id ∧ name' = name ∧ (P' → P)) →
  frame st1 st3 id name P.
Proof.
  intros [H1 F1] [H2 F2] Hid. split; [lia|]. intros i n Hi Hn. rewrite F2; [by apply F1|lia|].
  intros -> -> HP. destruct Hid as [?|(-> & -> & HPP)]; [lia|]. by apply Hn; auto.
Qed.

Lemma frame_refl st id name P : frame st st id name P.
Proof. split; [lia|done]. Qed.

Lemma frame_weaken st st' id name (P Q : Prop) : frame st st' id name P → (P → Q) → frame st st' id name Q.
Proof. intros [H1 H2] HPQ. split; [done|]. intros i n Hi Hn. apply H2; naive_solver. Qed.

Section Collection.
Context (main pkg : string).

Lemma in_scope_stored current owner : in_scope main pkg current owner = true ↔ stored main pkg current owner.
Proof.
  unfold in_scope, stored. rewrite !orb_true_iff, negb_true_iff, bool_decide_eq_false, !bool_decide_eq_true. tauto.
Qed.

Lemma registerDecl_spec id parents owner name kind d sc st sym st' :
  registerDecl main pkg (id :: parents) owner name kind d sc st = (sym, st') →
  frame st st' id name (stored main pkg (id :: parents) owner) ∧ st_next st' = st_next st ∧
  sym_goName sym = default "" (sym_goName <$> owner) +:+ exportName name ∧ sym_scope sym = sc ∧
  (owner = None → sym_aidlName sym = descriptorName pkg name) ∧
  (stored main pkg (id :: parents) owner → sym_at st' id name = Some sym).
Proof.
  unfold registerDecl. intros [= <- <-]. cbn. split_and!; [|done|by destruct owner|done|by intros ->|].
  - split; [cbn; lia|]. intros i n Hi Hn. unfold sym_at. cbn.
    destruct (in_scope _ _ _ _) eqn:E; [|done]. destruct (decide (i = id)) as [->|Hne]; [|by rewrite lookup_insert_ne].
    rewrite lookup_insert_eq. cbn. destruct (decide (n = name)) as [->|Hne]; [|by rewrite lookup_insert_ne].
    exfalso. apply Hn; [done..|]. by apply in_scope_stored.
  - intros Hs%in_scope_stored. rewrite Hs. unfold sym_at. cbn. by rewrite lookup_insert_eq; cbn; rewrite lookup_insert_eq.
Qed.

Lemma new_scope_spec current st sc st' : new_scope current st = (sc, st') →
  sc = st_next st :: current ∧ st_next st' = S (st_next st) ∧ ∀ id n, (id < st_next st)%nat → sym_at st' id n = sym_at st id n.
Proof.
  intros [= <- <-]. split_and!; [done..|]. intros id n Hid. unfold sym_at. cbn. by rewrite lookup_insert_ne by lia.
Qed.

(** The names of the declarations nested in an interface. *)
Definition nested_decl (m : InterfaceMember) : option string :=
  match m with
  | MParcelable (mkParcelableDecl _ name _ _ _ _ _) => Some name
  | MEnum e => Some (ed_Name e)
  | MUnion u => Some (ud_Name u)
  | _ => None
  end.

(** What a symbol has to be for the lowering of a nested declaration. *)
Definition nested_symbol (st : symtab) (id : nat) (owner : string) (name : string) : Prop :=
  ∃ sym, sym_at st id name = Some sym ∧ sym_goName sym = owner +:+ exportName name ∧ sym_scope sym = None.

Lemma collect_nested_spec id parents owner m st : (id < st_next st)%nat →
  let st' := collectNestedDecl main pkg (id :: parents) owner m st in
  frame st st' id (default "" (nested_decl m)) (is_Some (nested_decl m)) ∧
  st_next st' = st_next st ∧
  ∀ n, nested_decl m = Some n → nested_symbol st' id (sym_goName owner) n.
Proof.
  intros Hid. destruct m as [m|c|[a n tp str cs fs ds]|e|u]; cbn [collectNestedDecl nested_decl];
    try (split_and!; [apply frame_refl|done|done]);
    match goal with |- context [registerDecl main pkg ?c ?o ?n ?k ?d ?sc st] =>
      destruct (registerDecl main pkg c o n k d sc st) as [sym st'] eqn:E
    end; apply registerDecl_spec in E as (Hf & Hn & Hg & Hs & _ & Hat); cbn [snd default];
    (split_and!; [eapply frame_weaken; [exact Hf|by eexists]|done|];
     intros n' [= <-]; exists sym; split_and!; [apply Hat; right; left; by eexists|done|done]).
Qed.

Lemma collect_nested_all id parents owner ms st : (id < st_next st)%nat →
  let st' := fold_left (λ st m, collectNestedDecl main pkg (id :: parents) owner m st) ms st in
  st_next st' = st_next st ∧ (∀ id' n, (id' < st_next st)%nat → id' ≠ id → sym_at st' id' n = sym_at st id' n) ∧
  (∀ n, n ∈ omap nested_decl ms ∨ nested_symbol st id (sym_goName owner) n → nested_symbol st' id (sym_goName owner) n).
Proof.
  revert st. induction ms as [|m ms IH]; intros st Hid; cbn [fold_left].
  { split_and!; [done|done|]. by intros n [?%not_elem_of_nil|?]. }
  destruct (collect_nested_spec id parents owner m st Hid) as ([_ Hf] & Hn & Hm).
  destruct (IH (collectNestedDecl main pkg (id :: parents) owner m st)) as (IH1 & IH2 & IH3); [by rewrite Hn|].
  rewrite Hn in *. split_and!; [done| |].
  - intros i n Hi Hne. rewrite IH2 by done. apply Hf; [done|]. by intros ->.
  - intros n Hor. apply IH3. destruct (decide (nested_decl m = Some n)) as [E|E]; [right; by apply Hm|].
    destruct Hor as [Hin|(sym & Hat & Hrest)].
    + left. cbn [omap list_omap] in Hin. destruct (nested_decl m) as [x|]; [|done]. apply elem_of_cons in Hin as [->|Hin]; [done|done].
    + right. exists sym. split; [|done]. rewrite Hf; [done|done|]. intros _ -> [x Hx]. by rewrite Hx in E.
Qed.

(** The declarations of a scope, one after the other. *)
Fixpoint collect_all (sc : scope) (owner : option namedSymbol) (ds : list Decl) (st : symtab) : symtab :=
  match ds with [] => st | d :: ds => collect_all sc owner ds (collectDecl main pkg sc owner d st) end.

Lemma collect_parcelable_unfold a n tp str cs fs ds current owner st : ds ≠ [] →
  let d := DParcelable (mkParcelableDecl a n tp str cs fs ds) in
  ∃ st1 sym st2, new_scope current st = (st_next st :: current, st1) ∧
    registerDecl main pkg current owner n namedParcelable d (Some (st_next st :: current)) st1 = (sym, st2) ∧
    collectDecl main pkg current owner d st = collect_all (st_next st :: current) (Some sym) ds st2.
Proof.
  intros Hds d. destruct (new_scope current st) as [sc st1] eqn:E. pose proof E as [= <- _].
  destruct (registerDecl main pkg current owner n namedParcelable d (Some (st_next st :: current)) st1) as [sym st2] eqn:E2.
  exists st1, sym, st2. split_and!; [done..|]. unfold d in *. cbn [collectDecl]. destruct ds as [|d0 ds]; [done|].
  rewrite E. cbv beta iota.
  unfold scope in *. rewrite E2. cbn [collect_all]. generalize (collectDecl main pkg (st_next st :: current) (Some sym) d0 st2).
  clear E2 Hds d. induction ds as [|d ds IH]; intros st'; [done|]. cbn [collect_all]. by rewrite <- IH.
Qed.

Lemma collect_all_frame st id name P ds : Forall (λ d, ∀ id parents owner st, (id < st_next st)%nat →
    frame st (collectDecl main pkg (id :: parents) owner d st) id (declName d) (stored main pkg (id :: parents) owner)) ds →
  ∀ parents owner st2, frame st st2 id name P → (st_next st < st_next st2)%nat →
  frame st (collect_all (st_next st :: parents) owner ds st2) id name P.
Proof.
  intros HF parents owner. induction HF as [|d ds Hd _ IH]; intros st2 F Hlt; [done|]. cbn [collect_all].
  pose proof (Hd (st_next st) parents owner st2 Hlt) as Fd. apply IH.
  - eapply frame_trans; [exact F|exact Fd|]. left. lia.
  - destruct Fd. lia.
Qed.

Lemma collect_frame d : ∀ id parents owner st, (id < st_next st)%nat →
  frame st (collectDecl main pkg (id :: parents) owner d st) id (declName d) (stored main pkg (id :: parents) owner).
Proof.
  induction d as [e|u|a n tp str cs fs ds IH|a o n ms IH] using decl_nested_ind; intros id parents owner st Hid;
    cbn [collectDecl declName].
  - destruct (registerDecl _ _ _ _ _ _ _ _ _) as [sym st'] eqn:E. by apply registerDecl_spec in E as [? _].
  - destruct (registerDecl _ _ _ _ _ _ _ _ _) as [sym st'] eqn:E. by apply registerDecl_spec in E as [? _].
  - destruct (decide (ds = [])) as [->|Hds].
    { destruct (registerDecl _ _ _ _ _ _ _ _ _) as [sym st'] eqn:E. by apply registerDecl_spec in E as [? _]. }
    destruct (collect_parcelable_unfold a n tp str cs fs ds (id :: parents) owner st Hds) as (st1 & sym & st2 & E1 & E2 & E3).
    cbn [collectDecl] in E3. rewrite E3. apply new_scope_spec in E1 as (_ & Hn1 & Hs1). apply registerDecl_spec in E2 as (Hf & Hn2 & _).
    apply collect_all_frame; [done| |lia]. destruct Hf as [Hle Hf]. split; [lia|]. intros i x Hi Hx.
    rewrite Hf; [by apply Hs1|lia|done].
  - destruct (new_scope _ _) as [sc st1] eqn:Esc. apply new_scope_spec in Esc as (-> & Hn1 & Hs1).
    destruct (registerDecl _ _ _ _ _ _ _ _ _) as [sym st2] eqn:E. apply registerDecl_spec in E as (Hf & Hn2 & _).
    destruct (collect_nested_all (st_next st) (id :: parents) sym ms st2) as (Hn3 & Hs3 & _); [lia|].
    destruct Hf as [Hle Hf]. split; [lia|]. intros i x Hi Hx. rewrite Hs3 by lia. rewrite Hf; [by apply Hs1|lia|done].
Qed.
End Collection.

(** The declaration [d] of the scope [id :: parents] can be lowered: its symbol and
    those of the declarations in it are found, and the scopes inside are in [lo, hi). *)
Inductive registered (st : symtab) (lo hi : nat) : nat → list nat → string → Decl → Prop :=
| registered_enum id parents owner e sym : sym_at st id (ed_Name e) = Some sym →
    sym_goName sym = owner +:+ exportName (ed_Name e) → registered st lo hi id parents owner (DEnum e)
| registered_union id parents owner u sym : sym_at st id (ud_Name u) = Some sym →
    sym_goName sym = owner +:+ exportName (ud_Name u) → registered st lo hi id parents owner (DUnion u)
| registered_parcelable id parents owner a n tp str cs fs ds sym : sym_at st id n = Some sym →
    sym_goName sym = owner +:+ exportName n →
    (ds = [] ∨ ∃ id', sym_scope sym = Some (id' :: id :: parents) ∧ (lo <= id' < hi)%nat ∧
      Forall (registered st lo hi id' (id :: parents) (owner +:+ exportName n)) ds) →
    registered st lo hi id parents owner (DParcelable (mkParcelableDecl a n tp str cs fs ds))
| registered_interface id parents owner a o n ms sym id' : sym_at st id n = Some sym →
    sym_goName sym = owner +:+ exportName n → sym_scope sym = Some (id' :: id :: parents) → (lo <= id' < hi)%nat →
    (∀ x, x ∈ omap nested_decl ms → nested_symbol st id' (owner +:+ exportName n) x) →
    registered st lo hi id parents owner (DInterface (mkInterfaceDecl a o n ms)).

(** Names are pairwise different in the declarations of every parcelable. *)
Fixpoint distinct (d : Decl) : Prop :=
  match d with
  | DParcelable (mkParcelableDecl _ _ _ _ _ _ ds) =>
      NoDup (declName <$> ds) ∧ (fix go l := match l with [] => True | d :: l => distinct d ∧ go l end) ds
  | _ => True
  end.

Lemma distinct_parcelable a n tp str cs fs ds : distinct (DParcelable (mkParcelableDecl a n tp str cs fs ds)) ↔
  NoDup (declName <$> ds) ∧ Forall distinct ds.
Proof.
  cbn. apply and_iff_compat_l. induction ds as [|d ds IH]; [done|]. rewrite Forall_cons, IH. done.
Qed.

Lemma registered_inv st lo hi id parents owner d : registered st lo hi id parents owner d →
  ∃ sym, sym_at st id (declName d) = Some sym ∧ sym_goName sym = owner +:+ exportName (declName d) ∧
  match d with
  | DParcelable (mkParcelableDecl _ _ _ _ _ _ ds) =>
      ds = [] ∨ ∃ id', sym_scope sym = Some (id' :: id :: parents) ∧ (lo <= id' < hi)%nat ∧
        Forall (registered st lo hi id' (id :: parents) (sym_goName sym)) ds
  | DInterface (mkInterfaceDecl _ _ _ ms) =>
      ∃ id', sym_scope sym = Some (id' :: id :: parents) ∧ (lo <= id' < hi)%nat ∧
        ∀ x, x ∈ omap nested_decl ms → nested_symbol st id' (sym_goName sym) x
  | _ => True
  end.
Proof.
  inversion 1 as [????? Hs Hg|????? Hs Hg|??????????? Hs Hg Hd|????????? Hs Hg Hsc Hr Hms]; subst; cbn [declName];
    eexists; (split; [exact Hs|split; [exact Hg|]]); rewrite ?Hg; eauto.
Qed.

(** Later registrations leave it alone when they touch neither its scopes nor its name. *)
Lemma registered_frame st st' lo hi lo' hi' d : ∀ id parents owner, registered st lo hi id parents owner d →
  (lo' <= lo)%nat → (hi <= hi')%nat →
  sym_at st' id (declName d) = sym_at st id (declName d) → (∀ i n, (lo <= i < hi)%nat → sym_at st' i n = sym_at st i n) →
  registered st' lo' hi' id parents owner d.
Proof.
  induction d as [e|u|a n tp str cs fs ds IH|a o n ms IH] using decl_nested_ind;
    intros id parents owner (sym & Hs & Hg & Hd)%registered_inv Hlo Hhi Hsame Hall; rewrite <- Hsame in Hs; cbn [declName] in Hs, Hg.
  - by econstructor.
  - by econstructor.
  - econstructor; [done..|]. destruct Hd as [->|(id' & Hsc & Hr & HF)]; [by left|]. right. exists id'. split_and!; [done|lia..|].
    rewrite <- Hg. rewrite Forall_forall in *. intros d Hin. apply IH; [done|by apply HF|done..| |done]. apply Hall. lia.
  - destruct Hd as (id' & Hsc & Hr & Hms). econstructor; [done..|lia|]. rewrite <- Hg. intros x Hx.
    destruct (Hms _ Hx) as (s & Hs' & ?). exists s. split; [|done]. rewrite Hall; [done|lia].
Qed.

Lemma collect_all_registered main pkg id parents owner ds : 
  Forall (λ d, ∀ st, (id < st_next st)%nat →
    let st' := collectDecl main pkg (id :: parents) owner d st in
    registered st' (st_next st) (st_next st') id parents (default "" (sym_goName <$> owner)) d) ds →
  NoDup (declName <$> ds) → ∀ st, (id < st_next st)%nat →
  let st' := collect_all main pkg (id :: parents) owner ds st in
  Forall (registered st' (st_next st) (st_next st') id parents (default "" (sym_goName <$> owner))) ds ∧
  (st_next st <= st_next st')%nat ∧
  ∀ i n, (i < st_next st)%nat → (i = id → n ∉ declName <$> ds) → sym_at st' i n = sym_at st i n.
Proof.
  intros HF. induction HF as [|d ds Hd _ IH]; intros Hnd st Hid; [split_and!; [constructor|done|done]|].
  cbn [collect_all]. apply NoDup_cons in Hnd as [Hn Hnd]. pose proof (Hd st Hid) as Hreg. cbn zeta in Hreg.
  destruct (collect_frame main pkg d id parents owner st Hid) as [Hle Hframe].
  set (st1 := collectDecl main pkg (id :: parents) owner d st) in *.
  destruct (IH Hnd st1) as (Hrest & Hle' & Hframe'); [lia|]. split_and!; [|lia|].
  - constructor.
    + eapply registered_frame; [exact Hreg|lia|lia|by apply Hframe'; [lia|]|]. intros i x Hi. apply Hframe'; [lia|]. intros ->. lia.
    + eapply Forall_impl; [exact Hrest|]. intros d' Hd'. eapply registered_frame; [exact Hd'|lia|lia|done|done].
  - intros i x Hi Hx. rewrite Hframe' by (lia || (intros ->; specialize (Hx eq_refl); rewrite fmap_cons, not_elem_of_cons in Hx; tauto)).
    apply Hframe; [done|]. intros -> ->. exfalso. apply (Hx eq_refl). by left.
Qed.

(** Collecting registers. *)
Lemma collect_registered main pkg d : distinct d → ∀ id parents owner st, (id < st_next st)%nat →
  stored main pkg (id :: parents) owner →
  let st' := collectDecl main pkg (id :: parents) owner d st in
  registered st' (st_next st) (st_next st') id parents (default "" (sym_goName <$> owner)) d.
Proof.
  induction d as [e|u|a n tp str cs fs ds IH|a o n ms IH] using decl_nested_ind; intros Hdist id parents owner st Hid Hst.
  - cbn [collectDecl]. destruct (registerDecl _ _ _ _ _ _ _ _ _) as [sym st'] eqn:E.
    apply registerDecl_spec in E as (_ & _ & Hg & _ & _ & Hat). econstructor; [by apply Hat|done].
  - cbn [collectDecl]. destruct (registerDecl _ _ _ _ _ _ _ _ _) as [sym st'] eqn:E.
    apply registerDecl_spec in E as (_ & _ & Hg & _ & _ & Hat). econstructor; [by apply Hat|done].
  - destruct (decide (ds = [])) as [->|Hds].
    { cbn [collectDecl]. destruct (registerDecl _ _ _ _ _ _ _ _ _) as [sym st'] eqn:E.
      apply registerDecl_spec in E as (_ & _ & Hg & _ & _ & Hat). econstructor; [by apply Hat|done|by left]. }
    destruct (collect_parcelable_unfold main pkg a n tp str cs fs ds (id :: parents) owner st Hds) as (st1 & sym & st2 & E1 & E2 & E3).
    cbn zeta. rewrite E3. apply new_scope_spec in E1 as (_ & Hn1 & Hs1).
    apply registerDecl_spec in E2 as (_ & Hn2 & Hg & Hsc & _ & Hat). apply distinct_parcelable in Hdist as [Hnd HD].
    destruct (collect_all_registered main pkg (st_next st) (id :: parents) (Some sym) ds) with st2 as (HF & Hle & Hframe); [|done|lia|].
    { rewrite Forall_forall in *. intros d Hin st' Hlt. apply IH; [done|by apply HD|done|]. right; left. by eexists. }
    apply registered_parcelable with sym; [|done|].
    + rewrite Hframe by lia. by apply Hat.
    + right. exists (st_next st). split_and!; [done|lia..|]. rewrite <- Hg.
      eapply Forall_impl; [exact HF|]. intros d' Hd'. eapply registered_frame; [exact Hd'|lia|lia|done|done].
  - cbn [collectDecl]. destruct (new_scope _ _) as [sc st1] eqn:Esc. apply new_scope_spec in Esc as (-> & Hn1 & Hs1).
    destruct (registerDecl _ _ _ _ _ _ _ _ _) as [sym st2] eqn:E. apply registerDecl_spec in E as (_ & Hn2 & Hg & Hsc & _ & Hat).
    destruct (collect_nested_all main pkg (st_next st) (id :: parents) sym ms st2) as (Hn3 & Hs3 & Hms); [lia|].
    apply registered_interface with sym (st_next st); [|done|done|lia|].
    + rewrite Hs3 by lia. by apply Hat.
    + intros x Hx. rewrite <- Hg. apply Hms. by left.
Qed.

Lemma collectTopLevel_frame main file st : (0 < st_next st)%nat →
  let st' := collectTopLevel main file st in
  (st_next st <= st_next st')%nat ∧
  ∀ i n, (i < st_next st)%nat →
    (∀ f, i = 0%nat → file = Some f → file_PackageName f = main → n ∉ declName <$> file_Decls f) → sym_at st' i n = sym_at st i n.
Proof.
  intros H0. destruct file as [f|]; [|done]. cbn [collectTopLevel].
  assert (Hn : ∀ i n, (∀ f', i = 0%nat → Some f = Some f' → file_PackageName f' = main → n ∉ declName <$> file_Decls f') →
    i = 0%nat → file_PackageName f = main → n ∉ declName <$> file_Decls f) by (intros i n Hf -> Hm; by apply Hf).
  cut (let st' := fold_left (λ st d, collectDecl main (file_PackageName f) root None d st) (file_Decls f) st in
       (st_next st <= st_next st')%nat ∧ ∀ i n, (i < st_next st)%nat →
         (i = 0%nat → file_PackageName f = main → n ∉ declName <$> file_Decls f) → sym_at st' i n = sym_at st i n).
  { intros [H1 H2]. split; [done|]. intros i n Hi Hf. by apply H2; [|apply Hn]. }
  clear Hn. revert st H0. induction (file_Decls f) as [|d ds IH]; intros st H0; [done|]. cbn [fold_left].
  destruct (collect_frame main (file_PackageName f) d 0 [] None st H0) as [Hle Hf].
  destruct (IH (collectDecl main (file_PackageName f) root None d st)) as [Hle' Hf']; [unfold root; lia|].
  unfold root in *. split; [lia|]. intros i n Hi Hx. rewrite Hf'; [|lia|].
  - apply Hf; [done|]. intros -> -> [Hs|[[? Hs]|Hs]]; [done|done|]. apply (Hx eq_refl Hs). by left.
  - intros -> Hm. specialize (Hx eq_refl Hm). rewrite fmap_cons, not_elem_of_cons in Hx. tauto.
Qed.

Lemma collect_all_other main pkg id parents owner ds st : (id < st_next st)%nat →
  ∀ i n, (i < st_next st)%nat → i ≠ id → sym_at (collect_all main pkg (id :: parents) owner ds st) i n = sym_at st i n.
Proof.
  revert st. induction ds as [|d ds IH]; intros st Hid i n Hi Hne; [done|]. cbn [collect_all].
  destruct (collect_frame main pkg d id parents owner st Hid) as [Hle Hf]. rewrite IH by (done || lia). by apply Hf.
Qed.

(** The symbols of the root are under their qualified names. *)
Definition root_qualified (pkg : string) (st : symtab) : Prop :=
  ∀ n sym, sym_at st 0 n = Some sym → sym_aidlName sym = descriptorName pkg n.

Lemma collect_root_qualified main pkg d st : (0 < st_next st)%nat → root_qualified main st →
  root_qualified main (collectDecl main pkg root None d st).
Proof.
  intros H0 Hq n sym Hs. destruct (collect_frame main pkg d 0 [] None st H0) as [_ Hf].
  destruct (decide (n = declName d ∧ pkg = main)) as [[-> ->]|Hne].
  2: { rewrite Hf in Hs; [by apply Hq|done|]. intros _ -> [?|[[??]|?]]; [done|done|tauto]. }
  clear Hf. revert Hs.
  assert (Hst : stored main main root None) by by right; right.
  destruct d as [[a o n ms]|[a n tp str cs fs ds]|e|u]; cbn [declName].
  - cbn [collectDecl]. destruct (new_scope _ _) as [sc st1] eqn:Esc. apply new_scope_spec in Esc as (-> & Hn1 & Hs1).
    destruct (registerDecl _ _ _ _ _ _ _ _ _) as [sy st2] eqn:E. apply registerDecl_spec in E as (_ & Hn2 & _ & _ & Ha & Hat).
    destruct (collect_nested_all main main (st_next st) root sy ms st2) as (_ & Hs3 & _); [lia|].
    unfold root in *. rewrite Hs3, Hat by (done || lia). intros [= ->]. by apply Ha.
  - destruct (decide (ds = [])) as [->|Hds].
    { cbn [collectDecl]. destruct (registerDecl _ _ _ _ _ _ _ _ _) as [sy st2] eqn:E.
      apply registerDecl_spec in E as (_ & _ & _ & _ & Ha & Hat). cbn [snd]. rewrite Hat by done. intros [= ->]. by apply Ha. }
    destruct (collect_parcelable_unfold main main a n tp str cs fs ds root None st Hds) as (st1 & sy & st2 & E1 & E2 & E3).
    rewrite E3. apply new_scope_spec in E1 as (_ & Hn1 & Hs1). apply registerDecl_spec in E2 as (_ & Hn2 & _ & _ & Ha & Hat).
    unfold root in *. rewrite (collect_all_other main main (st_next st) [0%nat] (Some sy) ds st2), Hat by (done || lia).
    intros [= ->]. by apply Ha.
  - cbn [collectDecl]. destruct (registerDecl _ _ _ _ _ _ _ _ _) as [sy st2] eqn:E.
    apply registerDecl_spec in E as (_ & _ & _ & _ & Ha & Hat). cbn [snd]. rewrite Hat by done. intros [= ->]. by apply Ha.
  - cbn [collectDecl]. destruct (registerDecl _ _ _ _ _ _ _ _ _) as [sy st2] eqn:E.
    apply registerDecl_spec in E as (_ & _ & _ & _ & Ha & Hat). cbn [snd]. rewrite Hat by done. intros [= ->]. by apply Ha.
Qed.

Lemma symbols_root_qualified f deps : root_qualified (file_PackageName f) (symbols f deps).
Proof.
  unfold symbols. generalize (file_PackageName f) as main. intros main.
  assert (Htop : ∀ file st, (0 < st_next st)%nat → root_qualified main st →
    (0 < st_next (collectTopLevel main file st))%nat ∧ root_qualified main (collectTopLevel main file st)).
  { intros [g|] st; [|done]. cbn [collectTopLevel]. revert st. induction (file_Decls g) as [|d ds IH]; intros st H0 Hq; [done|].
    cbn [fold_left]. apply IH; [|by apply collect_root_qualified].
    destruct (collect_frame main (file_PackageName g) d 0 [] None st H0) as [Hle _]. unfold root. lia. }
  destruct (Htop (Some f) empty_symtab) as [H0 Hq]; [cbn; lia|by intros n sym; unfold sym_at; cbn; rewrite lookup_empty|].
  revert H0 Hq. generalize (collectTopLevel main (Some f) empty_symtab). induction deps as [|dep deps IH]; intros st H0 Hq; [done|].
  cbn [fold_left]. destruct (Htop dep st H0 Hq). by apply IH.
Qed.

(** A file whose names are pairwise different in every scope. *)
Definition distinct_file (f : File) : Prop := NoDup (declName <$> file_Decls f) ∧ Forall distinct (file_Decls f).

(** The files [deps] declare nothing that [f] declares. *)
Definition apart (f : File) (deps : list (option File)) : Prop :=
  ∀ dep, Some dep ∈ deps → file_PackageName dep = file_PackageName f →
  ∀ n, n ∈ declName <$> file_Decls dep → n ∉ declName <$> file_Decls f.

Lemma collect_all_fold main pkg sc owner ds st :
  collect_all main pkg sc owner ds st = fold_left (λ st d, collectDecl main pkg sc owner d st) ds st.
Proof. revert st. induction ds as [|d ds IH]; intros st; [done|]. apply IH. Qed.

Lemma symbols_registered f deps : distinct_file f → apart f deps → ∃ lo hi,
  Forall (registered (symbols f deps) lo hi 0 [] "") (file_Decls f).
Proof.
  intros [Hnd HD] Hap. unfold symbols. cbn [collectTopLevel]. rewrite <- collect_all_fold.
  destruct (collect_all_registered (file_PackageName f) (file_PackageName f) 0 [] None (file_Decls f)) with empty_symtab
    as (HF & Hle & _); [|done|cbn; lia|].
  { eapply Forall_impl; [exact HD|]. intros d Hd st Hlt. apply collect_registered; [done|done|]. by right; right. }
  cbn [st_next empty_symtab] in *. set (st := collect_all _ _ _ _ _ _) in *. change (0%nat :: []) with root in *.
  exists 1%nat, (st_next st). change ("" : string) with (default "" (sym_goName <$> (None : option namedSymbol))).
  cut (∀ i n, (i < st_next st)%nat → (i = 0%nat → n ∈ declName <$> file_Decls f) →
    sym_at (fold_left (λ st dep, collectTopLevel (file_PackageName f) dep st) deps st) i n = sym_at st i n).
  { intros Hsame. rewrite Forall_forall in HF |- *. intros d Hd. eapply registered_frame; [by apply HF|lia|lia|..].
    - apply Hsame; [lia|]. intros _. apply list_elem_of_fmap. eauto.
    - intros i n Hi. apply Hsame; [lia|]. intros ->. lia. }
  clear HF. clearbody st. revert st Hle. induction deps as [|dep deps IH]; intros st Hle; [done|]. cbn [fold_left].
  destruct (collectTopLevel_frame (file_PackageName f) dep st) as [Hle' Hf]; [lia|]. intros i n Hi Hn.
  rewrite IH; [|intros d Hd; apply Hap; by right|lia|lia|done]. apply Hf; [done|].
  intros f' -> -> Hm Hx. eapply (Hap f'); [left|done|exact Hx|by apply Hn].
Qed.

(** ** What is emitted *)

Definition go_names (f : GoFile) (k : namedKind) : list string :=
  match k with
  | namedInterface => gi_GoName <$> go_Interfaces f
  | namedParcelable => gp_GoName <$> go_Parcelables f
  | namedEnum => ge_GoName <$> go_Enums f
  | namedUnion => gu_GoName <$> go_Unions f
  end.

(** The declarations in [d], each with its kind and its Go name, in the order in
    which they are written: a parcelable before what is in it, an interface after. *)
Fixpoint emitted (owner : string) (d : Decl) : list (namedKind * string) :=
  match d with
  | DInterface (mkInterfaceDecl _ _ n ms) =>
      let go := owner +:+ exportName n in
      (ms ≫= λ m, match m with
                  | MParcelable p => emitted_parcelable go p
                  | MEnum e => [(namedEnum, go +:+ exportName (ed_Name e))]
                  | MUnion u => [(namedUnion, go +:+ exportName (ud_Name u))]
                  | _ => []
                  end) ++ [(namedInterface, go)]
  | DParcelable p => emitted_parcelable owner p
  | DEnum e => [(namedEnum, owner +:+ exportName (ed_Name e))]
  | DUnion u => [(namedUnion, owner +:+ exportName (ud_Name u))]
  end
with emitted_parcelable (owner : string) (p : ParcelableDecl) : list (namedKind * string) :=
  match p with
  | mkParcelableDecl _ n _ _ _ _ ds =>
      let go := owner +:+ exportName n in (namedParcelable, go) :: (ds ≫= emitted go)
  end.

Definition of_kind (k : namedKind) (l : list (namedKind * string)) : list string := snd <$> filter (λ p, p.1 = k) l.

(** From [s] to [s'] the declarations [l] have been added. *)
Definition adds_names (s s' : lowered) (l : list (namedKind * string)) : Prop :=
  ∀ k, go_names (low_out s') k = go_names (low_out s) k ++ of_kind k l.

Lemma of_kind_app k l1 l2 : of_kind k (l1 ++ l2) = of_kind k l1 ++ of_kind k l2.
Proof. unfold of_kind. by rewrite filter_app, fmap_app. Qed.

Lemma adds_none s s' : decls_of (low_out s') = decls_of (low_out s) → adds_names s s' [].
Proof. intros [= H1 H2 H3 H4] k. cbn. rewrite app_nil_r. destruct k; cbn; congruence. Qed.

Lemma adds_trans s1 s2 s3 l1 l2 : adds_names s1 s2 l1 → adds_names s2 s3 l2 → adds_names s1 s3 (l1 ++ l2).
Proof. intros H1 H2 k. by rewrite H2, H1, of_kind_app, app_assoc. Qed.

Lemma adds_after s1 s2 s3 l : adds_names s1 s2 [] → adds_names s2 s3 l → adds_names s1 s3 l.
Proof. apply adds_trans. Qed.

Lemma silent_adds {A} (m : LM A) s a s' : silent m → runs m s a s' → adds_names s s' [].
Proof. intros Hm [E _]. apply adds_none. by eapply Hm. Qed.

Section Emission.
Context `{GoFrontEnd} (file : File) (st : symtab)
  (custom : gmap string CustomParcelableConfig) (stable : gmap string StableInterfaceConfig).

Definition method_of (m : InterfaceMember) : option MethodDecl := match m with MMethod m => Some m | _ => None end.

(** The methods of an interface [qname], each with the values of the constants that
    stand before it; a constant that has no value is left out. *)
Fixpoint const_envs (qname : string) (ms : list InterfaceMember) (env : Env) : list (MethodDecl * Env) :=
  match ms with
  | [] => []
  | MMethod m :: ms => (m, env) :: const_envs qname ms env
  | MConst c :: ms =>
      const_envs qname ms
        (match Eval (cd_Value c) env with
         | Ok v => registerNameAliases (qname +:+ "." +:+ cd_Name c) v env
         | _ => env
         end)
  | _ :: ms => const_envs qname ms env
  end.

Lemma const_envs_methods qname ms env : (const_envs qname ms env).*1 = omap method_of ms.
Proof. revert env. induction ms as [|[] ms IH]; intros env; cbn; by rewrite ?IH. Qed.

(** The methods [gms] made of [ms], when [c] is the next implicit code. *)
Inductive coded : Z → list (MethodDecl * Env) → list GoMethod → Prop :=
| coded_nil c : coded c [] []
| coded_implicit c m env gm ms gms : gm_Name gm = md_Name m → md_Transaction m = "" → gm_TransactionCode gm = c →
    coded (u32 (c + 1)) ms gms → coded c ((m, env) :: ms) (gm :: gms)
| coded_explicit c m env gm ms gms v : gm_Name gm = md_Name m → md_Transaction m ≠ "" →
    EvalInt64 (md_Transaction m) env = Ok v → 0 < v → gm_TransactionCode gm = u32 v →
    coded (Z.max c (u32 (u32 v + 1))) ms gms → coded c ((m, env) :: ms) (gm :: gms).

Lemma lowerMethod_run sc i o m c s gm s' : runs (lowerMethod file st custom sc i o m c) s (Some gm) s' →
  gm_Name gm = md_Name m ∧ gm_TransactionCode gm = c.
Proof.
  pose proof (effects_lower_args file st custom sc (md_Args m)) as [Hf _].
  unfold lowerMethod. intros HR. apply runs_bind in HR as ([ret|] & s1 & _ & HR); [|by apply runs_ret in HR as [? _]|effects].
  apply runs_bind in HR as ([[ins outs]|] & s2 & _ & HR); [|by apply runs_ret in HR as [? _]|effects].
  apply runs_bind in HR as ([] & s3 & _ & HR); [|effects]. apply runs_bind in HR as ([] & s4 & _ & HR); [|effects].
  by apply runs_ret in HR as [[= <-] _].
Qed.

Lemma method_code_run sc i m k c s c1 c2 s' : runs (method_code file st sc i m k c) s (c1, c2) s' →
  md_Transaction m = "" ∧ c1 = c ∧ c2 = c ∨
  md_Transaction m ≠ "" ∧ ∃ v, EvalInt64 (md_Transaction m) (kc_values k) = Ok v ∧ 0 < v ∧ c1 = u32 v ∧ c2 = Z.max c (u32 (u32 v + 1)).
Proof.
  unfold method_code. case_bool_decide as Hm; [intros [[= <- <-] _]%runs_ret; by left|]. intros HR. right. split; [done|].
  apply runs_bind in HR as (x & s1 & _ & HR); [|effects]. destruct (EvalInt64 _ _) as [v|e|y] eqn:E.
  - destruct (Z.leb_spec v 0); [by apply not_runs_diag_bind in HR; [|effects]|]. apply runs_ret in HR as [[= <- <-] _].
    exists v. split_and!; [done..|]. destruct (Z.ltb_spec c (u32 (u32 v + 1))); lia.
  - by apply not_runs_diag_bind in HR; [|effects].
  - by destruct HR.
Qed.

Lemma lower_const_run sc sym c k s gc k' s' : runs (lower_const file st custom sc sym c k) s (Some (gc, k')) s' →
  kc_values k' = match Eval (cd_Value c) (kc_values k) with
                 | Ok v => registerNameAliases (sym_aidlName sym +:+ "." +:+ cd_Name c) v (kc_values k)
                 | _ => kc_values k
                 end.
Proof.
  unfold lower_const. intros HR. apply runs_bind in HR as ([typ|] & s1 & _ & HR); [|by apply runs_ret in HR as [? _]|effects].
  apply runs_bind in HR as (value & s2 & _ & HR); [|effects]. unfold try_eval in HR.
  destruct (Eval _ _) as [v|err|y]; [| |by destruct HR];
    (apply runs_bind in HR as (v' & s3 & Hv & HR); [|effects]); apply runs_ret in Hv as (<- & _); by apply runs_ret in HR as ([= _ <-] & _).
Qed.

Lemma members_coded sym o nested ms : (∀ m, m ∈ ms → grows (nested m)) →
  ∀ k c s cs gms s', runs (lower_members file st custom sym o nested ms k c) s (cs, gms) s' →
  coded c (const_envs (sym_aidlName sym) ms (kc_values k)) gms.
Proof.
  intros Hg. induction ms as [|m ms IH]; intros k c s cs gms s' HR.
  { apply runs_ret in HR as ([= <- <-] & _). constructor. }
  assert (IH' : ∀ k c s cs gms s', runs (lower_members file st custom sym o nested ms k c) s (cs, gms) s' →
    coded c (const_envs (sym_aidlName sym) ms (kc_values k)) gms).
  { apply IH; intros; apply Hg; by right. }
  assert (Hms : ∀ k c, grows (lower_members file st custom sym o nested ms k c)).
  { intros. apply grows_members. intros m' Hm'. apply Hg. by right. }
  clear IH. cbn [lower_members] in HR; fold (lower_members file st custom sym o nested) in HR.
  destruct m as [m|cd|p|e|u]; cbn [const_envs].
  - apply runs_bind in HR as ([c1 c2] & s1 & Hcode & HR); [|effects; apply Hms].
    apply runs_bind in HR as ([gm|] & s2 & Hmeth & HR); [| |effects; apply Hms].
    2: { by apply loud_lowerMethod in Hmeth. }
    apply runs_bind in HR as ([cs' gms'] & s3 & Hrest & HR); [|effects]. apply runs_ret in HR as ([= <- <-] & _).
    apply IH' in Hrest. apply lowerMethod_run in Hmeth as [Hname Hc1].
    apply method_code_run in Hcode as [(Ht & -> & ->)|(Ht & v & He & Hv & -> & ->)].
    + rewrite bool_decide_eq_true_2 in Hrest by done. by apply coded_implicit.
    + rewrite bool_decide_eq_false_2 in Hrest by done. by eapply coded_explicit.
  - apply runs_bind in HR as ([[gc k']|] & s1 & Hc & HR); [| |effects; apply Hms].
    2: { by apply loud_lower_const in Hc. }
    apply runs_bind in HR as ([cs' gms'] & s2 & Hrest & HR); [|effects]. apply runs_ret in HR as ([= <- <-] & _).
    rewrite <- (lower_const_run _ _ _ _ _ _ _ _ Hc). by eapply IH'.
  - apply runs_bind in HR as (x & s1 & Hn & HR); [|intros; apply Hms]. by eapply IH'.
  - apply runs_bind in HR as (x & s1 & Hn & HR); [|intros; apply Hms]. by eapply IH'.
  - apply runs_bind in HR as (x & s1 & Hn & HR); [|intros; apply Hms]. by eapply IH'.
Qed.

Lemma members_run sym o nested (fm : InterfaceMember → list (namedKind * string)) ms :
  (∀ m, m ∈ ms → grows (nested m)) → (∀ m s1 u s2, m ∈ ms → runs (nested m) s1 u s2 → adds_names s1 s2 (fm m)) →
  (∀ m, fm (MMethod m) = []) → (∀ c, fm (MConst c) = []) →
  ∀ k c s cs gms s', runs (lower_members file st custom sym o nested ms k c) s (cs, gms) s' →
  adds_names s s' (ms ≫= fm).
Proof.
  intros Hg Hfm HM HC. induction ms as [|m ms IH]; intros k c s cs gms s' HR.
  { apply runs_ret in HR as ([= <- <-] & -> & _). by apply adds_none. }
  assert (IH' : ∀ k c s cs gms s', runs (lower_members file st custom sym o nested ms k c) s (cs, gms) s' →
    adds_names s s' (ms ≫= fm)).
  { apply IH; intros; [apply Hg|eapply Hfm; [|done]]; by right. }
  assert (Hms : ∀ k c, grows (lower_members file st custom sym o nested ms k c)).
  { intros. apply grows_members. intros m' Hm'. apply Hg. by right. }
  clear IH. cbn [lower_members] in HR; fold (lower_members file st custom sym o nested) in HR.
  change ((m :: ms) ≫= fm) with (fm m ++ (ms ≫= fm)).
  destruct m as [m|cd|p|e|u].
  - rewrite HM. apply runs_bind in HR as ([c1 c2] & s1 & Hcode & HR); [|effects; apply Hms].
    pose proof (silent_adds _ _ _ _ (silent_method_code file st _ _ _ _ _) Hcode) as A1.
    apply runs_bind in HR as ([gm|] & s2 & Hmeth & HR); [| |effects; apply Hms].
    2: { by apply loud_lowerMethod in Hmeth. }
    pose proof (silent_adds _ _ _ _ (silent_lowerMethod file st custom _ _ _ _ _) Hmeth) as A2.
    apply runs_bind in HR as ([cs' gms'] & s3 & Hrest & HR); [|effects]. apply runs_ret in HR as ([= <- <-] & -> & _).
    apply IH' in Hrest. exact (adds_after _ _ _ _ A1 (adds_after _ _ _ _ A2 Hrest)).
  - rewrite HC. apply runs_bind in HR as ([[gc k']|] & s1 & Hc & HR); [| |effects; apply Hms].
    2: { by apply loud_lower_const in Hc. }
    apply runs_bind in HR as ([cs' gms'] & s2 & Hrest & HR); [|effects]. apply runs_ret in HR as ([= <- <-] & -> & _).
    apply IH' in Hrest. exact (adds_after _ _ _ _ (silent_adds _ _ _ _ (silent_lower_const file st custom _ _ _ _) Hc) Hrest).
  - apply runs_bind in HR as (x & s1 & Hn & HR); [|intros; apply Hms]. eapply adds_trans; [|by eapply IH']. eapply Hfm; [left|done].
  - apply runs_bind in HR as (x & s1 & Hn & HR); [|intros; apply Hms]. eapply adds_trans; [|by eapply IH']. eapply Hfm; [left|done].
  - apply runs_bind in HR as (x & s1 & Hn & HR); [|intros; apply Hms]. eapply adds_trans; [|by eapply IH']. eapply Hfm; [left|done].
Qed.

Lemma enum_run id parents e sym s u s' : sym_at st id (ed_Name e) = Some sym →
  runs (lowerEnum file st (Some (id :: parents)) e) s u s' → adds_names s s' [(namedEnum, sym_goName sym)].
Proof.
  intros Hs HR. unfold lowerEnum, symbol_of in HR. apply runs_bind in HR as (sy & s1 & Hsy & HR).
  2: { effects. apply effects_enum_members. }
  apply runs_ret in Hsy as (<- & -> & _). change (scope_symbols st (id :: parents) !! ed_Name e) with (sym_at st id (ed_Name e)) in HR.
  rewrite Hs in HR. apply runs_bind in HR as (ty & s2 & Hty & HR); [|effects; apply effects_enum_members].
  apply runs_bind in HR as (ms & s3 & Hms & HR); [|effects]. apply runs_update in HR as [-> _].
  pose proof (adds_after _ _ _ [] (silent_adds _ _ _ _ (silent_enumBacking _) Hty)
                (silent_adds _ _ _ _ (proj2 (effects_enum_members file st _ _ _ _ _)) Hms)) as A.
  eapply adds_after; [exact A|]. intros []; cbn; by rewrite ?app_nil_r, ?fmap_app.
Qed.

Lemma union_run id parents d sym s u s' : sym_at st id (ud_Name d) = Some sym →
  runs (lowerUnion file st custom (Some (id :: parents)) d) s u s' → adds_names s s' [(namedUnion, sym_goName sym)].
Proof.
  assert (Hf : ∀ fs, grows (lower_fields file st custom (id :: parents) (λ _, mret "") fs) ∧
                     silent (lower_fields file st custom (id :: parents) (λ _, mret "") fs)).
  { intros. apply effects_lower_fields; intros; [apply grows_ret|apply silent_ret]. }
  intros Hs HR. unfold lowerUnion, symbol_of in HR. apply runs_bind in HR as (sy & s1 & Hsy & HR); [|effects; apply Hf].
  apply runs_ret in Hsy as (<- & -> & _). change (scope_symbols st (id :: parents) !! ud_Name d) with (sym_at st id (ud_Name d)) in HR.
  rewrite Hs in HR. apply runs_bind in HR as ([gfs|] & s2 & Hfs & HR); [| |effects].
  2: { by apply loud_lower_fields in Hfs; [|intros; apply grows_ret|intros; apply silent_ret]. }
  apply runs_update in HR as [-> _]. eapply adds_after; [exact (silent_adds _ _ _ _ (proj2 (Hf _)) Hfs)|].
  intros []; cbn; by rewrite ?app_nil_r, ?fmap_app.
Qed.

Lemma parcelable_run id parents a n tp str cs fs ds sym s u s' : sym_at st id n = Some sym →
  runs (lowerParcelable file st custom stable (Some (id :: parents)) (mkParcelableDecl a n tp str cs fs ds)) s u s' →
  ∃ s1, adds_names s s1 [(namedParcelable, sym_goName sym)] ∧
    runs (lower_all file st custom stable (match sym_scope sym with Some sc => Some sc | None => Some (id :: parents) end) ds) s1 u s'.
Proof.
  intros Hs HR. cbn [lowerParcelable] in HR. unfold symbol_of in HR.
  assert (Hall : ∀ sc, grows (lower_all file st custom stable sc ds)).
  { intros. apply grows_lower_all, Forall_true. intros. apply grows_lowerDecl. }
  assert (Hf : ∀ sc k fs, grows (lower_fields file st custom sc (λ x, if bool_decide (fld_DefaultValue x = "") then mret ""
                        else lower_value file st sc (fld_DefaultValue x) k) fs) ∧
                     silent (lower_fields file st custom sc (λ x, if bool_decide (fld_DefaultValue x = "") then mret ""
                        else lower_value file st sc (fld_DefaultValue x) k) fs)).
  { intros. apply effects_lower_fields; intros; [apply grows_default|apply silent_default]. }
  apply runs_bind in HR as (sy & s1 & Hsy & HR).
  2: { intros [sy|]; [|effects]. apply grows_bind; [apply effects_lower_consts|]. intros [[gcs k]|]; [|effects].
       apply grows_bind; [apply Hf|]. intros [gfs|]; [|effects]. apply grows_bind; [effects|]. intros _. apply Hall. }
  apply runs_ret in Hsy as (<- & -> & _). change (scope_symbols st (id :: parents) !! n) with (sym_at st id n) in HR.
  rewrite Hs in HR. apply runs_bind in HR as ([[gcs k]|] & s2 & Hcs & HR).
  2: { by apply loud_lower_consts in Hcs. }
  2: { intros [[gcs k]|]; [|effects]. apply grows_bind; [apply Hf|]. intros [gfs|]; [|effects].
       apply grows_bind; [effects|]. intros _. apply Hall. }
  apply runs_bind in HR as ([gfs|] & s3 & Hfs & HR).
  2: { by apply loud_lower_fields in Hfs; [|intros; apply grows_default|intros; apply silent_default]. }
  2: { intros [gfs|]; [|effects]. apply grows_bind; [effects|]. intros _. apply Hall. }
  apply runs_bind in HR as ([] & s4 & Hup & HR); [|intros _; apply Hall]. apply runs_update in Hup as [-> Hd].
  eexists. split; [|exact HR].
  pose proof (adds_after _ _ _ [] (silent_adds _ _ _ _ (proj2 (effects_lower_consts _ _ _ _ _ _ _)) Hcs)
                (silent_adds _ _ _ _ (proj2 (Hf _ _ _)) Hfs)) as A.
  eapply adds_after; [exact A|]. intros []; cbn; by rewrite ?app_nil_r, ?fmap_app.
Qed.

(** The declarations inside an interface hold no declarations themselves. *)
Fixpoint shallow (d : Decl) : bool :=
  match d with
  | DInterface (mkInterfaceDecl _ _ _ ms) =>
      forallb (λ m, match m with MParcelable (mkParcelableDecl _ _ _ _ _ _ (_ :: _)) => false | _ => true end) ms
  | DParcelable (mkParcelableDecl _ _ _ _ _ _ ds) => forallb shallow ds
  | _ => true
  end.

(** What a member of an interface with the Go name [go] adds. *)
Definition member_emitted (go : string) (m : InterfaceMember) : list (namedKind * string) :=
  match m with
  | MParcelable p => emitted_parcelable go p
  | MEnum e => [(namedEnum, go +:+ exportName (ed_Name e))]
  | MUnion u => [(namedUnion, go +:+ exportName (ud_Name u))]
  | _ => []
  end.

(** What [lowerInterface] does with a declaration among the members. *)
Definition lower_member (sc : option scope) (m : InterfaceMember) : LM unit :=
  match m with
  | MParcelable p => lowerParcelable file st custom stable sc p
  | MEnum e => lowerEnum file st sc e
  | MUnion u => lowerUnion file st custom sc u
  | _ => mret tt
  end.

Lemma lowerInterface_unfold sc a o n ms : lowerInterface file st custom stable sc (mkInterfaceDecl a o n ms) =
  (sym ← symbol_of st sc n;
   match sym with
   | None => mret tt
   | Some sym =>
       let stab := hasVintfStabilityAnnotation a in
       let '(version, hash) := stability stable stab (sym_aidlName sym) in
       '(consts, methods) ← lower_members file st custom sym o (lower_member (sym_scope sym)) ms no_consts 1;
       update_out (add_interface (mkGoInterface (sym_aidlName sym) (sym_goName sym)
                     (descriptorName (file_PackageName file) n) o stab version hash consts methods))
   end).
Proof. reflexivity. Qed.

Lemma grows_lower_member sc m : grows (lower_member sc m).
Proof. destruct m as [| |p| |]; cbn; effects. apply (grows_lowerDecl file st custom stable (DParcelable p)). Qed.

(** A nested member finds its symbol, which has no scope of its own. *)
Lemma nested_run id parents go m s u s' :
  (∀ x, nested_decl m = Some x → nested_symbol st id go x) →
  (match m with MParcelable (mkParcelableDecl _ _ _ _ _ _ (_ :: _)) => false | _ => true end) = true →
  runs (lower_member (Some (id :: parents)) m) s u s' → adds_names s s' (member_emitted go m).
Proof.
  intros Hn Hsh HR. unfold lower_member in HR. destruct m as [m|c|[a n tp str cs fs ds]|e|d].
  - apply runs_ret in HR as (_ & -> & _). by apply adds_none.
  - apply runs_ret in HR as (_ & -> & _). by apply adds_none.
  - destruct (Hn n eq_refl) as (sym & Hs & Hg & _). destruct ds; [|done].
    destruct (parcelable_run _ _ _ _ _ _ _ _ _ _ _ _ _ Hs HR) as (s1 & A & HR'). apply runs_ret in HR' as (_ & -> & _).
    cbn. by rewrite <- Hg.
  - destruct (Hn (ed_Name e) eq_refl) as (sym & Hs & Hg & _). cbn. rewrite <- Hg. by eapply enum_run.
  - destruct (Hn (ud_Name d) eq_refl) as (sym & Hs & Hg & _). cbn. rewrite <- Hg. by eapply union_run.
Qed.

(** An interface is lowered by a run over its members. *)
Lemma interface_run id parents a o n ms sym s u s' : sym_at st id n = Some sym →
  runs (lowerInterface file st custom stable (Some (id :: parents)) (mkInterfaceDecl a o n ms)) s u s' →
  ∃ gi s1, runs (lower_members file st custom sym o (lower_member (sym_scope sym)) ms no_consts 1) s (gi_Consts gi, gi_Methods gi) s1 ∧
    s' = mkLowered (add_interface gi (low_out s1)) [] ∧ gi_GoName gi = sym_goName sym ∧ gi_AIDLName gi = sym_aidlName sym ∧
    gi_Descriptor gi = descriptorName (file_PackageName file) n.
Proof.
  intros Hs HR. rewrite lowerInterface_unfold in HR. unfold symbol_of in HR. cbv zeta in HR.
  apply runs_bind in HR as (sy & s1 & Hsy & HR).
  2: { intros [sy|]; [|effects]. destruct (stability _ _ _). apply grows_bind; [apply grows_members; intros; apply grows_lower_member|effects]. }
  apply runs_ret in Hsy as (<- & -> & _). change (scope_symbols st (id :: parents) !! n) with (sym_at st id n) in HR.
  rewrite Hs in HR. destruct (stability _ _ _) as [version hash].
  apply runs_bind in HR as ([consts methods] & s2 & Hmem & HR); [|effects]. apply runs_update in HR as [-> _].
  exists (mkGoInterface (sym_aidlName sym) (sym_goName sym) (descriptorName (file_PackageName file) n) o
            (hasVintfStabilityAnnotation a) version hash consts methods), s2. by split_and!.
Qed.

Lemma interface_emits id parents owner a o n ms lo hi s u s' :
  registered st lo hi id parents owner (DInterface (mkInterfaceDecl a o n ms)) →
  shallow (DInterface (mkInterfaceDecl a o n ms)) = true →
  runs (lowerInterface file st custom stable (Some (id :: parents)) (mkInterfaceDecl a o n ms)) s u s' →
  adds_names s s' (emitted owner (DInterface (mkInterfaceDecl a o n ms))).
Proof.
  intros (sym & Hs & Hg & id' & Hsc & _ & Hms)%registered_inv Hsh HR. cbn [declName] in Hs, Hg.
  destruct (interface_run _ _ _ _ _ _ _ _ _ _ Hs HR) as (gi & s1 & Hmem & -> & Hgo & _).
  rewrite Hsc in Hmem.
  assert (A : adds_names s s1 (ms ≫= member_emitted (sym_goName sym))).
  { eapply members_run; [| | | |exact Hmem]; [| |done|done].
    - intros m _. apply grows_lower_member.
    - intros m s2 u2 s3 Hin HR'. eapply nested_run; [| |exact HR'].
      + intros x Hx. apply Hms. apply list_elem_of_omap. eauto.
      + cbn [shallow] in Hsh. rewrite forallb_forall in Hsh. apply Hsh. by apply list_elem_of_In. }
  cbn [emitted]. rewrite <- Hg. eapply adds_trans; [exact A|]. rewrite <- Hgo. intros []; cbn; by rewrite ?app_nil_r, ?fmap_app.
Qed.

(** The codes of its methods. *)
Lemma interface_coded id parents a o n ms sym s u s' : sym_at st id n = Some sym →
  runs (lowerInterface file st custom stable (Some (id :: parents)) (mkInterfaceDecl a o n ms)) s u s' →
  ∃ gi, gi ∈ go_Interfaces (low_out s') ∧ gi_Descriptor gi = descriptorName (file_PackageName file) n ∧
    coded 1 (const_envs (sym_aidlName sym) ms ∅) (gi_Methods gi).
Proof.
  intros Hs HR. destruct (interface_run _ _ _ _ _ _ _ _ _ _ Hs HR) as (gi & s1 & Hmem & -> & _ & _ & Hd).
  exists gi. split_and!; [cbn; apply elem_of_app; right; by left|done|].
  eapply members_coded in Hmem; [exact Hmem|]. intros m _. apply grows_lower_member.
Qed.

Definition emits (d : Decl) : Prop := ∀ id parents owner lo hi s u s', registered st lo hi id parents owner d →
  shallow d = true → runs (lowerDecl file st custom stable (Some (id :: parents)) d) s u s' → adds_names s s' (emitted owner d).

Lemma lower_all_emits ds id parents owner lo hi s u s' : Forall emits ds → Forall (registered st lo hi id parents owner) ds →
  forallb shallow ds = true → runs (lower_all file st custom stable (Some (id :: parents)) ds) s u s' →
  adds_names s s' (ds ≫= emitted owner).
Proof.
  intros HE. revert s. induction HE as [|d ds Hd _ IH]; intros s HF Hsh HR; [apply runs_ret in HR as (_ & -> & _); by apply adds_none|].
  cbn [lower_all] in HR. apply runs_bind in HR as ([] & s2 & H1 & H2).
  2: { intros _. apply grows_lower_all, Forall_true. intros. apply grows_lowerDecl. }
  apply Forall_cons in HF as [Hf HF]. cbn [forallb] in Hsh. apply andb_true_iff in Hsh as [Hsh1 Hsh2].
  eapply adds_trans; [by eapply Hd|by apply IH].
Qed.

Lemma lower_emits d : emits d.
Proof.
  induction d as [e|u|a n tp str cs fs ds IH|a o n ms _] using decl_nested_ind; intros id parents owner lo hi s w s' Hr Hsh HR.
  - apply registered_inv in Hr as (sym & Hs & Hg & _). cbn [emitted declName] in *. rewrite <- Hg. by eapply enum_run.
  - apply registered_inv in Hr as (sym & Hs & Hg & _). cbn [emitted declName] in *. rewrite <- Hg. by eapply union_run.
  - apply registered_inv in Hr as (sym & Hs & Hg & Hd). cbn [emitted emitted_parcelable declName] in *. rewrite <- Hg.
    destruct (parcelable_run id parents a n tp str cs fs ds sym s w s' Hs HR) as (s1 & A & HR').
    eapply (adds_trans _ _ _ [_]); [exact A|].
    destruct Hd as [->|(id' & Hsc & _ & HF)]; [apply runs_ret in HR' as (_ & -> & _); by apply adds_none|].
    rewrite Hsc in HR'. by eapply lower_all_emits.
  - by eapply interface_emits.
Qed.
End Emission.

(** ** Files that the validator accepts *)

(** No declaration is anonymous; the parser makes none. *)
Fixpoint has_names (d : Decl) : bool :=
  negb (bool_decide (declName d = "")) &&
  match d with DParcelable (mkParcelableDecl _ _ _ _ _ _ ds) => forallb has_names ds | _ => true end.

Lemma given_all names : Forall (λ n, n ≠ "") names → given names = names.
Proof. induction 1 as [|n names Hn _ IH]; [done|]. rewrite given_cons, bool_decide_eq_false_2 by done. by rewrite IH. Qed.

Lemma given_names ds : forallb has_names ds = true → given (declName <$> ds) = declName <$> ds.
Proof.
  intros Hn. apply given_all, Forall_fmap, Forall_forall. intros d Hd. rewrite forallb_forall in Hn.
  apply list_elem_of_In, Hn in Hd. destruct d; cbn [has_names] in Hd;
    apply andb_true_iff in Hd as [Hd _]; by apply negb_true_iff, bool_decide_eq_false in Hd.
Qed.

Lemma accepted_distinct `{GoFrontEnd} pkg ds d scope : clean (validateDecl pkg ds scope d) tt → has_names d = true → distinct d.
Proof.
  revert scope. induction d as [e|u|a n tp str cs fs decls IH|a o n ms _] using decl_nested_ind; intros scope Hc Hn; [done|done| |done].
  apply distinct_parcelable. cbn [has_names] in Hn. apply andb_true_iff in Hn as [_ Hn]. split.
  - destruct (clean_acceptable _ _ _ _ Hc) as [Hnd _]. specialize (Hnd _ eq_refl).
    rewrite given_names in Hnd by done. by apply NoDup_app in Hnd as (_ & _ & (_ & _ & Hnd)%NoDup_app).
  - rewrite Forall_forall in IH |- *. intros d Hd. eapply IH; [done| |].
    + eapply clean_within; [|exact Hc]. econstructor; [exact Hd|constructor].
    + rewrite forallb_forall in Hn. apply Hn. by apply list_elem_of_In.
Qed.

Lemma accepted_distinct_file `{GoFrontEnd} f : ValidateFile (Some f) = (Ok tt, []) →
  forallb has_names (file_Decls f) = true → distinct_file f.
Proof.
  intros Hc Hn. destruct (clean_validate_list _ _ _ _ (Hc : clean _ tt)) as [[H1 _] H2].
  rewrite given_names in H1 by done. split; [done|]. apply Forall_forall. intros d Hd. eapply accepted_distinct; [by apply H2|].
  rewrite forallb_forall in Hn. apply Hn. by apply list_elem_of_In.
Qed.

Lemma Lower_run `{GoFrontEnd} f opts out : Lower (Some f) opts = Ok (Some out, []) →
  ∃ s, low_out s = out ∧ runs (lower_all f (symbols f (lo_DependencyFiles opts)) (lo_CustomParcelables opts) (lo_StableInterfaces opts)
    (Some root) (file_Decls f)) (mkLowered (empty_out f (lo_SourcePath opts)) []) tt s.
Proof.
  unfold Lower. change (lower_decls f) with (λ st cu sta, lower_all f st cu sta (Some root)). cbv beta.
  destruct (lower_all _ _ _ _ _ _ _) as [[[]|[]|y] s] eqn:E; [|done]. cbn. intros [= <- Hd]. exists s. done.
Qed.

(** Nothing is lost between an AIDL file and the model of its Go code: when a file
    that the validator accepts is lowered without a diagnostic, and the files it
    depends on declare none of its names, the model holds exactly the interfaces,
    parcelables, enums and unions of the file, nested ones included, each under its
    Go name and in order.  Declarations inside the parcelables of an interface are
    excluded. *)
Theorem lower_emits_all `{GoFrontEnd} (f : File) (opts : LowerOptions) (out : GoFile) :
  ValidateFile (Some f) = (Ok tt, []) → forallb has_names (file_Decls f) = true → apart f (lo_DependencyFiles opts) →
  forallb shallow (file_Decls f) = true → Lower (Some f) opts = Ok (Some out, []) →
  ∀ k, go_names out k = of_kind k (file_Decls f ≫= emitted "").
Proof.
  intros Hv Hn Hap Hsh (s & <- & HR)%Lower_run k.
  destruct (symbols_registered f (lo_DependencyFiles opts)) as (lo & hi & HF); [by apply accepted_distinct_file|done|].
  rewrite (lower_all_emits _ _ _ _ _ _ _ "" _ _ _ _ _ (Forall_true _ _ (lower_emits _ _ _ _)) HF Hsh HR k). by destruct k.
Qed.

(** *** Transaction codes *)

Section Codes.
Context `{GoFrontEnd}.

Lemma u32_id z : 0 <= z < 2 ^ 32 → u32 z = z.
Proof. apply (wrapu_id 32). Qed.

Lemma coded_methods c ms gms : coded c ms gms → Forall2 (λ '(m, env) gm, gm_Name gm = md_Name m ∧
  (md_Transaction m ≠ "" → ∃ v, EvalInt64 (md_Transaction m) env = Ok v ∧ 0 < v ∧ gm_TransactionCode gm = u32 v)) ms gms.
Proof. induction 1; [constructor|constructor; [by split|done]|constructor; [split; [done|eauto]|done]]. Qed.

(** No code is the last one, after which the counter wraps around. *)
Definition no_wrap (gms : list GoMethod) : Prop := Forall (λ gm, gm_TransactionCode gm < 2 ^ 32 - 1) gms.

Lemma coded_implicit_fresh c ms gms : coded c ms gms → 0 <= c < 2 ^ 32 → no_wrap gms →
  ∀ j m env gm, ms !! j = Some (m, env) → gms !! j = Some gm → md_Transaction m = "" →
  c <= gm_TransactionCode gm ∧ ∀ i gm', (i < j)%nat → gms !! i = Some gm' → gm_TransactionCode gm' < gm_TransactionCode gm.
Proof.
  induction 1 as [|c m0 env0 gm0 ms gms Hn Ht Hc _ IH|c m0 env0 gm0 ms gms v Hn Ht Hev Hv Hc _ IH]; intros Hb HW j m env gm Hm Hgm Hi; [done|..];
    apply Forall_cons in HW as [Hw HW].
  - assert (Hu : u32 (c + 1) = c + 1) by (apply u32_id; lia). rewrite Hu in IH. destruct j as [|j].
    + injection Hm as <- <-. injection Hgm as <-. split; [lia|]. intros i gm' Hlt. lia.
    + destruct (IH ltac:(lia) HW j m env gm Hm Hgm Hi) as [Hle Hall]. split; [lia|]. intros [|i] gm' Hlt Hi'.
      * injection Hi' as <-. lia.
      * apply (Hall i); [lia|done].
  - assert (Hr : 0 <= u32 v < 2 ^ 32) by (apply wrapu_range; lia). assert (Hu : u32 (u32 v + 1) = u32 v + 1) by (apply u32_id; lia).
    rewrite Hu in IH. destruct j as [|j]; [by injection Hm as <- _|].
    destruct (IH ltac:(lia) HW j m env gm Hm Hgm Hi) as [Hle Hall]. split; [lia|]. intros [|i] gm' Hlt Hi'.
    * injection Hi' as <-. lia.
    * apply (Hall i); [lia|done].
Qed.

Lemma coded_sequential c ms gms : coded c ms gms → Forall (λ m, md_Transaction m = "") ms.*1 → 0 <= c →
  c + Z.of_nat (length gms) <= 2 ^ 32 → gm_TransactionCode <$> gms = seqZ c (Z.of_nat (length gms)).
Proof.
  induction 1 as [|c m0 env0 gm0 ms gms Hn Ht Hc _ IH|c m0 env0 gm0 ms gms v Hn Ht Hev Hv Hc _ IH]; intros HF Hb Hlen; [done|..];
    apply Forall_cons in HF as [Hf HF]; [|done].
  cbn [length] in *. rewrite seqZ_cons by lia. cbn [fmap list_fmap]. rewrite Hc. f_equal.
  replace (Z.pred (Z.of_nat (S (length gms)))) with (Z.of_nat (length gms)) by lia.
  destruct (decide (gms = [])) as [->|Hne]; [done|]. assert (length gms ≠ 0%nat) by by destruct gms.
  assert (Hu : u32 (c + 1) = c + 1) by (apply u32_id; lia). rewrite Hu in IH. rewrite IH by (done || lia). by f_equal.
Qed.
End Codes.

(** A declaration of the list is lowered in some state on the way, and what it adds
    stays. *)
Lemma lower_all_at `{GoFrontEnd} f st cu sta sc ds d s u s' : d ∈ ds → runs (lower_all f st cu sta sc ds) s u s' →
  ∃ s1 u1 s2, runs (lowerDecl f st cu sta sc d) s1 u1 s2 ∧
    (∀ x, x ∈ go_Interfaces (low_out s2) → x ∈ go_Interfaces (low_out s')) ∧
    (∀ x, x ∈ go_Enums (low_out s2) → x ∈ go_Enums (low_out s')).
Proof.
  assert (Hg : ∀ ds, grows (lower_all f st cu sta sc ds)).
  { intros. apply grows_lower_all, Forall_true. intros. apply grows_lowerDecl. }
  revert s. induction ds as [|d' ds IH]; intros s; [by intros ?%not_elem_of_nil|]. rewrite elem_of_cons. intros Hd HR.
  cbn [lower_all] in HR. apply runs_bind in HR as ([] & s1 & H1 & H2); [|intros _; apply Hg].
  destruct Hd as [->|Hd]; [|by apply (IH s1)]. exists s, tt, s1. split; [done|].
  destruct H2 as [E _]. destruct (Hg ds _ _ _ E) as (_ & [li Hi] & [le He]). rewrite Hi, He. split; intros x Hx; apply elem_of_app; by left.
Qed.

(** C31: transaction codes: take a file whose declarations have names (the parser makes
    no others), that the validator accepts, and that the files it depends on share no
    top level name with where they share its package.  When it is lowered without a
    diagnostic, each interface of its top level is in the output under its descriptor
    with its methods in order.  A method with an explicit code has the value of that
    expression, which is positive, reduced modulo 2^32; the expression is evaluated
    with the constants of the interface that stand before the method.  A method
    without one gets a code above those of all methods before it, as long as no code
    is the last of the 32-bit counter; when no code is explicit they are 1, 2, 3, ... *)
Theorem transaction_codes `{GoFrontEnd} (f : File) (opts : LowerOptions) (out : GoFile) a o n ms :
  ValidateFile (Some f) = (Ok tt, []) → forallb has_names (file_Decls f) = true → apart f (lo_DependencyFiles opts) →
  Lower (Some f) opts = Ok (Some out, []) → DInterface (mkInterfaceDecl a o n ms) ∈ file_Decls f →
  let qname := descriptorName (file_PackageName f) n in
  let methods := const_envs qname ms ∅ in
  methods.*1 = omap method_of ms ∧
  ∃ gi, gi ∈ go_Interfaces out ∧ gi_Descriptor gi = qname ∧
    Forall2 (λ '(m, env) gm, gm_Name gm = md_Name m ∧
      (md_Transaction m ≠ "" → ∃ v, EvalInt64 (md_Transaction m) env = Ok v ∧ 0 < v ∧ gm_TransactionCode gm = u32 v))
      methods (gi_Methods gi) ∧
    (no_wrap (gi_Methods gi) → ∀ i j m env gm gm', methods !! j = Some (m, env) → md_Transaction m = "" → (i < j)%nat →
      gi_Methods gi !! i = Some gm → gi_Methods gi !! j = Some gm' → gm_TransactionCode gm < gm_TransactionCode gm') ∧
    (Forall (λ m, md_Transaction m = "") methods.*1 → Z.of_nat (length (gi_Methods gi)) < 2 ^ 32 →
      gm_TransactionCode <$> gi_Methods gi = seqZ 1 (Z.of_nat (length (gi_Methods gi)))).
Proof.
  intros Hv Hn Hap (s & <- & HR)%Lower_run Hd qname methods. split; [apply const_envs_methods|].
  destruct (symbols_registered f (lo_DependencyFiles opts)) as (lo & hi & HF); [by apply accepted_distinct_file|done|].
  rewrite Forall_forall in HF. destruct (registered_inv _ _ _ _ _ _ _ (HF _ Hd)) as (sym & Hs & _).
  pose proof (symbols_root_qualified f (lo_DependencyFiles opts) _ _ Hs) as Hq. cbn [declName] in Hs, Hq.
  destruct (lower_all_at _ _ _ _ _ _ _ _ _ _ Hd HR) as (s1 & u1 & s2 & Hrun & Hin & _).
  destruct (interface_coded _ _ _ _ _ _ _ _ _ _ _ _ _ _ Hs Hrun) as (gi & Hgi & Hdesc & HC). rewrite Hq in HC.
  exists gi. split_and!; [by apply Hin|done|by eapply coded_methods|..].
  - intros HW i j m env gm gm' Hm Ht Hij Hi Hj. destruct (coded_implicit_fresh _ _ _ HC ltac:(lia) HW j m env gm' Hm Hj Ht) as [_ Hall].
    by apply (Hall i).
  - intros Himp Hlen. apply (coded_sequential 1 methods); [done|done|lia|lia].
Qed.

(** *** Enumerators *)

(** The values of the enumerators of [qname], [next] being the next implicit one. *)
Fixpoint enum_values `{GoFrontEnd} (qname : string) (members : list EnumMember) (env : Env) (next : Z) : option (list Z) :=
  match members with
  | [] => Some []
  | m :: members =>
      v ← (if bool_decide (em_Value m = "") then Some next
           else match EvalInt64 (em_Value m) env with Ok v => Some v | _ => None end);
      vs ← enum_values qname members (registerNameAliases (qname +:+ "." +:+ em_Name m) (CInt v) env) (i64 (v + 1));
      Some (v :: vs)
  end.

Lemma clean_evaluated {A} (m : ceval A) bad a : clean (evaluated m bad) (Some a) → m = Ok a.
Proof. destruct m; [by intros [= ->]|by intros [[? ?%clean_addf] _]%clean_then|done]. Qed.

Lemma clean_evaluated_some {A} (m : ceval A) bad r : clean (evaluated m bad) r → ∃ a, r = Some a.
Proof. destruct m; [intros [= <-]; eauto|by intros [[? ?%clean_addf] _]%clean_then|done]. Qed.

(** What the validator accepts has values. *)
Lemma accepted_enum_values `{GoFrontEnd} enum qname members env next u : clean (validate_members enum qname members env (Some next)) u →
  ∃ vs, enum_values qname members env next = Some vs.
Proof.
  revert env next. induction members as [|m members IH]; intros env next Hc; [by exists []|]. cbn [validate_members enum_values] in *.
  case_bool_decide as Hm; cbn [negb] in Hc.
  - destruct (IH _ _ Hc) as [vs E]. exists (next :: vs). cbn. by rewrite E.
  - apply clean_bind in Hc as (r & Hr & Hc). destruct (clean_evaluated_some _ _ _ Hr) as [v ->].
    apply clean_evaluated in Hr. rewrite Hr. destruct (IH _ _ Hc) as [vs E]. exists (v :: vs). cbn. by rewrite E.
Qed.

(** The enumerators of a lowered enum with their values. *)
Definition enumerator (go : string) (m : EnumMember) (v : Z) (gm : GoEnumMember) : Prop :=
  gem_Name gm = em_Name m ∧ gem_GoName gm = go +:+ exportName (em_Name m) ∧ (em_Value m = "" → gem_Value gm = pretty v).

Lemma enum_members_run `{GoFrontEnd} f st sc sym members k next vs s gms s' :
  enum_values (sym_aidlName sym) members (kc_values k) next = Some vs →
  runs (lower_enum_members f st sc sym members k (Some next)) s gms s' →
  Forall3 (enumerator (sym_goName sym)) members vs gms.
Proof.
  revert k next vs s gms s'. induction members as [|m members IH]; intros k next vs s gms s' Hv HR; cbn [enum_values lower_enum_members] in *.
  { injection Hv as <-. apply runs_ret in HR as (<- & _). constructor. }
  assert (Hg : ∀ k next, grows (lower_enum_members f st sc sym members k next)) by (intros; apply effects_enum_members).
  case_bool_decide as Hm; cbn [negb] in HR.
  - cbn in Hv. destruct (enum_values _ _ _ _) as [vs'|] eqn:E; [|done]. injection Hv as <-.
    apply runs_bind in HR as (rest & s1 & Hrest & HR); [|effects]. apply runs_ret in HR as (<- & _).
    constructor; [by split_and!|]. eapply IH; [|exact Hrest]. exact E.
  - destruct (EvalInt64 _ _) as [v| |] eqn:Ev; [|done..]. cbn in Hv. destruct (enum_values _ _ _ _) as [vs'|] eqn:E; [|done].
    injection Hv as <-. apply runs_bind in HR as (value & s1 & _ & HR); [|effects; apply Hg].
    apply runs_bind in HR as (v' & s2 & Hv' & HR); [|effects; apply Hg]. apply runs_ret in Hv' as (<- & -> & _).
    apply runs_bind in HR as (rest & s3 & Hrest & HR); [|effects]. apply runs_ret in HR as (<- & _).
    constructor; [by split_and!|]. eapply IH; [|exact Hrest]. exact E.
Qed.

Lemma enum_run_members `{GoFrontEnd} f st id parents e sym vs s u s' : sym_at st id (ed_Name e) = Some sym →
  enum_values (sym_aidlName sym) (ed_Members e) ∅ 0 = Some vs →
  runs (lowerEnum f st (Some (id :: parents)) e) s u s' →
  ∃ ge, ge ∈ go_Enums (low_out s') ∧ ge_GoName ge = sym_goName sym ∧ Forall3 (enumerator (sym_goName sym)) (ed_Members e) vs (ge_Members ge).
Proof.
  intros Hs Hv HR. unfold lowerEnum, symbol_of in HR. apply runs_bind in HR as (sy & s1 & Hsy & HR).
  2: { effects. apply effects_enum_members. }
  apply runs_ret in Hsy as (<- & -> & _). change (scope_symbols st (id :: parents) !! ed_Name e) with (sym_at st id (ed_Name e)) in HR.
  rewrite Hs in HR. apply runs_bind in HR as (ty & s2 & Hty & HR); [|effects; apply effects_enum_members].
  apply runs_bind in HR as (ms & s3 & Hms & HR); [|effects]. apply runs_update in HR as [-> _].
  eexists. split; [cbn; apply elem_of_app; right; by left|]. split; [done|]. eapply (enum_members_run _ _ _ _ _ no_consts); [|exact Hms]. done.
Qed.

(** The validator and the lowering number the enumerators alike: an enum of an
    accepted file has values by the validator's evaluation, and when the file is
    lowered without a diagnostic its Go enum has the same enumerators in order, those
    without a value of their own with the validator's value written in decimal. *)
Theorem enum_values_agree `{GoFrontEnd} (f : File) (opts : LowerOptions) (out : GoFile) (e : EnumDecl) :
  ValidateFile (Some f) = (Ok tt, []) → forallb has_names (file_Decls f) = true → apart f (lo_DependencyFiles opts) →
  Lower (Some f) opts = Ok (Some out, []) → DEnum e ∈ file_Decls f →
  ∃ vs ge, enum_values (qualifiedName (file_PackageName f) [] (ed_Name e)) (ed_Members e) ∅ 0 = Some vs ∧
    ge ∈ go_Enums out ∧ ge_GoName ge = exportName (ed_Name e) ∧
    Forall3 (enumerator (exportName (ed_Name e))) (ed_Members e) vs (ge_Members ge).
Proof.
  intros Hv Hn Hap (s & <- & HR)%Lower_run Hd.
  destruct (symbols_registered f (lo_DependencyFiles opts)) as (lo & hi & HF); [by apply accepted_distinct_file|done|].
  rewrite Forall_forall in HF. destruct (registered_inv _ _ _ _ _ _ _ (HF _ Hd)) as (sym & Hs & Hg & _).
  pose proof (symbols_root_qualified f (lo_DependencyFiles opts) _ _ Hs) as Hq. cbn [declName] in Hs, Hg, Hq.
  destruct (clean_validate_list _ _ _ _ (Hv : clean _ tt)) as [_ Hc]. specialize (Hc _ Hd). cbn [validateDecl] in Hc.
  unfold validateEnum in Hc. apply clean_then in Hc as [_ Hc]. destruct (accepted_enum_values _ _ _ _ _ _ Hc) as [vs Hvs].
  assert (Eq : qualifiedName (file_PackageName f) [] (ed_Name e) = sym_aidlName sym).
  { rewrite Hq. unfold qualifiedName, descriptorName. by case_bool_decide. }
  rewrite Eq in *. destruct (lower_all_at _ _ _ _ _ _ _ _ _ _ Hd HR) as (s1 & u1 & s2 & Hrun & _ & Hin).
  destruct (enum_run_members _ _ _ _ _ _ _ _ _ _ Hs Hvs Hrun) as (ge & Hge & Hgo & H3). exists vs, ge.
  rewrite Hg in *. split_and!; [done|by apply Hin|done|done].
Qed.

(** *** Names *)

Definition ident_char (c : Ascii.ascii) : bool := is_alnum c || bool_decide (c = Ascii.ascii_of_nat 95).

Lemma code_of_to_lower c : code_of (to_lower c) = if is_upper c then code_of c + 32 else code_of c.
Proof.
  unfold to_lower. destruct (is_upper c) eqn:E; [|done]. unfold is_upper, code_of in *.
  rewrite Ascii.nat_ascii_embedding; lia.
Qed.

Lemma code_of_to_upper c : code_of (to_upper c) = if is_lower c then code_of c - 32 else code_of c.
Proof.
  unfold to_upper. destruct (is_lower c) eqn:E; [|done]. unfold is_lower, code_of in *.
  rewrite Ascii.nat_ascii_embedding; lia.
Qed.

Lemma alnum_to_lower c : is_alnum c = true → is_lower (to_lower c) || is_digit (to_lower c) = true.
Proof.
  unfold is_alnum, is_lower, is_digit. rewrite code_of_to_lower. unfold is_upper, is_lower, is_digit.
  repeat case_match; lia.
Qed.

Lemma word_to_upper c : is_lower c || is_digit c = true → is_upper (to_upper c) || is_digit (to_upper c) = true.
Proof.
  unfold is_upper, is_lower, is_digit. rewrite code_of_to_upper. unfold is_upper, is_lower, is_digit. repeat case_match; lia.
Qed.

(** The words of an identifier: not empty, of lower case letters and digits. *)
Definition word (w : chars) : Prop := w ≠ [] ∧ Forall (λ c, is_lower c || is_digit c = true) w.

Lemma word_lower l : l ≠ [] → Forall (λ c, is_alnum c = true) l → word (to_lower <$> l).
Proof.
  intros Hl HF. split; [by destruct l|]. apply Forall_fmap. eapply Forall_impl; [exact HF|]. apply alnum_to_lower.
Qed.

Lemma fields_alnum cur s : Forall (λ c, is_alnum c = true) cur →
  Forall (λ l, l ≠ [] ∧ Forall (λ c, is_alnum c = true) l) (fields_func (λ c, negb (is_alnum c)) cur s).
Proof.
  revert cur. induction s as [|c s IH]; intros cur Hc; cbn [fields_func].
  { destruct cur; [constructor|]. by constructor. }
  destruct (is_alnum c) eqn:E; cbn [negb].
  - apply IH, Forall_app. split; [done|]. by constructor.
  - apply Forall_app. split; [destruct cur; [constructor|by constructor]|]. by apply IH.
Qed.

Lemma split_words_word cur s : Forall (λ c, is_alnum c = true) cur → Forall (λ c, is_alnum c = true) s → Forall word (split_words cur s).
Proof.
  intros Hcur Hs. revert cur Hcur. induction Hs as [|c s Hc Hs IH]; intros cur Hcur; cbn [split_words].
  { destruct cur; [constructor|]. constructor; [by apply word_lower|constructor]. }
  destruct (_ && _) eqn:E.
  - apply andb_true_iff in E as [_ E%bool_decide_eq_true]. constructor; [by apply word_lower|]. apply IH. by constructor.
  - apply IH, Forall_app. split; [done|]. by constructor.
Qed.

Lemma splitIdentifier_words name : Forall word (splitIdentifier name).
Proof.
  unfold splitIdentifier. apply Forall_bind. eapply Forall_impl; [apply fields_alnum; constructor|]. intros l [Hl HF].
  unfold compose. case_bool_decide; [constructor; [by apply word_lower|constructor]|]. by apply split_words_word.
Qed.

Lemma capitalized w : word w → Forall (λ c, is_alnum c = true) (capitalize w) ∧
  ∃ c rest, capitalize w = c :: rest ∧ is_upper c || is_digit c = true.
Proof.
  intros [Hw HF]. destruct HF as [|c rest Hc HF]; [done|]. cbn [capitalize].
  assert (Hal : ∀ c, is_lower c || is_digit c = true → is_alnum c = true) by (unfold is_alnum; intros ?; rewrite !orb_true_iff; tauto).
  assert (Hau : ∀ c, is_upper c || is_digit c = true → is_alnum c = true) by (unfold is_alnum; intros ?; rewrite !orb_true_iff; tauto).
  apply word_to_upper in Hc. split; [|eauto]. constructor; [by apply Hau|]. eapply Forall_impl; [exact HF|]. done.
Qed.

(** An exported name: an upper case letter, then letters and digits. *)
Lemma exportName_shape name : ∃ c rest, exportName name = String c rest ∧ is_upper c = true ∧
  Forall (λ c, is_alnum c = true) (chars_of rest).
Proof.
  unfold exportName. destruct (splitIdentifier name) as [|w ws] eqn:E; [exists (Ascii.ascii_of_nat 88), ""; by split_and!; [..|constructor]|].
  pose proof (splitIdentifier_words name) as HF. rewrite E in HF. clear E.
  assert (Hall : Forall (λ c, is_alnum c = true) (mjoin (capitalize <$> w :: ws))).
  { apply Forall_join, Forall_fmap. eapply Forall_impl; [exact HF|]. intros x Hx. by apply capitalized. }
  apply Forall_cons in HF as [Hw _]. destruct (capitalized w Hw) as (_ & c & rest & Ec & Hc).
  cbn [fmap list_fmap mjoin list_join] in *. rewrite Ec in *. cbn [app String.string_of_list_ascii] in *.
  rewrite bool_decide_eq_false_2 by done. apply Forall_cons in Hall as [Hca Hall]. cbn [starts_with_digit].
  destruct (is_digit c) eqn:Ed.
  - change ("X" +:+ ?s) with (String (Ascii.ascii_of_nat 88) s). eexists _, _. split_and!; [done|done|].
    cbn [String.list_ascii_of_string]. rewrite String.list_ascii_of_string_of_list_ascii. by constructor.
  - eexists _, _. split_and!; [done|by rewrite orb_false_r in Hc|]. by rewrite String.list_ascii_of_string_of_list_ascii.
Qed.

Fixpoint last_char (s : string) : option Ascii.ascii :=
  match s with EmptyString => None | String c EmptyString => Some c | String _ s => last_char s end.

Lemma last_char_app s c : last_char (s +:+ String c "") = Some c.
Proof. induction s as [|d [|e s] IH]; [done|done|]. exact IH. Qed.

Lemma chars_app s t : chars_of (s +:+ t) = chars_of s ++ chars_of t.
Proof. induction s as [|c s IH]; [done|]. cbn. by rewrite <- IH. Qed.

(** An argument's name is a Go identifier that neither Go nor the generated code uses:
    a lower case letter, letters, digits and underscores, no keyword and none of the
    generator's own names. *)
Lemma lowerName_usable name : ∃ c rest, lowerName name = String c rest ∧ is_lower c = true ∧
  Forall (λ c, ident_char c = true) (chars_of rest) ∧ (lowerName name ∉ keywords) ∧ isReservedGeneratedIdentifier (lowerName name) = false.
Proof.
  unfold lowerName. destruct (exportName_shape name) as (c & rest & -> & Hc & HF).
  assert (Hl : is_lower (to_lower c) = true) by (unfold is_lower; rewrite code_of_to_lower, Hc; unfold is_upper in Hc; lia).
  assert (HF' : Forall (λ c, ident_char c = true) (chars_of rest)).
  { eapply Forall_impl; [exact HF|]. unfold ident_char. intros x ->. done. }
  destruct (_ || _) eqn:E.
  - change (String (to_lower c) rest +:+ "_") with (String (to_lower c) (rest +:+ "_")).
    eexists _, _. split_and!; [done|done| |..].
    + rewrite chars_app. apply Forall_app. split; [done|]. by constructor.
    + intros Hin. assert (Hlast : Forall (λ s, last_char s ≠ Some (Ascii.ascii_of_nat 95)) keywords) by (repeat constructor; discriminate).
      rewrite Forall_forall in Hlast. apply (Hlast _ Hin). apply (last_char_app (String (to_lower c) rest)).
    + apply bool_decide_eq_false. intros Hin.
      assert (Hlast : Forall (λ s, last_char s ≠ Some (Ascii.ascii_of_nat 95))
        ["binder"; "context"; "fmt"; "errors"; "sync"; "ctx"; "req"; "resp"; "reply"; "parcel"; "registrar"; "err"; "ret"])
        by (repeat constructor; discriminate).
      rewrite Forall_forall in Hlast. apply (Hlast _ Hin). apply (last_char_app (String (to_lower c) rest)).
  - apply orb_false_iff in E as [E1%bool_decide_eq_false E2]. eexists _, _. by split_and!.
Qed.

(** ** Files *)

Definition no_options : LowerOptions := mkLowerOptions "" ∅ ∅ [].
Definition method (name transaction : string) : InterfaceMember :=
  MMethod (mkMethodDecl [] false (named "void") name [] transaction).

Definition shapes : File := mkFile "geo" []
  [DEnum (mkEnumDecl [] "Axis" [mkEnumMember "X" ""; mkEnumMember "Y" "5"; mkEnumMember "Z" ""]);
   DParcelable (mkParcelableDecl [] "Box" [] true [] [field (named "Size") "size"]
     [DParcelable (mkParcelableDecl [] "Size" [] true [] [field (named "int") "w"] [])]);
   DInterface (mkInterfaceDecl [] false "IBox" [method "get" ""; method "put" "7"; method "reset" "";
     MEnum (mkEnumDecl [] "Mode" [mkEnumMember "OFF" ""])])].

Lemma lower_emits_all_witness : ∃ out, @Lower decimal_front_end (Some shapes) no_options = Ok (Some out, []) ∧
  go_names out namedEnum = ["Axis"; "IBoxMode"] ∧ go_names out namedParcelable = ["Box"; "BoxSize"] ∧
  go_names out namedInterface = ["IBox"].
Proof.
  destruct (@Lower decimal_front_end (Some shapes) no_options) as [[[out|] diags]| |] eqn:E; try (vm_compute in E; discriminate).
  assert (diags = []) as -> by (vm_compute in E; injection E; intros; congruence).
  exists out. assert (Hap : apart shapes (lo_DependencyFiles no_options)) by by intros dep ?%not_elem_of_nil.
  pose proof (lower_emits_all (H := decimal_front_end) shapes no_options out ltac:(vm_compute; reflexivity) ltac:(vm_compute; reflexivity)
                Hap ltac:(vm_compute; reflexivity) E) as HE. clear E.
  split_and!; [reflexivity|rewrite HE; vm_compute; reflexivity..].
Defined.

(** Decimal literals and names. *)
Definition word_front_end : GoFrontEnd := {|
  ParseExpr s := inl (match parse_digits 10 0 (bytes_of s) with Some _ => BasicLit LitInt s | None => Ident s end);
  MakeFromLiteral _ s := match parse_digits 10 0 (bytes_of s) with Some z => CInt z | None => CUnknown end;
|}.

Definition based_members : list InterfaceMember :=
  [method "get" ""; MConst (mkConstDecl [] (named "int") "BASE" "10"); method "put" "BASE"; method "reset" ""].
Definition based : File := mkFile "geo" [] [DInterface (mkInterfaceDecl [] false "IBox" based_members)].

Lemma transaction_codes_witness : ∃ out gi, @Lower word_front_end (Some based) no_options = Ok (Some out, []) ∧
  gi ∈ go_Interfaces out ∧ gi_Descriptor gi = "geo.IBox" ∧ gm_TransactionCode <$> gi_Methods gi !! 1%nat = Some 10.
Proof.
  destruct (@Lower word_front_end (Some based) no_options) as [[[out|] diags]| |] eqn:E; try (vm_compute in E; discriminate).
  assert (diags = []) as -> by (vm_compute in E; injection E; intros; congruence).
  assert (Hap : apart based (lo_DependencyFiles no_options)) by by intros dep ?%not_elem_of_nil.
  destruct (transaction_codes (H := word_front_end) based no_options out [] false "IBox" based_members ltac:(vm_compute; reflexivity)
              ltac:(vm_compute; reflexivity) Hap E ltac:(left)) as (_ & gi & H1 & H2 & H3 & _).
  exists out, gi. clear E. split_and!; [reflexivity|exact H1|exact H2|].
  destruct (Forall2_lookup_l _ _ _ 1%nat _ H3 eq_refl) as ([name code ow ins ret outs] & -> & _ & H4).
  destruct H4 as (v & Hv & _ & Hc); [discriminate|]. vm_compute in Hv. injection Hv as <-. cbn in *. by rewrite Hc.
Defined.

Lemma enum_values_agree_witness : ∃ out ge, @Lower decimal_front_end (Some shapes) no_options = Ok (Some out, []) ∧
  ge ∈ go_Enums out ∧ gem_Value <$> ge_Members ge !! 2%nat = Some "6".
Proof.
  destruct (@Lower decimal_front_end (Some shapes) no_options) as [[[out|] diags]| |] eqn:E; try (vm_compute in E; discriminate).
  assert (diags = []) as -> by (vm_compute in E; injection E; intros; congruence).
  assert (Hap : apart shapes (lo_DependencyFiles no_options)) by by intros dep ?%not_elem_of_nil.
  destruct (enum_values_agree (H := decimal_front_end) shapes no_options out _ ltac:(vm_compute; reflexivity) ltac:(vm_compute; reflexivity)
                Hap E ltac:(left)) as (vs & ge & H1 & H2 & _ & H3).
  exists out, ge. clear E. split_and!; [reflexivity|exact H2|]. vm_compute in H1. injection H1 as <-.
  destruct (Forall3_lookup_l _ _ _ _ 2%nat _ H3 eq_refl) as (v & gm & Hv & Hgm & _ & _ & H4). injection Hv as <-.
  rewrite Hgm. cbn. by rewrite H4.
Defined.

(** ** Defects *)

(** An explicit code may repeat an earlier one: both methods get code 1. *)
Definition colliding : File := mkFile "" [] [DInterface (mkInterfaceDecl [] false "IFoo" [method "first" ""; method "second" "1"])].

Definition codes (r : result Empty_set (option GoFile * list LowerDiagnostic)) : list (list Z) :=
  match r with Ok (Some out, []) => (λ i, gm_TransactionCode <$> gi_Methods i) <$> go_Interfaces out | _ => [] end.

Lemma transaction_codes_collide : @ValidateFile decimal_front_end (Some colliding) = (Ok tt, []) ∧
  codes (@Lower decimal_front_end (Some colliding) no_options) = [[1; 1]].
Proof. split; vm_compute; reflexivity. Qed.

(** A declaration inside a parcelable of an interface is dropped without a word. *)
Definition deep : File := mkFile "" [] [DInterface (mkInterfaceDecl [] false "IFoo"
  [MParcelable (mkParcelableDecl [] "P" [] true [] [field (named "int") "x"] [DEnum (mkEnumDecl [] "E" [mkEnumMember "A" ""])])])].

Definition lowered_names (r : result Empty_set (option GoFile * list LowerDiagnostic)) : option (list (namedKind * list string)) :=
  match r with
  | Ok (Some out, []) => Some ((λ k, (k, go_names out k)) <$> [namedInterface; namedParcelable; namedEnum; namedUnion])
  | _ => None
  end.

Lemma nested_declaration_dropped : @ValidateFile decimal_front_end (Some deep) = (Ok tt, []) ∧
  lowered_names (@Lower decimal_front_end (Some deep) no_options) =
    Some [(namedInterface, ["IFoo"]); (namedParcelable, ["IFooP"]); (namedEnum, []); (namedUnion, [])] ∧
  of_kind namedEnum (file_Decls deep ≫= emitted "") = ["IFooPE"].
Proof. split_and!; vm_compute; reflexivity. Qed.

(** The package is put in front of a nested name at every level: a type two levels
    down is not found under its qualified name. *)
Definition three_levels : File := mkFile "p" []
  [DParcelable (mkParcelableDecl [] "A" [] true [] [field (named "A.B.C") "c"; field (named "A.B") "b"]
     [DParcelable (mkParcelableDecl [] "B" [] true [] [] [DParcelable (mkParcelableDecl [] "C" [] true [] [] [])])])].

Lemma nested_names_requalified : @ValidateFile decimal_front_end (Some three_levels) = (Ok tt, []) ∧
  result_map snd (@Lower decimal_front_end (Some three_levels) no_options) = Ok [UnresolvedType "A.B.C"].
Proof. split; vm_compute; reflexivity. Qed.

(** Rendered operators may join into another token of Go: 1 - -1 becomes 1--1. *)
Lemma rendered_operators_fuse `{GoFrontEnd} f st sc :
  renderValueExpr f st sc (BinaryExpr (BasicLit LitInt "1") SUB (UnaryExpr SUB (BasicLit LitInt "1"))) ∅ = inl "(1--1)".
Proof. reflexivity. Qed.

(** An array of lists is lowered to a list. *)
Lemma array_of_lists_flattened `{GoFrontEnd} f st cu sc s :
  lowerType f st cu sc (mkTypeRef [] "List" [named "int"] true None false) s =
  lowerType f st cu sc (mkTypeRef [] "List" [named "int"] false None false) s.
Proof. reflexivity. Qed.
