(* ===== verification/Codegen.v ===== *)
(** * Codegen: the analyses of the Go generator

    Models the part of src/internal/aidl/codegen/go.go that decides what is
    generated: validation of the model, type expressions, imports, the custom
    parcelables in use, and which values need a registrar for local handlers.
    GeneratedCode gives the meaning of the code that is written from it. *)

From stdpp Require Import base list numbers strings pretty gmap sorting.
From S2P Require Import Prelude Aidl AidlExpr AidlResolve GoText AidlNames AidlLower.

Open Scope Z_scope.

(** ** Names *)

Definition underscore : Ascii.ascii := Ascii.ascii_of_nat 95.
Definition to_lower_string (s : string) : string := of_chars (to_lower <$> chars_of s).

(** The [%q] verb on a text without characters to escape. *)
Definition in_quotes (s : string) : string := String double_quote (s +:+ String double_quote "").

(** A digit may not come first. *)
Fixpoint sanitize_from (first : bool) (s : chars) : chars :=
  match s with
  | [] => []
  | r :: s =>
      (if is_lower r || is_upper r || bool_decide (r = underscore) || negb first && is_digit r then r else underscore)
      :: sanitize_from false s
  end.
Definition sanitizeIdentifier (name : string) : string := of_chars (sanitize_from true (chars_of name)).

Definition lowerFirst (name : string) : string :=
  match name with EmptyString => "" | String c rest => String (to_lower c) rest end.

Definition uniqueLocalName (name suffix : string) : string :=
  let base := lowerFirst name in
  let base := if bool_decide (base = "") then "value" else base in
  let base := sanitizeIdentifier base in
  (if bool_decide (base = "") then "value" else base) +:+ suffix.

Definition argLocalName (name : string) : string := uniqueLocalName name "Arg".
Definition resultLocalName (name : string) : string := uniqueLocalName name "Value".

Definition sanitizeImportAliasName (name : string) : string :=
  let name := sanitizeIdentifier (to_lower_string name) in
  if bool_decide (name = "") then "aidl"
  else
    let name := if bool_decide (name ∈ keywords) then name +:+ "_aidl" else name in
    if starts_with_digit name then "aidl_" +:+ name else name.

Definition dots_to_underscores (s : string) : string :=
  of_chars ((λ c, if bool_decide (c = dot) then underscore else c) <$> chars_of s).

Definition aidlImportAlias (aidlPackage : string) : string :=
  let alias := sanitizeImportAliasName (dots_to_underscores aidlPackage) in
  if bool_decide (alias = "") then "aidl_generated" else "aidl_" +:+ alias.

(** The generator's own [customImportAlias]: unlike the one of the lowering, it does
    not avoid Go's keywords. *)
Definition customAlias (goPackage : string) : string :=
  let base :=
    match reverse (split_char slash (trim_slash goPackage)) with
    | [] => "customparcelable"
    | [part] => part
    | last :: prev :: _ => prev +:+ "_" +:+ last
    end in
  let alias := of_chars ((λ c, let r := to_lower c in if is_lower r || is_digit r then r else underscore) <$> chars_of base) in
  if bool_decide (alias = "") then "customparcelable"
  else if starts_with_digit alias then "aidl_" +:+ alias else alias.

Definition generatedPackageDir (aidlPackage : string) : string :=
  if bool_decide (aidlPackage = "") then ""
  else filepath_Join ((λ part, if bool_decide (part = "internal") then "internal_" else part) <$> split_char dot aidlPackage).

Definition outputPath (model : GoFile) : string :=
  let parent := filepath_Base (filepath_Dir (go_SourcePath model)) in
  let dir :=
    if negb (bool_decide (go_AIDLPackage model = "")) then generatedPackageDir (go_AIDLPackage model)
    else if negb (bool_decide (go_SourcePath model = "")) && negb (bool_decide (parent ∈ [""; "."; "/"])) then go_GoPackage model
    else "." in
  let base :=
    if bool_decide (go_SourcePath model = "") then "aidl_generated"
    else trim_suffix (filepath_Base (go_SourcePath model)) (filepath_Ext (go_SourcePath model)) in
  filepath_Join [dir; to_lower_string base +:+ "_aidl.go"].

(** The prefix of the helpers of a file. *)
Definition fileHelperPrefix (model : GoFile) : string :=
  let base :=
    if bool_decide (go_SourcePath model = "") then "aidlGenerated"
    else trim_suffix (filepath_Base (go_SourcePath model)) (filepath_Ext (go_SourcePath model)) in
  let prefix := lowerFirst (sanitizeIdentifier base) in
  if bool_decide (prefix = "") then "aidlGenerated" else if starts_with_digit prefix then "aidl" +:+ prefix else prefix.

Definition hasDefaultFields (fields : list GoField) : bool :=
  existsb (λ f, negb (bool_decide (gf_DefaultValue f = ""))) fields.

(** ** Types *)

Definition nonNullableType (t : GoType) : GoType :=
  mkGoType (ty_Kind t) (ty_AIDLName t) (ty_DeclPackage t) (ty_GoExpr t) false (ty_FixedLen t) (ty_Elem t) (ty_Key t)
    (ty_Value t) (ty_NamedGo t) (ty_IsList t) (ty_IsArray t) (ty_IsBuiltin t).

Definition isRawMapType (t : GoType) : bool := bool_decide (ty_Kind t = TypeMap) && bool_decide (ty_GoExpr t = "map[any]any").

Definition isValidMapKeyType (t : GoType) : bool :=
  bool_decide (ty_Kind t ∈ [TypeBool; TypeByte; TypeChar; TypeInt32; TypeInt64; TypeFloat32; TypeFloat64; TypeString; TypeEnum;
                            TypeBinder; TypeInterface]).

Definition methodUsesPointer (t : GoType) : bool := bool_decide (ty_Kind t ∈ [TypeParcelable; TypeUnion]).

Definition methodUsesTypedObjectEncoding (t : GoType) : bool :=
  bool_decide (ty_Kind t ∈ [TypeParcelable; TypeUnion; TypeParcelFileDescriptor]).

Record importSpec := mkImportSpec { is_Path : string; is_Alias : string }.
#[global] Instance importSpec_eq : EqDecision importSpec.
Proof. solve_decision. Defined.

Section Renderer.
Context (model : GoFile) (customParcelables : gmap string CustomParcelableConfig) (generatedImportRoot : string).

(** [indexModel]: a later declaration of the same name replaces an earlier one. *)
Definition parcelablesByName : gmap string GoParcelable :=
  fold_left (λ m p, <[gp_GoName p := p]> m) (go_Parcelables model) ∅.
Definition unionsByName : gmap string GoUnion := fold_left (λ m u, <[gu_GoName u := u]> m) (go_Unions model) ∅.

(** The configuration and the import alias of a custom parcelable. *)
Definition customParcelableConfig (t : GoType) : option (CustomParcelableConfig * string) :=
  if negb (bool_decide (ty_Kind t = TypeParcelable)) then None
  else
    match customParcelables !! ty_AIDLName t with
    | Some (mkCustomParcelableConfig _ pkg typ wr rd _ as cfg) =>
        if negb (bool_decide (pkg = "")) && negb (bool_decide (typ = "")) && negb (bool_decide (wr = "")) && negb (bool_decide (rd = ""))
        then Some (cfg, customAlias pkg)
        else match parcelablesByName !! ty_NamedGo t with
             | Some (mkGoParcelable _ _ _ _ (Some c) _ _) =>
                 if bool_decide (ty_NamedGo t = "") then None
                 else Some (mkCustomParcelableConfig (ty_AIDLName t) (cp_GoPackage c) (cp_GoType c) (cp_WriteFunc c) (cp_ReadFunc c)
                              (cp_Nullable c), cp_ImportAlias c)
             | _ => None
             end
    | None =>
        match parcelablesByName !! ty_NamedGo t with
        | Some (mkGoParcelable _ _ _ _ (Some c) _ _) =>
            if bool_decide (ty_NamedGo t = "") then None
            else Some (mkCustomParcelableConfig (ty_AIDLName t) (cp_GoPackage c) (cp_GoType c) (cp_WriteFunc c) (cp_ReadFunc c)
                         (cp_Nullable c), cp_ImportAlias c)
        | _ => None
        end
    end.

(** A type of another package. *)
Definition foreign (t : GoType) : bool :=
  negb (bool_decide (ty_DeclPackage t = "")) && negb (bool_decide (ty_DeclPackage t = go_AIDLPackage model)).

Definition generatedImportSpec (t : GoType) : option importSpec :=
  if foreign t && negb (bool_decide (generatedImportRoot = "")) then
    Some (mkImportSpec (trim_slash generatedImportRoot +:+ "/" +:+ generatedPackageDir (ty_DeclPackage t))
            (aidlImportAlias (ty_DeclPackage t)))
  else None.

Definition generatedQualifier (t : GoType) : string :=
  match generatedImportSpec t with Some spec => is_Alias spec +:+ "." | None => "" end.

Definition namedTypeExpr (t : GoType) : string :=
  if bool_decide (ty_NamedGo t = "") then ty_GoExpr t
  else
    let name := generatedQualifier t +:+ ty_NamedGo t in
    if ty_Nullable t && methodUsesPointer t then "*" +:+ name else name.

(** A nil type is the empty text. *)
Fixpoint typeExpr (t : GoType) : string :=
  let sub o := match o with Some e => typeExpr e | None => "" end in
  match ty_Kind t with
  | TypeSlice | TypeArray => "[]" +:+ sub (ty_Elem t)
  | TypeMap =>
      match ty_Key t, ty_Value t with
      | Some k, Some v => "map[" +:+ typeExpr k +:+ "]" +:+ typeExpr v
      | _, _ => "map[any]any"
      end
  | TypeParcelable =>
      match customParcelableConfig t with
      | Some (cfg, alias) => (if ty_Nullable t then "*" else "") +:+ alias +:+ "." +:+ cc_GoType cfg
      | None => namedTypeExpr t
      end
  | TypeEnum | TypeUnion | TypeInterface => namedTypeExpr t
  | _ => ty_GoExpr t
  end.

(** ** Validation *)

Definition verdict : Type := unit + string.
Definition pass : verdict := inl tt.
Definition then_ (a : verdict) (b : verdict) : verdict := match a with inl _ => b | inr e => inr e end.
Definition within_ (where_ : string) (a : verdict) : verdict := match a with inl _ => pass | inr e => inr (where_ +:+ ": " +:+ e) end.
Fixpoint check_all {A} (f : A → verdict) (l : list A) : verdict :=
  match l with [] => pass | x :: l => then_ (f x) (check_all f l) end.

Definition validateConstType (t : GoType) : verdict :=
  if bool_decide (ty_Kind t ∈ [TypeBool; TypeByte; TypeChar; TypeInt32; TypeInt64; TypeFloat32; TypeFloat64; TypeString; TypeEnum])
  then pass else inr ("unsupported const type " +:+ ty_GoExpr t).

Fixpoint validateTypeUsage (t : GoType) : verdict :=
  match ty_Kind t with
  | TypeVoid | TypeBool | TypeByte | TypeChar | TypeInt32 | TypeInt64 | TypeFloat32 | TypeFloat64 | TypeString | TypeParcelable
  | TypeEnum | TypeUnion | TypeFileDescriptor | TypeParcelFileDescriptor | TypeInterface | TypeBinder => pass
  | TypeSlice | TypeArray => match ty_Elem t with Some e => validateTypeUsage e | None => inr "nil type" end
  | TypeMap =>
      match ty_Key t, ty_Value t with
      | Some k, Some v =>
          if bool_decide (ty_GoExpr t = "map[any]any") then pass
          else if negb (isValidMapKeyType k) then inr ("unsupported map key type " +:+ in_quotes (typeExpr k))
          else then_ (validateTypeUsage k) (validateTypeUsage v)
      | _, _ => inr ("map type " +:+ in_quotes (ty_GoExpr t) +:+ " is missing key/value type")
      end
  | TypeExternal => inr ("external type " +:+ in_quotes (ty_AIDLName t) +:+ " is not implemented yet")
  | TypeUnsupported => inr ("unsupported type " +:+ in_quotes (ty_GoExpr t))
  end.

(** The types of the values a method carries: the result, the inputs, the outputs. *)
Definition method_types (m : GoMethod) : list GoType :=
  (match gm_Return m with Some f => [gf_Type f] | None => [] end) ++ (gf_Type <$> gm_Inputs m) ++ (gf_Type <$> gm_Outputs m).

Fixpoint check_import (t : GoType) : bool :=
  let sub o := match o with Some e => check_import e | None => false end in
  match ty_Kind t with
  | TypeSlice | TypeArray => sub (ty_Elem t)
  | TypeMap => sub (ty_Key t) || sub (ty_Value t)
  | TypeParcelable | TypeEnum | TypeUnion | TypeInterface =>
      match customParcelableConfig t with Some _ => false | None => foreign t end
  | _ => false
  end.

Definition requiresGeneratedImports : bool :=
  existsb (λ p, existsb (λ f, check_import (gf_Type f)) (gp_Fields p)) (go_Parcelables model) ||
  existsb (λ u, existsb (λ f, check_import (gf_Type f)) (gu_Fields u)) (go_Unions model) ||
  existsb (λ i, existsb (λ c, check_import (gc_Type c)) (gi_Consts i) ||
                existsb (λ m, existsb check_import (method_types m)) (gi_Methods i)) (go_Interfaces model).

Definition validate (typeMappingsPath : string) : verdict :=
  then_ (check_all (λ p,
    if negb (gp_Structured p) then pass
    else then_ (check_all (λ c, within_ ("parcelable " +:+ gp_GoName p +:+ " const " +:+ gc_GoName c) (validateConstType (gc_Type c))) (gp_Consts p))
           (check_all (λ f, within_ ("parcelable " +:+ gp_GoName p +:+ " field " +:+ gf_GoName f) (validateTypeUsage (gf_Type f))) (gp_Fields p)))
    (go_Parcelables model))
  (then_ (check_all (λ u,
    check_all (λ f, within_ ("union " +:+ gu_GoName u +:+ " field " +:+ gf_GoName f) (validateTypeUsage (gf_Type f))) (gu_Fields u))
    (go_Unions model))
  (then_ (check_all (λ i,
    if gi_Stable i && ((gi_Version i <=? 0) || bool_decide (gi_Hash i = "")) then
      inr ("stable interface " +:+ gi_AIDLName i +:+ " missing version/hash mapping" +:+
           (if bool_decide (typeMappingsPath = "") then "" else " in " +:+ typeMappingsPath))
    else
      then_ (check_all (λ c, within_ ("interface " +:+ gi_GoName i +:+ " const " +:+ gc_GoName c) (validateConstType (gc_Type c))) (gi_Consts i))
        (check_all (λ m,
           let where_ what := "method " +:+ gi_GoName i +:+ "." +:+ gm_GoName m +:+ " " +:+ what in
           then_ (match gm_Return m with Some f => within_ (where_ "return") (validateTypeUsage (gf_Type f)) | None => pass end)
             (then_ (check_all (λ a, within_ (where_ ("input " +:+ gf_GoName a)) (validateTypeUsage (gf_Type a))) (gm_Inputs m))
                (check_all (λ a, within_ (where_ ("output " +:+ gf_GoName a)) (validateTypeUsage (gf_Type a))) (gm_Outputs m))))
           (gi_Methods i)))
    (go_Interfaces model))
  (if bool_decide (generatedImportRoot = "") && requiresGeneratedImports
   then inr "cross-package AIDL references require generated import root" else pass))).

(** ** Which values need a registrar

    [seen] is the set of the declarations on the path to [t] ([delete] runs when a
    call returns); [fuel] bounds the declarations entered, one per declaration of
    the file at most. *)

Definition parcelable_key (name : string) : string := "parcelable:" +:+ name.
Definition union_key (name : string) : string := "union:" +:+ name.

Fixpoint typeNeedsRegistrarSeen (fuel : nat) (seen : gset string) : GoType → bool :=
  let enter key (fields : option (list GoField)) :=
    if bool_decide (key ∈ seen) then false
    else match fields, fuel with
         | Some fields, S fuel => existsb (λ f, typeNeedsRegistrarSeen fuel ({[key]} ∪ seen) (gf_Type f)) fields
         | _, _ => false
         end in
  fix go (t : GoType) : bool :=
    let sub o := match o with Some e => go e | None => false end in
    match ty_Kind t with
    | TypeInterface => true
    | TypeSlice | TypeArray => sub (ty_Elem t)
    | TypeMap => sub (ty_Key t) || sub (ty_Value t)
    | TypeParcelable =>
        match customParcelableConfig t with
        | Some _ => false
        | None =>
            if foreign t then true
            else if bool_decide (ty_NamedGo t = "") then false
            else enter (parcelable_key (ty_NamedGo t)) (gp_Fields <$> parcelablesByName !! ty_NamedGo t)
        end
    | TypeUnion =>
        if foreign t then true
        else if bool_decide (ty_NamedGo t = "") then false
        else enter (union_key (ty_NamedGo t)) (gu_Fields <$> unionsByName !! ty_NamedGo t)
    | _ => false
    end.

Definition decl_count : nat := size parcelablesByName + size unionsByName.

Definition typeNeedsRegistrar (t : GoType) : bool := typeNeedsRegistrarSeen decl_count ∅ t.
Definition fieldsNeedRegistrar (fields : list GoField) : bool := existsb (λ f, typeNeedsRegistrar (gf_Type f)) fields.

(** ** Imports *)

Definition hasStableInterfaces : bool := existsb gi_Stable (go_Interfaces model).

Definition needsFmtImport : bool :=
  negb (bool_decide (go_Interfaces model = [])) || negb (bool_decide (go_Unions model = [])) ||
  existsb (λ p, match gp_Custom p with None => true | Some _ => false end) (go_Parcelables model).

Fixpoint addTypeImports (t : GoType) : list importSpec :=
  let sub o := match o with Some e => addTypeImports e | None => [] end in
  let generated := match generatedImportSpec t with Some spec => [spec] | None => [] end in
  match ty_Kind t with
  | TypeSlice | TypeArray => sub (ty_Elem t)
  | TypeMap => sub (ty_Key t) ++ sub (ty_Value t)
  | TypeParcelable =>
      match customParcelables !! ty_AIDLName t with
      | Some cfg => if bool_decide (cc_GoPackage cfg = "") then generated
                    else [mkImportSpec (cc_GoPackage cfg) (customAlias (cc_GoPackage cfg))]
      | None => generated
      end
  | TypeEnum | TypeUnion | TypeInterface => generated
  | _ => []
  end.

(** The order of the import block: by path, then by alias. *)
Definition import_leb (a b : importSpec) : bool :=
  if bool_decide (is_Path a = is_Path b) then negb (String.ltb (is_Alias b) (is_Alias a))
  else String.ltb (is_Path a) (is_Path b).

Definition imports (runtimeImportPath : string) : list importSpec :=
  let std b path := if b : bool then [mkImportSpec path ""] else [] in
  merge_sort import_leb (remove_dups (
    mkImportSpec runtimeImportPath "" ::
    std (negb (bool_decide (go_Interfaces model = []))) "context" ++ std needsFmtImport "fmt" ++
    std hasStableInterfaces "errors" ++ std hasStableInterfaces "sync" ++
    (p ← go_Parcelables model; match gp_Custom p with Some c => [mkImportSpec (cp_GoPackage c) (cp_ImportAlias c)] | None => [] end) ++
    (p ← go_Parcelables model; f ← gp_Fields p; addTypeImports (gf_Type f)) ++
    (u ← go_Unions model; f ← gu_Fields u; addTypeImports (gf_Type f)) ++
    (i ← go_Interfaces model; m ← gi_Methods i; t ← method_types m; addTypeImports t))).
End Renderer.
