(* ===== verification/CodegenExpr.v ===== *)
(** * CodegenExpr: the code that the Go generator writes

    The expressions and functions printed by src/internal/aidl/codegen/go.go, as
    syntax: [wexpr] is a generated expression that writes a value to a Parcel and
    returns its error, [rexpr] one that reads a value.  [writeExpr], [readExpr] and
    the functions around them choose them from a type of the model as the source
    does; [gdecl], [gproxy] and [gcase] are what is generated for a declaration, for
    a method of the client and for its case in the server's switch.  GeneratedCode
    gives the syntax its meaning on Parcels. *)

From stdpp Require Import base list numbers strings pretty gmap.
From S2P Require Import Prelude Aidl AidlExpr AidlResolve GoText AidlNames AidlLower Codegen.

Open Scope Z_scope.

(** ** Syntax *)

(** Each constructor is one shape of printed expression; strings are the names
    printed in it: the qualifier of another package ([""] or [alias.]), the name in
    [write<name>ToParcel], the registrar expression. *)
Inductive wexpr :=
| WBool | WByte | WChar | WInt32 | WInt64 | WFloat32 | WFloat64 | WString | WNullableString
| WBinder | WFileDescriptor | WParcelFileDescriptor | WNullableParcelFileDescriptor
| WCustom (nullable : bool) (alias fn : string)
| WNamed (qualifier : string) (nullable : bool) (name : string) (registrar : option string)
| WEnum (qualifier name : string)
| WInterface (qualifier name registrar : string)
| WRawMap | WMap (key value : wexpr) | WSlice (elem : wexpr) | WFixedSlice (n : Z) (elem : wexpr)
| WPresent (w : wexpr)
| WNonNil (what : string) (w : wexpr)
| WUnsupported (ty : string)
| WNilType.

Inductive rexpr :=
| RBool | RByte | RChar | RInt32 | RInt64 | RFloat32 | RFloat64 | RString | RNullableString
| RBinder | RFileDescriptor | RRequiredParcelFileDescriptor | RNullableParcelFileDescriptor
| RCustom (nullable : bool) (alias fn : string)
| RNamed (qualifier : string) (nullable : bool) (name : string)
| REnum (qualifier name : string)
| RInterface (qualifier name : string)
| RRawMap | RMap (key value : rexpr) | RSlice (elem : rexpr) | RFixedSlice (n : Z) (elem : rexpr)
| RPresent (zero : GoType) (r : rexpr)
| RPointer (r : rexpr)
| RUnsupported (ty : string)
| RNilType.

(** The functions generated for a declaration, under its name. *)
Inductive gdecl :=
| GEnum (write : wexpr) (read : rexpr)
| GStruct (needsRegistrar : bool) (fields : list GoField) (writes : list wexpr) (reads : list rexpr)
| GOpaque
| GCustom (alias write read : string)
| GUnion (needsRegistrar : bool) (fields : list GoField) (writes : list wexpr) (reads : list rexpr)
| GInterface (descriptor : string).

(** A method of the client: whether it declares the variable [registrar], its
    arguments, and how its reply is read. *)
Record gproxy := mkProxy {
  px_Code : Z; px_Oneway : bool; px_DeclaresRegistrar : bool; px_Args : list wexpr;
  px_Return : option rexpr; px_Outputs : list rexpr;
}.

(** A case of the handler's switch. *)
Record gcase := mkCase {
  cs_Method : string; cs_Code : Z; cs_Oneway : bool; cs_Args : list rexpr;
  cs_Return : option wexpr; cs_Outputs : list wexpr;
}.

Definition registrarExpr (name : string) : string := if bool_decide (name = "") then "nil" else name.

Section Renderer.
Context (model : GoFile) (customParcelables : gmap string CustomParcelableConfig) (generatedImportRoot : string).

#[local] Abbreviation customParcelableConfig := (customParcelableConfig model customParcelables).
#[local] Abbreviation generatedQualifier := (generatedQualifier model generatedImportRoot).
#[local] Abbreviation typeExpr := (typeExpr model customParcelables generatedImportRoot).
#[local] Abbreviation typeNeedsRegistrar := (typeNeedsRegistrar model customParcelables).
#[local] Abbreviation fieldsNeedRegistrar := (fieldsNeedRegistrar model customParcelables).

(** ** Expressions *)

(** A non-nullable object inside another value is preceded by the word 1. *)
Definition typed_object (t : GoType) (w : wexpr) : wexpr :=
  if methodUsesTypedObjectEncoding t && negb (ty_Nullable t) then WPresent w else w.
Definition typed_object_read (t : GoType) (r : rexpr) : rexpr :=
  if methodUsesTypedObjectEncoding t && negb (ty_Nullable t) then RPresent t r else r.

Definition writeNamed (t : GoType) (registrar : string) : wexpr :=
  let q := generatedQualifier t in
  if negb (bool_decide (q = "")) then
    WNamed q (ty_Nullable t) (ty_NamedGo t) (if bool_decide (registrar = "") then None else Some (registrarExpr registrar))
  else if typeNeedsRegistrar t then WNamed "" (ty_Nullable t) (ty_NamedGo t) (Some (registrarExpr registrar))
  else WNamed "" (ty_Nullable t) (ty_NamedGo t) None.

(** [typ] is dereferenced, so that a nil element type makes the generator panic:
    [WNilType]. *)
Fixpoint writeExpr (registrar : string) (t : GoType) : wexpr :=
  let context o := match o with Some e => typed_object e (writeExpr registrar e) | None => WNilType end in
  match ty_Kind t with
  | TypeBool => WBool
  | TypeByte => WByte
  | TypeChar => WChar
  | TypeInt32 => WInt32
  | TypeInt64 => WInt64
  | TypeFloat32 => WFloat32
  | TypeFloat64 => WFloat64
  | TypeString => if ty_Nullable t then WNullableString else WString
  | TypeParcelable =>
      match customParcelableConfig t with
      | Some (cfg, alias) => WCustom (ty_Nullable t) alias (cc_WriteFunc cfg)
      | None => writeNamed t registrar
      end
  | TypeEnum => WEnum (generatedQualifier t) (ty_NamedGo t)
  | TypeUnion => writeNamed t registrar
  | TypeBinder => WBinder
  | TypeFileDescriptor => WFileDescriptor
  | TypeParcelFileDescriptor => if ty_Nullable t then WNullableParcelFileDescriptor else WParcelFileDescriptor
  | TypeInterface => WInterface (generatedQualifier t) (ty_NamedGo t) (registrarExpr registrar)
  | TypeMap => if isRawMapType t then WRawMap else WMap (context (ty_Key t)) (context (ty_Value t))
  | TypeSlice => WSlice (context (ty_Elem t))
  | TypeArray => WFixedSlice (ty_FixedLen t) (context (ty_Elem t))
  | TypeVoid | TypeExternal | TypeUnsupported => WUnsupported (typeExpr t)
  end.

Definition contextWriteExpr (registrar : string) (t : GoType) : wexpr := typed_object t (writeExpr registrar t).

Fixpoint readExpr (t : GoType) : rexpr :=
  let context o := match o with Some e => typed_object_read e (readExpr e) | None => RNilType end in
  match ty_Kind t with
  | TypeBool => RBool
  | TypeByte => RByte
  | TypeChar => RChar
  | TypeInt32 => RInt32
  | TypeInt64 => RInt64
  | TypeFloat32 => RFloat32
  | TypeFloat64 => RFloat64
  | TypeString => if ty_Nullable t then RNullableString else RString
  | TypeParcelable =>
      match customParcelableConfig t with
      | Some (cfg, alias) => RCustom (ty_Nullable t) alias (cc_ReadFunc cfg)
      | None => RNamed (generatedQualifier t) (ty_Nullable t) (ty_NamedGo t)
      end
  | TypeEnum => REnum (generatedQualifier t) (ty_NamedGo t)
  | TypeUnion => RNamed (generatedQualifier t) (ty_Nullable t) (ty_NamedGo t)
  | TypeBinder => RBinder
  | TypeFileDescriptor => RFileDescriptor
  | TypeParcelFileDescriptor => if ty_Nullable t then RNullableParcelFileDescriptor else RRequiredParcelFileDescriptor
  | TypeInterface => RInterface (generatedQualifier t) (ty_NamedGo t)
  | TypeMap => if isRawMapType t then RRawMap else RMap (context (ty_Key t)) (context (ty_Value t))
  | TypeSlice => RSlice (context (ty_Elem t))
  | TypeArray => RFixedSlice (ty_FixedLen t) (context (ty_Elem t))
  | TypeVoid | TypeExternal | TypeUnsupported => RUnsupported (typeExpr t)
  end.

Definition contextReadExpr (t : GoType) : rexpr := typed_object_read t (readExpr t).

(** A parcelable or union of a method is a pointer; one that must not be nil is
    checked and dereferenced. *)
Definition methodArgWriteExpr (registrar : string) (arg : GoField) : wexpr :=
  let t := gf_Type arg in
  if methodUsesPointer t && negb (ty_Nullable t)
  then WNonNil ("nil non-nullable argument " +:+ gf_GoName arg) (contextWriteExpr registrar t)
  else contextWriteExpr registrar t.

Definition methodArgReadExpr (arg : GoField) : rexpr :=
  let t := gf_Type arg in
  if methodUsesPointer t && negb (ty_Nullable t) then RPointer (readExpr t) else contextReadExpr t.

Definition methodValueWriteExpr (registrar : string) (t : GoType) : wexpr :=
  if methodUsesPointer t && negb (ty_Nullable t)
  then WNonNil "nil non-nullable return value" (contextWriteExpr registrar t)
  else contextWriteExpr registrar t.

Definition methodValueReadExpr (t : GoType) : rexpr :=
  if methodUsesPointer t then
    if ty_Nullable t then contextReadExpr t else RPointer (readExpr (nonNullableType t))
  else contextReadExpr t.

(** ** Declarations *)

Definition enumTypeAsBacking (enum : GoEnum) : GoType :=
  let u := ge_Underlying enum in
  mkGoType (ty_Kind u) (ty_AIDLName u) "" (ty_GoExpr u) false 0 None None None "" false false (ty_IsBuiltin u).

Definition renderEnum (enum : GoEnum) : gdecl :=
  GEnum (writeExpr "" (enumTypeAsBacking enum)) (readExpr (enumTypeAsBacking enum)).

Definition field_writes (needsRegistrar : bool) (fields : list GoField) : list wexpr :=
  (λ f, contextWriteExpr (if needsRegistrar then "registrar" else "") (gf_Type f)) <$> fields.
Definition field_reads (fields : list GoField) : list rexpr := (λ f, contextReadExpr (gf_Type f)) <$> fields.

Definition renderParcelable (p : GoParcelable) : gdecl :=
  if negb (gp_Structured p) then
    match gp_Custom p with
    | Some c => GCustom (cp_ImportAlias c) (cp_WriteFunc c) (cp_ReadFunc c)
    | None => GOpaque
    end
  else
    let needsRegistrar := fieldsNeedRegistrar (gp_Fields p) in
    GStruct needsRegistrar (gp_Fields p) (field_writes needsRegistrar (gp_Fields p)) (field_reads (gp_Fields p)).

Definition renderUnion (u : GoUnion) : gdecl :=
  let needsRegistrar := fieldsNeedRegistrar (gu_Fields u) in
  GUnion needsRegistrar (gu_Fields u) (field_writes needsRegistrar (gu_Fields u)) (field_reads (gu_Fields u)).

(** The declarations of the generated file, in its order. *)
Definition render : list (string * gdecl) :=
  ((λ e, (ge_GoName e, renderEnum e)) <$> go_Enums model) ++
  ((λ p, (gp_GoName p, renderParcelable p)) <$> go_Parcelables model) ++
  ((λ u, (gu_GoName u, renderUnion u)) <$> go_Unions model) ++
  ((λ i, (gi_GoName i, GInterface (gi_Descriptor i))) <$> go_Interfaces model).

(** ** Methods *)

Definition renderProxyMethod (m : GoMethod) : gproxy :=
  mkProxy (gm_TransactionCode m) (gm_Oneway m) (fieldsNeedRegistrar (gm_Inputs m))
    (methodArgWriteExpr "registrar" <$> gm_Inputs m)
    (if gm_Oneway m then None else (λ f, methodValueReadExpr (gf_Type f)) <$> gm_Return m)
    (if gm_Oneway m then [] else (λ f, methodValueReadExpr (gf_Type f)) <$> gm_Outputs m).

Definition renderHandlerCase (m : GoMethod) : gcase :=
  mkCase (gm_GoName m) (gm_TransactionCode m) (gm_Oneway m) (methodArgReadExpr <$> gm_Inputs m)
    (if gm_Oneway m then None else (λ f, methodValueWriteExpr "h.registrar" (gf_Type f)) <$> gm_Return m)
    (if gm_Oneway m then [] else (λ f, methodValueWriteExpr "h.registrar" (gf_Type f)) <$> gm_Outputs m).
End Renderer.

(** The output file: its path and its declarations.  Formatting the text (go/format) is
    left out. *)
Definition RenderGo (model : option GoFile) customParcelables generatedImportRoot typeMappingsPath
  : string * list (string * gdecl) + string :=
  match model with
  | None => inr "nil model"
  | Some model =>
      if negb (bool_decide (go_ExternalRefs model = []))
      then inr ("unresolved external references: " +:+ Join (go_ExternalRefs model) ", ")
      else match validate model customParcelables generatedImportRoot typeMappingsPath with
           | inr e => inr e
           | inl _ => inl (outputPath model, render model customParcelables generatedImportRoot)
           end
  end.

(** Whether an expression mentions the variable [reg]. *)
Fixpoint mentions (reg : string) (w : wexpr) : bool :=
  match w with
  | WNamed _ _ _ (Some e) => bool_decide (e = reg)
  | WInterface _ _ e => bool_decide (e = reg)
  | WMap k v => mentions reg k || mentions reg v
  | WSlice e | WFixedSlice _ e | WPresent e | WNonNil _ e => mentions reg e
  | _ => false
  end.
