(* ===== verification/CodegenLower.v ===== *)
(** * CodegenLower: what the lowering hands to the generator

    The generator takes a map whose Go type reads map[any]any for a map without type
    arguments.  The types that the lowering of a file builds bear this out: only such
    a map is spelled so, because no Go name it gives is "any". *)

From stdpp Require Import base list numbers strings pretty gmap.
From S2P Require Import Prelude Aidl AidlExpr AidlResolve AidlResolveProps GoText AidlNames AidlLower AidlLowerProps Codegen.

Open Scope Z_scope.

(** A map without type arguments has the key and value types the lowering gives it. *)
Fixpoint lowered_maps (t : GoType) : Prop :=
  let sub o := match o with Some e => lowered_maps e | None => True end in
  match ty_Kind t with
  | TypeSlice | TypeArray => sub (ty_Elem t)
  | TypeMap => if isRawMapType t then ty_Key t = Some any_type ∧ ty_Value t = Some any_type
               else sub (ty_Key t) ∧ sub (ty_Value t)
  | _ => True
  end.

(** ** Go names *)

(** A name that begins with an upper case letter. *)
Definition capital (s : string) : Prop := ∃ c rest, s = String c rest ∧ is_upper c = true.

Lemma capital_app s t : capital s → capital (s +:+ t).
Proof. intros (c & rest & -> & H). by exists c, (rest +:+ t). Qed.

Lemma capital_exportName n : capital (exportName n).
Proof. destruct (exportName_shape n) as (c & rest & -> & H & _). by exists c, rest. Qed.

Lemma capital_not_any s : capital s → s ≠ "any".
Proof. by intros (c & rest & -> & H) [= -> _]. Qed.

(** A symbol with such a Go name, and a table of them. *)
Definition named_well (sym : namedSymbol) : Prop := capital (sym_goName sym).
Definition table_ok (st : symtab) : Prop :=
  map_Forall (λ _, map_Forall (λ _, named_well)) (st_scopes st) ∧ map_Forall (λ _, named_well) (st_byQName st).

Section Symbols.
Context (main pkg : string).

Lemma scope_ok (scopes : gmap nat (gmap string namedSymbol)) id : map_Forall (λ _, map_Forall (λ _, named_well)) scopes →
  map_Forall (λ _, named_well) (default ∅ (scopes !! id)).
Proof. intros H. destruct (scopes !! id) as [m|] eqn:E; [exact (H _ _ E)|apply map_Forall_empty]. Qed.

Lemma registerDecl_ok cur owner name kind d sc st : table_ok st → (∀ o, owner = Some o → named_well o) →
  let r := registerDecl main pkg cur owner name kind d sc st in named_well r.1 ∧ table_ok r.2.
Proof.
  intros [Hs Hq] Ho. unfold registerDecl. cbv zeta.
  match goal with |- context [mkNamedSymbol ?k ?q ?g ?sc ?d ?p] => set (sym := mkNamedSymbol k q g sc d p) end.
  assert (Hsym : named_well sym).
  { unfold named_well, sym. cbn. destruct owner as [o|]; [apply capital_app, Ho, eq_refl|apply capital_exportName]. }
  cbn [fst snd]. split; [done|]. split; cbn [st_scopes st_byQName].
  - destruct cur as [|id parents]; [done|]. case_match; [|done].
    apply map_Forall_insert_2; [|done]. apply map_Forall_insert_2; [done|by apply scope_ok].
  - case_bool_decide; repeat apply map_Forall_insert_2; done.
Qed.

Lemma collect_member_ok cur owner m st : named_well owner → table_ok st → table_ok (collectNestedDecl main pkg cur owner m st).
Proof.
  intros Ho Hst. destruct m as [| |[]| |]; cbn [collectNestedDecl]; try done; apply registerDecl_ok; by try intros ? [= <-].
Qed.

Lemma collectDecl_ok d : ∀ cur owner st, (∀ o, owner = Some o → named_well o) → table_ok st →
  table_ok (collectDecl main pkg cur owner d st).
Proof.
  assert (Hnew : ∀ cur st, table_ok st → table_ok (new_scope cur st).2).
  { intros cur st [Hs Hq]. split; [|done]. apply map_Forall_insert_2; [apply map_Forall_empty|done]. }
  induction d as [e|u|a n tp str cs fs ds IH|a o n ms _] using decl_nested_ind; intros cur owner st Ho Hst;
    [by apply registerDecl_ok..| |].
  - destruct (decide (ds = [])) as [->|Hds]; [by apply registerDecl_ok|].
    destruct (collect_parcelable_unfold main pkg a n tp str cs fs ds cur owner st Hds) as (st1 & sym & st2 & E1 & E2 & E3).
    apply (Hnew cur) in Hst. rewrite E1 in Hst.
    pose proof (registerDecl_ok cur owner n namedParcelable (DParcelable (mkParcelableDecl a n tp str cs fs ds))
                  (Some (st_next st :: cur)) st1 Hst Ho) as [Hsym Hst2].
    rewrite E2 in Hsym, Hst2. cbn [fst snd] in Hsym, Hst2. rewrite E3. clear E1 E2 E3 Hst Hds. revert st2 Hst2.
    induction IH as [|d l Hd _ IHl]; intros st2 Hst2; [done|]. cbn [collect_all].
    apply IHl, Hd; [|done]. by intros ? [= <-].
  - cbn [collectDecl]. destruct (new_scope cur st) as [sc st1] eqn:E1.
    assert (Hst1 : table_ok st1) by (apply (Hnew cur) in Hst; by rewrite E1 in Hst).
    destruct (registerDecl _ _ _ _ _ _ _ _ _) as [sym st2] eqn:E2.
    destruct (registerDecl_ok cur owner n namedInterface (DInterface (mkInterfaceDecl a o n ms)) (Some sc) st1 Hst1 Ho)
      as [Hsym Hst2]. rewrite E2 in Hsym, Hst2. cbn in Hsym, Hst2. clear E1 E2 Hst Hst1.
    revert st2 Hst2. induction ms as [|m ms IHm]; intros st2 Hst2; [done|]. by apply IHm, collect_member_ok.
Qed.
End Symbols.

(** Every symbol of a file and of its dependencies. *)
Lemma symbols_ok f deps : table_ok (symbols f deps).
Proof.
  assert (Htop : ∀ g st, table_ok st → table_ok (collectTopLevel (file_PackageName f) g st)).
  { intros [g|] st Hst; [|done]. cbn [collectTopLevel]. revert st Hst.
    induction (file_Decls g) as [|d ds IH]; intros st Hst; [done|]. by apply IH, collectDecl_ok. }
  unfold symbols. assert (H0 : table_ok (collectTopLevel (file_PackageName f) (Some f) empty_symtab)).
  { apply Htop. split; apply map_Forall_empty. }
  revert H0. generalize (collectTopLevel (file_PackageName f) (Some f) empty_symtab).
  induction deps as [|dep deps IH]; intros st Hst; [done|]. by apply IH, Htop.
Qed.

Lemma lookup_scopes_ok st sc name sym : table_ok st → lookup_scopes st sc name = Some sym → named_well sym.
Proof.
  intros [Hs _]. induction sc as [|id sc IH]; [done|]. cbn. destruct (default ∅ _ !! name) as [s|] eqn:E; [|exact IH].
  intros [= <-]. exact (scope_ok _ id Hs _ _ E).
Qed.

Lemma lookup_imports_ok st imports name sym : table_ok st → lookup_imports st imports name = Some sym → named_well sym.
Proof.
  intros [_ Hq]. induction imports as [|imp imports IH]; [done|]. cbn. case_match; [exact IH|].
  destruct (st_byQName st !! imp_Path imp) as [s|] eqn:E; [|exact IH]. intros [= <-]. exact (Hq _ _ E).
Qed.

Lemma lookup_symbol_ok f st sc name sym : table_ok st → lookup_symbol f st sc name = Some sym → named_well sym.
Proof.
  intros Hst. pose proof Hst as [_ Hq].
  assert (Hpkg : ∀ s, lookup_in_package f st name = Some s → named_well s).
  { intros s. unfold lookup_in_package. case_bool_decide; [done|]. apply Hq. }
  assert (Hby : ∀ n s, st_byQName st !! n = Some s → named_well s) by (intros ? ?; apply Hq).
  unfold lookup_symbol. case_match.
  - destruct (st_byQName st !! name) as [s|] eqn:E; [intros [= <-]; by eapply Hby|apply Hpkg].
  - destruct (importAliases _ !! name) as [p|]; cbn [mbind option_bind].
    1: destruct (st_byQName st !! p) as [s|] eqn:E; [intros [= <-]; by eapply Hby|].
    all: destruct (lookup_scopes st sc name) as [s2|] eqn:E2; [intros [= <-]; by eapply lookup_scopes_ok|];
      destruct (lookup_in_package f st name) as [s3|] eqn:E3; [intros [= <-]; by apply Hpkg|by apply lookup_imports_ok].
Qed.

(** ** Types *)

(** A type the lowering may build. *)
Definition proper (t : GoType) : Prop := lowered_maps t ∧ ty_GoExpr t ≠ "any".

(** What a run returns. *)
Definition returns {A} (m : LM A) (Q : A → Prop) : Prop := ∀ s a s', m s = (Ok a, s') → Q a.

Lemma returns_ret {A} (a : A) (Q : A → Prop) : Q a → returns (mret a) Q.
Proof. by intros HQ s b s' [= <- _]. Qed.

Lemma returns_bind {A B} (m : LM A) (k : A → LM B) P Q : returns m P → (∀ a, P a → returns (k a) Q) → returns (m ≫= k) Q.
Proof.
  intros Hm Hk s b s'. unfold mbind, ST_bind. destruct (m s) as [[a|[]|y] s1] eqn:E; [|done].
  intros Ek. exact (Hk _ (Hm _ _ _ E) _ _ _ Ek).
Qed.

Lemma returns_any {A B} (m : LM A) (k : A → LM B) Q : (∀ a, returns (k a) Q) → returns (m ≫= k) Q.
Proof. intros Hk. apply (returns_bind _ _ (λ _, True)); [done|]. intros a _. apply Hk. Qed.

(** The first closing bracket of a map's spelling ends its key. *)
Lemma map_spelled_any k v : "map[" +:+ k +:+ "]" +:+ v = "map[any]any" → k = "any".
Proof.
  intros H. cbn in H. injection H as H.
  do 3 (destruct k as [|? k]; [discriminate H|]). destruct k as [|? k]; [by injection H as -> -> -> _|].
  by do 4 (destruct k as [|? k]; [discriminate H|]).
Qed.

Section Lowered.
Context `{GoFrontEnd} (file : File) (st : symtab) (Hst : table_ok st)
  (custom : gmap string CustomParcelableConfig) (stable : gmap string StableInterfaceConfig).

Definition proper_if (o : option GoType) : Prop := ∀ t, o = Some t → proper t.

Lemma qualified_not_any (alias name : string) : alias +:+ "." +:+ name ≠ "any".
Proof. do 4 (destruct alias as [|? alias]; [discriminate|]). cbn. by intros [=]. Qed.

Lemma builtin_proper name nullable t : builtinType name nullable = Some t → proper t.
Proof.
  unfold builtinType. intros Ht. repeat (case_bool_decide; [injection Ht as <-; by destruct nullable|]).
  destruct (assoc name scalars) as [[kind go]|] eqn:Ea; [|done]. injection Ht as <-.
  destruct nullable; [split; [done|]; cbn; apply capital_not_any, capital_exportName|].
  unfold assoc in Ea. destruct (List.find _ scalars) as [[n x]|] eqn:E; [|done]. injection Ea as [= ->].
  apply List.find_some in E as [Hin _]. cbn in Hin. by destruct_or! Hin; injection Hin as <- <- <-.
Qed.

Lemma lower_named_proper sc name nullable : returns (lower_named file st custom sc name nullable) proper_if.
Proof.
  unfold lower_named. destruct (builtinType name nullable) as [t|] eqn:Eb.
  { apply returns_ret. intros ? [= <-]. by eapply builtin_proper. }
  destruct (lookup_symbol file st sc name) as [sym|] eqn:Es.
  - apply lookup_symbol_ok in Es as Hn; [|done]. apply capital_not_any in Hn.
    destruct (custom_of custom sym) as [cfg|]; (apply returns_any; intros _); apply returns_ret; intros ? [= <-];
      (split; [by destruct (sym_kind sym)|]); cbn -[String.app customImportAlias].
    + destruct nullable; [done|apply qualified_not_any].
    + by case_match.
  - do 2 (apply returns_any; intros _). apply returns_ret. intros ? [= <-]. split; [done|]. apply capital_not_any, capital_exportName.
Qed.

Lemma lowerType_proper sc ref : returns (lowerType file st custom sc ref) proper_if.
Proof.
  revert ref. fix IH 1. intros [anns name args arr len nullable]. cbn [lowerType tr_Name tr_TypeArgs tr_Array tr_FixedArrayLen tr_Nullable].
  assert (Hnone : ∀ d, returns (diag d;; mret None : LM (option GoType)) proper_if) by (intros d; apply returns_any; intros _; by apply returns_ret).
  case_bool_decide; [apply Hnone|]. case_bool_decide.
  { destruct args as [|a [|b args]]; [apply Hnone| |apply Hnone].
    eapply returns_bind; [apply IH|]. intros [elem|] He; apply returns_ret; [|done]. intros ? [= <-]. split; [|done]. apply (He _ eq_refl). }
  case_bool_decide.
  { destruct args as [|a [|b [|c args]]]; [|apply Hnone| |apply Hnone].
    { apply returns_ret. intros ? [= <-]. by split. }
    eapply returns_bind; [apply IH|]. intros [key|] Hk; [|by apply returns_ret].
    eapply returns_bind; [apply IH|]. intros [value|] Hv; apply returns_ret; [|done]. intros ? [= <-].
    destruct (Hk _ eq_refl) as [Hk1 Hk2], (Hv _ eq_refl) as [Hv1 _]. split; [|done]. cbn [lowered_maps ty_Kind ty_Key ty_Value].
    unfold isRawMapType. cbn [ty_Kind ty_GoExpr]. rewrite (bool_decide_eq_false_2 (_ = "map[any]any")); [done|].
    by intros ?%map_spelled_any. }
  destruct arr; [|apply lower_named_proper]. eapply returns_bind; [apply lower_named_proper|]. intros [elem|] He.
  - destruct (He _ eq_refl) as [He1 _]. destruct len; [apply returns_any; intros _|]; apply returns_ret; by intros ? [= <-].
  - by destruct len; apply returns_ret.
Qed.

(** ** Methods, interfaces, files *)

Definition proper_fields (l : list GoField) : Prop := Forall (λ a, lowered_maps (gf_Type a)) l.
Definition proper_method (gm : GoMethod) : Prop := proper_fields (gm_Inputs gm).

Lemma lower_args_proper sc args : returns (lower_args file st custom sc args) (λ r, ∀ p, r = Some p → proper_fields p.1).
Proof.
  induction args as [|x args IH]; cbn [lower_args]; [apply returns_ret; intros ? [= <-]; constructor|].
  eapply returns_bind; [apply lowerType_proper|]. intros [t|] Ht; [|by apply returns_ret].
  eapply returns_bind; [exact IH|]. intros [[ins outs]|] Hr; apply returns_ret; [|done]. specialize (Hr _ eq_refl).
  destruct (Ht _ eq_refl) as [Ht1 _]. intros p [= <-]. destruct (fld_Direction x); by try apply Forall_cons.
Qed.

Lemma lowerMethod_proper sc i o m c : returns (lowerMethod file st custom sc i o m c) (λ r, ∀ gm, r = Some gm → proper_method gm).
Proof.
  unfold lowerMethod. apply returns_any. intros [ret|]; [|by apply returns_ret].
  eapply returns_bind; [apply lower_args_proper|]. intros [[ins outs]|] Hr; [|by apply returns_ret]. specialize (Hr _ eq_refl).
  do 2 (apply returns_any; intros _). apply returns_ret. by intros gm [= <-].
Qed.

Lemma lower_members_proper sym o nested ms k c :
  returns (lower_members file st custom sym o nested ms k c) (λ r, Forall proper_method r.2).
Proof.
  revert k c. induction ms as [|m ms IH]; intros k c; [apply returns_ret; constructor|].
  cbn [lower_members]; fold (lower_members file st custom sym o nested).
  destruct m as [m|cd|p|e|u]; [| |by apply returns_any; intros _..].
  - apply returns_any. intros [code next]. eapply returns_bind; [apply lowerMethod_proper|]. intros [gm|] Hg; [|apply IH].
    eapply returns_bind; [apply IH|]. intros [cs gms] Hgms. apply returns_ret. constructor; [by apply Hg|done].
  - apply returns_any. intros [[gc k']|]; [|apply IH]. eapply returns_bind; [apply IH|]. intros [cs gms] Hgms. by apply returns_ret.
Qed.

(** The interfaces so far. *)
Definition proper_out (s : lowered) : Prop := Forall (λ i, Forall proper_method (gi_Methods i)) (go_Interfaces (low_out s)).
Definition preserves_proper {A} (m : LM A) : Prop := ∀ s r s', m s = (r, s') → proper_out s → proper_out s'.

Lemma preserves_silent {A} (m : LM A) : silent m → preserves_proper m.
Proof. intros Hm s r s' E. unfold proper_out. specialize (Hm _ _ _ E). by injection Hm as -> _ _ _. Qed.

Lemma preserves_bind_any {A B} (m : LM A) (k : A → LM B) : preserves_proper m → (∀ a, preserves_proper (k a)) → preserves_proper (m ≫= k).
Proof.
  intros Hm Hk s r s'. unfold mbind, ST_bind. destruct (m s) as [[a|[]|y] s1] eqn:E.
  - intros Ek Hs. eapply Hk, Hm; [exact Ek|exact E|done].
  - intros [= <- <-]. by eapply Hm.
Qed.

Lemma preserves_bind_returns {A B} (m : LM A) (k : A → LM B) P :
  preserves_proper m → returns m P → (∀ a, P a → preserves_proper (k a)) → preserves_proper (m ≫= k).
Proof.
  intros Hm HP Hk s r s'. unfold mbind, ST_bind. destruct (m s) as [[a|[]|y] s1] eqn:E.
  - intros Ek Hs. eapply Hk, Hm; [by eapply HP|exact Ek|exact E|done].
  - intros [= <- <-]. by eapply Hm.
Qed.

Lemma preserves_ret {A} (a : A) : preserves_proper (mret a).
Proof. apply preserves_silent, silent_ret. Qed.

Lemma preserves_update f : (∀ out, go_Interfaces (f out) = go_Interfaces out) → preserves_proper (update_out f).
Proof. intros Hf s r s' [= _ <-]. unfold proper_out. cbn. by rewrite Hf. Qed.

Lemma preserves_members sym o nested ms k c : (∀ m, m ∈ ms → preserves_proper (nested m)) →
  preserves_proper (lower_members file st custom sym o nested ms k c).
Proof.
  revert k c. induction ms as [|m ms IH']; intros k c Hn; [apply preserves_ret|].
  assert (IH : ∀ k c, preserves_proper (lower_members file st custom sym o nested ms k c)).
  { intros. apply IH'. intros m' Hm. apply Hn. by right. }
  cbn [lower_members]; fold (lower_members file st custom sym o nested).
  destruct m as [m|cd|p|e|u]; [| |by apply preserves_bind_any; [apply Hn; left|intros _]..].
  - apply preserves_bind_any; [apply preserves_silent, silent_method_code|]. intros [code next].
    apply preserves_bind_any; [apply preserves_silent, silent_lowerMethod|]. intros [gm|]; [|apply IH].
    apply preserves_bind_any; [apply IH|]. intros [cs gms]. apply preserves_ret.
  - apply preserves_bind_any; [apply preserves_silent, silent_lower_const|]. intros [[gc k']|]; [|apply IH].
    apply preserves_bind_any; [apply IH|]. intros [cs gms]. apply preserves_ret.
Qed.

Lemma preserves_symbol {B} sc name (k : option namedSymbol → LM B) : (∀ sym, preserves_proper (k sym)) → preserves_proper (symbol_of st sc name ≫= k).
Proof. intros Hk. apply preserves_bind_any; [apply preserves_silent, silent_symbol_of|done]. Qed.

Lemma preserves_lowerEnum sc d : preserves_proper (lowerEnum file st sc d).
Proof.
  unfold lowerEnum. apply preserves_symbol. intros [sym|]; [|apply preserves_ret].
  apply preserves_bind_any; [apply preserves_silent, silent_enumBacking|]. intros t.
  apply preserves_bind_any; [apply preserves_silent, effects_enum_members|]. intros ms. by apply preserves_update.
Qed.

Lemma preserves_lowerUnion sc d : preserves_proper (lowerUnion file st custom sc d).
Proof.
  unfold lowerUnion. apply preserves_symbol. intros [sym|]; [|apply preserves_ret].
  apply preserves_bind_any; [apply preserves_silent, effects_lower_fields; intros; [apply grows_ret|apply silent_ret]|].
  intros [gfs|]; [by apply preserves_update|apply preserves_ret].
Qed.

Lemma preserves_lower_all sc ds : Forall (λ d, ∀ sc, preserves_proper (lowerDecl file st custom stable sc d)) ds →
  preserves_proper (lower_all file st custom stable sc ds).
Proof. induction 1 as [|d ds Hd _ IH]; cbn [lower_all]; [apply preserves_ret|]. by apply preserves_bind_any; [|intros _]. Qed.

Lemma preserves_lowerDecl d : ∀ sc, preserves_proper (lowerDecl file st custom stable sc d).
Proof.
  induction d as [e|u|a n tp str cs fs ds IH|a o n ms IH] using decl_nested_ind; intros sc;
    [apply preserves_lowerEnum|apply preserves_lowerUnion| |]; cbn [lowerDecl lowerParcelable lowerInterface].
  - apply preserves_symbol. intros [sym|]; [|apply preserves_ret].
    apply preserves_bind_any; [apply preserves_silent, effects_lower_consts|]. intros [[gcs k]|]; [|apply preserves_ret].
    apply preserves_bind_any; [apply preserves_silent, effects_lower_fields; intros; [apply grows_default|apply silent_default]|].
    intros [gfs|]; [|apply preserves_ret]. apply preserves_bind_any; [by apply preserves_update|]. intros _. by apply preserves_lower_all.
  - apply preserves_symbol. intros [sym|]; [|apply preserves_ret]. destruct (stability _ _ _) as [v h].
    eapply preserves_bind_returns; [|apply lower_members_proper|].
    + apply preserves_members. intros m Hm. rewrite Forall_forall in IH. specialize (IH _ Hm).
      destruct m; [apply preserves_ret..|apply IH|apply preserves_lowerEnum|apply preserves_lowerUnion].
    + intros [consts methods] Hms. intros s r s' [= _ <-] Hs. apply Forall_app. split; [done|]. by constructor.
Qed.
End Lowered.

(** The inputs of every method that a lowering builds, with diagnostics or without. *)
Lemma Lower_proper `{GoFrontEnd} f opts out diags : Lower (Some f) opts = Ok (Some out, diags) →
  ∀ i m a, i ∈ go_Interfaces out → m ∈ gi_Methods i → a ∈ gm_Inputs m → lowered_maps (gf_Type a).
Proof.
  unfold Lower. change (lower_decls f) with (λ st cu sta, lower_all f st cu sta (Some root)). cbv beta.
  destruct (lower_all _ _ _ _ _ _ _) as [[[]|[]|y] s] eqn:E; [|done]. cbn. intros [= <- _] i m a Hi Hm Ha.
  apply preserves_lower_all in E; [|apply Forall_true; intros d sc; apply preserves_lowerDecl, symbols_ok].
  specialize (E (Forall_nil_2 _)). unfold proper_out in E. rewrite Forall_forall in E. specialize (E _ Hi). rewrite Forall_forall in E. specialize (E _ Hm).
  unfold proper_method, proper_fields in E. rewrite Forall_forall in E. by apply E.
Qed.
