(* ===== verification/CodegenProps.v ===== *)
(** * CodegenProps: theorems on the Go generator's analyses

    Which values need a registrar for local handlers, that the generated client
    declares one exactly when it uses it, and where the analysis of one file
    misses what another file declares. *)

From stdpp Require Import base list numbers strings pretty gmap.
From S2P Require Import Prelude Aidl AidlExpr AidlResolve AidlResolveProps GoText AidlNames AidlLower AidlLowerProps Codegen CodegenExpr CodegenLower.

Open Scope Z_scope.

(** Induction on types, through the optional element, key and value. *)
Lemma GoType_induction (P : GoType → Prop) :
  (∀ t, (∀ e, ty_Elem t = Some e → P e) → (∀ k, ty_Key t = Some k → P k) → (∀ v, ty_Value t = Some v → P v) → P t) →
  ∀ t, P t.
Proof.
  intros H. fix IH 1. intros [kind aidl pkg expr null len elem key val named l a b].
  apply H; cbn; intros x.
  - destruct elem as [e|]; [intros [= <-]; apply IH|discriminate].
  - destruct key as [e|]; [intros [= <-]; apply IH|discriminate].
  - destruct val as [e|]; [intros [= <-]; apply IH|discriminate].
Qed.

Section Registrar.
Context (model : GoFile) (customs : gmap string CustomParcelableConfig).
#[local] Abbreviation seen_needs := (typeNeedsRegistrarSeen model customs).

(** A parcelable or union whose code is in another package. *)
Definition outside (t : GoType) : bool :=
  foreign model t && match ty_Kind t with
                     | TypeParcelable => bool_decide (customParcelableConfig model customs t = None)
                     | TypeUnion => true
                     | _ => false
                     end.

(** The declaration of this file that a type names, and its fields. *)
Definition entered (t : GoType) : option (string * list GoField) :=
  if foreign model t || bool_decide (ty_NamedGo t = "") then None
  else match ty_Kind t with
       | TypeParcelable =>
           match customParcelableConfig model customs t with
           | Some _ => None
           | None => (λ p, (parcelable_key (ty_NamedGo t), gp_Fields p)) <$> parcelablesByName model !! ty_NamedGo t
           end
       | TypeUnion => (λ u, (union_key (ty_NamedGo t), gu_Fields u)) <$> unionsByName model !! ty_NamedGo t
       | _ => None
       end.

(** A value of the type can hold an interface, or an object of another package
    (whose fields the file does not know). *)
Inductive holds_interface : GoType → Prop :=
| hi_interface t : ty_Kind t = TypeInterface → holds_interface t
| hi_elem t e : ty_Kind t = TypeSlice ∨ ty_Kind t = TypeArray → ty_Elem t = Some e → holds_interface e → holds_interface t
| hi_key t k : ty_Kind t = TypeMap → ty_Key t = Some k → holds_interface k → holds_interface t
| hi_value t v : ty_Kind t = TypeMap → ty_Value t = Some v → holds_interface v → holds_interface t
| hi_outside t : outside t = true → holds_interface t
| hi_field t key fields f : entered t = Some (key, fields) → f ∈ fields → holds_interface (gf_Type f) → holds_interface t.

Definition sub (f : GoType → bool) (o : option GoType) : bool := match o with Some e => f e | None => false end.

(** One step of the search, on what the recursive calls return. *)
Definition step (below : GoType → bool) (fields_below : string → list GoField → bool) (t : GoType) : bool :=
  match ty_Kind t with
  | TypeInterface => true
  | TypeSlice | TypeArray => sub below (ty_Elem t)
  | TypeMap => sub below (ty_Key t) || sub below (ty_Value t)
  | TypeParcelable | TypeUnion =>
      outside t || match entered t with Some (key, fields) => fields_below key fields | None => false end
  | _ => false
  end.

Lemma seen_needs_step fuel seen t :
  seen_needs fuel seen t =
  step (seen_needs fuel seen)
    (λ key fields, negb (bool_decide (key ∈ seen)) &&
       match fuel with S fuel => existsb (λ f, seen_needs fuel ({[key]} ∪ seen) (gf_Type f)) fields | O => false end) t.
Proof.
  destruct fuel as [|fuel], t as [kind aidl pkg expr null n elem key val named l a b];
    destruct kind; try reflexivity; unfold step, outside, entered; cbn -[customParcelableConfig foreign];
    [destruct (customParcelableConfig _ _ _) as [[??]|]|
     |destruct (customParcelableConfig _ _ _) as [[??]|]|];
    destruct (foreign _ _); cbn; try reflexivity; destruct (bool_decide (named = "")); try reflexivity;
    destruct (_ !! named); cbn; try reflexivity; destruct (bool_decide _); reflexivity.
Qed.

(** The search without the set of declarations on the path, to a depth. *)
Fixpoint reach (n : nat) (t : GoType) : bool :=
  match n with
  | O => false
  | S n => step (reach n) (λ _, existsb (λ f, reach n (gf_Type f))) t
  end.

Lemma step_mono (b1 b2 : GoType → bool) (f1 f2 : string → list GoField → bool) t :
  (∀ e, b1 e = true → b2 e = true) → (∀ k l, f1 k l = true → f2 k l = true) → step b1 f1 t = true → step b2 f2 t = true.
Proof.
  intros Hb Hf. unfold step, sub.
  destruct (ty_Kind t), (ty_Elem t), (ty_Key t), (ty_Value t), (outside t), (entered t) as [[??]|]; cbn;
    rewrite ?orb_true_iff; intuition auto.
Qed.

Lemma existsb_mono (b1 b2 : GoType → bool) fs : (∀ e, b1 e = true → b2 e = true) →
  existsb (λ f, b1 (gf_Type f)) fs = true → existsb (λ f, b2 (gf_Type f)) fs = true.
Proof. intros H (f & ? & ?)%existsb_exists. apply existsb_exists. eauto. Qed.

Lemma reach_S n t : reach n t = true → reach (S n) t = true.
Proof.
  revert t. induction n as [|n IH]; [done|]. intros t. apply step_mono; [exact IH|].
  intros _ l. by apply existsb_mono.
Qed.

Lemma reach_mono n m t : (n <= m)%nat → reach n t = true → reach m t = true.
Proof. induction 1; [done|]. intros ?. by apply reach_S, IHle. Qed.

(** *** Soundness *)

Lemma step_sound (below : GoType → bool) (fb : string → list GoField → bool) t :
  (∀ e, ty_Elem t = Some e ∨ ty_Key t = Some e ∨ ty_Value t = Some e → below e = true → holds_interface e) →
  (∀ k fs, fb k fs = true → ∃ f, f ∈ fs ∧ holds_interface (gf_Type f)) →
  step below fb t = true → holds_interface t.
Proof.
  intros Hb Hf. unfold step, sub.
  destruct (ty_Kind t) eqn:EK; try done; intros H;
    try (destruct (ty_Elem t) as [e|] eqn:EE; [|done]; by eapply hi_elem; eauto).
  - by apply hi_interface.
  - apply orb_true_iff in H as [H|H]; [by apply hi_outside|]. destruct (entered t) as [[k fs]|] eqn:EE; [|done].
    destruct (Hf k fs H) as (f & ? & ?). by eapply hi_field.
  - apply orb_true_iff in H as [H|H]; [by apply hi_outside|]. destruct (entered t) as [[k fs]|] eqn:EE; [|done].
    destruct (Hf k fs H) as (f & ? & ?). by eapply hi_field.
  - apply orb_true_iff in H as [H|H].
    + destruct (ty_Key t) as [e|] eqn:EE; [|done]. by eapply hi_key; eauto.
    + destruct (ty_Value t) as [e|] eqn:EE; [|done]. by eapply hi_value; eauto.
Qed.

Lemma existsb_field (b : GoType → bool) fs : existsb (λ f, b (gf_Type f)) fs = true ↔ ∃ f, f ∈ fs ∧ b (gf_Type f) = true.
Proof. rewrite existsb_exists. by setoid_rewrite list_elem_of_In. Qed.

Lemma seen_needs_sound fuel : ∀ seen t, seen_needs fuel seen t = true → holds_interface t.
Proof.
  induction fuel as [|fuel IH]; intros seen t; induction t as [t He Hk Hv] using GoType_induction;
    rewrite seen_needs_step; apply step_sound; try (intros e [?|[?|?]]; by auto);
    intros k fs [_ H]%andb_true_iff; [done|].
  apply existsb_field in H as (f & Hin & H). eauto.
Qed.

(** *** Completeness *)

Lemma reach_complete t : holds_interface t → ∃ n, reach n t = true.
Proof.
  induction 1 as [t E|t e E Ee _ [n IH]|t k E Ek _ [n IH]|t v E Ev _ [n IH]|t E|t key fs f E Hin _ [n IH]].
  - exists 1%nat. cbn. unfold step. by rewrite E.
  - exists (S n). cbn. unfold step, sub. destruct E as [-> | ->]; by rewrite Ee.
  - exists (S n). cbn. unfold step, sub. by rewrite E, Ek, IH.
  - exists (S n). cbn. unfold step, sub. by rewrite E, Ev, IH, orb_true_r.
  - exists 1%nat. cbn. unfold step. rewrite E. unfold outside in E. apply andb_true_iff in E as [_ E].
    by destruct (ty_Kind t).
  - exists (S n). cbn. unfold step. rewrite E.
    assert (Hx : existsb (λ f, reach n (gf_Type f)) fs = true) by (apply existsb_field; eauto).
    rewrite Hx, orb_true_r. unfold entered in E. destruct (foreign model t || _); [done|].
    by destruct (ty_Kind t).
Qed.

(** The fields under a key. *)
Definition keyed (key : string) (fields : list GoField) : Prop :=
  (∃ name p, key = parcelable_key name ∧ parcelablesByName model !! name = Some p ∧ fields = gp_Fields p) ∨
  (∃ name u, key = union_key name ∧ unionsByName model !! name = Some u ∧ fields = gu_Fields u).

Lemma keyed_det key f1 f2 : keyed key f1 → keyed key f2 → f1 = f2.
Proof.
  unfold parcelable_key, union_key.
  intros [(n1 & d1 & -> & H1 & ->)|(n1 & d1 & -> & H1 & ->)] [(n2 & d2 & E & H2 & ->)|(n2 & d2 & E & H2 & ->)];
    try discriminate E; apply (inj (String.append _)) in E; subst; congruence.
Qed.

Lemma entered_keyed t key fields : entered t = Some (key, fields) → keyed key fields.
Proof.
  unfold entered. destruct (foreign model t || _); [done|]. destruct (ty_Kind t); try done.
  - destruct (customParcelableConfig _ _ t); [done|].
    destruct (parcelablesByName model !! ty_NamedGo t) as [p|] eqn:E; intros [= <- <-]. left. eauto 10.
  - destruct (unionsByName model !! ty_NamedGo t) as [u|] eqn:E; intros [= <- <-]. right. eauto 10.
Qed.

(** Every key, once per declaration. *)
Definition keys : list string :=
  (parcelable_key <$> (map_to_list (parcelablesByName model)).*1) ++ (union_key <$> (map_to_list (unionsByName model)).*1).

Lemma length_keys : length keys = decl_count model.
Proof. unfold keys. by rewrite length_app, !length_fmap, !length_map_to_list. Qed.

Lemma keyed_keys key fields : keyed key fields → key ∈ keys.
Proof.
  intros [(n & p & -> & H & _)|(n & u & -> & H & _)]; apply elem_of_app; [left|right];
    apply list_elem_of_fmap_2; apply list_elem_of_fmap; (eexists (n, _); split; [reflexivity|]); by apply elem_of_map_to_list.
Qed.

Definition unseen (seen : gset string) : nat := length (filter (λ k, k ∉ seen) keys).

Lemma unseen_shrinks key seen : key ∈ keys → key ∉ seen → (unseen ({[key]} ∪ seen) < unseen seen)%nat.
Proof.
  unfold unseen. generalize keys as l. intros l Hin Hns.
  assert (Hle : ∀ l : list string, (length (filter (λ k, k ∉ {[key]} ∪ seen) l) <= length (filter (λ k, k ∉ seen) l))%nat).
  { clear. intros l. induction l as [|k l IH]; [done|]. rewrite !filter_cons.
    do 2 case_decide; cbn; try lia. set_solver. }
  induction l as [|k l IH]; [by apply not_elem_of_nil in Hin|]. rewrite !filter_cons.
  apply elem_of_cons in Hin as [<-|Hin].
  - rewrite decide_False, decide_True by set_solver. cbn. specialize (Hle l). lia.
  - specialize (IH Hin). do 2 case_decide; cbn; try lia. set_solver.
Qed.

(** The first depth at which some field is found. *)
Lemma first_depth fs n : existsb (λ f, reach n (gf_Type f)) fs = true →
  ∃ m, (m <= n)%nat ∧ existsb (λ f, reach m (gf_Type f)) fs = true ∧
       ∀ m', (m' < m)%nat → existsb (λ f, reach m' (gf_Type f)) fs = false.
Proof.
  induction n as [n IH] using lt_wf_ind. intros H.
  destruct (decide (Exists (λ m', existsb (λ f, reach m' (gf_Type f)) fs = true) (List.seq 0%nat n))) as [Hx|Hx].
  - apply Exists_exists in Hx as (m' & Hin & Hm). apply elem_of_seq in Hin.
    destruct (IH m' ltac:(lia) Hm) as (m & ? & ? & ?). exists m. split; [lia|done].
  - exists n. split; [done|split; [done|]]. intros m' Hm. apply not_true_is_false. intros Ht. apply Hx.
    apply Exists_exists. exists m'. split; [|done]. apply elem_of_seq. lia.
Qed.

(** A declaration on the path is not worth entering again: its fields are not found
    at the depths that are left. *)
Definition exhausted (n : nat) (seen : gset string) : Prop :=
  ∀ key fields m, key ∈ seen → keyed key fields → (m < n)%nat → existsb (λ f, reach m (gf_Type f)) fields = false.

Lemma seen_needs_complete n : ∀ fuel seen t, reach n t = true → exhausted n seen → (unseen seen <= fuel)%nat →
  seen_needs fuel seen t = true.
Proof.
  induction n as [n IH] using lt_wf_ind. intros fuel seen t H Hs Hf. destruct n as [|n]; [done|].
  rewrite seen_needs_step. cbn [reach] in H. revert H. unfold step.
  assert (Hsub : ∀ o, sub (reach n) o = true → sub (seen_needs fuel seen) o = true).
  { intros [e|]; [|done]. cbn. intros He. apply (IH n ltac:(lia)); [done| |done].
    intros key fields m ???. eapply Hs; eauto. }
  assert (Hent : match entered t with Some (_, fields) => existsb (λ f, reach n (gf_Type f)) fields | None => false end = true →
    match entered t with
    | Some (key, fields) => negb (bool_decide (key ∈ seen)) &&
        match fuel with S fuel => existsb (λ f, seen_needs fuel ({[key]} ∪ seen) (gf_Type f)) fields | O => false end
    | None => false end = true).
  { destruct (entered t) as [[key fields]|] eqn:E; [|done]. intros H. apply entered_keyed in E as Hk.
    assert (Hns : key ∉ seen). { intros Hin. rewrite (Hs key fields n Hin Hk) in H by lia. done. }
    rewrite bool_decide_false by done. assert (Hu := unseen_shrinks key seen (keyed_keys _ _ Hk) Hns).
    destruct fuel as [|fuel]; [lia|]. destruct (first_depth fields n H) as (m & Hm & Hx & Hfirst).
    apply existsb_field in Hx as (f & Hin & Hr). apply existsb_field. exists f. split; [done|].
    apply (IH m ltac:(lia)); [done| |lia].
    intros key' fields' m' [->%elem_of_singleton|Hin']%elem_of_union Hk' Hm'.
    - rewrite <- (keyed_det _ _ _ Hk Hk'). by apply Hfirst.
    - eapply Hs; eauto. lia. }
  destruct (ty_Kind t); auto; rewrite ?orb_true_iff; intuition auto.
Qed.

Lemma needs_iff t : typeNeedsRegistrar model customs t = true ↔ holds_interface t.
Proof.
  split; [apply seen_needs_sound|]. intros [n H]%reach_complete.
  apply (seen_needs_complete n); [done| |].
  - intros key fields m Hk. set_solver.
  - rewrite <- length_keys. unfold unseen. apply length_filter.
Qed.
End Registrar.

(** ** The registrar variable *)

Section Declared.
Context (model : GoFile) (customs : gmap string CustomParcelableConfig) (root : string).
#[local] Abbreviation needs := (typeNeedsRegistrar model customs).

(** What validation leaves: no nil types, and imports for what is foreign. *)
Definition usable (t : GoType) : Prop :=
  validateTypeUsage model customs root t = pass ∧ (root = "" → check_import model customs t = false).

Lemma then_pass (a b : verdict) : then_ a b = pass ↔ a = pass ∧ b = pass.
Proof. unfold pass. destruct a as [[]|]; cbn; intuition congruence. Qed.

Lemma within_pass where_ (a : verdict) : within_ where_ a = pass ↔ a = pass.
Proof. by destruct a as [[]|]. Qed.

Lemma check_all_pass {A} (f : A → verdict) l : check_all f l = pass ↔ ∀ x, x ∈ l → f x = pass.
Proof.
  induction l as [|a l IH]; cbn; [by split; [intros _ x ?%not_elem_of_nil|]|].
  rewrite then_pass, IH. setoid_rewrite elem_of_cons.
  split; [intros [??] x [->|?]; auto|intros H; split; auto].
Qed.

Lemma needs_step t : needs t = step model customs needs
  (λ key fields, match decl_count model with
                 | S fuel => existsb (λ f, typeNeedsRegistrarSeen model customs fuel ({[key]} ∪ ∅) (gf_Type f)) fields
                 | O => false
                 end) t.
Proof.
  unfold typeNeedsRegistrar at 1. rewrite seen_needs_step. unfold step. destruct (ty_Kind t); try done.
  all: destruct (entered model customs t) as [[??]|]; cbn; try done; by rewrite bool_decide_false by set_solver.
Qed.

Lemma qualifier_outside t : foreign model t = true → root ≠ "" → generatedQualifier model root t ≠ "".
Proof.
  intros Hf Hr. unfold generatedQualifier, generatedImportSpec. rewrite Hf, bool_decide_false by done. cbn [negb andb is_Alias].
  unfold aidlImportAlias. by case_match.
Qed.

Lemma qualifier_inside t : foreign model t = false → generatedQualifier model root t = "".
Proof. intros Hf. unfold generatedQualifier, generatedImportSpec. by rewrite Hf. Qed.

Lemma mentions_typed t w : mentions "registrar" (typed_object t w) = mentions "registrar" w.
Proof. unfold typed_object. by case_match. Qed.

Lemma mentions_named t : ty_Kind t = TypeParcelable ∧ customParcelableConfig model customs t = None ∨ ty_Kind t = TypeUnion →
  (root = "" → foreign model t = false) → mentions "registrar" (writeNamed model customs root t "registrar") = needs t.
Proof.
  intros Hk Hr. unfold writeNamed. case_bool_decide as Hq; cbn [negb]; [by destruct (needs t)|]. cbn.
  destruct (foreign model t) eqn:Hf; [|by rewrite qualifier_inside in Hq].
  symmetry. apply needs_iff, hi_outside. unfold outside. rewrite Hf.
  destruct Hk as [[-> ->]| ->]; [by rewrite bool_decide_true|done].
Qed.

Lemma mentions_write t : usable t → lowered_maps t → mentions "registrar" (writeExpr model customs root "registrar" t) = needs t.
Proof.
  induction t as [t He Hk Hv] using GoType_induction. intros [Hv1 Hi] Hm.
  destruct t as [kind aidl pkg expr null n elem key val named l a b].
  set (t := mkGoType kind aidl pkg expr null n elem key val named l a b) in *.
  assert (Hsub : ∀ e, (elem = Some e ∨ key = Some e ∨ val = Some e) → usable e → lowered_maps e →
    mentions "registrar" (typed_object e (writeExpr model customs root "registrar" e)) = needs e).
  { intros e H ??. rewrite mentions_typed. destruct H as [?|[?|?]]; eauto. }
  rewrite needs_step. destruct kind; try reflexivity; cbn in Hv1, Hm.
  - cbn. by destruct null.
  - cbn. by destruct null.
  - unfold t. cbn [writeExpr ty_Kind]. fold t. unfold step. cbn [ty_Kind t].
    destruct (customParcelableConfig model customs t) as [[cfg alias]|] eqn:Hc.
    + unfold outside, entered. cbn [ty_Kind t]. fold t. rewrite Hc. cbn. by rewrite andb_false_r, Tauto.if_same.
    + rewrite mentions_named; [by rewrite needs_step|by left|].
      intros Hr. specialize (Hi Hr). unfold t in Hi. cbn [check_import ty_Kind] in Hi. fold t in Hi. by rewrite Hc in Hi.
  - unfold t. cbn [writeExpr ty_Kind]. fold t. rewrite mentions_named; [by rewrite needs_step|by right|].
    intros Hr. exact (Hi Hr).
  - destruct elem as [e|]; [|done]. cbn. rewrite Hsub; [done|by left|by split|done].
  - destruct elem as [e|]; [|done]. cbn. rewrite Hsub; [done|by left|by split|done].
  - destruct key as [k|], val as [v|]; try done. cbn -[isRawMapType]. fold t. cbn -[isRawMapType] in Hm. fold t in Hm.
    destruct (isRawMapType t) eqn:Hraw.
    + destruct Hm as [[= ->] [= ->]]. by rewrite !needs_step.
    + unfold isRawMapType in Hraw. cbn [ty_Kind ty_GoExpr t] in Hraw. rewrite bool_decide_true in Hraw by done.
      cbn [andb] in Hraw. rewrite Hraw in Hv1. case_match; [done|].
      apply then_pass in Hv1 as [??]. destruct Hm as [??].
      cbn. rewrite !Hsub; [done|tauto| |done|tauto| |done].
      * split; [done|]. intros Hr. specialize (Hi Hr). cbn in Hi. by apply orb_false_iff in Hi as [??].
      * split; [done|]. intros Hr. specialize (Hi Hr). cbn in Hi. by apply orb_false_iff in Hi as [??].
Qed.
End Declared.

(** ** Theorems *)

(** For every type of a file's model, the generator's search for a registrar (which
    follows elements, map keys and values, and the fields of the file's parcelables
    and unions, cutting cycles with the set of declarations on the path) ends and
    answers exactly whether a value of the type can hold an interface or an object of
    another package. *)
Theorem registrar_analysis_exact (model : GoFile) (customs : gmap string CustomParcelableConfig) (t : GoType) :
  typeNeedsRegistrar model customs t = true ↔ holds_interface model customs t.
Proof. apply needs_iff. Qed.

(** C30: in the model that the lowering of a file produced (with diagnostics or
    without) and that passed the generator's validation, the client's code for a method
    declares the variable [registrar] exactly when one of the expressions that write
    its arguments uses it: it is neither undeclared nor unused, which Go would
    refuse. *)
Theorem registrar_declared_iff_used `{GoFrontEnd} (f : File) (opts : LowerOptions) (model : GoFile) diags customs root types i m :
  Lower (Some f) opts = Ok (Some model, diags) → validate model customs root types = pass →
  i ∈ go_Interfaces model → m ∈ gi_Methods i →
  let px := renderProxyMethod model customs root m in
  px_DeclaresRegistrar px = existsb (mentions "registrar") (px_Args px).
Proof.
  intros HL Hv Hi Hm px. assert (Hl : Forall (λ a, lowered_maps (gf_Type a)) (gm_Inputs m)).
  { apply Forall_forall. intros a Ha. by eapply Lower_proper. }
  unfold px, renderProxyMethod. cbn [px_DeclaresRegistrar px_Args].
  unfold validate in Hv. rewrite !then_pass in Hv. destruct Hv as (_ & _ & Hv & Himp).
  rewrite check_all_pass in Hv. specialize (Hv i Hi). destruct (gi_Stable i && _); [done|].
  rewrite then_pass in Hv. destruct Hv as [_ Hv]. rewrite check_all_pass in Hv. specialize (Hv m Hm). cbv zeta in Hv.
  rewrite !then_pass in Hv. destruct Hv as (_ & Hv & _). rewrite check_all_pass in Hv.
  assert (Huse : ∀ a, a ∈ gm_Inputs m → usable model customs root (gf_Type a)).
  { intros a Ha. split; [by eapply within_pass, Hv|]. intros ->.
    rewrite bool_decide_true in Himp by done. destruct (requiresGeneratedImports model customs) eqn:Hr; [done|].
    unfold requiresGeneratedImports in Hr. apply not_true_is_false. intros Ht. apply not_true_iff_false in Hr. apply Hr.
    apply orb_true_iff. right. apply existsb_exists. exists i. split; [by apply list_elem_of_In|].
    apply orb_true_iff. right. apply existsb_exists. exists m. split; [by apply list_elem_of_In|].
    apply existsb_exists. exists (gf_Type a). split; [|done]. apply list_elem_of_In. unfold method_types.
    apply elem_of_app. right. apply elem_of_app. left. by apply list_elem_of_fmap_2. }
  clear Hv Himp. unfold fieldsNeedRegistrar. induction (gm_Inputs m) as [|a l IH]; [done|].
  apply Forall_cons in Hl as [Ha Hl]. cbn. rewrite IH; [|done|intros; apply Huse; by constructor]. f_equal.
  rewrite <- (mentions_write model customs root (gf_Type a)); [|apply Huse; by constructor|done].
  unfold methodArgWriteExpr, contextWriteExpr. case_match; cbn; by rewrite mentions_typed.
Qed.

(** *** A model to try them on: a parcelable that holds a callback and a list of
    itself, and an interface that takes it. *)
Definition plain (k : TypeKind) (expr : string) : GoType :=
  mkGoType k "" "" expr false 0 None None None "" false false true.
Definition type_named (k : TypeKind) (pkg name : string) : GoType :=
  mkGoType k (pkg +:+ "." +:+ name) pkg name false 0 None None None name false false false.
Definition list_of (t : GoType) : GoType := mkGoType TypeSlice "" "" "" false 0 (Some t) None None "" true false false.
Definition input (name : string) (t : GoType) : GoField := mkGoField name name DirectionIn t "".

Definition holder : GoParcelable :=
  mkGoParcelable "demo.Holder" "Holder" true false None []
    [input "Callback" (type_named TypeInterface "demo" "ICallback");
     input "Children" (list_of (type_named TypeParcelable "demo" "Holder"))].

Definition store_method (t : GoType) : GoMethod :=
  mkGoMethod "store" "Store" 1 false [input "count" (plain TypeInt32 "int32"); input "held" t] None [].
Definition demo_interface (consts : list GoConst) (t : GoType) : GoInterface :=
  mkGoInterface "demo.IStore" "IStore" "demo.IStore" false false 0 "" consts [store_method t].
Definition demo_model (consts : list GoConst) (parcelables : list GoParcelable) (t : GoType) : GoFile :=
  mkGoFile "demo/IStore.aidl" "demo" "demo" [] [demo_interface consts t] parcelables [] [] [].

Definition holders : GoType := list_of (type_named TypeParcelable "demo" "Holder").

(** The same in AIDL, lowered. *)
Definition store_file : File := mkFile "demo" []
  [DInterface (mkInterfaceDecl [] false "ICallback" []);
   DParcelable (mkParcelableDecl [] "Holder" [] true []
     [AidlResolveProps.field (named "ICallback") "callback";
      AidlResolveProps.field (mkTypeRef [] "List" [named "Holder"] false None false) "children"] []);
   DInterface (mkInterfaceDecl [] false "IStore"
     [MMethod (mkMethodDecl [] false (named "void") "store"
        [AidlResolveProps.field (named "int") "count"; AidlResolveProps.field (mkTypeRef [] "List" [named "Holder"] false None false) "held"] "")])].

Lemma registrar_declared_iff_used_witness : ∃ model i m,
  @Lower decimal_front_end (Some store_file) no_options = Ok (Some model, []) ∧ i ∈ go_Interfaces model ∧ m ∈ gi_Methods i ∧
  px_DeclaresRegistrar (renderProxyMethod model ∅ "" m) = true ∧
  px_DeclaresRegistrar (renderProxyMethod model ∅ "" m) = existsb (mentions "registrar") (px_Args (renderProxyMethod model ∅ "" m)).
Proof.
  destruct (@Lower decimal_front_end (Some store_file) no_options) as [[[model|] diags]| |] eqn:E; try (vm_compute in E; discriminate).
  pose proof (λ i m H1 H2 H3, registrar_declared_iff_used (H := decimal_front_end) store_file no_options model diags ∅ "" "" i m E H1 H2 H3) as HT.
  vm_compute in E. injection E as <- <-.
  eexists _, _, _. split; [reflexivity|]. split; [right; left|]. split; [left|]. split; [vm_compute; reflexivity|].
  eapply HT; [vm_compute; reflexivity|right; left|left].
Defined.

(** The search knows the declarations of its own file only.  A parcelable of the same
    package that another file declares is taken to hold no interface: the client
    declares no registrar and calls the writer without one, although the file that
    declares the parcelable generates a writer that needs it. *)
Theorem registrar_lost_across_files :
  let t := type_named TypeParcelable "demo" "Holder" in
  let user := demo_model [] [] t in let owner := demo_model [] [holder] t in
  validate user ∅ "" "" = pass ∧
  typeNeedsRegistrar owner ∅ t = true ∧ typeNeedsRegistrar user ∅ t = false ∧
  px_DeclaresRegistrar (renderProxyMethod user ∅ "" (store_method t)) = false ∧
  contextWriteExpr user ∅ "" "registrar" t = WPresent (WNamed "" false "Holder" None) ∧
  contextWriteExpr owner ∅ "" "registrar" t = WPresent (WNamed "" false "Holder" (Some "registrar")).
Proof. vm_compute. repeat split. Qed.

(** The imports are collected from fields and methods only: the type of a constant is
    printed with the alias of a package that the file does not import. *)
Theorem const_import_missing :
  let t := type_named TypeEnum "other" "Mode" in
  let model := demo_model [mkGoConst "M" "IStoreM" t "1"] [] (plain TypeInt32 "int32") in
  validate model ∅ "example.com/gen" "" = pass ∧
  requiresGeneratedImports model ∅ = true ∧
  typeExpr model ∅ "example.com/gen" t = "aidl_other.Mode" ∧
  is_Alias <$> imports model ∅ "example.com/gen" "binder" = [""; ""; ""].
Proof. vm_compute. repeat split. Qed.
