(* ===== verification/GeneratedCode.v ===== *)
(** * GeneratedCode: what the generated code does

    The meaning, on the Parcel model, of the functions that
    src/internal/aidl/codegen/go.go generates for a file: writers and readers of
    enums, structured, opaque and custom parcelables, unions and interfaces, the
    methods of the client and the handler of the server.  CodegenExpr says which
    expressions are generated; here they run.

    A call of a generated function takes one unit of [depth], the stack's room for
    nested calls.  What is linked in from elsewhere (custom functions, the code of
    other packages and of other files, the Go compiler's value of a default, the
    Binders behind interfaces) is the class [Linked]. *)

From stdpp Require Import base list numbers strings pretty gmap.
From S2P Require Import Prelude Errors Unicode Parcel Slices Value Status Stability Aidl AidlExpr AidlResolve GoText AidlNames AidlLower Codegen CodegenExpr.

Open Scope Z_scope.

(** ** Values of generated types

    [B] are Binders, [I] implementations of generated interfaces, [X] values of
    custom Go types and of other packages. *)
Inductive gv (B I X : Type) : Type :=
| GNil
| GBool (b : bool) | GInt (n : Z) | GFloat32 (bits : Z) | GFloat64 (bits : Z) | GStr (s : string)
| GPtr (v : gv B I X)
| GList (l : list (gv B I X))
| GMap (m : list (gv B I X * gv B I X))
| GStructV (fields : list (gv B I X))
| GUnionV (tag : Z) (fields : list (gv B I X))
| GRaw (data : option (list Z))
| GAny (v : gval B)
| GBinder (b : B) | GIface (i : I) | GFD (fd : FileDescriptor)
| GOther (x : X).
Arguments GNil {B I X}.
Arguments GBool {B I X} _.
Arguments GInt {B I X} _.
Arguments GFloat32 {B I X} _.
Arguments GFloat64 {B I X} _.
Arguments GStr {B I X} _.
Arguments GPtr {B I X} _.
Arguments GList {B I X} _.
Arguments GMap {B I X} _.
Arguments GStructV {B I X} _.
Arguments GUnionV {B I X} _ _.
Arguments GRaw {B I X} _.
Arguments GAny {B I X} _.
Arguments GBinder {B I X} _.
Arguments GIface {B I X} _.
Arguments GFD {B I X} _.
Arguments GOther {B I X} _.

(** What the generated file is linked with; [R] are registrars.  A qualifier is
    [""] for another file of the same package. *)
Class Linked (W B I R X : Type) := {
  AsBinder : I → option (option B);
  new_client : string → string → B → I;
  iface_eqb : I → I → bool;
  RegisterLocalHandler : R → string → string → I → W → res (option B) * W;
  custom_write : string → string → gv B I X → PM W B unit;
  custom_read : string → string → PM W B (gv B I X);
  ext_write : string → bool → string → option (option R) → gv B I X → PM W B unit;
  ext_read : string → bool → string → PM W B (gv B I X);
  ext_zero : GoType → gv B I X;
  eval_default : GoField → gv B I X;
}.

Section Meaning.
Context {W B I R X : Type} `{!BinderMarshal W B} `{!BinderEq B} `{!FDSys W} `{!Linked W B I R X}.
#[local] Abbreviation V := (gv B I X).
#[local] Abbreviation M := (PM W B).

(** Go's [==] on map keys of the types that validation allows. *)
Definition gv_eqb (a b : V) : bool :=
  match a, b with
  | GNil, GNil => true
  | GBool x, GBool y => Bool.eqb x y
  | GInt x, GInt y => x =? y
  | GFloat32 x, GFloat32 y => float32_eqb x y
  | GFloat64 x, GFloat64 y => float64_eqb x y
  | GStr s, GStr t => String.eqb s t
  | GAny x, GAny y => gval_eqb x y
  | GBinder x, GBinder y => binder_eqb x y
  | GIface x, GIface y => iface_eqb (R := R) (W := W) (X := X) x y
  | _, _ => false
  end.
#[local] Instance gv_GoKey : GoKey V :=
  {| hashable := λ v, match v with GAny x => gval_hashable x | _ => true end; key_eqb := gv_eqb |}.

(** A value of another type than the expression's: the compiler refuses it. *)
Definition ill_typed {A} : M A := panic "value of another type".

(** Running a deferred function: on every way out of [m], whose result is kept unless
    only the deferred function fails. *)
Definition deferred {A} (m : M A) (d : M unit) : M A := λ s,
  let '(r, s1) := m s in
  let '(rd, s2) := d s1 in
  (match r, rd with
   | Ok _, Err e => Err e
   | Ok _, Panic y => Panic y
   | _, _ => r
   end, s2).

Section File.
Context (model : GoFile) (customParcelables : gmap string CustomParcelableConfig) (generatedImportRoot : string).
(** The room for nested calls of [ReadDynamicValue]. *)
Context (dyn_depth : nat).

Definition find_decl (name : string) : option gdecl :=
  (λ x, x.2.2) <$> list_find (λ d, d.1 = name) (render model customParcelables generatedImportRoot).

(** ** Writers *)

(** The value of a registrar expression where the variable holds [reg]. *)
Definition registrar_value (reg : option R) (e : string) : option R := if bool_decide (e = "nil") then None else reg.

(** [write<name>ToParcel] of an interface. *)
Definition write_interface (q name : string) (reg : option R) (v : V) : M unit :=
  match v with
  | GNil => WriteStrongBinder None
  | GIface i =>
      match AsBinder (Linked := _) i with
      | Some b => WriteStrongBinder b
      | None =>
          match reg with
          | None => throw (Errorf_w ErrUnsupported ("no local handler registrar available for " +:+ name))
          | Some r =>
              b ← (λ s, let '(b, w) := RegisterLocalHandler (Linked := _) r q name i (world s) in (b, mkst (ptr s) w));
              WriteStrongBinder b
          end
      end
  | _ => ill_typed
  end.

(** The nullable variants: a word that says whether there is a value. *)
Definition write_nullable (wr : V → M unit) (v : V) : M unit :=
  match v with
  | GNil => WriteInt32 0
  | GPtr v => WriteInt32 1;; wr v
  | _ => ill_typed
  end.

Definition write_fd (v : V) : M unit := match v with GFD fd => WriteParcelFileDescriptor fd | _ => ill_typed end.

Definition slice_value (v : V) : option (option (list V)) :=
  match v with GNil => Some None | GList l => Some (Some l) | _ => None end.
Definition map_value (v : V) : option (option (list (V * V))) :=
  match v with GNil => Some None | GMap m => Some (Some m) | _ => None end.
Definition write_any (v : V) : M unit := match v with GAny x => WriteDynamicValue x | _ => ill_typed end.

(** [call q nullable name reg v] is a call of a generated function. *)
Fixpoint run_w (call : string → bool → string → option (option R) → V → M unit) (reg : option R) (w : wexpr) (v : V) : M unit :=
  let run := run_w call reg in
  match w with
  | WBool => match v with GBool b => WriteBool b | _ => ill_typed end
  | WByte => match v with GInt n => WriteByte n | _ => ill_typed end
  | WChar => match v with GInt n => WriteChar n | _ => ill_typed end
  | WInt32 => match v with GInt n => WriteInt32 n | _ => ill_typed end
  | WInt64 => match v with GInt n => WriteInt64 n | _ => ill_typed end
  | WFloat32 => match v with GFloat32 n => WriteFloat32 n | _ => ill_typed end
  | WFloat64 => match v with GFloat64 n => WriteFloat64 n | _ => ill_typed end
  | WString => match v with GStr s => WriteString s | _ => ill_typed end
  | WNullableString =>
      match v with GNil => WriteNullableString None | GPtr (GStr s) => WriteNullableString (Some s) | _ => ill_typed end
  | WBinder => match v with GNil => WriteStrongBinder None | GBinder b => WriteStrongBinder (Some b) | _ => ill_typed end
  | WFileDescriptor => match v with GFD fd => WriteFileDescriptor fd | _ => ill_typed end
  | WParcelFileDescriptor => write_fd v
  | WNullableParcelFileDescriptor => write_nullable write_fd v
  | WCustom nullable alias fn =>
      if nullable then write_nullable (custom_write (Linked := _) alias fn) v else custom_write (Linked := _) alias fn v
  | WNamed q nullable name r => call q nullable name (registrar_value reg <$> r) v
  | WEnum q name => call q false name None v
  | WInterface q name r => write_interface q name (registrar_value reg r) v
  | WRawMap => match map_value v with Some m => WriteMap m (Some (write_any, write_any)) | None => ill_typed end
  | WMap k e => match map_value v with Some m => WriteMap m (Some (run k, run e)) | None => ill_typed end
  | WSlice e => match slice_value v with Some l => WriteSlice l (Some (run e)) | None => ill_typed end
  | WFixedSlice n e => match slice_value v with Some l => WriteFixedSlice l n (Some (run e)) | None => ill_typed end
  | WPresent w => WriteInt32 1;; run w v
  | WNonNil what w =>
      match v with GNil => throw (Errorf_w ErrBadParcelable what) | GPtr v => run w v | _ => ill_typed end
  | WUnsupported ty => throw (Errorf_w ErrUnsupported ("unsupported type " +:+ ty))
  | WNilType => panic "invalid memory address or nil pointer dereference"
  end.

(** The fields of a structured parcelable, one after another. *)
Fixpoint write_fields (run : wexpr → V → M unit) (ws : list wexpr) (vs : list V) : M unit :=
  match ws, vs with
  | [], [] => mret tt
  | w :: ws, v :: vs => run w v;; write_fields run ws vs
  | _, _ => ill_typed
  end.

(** A structured parcelable: the size word is written as zero and patched. *)
Definition write_struct (body : M unit) : M unit :=
  startPos ← position;
  WriteInt32 0;;
  body;;
  endPos ← position;
  SetPosition startPos;;
  WriteInt32 (i32 (endPos - startPos));;
  SetPosition endPos.

(** An opaque parcelable: its length and its bytes. *)
Definition write_opaque (v : V) : M unit :=
  match v with
  | GRaw data =>
      let n := match data with Some bs => len bs | None => 0 end in
      if n >? maxInt32 then throw (Errorf_w ErrBadParcelable ("opaque parcelable payload too large: " +:+ pretty n))
      else WriteInt32 (i32 n);; WriteRawBytes data
  | _ => ill_typed
  end.

(** A union: the tag, then the field it selects; the tag of the [i]-th field is [i]. *)
Definition write_union (run : wexpr → V → M unit) (ws : list wexpr) (name : string) (v : V) : M unit :=
  let invalid tag := throw (Errorf_w ErrBadParcelable ("invalid " +:+ name +:+ " tag " +:+ pretty tag)) in
  match v with
  | GUnionV tag vs =>
      WriteInt32 tag;;
      if tag <? 0 then invalid tag
      else match ws !! Z.to_nat tag, vs !! Z.to_nat tag with
           | Some w, Some v => run w v
           | None, _ => invalid tag
           | _, None => ill_typed
           end
  | _ => ill_typed
  end.

(** The function generated for a declaration; a variant without registrar passes nil. *)
Definition write_decl (call : string → bool → string → option (option R) → V → M unit) (d : gdecl) (name : string)
    (reg : option R) (v : V) : M unit :=
  match d with
  | GEnum w _ => run_w call reg w v
  | GStruct _ _ ws _ =>
      match v with GStructV vs => write_struct (write_fields (run_w call reg) ws vs) | _ => ill_typed end
  | GOpaque => write_opaque v
  | GCustom alias w _ => custom_write (Linked := _) alias w v
  | GUnion _ _ ws _ => write_union (run_w call reg) ws name v
  | GInterface _ => write_interface "" name reg v
  end.

(** A function that this file does not declare is another file's. *)
Fixpoint write_call (depth : nat) (q : string) (nullable : bool) (name : string) (reg : option (option R)) (v : V) : M unit :=
  match (if bool_decide (q = "") then find_decl name else None) with
  | None => ext_write (Linked := _) q nullable name reg v
  | Some d =>
      match depth with
      | O => panic "stack overflow"
      | S depth =>
          let body := write_decl (write_call depth) d name (default None reg) in
          if nullable then write_nullable body v else body v
      end
  end.

(** ** Zero values *)

(** The value of [var x T]; the fuel bounds the parcelables nested by value, of which
    Go allows no cycle. *)
Fixpoint zero_val (fuel : nat) (t : GoType) : V :=
  match ty_Kind t with
  | TypeBool => GBool false
  | TypeByte | TypeChar | TypeInt32 | TypeInt64 | TypeEnum => GInt 0
  | TypeFloat32 => GFloat32 0
  | TypeFloat64 => GFloat64 0
  | TypeString => if ty_Nullable t then GNil else GStr ""
  | TypeFileDescriptor => GFD (mkFD 0 false)
  | TypeParcelFileDescriptor => if ty_Nullable t then GNil else GFD (mkFD 0 false)
  | TypeParcelable | TypeUnion =>
      if ty_Nullable t then GNil
      else
        match customParcelableConfig model customParcelables t,
              (if bool_decide (generatedQualifier model generatedImportRoot t = "") then find_decl (ty_NamedGo t) else None), fuel with
        | None, Some (GStruct _ fs _ _), S fuel => GStructV (zero_val fuel <$> (gf_Type <$> fs))
        | None, Some (GUnion _ fs _ _), S fuel => GUnionV 0 (zero_val fuel <$> (gf_Type <$> fs))
        | None, Some GOpaque, _ => GRaw None
        | _, _, _ => ext_zero (Linked := _) t
        end
  | _ => GNil
  end.

Definition zero (t : GoType) : V := zero_val (length (go_Parcelables model) + length (go_Unions model)) t.

(** A field of a value made by the parcelable's [New] function, or its zero value. *)
Definition initial (f : GoField) : V :=
  if bool_decide (gf_DefaultValue f = "") then zero (gf_Type f) else eval_default (Linked := _) f.

(** ** Readers *)

Definition read_interface (q name : string) : M V :=
  b ← ReadStrongBinder;
  mret (match b with None => GNil | Some b => GIface (new_client (Linked := _) q name b) end).

Definition read_nullable (rd : M V) : M V :=
  present ← ReadInt32;
  if present =? 0 then mret GNil else v ← rd; mret (GPtr v).

Definition of_slice (o : option (list V)) : V := match o with None => GNil | Some l => GList l end.
Definition of_map (o : option (list (V * V))) : V := match o with None => GNil | Some m => GMap m end.

Fixpoint run_r (call : string → bool → string → M V) (r : rexpr) : M V :=
  match r with
  | RBool => b ← ReadBool; mret (GBool b)
  | RByte => n ← ReadByte; mret (GInt n)
  | RChar => n ← ReadChar; mret (GInt n)
  | RInt32 => n ← ReadInt32; mret (GInt n)
  | RInt64 => n ← ReadInt64; mret (GInt n)
  | RFloat32 => n ← ReadFloat32; mret (GFloat32 n)
  | RFloat64 => n ← ReadFloat64; mret (GFloat64 n)
  | RString => s ← ReadString; mret (GStr s)
  | RNullableString => o ← ReadNullableString; mret (match o with None => GNil | Some s => GPtr (GStr s) end)
  | RBinder => b ← ReadStrongBinder; mret (match b with None => GNil | Some b => GBinder b end)
  | RFileDescriptor => fd ← ReadFileDescriptor; mret (GFD fd)
  | RRequiredParcelFileDescriptor =>
      fd ← ReadParcelFileDescriptor; if fd_fd fd <? 0 then throw ErrBadParcelable else mret (GFD fd)
  | RNullableParcelFileDescriptor => read_nullable (fd ← ReadParcelFileDescriptor; mret (GFD fd))
  | RCustom nullable alias fn =>
      if nullable then read_nullable (custom_read (Linked := _) alias fn) else custom_read (Linked := _) alias fn
  | RNamed q nullable name => call q nullable name
  | REnum q name => call q false name
  | RInterface q name => read_interface q name
  | RRawMap =>
      let any := v ← ReadDynamicValue dyn_depth; mret (GAny v) in
      m ← ReadMap (Some (any, any)); mret (of_map m)
  | RMap k e => m ← ReadMap (Some (run_r call k, run_r call e)); mret (of_map m)
  | RSlice e => l ← ReadSlice (Some (run_r call e)); mret (of_slice l)
  | RFixedSlice n e => l ← ReadFixedSlice n (Some (run_r call e)); mret (GList l)
  | RPresent t r => present ← ReadInt32; if present =? 0 then mret (zero t) else run_r call r
  | RPointer r => present ← ReadInt32; if present =? 0 then throw ErrBadParcelable else v ← run_r call r; mret (GPtr v)
  | RUnsupported ty => throw (Errorf_w ErrUnsupported ("unsupported type " +:+ ty))
  | RNilType => panic "invalid memory address or nil pointer dereference"
  end.

(** The fields in order; after each one the reader stops when the size is used up, and
    the rest keeps its initial values. *)
Fixpoint read_fields (run : rexpr → M V) (startPos size : Z) (rs : list rexpr) (rest : list V) : M (list V) :=
  match rs, rest with
  | r :: rs, _ :: rest =>
      v ← run r;
      p ← position;
      if p - startPos >=? size then mret (v :: rest)
      else vs ← read_fields run startPos size rs rest; mret (v :: vs)
  | _, rest => mret rest
  end.

Definition read_struct (body : Z → Z → M V) (initial : V) : M V :=
  startPos ← position;
  size ← ReadInt32;
  if size <? 0 then mret initial
  else
    s ← receiver;
    let endPos := startPos + size in
    if (endPos <? startPos) || (endPos >? Len s)
    then throw (Errorf_w ErrBadParcelable ("invalid parcelable size " +:+ pretty size))
    else deferred (body startPos size) (SetPosition endPos).

Definition read_opaque : M V :=
  size ← ReadInt32;
  if size <? 0 then throw (Errorf_w ErrBadParcelable ("negative opaque parcelable size " +:+ pretty size))
  else raw ← ReadRawBytes size; mret (GRaw (Some raw)).

Definition read_union (run : rexpr → M V) (fs : list GoField) (rs : list rexpr) (name : string) : M V :=
  let invalid tag := throw (Errorf_w ErrBadParcelable ("invalid " +:+ name +:+ " tag " +:+ pretty tag)) in
  tag ← ReadInt32;
  if tag <? 0 then invalid tag
  else match rs !! Z.to_nat tag with
       | None => invalid tag
       | Some r => v ← run r; mret (GUnionV tag (<[Z.to_nat tag := v]> (zero <$> (gf_Type <$> fs))))
       end.

Definition read_decl (call : string → bool → string → M V) (d : gdecl) (name : string) : M V :=
  match d with
  | GEnum _ r => run_r call r
  | GStruct _ fs _ rs =>
      read_struct (λ startPos size, vs ← read_fields (run_r call) startPos size rs (initial <$> fs); mret (GStructV vs))
        (GStructV (initial <$> fs))
  | GOpaque => read_opaque
  | GCustom alias _ r => custom_read (Linked := _) alias r
  | GUnion _ fs _ rs => read_union (run_r call) fs rs name
  | GInterface _ => read_interface "" name
  end.

Fixpoint read_call (depth : nat) (q : string) (nullable : bool) (name : string) : M V :=
  match (if bool_decide (q = "") then find_decl name else None) with
  | None => ext_read (Linked := _) q nullable name
  | Some d =>
      match depth with
      | O => panic "stack overflow"
      | S depth =>
          let body := read_decl (read_call depth) d name in
          if nullable then read_nullable body else body
      end
  end.

(** ** The exported functions of a declaration, which other packages call *)

Definition needs_registrar (d : gdecl) : bool :=
  match d with GStruct needs _ _ _ | GUnion needs _ _ _ => needs | _ => false end.

Definition exported_write (depth : nat) (nullable : bool) (name : string) (registrar : option (option R)) (v : V) : M unit :=
  match find_decl name with
  | Some d => write_call depth "" nullable name (if needs_registrar d then registrar else None) v
  | None => ill_typed
  end.

Definition exported_read (depth : nat) (nullable : bool) (name : string) : M V :=
  match find_decl name with Some _ => read_call depth "" nullable name | None => ill_typed end.

(** ** The client's methods

    [with_parcel p m] runs [m] on a Parcel of its own, in the world [W]. *)

Definition with_parcel {A} (p : Parcel W B) (m : M A) : ST error W (A * option (Parcel W B)) := λ w,
  match m (mkst (Some p) w) with
  | (Ok a, s) => (Ok (a, ptr s), world s)
  | (Err e, s) => (Err e, world s)
  | (Panic y, s) => (Panic y, world s)
  end.

Fixpoint write_args (run : wexpr → V → M unit) (ws : list wexpr) (args : list V) : M unit :=
  match ws, args with
  | [], [] => mret tt
  | w :: ws, v :: args => run w v;; write_args run ws args
  | _, _ => ill_typed
  end.

Fixpoint read_values (run : rexpr → M V) (rs : list rexpr) : M (list V) :=
  match rs with
  | [] => mret []
  | r :: rs => v ← run r; vs ← read_values run rs; mret (v :: vs)
  end.

(** A method of the client: the results are the return value and the outputs, in
    order.  [reg] is the target as a registrar, if it is one; [transact] its
    Transact. *)
Definition call_proxy (depth : nat) (descriptor : string) (px : gproxy) (reg : option R)
    (transact : Z → Parcel W B → Z → ST error W (option (Parcel W B))) (args : list V) : ST error W (list V) :=
  '(_, req) ← with_parcel NewParcel
    (WriteInterfaceToken descriptor;;
     write_args (run_w (write_call depth) (if px_DeclaresRegistrar px then reg else None)) (px_Args px) args);
  match req with
  | None => throw ErrBadParcelable
  | Some req =>
      resp ← transact (px_Code px) req (if px_Oneway px then FlagOneway else FlagNone);
      if px_Oneway px then mret []
      else
        match resp with
        | None => throw ErrBadParcelable
        | Some resp =>
            '(results, _) ← with_parcel resp
              (ReadException;; read_values (run_r (read_call depth)) (option_list (px_Return px) ++ px_Outputs px));
            mret results
        end
  end.

(** ** The handler *)

(** The reply of a case whose implementation failed: the exception if it can be sent,
    the error itself otherwise. *)
Definition error_reply (e : error) : ST error W (option (Parcel W B)) :=
  '(r, reply) ← with_parcel NewParcel (TryWriteException (Some e));
  match r with
  | (_, Some writeErr) => throw writeErr
  | (true, None) => mret reply
  | (false, None) => throw e
  end.

(** [impl method args] is the service's method. *)
Definition handle_case (depth : nat) (registrar : option R) (impl : string → list V → ST error W (list V)) (c : gcase)
    (args : list V) : ST error W (option (Parcel W B)) := λ w,
  match impl (cs_Method c) args w with
  | (Panic y, w) => (Panic y, w)
  | (Err e, w) => if cs_Oneway c then (Err e, w) else error_reply e w
  | (Ok results, w) =>
      if cs_Oneway c then (Ok None, w)
      else
        ('(_, reply) ← with_parcel NewParcel
           (WriteNoException;; write_args (run_w (write_call depth) registrar) (option_list (cs_Return c) ++ cs_Outputs c) results);
         mret reply) w
  end.

Definition handler_cases (iface : GoInterface) : list gcase :=
  renderHandlerCase model customParcelables generatedImportRoot <$> gi_Methods iface.

Definition HandleTransact (depth : nat) (iface : GoInterface) (registrar : option R)
    (impl : string → list V → ST error W (list V)) (code : Z) (data : Parcel W B) : ST error W (option (Parcel W B)) :=
  '(found, data) ← with_parcel data ReadInterfaceToken;
  if negb (bool_decide (found = gi_Descriptor iface)) then
    throw (Errorf_w ErrBadParcelable ("descriptor " +:+ in_quotes found +:+ ", want " +:+ in_quotes (gi_Descriptor iface)))
  else
    match list_find (λ c, cs_Code c = code) (handler_cases iface), data with
    | Some (_, c), Some data =>
        '(args, _) ← with_parcel data (read_values (run_r (read_call depth)) (cs_Args c));
        handle_case depth registrar impl c args
    | _, _ => throw (Errorf_w ErrUnknownTransaction (gi_GoName iface +:+ " transaction code " +:+ pretty code))
    end.
End File.
End Meaning.

(** ** Stable interfaces

    The client of a stable interface asks its target for the version and the hash once
    and keeps the answers; the two methods hold their mutex throughout. *)

Record stableClient := mkStable {
  versionResolved : bool; cachedVersion : Z; hashResolved : bool; cachedHash : string;
}.
Definition new_stable_client : stableClient := mkStable false (-1) false "-1".

Section Stable.
Context {W : Type}.

(** [query<name>InterfaceVersion] over binder.GetInterfaceVersion: a target that does not
    know the transaction has version -1. *)
Definition query_or {A} (unknown : A) (get : ST error W A) : ST error W A := λ w,
  match get w with
  | (Err e, w) => (if errors_Is e ErrUnknownTransaction then Ok unknown else Err e, w)
  | r => r
  end.
Definition queryInterfaceVersion (get : ST error W Z) : ST error W Z := query_or (-1) get.
Definition queryInterfaceHash (get : ST error W string) : ST error W string := query_or "-1" get.

(** A nil client and a nil target are [None]. *)
Definition InterfaceVersion (target : option (ST error W Z)) : ST error (stableClient * W) Z := λ '(c, w),
  match target with
  | None => (Err (ESentinel ErrUnsupported), (c, w))
  | Some get =>
      if versionResolved c then (Ok (cachedVersion c), (c, w))
      else match queryInterfaceVersion get w with
           | (Ok v, w) => (Ok v, (mkStable true v (hashResolved c) (cachedHash c), w))
           | (Err e, w) => (Err e, (c, w))
           | (Panic y, w) => (Panic y, (c, w))
           end
  end.

Definition InterfaceHash (target : option (ST error W string)) : ST error (stableClient * W) string := λ '(c, w),
  match target with
  | None => (Err (ESentinel ErrUnsupported), (c, w))
  | Some get =>
      if hashResolved c then (Ok (cachedHash c), (c, w))
      else match queryInterfaceHash get w with
           | (Ok h, w) => (Ok h, (mkStable (versionResolved c) (cachedVersion c) true h, w))
           | (Err e, w) => (Err e, (c, w))
           | (Panic y, w) => (Panic y, (c, w))
           end
  end.

(** [Get<name>InterfaceVersion] and [Get<name>InterfaceHash] on a value of the interface:
    its own answer where it has one (the client's method, which takes a context, or a
    provider's), the target's otherwise. *)
Inductive stableValue (A : Type) :=
| SNil
| SClient (m : ST error W A)
| SProvider (a : A)
| SBinder (get : ST error W A)
| SOther.
Arguments SNil {A}.
Arguments SClient {A} _.
Arguments SProvider {A} _.
Arguments SBinder {A} _.
Arguments SOther {A}.

Definition get_stable {A} (query : ST error W A → ST error W A) (v : stableValue A) : ST error W A :=
  match v with
  | SNil | SOther => throw ErrUnsupported
  | SClient m => m
  | SProvider a => mret a
  | SBinder get => query get
  end.
Definition GetInterfaceVersion_value : stableValue Z → ST error W Z := get_stable queryInterfaceVersion.
Definition GetInterfaceHash_value : stableValue string → ST error W string := get_stable queryInterfaceHash.
End Stable.
