(* ===== verification/GeneratedWire.v ===== *)
(** * GeneratedWire: the wire format of generated types

    The specification the generated code is held to: the bytes of a value of each
    type of the model ([wire]), and the values a sender may pass ([sendable]).  It
    covers values without Binders and file descriptors (nil ones included): scalars,
    strings, enums, lists, fixed-size arrays, maps, parcelables and unions, nullable
    or not, nested to any depth.  The code of other packages and custom functions
    come with their own wire format: the class [Contract]. *)

From stdpp Require Import base list numbers strings pretty gmap.
From S2P Require Import Prelude Errors Unicode Parcel ParcelFacts Codec ObjectCodec Fields Slices Value ValueProps Status Aidl AidlExpr AidlResolve GoText AidlNames AidlLower Codegen CodegenExpr GeneratedCode.

Open Scope Z_scope.

Definition word (n : Z) : list Z := le_bytes 4 (u32 n).
#[global] Arguments word _ : simpl never.

(** What linked code promises: it appends a wire image of a value it accepts, and
    reads the value back from it.  The image of an enum of another file is not
    empty. *)
Class Contract (W B I R X : Type) `{!Linked W B I R X} := {
  custom_ok : string → string → string → gv B I X → Prop;
  custom_wire : string → string → gv B I X → list Z;
  custom_emits alias w r v : custom_ok alias w r v → emits (custom_write alias w v) tt (custom_wire alias w v) [];
  custom_consumes alias w r v : custom_ok alias w r v → consumes (custom_read alias r) v (custom_wire alias w v) [];
  ext_ok : string → bool → string → gv B I X → Prop;
  ext_wire : string → bool → string → gv B I X → list Z;
  ext_emits q n name reg v : ext_ok q n name v → emits (ext_write q n name reg v) tt (ext_wire q n name v) [];
  ext_consumes q n name v : ext_ok q n name v → consumes (ext_read q n name) v (ext_wire q n name v) [];
  ext_nonempty q n name v : ext_ok q n name v → 0 < len (ext_wire q n name v);
}.

(** [Forall2] as a conjunction. *)
Fixpoint all2 {A C} (P : A → C → Prop) (l : list A) (k : list C) : Prop :=
  match l, k with
  | [], [] => True
  | a :: l, c :: k => P a c ∧ all2 P l k
  | _, _ => False
  end.

Lemma all2_Forall2 {A C} (P : A → C → Prop) l k : all2 P l k ↔ Forall2 P l k.
Proof.
  revert k. induction l as [|a l IH]; intros [|c k]; cbn.
  - by split.
  - split; [done|by inversion 1].
  - split; [done|by inversion 1].
  - by rewrite IH, Forall2_cons.
Qed.

Section Wire.
Context {W B I R X : Type} `{!BinderMarshal W B} `{!BinderEq B} `{!FDSys W} `{!Linked W B I R X} `{!Contract W B I R X}.
#[local] Abbreviation V := (gv B I X).
Context (model : GoFile) (customs : gmap string CustomParcelableConfig) (root : string) (dyn_depth : nat).
#[local] Existing Instance gv_GoKey.

(** ** Scalars *)

Definition kind_wire (k : TypeKind) (nullable : bool) (v : V) : list Z :=
  match k, v with
  | TypeBool, GBool b => le_bytes 4 (Z.b2z b)
  | TypeByte, GInt n => [u8 n] ++ zeros 3
  | TypeChar, GInt n => le_bytes 2 n ++ zeros 2
  | TypeInt32, GInt n => le_bytes 4 (u32 n)
  | TypeInt64, GInt n => le_bytes 8 (u64 n)
  | TypeFloat32, GFloat32 n => le_bytes 4 n
  | TypeFloat64, GFloat64 n => le_bytes 8 n
  | TypeString, GStr s => string_bytes s
  | TypeString, GPtr (GStr s) => string_bytes s
  | TypeString, GNil => word (-1)
  | (TypeBinder | TypeInterface), GNil => null_bytes
  | _, _ => []
  end.

Definition kind_ok (k : TypeKind) (nullable : bool) (v : V) : Prop :=
  match k, v with
  | TypeBool, GBool b => True
  | TypeByte, GInt n => in_s 8 n
  | TypeChar, GInt n => in_u 16 n
  | TypeInt32, GInt n => in_s 32 n
  | TypeInt64, GInt n => in_s 64 n
  | TypeFloat32, GFloat32 n => in_u 32 n
  | TypeFloat64, GFloat64 n => in_u 64 n
  | TypeString, GStr s => nullable = false ∧ string_ok s
  | TypeString, GPtr (GStr s) => nullable = true ∧ string_ok s
  | TypeString, GNil => nullable = true
  | (TypeBinder | TypeInterface), GNil => True
  | _, _ => False
  end.

(** ** Compound values *)

(** The word in front of a non-nullable object inside another value. *)
Definition present (t : GoType) : list Z :=
  if methodUsesTypedObjectEncoding t && negb (ty_Nullable t) then word 1 else [].

Definition nullable_wire (nullable : bool) (f : V → list Z) (v : V) : list Z :=
  if nullable then match v with GNil => word 0 | GPtr v => word 1 ++ f v | _ => [] end else f v.
Definition nullable_ok (nullable : bool) (P : V → Prop) (v : V) : Prop :=
  if nullable then match v with GNil => True | GPtr v => P v | _ => False end else P v.

Fixpoint fields_wire (wire : GoType → V → list Z) (fs : list GoField) (vs : list V) : list Z :=
  match fs, vs with
  | f :: fs, v :: vs => wire (gf_Type f) v ++ fields_wire wire fs vs
  | _, _ => []
  end.

(** A structured parcelable is its size, the size word included, and its fields; an
    opaque one its length and bytes; a union its tag and the field it selects. *)
Definition decl_wire (wire : GoType → V → list Z) (d : gdecl) (v : V) : list Z :=
  match d, v with
  | GStruct _ fs _ _, GStructV vs => word (4 + len (fields_wire wire fs vs)) ++ fields_wire wire fs vs
  | GOpaque, GRaw (Some bs) => prefixed (len bs) bs
  | GUnion _ fs _ _, GUnionV tag vs =>
      word tag ++ match fs !! Z.to_nat tag, vs !! Z.to_nat tag with Some f, Some v => wire (gf_Type f) v | _, _ => [] end
  | _, _ => []
  end.

Definition decl_ok (wire : GoType → V → list Z) (ok : GoType → V → Prop) (d : gdecl) (v : V) : Prop :=
  match d, v with
  | GStruct _ fs _ _, GStructV vs =>
      all2 (λ f v, ok (gf_Type f) v) fs vs ∧ 4 + len (fields_wire wire fs vs) <= maxInt32
  | GOpaque, GRaw (Some bs) => len bs <= maxInt32
  | GUnion _ fs _ _, GUnionV tag vs =>
      0 <= tag <= maxInt32 ∧
      match fs !! Z.to_nat tag, vs !! Z.to_nat tag with
      | Some f, Some v => ok (gf_Type f) v ∧
          vs = <[Z.to_nat tag := v]> (zero model customs root <$> (gf_Type <$> fs))
      | _, _ => False
      end
  | _, _ => False
  end.

Definition find_enum (name : string) : option GoEnum := snd <$> list_find (λ e, ge_GoName e = name) (go_Enums model).

(** The declaration of this file that a type names. *)
Definition local_decl (t : GoType) : option gdecl :=
  if bool_decide (generatedQualifier model root t = "") then find_decl model customs root (ty_NamedGo t) else None.

Definition any_wire (v : V) : list Z := match v with GAny x => dyn_bytes x | _ => [] end.
Definition any_ok (v : V) : Prop := match v with GAny x => dyn_ok x ∧ norm x = x ∧ (depth x < dyn_depth)%nat | _ => False end.

Definition enum_wire (t : GoType) (v : V) : list Z :=
  match local_decl t with
  | None => ext_wire (generatedQualifier model root t) false (ty_NamedGo t) v
  | Some _ => match find_enum (ty_NamedGo t) with Some e => kind_wire (ty_Kind (ge_Underlying e)) false v | None => [] end
  end.
Definition enum_ok (n : nat) (t : GoType) (v : V) : Prop :=
  match local_decl t with
  | None => ext_ok (generatedQualifier model root t) false (ty_NamedGo t) v
  | Some _ =>
      match find_enum (ty_NamedGo t) with
      | Some e => n ≠ O ∧ ty_Kind (ge_Underlying e) ∈ [TypeByte; TypeInt32; TypeInt64] ∧ kind_ok (ty_Kind (ge_Underlying e)) false v
      | None => False
      end
  end.

(** [n] bounds the nested calls of this file's functions: one for each parcelable, union
    and enum inside another. *)
Fixpoint wire (n : nat) : GoType → V → list Z :=
  let named t v :=
    match customParcelableConfig model customs t with
    | Some (cfg, alias) => nullable_wire (ty_Nullable t) (custom_wire alias (cc_WriteFunc cfg)) v
    | None =>
        match local_decl t, n with
        | None, _ => ext_wire (generatedQualifier model root t) (ty_Nullable t) (ty_NamedGo t) v
        | Some d, S n => nullable_wire (ty_Nullable t) (decl_wire (λ t v, present t ++ wire n t v) d) v
        | Some d, O => []
        end
    end in
  fix go (t : GoType) (v : V) : list Z :=
    let inside o := match o with Some e => λ v, present e ++ go e v | None => λ _, [] end in
    match ty_Kind t with
    | TypeSlice | TypeArray => match v with GList l => slice_bytes (inside (ty_Elem t)) l | _ => word (-1) end
    | TypeMap =>
        match v with
        | GMap m => if isRawMapType t then map_bytes any_wire any_wire m else map_bytes (inside (ty_Key t)) (inside (ty_Value t)) m
        | _ => word (-1)
        end
    | TypeEnum => enum_wire t v
    | TypeParcelable | TypeUnion => named t v
    | k => kind_wire k (ty_Nullable t) v
    end.

Fixpoint sendable (n : nat) : GoType → V → Prop :=
  let named t v :=
    match customParcelableConfig model customs t with
    | Some (cfg, alias) => nullable_ok (ty_Nullable t) (custom_ok alias (cc_WriteFunc cfg) (cc_ReadFunc cfg)) v
    | None =>
        match local_decl t, n with
        | None, _ => ext_ok (generatedQualifier model root t) (ty_Nullable t) (ty_NamedGo t) v
        | Some d, S n => nullable_ok (ty_Nullable t) (decl_ok (λ t v, present t ++ wire n t v) (sendable n) d) v
        | Some d, O => False
        end
    end in
  fix go (t : GoType) (v : V) : Prop :=
    let inside o v := match o with Some e => go e v | None => False end in
    match ty_Kind t with
    | TypeSlice => match v with GNil => True | GList l => len l <= maxInt32 ∧ all (inside (ty_Elem t)) l | _ => False end
    | TypeArray => match v with GList l => len l = ty_FixedLen t ∧ len l <= maxInt32 ∧ all (inside (ty_Elem t)) l | _ => False end
    | TypeMap =>
        match v with
        | GNil => True
        | GMap m => len m <= maxInt32 ∧ keys_distinct (m.*1) ∧
            if isRawMapType t then all (λ kv, any_ok kv.1 ∧ any_ok kv.2) m
            else all (λ kv, inside (ty_Key t) kv.1 ∧ inside (ty_Value t) kv.2) m
        | _ => False
        end
    | TypeEnum => enum_ok n t v
    | TypeParcelable | TypeUnion => named t v
    | k => kind_ok k (ty_Nullable t) v
    end.

(** *** The equations of the two definitions *)

Definition named_wire (n : nat) (t : GoType) (v : V) : list Z :=
  match customParcelableConfig model customs t with
  | Some (cfg, alias) => nullable_wire (ty_Nullable t) (custom_wire alias (cc_WriteFunc cfg)) v
  | None =>
      match local_decl t, n with
      | None, _ => ext_wire (generatedQualifier model root t) (ty_Nullable t) (ty_NamedGo t) v
      | Some d, S n => nullable_wire (ty_Nullable t) (decl_wire (λ t v, present t ++ wire n t v) d) v
      | Some d, O => []
      end
  end.

Definition wire_inside (n : nat) (o : option GoType) : V → list Z :=
  match o with Some e => λ v, present e ++ wire n e v | None => λ _, [] end.

Lemma wire_eq n t v : wire n t v =
  match ty_Kind t with
  | TypeSlice | TypeArray => match v with GList l => slice_bytes (wire_inside n (ty_Elem t)) l | _ => word (-1) end
  | TypeMap =>
      match v with
      | GMap m => if isRawMapType t then map_bytes any_wire any_wire m
                  else map_bytes (wire_inside n (ty_Key t)) (wire_inside n (ty_Value t)) m
      | _ => word (-1)
      end
  | TypeEnum => enum_wire t v
  | TypeParcelable | TypeUnion => named_wire n t v
  | k => kind_wire k (ty_Nullable t) v
  end.
Proof. by destruct n, t as [[]]. Qed.

Definition named_ok (n : nat) (t : GoType) (v : V) : Prop :=
  match customParcelableConfig model customs t with
  | Some (cfg, alias) => nullable_ok (ty_Nullable t) (custom_ok alias (cc_WriteFunc cfg) (cc_ReadFunc cfg)) v
  | None =>
      match local_decl t, n with
      | None, _ => ext_ok (generatedQualifier model root t) (ty_Nullable t) (ty_NamedGo t) v
      | Some d, S n => nullable_ok (ty_Nullable t) (decl_ok (λ t v, present t ++ wire n t v) (sendable n) d) v
      | Some d, O => False
      end
  end.

Definition inside_ok (n : nat) (o : option GoType) (v : V) : Prop := match o with Some e => sendable n e v | None => False end.

Lemma sendable_eq n t v : sendable n t v =
  match ty_Kind t with
  | TypeSlice => match v with GNil => True | GList l => len l <= maxInt32 ∧ all (inside_ok n (ty_Elem t)) l | _ => False end
  | TypeArray =>
      match v with GList l => len l = ty_FixedLen t ∧ len l <= maxInt32 ∧ all (inside_ok n (ty_Elem t)) l | _ => False end
  | TypeMap =>
      match v with
      | GNil => True
      | GMap m => len m <= maxInt32 ∧ keys_distinct (m.*1) ∧
          if isRawMapType t then all (λ kv, any_ok kv.1 ∧ any_ok kv.2) m
          else all (λ kv, inside_ok n (ty_Key t) kv.1 ∧ inside_ok n (ty_Value t) kv.2) m
      | _ => False
      end
  | TypeEnum => enum_ok n t v
  | TypeParcelable | TypeUnion => named_ok n t v
  | k => kind_ok k (ty_Nullable t) v
  end.
Proof. by destruct n, t as [[]]. Qed.
End Wire.
