(* ===== verification/GeneratedProps.v ===== *)
(** * GeneratedProps: generated writers and readers agree

    Every generated writer appends the wire image of GeneratedWire and every
    generated reader returns the value from it. *)

From stdpp Require Import base list numbers strings pretty gmap.
From S2P Require Import Prelude Errors Unicode Parcel ParcelFacts Codec ObjectCodec Fields ParcelInv Slices Value ValueProps Status Aidl AidlExpr AidlResolve GoText AidlNames AidlLower Codegen CodegenExpr CodegenProps GeneratedCode GeneratedWire.

Open Scope Z_scope.

#[local] Arguments le_bytes : simpl never.
#[local] Arguments string_bytes : simpl never.
#[local] Arguments null_bytes : simpl never.
#[local] Arguments zeros : simpl never.

Section Carried.
Context {W B I R X : Type} `{!BinderMarshal W B} `{!BinderEq B} `{!FDSys W} `{!Linked W B I R X} `{!Contract W B I R X}.
#[local] Abbreviation V := (gv B I X).
#[local] Existing Instance gv_GoKey.

(** A writer and a reader agree on the image of a value. *)
Definition carried (wr : PM W B unit) (rd : PM W B V) (v : V) (bs : list Z) : Prop :=
  emits wr tt bs [] ∧ consumes rd v bs [].

Lemma carried_roundtrip wr rd v bs (p : Parcel W B) w : carried wr rd v bs → append_ok p → len (buf p) + len bs <= maxInt →
  (wr;; SetPosition (pos p);; rd) (mkst (Some p) w) = (Ok v, mkst (Some (p_emit p bs [])) w).
Proof.
  intros [Hw Hr] [Hp Hobj] Hl. rewrite (bind_ok _ _ _ _ _ (Hw p w Hp Hl)).
  rewrite (bind_ok _ _ _ _ _ (SetPosition_ok (p_emit p bs []) w (pos p)
             ltac:(cbn [p_emit buf set_pos set_buf set_objects]; rewrite length_app; lia))).
  rewrite (Hr (set_pos (pos p) (p_emit p bs [])) w (buf p) []); [done|..|constructor].
  - cbn [p_emit buf set_pos set_buf set_objects]. by rewrite app_nil_r.
  - done.
  - cbn [p_emit buf set_pos set_buf set_objects]. rewrite length_app. lia.
Qed.

Lemma consumes_word {A} n (k : Z → PM W B A) a bs : in_s 32 n → consumes (k n) a bs [] →
  consumes (ReadInt32 ≫= k) a (word n ++ bs) [].
Proof. intros Hn Hk. eapply consumes_bind_nil; [by apply consumes_ReadInt32|done]. Qed.

Lemma emits_word n (m : PM W B unit) bs : emits m tt bs [] → emits (WriteInt32 n;; m) tt (word n ++ bs) [].
Proof. intros H. eapply emits_bind_nil; [apply emits_WriteInt32|done]. Qed.

Lemma consumes_ReadStrongBinder_null : @consumes W B _ ReadStrongBinder None null_bytes [].
Proof.
  intros p w pre post Hb Hp Hm _. unfold ReadStrongBinder.
  by rewrite (bind_ok _ _ _ _ _ (consumes_null p w pre post Hb Hp Hm)).
Qed.

(** ** Optional values *)

Lemma carried_present (wr : PM W B unit) (rd : PM W B V) z v bs : carried wr rd v bs →
  carried (WriteInt32 1;; wr) (p ← ReadInt32; if p =? 0 then mret z else rd) v (word 1 ++ bs).
Proof. intros [Hw Hr]. split; [by apply emits_word|]. apply consumes_word; [done|exact Hr]. Qed.

Lemma carried_nullable (wr : V → PM W B unit) (rd : PM W B V) (f : V → list Z) (P : V → Prop) v :
  (∀ v, P v → carried (wr v) rd v (f v)) → nullable_ok true P v →
  carried (write_nullable wr v) (read_nullable rd) v (nullable_wire true f v).
Proof.
  intros H. destruct v; cbn; try done; intros Hv.
  - split; [apply emits_WriteInt32|]. rewrite <- (app_nil_r (word 0)). apply consumes_word; [done|]. apply consumes_ret.
  - destruct (H _ Hv) as [Hw Hr]. split; [by apply emits_word|]. apply consumes_word; [done|].
    cbn. by apply consumes_fmap with (f := GPtr) (a := v).
Qed.

(** ** Sized parcelables *)

(** A reader of the size word and then of exactly that many bytes. *)
Lemma consumes_struct (body : Z → Z → PM W B V) init v bs : 4 + len bs <= maxInt32 →
  (∀ p w pre post, buf p = pre ++ bs ++ post → pos p = len pre → len (buf p) <= maxInt →
     body (len pre - 4) (4 + len bs) (mkst (Some p) w) = (Ok v, mkst (Some (set_pos (len pre + len bs) p)) w)) →
  consumes (read_struct body init) v (word (4 + len bs) ++ bs) [].
Proof.
  intros Hl Hb p w pre post Hbuf Hp Hm Hr. unfold read_struct. rewrite <- app_assoc in Hbuf.
  rewrite (bind_ok _ _ _ _ _ (position_at p w)).
  rewrite (bind_ok _ _ _ _ _ (consumes_ReadInt32 (W := W) (B := B) (4 + len bs) ltac:(width) p w pre
             (bs ++ post) Hbuf Hp Hm ltac:(constructor))).
  rewrite ltb_false by lia. rewrite bind_receiver. cbn [ptr]. set (p1 := set_pos _ p).
  assert (Hlen : Len (Some p1) = len pre + (4 + len bs) + len post)
    by (unfold Len, p1; cbn [buf set_pos]; rewrite Hbuf; unfold word; len_lia).
  assert (Hc : (pos p + (4 + len bs) <? pos p) || (pos p + (4 + len bs) >? Len (Some p1)) = false)
    by (rewrite Hlen; zif; lia).
  rewrite Hc. unfold deferred.
  assert (E := Hb p1 w (pre ++ word (4 + len bs)) post).
  replace (len (pre ++ word (4 + len bs)) - 4) with (pos p) in E by (unfold word; len_lia).
  rewrite E; [|unfold p1; cbn [buf set_pos]; by rewrite Hbuf, <- app_assoc
              |unfold p1, word; cbn [pos set_pos]; len_lia|done].
  rewrite SetPosition_ok; [|change (len (buf (set_pos _ p1))) with (Len (Some p1)); rewrite Hlen, Hp; lia].
  do 3 f_equal. unfold p1, set_pos; cbn [pos buf objects mode flags binderResolver localBinderResolve
    binderObjectResolve localBinderObjectResolve wireFDsOwned]. f_equal. rewrite Hp, length_app.
  unfold word. rewrite length_le_bytes. lia.
Qed.

(** Field after field; none of them is empty, so that the reader never stops early. *)
Lemma read_fields_ok (run : rexpr → PM W B V) (wire : GoType → V → list Z) start size (fs : list GoField) vs rs rest :
  Forall2 (λ f v, 0 < len (wire (gf_Type f) v)) fs vs →
  Forall2 (λ r fv, consumes (run r) fv.2 (wire (gf_Type fv.1) fv.2) []) rs (zip fs vs) → length rest = length fs →
  ∀ p w pre post, buf p = pre ++ fields_wire wire fs vs ++ post → pos p = len pre → len (buf p) <= maxInt →
    start + size = len pre + len (fields_wire wire fs vs) →
    read_fields run start size rs rest (mkst (Some p) w) =
      (Ok vs, mkst (Some (set_pos (len pre + len (fields_wire wire fs vs)) p)) w).
Proof.
  intros Hne. revert rs rest. induction Hne as [|f v fs vs Hf Hne IH]; intros rs rest Hrs Hlr p w pre post Hb Hp Hm Hs.
  - inversion Hrs; subst. destruct rest; [|done]. cbn. rewrite Z.add_0_r, <- Hp. by destruct p.
  - cbn in Hrs. inversion Hrs as [|r fv rs' l Hr Hrs' E1 E2]; subst. destruct rest as [|d rest]; [done|].
    cbn [fields_wire fst snd] in *. rewrite <- app_assoc in Hb.
    cbn [read_fields]. rewrite (bind_ok _ _ _ _ _ (Hr p w pre _ Hb Hp Hm ltac:(constructor))).
    set (p1 := set_pos _ p). rewrite (bind_ok _ _ _ _ _ (position_at p1 w)). rewrite length_app in Hs.
    assert (Hp1 : pos p1 = len pre + len (wire (gf_Type f) v)) by done.
    destruct Hne as [|f' v' fs vs Hf' Hne].
    + inversion Hrs'; subst. destruct rest; [|done]. cbn [fields_wire length] in *.
      assert (Hc : (pos p1 - start >=? size) = true) by (rewrite Hp1; zif; lia). rewrite Hc.
      unfold mret, ST_ret. do 3 f_equal. unfold p1. by rewrite app_nil_r.
    + assert (Hrest : 0 < len (fields_wire wire (f' :: fs) (v' :: vs))) by (cbn [fields_wire]; rewrite length_app; lia).
      assert (Hc : (pos p1 - start >=? size) = false) by (rewrite Hp1; zif; lia). rewrite Hc.
      rewrite (bind_ok _ _ _ _ _ (IH rs' rest Hrs' ltac:(cbn in *; lia) p1 w (pre ++ wire (gf_Type f) v) post
        ltac:(unfold p1; cbn [buf set_pos]; by rewrite Hb, <- app_assoc) ltac:(rewrite Hp1; len_lia) Hm ltac:(len_lia))).
      unfold mret, ST_ret. do 3 f_equal. unfold p1, set_pos. cbn [pos buf objects mode flags binderResolver
        localBinderResolve binderObjectResolve localBinderObjectResolve wireFDsOwned]. f_equal. len_lia.
Qed.

(** ** The types of a file *)

Section File.
Context (model : GoFile) (customs : gmap string CustomParcelableConfig) (root : string) (dd : nat).
#[local] Abbreviation wcall := (write_call model customs root).
#[local] Abbreviation rcall := (read_call model customs root dd).
#[local] Abbreviation wE := (writeExpr model customs root).
#[local] Abbreviation rE := (readExpr model customs root).
#[local] Abbreviation runw := (run_w (I := I) (R := R) (X := X)).
#[local] Abbreviation runr := (run_r (R := R) model customs root dd).

Lemma kind_carried wc rc reg rs t v : kind_ok (ty_Kind t) (ty_Nullable t) v →
  carried (runw wc reg (wE rs t) v) (runr rc (rE t)) v (kind_wire (ty_Kind t) (ty_Nullable t) v).
Proof.
  destruct t as [kind aidl pkg expr null n elem key val named l a b]. cbn [ty_Kind ty_Nullable].
  destruct kind, v; cbn; try done; intros Hk; try (split; [|eapply consumes_fmap; [|reflexivity]]);
    auto using emits_WriteBool, consumes_ReadBool, emits_WriteByte, consumes_ReadByte, emits_WriteChar, consumes_ReadChar,
      emits_WriteInt32, consumes_ReadInt32, emits_WriteInt64, consumes_ReadInt64.
  - apply emits_WriteUint32.
  - by apply consumes_ReadUint32.
  - apply emits_WriteUint64.
  - by apply consumes_ReadUint64.
  - subst null. split; [apply (emits_WriteNullableString (W := W) (B := B) None); done|].
    eapply consumes_fmap; [by apply (consumes_nullable_string (W := W) (B := B) None)|done].
  - destruct Hk as [-> Hs]. split; [apply emits_WriteString, Hs|].
    eapply consumes_fmap; [by apply consumes_ReadString_id|done].
  - destruct v; try done. destruct Hk as [-> Hs]. split; [by apply (emits_WriteNullableString (W := W) (B := B) (Some s))|].
    eapply consumes_fmap; [by apply (consumes_nullable_string (W := W) (B := B) (Some s))|done].
  - split; [apply emits_WriteNullStrongBinder|]. eapply consumes_fmap; [apply consumes_ReadStrongBinder_null|done].
  - split; [apply emits_WriteNullStrongBinder|]. eapply consumes_fmap; [apply consumes_ReadStrongBinder_null|done].
Qed.

Lemma kind_nonempty k n (v : V) : kind_ok k n v → 0 < len (kind_wire k n v).
Proof.
  destruct k, v; cbn; try done; intros Hk; try (destruct v; try done);
    unfold word, string_bytes, null_bytes, prefixed; rewrite ?length_app, ?length_le_bytes; lia.
Qed.

(** *** What the file declares under a name *)

Lemma find_render name d : find_decl model customs root name = Some d → (name, d) ∈ render model customs root.
Proof.
  unfold find_decl. destruct (list_find _ _) as [[i [name' d']]|] eqn:E; [|done]. cbn. intros [= <-].
  apply list_find_Some in E as (H & Hn & _). cbn in Hn. subst. by eapply list_elem_of_lookup_2.
Qed.

Lemma find_struct name needs fs ws rs : find_decl model customs root name = Some (GStruct needs fs ws rs) →
  ws = field_writes model customs root needs fs ∧ rs = field_reads model customs root fs.
Proof.
  intros H%find_render. unfold render in H. rewrite !elem_of_app, !list_elem_of_fmap in H.
  destruct H as [(e & [=] & _)|[(p & H & _)|[(u & [=] & _)|(i & [=] & _)]]].
  unfold renderParcelable in H. destruct (gp_Structured p); [|by destruct (gp_Custom p)].
  cbn in H. by injection H as -> -> -> -> ->.
Qed.

Lemma find_union name needs fs ws rs : find_decl model customs root name = Some (GUnion needs fs ws rs) →
  ws = field_writes model customs root needs fs ∧ rs = field_reads model customs root fs.
Proof.
  intros H%find_render. unfold render in H. rewrite !elem_of_app, !list_elem_of_fmap in H.
  destruct H as [(e & [=] & _)|[(p & H & _)|[(u & H & _)|(i & [=] & _)]]].
  - unfold renderParcelable in H. destruct (gp_Structured p); [done|by destruct (gp_Custom p)].
  - unfold renderUnion in H. cbn in H. by injection H as -> -> -> -> ->.
Qed.

Lemma find_enum_decl name e : find_enum model name = Some e →
  find_decl model customs root name = Some (renderEnum model customs root e).
Proof.
  unfold find_enum, find_decl. destruct (list_find _ (go_Enums model)) as [[i e']|] eqn:E; [|done]. intros [= ->].
  assert (H : list_find (λ d, d.1 = name) ((λ e, (ge_GoName e, renderEnum model customs root e)) <$> go_Enums model) =
              Some (i, (ge_GoName e, renderEnum model customs root e))).
  { rewrite list_find_fmap. unfold compose. cbn. by rewrite E. }
  unfold render. by rewrite (list_find_app_l _ _ _ _ _ H).
Qed.

(** *** Declarations, given their fields *)

(** A type is carried at a depth: by its expression and, inside another value, behind
    the word that says it is present. *)
Definition type_carried (n : nat) (t : GoType) (v : V) : Prop :=
  0 < len (present t ++ wire model customs root n t v) ∧
  ∀ reg rs, carried (runw (wcall n) reg (wE rs t) v) (runr (rcall n) (rE t)) v (wire model customs root n t v).

Lemma context_carried n reg rs t v : type_carried n t v →
  carried (runw (wcall n) reg (contextWriteExpr model customs root rs t) v)
    (runr (rcall n) (contextReadExpr model customs root t)) v (present t ++ wire model customs root n t v).
Proof.
  intros [_ H]. unfold contextWriteExpr, contextReadExpr, typed_object, typed_object_read, present.
  destruct (methodUsesTypedObjectEncoding t && negb (ty_Nullable t)); [|exact (H reg rs)]. apply carried_present, H.
Qed.

Lemma emits_fields n reg rs fs vs : Forall2 (λ f v, type_carried n (gf_Type f) v) fs vs →
  emits (write_fields (runw (wcall n) reg) ((λ f, contextWriteExpr model customs root rs (gf_Type f)) <$> fs) vs) tt
    (fields_wire (λ t v, present t ++ wire model customs root n t v) fs vs) [].
Proof.
  induction 1 as [|f v fs vs Hf _ IH]; [apply emits_ret|]. cbn [fmap list_fmap write_fields fields_wire].
  eapply emits_bind_nil; [apply context_carried; exact Hf|exact IH].
Qed.

Lemma reads_fields n fs vs : Forall2 (λ f v, type_carried n (gf_Type f) v) fs vs →
  Forall2 (λ r fv, consumes (runr (rcall n) r) fv.2 (present (gf_Type fv.1) ++ wire model customs root n (gf_Type fv.1) fv.2) [])
    (field_reads model customs root fs) (zip fs vs).
Proof.
  induction 1 as [|f v fs vs Hf _ IH]; [constructor|]. cbn. constructor; [|exact IH].
  apply (context_carried n None "" (gf_Type f) v Hf).
Qed.

Lemma decl_carried n name d reg (v : V) : find_decl model customs root name = Some d →
  (∀ t v, sendable model customs root dd n t v → type_carried n t v) →
  decl_ok model customs root (λ t v, present t ++ wire model customs root n t v) (sendable model customs root dd n) d v →
  carried (write_decl (wcall n) d name reg v) (read_decl model customs root dd (rcall n) d name) v
    (decl_wire (λ t v, present t ++ wire model customs root n t v) d v).
Proof.
  intros Hd IH. set (wr := λ t v, present t ++ wire model customs root n t v).
  destruct d as [w r|needs fs ws rs| |alias w r|needs fs ws rs|desc], v; cbn [decl_ok]; try done.
  - apply find_struct in Hd as [-> ->]. intros [Hf%all2_Forall2 Hl]. cbn [write_decl read_decl decl_wire].
    assert (Hc : Forall2 (λ f v, type_carried n (gf_Type f) v) fs fields) by (eapply Forall2_impl; [exact Hf|auto]).
    split; [apply emits_backpatch; [by apply emits_fields|done]|].
    apply consumes_struct; [done|]. intros p w pre post Hb Hp Hm.
    assert (E := read_fields_ok (runr (rcall n)) wr (len pre - 4) (4 + len (fields_wire wr fs fields)) fs fields
                   (field_reads model customs root fs) (initial (R := R) model customs root <$> fs)).
    rewrite (bind_ok _ _ _ _ _ (E ltac:(eapply Forall2_impl; [exact Hc|]; intros ?? [H _]; exact H)
      (reads_fields n fs fields Hc) ltac:(by rewrite length_fmap) p w pre post Hb Hp Hm ltac:(lia))).
    done.
  - destruct data as [bs|]; [|done]. intros Hl. cbn [write_decl read_decl decl_wire]. unfold write_opaque, read_opaque. split.
    + zif. apply emits_prefixed; [lia|]. apply put_full. rewrite length_zeros. lia.
    + eapply (consumes_prefixed (len bs) bs); [lia|zif; reflexivity|]. apply consumes_ret.
  - apply find_union in Hd as [-> ->]. intros [Ht H]. cbn [write_decl read_decl decl_wire]. unfold write_union, read_union.
    destruct (fs !! Z.to_nat tag) as [f|] eqn:Ef; [|done]. destruct (fields !! Z.to_nat tag) as [x|] eqn:Ex; [|done].
    destruct H as [Hx Hfs]. assert (Hc := IH _ _ Hx). split.
    + apply emits_word. zif. unfold field_writes. rewrite list_lookup_fmap, Ef. cbn [fmap option_fmap option_map].
      by apply context_carried.
    + apply consumes_word; [width|]. zif. unfold field_reads. rewrite list_lookup_fmap, Ef. cbn [fmap option_fmap option_map].
      eapply consumes_fmap; [by apply (context_carried n None "" (gf_Type f) x Hc)|]. by rewrite <- Hfs.
Qed.

(** *** The whole type *)

Lemma elems_carried (wr : V → PM W B unit) (rd : PM W B V) f l :
  Forall (λ v, carried (wr v) rd v (f v)) l → len l <= maxInt32 →
  emits (WriteSlice (Some l) (Some wr)) tt (slice_bytes f l) [] ∧ consumes (ReadSlice (Some rd)) (Some l) (slice_bytes f l) [].
Proof.
  intros Hf Hl. split.
  - assert (E := emits_WriteSlice wr f (λ _, []) l Hl). unfold slice_objs in E. rewrite cat_objs_nil in E. apply E.
    eapply Forall_impl; [exact Hf|]. by intros ? [? _].
  - assert (E := consumes_ReadSlice rd id f (λ _, []) l Hl). unfold slice_objs in E.
    rewrite cat_objs_nil, list_fmap_id in E. apply E. eapply Forall_impl; [exact Hf|]. by intros ? [_ ?].
Qed.

Lemma pairs_carried (wk wv : V → PM W B unit) (rk rv : PM W B V) fk fv (m : list (V * V)) :
  Forall (λ kv, carried (wk kv.1) rk kv.1 (fk kv.1) ∧ carried (wv kv.2) rv kv.2 (fv kv.2)) m →
  keys_distinct (m.*1) → len m <= maxInt32 →
  carried (WriteMap (Some m) (Some (wk, wv))) (o ← ReadMap (Some (rk, rv)); mret (of_map o)) (GMap m) (map_bytes fk fv m).
Proof.
  intros Hf Hd Hl. split.
  - apply emits_WriteMap; [done|]. eapply Forall_impl; [exact Hf|]. by intros ? [[? _] [? _]].
  - assert (E := consumes_ReadMap rk rv id id fk fv m Hl).
    rewrite list_fmap_id in E. replace (prod_map id id <$> m) with m in E.
    + eapply consumes_fmap; [apply E; [|done]|done]. eapply Forall_impl; [exact Hf|]. by intros ? [[_ ?] [_ ?]].
    + symmetry. rewrite <- (list_fmap_id m) at 2. apply list_fmap_ext. by intros _ [??] _.
Qed.

Lemma any_carried (v : V) : any_ok dd v →
  carried (write_any v) (x ← ReadDynamicValue dd; mret (GAny x)) v (any_wire v).
Proof.
  destruct v; try done. intros (Hd & Hn & Hdep). split; [by apply emits_dyn|].
  eapply consumes_fmap; [apply (rereads_dyn _ dd v eq_refl Hd Hdep)|]. by rewrite Hn.
Qed.

Lemma enum_carried n t v : ty_Kind t = TypeEnum → enum_ok model customs root n t v → type_carried n t v.
Proof.
  intros Ht Hok. unfold type_carried.
  assert (Hp : present t = []) by (unfold present, methodUsesTypedObjectEncoding; by rewrite Ht).
  rewrite Hp, wire_eq, Ht. cbn [app]. unfold enum_ok, enum_wire, local_decl in *.
  assert (Ew : ∀ rs, wE rs t = WEnum (generatedQualifier model root t) (ty_NamedGo t)) by (destruct t; cbn in Ht; by subst).
  assert (Er : rE t = REnum (generatedQualifier model root t) (ty_NamedGo t)) by (destruct t; cbn in Ht; by subst).
  setoid_rewrite Ew. rewrite Er. cbn [run_w run_r].
  destruct (if bool_decide _ then _ else _) as [d|] eqn:Ed.
  - destruct (find_enum model (ty_NamedGo t)) as [e|] eqn:Ee; [|done]. destruct Hok as (Hn & Hk & Hv).
    destruct n as [|n]; [done|]. split; [by apply kind_nonempty|]. intros reg rs.
    cbn [write_call read_call]. rewrite Ed. case_bool_decide; [|done].
    rewrite (find_enum_decl _ _ Ee) in Ed. injection Ed as <-. cbn [renderEnum write_decl read_decl].
    apply (kind_carried _ _ _ "" (enumTypeAsBacking e)). exact Hv.
  - split; [by apply ext_nonempty|]. intros reg rs. split.
    + destruct n; cbn [write_call]; rewrite Ed; by apply ext_emits.
    + destruct n; cbn [read_call]; rewrite Ed; by apply ext_consumes.
Qed.

Lemma carried_opt nullable (wr : V → PM W B unit) (rd : PM W B V) (f : V → list Z) (P : V → Prop) v :
  (∀ v, P v → carried (wr v) rd v (f v)) → nullable_ok nullable P v →
  carried (if nullable then write_nullable wr v else wr v) (if nullable then read_nullable rd else rd) v
    (nullable_wire nullable f v).
Proof. destruct nullable; [apply carried_nullable|]. intros H. exact (H v). Qed.

Lemma nullable_nonempty nullable (f : V → list Z) P v : nullable_ok nullable P v → nullable = true →
  0 < len (nullable_wire nullable f v).
Proof.
  intros H ->. destruct v; try done; cbn; unfold word; rewrite ?length_app, ?length_le_bytes; lia.
Qed.

Lemma present_nonempty t bs : ty_Kind t = TypeParcelable ∨ ty_Kind t = TypeUnion →
  (ty_Nullable t = true → 0 < len bs) → 0 < len (present t ++ bs).
Proof.
  intros Ht H. unfold present, methodUsesTypedObjectEncoding.
  rewrite bool_decide_true by (destruct Ht as [-> | ->]; set_solver).
  destruct (ty_Nullable t); [by apply H|]. cbn [andb negb]. unfold word. rewrite length_app, length_le_bytes. lia.
Qed.

Lemma writeNamed_eq t rs : ∃ ro, writeNamed model customs root t rs =
  WNamed (generatedQualifier model root t) (ty_Nullable t) (ty_NamedGo t) ro.
Proof.
  unfold writeNamed. case_bool_decide as Hq; cbn [negb]; [|by eexists]. rewrite Hq. case_match; by eexists.
Qed.

Lemma named_exprs t rs : ty_Kind t = TypeParcelable ∨ ty_Kind t = TypeUnion →
  match customParcelableConfig model customs t with
  | Some (cfg, alias) => wE rs t = WCustom (ty_Nullable t) alias (cc_WriteFunc cfg) ∧
                         rE t = RCustom (ty_Nullable t) alias (cc_ReadFunc cfg)
  | None => wE rs t = writeNamed model customs root t rs ∧
            rE t = RNamed (generatedQualifier model root t) (ty_Nullable t) (ty_NamedGo t)
  end.
Proof.
  destruct t as [kind aidl pkg expr null n elem key val named l a b]. intros [Ht|Ht]; cbn in Ht; subst kind.
  - cbn [writeExpr readExpr ty_Kind]. by destruct (customParcelableConfig model customs _) as [[cfg alias]|].
  - done.
Qed.

Lemma named_carried n t v : (∀ n', (n' < n)%nat → ∀ t v, sendable model customs root dd n' t v → type_carried n' t v) →
  ty_Kind t = TypeParcelable ∨ ty_Kind t = TypeUnion → named_ok model customs root dd n t v → type_carried n t v.
Proof.
  intros IH Ht Hok. unfold type_carried. rewrite wire_eq.
  replace (match ty_Kind t with TypeParcelable | TypeUnion => _ | _ => _ end) with (named_wire model customs root n t v)
    by (by destruct Ht as [-> | ->]).
  unfold named_ok, named_wire in *.
  assert (Hex := λ rs, named_exprs t rs Ht). destruct (customParcelableConfig model customs t) as [[cfg alias]|].
  - split; [apply present_nonempty; [done|by eapply nullable_nonempty]|]. intros reg rs.
    destruct (Hex rs) as [-> ->]. cbn [run_w run_r]. eapply carried_opt; [|exact Hok].
    intros x Hx. split; [by eapply custom_emits|by apply custom_consumes].
  - destruct (local_decl model customs root t) as [d|] eqn:Ed; unfold local_decl in Ed.
    + destruct n as [|n]; [done|]. split; [apply present_nonempty; [done|by eapply nullable_nonempty]|]. intros reg rs.
      destruct (Hex rs) as [-> ->]. destruct (writeNamed_eq t rs) as [ro ->]. cbn [run_w run_r write_call read_call].
      rewrite Ed. case_bool_decide; [|done].
      eapply carried_opt; [|exact Hok]. intros x Hx. apply decl_carried; [done| |done]. apply IH. lia.
    + split; [apply present_nonempty; [done|intros _; by apply ext_nonempty]|]. intros reg rs.
      destruct (Hex rs) as [-> ->]. destruct (writeNamed_eq t rs) as [ro ->]. cbn [run_w run_r]. split.
      * destruct n; cbn [write_call]; rewrite Ed; by apply ext_emits.
      * destruct n; cbn [read_call]; rewrite Ed; by apply ext_consumes.
Qed.

(** The element, key and value expressions, and the raw map's. *)
Definition inside_w (rs : string) (o : option GoType) : wexpr :=
  match o with Some e => contextWriteExpr model customs root rs e | None => WNilType end.
Definition inside_r (o : option GoType) : rexpr :=
  match o with Some e => contextReadExpr model customs root e | None => RNilType end.

Lemma inside_carried n reg rs o v : (∀ e, o = Some e → ∀ v, sendable model customs root dd n e v → type_carried n e v) →
  inside_ok model customs root dd n o v →
  carried (runw (wcall n) reg (inside_w rs o) v) (runr (rcall n) (inside_r o)) v (wire_inside model customs root n o v).
Proof. destruct o as [e|]; [|done]. cbn. intros H Hs. by apply context_carried, H. Qed.

Lemma counted_nonempty n bs : 0 < len (word n ++ bs).
Proof. unfold word. rewrite length_app, length_le_bytes. lia. Qed.

Lemma slice_carried n t v : ty_Kind t = TypeSlice ∨ ty_Kind t = TypeArray →
  (∀ e, ty_Elem t = Some e → ∀ v, sendable model customs root dd n e v → type_carried n e v) →
  sendable model customs root dd n t v → type_carried n t v.
Proof.
  intros Ht He Hs. unfold type_carried.
  assert (Hp : present t = []) by (unfold present, methodUsesTypedObjectEncoding; by destruct Ht as [-> | ->]).
  assert (Hw : wire model customs root n t v =
    match v with GList l => slice_bytes (wire_inside model customs root n (ty_Elem t)) l | _ => word (-1) end)
    by (rewrite wire_eq; by destruct Ht as [-> | ->]).
  rewrite Hp, Hw. cbn [app]. split.
  { destruct v; try (unfold word; rewrite length_le_bytes; lia). apply counted_nonempty. }
  intros reg rs. rewrite sendable_eq in Hs.
  assert (Hi := λ v, inside_carried n reg rs (ty_Elem t) v He).
  destruct Ht as [Ht|Ht]; rewrite Ht in Hs.
  - assert (Ew : wE rs t = WSlice (inside_w rs (ty_Elem t))) by (destruct t; cbn in Ht; by subst).
    assert (Er : rE t = RSlice (inside_r (ty_Elem t))) by (destruct t; cbn in Ht; by subst).
    rewrite Ew, Er. destruct v; try done; cbn [run_w run_r slice_value].
    + split; [apply emits_WriteSlice_nil|]. eapply consumes_fmap; [apply consumes_ReadSlice_nil|done].
    + destruct Hs as [Hl Hf%all_Forall]. destruct (elems_carried (runw (wcall n) reg (inside_w rs (ty_Elem t)))
        (runr (rcall n) (inside_r (ty_Elem t))) (wire_inside model customs root n (ty_Elem t)) l) as [H1 H2];
        [eapply Forall_impl; [exact Hf|exact Hi]|done|]. split; [done|]. by eapply consumes_fmap.
  - assert (Ew : wE rs t = WFixedSlice (ty_FixedLen t) (inside_w rs (ty_Elem t))) by (destruct t; cbn in Ht; by subst).
    assert (Er : rE t = RFixedSlice (ty_FixedLen t) (inside_r (ty_Elem t))) by (destruct t; cbn in Ht; by subst).
    rewrite Ew, Er. destruct v; try done; cbn [run_w run_r slice_value].
    destruct Hs as (Hn & Hl & Hf%all_Forall). destruct (elems_carried (runw (wcall n) reg (inside_w rs (ty_Elem t)))
        (runr (rcall n) (inside_r (ty_Elem t))) (wire_inside model customs root n (ty_Elem t)) l) as [H1 H2];
        [eapply Forall_impl; [exact Hf|exact Hi]|done|]. split.
    + unfold WriteFixedSlice. by rewrite Hn, Z.eqb_refl.
    + eapply consumes_fmap; [|reflexivity]. unfold ReadFixedSlice.
      rewrite <- (app_nil_r (slice_bytes _ _)). eapply consumes_bind_nil; [exact H2|]. cbn beta iota.
      rewrite Hn, Z.eqb_refl. apply consumes_ret.
Qed.

Lemma map_carried n t v : ty_Kind t = TypeMap →
  (∀ e, ty_Key t = Some e → ∀ v, sendable model customs root dd n e v → type_carried n e v) →
  (∀ e, ty_Value t = Some e → ∀ v, sendable model customs root dd n e v → type_carried n e v) →
  sendable model customs root dd n t v → type_carried n t v.
Proof.
  intros Ht Hk Hv Hs. unfold type_carried.
  assert (Hp : present t = []) by (unfold present, methodUsesTypedObjectEncoding; by rewrite Ht).
  rewrite Hp, wire_eq, Ht. cbn [app]. rewrite sendable_eq, Ht in Hs. split.
  { destruct v; try (unfold word; rewrite length_le_bytes; lia). case_match; apply counted_nonempty. }
  intros reg rs.
  assert (Ew : wE rs t = if isRawMapType t then WRawMap else WMap (inside_w rs (ty_Key t)) (inside_w rs (ty_Value t)))
    by (destruct t; cbn in Ht; by subst).
  assert (Er : rE t = if isRawMapType t then RRawMap else RMap (inside_r (ty_Key t)) (inside_r (ty_Value t)))
    by (destruct t; cbn in Ht; by subst).
  rewrite Ew, Er. destruct v; try done.
  - destruct (isRawMapType t); cbn [run_w run_r map_value];
      (split; [apply emits_receiver; intros p; apply emits_WriteInt32|]);
      (eapply consumes_fmap; [apply consumes_receiver; intros p; by apply consumes_null_length|done]).
  - destruct Hs as (Hl & Hd & Hf).
    destruct (isRawMapType t); cbn [run_w run_r map_value]; apply all_Forall in Hf; apply pairs_carried; try done.
    + eapply Forall_impl; [exact Hf|]. intros kv [??]. split; by apply any_carried.
    + eapply Forall_impl; [exact Hf|]. intros kv [??]. split; by apply inside_carried.
Qed.

Lemma sendable_carried n : ∀ t v, sendable model customs root dd n t v → type_carried n t v.
Proof.
  induction n as [n IHn] using lt_wf_ind. intros t. induction t as [t He Hk Hv] using GoType_induction. intros v Hs.
  pose proof Hs as Hs'. rewrite sendable_eq in Hs'.
  destruct (ty_Kind t) eqn:Ht; try (by apply named_carried; auto); try (by apply enum_carried);
    try (by apply slice_carried; auto); try (by apply map_carried).
  all: unfold type_carried; rewrite wire_eq; unfold present, methodUsesTypedObjectEncoding; rewrite Ht;
       cbn [app andb bool_decide]; (split; [by apply kind_nonempty|]); intros reg rs;
       rewrite <- Ht; apply kind_carried; by rewrite Ht.
Qed.
End File.
End Carried.
