(* ===== verification/GeneratedRpc.v ===== *)
(** * GeneratedRpc: a generated client and handler are transparent

    The client's method writes its arguments, the handler's case reads them, calls
    the implementation and writes its results or its error, and the client reads
    those: together they are the call of the implementation. *)

From stdpp Require Import base list numbers strings pretty gmap.
From S2P Require Import Prelude Errors Unicode Parcel ParcelFacts Codec ObjectCodec Fields ParcelInv ParcelProps Slices Value ValueProps Status Stability Aidl AidlExpr AidlResolve GoText AidlNames AidlLower Codegen CodegenExpr CodegenProps GeneratedCode GeneratedWire GeneratedProps.

Open Scope Z_scope.

(** The exception that an error is sent as, if any. *)
Definition remote_error (e : error) : option RemoteException :=
  match errors_As_Remote e with
  | Some r => Some r
  | None => match errors_As_ServiceSpecific e with
            | Some (code, msg) => Some (mkRemoteException ExceptionServiceSpecific msg code)
            | None => None
            end
  end.

(** Computations that do the same from two states do so in front of anything. *)
Lemma bind_same {E S A C} (m m' : ST E S A) (k : A → ST E S C) s s' : m s = m' s' → (m ≫= k) s = (m' ≫= k) s'.
Proof. intros H. unfold mbind, ST_bind. by rewrite H. Qed.

Section Stub.
Context {W B I R X : Type} `{!BinderMarshal W B} `{!BinderEq B} `{!FDSys W} `{!Linked W B I R X} `{!Contract W B I R X}.
#[local] Abbreviation V := (gv B I X).
#[local] Existing Instance gv_GoKey.
Context (model : GoFile) (customs : gmap string CustomParcelableConfig) (root : string) (dd : nat) (n : nat).
#[local] Abbreviation runw := (run_w (I := I) (R := R) (X := X) (write_call model customs root n)).
#[local] Abbreviation runr := (run_r (R := R) model customs root dd (read_call model customs root dd n)).

(** ** Arguments and results *)

(** A value as a method passes it: a parcelable or union that is not nullable behind a
    pointer that must not be nil. *)
Definition passable (t : GoType) (v : V) : Prop :=
  if methodUsesPointer t && negb (ty_Nullable t)
  then match v with GPtr x => sendable model customs root dd n t x | _ => False end
  else sendable model customs root dd n t v.

Definition pass_wire (t : GoType) (v : V) : list Z :=
  present t ++ wire model customs root n t (if methodUsesPointer t && negb (ty_Nullable t)
                                            then match v with GPtr x => x | _ => v end else v).

Definition pass_wires (ts : list GoType) (vs : list V) : list Z := concat (zip_with pass_wire ts vs).

Lemma present_pointer t : methodUsesPointer t && negb (ty_Nullable t) = true → present t = word 1.
Proof.
  unfold present, methodUsesPointer, methodUsesTypedObjectEncoding. intros [Hk%bool_decide_eq_true ->]%andb_true_iff.
  rewrite bool_decide_true; [done|]. rewrite !elem_of_cons in *. tauto.
Qed.

Lemma nonNullable_id t : ty_Nullable t = false → nonNullableType t = t.
Proof. destruct t. cbn. by intros ->. Qed.

Lemma pointer_carried what reg rs t (v : V) : methodUsesPointer t && negb (ty_Nullable t) = true →
  passable t v →
  carried (runw reg (WNonNil what (contextWriteExpr model customs root rs t)) v)
    (runr (RPointer (readExpr model customs root t))) v (pass_wire t v).
Proof.
  unfold passable, pass_wire. intros Hp. rewrite Hp. destruct v as [| | | | | |x| | | | | | | | | |]; try done.
  intros Hs. apply sendable_carried in Hs as Hc. split; [exact (proj1 (context_carried model customs root dd n reg rs t x Hc))|].
  rewrite (present_pointer t Hp). cbn [run_r]. apply consumes_word; [done|].
  destruct Hc as [_ Hc]. apply consumes_fmap with (f := GPtr) (a := x); [apply (Hc None ""%string)|done].
Qed.

Lemma inplace_carried reg rs t (v : V) : methodUsesPointer t && negb (ty_Nullable t) = false →
  passable t v →
  carried (runw reg (contextWriteExpr model customs root rs t) v) (runr (contextReadExpr model customs root t)) v (pass_wire t v).
Proof.
  unfold passable, pass_wire. intros Hp. rewrite Hp. intros Hs. by apply context_carried, sendable_carried.
Qed.

Lemma arg_carried reg rs f (v : V) : passable (gf_Type f) v →
  carried (runw reg (methodArgWriteExpr model customs root rs f) v) (runr (methodArgReadExpr model customs root f)) v
    (pass_wire (gf_Type f) v).
Proof.
  unfold methodArgWriteExpr, methodArgReadExpr. destruct (methodUsesPointer _ && _) eqn:E.
  - by apply pointer_carried.
  - by apply inplace_carried.
Qed.

Lemma value_carried reg rs t (v : V) : passable t v →
  carried (runw reg (methodValueWriteExpr model customs root rs t) v) (runr (methodValueReadExpr model customs root t)) v
    (pass_wire t v).
Proof.
  unfold methodValueWriteExpr, methodValueReadExpr. intros Hp.
  assert (H1 := pointer_carried "nil non-nullable return value" reg rs t v). assert (H2 := inplace_carried reg rs t v).
  destruct (methodUsesPointer t), (ty_Nullable t) eqn:En; cbn [andb negb] in *; auto.
  rewrite nonNullable_id by done. auto.
Qed.

Lemma consumes_no_exception : @consumes W B _ ReadException tt (word 0) [].
Proof.
  apply consumes_receiver. intros p. rewrite <- (app_nil_r (word 0)). apply consumes_word; [done|].
  cbn. intros q w pre post Hb Hp Hl Hr. rewrite bind_ret. exact (consumes_ret tt q w pre post Hb Hp Hl Hr).
Qed.

(** ** What moves

    Between two ends of a connection: a writer that appends an image and a reader
    that returns a value from it, each with its effect on the world (writing a
    Binder may export it, reading one may import it).  [arrive] is what the
    transport makes of a Parcel: its bytes and objects, the cursor at the start and
    the resolvers of the receiving end. *)
Definition delivers (arrive : Parcel W B → Parcel W B) : Prop :=
  ∀ p, buf (arrive p) = buf p ∧ pos (arrive p) = 0 ∧ objects (arrive p) = objects p.

Definition sends (m : PM W B unit) (bs : list Z) (objs : list parcelObjectRef) (w w' : W) : Prop :=
  ∀ p, pos p = len (buf p) → len (buf p) + len bs <= maxInt →
    m (mkst (Some p) w) = (Ok tt, mkst (Some (p_emit p bs objs)) w').

Definition gets {A} (arrive : Parcel W B → Parcel W B) (m : PM W B A) (a : A) (bs : list Z)
    (objs : list parcelObjectRef) (w w' : W) : Prop :=
  ∀ p p0 pre post, binderObjectResolve p = binderObjectResolve (arrive p0) →
    buf p = pre ++ bs ++ post → pos p = len pre → len (buf p) <= maxInt → registered p (len pre) objs →
    m (mkst (Some p) w) = (Ok a, mkst (Some (set_pos (len pre + len bs) p)) w').

Lemma emits_sends m bs objs w : emits m tt bs objs → sends m bs objs w w.
Proof. intros H p. apply H. Qed.

Lemma consumes_gets {A} arrive (m : PM W B A) a bs objs w : consumes m a bs objs → gets arrive m a bs objs w w.
Proof. intros H p p0 pre post _. apply H. Qed.

Lemma sends_bind (m k : PM W B unit) b1 o1 b2 o2 w w1 w2 : sends m b1 o1 w w1 → sends k b2 o2 w1 w2 →
  sends (m;; k) (b1 ++ b2) (o1 ++ (shift_ref (len b1) <$> o2)) w w2.
Proof.
  intros H1 H2 p Hp Hl. rewrite length_app in Hl. rewrite (bind_ok _ _ _ _ _ (H1 p Hp ltac:(lia))).
  rewrite H2; [by rewrite p_emit_app| |]; cbn; rewrite length_app; lia.
Qed.

Lemma gets_bind {A C} arrive (m : PM W B A) (k : A → PM W B C) a c b1 o1 b2 o2 w w1 w2 :
  gets arrive m a b1 o1 w w1 → gets arrive (k a) c b2 o2 w1 w2 →
  gets arrive (m ≫= k) c (b1 ++ b2) (o1 ++ (shift_ref (len b1) <$> o2)) w w2.
Proof.
  intros H1 H2 p p0 pre post Hres Hb Hp Hl Hr. apply Forall_app in Hr as [Hr1 Hr2].
  rewrite <- app_assoc in Hb. rewrite (bind_ok _ _ _ _ _ (H1 p p0 pre _ Hres Hb Hp Hl Hr1)).
  rewrite (H2 (set_pos (len pre + len b1) p) p0 (pre ++ b1) post).
  - cbn. do 3 f_equal. rewrite !length_app. unfold set_pos; cbn. f_equal. lia.
  - done.
  - cbn. by rewrite Hb, <- app_assoc.
  - cbn. rewrite length_app. lia.
  - done.
  - rewrite length_app, Nat2Z.inj_add. by apply registered_shift.
Qed.

Lemma gets_fmap {A C} arrive (m : PM W B A) (f : A → C) a bs objs w w' : gets arrive m a bs objs w w' →
  gets arrive (x ← m; mret (f x)) (f a) bs objs w w'.
Proof. intros H p p0 pre post Hres Hb Hp Hl Hr. by rewrite (bind_ok _ _ _ _ _ (H p p0 pre post Hres Hb Hp Hl Hr)). Qed.

(** A Binder is sent as a handle, which the receiving end resolves. *)
Definition binder_out (b : B) (h stability : Z) (w w' : W) : Prop :=
  in_u 32 h ∧ in_s 32 stability ∧
  sends (WriteStrongBinder (Some b)) (handle_bytes h stability) [strong_ref h stability] w w'.

Definition binder_in (arrive : Parcel W B → Parcel W B) (h stability : Z) (b : B) (w w' : W) : Prop :=
  ∀ p, ∃ f, binderObjectResolve (arrive p) = Some f ∧
    ∀ off, f (mkObject ObjectStrongBinder off flatBinderObjectWireSize h stability) w = (Some b, w').

Lemma binder_gets arrive h stability b w w' : in_u 32 h → in_s 32 stability → binder_in arrive h stability b w w' →
  gets arrive ReadStrongBinder (Some b) (handle_bytes h stability) [strong_ref h stability] w w'.
Proof.
  intros Hh Hs Hf p p0 pre post Hres Hb Hp Hl Hr. unfold ReadStrongBinder.
  assert (Hn : len (handle_bytes h stability) = 28)
    by (unfold handle_bytes; by rewrite length_app, length_handle_flat, length_le_bytes).
  rewrite (bind_ok _ _ _ _ _ (consumes_strong (handle_flat h) stability stability h h _ (length_handle_flat h) Hs eq_refl
    (or_introl (conj (slice_handle_type h) (slice_handle h Hh))) p w pre post Hb Hp Hl Hr)).
  cbn [obj_Kind]. rewrite bool_decide_false by done. rewrite bind_receiver. cbn [ptr].
  rewrite slice_handle_type, Z.eqb_refl. change (binderObjectResolve (set_pos _ p)) with (binderObjectResolve p).
  destruct (Hf p0) as (f & Ef & Hobj). rewrite Hres, Ef, Hn. unfold resolve. cbn [world ptr]. by rewrite Hobj.
Qed.

(** How a value of a method moves: what holds no Binder as it is; a Binder as the
    Binder the other end sees; an interface as a client of that Binder, where an
    implementation of this end is first registered with the registrar [reg].  The
    worlds: before and after writing, before and after reading. *)
Inductive moved (reg : option R) (arrive : Parcel W B → Parcel W B) (t : GoType)
  : V → V → list Z → list parcelObjectRef → W → W → W → W → Prop :=
| moved_plain v wa wb : passable t v → moved reg arrive t v v (pass_wire t v) [] wa wa wb wb
| moved_binder b b' h stability wa wa' wb wb' : ty_Kind t = TypeBinder →
    binder_out b h stability wa wa' → binder_in arrive h stability b' wb wb' →
    moved reg arrive t (GBinder b) (GBinder b') (handle_bytes h stability) [strong_ref h stability] wa wa' wb wb'
| moved_client i b b' h stability wa wa' wb wb' : ty_Kind t = TypeInterface →
    AsBinder (Linked := _) i = Some (Some b) →
    binder_out b h stability wa wa' → binder_in arrive h stability b' wb wb' →
    moved reg arrive t (GIface i) (GIface (new_client (Linked := _) (generatedQualifier model root t) (ty_NamedGo t) b'))
      (handle_bytes h stability) [strong_ref h stability] wa wa' wb wb'
| moved_callback i r b b' h stability wa wr wa' wb wb' : ty_Kind t = TypeInterface →
    AsBinder (Linked := _) i = None → reg = Some r →
    RegisterLocalHandler (Linked := _) r (generatedQualifier model root t) (ty_NamedGo t) i wa = (Ok (Some b), wr) →
    binder_out b h stability wr wa' → binder_in arrive h stability b' wb wb' →
    moved reg arrive t (GIface i) (GIface (new_client (Linked := _) (generatedQualifier model root t) (ty_NamedGo t) b'))
      (handle_bytes h stability) [strong_ref h stability] wa wa' wb wb'.

Inductive moved_all (reg : option R) (arrive : Parcel W B → Parcel W B)
  : list GoType → list V → list V → list Z → list parcelObjectRef → W → W → W → W → Prop :=
| moved_nil wa wb : moved_all reg arrive [] [] [] [] [] wa wa wb wb
| moved_cons t v v' b1 o1 wa wa1 wb wb1 ts vs vs' b2 o2 wa2 wb2 :
    moved reg arrive t v v' b1 o1 wa wa1 wb wb1 →
    moved_all reg arrive ts vs vs' b2 o2 wa1 wa2 wb1 wb2 →
    moved_all reg arrive (t :: ts) (v :: vs) (v' :: vs') (b1 ++ b2) (o1 ++ (shift_ref (len b1) <$> o2)) wa wa2 wb wb2.

(** Values without Binders move as they are. *)
Lemma plain_moved reg arrive ts vs wa wb : Forall2 passable ts vs →
  moved_all reg arrive ts vs vs (pass_wires ts vs) [] wa wa wb wb.
Proof.
  induction 1 as [|t v ts vs Hv _ IH]; [constructor|].
  exact (moved_cons _ _ _ _ _ _ [] _ _ _ _ _ _ _ _ [] _ _ (moved_plain reg arrive t v wa wb Hv) IH).
Qed.

Lemma moved_objects reg arrive t v v' bs objs wa wa' wb wb' : moved reg arrive t v v' bs objs wa wa' wb wb' → objs_wf objs (len bs).
Proof.
  destruct 1; [apply objs_wf_nil|..];
    (apply objs_wf_strong; unfold handle_bytes; rewrite length_app, length_handle_flat, length_le_bytes; lia).
Qed.

Lemma moved_all_objects reg arrive ts vs vs' bs objs wa wa' wb wb' :
  moved_all reg arrive ts vs vs' bs objs wa wa' wb wb' → objs_wf objs (len bs).
Proof.
  induction 1 as [|t v v' b1 o1 wa wa1 wb wb1 ts vs vs' b2 o2 wa2 wb2 Hm _ IH]; [apply objs_wf_nil|].
  rewrite length_app, Nat2Z.inj_add. apply objs_wf_app; [lia|lia|by eapply moved_objects|done].
Qed.

(** The interface writer on a value that moves. *)
Lemma interface_sent reg arrive t i v' bs objs wa wa' wb wb' : ty_Kind t = TypeInterface →
  moved reg arrive t (GIface i) v' bs objs wa wa' wb wb' →
  sends (write_interface (generatedQualifier model root t) (ty_NamedGo t) reg (GIface i)) bs objs wa wa' ∧
  gets arrive (read_interface (R := R) (X := X) (generatedQualifier model root t) (ty_NamedGo t)) v' bs objs wb wb'.
Proof.
  intros Ht Hm. inversion Hm as [v ? ? Hp| |i0 b b' h st ? ? ? ? _ Ha (Hh & Hs & Hw) Hin
                                |i0 r b b' h st ? wr ? ? ? _ Ha Hreg Hrl (Hh & Hs & Hw) Hin]; subst; clear Hm.
  - exfalso. unfold passable, methodUsesPointer in Hp. rewrite Ht in Hp. cbn in Hp. rewrite sendable_eq, Ht in Hp. exact Hp.
  - cbn [write_interface]. rewrite Ha. split; [exact Hw|].
    unfold read_interface. exact (gets_fmap arrive _ _ _ _ _ _ _ (binder_gets arrive h st b' wb wb' Hh Hs Hin)).
  - cbn [write_interface]. rewrite Ha. split.
    + intros p Hp Hl. unfold mbind at 1, ST_bind at 1. cbn [world ptr]. rewrite Hrl. exact (Hw p Hp Hl).
    + unfold read_interface. exact (gets_fmap arrive _ _ _ _ _ _ _ (binder_gets arrive h st b' wb wb' Hh Hs Hin)).
Qed.

(** A writer and a reader of a type, as methods use them. *)
Definition method_exprs (rs : string) (t : GoType) (wx : wexpr) (rx : rexpr) : Prop :=
  (∀ reg v, passable t v → carried (runw reg wx v) (runr rx) v (pass_wire t v)) ∧
  (ty_Kind t = TypeBinder → wx = WBinder ∧ rx = RBinder) ∧
  (ty_Kind t = TypeInterface →
     wx = WInterface (generatedQualifier model root t) (ty_NamedGo t) (registrarExpr rs) ∧
     rx = RInterface (generatedQualifier model root t) (ty_NamedGo t)).

Lemma arg_exprs rs f : method_exprs rs (gf_Type f) (methodArgWriteExpr model customs root rs f) (methodArgReadExpr model customs root f).
Proof.
  split; [intros reg v; apply arg_carried|].
  unfold methodArgWriteExpr, methodArgReadExpr, contextWriteExpr, contextReadExpr, typed_object, typed_object_read,
    methodUsesPointer, methodUsesTypedObjectEncoding.
  destruct f as [? ? ? [k]]. cbn. split; intros ->; done.
Qed.

Lemma value_exprs rs t : method_exprs rs t (methodValueWriteExpr model customs root rs t) (methodValueReadExpr model customs root t).
Proof.
  split; [intros reg v; apply value_carried|].
  unfold methodValueWriteExpr, methodValueReadExpr, contextWriteExpr, contextReadExpr, typed_object, typed_object_read,
    methodUsesPointer, methodUsesTypedObjectEncoding.
  destruct t as [k]. cbn. split; intros ->; done.
Qed.

Lemma value_moves reg rs arrive t wx rx v v' bs objs wa wa' wb wb' : method_exprs rs t wx rx → registrar_value reg (registrarExpr rs) = reg →
  moved reg arrive t v v' bs objs wa wa' wb wb' →
  sends (runw reg wx v) bs objs wa wa' ∧ gets arrive (runr rx) v' bs objs wb wb'.
Proof.
  intros (Hp & Hb & Hi) Hrs Hm. destruct Hm as [v ? ? Hv|b b' h st ? ? ? ? Ht (Hh & Hs & Hw) Hin|i b b' h st ? ? ? ? Ht ? ? ?
      |i r b b' h st ? ? ? ? ? Ht ? ? ? ? ?] eqn:E.
  - destruct (Hp reg v Hv) as [H1 H2]. split; [by apply emits_sends|by apply consumes_gets].
  - destruct (Hb Ht) as [-> ->]. split; [exact Hw|].
    exact (gets_fmap arrive _ _ _ _ _ _ _ (binder_gets arrive h st b' wb wb' Hh Hs Hin)).
  - destruct (Hi Ht) as [-> ->]. cbn [run_w run_r]. rewrite Hrs. eapply interface_sent; [exact Ht|]. by econstructor.
  - destruct (Hi Ht) as [-> ->]. cbn [run_w run_r]. rewrite Hrs. eapply interface_sent; [exact Ht|]. by econstructor.
Qed.

(** One value after another. *)
Lemma values_move {A} (wx : A → wexpr) (rx : A → rexpr) (ty : A → GoType) reg rs arrive (l : list A) vs vs' bs objs wa wa' wb wb' :
  (∀ a, method_exprs rs (ty a) (wx a) (rx a)) → registrar_value reg (registrarExpr rs) = reg →
  moved_all reg arrive (ty <$> l) vs vs' bs objs wa wa' wb wb' →
  sends (write_args (runw reg) (wx <$> l) vs) bs objs wa wa' ∧ gets arrive (read_values runr (rx <$> l)) vs' bs objs wb wb'.
Proof.
  intros Hx Hrs. revert vs vs' bs objs wa wa' wb wb'. induction l as [|a l IH]; intros vs vs' bs objs wa wa' wb wb' Hm; inversion Hm as
    [|t v v' b1 o1 ? wa1 ? wb1 ts vs0 vs0' b2 o2 wa2 wb2 H1 H2]; subst.
  - split; [apply emits_sends, emits_ret|apply consumes_gets, consumes_ret].
  - destruct (value_moves _ _ _ _ _ _ _ _ _ _ _ _ _ _ (Hx a) Hrs H1) as [Hw1 Hr1]. destruct (IH _ _ _ _ _ _ _ _ H2) as [Hw2 Hr2].
    split; [exact (sends_bind _ _ _ _ _ _ _ _ _ Hw1 Hw2)|].
    exact (gets_bind arrive _ _ _ _ _ _ _ _ _ _ _ Hr1 (gets_fmap arrive _ (λ vs, v' :: vs) _ _ _ _ _ Hr2)).
Qed.

(** The registrar a client's method declares is there for the values that need it. *)
Lemma declared_moves reg arrive fs vs vs' bs objs wa wa' wb wb' :
  moved_all reg arrive (gf_Type <$> fs) vs vs' bs objs wa wa' wb wb' →
  moved_all (if fieldsNeedRegistrar model customs fs then reg else None) arrive (gf_Type <$> fs) vs vs' bs objs wa wa' wb wb'.
Proof.
  intros Hm. destruct (fieldsNeedRegistrar model customs fs) eqn:E; [exact Hm|].
  unfold fieldsNeedRegistrar in E. revert vs vs' bs objs wa wa' wb wb' Hm E.
  induction fs as [|f fs IH]; intros vs vs' bs objs wa wa' wb wb' Hm E; inversion Hm as
    [|t v v' b1 o1 ? wa1 ? wb1 ts vs0 vs0' b2 o2 wa2 wb2 H1 H2]; subst; [constructor|].
  cbn [existsb] in E. apply orb_false_iff in E as [E1 E2]. econstructor; [|by apply IH].
  destruct H1; [by constructor|by econstructor|by econstructor|exfalso].
  match goal with H : ty_Kind _ = TypeInterface |- _ => revert E1; generalize H; clear end.
  destruct f as [? ? ? [k] ?]. unfold typeNeedsRegistrar. cbn. intros ->. destruct (decl_count model); done.
Qed.

(** ** Running on a Parcel of its own *)

Lemma with_sends m bs objs w w' : sends m bs objs w w' → len bs <= maxInt →
  with_parcel NewParcel m w = (Ok (tt, Some (p_emit NewParcel bs objs)), w').
Proof. intros H Hl. unfold with_parcel. by rewrite (H NewParcel eq_refl ltac:(cbn; lia)). Qed.

(** A Parcel that was written, at the other end, read from the position [len pre]. *)
Lemma with_gets {A} arrive (m : PM W B A) a pre bs objs w w' : delivers arrive → gets arrive m a bs objs w w' →
  len (pre ++ bs) <= maxInt → objs_wf objs (len bs) →
  ∃ p, with_parcel (set_pos (len pre) (arrive (p_emit NewParcel (pre ++ bs) (shift_ref (len pre) <$> objs)))) m w =
         (Ok (a, Some p), w').
Proof.
  intros Ha H Hl Hwf. set (data := p_emit NewParcel _ _ : Parcel W B). destruct (Ha data) as (Hb & Hp & Ho).
  eexists. unfold with_parcel.
  rewrite (H (set_pos (len pre) (arrive data)) data pre []); [done|done| |done| |].
  - cbn [buf set_pos]. by rewrite Hb, app_nil_r.
  - cbn [buf set_pos]. by rewrite Hb.
  - assert (Hwf' : objs_wf (shift_ref (len pre) <$> objs) (len (pre ++ bs))).
    { rewrite length_app, Nat2Z.inj_add. apply (objs_wf_app [] (len pre)); [lia|lia|apply objs_wf_nil|done]. }
    pose proof (registered_emit (W := W) (B := B) NewParcel (pre ++ bs) _ append_ok_new Hwf') as Hr.
    apply (proj1 (registered_shift data 0 (len pre) objs)) in Hr. unfold registered in *. eapply Forall_impl; [exact Hr|].
    intros o. unfold objectAt. cbn [objects set_pos]. by rewrite Ho.
Qed.

(** The token in front of the arguments. *)
Lemma with_token arrive desc bs objs w : delivers arrive → string_ok desc → len (token_bytes desc ++ bs) <= maxInt →
  with_parcel (arrive (p_emit NewParcel (token_bytes desc ++ bs) objs)) ReadInterfaceToken w =
    (Ok (desc, Some (set_pos (len (token_bytes desc)) (arrive (p_emit NewParcel (token_bytes desc ++ bs) objs)))), w).
Proof.
  intros Ha Hd Hl. set (data := p_emit NewParcel _ _ : Parcel W B). destruct (Ha data) as (Hb & Hp & _). unfold with_parcel.
  rewrite (consumes_ReadInterfaceToken (W := W) (B := B) desc Hd (arrive data) w [] bs Hb Hp
    ltac:(rewrite Hb; exact Hl) ltac:(constructor)). done.
Qed.

(** ** A call through the stubs *)

Section Call.
Context (iface : GoInterface) (impl : string → list V → ST error W (list V)) (registrar : option R).
Context (arrive back : Parcel W B → Parcel W B) (Harrive : delivers arrive) (Hback : delivers back).

(** A transport that hands the request to the handler and its reply back. *)
Definition loopback (code : Z) (req : Parcel W B) (flags : Z) : ST error W (option (Parcel W B)) :=
  reply ← HandleTransact model customs root dd n iface registrar impl code (arrive req);
  mret (back <$> reply).

(** The types of what a method returns: its value, then its outputs. *)
Definition result_types (m : GoMethod) : list GoType :=
  gf_Type <$> (option_list (gm_Return m) ++ gm_Outputs m).

(** What the caller gets of an outcome [r] of the implementation in the world [w]. *)
Definition seen_outcome (m : GoMethod) (r : res (list V)) (w : W) (r' : res (list V)) (w' : W) : Prop :=
  match r with
  | Ok results =>
      if gm_Oneway m then r' = Ok [] ∧ w' = w
      else ∃ results' bs objs w1, moved_all registrar back (result_types m) results results' bs objs w w1 w1 w' ∧
             4 + len bs <= maxInt ∧ r' = Ok results'
  | Err e =>
      w' = w ∧
      if gm_Oneway m then r' = Err e
      else match remote_error e with
           | Some x => exception_code (re_Code x) ∧ remote_ok x ∧ len (remote_bytes x) <= maxInt ∧ r' = Err (ERemote (remote_seen x))
           | None => r' = Err e
           end
  | Panic y => r' = Panic y ∧ w' = w
  end.

Lemma find_case m : NoDup (gm_TransactionCode <$> gi_Methods iface) → m ∈ gi_Methods iface →
  ∃ i, list_find (λ c, cs_Code c = gm_TransactionCode m) (handler_cases model customs root iface) =
       Some (i, renderHandlerCase model customs root m).
Proof.
  unfold handler_cases. intros Hnd [i Hi]%list_elem_of_lookup. exists i. apply list_find_Some.
  split; [by rewrite list_lookup_fmap, Hi|]. split; [done|]. intros j c Hj Hlt Hc.
  rewrite list_lookup_fmap in Hj. destruct (gi_Methods iface !! j) as [m'|] eqn:Ej; [|done]. injection Hj as <-.
  cbn in Hc. assert (i = j); [|lia]. eapply (NoDup_lookup _ _ _ (gm_TransactionCode m) Hnd).
  - by rewrite list_lookup_fmap, Hi.
  - rewrite list_lookup_fmap, Ej. cbn. by rewrite Hc.
Qed.

(** The handler on a request the client wrote. *)
Lemma handled m args args' bs objs reg wa wa' wb wb' : NoDup (gm_TransactionCode <$> gi_Methods iface) → m ∈ gi_Methods iface →
  string_ok (gi_Descriptor iface) → moved_all reg arrive (gf_Type <$> gm_Inputs m) args args' bs objs wa wa' wb wb' →
  registrar_value reg (registrarExpr "registrar") = reg →
  len (token_bytes (gi_Descriptor iface) ++ bs) <= maxInt →
  HandleTransact model customs root dd n iface registrar impl (gm_TransactionCode m)
    (arrive (p_emit NewParcel (token_bytes (gi_Descriptor iface) ++ bs)
       (shift_ref (len (token_bytes (gi_Descriptor iface))) <$> objs))) wb =
  handle_case model customs root n registrar impl (renderHandlerCase model customs root m) args' wb'.
Proof.
  intros Hnd Hm Hd Ha Hreg Hl. unfold HandleTransact.
  rewrite (bind_ok _ _ _ _ _ (with_token arrive _ bs _ wb Harrive Hd Hl)).
  rewrite bool_decide_true by done. cbn [negb]. destruct (find_case m Hnd Hm) as [i ->].
  destruct (values_move (methodArgWriteExpr model customs root "registrar") (methodArgReadExpr model customs root) gf_Type reg "registrar"
              arrive (gm_Inputs m) args args' bs objs wa wa' wb wb' (arg_exprs "registrar") Hreg Ha) as [_ Hr].
  destruct (with_gets arrive _ _ _ bs objs wb wb' Harrive Hr Hl (moved_all_objects _ _ _ _ _ _ _ _ _ _ _ Ha)) as [p Hp].
  by rewrite (bind_ok _ _ _ _ _ Hp).
Qed.

(** The request of a call. *)
Lemma requested m reg args args' bs objs wa wa' wb wb' : string_ok (gi_Descriptor iface) →
  moved_all reg arrive (gf_Type <$> gm_Inputs m) args args' bs objs wa wa' wb wb' →
  registrar_value reg (registrarExpr "registrar") = reg →
  len (token_bytes (gi_Descriptor iface) ++ bs) <= maxInt →
  with_parcel NewParcel
    (WriteInterfaceToken (gi_Descriptor iface);;
     write_args (runw reg) (methodArgWriteExpr model customs root "registrar" <$> gm_Inputs m) args) wa =
  (Ok (tt, Some (p_emit NewParcel (token_bytes (gi_Descriptor iface) ++ bs)
                   (shift_ref (len (token_bytes (gi_Descriptor iface))) <$> objs))), wa').
Proof.
  intros Hd Ha Hreg Hl. apply with_sends; [|done].
  destruct (values_move (methodArgWriteExpr model customs root "registrar") (methodArgReadExpr model customs root) gf_Type reg "registrar"
              arrive (gm_Inputs m) args args' bs objs wa wa' wb wb' (arg_exprs "registrar") Hreg Ha) as [Hw _].
  exact (sends_bind _ _ _ [] _ _ _ _ _ (emits_sends _ _ _ wa (emits_WriteInterfaceToken _ Hd)) Hw).
Qed.

(** The results, written by the handler and read by the client. *)
Lemma results_move m results results' bs objs w w1 w2 w3 : gm_Oneway m = false →
  moved_all registrar back (result_types m) results results' bs objs w w1 w2 w3 →
  let c := renderHandlerCase model customs root m in let px := renderProxyMethod model customs root m in
  sends (write_args (runw registrar) (option_list (cs_Return c) ++ cs_Outputs c) results) bs objs w w1 ∧
  gets back (read_values runr (option_list (px_Return px) ++ px_Outputs px)) results' bs objs w2 w3.
Proof.
  intros Ho Hm c px. unfold result_types in *. unfold c, px, renderHandlerCase, renderProxyMethod.
  cbn [cs_Return cs_Outputs px_Return px_Outputs]. rewrite Ho.
  set (wx := λ f, methodValueWriteExpr model customs root "h.registrar"%string (gf_Type f)).
  set (rx := λ f, methodValueReadExpr model customs root (gf_Type f)).
  replace (option_list (wx <$> gm_Return m) ++ (wx <$> gm_Outputs m)) with (wx <$> (option_list (gm_Return m) ++ gm_Outputs m))
    by (rewrite fmap_app; by destruct (gm_Return m)).
  replace (option_list (rx <$> gm_Return m) ++ (rx <$> gm_Outputs m)) with (rx <$> (option_list (gm_Return m) ++ gm_Outputs m))
    by (rewrite fmap_app; by destruct (gm_Return m)).
  eapply (values_move wx rx gf_Type registrar "h.registrar"%string); [intros f; apply value_exprs| |exact Hm].
  by destruct registrar.
Qed.

(** The reply to an error. *)
Lemma error_reply_ok e w : match remote_error e with
    | Some r => remote_ok r → len (remote_bytes r) <= maxInt →
        error_reply e w = (Ok (Some (p_emit (NewParcel (W := W) (B := B)) (remote_bytes r) [])), w)
    | None => error_reply (W := W) (B := B) e w = (Err e, w)
    end.
Proof.
  assert (H := TryWriteException_spec W B NewParcel w e). cbn zeta in H. fold (remote_error e) in H.
  unfold error_reply, with_parcel, mbind, ST_bind. destruct (remote_error e) as [r|].
  - intros Hr Hl. by rewrite (H Hr append_ok_new ltac:(change (len (buf NewParcel)) with 0; lia)).
  - by rewrite H.
Qed.

(** The client on the reply of a case. *)
Lemma replied m args w r' w' : gm_Oneway m = false →
  seen_outcome m (impl (gm_GoName m) args w).1 (impl (gm_GoName m) args w).2 r' w' →
  (resp ← (reply ← handle_case model customs root n registrar impl (renderHandlerCase model customs root m) args;
           mret (back <$> reply));
   match resp with
   | None => throw ErrBadParcelable
   | Some resp =>
       '(results, _) ← with_parcel resp
         (ReadException;; read_values runr
            (option_list (px_Return (renderProxyMethod model customs root m)) ++ px_Outputs (renderProxyMethod model customs root m)));
       mret results
   end) w = (r', w').
Proof.
  intros Ho Hr. set (c := renderHandlerCase model customs root m). set (hc := handle_case model customs root n registrar impl c args).
  assert (Ehc : hc w = match impl (gm_GoName m) args w with
    | (Ok results, w) => ('(_, reply) ← with_parcel NewParcel (WriteNoException;; write_args (runw registrar)
                            (option_list (cs_Return c) ++ cs_Outputs c) results); mret reply) w
    | (Err e, w) => error_reply e w
    | (Panic y, w) => (Panic y, w) end).
  { unfold hc, handle_case. change (cs_Method c) with (gm_GoName m). change (cs_Oneway c) with (gm_Oneway m). by rewrite Ho. }
  unfold seen_outcome in Hr. rewrite Ho in Hr.
  destruct (impl (gm_GoName m) args w) as [[results|e|y] w0]; cbn [fst snd] in *.
  - destruct Hr as (results' & bs & objs & w1 & Hm & Hl & ->).
    destruct (results_move m results results' bs objs w0 w1 w1 w' Ho Hm) as [Hw Hc]. fold c in Hw.
    assert (Hl' : len (word 0 ++ bs) <= maxInt) by (rewrite length_app; unfold word; rewrite length_le_bytes; lia).
    assert (Hn : sends (WriteNoException;; write_args (runw registrar) (option_list (cs_Return c) ++ cs_Outputs c) results)
      (word 0 ++ bs) ([] ++ (shift_ref (len (word 0)) <$> objs)) w0 w1).
    { eapply sends_bind; [|exact Hw]. apply emits_sends, emits_receiver. intros p. apply emits_WriteInt32. }
    rewrite (bind_ok _ _ _ _ _ (with_sends _ _ _ w0 w1 Hn Hl')) in Ehc. cbn [app] in Ehc.
    assert (E : (reply ← hc; mret (back <$> reply)) w =
                (Ok (Some (back (p_emit NewParcel (word 0 ++ bs) (shift_ref (len (word 0)) <$> objs)))), w1)).
    { by rewrite (bind_ok _ _ _ _ _ Ehc). }
    rewrite (bind_ok _ _ _ _ _ E).
    assert (Hread := gets_bind back _ (λ _ : unit, read_values runr _) tt results' _ [] _ objs w1 w1 w'
                       (consumes_gets back _ _ _ _ w1 consumes_no_exception) Hc).
    assert (Hwf : objs_wf ([] ++ (shift_ref (len (word 0)) <$> objs)) (len (word 0 ++ bs))).
    { rewrite length_app, Nat2Z.inj_add. apply objs_wf_app; [lia|lia|apply objs_wf_nil|by eapply moved_all_objects]. }
    destruct (with_gets back _ _ [] _ _ w1 w' Hback Hread Hl' Hwf) as [p Hp]. cbn [app] in Hp.
    rewrite <- list_fmap_compose in Hp.
    assert (Hpos : ∀ q : Parcel W B, set_pos (len (@nil Z)) (back q) = back q).
    { intros q. destruct (Hback q) as (_ & Hq & _). change (len []) with 0. rewrite <- Hq. by destruct (back q). }
    rewrite Hpos in Hp.
    replace (compose (shift_ref (len (@nil Z))) (shift_ref (len (word 0))) <$> objs) with (shift_ref (len (word 0)) <$> objs) in Hp.
    2: { apply list_fmap_ext. intros _ o _. unfold compose. by rewrite shift_shift. }
    by rewrite (bind_ok _ _ _ _ _ Hp).
  - destruct Hr as [-> Hr]. assert (He := error_reply_ok e w0). destruct (remote_error e) as [x|].
    + destruct Hr as (Hc & Hok & Hl & ->). rewrite (He Hok Hl) in Ehc. set (data := p_emit _ _ _) in Ehc.
      assert (E : (reply ← hc; mret (back <$> reply)) w = (Ok (Some (back data)), w0)) by (by rewrite (bind_ok _ _ _ _ _ Ehc)).
      rewrite (bind_ok _ _ _ _ _ E). destruct (Hback data) as (Hb & Hp & _).
      destruct (ReadException_remote x (back data) w0 [] Hc Hok ltac:(by rewrite Hb) Hp ltac:(rewrite Hb; exact Hl)) as [p' Hp'].
      apply bind_err. unfold with_parcel. by rewrite (bind_err _ _ _ _ _ Hp').
    + subst r'. rewrite He in Ehc. by rewrite (bind_err _ _ _ _ _ (bind_err _ _ _ _ _ Ehc)).
  - destruct Hr as [-> ->]. by rewrite (bind_panic _ _ _ _ _ (bind_panic _ _ _ _ _ Ehc)).
Qed.
End Call.
End Stub.

(** ** Theorems *)

(** Whatever a [sendable] value the generated code is given (scalars, strings, enums,
    lists, arrays, maps, parcelables and unions of this file or of others, nullable or
    not, nested to any depth, without Binders and descriptors but nil ones), writing it with the expression generated for its type,
    rewinding and reading it with the expression generated for reading returns the same
    value and leaves exactly its wire image in the Parcel. *)
Theorem generated_roundtrip {W B I R X : Type} `{!BinderMarshal W B} `{!BinderEq B} `{!FDSys W} `{!Linked W B I R X}
    `{!Contract W B I R X} (model : GoFile) customs root dd n registrar (reg : option R) (t : GoType) (v : gv B I X) (p : Parcel W B) w :
  sendable model customs root dd n t v → append_ok p →
  len (buf p) + len (present t ++ wire model customs root n t v) <= maxInt →
  (run_w (write_call model customs root n) reg (contextWriteExpr model customs root registrar t) v;; SetPosition (pos p);;
   run_r (R := R) model customs root dd (read_call model customs root dd n) (contextReadExpr model customs root t))
    (mkst (Some p) w) =
  (Ok v, mkst (Some (p_emit p (present t ++ wire model customs root n t v) [])) w).
Proof.
  intros Hs. apply carried_roundtrip. by apply context_carried, sendable_carried.
Qed.


(** ** A file to try them on

    A parcelable with a list of itself, an enum, a map, a nullable string and a field of a
    custom type; a union of it; an interface that takes the one and returns the other.  The
    custom functions write an int32. *)

Definition int_write (v : gv unit unit unit) : PM unit unit unit := match v with GInt n => WriteInt32 n | _ => ill_typed end.
Definition int_read : PM unit unit (gv unit unit unit) := n ← ReadInt32; mret (GInt n).

#[global] Instance unit_Linked : Linked unit unit unit unit unit :=
  {| AsBinder := λ _, None; new_client := λ _ _ _, tt; iface_eqb := λ _ _, true;
     RegisterLocalHandler := λ _ _ _ _ w, (Ok None, w);
     custom_write := λ _ _, int_write; custom_read := λ _ _, int_read;
     ext_write := λ _ _ _ _, int_write; ext_read := λ _ _ _, int_read;
     ext_zero := λ _, GInt 0; eval_default := λ _, GInt 0 |}.

Definition is_int (v : gv unit unit unit) : Prop := match v with GInt n => in_s 32 n | _ => False end.
Definition int_wire (v : gv unit unit unit) : list Z := match v with GInt n => word n | _ => [] end.

Lemma int_emits v : is_int v → emits (int_write v) tt (int_wire v) [].
Proof. destruct v; try done. intros _. apply emits_WriteInt32. Qed.

Lemma int_consumes v : is_int v → consumes int_read v (int_wire v) [].
Proof. destruct v; try done. intros H. eapply consumes_fmap; [by apply consumes_ReadInt32|done]. Qed.

Lemma int_nonempty v : is_int v → 0 < len (int_wire v).
Proof. by destruct v. Qed.

#[global] Instance unit_Contract : Contract unit unit unit unit unit :=
  {| custom_ok := λ _ _ _, is_int; custom_wire := λ _ _, int_wire;
     custom_emits := λ _ _ _, int_emits; custom_consumes := λ _ _ _, int_consumes;
     ext_ok := λ _ _ _, is_int; ext_wire := λ _ _ _, int_wire;
     ext_emits := λ _ _ _ _, int_emits; ext_consumes := λ _ _ _, int_consumes; ext_nonempty := λ _ _ _, int_nonempty |}.

Definition nullable (t : GoType) : GoType :=
  mkGoType (ty_Kind t) (ty_AIDLName t) (ty_DeclPackage t) (ty_GoExpr t) true (ty_FixedLen t) (ty_Elem t) (ty_Key t) (ty_Value t)
    (ty_NamedGo t) (ty_IsList t) (ty_IsArray t) (ty_IsBuiltin t).
Definition map_type (k v : GoType) : GoType := mkGoType TypeMap "" "" "" true 0 None (Some k) (Some v) "" false false false.

Definition t_int : GoType := plain TypeInt32 "int32".
Definition t_string : GoType := plain TypeString "string".
Definition t_node : GoType := type_named TypeParcelable "demo" "Node".
Definition t_shape : GoType := type_named TypeUnion "demo" "Shape".

Definition node : GoParcelable :=
  mkGoParcelable "demo.Node" "Node" true false None []
    [input "Id" t_int; input "Name" (nullable t_string); input "Mode" (type_named TypeEnum "demo" "Mode");
     input "Children" (list_of t_node); input "Sizes" (map_type t_string (plain TypeInt64 "int64"));
     input "When" (type_named TypeParcelable "other" "Time")].
Definition shape : GoUnion := mkGoUnion "demo.Shape" "Shape" false [input "Count" t_int; input "Root" t_node].
Definition mode : GoEnum := mkGoEnum "demo.Mode" "Mode" (plain TypeByte "int8") [].

Definition t_method : GoMethod :=
  mkGoMethod "grow" "Grow" 1 false [input "node" t_node; input "by" t_int] (Some (input "" t_shape)) [input "log" t_string].
Definition ping_method : GoMethod := mkGoMethod "ping" "Ping" 2 true [input "at" t_int] None [].
Definition t_iface : GoInterface := mkGoInterface "demo.ITree" "ITree" "demo.ITree" false false 0 "" [] [t_method; ping_method].

Definition tree_model : GoFile := mkGoFile "demo/ITree.aidl" "demo" "demo" [] [t_iface] [node] [mode] [shape] [].
Definition tree_customs : gmap string CustomParcelableConfig :=
  {["other.Time" := mkCustomParcelableConfig "other.Time" "time" "Time" "Write" "Read" false]}.

Definition leaf : gv unit unit unit :=
  GStructV [GInt 3; GNil; GInt (-1); GNil; GMap [(GStr "a", GInt 9); (GStr "b", GInt (-9))]; GInt 5].
Definition tree : gv unit unit unit :=
  GStructV [GInt 2; GPtr (GStr "root"); GInt 1; GList [leaf; leaf]; GNil; GInt 6].

Ltac sendable_now := vm_compute; repeat (first [done | split | constructor | discriminate]).

Lemma generated_roundtrip_witness :
  (run_w (write_call tree_model tree_customs "" 3) (None : option unit) (contextWriteExpr tree_model tree_customs "" "" t_node) tree;;
   SetPosition 0;;
   run_r (R := unit) tree_model tree_customs "" 1 (read_call tree_model tree_customs "" 1 3) (contextReadExpr tree_model tree_customs "" t_node))
    (mkst (Some NewParcel) tt) =
  (Ok tree, mkst (Some (p_emit NewParcel (present t_node ++ wire tree_model tree_customs "" 3 t_node tree) [])) tt).
Proof.
  apply (generated_roundtrip (R := unit) tree_model tree_customs "" 1 3 "" None t_node tree NewParcel tt).
  - sendable_now.
  - split; [reflexivity|constructor].
  - vm_compute. discriminate.
Defined.

(** An implementation that returns the tree it is given and refuses one numbered zero. *)
Definition grow (method : string) (args : list (gv unit unit unit)) : ST error unit (list (gv unit unit unit)) :=
  match args with
  | [GPtr (GStructV (GInt 0 :: _)); _] => throw (ERemote demo_remote)
  | [GPtr t; _] => mret [GPtr (GUnionV 1 [GInt 0; t]); GStr "ok"]
  | _ => mret []
  end.

Definition bad_leaf : gv unit unit unit := GStructV [GInt 0; GNil; GInt 0; GNil; GNil; GInt 5].

Definition rewound {W B} (p : Parcel W B) : Parcel W B := set_pos 0 p.

Definition grow_call (t : gv unit unit unit) : res (list (gv unit unit unit)) * unit :=
  call_proxy tree_model tree_customs "" 1 4 (gi_Descriptor t_iface) (renderProxyMethod tree_model tree_customs "" t_method) (None : option unit)
    (loopback tree_model tree_customs "" 1 4 t_iface grow None rewound rewound) [GPtr t; GInt 7] tt.

(** A world where Binders are numbers, sent as handles of that number; the Binder of
    handle [n] is [n + 100] at the other end.  An interface is a client of a Binder or
    a local implementation; the world counts the handlers registered, and the next one
    registered gets that number. *)
#[export] Instance hub_marshal : BinderMarshal nat nat :=
  {| as_StabilityMarshaler := λ _, None;
     as_Marshaler := λ n, Some (WriteStrongBinderHandleWithStability (Z.of_nat n) StabilitySystem);
     as_StabilityProvider := λ _, None; type_name := λ _, "binder" |}.
#[export] Instance hub_fds : FDSys nat := {| sys_Write := λ _ bs w, (len bs, None, w); sys_Close := λ _ w, w |}.
#[export] Instance hub_eq : BinderEq nat := Nat.eqb.
#[export] Instance hub_Linked : Linked nat nat (nat + string) unit unit :=
  {| AsBinder := λ i, match i with inl b => Some (Some b) | inr _ => None end; new_client := λ _ _ b, inl b;
     iface_eqb := λ _ _, false; RegisterLocalHandler := λ _ _ _ _ w, (Ok (Some w), S w);
     custom_write := λ _ _ _, ill_typed; custom_read := λ _ _, ill_typed;
     ext_write := λ _ _ _ _ _, ill_typed; ext_read := λ _ _ _, ill_typed;
     ext_zero := λ _, GNil; eval_default := λ _, GNil |}.
#[export] Instance hub_Contract : Contract nat nat (nat + string) unit unit.
Proof.
  refine {| custom_ok := λ _ _ _ _, False; custom_wire := λ _ _ _, [];
            ext_ok := λ _ _ _ _, False; ext_wire := λ _ _ _ _, [] |}; by intros.
Defined.

Definition hub_arrive (p : Parcel nat nat) : Parcel nat nat :=
  mkParcel (buf p) 0 (objects p) (Parcel.mode p) (flags p) None None
    (Some (λ obj w, (Some (Z.to_nat (obj_Handle obj + 100)), w))) None false.

Definition t_callback : GoType := type_named TypeInterface "demo" "ICallback".
Definition t_binder : GoType := plain TypeBinder "binder.Binder".

Definition listen_method : GoMethod :=
  mkGoMethod "listen" "Listen" 1 false
    [input "callback" t_callback; input "owner" t_binder; input "id" t_int]
    (Some (input "" t_callback)) [].
Definition hub_iface : GoInterface := mkGoInterface "demo.IHub" "IHub" "demo.IHub" false false 0 "" [] [listen_method].
Definition hub_model : GoFile := mkGoFile "demo/IHub.aidl" "demo" "demo" [] [hub_iface] [] [] [] [].

(** It gives the callback back to its owner. *)
Definition listen (method : string) (args : list (gv nat (nat + string) unit)) : ST error nat (list (gv nat (nat + string) unit)) :=
  match args with [c; GBinder _; _] => mret [c] | _ => throw (EText "arguments") end.

(** The caller passes an implementation of its own, and Binder 9. *)
Definition listen_args : list (gv nat (nat + string) unit) := [GIface (inr "mine"); GBinder 9%nat; GInt 7].

Definition listen_call : res (list (gv nat (nat + string) unit)) * nat :=
  call_proxy hub_model ∅ "" 1 1 (gi_Descriptor hub_iface) (renderProxyMethod hub_model ∅ "" listen_method) (Some ())
    (loopback hub_model ∅ "" 1 1 hub_iface listen None hub_arrive hub_arrive) listen_args 3%nat.

Lemma hub_out (b : nat) w : in_u 32 (Z.of_nat b) → binder_out b (Z.of_nat b) StabilitySystem w w.
Proof.
  intros Hb. split; [done|]. split; [vm_compute; split; [discriminate|reflexivity]|].
  apply emits_sends. change (WriteStrongBinder (Some b)) with (WriteStrongBinderHandleWithStability (W := nat) (B := nat) (Z.of_nat b) StabilitySystem).
  apply emits_WriteStrongBinderHandle. vm_compute. split; [discriminate|reflexivity].
Qed.

Lemma hub_in h w : binder_in hub_arrive h StabilitySystem (Z.to_nat (h + 100)) w w.
Proof. intros p. eexists. split; [reflexivity|]. done. Qed.

(** The handler gets clients of the Binders its end sees; the caller gets a client. *)
Lemma listen_moves : ∃ objs,
  moved_all hub_model ∅ "" 1 1 (Some ()) hub_arrive (gf_Type <$> gm_Inputs listen_method) listen_args
    [GIface (inl 103%nat); GBinder 109%nat; GInt 7] (handle_bytes 3 StabilitySystem ++ handle_bytes 9 StabilitySystem ++ word 7 ++ [])
    objs 3%nat 4%nat 4%nat 4%nat.
Proof.
  eexists. econstructor.
  { refine (moved_callback hub_model ∅ "" 1 1 (Some ()) hub_arrive t_callback (inr "mine") () 3%nat 103%nat 3 StabilitySystem 3%nat 4%nat 4%nat 4%nat 4%nat
      eq_refl eq_refl eq_refl eq_refl (hub_out 3 4%nat _) (hub_in 3 4%nat)). done. }
  econstructor.
  { refine (moved_binder hub_model ∅ "" 1 1 (Some ()) hub_arrive t_binder 9%nat 109%nat 9 StabilitySystem 4%nat 4%nat 4%nat 4%nat
      eq_refl (hub_out 9 4%nat _) (hub_in 9 4%nat)). done. }
  econstructor; [|constructor]. refine (moved_plain hub_model ∅ "" 1 1 (Some ()) hub_arrive t_int (GInt 7) 4%nat 4%nat _).
  vm_compute. split; [discriminate|reflexivity].
Qed.

