(* ===== verification/GeneratedLink.v ===== *)
(** * GeneratedLink: generated packages linked together, and defects of generated code

    The exported functions of one generated file keep the contract that the files
    importing it rely on, so that round trips compose over packages.  Three defects of
    the generated code are at the end. *)

From stdpp Require Import base list numbers strings pretty gmap.
From S2P Require Import Prelude Errors Unicode Parcel ParcelFacts Codec ObjectCodec Fields ParcelInv ParcelProps Slices Value ValueProps Status Stability Aidl AidlExpr AidlResolve GoText AidlNames AidlLower Codegen CodegenExpr CodegenProps GeneratedCode GeneratedWire GeneratedProps GeneratedRpc.

Open Scope Z_scope.

Section Link.
Context {W B I R X : Type} `{!BinderMarshal W B} `{!BinderEq B} `{!FDSys W} `{!Linked W B I R X} `{!Contract W B I R X}.
#[local] Abbreviation V := (gv B I X).
#[local] Existing Instance gv_GoKey.
(** The imported file and the qualifier it is imported under. *)
Context (q : string) (model : GoFile) (customs : gmap string CustomParcelableConfig) (root : string) (dd n : nat).

Definition linked : Linked W B I R X :=
  {| AsBinder := AsBinder (Linked := _); new_client := new_client (Linked := _); iface_eqb := iface_eqb (Linked := _);
     RegisterLocalHandler := RegisterLocalHandler (Linked := _);
     custom_write := custom_write (Linked := _); custom_read := custom_read (Linked := _);
     ext_write := λ q' nl name reg v, if bool_decide (q' = q) then exported_write model customs root n nl name reg v
                                      else ext_write (Linked := _) q' nl name reg v;
     ext_read := λ q' nl name, if bool_decide (q' = q) then exported_read (R := R) model customs root dd n nl name
                               else ext_read (Linked := _) q' nl name;
     ext_zero := ext_zero (Linked := _); eval_default := eval_default (Linked := _) |}.

(** An enum of the file, as its own functions know it. *)
Definition own_enum (name : string) : GoType := mkGoType TypeEnum "" "" "" false 0 None None None name false false false.

Definition export_wire (nl : bool) (name : string) (v : V) : list Z :=
  match find_decl model customs root name, n with
  | Some (GEnum _ _), _ => enum_wire model customs root (own_enum name) v
  | Some d, S n => nullable_wire nl (decl_wire (λ t v, present t ++ wire model customs root n t v) d) v
  | _, _ => []
  end.

Definition export_ok (nl : bool) (name : string) (v : V) : Prop :=
  match find_decl model customs root name, n with
  | Some (GEnum _ _), _ => nl = false ∧ enum_ok model customs root n (own_enum name) v
  | Some d, S n => nullable_ok nl (decl_ok model customs root (λ t v, present t ++ wire model customs root n t v)
                                     (sendable model customs root dd n) d) v
  | _, _ => False
  end.

Lemma decl_wire_nonempty (wr : GoType → V → list Z) ok d v : decl_ok model customs root wr ok d v → 0 < len (decl_wire wr d v).
Proof.
  destruct d as [| | | | |], v; cbn [decl_ok decl_wire]; try done; intros H; try apply counted_nonempty.
  destruct data as [bs|]; [|done]. apply (counted_nonempty (len bs)).
Qed.

Lemma export_nonempty nl name v : export_ok nl name v → 0 < len (export_wire nl name v).
Proof.
  unfold export_ok, export_wire. destruct (find_decl model customs root name) as [d|]; [|done].
  destruct d as [w r|needs fs ws rs| |alias w r|needs fs ws rs|desc] eqn:Ed.
  { intros [_ H]. assert (Hc := proj1 (enum_carried model customs root dd n (own_enum name) v eq_refl H)).
    by rewrite wire_eq in Hc. }
  all: destruct n as [|n']; [done|]; destruct nl; intros H; [exact (nullable_nonempty true _ _ v H eq_refl)|exact (decl_wire_nonempty _ _ _ v H)].
Qed.

Lemma export_carried nl name reg v : export_ok nl name v →
  carried (exported_write model customs root n nl name reg v) (exported_read (R := R) model customs root dd n nl name) v
    (export_wire nl name v).
Proof.
  unfold export_ok, export_wire, exported_write, exported_read.
  destruct (find_decl model customs root name) as [d|] eqn:Ed; [|done].
  destruct d as [w r|needs fs ws rs| |alias w r|needs fs ws rs|desc] eqn:E.
  { intros [-> H]. assert (Hc := proj2 (enum_carried model customs root dd n (own_enum name) v eq_refl H) None ""%string).
    by rewrite wire_eq in Hc. }
  all: destruct n as [|n']; [done|]; intros H; cbn [write_call read_call]; rewrite bool_decide_true by done; rewrite Ed;
       eapply carried_opt; [|exact H]; intros x Hx; (apply decl_carried; [exact Ed|apply sendable_carried|exact Hx]).
Qed.

#[local] Instance linked_instance : Linked W B I R X | 0 := linked.

Program Definition linked_contract : Contract W B I R X (Linked0 := linked) :=
  {| custom_ok := custom_ok (Linked0 := Linked0); custom_wire := custom_wire (Linked0 := Linked0);
     custom_emits := custom_emits (Linked0 := Linked0); custom_consumes := custom_consumes (Linked0 := Linked0);
     ext_ok := λ q' nl name v, if bool_decide (q' = q) then export_ok nl name v else ext_ok (Linked0 := Linked0) q' nl name v;
     ext_wire := λ q' nl name v, if bool_decide (q' = q) then export_wire nl name v else ext_wire (Linked0 := Linked0) q' nl name v |}.
Next Obligation.
  intros q' nl name reg v H. cbn in *. case_bool_decide; [by apply export_carried|by apply ext_emits].
Qed.
Next Obligation.
  intros q' nl name v H. cbn in *. case_bool_decide; [by apply (export_carried _ _ None)|by apply ext_consumes].
Qed.
Next Obligation.
  intros q' nl name v H. cbn in *. case_bool_decide; [by apply export_nonempty|by apply ext_nonempty].
Qed.
End Link.

(** ** Theorems *)


(** A file of another package that lists trees. *)
Definition t_tree : GoType := mkGoType TypeParcelable "demo.Node" "demo" "Node" false 0 None None None "Node" false false false.
Definition forest : GoParcelable :=
  mkGoParcelable "wood.Forest" "Forest" true false None [] [input "Trees" (list_of t_tree); input "Age" t_int].
Definition forest_model : GoFile := mkGoFile "wood/Forest.aidl" "wood" "wood" [] [] [forest] [] [] [].
Definition t_forest : GoType := type_named TypeParcelable "wood" "Forest".


(** A stable client answers with the version its target gave it first: once an answer was
    returned, later calls return the same one without asking, and a failed query leaves
    the client as it was, so that the next call asks again. *)
Theorem stable_version_cached {W} (target1 target2 : ST error W Z) c w r c' w' :
  InterfaceVersion (Some target1) (c, w) = (r, (c', w')) →
  match r with
  | Ok v => ∀ w2, InterfaceVersion (Some target2) (c', w2) = (Ok v, (c', w2))
  | _ => c' = c
  end.
Proof.
  unfold InterfaceVersion. destruct (versionResolved c) eqn:E; [intros [= <- <- <-]; by rewrite E|].
  destruct (queryInterfaceVersion target1 w) as [[v|e|y] w1]; by intros [= <- <- <-].
Qed.

(** ** Defects *)

(** The reader of a structured parcelable checks whether its size is used up after a
    field, never before the first: a parcelable that ends at its size word, as a sender
    without fields writes it, takes the first field from the data behind it. *)
Theorem empty_parcelable_reads_on {W B I R X : Type} `{!BinderEq B} `{!FDSys W} `{!Linked W B I R X}
    (model : GoFile) customs root dd call needs f fs ws r rs name (v : gv B I X) bs (p : Parcel W B) w pre post :
  consumes (run_r model customs root dd call r) v bs [] → 0 < len bs →
  buf p = pre ++ word 4 ++ bs ++ post → pos p = len pre → len (buf p) <= maxInt →
  read_decl (R := R) model customs root dd call (GStruct needs (f :: fs) ws (r :: rs)) name (mkst (Some p) w) =
    (Ok (GStructV (v :: (initial (R := R) model customs root <$> fs))), mkst (Some (set_pos (len pre + 4) p)) w).
Proof.
  intros Hr Hne Hb Hp Hm. cbn [read_decl]. unfold read_struct. rewrite (bind_ok _ _ _ _ _ (position_at p w)).
  rewrite (bind_ok _ _ _ _ _ (consumes_ReadInt32 (W := W) (B := B) 4 ltac:(done) p w pre (bs ++ post) Hb Hp Hm ltac:(constructor))).
  rewrite ltb_false by lia. rewrite bind_receiver. cbn [ptr]. set (p1 := set_pos _ p).
  assert (Hlen : Len (Some p1) = len pre + 4 + len bs + len post)
    by (unfold Len, p1; cbn [buf set_pos]; rewrite Hb; unfold word; len_lia).
  assert (Hc : (pos p + 4 <? pos p) || (pos p + 4 >? Len (Some p1)) = false) by (rewrite Hlen; zif; lia).
  rewrite Hc. unfold deferred. cbn [fmap list_fmap read_fields].
  assert (E := Hr p1 w (pre ++ word 4) post ltac:(unfold p1; cbn [buf set_pos]; by rewrite Hb, <- app_assoc)
    ltac:(unfold p1, word; cbn [pos set_pos]; len_lia) Hm ltac:(constructor)).
  set (p2 := set_pos _ p1) in E. rewrite bind_assoc, (bind_ok _ _ _ _ _ E), bind_assoc, (bind_ok _ _ _ _ _ (position_at p2 w)).
  assert (Hp2 : pos p2 = len pre + 4 + len bs) by (unfold p2, word; cbn [pos set_pos]; len_lia).
  assert (Hs : (pos p2 - pos p >=? 4) = true) by (rewrite Hp2, Hp; zif; lia). rewrite Hs, bind_ret.
  unfold mret, ST_ret. cbv beta iota. rewrite SetPosition_ok; [|change (len (buf p2)) with (Len (Some p1)); rewrite Hlen, Hp; lia].
  do 3 f_equal. unfold p2, p1, set_pos; cbn [pos buf objects mode flags binderResolver localBinderResolve
    binderObjectResolve localBinderObjectResolve wireFDsOwned]. f_equal. rewrite length_le_bytes. lia.
Qed.

(** A file descriptor that must not be null is read as descriptor 0 of the process when
    the sender marked it absent; the check that a required descriptor is valid is not
    reached. *)
Theorem absent_descriptor_is_zero {W B I R X : Type} `{!BinderEq B} `{!FDSys W} `{!Linked W B I R X}
    (model : GoFile) customs root dd call t :
  ty_Kind t = TypeParcelFileDescriptor → ty_Nullable t = false →
  consumes (run_r (I := I) (R := R) (X := X) model customs root dd call (contextReadExpr model customs root t))
    (GFD (mkFD 0 false) : gv B I X) (word 0) [].
Proof.
  intros Hk Hn. unfold contextReadExpr, typed_object_read, methodUsesTypedObjectEncoding. rewrite Hk, Hn. cbn [run_r andb negb bool_decide].
  replace (GFD (mkFD 0 false)) with (zero (W := W) (R := R) (B := B) (I := I) (X := X) model customs root t).
  - rewrite <- (app_nil_r (word 0)). apply consumes_word; [done|]. apply consumes_ret.
  - unfold zero. destruct (length _ + length _)%nat; cbn [zero_val]; by rewrite Hk, Hn.
Qed.

(** What becomes of the registrar that is lost across files ([registrar_lost_across_files]):
    the writer the other file generated fails on a local implementation when it is called
    without one, and registers it when it is called with one. *)
Theorem lost_registrar_fails :
  let owner := demo_model [] [holder] holders in
  let v := GStructV [GIface tt; GNil] : gv unit unit unit in
  let run reg := fst (exported_write owner ∅ "" 1 false "Holder" reg v (mkst (Some NewParcel) tt)) in
  run None = Err (Errorf_w ErrUnsupported "no local handler registrar available for ICallback") ∧
  run (Some (Some tt)) = Ok tt.
Proof. vm_compute. split; reflexivity. Qed.
