(* ===== verification/AidlGen.v ===== *)
(** * AidlGen: the aidlgen command

    Models src/cmd/aidlgen/main.go and the summaries of
    src/internal/aidl/ir/ir.go: which files the command loads from the files
    named on its command line, and what it prints, writes and returns in each of
    its formats.  The file system is a parameter; printing as JSON and gofmt's
    layout are not modelled, so an output is the value that is printed.  Flags
    arrive parsed.  The recursion of [visit] is bounded by a stack depth. *)

From stdpp Require Import base list numbers strings pretty gmap sorting.
From S2P Require Import Prelude Aidl TextScanner AidlExpr AidlResolve GoText AidlNames AidlLower Codegen CodegenExpr.

Open Scope Z_scope.

(** ** Summaries (ir.go) *)

Record IrDecl := mkIrDecl { ir_Kind : string; ir_Name : string }.
Record IrFile := mkIrFile { irf_PackageName : string; irf_Decls : list IrDecl; irf_Imports : list Import }.

Definition ir_decl (decl : Decl) : IrDecl :=
  match decl with
  | DInterface (mkInterfaceDecl _ _ name _) => mkIrDecl "interface" name
  | DParcelable (mkParcelableDecl _ name _ structured _ _ _) =>
      mkIrDecl (if structured then "structured_parcelable" else "parcelable") name
  | DEnum d => mkIrDecl "enum" (ed_Name d)
  | DUnion d => mkIrDecl "union" (ud_Name d)
  end.

Definition ir_Lower (file : option File) : option IrFile :=
  (λ f, mkIrFile (file_PackageName f) (ir_decl <$> file_Decls f) (file_Imports f)) <$> file.

(** ** The file system *)

(** os.ReadFile, os.Stat, os.MkdirAll and os.WriteFile, and writing a document to
    standard output; a failure is the text of its error. *)
Class FileSystem (doc content : Type) := {
  ReadFile : string → string + string;
  Stat : string → bool;
  MkdirAll : string → option string;
  WriteFile : string → content → option string;
  WriteStdout : doc → option string;
}.

(** ** Names that a file refers to *)

Definition isBuiltinTypeRef (name : string) : bool :=
  bool_decide (name ∈ ["void"; "boolean"; "byte"; "char"; "int"; "long"; "float"; "double";
                       "String"; "IBinder"; "FileDescriptor"; "ParcelFileDescriptor"; "List"]).

(** The part before the first dot. *)
Definition first_segment (name : string) : string := default name (head (split_char dot name)).

Fixpoint collectTypeRefName (ref : TypeRef) (out : gset string) : gset string :=
  let out := fold_left (λ out arg, collectTypeRefName arg out) (tr_TypeArgs ref) out in
  if bool_decide (tr_Name ref = "") || isBuiltinTypeRef (tr_Name ref) then out
  else
    let name := first_segment (tr_Name ref) in
    if bool_decide (name = "") then out else {[name]} ∪ out.

Definition collectFieldTypeRefs (field : Field) (out : gset string) : gset string :=
  collectTypeRefName (fld_Type field) out.

Definition collect_all {A} (f : A → gset string → gset string) (l : list A) (out : gset string) : gset string :=
  fold_left (λ out x, f x out) l out.

Definition collect_method (m : MethodDecl) (out : gset string) : gset string :=
  collect_all collectFieldTypeRefs (md_Args m) (collectTypeRefName (md_Return m) out).

Definition collect_const (c : ConstDecl) (out : gset string) : gset string := collectTypeRefName (cd_Type c) out.

Definition collect_union (d : UnionDecl) (out : gset string) : gset string :=
  collect_all collectFieldTypeRefs (ud_Fields d) out.

Fixpoint collectDeclTypeRefs (decl : Decl) (out : gset string) : gset string :=
  match decl with
  | DInterface d => collect_interface d out
  | DParcelable d => collect_parcelable_refs d out
  | DEnum _ => out
  | DUnion d => collect_union d out
  end
with collect_interface (d : InterfaceDecl) (out : gset string) : gset string :=
  match d with mkInterfaceDecl _ _ _ members => collect_all collect_member members out end
with collect_member (m : InterfaceMember) (out : gset string) : gset string :=
  match m with
  | MMethod m => collect_method m out
  | MConst c => collect_const c out
  | MParcelable d => collect_parcelable_refs d out
  | MEnum _ => out
  | MUnion d => collect_union d out
  end
with collect_parcelable_refs (d : ParcelableDecl) (out : gset string) : gset string :=
  match d with
  | mkParcelableDecl _ _ _ _ consts fields decls =>
      collect_all collectDeclTypeRefs decls (collect_all collectFieldTypeRefs fields (collect_all collect_const consts out))
  end.

Definition collectSamePackageDeclRefs (file : File) : gset string := collect_all collectDeclTypeRefs (file_Decls file) ∅.

(** ** Paths *)

(** Cleaned, without duplicates, sorted. *)
Definition uniqueStrings (values : list string) : list string :=
  sort_strings (remove_dups (filepath_Clean <$> filter (λ v, v ≠ "") values)).

Definition hasPathSuffix (path suffix : string) : bool :=
  let path := filepath_Clean path in
  let suffix := filepath_Clean suffix in
  bool_decide (path = suffix) || has_suffix path ("/" +:+ suffix).

(** The directory of a file and, when its end spells the package, the directory
    that the package is below. *)
Definition sourceRootsFor (path : string) (file : File) : list string :=
  let dir := filepath_Clean (filepath_Dir path) in
  if bool_decide (file_PackageName file = "") then uniqueStrings [dir]
  else
    let pkgDir := filepath_Join (split_char dot (file_PackageName file)) in
    uniqueStrings
      (dir :: if hasPathSuffix dir pkgDir then
                let root := trim_suffix (trim_suffix dir pkgDir) "/" in
                [filepath_Clean (if bool_decide (root = "") then "." else root)]
              else []).

(** ** Loading *)

Inductive load_error := ReadFailed (path err : string) | ParseFailed (path : string) (err : perror).

(** What the closure [visit] shares. *)
Record graph := mkGraph { g_ordered : list string; g_files : gmap string File; g_searchRoots : list string }.

Definition empty_graph : graph := mkGraph [] ∅ [].

Definition add_file (path : string) (file : File) (g : graph) : graph :=
  mkGraph (g_ordered g ++ [path]) (<[path := file]> (g_files g)) (uniqueStrings (g_searchRoots g ++ sourceRootsFor path file)).

Abbreviation GM := (ST load_error graph).

(** A loop that stops at the first error. *)
Fixpoint visit_all (visit : string → GM unit) (paths : list string) : GM unit :=
  match paths with
  | [] => mret tt
  | path :: paths => visit path;; visit_all visit paths
  end.

Section Load.
Context {doc content : Type} `{!FileSystem doc content}.

Definition parseAIDLFile (path : string) : result load_error File :=
  match ReadFile path with
  | inr err => Err (ReadFailed path err)
  | inl data =>
      match Parse_source data with
      | Ok file => Ok file
      | Err err => Err (ParseFailed path err)
      | Panic why => Panic why
      end
  end.

Definition resolveSamePackageRefs (path : string) (file : File) : list string :=
  if bool_decide (file_PackageName file = "") then []
  else
    let dir := filepath_Clean (filepath_Dir path) in
    sort_strings
      (filter (λ candidate, candidate ≠ filepath_Clean path ∧ Stat candidate = true)
         ((λ name, filepath_Clean (filepath_Join [dir; name +:+ ".aidl"])) <$>
            elements (collectSamePackageDeclRefs file))).

(** The prefixes of an import path, the longest first. *)
Definition import_candidates (importPath root : string) : list string :=
  let parts := split_char dot importPath in
  (λ i, filepath_Clean (filepath_Join [root; filepath_Join (take i parts) +:+ ".aidl"])) <$> reverse (List.seq 1 (length parts)).

Definition resolveImportFile (importPath : string) (searchRoots : list string) : option string :=
  snd <$> list_find (λ candidate, Stat candidate = true) (searchRoots ≫= import_candidates importPath).

(** The files that the imports name; one that is not found is skipped. *)
Definition import_files (file : File) (localRoots : list string) : list string :=
  omap (λ imp, resolveImportFile (imp_Path imp) localRoots) (file_Imports file).

Fixpoint visit (depth : nat) (path : string) : GM unit :=
  match depth with
  | O => panic "stack overflow"
  | S depth =>
      let path := filepath_Clean path in
      g ← get;
      if bool_decide (is_Some (g_files g !! path)) then mret tt
      else
        file ← lift (parseAIDLFile path);
        (λ g, (Ok tt, add_file path file g));;
        visit_all (visit depth) (resolveSamePackageRefs path file);;
        g ← get;
        visit_all (visit depth) (import_files file (uniqueStrings (g_searchRoots g ++ sourceRootsFor path file)))
  end.

Definition loadAIDLGraph (depth : nat) (rootPaths : list string) : result load_error graph :=
  let '(r, g) := visit_all (visit depth) rootPaths empty_graph in result_map (λ _, g) r.

Fixpoint parseRootFiles (paths : list string) (files : gmap string File) : result load_error (gmap string File) :=
  match paths with
  | [] => Ok files
  | path :: paths =>
      match parseAIDLFile path with
      | Ok file => parseRootFiles paths (<[path := file]> files)
      | Err e => Err e
      | Panic why => Panic why
      end
  end.
End Load.

(** ** The command *)

(** One value, or the list of them. *)
Inductive shape (A : Type) := One (a : A) | Many (l : list A).
Arguments One {A} a.
Arguments Many {A} l.

Definition one_or_many {A} (l : list A) : shape A := match l with [x] => One x | _ => Many l end.

(** What is generated for a file, and what is printed. *)
Definition go_content : Type := list (string * gdecl).

Inductive document :=
| DocAst (files : shape (option File))
| DocSummary (files : shape (option IrFile))
| DocModel (files : shape (option GoFile))
| DocGo (content : go_content)
| DocLowering (diags : list LowerDiagnostic)
| DocValidation (diags : list Diagnostic).

Inductive message :=
| Usage
| MappingError (err : string)
| LoadError (err : load_error)
| EncodeError (what err : string)
| GenerateError (path err : string)
| ExpectedSingleOutput (got : nat)
| MkdirError (path err : string)
| WriteError (path err : string)
| UnknownFormat (format : string).

Inductive event :=
| Stdout (d : document)
| StderrDoc (d : document)
| Stderr (m : message)
| MadeDir (path : string)
| Wrote (path : string) (content : go_content).

(** A step of the command prints and writes, and may end it with an exit code. *)
Definition AM (A : Type) : Type := result Z A * list event.

#[global] Instance AM_ret : MRet AM := λ A a, (Ok a, []).
#[global] Instance AM_bind : MBind AM := λ A C k m,
  match m with
  | (Ok a, l) => let '(r, l') := k a in (r, l ++ l')
  | (Err e, l) => (Err e, l)
  | (Panic y, l) => (Panic y, l)
  end.

Definition exit {A} (code : Z) (l : list event) : AM A := (Err code, l).
Definition crash {A} (why : string) : AM A := (Panic why, []).

Fixpoint for_all {A C} (f : A → AM C) (l : list A) : AM (list C) :=
  match l with [] => mret [] | x :: l => y ← f x; ys ← for_all f l; mret (y :: ys) end.

Record flags := mkFlags {
  fl_format : string; fl_outDir : string; fl_typesPath : string; fl_goImportRoot : string; fl_rootsOnly : bool;
  fl_args : list string;
}.

(** The parsed files besides the one at [current]. *)
Definition dependencyFiles (current : string) (ordered : list string) (files : gmap string File) : list (option File) :=
  (λ path, files !! path) <$> filter (λ path, path ≠ current) ordered.

Section Command.
Context `{FS : !FileSystem document go_content} `{GF : !GoFrontEnd} (read_json : string → TypeMappingFile + string) (depth : nat).

(** [enc.Encode(d)] on standard output. *)
Definition encode (what : string) (d : document) : AM unit :=
  match WriteStdout d with
  | None => (Ok tt, [Stdout d])
  | Some err => exit 1 [Stderr (EncodeError what err)]
  end.

Definition loaded {A} (r : result load_error A) : AM A :=
  match r with
  | Ok a => mret a
  | Err e => exit 1 [Stderr (LoadError e)]
  | Panic why => crash why
  end.

Definition mapping {A} (r : A + string) : AM A :=
  match r with inl a => mret a | inr err => exit 1 [Stderr (MappingError err)] end.

Fixpoint validateParsedFiles (ordered : list string) (files : gmap string File) : AM unit :=
  match ordered with
  | [] => mret tt
  | path :: ordered =>
      match ValidateFile (files !! path) with
      | (Panic why, _) => crash why
      | (Err e, _) => match e with end
      | (Ok _, []) => validateParsedFiles ordered files
      | (Ok _, diags) => exit 1 [StderrDoc (DocValidation diags)]
      end
  end.

Section Mode.
Context (customParcelables : gmap string CustomParcelableConfig) (stableInterfaces : gmap string StableInterfaceConfig).

(** A file's model; its diagnostics go where [report] says. *)
Definition lower_path (report : list LowerDiagnostic → event) (ordered : list string) (files : gmap string File) (path : string)
  : AM (option GoFile) :=
  match Lower (files !! path) (mkLowerOptions path customParcelables stableInterfaces (dependencyFiles path ordered files)) with
  | Panic why => crash why
  | Err e => match e with end
  | Ok (model, []) => mret model
  | Ok (_, diags) => exit 1 [report diags]
  end.

Definition run_ast (rootPaths : list string) : AM unit :=
  files ← loaded (parseRootFiles rootPaths ∅);
  encode "encode ast" (DocAst (one_or_many ((λ path, files !! path) <$> rootPaths))).

Definition run_summary (rootPaths : list string) : AM unit :=
  files ← loaded (parseRootFiles rootPaths ∅);
  encode "encode summary" (DocSummary (one_or_many ((λ path, ir_Lower (files !! path)) <$> rootPaths))).

Definition run_model (rootPaths : list string) : AM unit :=
  g ← loaded (loadAIDLGraph depth rootPaths);
  validateParsedFiles (g_ordered g) (g_files g);;
  models ← for_all (lower_path (λ d, Stdout (DocLowering d)) (g_ordered g) (g_files g)) rootPaths;
  encode "encode model" (DocModel (one_or_many models)).

Definition generate (goImportRoot typesPath : string) (g : graph) (path : string) : AM (string * go_content) :=
  model ← lower_path (λ d, StderrDoc (DocLowering d)) (g_ordered g) (g_files g) path;
  match RenderGo model customParcelables goImportRoot typesPath with
  | inl out => mret out
  | inr err => exit 1 [Stderr (GenerateError path err)]
  end.

Definition write_output (outDir : string) (output : string * go_content) : AM unit :=
  let dst := filepath_Join [outDir; output.1] in
  match MkdirAll (filepath_Dir dst) with
  | Some err => exit 1 [Stderr (MkdirError (filepath_Dir dst) err)]
  | None =>
      match WriteFile dst output.2 with
      | Some err => exit 1 [MadeDir (filepath_Dir dst); Stderr (WriteError dst err)]
      | None => (Ok tt, [MadeDir (filepath_Dir dst); Wrote dst output.2])
      end
  end.

Definition run_go (f : flags) : AM unit :=
  g ← loaded (loadAIDLGraph depth (fl_args f));
  validateParsedFiles (g_ordered g) (g_files g);;
  outputs ← for_all (generate (fl_goImportRoot f) (fl_typesPath f) g)
              (if fl_rootsOnly f then fl_args f else g_ordered g);
  if bool_decide (fl_outDir f = "") then
    match outputs with
    | [output] => encode "write go output" (DocGo output.2)
    | _ => exit 1 [Stderr (ExpectedSingleOutput (length outputs))]
    end
  else (_ ← for_all (write_output (fl_outDir f)) outputs; mret tt).
End Mode.

(** [aidlgen_run] on the flags that fs.Parse accepted. *)
Definition run_flags (f : flags) : AM unit :=
  if bool_decide (fl_args f = []) then exit 2 [Stderr Usage]
  else
    custom ← (if bool_decide (fl_typesPath f = "") then mret ∅ else mapping (LoadCustomParcelableMappings read_json (fl_typesPath f)));
    stable ← (if bool_decide (fl_typesPath f = "") then mret ∅ else mapping (LoadStableInterfaceMappings read_json (fl_typesPath f)));
    if bool_decide (fl_format f = "ast") then run_ast (fl_args f)
    else if bool_decide (fl_format f = "summary") then run_summary (fl_args f)
    else if bool_decide (fl_format f = "model") then run_model custom stable (fl_args f)
    else if bool_decide (fl_format f = "go") then run_go custom stable f
    else exit 2 [Stderr (UnknownFormat (fl_format f))].

(** The exit code and what was printed and written. *)
Definition aidlgen_run (parsed : option flags) : result Empty_set Z * list event :=
  match parsed with
  | None => (Ok 2, [])
  | Some f =>
      let '(r, l) := run_flags f in
      (match r with Ok _ => Ok 0 | Err code => Ok code | Panic why => Panic why end, l)
  end.
End Command.
