(* ===== verification/AidlGenProps.v ===== *)
(** * AidlGenProps: what aidlgen loads

    Theorems on AidlGen: loading ends, loads each
    file once, and loads exactly what the named files need; a file named by a path
    that is not clean is loaded and then not found. *)

From stdpp Require Import base list numbers strings pretty gmap sorting.
From S2P Require Import Prelude Aidl TextScanner AidlExpr AidlResolve AidlResolveProps GoText AidlNames AidlLower Codegen CodegenExpr AidlGen.

Open Scope Z_scope.

Lemma elem_of_uniqueStrings x l : x ∈ uniqueStrings l ↔ ∃ v, v ∈ l ∧ v ≠ "" ∧ x = filepath_Clean v.
Proof.
  unfold uniqueStrings, sort_strings. rewrite merge_sort_Permutation, elem_of_remove_dups, list_elem_of_fmap.
  setoid_rewrite list_elem_of_filter. naive_solver.
Qed.

(** ** What a visit does *)

(** The loop carries any relation that the visits carry. *)
Lemma visit_all_ind (v : string → GM unit) (R : list string → graph → graph → Prop) :
  (∀ g, R [] g g) →
  (∀ p ps g g1 g2, v p g = (Ok tt, g1) → R ps g1 g2 → R (p :: ps) g g2) →
  ∀ ps g g', visit_all v ps g = (Ok tt, g') → R ps g g'.
Proof.
  intros H0 H1 ps. induction ps as [|p ps IH]; intros g g' H; cbn [visit_all] in H.
  - injection H as <-. apply H0.
  - apply bind_ok_inv in H as ([] & g1 & Hv & H). eapply H1; [exact Hv|]. by apply IH.
Qed.

Section Loading.
Context {doc content : Type} `{!FileSystem doc content}.

(** The path of a dependency is clean. *)
Lemma same_package_clean p f q : q ∈ resolveSamePackageRefs p f → filepath_Clean q = q ∧ Stat q = true.
Proof.
  unfold resolveSamePackageRefs, sort_strings. case_bool_decide; [by intros ?%elem_of_nil|].
  rewrite merge_sort_Permutation, list_elem_of_filter, list_elem_of_fmap.
  intros ((_ & Hs) & n & -> & _). by rewrite filepath_Clean_idem.
Qed.

Lemma resolve_import_found path roots q : resolveImportFile path roots = Some q →
  Stat q = true ∧ ∃ root, root ∈ roots ∧ q ∈ import_candidates path root.
Proof.
  unfold resolveImportFile. intros ([i x] & Hf & ->)%fmap_Some. apply list_find_Some in Hf as (Hi & Hs & _).
  split; [done|]. apply list_elem_of_lookup_2, list_elem_of_bind in Hi as (root & ? & ?). by exists root.
Qed.

Lemma import_files_clean f roots q : q ∈ import_files f roots → filepath_Clean q = q ∧ Stat q = true.
Proof.
  unfold import_files. rewrite list_elem_of_omap. intros (imp & _ & (Hs & root & _ & Hq)%resolve_import_found).
  split; [|done]. unfold import_candidates in Hq. apply list_elem_of_fmap in Hq as (i & -> & _). apply filepath_Clean_idem.
Qed.

(** ** The invariant of the graph *)

Record graph_wf (g : graph) : Prop := mkGraphWf {
  wf_once : NoDup (g_ordered g);
  wf_files : ∀ p, p ∈ g_ordered g ↔ is_Some (g_files g !! p);
  wf_parsed : ∀ p f, g_files g !! p = Some f →
    filepath_Clean p = p ∧ parseAIDLFile p = Ok f ∧ sourceRootsFor p f ⊆ g_searchRoots g;
  wf_roots : ∀ r, r ∈ g_searchRoots g → filepath_Clean r = r;
}.

(** Nothing is forgotten. *)
Definition grows (g g' : graph) : Prop :=
  g_ordered g ⊆ g_ordered g' ∧ g_files g ⊆ g_files g' ∧ g_searchRoots g ⊆ g_searchRoots g'.

(** The roots that an import of [p] is looked up in contain those of [p] itself. *)
Definition lookup_roots (g : graph) (p : string) (f : File) (local : list string) : Prop :=
  sourceRootsFor p f ⊆ local ∧ local ⊆ g_searchRoots g.

Definition depends (g : graph) (p q : string) : Prop :=
  ∃ f, g_files g !! p = Some f ∧
    (q ∈ resolveSamePackageRefs p f ∨ ∃ local, lookup_roots g p f local ∧ q ∈ import_files f local).

(** Everything that [p] needs is loaded. *)
Definition complete (g : graph) (p : string) : Prop :=
  ∃ f local, g_files g !! p = Some f ∧ lookup_roots g p f local ∧
    ∀ q, q ∈ resolveSamePackageRefs p f ∨ q ∈ import_files f local → q ∈ g_ordered g.

Definition visited (ps : list string) (g g' : graph) : Prop :=
  graph_wf g' ∧ grows g g' ∧ (∀ p, p ∈ ps → filepath_Clean p ∈ g_ordered g') ∧
  ∀ q, q ∈ g_ordered g' → q ∈ g_ordered g ∨
    complete g' q ∧ ∃ p, p ∈ ps ∧ rtc (depends g') (filepath_Clean p) q.

Lemma grows_trans g1 g2 g3 : grows g1 g2 → grows g2 g3 → grows g1 g3.
Proof. intros (? & ? & ?) (? & ? & ?). split_and!; by etrans. Qed.

Lemma lookup_roots_mono g g' p f local : grows g g' → lookup_roots g p f local → lookup_roots g' p f local.
Proof. intros (_ & _ & Hr) [? ?]. split; [done|by etrans]. Qed.

Lemma depends_mono g g' p q : grows g g' → depends g p q → depends g' p q.
Proof.
  intros Hg (f & Hf & Hd). exists f. split; [eapply lookup_weaken; [done|apply Hg]|].
  destruct Hd as [|(local & Hl & Hq)]; [by left|right]. exists local. split; [by eapply lookup_roots_mono|done].
Qed.

Lemma complete_mono g g' p : grows g g' → complete g p → complete g' p.
Proof.
  intros Hg (f & local & Hf & Hl & H). exists f, local.
  split; [eapply lookup_weaken; [done|apply Hg]|]. split; [by eapply lookup_roots_mono|].
  intros q Hq. by apply Hg, H.
Qed.

Lemma reaches_mono g g' p q : grows g g' → rtc (depends g) p q → rtc (depends g') p q.
Proof. intros Hg. apply rtc_subrel. intros x y. by apply depends_mono. Qed.

Lemma visited_nil ps g : graph_wf g → (∀ p, p ∈ ps → filepath_Clean p ∈ g_ordered g) → visited ps g g.
Proof. intros Hw Hp. split_and!; try done. by left. Qed.

Lemma visited_cons p ps g g1 g2 : visited [p] g g1 → visited ps g1 g2 → visited (p :: ps) g g2.
Proof.
  intros (_ & Hg1 & Hp1 & Hq1) (Hw2 & Hg2 & Hp2 & Hq2). split_and!; [done|by eapply grows_trans| |].
  - intros q [->|Hq]%elem_of_cons; [|by apply Hp2]. apply Hg2, Hp1. by left.
  - intros q [H|(Hc & r & Hr & Hrt)]%Hq2; [|right; split; [done|]; exists r; split; [by right|done]].
    apply Hq1 in H as [|(Hc & r & ->%list_elem_of_singleton & Hrt)]; [by left|right].
    split; [by eapply complete_mono|]. exists p. split; [by left|by eapply reaches_mono].
Qed.

Lemma visit_all_visited v : (∀ p g g', graph_wf g → v p g = (Ok tt, g') → visited [p] g g') →
  ∀ ps g g', visit_all v ps g = (Ok tt, g') → graph_wf g → visited ps g g'.
Proof.
  intros Hv. apply (visit_all_ind v (λ ps g g', graph_wf g → visited ps g g')).
  - intros g Hw. apply visited_nil; [done|]. by intros p ?%elem_of_nil.
  - intros p ps g g1 g2 H IH Hw. pose proof (Hv _ _ _ Hw H) as H1. eapply visited_cons; [done|]. apply IH, H1.
Qed.

Lemma uniqueStrings_clean l r : r ∈ uniqueStrings l → filepath_Clean r = r.
Proof. intros (v & _ & _ & ->)%elem_of_uniqueStrings. apply filepath_Clean_idem. Qed.

Lemma sourceRootsFor_clean p f r : r ∈ sourceRootsFor p f → filepath_Clean r = r.
Proof. unfold sourceRootsFor. case_bool_decide; apply uniqueStrings_clean. Qed.

Lemma uniqueStrings_keeps l r : filepath_Clean r = r → r ∈ l → r ∈ uniqueStrings l.
Proof.
  intros Hr Hl. apply elem_of_uniqueStrings. exists r. split_and!; [done| |done].
  rewrite <- Hr. apply filepath_Clean_nonempty.
Qed.

(** The roots after a file are those before it and its own. *)
Lemma elem_of_roots g p f r : graph_wf g →
  r ∈ uniqueStrings (g_searchRoots g ++ sourceRootsFor p f) ↔ r ∈ g_searchRoots g ∨ r ∈ sourceRootsFor p f.
Proof.
  intros Hw. rewrite <- elem_of_app. split.
  - intros (v & Hv & _ & ->)%elem_of_uniqueStrings. replace (filepath_Clean v) with v; [done|]. symmetry.
    apply elem_of_app in Hv as [?|?]; [by apply (wf_roots g)|by eapply sourceRootsFor_clean].
  - intros Hr. apply uniqueStrings_keeps; [|done].
    apply elem_of_app in Hr as [?|?]; [by apply (wf_roots g)|by eapply sourceRootsFor_clean].
Qed.

Lemma add_file_wf g p f : graph_wf g → filepath_Clean p = p → g_files g !! p = None → parseAIDLFile p = Ok f →
  graph_wf (add_file p f g) ∧ grows g (add_file p f g).
Proof.
  intros Hw Hp Hn Hf. assert (Hr := λ r, elem_of_roots g p f r Hw). split; [split; cbn [add_file g_ordered g_files g_searchRoots]|].
  - apply NoDup_app. split_and!; [apply Hw| |apply NoDup_singleton].
    intros x Hx ->%list_elem_of_singleton. apply (wf_files g Hw) in Hx as [? ?]. congruence.
  - intros q. rewrite elem_of_app, list_elem_of_singleton, (wf_files g Hw).
    destruct (decide (p = q)) as [->|]; [rewrite lookup_insert_eq; by intuition eauto|].
    rewrite lookup_insert_ne by done. naive_solver.
  - intros q f' [[<- <-]|[Hne Hq]]%lookup_insert_Some.
    + split_and!; [done..|]. intros r ?. apply Hr. by right.
    + destruct (wf_parsed g Hw q f' Hq) as (? & ? & Hs). split_and!; [done..|]. intros r ?. apply Hr. left. by apply Hs.
  - intros r. apply uniqueStrings_clean.
  - split_and!; cbn [add_file g_ordered g_files g_searchRoots].
    + intros q Hq. apply elem_of_app. by left.
    + by apply insert_subseteq.
    + intros r ?. apply Hr. by left.
Qed.

(** A file that is not loaded yet: itself, its package and its imports. *)
Lemma visited_file p f g g2 g3 : graph_wf g → filepath_Clean p = p → g_files g !! p = None → parseAIDLFile p = Ok f →
  visited (resolveSamePackageRefs p f) (add_file p f g) g2 →
  visited (import_files f (uniqueStrings (g_searchRoots g2 ++ sourceRootsFor p f))) g2 g3 →
  visited [p] g g3.
Proof.
  intros Hw Hp Hn Hf (Hw2 & Hg2 & Hp2 & Hq2) (Hw3 & Hg3 & Hp3 & Hq3).
  destruct (add_file_wf g p f Hw Hp Hn Hf) as [Hw1 Hg1].
  assert (Hin : g_files g3 !! p = Some f).
  { eapply lookup_weaken; [|apply Hg3]. eapply lookup_weaken; [|apply Hg2]. apply lookup_insert_eq. }
  assert (Hl : lookup_roots g3 p f (uniqueStrings (g_searchRoots g2 ++ sourceRootsFor p f))).
  { assert (Hown : sourceRootsFor p f ⊆ g_searchRoots g2).
    { intros r ?. apply Hg2. cbn [add_file g_searchRoots]. apply elem_of_roots; [done|]. by right. }
    split; intros r Hr; [apply elem_of_roots; [done|by right]|].
    apply elem_of_roots in Hr; [|done]. apply Hg3. destruct Hr; [done|by apply Hown]. }
  set (local := uniqueStrings _) in *.
  assert (Hdep : ∀ q, q ∈ resolveSamePackageRefs p f ∨ q ∈ import_files f local →
            filepath_Clean q = q ∧ q ∈ g_ordered g3 ∧ depends g3 p q).
  { intros q Hq. assert (Hc : filepath_Clean q = q).
    { destruct Hq; [by eapply same_package_clean|by eapply import_files_clean]. }
    split_and!; [done| |exists f; split; [done|]; destruct Hq; [by left|right; by exists local]].
    rewrite <- Hc. destruct Hq; [by apply Hg3, Hp2|by apply Hp3]. }
  assert (Hcomp : complete g3 p).
  { exists f, local. split_and!; [done..|]. intros q Hq. by apply Hdep. }
  split_and!; [done|by do 2 (eapply grows_trans; [done|])| |].
  - intros q ->%list_elem_of_singleton. rewrite Hp. apply (wf_files g3 Hw3). by eexists.
  - assert (Hsub : ∀ r q, r ∈ resolveSamePackageRefs p f ∨ r ∈ import_files f local →
              rtc (depends g3) (filepath_Clean r) q → ∃ p', p' ∈ [p] ∧ rtc (depends g3) (filepath_Clean p') q).
    { intros r q Hr Hrt. exists p. split; [by left|]. rewrite Hp. destruct (Hdep r Hr) as (Hc & _ & Hd).
      rewrite Hc in Hrt. by eapply rtc_l. }
    intros q [H|(Hc & r & Hr & Hrt)]%Hq3; [|right; split; [done|]; eapply Hsub; [by right|done]].
    apply Hq2 in H as [H|(Hc & r & Hr & Hrt)].
    + cbn [add_file g_ordered] in H. apply elem_of_app in H as [? | ->%list_elem_of_singleton]; [by left|right].
      split; [done|]. exists p. split; [by left|]. by rewrite Hp.
    + right. split; [by eapply complete_mono|]. eapply Hsub; [by left|]. by eapply reaches_mono.
Qed.

Lemma visit_visited n : ∀ p g g', graph_wf g → visit n p g = (Ok tt, g') → visited [p] g g'.
Proof.
  induction n as [|n IH]; intros p g g' Hw H; [done|]. cbn [visit] in H. cbv zeta in H.
  rewrite (bind_ok get _ g g g) in H by done.
  case_bool_decide as Hin.
  - injection H as <-. apply visited_nil; [done|]. intros q ->%list_elem_of_singleton. by apply (wf_files g Hw).
  - apply eq_None_not_Some in Hin. apply bind_ok_inv in H as (f & g0 & H0 & H). injection H0 as H0 <-.
    apply bind_ok_inv in H as ([] & g1 & [= <-] & H). apply bind_ok_inv in H as ([] & g2 & H2 & H).
    rewrite (bind_ok get _ g2 g2 g2) in H by done.
    assert (Hp := filepath_Clean_idem p). destruct (add_file_wf g _ f Hw Hp Hin H0) as [Hw1 _].
    pose proof (visit_all_visited _ IH _ _ _ H2 Hw1) as V2.
    pose proof (visit_all_visited _ IH _ _ _ H (proj1 V2)) as V3.
    assert (V := visited_file _ f g g2 g' Hw Hp Hin H0 V2 V3).
    unfold visited in *. setoid_rewrite list_elem_of_singleton in V. setoid_rewrite list_elem_of_singleton.
    destruct V as (? & ? & Hl & Hq). split_and!; [done..| |].
    + intros q ->. rewrite <- Hp. by apply Hl.
    + intros q [|(Hc & r & -> & Hr)]%Hq; [by left|right]. split; [done|]. exists p. split; [done|]. by rewrite <- Hp.
Qed.

(** ** Loading ends *)

Definition err_path (e : load_error) : string := match e with ReadFailed p _ | ParseFailed p _ => p end.

(** An error is that of reading or parsing a file. *)
Definition failure (e : load_error) : Prop :=
  match e with
  | ReadFailed p err => ReadFile p = inr err
  | ParseFailed p err => ∃ src, ReadFile p = inl src ∧ Parse_source src = Err err
  end.

(** How a visit of [ps] may end: well, with the failure of one of them or of a
    file that exists, or with a panic of the parser. *)
Definition explained (ps : list string) (r : result load_error unit) : Prop :=
  match r with
  | Ok _ => True
  | Err e => failure e ∧ (err_path e ∈ filepath_Clean <$> ps ∨ Stat (err_path e) = true)
  | Panic why => ∃ p src, ReadFile p = inl src ∧ Parse_source src = Panic why
  end.

Context (readable : gset string) (Hreadable : ∀ p src, ReadFile p = inl src → p ∈ readable).

(** The files that may still be loaded. *)
Definition unread (g : graph) : nat := size (readable ∖ dom (g_files g)).

Lemma unread_grows g g' : grows g g' → (unread g' <= unread g)%nat.
Proof.
  intros (_ & Hf & _). unfold unread. apply subseteq_size. apply subseteq_dom in Hf. set_solver.
Qed.

Lemma unread_add p f g : g_files g !! p = None → parseAIDLFile p = Ok f → (unread (add_file p f g) < unread g)%nat.
Proof.
  intros Hn Hf. unfold unread. apply subset_size. cbn [add_file g_files]. rewrite dom_insert_L.
  assert (Hp : p ∈ readable).
  { unfold parseAIDLFile in Hf. destruct (ReadFile p) as [src|] eqn:E; [|done]. by eapply Hreadable. }
  apply not_elem_of_dom in Hn. set_solver.
Qed.

Lemma explained_parse p : match parseAIDLFile (filepath_Clean p) with
  | Ok _ => True | Err e => explained [p] (Err e) | Panic why => explained [p] (Panic why) end.
Proof.
  assert (Hp : filepath_Clean p ∈ filepath_Clean <$> [p]) by by left.
  unfold parseAIDLFile. destruct (ReadFile _) as [src|err] eqn:E; [|by split; [|left]].
  destruct (Parse_source src) as [file|err|why] eqn:P; [done| |by eexists _, src].
  split; [by exists src|by left].
Qed.

Lemma explained_weaken ps ps' r : explained ps r → (∀ p, p ∈ ps → filepath_Clean p ∈ filepath_Clean <$> ps' ∨ Stat (filepath_Clean p) = true) →
  explained ps' r.
Proof.
  destruct r as [|e|]; try done. intros [Hf Hp] H. split; [done|]. destruct Hp as [Hp|]; [|by right].
  apply list_elem_of_fmap in Hp as (p & Hp & Hps). rewrite Hp. by apply H.
Qed.

Lemma visit_all_explained n : (∀ p g, graph_wf g → (unread g < n)%nat → explained [p] (visit n p g).1) →
  ∀ ps g, graph_wf g → (unread g < n)%nat → explained ps (visit_all (visit n) ps g).1.
Proof.
  intros Hv ps. induction ps as [|p ps IH]; intros g Hw Hn; [done|]. cbn [visit_all].
  destruct ((visit n p ≫= λ _, visit_all (visit n) ps) g) as [r g'] eqn:E. cbn [fst].
  apply bind_inv in E as [([] & g1 & H1 & H2)|H].
  - destruct (visit_visited _ _ _ _ Hw H1) as (Hw1 & Hg1 & _).
    pose proof (unread_grows _ _ Hg1). specialize (IH g1 Hw1 ltac:(lia)). rewrite H2 in IH.
    eapply explained_weaken; [exact IH|]. intros q Hq. left. apply list_elem_of_fmap_2. by right.
  - assert (E : explained [p] r).
    { specialize (Hv p g Hw Hn). destruct H as [(e & H & ->)|(why & H & ->)]; by rewrite H in Hv. }
    eapply explained_weaken; [exact E|]. intros q ->%list_elem_of_singleton. left. by left.
Qed.

Lemma visit_explained n : ∀ p g, graph_wf g → (unread g < n)%nat → explained [p] (visit n p g).1.
Proof.
  induction n as [|n IH]; intros p g Hw Hn; [lia|]. cbn [visit]. cbv zeta. rewrite (bind_ok get _ g g g) by done.
  case_bool_decide as Hin; [done|]. apply eq_None_not_Some in Hin. pose proof (explained_parse p) as Hx.
  destruct (parseAIDLFile (filepath_Clean p)) as [f|e|why] eqn:Hf; [|done..]. clear Hx.
  rewrite (bind_ok (lift _) _ g g f) by done.
  destruct (add_file_wf g _ f Hw (filepath_Clean_idem p) Hin Hf) as [Hw1 _].
  pose proof (unread_add _ _ _ Hin Hf) as Hu. set (g1 := add_file _ _ _) in *.
  rewrite (bind_ok (λ g : graph, _) _ g g1 tt) by done.
  destruct ((visit_all _ _ ≫= _) g1) as [r g'] eqn:E. cbn [fst].
  apply bind_inv in E as [([] & g2 & H2 & H)|H].
  - rewrite (bind_ok get _ g2 g2 g2) in H by done.
    destruct (visit_all_visited _ (visit_visited n) _ _ _ H2 Hw1) as (Hw2 & Hg2 & _).
    pose proof (unread_grows _ _ Hg2). eassert (E := visit_all_explained n IH _ g2 Hw2 ltac:(lia)). rewrite H in E.
    eapply explained_weaken; [exact E|]. intros q Hq%import_files_clean. destruct Hq as [-> ?]. by right.
  - eassert (E : explained (resolveSamePackageRefs _ f) r).
    { eassert (E := visit_all_explained n IH _ g1 Hw1 ltac:(lia)).
      destruct H as [(e & H & ->)|(why & H & ->)]; rewrite H in E; exact E. }
    eapply explained_weaken; [exact E|]. intros q Hq%same_package_clean. destruct Hq as [-> ?]. by right.
Qed.

Lemma empty_graph_wf : graph_wf empty_graph.
Proof.
  split; cbn [empty_graph g_ordered g_files g_searchRoots].
  - constructor.
  - intros p. rewrite elem_of_nil, lookup_empty. by split; [|intros [? ?]].
  - intros p f. by rewrite lookup_empty.
  - by intros r ?%elem_of_nil.
Qed.

(** C32: loading ends and loads what is needed, no more and no less.  With a
    stack deeper than the number of readable files, [loadAIDLGraph] returns: either
    a graph in which every file is listed once, parsed from its own clean path, and
    reached from the files that were named; which contains the named files; and in
    which the files that a loaded file refers to in its package, and those its
    imports resolve to, are loaded too.  Or the error of reading or parsing a named
    file or one that exists.  Only a panic of the parser is passed on. *)
Theorem loadAIDLGraph_spec depth roots : (size readable < depth)%nat →
  match loadAIDLGraph depth roots with
  | Ok g => NoDup (g_ordered g) ∧
      (∀ p, p ∈ g_ordered g ↔ ∃ f, g_files g !! p = Some f ∧ filepath_Clean p = p ∧ parseAIDLFile p = Ok f) ∧
      (∀ r, r ∈ roots → filepath_Clean r ∈ g_ordered g) ∧
      (∀ p, p ∈ g_ordered g → complete g p) ∧
      (∀ p, p ∈ g_ordered g → ∃ r, r ∈ roots ∧ rtc (depends g) (filepath_Clean r) p)
  | Err e => explained roots (Err e)
  | Panic why => explained roots (Panic why)
  end.
Proof.
  intros Hn. unfold loadAIDLGraph.
  assert (He := visit_all_explained depth (visit_explained depth) roots empty_graph empty_graph_wf).
  destruct (visit_all (visit depth) roots empty_graph) as [[[]|e|why] g] eqn:E; cbn [result_map fst] in *.
  - destruct (visit_all_visited _ (visit_visited depth) _ _ _ E empty_graph_wf) as (Hw & _ & Hp & Hq). split_and!.
    + apply Hw.
    + intros p. rewrite (wf_files g Hw). split; [intros [f Hf]; exists f|intros (f & Hf & _); by eexists].
      destruct (wf_parsed g Hw p f Hf) as (? & ? & _). done.
    + done.
    + intros p [?%elem_of_nil|[? _]]%Hq; done.
    + intros p [?%elem_of_nil|[_ ?]]%Hq; done.
  - apply He. unfold unread, empty_graph. cbn [g_files]. by rewrite dom_empty_L, difference_empty_L.
  - apply He. unfold unread, empty_graph. cbn [g_files]. by rewrite dom_empty_L, difference_empty_L.
Qed.
End Loading.

(** A file of the demo, a file of its package, and one that it imports; the path of
    the first is not clean. *)
Definition demo_sources : gmap string string := list_to_map [
  ("src/a/b/IFoo.aidl", "package a.b; import a.c.Bar; import x.Missing; interface IFoo { Bar f(in List<Baz> x); }");
  ("src/a/b/Baz.aidl", "package a.b; parcelable Baz { int x; Baz next; }");
  ("src/a/c/Bar.aidl", "package a.c; enum Bar { A, B }");
  ("src/a/c/Unused.aidl", "package a.c; enum Unused { A }")].

Definition memory_fs {doc content} (sources : gmap string string) : FileSystem doc content := {|
  ReadFile p := match sources !! p with Some src => inl src | None => inr "no such file" end;
  Stat p := bool_decide (is_Some (sources !! p));
  MkdirAll _ := None; WriteFile _ _ := None; WriteStdout _ := None;
|}.

Lemma memory_fs_readable {doc content} sources p src :
  ReadFile (FileSystem := memory_fs (doc := doc) (content := content) sources) p = inl src → p ∈ dom sources.
Proof. cbn. rewrite elem_of_dom. destruct (sources !! p); [by eexists|done]. Qed.

Definition demo_fs : FileSystem document go_content := memory_fs demo_sources.

Definition demo_root : string := "src/./a/b/IFoo.aidl".

Lemma loadAIDLGraph_spec_witness :
  ∃ g, loadAIDLGraph (FileSystem0 := demo_fs) 5 [demo_root] = Ok g ∧
    g_ordered g = ["src/a/b/IFoo.aidl"; "src/a/b/Baz.aidl"; "src/a/c/Bar.aidl"] ∧
    complete (FileSystem0 := demo_fs) g "src/a/b/IFoo.aidl" ∧
    rtc (depends (FileSystem0 := demo_fs) g) "src/a/b/IFoo.aidl" "src/a/c/Bar.aidl".
Proof.
  pose proof (loadAIDLGraph_spec (FileSystem0 := demo_fs) (dom demo_sources) (memory_fs_readable demo_sources) 5 [demo_root]
                ltac:(apply (bool_decide_unpack _); vm_compute; exact I)) as H.
  destruct (loadAIDLGraph (FileSystem0 := demo_fs) 5 [demo_root]) as [g|e|why] eqn:E; [|vm_compute in E; discriminate E..].
  exists g. assert (Ho : g_ordered g = ["src/a/b/IFoo.aidl"; "src/a/b/Baz.aidl"; "src/a/c/Bar.aidl"])
    by (vm_compute in E; injection E as <-; reflexivity).
  destruct H as (_ & _ & _ & Hc & Hr). split; [done|]. split; [done|]. split.
  - apply Hc. rewrite Ho. left.
  - destruct (Hr "src/a/c/Bar.aidl") as (r & ->%list_elem_of_singleton & H); [rewrite Ho; do 2 right; left|]. exact H.
Defined.

(** ** The command *)

Section Writer.
Lemma am_bind_ok {A C} (m : AM A) (k : A → AM C) c l : (m ≫= k) = (Ok c, l) →
  ∃ a l1 l2, m = (Ok a, l1) ∧ k a = (Ok c, l2) ∧ l = l1 ++ l2.
Proof.
  destruct m as [[a|e|w] l1]; unfold mbind, AM_bind; try done. destruct (k a) as [r l2] eqn:E. intros [= -> <-].
  by exists a, l1, l2.
Qed.

(** An event comes from the first step, or from the second after the first succeeded. *)
Lemma am_bind_event {A C} (m : AM A) (k : A → AM C) e : e ∈ (m ≫= k).2 →
  e ∈ m.2 ∨ ∃ a, m.1 = Ok a ∧ e ∈ (k a).2.
Proof.
  destruct m as [[a|x|w] l1]; unfold mbind, AM_bind; cbn; [|by left..]. destruct (k a) as [r l2] eqn:E. cbn.
  intros [|]%elem_of_app; [by left|right]. exists a. by rewrite E.
Qed.

Lemma for_all_ok {A C} (f : A → AM C) l ys : (for_all f l).1 = Ok ys → Forall2 (λ x y, (f x).1 = Ok y) l ys.
Proof.
  revert ys. induction l as [|x l IH]; intros ys; cbn; [by intros [= <-]|].
  destruct (for_all f l) as [[zs|e|w] l2]; destruct (f x) as [[y|e'|w'] l1] eqn:E; unfold mbind, AM_bind; cbn; try done.
  intros [= <-]. constructor; [by rewrite E|by apply IH].
Qed.

Lemma for_all_ok_elem {A C} (f : A → AM C) l ys x : (for_all f l).1 = Ok ys → x ∈ l → ∃ y, (f x).1 = Ok y.
Proof.
  intros H%for_all_ok [i Hi]%list_elem_of_lookup. eapply Forall2_lookup_l in H as (y & _ & Hy); [by exists y|done].
Qed.

Lemma for_all_event {A C} (f : A → AM C) l e : e ∈ (for_all f l).2 → ∃ x, x ∈ l ∧ e ∈ (f x).2.
Proof.
  induction l as [|x l IH]; cbn [for_all]; [by intros ?%elem_of_nil|].
  intros [|(y & _ & [H|(ys & _ & H)]%am_bind_event)]%am_bind_event.
  - exists x. split; [by left|done].
  - destruct (IH H) as (z & ? & ?). exists z. split; [by right|done].
  - by apply elem_of_nil in H.
Qed.
End Writer.

Create HintDb aidlgen.

Section Commands.
Context `{FS : !FileSystem document go_content} `{GF : !GoFrontEnd} (read_json : string → TypeMappingFile + string) (depth : nat).

Definition is_write (e : event) : bool := match e with Wrote _ _ => true | _ => false end.

(** A step that writes no file. *)
Definition quiet {A} (m : AM A) : Prop := ∀ e, e ∈ m.2 → is_write e = false.

Lemma quiet_bind {A C} (m : AM A) (k : A → AM C) : quiet m → (∀ a, quiet (k a)) → quiet (m ≫= k).
Proof. intros Hm Hk e [|(a & _ & ?)]%am_bind_event; [by apply Hm|by eapply Hk]. Qed.

Lemma quiet_one {A} r e : is_write e = false → quiet (A := A) (r, [e]).
Proof. intros Hw x Hx. apply list_elem_of_singleton in Hx as ->. exact Hw. Qed.

Lemma quiet_none {A} r : quiet (A := A) (r, []).
Proof. by intros x ?%elem_of_nil. Qed.

Lemma quiet_for_all {A C} (f : A → AM C) l : (∀ x, quiet (f x)) → quiet (for_all f l).
Proof. intros H e (x & _ & ?)%for_all_event. by eapply H. Qed.
Local Hint Resolve quiet_one quiet_none : aidlgen.
Local Ltac silent := unfold exit, crash, mret, AM_ret; auto with aidlgen.

Lemma quiet_loaded {A} (r : result load_error A) : quiet (loaded r).
Proof. destruct r; cbn; silent. Qed.

Lemma quiet_mapping {A} (r : A + string) : quiet (mapping r).
Proof. destruct r; cbn; silent. Qed.

Lemma quiet_encode what d : quiet (encode what d).
Proof. unfold encode. destruct (WriteStdout d); silent. Qed.

Lemma quiet_validate ordered files : quiet (validateParsedFiles ordered files).
Proof.
  induction ordered as [|p ordered IH]; cbn [validateParsedFiles]; [silent|].
  destruct (ValidateFile _) as [[[]|[]|w] [|d ds]]; silent.
Qed.
Local Hint Resolve quiet_loaded quiet_mapping quiet_encode quiet_validate quiet_bind quiet_for_all : aidlgen.

Section Mode.
Context (custom : gmap string CustomParcelableConfig) (stable : gmap string StableInterfaceConfig).

Lemma quiet_lower report ordered files path : (∀ d, is_write (report d) = false) →
  quiet (lower_path custom stable report ordered files path).
Proof.
  intros Hr. unfold lower_path. destruct (Lower _ _) as [[m [|d ds]]|[]|w]; silent.
Qed.

Lemma quiet_generate root types g path : quiet (generate custom stable root types g path).
Proof.
  unfold generate. apply quiet_bind; [by apply quiet_lower|]. intros m.
  destruct (RenderGo _ _ _ _); silent.
Qed.
Local Hint Resolve quiet_lower quiet_generate : aidlgen.

(** A file is written only by [run_go] with an output directory. *)
Lemma run_go_writes f p c : Wrote p c ∈ (run_go depth custom stable f).2 →
  fl_outDir f ≠ "" ∧ ∃ g outputs, loadAIDLGraph depth (fl_args f) = Ok g ∧
    (validateParsedFiles (g_ordered g) (g_files g)).1 = Ok tt ∧
    Forall2 (λ path out, (generate custom stable (fl_goImportRoot f) (fl_typesPath f) g path).1 = Ok out)
      (if fl_rootsOnly f then fl_args f else g_ordered g) outputs ∧
    ∃ path, (path, c) ∈ outputs ∧ p = filepath_Join [fl_outDir f; path].
Proof.
  intros H. unfold run_go in H. apply am_bind_event in H as [H|(g & Hg & H)]; [by apply quiet_loaded in H|].
  apply am_bind_event in H as [H|([] & Hv & H)]; [by apply quiet_validate in H|].
  apply am_bind_event in H as [H|(outs & Ho & H)]; [by apply quiet_for_all in H; [|auto with aidlgen]|].
  case_bool_decide as Hd.
  { assert (Hq : quiet (match outs with [output] => encode "write go output" (DocGo output.2)
                        | _ => exit 1 [Stderr (ExpectedSingleOutput (length outs))] end))
      by (destruct outs as [|? [|]]; silent).
    by apply Hq in H. }
  split; [done|]. exists g, outs. split_and!.
  - unfold loaded in Hg. destruct (loadAIDLGraph _ _); try done. by injection Hg as ->.
  - done.
  - by apply for_all_ok.
  - apply am_bind_event in H as [H|(? & _ & H)]; [|by apply elem_of_nil in H].
    apply for_all_event in H as ([path c'] & Hin & H). unfold write_output in H. cbn [fst snd] in H.
    destruct (MkdirAll _); [by apply list_elem_of_singleton in H|].
    destruct (WriteFile _ _); cbn in H; rewrite !elem_of_cons, elem_of_nil in H; destruct H as [|[|]]; try done.
    simplify_eq. by exists path.
Qed.
End Mode.

Lemma quiet_run_ast paths : quiet (run_ast paths).
Proof. unfold run_ast. auto with aidlgen. Qed.

Lemma quiet_run_summary paths : quiet (run_summary paths).
Proof. unfold run_summary. auto with aidlgen. Qed.

Lemma quiet_run_model custom stable paths : quiet (run_model depth custom stable paths).
Proof. unfold run_model. auto 8 using quiet_lower with aidlgen. Qed.

(** The mappings that a run uses. *)
Definition mappings (f : flags) custom stable : Prop :=
  (if bool_decide (fl_typesPath f = "") then inl ∅ else LoadCustomParcelableMappings read_json (fl_typesPath f)) = inl custom ∧
  (if bool_decide (fl_typesPath f = "") then inl ∅ else LoadStableInterfaceMappings read_json (fl_typesPath f)) = inl stable.

(** Nothing is generated by halves: a file is written only in the go format with an
    output directory, and only when every file to generate (all that were loaded,
    or the named ones with -roots-only) was loaded, validated, lowered without a
    diagnostic and rendered; what is written is the output of one of them. *)
Theorem writes_all_or_nothing f p c : Wrote p c ∈ (aidlgen_run read_json depth (Some f)).2 →
  fl_format f = "go" ∧ fl_outDir f ≠ "" ∧ ∃ custom stable g outputs, mappings f custom stable ∧
    loadAIDLGraph depth (fl_args f) = Ok g ∧
    (validateParsedFiles (g_ordered g) (g_files g)).1 = Ok tt ∧
    Forall2 (λ path out, (generate custom stable (fl_goImportRoot f) (fl_typesPath f) g path).1 = Ok out)
      (if fl_rootsOnly f then fl_args f else g_ordered g) outputs ∧
    ∃ path, (path, c) ∈ outputs ∧ p = filepath_Join [fl_outDir f; path].
Proof.
  intros H. assert (H' : Wrote p c ∈ (run_flags read_json depth f).2)
    by (unfold aidlgen_run in H; by destruct (run_flags read_json depth f)). clear H.
  unfold run_flags in H'. destruct (bool_decide (fl_args f = [])); [by apply list_elem_of_singleton in H'|].
  apply am_bind_event in H' as [H|(custom & Hc & H)];
    [case_bool_decide; [by apply elem_of_nil in H|by apply quiet_mapping in H]|].
  apply am_bind_event in H as [H|(stable & Hs & H)];
    [case_bool_decide; [by apply elem_of_nil in H|by apply quiet_mapping in H]|].
  case_bool_decide; [by apply quiet_run_ast in H|]. case_bool_decide; [by apply quiet_run_summary in H|].
  case_bool_decide; [by apply quiet_run_model in H|]. case_bool_decide; [|by apply list_elem_of_singleton in H].
  apply run_go_writes in H as (Hd & g & outs & H). split_and!; [done..|]. exists custom, stable, g, outs. split; [|done].
  unfold mappings. case_bool_decide; [by injection Hc as ->; injection Hs as ->|].
  split; [destruct (LoadCustomParcelableMappings _ _)|destruct (LoadStableInterfaceMappings _ _)]; cbn in *; congruence.
Qed.

Lemma loaded_clean roots g r : loadAIDLGraph depth roots = Ok g → filepath_Clean r ≠ r → g_files g !! r = None.
Proof.
  unfold loadAIDLGraph. destruct (visit_all _ _ _) as [[[]|e|w] g'] eqn:E; cbn; try done. intros [= <-] Hr.
  destruct (visit_all_visited _ (visit_visited depth) _ _ _ E empty_graph_wf) as (Hw & _).
  apply eq_None_not_Some. intros [f Hf]. by apply (wf_parsed _ Hw) in Hf as [? _].
Qed.

(** Lowering a file that is not in the map ends the command. *)
Lemma lower_missing custom stable report ordered files path model : files !! path = None →
  (lower_path custom stable report ordered files path).1 ≠ Ok model.
Proof. intros H. unfold lower_path. by rewrite H. Qed.

Lemma loaded_ok {A} (r : result load_error A) a l : loaded r = (Ok a, l) → r = Ok a.
Proof. destruct r; cbn; try done. by intros [= -> _]. Qed.

(** A defect: the loaded files are kept under their clean paths, but the model format
    and -roots-only look the named files up under the paths of the command line.
    A file named as "./IFoo.aidl" is loaded and then reported as missing, so the
    command never succeeds. *)
Theorem unclean_root_fails f r l :
  fl_format f = "model" ∨ fl_format f = "go" ∧ fl_rootsOnly f = true → r ∈ fl_args f → filepath_Clean r ≠ r →
  run_flags read_json depth f ≠ (Ok tt, l).
Proof.
  intros Hf Hin Hr E. unfold run_flags in E. destruct (bool_decide (fl_args f = [])); [done|].
  apply am_bind_ok in E as (custom & ? & ? & _ & E & _). apply am_bind_ok in E as (stable & ? & ? & _ & E & _).
  do 2 (rewrite bool_decide_eq_false_2 in E by (destruct Hf as [->|[-> _]]; done)).
  destruct Hf as [Hf|[Hf Ho]].
  - rewrite bool_decide_eq_true_2 in E by done.
    apply am_bind_ok in E as (g & ? & ? & Hg%loaded_ok & E & _). apply am_bind_ok in E as (? & ? & ? & _ & E & _).
    apply am_bind_ok in E as (models & ? & ? & E%(f_equal fst) & _).
    destruct (for_all_ok_elem _ _ _ _ E Hin) as (m & Hm). by eapply lower_missing, Hm; eapply loaded_clean.
  - rewrite bool_decide_eq_false_2, bool_decide_eq_true_2 in E by (done || by rewrite Hf).
    apply am_bind_ok in E as (g & ? & ? & Hg%loaded_ok & E & _). apply am_bind_ok in E as (? & ? & ? & _ & E & _).
    apply am_bind_ok in E as (outs & ? & ? & E%(f_equal fst) & _). rewrite Ho in E.
    destruct (for_all_ok_elem _ _ _ _ E Hin) as (out & Hm). unfold generate in Hm.
    destruct (_ ≫= _) as [res ?] eqn:Eb in Hm. cbn in Hm. subst res.
    apply am_bind_ok in Eb as (m & ? & ? & Hm%(f_equal fst) & _). by eapply lower_missing, Hm; eapply loaded_clean.
Qed.
End Commands.

Definition no_types : string → TypeMappingFile + string := λ _, inr "no such file".
Definition demo_flags : flags := mkFlags "go" "out" "" "example.com/gen" false [demo_root].
Definition demo_run : result Empty_set Z * list event := aidlgen_run (FS := demo_fs) (GF := decimal_front_end) no_types 5 (Some demo_flags).

Lemma writes_all_or_nothing_witness :
  ∃ c, Wrote "out/a/c/bar_aidl.go" c ∈ demo_run.2 ∧
    ∃ g, loadAIDLGraph (FileSystem0 := demo_fs) 5 [demo_root] = Ok g ∧
      (validateParsedFiles (GF := decimal_front_end) (g_ordered g) (g_files g)).1 = Ok tt.
Proof.
  assert (H : Wrote "out/a/c/bar_aidl.go" [("Bar", GEnum WInt32 RInt32)] ∈ demo_run.2)
    by (vm_compute; do 5 right; left).
  exists [("Bar", GEnum WInt32 RInt32)]. split; [exact H|].
  destruct (writes_all_or_nothing (FS := demo_fs) (GF := decimal_front_end) no_types 5 demo_flags _ _ H)
    as (_ & _ & custom & stable & g & outs & _ & Hg & Hv & _).
  exists g. split; [exact Hg|exact Hv].
Defined.

(** The file named by the clean path goes through, the other spelling does not. *)
Example clean_root_matters :
  (aidlgen_run (FS := demo_fs) (GF := decimal_front_end) no_types 5 (Some (mkFlags "go" "out" "" "" true ["src/a/c/Bar.aidl"]))).1 = Ok 0 ∧
  aidlgen_run (FS := demo_fs) (GF := decimal_front_end) no_types 5 (Some (mkFlags "go" "out" "" "" true ["./src/a/c/Bar.aidl"])) =
    (Ok 1, [StderrDoc (DocLowering [LowerNilFile])]).
Proof. by vm_compute. Qed.

(** A defect: below the root directory the package's source root is "/", but the
    command takes the current directory. *)
Example package_below_root :
  sourceRootsFor "/a/IFoo.aidl" (mkFile "a" [] []) = ["."; "/a"] ∧
  sourceRootsFor "/x/a/IFoo.aidl" (mkFile "a" [] []) = ["/x"; "/x/a"].
Proof. by vm_compute. Qed.

Definition colliding_sources : gmap string string := list_to_map [
  ("a/Foo.aidl", "package a; enum Foo { A }"); ("a/foo.aidl", "package a; enum Bar { B }")].

(** A defect: the names of generated files are in lower case, so two AIDL files whose
    names differ only in case are written to one file, without an error. *)
Example outputs_collide :
  aidlgen_run (FS := memory_fs colliding_sources) (GF := decimal_front_end) no_types 5
    (Some (mkFlags "go" "out" "" "" false ["a/Foo.aidl"; "a/foo.aidl"])) =
    (Ok 0, [MadeDir "out/a"; Wrote "out/a/foo_aidl.go" [("Foo", GEnum WInt32 RInt32)];
            MadeDir "out/a"; Wrote "out/a/foo_aidl.go" [("Bar", GEnum WInt32 RInt32)]]).
Proof. by vm_compute. Qed.
