(* ===== verification/BinderDebug.v ===== *)
(** * BinderDebug: the kernel's Binder logs

    Models src/internal/binderdebug/debug.go: which processes hold references to a
    service, how many of its threads are busy, and the transactions of a process,
    read from the text files the Binder driver exports.  The files are a parameter;
    the theorems hold the parser to the driver's line format, given as a printer. *)

From stdpp Require Import base list numbers strings pretty gmap sorting.
From S2P Require Import Prelude Aidl GoText.

Open Scope Z_scope.

(** ** Data *)

Record PIDInfo := mkPIDInfo { pi_RefPIDs : gmap Z (list Z); pi_ThreadUsage : Z; pi_ThreadCount : Z }.

Record Reader := mkReader { rd_contextName : string; rd_procRoots : list string; rd_transactionPaths : list string }.

(** The error of os.Open, and whether it is os.ErrNotExist. *)
Record open_error := mkOpenError { oe_text : string; oe_notExist : bool }.

Inductive debug_error :=
| OpenFailed (e : open_error)
| NotExist
| ReadError (err : string)
| TokenTooLong
| InvalidLine (kind line : string)
| InvalidNumber (text : string).

(** What os.Open gives: the text that can be read, and the error reading stops with
    if that is not the end of the file. *)
Class LogFiles := { OpenLog : string → (string * option string) + open_error }.

Definition contextFromDriverPath (driverPath : string) : string :=
  let name := filepath_Base driverPath in
  if bool_decide (name ∈ [""; "."; "/"]) then "binder" else name.

Definition NewReader (driverPath : string) : Reader :=
  mkReader (contextFromDriverPath driverPath) ["/dev/binderfs/binder_logs/proc"; "/d/binder/proc"]
    ["/dev/binderfs/binder_logs/transactions"; "/d/binder/transactions"].

Definition NewReaderWithPaths (driverPath : string) (procRoots transactionPaths : list string) : Reader :=
  let r := NewReader driverPath in
  mkReader (rd_contextName r) (match procRoots with [] => rd_procRoots r | _ => procRoots end)
    (match transactionPaths with [] => rd_transactionPaths r | _ => transactionPaths end).

(** ** Lines *)

Definition number_or {A} (o : option A) (text : string) : A + debug_error :=
  match o with Some a => inl a | None => inr (InvalidNumber text) end.

(** strconv.ParseUint("0x"+digits, 0, 64). *)
Definition ParseHex (digits : string) : option Z :=
  n ← ParseUint0 (bytes_of ("0x" +:+ digits)); if n <? 2 ^ 64 then Some n else None.

(** The tokens of a node line; [pids] is in order. *)
Fixpoint node_tokens (tokens : list string) (ptr : Z) (seenProc : bool) (pids : list Z) : (Z * list Z) + debug_error :=
  match tokens with
  | [] => inl (ptr, pids)
  | token :: tokens =>
      if String.prefix "u" token then
        match number_or (ParseHex (trim_prefix token "u")) token with
        | inl parsed => node_tokens tokens parsed seenProc pids
        | inr e => inr e
        end
      else if bool_decide (token = "proc") then node_tokens tokens ptr true pids
      else if seenProc then
        match number_or (Atoi (trim_suffix token ":")) token with
        | inl pid => node_tokens tokens ptr seenProc (pids ++ [pid])
        | inr e => inr e
        end
      else node_tokens tokens ptr seenProc pids
  end.

Definition parseNodeReferenceLine (line : string) : (Z * list Z) + debug_error :=
  let fields := Fields line in
  if bool_decide (length fields < 2)%nat then inl (0, []) else node_tokens fields 0 false [].

(** Whether the thread is busy, and whether it is a Binder thread. *)
Definition parseThreadState (line : string) : (bool * bool) + debug_error :=
  match String.index 0 "l " line with
  | None => inr (InvalidLine "thread" line)
  | Some pos =>
      match String.get (pos + 2) line, String.get (pos + 3) line with
      | Some waitState, Some threadState =>
          inl (negb (bool_decide (waitState = Ascii.ascii_of_nat 49)), negb (bool_decide (threadState = Ascii.ascii_of_nat 48)))
      | _, _ => inr (InvalidLine "thread" line)
      end
  end.

Definition parseRefLine (line : string) : (Z * Z) + debug_error :=
  match Fields line with
  | _ :: _ :: _ :: desc :: _ :: node :: _ =>
      match number_or (Atoi desc) desc, number_or (Atoi node) node with
      | inl d, inl n => inl (d, n)
      | inr e, _ | _, inr e => inr e
      end
  | _ => inr (InvalidLine "ref" line)
  end.

Fixpoint pid_tokens (tokens : list string) (seenProc : bool) : list Z + debug_error :=
  match tokens with
  | [] => inl []
  | token :: tokens =>
      if bool_decide (token = "proc") then pid_tokens tokens true
      else if negb seenProc then pid_tokens tokens seenProc
      else match number_or (Atoi token) token, pid_tokens tokens seenProc with
           | inl pid, inl pids => inl (pid :: pids)
           | inr e, _ | _, inr e => inr e
           end
  end.

Definition parseNodePIDs (line : string) : (Z * list Z) + debug_error :=
  match Fields line with
  | _ :: node :: rest =>
      match number_or (Atoi (trim_suffix node ":")) node, pid_tokens rest false with
      | inl n, inl pids => inl (n, pids)
      | inr e, _ | _, inr e => inr e
      end
  | _ => inr (InvalidLine "node" line)
  end.

(** ** Files *)

(** A callback on a line acts on what it captures. *)
Abbreviation DM S := (ST debug_error S).

Definition update {S} (f : S → S) : DM S unit := λ s, (Ok tt, f s).

Definition lift_sum {S A} (r : A + debug_error) : DM S A := lift (match r with inl a => Ok a | inr e => Err e end).

Fixpoint scan_context {S} (contextName : string) (isDesiredContext : bool) (lines : list string) (eachLine : string → DM S unit)
  : DM S unit :=
  match lines with
  | [] => mret tt
  | line :: lines =>
      if String.prefix "context" line
      then scan_context contextName (bool_decide (last (Fields line) = Some contextName)) lines eachLine
      else if negb isDesiredContext then scan_context contextName isDesiredContext lines eachLine
      else eachLine line;; scan_context contextName isDesiredContext lines eachLine
  end.

(** [scanner.Err()]. *)
Definition scanner_err {S} (long : bool) (read_err : option string) : DM S unit :=
  if long then fail TokenTooLong else match read_err with Some e => fail (ReadError e) | None => mret tt end.

Section Reading.
Context `{!LogFiles}.

Fixpoint open_first (paths : list string) (lastErr : option open_error) : (string * option string) + debug_error :=
  match paths with
  | [] => inr (match lastErr with Some e => OpenFailed e | None => NotExist end)
  | path :: paths => match OpenLog path with inl file => inl file | inr e => open_first paths (Some e) end
  end.

Definition openFirst (paths : list string) : (string * option string) + debug_error := open_first paths None.

Definition scanBinderContext {S} (r : Reader) (pid : Z) (eachLine : string → DM S unit) : DM S unit :=
  '(text, read_err) ← lift_sum (openFirst ((λ root, filepath_Join [root; pretty pid]) <$> rd_procRoots r));
  let '(lines, long) := scan_lines text in
  scan_context (rd_contextName r) false lines eachLine;;
  scanner_err long read_err.

(** A line of GetPIDInfo; the counters are uint32. *)
Definition info_line (line : string) : DM PIDInfo unit :=
  let trimmed := TrimSpace line in
  if String.prefix "node " trimmed then
    '(ptr, pids) ← lift_sum (parseNodeReferenceLine trimmed);
    update (λ i, if (ptr =? 0) || bool_decide (pids = []) then i
                 else mkPIDInfo (<[ptr := default [] (pi_RefPIDs i !! ptr) ++ pids]> (pi_RefPIDs i)) (pi_ThreadUsage i) (pi_ThreadCount i))
  else if String.prefix "thread " trimmed then
    '(inUse, binderThread) ← lift_sum (parseThreadState trimmed);
    update (λ i, if negb binderThread then i
                 else mkPIDInfo (pi_RefPIDs i) (if (inUse : bool) then u32 (pi_ThreadUsage i + 1) else pi_ThreadUsage i) (u32 (pi_ThreadCount i + 1)))
  else mret tt.

(** The information gathered and the error, as the code returns both. *)
Definition GetPIDInfo (r : Reader) (pid : Z) : result debug_error unit * PIDInfo :=
  scanBinderContext r pid info_line (mkPIDInfo ∅ 0 0).

Definition ref_line (handle : Z) (line : string) : DM Z unit :=
  let trimmed := TrimSpace line in
  if negb (String.prefix "ref " trimmed) then mret tt
  else
    '(desc, parsedNode) ← lift_sum (parseRefLine trimmed);
    update (λ node, if desc =? handle then parsedNode else node).

Definition node_line (node : Z) (line : string) : DM (list Z) unit :=
  let trimmed := TrimSpace line in
  if negb (String.prefix "node " trimmed) then mret tt
  else
    '(matchedNode, foundPIDs) ← lift_sum (parseNodePIDs trimmed);
    update (λ pids, if matchedNode =? node then pids ++ foundPIDs else pids).

Definition GetClientPIDs (r : Reader) (callerPID servicePID handle : Z) : result debug_error (list Z) :=
  match scanBinderContext r callerPID (ref_line handle) 0 with
  | (Err e, _) => Err e
  | (Panic y, _) => Panic y
  | (Ok _, node) =>
      let '(res, pids) := scanBinderContext r servicePID (node_line node) [] in
      result_map (λ _, merge_sort Z.le pids) res
  end.

(** The lines up to the next process. *)
Fixpoint until_proc (lines : list string) : list string :=
  match lines with
  | [] => []
  | line :: lines => if String.prefix "proc " line then [] else line :: until_proc lines
  end.

Fixpoint find_proc (prefix : string) (lines : list string) : option (list string) :=
  match lines with
  | [] => None
  | line :: lines => if String.prefix prefix line then Some (line :: until_proc lines) else find_proc prefix lines
  end.

Definition GetTransactions (r : Reader) (pid : Z) : string + debug_error :=
  match openFirst (rd_transactionPaths r) with
  | inr e => inr e
  | inl (text, read_err) =>
      let '(lines, long) := scan_lines text in
      match find_proc ("proc " +:+ pretty pid) lines with
      | Some found => inl (String.concat "" ((λ line, line +:+ String newline "") <$> found))
      | None => match fst (scanner_err (S := unit) long read_err tt) with Err e => inr e | _ => inr NotExist end
      end
  end.
End Reading.

(** ** The driver's format *)

(** An entry of a process's log: what the driver prints for a reference (the handle
    [desc] of the process, and the node it refers to, [dead] when the process that
    owned it is gone), for a node of the process with the processes that refer to it,
    and any other line. *)
Inductive log_entry :=
| LRef (id desc : Z) (dead : bool) (node : Z) (rest : list string)
| LNode (id : Z) (counts : list string) (clients : list Z)
| LOther (line : string).

Definition entry_words (e : log_entry) : list string :=
  match e with
  | LRef id desc dead node rest =>
      ["ref"; pretty id +:+ ":"; "desc"; pretty desc] ++ (if dead then ["dead"] else []) ++ ["node"; pretty node] ++ rest
  | LNode id counts clients =>
      ["node"; pretty id +:+ ":"] ++ counts ++ match clients with [] => [] | _ => "proc" :: (pretty <$> clients) end
  | LOther line => [line]
  end.

Definition print_entry (e : log_entry) : string :=
  match e with LOther line => line | _ => "  " +:+ Join (entry_words e) " " end.

(** The sections of a log, one for each Binder device. *)
Definition proc_log : Type := list (string * list log_entry).

Definition print_log (log : proc_log) : list string :=
  log ≫= λ '(context, entries), ("context " +:+ context) :: (print_entry <$> entries).

Definition print_lines (lines : list string) : string := foldr (λ line text, line +:+ String newline text) "" lines.

(** ** What the log says *)

Definition entries_of (context : string) (log : proc_log) : list log_entry :=
  log ≫= λ '(name, entries), if bool_decide (name = context) then entries else [].

(** The node behind a handle: the last reference with it; 0 without one. *)
Definition node_of (handle : Z) (entries : list log_entry) : Z :=
  foldl (λ node e, match e with LRef _ desc _ n _ => if desc =? handle then n else node | _ => node end) 0 entries.

(** Whether a reference is to a dead node, and whether one of the entries is. *)
Definition dead_ref (e : log_entry) : bool := match e with LRef _ _ dead _ _ => dead | _ => false end.
Definition dead_refs (entries : list log_entry) : bool := existsb dead_ref entries.

Definition clients_of (node : Z) (entries : list log_entry) : list Z :=
  entries ≫= λ e, match e with LNode id _ clients => if id =? node then clients else [] | _ => [] end.

(** ** Well-formed logs *)

Definition line_ok (line : string) : Prop :=
  no_char newline line = true ∧ drop_cr line = line ∧ (String.length line < MaxScanTokenSize)%nat.

Definition entry_ok (e : log_entry) : Prop :=
  match e with
  | LRef id desc _ node rest => in_s 64 id ∧ in_s 64 desc ∧ in_s 64 node ∧ Forall blank_free rest
  | LNode id counts clients =>
      in_s 64 id ∧ Forall (λ w, blank_free w ∧ w ≠ "proc") counts ∧ Forall (in_s 64) clients
  | LOther line =>
      line_ok line ∧ String.prefix "context" line = false ∧
      String.prefix "ref " (TrimSpace line) = false ∧ String.prefix "node " (TrimSpace line) = false
  end ∧ (String.length (print_entry e) < MaxScanTokenSize)%nat.

Definition log_ok (log : proc_log) : Prop :=
  Forall (λ '(context, entries),
    blank_free context ∧ (String.length ("context " +:+ context) < MaxScanTokenSize)%nat ∧ Forall entry_ok entries) log.

(** ** Lines *)

Lemma scan_print lines : Forall line_ok lines → scan_lines (print_lines lines) = (lines, false).
Proof.
  unfold scan_lines. induction 1 as [|line lines (Hn & Hc & Hl) _ IH]; [done|]. cbn [print_lines foldr].
  rewrite split_cons by done. change (foldr _ "" lines) with (print_lines lines).
  assert (Hne : split_char newline (print_lines lines) ≠ []).
  { destruct (print_lines lines) as [|c t]; cbn; [done|]. case_bool_decide; [done|]. by destruct (split_char newline t). }
  destruct (split_char newline (print_lines lines)) as [|p ps]; [done|]. cbn [scan_tokens] in *.
  rewrite (bool_decide_eq_false_2 (MaxScanTokenSize <= String.length line)%nat) by lia. by rewrite IH, Hc.
Qed.

(** The words of an entry, and of the line that opens a section. *)
Lemma entry_words_ok e : entry_ok e → match e with LOther _ => True | _ => Forall blank_free (entry_words e) end.
Proof.
  assert (Hid : ∀ z : Z, blank_free (pretty z +:+ ":")).
  { intros z. destruct (pretty_word z) as [Hne Hb]. split; [by destruct (pretty z)|]. by rewrite all_chars_app, Hb. }
  destruct e as [id desc dead node rest|id counts clients|line]; intros [H _]; [..|done].
  - destruct H as (_ & _ & _ & Hr). destruct dead; cbn [entry_words app]; rewrite !Forall_cons; split_and!; auto using pretty_word; by split.
  - destruct H as (_ & Hc & _). cbn [entry_words]. apply Forall_app. split; [rewrite !Forall_cons; split_and!; auto; by split|].
    apply Forall_app. split; [eapply Forall_impl; [exact Hc|]; by intros w []|].
    destruct clients as [|z l]; [constructor|]. constructor; [by split|]. apply Forall_fmap, Forall_true. intros x. apply pretty_word.
Qed.

Lemma entry_line_ok e : entry_ok e → line_ok (print_entry e) ∧ String.prefix "context" (print_entry e) = false.
Proof.
  intros He. pose proof (entry_words_ok e He) as Hw. destruct He as [H Hl].
  destruct e as [id desc dead node rest|id counts clients|line]; [| |by destruct H as (? & ? & _)].
  all: split; [|done]; split_and!; [|by apply drop_cr_Join|done].
  all: unfold print_entry; rewrite no_char_append, no_char_Join; done.
Qed.

Lemma context_line context : blank_free context → (String.length ("context " +:+ context) < MaxScanTokenSize)%nat →
  line_ok ("context " +:+ context) ∧ last (Fields ("context " +:+ context)) = Some context.
Proof.
  intros Hc Hl. change ("context " +:+ context) with (Join ["context"; context] " ") in *.
  assert (Hw : Forall blank_free ["context"; context]) by (rewrite !Forall_cons; split_and!; done).
  split; [|by rewrite Fields_Join]. split_and!; [by apply no_char_Join| |done].
  by apply (drop_cr_Join "" ["context"; context]).
Qed.

Lemma print_log_ok log : log_ok log → Forall line_ok (print_log log).
Proof.
  induction 1 as [|[context entries] log (Hc & Hl & He) _ IH]; [done|]. cbn [print_log mbind list_bind].
  apply Forall_app. split; [|exact IH]. constructor; [by apply context_line|].
  apply Forall_fmap. eapply Forall_impl; [exact He|]. intros e ?. by apply entry_line_ok.
Qed.

(** What a callback does to the entries of its context, in order, until it fails. *)
Fixpoint each {S} (f : log_entry → DM S unit) (es : list log_entry) : DM S unit :=
  match es with [] => mret tt | e :: es => f e;; each f es end.

Lemma each_app {S} (f : log_entry → DM S unit) es es' s : each f (es ++ es') s = (each f es;; each f es') s.
Proof.
  revert s. induction es as [|e es IH]; intros s; [done|]. cbn [app each]. unfold mbind, ST_bind in *.
  destruct (f e s) as [[[]|?|?] s']; [apply IH|done..].
Qed.

(** A callback that never fails on the entries. *)
Lemma each_update {S} (f : log_entry → DM S unit) (g : S → log_entry → S) es s :
  (∀ e s, e ∈ es → f e s = (Ok tt, g s e)) → each f es s = (Ok tt, foldl g s es).
Proof.
  revert s. induction es as [|e es IH]; intros s Hf; [done|]. cbn [each].
  rewrite (bind_ok _ _ _ _ _ (Hf e s ltac:(left))). apply IH. intros e' s' He'. apply Hf. by right.
Qed.

(** A callback that means [f] of an entry sees the entries of its context. *)
Lemma scan_entries {S} (eachLine : string → DM S unit) (f : log_entry → DM S unit) context b es rest s :
  (∀ e s, entry_ok e → eachLine (print_entry e) s = f e s) → Forall entry_ok es →
  scan_context context b ((print_entry <$> es) ++ rest) eachLine s =
    ((if b then each f es else mret tt);; scan_context context b rest eachLine) s.
Proof.
  intros Hf H. revert s. induction H as [|e es He _ IH]; intros s; [by destruct b|].
  cbn [fmap list_fmap app scan_context]. destruct (entry_line_ok e He) as [_ ->]. destruct b; cbn [negb each].
  - unfold mbind, ST_bind in *. rewrite Hf by done. destruct (f e s) as [[[]|?|?] s']; [apply IH|done..].
  - apply IH.
Qed.

Lemma scan_log {S} (eachLine : string → DM S unit) (f : log_entry → DM S unit) context b log s :
  (∀ e s, entry_ok e → eachLine (print_entry e) s = f e s) → log_ok log →
  scan_context context b (print_log log) eachLine s = each f (entries_of context log) s.
Proof.
  intros Hf H. revert b s. induction H as [|[name es] log (Hc & Hl & He) _ IH]; intros b s; [done|].
  change (print_log ((name, es) :: log)) with (("context " +:+ name) :: (print_entry <$> es) ++ print_log log).
  change (entries_of context ((name, es) :: log)) with ((if bool_decide (name = context) then es else []) ++ entries_of context log).
  cbn [scan_context]. change (String.prefix "context" _) with true. cbn iota.
  destruct (context_line name Hc Hl) as [_ ->]. rewrite (scan_entries _ f), each_app by done.
  rewrite (bool_decide_ext (Some name = Some context) (name = context)) by (split; congruence).
  unfold mbind, ST_bind. case_bool_decide; [|apply IH]. destruct (each f es s) as [[[]|?|?] s']; [apply IH|done..].
Qed.

(** ** The lines of GetClientPIDs *)

Lemma number_pretty z : in_s 64 z → number_or (Atoi (pretty z)) (pretty z) = inl z.
Proof. intros H. unfold number_or. by rewrite Atoi_pretty. Qed.

Lemma pid_tokens_counts counts rest : Forall (λ w, blank_free w ∧ w ≠ "proc") counts →
  pid_tokens (counts ++ rest) false = pid_tokens rest false.
Proof. induction 1 as [|w ws [_ Hw] _ IH]; [done|]. cbn. by rewrite bool_decide_eq_false_2. Qed.

Lemma pid_tokens_pids pids : Forall (in_s 64) pids → pid_tokens (pretty <$> pids) true = inl pids.
Proof.
  induction 1 as [|z l Hz _ IH]; [done|]. cbn [fmap list_fmap pid_tokens]. rewrite bool_decide_eq_false_2.
  - cbn [negb]. change (pretty <$> l) with (fmap (M := list) pretty l) in IH. by rewrite number_pretty, IH.
  - intros E. pose proof (Atoi_pretty z Hz) as Ha. by rewrite E in Ha.
Qed.

Lemma parse_ref id desc dead node rest : entry_ok (LRef id desc dead node rest) →
  parseRefLine (Join (entry_words (LRef id desc dead node rest)) " ") =
  if dead then inr (InvalidNumber "node") else inl (desc, node).
Proof.
  intros He. pose proof (entry_words_ok _ He) as Hw. destruct He as [(_ & Hd & Hn & _) _]. unfold parseRefLine.
  rewrite Fields_Join by done. destruct dead; cbn [entry_words app]; by rewrite !number_pretty.
Qed.

Lemma parse_node id counts clients : entry_ok (LNode id counts clients) →
  parseNodePIDs (Join (entry_words (LNode id counts clients)) " ") = inl (id, clients).
Proof.
  intros He. pose proof (entry_words_ok _ He) as Hw. destruct He as [(Hi & Hc & Hp) _]. unfold parseNodePIDs.
  rewrite Fields_Join by done. cbn [entry_words app]. rewrite trim_suffix_append. unfold number_or. rewrite Atoi_pretty by done.
  rewrite pid_tokens_counts by done. destruct clients as [|z l]; [done|].
  change (pid_tokens ("proc" :: (pretty <$> z :: l)) false) with (pid_tokens (pretty <$> z :: l) true).
  by rewrite pid_tokens_pids.
Qed.

(** The trimmed line of an entry that is not [LOther]. *)
Lemma trim_entry e : entry_ok e → match e with LOther _ => True | _ => TrimSpace (print_entry e) = Join (entry_words e) " " end.
Proof.
  intros He. pose proof (entry_words_ok e He) as Hw. destruct e; [| |done]; by apply TrimSpace_Join.
Qed.

(** What a line starts with. *)
Lemma prefix_ref id desc dead node rest : String.prefix "ref " (Join (entry_words (LRef id desc dead node rest)) " ") = true.
Proof. apply (prefix_append "ref "). Qed.

Lemma prefix_node id counts clients : String.prefix "node " (Join (entry_words (LNode id counts clients)) " ") = true.
Proof. cbn [entry_words app Join]. destruct (counts ++ _); apply (prefix_append "node "). Qed.

(** The two callbacks on an entry. *)
Definition ref_entry (handle : Z) (e : log_entry) : DM Z unit :=
  match e with
  | LRef _ desc dead n _ => if dead then fail (InvalidNumber "node") else update (λ node, if desc =? handle then n else node)
  | _ => mret tt
  end.

Lemma ref_line_ok handle e node : entry_ok e → ref_line handle (print_entry e) node = ref_entry handle e node.
Proof.
  intros He. pose proof (trim_entry e He) as Ht. unfold ref_line. destruct e as [id desc dead n rest|id counts clients|line].
  - rewrite Ht, prefix_ref. cbn [negb]. unfold lift_sum. rewrite parse_ref by done. by destruct dead.
  - by rewrite Ht.
  - destruct He as [(_ & _ & Hr & _) _]. cbn [print_entry]. by rewrite Hr.
Qed.

Lemma node_line_ok node e pids : entry_ok e → node_line node (print_entry e) pids =
  (Ok tt, pids ++ match e with LNode id _ clients => if id =? node then clients else [] | _ => [] end).
Proof.
  intros He. pose proof (trim_entry e He) as Ht. unfold node_line. destruct e as [id desc dead n rest|id counts clients|line].
  - by rewrite Ht, app_nil_r.
  - rewrite Ht, prefix_node. cbn [negb]. unfold lift_sum. rewrite parse_node by done.
    rewrite (bind_ok (lift _) _ pids pids (id, clients)) by done. unfold update. by destruct (id =? node); rewrite ?app_nil_r.
  - destruct He as [(_ & _ & _ & Hr) _]. cbn [print_entry]. by rewrite Hr, app_nil_r.
Qed.

(** The search for the node stops at a reference to a dead one. *)
Lemma ref_entries handle es node : ∃ node', each (ref_entry handle) es node =
  if dead_refs es then (Err (InvalidNumber "node"), node')
  else (Ok tt, foldl (λ node e, match e with LRef _ desc _ n _ => if desc =? handle then n else node | _ => node end) node es).
Proof.
  revert node. induction es as [|e es IH]; intros node; [by exists node|]. cbn [each dead_refs existsb foldl].
  destruct e as [id desc [] n rest| |]; cbn [dead_ref orb]; [by exists node|..].
  - destruct (IH (if desc =? handle then n else node)) as [node' E]. exists node'. exact E.
  - destruct (IH node) as [node' E]. exists node'. exact E.
  - destruct (IH node) as [node' E]. exists node'. exact E.
Qed.

Section Queries.
Context `{!LogFiles} (r : Reader).

(** The log of a process is the first file that opens. *)
Definition has_log (pid : Z) (log : proc_log) : Prop :=
  log_ok log ∧
  openFirst ((λ root, filepath_Join [root; pretty pid]) <$> rd_procRoots r) = inl (print_lines (print_log log), None).

Lemma scanBinderContext_log {S} pid log (eachLine : string → DM S unit) (f : log_entry → DM S unit) s :
  has_log pid log → (∀ e s, entry_ok e → eachLine (print_entry e) s = f e s) →
  scanBinderContext r pid eachLine s = each f (entries_of (rd_contextName r) log) s.
Proof.
  intros [Hl Ho] Hf. unfold scanBinderContext, lift_sum. rewrite Ho.
  rewrite (bind_ok (lift _) _ s s (print_lines (print_log log), None)) by done.
  rewrite scan_print by by apply print_log_ok. unfold mbind, ST_bind.
  rewrite (scan_log eachLine f _ false log s Hf Hl). by destruct (each f _ s) as [[[]|?|?] s'].
Qed.

End Queries.

(** ** Examples *)

Definition demo_clog : proc_log :=
  [("hwbinder", [LRef 9 3 true 70 ["s"; "1"; "w"; "1"; "d"; "0"]]);
   ("binder", [LOther "  thread 100: l 12 need_return 0 tr 0"; LRef 10 3 false 77 ["s"; "1"; "w"; "1"; "d"; "0"]])].
Definition demo_slog : proc_log :=
  [("binder", [LNode 77 ["u00007f01"; "c00007f02"; "hs"; "1"; "hw"; "1"] [300; 100]; LNode 78 ["hs"; "1"] [400]])].

Definition demo_text (path : string) : option string :=
  if bool_decide (path = "/d/binder/proc/100") then Some (print_lines (print_log demo_clog))
  else if bool_decide (path = "/d/binder/proc/200") then Some (print_lines (print_log demo_slog)) else None.

Definition text_files (f : string → option string) : LogFiles := {|
  OpenLog path := match f path with Some text => inl (text, None) | None => inr (mkOpenError "no such file" true) end;
|}.

Lemma short_enough s : (Z.of_nat (String.length s) <? 65536) = true → (String.length s < MaxScanTokenSize)%nat.
Proof. unfold MaxScanTokenSize. intros H%Z.ltb_lt. lia. Qed.

Local Ltac log_tac := repeat first [apply Forall_nil_2 | apply Forall_cons_2 | split]; try (apply short_enough); vm_compute; done.


(** A defect: the driver writes "dead node" for a node whose process is gone; the
    words of such a line are counted from the front, and one of them makes every
    query of the process fail. *)
Example dead_node_breaks_queries :
  let text := print_lines ["context binder"; "  ref 5: desc 1 dead node 9 s 1 w 1 d 0"; "  ref 6: desc 3 node 77 s 1 w 1 d 0"] in
  GetClientPIDs (H := text_files (λ path, if bool_decide (path = "/d/binder/proc/100") then Some text else demo_text path))
    (NewReader "/dev/binder") 100 200 3 = Err (InvalidNumber "node").
Proof. vm_compute. reflexivity. Qed.

(** A defect: the section of a process is looked up by a prefix, so that of process 1
    may be the section of process 12. *)
Example transactions_of_another_process :
  let text := print_lines ["binder transactions:"; "proc 12"; "context binder"; "  thread 12: l 00"; "proc 1"; "context binder"] in
  GetTransactions (H := text_files (λ _, Some text)) (NewReader "/dev/binder") 1 =
    inl (print_lines ["proc 12"; "context binder"; "  thread 12: l 00"]).
Proof. vm_compute. reflexivity. Qed.
