(* ===== verification/Tools.v ===== *)
(** * Tools: what the command line tools share

    A tool runs against a service manager: it prints to its two streams and ends
    with an exit code.  The service manager and the Binders it gives out are
    interfaces of src/binder; here they are a record and a class. *)

From stdpp Require Import base list numbers strings pretty.
From S2P Require Import Prelude Errors Parcel Stability Dispatch Services Aidl GoText.

Open Scope Z_scope.

(** ** Texts *)

(** The verb %q on ASCII text. *)
Definition quote_char (c : Ascii.ascii) : string :=
  let n := code_of c in
  if n =? 34 then String (Ascii.ascii_of_nat 92) (String c "")
  else if n =? 92 then "\\"
  else if n =? 7 then "\a" else if n =? 8 then "\b" else if n =? 12 then "\f"
  else if n =? 10 then "\n" else if n =? 13 then "\r" else if n =? 9 then "\t" else if n =? 11 then "\v"
  else if (n <? 32) || (n =? 127) then "\x" +:+ hex_digit (n / 16) +:+ hex_digit (n mod 16)
  else String c "".

Definition Quote (s : string) : string :=
  let q := String (Ascii.ascii_of_nat 34) "" in
  q +:+ Join (quote_char <$> chars_of s) "" +:+ q.

Definition line (s : string) : string := s +:+ String newline "".

(** ** Effects *)

Inductive tool_event := Out (text : string) | ErrOut (text : string).

(** A step of a tool acts on the world and prints; [Err code] leaves the tool with
    that exit code. *)
Definition TM (W A : Type) : Type := W → result Z A * W * list tool_event.

#[global] Instance TM_ret W : MRet (TM W) := λ A a w, (Ok a, w, []).
#[global] Instance TM_bind W : MBind (TM W) := λ A C k m w,
  match m w with
  | (Ok a, w1, l1) => let '(r, w2, l2) := k a w1 in (r, w2, l1 ++ l2)
  | (Err e, w1, l1) => (Err e, w1, l1)
  | (Panic y, w1, l1) => (Panic y, w1, l1)
  end.

Section Tool.
Context {W B : Type}.

Definition out (s : string) : TM W unit := λ w, (Ok tt, w, [Out s]).
Definition err_out (s : string) : TM W unit := λ w, (Ok tt, w, [ErrOut s]).
Definition exit_with {A} (code : Z) : TM W A := λ w, (Err code, w, []).
Definition outs (lines : list string) : TM W unit := λ w, (Ok tt, w, Out <$> lines).
Definition err_outs (lines : list string) : TM W unit := λ w, (Ok tt, w, ErrOut <$> lines).

Definition emit (l : list tool_event) : TM W unit := λ w, (Ok tt, w, l).
Definition act (f : W → W) : TM W unit := λ w, (Ok tt, f w, []).

(** A call whose error the tool inspects. *)
Definition attempt {A} (m : @HM W A) : TM W (A + error) := λ w,
  match m w with
  | (Ok a, w') => (Ok (inl a), w', [])
  | (Err e, w') => (Ok (inr e), w', [])
  | (Panic y, w') => (Panic y, w', [])
  end.

Fixpoint for_each_do {A} (f : A → TM W unit) (l : list A) : TM W unit :=
  match l with [] => mret tt | x :: l => f x;; for_each_do f l end.

(** ** Interfaces *)

(** The methods of a Binder that the tools call; [tb_DebugHandle] is the optional
    interface DebugHandleProvider: absent, or a handle if there is one. *)
Class ToolBinder := {
  tb_Transact : B → Transactor W B;
  tb_Descriptor : B → context → @HM W string;
  tb_DebugHandle : B → option (option Z);
}.

Record ServiceManager := mkServiceManager {
  sm_ListServices : context → Z → @HM W (list string);
  sm_CheckService : context → string → @HM W (option B);
  sm_WaitService : context → string → @HM W (option B);
}.

(** The end of a tool: its exit code. *)
Definition exit_code (m : TM W Z) (w : W) : result Empty_set Z * W * list tool_event :=
  match m w with
  | (Ok code, w', l) | (Err code, w', l) => (Ok code, w', l)
  | (Panic y, w', l) => (Panic y, w', l)
  end.

(** ** Laws *)

Lemma tm_bind_inv {A C} (m : TM W A) (k : A → TM W C) w r w' l : (m ≫= k) w = (r, w', l) →
  (∃ a w1 l1 l2, m w = (Ok a, w1, l1) ∧ k a w1 = (r, w', l2) ∧ l = l1 ++ l2) ∨
  (∃ e, m w = (Err e, w', l) ∧ r = Err e) ∨ (∃ y, m w = (Panic y, w', l) ∧ r = Panic y).
Proof.
  unfold mbind, TM_bind. destruct (m w) as [[[a|e|y] w1] l1] eqn:E.
  - destruct (k a w1) as [[r2 w2] l2] eqn:E2. intros [= <- <- <-]. left. by exists a, w1, l1, l2.
  - intros [= <- <- <-]. right. left. by exists e.
  - intros [= <- <- <-]. right. right. by exists y.
Qed.

Lemma tm_bind_ok {A C} (m : TM W A) (k : A → TM W C) w a w1 l1 : m w = (Ok a, w1, l1) →
  (m ≫= k) w = let '(r, w2, l2) := k a w1 in (r, w2, l1 ++ l2).
Proof. intros H. unfold mbind, TM_bind. by rewrite H. Qed.
End Tool.
Arguments ToolBinder : clear implicits.
Arguments ServiceManager : clear implicits.
