(* ===== verification/Dumpsys.v ===== *)
(** * Dumpsys: the dumpsys command

    Models src/cmd/dumpsys/run.go: its options, which services it dumps and in what
    order, what a dump asks of a service, and what is printed.  A dump runs in a
    goroutine that writes to a pipe while the command copies the other end to its
    output: [writeDump] is a function of the events its select statement sees.  The
    times that are printed are left out of the text. *)

From stdpp Require Import base list numbers strings pretty gmap sorting.
From S2P Require Import Prelude Errors Parcel Stability Dispatch Services Aidl GoText BinderDebug Tools.

Open Scope Z_scope.

Definition usageExitCode : Z := 10.
Definition unavailableExitCode : Z := 20.

(** time.Duration, in nanoseconds. *)
Definition Millisecond : Z := 1000000.
Definition Second : Z := 1000000000.
Definition defaultTimeout : Z := 10 * Second.

(** The bits of a dumpType. *)
Definition typeDump : Z := 1.
Definition typePID : Z := 2.
Definition typeStability : Z := 4.
Definition typeThread : Z := 8.
Definition typeClients : Z := 16.

(** ** Arguments *)

Record config := mkConfig {
  showHelp : bool; showListOnly : bool; skipServices : bool; asProto : bool; timeout : Z; priorityFlags : Z; dumpTypes : Z;
  cfg_services : list string; serviceArgs : list string; skippedServices : list string;
}.

Definition initial_config : config :=
  mkConfig false false false false defaultTimeout DumpPriorityAll 0 [] [] [].

Definition set_help (c : config) : config :=
  mkConfig true (showListOnly c) (skipServices c) (asProto c) (timeout c) (priorityFlags c) (dumpTypes c) (cfg_services c) (serviceArgs c) (skippedServices c).
Definition set_list (c : config) : config :=
  mkConfig (showHelp c) true (skipServices c) (asProto c) (timeout c) (priorityFlags c) (dumpTypes c) (cfg_services c) (serviceArgs c) (skippedServices c).
Definition set_skip (c : config) : config :=
  mkConfig (showHelp c) (showListOnly c) true (asProto c) (timeout c) (priorityFlags c) (dumpTypes c) (cfg_services c) (serviceArgs c) (skippedServices c).
Definition set_proto (c : config) : config :=
  mkConfig (showHelp c) (showListOnly c) (skipServices c) true (timeout c) (priorityFlags c) (dumpTypes c) (cfg_services c) (serviceArgs c) (skippedServices c).
Definition set_timeout (t : Z) (c : config) : config :=
  mkConfig (showHelp c) (showListOnly c) (skipServices c) (asProto c) t (priorityFlags c) (dumpTypes c) (cfg_services c) (serviceArgs c) (skippedServices c).
Definition set_priority (p : Z) (c : config) : config :=
  mkConfig (showHelp c) (showListOnly c) (skipServices c) (asProto c) (timeout c) p (dumpTypes c) (cfg_services c) (serviceArgs c) (skippedServices c).
Definition set_types (t : Z) (c : config) : config :=
  mkConfig (showHelp c) (showListOnly c) (skipServices c) (asProto c) (timeout c) (priorityFlags c) t (cfg_services c) (serviceArgs c) (skippedServices c).
Definition add_type (t : Z) (c : config) : config := set_types (Z.lor (dumpTypes c) t) c.

Definition priorityFromString (s : string) : option Z :=
  if bool_decide (s = "CRITICAL") then Some DumpPriorityCritical
  else if bool_decide (s = "HIGH") then Some DumpPriorityHigh
  else if bool_decide (s = "NORMAL") then Some DumpPriorityNormal
  else None.

Definition priorityToString (flags : Z) : string :=
  if flags =? DumpPriorityCritical then "CRITICAL"
  else if flags =? DumpPriorityHigh then "HIGH"
  else if flags =? DumpPriorityNormal then "NORMAL"
  else "".

(** The value of -t or -T, in the unit given. *)
Definition timeout_value (v : string) (unit_ : Z) : option Z :=
  n ← Atoi v; if n <=? 0 then None else Some (i64 (n * unit_)).

(** The options: the configuration and the arguments that are left, or the end of
    the parse with a code and what is printed to the error stream. *)
Fixpoint parse_options (argv : list string) (c : config) : (config * list string) + (config * Z * list string) :=
  match argv with
  | [] => inl (c, [])
  | arg :: rest =>
      if negb (String.prefix "-" arg) || bool_decide (arg = "-") then inl (c, argv)
      else if bool_decide (arg ∈ ["--help"; "-h"; "-?"]) then inr (set_help c, 0, [])
      else if bool_decide (arg = "-l") then parse_options rest (set_list c)
      else if bool_decide (arg = "--skip") then parse_options rest (set_skip c)
      else if bool_decide (arg = "--proto") then parse_options rest (set_proto c)
      else if bool_decide (arg = "--dump") then parse_options rest (add_type typeDump c)
      else if bool_decide (arg = "--pid") then parse_options rest (add_type typePID c)
      else if bool_decide (arg = "--stability") then parse_options rest (add_type typeStability c)
      else if bool_decide (arg = "--thread") then parse_options rest (add_type typeThread c)
      else if bool_decide (arg = "--clients") then parse_options rest (add_type typeClients c)
      else if bool_decide (arg = "-t") then
        match rest with
        | [] => inr (c, usageExitCode, [line "Error: missing timeout(seconds) value"])
        | v :: rest =>
            match timeout_value v Second with
            | Some t => parse_options rest (set_timeout t c)
            | None => inr (c, usageExitCode, [line ("Error: invalid timeout(seconds) number: '" +:+ v +:+ "'")])
            end
        end
      else if bool_decide (arg = "-T") then
        match rest with
        | [] => inr (c, usageExitCode, [line "Error: missing timeout(milliseconds) value"])
        | v :: rest =>
            match timeout_value v Millisecond with
            | Some t => parse_options rest (set_timeout t c)
            | None => inr (c, usageExitCode, [line ("Error: invalid timeout(milliseconds) number: '" +:+ v +:+ "'")])
            end
        end
      else if bool_decide (arg = "--priority") then
        match rest with
        | [] => inr (c, usageExitCode, [line "Error: missing priority level"])
        | v :: rest =>
            match priorityFromString v with
            | Some p => parse_options rest (set_priority p c)
            | None => inr (c, usageExitCode, [])
            end
        end
      else inr (c, usageExitCode, [])
  end.

(** The arguments after the options: services to skip, or a service and what is
    passed to it. *)
Fixpoint positional (args : list string) (c : config) : config :=
  match args with
  | [] => c
  | a :: args =>
      positional args
        (if skipServices c then
           mkConfig (showHelp c) (showListOnly c) (skipServices c) (asProto c) (timeout c) (priorityFlags c) (dumpTypes c)
             (cfg_services c) (serviceArgs c) (skippedServices c ++ [a])
         else if bool_decide (cfg_services c = []) then
           mkConfig (showHelp c) (showListOnly c) (skipServices c) (asProto c) (timeout c) (priorityFlags c) (dumpTypes c)
             [a] (serviceArgs c) (skippedServices c)
         else
           mkConfig (showHelp c) (showListOnly c) (skipServices c) (asProto c || bool_decide (a = "--proto")) (timeout c)
             (priorityFlags c) (dumpTypes c) (cfg_services c) (serviceArgs c ++ [a]) (skippedServices c))
  end.

(** The configuration, the code and what is printed to the error stream. *)
Definition parseArgs (argv : list string) : config * Z * list string :=
  match parse_options argv initial_config with
  | inr stop => stop
  | inl (c, rest) =>
      let c := positional rest (if dumpTypes c =? 0 then set_types typeDump c else c) in
      if (skipServices c && bool_decide (skippedServices c = [])) ||
         (showListOnly c && (bool_decide (cfg_services c ≠ []) || bool_decide (skippedServices c ≠ [])))
      then (c, usageExitCode, []) else (c, 0, [])
  end.

Definition general_priority (flags : Z) : bool :=
  (flags =? DumpPriorityAll) || (flags =? DumpPriorityNormal) || (flags =? DumpPriorityDefault).

Definition setServiceArgs (args : list string) (asProto : bool) (flags : Z) : list string :=
  let out := if asProto then "--proto" :: args else args in
  let out := if general_priority flags then "-a" :: out else out in
  if (flags =? DumpPriorityCritical) || (flags =? DumpPriorityHigh) || (flags =? DumpPriorityNormal)
  then "--priority" :: priorityToString flags :: out else out.

Definition isSkipped (skipped : list string) (service : string) : bool := bool_decide (service ∈ skipped).

Definition usage : list string := line <$>
  ["usage: dumpsys"; "         To dump all services."; "or:";
   "       dumpsys [-t TIMEOUT] [--priority LEVEL] [--clients] [--dump] [--pid] [--thread] [--help | -l | --skip SERVICES | SERVICE [ARGS]]";
   "         --help: shows this help"; "         -l: only list services, do not dump them";
   "         -t TIMEOUT_SEC: TIMEOUT to use in seconds instead of default 10 seconds";
   "         -T TIMEOUT_MS: TIMEOUT to use in milliseconds instead of default 10 seconds";
   "         --clients: dump client PIDs instead of usual dump";
   "         --dump: ask the service to dump itself (this is the default)";
   "         --pid: dump PID instead of usual dump";
   "         --proto: filter services that support dumping data in proto format. Dumps";
   "               will be in proto format."; "         --priority LEVEL: filter services based on specified priority";
   "               LEVEL must be one of CRITICAL | HIGH | NORMAL"; "         --skip SERVICES: dumps all services but SERVICES";
   "         --stability: dump binder stability information instead of usual dump";
   "         --thread: dump thread usage instead of usual dump";
   "         SERVICE [ARGS]: dumps only service SERVICE, optionally passing ARGS to it"].

(** ** Errors *)

(** Errors of the Binder library, and of the driver's logs. *)
Inductive dump_error := BinderError (e : error) | LogError (e : debug_error).

Definition statusCodeName (code : Z) : string :=
  if code =? StatusUnknownError then "UNKNOWN_ERROR"
  else if code =? StatusBadType then "BAD_TYPE"
  else if code =? StatusFailedTransaction then "FAILED_TRANSACTION"
  else if code =? StatusFdsNotAllowed then "FDS_NOT_ALLOWED"
  else if code =? StatusUnexpectedNull then "UNEXPECTED_NULL"
  else if code =? StatusPermissionDenied then "PERMISSION_DENIED"
  else if code =? StatusNameNotFound then "NAME_NOT_FOUND"
  else if code =? StatusNoMemory then "NO_MEMORY"
  else if code =? StatusBadValue then "BAD_VALUE"
  else if code =? StatusDeadObject then "DEAD_OBJECT"
  else if code =? StatusInvalidOperation then "INVALID_OPERATION"
  else if code =? StatusUnknownTransaction then "UNKNOWN_TRANSACTION"
  else pretty code.

Definition is_not_exist (e : debug_error) : bool :=
  match e with NotExist => true | OpenFailed o => oe_notExist o | _ => false end.

Section Dump.
Context {W B : Type} `{!BinderMarshal W B} `{TB : !ToolBinder W B} `{LF : !LogFiles}.
(** The text of an error of the logs; the process's id; os.Pipe; writing to the end of
    a pipe and closing it; the times that are printed. *)
Context (log_error_text : debug_error → string) (getpid : Z) (os_Pipe : @HM W (Z * Z))
  (pipe_write : Z → string → @HM W unit) (pipe_close : Z → W → W) (elapsed_text now_text : string → string).
Context (ctx : context) (sm : ServiceManager W B) (debugReader : Reader).

Definition dumpErrorString (e : dump_error) : string :=
  match e with
  | LogError e => if is_not_exist e then "NAME_NOT_FOUND" else log_error_text e
  | BinderError e =>
      match errors_As_StatusCode e with
      | Some code => statusCodeName code
      | None =>
          if errors_Is e ErrNoService then "NAME_NOT_FOUND"
          else if errors_Is e ErrPermissionDenied then "PERMISSION_DENIED"
          else if errors_Is e ErrDeadObject then "DEAD_OBJECT"
          else if errors_Is e ErrFailedTxn then "FAILED_TRANSACTION"
          else if errors_Is e ErrBadType then "BAD_TYPE"
          else if errors_Is e ErrUnknownTransaction then "UNKNOWN_TRANSACTION"
          else Error_string e
      end
  end.

Definition reportDumpError (serviceName action : string) (e : dump_error) : TM W unit :=
  err_out (line ("Error with service '" +:+ serviceName +:+ "' while " +:+ action +:+ ": " +:+ dumpErrorString e)).

(** ** What a dump asks *)

(** A step of a dump: the error it returns, if any. *)
Definition DE (A : Type) : Type := W → (result dump_error A) * W.
#[local] Instance DE_ret : MRet DE := λ A a w, (Ok a, w).
#[local] Instance DE_bind : MBind DE := λ A C k m w,
  match m w with
  | (Ok a, w') => k a w'
  | (Err e, w') => (Err e, w')
  | (Panic y, w') => (Panic y, w')
  end.

Definition binder_step {A} (m : @HM W A) : DE A := λ w,
  match m w with
  | (Ok a, w') => (Ok a, w')
  | (Err e, w') => (Err (BinderError e), w')
  | (Panic y, w') => (Panic y, w')
  end.
Definition log_step {A} (r : result debug_error A) : DE A := λ w,
  (match r with Ok a => Ok a | Err e => Err (LogError e) | Panic y => Panic y end, w).

Definition dumpPIDToWriter (service : B) (out_fd : Z) (exclusive : bool) : DE unit :=
  pid ← binder_step (GetDebugPID (Some ctx) (Some (tb_Transact service)));
  (if exclusive then mret tt else binder_step (pipe_write out_fd "Service host process PID: "));;
  binder_step (pipe_write out_fd (line (pretty pid))).

Definition dumpThreadsToWriter (service : B) (out_fd : Z) : DE unit :=
  pid ← binder_step (GetDebugPID (Some ctx) (Some (tb_Transact service)));
  let '(r, info) := GetPIDInfo debugReader pid in
  log_step r;;
  binder_step (pipe_write out_fd (line ("Threads in use: " +:+ pretty (pi_ThreadUsage info) +:+ "/" +:+ pretty (pi_ThreadCount info)))).

Definition dumpClientsToWriter (service : B) (out_fd : Z) : DE unit :=
  match tb_DebugHandle service with
  | None | Some None => binder_step (pipe_write out_fd (line "Client PIDs are not available for local binders."))
  | Some (Some handle) =>
      servicePID ← binder_step (GetDebugPID (Some ctx) (Some (tb_Transact service)));
      pids ← log_step (GetClientPIDs debugReader getpid servicePID handle);
      binder_step (pipe_write out_fd
        (line ("Client PIDs: " +:+ Join (pretty <$> filter (λ pid, pid ≠ getpid) pids) ", ")))
  end.

(** One of the parts of a dump, and the report of its error. *)
Definition dump_part (serviceName action : string) (m : DE unit) : TM W unit := λ w,
  match m w with
  | (Ok _, w') => (Ok tt, w', [])
  | (Err e, w') => reportDumpError serviceName action e w'
  | (Panic y, w') => (Panic y, w', [])
  end.

Definition wants (types t : Z) : bool := negb (Z.land types t =? 0).

Definition dumpService (serviceName : string) (service : B) (out_fd types : Z) (args : list string) : TM W unit :=
  (if wants types typePID then dump_part serviceName "dumping PID" (dumpPIDToWriter service out_fd (types =? typePID)) else mret tt);;
  (if wants types typeStability then
     dump_part serviceName "dumping stability info"
       (λ w, binder_step (pipe_write out_fd (line ("Stability: " +:+ Stability_String (BinderStability service w)))) w)
   else mret tt);;
  (if wants types typeThread then dump_part serviceName "dumping thread info" (dumpThreadsToWriter service out_fd) else mret tt);;
  (if wants types typeClients then dump_part serviceName "dumping clients info" (dumpClientsToWriter service out_fd) else mret tt);;
  (if wants types typeDump then
     dump_part serviceName "dumping"
       (binder_step (DumpBinder (Some ctx) (Some (tb_Transact service)) (NewFileDescriptor out_fd) args))
   else mret tt).

(** ** Copying a dump *)

(** What the select statement of writeDump sees: the timer; bytes from the pipe, what
    the output took of them and its error; the end of the pipe, or an error. *)
Inductive select_event :=
| TimerFired
| Chunk (data written : string) (err : option string)
| PipeError (err : string)
| EndOfFile.

Inductive dump_status := DumpComplete | DumpTimedOut | DumpFailed (err : string).

Definition timeout_banner (serviceName : string) (timeout : Z) : string :=
  let nl := String newline "" in
  nl +:+ "*** SERVICE '" +:+ serviceName +:+ "' DUMP TIMEOUT (" +:+ pretty (Z.quot timeout Millisecond) +:+ "ms) EXPIRED ***" +:+ nl +:+ nl.

(** The timer fires at last, whatever the pipe does.  The bytes written are counted
    as the code counts them. *)
Fixpoint writeDump (serviceName : string) (timeout : Z) (asProto : bool) (events : list select_event) (bytesWritten : Z)
  : dump_status * Z * list tool_event :=
  match events with
  | [] | TimerFired :: _ =>
      (DumpTimedOut, bytesWritten, if asProto then [] else [Out (timeout_banner serviceName timeout)])
  | Chunk data written None :: events =>
      let '(st, n, l) := writeDump serviceName timeout asProto events (i64 (bytesWritten + Z.of_nat (String.length written))) in
      (st, n, Out written :: l)
  | Chunk data written (Some err) :: _ =>
      (DumpFailed err, i64 (bytesWritten + Z.of_nat (String.length written)),
       [Out written; ErrOut (line ("Failed to write while dumping service " +:+ serviceName +:+ ": " +:+ err))])
  | EndOfFile :: _ => (DumpComplete, bytesWritten, [])
  | PipeError err :: _ =>
      (DumpFailed err, bytesWritten, [ErrOut (line ("Failed to read while dumping service " +:+ serviceName +:+ ": " +:+ err))])
  end.

Definition writeDumpHeader (serviceName : string) (flags : Z) : list string :=
  [line "--------------------------------------------------------------------------------";
   if general_priority flags then line ("DUMP OF SERVICE " +:+ serviceName +:+ ":")
   else line ("DUMP OF SERVICE " +:+ priorityToString flags +:+ " " +:+ serviceName +:+ ":")].

Definition writeDumpFooter (serviceName : string) : string :=
  line ("--------- " +:+ elapsed_text serviceName +:+ "s was the duration of dumpsys " +:+ serviceName +:+ ", ending at: "
        +:+ now_text serviceName).

(** ** The command *)

(** The session's goroutine: the dump, and the end of the pipe.  Its effects stand
    before those of the reader. *)
Definition startDumpSession (types : Z) (serviceName : string) (args : list string) : TM W (option unit) :=
  service ← attempt (sm_CheckService sm ctx serviceName);
  match service with
  | inr e => err_out (line ("Error with service '" +:+ serviceName +:+ "' while resolving: " +:+ Error_string e));; mret None
  | inl None => err_out (line ("Can't find service: " +:+ serviceName));; mret None
  | inl (Some service) =>
      pipe ← attempt os_Pipe;
      match pipe with
      | inr e => err_out (line ("Failed to create pipe to dump service info for " +:+ serviceName +:+ ": " +:+ Error_string e));; mret None
      | inl (_, writer) =>
          dumpService serviceName service writer types args;;
          act (pipe_close writer);;
          mret (Some tt)
      end
  end.

(** The services, or an error. *)
Definition listServices (flags : Z) (asProto : bool) : TM W (list string + error) :=
  services ← attempt (sm_ListServices sm ctx flags);
  match services with
  | inr e => mret (inr e)
  | inl services =>
      let services := sort_strings services in
      if negb asProto then mret (inl services)
      else
        protoServices ← attempt (sm_ListServices sm ctx DumpProto);
        match protoServices with
        | inr e => mret (inr e)
        | inl protoServices => mret (inl (filter (λ name, name ∈ protoServices) services))
        end
  end.

(** A running service of the list. *)
Definition print_service (c : config) (name : string) : TM W unit :=
  service ← attempt (sm_CheckService sm ctx name);
  match service with
  | inl (Some _) => out (line ("  " +:+ name +:+ if isSkipped (skippedServices c) name then " (skipped)" else ""))
  | _ => mret tt
  end.

(** [schedule] gives what the select statement sees for each service. *)
Definition dump_one (schedule : string → list select_event) (c : config) (addSeparator : bool) (args : list string) (serviceName : string)
  : TM W unit :=
  if isSkipped (skippedServices c) serviceName then mret tt
  else
    session ← startDumpSession (dumpTypes c) serviceName args;
    match session with
    | None => mret tt
    | Some _ =>
        (if addSeparator then outs (writeDumpHeader serviceName (priorityFlags c)) else mret tt);;
        let '(status, _, printed) := writeDump serviceName (timeout c) (asProto c) (schedule serviceName) 0 in
        emit printed;;
        match status with
        | DumpTimedOut => out (timeout_banner serviceName (timeout c))
        | _ => mret tt
        end;;
        if addSeparator then out (writeDumpFooter serviceName) else mret tt
    end.

Definition Run (schedule : string → list select_event) (argv : list string) : TM W Z :=
  let '(c, code, errs) := parseArgs argv in
  err_outs errs;;
  if negb (code =? 0) || showHelp c then
    err_outs usage;;
    (if showHelp c then exit_with 0 else exit_with code)
  else
    found ← (if bool_decide (cfg_services c = []) || showListOnly c then
               l ← listServices (priorityFlags c) (asProto c);
               match l with
               | inr e => err_out (line ("dumpsys: Failed to list services: " +:+ Error_string e));; exit_with unavailableExitCode
               | inl l => mret (l, setServiceArgs (serviceArgs c) (asProto c) (priorityFlags c))
               end
             else mret (cfg_services c, serviceArgs c));
    let '(services, args) := found in
    let many := bool_decide (1 < length services)%nat in
    (if many || showListOnly c then out (line "Currently running services:");; for_each_do (print_service c) services else mret tt);;
    if showListOnly c then mret 0
    else for_each_do (dump_one schedule c many args) services;; mret 0.
End Dump.
