(* ===== verification/DumpsysProps.v ===== *)
(** * DumpsysProps: the arguments and the output of dumpsys

    Theorems on Dumpsys: the arguments that are accepted are those of a grammar, with
    the meaning it gives them; a dump is copied to the output byte for byte; and where
    the command misbehaves. *)

From stdpp Require Import base list numbers strings pretty gmap sorting.
From S2P Require Import Prelude Errors Parcel Stability Dispatch Services Aidl GoText BinderDebug Tools Dumpsys.

Open Scope Z_scope.

(** ** The grammar of the options *)

Inductive dump_option :=
| OList | OSkip | OProto
| OType (t : Z)
| OSeconds (v : string) | OMilliseconds (v : string)
| OPriority (p : Z).

Definition type_word (t : Z) : option string :=
  if t =? typeDump then Some "--dump" else if t =? typePID then Some "--pid" else if t =? typeStability then Some "--stability"
  else if t =? typeThread then Some "--thread" else if t =? typeClients then Some "--clients" else None.

Definition option_ok (o : dump_option) : Prop :=
  match o with
  | OType t => is_Some (type_word t)
  | OSeconds v | OMilliseconds v => ∃ n, Atoi v = Some n ∧ 0 < n
  | OPriority p => p ∈ [DumpPriorityCritical; DumpPriorityHigh; DumpPriorityNormal]
  | _ => True
  end.

Definition option_words (o : dump_option) : list string :=
  match o with
  | OList => ["-l"] | OSkip => ["--skip"] | OProto => ["--proto"]
  | OType t => [default "" (type_word t)]
  | OSeconds v => ["-t"; v] | OMilliseconds v => ["-T"; v]
  | OPriority p => ["--priority"; priorityToString p]
  end.

Definition apply_option (c : config) (o : dump_option) : config :=
  match o with
  | OList => set_list c | OSkip => set_skip c | OProto => set_proto c
  | OType t => add_type t c
  | OSeconds v => set_timeout (i64 (default 0 (Atoi v) * Second)) c
  | OMilliseconds v => set_timeout (i64 (default 0 (Atoi v) * Millisecond)) c
  | OPriority p => set_priority p c
  end.

(** What ends the options: nothing, or a word that is none. *)
Definition no_option (args : list string) : Prop :=
  match args with [] => True | a :: _ => String.prefix "-" a = false ∨ a = "-" end.

Lemma timeout_value_ok v n unit_ : Atoi v = Some n → 0 < n → timeout_value v unit_ = Some (i64 (n * unit_)).
Proof. intros H Hn. unfold timeout_value. rewrite H. cbn [mbind option_bind]. by rewrite leb_false by lia. Qed.

Lemma timeout_value_inv v unit_ t : timeout_value v unit_ = Some t → ∃ n, Atoi v = Some n ∧ 0 < n ∧ t = i64 (n * unit_).
Proof.
  unfold timeout_value. destruct (Atoi v) as [n|]; [|done]. cbn [mbind option_bind].
  destruct (n <=? 0) eqn:E; [done|]. apply Z.leb_gt in E. intros [= <-]. by exists n.
Qed.

Lemma priority_string p : p ∈ [DumpPriorityCritical; DumpPriorityHigh; DumpPriorityNormal] →
  priorityFromString (priorityToString p) = Some p.
Proof. rewrite !elem_of_cons, elem_of_nil. by intros [->|[->|[->|[]]]]. Qed.

Lemma priority_string_inv v p : priorityFromString v = Some p →
  p ∈ [DumpPriorityCritical; DumpPriorityHigh; DumpPriorityNormal] ∧ priorityToString p = v.
Proof.
  unfold priorityFromString. repeat case_bool_decide; intros [= <-]; subst; split; try done; rewrite !elem_of_cons; tauto.
Qed.

(** The options with a value. *)
Lemma parse_seconds v rest c t : timeout_value v Second = Some t →
  parse_options ("-t" :: v :: rest) c = parse_options rest (set_timeout t c).
Proof.
  intros H. change (parse_options ("-t" :: v :: rest) c) with
    (match timeout_value v Second with
     | Some t => parse_options rest (set_timeout t c)
     | None => inr (c, usageExitCode, [line ("Error: invalid timeout(seconds) number: '" +:+ v +:+ "'")])
     end). by rewrite H.
Qed.

Lemma parse_milliseconds v rest c t : timeout_value v Millisecond = Some t →
  parse_options ("-T" :: v :: rest) c = parse_options rest (set_timeout t c).
Proof.
  intros H. change (parse_options ("-T" :: v :: rest) c) with
    (match timeout_value v Millisecond with
     | Some t => parse_options rest (set_timeout t c)
     | None => inr (c, usageExitCode, [line ("Error: invalid timeout(milliseconds) number: '" +:+ v +:+ "'")])
     end). by rewrite H.
Qed.

Lemma parse_priority v rest c p : priorityFromString v = Some p →
  parse_options ("--priority" :: v :: rest) c = parse_options rest (set_priority p c).
Proof.
  intros H. change (parse_options ("--priority" :: v :: rest) c) with
    (match priorityFromString v with
     | Some p => parse_options rest (set_priority p c)
     | None => inr (c, usageExitCode, [])
     end). by rewrite H.
Qed.

(** One option is read as it is meant. *)
Lemma parse_option o rest c : option_ok o → parse_options (option_words o ++ rest) c = parse_options rest (apply_option c o).
Proof.
  destruct o as [| | |t|v|v|p]; cbn [option_ok option_words app]; intros Ho; try done.
  - destruct Ho as [w Hw]. rewrite Hw. unfold type_word in Hw.
    repeat (destruct (_ =? _) eqn:E in Hw; [apply Z.eqb_eq in E; injection Hw as <-; subst t; done|clear E]). done.
  - destruct Ho as (n & Hv & Hn). rewrite (parse_seconds v rest c _ (timeout_value_ok v n Second Hv Hn)).
    cbn [apply_option]. by rewrite Hv.
  - destruct Ho as (n & Hv & Hn). rewrite (parse_milliseconds v rest c _ (timeout_value_ok v n Millisecond Hv Hn)).
    cbn [apply_option]. by rewrite Hv.
  - by rewrite (parse_priority _ rest c p (priority_string p Ho)).
Qed.

Lemma parse_rest args c : no_option args → parse_options args c = inl (c, args).
Proof.
  destruct args as [|a args]; [done|]. cbn [no_option parse_options]. intros [-> | ->]; [done|]. done.
Qed.

(** Where the parse goes on after the first word. *)
Lemma parse_step a args c r : parse_options (a :: args) c = inl r →
  no_option (a :: args) ∧ r = (c, a :: args) ∨
  ∃ o rest, option_ok o ∧ a :: args = option_words o ++ rest ∧ parse_options rest (apply_option c o) = inl r.
Proof.
  intros H. cbn [parse_options] in H.
  destruct (negb (String.prefix "-" a) || bool_decide (a = "-")) eqn:Ea.
  { left. injection H as <-. split; [|done]. apply orb_true_iff in Ea as [Ea|Ea]; [left|right].
    - by apply negb_true_iff in Ea.
    - by apply bool_decide_eq_true in Ea. }
  right. clear Ea. case_bool_decide; [done|].
  case_bool_decide; [subst; by exists OList, args|]. case_bool_decide; [subst; by exists OSkip, args|].
  case_bool_decide; [subst; by exists OProto, args|]. case_bool_decide; [subst; exists (OType typeDump), args; by split; [eexists|]|].
  case_bool_decide; [subst; exists (OType typePID), args; by split; [eexists|]|].
  case_bool_decide; [subst; exists (OType typeStability), args; by split; [eexists|]|].
  case_bool_decide; [subst; exists (OType typeThread), args; by split; [eexists|]|].
  case_bool_decide; [subst; exists (OType typeClients), args; by split; [eexists|]|].
  case_bool_decide.
  { subst. destruct args as [|v args]; [done|]. destruct (timeout_value v Second) as [t|] eqn:E; [|done].
    apply timeout_value_inv in E as (n & Hv & Hn & ->). exists (OSeconds v), args. split; [by exists n|]. split; [done|].
    cbn [apply_option]. by rewrite Hv. }
  case_bool_decide.
  { subst. destruct args as [|v args]; [done|]. destruct (timeout_value v Millisecond) as [t|] eqn:E; [|done].
    apply timeout_value_inv in E as (n & Hv & Hn & ->). exists (OMilliseconds v), args. split; [by exists n|]. split; [done|].
    cbn [apply_option]. by rewrite Hv. }
  case_bool_decide; [|done]. subst. destruct args as [|v args]; [done|]. destruct (priorityFromString v) as [p|] eqn:E; [|done].
  apply priority_string_inv in E as [Hp Hv]. exists (OPriority p), args. split; [done|]. split; [cbn; by rewrite Hv|done].
Qed.

(** The options that are accepted are those of the grammar, in any order and number. *)
Lemma parse_options_grammar argv c c' rest : parse_options argv c = inl (c', rest) ↔
  ∃ opts, Forall option_ok opts ∧ argv = (opts ≫= option_words) ++ rest ∧ no_option rest ∧ c' = foldl apply_option c opts.
Proof.
  split.
  - remember (length argv) as n eqn:Hn. revert argv c Hn. induction (Nat.lt_wf_0 n) as [n _ IH]. intros argv c -> H.
    destruct argv as [|a args]; [injection H as <- <-; by exists []|].
    apply parse_step in H as [[Ha [= -> ->]]|(o & rest' & Ho & E & H)]; [by exists []|].
    destruct (IH (length rest')) with (argv := rest') (c := apply_option c o) as (opts & Hos & -> & Hr & ->); [|done..|].
    { rewrite E, length_app. destruct o; cbn; lia. }
    exists (o :: opts). split; [by constructor|]. split; [|done]. rewrite E. cbn. by rewrite app_assoc.
  - intros (opts & Hos & -> & Hr & ->). revert c. induction Hos as [|o opts Ho _ IH]; intros c; [by apply parse_rest|].
    cbn [mbind list_bind]. rewrite <- app_assoc, parse_option by done. apply IH.
Qed.

(** A parse that stops early has a failure code, unless it is for the help text. *)
Lemma parse_stops argv c c' code l : parse_options argv c = inr (c', code, l) →
  code = 0 ∧ showHelp c' = true ∨ code = usageExitCode.
Proof.
  remember (length argv) as n eqn:Hn. revert argv c Hn. induction (Nat.lt_wf_0 n) as [n _ IH]. intros argv c -> H.
  destruct argv as [|a args]; [done|].
  assert (IH' : ∀ c, parse_options args c = inr (c', code, l) → code = 0 ∧ showHelp c' = true ∨ code = usageExitCode)
    by (intros c0; apply (IH (length args)); cbn; auto with arith).
  assert (IH2 : ∀ v args' c, args = v :: args' → parse_options args' c = inr (c', code, l) →
            code = 0 ∧ showHelp c' = true ∨ code = usageExitCode)
    by (intros v args' c0 ->; apply (IH (length args')); cbn; auto with arith).
  cbn [parse_options] in H. destruct (_ || _); [done|]. case_bool_decide; [injection H as <- <- _; by left|].
  do 8 (case_bool_decide; [by eapply IH'|]).
  do 3 (case_bool_decide;
    [destruct args as [|v args']; [injection H as _ <- _; by right|];
     case_match; [by eapply IH2|injection H as _ <- _; by right]|]).
  injection H as _ <- _. by right.
Qed.

(** ** The arguments *)

Definition with_types (c : config) : config := if dumpTypes c =? 0 then set_types typeDump c else c.

(** The words after the options: services to skip, or a service and its arguments. *)
Definition with_rest (rest : list string) (c : config) : config :=
  if skipServices c then
    mkConfig (showHelp c) (showListOnly c) (skipServices c) (asProto c) (timeout c) (priorityFlags c) (dumpTypes c)
      (cfg_services c) (serviceArgs c) rest
  else
    match rest with
    | [] => c
    | service :: args =>
        mkConfig (showHelp c) (showListOnly c) (skipServices c) (asProto c || bool_decide ("--proto" ∈ args)) (timeout c)
          (priorityFlags c) (dumpTypes c) [service] args (skippedServices c)
    end.

Definition understood (opts : list dump_option) (rest : list string) : config :=
  with_rest rest (with_types (foldl apply_option initial_config opts)).

(** --skip names a service; -l comes alone. *)
Definition usable (c : config) : Prop :=
  (skipServices c = true → skippedServices c ≠ []) ∧
  (showListOnly c = true → cfg_services c = [] ∧ skippedServices c = []).

Definition fresh (c : config) : Prop :=
  showHelp c = false ∧ cfg_services c = [] ∧ serviceArgs c = [] ∧ skippedServices c = [].

Lemma fresh_options opts c : fresh c → fresh (foldl apply_option c opts).
Proof. revert c. induction opts as [|o opts IH]; intros c H; [done|]. apply IH. destruct o; exact H. Qed.

Lemma positional_skip rest c : skipServices c = true →
  positional rest c = mkConfig (showHelp c) (showListOnly c) (skipServices c) (asProto c) (timeout c) (priorityFlags c) (dumpTypes c)
    (cfg_services c) (serviceArgs c) (skippedServices c ++ rest).
Proof.
  revert c. induction rest as [|a rest IH]; intros c H; cbn [positional].
  - rewrite app_nil_r. by destruct c.
  - rewrite H, IH by done. cbn. by rewrite <- app_assoc.
Qed.

Lemma positional_args args c : skipServices c = false → cfg_services c ≠ [] →
  positional args c = mkConfig (showHelp c) (showListOnly c) (skipServices c) (asProto c || bool_decide ("--proto" ∈ args)) (timeout c)
    (priorityFlags c) (dumpTypes c) (cfg_services c) (serviceArgs c ++ args) (skippedServices c).
Proof.
  revert c. induction args as [|a args IH]; intros c H Hs; cbn [positional].
  - rewrite app_nil_r, bool_decide_eq_false_2, orb_false_r by by intros ?%elem_of_nil. by destruct c.
  - rewrite H, (bool_decide_eq_false_2 (cfg_services c = [])) by done. rewrite IH by done. cbn.
    rewrite <- app_assoc, <- orb_assoc. cbn [app]. f_equal. f_equal. rewrite <- bool_decide_or.
    apply bool_decide_ext. rewrite elem_of_cons. naive_solver.
Qed.

Lemma positional_rest rest c : fresh c → positional rest c = with_rest rest c.
Proof.
  intros (_ & Hs & Ha & Hk). unfold with_rest. destruct (skipServices c) eqn:E.
  - rewrite positional_skip, Hk, E by done. done.
  - destruct rest as [|s args]; [done|]. cbn [positional]. rewrite E, Hs, bool_decide_eq_true_2 by done.
    rewrite positional_args by done. cbn. by rewrite Ha.
Qed.

(** C34: the arguments that dumpsys accepts, and what it understands.  A run goes ahead
    exactly when the arguments are options of the grammar (-l, --skip, --proto, a kind
    of dump, a timeout that is a positive number, one of three priorities), in any
    order, followed by words of which the first is no option; and its configuration
    is the one the grammar gives them: after --skip all words are services to skip,
    otherwise the first is the service and the others are passed to it.  --skip needs
    a service, and -l allows none.  Anything else ends with the usage code or with
    the help. *)
Theorem dumpsys_arguments argv c code errs : parseArgs argv = (c, code, errs) →
  (code = 0 ∨ code = usageExitCode) ∧
  (code = 0 ∧ showHelp c = false ↔
   ∃ opts rest, Forall option_ok opts ∧ argv = (opts ≫= option_words) ++ rest ∧ no_option rest ∧
     c = understood opts rest ∧ usable c ∧ errs = []).
Proof.
  intros H. unfold parseArgs in H. destruct (parse_options argv initial_config) as [[c0 rest]|[[c0 code0] l]] eqn:E.
  2: { injection H as -> -> ->. split; [destruct (parse_stops _ _ _ _ _ E) as [[? _]|?]; auto|]. split.
       - intros [-> Hh]. destruct (parse_stops _ _ _ _ _ E) as [[_ Hx]|Hx]; [congruence|discriminate Hx].
       - intros (opts & rest & Ho & Ha & Hn & _).
         assert (E' := proj2 (parse_options_grammar argv initial_config _ rest) (ex_intro _ opts (conj Ho (conj Ha (conj Hn eq_refl))))).
         congruence. }
  apply parse_options_grammar in E as (opts & Ho & Ha & Hn & ->). fold (with_types (foldl apply_option initial_config opts)) in H.
  assert (Hf : fresh (with_types (foldl apply_option initial_config opts))).
  { unfold with_types. destruct (_ =? _); apply (fresh_options opts initial_config); done. }
  rewrite positional_rest in H by done. fold (understood opts rest) in H.
  assert (Hh : showHelp (understood opts rest) = false).
  { unfold understood, with_rest. destruct Hf as [Hf _].
    destruct (skipServices (with_types _)); [exact Hf|]. destruct rest; exact Hf. }
  set (bad := _ || _) in H. assert (Hbad : bad = false ↔ usable (understood opts rest)).
  { unfold bad, usable. set (u := understood opts rest). clearbody u. clear.
    destruct (skipServices u), (showListOnly u); cbn [andb orb]; repeat case_bool_decide; cbn; split; try done.
    all: try (intros [? ?]; tauto). all: try (intros _; tauto). }
  clearbody bad. destruct bad; injection H as <- <- <-.
  - split; [by right|]. split; [by intros [? _]|]. intros (opts' & rest' & Ho' & Ha' & Hn' & E & Hu & _).
    rewrite <- Hbad in Hu. done.
  - split; [by left|]. split; [intros _|done]. exists opts, rest. split_and!; try done. by apply Hbad.
Qed.

Lemma dumpsys_arguments_witness :
  ∃ c, parseArgs ["-t"; "5"; "--pid"; "--proto"; "activity"; "-a"] = (c, 0, []) ∧
    timeout c = 5 * Second ∧ cfg_services c = ["activity"] ∧ serviceArgs c = ["-a"] ∧
    ∃ opts rest, Forall option_ok opts ∧ rest = ["activity"; "-a"] ∧ c = understood opts rest.
Proof.
  destruct (parseArgs ["-t"; "5"; "--pid"; "--proto"; "activity"; "-a"]) as [[c code] errs] eqn:E. exists c.
  destruct (dumpsys_arguments _ c code errs E) as [_ [H _]].
  assert (Ec : code = 0 ∧ errs = [] ∧ showHelp c = false ∧ timeout c = 5 * Second ∧ cfg_services c = ["activity"] ∧ serviceArgs c = ["-a"])
    by (vm_compute in E; injection E as <- <- <-; split_and!; reflexivity).
  destruct Ec as (-> & -> & Hh & Ht & Hs & Ha). destruct (H (conj eq_refl Hh)) as (opts & rest & Ho & Hw & Hn & Hc & _).
  split_and!; [reflexivity|done..|]. exists opts, rest. split_and!; [exact Ho| |exact Hc].
  rewrite Hc in Hs, Ha. unfold understood, with_rest in Hs, Ha.
  destruct (skipServices _); [|destruct rest as [|s args]; cbn in Hs, Ha; [|by simplify_eq]].
  all: exfalso.
  all: destruct (fresh_options opts initial_config) as (_ & Hs' & _); [done|].
  all: unfold with_types in Hs; destruct (_ =? _) in Hs; cbn in Hs; congruence.
Defined.

(** ** Timeouts *)

(** A timeout is the number given as long as it fits a duration: 292 years. *)
Lemma timeout_exact v n : Atoi v = Some n → 0 < n → (timeout_value v Second = Some (n * Second) ↔ n <= 9223372036).
Proof.
  intros Hv Hn. rewrite (timeout_value_ok v n) by done. unfold Second, i64. split.
  - intros [= H]. pose proof (wraps_range 64 (n * 1000000000) ltac:(lia)) as Hr. rewrite H in Hr. unfold in_s in Hr. cbn in Hr. lia.
  - intros H. rewrite wraps_id; [done|lia|]. unfold in_s. cbn. lia.
Qed.

(** A defect: a larger one wraps around: the dump times out before it has begun. *)
Example timeout_wraps :
  (timeout (fst (fst (parseArgs ["-t"; "9223372037"; "activity"]))) <? 0) = true ∧
  snd (fst (parseArgs ["-t"; "9223372037"; "activity"])) = 0.
Proof. by vm_compute. Qed.

(** ** The copy of a dump *)

(** Bytes from the pipe that the output takes, then whatever comes after. *)
Lemma writeDump_chunks name t proto chunks rest n :
  ∃ m, writeDump name t proto (((λ d, Chunk d d None) <$> chunks) ++ rest) n =
    let '(st, k, l) := writeDump name t proto rest m in (st, k, (Out <$> chunks) ++ l).
Proof.
  revert n. induction chunks as [|d chunks IH]; intros n; cbn [fmap list_fmap app writeDump].
  - exists n. by destruct (writeDump name t proto rest n) as [[? ?] ?].
  - destruct (IH (i64 (n + Z.of_nat (String.length d)))) as [m E]. exists m. rewrite E.
    by destruct (writeDump name t proto rest m) as [[? ?] ?].
Qed.

Section Sessions.
Context {W B : Type} `{!BinderMarshal W B} `{TB : !ToolBinder W B} `{LF : !LogFiles}.
Context (log_error_text : debug_error → string) (getpid : Z) (os_Pipe : @HM W (Z * Z))
  (pipe_write : Z → string → @HM W unit) (pipe_close : Z → W → W) (elapsed_text now_text : string → string).
Context (ctx : context) (sm : ServiceManager W B) (debugReader : Reader).

Abbreviation start := (startDumpSession log_error_text getpid os_Pipe pipe_write pipe_close ctx sm debugReader).
Abbreviation dump := (dump_one log_error_text getpid os_Pipe pipe_write pipe_close elapsed_text now_text ctx sm debugReader).

(** The frame around a dump of several services. *)
Definition framed (c : config) (many : bool) (name : string) (l : list tool_event) : list tool_event :=
  if many then (Out <$> writeDumpHeader name (priorityFlags c)) ++ l ++ [Out (writeDumpFooter elapsed_text now_text name)] else l.

Lemma dump_started schedule c many args name w w' l : isSkipped (skippedServices c) name = false →
  start (dumpTypes c) name args w = (Ok (Some tt), w', l) →
  let '(st, _, printed) := writeDump name (timeout c) (asProto c) (schedule name) 0 in
  dump schedule c many args name w =
    (Ok tt, w', l ++ framed c many name (printed ++ match st with DumpTimedOut => [Out (timeout_banner name (timeout c))] | _ => [] end)).
Proof.
  intros Hs Hst. destruct (writeDump _ _ _ _ _) as [[st n] printed] eqn:E. unfold dump_one. rewrite Hs.
  rewrite (tm_bind_ok _ _ _ _ _ _ Hst), E. unfold framed.
  unfold mbind, TM_bind, outs, emit, out, mret, TM_ret.
  destruct many, st; cbn; by rewrite ?app_nil_r, <- ?app_assoc.
Qed.

(** A dump that ends in time is copied to the output as it came through the pipe. *)
Theorem dump_copied schedule c many args name chunks rest w w' l :
  isSkipped (skippedServices c) name = false → start (dumpTypes c) name args w = (Ok (Some tt), w', l) →
  schedule name = ((λ d, Chunk d d None) <$> chunks) ++ EndOfFile :: rest →
  dump schedule c many args name w = (Ok tt, w', l ++ framed c many name (Out <$> chunks)).
Proof.
  intros Hs Hst He. pose proof (dump_started schedule c many args name w w' l Hs Hst) as H. rewrite He in H.
  destruct (writeDump_chunks name (timeout c) (asProto c) chunks (EndOfFile :: rest) 0) as [m E]. rewrite E in H.
  cbn [writeDump] in H. by rewrite !app_nil_r in H.
Qed.

(** A defect: both writeDump and its caller print that a dump timed out, so the message
    appears twice, and once in the middle of protocol buffers that writeDump meant to
    keep it out of. *)
Theorem timeout_reported_twice schedule c many args name chunks rest w w' l :
  isSkipped (skippedServices c) name = false → start (dumpTypes c) name args w = (Ok (Some tt), w', l) →
  schedule name = ((λ d, Chunk d d None) <$> chunks) ++ TimerFired :: rest →
  let banner := Out (timeout_banner name (timeout c)) in
  dump schedule c many args name w =
    (Ok tt, w', l ++ framed c many name ((Out <$> chunks) ++ if asProto c then [banner] else [banner; banner])).
Proof.
  intros Hs Hst He banner. pose proof (dump_started schedule c many args name w w' l Hs Hst) as H. rewrite He in H.
  destruct (writeDump_chunks name (timeout c) (asProto c) chunks (TimerFired :: rest) 0) as [m E]. rewrite E in H.
  cbn [writeDump] in H. rewrite <- app_assoc in H. rewrite H. by destruct (asProto c).
Qed.
End Sessions.
