(* ===== verification/ServiceTool.v ===== *)
(** * ServiceTool: the service command

    Models src/cmd/service/run.go: listing and checking services, and calling one with
    arguments from the command line.  Opening files and parsing floating point
    numbers are parameters. *)

From stdpp Require Import base list numbers strings pretty.
From S2P Require Import Prelude Errors Parcel Stability Dispatch Services Aidl GoText Tools.

Open Scope Z_scope.

Definition usage_code : Z := 10.
Definition unavailable_code : Z := 20.

Definition printUsage : list string := line <$>
  ["usage: service [-h|-?]"; "       service list"; "       service check SERVICE";
   "       service call SERVICE CODE [i32 N | i64 N | f N | d N | s16 STR | null | fd FILE | nfd FD | afd FILE | intent KEY=VALUE ...]";
   "";
   "intent keys: action=..., data=..., type=..., launchFlags=..., component=..., categories=a,b,c"].

(** ** Printing a Parcel *)

(** The lines of hex.Dump: offset, 16 bytes in two groups, the bytes as characters. *)
Definition hex2 (b : Z) : string := hex_digit (b / 16) +:+ hex_digit (b mod 16).
Definition hex8 (n : Z) : string :=
  hex2 (n / 16777216 mod 256) +:+ hex2 (n / 65536 mod 256) +:+ hex2 (n / 256 mod 256) +:+ hex2 (n mod 256).
Definition dump_char (b : Z) : Ascii.ascii := if (b <? 32) || (126 <? b) then dot else Ascii.ascii_of_nat (Z.to_nat b).

Definition hex_column (bs : list Z) (i : nat) : string :=
  match bs !! i with Some b => hex2 b | None => "  " end +:+ " " +:+ (if bool_decide (i = 7%nat) || bool_decide (i = 15%nat) then " " else "").

Definition hex_line (offset : Z) (bs : list Z) : string :=
  hex8 offset +:+ "  " +:+ Join (hex_column bs <$> List.seq 0 16) "" +:+ "|" +:+ of_chars (dump_char <$> bs) +:+ "|".

Fixpoint hex_lines (fuel : nat) (offset : Z) (bs : list Z) : list string :=
  match fuel, bs with
  | S fuel, _ :: _ => hex_line offset (take 16 bs) :: hex_lines fuel (offset + 16) (drop 16 bs)
  | _, _ => []
  end.

Definition objectKindString (k : ObjectKind) : string :=
  match k with
  | ObjectNullBinder => "null-binder" | ObjectStrongBinder => "strong-binder" | ObjectWeakBinder => "weak-binder"
  | ObjectFileDescriptor => "file-descriptor"
  end.

Definition object_line (i : nat) (o : ParcelObject) : string :=
  line ("    [" +:+ pretty i +:+ "] kind=" +:+ objectKindString (obj_Kind o) +:+ " offset=" +:+ pretty (obj_Offset o) +:+ " length="
        +:+ pretty (obj_Length o) +:+ " handle=" +:+ pretty (obj_Handle o) +:+ " stability=" +:+ Stability_String (obj_Stability o)).

(** ** Intents *)

Record intentArgs := mkIntent {
  in_action : option string; in_data : option string; in_mimeType : option string; in_launchFlags : Z; in_component : option string;
  in_categories : list string;
}.

Definition no_intent : intentArgs := mkIntent None None None 0 None [].

(** strconv.ParseInt(value, 0, 32). *)
Definition ParseFlags (value : string) : option Z :=
  n ← ParseInt0 value; if (- 2 ^ 31 <=? n) && (n <? 2 ^ 31) then Some n else None.

Definition comma : Ascii.ascii := Ascii.ascii_of_nat 44.
Definition equals : Ascii.ascii := Ascii.ascii_of_nat 61.

Definition set_intent (key value : string) (i : intentArgs) : option intentArgs :=
  if bool_decide (key = "action") then
    Some (mkIntent (Some value) (in_data i) (in_mimeType i) (in_launchFlags i) (in_component i) (in_categories i))
  else if bool_decide (key = "data") then
    Some (mkIntent (in_action i) (Some value) (in_mimeType i) (in_launchFlags i) (in_component i) (in_categories i))
  else if bool_decide (key = "type") then
    Some (mkIntent (in_action i) (in_data i) (Some value) (in_launchFlags i) (in_component i) (in_categories i))
  else if bool_decide (key = "launchFlags") then
    parsed ← ParseFlags value;
    Some (mkIntent (in_action i) (in_data i) (in_mimeType i) parsed (in_component i) (in_categories i))
  else if bool_decide (key = "component") then
    Some (mkIntent (in_action i) (in_data i) (in_mimeType i) (in_launchFlags i) (Some value) (in_categories i))
  else if bool_decide (key = "categories") then
    Some (mkIntent (in_action i) (in_data i) (in_mimeType i) (in_launchFlags i) (in_component i)
            (if bool_decide (value = "") then [] else split_char comma value))
  else Some i.

(** [inr]: the launchFlags value that does not parse. *)
Fixpoint parseIntentArgs (args : list string) (i : intentArgs) : intentArgs + string :=
  match args with
  | [] => inl i
  | arg :: args =>
      match cut_char equals arg with
      | None => parseIntentArgs args i
      | Some (key, value) => match set_intent key value i with Some i => parseIntentArgs args i | None => inr value end
      end
  end.

(** Files: opening (the descriptor), temporary files (the descriptor and the name),
    copying, seeking to the start, removing; whether an error is os.ErrNotExist. *)
Class FileOps (W : Type) := {
  os_Open : string → @HM W Z;
  os_CreateTemp : @HM W (Z * string);
  io_Copy : Z → Z → @HM W unit;
  seek_start : Z → @HM W unit;
  os_Remove : string → @HM W unit;
  is_ErrNotExist : error → bool;
  close_file : Z → W → W;
  syscall_Close : Z → W → W;
}.

(** What a call closes when it is over: an open file, or a descriptor that was given
    by number. *)
Inductive closer := CloseFile (fd : Z) | CloseFD (fd : Z).

Section Call.
Context {W B : Type} `{!BinderMarshal W B} `{TB : !ToolBinder W B} `{FO : !FileOps W}.
(** strconv.ParseFloat at 32 or 64 bits: the bits of the number. *)
Context (ParseFloat : Z → string → option Z).
Context (ctx : context) (sm : ServiceManager W B).

Definition formatParcel (p : option (Parcel W B)) : string :=
  match p with
  | None => "<nil>"
  | Some _ =>
      let payload := default [] (Bytes p) in
      let objects := default [] (Objects p) in
      "Parcel{size=" +:+ pretty (len payload) +:+ ", objects=" +:+ pretty (len objects) +:+
      if bool_decide (payload = []) && bool_decide (objects = []) then "}"
      else
        (if bool_decide (payload = []) then ""
         else String newline (line "  data:" +:+ Join ((λ l, line ("    " +:+ l)) <$> hex_lines (length payload) 0 payload) "")) +:+
        (if bool_decide (objects = []) then line "  objects: []"
         else line "  objects:" +:+ Join (imap object_line objects) "") +:+ "}"
  end.

Definition writeIntentArgs (i : intentArgs) : PM W B unit :=
  WriteNullableString (in_action i);;
  WriteNullableString (in_data i);;
  WriteNullableString (in_mimeType i);;
  WriteInt32 (in_launchFlags i);;
  WriteNullableString (in_component i);;
  WriteInt32 (i32 (len (in_categories i)));;
  Slices.write_elems WriteString (in_categories i);;
  WriteInt32 (-1).

(** A copy of a file without a name. *)
Definition openAnonymousFile (path : string) : @HM W Z := λ w,
  match os_Open path w with
  | (Err e, w1) => (Err e, w1)
  | (Panic y, w1) => (Panic y, w1)
  | (Ok src, w1) =>
      let '(r, w2) :=
        match os_CreateTemp w1 with
        | (Err e, w2) => (Err e, w2)
        | (Panic y, w2) => (Panic y, w2)
        | (Ok (tmp, name), w2) =>
            let discard e w := let '(_, w) := os_Remove name (close_file tmp w) in (Err e, w) in
            match io_Copy tmp src w2 with
            | (Err e, w3) => discard e w3
            | (Panic y, w3) => (Panic y, w3)
            | (Ok _, w3) =>
                match seek_start tmp w3 with
                | (Err e, w4) => discard e w4
                | (Panic y, w4) => (Panic y, w4)
                | (Ok _, w4) =>
                    match os_Remove name w4 with
                    | (Err e, w5) => if is_ErrNotExist e then (Ok tmp, w5) else (Err e, close_file tmp w5)
                    | (Panic y, w5) => (Panic y, w5)
                    | (Ok _, w5) => (Ok tmp, w5)
                    end
                end
            end
        end in
      (r, close_file src w2)
  end.

(** ** Arguments *)

(** The state of the encoder, and how it ends: [Err tt] is an error that was reported. *)
Record encoder := mkEncoder { en_parcel : pst W B; en_closers : list closer }.

Definition EM (A : Type) : Type := encoder → result unit A * encoder * list tool_event.
#[local] Instance EM_ret : MRet EM := λ A a s, (Ok a, s, []).
#[local] Instance EM_bind : MBind EM := λ A C k m s,
  match m s with
  | (Ok a, s1, l1) => let '(r, s2, l2) := k a s1 in (r, s2, l1 ++ l2)
  | (Err e, s1, l1) => (Err e, s1, l1)
  | (Panic y, s1, l1) => (Panic y, s1, l1)
  end.

Definition stop_encoding {A} (l : list tool_event) : EM A := λ s, (Err tt, s, l).

(** A mistake on the command line. *)
Definition bad_usage {A} (msg : string) : EM A := stop_encoding (ErrOut (line msg) :: (Out <$> printUsage)).

(** A write to the Parcel. *)
Definition encode_write (what : string) (m : PM W B unit) : EM unit := λ s,
  match m (en_parcel s) with
  | (Ok _, p) => (Ok tt, mkEncoder p (en_closers s), [])
  | (Err e, p) => (Err tt, mkEncoder p (en_closers s), [ErrOut (line ("service: Failed to encode " +:+ what +:+ ": " +:+ Error_string e))])
  | (Panic y, p) => (Panic y, mkEncoder p (en_closers s), [])
  end.

(** An operation on files. *)
Definition file_step {A} (m : @HM W A) (failed : string) : EM A := λ s,
  match m (world (en_parcel s)) with
  | (Ok a, w) => (Ok a, mkEncoder (mkst (ptr (en_parcel s)) w) (en_closers s), [])
  | (Err e, w) => (Err tt, mkEncoder (mkst (ptr (en_parcel s)) w) (en_closers s), [ErrOut (line (failed +:+ ": " +:+ Error_string e))])
  | (Panic y, w) => (Panic y, mkEncoder (mkst (ptr (en_parcel s)) w) (en_closers s), [])
  end.

Definition defer_close (c : closer) : EM unit := λ s, (Ok tt, mkEncoder (en_parcel s) (en_closers s ++ [c]), []).

(** The types with a value that is only parsed and written. *)
Definition scalar (ty v : string) : option (option (PM W B unit)) :=
  if bool_decide (ty = "i32") then Some (WriteInt32 <$> ParseInt10 32 v)
  else if bool_decide (ty = "i64") then Some (WriteInt64 <$> ParseInt10 64 v)
  else if bool_decide (ty = "f") then Some (WriteFloat32 <$> ParseFloat 32 v)
  else if bool_decide (ty = "d") then Some (WriteFloat64 <$> ParseFloat 64 v)
  else if bool_decide (ty = "s16") then Some (Some (WriteString v))
  else None.

(** One type that takes a value. *)
Definition encode_value (ty v : string) : EM unit :=
  match scalar ty v with
  | Some (Some m) => encode_write ty m
  | Some None => bad_usage ("service: Invalid " +:+ ty +:+ " value " +:+ Quote v)
  | None =>
      if bool_decide (ty = "fd") then
        fd ← file_step (os_Open v) ("service: Failed to open " +:+ v);
        defer_close (CloseFile fd);;
        encode_write "fd" (WriteFileDescriptor (NewFileDescriptor fd))
      else if bool_decide (ty = "nfd") then
        match Atoi v with
        | Some fd =>
            if fd <? 0 then bad_usage ("service: Invalid nfd value " +:+ Quote v)
            else encode_write "nfd" (WriteFileDescriptor (NewFileDescriptor fd));; defer_close (CloseFD fd)
        | None => bad_usage ("service: Invalid nfd value " +:+ Quote v)
        end
      else
        fd ← file_step (openAnonymousFile v) ("service: Failed to create anonymous fd from " +:+ v);
        defer_close (CloseFile fd);;
        encode_write "afd" (WriteFileDescriptor (NewFileDescriptor fd))
  end.

Definition value_types : list string := ["i32"; "i64"; "f"; "d"; "s16"; "fd"; "nfd"; "afd"].

Fixpoint encodeCallArgs (args : list string) : EM unit :=
  match args with
  | [] => mret tt
  | ty :: args =>
      if bool_decide (ty = "null") then encode_write "null binder" WriteNullStrongBinder;; encodeCallArgs args
      else if bool_decide (ty = "intent") then
        match parseIntentArgs args no_intent with
        | inl intent => encode_write "intent" (writeIntentArgs intent)
        | inr value => bad_usage ("service: Invalid intent launchFlags " +:+ Quote value)
        end
      else if bool_decide (ty ∈ value_types) then
        match args with
        | [] => bad_usage ("service: Missing value for " +:+ ty)
        | v :: args => encode_value ty v;; encodeCallArgs args
        end
      else bad_usage ("service: Unknown argument type " +:+ ty)
  end.

(** The deferred closes, the last first. *)
Definition cleanup (closers : list closer) (w : W) : W :=
  foldl (λ w c, match c with CloseFile fd => close_file fd w | CloseFD fd => syscall_Close fd w end) w (reverse closers).

(** ** Commands *)

Definition runList : TM W Z :=
  services ← attempt (sm_ListServices sm ctx DumpPriorityAll);
  match services with
  | inr e => err_out (line ("service: Failed to list services: " +:+ Error_string e));; mret unavailable_code
  | inl services =>
      out (line ("Found " +:+ pretty (length services) +:+ " services:"));;
      for_each_do (λ '(i, name),
        service ← attempt (sm_CheckService sm ctx name);
        descriptor ← match service with
                     | inl (Some service) => d ← attempt (tb_Descriptor service ctx); mret (match d with inl d => d | inr _ => "" end)
                     | _ => mret ""
                     end;
        out (line (pretty i +:+ String (Ascii.ascii_of_nat 9) (name +:+ ": [" +:+ descriptor +:+ "]")))) (imap pair services);;
      mret 0
  end.

Definition runCheck (args : list string) : TM W Z :=
  match args with
  | [] => err_out (line "service: No service specified for check");; outs printUsage;; mret usage_code
  | name :: _ =>
      service ← attempt (sm_CheckService sm ctx name);
      match service with
      | inr e => err_out (line ("service: Failed to check " +:+ name +:+ ": " +:+ Error_string e));; mret unavailable_code
      | inl s =>
          out (line ("Service " +:+ name +:+ ": " +:+ match s with Some _ => "found" | None => "not found" end));; mret 0
      end
  end.

(** The Transact of a call whose request is built; the closes run at the end. *)
Definition finish_call (service : B) (code : Z) (s : encoder) : TM W Z := λ w,
  let '(r, w1, l) :=
    (reply ← attempt (tb_Transact service (Some ctx) code (ptr (en_parcel s)) FlagNone);
     match reply with
     | inr e => err_out (line ("service: Transaction failed: " +:+ Error_string e));; mret unavailable_code
     | inl reply => out (line ("Result: " +:+ formatParcel reply));; mret 0
     end) w in
  (r, cleanup (en_closers s) w1, l).

Definition send_call (service : B) (descriptor : string) (code : Z) (args : list string) : TM W Z := λ w,
  match WriteInterfaceToken descriptor (mkst (Some NewParcel) w) with
  | (Err e, s) => (Ok unavailable_code, world s, [ErrOut (line ("service: Failed to write interface token: " +:+ Error_string e))])
  | (Panic y, s) => (Panic y, world s, [])
  | (Ok _, s) =>
      match encodeCallArgs args (mkEncoder s []) with
      | (Err _, s, l) => (Ok usage_code, cleanup (en_closers s) (world (en_parcel s)), l)
      | (Panic y, s, l) => (Panic y, world (en_parcel s), l)
      | (Ok _, s, l) => let '(r, w', l') := finish_call service code s (world (en_parcel s)) in (r, w', l ++ l')
      end
  end.

Definition runCall (args : list string) : TM W Z :=
  match args with
  | [] => err_out (line "service: No service specified for call");; outs printUsage;; mret usage_code
  | [_] => err_out (line "service: No code specified for call");; outs printUsage;; mret usage_code
  | serviceName :: codeText :: args =>
      match ParseUint10 32 codeText with
      | None => err_out (line ("service: Invalid transaction code " +:+ Quote codeText));; outs printUsage;; mret usage_code
      | Some code =>
          service ← attempt (sm_CheckService sm ctx serviceName);
          match service with
          | inr e => err_out (line ("service: Failed to resolve " +:+ serviceName +:+ ": " +:+ Error_string e));; mret unavailable_code
          | inl None => err_out (line ("Service " +:+ serviceName +:+ " does not exist"));; mret usage_code
          | inl (Some service) =>
              descriptor ← attempt (tb_Descriptor service ctx);
              match descriptor with
              | inr e =>
                  err_out (line ("service: Failed to resolve descriptor for " +:+ serviceName +:+ ": " +:+ Error_string e));;
                  mret unavailable_code
              | inl descriptor =>
                  if bool_decide (descriptor = "") then err_out (line ("Service " +:+ serviceName +:+ " does not exist"));; mret usage_code
                  else send_call service descriptor code args
              end
          end
      end
  end.

(** The arguments, whether the usage is wanted, and its code. *)
Definition parseGlobalOptions (argv : list string) : list string * bool * Z * list string :=
  match argv with
  | arg :: rest =>
      if String.prefix "-" arg then
        if bool_decide (arg ∈ ["-h"; "-?"]) then (rest, true, 0, [])
        else (rest, true, usage_code, [line ("service: Unknown option " +:+ arg)])
      else (argv, false, 0, [])
  | [] => ([], false, 0, [])
  end.

Definition service_Run (argv : list string) : TM W Z :=
  let '(args, wantsUsage, usageCode, errs) := parseGlobalOptions argv in
  err_outs errs;;
  match args with
  | [] => outs printUsage;; mret usageCode
  | cmd :: rest =>
      if wantsUsage then outs printUsage;; mret usageCode
      else if bool_decide (cmd = "list") then runList
      else if bool_decide (cmd = "check") then runCheck rest
      else if bool_decide (cmd = "call") then runCall rest
      else err_out (line ("service: Unknown command " +:+ cmd));; outs printUsage;; mret usage_code
  end.
End Call.
