(* ===== verification/ServiceToolProps.v ===== *)
(** * ServiceToolProps: the arguments of service call

    What is typed after "service call" is what the service reads. *)

From stdpp Require Import base list numbers strings pretty.
From S2P Require Import Prelude Errors Unicode Parcel ParcelFacts Codec ObjectCodec Fields Slices Stability Dispatch Services Aidl GoText Tools ServiceTool.

Open Scope Z_scope.

(** ** Typed arguments *)

Inductive call_arg :=
| AInt32 (n : Z) | AInt64 (n : Z)
| AFloat32 (v : string) (bits : Z) | AFloat64 (v : string) (bits : Z)
| AString (s : string)
| ANull.

Definition arg_words (a : call_arg) : list string :=
  match a with
  | AInt32 n => ["i32"; pretty n] | AInt64 n => ["i64"; pretty n]
  | AFloat32 v _ => ["f"; v] | AFloat64 v _ => ["d"; v]
  | AString s => ["s16"; s]
  | ANull => ["null"]
  end.

Definition arg_field (a : call_arg) : field :=
  match a with
  | AInt32 _ => FInt32 | AInt64 _ => FInt64 | AFloat32 _ _ => FFloat32 | AFloat64 _ _ => FFloat64 | AString _ => FString | ANull => FHandle
  end.

Definition arg_value (a : call_arg) : field_type (arg_field a) :=
  match a with
  | AInt32 n => n | AInt64 n => n | AFloat32 _ bits => bits | AFloat64 _ bits => bits | AString s => s | ANull => None
  end.

(** The fields of an intent. *)
Fixpoint category_fields (categories : list string) : list field :=
  match categories with [] => [FInt32] | _ :: l => FString :: category_fields l end.
Fixpoint category_values (categories : list string) : record_type (category_fields categories) :=
  match categories with [] => (-1, tt) | c :: l => (c, category_values l) end.

Definition intent_fields (i : intentArgs) : list field :=
  FNullableString :: FNullableString :: FNullableString :: FInt32 :: FNullableString :: FInt32 :: category_fields (in_categories i).
Definition intent_values (i : intentArgs) : record_type (intent_fields i) :=
  (in_action i, (in_data i, (in_mimeType i, (in_launchFlags i, (in_component i, (i32 (len (in_categories i)),
   category_values (in_categories i))))))).

(** The arguments of a call, and an intent that may come last. *)
Fixpoint call_fields (args : list call_arg) (last : option intentArgs) : list field :=
  match args with
  | [] => match last with None => [] | Some i => intent_fields i end
  | a :: l => arg_field a :: call_fields l last
  end.
Fixpoint call_values (args : list call_arg) (last : option intentArgs) : record_type (call_fields args last) :=
  match args with
  | [] => match last with None => tt | Some i => intent_values i end
  | a :: l => (arg_value a, call_values l last)
  end.

Section Arguments.
Context {W B : Type} `{!BinderMarshal W B} `{TB : !ToolBinder W B} `{FO : !FileOps W}.
Context (ParseFloat : Z → string → option Z).

Definition arg_ok (a : call_arg) : Prop :=
  match a with
  | AInt32 n => in_s 32 n | AInt64 n => in_s 64 n
  | AFloat32 v bits => ParseFloat 32 v = Some bits ∧ in_u 32 bits
  | AFloat64 v bits => ParseFloat 64 v = Some bits ∧ in_u 64 bits
  | AString s => string_ok s
  | ANull => True
  end.

(** The words of an intent. *)
Definition last_words (kvs : option (list string)) : list string := match kvs with None => [] | Some kvs => "intent" :: kvs end.
Definition last_means (kvs : option (list string)) (last : option intentArgs) : Prop :=
  match kvs, last with
  | None, None => True
  | Some kvs, Some i => parseIntentArgs kvs no_intent = inl i
  | _, _ => False
  end.

(** A step of the encoder that writes to the Parcel. *)
Lemma encode_ok what (m : PM W B unit) p p' cl : m p = (Ok tt, p') →
  encode_write what m (mkEncoder p cl) = (Ok tt, mkEncoder p' cl, []).
Proof. intros H. unfold encode_write. cbn [en_parcel en_closers]. by rewrite H. Qed.

(** One argument. *)
Lemma encode_arg a rest (p p' : pst W B) cl : arg_ok a → c_write (Codec := field_codec (arg_field a)) (arg_value a) p = (Ok tt, p') →
  encodeCallArgs ParseFloat (arg_words a ++ rest) (mkEncoder p cl) = encodeCallArgs ParseFloat rest (mkEncoder p' cl).
Proof.
  assert (Hv : ∀ ty v m, ty ≠ "null" → ty ≠ "intent" → ty ∈ value_types → scalar ParseFloat ty v = Some (Some m) →
            m p = (Ok tt, p') →
            encodeCallArgs ParseFloat (ty :: v :: rest) (mkEncoder p cl) = encodeCallArgs ParseFloat rest (mkEncoder p' cl)).
  { intros ty v m H1 H2 H3 Hs Hm. cbn [encodeCallArgs]. rewrite !bool_decide_eq_false_2, bool_decide_eq_true_2 by done.
    unfold encode_value. rewrite Hs. unfold mbind, EM_bind. rewrite (encode_ok ty m p p' cl Hm).
    by destruct (encodeCallArgs _ rest _) as [[? ?] ?]. }
  destruct a as [n|n|v bits|v bits|s|]; cbn [arg_ok arg_words arg_field arg_value app]; intros Ho Hw.
  - eapply (Hv "i32"); [done|done|by apply (bool_decide_unpack _)| |exact Hw].
    change (Some (WriteInt32 (W := W) (B := B) <$> ParseInt10 32 (pretty n)) = Some (Some (WriteInt32 n))).
    by rewrite ParseInt10_pretty.
  - eapply (Hv "i64"); [done|done|by apply (bool_decide_unpack _)| |exact Hw].
    change (Some (WriteInt64 (W := W) (B := B) <$> ParseInt10 64 (pretty n)) = Some (Some (WriteInt64 n))).
    by rewrite ParseInt10_pretty.
  - eapply (Hv "f"); [done|done|by apply (bool_decide_unpack _)| |exact Hw].
    change (Some (WriteFloat32 (W := W) (B := B) <$> ParseFloat 32 v) = Some (Some (WriteFloat32 bits))). by rewrite (proj1 Ho).
  - eapply (Hv "d"); [done|done|by apply (bool_decide_unpack _)| |exact Hw].
    change (Some (WriteFloat64 (W := W) (B := B) <$> ParseFloat 64 v) = Some (Some (WriteFloat64 bits))). by rewrite (proj1 Ho).
  - by eapply (Hv "s16"); [done|done|by apply (bool_decide_unpack _)|done|exact Hw].
  - cbn [encodeCallArgs]. rewrite bool_decide_eq_true_2 by done. unfold mbind, EM_bind.
    rewrite (encode_ok "null binder" WriteNullStrongBinder p p' cl Hw). by destruct (encodeCallArgs _ rest _) as [[? ?] ?].
Qed.

Lemma write_categories categories (p p' : pst W B) :
  write_record (category_fields categories) (category_values categories) p = (Ok tt, p') →
  (write_elems WriteString categories;; WriteInt32 (-1)) p = (Ok tt, p').
Proof.
  revert p. induction categories as [|c l IH]; intros p H.
  - apply bind_ok_inv in H as ([] & p1 & H1 & H2). injection H2 as <-.
    by rewrite (bind_ok (write_elems _ []) _ p p tt).
  - apply bind_ok_inv in H as ([] & p1 & H1 & H2). apply IH in H2. apply bind_ok_inv in H2 as ([] & p2 & H2 & H3).
    rewrite (bind_ok _ _ p p2 tt); [done|]. change (write_elems WriteString (c :: l)) with (WriteString (W := W) (B := B) c;; write_elems WriteString l).
    by rewrite (bind_ok _ _ _ _ _ H1).
Qed.

Lemma write_intent i (p p' : pst W B) : write_record (intent_fields i) (intent_values i) p = (Ok tt, p') →
  writeIntentArgs i p = (Ok tt, p').
Proof.
  intros H. unfold writeIntentArgs.
  do 6 (apply bind_ok_inv in H as ([] & ? & E & H); rewrite (bind_ok _ _ _ _ _ E); clear E).
  by apply write_categories.
Qed.

(** All of them: what the encoder leaves in the Parcel is the record. *)
Lemma encode_args args kvs last (p p' : pst W B) cl : Forall arg_ok args → last_means kvs last →
  write_record (call_fields args last) (call_values args last) p = (Ok tt, p') →
  encodeCallArgs ParseFloat ((args ≫= arg_words) ++ last_words kvs) (mkEncoder p cl) = (Ok tt, mkEncoder p' cl, []).
Proof.
  intros Ha Hl. revert p. induction Ha as [|a args Ha _ IH]; intros p H.
  - cbn [call_fields call_values mbind list_bind app] in *. destruct kvs as [kvs|], last as [i|]; try done.
    + cbn [last_words encodeCallArgs]. rewrite bool_decide_eq_false_2, bool_decide_eq_true_2 by done. rewrite Hl.
      by apply encode_ok, write_intent.
    + injection H as <-. done.
  - cbn [mbind list_bind]. rewrite <- app_assoc. apply bind_ok_inv in H as ([] & p1 & H1 & H2).
    rewrite (encode_arg a _ p p1 cl Ha H1). by apply IH.
Qed.

Context (ctx : context) (sm : ServiceManager W B).

(** How a call ends, given the answer of the service. *)
Definition call_outcome (r : res (option (Parcel W B)) * W) : result Z Z * W * list tool_event :=
  match r with
  | (Ok reply, w) => (Ok 0, w, [Out (line ("Result: " +:+ formatParcel reply))])
  | (Err e, w) => (Ok unavailable_code, w, [ErrOut (line ("service: Transaction failed: " +:+ Error_string e))])
  | (Panic y, w) => (Panic y, w, [])
  end.

Lemma finish_call_outcome service code (p : pst W B) : finish_call ctx service code (mkEncoder p []) (world p) =
  call_outcome (tb_Transact service (Some ctx) code (ptr p) FlagNone (world p)).
Proof.
  unfold finish_call, cleanup, attempt, mbind, TM_bind, call_outcome. cbn [en_parcel en_closers reverse foldl].
  by destruct (tb_Transact service (Some ctx) code (ptr p) FlagNone (world p)) as [[r|e|y] w].
Qed.

(** The request of a call: its record, written to a fresh Parcel. *)
Definition request_of (fields : list field) (values : record_type fields) : Parcel W B :=
  p_emit NewParcel (record_wire W B fields values) (record_objects W B fields values).

Lemma request_written fields values w : record_ok W B fields values → len (record_wire W B fields values) <= maxInt →
  write_record fields values (mkst (Some NewParcel) w) = (Ok tt, mkst (Some (request_of fields values)) w).
Proof. intros Hok Hlen. apply (@c_write_ok W B _ (record_codec fields) values Hok NewParcel w); [done|exact Hlen]. Qed.

Lemma request_read fields values w : record_ok W B fields values → len (record_wire W B fields values) <= maxInt →
  fst ((SetPosition 0;; read_record fields) (mkst (Some (request_of fields values)) w)) = Ok values.
Proof.
  intros Hok Hlen. assert (Hr := @codec_roundtrip_at W B _ (record_codec fields) values NewParcel w Hok append_ok_new Hlen).
  rewrite (bind_ok _ _ _ _ _ (request_written fields values w Hok Hlen)) in Hr. exact (f_equal fst Hr).
Qed.

Lemma write_token_record descriptor fs (v : record_type fs) :
  write_record (FToken :: fs) (descriptor, v) = (WriteInterfaceToken descriptor;; write_record fs v : PM W B unit).
Proof.
  unfold write_record. cbn [record_codec pair_codec c_write field_codec]. unfold token_codec, plain_codec. cbn [c_write fst snd]. reflexivity.
Qed.

Lemma send_call_outcome service descriptor code args kvs last w : Forall arg_ok args → last_means kvs last →
  let fields := FToken :: call_fields args last in
  let values : record_type fields := (descriptor, call_values args last) in
  record_ok W B fields values → len (record_wire W B fields values) <= maxInt →
  send_call ParseFloat ctx service descriptor code ((args ≫= arg_words) ++ last_words kvs) w =
    call_outcome (tb_Transact service (Some ctx) code (Some (request_of fields values)) FlagNone w).
Proof.
  intros Ha Hl fields values Hok Hlen. assert (Hw := request_written fields values w Hok Hlen).
  subst fields values. rewrite write_token_record in Hw. apply bind_ok_inv in Hw as ([] & p1 & H1 & H2). assert (He := encode_args args kvs last p1 _ [] Ha Hl H2).
  unfold send_call. rewrite H1, He.
  assert (Hf := finish_call_outcome service code (mkst (Some (request_of (FToken :: call_fields args last) (descriptor, call_values args last))) w)). cbn [ptr world en_parcel app] in *.
  rewrite Hf. by destruct (call_outcome _) as [[? ?] ?].
Qed.

(** C35: what is typed is what the service reads.  "service call NAME CODE" with typed
    arguments (integers of both widths, floating point numbers, strings, null Binders,
    an intent at the end) sends one transaction with that code to the service, whose
    Parcel holds the service's descriptor and then exactly those values: reading the
    fields in order gives them back.  The reply is printed and the exit code is 0;
    an error of the transaction is reported with another code. *)
Theorem service_call_arguments name service descriptor code args kvs last w w1 w2 :
  let fields := FToken :: call_fields args last in
  let values : record_type fields := (descriptor, call_values args last) in
  sm_CheckService sm ctx name w = (Ok (Some service), w1) → tb_Descriptor service ctx w1 = (Ok descriptor, w2) →
  descriptor ≠ "" → in_u 32 code → Forall arg_ok args → last_means kvs last →
  record_ok W B fields values → len (record_wire W B fields values) <= maxInt →
  ∃ p : Parcel W B, runCall ParseFloat ctx sm (name :: pretty code :: (args ≫= arg_words) ++ last_words kvs) w =
         call_outcome (tb_Transact service (Some ctx) code (Some p) FlagNone w2) ∧
       fst ((SetPosition 0;; read_record fields) (mkst (Some p) w2)) = Ok values.
Proof.
  intros fields values Hc Hd Hne Hcode Ha Hl Hok Hlen. exists (request_of fields values). split; [|by apply request_read].
  unfold runCall. rewrite ParseUint10_pretty by done.
  rewrite (tm_bind_ok _ _ w (inl (Some service)) w1 []) by (unfold attempt; by rewrite Hc).
  rewrite (tm_bind_ok _ _ w1 (inl descriptor) w2 []) by (unfold attempt; by rewrite Hd).
  rewrite bool_decide_eq_false_2 by done. rewrite (send_call_outcome service descriptor code args kvs last w2 Ha Hl Hok Hlen).
  by destruct (call_outcome _) as [[? ?] ?].
Qed.
End Arguments.

(** A phone whose one service is called with an integer, a string and an intent. *)
#[local] Instance phone_binder : ToolBinder unit unit := {
  tb_Transact := λ _ _ _ _ _ w, (Ok (Some NewParcel), w);
  tb_Descriptor := λ _ _ w, (Ok "IPhone", w);
  tb_DebugHandle := λ _, None;
}.
#[local] Instance phone_files : FileOps unit := {
  os_Open := λ _ w, (Ok 3, w); os_CreateTemp := λ w, (Ok (4, "tmp"), w); io_Copy := λ _ _ w, (Ok tt, w);
  seek_start := λ _ w, (Ok tt, w); os_Remove := λ _ w, (Ok tt, w); is_ErrNotExist := λ _, false;
  close_file := λ _ w, w; syscall_Close := λ _ w, w;
}.
Definition phone_manager : ServiceManager unit unit :=
  mkServiceManager (λ _ _ w, (Ok ["phone"], w)) (λ _ _ w, (Ok (Some tt), w)) (λ _ _ w, (Ok (Some tt), w)).
Definition dial : intentArgs := mkIntent (Some "DIAL") None None 16 None ["a"; "b"].

Lemma service_call_arguments_witness :
  let args := [AInt32 (-7); AString "hi"; ANull] in
  ∃ p : Parcel unit unit,
    runCall (λ _ _, None) Background phone_manager
      ["phone"; "1"; "i32"; "-7"; "s16"; "hi"; "null"; "intent"; "action=DIAL"; "launchFlags=0x10"; "categories=a,b"] tt =
      (Ok 0, tt, [Out (line "Result: Parcel{size=0, objects=0}")]) ∧
    fst ((SetPosition 0;; read_record (FToken :: call_fields args (Some dial))) (mkst (Some p) tt)) =
      Ok ("IPhone", call_values args (Some dial)).
Proof.
  intros args. set (kvs := ["action=DIAL"; "launchFlags=0x10"; "categories=a,b"]).
  edestruct (service_call_arguments (λ _ _, None) Background phone_manager "phone" tt "IPhone" 1 args
               (Some kvs) (Some dial) tt tt tt) as (p & Hr & Hv).
  1,2,6: reflexivity.
  - discriminate.
  - split; [discriminate|reflexivity].
  - repeat constructor; (reflexivity || discriminate).
  - vm_compute. repeat split; try discriminate; repeat constructor; discriminate.
  - vm_compute. discriminate.
  - exists p. split; [|exact Hv].
    replace (pretty 1) with "1" in Hr by (symmetry; vm_compute; reflexivity).
    replace (args ≫= arg_words) with ["i32"; "-7"; "s16"; "hi"; "null"] in Hr by (symmetry; vm_compute; reflexivity).
    etransitivity; [exact Hr|]. vm_compute. reflexivity.
Defined.
