(* ===== verification/Shell.v ===== *)
(** * Shell: the cmd command, its callbacks and a service it talks to

    Models src/cmd/cmd/run.go (the command), src/cmd/cmd/interfaces.go (the two
    objects it sends along: a callback that opens files and a receiver of the
    result) and src/demo/cmdinputproto/protocol.go (the service's side).  The
    tracing calls of trace.go have no effect. *)

From stdpp Require Import base list numbers strings pretty.
From S2P Require Import Prelude Errors Unicode Parcel Slices Status Stability Dispatch Services Aidl GoText Tools.

Open Scope Z_scope.

Definition ShellCommandTransaction : Z := packChars 95 67 77 68. (* _CMD *)

Definition shellCallbackDescriptor : string := "com.android.internal.os.IShellCallback".
Definition resultReceiverDescriptor : string := "com.android.internal.os.IResultReceiver".
Definition shellCallbackOpenFileTransaction : Z := FirstCallTransaction.
Definition resultReceiverSendTransaction : Z := FirstCallTransaction.

(** ** The request *)

Section Protocol.
Context {W B : Type}.

Record Request := mkRequest {
  rq_InFD : FileDescriptor; rq_OutFD : FileDescriptor; rq_ErrFD : FileDescriptor;
  rq_Args : list string;
  rq_ShellCallback : option B; rq_ResultReceiver : option B;
}.

Record Outcome := mkOutcome {
  oc_Source : string; oc_DisplayID : string; oc_Command : string;
  oc_ResultCode : Z; oc_UsedShellCallback : bool; oc_SentResult : bool;
}.

(** The seven writes of writeShellCommandRequest, before it rewinds. *)
Definition write_request `{!BinderMarshal W B} (inFD outFD errFD : Z) (args : list string) (callback result : option B) : PM W B unit :=
  WriteFileDescriptor (NewFileDescriptor inFD);;
  WriteFileDescriptor (NewFileDescriptor outFD);;
  WriteFileDescriptor (NewFileDescriptor errFD);;
  WriteInt32 (i32 (len args));;
  write_elems WriteString args;;
  WriteStrongBinder callback;;
  WriteStrongBinder result.

Definition writeShellCommandRequest `{!BinderMarshal W B} (inFD outFD errFD : Z) (args : list string) (callback result : option B)
  : PM W B unit :=
  write_request inFD outFD errFD args callback result;; SetPosition 0.

(** The encoder of the demo, in its three groups. *)
Definition EncodeRequest `{!BinderMarshal W B} (inFD outFD errFD : Z) (args : list string) (callback result : option B) : PM W B unit :=
  (WriteFileDescriptor (NewFileDescriptor inFD);;
   WriteFileDescriptor (NewFileDescriptor outFD);;
   WriteFileDescriptor (NewFileDescriptor errFD));;
  (WriteInt32 (i32 (len args));; write_elems WriteString args);;
  (WriteStrongBinder callback;; WriteStrongBinder result);;
  SetPosition 0.

(** The capacity given to make is the count on the wire, unchecked. *)
Definition DecodeRequest : PM W B Request :=
  inFD ← ReadFileDescriptor;
  outFD ← ReadFileDescriptor;
  errFD ← ReadFileDescriptor;
  argc ← ReadInt32;
  if argc <? 0 then panic "makeslice: cap out of range"
  else
    args ← read_elems ReadString (Z.to_nat argc);
    callback ← ReadStrongBinder;
    result ← ReadStrongBinder;
    mret (mkRequest inFD outFD errFD args callback result).

(** ** The service's side *)

Definition knownSources : list string :=
  ["touchnavigation"; "touchscreen"; "joystick"; "stylus"; "touchpad"; "gamepad"; "dpad"; "mouse"; "keyboard"; "trackball";
   "rotaryencoder"].
Definition knownCommands : list string :=
  ["text"; "keyevent"; "tap"; "swipe"; "draganddrop"; "press"; "roll"; "scroll"; "motionevent"; "keycombination"].
Definition UsageHeader : string := line "Usage: input [<source>] [-d DISPLAY_ID] <command> [<arg>...]".

Context `{TB : !ToolBinder W B} `{FS : !FDSys W}.

Definition writeFD (fd : FileDescriptor) (text : string) : @HM W unit := λ w,
  if fd_fd fd <? 0 then (Err (Errorf_w ErrBadParcelable ("invalid file descriptor " +:+ pretty (fd_fd fd))), w)
  else let '((_, err), w) := sys_Write (fd_fd fd) (bytes_of text) w in
       (match err with Some e => Err e | None => Ok tt end, w).

Definition sendResult (ctx : context) (binder : B) (resultCode : Z) : @HM W unit := λ w,
  match on_parcel (Some NewParcel) (WriteInterfaceToken resultReceiverDescriptor;; WriteInt32 resultCode;; SetPosition 0) w with
  | (Err e, w) => (Err e, w)
  | (Panic y, w) => (Panic y, w)
  | (Ok (_, data), w) =>
      match tb_Transact binder (Some ctx) resultReceiverSendTransaction data FlagOneway w with
      | (Ok _, w) => (Ok tt, w)
      | (Err e, w) => (Err e, w)
      | (Panic y, w) => (Panic y, w)
      end
  end.

(** What Execute returns: an outcome, and an error or not. *)
Definition executed : Type := Outcome * res unit * W.

Definition finalize (ctx : context) (req : Request) (o : Outcome) (resultCode : Z) (w : W) : executed :=
  let o := mkOutcome (oc_Source o) (oc_DisplayID o) (oc_Command o) resultCode false (oc_SentResult o) in
  match rq_ResultReceiver req with
  | None => (o, Ok tt, w)
  | Some receiver =>
      match sendResult ctx receiver resultCode w with
      | (Ok _, w) => (mkOutcome (oc_Source o) (oc_DisplayID o) (oc_Command o) resultCode false true, Ok tt, w)
      | (r, w) => (o, r, w)
      end
  end.

(** A text for one of the streams, then the result. *)
Definition say_and_finalize (ctx : context) (req : Request) (o : Outcome) (fd : FileDescriptor) (text : string) (w : W) : executed :=
  match writeFD fd text w with
  | (Ok _, w) => finalize ctx req o (-1) w
  | (r, w) => (o, r, w)
  end.

Definition run_input (ctx : context) (req : Request) (o : Outcome) (argv : list string) (w : W) : executed :=
  match argv with
  | [] => say_and_finalize ctx req o (rq_OutFD req) UsageHeader w
  | cmd :: _ =>
      if bool_decide (cmd ∈ ["help"; "-h"]) then say_and_finalize ctx req o (rq_OutFD req) UsageHeader w
      else
        let o := mkOutcome (oc_Source o) (oc_DisplayID o) cmd (oc_ResultCode o) (oc_UsedShellCallback o) (oc_SentResult o) in
        if bool_decide (cmd ∈ knownCommands) then finalize ctx req o 0 w
        else say_and_finalize ctx req o (rq_OutFD req) (line ("Unknown command: " +:+ cmd)) w
  end.

Definition Execute (ctx : context) (req : Request) (w : W) : executed :=
  let '(source, argv) := match rq_Args req with
                         | s :: argv => if bool_decide (s ∈ knownSources) then (s, argv) else ("", s :: argv)
                         | [] => ("", [])
                         end in
  match argv with
  | d :: rest =>
      if bool_decide (d = "-d") then
        match rest with
        | [] => say_and_finalize ctx req (mkOutcome source "" "" 0 false false) (rq_ErrFD req) (line "Error: missing DISPLAY_ID after -d") w
        | display :: argv => run_input ctx req (mkOutcome source display "" 0 false false) argv w
        end
      else run_input ctx req (mkOutcome source "" "" 0 false false) argv w
  | [] => run_input ctx req (mkOutcome source "" "" 0 false false) argv w
  end.
End Protocol.
Arguments Request : clear implicits.

(** ** The shell callback *)

Definition O_RDONLY : Z := 0.
Definition O_WRONLY : Z := 1.
Definition O_RDWR : Z := 2.
Definition O_CREAT : Z := 64.
Definition O_TRUNC : Z := 512.
Definition EPERM : Z := 1.
Definition EIO : Z := 5.
Definition EBADF : Z := 9.
Definition EINVAL : Z := 22.

(** The flags for syscall.Open, and which accesses to check. *)
Definition openFlagsForMode (mode : string) : option (Z * bool * bool) :=
  if bool_decide (mode = "w") then Some (Z.lor (Z.lor O_WRONLY O_CREAT) O_TRUNC, false, true)
  else if bool_decide (mode = "w+") then Some (Z.lor (Z.lor O_RDWR O_CREAT) O_TRUNC, true, true)
  else if bool_decide (mode = "r") then Some (O_RDONLY, true, false)
  else if bool_decide (mode = "r+") then Some (O_RDWR, true, true)
  else None.

(** An error of a system call: an errno or another error, with its text. *)
Record sys_error := mkSysError { se_errno : option Z; se_text : string }.

Definition errnoValue (e : sys_error) : Z := default EIO (se_errno e).

(** syscall.Open with mode 0770, syscall.Close and os.Getwd. *)
Class ShellOS (E : Type) := {
  sys_Open : string → Z → E → (Z + sys_error) * E;
  close_fd : Z → E → option sys_error * E;
  os_Getwd : E → string + string;
}.

Record ShellCallbackHandler := mkCallback { cb_workingDir : string; cb_active : bool; cb_openFDs : list Z }.
Record ResultReceiverHandler := mkReceiver { rr_done : bool; rr_result : Z; rr_have : bool }.

(** The two objects, what was printed, and the rest. *)
Record shell_world (E : Type) := mkShell {
  sw_callback : ShellCallbackHandler; sw_result : ResultReceiverHandler; sw_log : list tool_event; sw_env : E;
}.
Arguments mkShell {E} _ _ _ _.
Arguments sw_callback {E} _.
Arguments sw_result {E} _.
Arguments sw_log {E} _.
Arguments sw_env {E} _.

Definition NewResultReceiverHandler : ResultReceiverHandler := mkReceiver false 0 false.

(** IsAbs on Unix. *)
Definition filepath_IsAbs (path : string) : bool := String.prefix "/" path.

Section Handlers.
Context {E B : Type} `{OS : !ShellOS E}.
Context (accessChecker : option (string → string → bool → bool → option string)).
Abbreviation W := (shell_world E).
Implicit Types w : W.

Definition set_callback (c : ShellCallbackHandler) w : W := mkShell c (sw_result w) (sw_log w) (sw_env w).
Definition set_result (r : ResultReceiverHandler) w : W := mkShell (sw_callback w) r (sw_log w) (sw_env w).
Definition set_env (e : E) w : W := mkShell (sw_callback w) (sw_result w) (sw_log w) e.
Definition log_line (l : tool_event) w : W := mkShell (sw_callback w) (sw_result w) (sw_log w ++ [l]) (sw_env w).

Definition NewShellCallbackHandler (workingDir : string) (e : E) : ShellCallbackHandler :=
  let workingDir := if bool_decide (workingDir = "") then match os_Getwd e with inl cwd => cwd | inr _ => workingDir end
                    else workingDir in
  mkCallback workingDir true [].

Definition Deactivate w : W := set_callback (mkCallback (cb_workingDir (sw_callback w)) false (cb_openFDs (sw_callback w))) w.

(** After the descriptor is open: the access check, and the list. *)
Definition admit_file (fullPath seLinuxContext : string) (read write : bool) (fd : Z) w : Z * W :=
  let record w :=
    let c := sw_callback w in
    (fd, set_callback (mkCallback (cb_workingDir c) (cb_active c) (cb_openFDs c ++ [fd])) w) in
  match accessChecker with
  | Some check =>
      if bool_decide (seLinuxContext ≠ "") then
        match check fullPath seLinuxContext read write with
        | Some err =>
            (- EPERM, log_line (ErrOut (line ("System server has no access to file " +:+ fullPath +:+ " (context " +:+ seLinuxContext
                                              +:+ "): " +:+ err)))
                               (set_env (snd (close_fd fd (sw_env w))) w))
        | None => record w
        end
      else record w
  | None => record w
  end.

Definition OpenFile (path seLinuxContext mode : string) w : Z * W :=
  let fullPath := if filepath_IsAbs path then path else filepath_Join [cb_workingDir (sw_callback w); path] in
  if negb (cb_active (sw_callback w)) then (- EPERM, log_line (ErrOut (line ("Open attempt after active for: " +:+ fullPath))) w)
  else
    match openFlagsForMode mode with
    | None => (- EINVAL, log_line (ErrOut (line ("Invalid mode requested: " +:+ mode))) w)
    | Some (flags, checkRead, checkWrite) =>
        match sys_Open fullPath flags (sw_env w) with
        | (inr err, e) => (- errnoValue err, set_env e w)
        | (inl fd, e) => admit_file fullPath seLinuxContext checkRead checkWrite fd (set_env e w)
        end
    end.

(** The errors other than EBADF, joined. *)
Fixpoint close_fds (fds : list Z) (e : E) : list sys_error * E :=
  match fds with
  | [] => ([], e)
  | fd :: fds =>
      if fd <? 0 then close_fds fds e
      else
        let '(err, e) := close_fd fd e in
        let '(errs, e) := close_fds fds e in
        (match err with Some err => if bool_decide (se_errno err = Some EBADF) then errs else err :: errs | None => errs end, e)
  end.

Definition callback_Close w : list sys_error * W :=
  let c := sw_callback w in
  let w := set_callback (mkCallback (cb_workingDir c) (cb_active c) []) w in
  let '(errs, e) := close_fds (cb_openFDs c) (sw_env w) in (errs, set_env e w).

(** ** On the wire *)

Definition expectInterfaceToken (want : string) : PM W B unit :=
  got ← ReadInterfaceToken;
  if bool_decide (got ≠ want) then throw (EStatusCode StatusPermissionDenied) else mret tt.

Definition writeOptionalParcelFileDescriptor (fd : Z) : PM W B unit :=
  if fd <? 0 then WriteInt32 0 else WriteInt32 1;; WriteParcelFileDescriptor (NewFileDescriptor fd).

Definition readOptionalParcelFileDescriptor `{!FDSys W} : PM W B FileDescriptor :=
  present ← ReadInt32;
  if present =? 0 then mret (NewFileDescriptor (-1))
  else if negb (present =? 1) then throw (Errorf_w ErrBadParcelable ("invalid file descriptor presence " +:+ pretty present))
  else ReadParcelFileDescriptor.

Definition callback_HandleTransact (code : Z) (data : option (Parcel W B)) : @HM W (option (Parcel W B)) := λ w,
  if negb (code =? shellCallbackOpenFileTransaction) then (Err (ESentinel ErrUnknownTransaction), w)
  else
    match on_parcel data (expectInterfaceToken shellCallbackDescriptor;;
                          path ← ReadString; seLinuxContext ← ReadString; mode ← ReadString; mret (path, seLinuxContext, mode)) w with
    | (Err e, w) => (Err e, w)
    | (Panic y, w) => (Panic y, w)
    | (Ok (path, seLinuxContext, mode, _), w) =>
        match on_parcel (Some NewParcel) (WriteStatus (mkStatus None None);;
                                          fd ← in_world (λ w, let '(fd, w) := OpenFile path seLinuxContext mode w in (Ok fd, w));
                                          writeOptionalParcelFileDescriptor fd) w with
        | (Ok (_, reply), w) => (Ok reply, w)
        | (Err e, w) => (Err e, w)
        | (Panic y, w) => (Panic y, w)
        end
    end.

Definition read_open_reply `{!FDSys W} : PM W B FileDescriptor :=
  '(status, err) ← ReadStatus;
  match err, TransportErr status, Remote status with
  | Some e, _, _ => throw e
  | None, Some e, _ => throw e
  | None, None, Some r => throw (ERemote (mkRemoteException (re_Code r) (re_Message r) 0))
  | None, None, None => readOptionalParcelFileDescriptor
  end.

(** The proxy of the callback; a nil Binder has no proxy. *)
Definition callback_OpenFile `{!FDSys W} `{!ToolBinder W B} (ctx : option context) (binder : B) (path seLinuxContext mode : string)
  : @HM W FileDescriptor := λ w,
  match on_parcel (Some NewParcel) (WriteInterfaceToken shellCallbackDescriptor;; WriteString path;; WriteString seLinuxContext;;
                                    WriteString mode;; SetPosition 0) w with
  | (Err e, w) => (Err e, w)
  | (Panic y, w) => (Panic y, w)
  | (Ok (_, data), w) =>
      match tb_Transact binder ctx shellCallbackOpenFileTransaction data FlagNone w with
      | (Err e, w) => (Err e, w)
      | (Panic y, w) => (Panic y, w)
      | (Ok None, w) => (Err (ESentinel ErrBadParcelable), w)
      | (Ok (Some reply), w) =>
          match on_parcel (Some reply) read_open_reply w with
          | (Ok (fd, _), w) => (Ok fd, w)
          | (Err e, w) => (Err e, w)
          | (Panic y, w) => (Panic y, w)
          end
      end
  end.

(** ** The result receiver *)

(** Closing a closed channel panics. *)
Definition Send (resultCode : Z) : @HM W unit := λ w,
  let r := sw_result w in
  if rr_have r then (Ok tt, set_result (mkReceiver (rr_done r) resultCode true) w)
  else if rr_done r then (Panic "close of closed channel", set_result (mkReceiver true resultCode true) w)
  else (Ok tt, set_result (mkReceiver true resultCode true) w).

Definition result_HandleTransact (code : Z) (data : option (Parcel W B)) : @HM W (option (Parcel W B)) := λ w,
  if negb (code =? resultReceiverSendTransaction) then (Err (ESentinel ErrUnknownTransaction), w)
  else
    match on_parcel data (expectInterfaceToken resultReceiverDescriptor;; ReadInt32) w with
    | (Err e, w) => (Err e, w)
    | (Panic y, w) => (Panic y, w)
    | (Ok (resultCode, _), w) =>
        match Send resultCode w with
        | (Err e, w) => (Err e, w)
        | (Panic y, w) => (Panic y, w)
        | (Ok _, w) =>
            match on_parcel (Some NewParcel) (WriteStatus (mkStatus None None)) w with
            | (Ok (_, reply), w) => (Ok reply, w)
            | (Err e, w) => (Err e, w)
            | (Panic y, w) => (Panic y, w)
            end
        end
    end.

(** What happens while Wait is in its select: other threads act, the context is
    done and chosen, or the channel is closed and chosen (others may still act
    before the result is read under the lock).  [None]: Wait has not returned. *)
Inductive wait_event := OthersAct (f : W → W) | ContextDone (e : error) | ChannelDone (f : W → W).

Fixpoint Wait (schedule : list wait_event) w : option (res Z * W) :=
  match schedule with
  | [] => None
  | OthersAct f :: schedule => Wait schedule (f w)
  | ContextDone e :: _ => Some (Err e, w)
  | ChannelDone f :: schedule => if rr_done (sw_result w) then Some (Ok (rr_result (sw_result (f w))), f w) else Wait schedule w
  end.
End Handlers.
Arguments wait_event : clear implicits.

(** The proxy of the receiver. *)
Definition receiver_Send {W B : Type} `{!ToolBinder W B} (ctx : context) (binder : B) (resultCode : Z) : @HM W unit :=
  sendResult ctx binder resultCode.

(** ** The command *)

Definition ProcessExitCode (code : Z) : Z := Z.land code 255.

(** The text of an errno is a parameter. *)
Definition transactErrorText (errno_text : Z → string) (err : error) : string :=
  match errors_As_StatusCode err with
  | Some code =>
      if code =? StatusBadType then "Bad type"
      else if code =? StatusFailedTransaction then "Failed transaction"
      else if code =? StatusFdsNotAllowed then "File descriptors not allowed"
      else if code =? StatusUnexpectedNull then "Unexpected null"
      else if (code <? 0) && (-4095 <=? code) then errno_text (- code)
      else Error_string (EStatusCode code)
  | None =>
      if errors_Is err ErrBadType then "Bad type"
      else if errors_Is err ErrFailedTxn then "Failed transaction"
      else Error_string err
  end.

Definition transactExitCode (err : error) : Z :=
  match errors_As_StatusCode err with
  | Some code => code
  | None =>
      if errors_Is err ErrBadType then StatusBadType
      else if errors_Is err ErrFailedTxn then StatusFailedTransaction
      else if errors_Is err ErrPermissionDenied then StatusPermissionDenied
      else if errors_Is err ErrUnknownTransaction then StatusUnknownTransaction
      else 1
  end.

Definition printableStatusMagnitude (code : Z) : Z := if code <? 0 then - code else code.

(** The two objects, as pointers. *)
Inductive shell_handler := TheCallback | TheResultReceiver.

(** The connection a service came from: localHandlerRegistrar if it has it, and Close. *)
Class ShellConn (W B : Type) := {
  as_registrar : B → option (shell_handler → @HM W B);
  binder_Close : B → W → W;
}.

Section Command.
Context {E B : Type}.
Abbreviation W := (shell_world E).
Context `{OS : !ShellOS E} `{BM : !BinderMarshal W B} `{TB : !ToolBinder W B} `{SC : !ShellConn W B}.
Context (errno_text : Z → string) (ctx : context).
Implicit Types w : W.

Record cmd_options := mkCmdOptions {
  co_sm : ServiceManager W B;
  co_InFD : Z; co_OutFD : Z; co_ErrFD : Z;
  co_WorkingDir : string;
}.

(** The working directory, or the error of os.Getwd. *)
Definition resolveOptions (opts : cmd_options) (e : E) : string + string :=
  if bool_decide (co_WorkingDir opts = "") then os_Getwd e else inl (co_WorkingDir opts).

(** A service of the list that is there is printed. *)
Fixpoint print_running (sm : ServiceManager W B) (services : list string) w : res unit * W :=
  match services with
  | [] => (Ok tt, w)
  | name :: services =>
      match sm_CheckService sm ctx name w with
      | (Ok (Some _), w) => print_running sm services (log_line (Out (line ("  " +:+ name))) w)
      | (Ok None, w) | (Err _, w) => print_running sm services w
      | (Panic y, w) => (Panic y, w)
      end
  end.

Definition cmd_listServices (sm : ServiceManager W B) w : res Z * W :=
  match sm_ListServices sm ctx DumpPriorityAll w with
  | (Err e, w) => (Ok 20, log_line (ErrOut (line ("cmd: Failed to list services: " +:+ Error_string e))) w)
  | (Panic y, w) => (Panic y, w)
  | (Ok services, w) =>
      match print_running sm (sort_strings services) (log_line (Out (line "Currently running services:")) w) with
      | (Ok _, w) => (Ok 0, w)
      | (Err e, w) => (Err e, w)
      | (Panic y, w) => (Panic y, w)
      end
  end.

Definition lookupService (sm : ServiceManager W B) (name : string) (wait : bool) : @HM W (option B) :=
  if wait then sm_WaitService sm ctx name else sm_CheckService sm ctx name.

(** Deactivate and Close. *)
Definition end_callback w : W := snd (callback_Close (Deactivate w)).

(** The call, with both objects registered. *)
Definition call_service (opts : cmd_options) (schedule : list (wait_event E)) (name : string) (service callbackBinder resultBinder : B)
    (args : list string) w : option (res Z * W) :=
  match on_parcel (Some NewParcel) (writeShellCommandRequest (co_InFD opts) (co_OutFD opts) (co_ErrFD opts) args (Some callbackBinder)
                                      (Some resultBinder)) w with
  | (Err e, w) => Some (Ok 1, log_line (ErrOut (line ("cmd: Failed to build shell command request: " +:+ Error_string e))) w)
  | (Panic y, w) => Some (Panic y, w)
  | (Ok (_, data), w) =>
      match tb_Transact service (Some ctx) ShellCommandTransaction data FlagNone w with
      | (Panic y, w) => Some (Panic y, w)
      | (Err e, w) =>
          let code := transactExitCode e in
          Some (Ok code, log_line (Out (line ("cmd: Failure calling service " +:+ name +:+ ": " +:+ transactErrorText errno_text e +:+ " ("
                                              +:+ pretty (printableStatusMagnitude code) +:+ ")"))) (end_callback w))
      | (Ok _, w) =>
          match Wait schedule (Deactivate w) with
          | None => None
          | Some (r, w) =>
              let w := snd (callback_Close w) in
              match r with
              | Ok resultCode => Some (Ok resultCode, w)
              | Err e => Some (Ok 1, log_line (ErrOut (line ("cmd: Failure waiting for command result: " +:+ Error_string e))) w)
              | Panic y => Some (Panic y, w)
              end
          end
      end
  end.

(** The deferred Close of a Binder. *)
Definition then_close (b : B) (r : option (res Z * W)) : option (res Z * W) :=
  match r with Some (r, w) => Some (r, binder_Close b w) | None => None end.

(** The call of a service that was found. *)
Definition call_found (opts : cmd_options) (schedule : list (wait_event E)) (cwd name : string) (service : B) (args : list string) w
  : option (res Z * W) :=
  match as_registrar service with
  | None =>
      let code := StatusInvalidOperation in
      Some (Ok code, log_line (Out (line ("cmd: Failure calling service " +:+ name +:+ ": " +:+ errno_text (- code) +:+ " ("
                                          +:+ pretty (- code) +:+ ")"))) w)
  | Some register =>
      let w := set_result NewResultReceiverHandler (set_callback (NewShellCallbackHandler cwd (sw_env w)) w) in
      match register TheCallback w with
      | (Err e, w) => Some (Ok 1, log_line (ErrOut (line ("cmd: Failed to register shell callback: " +:+ Error_string e))) w)
      | (Panic y, w) => Some (Panic y, w)
      | (Ok callbackBinder, w) =>
          then_close callbackBinder
            match register TheResultReceiver w with
            | (Err e, w) => Some (Ok 1, log_line (ErrOut (line ("cmd: Failed to register result receiver: " +:+ Error_string e))) w)
            | (Panic y, w) => Some (Panic y, w)
            | (Ok resultBinder, w) =>
                then_close resultBinder (call_service opts schedule name service callbackBinder resultBinder args w)
            end
      end
  end.

Definition cmd_Run (opts : cmd_options) (schedule : list (wait_event E)) (argv : list string) w : option (res Z * W) :=
  match resolveOptions opts (sw_env w) with
  | inr err => Some (Ok 20, log_line (ErrOut (line ("cmd: " +:+ err))) w)
  | inl cwd =>
      match argv with
      | [] => Some (Ok 20, log_line (ErrOut (line "cmd: No service specified; use -l to list all running services. Use -w to start and wait for a service.")) w)
      | ["-l"] => Some (cmd_listServices (co_sm opts) w)
      | arg :: rest =>
          let '(waitForService, name, args) :=
            match rest with
            | name :: args => if bool_decide (arg = "-w") then (true, name, args) else (false, arg, rest)
            | [] => (false, arg, rest)
            end in
          match lookupService (co_sm opts) name waitForService w with
          | (Panic y, w) => Some (Panic y, w)
          | (Ok (Some service), w) => call_found opts schedule cwd name service args w
          | (Ok None, w) => Some (Ok 20, log_line (ErrOut (line ("cmd: Can't find service: " +:+ name))) w)
          | (Err e, w) =>
              if errors_Is e ErrNoService then Some (Ok 20, log_line (ErrOut (line ("cmd: Can't find service: " +:+ name))) w)
              else Some (Ok 20, log_line (ErrOut (line ("cmd: Failure finding service " +:+ name +:+ ": " +:+ Error_string e))) w)
          end
      end
  end.
End Command.
