(* ===== verification/ShellProps.v ===== *)
(** * ShellProps: the cmd command end to end

    The request that the command writes is the request that the service decodes,
    and the exit code of the command is the result that the service sends. *)

From stdpp Require Import base list numbers strings pretty gmap.
From S2P Require Import Prelude Errors Unicode Parcel ParcelFacts Codec ObjectCodec Fields ParcelProps Slices Status Stability Dispatch DispatchProps Services Aidl GoText Tools Shell.

Open Scope Z_scope.

(** ** Writers and readers that need something of the Parcel

    A descriptor is only written where descriptors are allowed, and a Binder is only
    read where there is a resolver. *)

Section Conditional.
Context {W B : Type} (Q : Parcel W B → Prop).

Definition emits_if {A} (m : PM W B A) (a : A) (bs : list Z) (objs : list parcelObjectRef) : Prop :=
  ∀ p w, Q p → pos p = len (buf p) → len (buf p) + len bs <= maxInt → m (mkst (Some p) w) = (Ok a, mkst (Some (p_emit p bs objs)) w).

Definition consumes_if {A} (m : PM W B A) (a : A) (bs : list Z) (objs : list parcelObjectRef) : Prop :=
  ∀ p w pre post, Q p → buf p = pre ++ bs ++ post → pos p = len pre → len (buf p) <= maxInt → registered p (len pre) objs →
    m (mkst (Some p) w) = (Ok a, mkst (Some (set_pos (len pre + len bs) p)) w).

Lemma emits_emits_if {A} (m : PM W B A) a bs objs : emits m a bs objs → emits_if m a bs objs.
Proof. intros H p w _. apply H. Qed.

Lemma consumes_consumes_if {A} (m : PM W B A) a bs objs : consumes m a bs objs → consumes_if m a bs objs.
Proof. intros H p w pre post _. apply H. Qed.

Hypothesis Q_emit : ∀ p bs objs, Q p → Q (p_emit p bs objs).
Hypothesis Q_pos : ∀ p n, Q p → Q (set_pos n p).

Lemma emits_if_bind {A C} (m : PM W B A) (k : A → PM W B C) a c b1 o1 b2 o2 :
  emits_if m a b1 o1 → emits_if (k a) c b2 o2 → emits_if (m ≫= k) c (b1 ++ b2) (o1 ++ (shift_ref (len b1) <$> o2)).
Proof using Q_emit.
  intros H1 H2 p w HQ Hp Hl. rewrite length_app in Hl.
  rewrite (bind_ok _ _ _ _ _ (H1 p w HQ Hp ltac:(lia))).
  rewrite H2; [by rewrite p_emit_app|by apply Q_emit| |]; cbn; rewrite length_app; lia.
Qed.

Lemma consumes_if_bind {A C} (m : PM W B A) (k : A → PM W B C) a c b1 o1 b2 o2 :
  consumes_if m a b1 o1 → consumes_if (k a) c b2 o2 → consumes_if (m ≫= k) c (b1 ++ b2) (o1 ++ (shift_ref (len b1) <$> o2)).
Proof using Q_pos.
  intros H1 H2 p w pre post HQ Hb Hp Hl Hr. apply Forall_app in Hr as [Hr1 Hr2].
  rewrite <- app_assoc in Hb. rewrite (bind_ok _ _ _ _ _ (H1 p w pre _ HQ Hb Hp Hl Hr1)).
  rewrite (H2 (set_pos (len pre + len b1) p) w (pre ++ b1) post).
  - cbn. do 3 f_equal. rewrite !length_app. unfold set_pos; cbn. f_equal. lia.
  - by apply Q_pos.
  - cbn. by rewrite Hb, <- app_assoc.
  - cbn. rewrite length_app. lia.
  - done.
  - rewrite length_app, Nat2Z.inj_add. by apply registered_shift.
Qed.
Lemma consumes_if_fmap {A C} (m : PM W B A) (f : A → C) a c bs objs :
  consumes_if m a bs objs → f a = c → consumes_if (x ← m; mret (f x)) c bs objs.
Proof using. intros H <- p w pre post HQ Hb Hp Hl Hr. by rewrite (bind_ok _ _ _ _ _ (H p w pre post HQ Hb Hp Hl Hr)). Qed.
End Conditional.

(** ** The request on the wire *)

Section Request.
Context {W B : Type} `{BM : !BinderMarshal W B}.

Definition allows_fds (p : Parcel W B) : Prop := Z.land (flags p) parcelFlagAllowFDs ≠ 0.

(** A received Parcel: its descriptors are the reader's, and its resolver knows the
    two handles. *)
Definition received (f : Z → W → option B * W) (p : Parcel W B) : Prop :=
  wireFDsOwned p = true ∧ binderObjectResolve p = None ∧ binderResolver p = Some f.

(** The two encoders of a request write the same. *)
Lemma encoders_agree inFD outFD errFD args (callback result : option B) (s : pst W B) :
  EncodeRequest inFD outFD errFD args callback result s = writeShellCommandRequest inFD outFD errFD args callback result s.
Proof.
  unfold EncodeRequest, writeShellCommandRequest, write_request, mbind, ST_bind.
  repeat (match goal with |- context [match ?m with (_, _) => _ end] =>
            match m with context [match _ with _ => _ end] => fail 1 | _ => destruct m as [[[]|?|?] ?] end
          end; try done).
Qed.

Lemma emits_fd fd : in_u 31 fd → emits_if allows_fds (WriteFileDescriptor (NewFileDescriptor fd)) tt (fd_bytes fd) [fd_ref fd].
Proof.
  intros Hfd p w HQ Hp Hl. change (len (fd_bytes fd)) with 24 in Hl.
  by apply write_fd_at.
Qed.

Lemma consumes_fd f fd : in_u 31 fd → consumes_if (received f) ReadFileDescriptor (mkFD fd true) (fd_bytes fd) [fd_ref fd].
Proof.
  intros Hfd p w pre post (Ho & _) Hb Hp Hl Hr. change (len (fd_bytes fd)) with 24.
  by rewrite (read_fd_ok p w pre post fd Hfd Hb Hp Hl Hr), Ho.
Qed.

Lemma consumes_binder f b h stability : in_u 32 h → in_s 32 stability → (∀ w, f h w = (Some b, w)) →
  consumes_if (received f) ReadStrongBinder (Some b) (handle_bytes h stability) [strong_ref h stability].
Proof.
  intros Hh Hs Hf p w pre post (_ & Hr1 & Hr2) Hb Hp Hl Hr.
  assert (Hn : len (handle_bytes h stability) = 28)
    by (unfold handle_bytes; by rewrite length_app, length_handle_flat, length_le_bytes).
  rewrite Hn. unfold ReadStrongBinder.
  rewrite (bind_ok _ _ _ _ _ (consumes_strong (handle_flat h) stability stability h h _ (length_handle_flat h) Hs eq_refl
             (or_introl (conj (slice_handle_type h) (slice_handle h Hh))) p w pre post Hb Hp Hl Hr)).
  cbn [obj_Kind]. rewrite bool_decide_false by done. rewrite bind_receiver. cbn [ptr].
  rewrite slice_handle_type, Z.eqb_refl.
  change (binderObjectResolve (set_pos _ p)) with (binderObjectResolve p).
  change (binderResolver (set_pos _ p)) with (binderResolver p). rewrite Hr1, Hr2.
  unfold resolve. cbn [world ptr obj_Handle]. by rewrite Hf.
Qed.

(** A Binder that goes out as a handle. *)
Definition marshals (b : B) (h stability : Z) : Prop :=
  in_u 32 h ∧ in_s 32 stability ∧ emits (WriteStrongBinder (Some b)) tt (handle_bytes h stability) [strong_ref h stability].

Context (inFD outFD errFD : Z) (args : list string) (cb res : B) (hc sc hr sr : Z).

Definition request_wire : list Z :=
  fd_bytes inFD ++ fd_bytes outFD ++ fd_bytes errFD ++ le_bytes 4 (u32 (len args)) ++ cat_bytes string_bytes args ++
  handle_bytes hc sc ++ handle_bytes hr sr.

Definition request_objects : list parcelObjectRef :=
  [fd_ref inFD] ++ (shift_ref 24 <$> [fd_ref outFD] ++ (shift_ref 24 <$> [fd_ref errFD] ++ (shift_ref 24 <$> [] ++ (shift_ref 4 <$>
    [] ++ (shift_ref (len (cat_bytes string_bytes args)) <$> [strong_ref hc sc] ++ (shift_ref 28 <$> [strong_ref hr sr])))))).

Lemma request_objects_wf : objs_wf request_objects (len request_wire).
Proof.
  unfold request_objects, request_wire, handle_bytes. rewrite !length_app, !length_handle_flat, !length_le_bytes, !Nat2Z.inj_add.
  repeat (apply objs_wf_app; [lia|lia|try (split; repeat constructor; cbn; lia)|]). apply objs_wf_strong. lia.
Qed.

Hypothesis fds_ok : in_u 31 inFD ∧ in_u 31 outFD ∧ in_u 31 errFD.
Hypothesis args_fit : len args <= maxInt32 ∧ Forall string_ok args.
Hypothesis cb_marshals : marshals cb hc sc.
Hypothesis res_marshals : marshals res hr sr.

Lemma emits_request : emits_if allows_fds (write_request inFD outFD errFD args (Some cb) (Some res)) tt request_wire request_objects.
Proof using All.
  destruct fds_ok as (F1 & F2 & F3), args_fit as [Hn Hs]. unfold write_request, request_wire, request_objects.
  assert (Hq : ∀ p bs objs, allows_fds p → allows_fds (p_emit p bs objs)) by done.
  apply (emits_if_bind _ Hq) with (a := tt); [by apply emits_fd|].
  apply (emits_if_bind _ Hq) with (a := tt); [by apply emits_fd|].
  apply (emits_if_bind _ Hq) with (a := tt); [by apply emits_fd|].
  apply (emits_if_bind _ Hq) with (a := tt).
  { apply emits_emits_if. unfold i32. rewrite wraps_id by width. apply emits_WriteInt32. }
  apply (emits_if_bind _ Hq) with (a := tt).
  { apply emits_emits_if. rewrite <- (cat_objs_nil string_bytes args). apply emits_elems.
    eapply Forall_impl; [exact Hs|]. intros s [_ Hf]. by apply emits_WriteString. }
  apply (emits_if_bind _ Hq) with (a := tt); apply emits_emits_if; [apply cb_marshals|apply res_marshals].
Qed.

End Request.

Section Decoding.
Context {W B : Type} (inFD outFD errFD : Z) (args : list string) (cb res : B) (hc sc hr sr : Z).
Hypothesis fds_ok : in_u 31 inFD ∧ in_u 31 outFD ∧ in_u 31 errFD.
Hypothesis args_fit : len args <= maxInt32 ∧ Forall string_ok args.
Hypothesis handles_ok : in_u 32 hc ∧ in_s 32 sc ∧ in_u 32 hr ∧ in_s 32 sr.

(** A process in which the two handles stand for the Binders [cb] and [res]. *)
Context (f : Z → W → option B * W).
Hypothesis resolves : ∀ w, f hc w = (Some cb, w) ∧ f hr w = (Some res, w).

Lemma consumes_request : consumes_if (received f) DecodeRequest
  (mkRequest (mkFD inFD true) (mkFD outFD true) (mkFD errFD true) args (Some cb) (Some res))
  (request_wire inFD outFD errFD args hc sc hr sr) (request_objects inFD outFD errFD args hc sc hr sr).
Proof using All.
  destruct fds_ok as (F1 & F2 & F3), args_fit as [Hn Hs], handles_ok as (C1 & C2 & R1 & R2).
  unfold DecodeRequest, request_wire, request_objects.
  assert (Hq : ∀ p n, received (W := W) (B := B) f p → received f (set_pos n p)) by done.
  eapply (consumes_if_bind _ Hq); [by apply consumes_fd|].
  eapply (consumes_if_bind _ Hq); [by apply consumes_fd|].
  eapply (consumes_if_bind _ Hq); [by apply consumes_fd|].
  eapply (consumes_if_bind _ Hq); [apply consumes_consumes_if, consumes_ReadInt32; width|].
  cbv beta. rewrite ltb_false by lia. rewrite Nat2Z.id.
  eapply (consumes_if_bind _ Hq).
  { apply consumes_consumes_if. assert (H := consumes_elems (W:=W) (B:=B) ReadString id string_bytes (λ _, []) args).
    rewrite list_fmap_id, cat_objs_nil in H. apply H. eapply Forall_impl; [exact Hs|]. intros s Hf. by apply consumes_ReadString_id. }
  eapply (consumes_if_bind _ Hq).
  { apply consumes_binder; [done|done|]. intros w. by destruct (resolves w). }
  eapply consumes_if_fmap; [|done]. apply consumes_binder; [done|done|]. intros w. by destruct (resolves w).
Qed.
End Decoding.

(** ** The result receiver *)

Definition result_wire (code : Z) : list Z := token_bytes resultReceiverDescriptor ++ le_bytes 4 (u32 code).

Lemma descriptor_ok : string_ok resultReceiverDescriptor.
Proof. by apply (bool_decide_unpack _). Qed.

Lemma result_wire_fits code : len (result_wire code) <= maxInt.
Proof.
  unfold result_wire. rewrite length_app, length_le_bytes. assert (H : len (token_bytes resultReceiverDescriptor) <= 1000) by (vm_compute; discriminate).
  unfold maxInt. lia.
Qed.

(** What the service writes, with the cursor rewound. *)
Lemma write_result {W B : Type} code (w : W) :
  on_parcel (Some NewParcel) (WriteInterfaceToken resultReceiverDescriptor;; WriteInt32 code;; SetPosition 0) w =
    (Ok (tt, Some (set_pos 0 (p_emit NewParcel (result_wire code) []) : Parcel W B)), w).
Proof.
  assert (Hf := result_wire_fits code). unfold on_parcel.
  assert (E1 := emits_bind_nil _ (λ _, WriteInt32 code) tt tt _ _ (emits_WriteInterfaceToken (W:=W) (B:=B) _ descriptor_ok) (emits_WriteInt32 code)).
  rewrite <- (bind_assoc (WriteInterfaceToken resultReceiverDescriptor) (λ _, WriteInt32 code) (λ _, SetPosition 0)).
  rewrite (bind_ok _ _ _ _ _ (E1 NewParcel w eq_refl Hf)), SetPosition_0. done.
Qed.

Section Receiver.
Context {E B : Type}.
Abbreviation W := (shell_world E).

(** The channel is closed when there is a result. *)
Definition receiver_ok (r : ResultReceiverHandler) : Prop := rr_done r = rr_have r.

Lemma Send_ok code (w : W) : receiver_ok (sw_result w) → Send code w = (Ok tt, set_result (mkReceiver true code true) w).
Proof. unfold receiver_ok, Send. destruct (sw_result w) as [[] ? []]; cbn; done. Qed.

(** What the receiver does with it. *)
Lemma receive_result code (q : Parcel W B) (w : W) : in_s 32 code → receiver_ok (sw_result w) →
  buf q = result_wire code → pos q = 0 →
  ∃ reply, result_HandleTransact resultReceiverSendTransaction (Some q) w = (Ok reply, set_result (mkReceiver true code true) w).
Proof.
  intros Hc Hr Hb Hp. unfold result_HandleTransact. rewrite Z.eqb_refl. cbn [negb].
  assert (Hl : len (buf q) <= maxInt) by (rewrite Hb; apply result_wire_fits).
  assert (Hread : @consumes W B _ (expectInterfaceToken resultReceiverDescriptor;; ReadInt32) code (result_wire code) []).
  { apply consumes_bind_nil with (a := tt); [|by apply consumes_ReadInt32].
    unfold expectInterfaceToken. rewrite <- (app_nil_r (token_bytes _)).
    eapply consumes_bind_nil; [apply consumes_ReadInterfaceToken, descriptor_ok|]. rewrite bool_decide_eq_false_2 by tauto.
    apply consumes_ret. }
  unfold on_parcel at 1. rewrite (Hread q w [] []); [|by rewrite Hb, app_nil_r|done|done|constructor]. cbv beta iota.
  rewrite Send_ok by done. cbv iota. unfold on_parcel, WriteStatus. rewrite bind_receiver. cbn [ptr TransportErr Remote].
  rewrite (emits_WriteInt32 (W:=W) (B:=B) ExceptionNone NewParcel _ eq_refl ltac:(done)). by eexists.
Qed.
End Receiver.

(** ** Opening a file through the callback *)

Section Callback.
Context {E B : Type} `{OS : !ShellOS E} `{FS : !FDSys (shell_world E)} `{TB : !ToolBinder (shell_world E) B}.
Context (accessChecker : option (string → string → bool → bool → option string)).
Abbreviation W := (shell_world E).
Implicit Types w : W.

(** A Parcel that has crossed: its bytes and objects, at the start; its descriptors
    are the receiver's. *)
Definition crossed (arrive : Parcel W B → Parcel W B) : Prop :=
  ∀ p, buf (arrive p) = buf p ∧ objects (arrive p) = objects p ∧ pos (arrive p) = 0 ∧ wireFDsOwned (arrive p) = true.

(** The Binder of the callback: a transaction is handled, its reply crosses back. *)
Definition serves_callback (arrive back : Parcel W B → Parcel W B) (b : B) : Prop :=
  ∀ ctx code data flags w, tb_Transact b ctx code data flags w =
    match callback_HandleTransact accessChecker code (arrive <$> data) w with
    | (Ok reply, w) => (Ok (back <$> reply), w) | (Err e, w) => (Err e, w) | (Panic y, w) => (Panic y, w)
    end.

Definition open_wire (path seLinuxContext mode : string) : list Z :=
  token_bytes shellCallbackDescriptor ++ string_bytes path ++ string_bytes seLinuxContext ++ string_bytes mode.

Lemma callback_descriptor_ok : string_ok shellCallbackDescriptor.
Proof. by apply (bool_decide_unpack _). Qed.

(** The request. *)
Lemma write_open path seLinuxContext mode w : string_ok path → string_ok seLinuxContext → string_ok mode →
  len (open_wire path seLinuxContext mode) <= maxInt →
  on_parcel (Some NewParcel) (WriteInterfaceToken shellCallbackDescriptor;; WriteString path;; WriteString seLinuxContext;;
                              WriteString mode;; SetPosition 0) w =
    (Ok (tt, Some (set_pos 0 (p_emit NewParcel (open_wire path seLinuxContext mode) []) : Parcel W B)), w).
Proof.
  intros [_ H1] [_ H2] [_ H3] Hl.
  assert (Hw : @emits W B unit (WriteInterfaceToken shellCallbackDescriptor;; WriteString path;; WriteString seLinuxContext;; WriteString mode) tt
                 (open_wire path seLinuxContext mode) []).
  { do 3 (apply emits_bind_nil with (a := tt); [first [apply emits_WriteInterfaceToken, callback_descriptor_ok|by apply emits_WriteString]|]).
    by apply emits_WriteString. }
  specialize (Hw NewParcel w eq_refl Hl). unfold on_parcel.
  do 3 (apply bind_ok_inv in Hw as ([] & ? & Hs & Hw); rewrite (bind_ok _ _ _ _ _ Hs); clear Hs).
  by rewrite (bind_ok _ _ _ _ _ Hw), SetPosition_0.
Qed.

Lemma consumes_open path seLinuxContext mode : string_ok path → string_ok seLinuxContext → string_ok mode →
  @consumes W B _ (expectInterfaceToken shellCallbackDescriptor;;
    path ← ReadString; seLinuxContext ← ReadString; mode ← ReadString; mret (path, seLinuxContext, mode))
    (path, seLinuxContext, mode) (open_wire path seLinuxContext mode) [].
Proof.
  intros H1 H2 H3. apply consumes_bind_nil with (a := tt).
  - unfold expectInterfaceToken. rewrite <- (app_nil_r (token_bytes _)).
    eapply consumes_bind_nil; [apply consumes_ReadInterfaceToken, callback_descriptor_ok|]. rewrite bool_decide_eq_false_2 by tauto.
    apply consumes_ret.
  - do 2 (eapply consumes_bind_nil; [by apply consumes_ReadString_id|]). by eapply consumes_fmap; [apply consumes_ReadString_id|].
Qed.

(** The reply. *)
Definition file_wire (fd : Z) : list Z := if fd <? 0 then le_bytes 4 (u32 0) else le_bytes 4 (u32 1) ++ le_bytes 4 (u32 0) ++ fd_bytes fd.
Definition file_objects (fd : Z) : list parcelObjectRef :=
  if fd <? 0 then [] else [] ++ (shift_ref 4 <$> [] ++ (shift_ref 4 <$> [fd_ref fd])).

Lemma file_objects_wf fd : objs_wf (file_objects fd) (len (file_wire fd)).
Proof.
  unfold file_objects, file_wire. destruct (fd <? 0); [apply objs_wf_nil|].
  rewrite !length_app, !length_le_bytes, !Nat2Z.inj_add.
  do 2 (apply objs_wf_app; [lia|lia|apply objs_wf_nil|]). split; repeat constructor; cbn; lia.
Qed.

Lemma emits_file fd : fd < 2 ^ 31 → emits_if allows_fds (@writeOptionalParcelFileDescriptor E B fd) tt (file_wire fd) (file_objects fd).
Proof.
  intros Hfd. unfold writeOptionalParcelFileDescriptor, file_wire, file_objects, WriteParcelFileDescriptor.
  destruct (Z.ltb_spec fd 0); [apply emits_emits_if, emits_WriteInt32|].
  assert (Hq : ∀ (p : Parcel W B) bs objs, allows_fds p → allows_fds (p_emit p bs objs)) by done.
  apply (emits_if_bind _ Hq) with (a := tt); [apply emits_emits_if, emits_WriteInt32|].
  apply (emits_if_bind _ Hq) with (a := tt); [apply emits_emits_if, emits_WriteInt32|].
  apply emits_fd. width.
Qed.

Definition owns_fds (p : Parcel W B) : Prop := wireFDsOwned p = true.

Lemma consumes_file fd : fd < 2 ^ 31 →
  consumes_if owns_fds readOptionalParcelFileDescriptor (if fd <? 0 then NewFileDescriptor (-1) else mkFD fd true) (file_wire fd) (file_objects fd).
Proof.
  intros Hfd. unfold readOptionalParcelFileDescriptor, file_wire, file_objects, ReadParcelFileDescriptor.
  assert (Hq : ∀ p n, owns_fds p → owns_fds (set_pos n p)) by done.
  destruct (Z.ltb_spec fd 0).
  - apply consumes_consumes_if. rewrite <- (app_nil_r (le_bytes 4 _)). eapply consumes_bind_nil; [by apply consumes_ReadInt32|]. apply consumes_ret.
  - eapply (consumes_if_bind _ Hq); [by apply consumes_consumes_if, consumes_ReadInt32|]. cbv beta. cbn [Z.eqb negb].
    eapply (consumes_if_bind _ Hq); [by apply consumes_consumes_if, consumes_ReadInt32|]. cbv beta. cbn [Z.eqb negb].
    intros p w pre post Ho Hb Hp Hl Hr. assert (Hf : in_u 31 fd) by width.
    rewrite (bind_ok _ _ _ _ _ (read_fd_ok p w pre post fd Hf Hb Hp Hl Hr)). unfold owns_fds in Ho. by rewrite Ho.
Qed.

Definition open_reply (fd : Z) : Parcel W B :=
  p_emit NewParcel (le_bytes 4 (u32 0) ++ file_wire fd) ([] ++ (shift_ref 4 <$> file_objects fd)).

Lemma reply_fits fd : len (le_bytes 4 (u32 0) ++ file_wire fd) <= maxInt.
Proof.
  unfold file_wire. destruct (fd <? 0); rewrite !length_app, !length_le_bytes; change (length (fd_bytes fd)) with 24%nat; unfold maxInt; lia.
Qed.

(** The handler, given the request. *)
Lemma handle_open path seLinuxContext mode fd w w' (q : Parcel W B) : string_ok path → string_ok seLinuxContext → string_ok mode →
  buf q = open_wire path seLinuxContext mode → pos q = 0 → len (buf q) <= maxInt →
  OpenFile accessChecker path seLinuxContext mode w = (fd, w') → fd < 2 ^ 31 →
  callback_HandleTransact accessChecker shellCallbackOpenFileTransaction (Some q) w = (Ok (Some (open_reply fd)), w').
Proof.
  intros H1 H2 H3 Hb Hp Hl Ho Hfd. unfold callback_HandleTransact. rewrite Z.eqb_refl. cbn [negb]. unfold on_parcel at 1.
  rewrite (consumes_open path seLinuxContext mode H1 H2 H3 q w [] []); [|by rewrite Hb, app_nil_r|done|done|constructor]. cbv beta iota.
  assert (Hr := reply_fits fd). rewrite length_app, length_le_bytes in Hr. unfold on_parcel.
  rewrite (bind_ok _ _ _ _ _ (emits_ok_status NewParcel w eq_refl ltac:(done))).
  set (p1 := p_emit NewParcel _ _).
  assert (Hi : in_world (λ w, let '(fd, w) := OpenFile accessChecker path seLinuxContext mode w in (Ok fd, w)) (mkst (Some p1) w) =
               (Ok fd, mkst (Some p1) w')) by (unfold in_world; cbn [world ptr]; by rewrite Ho).
  rewrite (bind_ok _ _ _ _ _ Hi), (emits_file fd Hfd p1 w'); [|done|done|change (len (buf p1)) with 4; lia].
  unfold p1, open_reply. by rewrite p_emit_app.
Qed.

(** What the client of the callback gets is what the callback opened, as a descriptor
    of its own; a refusal is the descriptor -1. *)
Theorem callback_opens arrive back b ctx path seLinuxContext mode fd w w' :
  crossed arrive → crossed back → serves_callback arrive back b →
  string_ok path → string_ok seLinuxContext → string_ok mode → len (open_wire path seLinuxContext mode) <= maxInt →
  OpenFile accessChecker path seLinuxContext mode w = (fd, w') → fd < 2 ^ 31 →
  callback_OpenFile ctx b path seLinuxContext mode w = (Ok (if fd <? 0 then NewFileDescriptor (-1) else mkFD fd true), w').
Proof.
  intros Ha Hk Hs H1 H2 H3 Hl Ho Hfd. unfold callback_OpenFile. rewrite write_open by done. rewrite Hs. cbn [fmap option_fmap option_map].
  set (p := set_pos 0 _). destruct (Ha p) as (Ab & _ & Ap & _).
  rewrite (handle_open path seLinuxContext mode fd w w' (arrive p)); [|done|done|done|by rewrite Ab|done|by rewrite Ab|done|done].
  cbn [fmap option_fmap option_map]. destruct (Hk (open_reply fd)) as (Kb & Ko & Kp & Kf). set (q := back (open_reply fd)) in *. clearbody q.
  assert (Hreg : registered q 0 ([] ++ (shift_ref 4 <$> file_objects fd))).
  { assert (Hw := registered_emit (W := W) (B := B) NewParcel (le_bytes 4 (u32 0) ++ file_wire fd) ([] ++ (shift_ref 4 <$> file_objects fd)) append_ok_new).
    unfold registered, objectAt in Hw |- *. rewrite Ko. apply Hw. rewrite length_app, length_le_bytes, Nat2Z.inj_add.
    apply objs_wf_app; [lia|lia|apply objs_wf_nil|apply file_objects_wf]. }
  assert (Hq : ∀ p n, owns_fds p → owns_fds (set_pos n p)) by done.
  assert (Hread : consumes_if owns_fds read_open_reply (if fd <? 0 then NewFileDescriptor (-1) else mkFD fd true)
                    (le_bytes 4 (u32 0) ++ file_wire fd) ([] ++ (shift_ref 4 <$> file_objects fd))).
  { eapply (consumes_if_bind _ Hq); [apply consumes_consumes_if, consumes_ok_ReadStatus|]. by apply consumes_file. }
  unfold on_parcel. rewrite (Hread q w' [] []); [done|done|by rewrite app_nil_r|done|rewrite Kb; apply reply_fits|exact Hreg].
Qed.
End Callback.

(** ** What the input service accepts

    An optional source, an optional display, then a command it knows. *)

Definition input_command (args : list string) : Prop :=
  ∃ source display cmd rest,
    args = source ++ display ++ cmd :: rest ∧
    (source = [] ∨ ∃ s, source = [s] ∧ s ∈ knownSources) ∧
    (display = [] ∨ ∃ d, display = ["-d"; d]) ∧
    cmd ∈ knownCommands.

(** The same, one word at a time. *)
Definition starts_command (argv : list string) : Prop := match argv with cmd :: _ => cmd ∈ knownCommands | [] => False end.
Definition after_display (argv : list string) : option (list string) :=
  match argv with
  | d :: rest => if bool_decide (d = "-d") then match rest with _ :: argv => Some argv | [] => None end else Some argv
  | [] => Some []
  end.
Definition after_source (args : list string) : list string :=
  match args with s :: argv => if bool_decide (s ∈ knownSources) then argv else args | [] => [] end.

Lemma command_not_source c : c ∈ knownCommands → (c ∉ knownSources) ∧ c ≠ "-d".
Proof.
  assert (H : Forall (λ c, (c ∉ knownSources) ∧ c ≠ "-d") knownCommands) by (by apply (bool_decide_unpack _)).
  rewrite Forall_forall in H. apply H.
Qed.

Lemma input_command_words args : input_command args ↔ ∃ argv, after_display (after_source args) = Some argv ∧ starts_command argv.
Proof.
  unfold after_display. split.
  - intros (source & display & cmd & rest & -> & Hs & Hd & Hc). exists (cmd :: rest). split; [|done].
    assert (E : after_source (source ++ display ++ cmd :: rest) = display ++ cmd :: rest).
    { destruct (command_not_source cmd Hc) as [Hn _]. destruct Hs as [-> | (s & -> & Hs)]; cbn [app after_source].
      - destruct Hd as [-> | (d & ->)]; cbn [app after_source]; (rewrite bool_decide_eq_false_2; [done|]); [done|]. by apply (bool_decide_unpack _).
      - by rewrite bool_decide_eq_true_2. }
    rewrite E. destruct (command_not_source cmd Hc) as [_ Hn]. destruct Hd as [-> | (d & ->)]; cbn [app].
    + by rewrite bool_decide_eq_false_2.
    + by rewrite bool_decide_eq_true_2.
  - intros (argv & Ha & Hc). destruct argv as [|cmd rest]; [done|]. cbn in Hc.
    assert (Hsrc : ∃ source, args = source ++ after_source args ∧ (source = [] ∨ ∃ s, source = [s] ∧ s ∈ knownSources)).
    { destruct args as [|s args]; [exists []; auto|]. cbn [after_source]. case_bool_decide; [exists [s]|exists []]; eauto. }
    destruct Hsrc as (source & Ea & Hs). rewrite Ea. destruct (after_source args) as [|d argv]; [done|]. clear Ea.
    destruct (decide (d = "-d")) as [->|Hd].
    + rewrite bool_decide_eq_true_2 in Ha by done. destruct argv as [|x argv]; [done|]. injection Ha as ->.
      exists source, ["-d"; x], cmd, rest. eauto 10.
    + rewrite bool_decide_eq_false_2 in Ha by done. injection Ha as -> ->. exists source, [], cmd, rest. eauto 10.
Qed.

(** What the service says about other arguments, and whether on the error stream;
    [None]: nothing, it has a command. *)
Definition objection (argv : list string) : option (bool * string) :=
  match argv with
  | [] => Some (false, UsageHeader)
  | cmd :: _ =>
      if bool_decide (cmd ∈ ["help"; "-h"]) then Some (false, UsageHeader)
      else if bool_decide (cmd ∈ knownCommands) then None
      else Some (false, line ("Unknown command: " +:+ cmd))
  end.
Definition complaint (args : list string) : option (bool * string) :=
  match after_display (after_source args) with
  | None => Some (true, line "Error: missing DISPLAY_ID after -d")
  | Some argv => objection argv
  end.

Lemma complaint_command args : complaint args = None ↔ input_command args.
Proof.
  rewrite input_command_words. unfold complaint, objection. destruct (after_display (after_source args)) as [[|cmd rest]|].
  - split; [done|]. by intros (? & [= <-] & ?).
  - assert (Hd : Forall (λ c, c ∉ knownCommands) ["help"; "-h"]) by (by apply (bool_decide_unpack _)).
    rewrite Forall_forall in Hd. case_bool_decide as Hh; [|case_bool_decide as Hk].
    + split; [done|]. intros (? & [= <-] & Hc). by destruct (Hd cmd Hh).
    + split; [intros _|done]. by eexists.
    + split; [done|]. intros (? & [= <-] & Hc). done.
  - split; [done|]. by intros (? & ? & ?).
Qed.

(** ** The service's process

    Writes to its descriptors may fail.  A one-way transaction is queued by the
    driver, or refused; the sender does not wait for it. *)

Record message := mkMessage { ms_code : Z; ms_bytes : list Z }.
Record service_world (E : Type) := mkServiceWorld { sv_mail : list message; sv_env : E }.
Arguments mkServiceWorld {E} _ _.
Arguments sv_mail {E} _.
Arguments sv_env {E} _.

Section Service.
Context {E B : Type} (write_out : Z → list Z → E → (Z * option error) * E) (accept : E → option error * E).
Abbreviation V := (service_world E).

#[local] Instance service_fds : FDSys V :=
  {| sys_Write := λ fd bs v, let '(r, e) := write_out fd bs (sv_env v) in (r, mkServiceWorld (sv_mail v) e); sys_Close := λ _ v, v |}.
#[local] Instance service_binders : ToolBinder V B :=
  {| tb_Transact := λ _ _ code data _ v,
       let '(err, e) := accept (sv_env v) in
       match err with
       | Some err => (Err err, mkServiceWorld (sv_mail v) e)
       | None => (Ok None, mkServiceWorld (sv_mail v ++ [mkMessage code (from_option buf [] data)]) e)
       end;
     tb_Descriptor := λ _ _ v, (Ok "", v); tb_DebugHandle := λ _, None |}.

(** A handler around the protocol: it decodes the request and executes it. *)
Definition decode_and_execute (ctx : context) (data : Parcel V B) (v : V) : res unit * V :=
  match on_parcel (Some data) DecodeRequest v with
  | (Ok (req, _), v) => let '(_, r, v) := Execute ctx req v in (r, v)
  | (Err e, v) => (Err e, v)
  | (Panic y, v) => (Panic y, v)
  end.

(** What executing a request comes to. *)
Definition verdict_message (code : Z) : message := mkMessage resultReceiverSendTransaction (result_wire code).
Definition post_verdict (code : Z) (v : V) : res unit * V :=
  let '(err, e) := accept (sv_env v) in
  match err with
  | Some err => (Err err, mkServiceWorld (sv_mail v) e)
  | None => (Ok tt, mkServiceWorld (sv_mail v ++ [verdict_message code]) e)
  end.
Definition settle (outFD errFD : Z) (said : option (bool * string)) (v : V) : res unit * V :=
  match said with
  | None => post_verdict 0 v
  | Some (to_err, text) =>
      let '((_, err), e) := write_out (if to_err then errFD else outFD) (bytes_of text) (sv_env v) in
      match err with
      | Some err => (Err err, mkServiceWorld (sv_mail v) e)
      | None => post_verdict (-1) (mkServiceWorld (sv_mail v) e)
      end
  end.

Implicit Types req : Request B.

Lemma finalize_posts ctx req o code v b : rq_ResultReceiver req = Some b →
  ∃ o', finalize ctx req o code v = (o', (post_verdict code v).1, (post_verdict code v).2).
Proof.
  intros Hr. unfold finalize, sendResult, post_verdict. rewrite Hr, write_result. cbn [tb_Transact service_binders].
  destruct (accept (sv_env v)) as [[err|] e]; by eexists.
Qed.

Section Execution.
Context (ctx : context) (req : Request B) (b : B).
Hypothesis receives : rq_ResultReceiver req = Some b.
Hypothesis streams : 0 <= fd_fd (rq_OutFD req) ∧ 0 <= fd_fd (rq_ErrFD req).
Abbreviation settles := (settle (fd_fd (rq_OutFD req)) (fd_fd (rq_ErrFD req))).

Lemma say_settles o (to_err : bool) text v :
  let r := settles (Some (to_err, text)) v in
  ∃ o', say_and_finalize ctx req o (if to_err then rq_ErrFD req else rq_OutFD req) text v = (o', r.1, r.2).
Proof using All.
  unfold say_and_finalize, writeFD, settle. rewrite ltb_false by (destruct to_err; apply streams). cbn [sys_Write service_fds].
  replace (fd_fd (if to_err then _ else _)) with (if to_err then fd_fd (rq_ErrFD req) else fd_fd (rq_OutFD req)) by by destruct to_err.
  destruct (write_out _ _ _) as [[n [err|]] e]; [by eexists|]. by eapply finalize_posts.
Qed.

Lemma run_input_settles o argv v : let r := settles (objection argv) v in ∃ o', run_input ctx req o argv v = (o', r.1, r.2).
Proof using All.
  unfold run_input, objection. destruct argv as [|cmd rest]; [apply (say_settles _ false)|].
  case_bool_decide; [apply (say_settles _ false)|]. cbv zeta. case_bool_decide; [by eapply finalize_posts|apply (say_settles _ false)].
Qed.

Lemma Execute_settles v : let r := settles (complaint (rq_Args req)) v in ∃ o, Execute ctx req v = (o, r.1, r.2).
Proof using All.
  unfold Execute, complaint.
  assert (Hs : ∃ source, match rq_Args req with
             | s :: argv => if bool_decide (s ∈ knownSources) then (s, argv) else ("", s :: argv)
             | [] => ("", [])
             end = (source, after_source (rq_Args req))).
  { destruct (rq_Args req) as [|s l]; cbn; [by eexists|]. case_bool_decide; by eexists. }
  destruct Hs as [source ->]. unfold after_display. destruct (after_source (rq_Args req)) as [|d rest]; [apply run_input_settles|].
  case_bool_decide; [|apply run_input_settles]. destruct rest as [|x argv]; [apply (say_settles _ true)|apply run_input_settles].
Qed.
End Execution.
End Service.

(** ** The command's process *)

Section Together.
Context {E Es B : Type} `{OS : !ShellOS E} `{BM : !BinderMarshal (shell_world E) B} `{TB : !ToolBinder (shell_world E) B}
  `{SC : !ShellConn (shell_world E) B}.
Abbreviation W := (shell_world E).
Abbreviation V := (service_world Es).

(** Writes to the service's descriptors, and whether the driver takes its one-way
    transactions. *)
Context (write_out : Z → list Z → Es → (Z * option error) * Es) (accept : Es → option error * Es).

(** The connection.  Both objects of the command can be registered; their Binders go
    out as handles, and closing them leaves the files alone. *)
Context (service callbackBinder resultBinder : B) (hc sc hr sr : Z).
Hypothesis registers : ∃ register, as_registrar service = Some register ∧
  ∀ w, register TheCallback w = (Ok callbackBinder, w) ∧ register TheResultReceiver w = (Ok resultBinder, w).
Hypothesis closes : ∀ b w, sw_callback (binder_Close b w) = sw_callback w.
Hypothesis go_out : marshals (W := W) callbackBinder hc sc ∧ marshals (W := W) resultBinder hr sr.

(** The driver.  A request comes out with its bytes and objects, its descriptors are
    the service's, and its handles stand for two Binders there; a message for the
    receiver comes out with its bytes. *)
Context (callback' result' : B) (resolver : Z → V → option B * V).
Context (arrive : Parcel W B → Parcel V B) (arrives : list Z → Parcel W B).
Hypothesis resolves : ∀ v, resolver hc v = (Some callback', v) ∧ resolver hr v = (Some result', v).
Hypothesis request_crosses : ∀ p, buf (arrive p) = buf p ∧ objects (arrive p) = objects p ∧ pos (arrive p) = 0 ∧ received resolver (arrive p).
Hypothesis message_crosses : ∀ bs, buf (arrives bs) = bs ∧ pos (arrives bs) = 0.

(** The handling of a message by the command's receiver. *)
Definition deliver (m : message) (w : W) : W := (result_HandleTransact (B := B) (ms_code m) (Some (arrives (ms_bytes m))) w).2.

(** What the other threads of the command may do: a queued message is handled, or
    anything that leaves the receiver alone. *)
Inductive others (mail : list message) : W → W → Prop :=
| others_none w : others mail w w
| others_deliver w m w' : m ∈ mail → others mail (deliver m w) w' → others mail w w'
| others_aside w w1 w' : sw_result w1 = sw_result w → others mail w1 w' → others mail w w'.

Definition orderly (mail : list message) (ev : wait_event E) : Prop :=
  match ev with OthersAct f | ChannelDone f => ∀ w, others mail w (f w) | ContextDone _ => True end.
Definition uncancelled (schedule : list (wait_event E)) : Prop := Forall (λ ev, match ev with ContextDone _ => False | _ => True end) schedule.

(** The program around the protocol, started in the state [v]: the call of the service
    decodes and executes the request; it succeeds exactly when that does.  The result
    may be delivered before the call returns, or later. *)
Definition served (ctx sctx : context) (v : V) : Prop := ∀ data w, ∃ w1,
  let '(r, v') := decode_and_execute write_out accept sctx (arrive data) v in
  others (sv_mail v') w w1 ∧
  match r with
  | Ok _ => ∃ reply, tb_Transact service (Some ctx) ShellCommandTransaction (Some data) FlagNone w = (Ok reply, w1)
  | _ => ∃ e, tb_Transact service (Some ctx) ShellCommandTransaction (Some data) FlagNone w = (Err e, w1)
  end.

(** *** The receiver while others act *)

Section Awaiting.
Context (code : Z) (code_ok : in_s 32 code).
Abbreviation mail := [verdict_message code].
Definition awaiting (w : W) : Prop :=
  receiver_ok (sw_result w) ∧ (rr_done (sw_result w) = true → rr_result (sw_result w) = code).

Lemma deliver_verdict w : awaiting w → sw_result (deliver (verdict_message code) w) = mkReceiver true code true.
Proof using All.
  intros [Hr _]. unfold deliver, verdict_message. cbn [ms_code ms_bytes]. destruct (message_crosses (result_wire code)) as [Hb Hp].
  by destruct (receive_result code (arrives (result_wire code)) w code_ok Hr Hb Hp) as [reply ->].
Qed.

Lemma others_await w w' : others mail w w' → awaiting w →
  awaiting w' ∧ (rr_done (sw_result w) = true → rr_done (sw_result w') = true).
Proof using All.
  induction 1 as [w|w m w' Hm _ IH|w w1 w' E1 _ IH]; intros Hw; [done|..].
  - apply list_elem_of_singleton in Hm as ->. pose proof (deliver_verdict w Hw) as Hd.
    destruct IH as [IH1 IH2]; [unfold awaiting; by rewrite Hd|]. split; [done|]. intros _. apply IH2. by rewrite Hd.
  - unfold awaiting in IH. rewrite E1 in IH. by apply IH.
Qed.

Lemma Wait_returns schedule w r w' : Forall (orderly mail) schedule → awaiting w → Wait schedule w = Some (r, w') →
  r = Ok code ∨ ∃ e, r = Err e ∧ ContextDone e ∈ schedule.
Proof using All.
  intros HF. revert w. induction HF as [|ev schedule Hev _ IH]; intros w Hw; [done|]. cbn [Wait].
  assert (Hrest : ∀ w, awaiting w → Wait schedule w = Some (r, w') → r = Ok code ∨ ∃ e, r = Err e ∧ ContextDone e ∈ ev :: schedule).
  { intros w1 Hw1 H1. destruct (IH w1 Hw1 H1) as [->|(e & -> & Hin)]; [by left|right]. exists e. split; [done|by right]. }
  destruct ev as [f|e|f]; cbn [orderly] in Hev.
  - apply Hrest. by eapply others_await.
  - intros [= <- <-]. right. exists e. split; [done|by left].
  - destruct (rr_done (sw_result w)) eqn:Ed; [|by apply Hrest]. intros [= <- <-]. left.
    destruct (others_await _ _ (Hev w) Hw) as [[_ Hr] Hk]. by rewrite Hr; [|apply Hk].
Qed.

Lemma Wait_done mid f post w : Forall (orderly mail) (mid ++ ChannelDone f :: post) → uncancelled mid → awaiting w →
  rr_done (sw_result w) = true → ∃ w', Wait (mid ++ ChannelDone f :: post) w = Some (Ok code, w').
Proof using All.
  intros HF Hu. revert w. induction Hu as [|ev mid Hev _ IH]; intros w Hw Hd; cbn [app] in *; apply Forall_cons in HF as [Hf HF].
  - cbn [Wait]. rewrite Hd. destruct (others_await _ _ (Hf w) Hw) as [[_ Hr] Hk]. rewrite Hr by by apply Hk. by eexists.
  - cbn [Wait]. destruct ev as [g|e|g]; cbn [orderly] in Hf; [|done|].
    + destruct (others_await _ _ (Hf w) Hw) as [Hw' Hk]. apply IH; [done..|by apply Hk].
    + rewrite Hd. destruct (others_await _ _ (Hf w) Hw) as [[_ Hr] Hk]. rewrite Hr by by apply Hk. by eexists.
Qed.

Lemma Wait_delivered pre mid f post w :
  Forall (orderly mail) (pre ++ OthersAct (deliver (verdict_message code)) :: mid ++ ChannelDone f :: post) →
  uncancelled pre → uncancelled mid → awaiting w →
  ∃ w', Wait (pre ++ OthersAct (deliver (verdict_message code)) :: mid ++ ChannelDone f :: post) w = Some (Ok code, w').
Proof using All.
  intros HF Hu Hm. revert w. induction Hu as [|ev pre Hev _ IH]; intros w Hw; cbn [app] in *; apply Forall_cons in HF as [Hf HF].
  - cbn [Wait]. pose proof (deliver_verdict w Hw) as Hd. apply Wait_done; [done..| |by rewrite Hd]. unfold awaiting. by rewrite Hd.
  - cbn [Wait]. destruct ev as [g|e|g]; cbn [orderly] in Hf; [|done|].
    + apply IH; [done|]. by apply (others_await _ _ (Hf w) Hw).
    + destruct (rr_done (sw_result w)) eqn:Ed; [|by apply IH].
      destruct (others_await _ _ (Hf w) Hw) as [[_ Hr] Hk]. rewrite Hr by by apply Hk. by eexists.
Qed.
End Awaiting.

(** *** The request *)

Implicit Types opts : @cmd_options E B.

Lemma sent_request opts args (w : W) : in_u 31 (co_InFD opts) ∧ in_u 31 (co_OutFD opts) ∧ in_u 31 (co_ErrFD opts) →
  len args <= maxInt32 ∧ Forall string_ok args →
  let wire := request_wire (co_InFD opts) (co_OutFD opts) (co_ErrFD opts) args hc sc hr sr in
  len wire <= maxInt →
  ∃ data s, on_parcel (Some NewParcel) (writeShellCommandRequest (co_InFD opts) (co_OutFD opts) (co_ErrFD opts) args (Some callbackBinder)
                                   (Some resultBinder)) w = (Ok (tt, Some data), w) ∧
    ∀ v, DecodeRequest (mkst (Some (arrive data)) v) =
      (Ok (mkRequest (mkFD (co_InFD opts) true) (mkFD (co_OutFD opts) true) (mkFD (co_ErrFD opts) true) args (Some callback') (Some result')),
       mkst (Some s) v).
Proof using All.
  intros Hfds Hargs wire Hlen. destruct go_out as [Hcb Hres].
  assert (Hh : in_u 32 hc ∧ in_s 32 sc ∧ in_u 32 hr ∧ in_s 32 sr) by (destruct Hcb as (? & ? & _), Hres as (? & ? & _); done).
  assert (Hw := emits_request _ _ _ args callbackBinder resultBinder hc sc hr sr Hfds Hargs Hcb Hres NewParcel w ltac:(done) eq_refl Hlen).
  set (objs := request_objects _ _ _ _ _ _ _ _) in Hw. fold wire in Hw. set (data := set_pos 0 (p_emit NewParcel wire objs) : Parcel W B).
  destruct (request_crosses data) as (Ab & Ao & Ap & Ar).
  exists data, (set_pos (len (@nil Z) + len wire) (arrive data)). split.
  - unfold on_parcel, writeShellCommandRequest. by rewrite (bind_ok _ _ _ _ _ Hw), SetPosition_0.
  - intros v. apply (consumes_request _ _ _ args callback' result' hc sc hr sr Hfds Hargs Hh resolver resolves (arrive data) v [] []).
    + exact Ar.
    + rewrite Ab. symmetry. apply app_nil_r.
    + done.
    + by rewrite Ab.
    + pose proof (registered_emit (W := W) (B := B) NewParcel wire objs append_ok_new
                    (request_objects_wf _ _ _ args hc sc hr sr)) as Hreg.
      unfold registered, objectAt in Hreg |- *. rewrite Ao. exact Hreg.
Qed.

(** The result for the arguments: 0 for a command, -1 otherwise. *)
Definition verdict (args : list string) : Z := match complaint args with None => 0 | Some _ => -1 end.

Lemma settle_mail outFD errFD args v : let r := settle write_out accept outFD errFD (complaint args) v in
  match r.1 with Ok _ => sv_mail r.2 = sv_mail v ++ [verdict_message (verdict args)] | Err _ => sv_mail r.2 = sv_mail v | Panic _ => False end.
Proof using Type.
  unfold settle, post_verdict, verdict. destruct (complaint args) as [[to_err text]|].
  - destruct (write_out _ _ _) as [[n [err|]] e]; [done|]. cbn [sv_env]. by destruct (accept e) as [[err|] e'].
  - by destruct (accept (sv_env v)) as [[err|] e'].
Qed.

Lemma closed_inv r code w' : then_close callbackBinder (then_close resultBinder r) = Some (code, w') →
  ∃ w0, r = Some (code, w0) ∧ sw_callback w' = sw_callback w0.
Proof using closes. destruct r as [[c w0]|]; [|done]. intros [= <- <-]. exists w0. by rewrite !closes. Qed.

Lemma callback_Close_files (w : W) : cb_openFDs (sw_callback (callback_Close w).2) = [].
Proof using Type. unfold callback_Close. by destruct (close_fds _ _). Qed.

(** C36: the exit code of the command is the verdict of the service.  "cmd input ARGS"
    is run with the service found and both of the command's objects registered; ARGS
    are well-formed strings and the request fits a Parcel.  The Binder driver and the
    program around the service's protocol are parameters: the request crosses with its
    bytes, objects and descriptors, the program decodes and executes it and fails the
    call exactly when that fails ([served]), and a one-way transaction is queued, or
    refused, without waiting for its receiver.  Writes of the service may fail.

    The service accepts an optional known source, an optional -d with a display, and a
    known command: its verdict is 0 then and -1 otherwise.  If it must complain and
    the write fails, or if the driver refuses its message, it sends no result and the
    command exits with the code of the failed call.  Otherwise exactly one message,
    with the verdict, is queued.  Whatever the command's other threads do, while the
    call lasts or while it waits (handle the message at any time, or none, or
    anything that leaves its receiver alone), the command then exits with the verdict
    or, its context being cancelled, with 1; and it does exit with the verdict once
    the message has been handled and it is scheduled, unless its context is cancelled
    first.  When it exits it has closed the files of the callback. *)
Theorem cmd_exit_code errno_text ctx sctx opts cwd args v schedule w :
  sm_CheckService (co_sm opts) ctx "input" w = (Ok (Some service), w) → resolveOptions opts (sw_env w) = inl cwd →
  in_u 31 (co_InFD opts) ∧ in_u 31 (co_OutFD opts) ∧ in_u 31 (co_ErrFD opts) →
  len args <= maxInt32 ∧ Forall string_ok args →
  len (request_wire (co_InFD opts) (co_OutFD opts) (co_ErrFD opts) args hc sc hr sr) <= maxInt →
  served ctx sctx v → sv_mail v = [] → Forall (orderly [verdict_message (verdict args)]) schedule →
  let '(r, v') := settle write_out accept (co_OutFD opts) (co_ErrFD opts) (complaint args) v in
  let run := cmd_Run errno_text ctx opts schedule ("input" :: args) w in
  (input_command args → verdict args = 0) ∧ (¬ input_command args → verdict args = -1) ∧
  (∀ code w', run = Some (code, w') → cb_openFDs (sw_callback w') = []) ∧
  match r with
  | Ok _ =>
      sv_mail v' = [verdict_message (verdict args)] ∧
      (∀ code w', run = Some (code, w') → code = Ok (verdict args) ∨ code = Ok 1 ∧ ∃ e, ContextDone e ∈ schedule) ∧
      (∀ pre mid f post, uncancelled pre → uncancelled mid →
         schedule = pre ++ OthersAct (deliver (verdict_message (verdict args))) :: mid ++ ChannelDone f :: post →
         ∃ w', run = Some (Ok (verdict args), w'))
  | Err _ => sv_mail v' = [] ∧ ∃ e w', run = Some (Ok (transactExitCode e), w')
  | Panic _ => False
  end.
Proof using All.
  intros Hsm Hcwd Hfds Hargs Hlen Hserved Hmail HF. destruct registers as (register & Hreg & Hregs).
  set (w1 := set_result NewResultReceiverHandler (set_callback (NewShellCallbackHandler cwd (sw_env w)) w)).
  destruct (sent_request opts args w1 Hfds Hargs Hlen) as (data & s & Hd & Hq).
  set (req := mkRequest _ _ _ _ _ _) in Hq.
  destruct (Execute_settles write_out accept sctx req result' eq_refl ltac:(destruct Hfds as (_ & [? _] & [? _]); by split) v) as [o Ho].
  cbn [rq_OutFD rq_ErrFD fd_fd rq_Args req] in Ho. pose proof (settle_mail (co_OutFD opts) (co_ErrFD opts) args v) as Hm. cbv zeta in Hm.
  destruct (settle _ _ _ _ _ v) as [r v'] eqn:Esettle. cbn [fst snd] in Ho, Hm.
  assert (Hrun : decode_and_execute write_out accept sctx (arrive data) v = (r, v')).
  { unfold decode_and_execute, on_parcel. rewrite Hq. cbn [world ptr]. by rewrite Ho. }
  destruct (Hserved data w1) as [w2 Hw2]. rewrite Hrun in Hw2. destruct Hw2 as [Hoth Hans].
  assert (HR : cmd_Run errno_text ctx opts schedule ("input" :: args) w =
    then_close callbackBinder (then_close resultBinder
      (call_service errno_text ctx opts schedule "input" service callbackBinder resultBinder args w1))).
  { unfold cmd_Run. rewrite Hcwd. assert (Hname : "input" ≠ "-w") by done.
    replace (match args with name :: args' => if bool_decide ("input" = "-w") then (true, name, args') else (false, "input", args)
                        | [] => (false, "input", args) end) with (false, "input", args) by (by destruct args; [|rewrite bool_decide_eq_false_2]).
    cbv iota beta. unfold lookupService. rewrite Hsm. unfold call_found. rewrite Hreg. fold w1. cbv zeta.
    destruct (Hregs w1) as [H1 H2]. by rewrite H1, H2. }
  unfold call_service in HR. rewrite Hd in HR. cbv zeta. rewrite HR. clear HR.
  split_and!; [intros Hc; unfold verdict; by apply complaint_command in Hc as ->| | |].
  { intros Hc. unfold verdict. destruct (complaint args) eqn:E0; [done|]. by apply complaint_command in E0. }
  { intros code w' (w0 & Hend & ->)%closed_inv. destruct r as [[]|er|y]; [|destruct Hans as [e Ht]; rewrite Ht in Hend|done].
    - destruct Hans as [reply Ht]. rewrite Ht in Hend.
      destruct (Wait schedule (Deactivate w2)) as [[[rc|e|y] w3]|]; [..|done]; injection Hend as <- <-; apply callback_Close_files.
    - injection Hend as <- <-. apply callback_Close_files. }
  rewrite Hmail in Hm. destruct r as [[]|er|y]; [|split; [done|]; destruct Hans as [e ->]; by eexists _, _|done].
  destruct Hans as [reply ->]. rewrite Hm in Hoth. assert (Hok : in_s 32 (verdict args)) by (unfold verdict; destruct (complaint args); width).
  destruct (others_await (verdict args) Hok w1 w2 Hoth) as [Hw2 _]; [by split|].
  change (awaiting (verdict args) (Deactivate w2)) in Hw2. split_and!; [done| |].
  - intros code w' (w0 & Hend & _)%closed_inv. destruct (Wait schedule (Deactivate w2)) as [[rc w3]|] eqn:Ew; [|done].
    destruct (Wait_returns _ Hok _ _ _ _ HF Hw2 Ew) as [->|(e & -> & Hin)]; injection Hend as <- _; [by left|right; eauto].
  - intros pre mid f post Hpre Hmid ->. destruct (Wait_delivered _ Hok _ _ _ _ _ HF Hpre Hmid Hw2) as [w3 ->]. by eexists.
Qed.
End Together.

(** A quiet desk: writes succeed, there are no files, the message comes while the
    command waits. *)
Inductive shell_binder := TheService | CallbackBinder | ResultBinder.

Section Desk.
#[local] Instance desk_os : ShellOS unit :=
  {| sys_Open := λ _ _ e, (inr (mkSysError (Some 2) "no such file"), e); close_fd := λ _ e, (None, e); os_Getwd := λ _, inl "/" |}.
Abbreviation W := (shell_world unit).
Abbreviation V := (service_world unit).
#[local] Instance desk_marshal : BinderMarshal W shell_binder :=
  {| as_StabilityMarshaler := λ _, None;
     as_Marshaler := λ b, Some (WriteStrongBinderHandle (match b with TheService => 1 | CallbackBinder => 2 | ResultBinder => 3 end));
     as_StabilityProvider := λ _, None; type_name := λ _, "binder" |}.
#[local] Instance desk_conn : ShellConn W shell_binder :=
  {| as_registrar := λ _, Some (λ h w, (Ok (match h with TheCallback => CallbackBinder | TheResultReceiver => ResultBinder end), w));
     binder_Close := λ _ w, w |}.
Definition desk_write (fd : Z) (bs : list Z) (e : unit) : (Z * option error) * unit := (len bs, None, e).
Definition desk_accept (e : unit) : option error * unit := (None, e).
Definition desk_resolver (h : Z) (v : V) : option shell_binder * V :=
  (if h =? 2 then Some CallbackBinder else if h =? 3 then Some ResultBinder else None, v).
Definition desk_arrive (p : Parcel W shell_binder) : Parcel V shell_binder :=
  mkParcel (buf p) 0 (objects p) (mode p) (flags p) (Some desk_resolver) None None None true.
Definition desk_arrives (bs : list Z) : Parcel W shell_binder := set_pos 0 (p_emit NewParcel bs []).
#[local] Instance desk_binders : ToolBinder W shell_binder :=
  {| tb_Transact := λ _ _ _ data _ w,
       match data with
       | Some data =>
           match decode_and_execute desk_write desk_accept Background (desk_arrive data) (mkServiceWorld [] tt) with
           | (Ok _, _) => (Ok None, w)
           | (Err e, _) => (Err e, w)
           | (Panic _, _) => (Err (ESentinel ErrFailedTxn), w)
           end
       | None => (Ok None, w)
       end;
     tb_Descriptor := λ _ _ w, (Ok "", w); tb_DebugHandle := λ _, None |}.
Definition desk_world : W := mkShell (mkCallback "" false []) NewResultReceiverHandler [] tt.
Definition desk_manager : ServiceManager W shell_binder :=
  mkServiceManager (λ _ _ w, (Ok ["input"], w)) (λ _ _ w, (Ok (Some TheService), w)) (λ _ _ w, (Ok (Some TheService), w)).
Definition desk_options : @cmd_options unit shell_binder := mkCmdOptions desk_manager 0 1 2 "".
Definition desk_args : list string := ["keyboard"; "-d"; "1"; "tap"; "3"; "4"].
Definition desk_schedule : list (wait_event unit) := [OthersAct (deliver desk_arrives (verdict_message 0)); ChannelDone id].

Lemma cmd_exit_code_witness :
  ∃ w', cmd_Run (λ _, "") Background desk_options desk_schedule ("input" :: desk_args) desk_world = Some (Ok 0, w') ∧
    cb_openFDs (sw_callback w') = [].
Proof.
  destruct (cmd_exit_code desk_write desk_accept TheService CallbackBinder ResultBinder 2 systemStabilityLevel 3 systemStabilityLevel)
    with (callback' := CallbackBinder) (result' := ResultBinder) (resolver := desk_resolver) (arrive := desk_arrive) (arrives := desk_arrives)
         (errno_text := λ _ : Z, "") (ctx := Background) (sctx := Background) (opts := desk_options) (cwd := "/") (args := desk_args)
         (v := mkServiceWorld [] tt) (schedule := desk_schedule) (w := desk_world) as (_ & _ & Hf & _ & _ & Hl).
  - eexists. by split.
  - done.
  - split; (split_and!; [done|done|by apply emits_WriteStrongBinderHandle]).
  - done.
  - done.
  - by intros bs.
  - reflexivity.
  - reflexivity.
  - unfold in_u. split_and!; (discriminate || reflexivity).
  - split; [discriminate|]. by apply (bool_decide_unpack _).
  - vm_compute. discriminate.
  - intros data w. exists w. destruct (decode_and_execute _ _ _ _ _) as [[[]|e|y] v'] eqn:E; (split; [constructor|]);
      cbn [tb_Transact desk_binders]; rewrite E; by eexists.
  - reflexivity.
  - constructor; [|constructor; [|constructor]].
    + intros w. eapply others_deliver; [left|constructor].
    + intros w. constructor.
  - destruct (Hl [] [] id []) as [w' Hr]; [constructor|constructor|reflexivity|]. exists w'. split; [exact Hr|by apply (Hf _ _ Hr)].
Defined.
End Desk.

(** ** Two mistakes *)

(** A request whose argument count is negative stops the service instead of being
    refused. *)
Example negative_count_panics :
  fst ((WriteFileDescriptor (NewFileDescriptor 0);; WriteFileDescriptor (NewFileDescriptor 1);; WriteFileDescriptor (NewFileDescriptor 2);;
        WriteInt32 (-1);; SetPosition 0;; DecodeRequest) (mkst (Some (@NewParcel unit unit)) tt)) = Panic "makeslice: cap out of range".
Proof. vm_compute. reflexivity. Qed.

(** A call that fails with the status UNKNOWN_ERROR, the lowest 32-bit number, leaves
    the process with exit code 0: the low eight bits of the status. *)
Example failure_exits_zero : transactExitCode (EStatusCode StatusUnknownError) = StatusUnknownError ∧ ProcessExitCode StatusUnknownError = 0.
Proof. by vm_compute. Qed.
