(* ===== verification/ShellFiles.v ===== *)
(** * ShellFiles: the descriptors the shell callback holds

    The callback of src/cmd/cmd/interfaces.go serves OpenFile on any thread while the
    command deactivates and closes it.  Here its methods are split where other threads
    can act: between the check of the active flag, the system call, the access check
    and the append under the lock, and between the swap of the list in Close and each
    syscall.Close. *)

From stdpp Require Import base list numbers strings pretty gmap sets.
From S2P Require Import Prelude Errors Aidl GoText Tools Shell.

Open Scope Z_scope.

(** ** The threads *)

(** An OpenFile in flight: past the active check; with a descriptor; refused by the
    access check and about to close it. *)
Inductive opening := Checked | Opened (fd : Z) | RefusedAccess (fd : Z).

(** The handler, the calls in flight, the lists that running Closes still have to
    close, and the open descriptors of the rest of the process. *)
Record files := mkFiles { fl_handler : ShellCallbackHandler; fl_opening : list opening; fl_closing : list (list Z); fl_others : gset Z }.

Definition opening_fds (o : opening) : list Z := match o with Checked => [] | Opened fd | RefusedAccess fd => [fd] end.

(** The open descriptors the callback answers for. *)
Definition held (s : files) : list Z := (fl_opening s ≫= opening_fds) ++ cb_openFDs (fl_handler s) ++ concat (fl_closing s).

Definition with_fds (fds : list Z) (c : ShellCallbackHandler) : ShellCallbackHandler := mkCallback (cb_workingDir c) (cb_active c) fds.
Definition inactive (c : ShellCallbackHandler) : ShellCallbackHandler := mkCallback (cb_workingDir c) false (cb_openFDs c).

(** One step, with the descriptor that syscall.Close is called on, if it is. *)
Inductive fstep : files → option Z → files → Prop :=
| f_check c o l others : cb_active c = true →
    fstep (mkFiles c o l others) None (mkFiles c (o ++ [Checked]) l others)
| f_open c o1 o2 l others fd : 0 <= fd → fd ∉ held (mkFiles c (o1 ++ Checked :: o2) l others) → fd ∉ others →
    fstep (mkFiles c (o1 ++ Checked :: o2) l others) None (mkFiles c (o1 ++ Opened fd :: o2) l others)
| f_open_fails c o1 o2 l others :
    fstep (mkFiles c (o1 ++ Checked :: o2) l others) None (mkFiles c (o1 ++ o2) l others)
| f_refuse c o1 o2 l others fd :
    fstep (mkFiles c (o1 ++ Opened fd :: o2) l others) None (mkFiles c (o1 ++ RefusedAccess fd :: o2) l others)
| f_close_refused c o1 o2 l others fd :
    fstep (mkFiles c (o1 ++ RefusedAccess fd :: o2) l others) (Some fd) (mkFiles c (o1 ++ o2) l others)
| f_record c o1 o2 l others fd :
    fstep (mkFiles c (o1 ++ Opened fd :: o2) l others) None (mkFiles (with_fds (cb_openFDs c ++ [fd]) c) (o1 ++ o2) l others)
| f_deactivate c o l others :
    fstep (mkFiles c o l others) None (mkFiles (inactive c) o l others)
| f_close_begin c o l others :
    fstep (mkFiles c o l others) None (mkFiles (with_fds [] c) o (cb_openFDs c :: l) others)
| f_close_skip c o l1 fd fds l2 others : fd < 0 →
    fstep (mkFiles c o (l1 ++ (fd :: fds) :: l2) others) None (mkFiles c o (l1 ++ fds :: l2) others)
| f_close_one c o l1 fd fds l2 others : 0 <= fd →
    fstep (mkFiles c o (l1 ++ (fd :: fds) :: l2) others) (Some fd) (mkFiles c o (l1 ++ fds :: l2) others)
| f_close_end c o l1 l2 others :
    fstep (mkFiles c o (l1 ++ [] :: l2) others) None (mkFiles c o (l1 ++ l2) others)
| f_others_open c o l others fd : fd ∉ held (mkFiles c o l others) → fd ∉ others →
    fstep (mkFiles c o l others) None (mkFiles c o l ({[fd]} ∪ others))
| f_others_close c o l others fd : fd ∈ others →
    fstep (mkFiles c o l others) None (mkFiles c o l (others ∖ {[fd]})).

Definition files_run (s s' : files) : Prop := ∃ label, fstep s label s'.

Definition fresh_files (dir : string) (others : gset Z) : files := mkFiles (mkCallback dir true []) [] [] others.

(** ** The invariant: one owner for each descriptor *)

Definition files_ok (s : files) : Prop := NoDup (held s) ∧ Forall (λ fd, 0 <= fd ∧ fd ∉ fl_others s) (held s).

(** How the held descriptors change. *)
Lemma held_opening c o1 x o2 l others :
  held (mkFiles c (o1 ++ x :: o2) l others) ≡ₚ opening_fds x ++ held (mkFiles c (o1 ++ o2) l others).
Proof. unfold held. cbn [fl_opening fl_handler fl_closing]. rewrite !bind_app, bind_cons. solve_Permutation. Qed.

Lemma held_closing c o l1 fds l2 others :
  held (mkFiles c o (l1 ++ fds :: l2) others) ≡ₚ fds ++ held (mkFiles c o (l1 ++ l2) others).
Proof. unfold held. cbn [fl_opening fl_handler fl_closing]. rewrite !concat_app. cbn [concat]. solve_Permutation. Qed.

Lemma held_fds c o l others fds :
  held (mkFiles (with_fds fds c) o l others) ≡ₚ fds ++ held (mkFiles (with_fds [] c) o l others).
Proof. unfold held. cbn [fl_opening fl_handler fl_closing with_fds cb_openFDs]. solve_Permutation. Qed.

(** What a step does: nothing, one descriptor more, or one less. *)
Inductive held_change (s s' : files) : option Z → Prop :=
| held_same : held s' ≡ₚ held s → (∀ fd, fd ∈ held s → fd ∉ fl_others s') → held_change s s' None
| held_more fd : held s' ≡ₚ fd :: held s → 0 <= fd → fd ∉ held s → fd ∉ fl_others s → fl_others s' = fl_others s → held_change s s' None
| held_less fd : held s ≡ₚ fd :: held s' → fl_others s' = fl_others s → held_change s s' (Some fd).

Lemma held_step s label s' : fstep s label s' → files_ok s → held_change s s' label.
Proof.
  intros Hs [_ Hok]. rewrite Forall_forall in Hok. assert (Hd := λ fd H, proj2 (Hok fd H)). destruct Hs.
  - apply held_same; [|exact Hd]. rewrite held_opening, app_nil_r. done.
  - apply held_more with fd; try done. by rewrite !held_opening.
  - apply held_same; [|exact Hd]. by rewrite held_opening.
  - apply held_same; [|exact Hd]. by rewrite !held_opening.
  - apply held_less; [|done]. by rewrite held_opening.
  - apply held_same; [|exact Hd]. rewrite held_opening, held_fds. destruct c as [d a fds]. cbn [cb_openFDs].
    rewrite <- (app_comm_cons [] _ fd). cbn [app]. change (mkCallback d a fds) with (with_fds fds (mkCallback d a fds)) at 2.
    rewrite (held_fds _ _ _ _ fds). solve_Permutation.
  - by apply held_same.
  - apply held_same; [|exact Hd]. destruct c as [d a fds]. cbn [cb_openFDs].
    change (mkCallback d a fds) with (with_fds fds (mkCallback d a fds)) at 2. rewrite (held_fds _ _ _ _ fds).
    by rewrite (held_closing _ _ [] fds l).
  - exfalso. destruct (Hok fd); [|lia]. rewrite held_closing. by left.
  - apply held_less; [|done]. by rewrite !held_closing.
  - apply held_same; [|exact Hd]. by rewrite held_closing.
  - apply held_same; [done|]. intros fd' H' Hin. cbn [fl_others] in Hin. set_solver.
  - apply held_same; [done|]. intros fd' H' Hin. cbn [fl_others] in Hin. specialize (Hd fd' H'). set_solver.
Qed.

Lemma files_ok_step s label s' : files_ok s → fstep s label s' → files_ok s'.
Proof.
  intros Hok Hs. destruct (held_step _ _ _ Hs Hok) as [Hp Ho|fd Hp Hn Hh Ho Eo|fd Hp Eo]; destruct Hok as [Hnd Hall]; unfold files_ok.
  - rewrite Hp. split; [done|]. rewrite Forall_forall in *. intros fd Hfd. split; [apply (Hall fd Hfd)|by apply Ho].
  - rewrite Hp, Eo. split; [by constructor|by constructor].
  - rewrite Hp in Hnd, Hall. rewrite Eo. by inversion Hnd; inversion Hall.
Qed.

Lemma files_ok_reachable dir others s : rtc files_run (fresh_files dir others) s → files_ok s.
Proof.
  intros H. assert (H0 : files_ok (fresh_files dir others)) by (split; constructor).
  revert H0. induction H as [|s1 s2 s3 [label Hs] _ IH]; [done|]. intros H0. by apply IH, (files_ok_step s1 label).
Qed.

(** ** After the end *)

(** The command has deactivated the callback and no OpenFile is in flight. *)
Definition quiet (s : files) : Prop := cb_active (fl_handler s) = false ∧ fl_opening s = [].

Definition close_begins (s : files) : files :=
  mkFiles (with_fds [] (fl_handler s)) (fl_opening s) (cb_openFDs (fl_handler s) :: fl_closing s) (fl_others s).

Definition drained (s : files) : Prop := quiet s ∧ cb_openFDs (fl_handler s) = [].

Lemma drained_step s s' : drained s → files_run s s' → drained s'.
Proof.
  intros [[Ha Ho] Hf] [label Hs].
  destruct Hs; cbn [fl_handler fl_opening] in *; try congruence; try (by destruct o1); unfold drained, quiet; cbn; auto.
Qed.

Lemma drained_steps s s' : drained s → rtc files_run s s' → drained s'.
Proof. intros Hd H. induction H as [|s1 s2 s3 Hs _ IH]; [done|]. by apply IH, (drained_step s1). Qed.

(** C37: the descriptors of the shell callback have one owner.  Whatever OpenFile calls,
    access checks, Deactivate and Close calls do on whatever threads, and whatever the
    rest of the process opens and closes: a descriptor that the callback passes to
    syscall.Close is one it opened and has not closed, it is not by then somebody
    else's, and the callback does not hold it any more.  And a Close that begins when
    the callback is deactivated and no OpenFile is in flight leaves, once the Closes
    have ended, no descriptor behind, however long the process lives. *)
Theorem shell_files_safe dir others s : rtc files_run (fresh_files dir others) s →
  (∀ fd s', fstep s (Some fd) s' → fd ∈ held s ∧ (fd ∉ fl_others s) ∧ (fd ∉ held s')) ∧
  (quiet s → ∀ s', rtc files_run (close_begins s) s' → fl_closing s' = [] → held s' = []).
Proof.
  intros Hr. apply files_ok_reachable in Hr. split.
  - intros fd s' Hs. assert (Hc := held_step _ _ _ Hs Hr). inversion Hc as [| |? Hp Eo]; subst. destruct Hr as [Hnd Hall].
    rewrite Hp in Hnd, Hall |- *. inversion Hnd; inversion Hall; subst. split_and!; [by left|tauto|done].
  - intros [Ha Ho] s' Hs Hc. assert (Hd : drained (close_begins s)) by done.
    destruct (drained_steps _ _ Hd Hs) as [[_ Ho'] Hf']. unfold held. by rewrite Ho', Hf', Hc.
Qed.

(** One file opened and recorded, one refused: the Close after Deactivate closes the
    first. *)
Definition demo_callback (active : bool) (fds : list Z) : ShellCallbackHandler := mkCallback "/" active fds.

Lemma one_opened : rtc files_run (fresh_files "/" {[0]}) (mkFiles (demo_callback true [3]) [] [] {[0]}).
Proof.
  eapply rtc_l; [exists None; by apply (f_check _ [])|]. cbn [app].
  eapply rtc_l; [exists None; by apply (f_open _ [] [] _ _ 3); [done| |set_solver]; cbn; set_solver|]. cbn [app].
  eapply rtc_l; [exists None; apply (f_record _ [] [])|]. apply rtc_refl.
Qed.

Lemma shell_files_safe_witness :
  held (mkFiles (demo_callback false [3]) [] [] {[0]}) = [3] ∧
  held (mkFiles (demo_callback false []) [] [] {[0]}) = [].
Proof.
  assert (Hr : rtc files_run (fresh_files "/" {[0]}) (mkFiles (demo_callback false [3]) [] [] {[0]})).
  { etransitivity; [apply one_opened|]. apply rtc_once. exists None. apply (f_deactivate (demo_callback true [3])). }
  destruct (shell_files_safe "/" {[0]} _ Hr) as [_ H]. split; [reflexivity|]. apply H; [done| |done].
  eapply rtc_l; [exists (Some 3); by apply (f_close_one _ _ [] 3 [] [])|]. apply rtc_once. exists None. apply (f_close_end _ _ [] []).
Defined.

(** Without the proviso a file is left open: an OpenFile that found the callback
    active may open its file after the command has deactivated and closed it; the
    descriptor is recorded in a list that nobody reads again. *)
Theorem late_open_leaks :
  ∃ s1 s2, rtc files_run (fresh_files "/" ∅) s1 ∧ rtc files_run (close_begins s1) s2 ∧
    cb_active (fl_handler s1) = false ∧ fl_closing s2 = [] ∧ fl_opening s2 = [] ∧ held s2 = [3].
Proof.
  exists (mkFiles (demo_callback false []) [Checked] [] ∅), (mkFiles (demo_callback false [3]) [] [] ∅). split_and!; try done.
  - eapply rtc_l; [exists None; by apply (f_check _ [])|]. apply rtc_once. exists None. apply (f_deactivate (demo_callback true [])).
  - change (close_begins _) with (mkFiles (demo_callback false []) [Checked] [[]] ∅).
    eapply rtc_l; [exists None; apply (f_close_end _ _ [] [])|].
    eapply rtc_l; [exists None; by apply (f_open _ [] [] _ _ 3); [done| |]; cbn; set_solver|]. cbn [app].
    apply rtc_once. exists None. apply (f_record (demo_callback false []) [] [] [] ∅ 3).
Qed.

(** ** The methods are runs of these steps *)

(** What the system promises: a descriptor that is opened was not open, an errno is
    positive, and Close ends a descriptor. *)
Class DescriptorTable (E : Type) `{OS : !ShellOS E} := {
  fd_table : E → gset Z;
  open_fresh path flags e fd e' : sys_Open path flags e = (inl fd, e') → 0 <= fd ∧ (fd ∉ fd_table e) ∧ fd_table e' = {[fd]} ∪ fd_table e;
  open_failed path flags e err e' : sys_Open path flags e = (inr err, e') → fd_table e' = fd_table e ∧ 0 < errnoValue err;
  close_ends fd e : fd_table (snd (close_fd fd e)) = fd_table e ∖ {[fd]};
}.

Section Methods.
Context {E : Type} `{OS : !ShellOS E} `{DT : !DescriptorTable E}.
Context (accessChecker : option (string → string → bool → bool → option string)).
Abbreviation W := (shell_world E).
Implicit Types w : W.

(** The state between two methods, and the descriptors that are open then. *)
Definition between (others : gset Z) w : files := mkFiles (sw_callback w) [] [] others.
Definition table_ok (others : gset Z) w : Prop :=
  files_ok (between others w) ∧ fd_table (sw_env w) = list_to_set (cb_openFDs (sw_callback w)) ∪ others.

Lemma held_between others w : held (between others w) = cb_openFDs (sw_callback w).
Proof. unfold held. cbn. by rewrite app_nil_r. Qed.

Lemma same_openFDs fds (r : Z) : r < 0 → (0 <= r ↔ fds = fds ++ [r]).
Proof. intros Hr. split; [lia|]. intros H. apply (f_equal length) in H. rewrite length_app in H. cbn in H. lia. Qed.

(** What OpenFile promises. *)
Definition opens_or_not others w r w' : Prop :=
  rtc files_run (between others w) (between others w') ∧ table_ok others w' ∧
  (0 <= r ↔ cb_openFDs (sw_callback w') = cb_openFDs (sw_callback w) ++ [r]).

Lemma not_opened others w r w' : table_ok others w → r < 0 → sw_callback w' = sw_callback w → fd_table (sw_env w') = fd_table (sw_env w) →
  opens_or_not others w r w'.
Proof.
  intros [Hok Ht] Hr Hc He. unfold opens_or_not, table_ok, between. rewrite Hc, He. split_and!; [apply rtc_refl|done..|by apply same_openFDs].
Qed.

Lemma opened others w fd : table_ok others w → cb_active (sw_callback w) = true → 0 <= fd → fd ∉ fd_table (sw_env w) →
  rtc files_run (between others w) (mkFiles (sw_callback w) [Opened fd] [] others).
Proof.
  intros [Hok Ht] Ha Hn Hf. rewrite Ht in Hf. eapply rtc_l; [exists None; by apply f_check|]. apply rtc_once. exists None.
  apply (f_open _ [] [] _ _ fd); [done| |set_solver]. change (fd ∉ held (between others w)). rewrite held_between. set_solver.
Qed.

(** OpenFile on its own. *)
Lemma OpenFile_runs others path seLinuxContext mode w r w' : table_ok others w →
  OpenFile accessChecker path seLinuxContext mode w = (r, w') → opens_or_not others w r w'.
Proof.
  intros Ht H. unfold OpenFile in H. set (fullPath := if filepath_IsAbs path then _ else _) in H. clearbody fullPath.
  destruct (cb_active (sw_callback w)) eqn:Ha; cbn [negb] in H; [|injection H as <- <-; by apply not_opened].
  destruct (openFlagsForMode mode) as [[[flags rd] wr]|]; [|injection H as <- <-; by apply not_opened].
  destruct (sys_Open fullPath flags (sw_env w)) as [[fd|err] e] eqn:Eo.
  2: { injection H as <- <-. destruct (open_failed _ _ _ _ _ Eo) as [Et Hp]. apply not_opened; [done|lia|done|exact Et]. }
  destruct (open_fresh _ _ _ _ _ Eo) as (Hn & Hf & Et). assert (Hrun := opened others w fd Ht Ha Hn Hf). destruct Ht as [[Hnd Hall] Ht].
  rewrite held_between in Hnd, Hall. rewrite Ht in Hf.
  assert (Hrec : ∀ w1, w1 = set_env e w → opens_or_not others w fd
            (set_callback (mkCallback (cb_workingDir (sw_callback w1)) (cb_active (sw_callback w1)) (cb_openFDs (sw_callback w1) ++ [fd])) w1)).
  { intros w1 ->. cbn [sw_callback set_env]. unfold opens_or_not, table_ok, files_ok. rewrite held_between. cbn [set_callback set_env sw_callback sw_env cb_openFDs].
    split_and!; [|apply NoDup_app; split_and!; [done| |apply NoDup_singleton]| | |done].
    - etransitivity; [exact Hrun|]. apply rtc_once. exists None. apply (f_record _ [] []).
    - intros x Hx. rewrite list_elem_of_singleton. intros ->. set_solver.
    - apply Forall_app. split; [done|]. constructor; [|done]. split; [done|]. cbn. set_solver.
    - rewrite Et, Ht. set_solver. }
  unfold admit_file in H.
  destruct accessChecker as [check|]; [|injection H as <- <-; exact (Hrec _ eq_refl)].
  case_bool_decide; [|injection H as <- <-; exact (Hrec _ eq_refl)].
  destruct (check fullPath seLinuxContext rd wr) as [err|]; injection H as <- <-; [|exact (Hrec _ eq_refl)].
  split_and!; [| |by apply same_openFDs].
  - etransitivity; [exact Hrun|]. eapply rtc_l; [exists None; apply (f_refuse _ [] [])|]. apply rtc_once. exists (Some fd).
    apply (f_close_refused _ [] []).
  - split; [split; by rewrite held_between|]. cbn [log_line set_env sw_env sw_callback]. rewrite close_ends, Et, Ht. set_solver.
Qed.

(** Close on its own. *)
Lemma close_fds_runs c others fds e : Forall (λ fd, 0 <= fd) fds →
  rtc files_run (mkFiles c [] [fds] others) (mkFiles c [] [] others) ∧ fd_table (snd (close_fds fds e)) = fd_table e ∖ list_to_set fds.
Proof.
  intros H. revert e. induction H as [|fd fds Hn _ IH]; intros e.
  - split; [|cbn; set_solver]. apply rtc_once. exists None. apply (f_close_end _ _ [] []).
  - destruct (IH (snd (close_fd fd e))) as [Hr Ht]. split.
    + eapply rtc_l; [exists (Some fd); by apply (f_close_one _ _ [] fd fds [])|]. exact Hr.
    + cbn [close_fds]. rewrite ltb_false by done. assert (He := close_ends fd e). destruct (close_fd fd e) as [err e1]. cbn [snd] in *.
      destruct (close_fds fds e1) as [errs e2]. cbn [snd] in *. rewrite Ht, He. set_solver.
Qed.

Lemma callback_Close_runs others w errs w' : table_ok others w → callback_Close w = (errs, w') →
  rtc files_run (close_begins (between others w)) (between others w') ∧ table_ok others w' ∧ fd_table (sw_env w') = others.
Proof.
  intros [[Hnd Hall] Ht] H. rewrite held_between in Hnd, Hall. unfold callback_Close in H.
  destruct (close_fds_runs (with_fds [] (sw_callback w)) others (cb_openFDs (sw_callback w)) (sw_env w)) as [Hr He].
  { eapply Forall_impl; [exact Hall|]. by intros fd [? _]. }
  cbn [sw_env set_callback] in H. destruct (close_fds _ _) as [errs' e]. injection H as <- <-. cbn [snd] in He.
  assert (Ho : fd_table e = others).
  { rewrite He, Ht. apply set_eq. intros fd. rewrite elem_of_difference, elem_of_union, elem_of_list_to_set.
    rewrite Forall_forall in Hall. split; [tauto|]. intros Hfd. split; [by right|]. intros Hin. by destruct (Hall fd Hin). }
  split_and!; [exact Hr| |exact Ho]. split; [split; constructor|]. cbn [set_env set_callback sw_env sw_callback cb_openFDs list_to_set]. set_solver.
Qed.
End Methods.

(** A system that does: the next descriptor is above all open ones. *)
Definition next_fd (t : gset Z) : Z := foldr Z.max 0 (elements t) + 1.

Lemma next_fd_above t fd : fd ∈ t → fd < next_fd t.
Proof.
  rewrite <- elem_of_elements. unfold next_fd. induction (elements t) as [|x l IH]; [intros H; inversion H|].
  rewrite elem_of_cons. cbn. intros [-> | H]; [lia|]. specialize (IH H). lia.
Qed.

Lemma next_fd_nonneg t : 0 <= next_fd t.
Proof. unfold next_fd. assert (0 <= foldr Z.max 0 (elements t)) by (induction (elements t); cbn; lia). lia. Qed.

#[local] Instance table_os : ShellOS (gset Z) :=
  {| sys_Open := λ _ _ t, (inl (next_fd t), {[next_fd t]} ∪ t); close_fd := λ fd t, (None, t ∖ {[fd]}); os_Getwd := λ _, inl "/" |}.

#[local] Program Instance table_laws : DescriptorTable (gset Z) := {| fd_table := id |}.
Next Obligation. intros path flags t fd t' [= <- <-]. split_and!; [apply next_fd_nonneg| |done]. intros H. cbn in H. apply next_fd_above in H. lia. Qed.
Next Obligation. discriminate. Qed.
Next Obligation. done. Qed.

(** Two files opened, the callback deactivated and closed: what is open is what was
    open before. *)
Example session_leaves_nothing :
  let w0 := mkShell (mkCallback "/data" true []) NewResultReceiverHandler [] ({[0; 1; 2]} : gset Z) in
  let w1 := snd (OpenFile None "a" "" "w" w0) in
  let w2 := snd (OpenFile None "/b" "" "r" w1) in
  cb_openFDs (sw_callback w2) = [3; 4] ∧ sw_env (snd (callback_Close (Deactivate w2))) = {[0; 1; 2]} ∧
  fst (OpenFile None "c" "" "r" (Deactivate w2)) = - EPERM.
Proof. vm_compute. done. Qed.
